(* ===== verification/_CoqProject ===== *)
-Q . S2P
Prelude.v
Limbs.v
Division.v
Bignum.v
BignumExt.v
IntegerText.v
Ratio.v
Number.v
Arith.v
Env.v
Hashtable.v
HashKey.v
Opcodes.v
PeepCode.v
Peephole.v
Machine.v
PeepSim.v
PeepWf.v
PeepRules.v
PeepRound.v
PeepDecode.v
PeepFuse.v
PeepFusion.v
PeepEncode.v
PeepSize.v
PeepLines.v
PeepRelabel.v
Example.v
PeepCorrect.v
GcHeap.v
GcGraph.v
GcMark.v
GcSweep.v
GcCollect.v
GcBits.v
GcFwd.v
GcLookup.v
GcUpdate.v
GcSlide.v
GcMove.v
GcCompact.v
GcNext.v
GcAlloc.v
GcPolicy.v
BindBlob.v
BindPack.v
BindValue.v
BindRows.v
BindTable.v
BindUnpack.v
Package.v
PackWf.v
PackOps.v
PackLookup.v
PackThreads.v
PackDemo.v
