(* ===== verification/Prelude.v ===== *)
(** * A verification development for the AmiLisp runtime

    AmiLisp is a Common Lisp whose runtime and compiler are written in C
    (src/src/core).  This library translates parts of that C code into
    executable Gallina definitions, one file per component, and proves what
    the components promise.  Definitions keep the names of the C functions;
    each file's opening comment names the C files it translates.

    ** The program and its parts

    A Lisp object is a 32-bit word (types.h): a tagged fixnum or character, or
    the arena offset of a heap object.  The reader builds objects from text,
    the compiler turns forms into bytecode with the help of compile-time
    environments (env.c), a peephole pass rewrites the finished bytecode of a
    function (peephole.c, over the opcode table of opcodes.h), the virtual
    machine runs it and calls the builtins, and a compacting collector moves
    the heap objects.  The parts modelled here are the exact number tower below
    the arithmetic builtins, with the reading and printing of integers; the
    compile-time environments; the hash tables with the compactor's rebuilding
    of them; the peephole pass, with as much of the virtual machine as the
    instructions it rewrites need; and the classic collector's mark, sweep and
    compaction, with the allocation that runs them; the binding tables, in which a
    generated module packs its names (bindtab.c); and the packages, which look
    names up, intern them and build the symbols of a binding table when they are
    asked for (package.c, symbol.c).

    ** Files

    - Prelude: C integer conversions ([u8] ... [i32]), the [result] type of
      code that may call cl_error (which never returns), masks and shifts as
      arithmetic, and the shared tactics ([unwrap], [divmod]).
    - Limbs, Division: the limb-array kernels of bignum.c: addition,
      subtraction, both schoolbook multiplications, algorithm D.  A C array is
      the list of its elements, least significant limb first.
    - Bignum: integer objects, normalization, dispatch, + - * TRUNCATE MOD,
      comparison, EQL and hashing.  [rep a z]: the object [a] is canonical and
      denotes [z].
    - BignumExt: GCD, EXPT, ISQRT, shifts, two's-complement logic, bit counts.
    - IntegerText: printing and reading integers in all radices.
    - Ratio: ratio.c over [rrep r q], [q] in Q.
    - Number: the dispatch with complex numbers over [crep x z].
    - Arith: the n-ary builtins of builtins_arith.c, the FLOOR family, byte
      specifiers, BOOLE.
    - Env: env.c with the parts of the compiler that leave a scope, inline a
      local function and build a macro's environment argument.
    - Hashtable: the tables of builtins_hashtable.c over any keys that satisfy
      the class [KeyLaws], the steps of threads that share one, and
      gc_rehash_table over any move that satisfies [MoveLaws].
    - HashKey: hash_obj and keys_equal on heap objects, which discharge both
      classes, and the properties of the tables with these keys.
    - Opcodes: CL_OPCODE_LIST, one constructor per row, with values, operand
      kinds and flags.
    - PeepCode, Peephole: peephole.c.  PeepCode has the instruction list, its
      decoding from bytes, the target marks and the encoder; Peephole the
      rewrites, the fusion and the driver cl_peephole_run.  A C pointer into
      the instruction array is an index.
    - Machine: the dispatch cases of vm.c for the instructions the pass
      touches, over the class [VM] of what the rest of the runtime provides;
      [VMLaws] is the meaning of the flag columns of opcodes.h.
    - PeepSim: runs of an instruction list, when one list refines another, and
      the simulation that a rewrite has to satisfy.  PeepWf: the well-formed
      lists.  PeepRules: each of the eight rewrites is such a simulation.
      PeepRound: target marks, a round, all rounds.
    - PeepDecode: decoding yields well-formed lists.  PeepFuse and PeepFusion:
      superinstructions against the sequences they replace, one by one and then
      in place.  PeepEncode, PeepSize, PeepLines: the emitted bytes, their
      number, the line table.  PeepRelabel: code at new addresses runs alike,
      for machines that treat addresses as opaque ([VMLabels]).
    - Example: a small machine that satisfies both classes, and codes for it.
    - PeepCorrect: the theorems about cl_peephole_run, from bytes to bytes.

    - GcHeap: memory as words at addresses, header words, the arena walk of
      mem.h, and the slots of every heap type (GC_WALK_OBJ_CHILDREN), over the
      class [Layout] of what depends on the C compiler.  GcGraph: the object
      graph, reachability, the well-formed heap [heap_wf]; a 64-bit and a
      32-bit layout, and two small heaps.
    - GcMark (gc_trace.c), GcSweep and GcCollect (gc_classic.c): the mark phase
      with its stack, the sweep, and the collection made of the two.
    - GcBits, GcFwd, GcLookup: pass 2 of gc_compact.c, the bitmap, page table
      and pin gaps, and the lookup gc_forward.  GcUpdate: pass 3, the roots and
      the slots.  GcSlide: pass 4.  GcMove: an object at a new address.
      GcCompact: cl_gc_compact and its fallbacks.
    - GcNext: what a collection leaves can be collected again.  GcAlloc,
      GcPolicy: cl_alloc (mem.c) and the classic backend's policy (gc_backend.h,
      gc_classic.c) over the collections.

    - BindBlob: the binding tables of bindtab.c as bytes: views of a blob, its
      validation, the probe.  BindPack: the packer, from rows to a blob, and the
      definitions a row stands for ([row_specs]).  BindValue: the encodings of a
      value.  BindRows: what the parser of rows adds.  BindTable: rows, records
      and blob together.  BindUnpack: a table listed as rows again.

    - Package: symbols, packages and the operations on them, from FIND-SYMBOL
      and INTERN to registering a binding table, over one state [World].
      PackWf: the invariant [wf].  PackOps: every operation keeps it.
      PackLookup: what an update does to the lookups of every name in every
      package ([evolves]).  PackThreads: cl_intern_in cut into the turns a
      thread takes between its critical sections, and what any schedule of such
      turns keeps; [alone_start] says that one thread's turns are cl_intern_in.
      PackDemo: a small system of packages.

    The number files build on each other in the order listed, each through
    the representation relation and the hint database of the one below
    ([ints], [rats]); Hashtable and HashKey meet in the two classes.  The
    peephole files meet Machine in [VMLaws] and [VMLabels] only, so their
    theorems hold for every runtime behind the dispatch loop that keeps these.

    ** What the theorems show

    - Arithmetic: every operation computes the exact mathematical result and
      returns the one canonical object for it, on every branch of the code,
      overflow of intermediate words included, and errors exactly where a
      divisor is zero.  The 32-bit, 64-bit and 68000 variants of a routine
      agree.  Where the code departs from this (the quotient of
      MOST-NEGATIVE-FIXNUM by -1, bignums of 65536 limbs and more in negation,
      EXPT with a negative exponent, which returns constants),
      a theorem says so.
    - Text: printing then reading is the identity on integers of at most 255
      characters and an error of the reader on longer ones, and the tokens read
      as integers are exactly the numerals.
    - Environments: flat-closure capture refines lexical lookup, scopes keep
      their invariant as long as none of the forms that take a slot without
      looking at the count meets a full scope ([full_scope_reached] is what
      happens then), macros are inherited and inlining hides names as the
      definition environment does, for the names of which that environment
      hides no entry itself ([inline_bands_incomplete]).
    - Hash tables: any interleaving of operations refines a finite map, growth
      and compaction preserve it, sizes stay within their cap; the four tests
      are equivalences that the hash respects, with two exceptions proved.
    - Peephole pass: the emitted bytes refine the original ones: from every
      fresh activation (started at the first instruction, with no landings) in
      which the original makes sense they make sense, end exactly when it ends,
      and with the same result.  Behind it: decoding accepts only
      well-formed code, each rewrite and each fusion is a simulation, the
      encoder's output decodes to the rewritten list, the code never grows, and
      an entry of the line table goes to the instruction that absorbed its own
      or to the next one left ([covers]; [line_entry_in_gap] shows what this
      does to the entry of an instruction deleted inside a pair).  Two hypotheses are explicit: a cleanup form
      does not look at the value count it inherits ([cleanups_mv_dead]), and
      a global call fused with the GLOAD before it does not either
      ([fusible_calls_ok]); a theorem shows that the second is needed.

    - Garbage collector: marking ends with exactly the reachable objects
      marked, whatever the growth and the overflow of its stack; a sweep keeps
      the reachable objects word for word and makes everything else the free
      list; the compactor's lookup agrees with its slide; roots are forwarded
      once; a compaction yields a well-formed heap whose object graph is the
      old one renamed, in order, downwards, pinned objects fixed; and when it
      cannot move anything it is a sweep.  This is about the heap as the slide
      leaves it, before the hash tables are rebuilt.  What the heap must be like is
      [heap_wf], and for a compaction [movable]: among others every slot is
      owned by one object and every root slot is visited by one walk.
    - Allocation: from a heap that is [ready], cl_alloc hands out a fresh block
      and leaves a heap that is ready, whatever collections it ran, and fails
      only when nothing is large enough; where the absorbed tail of the front
      defeats the size check ([tail_fits] excludes it), a theorem says so.
    - Binding tables: a packed blob validates and holds the definitions of its
      rows, values included, stably sorted by name; probing it is a search
      through the rows in their order; on any blob that validates the probe
      finds what is there; and the rows it is listed as define the same, unless
      one of them is an embedded structure.
    - Packages: in every reachable state names are unique, found and counted,
      and the cached export flag of a symbol's home is exact.  The steps give
      EXPORT, IMPORT and SHADOWING-IMPORT only symbols whose name hash has been
      filled; GENSYM and the FASL reader make others, and for those it fails.  Building the
      symbols of a binding table on demand cannot be seen by any lookup.  INTERN
      finds or makes exactly one symbol, also from several threads at once: each
      ends after eight turns of its own and no answer is ever taken back.  The
      theorems on lookups ask for [calm] packages: the present names of a table
      are exported, no table has an entry named as the writer of one of its
      fields, and no package uses KEYWORD.  Lemmas of PackDemo show where
      IMPORT of a GENSYM, UNEXPORT, UNINTERN, SHADOWING-IMPORT and the interning of keywords depart
      from what the comments promise.

    ** Bounds and fuel

    Loops that are not structural take fuel computed from their input:
    [gcd_fuel] is twice the bit length of the second operand and [expt_fuel]
    the bit length of the exponent; the theorems say that any larger amount
    gives the same result.  The Newton loop of ISQRT has the 1000 iterations
    of the C code, shown to be enough for every integer the heap can hold
    ([heap_ok]), and the search that follows it any positive fuel.  [round_up] doubles 21 times, past
    the maximal table size.
    [BITS16] = 1048560 is the number of bits below which a bignum has fewer
    than 65536 limbs, the range of the uint16_t lengths of cl_arith_negate and
    cl_arith_abs; rational and complex results carry a bound [k] on the bits
    of their operands so that it is never passed.
    Tables hold fewer than 2^32 entries, as their uint32_t count says.
    The peephole pass has the bounds of its C code: 8 rounds, 16 hops per jump,
    CL_PEEPHOLE_MAX_CODE bytes.  Its scans have one unit of fuel per
    byte or per instruction and one more, and the theorems about them are about
    the results, so a scan cut short would falsify them.  A run of a list is
    the iteration of one step; [refines] compares runs of any length.

    The collector's loops have one unit of fuel per byte below the bump front,
    and blocks are at least a header long: [walk_fuel] for walks, drains and
    re-scans, [S total] for a free gap, the array length for bisections.  The
    theorems say what the passes achieve, so a pass cut short would falsify
    them.

    ** Not modelled

    In the number, hash-table and environment files allocation always
    succeeds, except for the bucket vectors of hash tables;
    the storage errors above CL_MAX_BIGNUM_LIMBS and the GC rooting discipline
    are left out.  Floats occur only as keys of hash tables, by their bit
    patterns.  Conditions are values: what handlers do with an error is not
    modelled.  Of the virtual machine, the instructions the peephole pass only
    moves are one operation of the class [VM] ([exec_other]), a call being one
    step of its caller; the stack limit of cl_vm_push, safepoints, tracing and
    the debugging guards are left out.  Of the collector, the enumeration of
    the roots, the conservative scan that pins objects and the release of
    resources of dead objects are parameters; allocation by several threads, the generational
    mode, the Immix backend, the block-start index, the forwarding of
    immediates in native code and, after a move, the walk that rebuilds every
    hash table (one table's rebuilding is in Hashtable), the threads' tables of
    dynamic bindings and the table of source locations are left out, and layouts with slots off a 4-byte boundary (CL_Bytecode on
    the 68000) are outside [LayoutLaws].  The compiler proper, the native code
    generators, the registry, names and nicknames of packages and the bulk
    exports of the boot, streams, FORMAT, threads beyond the hash-table lock and
    the package lock, and the platform layer are not modelled. *)

From Stdlib Require Import ZArith List Lia Bool.
Import ListNotations.
Local Open Scope Z_scope.

Declare Scope amilisp_scope.
Delimit Scope amilisp_scope with amilisp.

(** ** C integers: values of Z, with every conversion written out *)

(** Conversions to the unsigned C types of the runtime. *)
Definition u8 (x : Z) : Z := x mod 2 ^ 8.
Definition u16 (x : Z) : Z := x mod 2 ^ 16.
Definition u32 (x : Z) : Z := x mod 2 ^ 32.
Definition u64 (x : Z) : Z := x mod 2 ^ 64.
Definition u128 (x : Z) : Z := x mod 2 ^ 128.

(** Conversion to [int32_t] (two's complement, as every target does). *)
Definition i32 (x : Z) : Z := (x + 2 ^ 31) mod 2 ^ 32 - 2 ^ 31.

(** The truth value of a C [int]. *)
Definition Zb (b : bool) : Z := if b then 1 else 0.

(** ** Errors: cl_error(code, ...) never returns, so a fallible builtin is a
    value of [result] (codes of src/src/core/error.h). *)
Inductive cl_err : Set :=
| CL_ERR_TYPE | CL_ERR_ARGS | CL_ERR_DIVZERO | CL_ERR_STORAGE | CL_ERR_GENERAL | CL_ERR_PARSE.

Inductive result (A : Type) : Type :=
| Ok (a : A)
| Err (e : cl_err).
Arguments Ok {A} a.
Arguments Err {A} e.

Definition bind {A B} (m : result A) (k : A -> result B) : result B :=
  match m with Ok a => k a | Err e => Err e end.

Notation "x <- m ;; k" := (bind m (fun x => k))
  (at level 100, m at next level, right associativity) : amilisp_scope.

(** ** Generic lemmas: wrap-around *)

Lemma u16_small x : 0 <= x < 65536 -> u16 x = x.
Proof. unfold u16; intros; apply Z.mod_small; lia. Qed.

Lemma u32_small x : 0 <= x < 4294967296 -> u32 x = x.
Proof. unfold u32; intros; apply Z.mod_small; lia. Qed.

Lemma u64_small x : 0 <= x < 18446744073709551616 -> u64 x = x.
Proof. unfold u64; intros; apply Z.mod_small; lia. Qed.

Lemma i32_small x : - 2147483648 <= x < 2147483648 -> i32 x = x.
Proof. unfold i32; intros; rewrite Z.mod_small; lia. Qed.

Lemma u16_range x : 0 <= u16 x < 65536.
Proof. unfold u16; change 65536 with (2 ^ 16); apply Z.mod_pos_bound; lia. Qed.

Lemma u32_range x : 0 <= u32 x < 4294967296.
Proof. unfold u32; change 4294967296 with (2 ^ 32); apply Z.mod_pos_bound; lia. Qed.

Lemma i32_range x : - 2147483648 <= i32 x < 2147483648.
Proof.
  unfold i32. pose proof (Z.mod_pos_bound (x + 2 ^ 31) (2 ^ 32)). lia.
Qed.

(** ** Generic lemmas: masks and shifts as arithmetic *)

Lemma land_mask x k : 0 <= k -> Z.land x (2 ^ k - 1) = x mod 2 ^ k.
Proof.
  intros. rewrite <- Z.land_ones by lia. now rewrite Z.ones_equiv.
Qed.

Lemma land_ffff x : Z.land x 65535 = x mod 65536.
Proof. apply (land_mask x 16). lia. Qed.

Lemma land_ffffffff x : Z.land x 4294967295 = x mod 4294967296.
Proof. apply (land_mask x 32). lia. Qed.

Lemma land_1 x : Z.land x 1 = x mod 2.
Proof. apply (land_mask x 1). lia. Qed.

Lemma shr_div x k : 0 <= k -> Z.shiftr x k = x / 2 ^ k.
Proof. apply Z.shiftr_div_pow2. Qed.

Lemma shr16 x : Z.shiftr x 16 = x / 65536.
Proof. now rewrite Z.shiftr_div_pow2. Qed.

Lemma shr32 x : Z.shiftr x 32 = x / 4294967296.
Proof. now rewrite Z.shiftr_div_pow2. Qed.

Lemma shl16 x : Z.shiftl x 16 = x * 65536.
Proof. now rewrite Z.shiftl_mul_pow2. Qed.

(** A shifted word or-ed with a word below the shift is their sum. *)
Lemma lor_shiftl_add x y k :
  0 <= k -> 0 <= y < 2 ^ k -> Z.lor (Z.shiftl x k) y = x * 2 ^ k + y.
Proof.
  intros Hk Hy. destruct (Z.eq_dec y 0) as [->|Hy0].
  { rewrite Z.lor_0_r, Z.shiftl_mul_pow2 by lia; lia. }
  assert (Hland : Z.land (Z.shiftl x k) y = 0).
  { apply Z.bits_inj'; intros n Hn; rewrite Z.land_spec, Z.bits_0.
    destruct (Z.lt_ge_cases n k).
    - rewrite Z.shiftl_spec_low by lia; reflexivity.
    - rewrite (Z.bits_above_log2 y n), Bool.andb_false_r; trivial; try lia.
      apply Z.log2_lt_pow2; try lia.
      apply Z.lt_le_trans with (2 ^ k); [lia | apply Z.pow_le_mono_r; lia]. }
  rewrite <- Z.shiftl_mul_pow2 by lia.
  now rewrite Z.add_nocarry_lxor, Z.lxor_lor.
Qed.

Lemma lor_add_shiftl x y k :
  0 <= k -> 0 <= y < 2 ^ k -> Z.lor y (Z.shiftl x k) = y + x * 2 ^ k.
Proof. intros; rewrite Z.lor_comm, lor_shiftl_add by lia; lia. Qed.

Lemma lor_shl16 x y : 0 <= y < 65536 -> Z.lor (Z.shiftl x 16) y = x * 65536 + y.
Proof. intros; apply (lor_shiftl_add x y 16); lia. Qed.

(** Two 16-bit halves as one [uint32_t]. *)
Lemma lor_add_shiftl_u lo hi :
  0 <= lo < 65536 -> 0 <= hi < 65536 -> Z.lor lo (u32 (Z.shiftl hi 16)) = lo + hi * 65536.
Proof.
  intros. rewrite u32_small by (rewrite shl16; lia). now rewrite lor_add_shiftl by lia.
Qed.

(** Bitwise operations stay inside a power of two. *)
Lemma bits_bound x k :
  0 <= k -> 0 <= x < 2 ^ k <-> 0 <= x /\ forall n, k <= n -> Z.testbit x n = false.
Proof.
  intros Hk. split.
  - intros [H0 H1]. split; [trivial|]. intros n Hn.
    destruct (Z.eq_dec x 0) as [->|]; [apply Z.bits_0|].
    apply Z.bits_above_log2; [trivial|].
    apply Z.lt_le_trans with k; [apply Z.log2_lt_pow2; lia | trivial].
  - intros [H0 H1]. split; [trivial|]. destruct (Z.eq_dec x 0) as [->|];
      [apply Z.pow_pos_nonneg; lia|].
    apply Z.log2_lt_pow2; [lia|]. destruct (Z.lt_ge_cases (Z.log2 x) k); [trivial|].
    specialize (H1 (Z.log2 x) H). rewrite Z.bit_log2 in H1; [discriminate | lia].
Qed.

Lemma lor_bound x y k :
  0 <= k -> 0 <= x < 2 ^ k -> 0 <= y < 2 ^ k -> 0 <= Z.lor x y < 2 ^ k.
Proof.
  intros Hk [Hx Bx]%bits_bound [Hy By]%bits_bound; trivial. apply bits_bound; [trivial|].
  split; [now apply Z.lor_nonneg|]. intros n Hn. now rewrite Z.lor_spec, Bx, By.
Qed.

Lemma lxor_bound x y k :
  0 <= k -> 0 <= x < 2 ^ k -> 0 <= y < 2 ^ k -> 0 <= Z.lxor x y < 2 ^ k.
Proof.
  intros Hk [Hx Bx]%bits_bound [Hy By]%bits_bound; trivial. apply bits_bound; [trivial|].
  split; [apply Z.lxor_nonneg; lia|]. intros n Hn. now rewrite Z.lxor_spec, Bx, By.
Qed.

Lemma land_bound x y k : 0 <= k -> 0 <= x < 2 ^ k -> 0 <= y -> 0 <= Z.land x y < 2 ^ k.
Proof.
  intros Hk [Hx Bx]%bits_bound Hy; trivial. apply bits_bound; [trivial|].
  split; [apply Z.land_nonneg; lia|]. intros n Hn. now rewrite Z.land_spec, Bx.
Qed.

(** Rewriting base for "the word operations as arithmetic". *)
Create Rewrite HintDb words.
#[export] Hint Rewrite land_ffff land_ffffffff land_1 shr16 shr32 shl16 : words.

(** Discharge wrap-around: every [u16]/[u32]/[u64] whose argument [lia] can
    bound disappears. *)
Ltac unwrap :=
  repeat match goal with
    | |- context [u32 ?x] => rewrite (u32_small x) by lia
    | |- context [u16 ?x] => rewrite (u16_small x) by lia
    | |- context [u64 ?x] => rewrite (u64_small x) by lia
    | |- context [i32 ?x] => rewrite (i32_small x) by lia
    end.

(** Name the quotient and remainder of every division in sight. *)
Ltac divmod :=
  Z.div_mod_to_equations.

(** ** Generic lemmas: lists as C arrays *)

Lemma length_repeat_app {A} (x : A) n l :
  length (repeat x n ++ l) = (n + length l)%nat.
Proof. now rewrite length_app, repeat_length. Qed.

Lemma Forall_rev_iff {A} (P : A -> Prop) l : Forall P (rev l) <-> Forall P l.
Proof.
  split; intros H.
  - rewrite <- (rev_involutive l). now apply Forall_rev.
  - now apply Forall_rev.
Qed.

Lemma firstn_skipn_split {A} n (l : list A) : l = firstn n l ++ skipn n l.
Proof. symmetry; apply firstn_skipn. Qed.
