(* ===== verification/Limbs.v ===== *)
(** * Magnitudes: the raw limb arrays of src/src/core/bignum.c

    A C array of limbs with its length is the list of its elements, least
    significant first ([bn->limbs[0..len)]).  Each loop of the C code is a
    recursive function over the array it walks; the conversions to [uint16_t],
    [uint32_t] and [uint64_t] are the ones the C code writes, and the theorems
    show that no intermediate loses a bit.

    The file holds comparison, addition, subtraction, both schoolbook
    multiplications (16-bit limbs for the 68020, 32-bit limbs for 64-bit
    hosts), the bignum-by-fixnum multiplication of both builds, and the
    packing between the two limb sizes. *)

From Stdlib Require Import ZArith List Lia Bool.
From S2P Require Import Prelude.
Import ListNotations.
Local Open Scope Z_scope.

(** ** The number a limb array denotes *)

(** Base-[B] digits, least significant first. *)
Fixpoint valB (B : Z) (l : list Z) : Z :=
  match l with
  | [] => 0
  | d :: t => d + B * valB B t
  end.

(** Every element is a digit: the array holds values of its C type. *)
Definition wfB (B : Z) (l : list Z) : Prop := Forall (fun d => 0 <= d < B) l.

(** 16-bit limbs, the heap format. *)
Abbreviation val := (valB 65536).
Abbreviation wf := (wfB 65536).

(** 32-bit limbs, the host's scratch format. *)
Abbreviation val32 := (valB 4294967296).
Abbreviation wf32 := (wfB 4294967296).

(** [while (len > 1 && limbs[len - 1] == 0) len--]: drop the zero limbs on
    top, keep at least one. The list is walked from its top limb. *)
Fixpoint strip_top (r : list Z) : list Z :=
  match r with
  | d :: ((_ :: _) as t) => if d =? 0 then strip_top t else r
  | _ => r
  end.

Definition strip (l : list Z) : list Z := rev (strip_top (rev l)).

(** No zero limb on top, except in the one-limb representation of zero. *)
Definition canonical (l : list Z) : Prop :=
  (1 <= length l)%nat /\ (length l = 1%nat \/ last l 0 <> 0).

(** ** Comparison *)

(** [for (i = a_len; i > 0; i--)], on the arrays read from the top. *)
Fixpoint compare_top (ra rb : list Z) : Z :=
  match ra, rb with
  | x :: ra', y :: rb' =>
      if negb (x =? y) then (if x >? y then 1 else -1) else compare_top ra' rb'
  | _, _ => 0
  end.

Definition bignum_compare_mag (a b : list Z) : Z :=
  if negb (length a =? length b)%nat
  then (if (length b <? length a)%nat then 1 else -1)
  else compare_top (rev a) (rev b).

(** ** Addition *)

(** The second loop (the longer operand's tail) and the final carry limb. *)
Fixpoint add_carry (a : list Z) (carry : Z) : list Z :=
  match a with
  | [] => if carry =? 0 then [] else [u16 carry]
  | x :: a' =>
      let sum := u32 (x + carry) in
      u16 (Z.land sum 65535) :: add_carry a' (Z.shiftr sum 16)
  end.

(** The first loop; [b] is the shorter operand. *)
Fixpoint add_loop (a b : list Z) (carry : Z) : list Z :=
  match a, b with
  | x :: a', y :: b' =>
      let sum := u32 (u32 (x + y) + carry) in
      u16 (Z.land sum 65535) :: add_loop a' b' (Z.shiftr sum 16)
  | _, _ => add_carry a carry
  end.

Definition bignum_add_mag (a b : list Z) : list Z :=
  if (length a <? length b)%nat then add_loop b a 0 else add_loop a b 0.

(** ** Subtraction (a >= b) *)

Fixpoint sub_borrow (a : list Z) (borrow : Z) : list Z :=
  match a with
  | [] => []
  | x :: a' =>
      let diff := u32 (x - borrow) in
      u16 (Z.land diff 65535) :: sub_borrow a' (Z.land (Z.shiftr diff 16) 1)
  end.

Fixpoint sub_loop (a b : list Z) (borrow : Z) : list Z :=
  match a, b with
  | x :: a', y :: b' =>
      let diff := u32 (u32 (x - y) - borrow) in
      u16 (Z.land diff 65535) :: sub_loop a' b' (Z.land (Z.shiftr diff 16) 1)
  | _, _ => sub_borrow a borrow
  end.

Definition bignum_sub_mag (a b : list Z) : list Z := strip (sub_loop a b 0).

(** ** Schoolbook multiplication, for limbs of [w] bits

    [dword] is the double-width type of the intermediates.  [r] is the suffix
    of the result array that starts at index [i]. *)
Section Schoolbook.
Variable w : Z.

Definition limb (x : Z) : Z := x mod 2 ^ w.
Definition dword (x : Z) : Z := x mod 2 ^ (2 * w).

(** The inner loop on [j] and [result[i + b_len] += carry]. *)
Fixpoint mul_row (x : Z) (b r : list Z) (carry : Z) : list Z :=
  match b, r with
  | y :: b', d :: r' =>
      let prod := dword (x * y + d + carry) in
      limb (Z.land prod (2 ^ w - 1)) :: mul_row x b' r' (Z.shiftr prod w)
  | [], d :: r' => limb (d + limb carry) :: r'
  | _, [] => []
  end.

(** The outer loop on [i]: row [i + 1] starts one limb further. *)
Fixpoint mul_rows (a b r : list Z) : list Z :=
  match a with
  | [] => r
  | x :: a' =>
      match mul_row x b r 0 with
      | [] => []
      | d :: r' => d :: mul_rows a' b r'
      end
  end.

Definition schoolbook (a b : list Z) : list Z :=
  strip (mul_rows a b (repeat 0 (length a + length b))).
End Schoolbook.

Definition bignum_mul_mag (a b : list Z) : list Z := schoolbook 16 a b.

Definition bignum_mul_mag32 (a b : list Z) : list Z := schoolbook 32 a b.

(** ** Packing pairs of 16-bit limbs *)

Fixpoint pack_16_to_32 (l : list Z) : list Z :=
  match l with
  | lo :: hi :: t => Z.lor lo (u32 (Z.shiftl hi 16)) :: pack_16_to_32 t
  | [lo] => [lo]
  | [] => []
  end.

Fixpoint unpack_loop (l : list Z) : list Z :=
  match l with
  | [] => []
  | d :: t => u16 (Z.land d 65535) :: u16 (Z.shiftr d 16) :: unpack_loop t
  end.

Definition unpack_32_to_16 (l : list Z) : list Z := strip (unpack_loop l).

(** ** Multiplication by one small multiplier *)

(** The last loop: [for (; i < r_len; i++)], [n] limbs still to write. *)
Fixpoint fill_carry (n : nat) (carry : Z) : list Z :=
  match n with
  | O => []
  | S n' => u16 (Z.land carry 65535) :: fill_carry n' (Z.shiftr carry 16)
  end.

(** The host's steps: four limbs through a 128-bit product while four are
    left, then two through a 64-bit product, then one. [n] limbs of the
    result are still to write. *)
Fixpoint mul_small_2 (a : list Z) (m carry : Z) (n : nat) {struct a} : list Z :=
  match a with
  | x0 :: x1 :: t =>
      let prod := u64 (u64 (u32 (Z.lor x0 (u32 (Z.shiftl x1 16))) * m) + carry) in
      u16 (Z.land prod 65535) :: u16 (Z.land (Z.shiftr prod 16) 65535)
        :: mul_small_2 t m (Z.shiftr prod 32) (n - 2)
  | [x0] =>
      let prod := u64 (u64 (x0 * m) + carry) in
      u16 (Z.land prod 65535) :: fill_carry (n - 1) (Z.shiftr prod 16)
  | [] => fill_carry n carry
  end.

Fixpoint mul_small_4 (a : list Z) (m carry : Z) (n : nat) {struct a} : list Z :=
  match a with
  | x0 :: x1 :: x2 :: x3 :: t =>
      let x := Z.lor (Z.lor (Z.lor x0 (u64 (Z.shiftl x1 16)))
                       (u64 (Z.shiftl x2 32))) (u64 (Z.shiftl x3 48)) in
      let prod := u128 (u128 (x * m) + carry) in
      let lo := u64 prod in
      u16 (Z.land lo 65535) :: u16 (Z.land (Z.shiftr lo 16) 65535)
        :: u16 (Z.land (Z.shiftr lo 32) 65535) :: u16 (Z.shiftr lo 48)
        :: mul_small_4 t m (u64 (Z.shiftr prod 64)) (n - 4)
  | _ => mul_small_2 a m carry n
  end.

(** bignum_mul_small as a 64-bit host compiles it. *)
Definition bignum_mul_small (a : list Z) (m : Z) (r_len : nat) : list Z :=
  mul_small_4 a m 0 r_len.

(** ... and as the 68020 does: 16x16->32 products only. *)
Fixpoint mul_small_68k_lo (a : list Z) (ml carry : Z) (n : nat) : list Z :=
  match a with
  | [] => fill_carry n carry
  | x :: t =>
      let prod := u32 (u32 (x * ml) + carry) in
      u16 (Z.land prod 65535) :: mul_small_68k_lo t ml (Z.shiftr prod 16) (n - 1)
  end.

Fixpoint mul_small_68k_hi (a : list Z) (ml mh carry : Z) (n : nat) : list Z :=
  match a with
  | [] => fill_carry n carry
  | x :: t =>
      let p0 := u32 (u32 (x * ml) + Z.land carry 65535) in
      u16 (Z.land p0 65535)
        :: mul_small_68k_hi t ml mh
             (u32 (u32 (u32 (x * mh) + Z.shiftr carry 16) + Z.shiftr p0 16)) (n - 1)
  end.

Definition bignum_mul_small_68k (a : list Z) (m : Z) (r_len : nat) : list Z :=
  let ml := Z.land m 65535 in
  let mh := Z.shiftr m 16 in
  if mh =? 0 then mul_small_68k_lo a ml 0 r_len
  else mul_small_68k_hi a ml mh 0 r_len.

(** Number of significant bits: [while (v) { n++; v >>= 1; }]. *)
Fixpoint bit_length_loop (fuel : nat) (v : Z) : Z :=
  match fuel with
  | O => 0
  | S f => if v =? 0 then 0 else 1 + bit_length_loop f (Z.shiftr v 1)
  end.

Definition bit_length32 (v : Z) : Z := bit_length_loop 32 v.

(** ** Lemmas on [valB], [wfB] and [strip] *)

Section ValB.
Variable B : Z.
Hypothesis B_pos : 1 < B.

Lemma valB_app l1 l2 :
  valB B (l1 ++ l2) = valB B l1 + B ^ Z.of_nat (length l1) * valB B l2.
Proof.
  induction l1 as [|d l1 IH]; cbn [valB app length].
  - change (Z.of_nat 0) with 0; rewrite Z.pow_0_r; lia.
  - rewrite IH, Nat2Z.inj_succ, Z.pow_succ_r by lia. ring.
Qed.

Lemma wfB_app l1 l2 : wfB B (l1 ++ l2) <-> wfB B l1 /\ wfB B l2.
Proof. apply Forall_app. Qed.

Lemma wfB_cons d l : wfB B (d :: l) <-> 0 <= d < B /\ wfB B l.
Proof. apply Forall_cons_iff. Qed.

Lemma valB_nonneg l : wfB B l -> 0 <= valB B l.
Proof. induction 1; cbn [valB]; nia. Qed.

Lemma valB_bound l : wfB B l -> 0 <= valB B l < B ^ Z.of_nat (length l).
Proof.
  induction 1 as [|d l Hd _ IH]; cbn [valB length].
  - change (Z.of_nat 0) with 0; rewrite Z.pow_0_r; lia.
  - rewrite Nat2Z.inj_succ, Z.pow_succ_r by lia. nia.
Qed.

Lemma valB_repeat0 n : valB B (repeat 0 n) = 0.
Proof. induction n; cbn [valB repeat]; lia. Qed.

Lemma wfB_repeat0 n : wfB B (repeat 0 n).
Proof. induction n; cbn; constructor; trivial; lia. Qed.

Lemma strip_top_shape r :
  (1 <= length r)%nat ->
  exists n, r = repeat 0 n ++ strip_top r /\
    (1 <= length (strip_top r))%nat /\
    (length (strip_top r) = 1%nat \/ hd 0 (strip_top r) <> 0).
Proof.
  induction r as [|d [|e t] IH]; cbn [strip_top length]; intros Hl; [lia| |].
  - exists O; repeat split; auto; cbn; lia.
  - destruct (Z.eqb_spec d 0) as [->|Hd].
    + destruct IH as (n & E & H1 & H2); [cbn; lia|].
      exists (S n). rewrite E at 1. repeat split; auto.
    + exists O; repeat split; auto; cbn; lia.
Qed.

(** The one fact about [strip] everything else follows from. *)
Lemma strip_shape l :
  (1 <= length l)%nat ->
  exists n, l = strip l ++ repeat 0 n /\ canonical (strip l).
Proof.
  intros Hl. unfold strip, canonical.
  destruct (strip_top_shape (rev l)) as (n & E & H1 & H2);
    [rewrite length_rev; lia|].
  exists n. split.
  - rewrite <- (rev_involutive l) at 1. rewrite E at 1.
    rewrite rev_app_distr, rev_repeat. reflexivity.
  - rewrite length_rev. split; [lia|]. destruct H2 as [H2|H2]; [now left|right].
    destruct (strip_top (rev l)) as [|d t]; cbn in H1, H2 |- *; [lia|].
    now rewrite last_last.
Qed.

Lemma strip_val l : (1 <= length l)%nat -> valB B (strip l) = valB B l.
Proof.
  intros Hl. destruct (strip_shape l Hl) as (n & E & _).
  rewrite E at 2. rewrite valB_app, valB_repeat0. lia.
Qed.

Lemma strip_wf l : (1 <= length l)%nat -> wfB B l -> wfB B (strip l).
Proof.
  intros Hl Hw. destruct (strip_shape l Hl) as (n & E & _).
  rewrite E in Hw. now apply wfB_app in Hw.
Qed.

Lemma strip_canonical l : (1 <= length l)%nat -> canonical (strip l).
Proof. intros Hl. now destruct (strip_shape l Hl) as (n & _ & H). Qed.

Lemma strip_length l : (length (strip l) <= length l)%nat.
Proof.
  destruct l as [|d l]; [cbn; lia|].
  destruct (strip_shape (d :: l)) as (n & E & _); [cbn; lia|].
  rewrite E at 2. rewrite length_app. lia.
Qed.

Lemma canonical_top l d : canonical (l ++ [d]) -> l <> [] -> d <> 0.
Proof.
  intros [_ [H|H]] Hl; rewrite ?last_last, ?length_app in H; cbn in H; trivial.
  destruct l; [easy | cbn in H; lia].
Qed.

(** A canonical array of [n + 1 > 1] limbs denotes at least [B ^ n]. *)
Lemma canonical_lower l :
  wfB B l -> canonical l -> (2 <= length l)%nat ->
  B ^ (Z.of_nat (length l) - 1) <= valB B l.
Proof.
  intros Hw Hc Hl.
  destruct (exists_last (l := l)) as (t & d & ->); [now destruct l|].
  apply canonical_top in Hc; [|intros ->; cbn in Hl; lia].
  apply wfB_app in Hw. destruct Hw as [Ht Hd]. apply wfB_cons in Hd.
  rewrite length_app, valB_app. cbn [valB length].
  replace (Z.of_nat (length t + 1) - 1) with (Z.of_nat (length t)) by lia.
  pose proof (valB_nonneg t Ht).
  pose proof (Z.pow_nonneg B (Z.of_nat (length t))). nia.
Qed.

(** Equal lengths: the value determines the limbs. *)
Lemma valB_inj a b :
  wfB B a -> wfB B b -> length a = length b -> valB B a = valB B b -> a = b.
Proof.
  revert b. induction a as [|x a IH]; intros [|y b] Ha Hb Hl E;
    cbn in Hl; try lia; trivial.
  apply wfB_cons in Ha, Hb. cbn [valB] in E.
  assert (x = y) by (apply (f_equal (fun z => z mod B)) in E;
    rewrite !(Z.mul_comm B), !Z.mod_add, !Z.mod_small in E by lia; trivial).
  subst y. f_equal. apply IH; try easy; [lia|nia].
Qed.
End ValB.

Create HintDb limbs.
#[export] Hint Resolve valB_nonneg wfB_repeat0 strip_wf strip_canonical : limbs.

Lemma base16_pos : 1 < 65536. Proof. lia. Qed.
Lemma base32_pos : 1 < 4294967296. Proof. lia. Qed.
#[export] Hint Resolve base16_pos base32_pos : limbs.

(** ** Comparison *)

Lemma rev_cons_snoc (l : list Z) d t : rev l = d :: t -> l = rev t ++ [d].
Proof. intros E. now rewrite <- (rev_involutive l), E. Qed.

Lemma compare_top_spec ra : forall rb,
  wf ra -> wf rb -> length ra = length rb ->
  compare_top ra rb =
    match val (rev ra) ?= val (rev rb) with Eq => 0 | Lt => -1 | Gt => 1 end.
Proof.
  induction ra as [|x ra IH]; intros [|y rb] Ha Hb Hl; cbn [length] in Hl; try lia;
    [reflexivity|].
  apply wfB_cons in Ha, Hb. cbn [compare_top rev].
  rewrite !valB_app by lia. rewrite !length_rev. cbn [valB].
  assert (Hl' : length ra = length rb) by lia. rewrite Hl'.
  destruct Ha as [Hx Ha], Hb as [Hy Hb].
  assert (Ba := valB_bound 65536 base16_pos (rev ra)).
  assert (Bb := valB_bound 65536 base16_pos (rev rb)).
  rewrite length_rev in Ba, Bb. rewrite Hl' in Ba.
  assert (Ba' := Ba (Forall_rev Ha)). assert (Bb' := Bb (Forall_rev Hb)).
  set (P := 65536 ^ Z.of_nat (length rb)) in *.
  destruct (Z.eqb_spec x y) as [->|Hne]; cbn [negb].
  - rewrite IH by easy.
    destruct (Z.compare_spec (val (rev ra)) (val (rev rb)));
      destruct (Z.compare_spec (val (rev ra) + P * (y + 65536 * 0))
                  (val (rev rb) + P * (y + 65536 * 0))); trivial; lia.
  - rewrite Z.gtb_ltb. destruct (Z.ltb_spec y x).
    + replace (_ ?= _) with Gt; trivial. symmetry; apply Z.compare_gt_iff; nia.
    + replace (_ ?= _) with Lt; trivial. symmetry; apply Z.compare_lt_iff; nia.
Qed.

Lemma longer_is_larger a b :
  wf a -> wf b -> canonical a -> (length b < length a)%nat -> (1 <= length b)%nat ->
  val b < val a.
Proof.
  intros Ha Hb Hc Hl Hb1.
  pose proof (valB_bound 65536 base16_pos b Hb).
  pose proof (canonical_lower 65536 base16_pos a Ha Hc ltac:(lia)).
  assert (65536 ^ Z.of_nat (length b) <= 65536 ^ (Z.of_nat (length a) - 1))
    by (apply Z.pow_le_mono_r; lia).
  lia.
Qed.

Lemma bignum_compare_mag_spec a b :
  wf a -> wf b -> canonical a -> canonical b ->
  bignum_compare_mag a b =
    match val a ?= val b with Eq => 0 | Lt => -1 | Gt => 1 end.
Proof.
  intros Ha Hb Ca Cb. unfold bignum_compare_mag.
  destruct (Nat.eqb_spec (length a) (length b)) as [E|E]; cbn [negb].
  - rewrite compare_top_spec, !rev_involutive; trivial;
      try now apply Forall_rev. now rewrite !length_rev.
  - destruct (Nat.ltb_spec (length b) (length a)).
    + replace (_ ?= _) with Gt; trivial. symmetry; apply Z.compare_gt_iff.
      apply longer_is_larger; trivial. apply Cb.
    + replace (_ ?= _) with Lt; trivial. symmetry; apply Z.compare_lt_iff.
      apply longer_is_larger; trivial; [lia | apply Ca].
Qed.

(** ** Addition and subtraction *)

Ltac words := autorewrite with words in *.

Lemma add_carry_spec a : forall carry,
  wf a -> 0 <= carry <= 1 ->
  val (add_carry a carry) = val a + carry /\ wf (add_carry a carry) /\
  (length a <= length (add_carry a carry))%nat.
Proof.
  induction a as [|x a IH]; intros carry Ha Hc; cbn [add_carry].
  - destruct (Z.eqb_spec carry 0); cbn [valB length]; [subst; repeat split; auto; constructor|].
    rewrite u16_small by lia. repeat split; cbn; try lia. repeat constructor; lia.
  - apply wfB_cons in Ha. words. unwrap.
    destruct (IH ((x + carry) / 65536)) as (E & W & L); [easy|divmod; lia|].
    assert (0 <= (x + carry) mod 65536 < 65536) by (apply Z.mod_pos_bound; lia).
    rewrite u16_small by lia. cbn [valB length]. rewrite E.
    repeat split; [|constructor; trivial|lia].
    pose proof (Z.div_mod (x + carry) 65536). lia.
Qed.

Lemma add_loop_spec a : forall b carry,
  wf a -> wf b -> (length b <= length a)%nat -> 0 <= carry <= 1 ->
  val (add_loop a b carry) = val a + val b + carry /\ wf (add_loop a b carry) /\
  (length a <= length (add_loop a b carry))%nat.
Proof.
  induction a as [|x a IH]; intros b carry Ha Hb Hl Hc; destruct b as [|y b];
    try (cbn [length] in Hl; lia); cbn [add_loop].
  - destruct (add_carry_spec [] carry) as (E & W & L); trivial.
    cbn [valB] in *. repeat split; trivial; lia.
  - destruct (add_carry_spec (x :: a) carry) as (E & W & L); trivial.
    cbn [valB] in *. repeat split; trivial; lia.
  - apply wfB_cons in Ha, Hb. cbn [length] in Hl. words. unwrap.
    destruct (IH b ((x + y + carry) / 65536)) as (E & W & L); try easy;
      [lia|divmod; lia|].
    assert (0 <= (x + y + carry) mod 65536 < 65536) by (apply Z.mod_pos_bound; lia).
    rewrite u16_small by lia. cbn [valB length]. rewrite E.
    repeat split; [|constructor; trivial|lia].
    pose proof (Z.div_mod (x + y + carry) 65536). lia.
Qed.

Lemma bignum_add_mag_spec a b :
  wf a -> wf b ->
  val (bignum_add_mag a b) = val a + val b /\ wf (bignum_add_mag a b) /\
  (Nat.max (length a) (length b) <= length (bignum_add_mag a b))%nat.
Proof.
  intros Ha Hb. unfold bignum_add_mag. destruct (Nat.ltb_spec (length a) (length b)).
  - destruct (add_loop_spec b a 0) as (E & W & L); trivial; [lia..|].
    repeat split; trivial; lia.
  - destruct (add_loop_spec a b 0) as (E & W & L); trivial; [lia..|].
    repeat split; trivial; lia.
Qed.

(** One limb of a subtraction: the digit and the borrow. *)
Lemma borrow_digit x borrow :
  - 131072 < x - borrow < 65536 -> x - borrow >= -65536 ->
  u32 (x - borrow) mod 65536 = (x - borrow) mod 65536 /\
  (u32 (x - borrow) / 65536) mod 2 = - ((x - borrow) / 65536).
Proof.
  intros H1 H2. unfold u32.
  destruct (Z.lt_ge_cases (x - borrow) 0) as [Hn|Hp].
  - replace ((x - borrow) mod 2 ^ 32) with (x - borrow + 2 ^ 32)
      by (apply Z.mod_unique with (-1); lia).
    change (2 ^ 32) with (65536 * 65536).
    rewrite Z.mod_add, Z.div_add by lia. split; trivial.
    replace ((x - borrow) / 65536) with (-1)
      by (apply Z.div_unique with (x - borrow + 65536); lia).
    reflexivity.
  - rewrite (Z.mod_small (x - borrow)) by lia. split; trivial.
    divmod; lia.
Qed.

Lemma sub_borrow_spec a : forall borrow,
  wf a -> 0 <= borrow <= 1 ->
  wf (sub_borrow a borrow) /\ length (sub_borrow a borrow) = length a /\
  exists out, 0 <= out <= 1 /\
    val (sub_borrow a borrow) - out * 65536 ^ Z.of_nat (length a) = val a - borrow.
Proof.
  induction a as [|x a IH]; intros borrow Ha Hb; cbn [sub_borrow].
  - repeat split; [constructor|]. exists borrow. cbn. lia.
  - apply wfB_cons in Ha. words.
    destruct (borrow_digit x borrow) as [E1 E2]; [lia..|]. rewrite E1, E2.
    destruct (IH (- ((x - borrow) / 65536))) as (W & L & out & Ho & E);
      [easy|divmod; lia|].
    assert (0 <= (x - borrow) mod 65536 < 65536) by (apply Z.mod_pos_bound; lia).
    rewrite u16_small by lia. cbn [length]. rewrite L.
    repeat split; [constructor; trivial|]. exists out. split; trivial.
    cbn [valB]. rewrite Nat2Z.inj_succ, Z.pow_succ_r by lia.
    pose proof (Z.div_mod (x - borrow) 65536). nia.
Qed.

Lemma sub_loop_spec a : forall b borrow,
  wf a -> wf b -> (length b <= length a)%nat -> 0 <= borrow <= 1 ->
  wf (sub_loop a b borrow) /\ length (sub_loop a b borrow) = length a /\
  exists out, 0 <= out <= 1 /\
    val (sub_loop a b borrow) - out * 65536 ^ Z.of_nat (length a)
      = val a - val b - borrow.
Proof.
  induction a as [|x a IH]; intros b borrow Ha Hb Hl Hc; destruct b as [|y b];
    try (cbn [length] in Hl; lia); cbn [sub_loop].
  1,2: destruct (sub_borrow_spec _ borrow Ha Hc) as (W & L & out & Ho & E);
    repeat split; trivial; exists out; split; trivial; cbn [valB] in *; lia.
  apply wfB_cons in Ha, Hb. cbn [length] in Hl.
  assert (Eu : u32 (u32 (x - y) - borrow) = u32 (x - (y + borrow))).
  { unfold u32. rewrite Zminus_mod_idemp_l. f_equal. lia. }
  rewrite Eu. words.
  destruct (borrow_digit x (y + borrow)) as [E1 E2]; [lia..|]. rewrite E1, E2.
  destruct (IH b (- ((x - (y + borrow)) / 65536))) as (W & L & out & Ho & E);
    [easy|easy|lia|divmod; lia|].
  assert (0 <= (x - (y + borrow)) mod 65536 < 65536) by (apply Z.mod_pos_bound; lia).
  rewrite u16_small by lia. cbn [length]. rewrite L.
  repeat split; [constructor; trivial|]. exists out. split; trivial.
  cbn [valB]. rewrite Nat2Z.inj_succ, Z.pow_succ_r by lia.
  pose proof (Z.div_mod (x - (y + borrow)) 65536). nia.
Qed.

Lemma bignum_sub_mag_spec a b :
  wf a -> wf b -> (1 <= length a)%nat -> (length b <= length a)%nat -> val b <= val a ->
  val (bignum_sub_mag a b) = val a - val b /\ wf (bignum_sub_mag a b) /\
  canonical (bignum_sub_mag a b).
Proof.
  intros Ha Hb H1 Hl Hle. unfold bignum_sub_mag.
  destruct (sub_loop_spec a b 0) as (W & L & out & Ho & E); trivial; [lia|].
  pose proof (valB_bound _ base16_pos _ W) as Bd. rewrite L in Bd.
  assert (val (sub_loop a b 0) = val a - val b) as <-.
  { assert (out = 0 \/ out = 1) as [-> | ->] by lia; lia. }
  split; [|split].
  - apply strip_val; lia.
  - apply strip_wf; trivial; lia.
  - apply strip_canonical; lia.
Qed.

(** ** Multiplication *)

Section SchoolbookSpec.
Variable w : Z.
Hypothesis w_pos : 0 < w.
Let B := 2 ^ w.

Local Lemma B_gt1 : 1 < B.
Proof. unfold B. apply Z.pow_gt_1; lia. Qed.

Local Lemma BB : 2 ^ (2 * w) = B * B.
Proof. unfold B. rewrite <- Z.pow_add_r by lia. f_equal. lia. Qed.

(** The row adds [x * b] to the suffix; its last addition does not overflow
    as long as the suffix leaves room for one limb. *)
Lemma mul_row_spec x b : forall r carry,
  0 <= x < B -> wfB B b -> wfB B r -> 0 <= carry < B ->
  length r = S (length b) -> x * valB B b + valB B r + carry < B ^ Z.of_nat (length r) ->
  valB B (mul_row w x b r carry) = x * valB B b + valB B r + carry /\
  wfB B (mul_row w x b r carry) /\ length (mul_row w x b r carry) = length r.
Proof using w_pos.
  pose proof B_gt1 as HB.
  induction b as [|y b IH]; intros [|d r] carry Hx Hb Hr Hc Hl Hbd;
    cbn [length] in Hl; try lia; cbn [mul_row]; apply wfB_cons in Hr.
  - destruct r; cbn [length] in Hl; [|lia]. cbn [valB length] in *.
    change (Z.of_nat 1) with 1 in Hbd. rewrite Z.pow_1_r in Hbd.
    unfold limb; fold B.
    rewrite (Z.mod_small carry), Z.mod_small by lia.
    repeat split; [lia|]. repeat constructor; lia.
  - apply wfB_cons in Hb. unfold limb, dword. rewrite BB.
    rewrite land_mask, shr_div by lia. fold B.
    assert (0 <= x * y + d + carry < B * B) by nia.
    rewrite (Z.mod_small (x * y + d + carry) (B * B)) by lia.
    rewrite Z.mod_mod by lia.
    assert (0 <= (x * y + d + carry) mod B < B) by (apply Z.mod_pos_bound; lia).
    assert (0 <= (x * y + d + carry) / B < B)
      by (split; [apply Z.div_pos; lia | apply Z.div_lt_upper_bound; lia]).
    pose proof (Z.div_mod (x * y + d + carry) B ltac:(lia)).
    cbn [valB length] in *. rewrite Nat2Z.inj_succ, Z.pow_succ_r in Hbd by lia.
    destruct (IH r ((x * y + d + carry) / B)) as (E & W & L); try easy; [lia| |].
    + pose proof (valB_nonneg B HB b ltac:(easy)). nia.
    + rewrite E, L. repeat split; [nia|]. constructor; trivial.
Qed.

(** A row only touches [length b + 1] limbs. *)
Lemma mul_row_app x b : forall r s carry,
  length r = S (length b) -> mul_row w x b (r ++ s) carry = mul_row w x b r carry ++ s.
Proof.
  induction b as [|y b IH]; intros [|d r] s carry Hl; cbn [length] in Hl; try lia.
  - destruct r; [reflexivity | cbn in Hl; lia].
  - cbn [mul_row app]. f_equal. apply IH. lia.
Qed.

Lemma mul_rows_spec a : forall b r,
  wfB B a -> wfB B b -> wfB B r -> length r = length b ->
  valB B a * valB B b + valB B r < B ^ Z.of_nat (length a + length b) ->
  let z := mul_rows w a b (r ++ repeat 0 (length a)) in
  valB B z = valB B a * valB B b + valB B r /\ wfB B z /\
  length z = (length a + length b)%nat.
Proof using w_pos.
  pose proof B_gt1 as HB. cbn zeta.
  induction a as [|x a IH]; intros b r Ha Hb Hr Hl Hbd; cbn [mul_rows length repeat].
  - rewrite app_nil_r. cbn [valB]. repeat split; trivial; lia.
  - apply wfB_cons in Ha. destruct Ha as [Hx Ha].
    change (0 :: repeat 0 (length a)) with ([0] ++ repeat 0 (length a)).
    rewrite app_assoc, mul_row_app by (rewrite length_app; cbn; lia).
    assert (Hr0 : wfB B (r ++ [0])) by (apply wfB_app; split; trivial; repeat constructor; lia).
    assert (Vr0 : valB B (r ++ [0]) = valB B r) by (rewrite valB_app by lia; cbn; lia).
    pose proof (valB_bound B HB r Hr) as Br. pose proof (valB_bound B HB b Hb) as Bb.
    rewrite Hl in Br.
    destruct (mul_row_spec x b (r ++ [0]) 0) as (E & W & L); trivial; try lia.
    { rewrite length_app; cbn; lia. }
    { rewrite Vr0, length_app. cbn [length]. rewrite Hl, Nat2Z.inj_add, Z.pow_add_r by lia.
      change (Z.of_nat 1) with 1. rewrite Z.pow_1_r. nia. }
    destruct (mul_row w x b (r ++ [0]) 0) as [|d r'] eqn:Er;
      [rewrite length_app in L; cbn in L; lia|].
    cbn [app]. apply wfB_cons in W. destruct W as [Hd W].
    rewrite length_app in L. cbn [length valB] in *.
    assert (0 <= valB B r') by (apply valB_nonneg; trivial; lia).
    assert (0 <= valB B b) by lia. assert (0 <= valB B a) by (apply valB_nonneg; trivial; lia).
    destruct (IH b r') as (E' & W' & L'); trivial; [lia| |].
    + rewrite Nat.add_succ_l, Nat2Z.inj_succ, Z.pow_succ_r in Hbd by lia. nia.
    + rewrite E', L'. repeat split; [nia|]. constructor; trivial.
Qed.

Lemma schoolbook_spec a b :
  wfB B a -> wfB B b -> (1 <= length a)%nat ->
  valB B (schoolbook w a b) = valB B a * valB B b /\
  wfB B (schoolbook w a b) /\ canonical (schoolbook w a b) /\
  (length (schoolbook w a b) <= length a + length b)%nat.
Proof using w_pos.
  pose proof B_gt1 as HB. intros Ha Hb H1. unfold schoolbook.
  pose proof (valB_bound B HB a Ha). pose proof (valB_bound B HB b Hb).
  destruct (mul_rows_spec a b (repeat 0 (length b))) as (E & W & L); auto with limbs.
  - apply repeat_length.
  - rewrite valB_repeat0, Nat2Z.inj_add, Z.pow_add_r by lia. nia.
  - rewrite valB_repeat0, <- repeat_app in *.
    rewrite (Nat.add_comm (length b)) in *. split; [|split; [|split]].
    + rewrite strip_val by lia. lia.
    + apply strip_wf; trivial; lia.
    + apply strip_canonical; lia.
    + etransitivity; [apply strip_length|lia].
Qed.
End SchoolbookSpec.

Lemma bignum_mul_mag_spec a b :
  wf a -> wf b -> (1 <= length a)%nat ->
  val (bignum_mul_mag a b) = val a * val b /\ wf (bignum_mul_mag a b) /\
  canonical (bignum_mul_mag a b) /\
  (length (bignum_mul_mag a b) <= length a + length b)%nat.
Proof. apply (schoolbook_spec 16); lia. Qed.

Lemma bignum_mul_mag32_spec a b :
  wf32 a -> wf32 b -> (1 <= length a)%nat ->
  val32 (bignum_mul_mag32 a b) = val32 a * val32 b /\ wf32 (bignum_mul_mag32 a b) /\
  canonical (bignum_mul_mag32 a b) /\
  (length (bignum_mul_mag32 a b) <= length a + length b)%nat.
Proof. apply (schoolbook_spec 32); lia. Qed.

(** ** Packing *)

(** Induction two limbs at a time. *)
Lemma pair_ind (P : list Z -> Prop) :
  P [] -> (forall x, P [x]) -> (forall x y l, P l -> P (x :: y :: l)) ->
  forall l, P l.
Proof.
  intros H0 H1 H2. fix IH 1. intros [|x [|y l]]; [apply H0|apply H1|apply H2, IH].
Qed.

Lemma pack_16_to_32_spec l :
  wf l -> val32 (pack_16_to_32 l) = val l /\ wf32 (pack_16_to_32 l) /\
  length (pack_16_to_32 l) = Nat.div2 (S (length l)).
Proof.
  induction l as [|x|x y l IH] using pair_ind; intros Hw.
  - repeat split; constructor.
  - apply wfB_cons in Hw. cbn. repeat split; repeat constructor; lia.
  - apply wfB_cons in Hw. destruct Hw as [Hx Hw]. apply wfB_cons in Hw.
    destruct IH as (E & W & L); [easy|].
    cbn [pack_16_to_32 valB length]. rewrite E, L, shl16. unwrap.
    rewrite <- (shl16 y), lor_add_shiftl by lia.
    split; [lia|split; [constructor; trivial; lia|reflexivity]].
Qed.

Lemma unpack_loop_spec l :
  wf32 l -> val (unpack_loop l) = val32 l /\ wf (unpack_loop l) /\
  length (unpack_loop l) = (2 * length l)%nat.
Proof.
  induction l as [|d l IH]; intros Hw; cbn [unpack_loop valB length].
  - repeat split; constructor.
  - apply wfB_cons in Hw. destruct IH as (E & W & L); [easy|].
    words.
    assert (0 <= d mod 65536 < 65536) by (apply Z.mod_pos_bound; lia).
    assert (0 <= d / 65536 < 65536) by (divmod; lia).
    unwrap. rewrite E, L. pose proof (Z.div_mod d 65536).
    repeat split; [lia|repeat constructor; trivial; lia|lia].
Qed.

Lemma unpack_32_to_16_spec l :
  wf32 l -> (1 <= length l)%nat ->
  val (unpack_32_to_16 l) = val32 l /\ wf (unpack_32_to_16 l) /\
  canonical (unpack_32_to_16 l).
Proof.
  intros Hw H1. unfold unpack_32_to_16.
  destruct (unpack_loop_spec l Hw) as (E & W & L). split; [|split].
  - rewrite strip_val; lia.
  - apply strip_wf; trivial; lia.
  - apply strip_canonical; lia.
Qed.

(** ** Multiplication by a fixnum's magnitude *)

(** [n] limbs of [x]: what the carry loop writes. *)
Lemma fill_carry_spec n : forall carry,
  0 <= carry ->
  val (fill_carry n carry) = carry mod 65536 ^ Z.of_nat n /\
  wf (fill_carry n carry) /\ length (fill_carry n carry) = n.
Proof.
  induction n as [|n IH]; intros carry Hc; cbn [fill_carry valB length].
  - change (Z.of_nat 0) with 0. rewrite Z.pow_0_r, Z.mod_1_r. repeat split; constructor.
  - words. destruct (IH (carry / 65536)) as (E & W & L); [apply Z.div_pos; lia|].
    assert (0 <= carry mod 65536 < 65536) by (apply Z.mod_pos_bound; lia).
    unwrap. rewrite E, L, Nat2Z.inj_succ, Z.pow_succ_r by lia.
    rewrite Z.rem_mul_r by (try apply Z.pow_pos_nonneg; lia).
    repeat split. constructor; trivial.
Qed.

(** What every variant computes: [n] limbs of [a * m + carry]. *)
Definition small_product (l a : list Z) (m carry : Z) (n : nat) : Prop :=
  val l = (val a * m + carry) mod 65536 ^ Z.of_nat n /\ wf l /\ length l = n.

Lemma small_product_nil m carry n :
  0 <= carry -> small_product (fill_carry n carry) [] m carry n.
Proof. intros. unfold small_product. cbn [valB]. now apply fill_carry_spec. Qed.

(** One step that consumes the limbs [xs] and writes as many limbs [ds]. *)
Lemma small_product_step ds xs l t m carry n :
  0 <= carry -> 0 <= m -> wf xs -> wf ds -> length ds = length xs ->
  (length xs <= n)%nat ->
  val ds = (val xs * m + carry) mod 65536 ^ Z.of_nat (length xs) ->
  small_product l t m ((val xs * m + carry) / 65536 ^ Z.of_nat (length xs))
    (n - length xs) ->
  small_product (ds ++ l) (xs ++ t) m carry n.
Proof.
  intros Hc Hm Hxs Hds Hl Hn Hv (E & W & L). unfold small_product.
  rewrite !valB_app, length_app, Hv, E, L, Hl by lia.
  split; [|split; [now apply wfB_app|lia]].
  pose proof (valB_nonneg 65536 ltac:(lia) xs Hxs).
  set (k := Z.of_nat (length xs)).
  replace (Z.of_nat n) with (k + Z.of_nat (n - length xs)) by lia.
  assert (0 < 65536 ^ k) by (apply Z.pow_pos_nonneg; lia).
  rewrite Z.pow_add_r, Z.rem_mul_r by (try apply Z.pow_pos_nonneg; lia).
  replace ((val xs + 65536 ^ k * val t) * m + carry)
    with (val xs * m + carry + (val t * m) * 65536 ^ k) by ring.
  rewrite Z.mod_add, Z.div_add by lia. do 2 f_equal. f_equal. lia.
Qed.

(** One limb, for the variants that go one at a time. *)
Lemma small_product_cons d x l t m carry n c :
  0 <= carry -> 0 <= m -> 0 <= x < 65536 -> (1 <= n)%nat ->
  d = (x * m + carry) mod 65536 -> c = (x * m + carry) / 65536 ->
  small_product l t m c (n - 1) ->
  small_product (d :: l) (x :: t) m carry n.
Proof.
  intros Hc Hm Hx Hn Hd -> Hs.
  assert (0 <= d < 65536) by (rewrite Hd; apply Z.mod_pos_bound; lia).
  apply (small_product_step [d] [x]); trivial; cbn [length valB];
    rewrite ?Z.mul_0_r, ?Z.add_0_r; trivial; repeat constructor; lia.
Qed.

(** The two low limbs of a number. *)
Lemma two_limbs p : p mod 65536 + 65536 * ((p / 65536) mod 65536) = p mod 4294967296.
Proof. change 4294967296 with (65536 * 65536). rewrite Z.rem_mul_r by lia. lia. Qed.

Lemma mod_u16 x : u16 (x mod 65536) = x mod 65536.
Proof. apply Z.mod_mod. lia. Qed.
#[export] Hint Rewrite mod_u16 : words.

Lemma mul_small_2_spec a m : forall carry n,
  wf a -> 0 <= m <= 2 ^ 30 -> 0 <= carry <= 2 ^ 30 -> (length a <= n)%nat ->
  small_product (mul_small_2 a m carry n) a m carry n.
Proof.
  induction a as [|x|x y a IH] using pair_ind; intros carry n Ha Hm Hc Hn;
    cbn [mul_small_2]; cbn [length] in Hn.
  - apply small_product_nil; lia.
  - apply wfB_cons in Ha. words.
    assert (0 <= x * m <= 65535 * 2 ^ 30) by nia.
    unwrap. words. eapply small_product_cons; try reflexivity; try lia.
    apply small_product_nil. apply Z.div_pos; lia.
  - apply wfB_cons in Ha. destruct Ha as [Hx Ha]. apply wfB_cons in Ha.
    destruct Ha as [Hy Ha]. rewrite shl16. unwrap.
    rewrite <- shl16, lor_add_shiftl by lia. change (2 ^ 16) with 65536. unwrap.
    assert (0 <= (x + y * 65536) * m <= 4294967295 * 2 ^ 30) by nia.
    unwrap. words. set (p := (x + y * 65536) * m + carry) in *.
    change (?d0 :: ?d1 :: ?r) with ([d0; d1] ++ r).
    change (x :: y :: a) with ([x; y] ++ a).
    assert (Ep : val [x; y] * m + carry = p) by (subst p; cbn [valB]; ring).
    assert (0 <= p mod 65536 < 65536) by (apply Z.mod_pos_bound; lia).
    assert (0 <= (p / 65536) mod 65536 < 65536) by (apply Z.mod_pos_bound; lia).
    apply small_product_step; rewrite ?Ep; cbn [length valB]; trivial; try lia.
    + repeat constructor; lia.
    + repeat constructor; lia.
    + rewrite Z.mul_0_r, Z.add_0_r. apply two_limbs.
    + apply IH; trivial; [|lia]. change (65536 ^ Z.of_nat 2) with 4294967296.
      subst p. divmod. lia.
Qed.

Lemma quad_ind (P : list Z -> Prop) :
  (forall l, (length l < 4)%nat -> P l) ->
  (forall x0 x1 x2 x3 l, P l -> P (x0 :: x1 :: x2 :: x3 :: l)) ->
  forall l, P l.
Proof.
  intros H0 H4. fix IH 1.
  intros [|x0 [|x1 [|x2 [|x3 l]]]]; try (apply H0; cbn; lia). apply H4, IH.
Qed.

Lemma four_limbs p :
  p mod 65536 + 65536 * ((p / 65536) mod 65536
    + 65536 * ((p / 65536 / 65536) mod 65536 + 65536 * ((p / 65536 / 65536 / 65536) mod 65536)))
  = p mod 18446744073709551616.
Proof.
  change 18446744073709551616 with (65536 * (65536 * (65536 * 65536))).
  rewrite !Z.rem_mul_r by lia. lia.
Qed.

Lemma mul_small_4_spec a m : forall carry n,
  wf a -> 0 <= m <= 2 ^ 30 -> 0 <= carry <= 2 ^ 30 -> (length a <= n)%nat ->
  small_product (mul_small_4 a m carry n) a m carry n.
Proof.
  induction a as [a Hl|x0 x1 x2 x3 a IH] using quad_ind; intros carry n Ha Hm Hc Hn.
  - destruct a as [|x0 [|x1 [|x2 [|x3 a]]]]; cbn [mul_small_4];
      try now apply mul_small_2_spec. cbn in Hl. lia.
  - apply wfB_cons in Ha as [H0 Ha]. apply wfB_cons in Ha as [H1 Ha].
    apply wfB_cons in Ha as [H2 Ha]. apply wfB_cons in Ha as [H3 Ha].
    cbn [mul_small_4]; cbn [length] in Hn.
    assert (Ex : Z.lor (Z.lor (Z.lor x0 (u64 (Z.shiftl x1 16))) (u64 (Z.shiftl x2 32)))
                   (u64 (Z.shiftl x3 48)) = val [x0; x1; x2; x3]).
    { rewrite !(u64_small (Z.shiftl _ _)) by (rewrite Z.shiftl_mul_pow2; lia).
      rewrite (lor_add_shiftl x1 x0 16) by lia.
      rewrite (lor_add_shiftl x2 _ 32) by lia.
      rewrite (lor_add_shiftl x3 _ 48) by lia. cbn [valB]. lia. }
    rewrite Ex.
    assert (Hx : 0 <= val [x0; x1; x2; x3] < 18446744073709551616)
      by (cbn [valB]; lia).
    set (x := val [x0; x1; x2; x3]) in *.
    assert (Hp : 0 <= x * m + carry <= 18446744073709551616 * 2 ^ 30) by nia.
    assert (Eu : u128 (u128 (x * m) + carry) = x * m + carry).
    { unfold u128. rewrite Z.add_mod_idemp_l by lia. apply Z.mod_small. lia. }
    rewrite Eu. set (p := x * m + carry) in *.
    assert (Hlo : 0 <= u64 p < 18446744073709551616) by (apply Z.mod_pos_bound; lia).
    rewrite (shr_div (u64 p) 48), (shr_div p 64) by lia.
    words. change (2 ^ 48) with (65536 * (65536 * 65536)).
    change 4294967296 with (65536 * 65536). rewrite <- !Z.div_div by lia.
    assert (E3 : u16 (u64 p / 65536 / 65536 / 65536)
                 = (u64 p / 65536 / 65536 / 65536) mod 65536)
      by (unfold u16; reflexivity).
    rewrite E3.
    change (?d0 :: ?d1 :: ?d2 :: ?d3 :: ?r) with ([d0; d1; d2; d3] ++ r).
    change (x0 :: x1 :: x2 :: x3 :: a) with ([x0; x1; x2; x3] ++ a).
    apply small_product_step; cbn [length]; trivial; try lia;
      change (65536 ^ Z.of_nat 4) with 18446744073709551616; fold x; fold p.
    + repeat constructor; lia.
    + repeat constructor; apply Z.mod_pos_bound; lia.
    + cbn [valB]. rewrite Z.mul_0_r, Z.add_0_r, four_limbs.
      unfold u64. apply Z.mod_mod. lia.
    + rewrite u64_small by (divmod; lia). apply IH; trivial; [|lia]. divmod; lia.
Qed.

Lemma mul_small_68k_lo_spec a m : forall carry n,
  wf a -> 0 <= m < 65536 -> 0 <= carry < 65536 -> (length a <= n)%nat ->
  small_product (mul_small_68k_lo a m carry n) a m carry n.
Proof.
  induction a as [|x a IH]; intros carry n Ha Hm Hc Hn; cbn [mul_small_68k_lo];
    cbn [length] in Hn.
  - apply small_product_nil; lia.
  - apply wfB_cons in Ha. assert (0 <= x * m <= 65535 * 65535) by nia.
    unwrap. words.
    eapply small_product_cons; try reflexivity; try lia.
    apply IH; try easy; [|lia]. divmod; lia.
Qed.

Lemma mul_small_68k_hi_spec a ml mh : forall carry n,
  wf a -> 0 <= ml < 65536 -> 0 <= mh <= 16384 -> 0 <= carry < 2 ^ 31 ->
  (length a <= n)%nat ->
  small_product (mul_small_68k_hi a ml mh carry n) a (mh * 65536 + ml) carry n.
Proof.
  induction a as [|x a IH]; intros carry n Ha Hl Hh Hc Hn; cbn [mul_small_68k_hi];
    cbn [length] in Hn.
  - apply small_product_nil; lia.
  - apply wfB_cons in Ha. destruct Ha as [Hx Ha].
    assert (0 <= x * ml <= 65535 * 65535) by nia.
    assert (0 <= x * mh <= 65535 * 16384) by nia.
    words.
    pose proof (Z.mod_pos_bound carry 65536). pose proof (Z.div_mod carry 65536).
    assert (0 <= carry / 65536 < 32768) by (divmod; lia).
    unwrap. set (p0 := x * ml + carry mod 65536) in *.
    assert (0 <= p0 / 65536 <= 65535) by (subst p0; divmod; lia).
    unwrap.
    assert (Ep : x * (mh * 65536 + ml) + carry
                 = p0 + (x * mh + carry / 65536) * 65536) by (subst p0; lia).
    eapply small_product_cons; try lia.
    + rewrite Ep, Z.mod_add by lia. reflexivity.
    + rewrite Ep, Z.div_add by lia. reflexivity.
    + replace (p0 / 65536 + (x * mh + carry / 65536))
        with (x * mh + carry / 65536 + p0 / 65536) by lia.
      apply IH; trivial; lia.
Qed.

Lemma bignum_mul_small_spec a m n :
  wf a -> 0 <= m <= 2 ^ 30 -> (length a <= n)%nat ->
  small_product (bignum_mul_small a m n) a m 0 n.
Proof. intros. apply mul_small_4_spec; trivial; lia. Qed.

Lemma bignum_mul_small_68k_spec a m n :
  wf a -> 0 <= m <= 2 ^ 30 -> (length a <= n)%nat ->
  small_product (bignum_mul_small_68k a m n) a m 0 n.
Proof.
  intros Ha Hm Hn. unfold bignum_mul_small_68k. words.
  pose proof (Z.mod_pos_bound m 65536). pose proof (Z.div_mod m 65536).
  destruct (Z.eqb_spec (m / 65536) 0) as [E|E].
  - rewrite Z.mod_small by lia. apply mul_small_68k_lo_spec; trivial; lia.
  - replace m with (m / 65536 * 65536 + m mod 65536) at 3 by lia.
    apply mul_small_68k_hi_spec; trivial; divmod; lia.
Qed.

(** ** Bit lengths *)

Lemma bit_length_loop_spec fuel : forall v,
  0 <= v < 2 ^ Z.of_nat fuel ->
  0 <= bit_length_loop fuel v <= Z.of_nat fuel /\ v < 2 ^ bit_length_loop fuel v /\
  (0 < v -> 2 ^ (bit_length_loop fuel v - 1) <= v).
Proof.
  induction fuel as [|f IH]; intros v Hv; cbn [bit_length_loop].
  - cbn in *. lia.
  - destruct (Z.eqb_spec v 0) as [->|Hne]; [cbn; lia|].
    rewrite Nat2Z.inj_succ, Z.pow_succ_r in Hv by lia.
    rewrite shr_div by lia. change (2 ^ 1) with 2.
    destruct (IH (v / 2)) as (H1 & H2 & H3); [divmod; lia|].
    set (k := bit_length_loop f (v / 2)) in *.
    rewrite Z.add_comm, Z.add_1_r, Z.pow_succ_r by lia.
    replace (Z.succ k - 1) with k by lia.
    split; [lia|split; [divmod; lia|]]. intros _.
    destruct (Z.eq_dec k 0) as [->|Hk]; [cbn; lia|].
    assert (0 < v / 2).
    { destruct (Z.eq_dec (v / 2) 0) as [E|E]; [|divmod; lia].
      exfalso. apply Hk. subst k. rewrite E. destruct f; reflexivity. }
    replace k with (Z.succ (k - 1)) by lia. rewrite Z.pow_succ_r by lia. 
    specialize (H3 H). divmod; lia.
Qed.

Lemma bit_length32_spec v :
  0 <= v < 2 ^ 32 ->
  0 <= bit_length32 v <= 32 /\ v < 2 ^ bit_length32 v /\
  (0 < v -> 2 ^ (bit_length32 v - 1) <= v).
Proof. apply (bit_length_loop_spec 32). Qed.
