(* ===== verification/Division.v ===== *)
(** * Division of magnitudes: bignum_div_single and bignum_divmod

    src/src/core/bignum.c, Knuth's Algorithm D on 16-bit limbs.  The dividend
    [u] (with its extra top limb) is one array the loop rewrites window by
    window; the quotient digits come out from the top, so consing them gives
    the quotient array in limb order.

    Loops bounded by the data ([while (bh < 0x8000)], the refinement of the
    quotient digit) carry fuel; [shift_loop_spec] and [refine_spec] show that
    the fuel given is never the reason they stop. *)

From Stdlib Require Import ZArith List Lia Bool.
From S2P Require Import Prelude Limbs.
Import ListNotations.
Local Open Scope Z_scope.

(** ** Single-limb divisor *)

(** [for (i = a_len; i > 0; i--)], on the array read from the top; the
    quotient limbs come out in the same order. *)
Fixpoint div_top (ra : list Z) (d rem : Z) : list Z * Z :=
  match ra with
  | [] => ([], rem)
  | x :: ra' =>
      let cur := Z.lor (u32 (Z.shiftl rem 16)) x in
      let '(q, r) := div_top ra' d (cur mod d) in
      (u16 (cur / d) :: q, r)
  end.

Definition bignum_div_single (a : list Z) (d : Z) : list Z * Z :=
  let '(q, r) := div_top (rev a) d 0 in (rev q, u16 r).

(** ** Algorithm D *)

(** [while (bh < 0x8000) { bh <<= 1; shift++; }]: [fuel] = 16 bits. *)
Fixpoint shift_loop (fuel : nat) (bh : Z) : Z :=
  match fuel with
  | O => 0
  | S f => if bh <? 32768 then 1 + shift_loop f (u16 (Z.shiftl bh 1)) else 0
  end.

(** Shift an array left by [shift] bits; the carry out is returned. *)
Fixpoint shl_loop (a : list Z) (shift carry : Z) : list Z * Z :=
  match a with
  | [] => ([], carry)
  | x :: t =>
      let v := Z.lor (u32 (Z.shiftl x shift)) carry in
      let '(r, c) := shl_loop t shift (Z.shiftr v 16) in
      (u16 (Z.land v 65535) :: r, c)
  end.

(** The refinement loop. [v1], [v2] are the divisor's two top limbs, [u0] the
    third limb of the window. *)
Fixpoint refine (fuel : nat) (v1 v2 u0 qhat rhat : Z) : Z :=
  match fuel with
  | O => qhat
  | S f =>
      if (65536 <=? qhat)
         || (Z.lor (u32 (Z.shiftl rhat 16)) u0 <? u32 (qhat * v2))
      then
        let qhat' := u32 (qhat - 1) in
        let rhat' := u32 (rhat + v1) in
        if 65536 <=? rhat' then qhat' else refine f v1 v2 u0 qhat' rhat'
      else qhat
  end.

(** Multiply and subtract over [i < n]: the limbs, then the carry of the
    product and the borrow. *)
Fixpoint mulsub_loop (qhat : Z) (u v : list Z) (carry2 borrow2 : Z)
  : list Z * Z * Z :=
  match u, v with
  | x :: u', y :: v' =>
      let prod := u32 (u32 (qhat * y) + carry2) in
      let diff := i32 (i32 (x - Z.land prod 65535) + borrow2) in
      let borrow2' := Z.shiftr diff 16 in
      let borrow2' := if borrow2' <? -1 then -1 else borrow2' in
      let '(r, c, b) := mulsub_loop qhat u' v' (Z.shiftr prod 16) borrow2' in
      (u16 (Z.land diff 65535) :: r, c, b)
  | _, _ => ([], carry2, borrow2)
  end.

(** The add-back loop. *)
Fixpoint addback_loop (u v : list Z) (carry3 : Z) : list Z * Z :=
  match u, v with
  | x :: u', y :: v' =>
      let sum := u32 (u32 (x + y) + carry3) in
      let '(r, c) := addback_loop u' v' (Z.shiftr sum 16) in
      (u16 (Z.land sum 65535) :: r, c)
  | _, _ => ([], carry3)
  end.

(** One quotient digit: the window is [u[idx..idx+n]], [n + 1] limbs. *)
Definition div_step (win v : list Z) : Z * list Z :=
  let n := length v in
  let at_ i := nth i win 0 in
  let v1 := nth (n - 1) v 0 in
  let u_hi := Z.lor (u32 (Z.shiftl (at_ n) 16)) (at_ (n - 1)%nat) in
  let qhat := refine 3 v1 (nth (n - 2) v 0) (at_ (n - 2)%nat)
                (u_hi / v1) (u_hi mod v1) in
  let '(r, carry2, borrow2) := mulsub_loop qhat (firstn n win) v 0 0 in
  let diff := i32 (i32 (at_ n - i32 carry2) + borrow2) in
  let top := u16 (Z.land diff 65535) in
  let q := u16 qhat in
  if Z.shiftr diff 16 <? 0
  then let '(r', carry3) := addback_loop r v 0 in
       (u16 (q - 1), r' ++ [u16 (top + u16 carry3)])
  else (q, r ++ [top]).

(** [for (j = m + 1; j > 0; j--)] with [idx = j - 1]; [q] holds the digits
    above [idx]. *)
Fixpoint div_loop (j : nat) (v u q : list Z) : list Z * list Z :=
  match j with
  | O => (q, u)
  | S idx =>
      let n := length v in
      let '(d, win) := div_step (firstn (S n) (skipn idx u)) v in
      div_loop idx v (firstn idx u ++ win ++ skipn (idx + S n) u) (d :: q)
  end.

(** Un-shift the remainder, from the top limb. *)
Fixpoint unshift_top (ru : list Z) (shift carry : Z) : list Z :=
  match ru with
  | [] => []
  | x :: t =>
      let v := Z.lor x (u32 (Z.shiftl carry 16)) in
      u16 (Z.shiftr v shift)
        :: unshift_top t shift (Z.land x (u16 (u32 (Z.shiftl 1 shift - 1))))
  end.

(** The multi-limb branch of bignum_divmod. *)
Definition divmod_knuth (a b : list Z) : list Z * list Z :=
  let n := length b in
  let m := (length a - n)%nat in
  let shift := shift_loop 16 (nth (n - 1) b 0) in
  let '(v, _) := shl_loop b shift 0 in
  let '(u, carry) := shl_loop a shift 0 in
  let '(q, u') := div_loop (m + 1) v (u ++ [u16 carry]) [] in
  let rem := if 0 <? shift
             then rev (unshift_top (rev (firstn n u')) shift 0)
             else firstn n u' in
  (strip q, rem).

(** bignum_divmod: the normalised quotient and the [b_len] remainder limbs
    (not normalised).  Precondition of the C function: [a_len >= b_len] and
    [b]'s top limb is not zero. *)
Definition bignum_divmod (a b : list Z) : list Z * list Z :=
  match b with
  | [b0] =>
      let '(q, r) := bignum_div_single a b0 in (strip q, [r])
  | _ => divmod_knuth a b
  end.

(** ** Single limb *)

Lemma div_top_spec ra : forall d rem,
  wf ra -> 0 < d < 65536 -> 0 <= rem < d ->
  let '(q, r) := div_top ra d rem in
  wf q /\ length q = length ra /\ 0 <= r < d /\
  rem * 65536 ^ Z.of_nat (length ra) + val (rev ra) = val (rev q) * d + r.
Proof.
  induction ra as [|x ra IH]; intros d rem Ha Hd Hr; cbn [div_top length].
  - change (Z.of_nat 0) with 0. rewrite Z.pow_0_r. cbn.
    repeat split; try constructor; lia.
  - apply wfB_cons in Ha. rewrite (u32_small (Z.shiftl rem 16)) by (rewrite shl16; lia).
    rewrite lor_shl16 by lia. set (cur := rem * 65536 + x).
    pose proof (Z.mod_pos_bound cur d). pose proof (Z.div_mod cur d).
    assert (0 <= cur / d < 65536)
      by (split; [apply Z.div_pos; lia | apply Z.div_lt_upper_bound; lia]).
    specialize (IH d (cur mod d)). destruct (div_top ra d (cur mod d)) as [q r].
    destruct IH as (W & L & R & E); [easy|lia|lia|].
    unwrap. cbn [rev length].
    split; [constructor; trivial|]. split; [lia|]. split; [lia|].
    rewrite !valB_app, !length_rev, L by lia. cbn [valB].
    rewrite Nat2Z.inj_succ, Z.pow_succ_r by lia.
    set (P := 65536 ^ Z.of_nat (length ra)) in *. subst cur. nia.
Qed.

Lemma bignum_div_single_spec a d :
  wf a -> 0 < d < 65536 ->
  let '(q, r) := bignum_div_single a d in
  wf q /\ length q = length a /\ 0 <= r < d /\ val a = val q * d + r.
Proof.
  intros Ha Hd. unfold bignum_div_single.
  pose proof (div_top_spec (rev a) d 0) as H. destruct (div_top (rev a) d 0) as [q r].
  destruct H as (W & L & R & E); [now apply Forall_rev|lia|lia|].
  rewrite u16_small, length_rev by lia. rewrite rev_involutive, length_rev in *.
  split; [now apply Forall_rev|]. lia.
Qed.

(** ** Normalisation *)

(** The loop stops because the top bit is set, never for lack of fuel: the
    result does not depend on how much more than 16 it gets. *)
Lemma shift_loop_spec fuel : forall bh,
  0 < bh < 65536 -> 2 ^ (16 - Z.of_nat fuel) <= bh -> (fuel <= 16)%nat ->
  0 <= shift_loop fuel bh <= 15 /\
  32768 <= bh * 2 ^ shift_loop fuel bh < 65536.
Proof.
  induction fuel as [|f IH]; intros bh Hb Hf Hle; cbn [shift_loop].
  - cbn in Hf. lia.
  - destruct (Z.ltb_spec bh 32768) as [Hlt|Hge]; [|rewrite Z.pow_0_r; lia].
    rewrite Z.shiftl_mul_pow2 by lia. change (2 ^ 1) with 2. unwrap.
    destruct (IH (bh * 2)) as [H1 H2]; [lia| |lia|].
    { replace (16 - Z.of_nat f) with (Z.succ (16 - Z.of_nat (S f))) by lia.
      rewrite Z.pow_succ_r by lia. lia. }
    set (s := shift_loop f (bh * 2)) in *.
    rewrite (Z.add_comm 1), Z.add_1_r, Z.pow_succ_r by lia. split; [|nia].
    assert (s <= 14); [|lia]. destruct (Z.le_gt_cases s 14); trivial.
    assert (2 ^ 15 <= 2 ^ s) by (apply Z.pow_le_mono_r; lia). nia.
Qed.

Lemma shl_loop_spec a : forall s carry,
  wf a -> 0 <= s <= 15 -> 0 <= carry < 2 ^ s ->
  let '(r, c) := shl_loop a s carry in
  wf r /\ length r = length a /\ 0 <= c < 2 ^ s /\
  val r + 65536 ^ Z.of_nat (length a) * c = val a * 2 ^ s + carry.
Proof.
  induction a as [|x a IH]; intros s carry Ha Hs Hc; cbn [shl_loop].
  - change (Z.of_nat (length [])) with 0. rewrite Z.pow_0_r. cbn [valB].
    repeat split; try constructor; lia.
  - apply wfB_cons in Ha.
    assert (0 < 2 ^ s <= 2 ^ 15)
      by (split; [apply Z.pow_pos_nonneg; lia | apply Z.pow_le_mono_r; lia]).
    rewrite u32_small by (rewrite Z.shiftl_mul_pow2 by lia; nia).
    rewrite lor_shiftl_add by lia. set (v := x * 2 ^ s + carry). words.
    assert (0 <= v / 65536 < 2 ^ s)
      by (split; [apply Z.div_pos; lia | apply Z.div_lt_upper_bound; [lia|nia]]).
    specialize (IH s (v / 65536)). destruct (shl_loop a s (v / 65536)) as [r c].
    destruct IH as (W & L & C & E); try easy.
    pose proof (Z.mod_pos_bound v 65536). pose proof (Z.div_mod v 65536).
    cbn [length valB]. rewrite Nat2Z.inj_succ, Z.pow_succ_r by lia.
    split; [constructor; trivial; lia|]. split; [lia|]. split; [lia|]. nia.
Qed.

(** ** The quotient digit estimate *)

(** While the loop runs, [qhat * v1 + rhat] is the window's two top limbs and
    [qhat] is at least the digit.  It stops with [qhat] a limb that also
    passes the three-limb test; two iterations are enough. *)
Lemma refine_spec fuel v1 v2 u0 U2 q : forall qhat rhat,
  32768 <= v1 < 65536 -> 0 <= v2 < 65536 -> 0 <= u0 < 65536 ->
  0 <= q < 65536 ->
  qhat * v1 + rhat = U2 -> 0 <= rhat < 65536 -> 0 <= U2 < (v1 + 1) * 65536 ->
  U2 <= v1 * 65536 + 65535 ->
  q * (v1 * 65536 + v2) <= U2 * 65536 + u0 ->
  q <= qhat ->
  65536 - rhat <= v1 * (Z.of_nat fuel - 1) ->
  let r := refine fuel v1 v2 u0 qhat rhat in
  q <= r < 65536 /\ r * (v1 * 65536 + v2) <= U2 * 65536 + u0.
Proof.
  induction fuel as [|f IH]; intros qhat rhat Hv1 Hv2 Hu0 Hq HU Hr HU2 HU2' Hle Hqh Hf.
  - change (Z.of_nat 0) with 0 in Hf. lia.
  - cbn [refine]. cbn zeta.
    assert (Hqh' : 0 <= qhat < 131072) by nia.
    rewrite (u32_small (Z.shiftl rhat 16)) by (rewrite shl16; lia).
    rewrite lor_shl16 by lia.
    destruct (Z.leb_spec 65536 qhat) as [Hbig|Hsmall]; cbn [orb].
    + (* the estimate is not a limb: lower it *)
      assert (Hq1 : q <= qhat - 1) by lia.
      unwrap. destruct (Z.leb_spec 65536 (rhat + v1)) as [Hx|Hx].
      * split; [|nia]. split; [lia|nia].
      * apply IH; trivial; lia.
    + assert (0 <= qhat * v2 < 65536 * 65536) by nia. unwrap.
      destruct (Z.ltb_spec (rhat * 65536 + u0) (qhat * v2)) as [Hgt|Hok].
      * assert (Hq1 : q <= qhat - 1) by nia. assert (0 < qhat) by lia. unwrap.
        destruct (Z.leb_spec 65536 (rhat + v1)) as [Hx|Hx].
        -- split; [lia|nia].
        -- apply IH; trivial; lia.
      * split; [lia|nia].
Qed.

(** ** Multiply and subtract, add back *)

Lemma mulsub_loop_spec qhat u : forall v carry2 borrow2,
  wf u -> wf v -> length u = length v -> 0 <= qhat < 65536 ->
  0 <= carry2 < 65536 -> -1 <= borrow2 <= 0 ->
  let '(r, c, b) := mulsub_loop qhat u v carry2 borrow2 in
  wf r /\ length r = length u /\ 0 <= c < 65536 /\ -1 <= b <= 0 /\
  val r + 65536 ^ Z.of_nat (length u) * (b - c)
    = val u - qhat * val v - carry2 + borrow2.
Proof.
  induction u as [|x u IH]; intros [|y v] carry2 borrow2 Hu Hv Hl Hq Hc Hb;
    cbn [length] in Hl; try lia; cbn [mulsub_loop].
  - change (Z.of_nat (length [])) with 0. rewrite Z.pow_0_r. cbn [valB].
    repeat split; try constructor; lia.
  - apply wfB_cons in Hu, Hv.
    assert (0 <= qhat * y + carry2 <= 65535 * 65535 + 65535) by nia.
    assert (0 <= qhat * y) by nia.
    unwrap. set (prod := qhat * y + carry2) in *. words.
    pose proof (Z.mod_pos_bound prod 65536). pose proof (Z.div_mod prod 65536).
    unwrap. set (diff := x - prod mod 65536 + borrow2) in *.
    assert (-65536 <= diff <= 65535) by (subst diff; lia).
    pose proof (Z.mod_pos_bound diff 65536). pose proof (Z.div_mod diff 65536).
    assert (-1 <= diff / 65536 <= 0) by (divmod; lia).
    assert (0 <= prod / 65536 < 65536) by (divmod; lia).
    destruct (Z.ltb_spec (diff / 65536) (-1)); [lia|].
    specialize (IH v (prod / 65536) (diff / 65536)).
    destruct (mulsub_loop qhat u v (prod / 65536) (diff / 65536)) as [[r c] b].
    destruct IH as (W & L & C & Bb & E); try easy; [lia|].
    cbn [length valB]. rewrite Nat2Z.inj_succ, Z.pow_succ_r by lia.
    split; [constructor; trivial; lia|]. split; [lia|]. split; [lia|]. split; [lia|].
    subst diff. nia.
Qed.

Lemma addback_loop_spec u : forall v carry3,
  wf u -> wf v -> length u = length v -> 0 <= carry3 <= 1 ->
  let '(r, c) := addback_loop u v carry3 in
  wf r /\ length r = length u /\ 0 <= c <= 1 /\
  val r + 65536 ^ Z.of_nat (length u) * c = val u + val v + carry3.
Proof.
  induction u as [|x u IH]; intros [|y v] carry3 Hu Hv Hl Hc;
    cbn [length] in Hl; try lia; cbn [addback_loop].
  - change (Z.of_nat (length [])) with 0. rewrite Z.pow_0_r. cbn [valB].
    repeat split; try constructor; lia.
  - apply wfB_cons in Hu, Hv. unwrap. set (sum := x + y + carry3). words.
    pose proof (Z.mod_pos_bound sum 65536). pose proof (Z.div_mod sum 65536).
    assert (0 <= sum / 65536 <= 1) by (divmod; lia).
    specialize (IH v (sum / 65536)). destruct (addback_loop u v (sum / 65536)) as [r c].
    destruct IH as (W & L & C & E); try easy; [lia|].
    cbn [length valB]. rewrite Nat2Z.inj_succ, Z.pow_succ_r by lia.
    split; [constructor; trivial; lia|]. split; [lia|]. split; [lia|]. nia.
Qed.

(** ** One digit *)

(** Splitting an array at its last elements. *)
Lemma nth_app_last (l : list Z) d : nth (length l) (l ++ [d]) 0 = d.
Proof. rewrite app_nth2, Nat.sub_diag by lia. reflexivity. Qed.

Lemma split_last (l : list Z) n :
  length l = S n -> exists t d, l = t ++ [d] /\ length t = n.
Proof.
  intros Hl. destruct (exists_last (l := l)) as (t & d & ->); [now destruct l|].
  exists t, d. rewrite length_app in Hl. cbn in Hl. split; trivial; lia.
Qed.

(** The arithmetic of the estimate, with [P] the weight of the window's third
    limb: [rv] and [rt] are what lies below it in the divisor and the window. *)
Lemma estimate_below P rv rt V3 U3 q :
  0 < P -> 0 <= rv -> rt < P -> 0 <= q ->
  q * (rv + P * V3) <= rt + P * U3 -> q * V3 <= U3.
Proof.
  intros HP Hrv Hrt Hq H. apply Z.lt_succ_r, (Z.mul_lt_mono_pos_l P); trivial.
  assert (0 <= q * rv) by (apply Z.mul_nonneg_nonneg; trivial). lia.
Qed.

Lemma estimate_window P rv rt V3 U3 :
  0 < P -> rv < P -> 0 <= rt ->
  rt + P * U3 < (rv + P * V3) * 65536 -> U3 < (V3 + 1) * 65536.
Proof. intros HP Hrv Hrt H. apply (Z.mul_lt_mono_pos_l P); trivial. lia. Qed.

Lemma estimate_above P rv rt V3 U3 qhat :
  0 < P -> 0 <= rv < P -> 0 <= rt -> 65536 <= V3 -> 0 <= qhat < 65536 ->
  qhat * V3 <= U3 -> (qhat - 1) * (rv + P * V3) < rt + P * U3.
Proof.
  intros HP Hrv Hrt HV3 Hq H.
  assert (qhat * V3 * P <= U3 * P) by (apply Z.mul_le_mono_nonneg_r; lia).
  assert (qhat * rv <= 65536 * rv) by (apply Z.mul_le_mono_nonneg_r; lia).
  assert (65536 * P <= V3 * P) by (apply Z.mul_le_mono_nonneg_r; lia). lia.
Qed.

(** The quotient digit of a window below [v * 65536] is at most one below the
    refined estimate. *)
Lemma estimate_spec t v' v1 v2 u2 u1 u0 :
  wf t -> wf v' -> length t = length v' ->
  32768 <= v1 < 65536 -> 0 <= v2 < 65536 ->
  0 <= u2 < 65536 -> 0 <= u1 < 65536 -> 0 <= u0 < 65536 ->
  let V := val (v' ++ [v2; v1]) in
  let W := val (t ++ [u0; u1; u2]) in
  W < V * 65536 ->
  let U2 := u2 * 65536 + u1 in
  let qhat := refine 3 v1 v2 u0 (U2 / v1) (U2 mod v1) in
  0 <= qhat < 65536 /\ W / V <= qhat <= W / V + 1.
Proof.
  cbn zeta. intros Ht Hv' Hl Hv1 Hv2 Hu2 Hu1 Hu0 HW.
  rewrite !valB_app, Hl in * by lia. cbn [valB] in *.
  pose proof (valB_bound 65536 base16_pos v' Hv') as Bv.
  pose proof (valB_bound 65536 base16_pos t Ht) as Bt. rewrite Hl in Bt.
  set (P := 65536 ^ Z.of_nat (length v')) in *.
  set (V3 := v1 * 65536 + v2). set (U2 := u2 * 65536 + u1).
  set (U3 := U2 * 65536 + u0).
  replace (val v' + P * (v2 + 65536 * (v1 + 65536 * 0))) with (val v' + P * V3)
    in * by (subst V3; ring).
  replace (val t + P * (u0 + 65536 * (u1 + 65536 * (u2 + 65536 * 0))))
    with (val t + P * U3) in * by (subst U3 U2; ring).
  set (V := val v' + P * V3) in *. set (W := val t + P * U3) in *.
  assert (HU2 : 0 <= U2) by (subst U2; lia).
  assert (HU3 : 0 <= U3) by (subst U3; lia).
  assert (HP : 0 < P) by lia.
  assert (HV3 : 32768 * 65536 <= V3) by (subst V3; lia).
  assert (HV : 0 < V) by (apply Z.add_nonneg_pos; [lia | apply Z.mul_pos_pos; lia]).
  assert (HW0 : 0 <= W)
    by (apply Z.add_nonneg_nonneg; [lia | apply Z.mul_nonneg_nonneg; lia]).
  set (q := W / V).
  assert (Hq : 0 <= q < 65536)
    by (split; [apply Z.div_pos; lia | apply Z.div_lt_upper_bound; lia]).
  assert (HqV : q * V <= W) by (rewrite Z.mul_comm; apply Z.mul_div_le; lia).
  assert (HqU : q * V3 <= U3)
    by (apply (estimate_below P (val v') (val t)); trivial; lia).
  assert (HUV : U3 < (V3 + 1) * 65536)
    by (apply (estimate_window P (val v') (val t)); trivial; lia).
  assert (Hu2v : U2 <= v1 * 65536 + 65535) by (subst U3 U2 V3; lia).
  pose proof (Z.div_mod U2 v1 ltac:(lia)). pose proof (Z.mod_pos_bound U2 v1).
  assert (Hq0 : q <= U2 / v1).
  { apply Z.div_le_lower_bound; [lia|]. clear - HqU Hq Hu0 Hv2. subst U3 V3.
    assert (0 <= q * v2) by (apply Z.mul_nonneg_nonneg; lia). lia. }
  destruct (refine_spec 3 v1 v2 u0 U2 q (U2 / v1) (U2 mod v1)) as [R1 R2];
    trivial; try lia.
  set (qhat := refine 3 v1 v2 u0 (U2 / v1) (U2 mod v1)) in *.
  split; [lia|]. split; [lia|].
  assert (Hab : (qhat - 1) * V < W)
    by (apply (estimate_above P (val v') (val t)); trivial; lia).
  assert (qhat - 1 <= q); [|lia].
  apply Z.div_le_lower_bound; lia.
Qed.

(** The last limbs of a window and of a divisor, named. *)
Lemma split_divisor (v : list Z) :
  (2 <= length v)%nat -> exists v' v2 v1, v = v' ++ [v2; v1] /\
    length v = (length v' + 2)%nat.
Proof.
  intros H. destruct (split_last v (length v - 1)) as (t & v1 & -> & L); [lia|].
  rewrite length_app in L; cbn in L.
  destruct (split_last t (length t - 1)) as (v' & v2 & -> & L'); [|].
  - rewrite length_app in H; cbn in H. lia.
  - exists v', v2, v1. rewrite <- app_assoc. split; trivial.
    rewrite !length_app; cbn; lia.
Qed.

Lemma split_window (win : list Z) n :
  length win = (n + 3)%nat ->
  exists t u0 u1 u2, win = t ++ [u0; u1; u2] /\ length t = n.
Proof.
  intros H. destruct (split_last win (n + 2)) as (w & u2 & -> & L); [lia|].
  destruct (split_divisor w) as (t & u0 & u1 & -> & L'); [lia|].
  exists t, u0, u1, u2. rewrite <- app_assoc. split; trivial. lia.
Qed.

Lemma window_nth (t : list Z) u0 u1 r n :
  length t = n ->
  nth n (t ++ u0 :: u1 :: r) 0 = u0 /\ nth (S n) (t ++ u0 :: u1 :: r) 0 = u1 /\
  firstn (n + 2) (t ++ u0 :: u1 :: r) = t ++ [u0; u1] /\
  nth (n + 2) (t ++ u0 :: u1 :: r) 0 = nth 0 r 0.
Proof.
  intros <-. rewrite !app_nth2, firstn_app, firstn_all2 by lia.
  replace (S (length t) - length t)%nat with 1%nat by lia.
  replace (length t + 2 - length t)%nat with 2%nat by lia.
  rewrite Nat.sub_diag. repeat split.
Qed.

(** A number below [P], plus a multiple of [P] that stays in [0, P). *)
Lemma no_multiple P x k y : 0 <= x < P -> x + P * k = y -> 0 <= y < P -> k = 0 /\ x = y.
Proof. intros; assert (k = 0) by nia; subst; lia. Qed.

Lemma estimate_negative P r diff W qhat V :
  0 <= r < P -> 0 < V -> r + P * diff = W - qhat * V -> diff <= -1 ->
  W / V <= qhat <= W / V + 1 -> qhat = W / V + 1.
Proof.
  intros Hr HV E Hd Hq. assert (qhat <> W / V); [|lia]. intros ->.
  pose proof (Z.mul_div_le W V HV). nia.
Qed.

Lemma estimate_exact P r diff W qhat V :
  0 <= r < P -> 0 < V -> r + P * diff = W - qhat * V -> 0 <= diff ->
  W / V <= qhat <= W / V + 1 -> qhat = W / V.
Proof.
  intros Hr HV E Hd Hq. assert (qhat <> W / V + 1); [|lia]. intros ->.
  pose proof (Z.div_mod W V ltac:(lia)). pose proof (Z.mod_pos_bound W V HV). nia.
Qed.

Lemma div_step_spec win v :
  wf win -> wf v -> (2 <= length v)%nat -> length win = S (length v) ->
  32768 <= nth (length v - 1) v 0 -> val win < val v * 65536 ->
  let '(d, win') := div_step win v in
  d = val win / val v /\ 0 <= d < 65536 /\ val win' = val win mod val v /\
  wf win' /\ length win' = S (length v).
Proof.
  intros Hw Hv H2 Hl Htop HW.
  destruct (split_divisor v H2) as (v' & v2 & v1 & -> & Lv).
  set (n := length v') in *.
  destruct (split_window win n) as (t & u0 & u1 & u2 & -> & Lt); [lia|].
  unfold div_step. rewrite Lv in *.
  replace (n + 2 - 1)%nat with (S n) in * by lia. replace (n + 2 - 2)%nat with n by lia.
  destruct (window_nth v' v2 v1 [] n eq_refl) as (N2 & N1 & _).
  destruct (window_nth t u0 u1 [u2] n Lt) as (M0 & M1 & M2 & M3).
  cbn [nth] in M3. rewrite N1 in *. rewrite N2, M0, M1, M2, M3. clear N1 N2 M0 M1 M2 M3.
  assert (Ll : length (t ++ [u0; u1]) = (n + 2)%nat) by (rewrite length_app; cbn; lia).
  assert (Hw' := Hw).
  apply wfB_app in Hw' as [Ht Hu]. apply wfB_cons in Hu as [Hu0 Hu].
  apply wfB_cons in Hu as [Hu1 Hu]. apply wfB_cons in Hu as [Hu2 _].
  assert (Hv' := Hv).
  apply wfB_app in Hv' as [Hvv Hvt]. apply wfB_cons in Hvt as [Hv2 Hvt].
  apply wfB_cons in Hvt as [Hv1 _].
  rewrite (u32_small (Z.shiftl u2 16)) by (rewrite shl16; lia).
  rewrite lor_shl16 by lia.
  destruct (estimate_spec t v' v1 v2 u2 u1 u0) as (Hqr & Hq1 & Hq2);
    trivial; try lia.
  set (V := val (v' ++ [v2; v1])) in *. set (W := val (t ++ [u0; u1; u2])) in *.
  set (qhat := refine 3 v1 v2 u0 ((u2 * 65536 + u1) / v1) ((u2 * 65536 + u1) mod v1)) in *.
  pose proof (mulsub_loop_spec qhat (t ++ [u0; u1]) (v' ++ [v2; v1]) 0 0) as M.
  destruct (mulsub_loop qhat (t ++ [u0; u1]) (v' ++ [v2; v1]) 0 0) as [[r c] b].
  destruct M as (Wr & Lr & Hc & Hb & E); trivial; try lia.
  { replace (t ++ [u0; u1; u2]) with ((t ++ [u0; u1]) ++ [u2]) in Hw
      by now rewrite <- app_assoc. now apply wfB_app in Hw. }
  fold V in E. rewrite Ll in *.
  assert (EW : W = val (t ++ [u0; u1]) + 65536 ^ Z.of_nat (n + 2) * u2).
  { subst W. replace (t ++ [u0; u1; u2]) with ((t ++ [u0; u1]) ++ [u2])
      by now rewrite <- app_assoc.
    rewrite valB_app, Ll by lia. cbn [valB]. ring. }
  set (P := 65536 ^ Z.of_nat (n + 2)) in *.
  unwrap. set (diff := u2 - c + b).
  assert (ED : val r + P * diff = W - qhat * V) by (subst diff; lia).
  assert (Bd : -65536 <= diff <= 65535) by (subst diff; lia).
  pose proof (valB_bound 65536 base16_pos _ Wr) as Br. rewrite Lr in Br. fold P in Br.
  pose proof (valB_bound 65536 base16_pos _ Hv) as BV. rewrite Lv in BV. fold P V in BV.
  assert (HV : 0 < V).
  { subst V. rewrite valB_app by lia. cbn [valB].
    pose proof (valB_nonneg 65536 ltac:(lia) _ Hvv).
    apply Z.add_nonneg_pos; trivial. apply Z.mul_pos_pos; lia. }
  pose proof (Z.div_mod W V ltac:(lia)) as DM. pose proof (Z.mod_pos_bound W V HV) as MB.
  assert (HW0 : 0 <= W / V) by (apply Z.div_pos; trivial; now apply valB_nonneg).
  words. pose proof (Z.mod_pos_bound diff 65536) as Md.
  pose proof (Z.div_mod diff 65536) as Dd.
  unwrap.
  destruct (Z.ltb_spec (diff / 65536) 0) as [Hneg|Hpos].
  - (* one too many: add the divisor back *)
    assert (diff / 65536 = -1) by lia. assert (diff < 0) by lia.
    assert (Hqe : qhat = W / V + 1)
      by (apply (estimate_negative P (val r) diff); trivial; lia).
    pose proof (addback_loop_spec r (v' ++ [v2; v1]) 0) as A.
    destruct (addback_loop r (v' ++ [v2; v1]) 0) as [r' c3].
    destruct A as (Wa & La & Hc3 & Ea); trivial; try lia.
    rewrite Lr in *. fold P V in Ea.
    pose proof (valB_bound 65536 base16_pos _ Wa) as Ba. rewrite La in Ba. fold P in Ba.
    assert (HqV : qhat * V = W / V * V + V) by (rewrite Hqe; ring).
    destruct (no_multiple P (val r') (c3 + diff) (W mod V)) as [Hz R]; trivial; [|lia|].
    { clear - DM HqV ED Ea. set (Q := W / V) in *. set (M := W mod V) in *. clearbody Q M. lia. }
    rewrite Hqe. replace (u16 (W / V + 1) - 1) with (W / V) by (unwrap; lia). unwrap.
    replace (diff mod 65536 + c3) with 65536 by lia. change (u16 65536) with 0.
    split; [lia|]. split; [lia|]. rewrite valB_app, La by lia. cbn [valB].
    split; [lia|]. rewrite length_app, La. cbn [length]. split; [|lia].
    apply wfB_app; split; trivial. repeat constructor; lia.
  - assert (Hqe : qhat = W / V)
      by (apply (estimate_exact P (val r) diff); trivial; lia).
    assert (diff / 65536 = 0) by lia. replace (diff mod 65536) with diff in * by lia.
    split; [trivial|]. split; [lia|]. rewrite valB_app, Lr by lia. cbn [valB]. fold P.
    split; [rewrite Z.mul_0_r, Z.add_0_r, ED, Hqe, Z.mod_eq by lia; ring|].
    rewrite length_app, Lr. cbn [length]. split; [|lia].
    apply wfB_app; split; trivial. repeat constructor; lia.
Qed.

(** ** The loop *)

Lemma val_split l i : val l = val (firstn i l) + 65536 ^ Z.of_nat (length (firstn i l))
                                * val (skipn i l).
Proof. rewrite <- valB_app by lia. now rewrite firstn_skipn. Qed.

Lemma wf_firstn l i : wf l -> wf (firstn i l).
Proof. intros H. rewrite <- (firstn_skipn i l) in H. now apply wfB_app in H. Qed.

Lemma wf_skipn l i : wf l -> wf (skipn i l).
Proof. intros H. rewrite <- (firstn_skipn i l) in H. now apply wfB_app in H. Qed.
#[export] Hint Resolve wf_firstn wf_skipn : limbs.

(** A window taken where everything above it is zero. *)
Lemma val_window l k P :
  wf l -> (k <= length l)%nat -> P = 65536 ^ Z.of_nat k -> val l < P ->
  val (firstn k l) = val l /\ val (skipn k l) = 0.
Proof.
  intros Hw Hk -> Hlt. pose proof (val_split l k) as E.
  rewrite firstn_length_le in E by trivial.
  pose proof (valB_nonneg 65536 ltac:(lia) _ (wf_firstn l k Hw)).
  pose proof (valB_nonneg 65536 ltac:(lia) _ (wf_skipn l k Hw)).
  assert (val (skipn k l) = 0) by nia. lia.
Qed.

Lemma div_loop_spec v :
  wf v -> (2 <= length v)%nat -> 32768 <= nth (length v - 1) v 0 ->
  forall j u q, wf u -> (j + length v <= length u)%nat -> val (skipn j u) < val v ->
  exists qs u', div_loop j v u q = (qs ++ q, u') /\ length qs = j /\ wf qs /\
    wf u' /\ length u' = length u /\ val u = val qs * val v + val u' /\ val u' < val v.
Proof.
  intros Hv H2 Htop j.
  set (n := length v) in *. set (V := val v).
  pose proof (valB_bound 65536 base16_pos v Hv) as BV. fold n V in BV.
  induction j as [|idx IH]; intros u q Hu Hl HV; cbn [div_loop].
  - exists [], u. cbn [valB skipn app] in *. repeat split; trivial. constructor.
  - (* the window at idx *)
    assert (Lf : length (firstn idx u) = idx) by (apply firstn_length_le; lia).
    assert (Lk : length (skipn idx u) = (length u - idx)%nat) by apply length_skipn.
    assert (Hs : val (skipn idx u) < V * 65536).
    { destruct (skipn idx u) as [|x t] eqn:Et; [cbn in Lk; lia|].
      assert (skipn (S idx) u = t) as Es.
      { replace (S idx) with (1 + idx)%nat by lia. now rewrite <- skipn_skipn, Et. }
      rewrite Es in HV. assert (Hx : wf (x :: t)) by (rewrite <- Et; auto with limbs).
      apply wfB_cons in Hx. cbn [valB]. lia. }
    set (P := 65536 ^ Z.of_nat (S n)).
    assert (HP : P = 65536 * 65536 ^ Z.of_nat n)
      by (unfold P; now rewrite Nat2Z.inj_succ, Z.pow_succ_r by lia).
    destruct (val_window (skipn idx u) (S n) P) as [Ew Ez]; auto with limbs; [lia|lia|].
    rewrite skipn_skipn in Ez. rewrite (Nat.add_comm _ idx) in Ez.
    fold n. pose proof (div_step_spec (firstn (S n) (skipn idx u)) v) as D.
    destruct (div_step (firstn (S n) (skipn idx u)) v) as [d win].
    destruct D as (Dd & Dr & Dv & Dw & Dl); auto with limbs.
    { rewrite firstn_length_le; lia. }
    { fold V. lia. }
    fold V in Dd, Dv. fold n in Dl. rewrite Ew in Dd, Dv.
    set (u1 := firstn idx u ++ win ++ skipn (idx + S n) u).
    assert (Lr : length (skipn (idx + S n) u) = (length u - (idx + S n))%nat)
      by apply length_skipn.
    assert (L1 : length u1 = length u)
      by (subst u1; rewrite !length_app, Lf, Dl, Lr; lia).
    assert (S1 : skipn idx u1 = win ++ skipn (idx + S n) u)
      by (subst u1; rewrite skipn_app, Lf, Nat.sub_diag, skipn_all2 by lia; reflexivity).
    assert (V1 : val (skipn idx u1) = val (skipn idx u) mod V)
      by (rewrite S1, valB_app, Ez by lia; lia).
    assert (HV0 : 0 < V).
    { pose proof (valB_nonneg 65536 ltac:(lia) _ (wf_skipn u (S idx) Hu)). lia. }
    pose proof (Z.mod_pos_bound (val (skipn idx u)) V HV0).
    destruct (IH u1 (d :: q)) as (qs & u' & E & Lq & Wq & Wu & Lu & Ev & Bu); try lia.
    { subst u1. apply wfB_app; split; auto with limbs.
      apply wfB_app; split; auto with limbs. }
    exists (qs ++ [d]), u'. rewrite E, <- app_assoc. split; [reflexivity|].
    rewrite length_app. cbn [length]. split; [lia|].
    split; [apply wfB_app; split; trivial; repeat constructor; lia|].
    split; [trivial|]. split; [lia|]. split; [|trivial].
    rewrite (val_split u idx), Lf.
    assert (E1 : val u1 = val (firstn idx u) + 65536 ^ Z.of_nat idx
                            * (val (skipn idx u) mod V)).
    { rewrite (val_split u1 idx), firstn_length_le, V1 by lia. do 2 f_equal.
      subst u1. rewrite firstn_app, Lf, Nat.sub_diag, firstn_firstn, Nat.min_id.
      now rewrite firstn_O, app_nil_r. }
    rewrite valB_app, Lq by lia. cbn [valB].
    pose proof (Z.div_mod (val (skipn idx u)) V ltac:(lia)). nia.
Qed.

(** ** The remainder *)

Lemma unshift_top_spec ru : forall s carry,
  wf ru -> 0 < s <= 15 -> 0 <= carry < 2 ^ s ->
  wf (unshift_top ru s carry) /\ length (unshift_top ru s carry) = length ru /\
  exists out, 0 <= out < 2 ^ s /\
    carry * 65536 ^ Z.of_nat (length ru) + val (rev ru)
      = val (rev (unshift_top ru s carry)) * 2 ^ s + out.
Proof.
  induction ru as [|x t IH]; intros s carry Hw Hs Hc; cbn [unshift_top length].
  - repeat split; [constructor|]. exists carry.
    change (Z.of_nat 0) with 0. rewrite Z.pow_0_r. cbn. lia.
  - apply wfB_cons in Hw. destruct Hw as [Hx Ht].
    assert (0 < 2 ^ s <= 2 ^ 15)
      by (split; [apply Z.pow_pos_nonneg; lia | apply Z.pow_le_mono_r; lia]).
    rewrite (u32_small (Z.shiftl carry 16)) by (rewrite shl16; lia).
    rewrite (lor_add_shiftl carry x 16) by lia. change (2 ^ 16) with 65536.
    rewrite Z.shiftl_1_l. unwrap. rewrite land_mask by lia.
    set (v := x + carry * 65536). rewrite shr_div by lia.
    assert (Hm : x mod 2 ^ s = v mod 2 ^ s).
    { subst v. replace 65536 with (2 ^ (16 - s) * 2 ^ s)
        by (rewrite <- Z.pow_add_r by lia; replace (16 - s + s) with 16 by lia; reflexivity).
      rewrite Z.mul_assoc, Z.mod_add by lia. reflexivity. }
    rewrite Hm. pose proof (Z.mod_pos_bound v (2 ^ s)).
    assert (0 <= v / 2 ^ s < 65536)
      by (split; [apply Z.div_pos; lia | apply Z.div_lt_upper_bound; lia]).
    destruct (IH s (v mod 2 ^ s)) as (W & L & out & Ho & E); trivial; [lia|].
    unwrap. split; [constructor; trivial; lia|]. split; [cbn; lia|].
    exists out. split; trivial. cbn [rev length].
    rewrite !valB_app, !length_rev, L by lia. cbn [valB].
    rewrite Nat2Z.inj_succ, Z.pow_succ_r by lia.
    set (P := 65536 ^ Z.of_nat (length t)) in *.
    pose proof (Z.div_mod v (2 ^ s)) as Dv.
    replace (carry * (65536 * P) + (val (rev t) + P * (x + 65536 * 0)))
      with (val (rev t) + P * v) by (subst v; ring).
    rewrite Dv at 1 by lia.
    replace (val (rev t) + P * (2 ^ s * (v / 2 ^ s) + v mod 2 ^ s))
      with (v mod 2 ^ s * P + val (rev t) + P * (v / 2 ^ s) * 2 ^ s) by ring.
    rewrite E. ring.
Qed.

(** ** The theorem *)

(** The top limb of a canonical divisor of several limbs. *)
Lemma canonical_nth l :
  canonical l -> (2 <= length l)%nat -> nth (length l - 1) l 0 <> 0.
Proof.
  intros Hc Hl. destruct (split_last l (length l - 1)) as (t & d & -> & L); [lia|].
  rewrite <- L, nth_app_last. eapply canonical_top; eauto.
  intros ->. cbn in Hl. lia.
Qed.

Lemma bignum_divmod_single a d :
  wf a -> 0 < d < 65536 -> (1 <= length a)%nat ->
  let '(q, r) := bignum_divmod a [d] in
  val q = val a / d /\ val r = val a mod d /\ wf q /\ wf r /\ canonical q /\ length r = 1%nat.
Proof.
  intros Ha Hd H1. cbn [bignum_divmod].
  pose proof (bignum_div_single_spec a d Ha Hd) as S.
  destruct (bignum_div_single a d) as [q r]. destruct S as (W & L & R & E).
  assert (Eq : val (strip q) = val a / d).
  { rewrite strip_val by lia. apply Z.div_unique with r; lia. }
  assert (Er : val [r] = val a mod d).
  { cbn [valB]. rewrite Z.mul_0_r, Z.add_0_r. apply Z.mod_unique with (val q); lia. }
  repeat split; trivial; try (apply strip_canonical; lia).
  - apply strip_wf; trivial; lia.
  - repeat constructor; lia.
Qed.

(** The shifted top limb bounds the shifted divisor on both sides. *)
Lemma top_absorbs t d Q p K :
  0 <= t < Q -> 0 < p -> K * p = 65536 -> 32768 <= d * p < 65536 ->
  32768 * Q <= (t + Q * d) * p < 65536 * Q.
Proof.
  intros Ht Hp HK Hd. assert (d + 1 <= K) by nia.
  assert ((d + 1) * p <= 65536) by nia. split; [nia|].
  apply Z.lt_le_trans with (Q * ((d + 1) * p)); nia.
Qed.

Lemma no_carry_out v c P : 0 < P -> 0 <= v -> 0 <= c -> v + P * c < P -> c = 0.
Proof. intros. nia. Qed.

(** The multi-limb branch on normalised data: the loop divides [a * 2^s] by
    [b * 2^s]. *)
Lemma divmod_knuth_spec a b :
  wf a -> wf b -> canonical b -> (2 <= length b)%nat -> (length b <= length a)%nat ->
  let '(q, r) := divmod_knuth a b in
  val q = val a / val b /\ val r = val a mod val b /\ wf q /\ wf r /\ canonical q /\
  length r = length b.
Proof.
  intros Ha Hb Cb Hl Hla. unfold divmod_knuth. set (n := length b) in *.
  assert (Htop : 0 < nth (n - 1) b 0 < 65536).
  { pose proof (canonical_nth b Cb Hl).
    assert (In (nth (n - 1) b 0) b) as Hin by (apply nth_In; lia).
    pose proof (proj1 (Forall_forall _ b) Hb _ Hin) as Hx. cbn beta in Hx.
    subst n. lia. }
  destruct (shift_loop_spec 16 (nth (n - 1) b 0)) as [Hs Hn]; trivial; [change (2 ^ (16 - Z.of_nat 16)) with 1; lia|].
  set (s := shift_loop 16 (nth (n - 1) b 0)) in *.
  assert (Hp : 0 < 2 ^ s <= 2 ^ 15)
    by (split; [apply Z.pow_pos_nonneg; lia | apply Z.pow_le_mono_r; lia]).
  pose proof (shl_loop_spec b s 0 Hb Hs) as Sb. destruct (shl_loop b s 0) as [v cb].
  destruct Sb as (Wv & Lv & Cv & Ev); [lia|]. fold n in Lv, Ev.
  pose proof (shl_loop_spec a s 0 Ha Hs) as Sa. destruct (shl_loop a s 0) as [u ca].
  destruct Sa as (Wu & Lu & Ca & Eu); [lia|].
  (* the divisor's top limb absorbs the shift: no carry out *)
  assert (Hsplit : exists t d, b = t ++ [d] /\ length t = (n - 1)%nat)
    by (apply split_last; lia).
  destruct Hsplit as (t & d & Ebt & Lt).
  assert (Hd : nth (n - 1) b 0 = d) by (rewrite Ebt, <- Lt; apply nth_app_last).
  rewrite Hd in Hn.
  set (Q := 65536 ^ Z.of_nat (n - 1)).
  assert (EQ : 65536 ^ Z.of_nat n = 65536 * Q).
  { subst Q. replace n with (S (n - 1)) at 1 by lia.
    now rewrite Nat2Z.inj_succ, Z.pow_succ_r by lia. }
  assert (Vb : val b = val t + Q * d)
    by (rewrite Ebt, valB_app, Lt by lia; cbn [valB]; fold Q; ring).
  assert (Wt : wf t) by (rewrite Ebt in Hb; now apply wfB_app in Hb).
  pose proof (valB_bound 65536 base16_pos t Wt) as Bt. rewrite Lt in Bt. fold Q in Bt.
  pose proof (valB_bound 65536 base16_pos v Wv) as Bv. rewrite Lv, EQ in Bv.
  assert (Hvb : 32768 * Q <= val b * 2 ^ s < 65536 * Q).
  { rewrite Vb. apply top_absorbs with (2 ^ (16 - s)); trivial; try lia.
    rewrite <- Z.pow_add_r by lia. replace (16 - s + s) with 16 by lia. reflexivity. }
  assert (Hcb : cb = 0).
  { rewrite EQ, Z.add_0_r in Ev. apply (no_carry_out (val v) cb (65536 * Q)); lia. }
  subst cb.
  assert (EV : val v = val b * 2 ^ s) by lia.
  destruct (split_last v (n - 1)) as (tv & dv & Etv & Ltv); [lia|].
  assert (Hvtop : 32768 <= nth (length v - 1) v 0).
  { rewrite Lv, Etv, <- Ltv, nth_app_last.
    assert (Wtv : wf tv) by (rewrite Etv in Wv; now apply wfB_app in Wv).
    pose proof (valB_bound 65536 base16_pos tv Wtv) as Btv. rewrite Ltv in Btv. fold Q in Btv.
    assert (val v = val tv + Q * dv)
      by (rewrite Etv, valB_app, Ltv by lia; cbn [valB]; fold Q; ring).
    assert (32768 * Q < (dv + 1) * Q) by lia. nia. }
  set (m := (length a - n)%nat). set (U := u ++ [u16 ca]).
  assert (Eca : u16 ca = ca) by (apply u16_small; lia).
  assert (LU : length U = (m + 1 + n)%nat) by (subst U m; rewrite length_app; cbn; lia).
  assert (VU : val U = val a * 2 ^ s)
    by (subst U; rewrite valB_app, Lu, Eca by lia; cbn [valB]; lia).
  assert (WU : wf U) by (subst U; rewrite Eca; apply wfB_app; split; trivial;
    repeat constructor; lia).
  pose proof (valB_bound 65536 base16_pos a Ha) as Ba.
  destruct (div_loop_spec v Wv) with (j := (m + 1)%nat) (u := U) (q := @nil Z)
    as (qs & u' & E & Lq & Wq & Wu' & Lu' & Ed & Bd); trivial; try lia.
  { (* the first window is small enough *)
    pose proof (val_split U (m + 1)) as ES. rewrite firstn_length_le in ES by lia.
    pose proof (valB_nonneg 65536 ltac:(lia) _ (wf_firstn U (m + 1) WU)).
    set (R := 65536 ^ Z.of_nat (m + 1)) in *.
    assert (ER : 65536 ^ Z.of_nat (length a) = R * Q)
      by (subst R Q; rewrite <- Z.pow_add_r by lia; f_equal; lia).
    assert (0 < R) by (apply Z.pow_pos_nonneg; lia).
    assert (HA : val a * 2 ^ s < R * Q * 2 ^ 15) by nia.
    assert (val (skipn (m + 1) U) < 32768 * Q); [|lia].
    apply (Z.mul_lt_mono_pos_l R); trivial. lia. }
  rewrite E, app_nil_r.
  assert (Hb0 : 0 < val b) by nia.
  pose proof (valB_nonneg 65536 ltac:(lia) u' Wu') as Hu'0.
  assert (Eq : val qs = val a / val b).
  { rewrite <- (Z.div_mul_cancel_r (val a) (val b) (2 ^ s)) by lia.
    apply Z.div_unique with (val u'); lia. }
  assert (Er : val u' = (val a mod val b) * 2 ^ s).
  { rewrite <- Z.mul_mod_distr_r by lia. apply Z.mod_unique with (val qs); lia. }
  destruct (val_window u' n (65536 * Q)) as [Ew _]; trivial; try lia.
  assert (Lf : length (firstn n u') = n) by (apply firstn_length_le; lia).
  rewrite strip_val by lia. split; [trivial|].
  assert (Hrest : wf (strip qs) /\ canonical (strip qs))
    by (split; [apply strip_wf | apply strip_canonical]; trivial; lia).
  destruct (Z.ltb_spec 0 s) as [Hs0|Hs0].
  - destruct (unshift_top_spec (rev (firstn n u')) s 0) as (Wr & Lr & out & Ho & Eo);
      [apply Forall_rev, (wf_firstn u' n Wu')|lia|lia|].
    rewrite rev_involutive, Ew, Er in Eo. rewrite length_rev, Lf in Lr.
    repeat split; try apply Hrest; [nia| |now rewrite length_rev].
    now apply Forall_rev.
  - assert (Es : s = 0) by lia. rewrite Ew, Er, Es, Z.pow_0_r, Z.mul_1_r.
    repeat split; try apply Hrest; trivial. auto with limbs.
Qed.

Lemma bignum_divmod_spec a b :
  wf a -> wf b -> canonical b -> 0 < val b -> (length b <= length a)%nat ->
  let '(q, r) := bignum_divmod a b in
  val q = val a / val b /\ val r = val a mod val b /\ wf q /\ wf r /\ canonical q /\
  length r = length b.
Proof.
  intros Ha Hb Cb Hpos Hl. destruct b as [|b0 [|b1 b']].
  - cbn in Hpos. lia.
  - cbn [valB] in Hpos |- *. rewrite Z.mul_0_r, Z.add_0_r in *.
    apply wfB_cons in Hb. apply bignum_divmod_single; trivial; cbn in Hl; lia.
  - apply divmod_knuth_spec; trivial. cbn; lia.
Qed.

(** ** Property *)

(** C18: Knuth's algorithm D and the single-limb division compute the
    quotient and the remainder of the magnitudes, for every divisor without
    leading zeros that is no longer than the dividend; the quotient comes
    back stripped and the remainder has the divisor's length. *)
Theorem bignum_divmod_correct a b :
  wf a -> wf b -> canonical b -> 0 < val b -> (length b <= length a)%nat ->
  let '(q, r) := bignum_divmod a b in
  val q = val a / val b /\ val r = val a mod val b /\ wf q /\ wf r /\ canonical q /\
  length r = length b.
Proof. exact (bignum_divmod_spec a b). Qed.

(** A division whose trial quotient is one too large (the add-back step). *)
Lemma bignum_divmod_correct_witness :
  let a := [3; 0; 32768] in let b := [1; 0; 8192] in
  bignum_divmod a b = ([3], [0; 0; 8192]) /\
  let '(q, r) := bignum_divmod a b in
  val q = val a / val b /\ val r = val a mod val b /\ wf q /\ wf r /\ canonical q /\
  length r = length b.
Proof.
  split; [vm_compute; reflexivity|].
  apply (bignum_divmod_correct [3; 0; 32768] [1; 0; 8192]).
  - repeat constructor; lia.
  - repeat constructor; lia.
  - split; [cbn; lia | right; cbn; lia].
  - vm_compute. reflexivity.
  - cbn. lia.
Defined.
