(* ===== verification/Bignum.v ===== *)
(** * Integer objects and the four operations

    src/src/core/bignum.c (and the fixnum tagging of src/src/core/types.h).  A Lisp integer is
    a tagged fixnum or a heap bignum, a sign and an array of 16-bit limbs;
    [integer] is that object, with the fixnum's tag word decoded.  Every
    operation below is the integer path of the C function of the same name:
    the ratio and complex dispatch that precedes it is in Number.v.

    [rep a z] is the interface of the component: the object [a] is well
    formed (a fixnum in range, or a stripped bignum that is no fixnum) and
    denotes [z].  Each operation comes with one [rep_...] lemma in the hint
    database [ints]; the clients of this file use nothing else.

    Not modelled: the storage error of cl_make_bignum above
    CL_MAX_BIGNUM_LIMBS, GC protection, and the choice between stack and heap
    scratch buffers, none of which the values depend on. *)

From Stdlib Require Import ZArith List Lia Bool.
From S2P Require Import Prelude Limbs Division.
Import ListNotations.
Local Open Scope Z_scope.

(** ** Tagging (types.h) *)

Definition CL_FIXNUM_MAX : Z := 1073741823.
Definition CL_FIXNUM_MIN : Z := -1073741824.

Definition CL_MAKE_FIXNUM (n : Z) : Z := Z.lor (u32 (Z.shiftl (u32 n) 1)) 1.
Definition CL_FIXNUM_VAL (obj : Z) : Z := Z.shiftr (i32 obj) 1.

(** ** Integer objects *)

Inductive integer : Set :=
| Fix (v : Z)
| Big (sign : bool) (limbs : list Z).

(** The object CL_MAKE_FIXNUM(n) denotes. *)
Definition make_fixnum (n : Z) : integer := Fix (CL_FIXNUM_VAL (CL_MAKE_FIXNUM n)).

Definition CL_FIXNUM_P (a : integer) : bool :=
  match a with Fix _ => true | Big _ _ => false end.

(** Sign and magnitude of an object; two limbs for a fixnum of 17 bits or
    more. *)
Definition to_limbs (obj : integer) : list Z * bool :=
  match obj with
  | Fix val =>
      let sign := val <? 0 in
      let uval := if sign then u32 (i32 (- val)) else u32 val in
      let tmp0 := u16 (Z.land uval 65535) in
      let tmp1 := u16 (Z.shiftr uval 16) in
      (if negb (tmp1 =? 0) then [tmp0; tmp1] else [tmp0], sign)
  | Big sign limbs => (limbs, sign)
  end.

Definition cl_bignum_normalize (obj : integer) : integer :=
  match obj with
  | Fix _ => obj
  | Big sign limbs =>
      let l := strip limbs in
      let check val :=
        if val =? 0 then make_fixnum 0
        else if negb sign
        then (if val <=? CL_FIXNUM_MAX then make_fixnum (i32 val) else Big sign l)
        else (if val <=? 1073741824 then make_fixnum (i32 (- i32 val)) else Big sign l) in
      match l with
      | [d0] => check d0
      | [d0; d1] => check (Z.lor d0 (u32 (Z.shiftl d1 16)))
      | _ => Big sign l
      end
  end.

Definition bignum_from_uint32 (val : Z) (sign : bool) : integer :=
  if val =? 0 then make_fixnum 0
  else if negb sign && (val <=? CL_FIXNUM_MAX) then make_fixnum (i32 val)
  else if sign && (val <=? 1073741824) then make_fixnum (i32 (- i32 val))
  else cl_bignum_normalize (Big sign [u16 (Z.land val 65535); u16 (Z.shiftr val 16)]).

Definition cl_bignum_from_int32 (val : Z) : integer :=
  let sign := val <? 0 in
  bignum_from_uint32 (if sign then u32 (i32 (- val)) else u32 val) sign.

Definition cl_bignum_from_uint32 (val : Z) : integer := bignum_from_uint32 val false.

Definition bignum_from_limbs (limbs : list Z) (sign : bool) : integer :=
  match strip limbs with
  | [0] => make_fixnum 0
  | l => cl_bignum_normalize (Big sign l)
  end.

(** ** EQL and hashing of bignums *)

Fixpoint limbs_equal (a b : list Z) : bool :=
  match a, b with
  | x :: a', y :: b' => if negb (x =? y) then false else limbs_equal a' b'
  | _, _ => true
  end.

Definition cl_bignum_equal (a b : integer) : bool :=
  match a, b with
  | Big sa la, Big sb lb =>
      if negb (eqb sa sb) then false
      else if negb (length la =? length lb)%nat then false
      else limbs_equal la lb
  | _, _ => false
  end.

(** [((h << 5) | (h >> 27)) ^ x] on uint32_t. *)
Definition rotate_xor (h x : Z) : Z :=
  Z.lxor (Z.lor (u32 (Z.shiftl h 5)) (Z.shiftr h 27)) x.

Definition cl_bignum_hash (sign : bool) (limbs : list Z) : Z :=
  fold_left rotate_xor limbs (rotate_xor 0 (Zb sign)).

(** ** Addition and subtraction *)

Definition bignum_addsub (a b : integer) (subtract : bool) : integer :=
  let '(al, a_sign) := to_limbs a in
  let '(bl, b_sign0) := to_limbs b in
  let b_sign := if subtract then (if b_sign0 then false else true) else b_sign0 in
  if eqb a_sign b_sign then bignum_from_limbs (bignum_add_mag al bl) a_sign
  else
    let cmp := bignum_compare_mag al bl in
    if cmp =? 0 then make_fixnum 0
    else if cmp >? 0 then bignum_from_limbs (bignum_sub_mag al bl) a_sign
    else bignum_from_limbs (bignum_sub_mag bl al) b_sign.

Definition fits_fixnum (v : Z) : bool := (v >=? CL_FIXNUM_MIN) && (v <=? CL_FIXNUM_MAX).

Definition cl_arith_add (a b : integer) : integer :=
  match a, b with
  | Fix va, Fix vb =>
      let sum := i32 (va + vb) in
      if fits_fixnum sum then make_fixnum sum else bignum_addsub a b false
  | _, _ => bignum_addsub a b false
  end.

Definition cl_arith_sub (a b : integer) : integer :=
  match a, b with
  | Fix va, Fix vb =>
      let diff := i32 (va - vb) in
      if fits_fixnum diff then make_fixnum diff else bignum_addsub a b true
  | _, _ => bignum_addsub a b true
  end.

(** ** Multiplication *)

(** 32x32->32 with overflow detection on 16x16 partial products; [None] is
    [goto bignum_mul]. *)
Definition mul_partials (ua ub : Z) : option Z :=
  let a_hi := Z.shiftr ua 16 in
  let a_lo := Z.land ua 65535 in
  let b_hi := Z.shiftr ub 16 in
  let b_lo := Z.land ub 65535 in
  if negb (a_hi =? 0) && negb (b_hi =? 0) then None
  else
    let cross := if negb (a_hi =? 0) then u32 (a_hi * b_lo) else u32 (a_lo * b_hi) in
    if cross >? 65535 then None
    else
      let prod_lo := u32 (a_lo * b_lo) in
      if u32 (Z.shiftr prod_lo 16 + cross) >? 65535 then None
      else Some (u32 (prod_lo + u32 (Z.shiftl cross 16))).

(** The fixnum fast path. *)
Definition mul_fixnums (va vb : Z) : option integer :=
  if (va =? 0) || (vb =? 0) then Some (make_fixnum 0)
  else if va =? 1 then Some (Fix vb)
  else if vb =? 1 then Some (Fix va)
  else
    let neg := negb (eqb (va <? 0) (vb <? 0)) in
    let ua := if va <? 0 then u32 (i32 (- va)) else u32 va in
    let ub := if vb <? 0 then u32 (i32 (- vb)) else u32 vb in
    match mul_partials ua ub with
    | None => None
    | Some prod_lo =>
        if negb neg && (prod_lo <=? CL_FIXNUM_MAX) then Some (make_fixnum (i32 prod_lo))
        else if neg && (prod_lo <=? 1073741824)
        then Some (make_fixnum (i32 (- i32 prod_lo)))
        else Some (bignum_from_uint32 prod_lo neg)
    end.

(** The result length of a bignum times a fixnum. *)
Definition mul_small_length (a : list Z) (m : Z) : nat :=
  Z.to_nat (((Z.of_nat (length a) - 1) * 16 + bit_length32 (nth (length a - 1) a 0)
             + bit_length32 m + 15) / 16).

(** [goto bignum_mul] onwards, on the limb kernels of one platform. *)
Section BignumMul.
Variable mul_small : list Z -> Z -> nat -> list Z.
Variable mul_limbs : list Z -> list Z -> list Z.

(** Bignum times fixnum: one pass into the result object. *)
Definition mul_big_fix (big : integer) (sign : bool) (limbs : list Z) (v : Z)
  : integer :=
  let m := if v <? 0 then u32 (i32 (- v)) else u32 v in
  let r_sign := xorb sign (v <? 0) in
  if m =? 0 then make_fixnum 0
  else if v =? 1 then big
  else cl_bignum_normalize (Big r_sign (mul_small limbs m (mul_small_length limbs m))).

Definition mul_general (a b : integer) : integer :=
  let '(al, a_sign) := to_limbs a in
  let '(bl, b_sign) := to_limbs b in
  let zero l := (length l =? 1)%nat && (nth 0 l 0 =? 0) in
  if zero al then make_fixnum 0
  else if zero bl then make_fixnum 0
  else bignum_from_limbs (mul_limbs al bl) (xorb a_sign b_sign).

Definition arith_mul (a b : integer) : integer :=
  match a, b with
  | Fix va, Fix vb =>
      match mul_fixnums va vb with Some r => r | None => mul_general a b end
  | Fix va, Big sb lb => mul_big_fix b sb lb va
  | Big sa la, Fix vb => mul_big_fix a sa la vb
  | Big _ _, Big _ _ => mul_general a b
  end.
End BignumMul.

(** The host's general product: 16-bit limbs packed in pairs. *)
Definition mul_limbs_host (al bl : list Z) : list Z :=
  unpack_32_to_16 (bignum_mul_mag32 (pack_16_to_32 al) (pack_16_to_32 bl)).

Definition cl_arith_mul : integer -> integer -> integer :=
  arith_mul bignum_mul_small mul_limbs_host.

(** The same function as an Amiga build compiles it. *)
Definition cl_arith_mul_68k : integer -> integer -> integer :=
  arith_mul bignum_mul_small_68k bignum_mul_mag.

(** ** Division *)

Definition is_zero_limbs (l : list Z) : bool :=
  (length l =? 1)%nat && (nth 0 l 0 =? 0).

Definition cl_arith_truncate (a b : integer) : result integer :=
  match a, b with
  | Fix va, Fix vb =>
      if vb =? 0 then Err CL_ERR_DIVZERO else Ok (make_fixnum (i32 (Z.quot va vb)))
  | _, _ =>
      let '(al, a_sign) := to_limbs a in
      let '(bl, b_sign) := to_limbs b in
      if is_zero_limbs bl then Err CL_ERR_DIVZERO
      else if bignum_compare_mag al bl <? 0 then Ok (make_fixnum 0)
      else
        let '(quot, _) := bignum_divmod al bl in
        Ok (bignum_from_limbs quot (xorb a_sign b_sign))
  end.

(** The sign test of cl_arith_mod: [sign != 0] of a bignum. *)
Definition int_negative (a : integer) : bool :=
  match a with Fix v => v <? 0 | Big sign _ => sign end.

Definition cl_arith_mod (a b : integer) : result integer :=
  match a, b with
  | Fix va, Fix vb =>
      if vb =? 0 then Err CL_ERR_DIVZERO
      else
        let r := Z.rem va vb in
        let r := if negb (r =? 0) && negb (eqb (r <? 0) (vb <? 0)) then r + vb else r in
        Ok (make_fixnum r)
  | _, _ =>
      let '(al, a_sign) := to_limbs a in
      let '(bl, _) := to_limbs b in
      if is_zero_limbs bl then Err CL_ERR_DIVZERO
      else
        let rem_obj :=
          if bignum_compare_mag al bl <? 0 then a
          else let '(_, rem) := bignum_divmod al bl in
               bignum_from_limbs (strip rem) a_sign in
        let rem_is_zero := match rem_obj with Fix v => v =? 0 | _ => false end in
        if negb rem_is_zero && negb (eqb (int_negative rem_obj) (int_negative b))
        then Ok (cl_arith_add rem_obj b)
        else Ok rem_obj
  end.

(** ** Sign, comparison, predicates *)

(** [uint16_t len = bn->length]: the copy keeps [len] limbs. *)
Definition copy_len16 (limbs : list Z) : list Z :=
  firstn (Z.to_nat (u16 (Z.of_nat (length limbs)))) limbs.

Definition cl_arith_negate (a : integer) : integer :=
  match a with
  | Fix val =>
      if val =? CL_FIXNUM_MIN then bignum_from_uint32 1073741824 false
      else make_fixnum (- val)
  | Big sign limbs =>
      cl_bignum_normalize (Big (if sign then false else true) (copy_len16 limbs))
  end.

Definition cl_arith_abs (a : integer) : integer :=
  match a with
  | Fix val =>
      if val =? CL_FIXNUM_MIN then bignum_from_uint32 1073741824 false
      else make_fixnum (if val <? 0 then - val else val)
  | Big sign limbs => if negb sign then a else Big false (copy_len16 limbs)
  end.

Definition cl_arith_compare (a b : integer) : Z :=
  match a, b with
  | Fix va, Fix vb => if va <? vb then -1 else if va >? vb then 1 else 0
  | _, _ =>
      let '(al, a_sign) := to_limbs a in
      let '(bl, b_sign) := to_limbs b in
      if negb (eqb a_sign b_sign)
      then if is_zero_limbs al && is_zero_limbs bl then 0
           else if a_sign then -1 else 1
      else
        let cmp := bignum_compare_mag al bl in
        if a_sign then - cmp else cmp
  end.

Definition cl_arith_zerop (a : integer) : bool :=
  match a with Fix v => v =? 0 | Big _ _ => false end.

Definition cl_arith_plusp (a : integer) : bool :=
  match a with Fix v => v >? 0 | Big sign _ => negb sign end.

Definition cl_arith_minusp (a : integer) : bool :=
  match a with Fix v => v <? 0 | Big sign _ => sign end.

(** ** What an object denotes *)

(** Sign and magnitude. *)
Definition sv (s : bool) (m : Z) : Z := if s then - m else m.

Definition int_val (a : integer) : Z :=
  match a with Fix v => v | Big s l => sv s (val l) end.

(** A magnitude that CL_MAKE_FIXNUM could hold under this sign. *)
Definition fixnum_mag (s : bool) (m : Z) : Prop :=
  if s then m <= 1073741824 else m <= CL_FIXNUM_MAX.

Definition fixnum_range (v : Z) : Prop := CL_FIXNUM_MIN <= v <= CL_FIXNUM_MAX.

(** Every integer the runtime builds satisfies this. *)
Definition wf_int (a : integer) : Prop :=
  match a with
  | Fix v => fixnum_range v
  | Big s l => wf l /\ canonical l /\ ~ fixnum_mag s (val l)
  end.

(** The refinement relation: object [a] represents the number [z]. *)
Definition rep (a : integer) (z : Z) : Prop := wf_int a /\ int_val a = z.

Create HintDb ints.

(** ** Tagging *)

Lemma fixnum_tag_roundtrip n : CL_FIXNUM_VAL (CL_MAKE_FIXNUM n) = (n + 2 ^ 30) mod 2 ^ 31 - 2 ^ 30.
Proof.
  unfold CL_FIXNUM_VAL, CL_MAKE_FIXNUM. rewrite shr_div by lia. change (2 ^ 1) with 2.
  assert (E : Z.lor (u32 (Z.shiftl (u32 n) 1)) 1 = 2 * (n mod 2 ^ 31) + 1).
  { assert (E1 : u32 (Z.shiftl (u32 n) 1) = Z.shiftl (n mod 2 ^ 31) 1).
    { rewrite !Z.shiftl_mul_pow2 by lia. unfold u32.
      rewrite Z.mul_mod_idemp_l by lia. change (2 ^ 32) with (2 ^ 31 * 2 ^ 1).
      now rewrite Z.mul_mod_distr_r by lia. }
    rewrite E1, lor_shiftl_add by (change (2 ^ 1) with 2; lia). lia. }
  rewrite E. unfold i32. pose proof (Z.mod_pos_bound n (2 ^ 31) ltac:(lia)).
  pose proof (Z.div_mod n (2 ^ 31) ltac:(lia)). set (m := n mod 2 ^ 31) in *.
  clearbody m. set (q := n / 2 ^ 31) in *. clearbody q.
  destruct (Z.lt_ge_cases m (2 ^ 30)).
  - rewrite (Z.mod_small (2 * m + 1 + 2 ^ 31)) by lia.
    replace ((n + 2 ^ 30) mod 2 ^ 31) with (m + 2 ^ 30)
      by (apply Z.mod_unique with q; lia). divmod. lia.
  - replace ((2 * m + 1 + 2 ^ 31) mod 2 ^ 32) with (2 * m + 1 - 2 ^ 31)
      by (apply Z.mod_unique with 1; lia).
    replace ((n + 2 ^ 30) mod 2 ^ 31) with (m - 2 ^ 30)
      by (apply Z.mod_unique with (q + 1); lia). divmod. lia.
Qed.

Lemma make_fixnum_small n : fixnum_range n -> make_fixnum n = Fix n.
Proof.
  unfold fixnum_range, CL_FIXNUM_MIN, CL_FIXNUM_MAX, make_fixnum; intros H.
  rewrite fixnum_tag_roundtrip, Z.mod_small by lia. f_equal. lia.
Qed.

Lemma make_fixnum_0 : make_fixnum 0 = Fix 0.
Proof. reflexivity. Qed.

Lemma rep_fix v : fixnum_range v -> rep (Fix v) v.
Proof. split; trivial. Qed.

Lemma rep_make_fixnum n : fixnum_range n -> rep (make_fixnum n) n.
Proof. intros H. rewrite make_fixnum_small by trivial. now apply rep_fix. Qed.

Lemma rep_0 : rep (make_fixnum 0) 0.
Proof. apply rep_make_fixnum. unfold fixnum_range, CL_FIXNUM_MIN, CL_FIXNUM_MAX; lia. Qed.

Lemma rep_val a : wf_int a -> rep a (int_val a).
Proof. split; trivial. Qed.
#[export] Hint Resolve rep_fix rep_make_fixnum rep_0 rep_val : ints.

Ltac fixnums := unfold fixnum_range, fixnum_mag, CL_FIXNUM_MIN, CL_FIXNUM_MAX in *.

Lemma sv_neg s m : sv (negb s) m = - sv s m.
Proof. destruct s; cbn; lia. Qed.

(** ** Normalisation *)

Lemma val_cons d t : valB 65536 (d :: t) = d + 65536 * valB 65536 t.
Proof. reflexivity. Qed.

Lemma val_nil : valB 65536 [] = 0.
Proof. reflexivity. Qed.

Lemma rep_normalize s l :
  wf l -> (1 <= length l)%nat -> rep (cl_bignum_normalize (Big s l)) (sv s (val l)).
Proof.
  intros Hw Hl. unfold cl_bignum_normalize.
  pose proof (strip_wf 65536 l ltac:(lia) Hw) as W. pose proof (strip_canonical l Hl) as C.
  rewrite <- (strip_val 65536 l) by lia.
  destruct (strip l) as [|d0 [|d1 [|d2 t]]] eqn:E.
  - destruct C as [C _]. cbn in C. lia.
  - apply wfB_cons in W. destruct W as [W _].
    rewrite val_cons, val_nil, Z.mul_0_r, Z.add_0_r.
    destruct (Z.eqb_spec d0 0); [subst; destruct s; apply rep_0|].
    destruct s; cbn [negb sv]; rewrite (i32_small d0) by lia.
    + destruct (Z.leb_spec d0 1073741824); [|lia]. rewrite i32_small by lia.
      apply rep_make_fixnum; fixnums; lia.
    + fixnums. destruct (Z.leb_spec d0 1073741823); [|lia].
      apply rep_make_fixnum; fixnums; lia.
  - pose proof W as W'. apply wfB_cons in W. destruct W as [W0 W]. apply wfB_cons in W.
    destruct W as [W1 _]. rewrite (lor_add_shiftl_u d0 d1) by lia.
    assert (V : val [d0; d1] = d0 + d1 * 65536)
      by (rewrite !val_cons, val_nil; lia).
    rewrite <- V. set (v := val [d0; d1]) in *.
    destruct (Z.eqb_spec v 0) as [->|]; [destruct s; apply rep_0|].
    destruct s; cbn [negb sv].
    + destruct (Z.leb_spec v 1073741824).
      * rewrite !i32_small by (rewrite ?i32_small; lia).
        apply rep_make_fixnum; fixnums; lia.
      * split; [|reflexivity]. split; [|split]; trivial. fold v. fixnums. lia.
    + destruct (Z.leb_spec v CL_FIXNUM_MAX).
      * fixnums. rewrite i32_small by lia. apply rep_make_fixnum; fixnums; lia.
      * split; [|reflexivity]. split; [|split]; trivial. fold v. fixnums. lia.
  - split; [|reflexivity]. split; [|split]; trivial.
    pose proof (canonical_lower 65536 base16_pos (d0 :: d1 :: d2 :: t) W C) as Hlow.
    cbn [length] in Hlow.
    assert (65536 ^ 2 <= 65536 ^ (Z.of_nat (S (S (S (length t)))) - 1))
      by (apply Z.pow_le_mono_r; lia).
    specialize (Hlow ltac:(lia)). destruct s; fixnums; lia.
Qed.

Lemma wf_pair d0 d1 : 0 <= d0 < 65536 -> 0 <= d1 < 65536 -> wf [d0; d1].
Proof. intros. now repeat constructor. Qed.

(** The two halves of a 32-bit word. *)
Lemma halves_val v :
  0 <= v < 4294967296 ->
  wf [u16 (Z.land v 65535); u16 (Z.shiftr v 16)] /\
  val [u16 (Z.land v 65535); u16 (Z.shiftr v 16)] = v.
Proof.
  intros Hv. words. pose proof (Z.mod_pos_bound v 65536).
  assert (0 <= v / 65536 < 65536)
    by (split; [apply Z.div_pos; lia | apply Z.div_lt_upper_bound; lia]).
  rewrite u16_small by lia. split; [apply wf_pair; lia|].
  rewrite !val_cons, val_nil. pose proof (Z.div_mod v 65536). lia.
Qed.

Lemma rep_from_uint32 v s :
  0 <= v < 4294967296 -> rep (bignum_from_uint32 v s) (sv s v).
Proof.
  intros Hv. unfold bignum_from_uint32.
  destruct (halves_val v Hv) as [W V].
  destruct (Z.eqb_spec v 0) as [->|]; [destruct s; apply rep_0|].
  destruct s; cbn [negb andb].
  - destruct (Z.leb_spec v 1073741824).
    + rewrite !i32_small by (rewrite ?i32_small; lia).
      apply rep_make_fixnum; fixnums; cbn; lia.
    + rewrite <- V at 3. apply rep_normalize; trivial; cbn; lia.
  - destruct (Z.leb_spec v CL_FIXNUM_MAX).
    + fixnums. rewrite i32_small by lia. apply rep_make_fixnum; fixnums; cbn; lia.
    + rewrite <- V at 3. apply rep_normalize; trivial; cbn; lia.
Qed.

Lemma rep_from_int32 v :
  - 2147483648 <= v < 2147483648 -> rep (cl_bignum_from_int32 v) v.
Proof.
  intros Hv. unfold cl_bignum_from_int32. destruct (Z.ltb_spec v 0).
  - destruct (Z.eq_dec v (-2147483648)) as [->|].
    + apply rep_from_uint32 with (v := 2147483648) (s := true). lia.
    + rewrite i32_small, u32_small by lia.
      pose proof (rep_from_uint32 (- v) true ltac:(lia)) as R. cbn [sv] in R.
      now rewrite Z.opp_involutive in R.
  - rewrite u32_small by lia. apply (rep_from_uint32 v false). lia.
Qed.

Lemma rep_from_limbs l s :
  wf l -> (1 <= length l)%nat -> rep (bignum_from_limbs l s) (sv s (val l)).
Proof.
  intros Hw Hl. unfold bignum_from_limbs.
  pose proof (strip_wf 65536 l ltac:(lia) Hw) as W. pose proof (strip_canonical l Hl) as C.
  rewrite <- (strip_val 65536 l) by lia. set (m := strip l) in *. clearbody m.
  pose proof (rep_normalize s m W) as R.
  assert (Hm : (1 <= length m)%nat) by (destruct C; trivial). specialize (R Hm).
  destruct m as [|d m]; [exact R|]. destruct d; try exact R.
  destruct m; [|exact R]. destruct s; apply rep_0.
Qed.

Lemma wf_int_zero_sign s l : wf_int (Big s l) -> s = true -> 0 < val l.
Proof. intros (_ & _ & H) ->. fixnums. lia. Qed.

(** Reading an object as sign and magnitude. *)
Lemma to_limbs_spec a x :
  rep a x ->
  let '(l, s) := to_limbs a in
  wf l /\ canonical l /\ x = sv s (val l) /\ (1 <= length l)%nat /\
  (s = true -> 0 < val l).
Proof.
  intros [Hw <-]. destruct a as [v|s l]; cbn [to_limbs int_val].
  - cbn in Hw. fixnums.
    set (u := if v <? 0 then u32 (i32 (- v)) else u32 v).
    assert (Hu : u = Z.abs v).
    { subst u. destruct (Z.ltb_spec v 0); [rewrite i32_small by lia|];
        rewrite u32_small by lia; lia. }
    rewrite Hu. destruct (halves_val (Z.abs v) ltac:(lia)) as [W V].
    set (t0 := u16 (Z.land (Z.abs v) 65535)) in *.
    set (t1 := u16 (Z.shiftr (Z.abs v) 16)) in *.
    assert (S : v = sv (v <? 0) (Z.abs v)) by (destruct (Z.ltb_spec v 0); cbn; lia).
    assert (P : (v <? 0) = true -> 0 < Z.abs v) by (intros ?%Z.ltb_lt; lia).
    destruct (Z.eqb_spec t1 0) as [E|E]; cbn [negb].
    + rewrite E in V. rewrite !val_cons, val_nil in V.
      assert (V1 : val [t0] = Z.abs v) by (rewrite !val_cons, val_nil; lia).
      apply wfB_cons in W. destruct W as [W0 _]. rewrite V1.
      split; [repeat constructor; lia|]. split; [split; [cbn; lia | now left]|].
      split; [exact S|]. split; [cbn; lia|exact P].
    + rewrite V. split; [trivial|]. split; [split; [cbn; lia | right; cbn; lia]|].
      split; [exact S|]. split; [cbn; lia|exact P].
  - pose proof (wf_int_zero_sign s l Hw) as P. destruct Hw as (W & C & _).
    split; [trivial|]. split; [trivial|]. split; [trivial|].
    split; [apply C | exact P].
Qed.

(** ** One representation per number *)

Lemma canonical_inj l m :
  wf l -> wf m -> canonical l -> canonical m -> val l = val m -> l = m.
Proof.
  intros Wl Wm Cl Cm E. apply (valB_inj 65536); trivial; try lia.
  destruct (Nat.lt_total (length l) (length m)) as [H|[H|H]]; trivial.
  - pose proof (longer_is_larger m l Wm Wl Cm H (proj1 Cl)). lia.
  - pose proof (longer_is_larger l m Wl Wm Cl H (proj1 Cm)). lia.
Qed.

Lemma rep_unique a b x : rep a x -> rep b x -> a = b.
Proof.
  intros [Ha <-] [Hb E].
  destruct a as [v|s l], b as [w|t m]; cbn [int_val] in E.
  - now subst.
  - destruct Hb as (W & C & N). destruct Ha as [Ha Ha']. fixnums.
    pose proof (valB_nonneg 65536 ltac:(lia) m W). destruct t; cbn in *; lia.
  - destruct Ha as (W & C & N). destruct Hb as [Hb Hb']. fixnums.
    pose proof (valB_nonneg 65536 ltac:(lia) l W). destruct s; cbn in *; lia.
  - destruct Ha as (Wl & Cl & Nl), Hb as (Wm & Cm & Nm).
    pose proof (valB_nonneg 65536 ltac:(lia) l Wl).
    pose proof (valB_nonneg 65536 ltac:(lia) m Wm).
    assert (s = t /\ val l = val m) as [-> V]
      by (destruct s, t; cbn in E; fixnums; split; trivial; lia).
    f_equal. now apply canonical_inj.
Qed.

(** ** Addition and subtraction *)

Lemma wf_val_nonneg l : wf l -> 0 <= val l.
Proof. apply valB_nonneg; lia. Qed.
#[export] Hint Resolve wf_val_nonneg : limbs.

(** The magnitudes' order decides their lengths' order. *)
Lemma val_le_length l m :
  wf l -> wf m -> canonical l -> canonical m -> val l <= val m -> (length l <= length m)%nat.
Proof.
  intros Wl Wm Cl Cm H. destruct (Nat.le_gt_cases (length l) (length m)); trivial.
  pose proof (longer_is_larger l m Wl Wm Cl H0 (proj1 Cm)). lia.
Qed.

(** Subtracting the smaller magnitude, as bignum_addsub does. *)
Lemma rep_sub_limbs l m s :
  wf l -> wf m -> canonical l -> canonical m -> val m <= val l ->
  rep (bignum_from_limbs (bignum_sub_mag l m) s) (sv s (val l - val m)).
Proof.
  intros Wl Wm Cl Cm H.
  destruct (bignum_sub_mag_spec l m) as (E & W & C); trivial.
  - apply Cl.
  - now apply val_le_length.
  - rewrite <- E. apply rep_from_limbs; trivial. apply C.
Qed.

Lemma rep_addsub a b x y subtract :
  rep a x -> rep b y ->
  rep (bignum_addsub a b subtract) (if subtract then x - y else x + y).
Proof.
  intros Ha%to_limbs_spec Hb%to_limbs_spec. unfold bignum_addsub.
  destruct (to_limbs a) as [l s], (to_limbs b) as [m t0].
  destruct Ha as (Wl & Cl & -> & Ll & _), Hb as (Wm & Cm & -> & Lm & _).
  set (t := if subtract then if t0 then false else true else t0).
  assert (Ht : (if subtract then sv s (val l) - sv t0 (val m)
                else sv s (val l) + sv t0 (val m)) = sv s (val l) + sv t (val m))
    by (subst t; destruct subtract, t0; cbn; lia).
  rewrite Ht. clearbody t. rewrite bignum_compare_mag_spec by trivial.
  destruct (Bool.eqb_spec s t) as [<-|N].
  - destruct (bignum_add_mag_spec l m) as (E & W & L); trivial.
    replace (sv s (val l) + sv s (val m)) with (sv s (val (bignum_add_mag l m)))
      by (rewrite E; destruct s; cbn; lia).
    apply rep_from_limbs; trivial. lia.
  - destruct (Z.compare_spec (val l) (val m)) as [E|E|E]; cbn [Z.eqb Z.gtb Z.compare].
    + rewrite E. replace (sv s (val m) + sv t (val m)) with 0; [apply rep_0|].
      destruct s, t; cbn; congruence || lia.
    + replace (sv s (val l) + sv t (val m)) with (sv t (val m - val l))
        by (destruct s, t; cbn; congruence || lia).
      apply rep_sub_limbs; trivial; lia.
    + replace (sv s (val l) + sv t (val m)) with (sv s (val l - val m))
        by (destruct s, t; cbn; congruence || lia).
      apply rep_sub_limbs; trivial; lia.
Qed.

Lemma fits_fixnum_true v : fits_fixnum v = true -> fixnum_range v.
Proof. unfold fits_fixnum, fixnum_range. intros [H1 H2]%andb_prop. lia. Qed.

Lemma rep_add a b x y : rep a x -> rep b y -> rep (cl_arith_add a b) (x + y).
Proof.
  intros Ha Hb. pose proof (rep_addsub a b x y false Ha Hb) as R.
  destruct a as [v|s l], b as [w|t m]; try exact R.
  destruct Ha as [Ha <-], Hb as [Hb <-]. cbn in Ha, Hb. cbn [int_val cl_arith_add] in *.
  rewrite i32_small by (fixnums; lia). destruct (fits_fixnum (v + w)) eqn:E; [|exact R].
  apply rep_make_fixnum, fits_fixnum_true, E.
Qed.

Lemma rep_sub a b x y : rep a x -> rep b y -> rep (cl_arith_sub a b) (x - y).
Proof.
  intros Ha Hb. pose proof (rep_addsub a b x y true Ha Hb) as R.
  destruct a as [v|s l], b as [w|t m]; try exact R.
  destruct Ha as [Ha <-], Hb as [Hb <-]. cbn in Ha, Hb. cbn [int_val cl_arith_sub] in *.
  rewrite i32_small by (fixnums; lia). destruct (fits_fixnum (v - w)) eqn:E; [|exact R].
  apply rep_make_fixnum, fits_fixnum_true, E.
Qed.
#[export] Hint Resolve rep_add rep_sub : ints.

(** ** Multiplication *)

Lemma abs_u32 v : fixnum_range v -> (if v <? 0 then u32 (i32 (- v)) else u32 v) = Z.abs v.
Proof.
  intros H. fixnums. destruct (Z.ltb_spec v 0); [rewrite i32_small by lia|];
    rewrite u32_small by lia; lia.
Qed.

Lemma sv_mul s t m n : sv s m * sv t n = sv (xorb s t) (m * n).
Proof. destruct s, t; cbn; lia. Qed.

Lemma sv_abs v : v = sv (v <? 0) (Z.abs v).
Proof. destruct (Z.ltb_spec v 0); cbn; lia. Qed.

(** The tests on the cross term and on the sum of the high halves. *)
Lemma partials_tail c p :
  0 <= c < 4294967296 -> 0 <= p < 4294967296 ->
  (if u32 c >? 65535 then None
   else if u32 (u32 p / 65536 + u32 c) >? 65535 then None
   else Some (u32 (u32 p + u32 (u32 c * 65536))))
  = if p + c * 65536 <? 4294967296 then Some (p + c * 65536) else None.
Proof.
  intros Hc Hp. rewrite (u32_small c), (u32_small p) by lia.
  destruct (Z.gtb_spec c 65535); [destruct (Z.ltb_spec (p + c * 65536) 4294967296);
    trivial; lia|].
  rewrite u32_small by (divmod; lia).
  destruct (Z.gtb_spec (p / 65536 + c) 65535); destruct (Z.ltb_spec (p + c * 65536) 4294967296);
    try (divmod; lia); trivial.
  rewrite (u32_small (c * 65536)), u32_small by lia. reflexivity.
Qed.

(** The overflow tests are exact. *)
Lemma mul_partials_spec ua ub :
  0 <= ua <= 1073741824 -> 0 <= ub <= 1073741824 ->
  mul_partials ua ub = if ua * ub <? 4294967296 then Some (ua * ub) else None.
Proof.
  intros Ha Hb. unfold mul_partials. words.
  assert (Da := Z.div_mod ua 65536 ltac:(lia)).
  assert (Db := Z.div_mod ub 65536 ltac:(lia)).
  pose proof (Z.mod_pos_bound ua 65536). pose proof (Z.mod_pos_bound ub 65536).
  assert (0 <= ua / 65536 < 65536) by (divmod; lia).
  assert (0 <= ub / 65536 < 65536) by (divmod; lia).
  set (ah := ua / 65536) in *. set (al := ua mod 65536) in *.
  set (bh := ub / 65536) in *. set (bl := ub mod 65536) in *. clearbody ah al bh bl.
  destruct (Z.eqb_spec ah 0) as [Ea|Ea], (Z.eqb_spec bh 0) as [Eb|Eb]; cbn [negb andb].
  - rewrite partials_tail by nia. replace (ua * ub) with (al * bl + al * bh * 65536) by nia.
    reflexivity.
  - rewrite partials_tail by nia. replace (ua * ub) with (al * bl + al * bh * 65536) by nia.
    reflexivity.
  - rewrite partials_tail by nia. replace (ua * ub) with (al * bl + ah * bl * 65536) by nia.
    reflexivity.
  - destruct (Z.ltb_spec (ua * ub) 4294967296); [nia|reflexivity].
Qed.

Lemma rep_mul_fixnums va vb r :
  fixnum_range va -> fixnum_range vb -> mul_fixnums va vb = Some r -> rep r (va * vb).
Proof.
  intros Ha Hb. unfold mul_fixnums. rewrite (abs_u32 va Ha), (abs_u32 vb Hb).
  destruct (Z.eqb_spec va 0) as [->|]; [intros [= <-]; apply rep_0|].
  destruct (Z.eqb_spec vb 0) as [->|];
    [intros [= <-]; rewrite Z.mul_0_r; apply rep_0|]. cbn [orb].
  destruct (Z.eqb_spec va 1) as [->|];
    [intros [= <-]; rewrite Z.mul_1_l; now apply rep_fix|].
  destruct (Z.eqb_spec vb 1) as [->|];
    [intros [= <-]; rewrite Z.mul_1_r; now apply rep_fix|].
  assert (E : va * vb = sv (xorb (va <? 0) (vb <? 0)) (Z.abs va * Z.abs vb))
    by (rewrite <- sv_mul, <- !sv_abs; reflexivity).
  rewrite E, mul_partials_spec by (fixnums; lia). clear E.
  assert (0 <= Z.abs va * Z.abs vb) by nia. set (p := Z.abs va * Z.abs vb) in *.
  replace (negb (eqb (va <? 0) (vb <? 0))) with (xorb (va <? 0) (vb <? 0))
    by (destruct (va <? 0), (vb <? 0); reflexivity).
  set (neg := xorb (va <? 0) (vb <? 0)). clearbody p neg.
  destruct (Z.ltb_spec p 4294967296); [|discriminate].
  pose proof (rep_from_uint32 p neg ltac:(lia)) as R.
  destruct neg; cbn [negb andb sv] in *.
  - destruct (Z.leb_spec p 1073741824); intros [= <-]; [|exact R].
    rewrite !i32_small by (rewrite ?i32_small; lia). apply rep_make_fixnum; fixnums; lia.
  - destruct (Z.leb_spec p CL_FIXNUM_MAX); intros [= <-]; [|exact R].
    fixnums. rewrite i32_small by lia. apply rep_make_fixnum; fixnums; lia.
Qed.

(** The product of a canonical magnitude and a small multiplier fits the
    computed length. *)
Lemma mul_small_length_spec a m :
  wf a -> canonical a -> 0 < val a -> 0 < m < 4294967296 ->
  (length a <= mul_small_length a m)%nat /\
  val a * m < 65536 ^ Z.of_nat (mul_small_length a m).
Proof.
  intros Wa Ca Va Hm. unfold mul_small_length.
  destruct (split_last a (length a - 1)) as (t & d & E & Lt); [destruct Ca; lia|].
  assert (Hn : nth (length a - 1) a 0 = d) by (rewrite <- Lt, E; apply nth_app_last).
  rewrite Hn. assert (Wt := Wa). rewrite E in Wt. apply wfB_app in Wt.
  destruct Wt as [Wt Wd]. apply wfB_cons in Wd. destruct Wd as [Wd _].
  assert (Hd : d <> 0).
  { destruct Ca as [_ [C|C]]; [|now rewrite E, last_last in C].
    rewrite E in C, Va. rewrite length_app in C. cbn in C. destruct t; [|cbn in C; lia].
    cbn [app] in Va. rewrite val_cons, val_nil in Va. lia. }
  destruct (bit_length32_spec d) as (Bd & Ud & _); [lia|].
  destruct (bit_length32_spec m) as (Bm & Um & _); [lia|].
  set (p := bit_length32 d) in *. set (q := bit_length32 m) in *. clearbody p q.
  assert (p <> 0) by (intros ->; cbn in Ud; lia).
  assert (q <> 0) by (intros ->; cbn in Um; lia).
  assert (El : Z.of_nat (length a) - 1 = Z.of_nat (length t))
    by (rewrite E, length_app; cbn [length]; lia).
  rewrite El. set (bits := Z.of_nat (length t) * 16 + p + q).
  replace (Z.of_nat (length t) * 16 + p + q + 15) with (bits + 15) by (subst bits; lia).
  set (r := (bits + 15) / 16).
  assert (Hr : bits <= 16 * r /\ 16 * r < bits + 16) by (subst r; divmod; lia).
  split; [lia|]. rewrite Z2Nat.id by lia.
  change 65536 with (2 ^ 16) at 2. rewrite <- Z.pow_mul_r by lia.
  apply Z.lt_le_trans with (2 ^ bits); [|apply Z.pow_le_mono_r; lia].
  subst bits. rewrite Z.pow_add_r by lia.
  assert (Hva : val a < 2 ^ (Z.of_nat (length t) * 16 + p)).
  { rewrite E, valB_app by lia. rewrite val_cons, val_nil, Z.pow_add_r by lia.
    pose proof (valB_bound 65536 base16_pos t Wt) as Bt.
    rewrite (Z.mul_comm _ 16), Z.pow_mul_r by lia. change (2 ^ 16) with 65536.
    set (P := 65536 ^ Z.of_nat (length t)) in *. nia. }
  nia.
Qed.

Section MulSpec.
Variable mul_small : list Z -> Z -> nat -> list Z.
Variable mul_limbs : list Z -> list Z -> list Z.
Hypothesis mul_small_ok : forall a m n,
  wf a -> 0 <= m <= 2 ^ 30 -> (length a <= n)%nat -> small_product (mul_small a m n) a m 0 n.
Hypothesis mul_limbs_ok : forall a b,
  wf a -> wf b -> (1 <= length a)%nat -> (1 <= length b)%nat ->
  val (mul_limbs a b) = val a * val b /\ wf (mul_limbs a b) /\
  (1 <= length (mul_limbs a b))%nat.

Lemma rep_mul_big_fix s l v :
  wf_int (Big s l) -> fixnum_range v ->
  rep (mul_big_fix mul_small (Big s l) s l v) (sv s (val l) * v).
Proof.
  intros Hw Hv. pose proof Hw as (Wl & Cl & Nl). unfold mul_big_fix.
  rewrite (abs_u32 v Hv). destruct (Z.eqb_spec (Z.abs v) 0) as [E|E].
  { replace v with 0 by lia. rewrite Z.mul_0_r. apply rep_0. }
  destruct (Z.eqb_spec v 1) as [->|N]; [rewrite Z.mul_1_r; now apply rep_val|].
  assert (Pl : 0 < val l) by (destruct s; fixnums; lia).
  destruct (mul_small_length_spec l (Z.abs v)) as [L B]; trivial; [fixnums; lia|].
  destruct (mul_small_ok l (Z.abs v) (mul_small_length l (Z.abs v))) as (V & W & Ln);
    trivial; [fixnums; lia|].
  rewrite Z.add_0_r, Z.mod_small in V by nia.
  replace (sv s (val l) * v) with (sv (xorb s (v <? 0)) (val l * Z.abs v))
    by (rewrite <- sv_mul, <- sv_abs; reflexivity).
  rewrite <- V.
  apply rep_normalize; trivial. destruct Cl; lia.
Qed.

Lemma zero_limbs l : wf l -> is_zero_limbs l = true -> val l = 0.
Proof.
  intros W [L E]%andb_prop. destruct l as [|d [|? ?]]; try discriminate.
  cbn in E. rewrite val_cons, val_nil. lia.
Qed.

Lemma rep_mul_general a b x y :
  rep a x -> rep b y -> rep (mul_general mul_limbs a b) (x * y).
Proof.
  intros Ha%to_limbs_spec Hb%to_limbs_spec. unfold mul_general.
  destruct (to_limbs a) as [l s], (to_limbs b) as [m t].
  destruct Ha as (Wl & Cl & -> & Ll & _), Hb as (Wm & Cm & -> & Lm & _).
  rewrite sv_mul. fold (is_zero_limbs l) (is_zero_limbs m).
  destruct (is_zero_limbs l) eqn:El.
  { rewrite (zero_limbs l Wl El). destruct (xorb s t); apply rep_0. }
  destruct (is_zero_limbs m) eqn:Em.
  { rewrite (zero_limbs m Wm Em), Z.mul_0_r. destruct (xorb s t); apply rep_0. }
  destruct (mul_limbs_ok l m) as (V & W & L); trivial. rewrite <- V.
  now apply rep_from_limbs.
Qed.

Lemma rep_arith_mul a b x y :
  rep a x -> rep b y -> rep (arith_mul mul_small mul_limbs a b) (x * y).
Proof.
  intros Ha Hb. pose proof (rep_mul_general a b x y Ha Hb) as R.
  destruct a as [v|s l], b as [w|t m]; cbn [arith_mul];
    destruct Ha as [Ha <-], Hb as [Hb <-]; cbn [int_val] in *.
  - destruct (mul_fixnums v w) eqn:E; [|exact R]. now apply rep_mul_fixnums.
  - rewrite Z.mul_comm. now apply rep_mul_big_fix.
  - now apply rep_mul_big_fix.
  - exact R.
Qed.
End MulSpec.

Lemma mul_limbs_host_ok a b :
  wf a -> wf b -> (1 <= length a)%nat -> (1 <= length b)%nat ->
  val (mul_limbs_host a b) = val a * val b /\ wf (mul_limbs_host a b) /\
  (1 <= length (mul_limbs_host a b))%nat.
Proof.
  intros Wa Wb La Lb. unfold mul_limbs_host.
  destruct (pack_16_to_32_spec a Wa) as (Va & Pa & Na).
  destruct (pack_16_to_32_spec b Wb) as (Vb & Pb & Nb).
  destruct (bignum_mul_mag32_spec (pack_16_to_32 a) (pack_16_to_32 b)) as (V & W & C & L);
    trivial; [rewrite Na; destruct a; cbn in La |- *; [inversion La | apply le_n_S, Nat.le_0_l]|].
  destruct (unpack_32_to_16_spec _ W (proj1 C)) as (Vu & Wu & Cu).
  rewrite Vu, V, Va, Vb. split; [|split]; trivial. apply Cu.
Qed.

Lemma rep_mul a b x y : rep a x -> rep b y -> rep (cl_arith_mul a b) (x * y).
Proof.
  apply rep_arith_mul; [apply bignum_mul_small_spec | apply mul_limbs_host_ok].
Qed.

Lemma rep_mul_68k a b x y : rep a x -> rep b y -> rep (cl_arith_mul_68k a b) (x * y).
Proof.
  apply rep_arith_mul; [apply bignum_mul_small_68k_spec|].
  intros l m Wl Wm Ll Lm. destruct (bignum_mul_mag_spec l m) as (V & W & C & _); trivial.
  split; [|split]; trivial. apply C.
Qed.
#[export] Hint Resolve rep_mul rep_mul_68k : ints.

(** ** Division *)

Lemma sv_quot s t m n :
  0 <= m -> 0 < n -> Z.quot (sv s m) (sv t n) = sv (xorb s t) (m / n).
Proof.
  intros Hm Hn. pose proof (Z.quot_div_nonneg m n Hm Hn) as Q.
  destruct s, t; cbn [sv xorb];
    rewrite ?Z.quot_opp_l, ?Z.quot_opp_r, ?Z.quot_opp_l by lia; lia.
Qed.

Lemma sv_rem s t m n :
  0 <= m -> 0 < n -> Z.rem (sv s m) (sv t n) = sv s (m mod n).
Proof.
  intros Hm Hn. pose proof (Z.rem_mod_nonneg m n Hm Hn) as Q.
  destruct s, t; cbn [sv];
    rewrite ?Z.rem_opp_l, ?Z.rem_opp_r, ?Z.rem_opp_l by lia; lia.
Qed.

Lemma zero_limbs_iff l : wf l -> canonical l -> is_zero_limbs l = (val l =? 0).
Proof.
  intros W C. destruct (is_zero_limbs l) eqn:E.
  { now rewrite (zero_limbs l W E). }
  symmetry. apply Z.eqb_neq. intros V.
  assert (l = [0]); [|subst; discriminate].
  apply canonical_inj; trivial; [repeat constructor; lia|]. split; [cbn; lia|now left].
Qed.

(** The magnitudes' quotient and remainder as objects. *)
Lemma rep_divmod_limbs l m s :
  wf l -> wf m -> canonical l -> canonical m -> 0 < val m -> val m <= val l ->
  let '(q, r) := bignum_divmod l m in
  rep (bignum_from_limbs q s) (sv s (val l / val m)) /\
  rep (bignum_from_limbs (strip r) s) (sv s (val l mod val m)).
Proof.
  intros Wl Wm Cl Cm Hm Hle.
  pose proof (bignum_divmod_spec l m Wl Wm Cm Hm (val_le_length m l Wm Wl Cm Cl Hle)) as D.
  destruct (bignum_divmod l m) as [q r]. destruct D as (<- & <- & Wq & Wr & Cq & Lr).
  assert (Lr1 : (1 <= length r)%nat) by (rewrite Lr; apply Cm).
  split; [apply rep_from_limbs; trivial; apply Cq|].
  rewrite <- (strip_val 65536 r) by lia.
  apply rep_from_limbs; [apply strip_wf; trivial; lia|].
  now apply strip_canonical.
Qed.

Lemma cmp_lt_0 x y :
  (match x ?= y with Eq => 0 | Lt => -1 | Gt => 1 end <? 0) = (x <? y).
Proof. unfold Z.ltb. now destruct (x ?= y). Qed.

(** Whether a division takes the fixnum fast path's overflow. *)
Lemma cl_arith_truncate_spec a b x y :
  rep a x -> rep b y -> y <> 0 -> ~ (x = CL_FIXNUM_MIN /\ y = -1) ->
  exists q, cl_arith_truncate a b = Ok q /\ rep q (Z.quot x y).
Proof.
  intros Ha Hb Hy Hov. unfold cl_arith_truncate.
  assert (G : exists q,
    (let '(al, a_sign) := to_limbs a in
     let '(bl, b_sign) := to_limbs b in
     if is_zero_limbs bl then Err CL_ERR_DIVZERO
     else if bignum_compare_mag al bl <? 0 then Ok (make_fixnum 0)
     else let '(quot, _) := bignum_divmod al bl in
          Ok (bignum_from_limbs quot (xorb a_sign b_sign))) = Ok q /\ rep q (Z.quot x y)).
  { apply to_limbs_spec in Ha, Hb. destruct (to_limbs a) as [l s], (to_limbs b) as [m t].
    destruct Ha as (Wl & Cl & -> & Ll & _), Hb as (Wm & Cm & -> & Lm & _).
    pose proof (wf_val_nonneg l Wl). pose proof (wf_val_nonneg m Wm).
    rewrite zero_limbs_iff by trivial.
    destruct (Z.eqb_spec (val m) 0) as [E|E]; [destruct t; cbn in Hy; lia|].
    rewrite sv_quot, bignum_compare_mag_spec, cmp_lt_0 by trivial || lia.
    destruct (Z.ltb_spec (val l) (val m)).
    { exists (make_fixnum 0). split; [reflexivity|]. rewrite Z.div_small by lia.
      destruct (xorb s t); apply rep_0. }
    pose proof (rep_divmod_limbs l m (xorb s t) Wl Wm Cl Cm ltac:(lia) ltac:(lia)) as D.
    destruct (bignum_divmod l m) as [q r]. eexists. split; [reflexivity | apply D]. }
  destruct a as [v|s l], b as [w|t m]; try exact G. clear G.
  destruct Ha as [Ha <-], Hb as [Hb <-]. cbn in Ha, Hb. cbn [int_val] in *.
  destruct (Z.eqb_spec w 0); [lia|]. eexists. split; [reflexivity|].
  assert (R : fixnum_range (Z.quot v w)).
  { fixnums. pose proof (Z.quot_abs v w Hy) as Q. pose proof (Z.quot_rem v w Hy).
    pose proof (Z.quot_le_upper_bound (Z.abs v) (Z.abs w) (Z.abs v)) as U.
    rewrite Q in U. assert (Z.abs (Z.quot v w) <= Z.abs v) by (apply U; nia).
    destruct (Z.eq_dec (Z.quot v w) 1073741824) as [E|]; [|lia].
    exfalso. apply Hov. pose proof (Z.rem_bound_abs v w Hy).
    assert (v = -1073741824) by nia. split; [trivial|]. nia. }
  rewrite i32_small by (fixnums; lia). now apply rep_make_fixnum.
Qed.

Lemma cl_arith_truncate_zero a b x :
  rep a x -> rep b 0 -> cl_arith_truncate a b = Err CL_ERR_DIVZERO.
Proof.
  intros Ha Hb.
  assert (E : b = Fix 0) by (apply rep_unique with 0; trivial; apply rep_0).
  subst b. destruct a as [v|s l]; reflexivity.
Qed.

Lemma mod_of_rem x y :
  y <> 0 -> x mod y = if negb (Z.rem x y =? 0) && negb (eqb (Z.rem x y <? 0) (y <? 0))
                      then Z.rem x y + y else Z.rem x y.
Proof.
  intros Hy. pose proof (Z.quot_rem x y Hy) as Q. pose proof (Z.rem_bound_abs x y Hy) as A.
  set (r := Z.rem x y) in *. set (q := Z.quot x y) in *. clearbody q r.
  destruct (Z.eqb_spec r 0) as [->|]; cbn [negb andb].
  { symmetry. apply Z.mod_unique with q; lia. }
  destruct (Z.ltb_spec r 0), (Z.ltb_spec y 0); cbn [eqb negb];
    symmetry; (apply Z.mod_unique with q; lia) || (apply Z.mod_unique with (q - 1); lia).
Qed.

Lemma int_negative_spec a x : rep a x -> int_negative a = (x <? 0).
Proof.
  intros [Hw <-]. destruct a as [v|s l]; [reflexivity|]. destruct Hw as (W & C & N).
  cbn [int_negative int_val]. pose proof (wf_val_nonneg l W). symmetry.
  destruct s; cbn [sv]; [apply Z.ltb_lt; fixnums; lia | apply Z.ltb_ge; lia].
Qed.

Lemma fix_zero_spec a x :
  rep a x -> (match a with Fix v => v =? 0 | _ => false end) = (x =? 0).
Proof.
  intros [Hw <-]. destruct a as [v|s l]; [reflexivity|]. destruct Hw as (W & C & N).
  cbn [int_val]. pose proof (wf_val_nonneg l W). symmetry. apply Z.eqb_neq.
  destruct s; cbn [sv]; fixnums; lia.
Qed.

Lemma cl_arith_mod_zero a b x :
  rep a x -> rep b 0 -> cl_arith_mod a b = Err CL_ERR_DIVZERO.
Proof.
  intros Ha Hb. assert (b = Fix 0) as -> by (apply (rep_unique b _ 0 Hb), rep_fix; fixnums; lia).
  unfold cl_arith_mod. destruct a as [v|s l]; [reflexivity|].
  cbn [to_limbs]. reflexivity.
Qed.

Lemma cl_arith_mod_spec a b x y :
  rep a x -> rep b y -> y <> 0 ->
  exists r, cl_arith_mod a b = Ok r /\ rep r (x mod y).
Proof.
  intros Ha Hb Hy. unfold cl_arith_mod.
  assert (G : forall rem_obj, rep rem_obj (Z.rem x y) -> exists r,
    (let rem_is_zero := match rem_obj with Fix v => v =? 0 | _ => false end in
     if negb rem_is_zero && negb (eqb (int_negative rem_obj) (int_negative b))
     then Ok (cl_arith_add rem_obj b) else Ok rem_obj) = Ok r /\ rep r (x mod y)).
  { intros o Ho. cbv zeta.
    rewrite (fix_zero_spec _ _ Ho), (int_negative_spec _ _ Ho), (int_negative_spec _ _ Hb).
    rewrite mod_of_rem by trivial.
    destruct (negb _ && _); eexists; split; trivial. now apply rep_add. }
  assert (G2 : exists r,
    (let '(al, a_sign) := to_limbs a in
     let '(bl, _) := to_limbs b in
     if is_zero_limbs bl then Err CL_ERR_DIVZERO
     else
       let rem_obj :=
         if bignum_compare_mag al bl <? 0 then a
         else let '(_, rem) := bignum_divmod al bl in
              bignum_from_limbs (strip rem) a_sign in
       let rem_is_zero := match rem_obj with Fix v => v =? 0 | _ => false end in
       if negb rem_is_zero && negb (eqb (int_negative rem_obj) (int_negative b))
       then Ok (cl_arith_add rem_obj b)
       else Ok rem_obj) = Ok r /\ rep r (x mod y)).
  { pose proof Ha as La. pose proof Hb as Lb. apply to_limbs_spec in La, Lb.
    destruct (to_limbs a) as [l s], (to_limbs b) as [m t].
    destruct La as (Wl & Cl & El & Ll & _), Lb as (Wm & Cm & Em & Lm & _).
    pose proof (wf_val_nonneg l Wl). pose proof (wf_val_nonneg m Wm).
    rewrite zero_limbs_iff by trivial.
    destruct (Z.eqb_spec (val m) 0) as [E|E]; [subst y; destruct t; cbn in Hy; lia|].
    apply G. rewrite El, Em, sv_rem, bignum_compare_mag_spec, cmp_lt_0 by trivial || lia.
    destruct (Z.ltb_spec (val l) (val m)).
    { rewrite Z.mod_small, <- El by lia. exact Ha. }
    pose proof (rep_divmod_limbs l m s Wl Wm Cl Cm ltac:(lia) ltac:(lia)) as D.
    destruct (bignum_divmod l m) as [q r]. apply D. }
  destruct a as [v|s l], b as [w|t m]; try exact G2. clear G G2.
  destruct Ha as [Ha <-], Hb as [Hb <-]. cbn in Ha, Hb. cbn [int_val] in *.
  destruct (Z.eqb_spec w 0); [lia|]. eexists. split; [reflexivity|].
  rewrite <- mod_of_rem by trivial. apply rep_make_fixnum. fixnums.
  destruct (Z.lt_ge_cases w 0).
  - pose proof (Z.mod_neg_bound v w). lia.
  - pose proof (Z.mod_pos_bound v w). lia.
Qed.

(** ** Sign, comparison, predicates *)

(** The cap cl_make_bignum enforces: [(CL_HDR_SIZE_MASK - sizeof(CL_Bignum)) / 2]
    limbs (mem.h). *)
Definition CL_MAX_BIGNUM_LIMBS : Z := (8388607 - 12) / 2.

Definition heap_ok (a : integer) : Prop :=
  match a with Fix _ => True | Big _ l => Z.of_nat (length l) <= CL_MAX_BIGNUM_LIMBS end.

(** The bignums cl_arith_negate and cl_arith_abs copy whole: their length
    must survive [uint16_t]. *)
Definition len16 (a : integer) : Prop :=
  match a with Fix _ => True | Big _ l => Z.of_nat (length l) < 65536 end.

Lemma copy_len16_id l : Z.of_nat (length l) < 65536 -> copy_len16 l = l.
Proof.
  intros H. unfold copy_len16. rewrite u16_small by lia. rewrite Nat2Z.id. apply firstn_all.
Qed.

Lemma rep_negate a x : rep a x -> len16 a -> rep (cl_arith_negate a) (- x).
Proof.
  intros [Hw <-] Hl. destruct a as [v|s l]; cbn [cl_arith_negate int_val].
  - cbn in Hw. destruct (Z.eqb_spec v CL_FIXNUM_MIN) as [->|].
    + apply (rep_from_uint32 1073741824 false). lia.
    + apply rep_make_fixnum. fixnums. lia.
  - destruct Hw as (W & C & N). rewrite copy_len16_id by trivial. rewrite <- sv_neg.
    apply (rep_normalize (negb s)); trivial. apply C.
Qed.

(** Only a negative bignum is copied. *)
Lemma rep_abs a x : rep a x -> (x < 0 -> len16 a) -> rep (cl_arith_abs a) (Z.abs x).
Proof.
  intros [Hw <-] Hl. destruct a as [v|s l]; cbn [cl_arith_abs int_val].
  - cbn in Hw. destruct (Z.eqb_spec v CL_FIXNUM_MIN) as [->|].
    + apply (rep_from_uint32 1073741824 false). lia.
    + replace (if v <? 0 then - v else v) with (Z.abs v) by (destruct (Z.ltb_spec v 0); lia).
      apply rep_make_fixnum. fixnums. lia.
  - pose proof Hw as (W & C & N). pose proof (wf_val_nonneg l W).
    destruct s; cbn [negb sv].
    + assert (0 < val l) by (revert N; fixnums; lia). cbn [int_val sv] in Hl.
      rewrite copy_len16_id by (apply Hl; lia). rewrite Z.abs_opp, Z.abs_eq by lia.
      split; [|reflexivity]. split; [|split]; trivial. fixnums. lia.
    + rewrite Z.abs_eq by lia. now apply (rep_val (Big false l)).
Qed.

(** The C comparison result: -1, 0 or 1. *)
Definition sgn_compare (x y : Z) : Z :=
  match x ?= y with Lt => -1 | Eq => 0 | Gt => 1 end.

Lemma cl_arith_compare_spec a b x y :
  rep a x -> rep b y -> cl_arith_compare a b = sgn_compare x y.
Proof.
  intros Ha Hb. unfold sgn_compare.
  assert (G :
    (let '(al, a_sign) := to_limbs a in
     let '(bl, b_sign) := to_limbs b in
     if negb (eqb a_sign b_sign)
     then if is_zero_limbs al && is_zero_limbs bl then 0 else if a_sign then -1 else 1
     else let cmp := bignum_compare_mag al bl in if a_sign then - cmp else cmp)
    = match x ?= y with Lt => -1 | Eq => 0 | Gt => 1 end).
  { apply to_limbs_spec in Ha, Hb. destruct (to_limbs a) as [l s], (to_limbs b) as [m t].
    destruct Ha as (Wl & Cl & -> & Ll & Pl), Hb as (Wm & Cm & -> & Lm & Pm).
    pose proof (wf_val_nonneg l Wl). pose proof (wf_val_nonneg m Wm).
    rewrite !zero_limbs_iff, bignum_compare_mag_spec by trivial.
    destruct s, t; cbn [eqb negb sv].
    - rewrite <- Z.compare_opp, Z.compare_antisym.
      now destruct (- val l ?= - val m).
    - specialize (Pl eq_refl). destruct (Z.eqb_spec (val l) 0); [lia|]. cbn [andb].
      destruct (Z.compare_spec (- val l) (val m)); lia.
    - specialize (Pm eq_refl). destruct (Z.eqb_spec (val m) 0); [lia|].
      rewrite andb_false_r.
      destruct (Z.compare_spec (val l) (- val m)); lia.
    - reflexivity. }
  destruct a as [v|s l], b as [w|t m]; try exact G. clear G.
  destruct Ha as [Ha <-], Hb as [Hb <-]. cbn [int_val cl_arith_compare].
  unfold Z.ltb, Z.gtb. now destruct (v ?= w).
Qed.

Lemma cl_arith_zerop_spec a x : rep a x -> cl_arith_zerop a = (x =? 0).
Proof. apply fix_zero_spec. Qed.

Lemma cl_arith_minusp_spec a x : rep a x -> cl_arith_minusp a = (x <? 0).
Proof. apply int_negative_spec. Qed.

Lemma cl_arith_plusp_spec a x : rep a x -> cl_arith_plusp a = (0 <? x).
Proof.
  intros [Hw <-]. destruct a as [v|s l]; cbn [cl_arith_plusp int_val].
  - apply Z.gtb_ltb.
  - destruct Hw as (W & C & N). pose proof (wf_val_nonneg l W). symmetry.
    destruct s; cbn [sv negb]; [apply Z.ltb_ge | apply Z.ltb_lt]; fixnums; lia.
Qed.
#[export] Hint Resolve rep_negate rep_abs : ints.

(** ** EQL *)

Lemma limbs_equal_spec a : forall b,
  length a = length b -> limbs_equal a b = true <-> a = b.
Proof.
  induction a as [|x a IH]; intros [|y b] H; cbn in H |- *; try lia; [easy|].
  destruct (Z.eqb_spec x y) as [->|N]; cbn [negb].
  - rewrite IH by lia. split; [now intros ->|now intros [= ->]].
  - split; [discriminate | now intros [= ? ?]].
Qed.

(** EQL of integers: fixnums compare as words, bignums by contents. *)
Definition bi_eql (a b : integer) : bool :=
  match a, b with
  | Fix v, Fix w => v =? w
  | Big _ _, Big _ _ => cl_bignum_equal a b
  | _, _ => false
  end.

Lemma bi_eql_eq a b : bi_eql a b = true <-> a = b.
Proof.
  destruct a as [v|s l], b as [w|t m]; cbn [bi_eql cl_bignum_equal]; try easy.
  - rewrite Z.eqb_eq. split; [now intros -> | now intros [= ->]].
  - destruct (Bool.eqb_spec s t) as [->|N]; cbn [negb];
      [|split; [discriminate | intros [= ? ?]; contradiction]].
    destruct (Nat.eqb_spec (length l) (length m)) as [E|E]; cbn [negb];
      [|split; [discriminate | intros [= ->]; contradiction]].
    rewrite limbs_equal_spec by trivial. split; [now intros -> | now intros [= ->]].
Qed.

Lemma bi_eql_spec a b x y : rep a x -> rep b y -> bi_eql a b = (x =? y).
Proof.
  intros Ha Hb. destruct (Z.eqb_spec x y) as [->|N].
  - apply bi_eql_eq. now apply rep_unique with y.
  - destruct (bi_eql a b) eqn:E; [|trivial]. apply bi_eql_eq in E. subst b.
    destruct Ha as [_ <-], Hb as [_ <-]. contradiction.
Qed.

Lemma rotate_xor_range h x : 0 <= h < 2 ^ 32 -> 0 <= x < 65536 -> 0 <= rotate_xor h x < 2 ^ 32.
Proof.
  intros Hh Hx. unfold rotate_xor. apply lxor_bound; [lia| |lia].
  apply lor_bound; [lia| |].
  - pose proof (u32_range (Z.shiftl h 5)). lia.
  - rewrite shr_div by lia. pose proof (Z.div_pos h (2 ^ 27)).
    pose proof (Z.div_le_upper_bound h (2 ^ 27) (2 ^ 5)). lia.
Qed.

(** The hash is a [uint32_t]. *)
Lemma cl_bignum_hash_range s l : wf l -> 0 <= cl_bignum_hash s l < 2 ^ 32.
Proof.
  intros Hw. unfold cl_bignum_hash.
  assert (H : 0 <= rotate_xor 0 (Zb s) < 2 ^ 32)
    by (apply rotate_xor_range; destruct s; cbn; lia).
  revert H. generalize (rotate_xor 0 (Zb s)). induction Hw as [|d l Hd Hw IH]; intros h H.
  - exact H.
  - cbn [fold_left]. apply IH, rotate_xor_range; trivial.
Qed.

(** ** Checking a representation by computation *)

Definition canonicalb (l : list Z) : bool :=
  match l with [] => false | [_] => true | _ => negb (last l 0 =? 0) end.

Definition wf_intb (a : integer) : bool :=
  match a with
  | Fix v => (CL_FIXNUM_MIN <=? v) && (v <=? CL_FIXNUM_MAX)
  | Big s l => forallb (fun d => (0 <=? d) && (d <? 65536)) l && canonicalb l &&
               negb (val l <=? if s then 1073741824 else CL_FIXNUM_MAX)
  end.

Lemma canonicalb_sound l : canonicalb l = true -> canonical l.
Proof.
  destruct l as [|d [|e l]]; cbn [canonicalb]; [discriminate | intros _ |].
  - split; cbn; lia.
  - intros H. split; [cbn; lia|]. right. now destruct (Z.eqb_spec (last (d :: e :: l) 0) 0).
Qed.

Lemma wf_intb_sound a : wf_intb a = true -> wf_int a.
Proof.
  destruct a as [v|s l]; cbn [wf_intb wf_int].
  - fixnums. lia.
  - intros [[H1 H2]%andb_prop H3]%andb_prop. split; [|split].
    + apply Forall_forall. intros d Hd. rewrite forallb_forall in H1. specialize (H1 d Hd). lia.
    + now apply canonicalb_sound.
    + destruct s; fixnums; lia.
Qed.

Lemma rep_check a z : wf_intb a && (int_val a =? z) = true -> rep a z.
Proof. intros [H1 H2]%andb_prop. split; [now apply wf_intb_sound | now apply Z.eqb_eq]. Qed.

(** Closes [rep a z] for a concrete object and number. *)
Ltac rep_eval := apply rep_check; vm_compute; reflexivity.

(** ** Properties *)

(** C16: addition and subtraction are exact on every pair of integers, fixnum
    or bignum, and their results are in the canonical form (a fixnum whenever
    the value fits, no leading zero limbs, no negative zero). *)
Theorem cl_arith_add_sub_correct a b x y :
  rep a x -> rep b y ->
  rep (cl_arith_add a b) (x + y) /\ rep (cl_arith_sub a b) (x - y).
Proof. auto with ints. Qed.

(** A carry out of the fixnum range and back. *)
Lemma cl_arith_add_sub_correct_witness :
  (cl_arith_add (Fix 1073741823) (Fix 1) = Big false [0; 16384] /\
   cl_arith_sub (Big false [0; 16384]) (Fix 1) = Fix 1073741823) /\
  rep (cl_arith_add (Big false [0; 16384]) (Fix 1)) (1073741824 + 1) /\
  rep (cl_arith_sub (Big false [0; 16384]) (Fix 1)) (1073741824 - 1).
Proof.
  split; [split; vm_compute; reflexivity|].
  apply (cl_arith_add_sub_correct (Big false [0; 16384]) (Fix 1) 1073741824 1); rep_eval.
Defined.

(** C17: multiplication is exact, and the 32-bit host kernels and the 16-bit
    68000 kernels build the very same object. *)
Theorem cl_arith_mul_correct a b x y :
  rep a x -> rep b y ->
  rep (cl_arith_mul a b) (x * y) /\ cl_arith_mul_68k a b = cl_arith_mul a b.
Proof.
  intros Ha Hb. pose proof (rep_mul a b x y Ha Hb) as R. split; trivial.
  apply rep_unique with (x * y); trivial. now apply rep_mul_68k.
Qed.

Lemma cl_arith_mul_correct_witness :
  let a := Big true [65535; 65535; 1] in let b := Big false [65535; 65535; 65535] in
  cl_arith_mul a b = Big true [1; 0; 65534; 65534; 65535; 1] /\
  rep (cl_arith_mul a b) (-8589934591 * 281474976710655) /\
  cl_arith_mul_68k a b = cl_arith_mul a b.
Proof.
  split; [vm_compute; reflexivity|].
  apply (cl_arith_mul_correct (Big true [65535; 65535; 1]) (Big false [65535; 65535; 65535])
           (-8589934591) 281474976710655); rep_eval.
Defined.

(** C32: TRUNCATE's quotient rounds towards zero and MOD's result takes the
    divisor's sign, on all operands but the one pair of
    [cl_arith_truncate_most_negative]; a zero divisor is an error of both. *)
Theorem cl_arith_truncate_mod_correct a b x y :
  rep a x -> rep b y -> ~ (x = CL_FIXNUM_MIN /\ y = -1) ->
  if y =? 0
  then cl_arith_truncate a b = Err CL_ERR_DIVZERO /\ cl_arith_mod a b = Err CL_ERR_DIVZERO
  else exists q r, cl_arith_truncate a b = Ok q /\ cl_arith_mod a b = Ok r /\
                   rep q (Z.quot x y) /\ rep r (x mod y).
Proof.
  intros Ha Hb O. destruct (Z.eqb_spec y 0) as [->|N].
  - split; [now apply cl_arith_truncate_zero with x | now apply cl_arith_mod_zero with x].
  - destruct (cl_arith_truncate_spec a b x y Ha Hb N O) as (q & -> & Rq).
    destruct (cl_arith_mod_spec a b x y Ha Hb N) as (r & -> & Rr). now exists q, r.
Qed.

Lemma cl_arith_truncate_mod_correct_witness :
  let a := Big true [7; 0; 0; 1] in let b := Big false [3; 32768] in
  cl_arith_truncate a b = Ok (Fix (-131071)) /\
  exists q r, cl_arith_truncate a b = Ok q /\ cl_arith_mod a b = Ok r /\
              rep q (Z.quot (-281474976710663) 2147483651) /\
              rep r ((-281474976710663) mod 2147483651).
Proof.
  split; [vm_compute; reflexivity|].
  apply (cl_arith_truncate_mod_correct (Big true [7; 0; 0; 1]) (Big false [3; 32768])
           (-281474976710663) 2147483651); [rep_eval | rep_eval | fixnums; lia].
Defined.

(** The fixnum fast path of cl_arith_truncate wraps: dividing
    MOST-NEGATIVE-FIXNUM by -1 returns MOST-NEGATIVE-FIXNUM, while the true
    quotient is the bignum that negation returns. *)
Theorem cl_arith_truncate_most_negative :
  cl_arith_truncate (Fix CL_FIXNUM_MIN) (Fix (-1)) = Ok (Fix CL_FIXNUM_MIN) /\
  rep (cl_arith_negate (Fix CL_FIXNUM_MIN)) (Z.quot CL_FIXNUM_MIN (-1)) /\
  cl_arith_negate (Fix CL_FIXNUM_MIN) <> Fix CL_FIXNUM_MIN.
Proof.
  split; [vm_compute; reflexivity|]. split; [rep_eval | vm_compute; discriminate].
Qed.

(** Negation and ABS are exact on every integer of fewer than 65536
    limbs, and so is ABS on every non-negative one. *)
Theorem cl_arith_negate_abs_correct a x :
  rep a x ->
  (len16 a -> rep (cl_arith_negate a) (- x)) /\
  (len16 a \/ 0 <= x -> rep (cl_arith_abs a) (Z.abs x)).
Proof.
  intros Ha. split; [now apply rep_negate|].
  intros H. apply rep_abs; trivial. destruct H; [trivial | lia].
Qed.

Lemma cl_arith_negate_abs_correct_witness :
  rep (cl_arith_negate (Big false [0; 16384])) (-1073741824) /\
  rep (cl_arith_abs (Fix CL_FIXNUM_MIN)) 1073741824.
Proof.
  split.
  - apply (proj1 (cl_arith_negate_abs_correct (Big false [0; 16384]) 1073741824
                    ltac:(rep_eval))). vm_compute. reflexivity.
  - apply (proj2 (cl_arith_negate_abs_correct (Fix CL_FIXNUM_MIN) CL_FIXNUM_MIN
                    ltac:(rep_eval))). now left.
Defined.

(** Beyond that bound cl_arith_negate loses limbs: its [uint16_t len]
    keeps only the lowest limb of a magnitude of 65537 limbs. *)
Theorem cl_arith_negate_loses_limbs s d l :
  0 <= d < 65536 -> length l = Z.to_nat 65536 ->
  cl_arith_negate (Big s (d :: l)) = Fix (if s then d else - d).
Proof.
  intros Hd Hl. cbn [cl_arith_negate]. unfold copy_len16.
  assert (E : u16 (Z.of_nat (length (d :: l))) = 1).
  { cbn [length]. rewrite Nat2Z.inj_succ, Hl, Z2Nat.id by lia. reflexivity. }
  rewrite E. change (firstn (Z.to_nat 1) (d :: l)) with [d].
  assert (R : rep (cl_bignum_normalize (Big (if s then false else true) [d])) (if s then d else - d)).
  { replace (if s then d else - d) with (sv (negb s) (val [d]))
      by (rewrite val_cons, val_nil; destruct s; cbn [negb sv]; lia).
    apply (rep_normalize (negb s)); [now repeat constructor | cbn; lia]. }
  apply (rep_unique _ _ _ R), rep_fix. destruct s; fixnums; lia.
Qed.

Lemma cl_arith_negate_loses_limbs_witness :
  let limbs := 5 :: repeat 1 (Z.to_nat 65536) in
  cl_arith_negate (Big false limbs) = Fix (-5).
Proof.
  apply (cl_arith_negate_loses_limbs false 5 (repeat 1 (Z.to_nat 65536))).
  - lia.
  - apply repeat_length.
Defined.

(** Comparison returns the sign of the difference, and the three sign
    predicates agree with it. *)
Theorem cl_arith_compare_correct a b x y :
  rep a x -> rep b y ->
  cl_arith_compare a b = Z.sgn (x - y) /\
  cl_arith_zerop a = (x =? 0) /\ cl_arith_plusp a = (0 <? x) /\ cl_arith_minusp a = (x <? 0).
Proof.
  intros Ha Hb. split; [|split; [now apply cl_arith_zerop_spec|
    split; [now apply cl_arith_plusp_spec | now apply cl_arith_minusp_spec]]].
  rewrite (cl_arith_compare_spec a b x y Ha Hb). unfold sgn_compare.
  destruct (Z.compare_spec x y); lia.
Qed.

Lemma cl_arith_compare_correct_witness :
  cl_arith_compare (Big true [0; 0; 1]) (Fix 3) = Z.sgn (- 4294967296 - 3) /\
  cl_arith_zerop (Big true [0; 0; 1]) = (-4294967296 =? 0) /\
  cl_arith_plusp (Big true [0; 0; 1]) = (0 <? -4294967296) /\
  cl_arith_minusp (Big true [0; 0; 1]) = (-4294967296 <? 0).
Proof.
  apply (cl_arith_compare_correct (Big true [0; 0; 1]) (Fix 3) (-4294967296) 3); rep_eval.
Defined.

(** One number has one object, so EQL on integers decides equality of
    the numbers, and EQL integers hash alike. *)
Theorem bi_eql_correct a b x y :
  rep a x -> rep b y ->
  (bi_eql a b = true <-> x = y) /\ (x = y -> a = b) /\
  (forall s l t m, a = Big s l -> b = Big t m -> x = y -> cl_bignum_hash s l = cl_bignum_hash t m).
Proof.
  intros Ha Hb. assert (U : x = y -> a = b) by (intros <-; now apply rep_unique with x).
  split; [|split; [exact U|]].
  - rewrite (bi_eql_spec a b x y Ha Hb). apply Z.eqb_eq.
  - intros s l t m -> -> E. apply U in E. now injection E as [= -> ->].
Qed.

Lemma bi_eql_correct_witness :
  let a := Big false [0; 16384] in
  let b := cl_arith_negate (Fix CL_FIXNUM_MIN) in
  (bi_eql a b = true <-> 1073741824 = 1073741824) /\ (1073741824 = 1073741824 -> a = b) /\
  (forall s l t m, a = Big s l -> b = Big t m -> 1073741824 = 1073741824 ->
     cl_bignum_hash s l = cl_bignum_hash t m).
Proof. apply bi_eql_correct; rep_eval. Defined.
