(* ===== verification/BignumExt.v ===== *)
(** * Extended integer operations

    src/src/core/bignum.c from cl_arith_gcd to cl_arith_logbitp: gcd, integer
    exponentiation, integer square root, shifts, two's-complement logic and
    the bit counters, on the objects of Bignum.v.

    Fuel: the gcd and exponentiation loops get a number of rounds computed
    from their operands, shown sufficient by [rep_gcd] and [cl_arith_expt_spec]
    (the lemmas on the loops hold for any larger number too).  The search loop
    that ends cl_arith_isqrt takes its fuel as an argument. *)

From Stdlib Require Import ZArith List Lia Bool.
From S2P Require Import Prelude Limbs Division Bignum.
Import ListNotations.
Local Open Scope Z_scope.
Local Open Scope amilisp_scope.

(** ** GCD *)

(** One Euclidean remainder of non-negative operands. *)
Definition gcd_step (a b : integer) : integer :=
  match a, b with
  | Fix va, Fix vb => make_fixnum (Z.rem va vb)
  | _, _ =>
      let '(al, _) := to_limbs a in
      let '(bl, _) := to_limbs b in
      if bignum_compare_mag al bl <? 0 then a
      else let '(_, rem) := bignum_divmod al bl in bignum_from_limbs (strip rem) false
  end.

Fixpoint gcd_loop (fuel : nat) (a b : integer) : integer :=
  match fuel with
  | O => a
  | S f => if cl_arith_zerop b then a else gcd_loop f b (gcd_step a b)
  end.

(** Rounds for a second operand [b]: two per bit. *)
Definition gcd_fuel (b : integer) : nat := Z.to_nat (2 * Z.log2 (int_val b) + 3).

Definition cl_arith_gcd (a b : integer) : integer :=
  let a := cl_arith_abs a in
  let b := cl_arith_abs b in
  if cl_arith_zerop a then b
  else if cl_arith_zerop b then a
  else gcd_loop (gcd_fuel b) a b.

(** ** Parity and bit length *)

Definition cl_arith_evenp (a : integer) : bool :=
  match a with
  | Fix v => Z.land v 1 =? 0
  | Big _ limbs => Z.land (nth 0 limbs 0) 1 =? 0
  end.

Definition cl_arith_integer_length (n : integer) : Z :=
  match n with
  | Fix val =>
      if val =? 0 then 0
      else if val <? 0
      then (if val =? -1 then 0 else bit_length_loop 32 (u32 (i32 (- (val + 1)))))
      else bit_length_loop 32 (u32 val)
  | Big sign limbs =>
      let len := length limbs in
      if (len =? 0)%nat then 0
      else
        let top := nth (len - 1) limbs 0 in
        let bits := (Z.of_nat len - 1) * 16 + bit_length_loop 16 top in
        if sign
           && (Z.land top (top - 1) =? 0)
           && forallb (fun d => d =? 0) (firstn (len - 1) limbs)
        then bits - 1 else bits
  end.

(** ** Exponentiation *)

Fixpoint expt_loop (fuel : nat) (result base exp : integer) : Prelude.result integer :=
  match fuel with
  | O => Ok result
  | S f =>
      if cl_arith_zerop exp then Ok result
      else
        let result := if negb (cl_arith_evenp exp) then cl_arith_mul result base
                      else result in
        let base := cl_arith_mul base base in
        exp <- cl_arith_truncate exp (make_fixnum 2) ;;
        expt_loop f result base exp
  end.

Definition expt_fuel (exp : integer) : nat := Z.to_nat (Z.log2 (int_val exp) + 2).

Definition cl_arith_expt (base exp : integer) : result integer :=
  if cl_arith_minusp exp then
    if cl_arith_compare base (make_fixnum 1) =? 0 then Ok (make_fixnum 1)
    else if cl_arith_compare base (make_fixnum (-1)) =? 0
    then Ok (if cl_arith_evenp exp then make_fixnum 1 else make_fixnum (-1))
    else Ok (make_fixnum 0)
  else if cl_arith_zerop exp then Ok (make_fixnum 1)
  else expt_loop (expt_fuel exp) (make_fixnum 1) base exp.

(** ** Shifts *)

(** The carry loop of the left shift. *)
Fixpoint ash_left_loop (nl : list Z) (bit_shift carry : Z) : list Z :=
  match nl with
  | [] => [if negb (carry =? 0) then u16 carry else 0]
  | x :: t =>
      let val := Z.lor (u32 (Z.shiftl x bit_shift)) carry in
      u16 (Z.land val 65535) :: ash_left_loop t bit_shift (Z.shiftr val 16)
  end.

Definition ash_left (n : integer) (shift : Z) : integer :=
  let word_shift := Z.to_nat (shift / 16) in
  let bit_shift := shift mod 16 in
  let '(nl, n_sign) := to_limbs n in
  let result :=
    if bit_shift =? 0 then repeat 0 word_shift ++ nl ++ [0]
    else repeat 0 word_shift ++ ash_left_loop nl bit_shift 0 in
  bignum_from_limbs (strip result) n_sign.

(** [result[i]] takes its high bits from the next limb, when there is one. *)
Fixpoint ash_right_loop (nl : list Z) (bit_shift : Z) : list Z :=
  match nl with
  | [] => []
  | x :: t =>
      let val := Z.shiftr x bit_shift in
      let val := match t with
                 | y :: _ => Z.lor val (Z.land (u32 (Z.shiftl y (16 - bit_shift))) 65535)
                 | [] => val
                 end in
      u16 val :: ash_right_loop t bit_shift
  end.

Definition ash_right (n : integer) (shift : Z) : integer :=
  let word_shift := Z.to_nat (- shift / 16) in
  let bit_shift := (- shift) mod 16 in
  let '(nl, n_sign) := to_limbs n in
  if (length nl <=? word_shift)%nat then make_fixnum (if n_sign then -1 else 0)
  else
    let result :=
      if bit_shift =? 0 then skipn word_shift nl
      else ash_right_loop (skipn word_shift nl) bit_shift in
    let any_set :=
      n_sign
      && (existsb (fun d => negb (d =? 0)) (firstn word_shift nl)
          || (0 <? bit_shift)
             && negb (Z.land (nth word_shift nl 0) (Z.shiftl 1 bit_shift - 1) =? 0)) in
    let res := bignum_from_limbs (strip result) n_sign in
    if n_sign && any_set then cl_arith_sub res (make_fixnum 1) else res.

(** The fixnum fast path; [None] falls through to the limb path. *)
Definition ash_fixnum (v shift : Z) : option integer :=
  if v =? 0 then Some (make_fixnum 0)
  else if shift <? 0 then
    let s := - shift in
    if s >=? 31 then Some (make_fixnum (if v <? 0 then -1 else 0))
    else Some (make_fixnum (Z.shiftr v s))
  else if shift <? 31 then
    let r := Z.shiftl v shift in
    if fits_fixnum r then Some (make_fixnum r) else None
  else None.

Definition cl_arith_ash (n count : integer) : result integer :=
  match count with
  | Big _ _ =>
      if cl_arith_minusp count
      then Ok (if cl_arith_zerop n then n
               else if cl_arith_minusp n then make_fixnum (-1) else make_fixnum 0)
      else if cl_arith_zerop n then Ok n
      else Err CL_ERR_TYPE
  | Fix shift =>
      if shift =? 0 then Ok n
      else
        let cold := if shift >? 0 then ash_left n shift else ash_right n shift in
        match n with
        | Fix v => Ok (match ash_fixnum v shift with Some r => r | None => cold end)
        | Big _ _ => Ok cold
        end
  end.

(** ** Integer square root *)

(** Newton's iteration: at most 1000 rounds, left when it stops decreasing. *)
Fixpoint isqrt_newton (iters : nat) (n x : integer) : result integer :=
  match iters with
  | O => Ok x
  | S k =>
      x1 <- cl_arith_truncate n x ;;
      x1 <- cl_arith_truncate (cl_arith_add x x1) (make_fixnum 2) ;;
      if cl_arith_compare x1 x >=? 0 then Ok x else isqrt_newton k n x1
  end.

(** [for (;;)]: step down until the square is small enough; [None] is an
    exhausted [fuel]. *)
Fixpoint isqrt_settle (fuel : nat) (n x : integer) : option integer :=
  match fuel with
  | O => None
  | S f =>
      if cl_arith_compare (cl_arith_mul x x) n <=? 0 then Some x
      else isqrt_settle f n (cl_arith_sub x (make_fixnum 1))
  end.

Definition cl_arith_isqrt (fuel : nat) (n : integer) : option (result integer) :=
  if cl_arith_minusp n then Some (Err CL_ERR_TYPE)
  else if cl_arith_zerop n then Some (Ok (make_fixnum 0))
  else
    let bl := cl_arith_integer_length n in
    match (x <- cl_arith_ash (make_fixnum 1) (make_fixnum ((bl + 1) / 2)) ;;
           isqrt_newton 1000 n x) with
    | Err e => Some (Err e)
    | Ok x => option_map Ok (isqrt_settle fuel n x)
    end.

(** ** Two's complement *)

(** Invert and add [carry], limb by limb. *)
Fixpoint invert_loop (buf : list Z) (carry : Z) : list Z :=
  match buf with
  | [] => []
  | d :: t =>
      let val := u32 (Z.lxor d 65535 + carry) in
      u16 (Z.land val 65535) :: invert_loop t (Z.shiftr val 16)
  end.

Definition to_twos_complement (n : integer) (buf_size : nat) : list Z * bool :=
  let '(nl, n_sign) := to_limbs n in
  let n_len := if (buf_size <? length nl + 1)%nat then (buf_size - 1)%nat else length nl in
  let len := if (buf_size <? n_len + 1)%nat then buf_size else (n_len + 1)%nat in
  let buf := firstn n_len nl ++ repeat 0 (len - n_len) in
  (if n_sign then invert_loop buf 1 else buf, n_sign).

Definition from_twos_complement (buf : list Z) : integer :=
  let negative := negb (Z.land (last buf 0) 32768 =? 0) in
  if negb negative then bignum_from_limbs (strip buf) false
  else bignum_from_limbs (strip (invert_loop buf 1)) true.

Inductive BignumBitop : Set := BITOP_AND | BITOP_IOR | BITOP_XOR.

Definition bitop_limb (op : BignumBitop) (av bv : Z) : Z :=
  match op with
  | BITOP_AND => u16 (Z.land av bv)
  | BITOP_IOR => u16 (Z.lor av bv)
  | BITOP_XOR => u16 (Z.lxor av bv)
  end.

Definition bignum_bitop (a b : integer) (op : BignumBitop) : integer :=
  let la := length (fst (to_limbs a)) in
  let lb := length (fst (to_limbs b)) in
  let need := ((if (lb <? la)%nat then la else lb) + 1)%nat in
  let '(ba, a_neg) := to_twos_complement a need in
  let '(bb, b_neg) := to_twos_complement b need in
  let max_len := if (length bb <? length ba)%nat then length ba else length bb in
  let a_ext := if a_neg then 65535 else 0 in
  let b_ext := if b_neg then 65535 else 0 in
  let at_ buf ext i := if (i <? length buf)%nat then nth i buf 0 else ext in
  from_twos_complement
    (map (fun i => bitop_limb op (at_ ba a_ext i) (at_ bb b_ext i)) (seq 0 max_len)).

Definition cl_arith_logand (a b : integer) : integer :=
  match a, b with
  | Fix va, Fix vb => make_fixnum (Z.land va vb)
  | _, _ => bignum_bitop a b BITOP_AND
  end.

Definition cl_arith_logior (a b : integer) : integer :=
  match a, b with
  | Fix va, Fix vb => make_fixnum (Z.lor va vb)
  | _, _ => bignum_bitop a b BITOP_IOR
  end.

Definition cl_arith_logxor (a b : integer) : integer :=
  match a, b with
  | Fix va, Fix vb => make_fixnum (Z.lxor va vb)
  | _, _ => bignum_bitop a b BITOP_XOR
  end.

Definition cl_arith_lognot (a : integer) : integer :=
  cl_arith_sub (make_fixnum (-1)) a.

(** ** Counting and testing bits *)

(** [while (v) { v &= v - 1; c++; }]; [fuel] is the word's width. *)
Fixpoint popcount_loop (fuel : nat) (v : Z) : Z :=
  match fuel with
  | O => 0
  | S f => if v =? 0 then 0 else 1 + popcount_loop f (Z.land v (v - 1))
  end.

Definition popcount16 (v : Z) : Z := popcount_loop 16 v.

Fixpoint count_loop (limbs : list Z) : Z :=
  match limbs with
  | [] => 0
  | d :: t => popcount16 d + count_loop t
  end.

(** The same over [|n| - 1], the subtraction streamed. *)
Fixpoint count_borrow_loop (limbs : list Z) (borrow : Z) : Z :=
  match limbs with
  | [] => 0
  | d :: t =>
      let val := u32 (d - borrow) in
      popcount16 (u16 (Z.land val 65535))
        + count_borrow_loop t (Z.land (Z.shiftr val 16) 1)
  end.

Definition cl_arith_logcount (n : integer) : Z :=
  match n with
  | Fix val => popcount_loop 32 (if val <? 0 then u32 (Z.lnot val) else u32 val)
  | Big sign limbs => if negb sign then count_loop limbs else count_borrow_loop limbs 1
  end.

(** The limb at [limb_idx] of [|n| - 1]. *)
Fixpoint borrow_limb (limbs : list Z) (limb_idx : nat) (borrow : Z) : Z :=
  match limbs with
  | [] => 0
  | d :: t =>
      let v := u32 (d - borrow) in
      match limb_idx with
      | O => u16 (Z.land v 65535)
      | S k => borrow_limb t k (Z.land (Z.shiftr v 16) 1)
      end
  end.

Definition cl_arith_logbitp (index : Z) (n : integer) : Z :=
  if index <? 0 then 0
  else
    match n with
    | Fix val =>
        if index >=? 31 then Zb (val <? 0) else Z.land (Z.shiftr val index) 1
    | Big sign limbs =>
        let limb_idx := Z.to_nat (index / 16) in
        let bit_idx := index mod 16 in
        if (length limbs <=? limb_idx)%nat then Zb sign
        else if negb sign
        then Z.land (Z.shiftr (nth limb_idx limbs 0) bit_idx) 1
        else Z.land (Z.shiftr (Z.lnot (borrow_limb limbs limb_idx 1)) bit_idx) 1
    end.

(** ** GCD *)

Lemma rep_gcd_step a b x y :
  rep a x -> rep b y -> 0 <= x -> 0 < y -> rep (gcd_step a b) (x mod y).
Proof.
  intros Ha Hb Hx Hy.
  assert (G : rep (let '(al, _) := to_limbs a in
      let '(bl, _) := to_limbs b in
      if bignum_compare_mag al bl <? 0 then a
      else let '(_, rem) := bignum_divmod al bl in bignum_from_limbs (strip rem) false)
      (x mod y)).
  { pose proof Ha as La. pose proof Hb as Lb. apply to_limbs_spec in La, Lb.
    destruct (to_limbs a) as [l s], (to_limbs b) as [m t].
    destruct La as (Wl & Cl & El & Ll & Pl), Lb as (Wm & Cm & Em & Lm & Pm).
    pose proof (wf_val_nonneg l Wl). pose proof (wf_val_nonneg m Wm).
    destruct s; [cbn in El; lia|]. destruct t; [cbn in Em; lia|]. cbn [sv] in El, Em.
    subst x y. rewrite bignum_compare_mag_spec, cmp_lt_0 by trivial.
    destruct (Z.ltb_spec (val l) (val m)); [rewrite Z.mod_small by lia; exact Ha|].
    pose proof (rep_divmod_limbs l m false Wl Wm Cl Cm ltac:(lia) ltac:(lia)) as D.
    destruct (bignum_divmod l m) as [q r]. apply D. }
  destruct a as [v|s l], b as [w|t m]; try exact G. clear G.
  destruct Ha as [Ha <-], Hb as [Hb <-]. cbn in Ha, Hb. cbn [int_val gcd_step] in *.
  rewrite Z.rem_mod_nonneg by lia. apply rep_make_fixnum. fixnums.
  pose proof (Z.mod_pos_bound v w). lia.
Qed.

(** Two Euclidean steps halve the second operand. *)
Lemma mod_mod_half x y : 0 < y -> 0 < x mod y -> 2 * (y mod (x mod y)) < y.
Proof.
  intros Hy Hr. pose proof (Z.mod_pos_bound x y Hy).
  set (r := x mod y) in *. clearbody r. pose proof (Z.div_mod y r ltac:(lia)).
  pose proof (Z.mod_pos_bound y r Hr).
  assert (1 <= y / r) by (apply Z.div_le_lower_bound; lia). nia.
Qed.

Lemma gcd_step_Z x y : y <> 0 -> Z.gcd x y = Z.gcd y (x mod y).
Proof. intros H. now rewrite Z.gcd_comm, <- (Z.gcd_mod x y), Z.gcd_comm. Qed.

Lemma rep_gcd_loop fuel : forall a b x y k,
  rep a x -> rep b y -> 0 <= x -> 0 <= y < 2 ^ k -> 0 <= k ->
  2 * k + 1 <= Z.of_nat fuel -> rep (gcd_loop fuel a b) (Z.gcd x y).
Proof.
  induction fuel as [fuel IH] using lt_wf_ind.
  intros a b x y k Ha Hb Hx Hy Hk Hf. destruct fuel as [|f]; [lia|]. cbn [gcd_loop].
  rewrite (cl_arith_zerop_spec b y Hb). destruct (Z.eqb_spec y 0) as [->|N].
  { rewrite Z.gcd_0_r, Z.abs_eq by lia. exact Ha. }
  assert (Hk1 : 1 <= k) by (destruct (Z.eq_dec k 0) as [->|]; [cbn in Hy|]; lia).
  pose proof (rep_gcd_step a b x y Ha Hb Hx ltac:(lia)) as Hs.
  pose proof (Z.mod_pos_bound x y ltac:(lia)).
  rewrite gcd_step_Z by lia.
  destruct f as [|f]; [lia|]. cbn [gcd_loop].
  rewrite (cl_arith_zerop_spec _ _ Hs). destruct (Z.eqb_spec (x mod y) 0) as [E|N'].
  { rewrite E, Z.gcd_0_r, Z.abs_eq by lia. exact Hb. }
  rewrite gcd_step_Z by lia.
  pose proof (mod_mod_half x y ltac:(lia) ltac:(lia)).
  pose proof (Z.mod_pos_bound y (x mod y) ltac:(lia)).
  apply IH with (k - 1); try lia; trivial.
  - apply rep_gcd_step; trivial; lia.
  - replace k with (Z.succ (k - 1)) in Hy by lia. rewrite Z.pow_succ_r in Hy by lia. lia.
Qed.

Lemma rep_gcd a b x y :
  rep a x -> rep b y -> (x < 0 -> len16 a) -> (y < 0 -> len16 b) ->
  rep (cl_arith_gcd a b) (Z.gcd x y).
Proof.
  intros Ha Hb La Lb. unfold cl_arith_gcd.
  pose proof (rep_abs a x Ha La) as Ha'. pose proof (rep_abs b y Hb Lb) as Hb'.
  rewrite (cl_arith_zerop_spec _ _ Ha'), (cl_arith_zerop_spec _ _ Hb').
  rewrite <- (Z.gcd_abs_l x), <- (Z.gcd_abs_r _ y).
  destruct (Z.eqb_spec (Z.abs x) 0) as [->|Nx].
  { rewrite Z.gcd_0_l, Z.abs_idemp. exact Hb'. }
  destruct (Z.eqb_spec (Z.abs y) 0) as [->|Ny].
  { rewrite Z.gcd_0_r, Z.abs_idemp. exact Ha'. }
  pose proof (Z.log2_nonneg (Z.abs y)).
  apply rep_gcd_loop with (Z.log2 (Z.abs y) + 1); trivial; try lia.
  - pose proof (Z.log2_spec (Z.abs y)). unfold Z.succ in *. lia.
  - unfold gcd_fuel. rewrite (proj2 Hb'). lia.
Qed.

(** ** Parity and bit length *)

Lemma cl_arith_evenp_spec a x : rep a x -> cl_arith_evenp a = Z.even x.
Proof.
  intros [Hw <-]. destruct a as [v|s l]; cbn [cl_arith_evenp int_val].
  - rewrite land_1, Zeven_mod. reflexivity.
  - destruct Hw as (W & C & N). destruct l as [|d l]; [destruct C as [C _]; cbn in C; lia|].
    cbn [nth]. rewrite land_1, val_cons, Zeven_mod. f_equal.
    change 65536 with (2 * 32768). destruct s; cbn [sv];
    [|rewrite <- Z.mul_assoc, Z.mul_comm, Z.mul_comm, (Z.mul_comm 2), Z.mod_add by lia; reflexivity].
    divmod. lia.
Qed.

(** CL:INTEGER-LENGTH: the bits of a two's complement representation without
    the sign. *)
Definition bits_of (m : Z) : Z := if m =? 0 then 0 else Z.log2 m + 1.
Definition integer_length (x : Z) : Z := bits_of (if x <? 0 then - x - 1 else x).

Lemma bits_of_unique m k : 0 <= k -> 0 <= m < 2 ^ k -> (0 < m -> 2 ^ (k - 1) <= m) ->
  (m = 0 -> k = 0) -> bits_of m = k.
Proof.
  intros Hk Hm Hl H0. unfold bits_of. destruct (Z.eqb_spec m 0); [now rewrite H0|].
  rewrite (Z.log2_unique m (k - 1)); try lia.
  - destruct (Z.eq_dec k 0) as [->|]; [cbn in Hm; lia|lia].
  - replace (Z.succ (k - 1)) with k by lia. lia.
Qed.

Lemma bit_length_loop_bits fuel v :
  0 <= v < 2 ^ Z.of_nat fuel -> bit_length_loop fuel v = bits_of v.
Proof.
  intros Hv. destruct (bit_length_loop_spec fuel v Hv) as (B & U & L).
  symmetry. apply bits_of_unique; trivial; try lia.
  intros ->. destruct fuel; reflexivity.
Qed.

Lemma bits_of_shift_add lo hi k :
  0 <= k -> 0 <= lo < 2 ^ k -> 0 < hi -> bits_of (lo + 2 ^ k * hi) = k + bits_of hi.
Proof.
  intros Hk Hlo Hhi. unfold bits_of at 2. destruct (Z.eqb_spec hi 0); [lia|].
  pose proof (Z.log2_spec hi Hhi) as S. pose proof (Z.log2_nonneg hi).
  assert (0 < 2 ^ k) by (apply Z.pow_pos_nonneg; lia).
  apply bits_of_unique; try lia.
  - split; [nia|]. replace (k + (Z.log2 hi + 1)) with (k + Z.succ (Z.log2 hi)) by lia.
    rewrite Z.pow_add_r by lia. nia.
  - intros _. replace (k + (Z.log2 hi + 1) - 1) with (k + Z.log2 hi) by lia.
    rewrite Z.pow_add_r by lia. nia.
Qed.

Lemma forallb_zero l : wf l -> forallb (fun d => d =? 0) l = (val l =? 0).
Proof.
  induction 1 as [|d l Hd Hl IH]; [reflexivity|]. cbn [forallb]. rewrite IH, val_cons.
  pose proof (wf_val_nonneg l Hl).
  destruct (Z.eqb_spec d 0), (Z.eqb_spec (val l) 0), (Z.eqb_spec (d + 65536 * val l) 0);
    trivial; lia.
Qed.

(** [t & (t - 1)] is zero exactly when the decrement loses a bit. *)
Lemma bits_of_pred d :
  0 < d -> bits_of (d - 1) = if Z.land d (d - 1) =? 0 then bits_of d - 1 else bits_of d.
Proof.
  intros Hd. pose proof (Z.log2_spec d Hd) as [L U]. pose proof (Z.log2_nonneg d).
  rewrite Z.pow_succ_r in U by lia. set (k := Z.log2 d) in *.
  assert (Bd : bits_of d = k + 1) by (unfold bits_of; destruct (Z.eqb_spec d 0); lia).
  rewrite Bd. destruct (Z.eq_dec d (2 ^ k)) as [E|E].
  - assert (H0 : Z.land d (d - 1) = 0) by (rewrite E, land_mask by lia; apply Z_mod_same_full).
    rewrite H0. cbn [Z.eqb]. replace (k + 1 - 1) with k by lia.
    apply bits_of_unique; try lia.
    + intros Hp. rewrite E. destruct (Z.eq_dec k 0) as [K|]; [rewrite K in E; cbn in E; lia|].
      replace k with (Z.succ (k - 1)) at 2 by lia. rewrite Z.pow_succ_r by lia.
      assert (0 < 2 ^ (k - 1)) by (apply Z.pow_pos_nonneg; lia). lia.
    + intros H1. assert (2 ^ k = 1) by lia. destruct (Z.eq_dec k 0); [lia|].
      assert (2 ^ 1 <= 2 ^ k) by (apply Z.pow_le_mono_r; lia). lia.
  - destruct (Z.eqb_spec (Z.land d (d - 1)) 0) as [H0|H0].
    + exfalso. assert (T : Z.testbit (Z.land d (d - 1)) k = true).
      { rewrite Z.land_spec. subst k. rewrite Z.bit_log2 by lia. cbn [andb].
        replace (Z.log2 d) with (Z.log2 (d - 1)).
        - apply Z.bit_log2. assert (0 < 2 ^ Z.log2 d) by (apply Z.pow_pos_nonneg; lia). lia.
        - apply Z.log2_unique; [lia|]. rewrite Z.pow_succ_r by lia. lia. }
      rewrite H0, Z.bits_0 in T. discriminate.
    + assert (0 < 2 ^ k) by (apply Z.pow_pos_nonneg; lia).
      apply bits_of_unique; try lia.
      * replace (k + 1) with (Z.succ k) by lia. rewrite Z.pow_succ_r by lia. lia.
      * intros _. replace (k + 1 - 1) with k by lia. lia.
Qed.

Lemma bits_of_ones_add hi k :
  0 <= k -> 0 <= hi -> bits_of (2 ^ k - 1 + 2 ^ k * hi) = k + bits_of hi.
Proof.
  intros Hk Hh. assert (0 < 2 ^ k) by (apply Z.pow_pos_nonneg; lia).
  destruct (Z.eq_dec hi 0) as [->|]; [|apply bits_of_shift_add; lia].
  rewrite Z.mul_0_r, Z.add_0_r. change (bits_of 0) with 0. rewrite Z.add_0_r.
  apply bits_of_unique; try lia.
  - destruct (Z.eq_dec k 0) as [->|]; [cbn; lia|]. intros _.
    replace k with (Z.succ (k - 1)) at 2 by lia. rewrite Z.pow_succ_r by lia.
    assert (0 < 2 ^ (k - 1)) by (apply Z.pow_pos_nonneg; lia). lia.
  - intros H1. destruct (Z.eq_dec k 0); [lia|].
    assert (2 ^ 1 <= 2 ^ k) by (apply Z.pow_le_mono_r; lia). lia.
Qed.

Lemma cl_arith_integer_length_spec a x :
  rep a x -> cl_arith_integer_length a = integer_length x.
Proof.
  intros [Hw <-]. unfold integer_length.
  destruct a as [v|s l]; cbn [cl_arith_integer_length int_val].
  - cbn in Hw. fixnums. destruct (Z.eqb_spec v 0) as [->|]; [reflexivity|].
    destruct (Z.ltb_spec v 0).
    + destruct (Z.eqb_spec v (-1)) as [->|]; [reflexivity|].
      rewrite i32_small, u32_small by lia. replace (- v - 1) with (- (v + 1)) by lia.
      apply bit_length_loop_bits. change (2 ^ Z.of_nat 32) with 4294967296. lia.
    + rewrite u32_small by lia. apply bit_length_loop_bits.
      change (2 ^ Z.of_nat 32) with 4294967296. lia.
  - pose proof (int_negative_spec (Big s l) _ (conj Hw eq_refl)) as Sg.
    cbn [int_negative int_val] in Sg. rewrite <- Sg. clear Sg.
    destruct Hw as (W & C & N).
    destruct (Nat.eqb_spec (length l) 0); [destruct C; lia|].
    destruct (split_last l (length l - 1)) as (t & d & E & Lt); [lia|].
    assert (Hn : nth (length l - 1) l 0 = d) by (rewrite <- Lt, E; apply nth_app_last).
    assert (Hf : firstn (length l - 1) l = t)
      by (rewrite <- Lt, E, firstn_app, Nat.sub_diag, firstn_all, firstn_O, app_nil_r; reflexivity).
    rewrite Hn, Hf. replace (Z.of_nat (length l) - 1) with (Z.of_nat (length t)) by lia.
    assert (Wt := W). rewrite E in Wt. apply wfB_app in Wt.
    destruct Wt as [Wt Wd]. apply wfB_cons in Wd. destruct Wd as [Wd _].
    assert (V : val l = val t + 2 ^ (Z.of_nat (length t) * 16) * d).
    { rewrite E, valB_app, val_cons, val_nil by lia. rewrite Z.mul_comm with (n := Z.of_nat _).
      rewrite (Z.pow_mul_r 2 16) by lia. change (2 ^ 16) with 65536. lia. }
    assert (Bt : 0 <= val t < 2 ^ (Z.of_nat (length t) * 16)).
    { rewrite Z.mul_comm, Z.pow_mul_r by lia. apply valB_bound; trivial. apply base16_pos. }
    assert (Hd : 0 < d).
    { destruct C as [_ [C|C]]; [|rewrite E, last_last in C; lia].
      destruct t; [|rewrite E, length_app in C; cbn in C; lia].
      cbn [length valB] in V. change (Z.of_nat 0 * 16) with 0 in V. rewrite Z.pow_0_r in V.
      destruct s; fixnums; lia. }
    rewrite (bit_length_loop_bits 16 d) by (change (2 ^ Z.of_nat 16) with 65536; lia).
    rewrite (forallb_zero t Wt). set (K := Z.of_nat (length t) * 16) in *.
    assert (0 <= K) by (subst K; lia). clearbody K.
    destruct s; cbn [andb sv].
    + rewrite Z.opp_involutive. destruct (Z.eqb_spec (val t) 0) as [E0|E0].
      * replace (val l - 1) with (2 ^ K - 1 + 2 ^ K * (d - 1)) by lia.
        rewrite bits_of_ones_add, bits_of_pred, andb_true_r by lia.
        destruct (Z.land d (d - 1) =? 0); lia.
      * rewrite andb_false_r. replace (val l - 1) with (val t - 1 + 2 ^ K * d) by lia.
        rewrite bits_of_shift_add by lia. lia.
    + rewrite V, bits_of_shift_add by lia. reflexivity.
Qed.

(** ** Exponentiation *)

Lemma truncate_2 a x :
  rep a x -> 0 <= x -> exists q, cl_arith_truncate a (make_fixnum 2) = Ok q /\ rep q (x / 2).
Proof.
  intros Ha Hx.
  destruct (cl_arith_truncate_spec a (make_fixnum 2) x 2) as (q & E & R); trivial; try lia.
  - apply rep_make_fixnum. fixnums. lia.
  - exists q. split; trivial. now rewrite Z.quot_div_nonneg in R by lia.
Qed.

Lemma expt_loop_spec fuel : forall r b e x y n k,
  rep r x -> rep b y -> rep e n -> 0 <= n < 2 ^ k -> 0 <= k -> k + 1 <= Z.of_nat fuel ->
  exists p, expt_loop fuel r b e = Ok p /\ rep p (x * y ^ n).
Proof.
  induction fuel as [|f IH]; intros r b e x y n k Hr Hb He Hn Hk Hf; [lia|].
  cbn [expt_loop]. rewrite (cl_arith_zerop_spec e n He).
  destruct (Z.eqb_spec n 0) as [->|N].
  { exists r. split; trivial. now rewrite Z.pow_0_r, Z.mul_1_r. }
  destruct (truncate_2 e n He ltac:(lia)) as (e' & -> & He'). cbn [bind].
  assert (Hk1 : 1 <= k) by (destruct (Z.eq_dec k 0) as [->|]; [cbn in Hn|]; lia).
  assert (H2 : 0 <= n / 2 < 2 ^ (k - 1)).
  { replace k with (Z.succ (k - 1)) in Hn by lia. rewrite Z.pow_succ_r in Hn by lia.
    split; [apply Z.div_pos; lia | apply Z.div_lt_upper_bound; lia]. }
  pose proof (Z.div_mod n 2 ltac:(lia)) as D. rewrite Zmod_odd in D.
  rewrite (cl_arith_evenp_spec e n He), Z.negb_even.
  destruct (Z.odd n).
  - destruct (IH (cl_arith_mul r b) (cl_arith_mul b b) e' (x * y) (y * y) (n / 2) (k - 1))
      as (p & E & R); auto with ints; try lia.
    exists p. split; trivial. replace (x * y ^ n) with (x * y * (y * y) ^ (n / 2)); trivial.
    replace (y * y) with (y ^ 2) by ring. rewrite <- Z.pow_mul_r, <- Z.mul_assoc by lia.
    rewrite <- (Z.pow_succ_r y (2 * (n / 2))) by lia. do 2 f_equal. lia.
  - destruct (IH r (cl_arith_mul b b) e' x (y * y) (n / 2) (k - 1))
      as (p & E & R); auto with ints; try lia.
    exists p. split; trivial. replace (x * y ^ n) with (x * (y * y) ^ (n / 2)); trivial.
    replace (y * y) with (y ^ 2) by ring. rewrite <- Z.pow_mul_r by lia. do 2 f_equal. lia.
Qed.

(** What EXPT of integers returns for a negative exponent: the quotient 1/x^|y|
    truncated, 0 for x = 0 as well. *)
Definition expt_neg (x y : Z) : Z :=
  if x =? 1 then 1 else if x =? -1 then (if Z.even y then 1 else -1) else 0.

Lemma sgn_compare_eqb x y : (sgn_compare x y =? 0) = (x =? y).
Proof. unfold sgn_compare. destruct (Z.compare_spec x y); destruct (Z.eqb_spec x y); trivial; lia. Qed.

Lemma rep_small n : -1073741824 <= n <= 1073741823 -> rep (make_fixnum n) n.
Proof. apply rep_make_fixnum. Qed.

Lemma cl_arith_expt_spec a b x y :
  rep a x -> rep b y ->
  exists p, cl_arith_expt a b = Ok p /\ rep p (if y <? 0 then expt_neg x y else x ^ y).
Proof.
  intros Ha Hb. unfold cl_arith_expt, expt_neg.
  rewrite (cl_arith_minusp_spec b y Hb), (cl_arith_zerop_spec b y Hb).
  rewrite (cl_arith_compare_spec a _ x 1 Ha), (cl_arith_compare_spec a _ x (-1) Ha)
    by (apply rep_small; lia).
  rewrite !sgn_compare_eqb, (cl_arith_evenp_spec b y Hb).
  destruct (Z.ltb_spec y 0).
  - destruct (x =? 1); [|destruct (x =? -1); [destruct (Z.even y)|]];
      eexists; (split; [reflexivity | apply rep_small; lia]).
  - destruct (Z.eqb_spec y 0) as [->|N].
    + eexists; (split; [reflexivity | apply rep_small; lia]).
    + destruct (expt_loop_spec (expt_fuel b) (make_fixnum 1) a b 1 x y (Z.log2 y + 1))
        as (p & E & R); auto; try (apply rep_small; lia).
      * split; [lia|]. pose proof (Z.log2_spec y). unfold Z.succ in *. lia.
      * pose proof (Z.log2_nonneg y). lia.
      * unfold expt_fuel. rewrite (proj2 Hb). pose proof (Z.log2_nonneg y). lia.
      * exists p. rewrite Z.mul_1_l in R. auto.
Qed.

(** ** Shifts *)

Lemma pow2_pos s : 0 <= s -> 0 < 2 ^ s.
Proof. intros. apply Z.pow_pos_nonneg; lia. Qed.
#[local] Hint Resolve pow2_pos : core.

Lemma wf_repeat0 n : wf (repeat 0 n).
Proof. apply Forall_forall. intros x Hx%repeat_spec. lia. Qed.

Lemma val_repeat0_app n l : val (repeat 0 n ++ l) = 65536 ^ Z.of_nat n * val l.
Proof.
  induction n as [|n IH]; cbn [repeat app].
  - change (Z.of_nat 0) with 0. rewrite Z.pow_0_r. lia.
  - rewrite val_cons, IH, Nat2Z.inj_succ, Z.pow_succ_r by lia. lia.
Qed.

Lemma ash_left_loop_spec nl : forall s c,
  wf nl -> 0 < s < 16 -> 0 <= c < 2 ^ s ->
  wf (ash_left_loop nl s c) /\ val (ash_left_loop nl s c) = val nl * 2 ^ s + c /\
  (1 <= length (ash_left_loop nl s c))%nat.
Proof.
  induction nl as [|x nl IH]; intros s c Hw Hs Hc; cbn [ash_left_loop].
  - assert (2 ^ s <= 2 ^ 15) by (apply Z.pow_le_mono_r; lia).
    assert (E : (if negb (c =? 0) then u16 c else 0) = c)
      by (destruct (Z.eqb_spec c 0); cbn [negb]; [lia | apply u16_small; lia]).
    rewrite E, val_cons, val_nil. repeat split; try lia; repeat constructor; lia.
  - apply wfB_cons in Hw. destruct Hw as [Hx Hw].
    assert (2 ^ s <= 2 ^ 15) by (apply Z.pow_le_mono_r; lia).
    pose proof (pow2_pos s ltac:(lia)).
    rewrite u32_small by (rewrite Z.shiftl_mul_pow2 by lia; nia).
    rewrite lor_shiftl_add by lia. words.
    set (v := x * 2 ^ s + c). assert (Hv : 0 <= v < 65536 * 2 ^ s) by (subst v; nia).
    destruct (IH s (v / 65536)) as (W & V & L); trivial.
    { split; [apply Z.div_pos; lia | apply Z.div_lt_upper_bound; lia]. }
    pose proof (Z.mod_pos_bound v 65536). pose proof (Z.div_mod v 65536 ltac:(lia)).
    split; [constructor; trivial; lia|]. split; [|cbn; lia].
    rewrite !val_cons, V. subst v. lia.
Qed.

Lemma shift_split s : 0 <= s -> 2 ^ s = 65536 ^ Z.of_nat (Z.to_nat (s / 16)) * 2 ^ (s mod 16).
Proof.
  intros Hs. rewrite Z2Nat.id by (apply Z.div_pos; lia).
  change 65536 with (2 ^ 16). rewrite <- Z.pow_mul_r by (try apply Z.div_pos; lia).
  pose proof (Z.mod_pos_bound s 16).
  rewrite <- Z.pow_add_r by (try apply Z.mul_nonneg_nonneg; try apply Z.div_pos; lia).
  f_equal. apply Z.div_mod. lia.
Qed.

Lemma rep_strip_limbs l s :
  wf l -> (1 <= length l)%nat -> rep (bignum_from_limbs (strip l) s) (sv s (val l)).
Proof.
  intros Hw Hl. rewrite <- (strip_val 65536 l) by lia.
  apply rep_from_limbs; [apply strip_wf; trivial; lia | now apply strip_canonical].
Qed.

Lemma rep_ash_left a x s : rep a x -> 0 < s -> rep (ash_left a s) (x * 2 ^ s).
Proof.
  intros Ha Hs. unfold ash_left. apply to_limbs_spec in Ha.
  destruct (to_limbs a) as [l sg]. destruct Ha as (W & C & -> & L & _).
  replace (sv sg (val l) * 2 ^ s) with (sv sg (val l * 2 ^ s)) by (destruct sg; cbn; lia).
  rewrite (shift_split s), (Z.mul_comm (65536 ^ _)), Z.mul_assoc by lia.
  pose proof (Z.mod_pos_bound s 16 ltac:(lia)).
  set (ws := Z.to_nat (s / 16)). destruct (Z.eqb_spec (s mod 16) 0) as [E|E].
  - rewrite E, Z.pow_0_r, Z.mul_1_r, Z.mul_comm.
    replace (val l) with (val (l ++ [0])) by (rewrite valB_app, val_cons, val_nil by lia; lia).
    rewrite <- val_repeat0_app. apply rep_strip_limbs.
    + apply wfB_app. split; [apply wf_repeat0|]. apply wfB_app. split; trivial.
      repeat constructor; lia.
    + rewrite !length_app. lia.
  - destruct (ash_left_loop_spec l (s mod 16) 0) as (Wl & Vl & Ll); trivial; [lia|split; auto; lia|].
    rewrite Z.add_0_r in Vl. rewrite <- Vl, Z.mul_comm, <- val_repeat0_app.
    apply rep_strip_limbs.
    + apply wfB_app. split; [apply wf_repeat0 | trivial].
    + rewrite length_app. lia.
Qed.

(** One limb of the right shift. *)
Lemma ash_right_limb x y V s :
  0 <= x < 65536 -> 0 <= y < 65536 -> 0 < s < 16 ->
  let d := x / 2 ^ s + (y * 2 ^ (16 - s)) mod 65536 in
  0 <= d < 65536 /\ d + 65536 * ((y + 65536 * V) / 2 ^ s) = (x + 65536 * (y + 65536 * V)) / 2 ^ s.
Proof.
  intros Hx Hy Hs. cbv zeta. pose proof (pow2_pos s ltac:(lia)) as P.
  pose proof (pow2_pos (16 - s) ltac:(lia)) as Q.
  assert (E : 65536 = 2 ^ (16 - s) * 2 ^ s)
    by (rewrite <- Z.pow_add_r by lia; replace (16 - s + s) with 16 by lia; reflexivity).
  assert (Em : (y * 2 ^ (16 - s)) mod 65536 = 2 ^ (16 - s) * (y mod 2 ^ s))
    by (rewrite E, (Z.mul_comm y), Z.mul_mod_distr_l by lia; reflexivity).
  rewrite Em. clear Em. set (p := 2 ^ s) in *. set (q := 2 ^ (16 - s)) in *. clearbody p q.
  assert (Ey : (y + 65536 * V) mod p = y mod p).
  { rewrite E. replace (y + q * p * V) with (y + q * V * p) by ring. apply Z.mod_add. lia. }
  pose proof (Z.mod_pos_bound y p ltac:(lia)).
  assert (0 <= x / p <= q - 1).
  { split; [apply Z.div_pos; lia|]. assert (x / p < q); [|lia].
    apply Z.div_lt_upper_bound; lia. }
  split; [rewrite E; nia|].
  pose proof (Z.div_mod (y + 65536 * V) p ltac:(lia)) as D. rewrite Ey in D.
  replace (x + 65536 * (y + 65536 * V)) with (x + q * (y + 65536 * V) * p)
    by (replace (q * (y + 65536 * V) * p) with (q * p * (y + 65536 * V)) by ring;
        now rewrite <- E).
  rewrite Z.div_add by lia. set (W := (y + 65536 * V) / p) in *.
  set (T := y + 65536 * V) in *. clearbody T W. rewrite D.
  replace (65536 * W) with (q * p * W) by (rewrite E; ring). ring.
Qed.

Lemma ash_right_loop_spec nl : forall s,
  wf nl -> 0 < s < 16 ->
  wf (ash_right_loop nl s) /\ val (ash_right_loop nl s) = val nl / 2 ^ s /\
  length (ash_right_loop nl s) = length nl.
Proof.
  induction nl as [|x nl IH]; intros s Hw Hs; cbn [ash_right_loop].
  - split; [constructor|]. split; [|reflexivity]. rewrite val_nil, Z.div_0_l; trivial.
    pose proof (pow2_pos s). lia.
  - apply wfB_cons in Hw. destruct Hw as [Hx Hw]. destruct (IH s Hw Hs) as (W & V & L).
    pose proof (pow2_pos s ltac:(lia)). rewrite (shr_div x) by lia.
    assert (Hd : 0 <= x / 2 ^ s < 65536).
    { split; [apply Z.div_pos; lia|]. apply Z.div_lt_upper_bound; [lia|]. nia. }
    destruct nl as [|y nl].
    + rewrite u16_small by lia. split; [repeat constructor; lia|]. split; [|reflexivity].
      rewrite !val_cons, !val_nil, Z.mul_0_r, !Z.add_0_r. reflexivity.
    + apply wfB_cons in Hw. destruct Hw as [Hy Hw].
      destruct (ash_right_limb x y (val nl) s) as [Bd Ed]; trivial.
      assert (E : Z.lor (x / 2 ^ s) (Z.land (u32 (Z.shiftl y (16 - s))) 65535)
                  = x / 2 ^ s + (y * 2 ^ (16 - s)) mod 65536).
      { assert (2 ^ (16 - s) <= 2 ^ 15) by (apply Z.pow_le_mono_r; lia).
        rewrite Z.shiftl_mul_pow2, u32_small, land_ffff by nia || lia.
        assert (E : 65536 = 2 ^ (16 - s) * 2 ^ s)
          by (rewrite <- Z.pow_add_r by lia; replace (16 - s + s) with 16 by lia; reflexivity).
        rewrite E, (Z.mul_comm y), Z.mul_mod_distr_l by lia.
        rewrite (Z.mul_comm (2 ^ (16 - s))), <- Z.shiftl_mul_pow2 by lia.
        rewrite lor_add_shiftl; [now rewrite Z.shiftl_mul_pow2 by lia|lia|].
        split; [lia|]. apply Z.div_lt_upper_bound; lia. }
      rewrite E, u16_small by lia. split; [constructor; trivial|].
      split; [|cbn [length] in *; lia].
      rewrite val_cons, V, !val_cons. exact Ed.
Qed.

Lemma existsb_nonzero l :
  wf l -> existsb (fun d => negb (d =? 0)) l = negb (val l =? 0).
Proof.
  intros W. rewrite <- (forallb_zero l W). induction l as [|d l IH]; [reflexivity|].
  apply wfB_cons in W. cbn. rewrite IH by easy. now rewrite negb_andb.
Qed.

Lemma low_bits_head x V s :
  0 < s < 16 -> (x + 65536 * V) mod 2 ^ s = x mod 2 ^ s.
Proof.
  intros Hs.
  assert (E : 65536 = 2 ^ (16 - s) * 2 ^ s)
    by (rewrite <- Z.pow_add_r by lia; replace (16 - s + s) with 16 by lia; reflexivity).
  rewrite E. replace (x + 2 ^ (16 - s) * 2 ^ s * V) with (x + 2 ^ (16 - s) * V * 2 ^ s) by ring.
  apply Z.mod_add. pose proof (pow2_pos s). lia.
Qed.

(** The bits shifted out: the limbs skipped and the low bits of the next. *)
Lemma shifted_out lo hi k s :
  0 <= lo < 65536 ^ k -> 0 <= hi -> 0 <= s -> 0 <= k ->
  (lo + 65536 ^ k * hi) / (65536 ^ k * 2 ^ s) = hi / 2 ^ s /\
  (lo + 65536 ^ k * hi) mod (65536 ^ k * 2 ^ s) = lo + 65536 ^ k * (hi mod 2 ^ s).
Proof.
  intros Hl Hh Hs Hk. pose proof (pow2_pos s Hs).
  set (P := 65536 ^ k) in *. set (p := 2 ^ s) in *. clearbody P p.
  pose proof (Z.div_mod hi p ltac:(lia)) as D. pose proof (Z.mod_pos_bound hi p ltac:(lia)).
  assert (E : lo + P * hi = P * p * (hi / p) + (lo + P * (hi mod p)))
    by (rewrite D at 1; ring).
  assert (0 <= lo + P * (hi mod p) < P * p) by nia.
  split; symmetry; [apply Z.div_unique with (lo + P * (hi mod p)) |
                    apply Z.mod_unique with (hi / p)]; lia.
Qed.

(** Flooring a signed magnitude. *)
Lemma floor_sv s m P :
  0 < P -> 0 <= m ->
  sv s m / P = if s && negb (m mod P =? 0) then sv s (m / P) - 1 else sv s (m / P).
Proof.
  intros HP Hm. destruct s; cbn [sv andb]; [|reflexivity].
  destruct (Z.eqb_spec (m mod P) 0) as [E|E]; cbn [negb].
  - apply Z.div_opp_l_z; lia.
  - apply Z.div_opp_l_nz; lia.
Qed.

Lemma to_limbs_split l k :
  wf l -> (k < length l)%nat ->
  exists lo x hi, firstn k l = lo /\ nth k l 0 = x /\ skipn k l = x :: hi /\
    length lo = k /\ wf lo /\ wf (x :: hi) /\
    val l = val lo + 65536 ^ Z.of_nat k * val (x :: hi).
Proof.
  intros W H. assert (Lk : length (firstn k l) = k) by (apply firstn_length_le; lia).
  destruct (skipn k l) as [|x hi] eqn:E.
  { apply (f_equal (@length Z)) in E. rewrite length_skipn in E. cbn in E. lia. }
  assert (F : l = firstn k l ++ x :: hi) by (rewrite <- E; symmetry; apply firstn_skipn).
  exists (firstn k l), x, hi.
  split; [reflexivity|]. split.
  { rewrite F, app_nth2, Lk, Nat.sub_diag by lia. reflexivity. }
  split; [reflexivity|]. split; [trivial|]. split; [auto with limbs|].
  split; [rewrite <- E; auto with limbs|].
  rewrite F at 1. now rewrite valB_app, Lk by lia.
Qed.

(** The sticky bit of the right shift. *)
Lemma any_set_spec lo h hi P s :
  0 < P -> 0 <= lo -> 0 <= s < 16 ->
  negb (lo =? 0) || (0 <? s) && negb (Z.land h (Z.shiftl 1 s - 1) =? 0)
  = negb (lo + P * (val (h :: hi) mod 2 ^ s) =? 0).
Proof.
  intros HP Hlo Hs. rewrite Z.shiftl_1_l, land_mask, val_cons by lia.
  destruct (Z.ltb_spec 0 s) as [H0|H0]; cbn [andb].
  - rewrite low_bits_head by lia. pose proof (Z.mod_pos_bound h (2 ^ s) (pow2_pos s ltac:(lia))).
    destruct (Z.eqb_spec lo 0), (Z.eqb_spec (h mod 2 ^ s) 0),
      (Z.eqb_spec (lo + P * (h mod 2 ^ s)) 0); trivial; nia.
  - replace s with 0 by lia. now rewrite Z.pow_0_r, Z.mod_1_r, Z.mul_0_r, Z.add_0_r, orb_false_r.
Qed.

Lemma rep_ash_right a x s : rep a x -> s < 0 -> rep (ash_right a s) (x / 2 ^ (- s)).
Proof.
  intros Ha Hs. unfold ash_right. apply to_limbs_spec in Ha.
  destruct (to_limbs a) as [l sg]. destruct Ha as (W & C & -> & L & Psg).
  pose proof (wf_val_nonneg l W) as Vl. pose proof (pow2_pos (- s) ltac:(lia)) as P0.
  rewrite floor_sv by trivial. rewrite (shift_split (- s)) in P0 |- * by lia.
  pose proof (Z.mod_pos_bound (- s) 16 ltac:(lia)) as Hb.
  set (ws := Z.to_nat (- s / 16)) in *. set (bs := (- s) mod 16) in *. clearbody ws bs.
  pose proof (pow2_pos bs ltac:(lia)).
  destruct (Nat.leb_spec (length l) ws) as [Hw|Hw].
  - pose proof (valB_bound 65536 base16_pos l W) as B.
    assert (65536 ^ Z.of_nat (length l) <= 65536 ^ Z.of_nat ws)
      by (apply Z.pow_le_mono_r; lia).
    assert (0 <= val l < 65536 ^ Z.of_nat ws * 2 ^ bs) by nia.
    rewrite Z.mod_small, Z.div_small by trivial.
    destruct sg; cbn [andb sv]; [|apply rep_small; lia].
    specialize (Psg eq_refl). destruct (Z.eqb_spec (val l) 0); [lia|].
    apply (rep_small (-1)). lia.
  - destruct (to_limbs_split l ws W Hw) as (lo & h & hi & -> & -> & -> & Ll & Wlo & Whi & E).
    pose proof (valB_bound 65536 base16_pos lo Wlo) as B. rewrite Ll in B.
    pose proof (wf_val_nonneg _ Whi) as Vh. pose proof Whi as Wh. apply wfB_cons in Wh.
    destruct (shifted_out (val lo) (val (h :: hi)) (Z.of_nat ws) bs) as [Dq Dm]; trivial; try lia.
    rewrite E, Dq, Dm, existsb_nonzero by trivial.
    set (result := if bs =? 0 then h :: hi else ash_right_loop (h :: hi) bs).
    assert (R : wf result /\ val result = val (h :: hi) / 2 ^ bs /\ (1 <= length result)%nat).
    { subst result. destruct (Z.eqb_spec bs 0) as [->|].
      - rewrite Z.pow_0_r, Z.div_1_r. repeat split; trivial. cbn; lia.
      - destruct (ash_right_loop_spec (h :: hi) bs Whi ltac:(lia)) as (W1 & V1 & L1).
        split; [|split]; trivial. rewrite L1. cbn; lia. }
    destruct R as (Wr & Vr & Lr). clearbody result.
    pose proof (rep_strip_limbs result sg Wr Lr) as R. rewrite Vr in R.
    rewrite (any_set_spec (val lo) h hi (65536 ^ Z.of_nat ws) bs)
      by (try (apply Z.pow_pos_nonneg); lia).
    destruct sg; cbn [andb]; [|exact R].
    destruct (negb _); [|exact R]. apply rep_sub; trivial. apply rep_small; lia.
Qed.

Lemma rep_ash_fixnum v s r :
  fixnum_range v -> s <> 0 -> ash_fixnum v s = Some r -> rep r (Z.shiftl v s).
Proof.
  intros Hv Hs. unfold ash_fixnum. destruct (Z.eqb_spec v 0) as [->|].
  { intros [= <-]. rewrite Z.shiftl_0_l. apply rep_0. }
  destruct (Z.ltb_spec s 0).
  - replace (Z.shiftl v s) with (Z.shiftr v (- s)) by (rewrite <- Z.shiftl_opp_r; f_equal; lia).
    rewrite Z.shiftr_div_pow2 by lia. destruct (Z.geb_spec (- s) 31); intros [= <-].
    + assert (2 ^ 31 <= 2 ^ (- s)) by (apply Z.pow_le_mono_r; lia). fixnums.
      destruct (Z.ltb_spec v 0).
      * replace (v / 2 ^ (- s)) with (-1) by (apply Z.div_unique with (v + 2 ^ (- s)); lia).
        apply rep_small; lia.
      * rewrite Z.div_small by lia. apply rep_small; lia.
    + apply rep_make_fixnum. fixnums. pose proof (pow2_pos (- s) ltac:(lia)).
      pose proof (Z.mul_div_le v (2 ^ (- s))). pose proof (Z.mul_succ_div_gt v (2 ^ (- s))).
      split; nia.
  - destruct (Z.ltb_spec s 31); [|discriminate].
    destruct (fits_fixnum (Z.shiftl v s)) eqn:F; [|discriminate].
    intros [= <-]. apply rep_make_fixnum, fits_fixnum_true, F.
Qed.

(** No object reaches the magnitude a bignum shift count would need. *)
Lemma heap_ok_bound a x k : rep a x -> heap_ok a -> 1073741824 <= k -> Z.abs x < 2 ^ k.
Proof.
  intros [Hw <-] Hh Hk. destruct a as [v|s l]; cbn [int_val].
  - cbn in Hw. apply Z.le_lt_trans with (2 ^ 30); [fixnums; lia|].
    apply Z.pow_lt_mono_r; lia.
  - destruct Hw as (W & C & N). pose proof (valB_bound 65536 base16_pos l W) as B.
    replace (Z.abs (sv s (val l))) with (val l) by (destruct s; cbn [sv]; lia).
    apply Z.lt_le_trans with (65536 ^ Z.of_nat (length l)); [lia|].
    change 65536 with (2 ^ 16). rewrite <- Z.pow_mul_r by lia.
    cbn in Hh. change CL_MAX_BIGNUM_LIMBS with 4194297 in Hh.
    apply Z.pow_le_mono_r; lia.
Qed.

Lemma cl_arith_ash_spec a c x k :
  rep a x -> rep c k -> heap_ok a \/ CL_FIXNUM_MIN <= k -> (k <= CL_FIXNUM_MAX \/ x = 0) ->
  exists r, cl_arith_ash a c = Ok r /\ rep r (Z.shiftl x k).
Proof.
  intros Ha Hc Hh Hk. unfold cl_arith_ash.
  rewrite (cl_arith_minusp_spec c k Hc), (cl_arith_zerop_spec a x Ha),
    (cl_arith_minusp_spec a x Ha).
  destruct c as [s|sg l].
  - destruct Hc as [Hc <-]. cbn [int_val] in *. destruct (Z.eqb_spec s 0) as [->|N].
    { exists a. now rewrite Z.shiftl_0_r. }
    assert (G : rep (if s >? 0 then ash_left a s else ash_right a s) (Z.shiftl x s)).
    { destruct (Z.gtb_spec s 0).
      - rewrite Z.shiftl_mul_pow2 by lia. apply rep_ash_left; trivial.
      - rewrite Z.shiftl_div_pow2 by lia. apply rep_ash_right; trivial. lia. }
    destruct a as [v|sa la]; [|now eexists].
    destruct Ha as [Ha <-]. cbn [int_val] in *.
    destruct (ash_fixnum v s) as [r|] eqn:E; [|now eexists].
    exists r. split; trivial. now apply rep_ash_fixnum.
  - destruct (Z.eqb_spec x 0) as [->|Nx].
    { exists a. rewrite Z.shiftl_0_l. now destruct (k <? 0). }
    destruct Hk as [Hk|]; [|contradiction].
    assert (Hneg : k < CL_FIXNUM_MIN).
    { destruct Hc as [(W & C & N) <-]. pose proof (wf_val_nonneg l W). cbn [int_val] in *.
      destruct sg; cbn [sv] in *; fixnums; lia. }
    fixnums. destruct (Z.ltb_spec k 0); [|lia]. eexists. split; [reflexivity|].
    destruct Hh as [Hh|]; [|lia].
    pose proof (heap_ok_bound a x (- k) Ha Hh ltac:(lia)) as B.
    rewrite Z.shiftl_div_pow2 by lia. revert B. generalize (2 ^ (- k)).
    intros D HD. destruct (Z.ltb_spec x 0).
    + replace (x / D) with (-1) by (apply Z.div_unique with (x + D); lia).
      apply rep_small. lia.
    + rewrite Z.div_small by lia. apply rep_0.
Qed.

(** ** Integer square root *)

(** Newton's iteration on numbers. *)
Fixpoint newton (iters : nat) (n x : Z) : Z :=
  match iters with
  | O => x
  | S k => let x1 := (x + n / x) / 2 in if x1 >=? x then x else newton k n x1
  end.

Lemma geb_sgn x y : (sgn_compare x y >=? 0) = (x >=? y).
Proof. unfold sgn_compare, Z.geb. now destruct (x ?= y). Qed.

Lemma leb_sgn x y : (sgn_compare x y <=? 0) = (x <=? y).
Proof. unfold sgn_compare, Z.leb. now destruct (x ?= y). Qed.

(** The iterates stay above the root. *)
Lemma newton_step_ge n x : 0 < x -> 0 <= n -> Z.sqrt n <= (x + n / x) / 2.
Proof.
  intros Hx Hn. destruct (Z.sqrt_spec n Hn) as [Hl _]. set (r := Z.sqrt n) in *. clearbody r.
  apply Z.div_le_lower_bound; [lia|].
  pose proof (Z.square_nonneg (r - x)).
  assert (2 * r - x <= n / x) by (apply Z.div_le_lower_bound; lia). lia.
Qed.

Lemma newton_stop n x :
  0 < x -> 0 <= n -> Z.sqrt n <= x -> x <= (x + n / x) / 2 -> x = Z.sqrt n.
Proof.
  intros Hx Hn Hs H. assert (x <= n / x) by (pose proof (Z.mul_div_le (x + n / x) 2 ltac:(lia)); lia).
  pose proof (Z.mul_div_le n x Hx). assert (x * x <= n) by nia.
  pose proof (proj1 (Z.sqrt_le_square n x Hn (Z.lt_le_incl _ _ Hx)) H2). lia.
Qed.

(** Quadratic convergence: with R = sqrt(n) + 1, the error x - R is squared
    and divided by 2R at each round. *)
Lemma newton_step_le n x E :
  0 < x -> 0 <= n -> 0 < E ->
  let R := Z.sqrt n + 1 in
  R <= x -> (x - R) * E <= 2 * R ->
  ((x + n / x) / 2 - R) * (E * E) <= 2 * R.
Proof.
  intros Hx Hn HE R HR H. destruct (Z.sqrt_spec n Hn) as [_ Hu].
  unfold Z.succ in Hu. fold R in Hu.
  assert (HR0 : 0 < R) by (pose proof (Z.sqrt_nonneg n); lia). clearbody R.
  set (x1 := (x + n / x) / 2).
  assert (H1 : 2 * x1 <= x + n / x) by (subst x1; apply Z.mul_div_le; lia).
  pose proof (Z.mul_div_le n x Hx) as H2.
  pose proof (Z.mul_le_mono_nonneg_l _ _ x ltac:(lia) H1) as Hm.
  assert (H3 : 2 * x * (x1 - R) <= (x - R) * (x - R)) by lia.
  destruct (Z.le_gt_cases (x1 - R) 0) as [Hle|Hgt]; [nia|].
  assert (H4 : 2 * R * (x1 - R) <= (x - R) * (x - R)) by nia.
  assert (H5 : 2 * R * ((x1 - R) * (E * E)) <= ((x - R) * E) * ((x - R) * E)) by nia.
  assert (0 <= (x - R) * E) by nia. nia.
Qed.

(** Once x <= R, two more rounds finish. *)
Lemma newton_finish iters n x :
  0 < n -> Z.sqrt n <= x <= Z.sqrt n + 1 -> (2 <= iters)%nat -> newton iters n x = Z.sqrt n.
Proof.
  intros Hn Hx Hi. destruct (Z.sqrt_spec n ltac:(lia)) as [Hl Hu].
  assert (Hr : 0 < Z.sqrt n) by (apply Z.sqrt_pos; lia).
  destruct iters as [|[|k]]; try lia.
  assert (F : forall j, newton (S j) n (Z.sqrt n) = Z.sqrt n).
  { intros j. cbn [newton]. destruct (Z.geb_spec ((Z.sqrt n + n / Z.sqrt n) / 2) (Z.sqrt n));
      trivial. pose proof (newton_step_ge n (Z.sqrt n) Hr ltac:(lia)). lia. }
  destruct (Z.eq_dec x (Z.sqrt n)) as [->|N]; [apply F|].
  replace x with (Z.sqrt n + 1) by lia. cbn [newton]. set (r := Z.sqrt n) in *.
  assert (n / (r + 1) < r + 1) by (apply Z.div_lt_upper_bound; lia).
  assert ((r + 1 + n / (r + 1)) / 2 < r + 1) by (apply Z.div_lt_upper_bound; lia).
  destruct (Z.geb_spec ((r + 1 + n / (r + 1)) / 2) (r + 1)); [lia|].
  pose proof (newton_step_ge n (r + 1) ltac:(lia) ltac:(lia)). fold r in H2.
  replace ((r + 1 + n / (r + 1)) / 2) with r by lia. apply F.
Qed.

Lemma newton_converges m : forall iters n x E,
  0 < n -> Z.sqrt n <= x -> 0 < E -> (x - (Z.sqrt n + 1)) * E <= 2 * (Z.sqrt n + 1) ->
  2 * (Z.sqrt n + 1) < E ^ (2 ^ Z.of_nat m) -> (m + 2 <= iters)%nat ->
  newton iters n x = Z.sqrt n.
Proof.
  induction m as [|m IH]; intros iters n x E Hn Hx HE H Hm Hi.
  - change (2 ^ Z.of_nat 0) with 1 in Hm. rewrite Z.pow_1_r in Hm.
    apply newton_finish; trivial. pose proof (Z.sqrt_nonneg n). nia.
  - destruct (Z.le_gt_cases x (Z.sqrt n + 1)) as [Hs|Hs].
    { apply newton_finish; trivial; lia. }
    destruct iters as [|k]; [lia|]. cbn [newton]. pose proof (Z.sqrt_nonneg n).
    destruct (Z.geb_spec ((x + n / x) / 2) x).
    + apply newton_stop; lia.
    + apply IH with (E * E); trivial; try lia.
      * apply newton_step_ge; lia.
      * apply newton_step_le; lia.
      * rewrite Nat2Z.inj_succ, Z.pow_succ_r, Z.pow_mul_r, Z.pow_2_r in Hm; trivial; lia.
Qed.

(** From the starting point 2^k >= sqrt(n) / 2 of cl_arith_isqrt. *)
Lemma newton_from_pow2 m iters n k :
  0 < n -> 0 <= k -> Z.sqrt n <= 2 ^ k <= 2 * (Z.sqrt n + 1) -> k + 2 < 2 ^ Z.of_nat m ->
  (m + 2 <= iters)%nat -> newton iters n (2 ^ k) = Z.sqrt n.
Proof.
  intros Hn Hk Hx Hm Hi. apply newton_converges with (m := m) (E := 2); trivial; try lia.
  apply Z.le_lt_trans with (2 ^ (k + 2)).
  - rewrite Z.pow_add_r by lia. change (2 ^ 2) with 4. pose proof (pow2_pos k Hk). lia.
  - apply Z.pow_lt_mono_r; lia.
Qed.

Lemma isqrt_newton_spec iters : forall a b n x,
  rep a n -> rep b x -> 0 < n -> Z.sqrt n <= x ->
  exists r, isqrt_newton iters a b = Ok r /\ rep r (newton iters n x).
Proof.
  induction iters as [|k IH]; intros a b n x Ha Hb Hn Hx; cbn [isqrt_newton newton].
  { now exists b. }
  assert (0 < Z.sqrt n) by (apply Z.sqrt_pos; lia).
  destruct (cl_arith_truncate_spec a b n x) as (q & -> & Hq); trivial; try lia. cbn [bind].
  rewrite Z.quot_div_nonneg in Hq by lia.
  assert (0 <= n / x) by (apply Z.div_pos; lia).
  destruct (truncate_2 (cl_arith_add b q) (x + n / x)) as (x1 & -> & H1); auto with ints;
    [lia|]. cbn [bind].
  rewrite (cl_arith_compare_spec x1 b _ x H1 Hb), geb_sgn.
  destruct (Z.geb_spec ((x + n / x) / 2) x); [now exists b|].
  apply IH; trivial. apply newton_step_ge; lia.
Qed.

Lemma integer_length_bound a x :
  rep a x -> heap_ok a -> 0 < x ->
  0 < integer_length x <= 67108752 /\ 2 ^ (integer_length x - 1) <= x < 2 ^ integer_length x.
Proof.
  intros Ha Hh Hx. unfold integer_length. destruct (Z.ltb_spec x 0); [lia|].
  unfold bits_of. destruct (Z.eqb_spec x 0); [lia|].
  pose proof (Z.log2_nonneg x). pose proof (Z.log2_spec x Hx) as [Hl Hu].
  unfold Z.succ in Hu. rewrite Z.add_simpl_r. split; [split; [lia|]|lia].
  assert (K : forall k, 67108752 <= k -> Z.log2 x < k); [|specialize (K 67108752); lia].
  intros k Hk. apply Z.log2_lt_pow2; [exact Hx|].
  destruct Ha as [Hw <-]. destruct a as [v|s l]; cbn [int_val] in *.
  - cbn in Hw. apply Z.le_lt_trans with (2 ^ 30); [fixnums; lia|].
    apply Z.pow_lt_mono_r; lia.
  - destruct Hw as (W & C & N). pose proof (valB_bound 65536 base16_pos l W) as B.
    destruct s; cbn [sv] in *; [lia|].
    apply Z.lt_le_trans with (65536 ^ Z.of_nat (length l)); [lia|].
    change 65536 with (2 ^ 16). rewrite <- Z.pow_mul_r by lia.
    cbn in Hh. change CL_MAX_BIGNUM_LIMBS with 4194297 in Hh.
    apply Z.pow_le_mono_r; lia.
Qed.

(** The starting point is within a factor two above the root. *)
Lemma isqrt_start n b :
  0 < b -> 2 ^ (b - 1) <= n < 2 ^ b ->
  Z.sqrt n <= 2 ^ ((b + 1) / 2) <= 2 * (Z.sqrt n + 1).
Proof.
  intros Hb Hn. set (k := (b + 1) / 2). assert (Hk : b <= 2 * k <= b + 1) by (subst k; divmod; lia).
  clearbody k. pose proof (pow2_pos k ltac:(lia)) as P.
  assert (E : 2 ^ (2 * k) = 2 ^ k * 2 ^ k) by (rewrite <- Z.pow_add_r by lia; f_equal; lia).
  assert (2 ^ b <= 2 ^ (2 * k)) by (apply Z.pow_le_mono_r; lia).
  assert (E4 : 2 ^ (2 * k) <= 4 * 2 ^ (b - 1)).
  { change 4 with (2 ^ 2). rewrite <- Z.pow_add_r by lia. apply Z.pow_le_mono_r; lia. }
  pose proof (pow2_pos (b - 1) ltac:(lia)).
  destruct (Z.sqrt_spec n ltac:(lia)) as [Hl Hu]. pose proof (Z.sqrt_nonneg n). unfold Z.succ in Hu.
  set (r := Z.sqrt n) in *. set (p := 2 ^ k) in *. clearbody r p. split; nia.
Qed.

(** 1000 rounds always converge, so the final search loop tests once and
    never steps: one unit of fuel is enough. *)
Lemma cl_arith_isqrt_spec fuel a n :
  rep a n -> heap_ok a -> 0 <= n -> (1 <= fuel)%nat ->
  exists r, cl_arith_isqrt fuel a = Some (Ok r) /\ rep r (Z.sqrt n).
Proof.
  intros Ha Hh Hn Hf. unfold cl_arith_isqrt.
  rewrite (cl_arith_minusp_spec a n Ha), (cl_arith_zerop_spec a n Ha).
  destruct (Z.ltb_spec n 0); [lia|]. destruct (Z.eqb_spec n 0) as [->|N].
  { eexists. split; [reflexivity | apply rep_0]. }
  rewrite (cl_arith_integer_length_spec a n Ha).
  destruct (integer_length_bound a n Ha Hh ltac:(lia)) as [Bb Bn].
  set (b := integer_length n) in *. clearbody b. pose proof (isqrt_start n b ltac:(lia) Bn) as Hs.
  assert (Hk : 0 <= (b + 1) / 2 <= 33554377) by (divmod; lia). set (k := (b + 1) / 2) in *.
  clearbody k.
  destruct (cl_arith_ash_spec (make_fixnum 1) (make_fixnum k) 1 k) as (x & -> & Hx);
    [apply rep_small; lia | apply rep_small; lia | left; exact I | fixnums; lia | idtac].
  cbn [bind]. rewrite Z.shiftl_1_l in Hx.
  destruct (isqrt_newton_spec 1000 a x n (2 ^ k) Ha Hx) as (r & -> & Hr); [lia|lia|].
  rewrite (newton_from_pow2 27 1000) in Hr
    by (change (2 ^ Z.of_nat 27) with 134217728; lia || exact Hs).
  exists r. split; trivial. destruct fuel as [|f]; [lia|]. cbn [isqrt_settle].
  rewrite (cl_arith_compare_spec _ a (Z.sqrt n * Z.sqrt n) n), leb_sgn by auto with ints.
  destruct (Z.sqrt_spec n Hn) as [Hl _]. destruct (Z.leb_spec (Z.sqrt n * Z.sqrt n) n);
    [reflexivity | lia].
Qed.

(** ** Two's complement *)

(** The operator on numbers and on bits. *)
Definition zop (op : BignumBitop) : Z -> Z -> Z :=
  match op with BITOP_AND => Z.land | BITOP_IOR => Z.lor | BITOP_XOR => Z.lxor end.

Definition bop (op : BignumBitop) : bool -> bool -> bool :=
  match op with BITOP_AND => andb | BITOP_IOR => orb | BITOP_XOR => xorb end.

Lemma zop_testbit op x y i :
  Z.testbit (zop op x y) i = bop op (Z.testbit x i) (Z.testbit y i).
Proof. destruct op; [apply Z.land_spec | apply Z.lor_spec | apply Z.lxor_spec]. Qed.

Lemma bop_false op : bop op false false = false.
Proof. now destruct op. Qed.

Lemma zop_mod op x y k : 0 <= k -> zop op x y mod 2 ^ k = zop op (x mod 2 ^ k) (y mod 2 ^ k).
Proof.
  intros Hk. apply Z.bits_inj'. intros i Hi. rewrite zop_testbit.
  destruct (Z.lt_ge_cases i k).
  - rewrite !Z.mod_pow2_bits_low, zop_testbit by lia. reflexivity.
  - rewrite !Z.mod_pow2_bits_high, bop_false by lia. reflexivity.
Qed.

Lemma zop_shiftr op x y k : Z.shiftr (zop op x y) k = zop op (Z.shiftr x k) (Z.shiftr y k).
Proof. destruct op; [apply Z.shiftr_land | apply Z.shiftr_lor | apply Z.shiftr_lxor]. Qed.

(** A signed word of [k] bits and a sign. *)
Lemma signed_range x k : 0 <= k -> - 2 ^ k <= x < 2 ^ k <-> Z.shiftr x k = 0 \/ Z.shiftr x k = -1.
Proof.
  intros Hk. rewrite Z.shiftr_div_pow2 by trivial. pose proof (pow2_pos k Hk).
  pose proof (Z.div_mod x (2 ^ k) ltac:(lia)). pose proof (Z.mod_pos_bound x (2 ^ k) ltac:(lia)).
  split; [|intros [E|E]; rewrite E in *; lia].
  intros Hx. destruct (Z.lt_ge_cases x 0).
  - right. symmetry. apply Z.div_unique with (x + 2 ^ k); lia.
  - left. apply Z.div_small. lia.
Qed.

Lemma zop_range op x y k :
  0 <= k -> - 2 ^ k <= x < 2 ^ k -> - 2 ^ k <= y < 2 ^ k -> - 2 ^ k <= zop op x y < 2 ^ k.
Proof.
  intros Hk Hx%signed_range Hy%signed_range; trivial. apply signed_range; trivial.
  rewrite zop_shiftr. destruct Hx as [-> | ->], Hy as [-> | ->]; destruct op; cbn; auto.
Qed.

(** Limb by limb. *)
Lemma zop_limb_range op x y :
  0 <= x < 65536 -> 0 <= y < 65536 -> 0 <= zop op x y < 65536.
Proof.
  intros Hx Hy. pose proof (zop_mod op x y 16 ltac:(lia)) as E. change (2 ^ 16) with 65536 in E.
  rewrite (Z.mod_small x), (Z.mod_small y) in E by lia. rewrite <- E. apply Z.mod_pos_bound. lia.
Qed.

Lemma bitop_limb_spec op x y :
  0 <= x < 65536 -> 0 <= y < 65536 -> bitop_limb op x y = zop op x y.
Proof.
  intros Hx Hy. pose proof (zop_limb_range op x y Hx Hy).
  destruct op; cbn [bitop_limb zop] in *; now rewrite u16_small.
Qed.

Lemma zop_cons op x y X Y :
  0 <= x < 65536 -> 0 <= y < 65536 ->
  zop op (x + 65536 * X) (y + 65536 * Y) = zop op x y + 65536 * zop op X Y.
Proof.
  intros Hx Hy. set (a := x + 65536 * X). set (b := y + 65536 * Y).
  pose proof (Z.div_mod (zop op a b) 65536 ltac:(lia)) as D.
  pose proof (zop_mod op a b 16 ltac:(lia)) as E1. change (2 ^ 16) with 65536 in E1.
  pose proof (zop_shiftr op a b 16) as E2. rewrite !shr16 in E2.
  assert (a mod 65536 = x /\ a / 65536 = X) as [Ea Ea']
    by (subst a; split; symmetry; [apply Z.mod_unique with X | apply Z.div_unique with x]; lia).
  assert (b mod 65536 = y /\ b / 65536 = Y) as [Eb Eb']
    by (subst b; split; symmetry; [apply Z.mod_unique with Y | apply Z.div_unique with y]; lia).
  rewrite Ea, Eb in E1. rewrite Ea', Eb' in E2. lia.
Qed.

Lemma val_map_bitop op (g h : nat -> Z) l :
  (forall i, 0 <= g i < 65536) -> (forall i, 0 <= h i < 65536) ->
  val (map (fun i => bitop_limb op (g i) (h i)) l) = zop op (val (map g l)) (val (map h l)) /\
  wf (map (fun i => bitop_limb op (g i) (h i)) l).
Proof.
  intros Hg Hh. induction l as [|i l [IH W]]; cbn [map].
  - split; [now destruct op | constructor].
  - rewrite bitop_limb_spec, !val_cons, IH, zop_cons by trivial. split; [reflexivity|].
    constructor; [now apply zop_limb_range | exact W].
Qed.

(** *** Negation of a limb array *)

Lemma lxor_ffff d : 0 <= d < 65536 -> Z.lxor d 65535 = 65535 - d.
Proof.
  intros Hd. enough (d + Z.lxor d 65535 = 65535) by lia.
  assert (E : Z.land d (Z.lxor d 65535) = 0).
  { apply Z.bits_inj'. intros n Hn. rewrite Z.land_spec, Z.lxor_spec, Z.bits_0.
    change 65535 with (Z.ones 16). destruct (Z.lt_ge_cases n 16).
    - rewrite Z.ones_spec_low by lia. now destruct (Z.testbit d n).
    - rewrite (proj2 (proj1 (bits_bound d 16 ltac:(lia)) Hd) n) by lia. reflexivity. }
  rewrite Z.add_nocarry_lxor by exact E. now rewrite <- Z.lxor_assoc, Z.lxor_nilpotent, Z.lxor_0_l.
Qed.

Lemma invert_loop_spec buf : forall carry,
  wf buf -> 0 <= carry <= 1 ->
  wf (invert_loop buf carry) /\ length (invert_loop buf carry) = length buf /\
  exists out, 0 <= out <= 1 /\
    val (invert_loop buf carry) + out * 65536 ^ Z.of_nat (length buf)
    = 65536 ^ Z.of_nat (length buf) - 1 - val buf + carry.
Proof.
  induction buf as [|d buf IH]; intros carry Hw Hc; cbn [invert_loop length].
  - split; [constructor|]. split; [reflexivity|]. exists carry.
    change (Z.of_nat 0) with 0. rewrite Z.pow_0_r, val_nil. lia.
  - apply wfB_cons in Hw. destruct Hw as [Hd Hw]. rewrite lxor_ffff by lia.
    rewrite u32_small by lia. words. set (v := 65535 - d + carry).
    assert (0 <= v / 65536 <= 1) by (subst v; divmod; lia).
    destruct (IH (v / 65536)) as (W & L & out & Ho & E); trivial.
    pose proof (Z.mod_pos_bound v 65536). pose proof (Z.div_mod v 65536 ltac:(lia)).
    split; [constructor; trivial; lia|]. split; [cbn [length]; lia|].
    exists out. split; trivial. rewrite !val_cons, Nat2Z.inj_succ, Z.pow_succ_r by lia.
    subst v. lia.
Qed.

(** The two's complement of a non-zero array. *)
Lemma val_invert buf :
  wf buf -> 0 < val buf ->
  val (invert_loop buf 1) = 65536 ^ Z.of_nat (length buf) - val buf /\
  wf (invert_loop buf 1) /\ length (invert_loop buf 1) = length buf.
Proof.
  intros W Hv. destruct (invert_loop_spec buf 1 W ltac:(lia)) as (W' & L & out & Ho & E).
  split; [|now split]. pose proof (wf_val_nonneg _ W').
  destruct (Z.eq_dec out 0) as [->|]; [lia|]. replace out with 1 in E by lia. lia.
Qed.

(** *** Conversions *)

(** What to_twos_complement builds when the buffer is large enough. *)
Lemma to_twos_complement_spec a x size :
  rep a x -> (length (fst (to_limbs a)) + 1 <= size)%nat ->
  let '(buf, neg) := to_twos_complement a size in
  let n := length (fst (to_limbs a)) in
  wf buf /\ length buf = (n + 1)%nat /\ neg = (x <? 0) /\
  val buf = x mod 65536 ^ Z.of_nat (n + 1) /\
  - 65536 ^ Z.of_nat n <= x < 65536 ^ Z.of_nat n.
Proof.
  intros Ha. apply to_limbs_spec in Ha. unfold to_twos_complement.
  destruct (to_limbs a) as [l s]. destruct Ha as (W & C & -> & L & P). cbn [fst]. intros Hs.
  destruct (Nat.ltb_spec size (length l + 1)); [lia|].
  destruct (Nat.ltb_spec size (length l + 1)); [lia|].
  rewrite firstn_all. replace (length l + 1 - length l)%nat with 1%nat by lia. cbn [repeat].
  pose proof (valB_bound 65536 base16_pos l W) as B.
  assert (W' : wf (l ++ [0])) by (apply wfB_app; split; trivial; repeat constructor; lia).
  assert (V' : val (l ++ [0]) = val l) by (rewrite valB_app, val_cons, val_nil by lia; lia).
  assert (L' : length (l ++ [0]) = (length l + 1)%nat) by (now rewrite length_app).
  rewrite Nat2Z.inj_add, Z.pow_add_r by lia. change (65536 ^ Z.of_nat 1) with 65536.
  set (M := 65536 ^ Z.of_nat (length l)) in *.
  destruct s; cbn [sv].
  - specialize (P eq_refl). destruct (val_invert (l ++ [0]) W') as (Vi & Wi & Li); [lia|].
    rewrite Vi, Li, V', L', Nat2Z.inj_add, Z.pow_add_r by lia.
    change (65536 ^ Z.of_nat 1) with 65536. fold M.
    split; [trivial|]. split; [trivial|].
    split; [symmetry; apply Z.ltb_lt; lia|]. split; [|lia].
    apply Z.mod_unique with (-1); lia.
  - split; [trivial|]. split; [trivial|].
    split; [symmetry; apply Z.ltb_ge; lia|]. rewrite V', Z.mod_small by lia. lia.
Qed.

Lemma land_bit d k : 0 <= k -> Z.land d (2 ^ k) = if Z.testbit d k then 2 ^ k else 0.
Proof.
  intros Hk. apply Z.bits_inj'. intros i Hi. rewrite Z.land_spec, Z.pow2_bits_eqb by lia.
  destruct (Z.eqb_spec k i) as [->|N].
  - destruct (Z.testbit d i); [now rewrite Z.pow2_bits_true | now rewrite Z.bits_0].
  - rewrite andb_false_r.
    destruct (Z.testbit d k); [now rewrite Z.pow2_bits_false | now rewrite Z.bits_0].
Qed.

(** The sign test on the top limb. *)
Lemma top_bit_spec buf :
  wf buf -> (1 <= length buf)%nat ->
  negb (Z.land (last buf 0) 32768 =? 0) = (65536 ^ Z.of_nat (length buf) <=? 2 * val buf).
Proof.
  intros W L. destruct (split_last buf (length buf - 1)) as (t & d & E & Lt); [lia|].
  assert (Wt := W). rewrite E in Wt. apply wfB_app in Wt. destruct Wt as [Wt Wd].
  apply wfB_cons in Wd. destruct Wd as [Wd _].
  pose proof (valB_bound 65536 base16_pos t Wt) as B.
  rewrite E, last_last, length_app, valB_app, val_cons, val_nil by lia.
  rewrite Nat2Z.inj_add, Z.pow_add_r by lia. change (65536 ^ Z.of_nat (length [d])) with 65536.
  set (M := 65536 ^ Z.of_nat (length t)) in *.
  change 32768 with (2 ^ 15). rewrite land_bit by lia.
  assert (T : Z.testbit d 15 = (32768 <=? d)).
  { rewrite Z.testbit_odd, shr_div by lia. change (2 ^ 15) with 32768.
    destruct (Z.leb_spec 32768 d).
    - replace (d / 32768) with 1 by (apply Z.div_unique with (d - 32768); lia). reflexivity.
    - rewrite Z.div_small by lia. reflexivity. }
  rewrite T. destruct (Z.leb_spec 32768 d); symmetry; [apply Z.leb_le | apply Z.leb_gt]; nia.
Qed.

Lemma rep_from_twos_complement buf z :
  wf buf -> (1 <= length buf)%nat ->
  val buf = z mod 65536 ^ Z.of_nat (length buf) ->
  - 65536 ^ Z.of_nat (length buf) <= 2 * z < 65536 ^ Z.of_nat (length buf) ->
  rep (from_twos_complement buf) z.
Proof.
  intros W L V Hz. unfold from_twos_complement. rewrite top_bit_spec by trivial.
  set (M := 65536 ^ Z.of_nat (length buf)) in *.
  destruct (Z.lt_ge_cases z 0) as [Hn|Hp].
  - assert (E : val buf = z + M) by (rewrite V; symmetry; apply Z.mod_unique with (-1); lia).
    destruct (Z.leb_spec M (2 * val buf)); [|lia]. cbn [negb].
    destruct (val_invert buf W) as (Vi & Wi & Li); [lia|]. fold M in Vi.
    replace z with (sv true (val (invert_loop buf 1))) by (cbn [sv]; lia).
    apply rep_strip_limbs; trivial. lia.
  - rewrite Z.mod_small in V by lia. destruct (Z.leb_spec M (2 * val buf)); [lia|]. cbn [negb].
    rewrite <- V. apply (rep_strip_limbs buf false); trivial.
Qed.

(** Sign extension of a buffer to [n] limbs. *)
Lemma sign_extend buf x n :
  wf buf -> val buf = x mod 65536 ^ Z.of_nat (length buf) ->
  - 65536 ^ Z.of_nat (length buf) <= x < 65536 ^ Z.of_nat (length buf) ->
  (length buf <= n)%nat ->
  val (map (fun i => if (i <? length buf)%nat then nth i buf 0
                     else if x <? 0 then 65535 else 0) (seq 0 n))
  = x mod 65536 ^ Z.of_nat n.
Proof.
  intros W V Hx Hn. set (ext := if x <? 0 then 65535 else 0).
  set (f := fun i => _).
  assert (E : map f (seq 0 n) = buf ++ repeat ext (n - length buf)).
  { apply nth_ext with (d := f 0%nat) (d' := ext).
    - rewrite length_map, length_seq, length_app, repeat_length. lia.
    - rewrite length_map, length_seq. intros i Hi. rewrite map_nth, seq_nth by trivial.
      cbn [Nat.add]. subst f. cbv beta. destruct (Nat.ltb_spec i (length buf)).
      + rewrite app_nth1 by trivial. now apply nth_indep.
      + rewrite app_nth2, nth_repeat by lia. reflexivity. }
  rewrite E, valB_app, V by lia.
  replace (Z.of_nat n) with (Z.of_nat (length buf) + Z.of_nat (n - length buf)) by lia.
  rewrite Z.pow_add_r by lia. set (k := (n - length buf)%nat). set (M := 65536 ^ _) in *.
  assert (Er : val (repeat ext k) = if x <? 0 then 65536 ^ Z.of_nat k - 1 else 0).
  { subst ext. clear. induction k as [|k IH]; cbn [repeat].
    - change (Z.of_nat 0) with 0. rewrite Z.pow_0_r. now destruct (x <? 0).
    - rewrite val_cons, IH, Nat2Z.inj_succ, Z.pow_succ_r by lia. destruct (x <? 0); lia. }
  rewrite Er. assert (0 < 65536 ^ Z.of_nat k) by (apply Z.pow_pos_nonneg; lia).
  destruct (Z.ltb_spec x 0).
  - replace (x mod M) with (x + M) by (apply Z.mod_unique with (-1); lia).
    apply Z.mod_unique with (-1); nia.
  - rewrite !Z.mod_small by nia. lia.
Qed.

Lemma ext_range buf x i :
  wf buf -> 0 <= (if (i <? length buf)%nat then nth i buf 0
                  else if x <? 0 then 65535 else 0) < 65536.
Proof.
  intros W. destruct (Nat.ltb_spec i (length buf)).
  - pose proof (proj1 (Forall_forall _ _) W (nth i buf 0) (nth_In _ _ H)) as R. exact R.
  - destruct (x <? 0); lia.
Qed.

Lemma rep_bitop op a b x y :
  rep a x -> rep b y -> rep (bignum_bitop a b op) (zop op x y).
Proof.
  intros Ha Hb. unfold bignum_bitop.
  set (n := length (fst (to_limbs a))). set (m := length (fst (to_limbs b))).
  set (need := ((if (m <? n)%nat then n else m) + 1)%nat).
  assert (Hneed : (n + 1 <= need /\ m + 1 <= need)%nat)
    by (subst need; destruct (Nat.ltb_spec m n); lia).
  pose proof (to_twos_complement_spec a x need Ha) as Sa.
  pose proof (to_twos_complement_spec b y need Hb) as Sb. fold n in Sa. fold m in Sb.
  destruct (to_twos_complement a need) as [ba na], (to_twos_complement b need) as [bb nb].
  destruct Sa as (Wa & La & -> & Va & Ra); [lia|]. destruct Sb as (Wb & Lb & -> & Vb & Rb); [lia|].
  set (len := if (length bb <? length ba)%nat then length ba else length bb).
  assert (Hlen : (len = Nat.max n m + 1)%nat)
    by (subst len; destruct (Nat.ltb_spec (length bb) (length ba)); lia).
  clearbody len.
  pose (g := fun i => if (i <? length ba)%nat then nth i ba 0 else if x <? 0 then 65535 else 0).
  pose (h := fun i => if (i <? length bb)%nat then nth i bb 0 else if y <? 0 then 65535 else 0).
  change (rep (from_twos_complement (map (fun i => bitop_limb op (g i) (h i)) (seq 0 len)))
              (zop op x y)).
  destruct (val_map_bitop op g h (seq 0 len)) as [V W];
    [intros i; now apply ext_range | intros i; now apply ext_range|].
  assert (L : length (map (fun i => bitop_limb op (g i) (h i)) (seq 0 len)) = len)
    by (now rewrite length_map, length_seq).
  assert (Mn : 65536 ^ Z.of_nat n <= 65536 ^ (Z.of_nat len - 1)) by (apply Z.pow_le_mono_r; lia).
  assert (Mm : 65536 ^ Z.of_nat m <= 65536 ^ (Z.of_nat len - 1)) by (apply Z.pow_le_mono_r; lia).
  assert (Mn' : 65536 ^ Z.of_nat n <= 65536 ^ Z.of_nat (n + 1)) by (apply Z.pow_le_mono_r; lia).
  assert (Mm' : 65536 ^ Z.of_nat m <= 65536 ^ Z.of_nat (m + 1)) by (apply Z.pow_le_mono_r; lia).
  assert (P16 : forall k, 65536 ^ Z.of_nat k = 2 ^ (16 * Z.of_nat k))
    by (intros k; change 65536 with (2 ^ 16); now rewrite <- Z.pow_mul_r by lia).
  apply rep_from_twos_complement; trivial; rewrite L; [lia| |].
  - rewrite V. subst g h. rewrite (sign_extend ba x), (sign_extend bb y)
      by (rewrite ?La, ?Lb; trivial; lia).
    rewrite P16, zop_mod by lia. reflexivity.
  - assert (El : 65536 ^ Z.of_nat len = 65536 * 65536 ^ (Z.of_nat len - 1))
      by (rewrite <- (Z.pow_succ_r 65536) by lia; f_equal; lia).
    assert (E2 : 65536 ^ (Z.of_nat len - 1) = 2 ^ (16 * (Z.of_nat len - 1)))
      by (change 65536 with (2 ^ 16); now rewrite <- Z.pow_mul_r by lia).
    pose proof (zop_range op x y (16 * (Z.of_nat len - 1)) ltac:(lia)) as R.
    rewrite <- E2 in R. rewrite El. specialize (R ltac:(lia) ltac:(lia)). lia.
Qed.

(** Fixnums: the result of the word operation is a fixnum. *)
Lemma rep_zop_fixnum op v w :
  fixnum_range v -> fixnum_range w -> rep (make_fixnum (zop op v w)) (zop op v w).
Proof.
  intros Hv Hw. apply rep_make_fixnum. fixnums.
  pose proof (zop_range op v w 30 ltac:(lia)). lia.
Qed.

Lemma rep_logand a b x y : rep a x -> rep b y -> rep (cl_arith_logand a b) (Z.land x y).
Proof.
  intros Ha Hb. pose proof (rep_bitop BITOP_AND a b x y Ha Hb) as R.
  destruct a, b; try exact R. destruct Ha as [Ha <-], Hb as [Hb <-].
  now apply (rep_zop_fixnum BITOP_AND).
Qed.

Lemma rep_logior a b x y : rep a x -> rep b y -> rep (cl_arith_logior a b) (Z.lor x y).
Proof.
  intros Ha Hb. pose proof (rep_bitop BITOP_IOR a b x y Ha Hb) as R.
  destruct a, b; try exact R. destruct Ha as [Ha <-], Hb as [Hb <-].
  now apply (rep_zop_fixnum BITOP_IOR).
Qed.

Lemma rep_logxor a b x y : rep a x -> rep b y -> rep (cl_arith_logxor a b) (Z.lxor x y).
Proof.
  intros Ha Hb. pose proof (rep_bitop BITOP_XOR a b x y Ha Hb) as R.
  destruct a, b; try exact R. destruct Ha as [Ha <-], Hb as [Hb <-].
  now apply (rep_zop_fixnum BITOP_XOR).
Qed.

Lemma rep_lognot a x : rep a x -> rep (cl_arith_lognot a) (Z.lnot x).
Proof.
  intros Ha. unfold cl_arith_lognot, Z.lnot. replace (Z.pred (- x)) with (-1 - x) by lia.
  apply rep_sub; trivial. apply rep_small; lia.
Qed.
#[export] Hint Resolve rep_logand rep_logior rep_logxor rep_lognot : ints.

(** ** Counting bits *)

(** The number of one bits of a non-negative number. *)
Fixpoint pos_popcount (p : positive) : Z :=
  match p with
  | xH => 1
  | xO q => pos_popcount q
  | xI q => 1 + pos_popcount q
  end.

Definition popcount (z : Z) : Z := match z with Zpos p => pos_popcount p | _ => 0 end.

Lemma popcount_double x : popcount (2 * x) = popcount x.
Proof. now destruct x. Qed.

Lemma popcount_succ_double x : 0 <= x -> popcount (2 * x + 1) = 1 + popcount x.
Proof. intros H. destruct x; try lia; reflexivity. Qed.

Lemma popcount_nonneg x : 0 <= popcount x.
Proof. destruct x as [|p|p]; try easy. induction p; cbn [popcount pos_popcount] in *; lia. Qed.

Lemma popcount_split k : forall x X,
  0 <= x < 2 ^ Z.of_nat k -> 0 <= X ->
  popcount (x + 2 ^ Z.of_nat k * X) = popcount x + popcount X.
Proof.
  induction k as [|k IH]; intros x X Hx HX.
  - change (2 ^ Z.of_nat 0) with 1 in *. replace x with 0 by lia. now rewrite Z.mul_1_l.
  - rewrite Nat2Z.inj_succ, Z.pow_succ_r in * by lia.
    pose proof (Z.div_mod x 2 ltac:(lia)) as D. pose proof (Z.mod_pos_bound x 2 ltac:(lia)).
    assert (Hy : 0 <= x / 2 < 2 ^ Z.of_nat k)
      by (split; [apply Z.div_pos; lia | apply Z.div_lt_upper_bound; lia]).
    set (y := x / 2) in *. set (b := x mod 2) in *. clearbody y b. subst x.
    replace (2 * y + b + 2 * 2 ^ Z.of_nat k * X) with (2 * (y + 2 ^ Z.of_nat k * X) + b) by ring.
    assert (0 <= y + 2 ^ Z.of_nat k * X) by nia.
    destruct (Z.eq_dec b 0) as [->|].
    + rewrite !Z.add_0_r, !popcount_double. apply IH; lia.
    + replace b with 1 by lia. rewrite !popcount_succ_double by lia. rewrite IH by lia. lia.
Qed.

Lemma popcount_bound k x : 0 <= x < 2 ^ Z.of_nat k -> popcount x <= Z.of_nat k.
Proof.
  revert x. induction k as [|k IH]; intros x Hx.
  - change (2 ^ Z.of_nat 0) with 1 in *. now replace x with 0 by lia.
  - rewrite Nat2Z.inj_succ in Hx. rewrite Z.pow_succ_r in Hx by lia. specialize (IH (x / 2)).
    assert (Hy : 0 <= x / 2 < 2 ^ Z.of_nat k)
      by (split; [apply Z.div_pos; lia | apply Z.div_lt_upper_bound; lia]).
    specialize (IH Hy). pose proof (Z.div_mod x 2 ltac:(lia)) as D.
    pose proof (Z.mod_pos_bound x 2 ltac:(lia)).
    destruct (Z.eq_dec (x mod 2) 0) as [E|E].
    + rewrite E, Z.add_0_r in D. rewrite D, popcount_double. lia.
    + replace (x mod 2) with 1 in D by lia. rewrite D, popcount_succ_double by lia. lia.
Qed.

(** [v & (v - 1)] clears the lowest one bit. *)
Lemma popcount_clear v :
  0 < v -> popcount (Z.land v (v - 1)) = popcount v - 1 /\ 0 <= Z.land v (v - 1).
Proof.
  intros Hv. split; [|apply Z.land_nonneg; lia].
  destruct v as [|p|p]; try lia. clear Hv. induction p as [p IH|p IH|]; [| |reflexivity].
  - replace (Z.pos p~1) with (2 * Z.pos p + 1) by lia.
    replace (2 * Z.pos p + 1 - 1) with (2 * Z.pos p) by lia.
    assert (E : Z.land (2 * Z.pos p + 1) (2 * Z.pos p) = 2 * Z.pos p).
    { apply Z.bits_inj'. intros i Hi. rewrite Z.land_spec.
      destruct (Z.eq_dec i 0) as [->|]; [now rewrite !Z.testbit_even_0, andb_false_r|].
      replace i with (Z.succ (i - 1)) by lia.
      rewrite Z.testbit_even_succ, Z.testbit_odd_succ, andb_diag by lia. reflexivity. }
    rewrite E, popcount_double, popcount_succ_double by lia. lia.
  - replace (Z.pos p~0) with (2 * Z.pos p) by lia.
    replace (2 * Z.pos p - 1) with (2 * (Z.pos p - 1) + 1) by lia.
    assert (E : Z.land (2 * Z.pos p) (2 * (Z.pos p - 1) + 1) = 2 * Z.land (Z.pos p) (Z.pos p - 1)).
    { apply Z.bits_inj'. intros i Hi. rewrite Z.land_spec.
      destruct (Z.eq_dec i 0) as [->|]; [now rewrite !Z.testbit_even_0|].
      replace i with (Z.succ (i - 1)) by lia.
      rewrite !Z.testbit_even_succ, Z.testbit_odd_succ, Z.land_spec by lia. reflexivity. }
    rewrite E, !popcount_double. exact IH.
Qed.

Lemma popcount_loop_spec fuel : forall v,
  0 <= v -> popcount v <= Z.of_nat fuel -> popcount_loop fuel v = popcount v.
Proof.
  induction fuel as [|f IH]; intros v Hv Hf; cbn [popcount_loop].
  - pose proof (popcount_nonneg v). lia.
  - destruct (Z.eqb_spec v 0) as [->|]; [reflexivity|].
    destruct (popcount_clear v ltac:(lia)) as [E H]. rewrite IH; lia.
Qed.

Lemma popcount16_spec v : 0 <= v < 65536 -> popcount16 v = popcount v.
Proof.
  intros Hv. apply popcount_loop_spec; [lia|]. apply popcount_bound.
  change (2 ^ Z.of_nat 16) with 65536. lia.
Qed.

Lemma popcount_limb d X :
  0 <= d < 65536 -> 0 <= X -> popcount (d + 65536 * X) = popcount d + popcount X.
Proof. apply (popcount_split 16). Qed.

Lemma count_loop_spec l : wf l -> count_loop l = popcount (val l).
Proof.
  induction 1 as [|d l Hd Hl IH]; [reflexivity|]. cbn [count_loop].
  rewrite val_cons, popcount_limb, popcount16_spec, IH by auto with limbs. reflexivity.
Qed.

(** One limb of the streamed decrement. *)
Lemma borrow_step d T b :
  0 <= d < 65536 -> 0 <= b <= 1 -> 0 <= T -> b <= d + 65536 * T ->
  let lo := u16 (Z.land (u32 (d - b)) 65535) in
  let b' := Z.land (Z.shiftr (u32 (d - b)) 16) 1 in
  0 <= lo < 65536 /\ 0 <= b' <= 1 /\ b' <= T /\
  d + 65536 * T - b = lo + 65536 * (T - b').
Proof.
  intros Hd Hb HT Hle. cbv zeta. destruct (Z.le_gt_cases b d).
  - rewrite u32_small by lia. words. rewrite Z.mod_small, (Z.div_small (d - b)) by lia.
    change (0 mod 2) with 0. lia.
  - replace d with 0 in * by lia. replace b with 1 in * by lia.
    change (u16 (Z.land (u32 (0 - 1)) 65535)) with 65535.
    change (Z.land (Z.shiftr (u32 (0 - 1)) 16) 1) with 1. lia.
Qed.

Lemma count_borrow_loop_spec l : forall b,
  wf l -> 0 <= b <= 1 -> b <= val l -> count_borrow_loop l b = popcount (val l - b).
Proof.
  induction l as [|d l IH]; intros b Hw Hb Hle; cbn [count_borrow_loop].
  - rewrite val_nil in *. now replace b with 0 by lia.
  - apply wfB_cons in Hw. destruct Hw as [Hd Hw]. rewrite val_cons in *.
    destruct (borrow_step d (val l) b) as (Hlo & Hb' & Hle' & E); auto with limbs.
    set (lo := u16 _) in *. set (b' := Z.land (Z.shiftr _ 16) 1) in *. clearbody lo b'.
    rewrite E, popcount_limb, popcount16_spec, IH by (trivial; lia). reflexivity.
Qed.

Lemma lnot_small v : v < 0 -> Z.lnot v = - v - 1.
Proof. unfold Z.lnot. lia. Qed.

(** LOGCOUNT: the one bits of [x], or the zero bits of a negative [x]. *)
Lemma cl_arith_logcount_spec a x :
  rep a x -> cl_arith_logcount a = popcount (if x <? 0 then - x - 1 else x).
Proof.
  intros Ha. rewrite <- (int_negative_spec a x Ha). destruct Ha as [Hw <-].
  destruct a as [v|s l]; cbn [cl_arith_logcount int_negative int_val].
  - cbn in Hw. fixnums.
    replace (if v <? 0 then u32 (Z.lnot v) else u32 v) with (if v <? 0 then - v - 1 else v).
    + apply popcount_loop_spec; [destruct (Z.ltb_spec v 0); lia|].
      apply popcount_bound. change (2 ^ Z.of_nat 32) with 4294967296.
      destruct (Z.ltb_spec v 0); lia.
    + destruct (Z.ltb_spec v 0); [rewrite lnot_small by trivial|]; rewrite u32_small; lia.
  - destruct s; cbn [negb sv].
    + pose proof (wf_int_zero_sign true l Hw eq_refl). destruct Hw as (W & _).
      rewrite Z.opp_involutive. apply count_borrow_loop_spec; trivial; lia.
    + apply count_loop_spec, Hw.
Qed.

(** ** Testing a bit *)

Lemma bit_test v i : 0 <= i -> Z.land (Z.shiftr v i) 1 = Zb (Z.testbit v i).
Proof.
  intros Hi. rewrite Z.testbit_odd, land_1, Zmod_odd. now destruct (Z.odd _).
Qed.

Lemma testbit_limb m k j :
  0 <= m -> 0 <= j < 16 ->
  Z.testbit ((m / 65536 ^ Z.of_nat k) mod 65536) j = Z.testbit m (16 * Z.of_nat k + j).
Proof.
  intros Hm Hj. change 65536 with (2 ^ 16) at 2. rewrite Z.mod_pow2_bits_low by lia.
  change 65536 with (2 ^ 16). rewrite <- Z.pow_mul_r, <- Z.shiftr_div_pow2 by lia.
  rewrite Z.shiftr_spec by lia. f_equal. lia.
Qed.

Lemma nth_limb l : forall k,
  wf l -> nth k l 0 = (val l / 65536 ^ Z.of_nat k) mod 65536.
Proof.
  induction l as [|d l IH]; intros k Hw.
  - rewrite val_nil, Z.div_0_l by (pose proof (Z.pow_nonzero 65536 (Z.of_nat k)); lia).
    now destruct k.
  - apply wfB_cons in Hw. destruct Hw as [Hd Hw]. rewrite val_cons. destruct k as [|k]; cbn [nth].
    + change (Z.of_nat 0) with 0. rewrite Z.pow_0_r, Z.div_1_r.
      apply Z.mod_unique with (val l); lia.
    + rewrite IH, Nat2Z.inj_succ, Z.pow_succ_r by (trivial; lia).
      rewrite <- Z.div_div by (try apply Z.pow_pos_nonneg; lia).
      replace ((d + 65536 * val l) / 65536) with (val l)
        by (apply Z.div_unique with d; lia). reflexivity.
Qed.

Lemma borrow_limb_spec l : forall k b,
  wf l -> (k < length l)%nat -> 0 <= b <= 1 -> b <= val l ->
  borrow_limb l k b = ((val l - b) / 65536 ^ Z.of_nat k) mod 65536.
Proof.
  induction l as [|d l IH]; intros k b Hw Hk Hb Hle; cbn [length] in Hk; [lia|].
  apply wfB_cons in Hw. destruct Hw as [Hd Hw]. rewrite val_cons in *. cbn [borrow_limb].
  destruct (borrow_step d (val l) b) as (Hlo & Hb' & Hle' & E); auto with limbs.
  set (lo := u16 _) in *. set (b' := Z.land (Z.shiftr _ 16) 1) in *. clearbody lo b'.
  rewrite E. destruct k as [|k].
  - change (Z.of_nat 0) with 0. rewrite Z.pow_0_r, Z.div_1_r.
    apply Z.mod_unique with (val l - b'); lia.
  - rewrite IH, Nat2Z.inj_succ, Z.pow_succ_r by (trivial; lia).
    rewrite <- Z.div_div by (try apply Z.pow_pos_nonneg; lia).
    replace ((lo + 65536 * (val l - b')) / 65536) with (val l - b')
      by (apply Z.div_unique with lo; lia). reflexivity.
Qed.

(** A bit above the magnitude is the sign. *)
Lemma testbit_sign x k : 0 <= k -> - 2 ^ k <= x < 2 ^ k -> Z.testbit x k = (x <? 0).
Proof.
  intros Hk Hx. rewrite Z.testbit_odd. pose proof (pow2_pos k Hk).
  rewrite Z.shiftr_div_pow2 by lia. destruct (Z.ltb_spec x 0).
  - replace (x / 2 ^ k) with (-1) by (apply Z.div_unique with (x + 2 ^ k); lia). reflexivity.
  - rewrite Z.div_small by lia. reflexivity.
Qed.

Lemma cl_arith_logbitp_spec a x i :
  rep a x -> cl_arith_logbitp i a = Zb (Z.testbit x i).
Proof.
  intros Ha. unfold cl_arith_logbitp. destruct (Z.ltb_spec i 0) as [Hi|Hi].
  { now rewrite Z.testbit_neg_r. }
  pose proof (int_negative_spec a x Ha) as Sg. destruct Ha as [Hw <-].
  destruct a as [v|s l]; cbn [int_negative int_val] in *.
  - destruct (Z.geb_spec i 31); [|now rewrite bit_test].
    rewrite testbit_sign; [trivial|lia|]. cbn in Hw. fixnums.
    assert (2 ^ 31 <= 2 ^ i) by (apply Z.pow_le_mono_r; lia). lia.
  - pose proof (wf_int_zero_sign s l Hw) as P. destruct Hw as (W & C & N).
    pose proof (valB_bound 65536 base16_pos l W) as B.
    assert (Ei : i = 16 * Z.of_nat (Z.to_nat (i / 16)) + i mod 16)
      by (rewrite Z2Nat.id by (apply Z.div_pos; lia); apply Z.div_mod; lia).
    pose proof (Z.mod_pos_bound i 16 ltac:(lia)) as Hj. set (j := i mod 16) in *.
    set (k := Z.to_nat (i / 16)) in *. clearbody j k.
    destruct (Nat.leb_spec (length l) k) as [Hk|Hk].
    + f_equal. rewrite Sg at 1. symmetry. apply testbit_sign; [lia|].
      assert (65536 ^ Z.of_nat (length l) <= 2 ^ i).
      { change 65536 with (2 ^ 16). rewrite <- Z.pow_mul_r by lia. apply Z.pow_le_mono_r; lia. }
      destruct s; cbn [sv]; lia.
    + destruct s; cbn [negb sv] in *.
      * specialize (P eq_refl). rewrite bit_test, borrow_limb_spec by (trivial; lia).
        rewrite Z.lnot_spec, testbit_limb, <- Ei by lia.
        replace (- val l) with (Z.lnot (val l - 1)) by (unfold Z.lnot; lia).
        now rewrite Z.lnot_spec by lia.
      * rewrite bit_test, nth_limb, testbit_limb, <- Ei by (trivial; lia). reflexivity.
Qed.

(** ** Properties *)

(** The bit count of two's complement: the least [L] with [-2^L <= x < 2^L]. *)
Lemma integer_length_least x :
  let L := integer_length x in
  0 <= L /\ - 2 ^ L <= x < 2 ^ L /\ forall k, 0 <= k < L -> ~ (- 2 ^ k <= x < 2 ^ k).
Proof.
  cbv zeta. unfold integer_length, bits_of.
  set (m := if x <? 0 then - x - 1 else x).
  assert (Hm : 0 <= m) by (subst m; destruct (Z.ltb_spec x 0); lia).
  assert (R : forall k, - 2 ^ k <= x < 2 ^ k <-> m < 2 ^ k).
  { intros k. pose proof (Z.pow_nonneg 2 k). subst m. destruct (Z.ltb_spec x 0); lia. }
  rewrite R. setoid_rewrite R. destruct (Z.eqb_spec m 0) as [->|N].
  { split; [lia|]. split; [cbn; lia|]. lia. }
  pose proof (Z.log2_nonneg m). pose proof (Z.log2_spec m ltac:(lia)) as B. unfold Z.succ in B.
  split; [lia|]. split; [lia|]. intros k Hk. pose proof (Z.pow_le_mono_r 2 k (Z.log2 m)). lia.
Qed.

(** C36: GCD is the non-negative greatest common divisor; the Euclidean loop
    ends within the fuel taken from the operands. *)
Theorem cl_arith_gcd_correct a b x y :
  rep a x -> rep b y -> (x < 0 -> len16 a) -> (y < 0 -> len16 b) ->
  rep (cl_arith_gcd a b) (Z.gcd x y).
Proof. exact (rep_gcd a b x y). Qed.

Lemma cl_arith_gcd_correct_witness :
  cl_arith_gcd (Big true [0; 0; 6]) (Big false [0; 0; 0; 9]) = Big false [0; 0; 6] /\
  rep (cl_arith_gcd (Big true [0; 0; 6]) (Big false [0; 0; 0; 9]))
      (Z.gcd (-25769803776) 2533274790395904).
Proof.
  split; [vm_compute; reflexivity|].
  apply (cl_arith_gcd_correct (Big true [0; 0; 6]) (Big false [0; 0; 0; 9])
           (-25769803776) 2533274790395904); [rep_eval | rep_eval | reflexivity | reflexivity].
Defined.

(** C38: EXPT by repeated squaring is the power for every exponent from 0 up.
    For a negative exponent no power is taken: the code returns 1 for base 1,
    1 or -1 by the exponent's parity for base -1, and 0 for every other base,
    0 among them. *)
Theorem cl_arith_expt_correct a b x y :
  rep a x -> rep b y ->
  exists p, cl_arith_expt a b = Ok p /\
    (0 <= y -> rep p (x ^ y)) /\
    (y < 0 -> x = 1 -> p = Fix 1) /\
    (y < 0 -> x = -1 -> p = Fix (if Z.even y then 1 else -1)) /\
    (y < 0 -> x <> 1 -> x <> -1 -> p = Fix 0).
Proof.
  intros Ha Hb. destruct (cl_arith_expt_spec a b x y Ha Hb) as (p & -> & Hp). exists p. split; [reflexivity|].
  unfold expt_neg in Hp. destruct (Z.ltb_spec y 0); (split; [lia|]) || (split; [trivial|]); [|split; [|split]; lia].
  assert (Hfix : forall n, -1073741824 <= n <= 1073741823 -> rep p n -> p = Fix n).
  { intros n Hn H'. rewrite <- (make_fixnum_small n) by exact Hn. exact (rep_unique p _ n H' (rep_small n Hn)). }
  split; [|split]; intros _; intros; (apply Hfix; [destruct (Z.even y); lia|]).
  - subst x. exact Hp.
  - subst x. exact Hp.
  - destruct (Z.eqb_spec x 1); [lia|]. destruct (Z.eqb_spec x (-1)); [lia|]. exact Hp.
Qed.

Lemma cl_arith_expt_correct_witness :
  cl_arith_expt (Fix (-3)) (Fix 21) = Ok (Big true [21171; 28540; 2]) /\
  (exists p, cl_arith_expt (Fix (-3)) (Fix 21) = Ok p /\ rep p ((-3) ^ 21)) /\
  cl_arith_expt (Fix 2) (Fix (-3)) = Ok (Fix 0).
Proof.
  split; [vm_compute; reflexivity|]. split.
  - destruct (cl_arith_expt_correct (Fix (-3)) (Fix 21) (-3) 21) as (p & E & H & _); [rep_eval..|].
    exists p. split; [exact E|apply H; lia].
  - destruct (cl_arith_expt_correct (Fix 2) (Fix (-3)) 2 (-3)) as (p & E & _ & _ & _ & H); [rep_eval..|].
    rewrite E, H by lia. reflexivity.
Defined.

(** ASH is the arithmetic shift [floor (x * 2^k)] for every fixnum
    count, and for every bignum count that keeps the result finite. *)
Theorem cl_arith_ash_correct a c x k :
  rep a x -> rep c k -> heap_ok a \/ CL_FIXNUM_MIN <= k -> (k <= CL_FIXNUM_MAX \/ x = 0) ->
  exists r, cl_arith_ash a c = Ok r /\ rep r (Z.shiftl x k).
Proof. exact (cl_arith_ash_spec a c x k). Qed.

Lemma cl_arith_ash_correct_witness :
  cl_arith_ash (Big true [1; 0; 1]) (Fix (-17)) = Ok (Fix (-32769)) /\
  exists r, cl_arith_ash (Big true [1; 0; 1]) (Fix (-17)) = Ok r /\
            rep r (Z.shiftl (-4294967297) (-17)).
Proof.
  split; [vm_compute; reflexivity|].
  apply (cl_arith_ash_correct (Big true [1; 0; 1]) (Fix (-17)));
    [rep_eval | rep_eval | right; fixnums; lia | left; fixnums; lia].
Defined.

(** C35: ISQRT terminates and returns the integer square root, and refuses a
    negative argument: Newton's iteration converges within the 1000 steps
    the code allows itself, so that the final correction loop is left at its
    first test, for every bignum the heap can hold. *)
Theorem cl_arith_isqrt_correct fuel a n :
  rep a n -> heap_ok a -> (1 <= fuel)%nat ->
  if n <? 0 then cl_arith_isqrt fuel a = Some (Err CL_ERR_TYPE)
  else exists r, cl_arith_isqrt fuel a = Some (Ok r) /\ rep r (Z.sqrt n).
Proof.
  intros Ha Hh Hf. destruct (Z.ltb_spec n 0).
  - unfold cl_arith_isqrt. rewrite (cl_arith_minusp_spec a n Ha).
    now destruct (Z.ltb_spec n 0); [|lia].
  - now apply cl_arith_isqrt_spec.
Qed.

Lemma cl_arith_isqrt_correct_witness :
  cl_arith_isqrt 1 (Big false [65535; 65535; 65535]) = Some (Ok (Fix 16777215)) /\
  exists r, cl_arith_isqrt 1 (Big false [65535; 65535; 65535]) = Some (Ok r) /\
            rep r (Z.sqrt 281474976710655).
Proof.
  split; [vm_compute; reflexivity|].
  apply (cl_arith_isqrt_correct 1 (Big false [65535; 65535; 65535]) 281474976710655);
    [rep_eval | vm_compute; discriminate | lia].
Defined.

(** C37: the bitwise operations act on the infinite two's complement
    representation: bit [i] of the result is the connective of the bits [i]. *)
Theorem cl_arith_bitwise_correct a b x y :
  rep a x -> rep b y ->
  exists conj disj excl compl,
    rep (cl_arith_logand a b) conj /\ rep (cl_arith_logior a b) disj /\
    rep (cl_arith_logxor a b) excl /\ rep (cl_arith_lognot a) compl /\
    forall i, 0 <= i ->
      Z.testbit conj i = Z.testbit x i && Z.testbit y i /\
      Z.testbit disj i = Z.testbit x i || Z.testbit y i /\
      Z.testbit excl i = xorb (Z.testbit x i) (Z.testbit y i) /\
      Z.testbit compl i = negb (Z.testbit x i).
Proof.
  intros Ha Hb. exists (Z.land x y), (Z.lor x y), (Z.lxor x y), (Z.lnot x).
  do 4 (split; [auto with ints|]). intros i Hi.
  rewrite Z.land_spec, Z.lor_spec, Z.lxor_spec, Z.lnot_spec by lia. auto.
Qed.

Lemma cl_arith_bitwise_correct_witness :
  let a := Big true [0; 0; 1] in let b := Big false [65535; 255; 3] in
  cl_arith_logand a b = Big false [0; 0; 3] /\
  exists conj disj excl compl,
    rep (cl_arith_logand a b) conj /\ rep (cl_arith_logior a b) disj /\
    rep (cl_arith_logxor a b) excl /\ rep (cl_arith_lognot a) compl /\
    forall i, 0 <= i ->
      Z.testbit conj i = Z.testbit (-4294967296) i && Z.testbit 12901679103 i /\
      Z.testbit disj i = Z.testbit (-4294967296) i || Z.testbit 12901679103 i /\
      Z.testbit excl i = xorb (Z.testbit (-4294967296) i) (Z.testbit 12901679103 i) /\
      Z.testbit compl i = negb (Z.testbit (-4294967296) i).
Proof.
  split; [vm_compute; reflexivity|]. apply cl_arith_bitwise_correct; rep_eval.
Defined.

(** LOGBITP reads any bit, INTEGER-LENGTH is the least width that holds
    the number and LOGCOUNT counts the bits that differ from the sign. *)
Theorem cl_arith_bit_queries_correct a x :
  rep a x ->
  (forall i, cl_arith_logbitp i a = Zb (Z.testbit x i)) /\
  cl_arith_logcount a = popcount (if x <? 0 then - x - 1 else x) /\
  let L := cl_arith_integer_length a in
  0 <= L /\ - 2 ^ L <= x < 2 ^ L /\ forall k, 0 <= k < L -> ~ (- 2 ^ k <= x < 2 ^ k).
Proof.
  intros Ha. split; [intros i; now apply cl_arith_logbitp_spec|].
  split; [now apply cl_arith_logcount_spec|].
  rewrite (cl_arith_integer_length_spec a x Ha). apply integer_length_least.
Qed.

Lemma cl_arith_bit_queries_correct_witness :
  let a := Big true [0; 0; 1] in let x := -4294967296 in
  (forall i, cl_arith_logbitp i a = Zb (Z.testbit x i)) /\
  cl_arith_logcount a = popcount (if x <? 0 then - x - 1 else x) /\
  let L := cl_arith_integer_length a in
  0 <= L /\ - 2 ^ L <= x < 2 ^ L /\ forall k, 0 <= k < L -> ~ (- 2 ^ k <= x < 2 ^ k).
Proof. apply cl_arith_bit_queries_correct. rep_eval. Defined.
