(* ===== verification/IntegerText.v ===== *)
(** * Reading and printing integers

    Printer: cl_bignum_print_base (src/src/core/bignum.c), out_radix_prefix and out_integer
    (src/src/core/printer.c).  Reader: cl_bignum_from_string (src/src/core/bignum.c), the decimal
    integer branch of read_atom_with_prefix and read_radix_number
    (src/src/core/reader.c).  A C string is the list of its character codes.

    [acc] of cl_bignum_from_string has room for 256 limbs and drops the carries
    beyond; the reader refuses tokens of more than 255 characters, so it never
    gets there ([parse_decimal_spec]). *)

From Stdlib Require Import ZArith List Lia Bool.
From S2P Require Import Prelude Limbs Division Bignum BignumExt.
Import ListNotations.
Local Open Scope Z_scope.
Local Open Scope amilisp_scope.

(** ** Printer *)

(** ["0123456789ABCDEFGHIJKLMNOPQRSTUVWXYZ"] *)
Definition digit_chars : list Z :=
  [48; 49; 50; 51; 52; 53; 54; 55; 56; 57; 65; 66; 67; 68; 69; 70; 71; 72; 73; 74; 75; 76; 77;
   78; 79; 80; 81; 82; 83; 84; 85; 86; 87; 88; 89; 90].

Definition digit_char (d : Z) : Z := nth (Z.to_nat d) digit_chars 0.

(** [while (work_len > 1 || work[0] != 0)]: digits are pushed on [digits],
    which is read back from the last one; at most [digits_cap - 1] are kept. *)
Fixpoint print_loop (fuel : nat) (base : Z) (digits_cap : Z) (work digits : list Z) : list Z :=
  match fuel with
  | O => digits
  | S f =>
      if is_zero_limbs work then digits
      else
        let '(q, rem) := bignum_div_single work (u16 base) in
        print_loop f base digits_cap (strip q)
          (if Z.of_nat (length digits) <? digits_cap - 1 then digit_char rem :: digits
           else digits)
  end.

Definition cl_bignum_print_base (sign : bool) (limbs : list Z) (base : Z) : list Z :=
  let base := if base <? 2 then 10 else base in
  let base := if base >? 36 then 10 else base in
  let digits_cap := Z.of_nat (length limbs) * 16 + 2 in
  if is_zero_limbs limbs then [48]
  else (if sign then [45] else [])
       ++ print_loop (16 * length limbs + 1) base digits_cap limbs [].

Definition out_radix_prefix (base : Z) : list Z :=
  if base =? 2 then [35; 98]
  else if base =? 8 then [35; 111]
  else if base =? 16 then [35; 120]
  else if negb (base =? 10)
  then [35] ++ (if base <? 10 then [48 + base] else [48 + base / 10; 48 + base mod 10]) ++ [114]
  else [].

Fixpoint out_digits (fuel : nat) (uval base : Z) (buf : list Z) : list Z :=
  match fuel with
  | O => buf
  | S f => if uval >? 0 then out_digits f (uval / base) base (digit_char (uval mod base) :: buf)
           else buf
  end.

Definition out_integer (val base : Z) (radix : bool) : list Z :=
  let negative := val <? 0 in
  let uval := if negative
              then (if val =? -2147483648 then 2147483648 else u32 (- val))
              else u32 val in
  (if radix then out_radix_prefix base else [])
  ++ (if negative then [45] else [])
  ++ (if uval =? 0 then [48] else out_digits 32 uval base [])
  ++ (if radix && (base =? 10) then [46] else []).

(** The integer cases of print_obj. *)
Definition print_integer (n : integer) (base : Z) (radix : bool) : list Z :=
  match n with
  | Fix v => out_integer v base radix
  | Big sign limbs =>
      (if radix then out_radix_prefix base else [])
      ++ cl_bignum_print_base sign limbs base
      ++ (if radix && (base =? 10) then [46] else [])
  end.

(** ** Decimal strings to limbs *)

Definition ACC_LIMBS : nat := 256.

(** [acc = acc * 10]; the carry out is returned. *)
Fixpoint acc_mul10 (acc : list Z) (carry : Z) : list Z * Z :=
  match acc with
  | [] => ([], carry)
  | d :: t =>
      let prod := u32 (u32 (d * 10) + carry) in
      let '(r, c) := acc_mul10 t (Z.shiftr prod 16) in
      (u16 (Z.land prod 65535) :: r, c)
  end.

(** [for (j = 0; j < acc_len && carry; j++)] *)
Fixpoint acc_add (acc : list Z) (carry : Z) : list Z * Z :=
  match acc with
  | [] => ([], carry)
  | d :: t =>
      if carry =? 0 then (acc, 0)
      else
        let sum := u32 (d + carry) in
        let '(r, c) := acc_add t (Z.shiftr sum 16) in
        (u16 (Z.land sum 65535) :: r, c)
  end.

(** [if (carry) { if (acc_len < 256) acc[acc_len++] = carry; }] *)
Definition acc_push (acc : list Z) (carry : Z) : list Z :=
  if negb (carry =? 0)
  then (if (length acc <? ACC_LIMBS)%nat then acc ++ [u16 carry] else acc)
  else acc.

Definition from_string_step (acc : list Z) (c : Z) : list Z :=
  if (c <? 48) || (c >? 57) then acc
  else
    let digit := c - 48 in
    let '(acc, carry) := acc_mul10 acc 0 in
    let acc := acc_push acc carry in
    let '(acc, carry) := acc_add acc digit in
    acc_push acc carry.

Definition cl_bignum_from_string (str : list Z) (negative : bool) : integer :=
  bignum_from_limbs (fold_left from_string_step str [0]) negative.

(** ** Reader *)

Definition cl_ascii_isdigit (c : Z) : bool := (c >=? 48) && (c <=? 57).

(** Values of C [long] are 64 bits on the hosts and 32 on the Amiga; the
    accumulators below stay under 10^9 and need no wrap. *)
Definition digits_long (str : list Z) : Z := fold_left (fun val c => val * 10 + (c - 48)) str 0.

(** The loop that collects a token [buf] stops with an error at the 256th
    character. *)
Definition ATOM_CAP_CHECK (buf : list Z) : bool := (255 <? length buf)%nat.

(** The integer branch of read_atom_with_prefix on an unescaped token;
    [Ok None] when the token is no decimal integer. *)
Definition parse_decimal (buf : list Z) : result (option integer) :=
  let '(neg, str) :=
    match buf with
    | c :: t => if c =? 45 then (true, t) else if c =? 43 then (false, t) else (false, buf)
    | [] => (false, buf)
    end in
  if ATOM_CAP_CHECK buf then Err CL_ERR_PARSE
  else if forallb cl_ascii_isdigit str && negb (length str =? 0)%nat then
    if (length str <=? 9)%nat then
      let val := digits_long str in
      let val := if neg then - val else val in
      if (val >=? CL_FIXNUM_MIN) && (val <=? CL_FIXNUM_MAX) then Ok (Some (make_fixnum val))
      else Ok (Some (cl_bignum_from_string str neg))
    else Ok (Some (cl_bignum_from_string str neg))
  else Ok None.

(** Digit value of a character of read_radix_number, which reports anything
    else (after upcasing) as an invalid digit. *)
Definition radix_digit (c radix : Z) : option Z :=
  let dv :=
    if (c >=? 48) && (c <=? 57) then Some (c - 48)
    else if (c >=? 65) && (c <=? 90) then Some (c - 65 + 10)
    else None in
  match dv with
  | Some d => if d >=? radix then None else Some d
  | None => None
  end.

(** The accumulator of unsigned longs of [w] bits: [None] on a bad digit, else
    the value and the overflow flag. *)
Fixpoint radix_ulong (w radix : Z) (str : list Z) (val : Z) (overflow : bool) : option (Z * bool) :=
  match str with
  | [] => Some (val, overflow)
  | c :: t =>
      match radix_digit c radix with
      | None => None
      | Some dv =>
          if overflow then radix_ulong w radix t val true
          else
            let nv := (val * radix + dv) mod 2 ^ w in
            if negb (nv / radix =? val) then radix_ulong w radix t val true
            else radix_ulong w radix t nv false
      end
  end.

Definition radix_bignum (radix : Z) (str : list Z) : integer :=
  fold_left
    (fun result c =>
       let dv := if (c >=? 48) && (c <=? 57) then c - 48 else c - 65 + 10 in
       cl_arith_add (cl_arith_mul result (make_fixnum radix)) (make_fixnum dv))
    str (make_fixnum 0).

(** read_radix_number on the (upcased) token; [None] is a reader error. *)
Definition read_radix_number (w radix : Z) (buf : list Z) : option integer :=
  let '(neg, str) :=
    match buf with
    | c :: t => if c =? 43 then (false, t) else if c =? 45 then (true, t) else (false, buf)
    | [] => (false, buf)
    end in
  if (255 <? length buf)%nat then None
  else if (length str =? 0)%nat then None
  else
    match radix_ulong w radix str 0 false with
    | None => None
    | Some (val, overflow) =>
        let big := let result := radix_bignum radix str in
                   if neg then cl_arith_negate result else result in
        if negb overflow then
          if negb neg && (val <=? CL_FIXNUM_MAX) then Some (make_fixnum (i32 val))
          else if neg && (val <=? CL_FIXNUM_MAX + 1) then Some (make_fixnum (- i32 val))
          else Some big
        else Some big
    end.

(** ** Numerals *)

(** Horner's scheme: the number a digit list denotes, most significant first. *)
Definition horner (base v : Z) (ds : list Z) : Z := fold_left (fun v d => v * base + d) ds v.
Definition numeral (base : Z) (ds : list Z) : Z := horner base 0 ds.

Definition digits_ok (base : Z) (ds : list Z) : Prop := Forall (fun d => 0 <= d < base) ds.

Lemma horner_app base v ds es : horner base v (ds ++ es) = horner base (horner base v ds) es.
Proof. apply fold_left_app. Qed.

Lemma horner_snoc base v ds d : horner base v (ds ++ [d]) = horner base v ds * base + d.
Proof. now rewrite horner_app. Qed.

Lemma horner_split base ds : forall v,
  horner base v ds = v * base ^ Z.of_nat (length ds) + numeral base ds.
Proof.
  unfold numeral. induction ds as [|d ds IH]; intros v.
  - cbn [horner fold_left length]. change (Z.of_nat 0) with 0. rewrite Z.pow_0_r.
    unfold horner. cbn [fold_left]. lia.
  - change (horner base v (d :: ds)) with (horner base (v * base + d) ds).
    change (horner base 0 (d :: ds)) with (horner base (0 * base + d) ds).
    rewrite (IH (v * base + d)), (IH (0 * base + d)). cbn [length].
    rewrite Nat2Z.inj_succ, Z.pow_succ_r by lia. ring.
Qed.

Lemma numeral_bound base ds :
  1 < base -> digits_ok base ds -> 0 <= numeral base ds < base ^ Z.of_nat (length ds).
Proof.
  intros Hb. induction 1 as [|d ds Hd Hds IH].
  - cbn. lia.
  - change (numeral base (d :: ds)) with (horner base (0 * base + d) ds).
    rewrite horner_split. cbn [length]. rewrite Nat2Z.inj_succ, Z.pow_succ_r by lia. nia.
Qed.

(** ** Printing *)

(** The digits of [m] in [base], without leading zeros; zero is one digit. *)
Definition digits_of (base m : Z) (ds : list Z) : Prop :=
  digits_ok base ds /\ numeral base ds = m /\
  (m = 0 -> ds = [0]) /\ (m <> 0 -> hd 0 ds <> 0).

Lemma digits_ok_snoc base ds d :
  digits_ok base ds -> 0 <= d < base -> digits_ok base (ds ++ [d]).
Proof. intros H Hd. apply Forall_app. split; trivial. now repeat constructor. Qed.

(** One more low digit. *)
Lemma digits_push base q r ds :
  digits_ok base ds -> numeral base ds = q -> (q <> 0 -> hd 0 ds <> 0) -> (q = 0 -> ds = []) ->
  0 <= r < base -> 0 <= q -> 0 < q * base + r -> 1 < base ->
  digits_ok base (ds ++ [r]) /\ numeral base (ds ++ [r]) = q * base + r /\
  hd 0 (ds ++ [r]) <> 0.
Proof.
  intros Ok N H1 H0 Hr Hq Hp Hb. split; [now apply digits_ok_snoc|].
  unfold numeral in *. rewrite horner_snoc, N. split; [reflexivity|].
  destruct (Z.eq_dec q 0) as [E|E].
  - rewrite (H0 E). cbn [app hd]. lia.
  - destruct ds as [|d ds]; [|now apply H1]. cbn in H1. now specialize (H1 E).
Qed.

Lemma digits_nil base :
  digits_ok base [] /\ numeral base [] = 0 /\ (0 = 0 -> @nil Z = []) /\
  (0 <> 0 -> hd 0 (@nil Z) <> 0).
Proof. split; [constructor|]. repeat (split; [reflexivity|]). lia. Qed.

Lemma out_digits_spec base fuel : forall m buf,
  2 <= base -> 0 <= m < 2 ^ Z.of_nat fuel ->
  exists ds, out_digits fuel m base buf = map digit_char ds ++ buf /\
    digits_ok base ds /\ numeral base ds = m /\ (m = 0 -> ds = []) /\ (m <> 0 -> hd 0 ds <> 0).
Proof.
  induction fuel as [|f IH]; intros m buf Hb Hm.
  - change (2 ^ Z.of_nat 0) with 1 in Hm. exists []. replace m with 0 by lia.
    split; [reflexivity | apply digits_nil].
  - cbn [out_digits]. destruct (Z.gtb_spec m 0).
    + rewrite Nat2Z.inj_succ, Z.pow_succ_r in Hm by lia.
      assert (Hq : 0 <= m / base < 2 ^ Z.of_nat f).
      { split; [apply Z.div_pos; lia|]. apply Z.div_lt_upper_bound; nia. }
      destruct (IH (m / base) (digit_char (m mod base) :: buf)) as (ds & E & Ok & N & H0 & H1);
        trivial.
      pose proof (Z.div_mod m base ltac:(lia)) as D. pose proof (Z.mod_pos_bound m base ltac:(lia)).
      destruct (digits_push base (m / base) (m mod base) ds) as (O' & N' & H'); trivial; try lia.
      exists (ds ++ [m mod base]). rewrite E, map_app, <- app_assoc.
      split; [reflexivity|]. split; [trivial|]. split; [lia|]. split; [lia | trivial].
    + exists []. replace m with 0 by lia. split; [reflexivity | apply digits_nil].
Qed.

Lemma print_loop_spec base cap fuel : forall k work digits,
  2 <= base <= 36 -> wf work -> canonical work -> val work < 2 ^ Z.of_nat k ->
  Z.of_nat (length digits) + Z.of_nat k < cap -> (k < fuel)%nat ->
  exists ds, print_loop fuel base cap work digits = map digit_char ds ++ digits /\
    digits_ok base ds /\ numeral base ds = val work /\
    (val work = 0 -> ds = []) /\ (val work <> 0 -> hd 0 ds <> 0).
Proof.
  induction fuel as [|f IH]; intros k work digits Hb W C Hk Hcap Hf; [lia|].
  cbn [print_loop]. rewrite zero_limbs_iff by trivial. pose proof (wf_val_nonneg work W).
  destruct (Z.eqb_spec (val work) 0) as [E0|E0].
  { exists []. rewrite E0. split; [reflexivity | apply digits_nil]. }
  rewrite u16_small by lia.
  pose proof (bignum_div_single_spec work base W ltac:(lia)) as S.
  destruct (bignum_div_single work base) as [q r]. destruct S as (Wq & Lq & Hr & E).
  assert (L1 : (1 <= length q)%nat) by (destruct C; lia).
  pose proof (strip_val 65536 q L1) as Vs. rewrite <- Vs in E.
  pose proof (strip_wf 65536 q L1 Wq) as Ws. pose proof (wf_val_nonneg _ Ws).
  destruct k as [|k]; [change (2 ^ Z.of_nat 0) with 1 in Hk; lia|].
  rewrite Nat2Z.inj_succ, Z.pow_succ_r in Hk by lia.
  destruct (Z.ltb_spec (Z.of_nat (length digits)) (cap - 1)); [|lia].
  destruct (IH k (strip q) (digit_char r :: digits)) as (ds & E' & Ok & N & N0 & N1); trivial.
  - now apply strip_canonical.
  - nia.
  - cbn [length]. lia.
  - lia.
  - destruct (digits_push base (val (strip q)) r ds) as (O' & N' & H'); trivial; try lia.
    exists (ds ++ [r]). rewrite E', map_app, <- app_assoc. split; [reflexivity|].
    split; [trivial|]. split; [lia|]. split; [lia | trivial].
Qed.

(** The printed representation: an optional sign, then the digits. *)
Lemma print_integer_digits n x base :
  rep n x -> 2 <= base <= 36 ->
  exists ds, print_integer n base false
               = (if x <? 0 then [45] else []) ++ map digit_char ds /\
             digits_of base (Z.abs x) ds.
Proof.
  intros Hn Hb. pose proof (int_negative_spec n x Hn) as Sg. destruct Hn as [Hw <-].
  destruct n as [v|s l]; cbn [int_negative int_val print_integer] in *.
  - cbn in Hw. fixnums. unfold out_integer. cbn [andb app]. rewrite app_nil_r.
    assert (E : (if v <? 0 then if v =? -2147483648 then 2147483648 else u32 (- v) else u32 v)
                = Z.abs v).
    { destruct (Z.eqb_spec v (-2147483648)); [lia|]. destruct (Z.ltb_spec v 0);
        rewrite u32_small by lia; lia. }
    rewrite E. destruct (Z.eqb_spec (Z.abs v) 0) as [E0|E0].
    { exists [0]. rewrite E0. replace v with 0 by lia. split; [reflexivity|].
      split; [repeat constructor; lia|]. split; [reflexivity|]. split; [trivial | lia]. }
    destruct (out_digits_spec base 32 (Z.abs v) []) as (ds & E' & Ok & N & H0 & H1);
      [lia | change (2 ^ Z.of_nat 32) with 4294967296; lia|].
    exists ds. rewrite E', app_nil_r. split; [reflexivity|].
    split; [trivial|]. split; [trivial|]. split; [lia | trivial].
  - pose proof Hw as (W & C & N). pose proof (wf_val_nonneg l W).
    replace (Z.abs (sv s (val l))) with (val l) by (destruct s; cbn [sv]; lia).
    rewrite <- Sg, app_nil_r. cbn [app]. unfold cl_bignum_print_base.
    destruct (Z.ltb_spec base 2); [lia|]. destruct (Z.gtb_spec base 36); [lia|].
    assert (V : val l <> 0) by (destruct s; fixnums; lia).
    rewrite zero_limbs_iff by trivial. destruct (Z.eqb_spec (val l) 0); [lia|].
    destruct (print_loop_spec base (Z.of_nat (length l) * 16 + 2) (16 * length l + 1)
                (16 * length l) l []) as (ds & E' & Ok & Nm & N0 & N1); trivial; try (cbn [length]; lia).
    { pose proof (valB_bound 65536 base16_pos l W). rewrite Nat2Z.inj_mul.
      rewrite (Z.pow_mul_r 2 (Z.of_nat 16)) by lia. change (2 ^ Z.of_nat 16) with 65536. lia. }
    exists ds. rewrite E', app_nil_r. split; [reflexivity|].
    split; [trivial|]. split; [trivial|]. split; [lia | trivial].
Qed.

(** ** The 256-limb accumulator *)

Definition ACC_MOD : Z := 65536 ^ Z.of_nat ACC_LIMBS.

Lemma acc_mul10_spec acc : forall c,
  wf acc -> 0 <= c < 10 ->
  let '(r, c') := acc_mul10 acc c in
  wf r /\ length r = length acc /\ 0 <= c' < 10 /\
  val r + 65536 ^ Z.of_nat (length acc) * c' = val acc * 10 + c.
Proof.
  induction acc as [|d acc IH]; intros c Hw Hc; cbn [acc_mul10 length].
  - change (Z.of_nat 0) with 0. rewrite Z.pow_0_r, val_nil.
    split; [constructor|]. split; [reflexivity|]. lia.
  - apply wfB_cons in Hw. destruct Hw as [Hd Hw]. rewrite (u32_small (d * 10)) by lia.
    rewrite u32_small by lia. words. set (v := d * 10 + c).
    assert (0 <= v / 65536 < 10)
      by (subst v; split; [apply Z.div_pos; lia | apply Z.div_lt_upper_bound; lia]).
    specialize (IH (v / 65536) Hw H). destruct (acc_mul10 acc (v / 65536)) as [r c'].
    destruct IH as (W & L & Hc' & E). pose proof (Z.mod_pos_bound v 65536).
    pose proof (Z.div_mod v 65536 ltac:(lia)).
    split; [constructor; trivial; lia|]. split; [cbn [length]; lia|]. split; [lia|].
    rewrite !val_cons, Nat2Z.inj_succ, Z.pow_succ_r by lia. subst v. lia.
Qed.

Lemma acc_add_spec acc : forall c,
  wf acc -> 0 <= c < 65536 ->
  let '(r, c') := acc_add acc c in
  wf r /\ length r = length acc /\ 0 <= c' < 65536 /\
  val r + 65536 ^ Z.of_nat (length acc) * c' = val acc + c.
Proof.
  induction acc as [|d acc IH]; intros c Hw Hc; cbn [acc_add length].
  - change (Z.of_nat 0) with 0. rewrite Z.pow_0_r, val_nil.
    split; [constructor|]. split; [reflexivity|]. lia.
  - destruct (Z.eqb_spec c 0) as [->|].
    { rewrite Z.mul_0_r. split; [trivial|]. split; [reflexivity|]. lia. }
    apply wfB_cons in Hw. destruct Hw as [Hd Hw].
    rewrite u32_small by lia. words. set (v := d + c).
    assert (0 <= v / 65536 < 65536)
      by (subst v; split; [apply Z.div_pos; lia | apply Z.div_lt_upper_bound; lia]).
    specialize (IH (v / 65536) Hw H). destruct (acc_add acc (v / 65536)) as [r c'].
    destruct IH as (W & L & Hc' & E). pose proof (Z.mod_pos_bound v 65536).
    pose proof (Z.div_mod v 65536 ltac:(lia)).
    split; [constructor; trivial; lia|]. split; [cbn [length]; lia|]. split; [lia|].
    rewrite !val_cons, Nat2Z.inj_succ, Z.pow_succ_r by lia. subst v. lia.
Qed.

(** An accumulator: at least one limb, at most [ACC_LIMBS]. *)
Definition acc_ok (acc : list Z) : Prop := wf acc /\ (1 <= length acc <= ACC_LIMBS)%nat.

Lemma acc_push_spec acc c total :
  acc_ok acc -> 0 <= c < 65536 -> val acc + 65536 ^ Z.of_nat (length acc) * c = total ->
  acc_ok (acc_push acc c) /\ val (acc_push acc c) mod ACC_MOD = total mod ACC_MOD.
Proof.
  intros [W L] Hc <-. unfold acc_push. destruct (Z.eqb_spec c 0) as [->|]; cbn [negb].
  { rewrite Z.mul_0_r, Z.add_0_r. repeat split; trivial; apply L. }
  rewrite u16_small by lia. destruct (Nat.ltb_spec (length acc) ACC_LIMBS).
  - split.
    + split; [apply wfB_app; split; trivial; repeat constructor; lia|].
      rewrite length_app. cbn [length]. lia.
    + rewrite valB_app, val_cons, val_nil by lia. f_equal. lia.
  - split; [now split|]. unfold ACC_MOD. replace (length acc) with ACC_LIMBS by lia.
    rewrite (Z.mul_comm _ c), Z.mod_add by (apply Z.pow_nonzero; lia). reflexivity.
Qed.

Lemma ACC_MOD_pos : 0 < ACC_MOD.
Proof. apply Z.pow_pos_nonneg; lia. Qed.

Lemma from_string_step_spec acc c :
  acc_ok acc -> cl_ascii_isdigit c = true ->
  acc_ok (from_string_step acc c) /\
  val (from_string_step acc c) mod ACC_MOD = (val acc * 10 + (c - 48)) mod ACC_MOD.
Proof.
  intros [W L] [C1 C2]%andb_prop. unfold from_string_step.
  destruct (Z.ltb_spec c 48); [lia|]. destruct (Z.gtb_spec c 57); [lia|]. cbn [orb].
  pose proof (acc_mul10_spec acc 0 W ltac:(lia)) as M.
  destruct (acc_mul10 acc 0) as [a1 c1]. destruct M as (W1 & L1 & H1 & E1).
  rewrite <- L1 in E1. assert (A1 : acc_ok a1) by (split; trivial; now rewrite L1).
  destruct (acc_push_spec a1 c1 _ A1 ltac:(lia) E1) as [[W2 L2] E2].
  set (a2 := acc_push a1 c1) in *. clearbody a2.
  pose proof (acc_add_spec a2 (c - 48) W2 ltac:(lia)) as M.
  destruct (acc_add a2 (c - 48)) as [a3 c3]. destruct M as (W3 & L3 & H3 & E3).
  rewrite <- L3 in E3. assert (A3 : acc_ok a3) by (split; trivial; now rewrite L3).
  destruct (acc_push_spec a3 c3 _ A3 ltac:(lia) E3) as [A4 E4].
  split; trivial. rewrite E4. pose proof ACC_MOD_pos.
  rewrite <- Z.add_mod_idemp_l, E2, Z.add_mod_idemp_l by lia. f_equal. lia.
Qed.

Lemma from_string_loop_spec str : forall acc,
  acc_ok acc -> forallb cl_ascii_isdigit str = true ->
  acc_ok (fold_left from_string_step str acc) /\
  val (fold_left from_string_step str acc) mod ACC_MOD
    = horner 10 (val acc) (map (fun c => c - 48) str) mod ACC_MOD.
Proof.
  induction str as [|c str IH]; intros acc A F; [now split|].
  cbn [forallb] in F. apply andb_prop in F. destruct F as [Fc F].
  destruct (from_string_step_spec acc c A Fc) as [A' E']. cbn [fold_left map].
  destruct (IH _ A' F) as [A'' E'']. split; trivial. rewrite E''. pose proof ACC_MOD_pos.
  change (horner 10 (val acc) (c - 48 :: map (fun c => c - 48) str))
    with (horner 10 (val acc * 10 + (c - 48)) (map (fun c => c - 48) str)).
  rewrite (horner_split _ _ (val (from_string_step acc c))), (horner_split _ _ (_ + (c - 48))).
  rewrite <- Z.add_mod_idemp_l, <- Z.mul_mod_idemp_l, E' by lia.
  rewrite Z.mul_mod_idemp_l, Z.add_mod_idemp_l by lia. reflexivity.
Qed.

(** The value is exact modulo 2^4096. *)
Lemma cl_bignum_from_string_spec str neg :
  forallb cl_ascii_isdigit str = true ->
  rep (cl_bignum_from_string str neg)
      (sv neg (numeral 10 (map (fun c => c - 48) str) mod ACC_MOD)).
Proof.
  intros F. unfold cl_bignum_from_string.
  destruct (from_string_loop_spec str [0]) as [[W L] E]; trivial.
  { split; [repeat constructor; lia | unfold ACC_LIMBS; cbn [length]; lia]. }
  set (acc := fold_left from_string_step str [0]) in *. clearbody acc.
  change (val [0]) with 0 in E. fold (numeral 10 (map (fun c => c - 48) str)) in E.
  rewrite <- E, Z.mod_small; [apply rep_from_limbs; trivial; lia|].
  pose proof (valB_bound 65536 base16_pos acc W).
  assert (65536 ^ Z.of_nat (length acc) <= ACC_MOD) by (apply Z.pow_le_mono_r; lia). lia.
Qed.

(** ** Tokens *)

(** A token's sign and its rest, the sign being optional. *)
Definition token_sign (buf : list Z) : bool * list Z :=
  match buf with
  | c :: t => if c =? 45 then (true, t) else if c =? 43 then (false, t) else (false, buf)
  | [] => (false, buf)
  end.

Definition decimal_digits (str : list Z) : list Z := map (fun c => c - 48) str.

Lemma digits_long_spec str : digits_long str = numeral 10 (decimal_digits str).
Proof.
  unfold digits_long, numeral, horner, decimal_digits. generalize 0.
  induction str as [|c str IH]; intros v; cbn [fold_left map]; trivial.
Qed.

Lemma decimal_digits_ok str :
  forallb cl_ascii_isdigit str = true -> digits_ok 10 (decimal_digits str).
Proof.
  induction str as [|c str IH]; cbn [forallb]; intros F; [constructor|].
  apply andb_prop in F. destruct F as [[C1 C2]%andb_prop F]. constructor; [lia | now apply IH].
Qed.

Lemma pow10_255 : 10 ^ 255 <= ACC_MOD.
Proof. apply Z.leb_le. vm_compute. reflexivity. Qed.

(** Every token the reader accepts is short enough to be exact. *)
Lemma token_value_small str :
  forallb cl_ascii_isdigit str = true -> (length str <= 255)%nat ->
  numeral 10 (decimal_digits str) < ACC_MOD.
Proof.
  intros F L. pose proof (numeral_bound 10 _ ltac:(lia) (decimal_digits_ok str F)) as [_ B].
  unfold decimal_digits at 2 in B. rewrite length_map in B.
  apply Z.lt_le_trans with (10 ^ Z.of_nat (length str)); [exact B|].
  apply Z.le_trans with (10 ^ 255); [apply Z.pow_le_mono_r; lia | exact pow10_255].
Qed.

Lemma token_sign_length buf : (length (snd (token_sign buf)) <= length buf)%nat.
Proof.
  unfold token_sign. destruct buf as [|c t]; trivial.
  destruct (c =? 45), (c =? 43); cbn [snd length]; lia.
Qed.

(** An unescaped token of the reader: a decimal integer is read exactly, any
    other token is left to the next branches. *)
Lemma parse_decimal_spec buf :
  (length buf <= 255)%nat ->
  let '(neg, str) := token_sign buf in
  if forallb cl_ascii_isdigit str && negb (length str =? 0)%nat
  then exists r, parse_decimal buf = Ok (Some r) /\ rep r (sv neg (numeral 10 (decimal_digits str)))
  else parse_decimal buf = Ok None.
Proof.
  intros L. pose proof (token_sign_length buf) as Ls. unfold parse_decimal, ATOM_CAP_CHECK. fold (token_sign buf).
  destruct (Nat.ltb_spec 255 (length buf)); [lia|].
  destruct (token_sign buf) as [neg str]. cbn [snd] in Ls.
  destruct (forallb cl_ascii_isdigit str) eqn:F; [|reflexivity].
  destruct (Nat.eqb_spec (length str) 0) as [E0|E0]; [reflexivity|]. cbn [andb negb].
  pose proof (cl_bignum_from_string_spec str neg F) as R. fold (decimal_digits str) in R.
  pose proof (numeral_bound 10 _ ltac:(lia) (decimal_digits_ok str F)) as B.
  rewrite Z.mod_small in R by (pose proof (token_value_small str F); lia).
  destruct (Nat.leb_spec (length str) 9); [|eexists; split; [reflexivity | exact R]].
  rewrite digits_long_spec. fold (sv neg (numeral 10 (decimal_digits str))).
  fold (fits_fixnum (sv neg (numeral 10 (decimal_digits str)))).
  destruct (fits_fixnum _) eqn:E; [|eexists; split; [reflexivity | exact R]].
  eexists. split; [reflexivity|]. apply rep_make_fixnum, fits_fixnum_true, E.
Qed.

Lemma parse_decimal_long buf : (255 < length buf)%nat -> parse_decimal buf = Err CL_ERR_PARSE.
Proof.
  intros L. unfold parse_decimal, ATOM_CAP_CHECK. fold (token_sign buf). destruct (token_sign buf).
  now destruct (Nat.ltb_spec 255 (length buf)); [|lia].
Qed.

(** ** read_radix_number *)

(** The digits of a token, when they are all valid. *)
Fixpoint radix_digits (radix : Z) (str : list Z) : option (list Z) :=
  match str with
  | [] => Some []
  | c :: t =>
      match radix_digit c radix, radix_digits radix t with
      | Some d, Some ds => Some (d :: ds)
      | _, _ => None
      end
  end.

Lemma radix_digit_range c radix d : radix_digit c radix = Some d -> 0 <= d < radix.
Proof.
  unfold radix_digit.
  destruct ((c >=? 48) && (c <=? 57)) eqn:E1; [|destruct ((c >=? 65) && (c <=? 90)) eqn:E2];
    try discriminate;
    match goal with |- context [?x >=? radix] => destruct (Z.geb_spec x radix) end;
    try discriminate; intros [= <-]; lia.
Qed.

Lemma radix_digits_ok radix str : forall ds,
  radix_digits radix str = Some ds -> digits_ok radix ds /\ length ds = length str.
Proof.
  induction str as [|c str IH]; intros ds; cbn [radix_digits].
  - intros [= <-]. split; [constructor | reflexivity].
  - destruct (radix_digit c radix) eqn:E; [|discriminate].
    destruct (radix_digits radix str) as [t|]; [|discriminate]. intros [= <-].
    destruct (IH t eq_refl) as [Ok L]. split; [|cbn [length]; lia].
    constructor; trivial. now apply radix_digit_range in E.
Qed.

(** The overflow test on unsigned longs is exact. *)
Lemma ulong_overflow w radix v d :
  32 <= w -> 2 <= radix <= 36 -> 0 <= v < 2 ^ w -> 0 <= d < radix ->
  ((v * radix + d) mod 2 ^ w / radix =? v) = (v * radix + d <? 2 ^ w).
Proof.
  intros Hw Hr Hv Hd. assert (2 ^ 32 <= 2 ^ w) by (apply Z.pow_le_mono_r; lia).
  set (M := 2 ^ w) in *. clearbody M. set (n := v * radix + d).
  assert (0 <= n) by (subst n; nia). destruct (Z.ltb_spec n M).
  - rewrite Z.mod_small by lia. apply Z.eqb_eq. symmetry.
    apply Z.div_unique with d; subst n; lia.
  - apply Z.eqb_neq. intros E. pose proof (Z.mod_pos_bound n M ltac:(lia)).
    pose proof (Z.div_mod (n mod M) radix ltac:(lia)) as D. rewrite E in D.
    pose proof (Z.mod_pos_bound (n mod M) radix ltac:(lia)).
    pose proof (Z.div_mod n M ltac:(lia)). assert (1 <= n / M) by (apply Z.div_le_lower_bound; lia).
    assert (n - n mod M >= M) by nia. subst n. nia.
Qed.

Lemma radix_ulong_overflowed w radix str : forall v,
  radix_ulong w radix str v true
    = match radix_digits radix str with Some _ => Some (v, true) | None => None end.
Proof.
  induction str as [|c str IH]; intros v; cbn [radix_ulong radix_digits]; trivial.
  destruct (radix_digit c radix); trivial. rewrite IH. now destruct (radix_digits radix str).
Qed.

Lemma horner_ge radix v ds : 1 < radix -> 0 <= v -> digits_ok radix ds -> v <= horner radix v ds.
Proof.
  intros Hr Hv Ok. rewrite horner_split. pose proof (numeral_bound radix ds Hr Ok).
  assert (1 <= radix ^ Z.of_nat (length ds)) by (pose proof (Z.pow_pos_nonneg radix (Z.of_nat (length ds))); lia).
  nia.
Qed.

Lemma radix_ulong_spec w radix str : forall v,
  32 <= w -> 2 <= radix <= 36 -> 0 <= v < 2 ^ w ->
  match radix_digits radix str with
  | None => radix_ulong w radix str v false = None
  | Some ds =>
      exists u o, radix_ulong w radix str v false = Some (u, o) /\
        (o = false -> u = horner radix v ds) /\ (o = true -> 2 ^ w <= horner radix v ds)
  end.
Proof.
  induction str as [|c str IH]; intros v Hw Hr Hv; cbn [radix_ulong radix_digits].
  { exists v, false. split; [reflexivity|]. now split. }
  destruct (radix_digit c radix) as [d|] eqn:Ed; [|reflexivity].
  pose proof (radix_digit_range _ _ _ Ed) as Hd. rewrite ulong_overflow by trivial.
  destruct (Z.ltb_spec (v * radix + d) (2 ^ w)); cbn [negb].
  - rewrite Z.mod_small by nia. specialize (IH (v * radix + d) Hw Hr ltac:(nia)).
    destruct (radix_digits radix str); exact IH.
  - rewrite radix_ulong_overflowed. destruct (radix_digits radix str) as [ds|] eqn:E; trivial.
    exists v, true. split; [reflexivity|]. split; [discriminate|]. intros _.
    destruct (radix_digits_ok _ _ _ E) as [Ok _].
    change (horner radix v (d :: ds)) with (horner radix (v * radix + d) ds).
    pose proof (horner_ge radix (v * radix + d) ds ltac:(lia) ltac:(nia) Ok). lia.
Qed.

Lemma radix_bignum_spec radix str : forall ds r x,
  2 <= radix <= 36 -> radix_digits radix str = Some ds -> rep r x ->
  rep (fold_left
    (fun result c =>
       let dv := if (c >=? 48) && (c <=? 57) then c - 48 else c - 65 + 10 in
       cl_arith_add (cl_arith_mul result (make_fixnum radix)) (make_fixnum dv)) str r)
    (horner radix x ds).
Proof.
  induction str as [|c str IH]; intros ds r x Hr; cbn [radix_digits fold_left].
  - now intros [= <-].
  - destruct (radix_digit c radix) as [d|] eqn:Ed; [|discriminate].
    destruct (radix_digits radix str) as [t|]; [|discriminate]. intros [= <-] Hx.
    change (horner radix x (d :: t)) with (horner radix (x * radix + d) t).
    apply IH; trivial. pose proof (radix_digit_range _ _ _ Ed).
    assert (E : (if (c >=? 48) && (c <=? 57) then c - 48 else c - 65 + 10) = d); [|rewrite E].
    2: apply rep_add; [apply rep_mul|]; trivial; apply rep_small; lia.
    unfold radix_digit in Ed. destruct (_ && (c <=? 57)).
    + destruct (_ >=? radix); congruence.
    + destruct (_ && _); [|discriminate]. destruct (_ >=? radix); congruence.
Qed.

(** A magnitude below 2^(16k) has at most [k] limbs. *)
Lemma len16_bound a x k :
  rep a x -> Z.abs x < 65536 ^ k -> 1 <= k < 65536 -> len16 a.
Proof.
  intros [Hw <-] Hx Hk. destruct a as [v|s l]; [exact I|]. cbn [len16 int_val] in *.
  destruct Hw as (W & C & N). pose proof (wf_val_nonneg l W).
  replace (Z.abs (sv s (val l))) with (val l) in Hx by (destruct s; cbn [sv]; lia).
  destruct (Z.lt_ge_cases (Z.of_nat (length l)) 65536); trivial.
  pose proof (canonical_lower 65536 base16_pos l W C ltac:(lia)).
  assert (65536 ^ k <= 65536 ^ (Z.of_nat (length l) - 1)) by (apply Z.pow_le_mono_r; lia). lia.
Qed.

Lemma pow36_255 : 36 ^ 255 < 65536 ^ 255.
Proof. apply Z.ltb_lt. vm_compute. reflexivity. Qed.

(** read_radix_number reads the token exactly, and reports exactly the
    malformed ones; the width of [unsigned long] does not matter. *)
Lemma read_radix_number_spec w radix buf :
  32 <= w -> 2 <= radix <= 36 -> (length buf <= 255)%nat ->
  let '(neg, str) := token_sign buf in
  match radix_digits radix str with
  | Some ((_ :: _) as ds) =>
      exists r, read_radix_number w radix buf = Some r /\ rep r (sv neg (numeral radix ds))
  | _ => read_radix_number w radix buf = None
  end.
Proof.
  intros Hw Hr L. unfold read_radix_number.
  assert (T : match buf with
     | c :: t => if c =? 43 then (false, t) else if c =? 45 then (true, t) else (false, buf)
     | [] => (false, buf) end = token_sign buf).
  { unfold token_sign. destruct buf as [|c t]; trivial.
    destruct (Z.eqb_spec c 43), (Z.eqb_spec c 45); trivial; lia. }
  rewrite T. clear T.
  pose proof (token_sign_length buf) as Ls.
  destruct (token_sign buf) as [neg str]. cbn [snd] in Ls.
  destruct (Nat.ltb_spec 255 (length buf)); [lia|].
  pose proof (radix_ulong_spec w radix str 0 Hw Hr) as U.
  destruct (radix_digits radix str) as [ds|] eqn:E.
  2: { rewrite U by (pose proof (Z.pow_pos_nonneg 2 w); lia). now destruct (length str =? 0)%nat. }
  destruct (radix_digits_ok _ _ _ E) as [Ok Ld].
  destruct ds as [|d ds]; [destruct str; [reflexivity | discriminate]|].
  destruct (Nat.eqb_spec (length str) 0); [cbn in Ld; lia|].
  destruct U as (u & o & -> & U0 & U1); [pose proof (Z.pow_pos_nonneg 2 w); lia|].
  fold (numeral radix (d :: ds)) in U0. set (m := numeral radix (d :: ds)) in *.
  pose proof (numeral_bound radix (d :: ds) ltac:(lia) Ok) as B. fold m in B.
  assert (R : rep (radix_bignum radix str) m) by (apply radix_bignum_spec; trivial; apply rep_0).
  assert (R' : rep (if neg then cl_arith_negate (radix_bignum radix str)
                    else radix_bignum radix str) (sv neg m)).
  { destruct neg; [|exact R]. apply rep_negate; trivial. apply (len16_bound _ m 255); trivial; try lia.
    rewrite Z.abs_eq by lia. apply Z.lt_trans with (36 ^ 255); [|exact pow36_255].
    apply Z.lt_le_trans with (radix ^ Z.of_nat (length (d :: ds))); [apply B|].
    apply Z.le_trans with (36 ^ Z.of_nat (length (d :: ds))).
    - apply Z.pow_le_mono_l. lia.
    - apply Z.pow_le_mono_r; lia. }
  destruct o; cbn [negb]; [eexists; split; [reflexivity | exact R']|].
  rewrite (U0 eq_refl). destruct neg; cbn [negb andb sv] in *.
  - destruct (Z.leb_spec m (CL_FIXNUM_MAX + 1)); [|eexists; split; [reflexivity | exact R']].
    eexists. split; [reflexivity|]. fixnums. rewrite i32_small by lia.
    apply rep_make_fixnum. fixnums. lia.
  - destruct (Z.leb_spec m CL_FIXNUM_MAX); [|eexists; split; [reflexivity | exact R']].
    eexists. split; [reflexivity|]. fixnums. rewrite i32_small by lia.
    apply rep_make_fixnum. fixnums. lia.
Qed.

(** ** Print, then read *)

Lemma digit_char_code d : 0 <= d < 36 -> digit_char d = if d <? 10 then 48 + d else 55 + d.
Proof.
  intros Hd. rewrite <- (Z2Nat.id d) in * by lia. set (k := Z.to_nat d) in *. clearbody k.
  unfold digit_char. rewrite Nat2Z.id. assert (H : (k < 36)%nat) by lia.
  do 36 (destruct k as [|k]; [reflexivity|]). lia.
Qed.

Lemma radix_digit_char d radix :
  0 <= d < radix -> radix <= 36 -> radix_digit (digit_char d) radix = Some d.
Proof.
  intros Hd Hr. rewrite digit_char_code by lia. unfold radix_digit.
  destruct (Z.ltb_spec d 10).
  - destruct (Z.geb_spec (48 + d) 48), (Z.leb_spec (48 + d) 57); try lia. cbn [andb].
    destruct (Z.geb_spec (48 + d - 48) radix); [lia|]. f_equal. lia.
  - destruct (Z.geb_spec (55 + d) 48), (Z.leb_spec (55 + d) 57); try lia. cbn [andb].
    destruct (Z.geb_spec (55 + d) 65), (Z.leb_spec (55 + d) 90); try lia. cbn [andb].
    destruct (Z.geb_spec (55 + d - 65 + 10) radix); [lia|]. f_equal. lia.
Qed.

Lemma radix_digits_printed radix ds :
  radix <= 36 -> digits_ok radix ds -> radix_digits radix (map digit_char ds) = Some ds.
Proof.
  intros Hr. induction 1 as [|d ds Hd Hds IH]; cbn [map radix_digits]; trivial.
  now rewrite radix_digit_char, IH.
Qed.

(** No digit is a sign character. *)
Lemma digit_char_range d : 0 <= d < 36 -> 48 <= digit_char d.
Proof. intros Hd. rewrite digit_char_code by lia. destruct (d <? 10); lia. Qed.

Lemma token_sign_printed (neg : bool) base ds :
  2 <= base <= 36 -> digits_ok base ds ->
  token_sign ((if neg then [45] else []) ++ map digit_char ds) = (neg, map digit_char ds).
Proof.
  intros Hb Ok. destruct neg; [reflexivity|]. cbn [app]. destruct Ok as [|d ds Hd Ok];
    [reflexivity|]. cbn [map token_sign]. pose proof (digit_char_range d ltac:(lia)).
  destruct (Z.eqb_spec (digit_char d) 45); [lia|]. now destruct (Z.eqb_spec (digit_char d) 43); [lia|].
Qed.

Lemma digits_of_nonempty base m ds : digits_of base m ds -> exists d t, ds = d :: t.
Proof.
  intros (Ok & N & H0 & H1). destruct ds as [|d t]; [|now exists d, t].
  change (numeral base []) with 0 in N. subst m. now specialize (H0 eq_refl).
Qed.

Lemma print_read_radix w n x base :
  rep n x -> 32 <= w -> 2 <= base <= 36 -> (length (print_integer n base false) <= 255)%nat ->
  read_radix_number w base (print_integer n base false) = Some n.
Proof.
  intros Hn Hw Hb L. destruct (print_integer_digits n x base Hn Hb) as (ds & E & D).
  pose proof (read_radix_number_spec w base _ Hw Hb L) as R. rewrite E in R |- *.
  destruct (digits_of_nonempty _ _ _ D) as (d & t & ->). destruct D as (Ok & N & _).
  rewrite (token_sign_printed (x <? 0) base), radix_digits_printed in R by (trivial; lia).
  destruct R as (r & -> & R). f_equal. rewrite N in R.
  apply (rep_unique r n x); trivial.
  replace x with (sv (x <? 0) (Z.abs x)) at 1; [exact R | symmetry; apply sv_abs].
Qed.

Lemma isdigit_printed ds :
  digits_ok 10 ds -> forallb cl_ascii_isdigit (map digit_char ds) = true /\
                     decimal_digits (map digit_char ds) = ds.
Proof.
  induction 1 as [|d ds Hd Hds [IH IH']]; [now split|]. cbn [map forallb decimal_digits].
  assert (E : digit_char d = 48 + d)
    by (rewrite digit_char_code by lia; destruct (Z.ltb_spec d 10); lia).
  rewrite E, IH. fold (decimal_digits (map digit_char ds)). rewrite IH'. split.
  - unfold cl_ascii_isdigit. now destruct (Z.geb_spec (48 + d) 48), (Z.leb_spec (48 + d) 57); lia.
  - f_equal. lia.
Qed.

Lemma print_read_decimal n x :
  rep n x -> (length (print_integer n 10 false) <= 255)%nat ->
  parse_decimal (print_integer n 10 false) = Ok (Some n).
Proof.
  intros Hn L. destruct (print_integer_digits n x 10 Hn ltac:(lia)) as (ds & E & D).
  pose proof (parse_decimal_spec (print_integer n 10 false) L) as R. rewrite E in R |- *.
  destruct (digits_of_nonempty _ _ _ D) as (d & t & ->). destruct D as (Ok & N & _).
  rewrite (token_sign_printed (x <? 0) 10) in R by (trivial; lia).
  destruct (isdigit_printed _ Ok) as [F Ed]. rewrite F, Ed, N in R.
  destruct R as (r & -> & R). do 2 f_equal.
  apply (rep_unique r n x); trivial.
  replace x with (sv (x <? 0) (Z.abs x)) at 1; [exact R | symmetry; apply sv_abs].
Qed.

Lemma read_radix_long w radix buf : (255 < length buf)%nat -> read_radix_number w radix buf = None.
Proof.
  intros L. unfold read_radix_number.
  destruct (match buf with [] => _ | _ => _ end). now destruct (Nat.ltb_spec 255 (length buf)); [|lia].
Qed.

(** ** Properties *)

(** C33: Reading back what was printed returns the very same object, in every
    radix from 2 to 36 with read_radix_number and in decimal with the atom
    reader, when the printed integer has at most 255 characters; a longer one
    is an error of either reader. *)
Theorem print_read_roundtrip w n x base :
  rep n x -> 32 <= w -> 2 <= base <= 36 ->
  read_radix_number w base (print_integer n base false)
    = (if (length (print_integer n base false) <=? 255)%nat then Some n else None) /\
  parse_decimal (print_integer n 10 false)
    = (if (length (print_integer n 10 false) <=? 255)%nat then Ok (Some n) else Err CL_ERR_PARSE).
Proof.
  intros Hn Hw Hb. split.
  - destruct (Nat.leb_spec (length (print_integer n base false)) 255).
    + now apply print_read_radix with x.
    + now apply read_radix_long.
  - destruct (Nat.leb_spec (length (print_integer n 10 false)) 255).
    + now apply (print_read_decimal n x).
    + now apply parse_decimal_long.
Qed.

Lemma print_read_roundtrip_witness :
  let n := Big true [21171; 28540; 2] in
  print_integer n 36 false = [45; 52; 83; 90; 84; 79; 54; 82] /\
  read_radix_number 32 36 (print_integer n 36 false) = Some n /\
  parse_decimal (print_integer n 10 false) = Ok (Some n).
Proof.
  destruct (print_read_roundtrip 32 (Big true [21171; 28540; 2]) (-10460353203) 36) as [H1 H2];
    [rep_eval | lia | lia|]. split; [vm_compute; reflexivity|]. exact (conj H1 H2).
Defined.

(** The printed form is a minus sign for a negative number and then the
    numeral of the magnitude in the base: digits below the base, most
    significant first, no leading zeros, and a single 0 for zero. *)
Theorem print_integer_correct n x base :
  rep n x -> 2 <= base <= 36 ->
  exists ds, print_integer n base false
               = (if x <? 0 then [45] else []) ++ map digit_char ds /\
             digits_of base (Z.abs x) ds.
Proof. exact (print_integer_digits n x base). Qed.

Lemma print_integer_correct_witness :
  print_integer (Big false [0; 0; 1]) 10 false = [52; 50; 57; 52; 57; 54; 55; 50; 57; 54] /\
  exists ds, print_integer (Big false [0; 0; 1]) 10 false
               = (if 4294967296 <? 0 then [45] else []) ++ map digit_char ds /\
             digits_of 10 (Z.abs 4294967296) ds.
Proof.
  split; [vm_compute; reflexivity|].
  apply (print_integer_correct (Big false [0; 0; 1]) 4294967296); [rep_eval | lia].
Defined.

(** The atom reader takes a token of at most 255 characters for an
    integer exactly when, after an optional sign, it is a non-empty string of
    decimal digits, and returns its value whatever the length; likewise
    read_radix_number for the digits of its radix, letters in either case. *)
Theorem read_integer_correct w radix buf :
  32 <= w -> 2 <= radix <= 36 -> (length buf <= 255)%nat ->
  (let '(neg, str) := token_sign buf in
   if forallb cl_ascii_isdigit str && negb (length str =? 0)%nat
   then exists r, parse_decimal buf = Ok (Some r) /\
                  rep r (sv neg (numeral 10 (decimal_digits str)))
   else parse_decimal buf = Ok None) /\
  (let '(neg, str) := token_sign buf in
   match radix_digits radix str with
   | Some ((_ :: _) as ds) =>
       exists r, read_radix_number w radix buf = Some r /\ rep r (sv neg (numeral radix ds))
   | _ => read_radix_number w radix buf = None
   end).
Proof.
  intros Hw Hr Hl. split; [exact (parse_decimal_spec buf Hl)|].
  exact (read_radix_number_spec w radix buf Hw Hr Hl).
Qed.

(** [-2147483648] in decimal and as a numeral of radix 16. *)
Lemma read_integer_correct_witness :
  let buf := [45; 50; 49; 52; 55; 52; 56; 51; 54; 52; 56] in
  parse_decimal buf = Ok (Some (Big true [0; 32768])) /\
  (let '(neg, str) := token_sign buf in
   if forallb cl_ascii_isdigit str && negb (length str =? 0)%nat
   then exists r, parse_decimal buf = Ok (Some r) /\
                  rep r (sv neg (numeral 10 (decimal_digits str)))
   else parse_decimal buf = Ok None) /\
  (let '(neg, str) := token_sign buf in
   match radix_digits 16 str with
   | Some ((_ :: _) as ds) =>
       exists r, read_radix_number 64 16 buf = Some r /\ rep r (sv neg (numeral 16 ds))
   | _ => read_radix_number 64 16 buf = None
   end).
Proof.
  split; [vm_compute; reflexivity|].
  apply (read_integer_correct 64 16 [45; 50; 49; 52; 55; 52; 56; 51; 54; 52; 56]);
    [lia | lia | cbn; lia].
Defined.
