(* ===== verification/Ratio.v ===== *)
(** * Exact rationals

    src/src/core/ratio.c, and the ratio dispatch of cl_arith_add, cl_arith_sub, cl_arith_mul,
    cl_arith_negate, cl_arith_abs, cl_arith_compare and the sign predicates
    (src/src/core/bignum.c).  [rational] is the domain of these functions without floats: an
    integer object or a heap ratio of two.

    [rrep r q] relates an object to the number of [Q] it denotes: a ratio is in
    lowest terms with a denominator above 1.  Every operation keeps that form
    and computes the exact result.

    cl_arith_negate and cl_arith_abs copy a bignum through a [uint16_t] length
    (Bignum.v), so the lemmas bound the operands: [rbits r k] says numerator
    and denominator are below 2^k. *)

From Stdlib Require Import ZArith List Lia Bool QArith Qabs Znumtheory Qfield.
From S2P Require Import Prelude Limbs Bignum BignumExt.
Import ListNotations.
Local Open Scope Z_scope.
Local Open Scope amilisp_scope.

Inductive rational : Set :=
| RInt (i : integer)
| RRatio (num den : integer).

Definition CL_RATIO_P (r : rational) : bool :=
  match r with RRatio _ _ => true | RInt _ => false end.

Definition cl_numerator (obj : rational) : integer :=
  match obj with RRatio n _ => n | RInt i => i end.

Definition cl_denominator (obj : rational) : integer :=
  match obj with RRatio _ d => d | RInt _ => make_fixnum 1 end.

Definition cl_make_ratio_normalized (num den : integer) : result rational :=
  if cl_arith_zerop den then Err CL_ERR_DIVZERO
  else if cl_arith_zerop num then Ok (RInt (make_fixnum 0))
  else
    let neg := cl_arith_minusp den in
    let num := if neg then cl_arith_negate num else num in
    let den := if neg then cl_arith_negate den else den in
    let g := cl_arith_gcd (cl_arith_abs num) den in
    num <- cl_arith_truncate num g ;;
    den <- cl_arith_truncate den g ;;
    match den with
    | Fix 1 => Ok (RInt num)
    | _ => Ok (RRatio num den)
    end.

(** ** ratio.c *)

Definition cl_ratio_add (a b : rational) : result rational :=
  let an := cl_numerator a in
  let ad := cl_denominator a in
  let bn := cl_numerator b in
  let bd := cl_denominator b in
  let num := cl_arith_add (cl_arith_mul an bd) (cl_arith_mul bn ad) in
  cl_make_ratio_normalized num (cl_arith_mul ad bd).

Definition cl_ratio_sub (a b : rational) : result rational :=
  let an := cl_numerator a in
  let ad := cl_denominator a in
  let bn := cl_numerator b in
  let bd := cl_denominator b in
  let num := cl_arith_sub (cl_arith_mul an bd) (cl_arith_mul bn ad) in
  cl_make_ratio_normalized num (cl_arith_mul ad bd).

Definition cl_ratio_mul (a b : rational) : result rational :=
  cl_make_ratio_normalized (cl_arith_mul (cl_numerator a) (cl_numerator b))
                           (cl_arith_mul (cl_denominator a) (cl_denominator b)).

Definition cl_ratio_div (a b : rational) : result rational :=
  if cl_arith_zerop (cl_numerator b) then Err CL_ERR_DIVZERO
  else cl_make_ratio_normalized (cl_arith_mul (cl_numerator a) (cl_denominator b))
                                (cl_arith_mul (cl_denominator a) (cl_numerator b)).

Definition cl_ratio_negate (a : rational) : rational :=
  match a with
  | RRatio n d => RRatio (cl_arith_negate n) d
  | RInt i => RInt (cl_arith_negate i)
  end.

Definition cl_ratio_abs (a : rational) : rational :=
  match a with
  | RRatio n d => RRatio (cl_arith_abs n) d
  | RInt i => RInt (cl_arith_abs i)
  end.

Definition cl_ratio_compare (a b : rational) : Z :=
  cl_arith_compare (cl_arith_mul (cl_numerator a) (cl_denominator b))
                   (cl_arith_mul (cl_numerator b) (cl_denominator a)).

Definition cl_ratio_zerop (a : rational) : bool :=
  match a with RRatio n _ => cl_arith_zerop n | RInt i => cl_arith_zerop i end.

Definition cl_ratio_plusp (a : rational) : bool :=
  match a with RRatio n _ => cl_arith_plusp n | RInt i => cl_arith_plusp i end.

Definition cl_ratio_minusp (a : rational) : bool :=
  match a with RRatio n _ => cl_arith_minusp n | RInt i => cl_arith_minusp i end.

Definition cl_ratio_equal (a b : rational) : bool :=
  match a, b with
  | RRatio n d, RRatio n' d' =>
      (cl_arith_compare n n' =? 0) && (cl_arith_compare d d' =? 0)
  | _, _ => false
  end.

(** The hash word of one component. *)
Definition int_hash_word (i : integer) : Z :=
  match i with Fix v => u32 v | Big s l => cl_bignum_hash s l end.

Definition cl_ratio_hash (obj : rational) : Z :=
  match obj with
  | RInt _ => 0
  | RRatio n d =>
      Z.lxor (u32 (Z.lxor 2654435769 (int_hash_word n) * 16777619)) (int_hash_word d)
  end.

(** ** The ratio dispatch of bignum.c *)

Definition real_add (a b : rational) : result rational :=
  match a, b with
  | RInt i, RInt j => Ok (RInt (cl_arith_add i j))
  | _, _ => cl_ratio_add a b
  end.

Definition real_sub (a b : rational) : result rational :=
  match a, b with
  | RInt i, RInt j => Ok (RInt (cl_arith_sub i j))
  | _, _ => cl_ratio_sub a b
  end.

Definition real_mul (a b : rational) : result rational :=
  match a, b with
  | RInt i, RInt j => Ok (RInt (cl_arith_mul i j))
  | _, _ => cl_ratio_mul a b
  end.

Definition real_negate (a : rational) : rational :=
  if CL_RATIO_P a then cl_ratio_negate a else RInt (cl_arith_negate (cl_numerator a)).

Definition real_abs (a : rational) : rational :=
  if CL_RATIO_P a then cl_ratio_abs a else RInt (cl_arith_abs (cl_numerator a)).

Definition real_compare (a b : rational) : Z :=
  match a, b with
  | RInt i, RInt j => cl_arith_compare i j
  | _, _ => cl_ratio_compare a b
  end.

(** ** What an object denotes *)

Definition frac (n d : Z) : Q := (inject_Z n / inject_Z d)%Q.

Definition rrep (r : rational) (q : Q) : Prop :=
  match r with
  | RInt i => exists n, rep i n /\ (q == inject_Z n)%Q
  | RRatio a b => exists n d, rep a n /\ rep b d /\ 1 < d /\ Z.gcd n d = 1 /\ (q == frac n d)%Q
  end.

#[export] Instance rrep_proper r : Morphisms.Proper (Qeq ==> iff)%signature (rrep r).
Proof.
  intros p q E. destruct r; cbn [rrep]; setoid_rewrite E; reflexivity.
Qed.

(** Numerator and denominator below 2^k. *)
Definition rbits (r : rational) (k : Z) : Prop :=
  Z.abs (int_val (cl_numerator r)) < 2 ^ k /\ Z.abs (int_val (cl_denominator r)) < 2 ^ k.

(** The operands cl_arith_negate and cl_arith_abs copy whole: 2^1048560 is
    the least magnitude of 65536 limbs. *)
Definition BITS16 : Z := 1048560.

Create HintDb rats.

Lemma inject_nz d : d <> 0 -> ~ (inject_Z d == 0)%Q.
Proof. intros H E. apply H. change (d * 1 = 0) in E. lia. Qed.
#[export] Hint Resolve inject_nz : rats.

Lemma frac_1 n : (frac n 1 == inject_Z n)%Q.
Proof. unfold frac. field. Qed.

Lemma frac_cancel g n d : g <> 0 -> d <> 0 -> (frac (g * n) (g * d) == frac n d)%Q.
Proof.
  intros Hg Hd. unfold frac. rewrite !inject_Z_mult. field. split; now apply inject_nz.
Qed.

Lemma frac_add n d n' d' :
  d <> 0 -> d' <> 0 -> (frac (n * d' + n' * d) (d * d') == frac n d + frac n' d')%Q.
Proof.
  intros Hd Hd'. unfold frac. rewrite inject_Z_plus, !inject_Z_mult. field.
  split; now apply inject_nz.
Qed.

Lemma frac_sub n d n' d' :
  d <> 0 -> d' <> 0 -> (frac (n * d' - n' * d) (d * d') == frac n d - frac n' d')%Q.
Proof.
  intros Hd Hd'. replace (n * d' - n' * d) with (n * d' + - (n' * d)) by lia.
  unfold frac. rewrite inject_Z_plus, inject_Z_opp, !inject_Z_mult. field.
  split; now apply inject_nz.
Qed.

Lemma frac_mul n d n' d' :
  d <> 0 -> d' <> 0 -> (frac (n * n') (d * d') == frac n d * frac n' d')%Q.
Proof.
  intros Hd Hd'. unfold frac. rewrite !inject_Z_mult. field. split; now apply inject_nz.
Qed.

Lemma frac_div n d n' d' :
  d <> 0 -> d' <> 0 -> n' <> 0 -> (frac (n * d') (d * n') == frac n d / frac n' d')%Q.
Proof.
  intros Hd Hd' Hn'. unfold frac. rewrite !inject_Z_mult. field.
  repeat split; now apply inject_nz.
Qed.

Lemma frac_opp n d : d <> 0 -> (frac (- n) d == - frac n d)%Q.
Proof. intros Hd. unfold frac. rewrite inject_Z_opp. field. now apply inject_nz. Qed.

(** Comparing fractions with positive denominators. *)
Lemma frac_compare n d n' d' :
  0 < d -> 0 < d' -> (frac n d ?= frac n' d')%Q = (n * d' ?= n' * d).
Proof.
  intros Hd Hd'. unfold frac, Qcompare, Qdiv, Qinv, Qmult, inject_Z.
  destruct d as [|d|d]; try lia. destruct d' as [|d'|d']; try lia.
  cbn [Qnum Qden]. rewrite !Z.mul_1_r. reflexivity.
Qed.

Lemma frac_eq n d n' d' : 0 < d -> 0 < d' -> (frac n d == frac n' d')%Q <-> n * d' = n' * d.
Proof.
  intros Hd Hd'. rewrite Qeq_alt, frac_compare by trivial. apply Z.compare_eq_iff.
Qed.

(** ** Canonical form *)

(** Both forms at once: a fraction in lowest terms. *)
Lemma rrep_parts r q :
  rrep r q -> exists n d, rep (cl_numerator r) n /\ rep (cl_denominator r) d /\
    0 < d /\ Z.gcd n d = 1 /\ (q == frac n d)%Q.
Proof.
  destruct r as [i|a b]; cbn [rrep cl_numerator cl_denominator].
  - intros (n & Hn & E). exists n, 1. split; [trivial|]. split; [apply rep_small; lia|].
    split; [lia|]. split; [apply Z.gcd_1_r|]. now rewrite frac_1.
  - intros (n & d & Hn & Hd & H1 & G & E). exists n, d. repeat (split; trivial). lia.
Qed.

Lemma rrep_unique r s q : rrep r q -> rrep s q -> r = s.
Proof.
  intros Hr Hs. pose proof (rrep_parts r q Hr) as (n & d & Hn & Hd & Pd & G & E).
  pose proof (rrep_parts s q Hs) as (n' & d' & Hn' & Hd' & Pd' & G' & E').
  rewrite E' in E. apply (frac_eq n' d' n d Pd' Pd) in E.
  assert (Hdd : d = d').
  { apply Z.divide_antisym_nonneg; try lia.
    - apply Z.gauss with n; [exists n'; lia | now rewrite Z.gcd_comm].
    - apply Z.gauss with n'; [exists n; lia | now rewrite Z.gcd_comm]. }
  subst d'. assert (n = n') by nia. subst n'. clear E E'.
  destruct r as [i|a b], s as [j|a' b']; cbn [rrep cl_numerator cl_denominator] in *.
  - f_equal. now apply rep_unique with n.
  - destruct Hs as (n2 & d2 & _ & H2 & P2 & _). destruct Hd' as [_ V], H2 as [_ V2].
    destruct Hd as [_ V']. change (int_val (make_fixnum 1)) with 1 in V'. lia.
  - destruct Hr as (n2 & d2 & _ & H2 & P2 & _). destruct Hd as [_ V], H2 as [_ V2].
    destruct Hd' as [_ V']. change (int_val (make_fixnum 1)) with 1 in V'. lia.
  - f_equal; [now apply rep_unique with n | now apply rep_unique with d].
Qed.

(** Operands of fewer than [BITS16] bits are copied whole. *)
Lemma len16_of_bits a x k : rep a x -> Z.abs x < 2 ^ k -> k <= BITS16 -> len16 a.
Proof.
  intros [Hw <-] Hx Hk. destruct a as [v|s l]; [exact I|]. cbn [len16 int_val] in *.
  destruct Hw as (W & C & N). pose proof (wf_val_nonneg l W).
  replace (Z.abs (sv s (val l))) with (val l) in Hx by (destruct s; cbn [sv]; lia).
  destruct (Z.lt_ge_cases (Z.of_nat (length l)) 65536) as [|H1]; trivial. exfalso.
  pose proof (canonical_lower 65536 base16_pos l W C ltac:(lia)) as B.
  change 65536 with (2 ^ 16) in B at 1. rewrite <- Z.pow_mul_r in B by lia.
  assert (2 ^ k <= 2 ^ (16 * (Z.of_nat (length l) - 1)))
    by (apply Z.pow_le_mono_r; unfold BITS16 in Hk; lia). lia.
Qed.

(** ** Normalisation *)

Lemma truncate_exact a g x y k :
  rep a x -> rep g y -> 0 < y -> x = y * k ->
  exists q, cl_arith_truncate a g = Ok q /\ rep q k.
Proof.
  intros Ha Hg Hy ->. destruct (cl_arith_truncate_spec a g (y * k) y) as (q & E & R);
    trivial; try lia.
  exists q. split; trivial. rewrite Z.mul_comm, Z.quot_mul in R by lia. exact R.
Qed.

(** Lowest terms of two numbers of at most [k] bits. *)
Lemma cl_make_ratio_normalized_spec num den n d k :
  rep num n -> rep den d -> d <> 0 -> Z.abs n < 2 ^ k -> Z.abs d < 2 ^ k -> k <= BITS16 ->
  exists r, cl_make_ratio_normalized num den = Ok r /\ rrep r (frac n d) /\ rbits r k.
Proof.
  intros Hn Hd Hd0 Bn Bd Hk. unfold cl_make_ratio_normalized.
  rewrite (cl_arith_zerop_spec den d Hd), (cl_arith_zerop_spec num n Hn),
    (cl_arith_minusp_spec den d Hd).
  destruct (Z.eqb_spec d 0); [contradiction|]. destruct (Z.eqb_spec n 0) as [->|Hn0].
  { eexists. split; [reflexivity|]. split.
    - exists 0. split; [apply rep_0|]. unfold frac, Qdiv. now rewrite Qmult_0_l.
    - unfold rbits. cbn [cl_numerator cl_denominator]. change (int_val (make_fixnum 0)) with 0.
      change (int_val (make_fixnum 1)) with 1. split; lia. }
  pose proof (len16_of_bits num n k Hn Bn Hk) as L1.
  pose proof (len16_of_bits den d k Hd Bd Hk) as L2.
  (* the signed numerator over a positive denominator *)
  set (num' := if d <? 0 then cl_arith_negate num else num).
  set (den' := if d <? 0 then cl_arith_negate den else den).
  assert (P : exists n' d', rep num' n' /\ rep den' d' /\ 0 < d' /\ n' <> 0 /\
                Z.abs n' = Z.abs n /\ d' = Z.abs d /\ (frac n' d' == frac n d)%Q).
  { subst num' den'. destruct (Z.ltb_spec d 0).
    - exists (- n), (- d). split; [auto with ints|]. split; [auto with ints|].
      do 4 (split; [lia|]).
      replace (- n) with (-1 * n) by lia. replace (- d) with (-1 * d) by lia.
      apply frac_cancel; lia.
    - exists n, d. split; [trivial|]. split; [trivial|]. do 4 (split; [lia|]). reflexivity. }
  clearbody num' den'. destruct P as (n' & d' & Rn & Rd & Pd & N0 & An & Ad & EF).
  assert (L1' : len16 num') by (apply (len16_of_bits _ n' k); trivial; lia).
  assert (L2' : len16 den') by (apply (len16_of_bits _ d' k); trivial; lia).
  pose proof (rep_abs num' n' Rn (fun _ => L1')) as Ra.
  assert (L3 : len16 (cl_arith_abs num')) by (apply (len16_of_bits _ _ k Ra); lia).
  pose proof (rep_gcd _ _ _ _ Ra Rd (fun _ => L3) (fun _ => L2')) as Rg. rewrite Z.gcd_abs_l in Rg.
  set (g := Z.gcd n' d') in *.
  assert (Hg : 0 < g) by (pose proof (Z.gcd_nonneg n' d'); pose proof (Z.gcd_eq_0_l n' d'); lia).
  destruct (Z.gcd_divide_l n' d') as [p Ep]. destruct (Z.gcd_divide_r n' d') as [c Ec].
  fold g in Ep, Ec.
  destruct (truncate_exact num' _ n' g p Rn Rg Hg ltac:(lia)) as (qn & -> & Rp). cbn [bind].
  destruct (truncate_exact den' _ d' g c Rd Rg Hg ltac:(lia)) as (qd & -> & Rc). cbn [bind].
  assert (Gpc : Z.gcd p c = 1).
  { pose proof (Z.gcd_mul_mono_r p c g) as M. rewrite <- Ep, <- Ec, Z.abs_eq in M by lia.
    fold g in M. nia. }
  assert (Hc : 0 < c) by nia.
  assert (Eq : (frac n d == frac p c)%Q).
  { rewrite <- EF, Ep, Ec, (Z.mul_comm p), (Z.mul_comm c). apply frac_cancel; lia. }
  assert (Bp : Z.abs p < 2 ^ k) by nia. assert (Bc : Z.abs c < 2 ^ k) by nia.
  assert (S : exists r, match qd with Fix 1 => Ok (RInt qn) | _ => Ok (RRatio qn qd) end = Ok r /\
                        r = if c =? 1 then RInt qn else RRatio qn qd).
  { destruct Rc as [Wc Vc]. destruct qd as [v|s l]; cbn [int_val] in Vc.
    - subst v. destruct (Z.eqb_spec c 1) as [->|Nc]; [now eexists|].
      destruct c as [|c|c]; try lia. destruct c; try lia; now eexists.
    - destruct Wc as (W & C & N). pose proof (wf_val_nonneg l W).
      destruct (Z.eqb_spec c 1) as [->|Nc]; [|now eexists].
      destruct s; cbn [sv] in Vc; fixnums; lia. }
  destruct S as (r & -> & ->). eexists. split; [reflexivity|].
  destruct (Z.eqb_spec c 1) as [->|Nc].
  - split; [exists p; split; trivial; now rewrite Eq, frac_1|].
    split; cbn [cl_numerator cl_denominator]; [now rewrite (proj2 Rp)|].
    change (int_val (make_fixnum 1)) with 1. lia.
  - split; [exists p, c; split; [trivial|]; split; [trivial|]; split; [lia|]; now split|].
    split; cbn [cl_numerator cl_denominator]; [now rewrite (proj2 Rp) | now rewrite (proj2 Rc)].
Qed.

(** ** Arithmetic *)

(** A fraction of bounded components. *)
Lemma rrep_parts_bits r q k :
  rrep r q -> rbits r k -> exists n d, rep (cl_numerator r) n /\ rep (cl_denominator r) d /\
    0 < d /\ (q == frac n d)%Q /\ Z.abs n < 2 ^ k /\ Z.abs d < 2 ^ k.
Proof.
  intros Hr [B1 B2]. destruct (rrep_parts r q Hr) as (n & d & Hn & Hd & Pd & _ & E).
  exists n, d. rewrite (proj2 Hn) in B1. rewrite (proj2 Hd) in B2. auto 7.
Qed.

Lemma bits_nonneg x k : Z.abs x < 2 ^ k -> 0 <= k.
Proof. intros H. destruct (Z.lt_ge_cases k 0); trivial. rewrite Z.pow_neg_r in H; lia. Qed.

Lemma bits_mul x y k : Z.abs x < 2 ^ k -> Z.abs y < 2 ^ k -> Z.abs (x * y) < 2 ^ (2 * k).
Proof.
  intros Hx Hy. pose proof (bits_nonneg x k Hx). replace (2 * k) with (k + k) by lia.
  rewrite Z.pow_add_r, Z.abs_mul by lia. nia.
Qed.

Lemma bits_double x k : Z.abs x < 2 ^ k + 2 ^ k -> 0 <= k -> Z.abs x < 2 ^ (k + 1).
Proof. intros H Hk. rewrite Z.pow_add_r by lia. lia. Qed.

Lemma bits_mono x k j : Z.abs x < 2 ^ k -> k <= j -> Z.abs x < 2 ^ j.
Proof. intros H Hk. assert (2 ^ k <= 2 ^ j) by (apply Z.pow_le_mono_r; lia). lia. Qed.

Lemma rbits_mono r k j : rbits r k -> k <= j -> rbits r j.
Proof. intros [H1 H2] Hk. split; eauto using bits_mono. Qed.

Section Arithmetic.
Context {a b : rational} {p q : Q} {k : Z}.
Hypothesis (Ha : rrep a p) (Hb : rrep b q) (Ba : rbits a k) (Bb : rbits b k).
Hypothesis (Hk : 2 * k + 1 <= BITS16).

Definition computes (f : result rational) (v : Q) : Prop :=
  exists r, f = Ok r /\ rrep r v /\ rbits r (2 * k + 1).

Lemma computes_eq f v w : (w == v)%Q -> computes f v -> computes f w.
Proof. intros E (r & H1 & H2 & H3). exists r. now rewrite E. Qed.

Lemma cl_ratio_add_spec : computes (cl_ratio_add a b) (p + q).
Proof.
  destruct (rrep_parts_bits a p k Ha Ba) as (n & d & Hn & Hd & Pd & E & Bn & Bd).
  destruct (rrep_parts_bits b q k Hb Bb) as (n' & d' & Hn' & Hd' & Pd' & E' & Bn' & Bd').
  pose proof (bits_mul n d' k Bn Bd'). pose proof (bits_mul n' d k Bn' Bd).
  pose proof (bits_nonneg n k Bn).
  apply computes_eq with (frac (n * d' + n' * d) (d * d')).
  { rewrite frac_add, E, E' by lia. reflexivity. }
  apply cl_make_ratio_normalized_spec; auto with ints; try lia.
  - apply bits_double; lia.
  - apply bits_mono with (2 * k); [apply bits_mul; trivial | lia].
Qed.

Lemma cl_ratio_sub_spec : computes (cl_ratio_sub a b) (p - q).
Proof.
  destruct (rrep_parts_bits a p k Ha Ba) as (n & d & Hn & Hd & Pd & E & Bn & Bd).
  destruct (rrep_parts_bits b q k Hb Bb) as (n' & d' & Hn' & Hd' & Pd' & E' & Bn' & Bd').
  pose proof (bits_mul n d' k Bn Bd'). pose proof (bits_mul n' d k Bn' Bd).
  pose proof (bits_nonneg n k Bn).
  apply computes_eq with (frac (n * d' - n' * d) (d * d')).
  { rewrite frac_sub, E, E' by lia. reflexivity. }
  apply cl_make_ratio_normalized_spec; auto with ints; try lia.
  - apply bits_double; lia.
  - apply bits_mono with (2 * k); [apply bits_mul; trivial | lia].
Qed.

Lemma cl_ratio_mul_spec : computes (cl_ratio_mul a b) (p * q).
Proof.
  destruct (rrep_parts_bits a p k Ha Ba) as (n & d & Hn & Hd & Pd & E & Bn & Bd).
  destruct (rrep_parts_bits b q k Hb Bb) as (n' & d' & Hn' & Hd' & Pd' & E' & Bn' & Bd').
  apply computes_eq with (frac (n * n') (d * d')).
  { rewrite frac_mul, E, E' by lia. reflexivity. }
  apply cl_make_ratio_normalized_spec; auto with ints; try lia;
    (apply bits_mono with (2 * k); [apply bits_mul; trivial | lia]).
Qed.

Lemma cl_ratio_div_spec : ~ (q == 0)%Q -> computes (cl_ratio_div a b) (p / q).
Proof.
  intros Hq. unfold cl_ratio_div.
  destruct (rrep_parts_bits a p k Ha Ba) as (n & d & Hn & Hd & Pd & E & Bn & Bd).
  destruct (rrep_parts_bits b q k Hb Bb) as (n' & d' & Hn' & Hd' & Pd' & E' & Bn' & Bd').
  rewrite (cl_arith_zerop_spec _ _ Hn'). destruct (Z.eqb_spec n' 0) as [->|N].
  { exfalso. apply Hq. rewrite E'. unfold frac, Qdiv. now rewrite Qmult_0_l. }
  apply computes_eq with (frac (n * d') (d * n')).
  { rewrite frac_div, E, E' by lia. reflexivity. }
  apply cl_make_ratio_normalized_spec; auto with ints; try lia;
    (apply bits_mono with (2 * k); [apply bits_mul; trivial | lia]).
Qed.

(** The integer fast paths. *)
Lemma computes_int i x v :
  0 <= k -> rep i x -> Z.abs x < 2 ^ (2 * k + 1) -> (v == inject_Z x)%Q ->
  computes (Ok (RInt i)) v.
Proof.
  intros Hk0 Hi Hx E. exists (RInt i). split; [reflexivity|]. split; [now exists x|].
  split; cbn [cl_numerator cl_denominator]; [now rewrite (proj2 Hi)|].
  change (int_val (make_fixnum 1)) with 1.
  apply Z.lt_le_trans with (2 ^ 1); [lia | apply Z.pow_le_mono_r; lia].
Qed.

Lemma real_add_spec : computes (real_add a b) (p + q).
Proof.
  pose proof cl_ratio_add_spec as R. unfold real_add.
  destruct a as [i|n d]; [destruct b as [j|n' d']|]; try exact R. clear R.
  destruct Ha as (x & Hx & E), Hb as (y & Hy & E'). destruct Ba as [B1 _], Bb as [B2 _].
  cbn [cl_numerator] in B1, B2. rewrite (proj2 Hx) in B1. rewrite (proj2 Hy) in B2.
  pose proof (bits_nonneg x k B1).
  apply computes_int with (x + y); auto with ints.
  - apply bits_mono with (k + 1); [apply bits_double; lia | lia].
  - rewrite inject_Z_plus, E, E'. reflexivity.
Qed.

Lemma real_sub_spec : computes (real_sub a b) (p - q).
Proof.
  pose proof cl_ratio_sub_spec as R. unfold real_sub.
  destruct a as [i|n d]; [destruct b as [j|n' d']|]; try exact R. clear R.
  destruct Ha as (x & Hx & E), Hb as (y & Hy & E'). destruct Ba as [B1 _], Bb as [B2 _].
  cbn [cl_numerator] in B1, B2. rewrite (proj2 Hx) in B1. rewrite (proj2 Hy) in B2.
  pose proof (bits_nonneg x k B1).
  apply computes_int with (x - y); auto with ints.
  - apply bits_mono with (k + 1); [apply bits_double; lia | lia].
  - unfold Z.sub. rewrite inject_Z_plus, inject_Z_opp, E, E'. reflexivity.
Qed.

Lemma real_mul_spec : computes (real_mul a b) (p * q).
Proof.
  pose proof cl_ratio_mul_spec as R. unfold real_mul.
  destruct a as [i|n d]; [destruct b as [j|n' d']|]; try exact R. clear R.
  destruct Ha as (x & Hx & E), Hb as (y & Hy & E'). destruct Ba as [B1 _], Bb as [B2 _].
  cbn [cl_numerator] in B1, B2. rewrite (proj2 Hx) in B1. rewrite (proj2 Hy) in B2.
  apply computes_int with (x * y); auto with ints; [now apply (bits_nonneg x)| |].
  - apply bits_mono with (2 * k); [now apply bits_mul | lia].
  - rewrite inject_Z_mult, E, E'. reflexivity.
Qed.
End Arithmetic.
Arguments computes k f v : clear implicits.

Lemma cl_ratio_div_zero a b p : rrep a p -> rrep b 0 -> cl_ratio_div a b = Err CL_ERR_DIVZERO.
Proof.
  intros Ha Hb. unfold cl_ratio_div.
  destruct (rrep_parts b 0 Hb) as (n & d & Hn & Hd & Pd & _ & E).
  rewrite <- (frac_1 0) in E. apply (frac_eq 0 1 n d ltac:(lia) Pd) in E.
  rewrite (cl_arith_zerop_spec _ _ Hn). replace n with 0 by lia. reflexivity.
Qed.

(** Sign changes keep lowest terms without a gcd. *)
Lemma rrep_sign_change r q n d n' :
  rrep (RRatio n d) q -> rep n' r -> (Z.abs r = Z.abs (int_val n)) ->
  forall q', (q' == frac r (int_val d))%Q -> rrep (RRatio n' d) q'.
Proof.
  intros (x & y & [_ Vx] & Hy & P & G & E) Hr A q' E'. exists r, y. split; [trivial|].
  split; [trivial|]. split; [trivial|]. rewrite (proj2 Hy) in E'. split; [|trivial].
  rewrite <- Z.gcd_abs_l, A, Vx, Z.gcd_abs_l. exact G.
Qed.

Lemma real_negate_spec a q k :
  rrep a q -> rbits a k -> k <= BITS16 -> rrep (real_negate a) (- q) /\ rbits (real_negate a) k.
Proof.
  intros Ha [B1 B2] Hk. destruct a as [i|n d]; cbn [real_negate CL_RATIO_P cl_ratio_negate cl_numerator cl_denominator] in *.
  - destruct Ha as (x & Hx & E). rewrite (proj2 Hx) in B1.
    pose proof (rep_negate i x Hx (len16_of_bits _ _ _ Hx B1 Hk)) as R. split.
    + exists (- x). split; trivial. now rewrite E, inject_Z_opp.
    + split; cbn [cl_numerator cl_denominator]; [rewrite (proj2 R); lia | trivial].
  - pose proof Ha as (x & y & Hx & Hy & P & G & E). rewrite (proj2 Hx) in B1.
    pose proof (rep_negate n x Hx (len16_of_bits _ _ _ Hx B1 Hk)) as R. split.
    + apply (rrep_sign_change (- x) q n d); trivial; rewrite ?(proj2 Hx), ?(proj2 Hy); [lia|].
      now rewrite E, frac_opp by lia.
    + split; cbn [cl_numerator cl_denominator]; [rewrite (proj2 R); lia | trivial].
Qed.

Lemma frac_abs n d : 0 < d -> (frac (Z.abs n) d == Qabs (frac n d))%Q.
Proof.
  intros Hd. unfold frac, Qdiv. rewrite Qabs_Qmult.
  destruct d as [|d|d]; try lia. cbn. reflexivity.
Qed.

Lemma real_abs_spec a q k :
  rrep a q -> rbits a k -> k <= BITS16 ->
  rrep (real_abs a) (Qabs q) /\ rbits (real_abs a) k.
Proof.
  intros Ha [B1 B2] Hk. destruct a as [i|n d]; cbn [real_abs CL_RATIO_P cl_ratio_abs cl_numerator cl_denominator] in *.
  - destruct Ha as (x & Hx & E). rewrite (proj2 Hx) in B1.
    pose proof (rep_abs i x Hx (fun _ => len16_of_bits _ _ _ Hx B1 Hk)) as R. split.
    + exists (Z.abs x). split; trivial. now rewrite E.
    + split; cbn [cl_numerator cl_denominator]; [rewrite (proj2 R); lia | trivial].
  - pose proof Ha as (x & y & Hx & Hy & P & G & E). rewrite (proj2 Hx) in B1.
    pose proof (rep_abs n x Hx (fun _ => len16_of_bits _ _ _ Hx B1 Hk)) as R. split.
    + apply (rrep_sign_change (Z.abs x) q n d); trivial; rewrite ?(proj2 Hx), ?(proj2 Hy); [lia|].
      now rewrite E, frac_abs by lia.
    + split; cbn [cl_numerator cl_denominator]; [rewrite (proj2 R); lia | trivial].
Qed.

(** ** Comparison and predicates *)

Definition qsgn_compare (p q : Q) : Z :=
  match (p ?= q)%Q with Lt => -1 | Eq => 0 | Gt => 1 end.

Lemma cl_ratio_compare_spec a b p q :
  rrep a p -> rrep b q -> cl_ratio_compare a b = qsgn_compare p q.
Proof.
  intros Ha Hb. unfold cl_ratio_compare, qsgn_compare.
  destruct (rrep_parts a p Ha) as (n & d & Hn & Hd & Pd & _ & E).
  destruct (rrep_parts b q Hb) as (n' & d' & Hn' & Hd' & Pd' & _ & E').
  rewrite (cl_arith_compare_spec _ _ (n * d') (n' * d)) by auto with ints.
  unfold sgn_compare. now rewrite E, E', frac_compare.
Qed.

Lemma real_compare_spec a b p q :
  rrep a p -> rrep b q -> real_compare a b = qsgn_compare p q.
Proof.
  intros Ha Hb. pose proof (cl_ratio_compare_spec a b p q Ha Hb) as R. unfold real_compare.
  destruct a as [i|n d]; [destruct b as [j|n' d']|]; try exact R. clear R.
  destruct Ha as (x & Hx & E), Hb as (y & Hy & E').
  rewrite (cl_arith_compare_spec _ _ x y) by trivial. unfold sgn_compare, qsgn_compare.
  rewrite E, E', <- (frac_1 x), <- (frac_1 y), frac_compare, !Z.mul_1_r by lia. reflexivity.
Qed.

Lemma cl_ratio_zerop_spec a q : rrep a q -> cl_ratio_zerop a = true <-> (q == 0)%Q.
Proof.
  intros Ha. destruct (rrep_parts a q Ha) as (n & d & Hn & Hd & Pd & _ & E).
  replace (cl_ratio_zerop a) with (cl_arith_zerop (cl_numerator a)) by (now destruct a).
  rewrite (cl_arith_zerop_spec _ _ Hn), E, <- (frac_1 0), (frac_eq n d 0 1), Z.eqb_eq by lia. lia.
Qed.

Lemma cl_ratio_minusp_spec a q : rrep a q -> cl_ratio_minusp a = true <-> (q < 0)%Q.
Proof.
  intros Ha. destruct (rrep_parts a q Ha) as (n & d & Hn & Hd & Pd & _ & E).
  replace (cl_ratio_minusp a) with (cl_arith_minusp (cl_numerator a)) by (now destruct a).
  rewrite (cl_arith_minusp_spec _ _ Hn), E, <- (frac_1 0), Qlt_alt, frac_compare by lia.
  rewrite Z.ltb_lt. unfold Z.lt. rewrite Z.mul_1_r, Z.mul_0_l. reflexivity.
Qed.

Lemma cl_ratio_plusp_spec a q : rrep a q -> cl_ratio_plusp a = true <-> (0 < q)%Q.
Proof.
  intros Ha. destruct (rrep_parts a q Ha) as (n & d & Hn & Hd & Pd & _ & E).
  replace (cl_ratio_plusp a) with (cl_arith_plusp (cl_numerator a)) by (now destruct a).
  rewrite (cl_arith_plusp_spec _ _ Hn), E, <- (frac_1 0), Qlt_alt, frac_compare by lia.
  rewrite Z.ltb_lt. unfold Z.lt. rewrite Z.mul_1_r, Z.mul_0_l. reflexivity.
Qed.

(** EQL on rationals: EQL components. *)
Lemma cl_ratio_equal_spec a b p q :
  rrep a p -> rrep b q -> CL_RATIO_P a = true -> CL_RATIO_P b = true ->
  cl_ratio_equal a b = true <-> a = b.
Proof.
  intros Ha Hb. destruct a as [|n d], b as [|n' d']; try discriminate. intros _ _.
  destruct Ha as (x & y & Hx & Hy & _), Hb as (x' & y' & Hx' & Hy' & _). cbn [cl_ratio_equal].
  rewrite (cl_arith_compare_spec _ _ x x'), (cl_arith_compare_spec _ _ y y') by trivial.
  rewrite !sgn_compare_eqb, andb_true_iff, !Z.eqb_eq. split.
  - intros [-> ->]. f_equal; eapply rep_unique; eassumption.
  - intros [= -> ->]. split; [rewrite <- (proj2 Hx); apply Hx' | rewrite <- (proj2 Hy); apply Hy'].
Qed.

(** ** Checking a representation by computation *)

Definition rrepb (r : rational) (q : Q) : bool :=
  let d := Zpos (Qden q) in
  match r with
  | RInt i => wf_intb i && (int_val i * d =? Qnum q)
  | RRatio a b =>
      wf_intb a && wf_intb b && (1 <? int_val b) && (Z.gcd (int_val a) (int_val b) =? 1) &&
      (int_val a * d =? Qnum q * int_val b)
  end.

Lemma Q_frac q : (q == frac (Qnum q) (Zpos (Qden q)))%Q.
Proof. destruct q as [n d]. apply Qmake_Qdiv. Qed.

Lemma rrep_check r q : rrepb r q = true -> rrep r q.
Proof.
  destruct r as [i|a b]; cbn [rrepb rrep]; rewrite !andb_true_iff.
  - intros [W E]. exists (int_val i). split; [apply rep_val; now apply wf_intb_sound|].
    rewrite Q_frac, <- frac_1. apply frac_eq; lia.
  - intros ((((W1 & W2) & P) & G) & E). exists (int_val a), (int_val b).
    split; [apply rep_val; now apply wf_intb_sound|].
    split; [apply rep_val; now apply wf_intb_sound|].
    split; [lia|]. split; [lia|]. rewrite (Q_frac q) at 1. apply frac_eq; lia.
Qed.

(** Close [rrep r q] and [rbits r k] for concrete arguments. *)
Ltac rrep_eval := apply rrep_check; vm_compute; reflexivity.
Ltac rbits_eval := split; vm_compute; reflexivity.

(** ** Properties *)

(** C34: the arithmetic of exact reals is that of the rational numbers, and
    every result is canonical (a ratio has a denominator above 1 and coprime
    to its numerator, any other result is an integer object); a division by
    zero is an error.  The bound keeps every intermediate integer under 65536
    limbs. *)
Theorem rational_field_correct a b p q k :
  rrep a p -> rrep b q -> rbits a k -> rbits b k -> 2 * k + 1 <= BITS16 ->
  computes k (real_add a b) (p + q) /\ computes k (real_sub a b) (p - q) /\
  computes k (real_mul a b) (p * q) /\
  (if Qeq_bool q 0 then cl_ratio_div a b = Err CL_ERR_DIVZERO
   else computes k (cl_ratio_div a b) (p / q)).
Proof.
  intros Ha Hb Ba Bb Hk. split; [now apply real_add_spec|]. split; [now apply real_sub_spec|].
  split; [now apply real_mul_spec|]. destruct (Qeq_bool q 0) eqn:E.
  - apply Qeq_bool_eq in E. apply (cl_ratio_div_zero a b p); trivial. now rewrite <- E.
  - apply cl_ratio_div_spec; trivial. now apply Qeq_bool_neq.
Qed.

(** 7/12 and -5/18. *)
Lemma rational_field_correct_witness :
  let a := RRatio (Fix 7) (Fix 12) in let b := RRatio (Fix (-5)) (Fix 18) in
  real_mul a b = Ok (RRatio (Fix (-35)) (Fix 216)) /\
  computes 6 (real_add a b) ((7 # 12) + (-5 # 18)) /\
  computes 6 (real_sub a b) ((7 # 12) - (-5 # 18)) /\
  computes 6 (real_mul a b) ((7 # 12) * (-5 # 18)) /\
  (if Qeq_bool (-5 # 18) 0 then cl_ratio_div a b = Err CL_ERR_DIVZERO
   else computes 6 (cl_ratio_div a b) ((7 # 12) / (-5 # 18))).
Proof.
  split; [vm_compute; reflexivity|].
  apply rational_field_correct; [rrep_eval | rrep_eval | rbits_eval | rbits_eval | vm_compute; discriminate].
Defined.

(** Cl_make_ratio_normalized brings any pair with a non-zero denominator
    to lowest terms, moves the sign to the numerator, demotes a unit
    denominator, and refuses a zero denominator. *)
Theorem cl_make_ratio_normalized_correct num den n d k :
  rep num n -> rep den d -> Z.abs n < 2 ^ k -> Z.abs d < 2 ^ k -> k <= BITS16 ->
  if d =? 0 then cl_make_ratio_normalized num den = Err CL_ERR_DIVZERO
  else exists r, cl_make_ratio_normalized num den = Ok r /\ rrep r (frac n d) /\ rbits r k.
Proof.
  intros Hn Hd Bn Bd Hk. destruct (Z.eqb_spec d 0) as [->|N].
  - unfold cl_make_ratio_normalized. now rewrite (cl_arith_zerop_spec den 0 Hd).
  - now apply cl_make_ratio_normalized_spec.
Qed.

Lemma cl_make_ratio_normalized_correct_witness :
  cl_make_ratio_normalized (Fix 42) (Fix (-56)) = Ok (RRatio (Fix (-3)) (Fix 4)) /\
  if -56 =? 0 then cl_make_ratio_normalized (Fix 42) (Fix (-56)) = Err CL_ERR_DIVZERO
  else exists r, cl_make_ratio_normalized (Fix 42) (Fix (-56)) = Ok r /\
                 rrep r (frac 42 (-56)) /\ rbits r 6.
Proof.
  split; [vm_compute; reflexivity|].
  apply cl_make_ratio_normalized_correct; [rep_eval | rep_eval | lia | lia | vm_compute; discriminate].
Defined.

(** Comparison of exact reals is the order of the rational numbers at any
    magnitude, and two exact reals are the same object exactly when they
    denote the same number, so equal ratios hash alike. *)
Theorem rational_order_correct a b p q :
  rrep a p -> rrep b q ->
  (real_compare a b = -1 <-> (p < q)%Q) /\ (real_compare a b = 0 <-> (p == q)%Q) /\
  (real_compare a b = 1 <-> (q < p)%Q) /\ (a = b <-> (p == q)%Q) /\
  (CL_RATIO_P a = true -> CL_RATIO_P b = true ->
   (cl_ratio_equal a b = true <-> (p == q)%Q)).
Proof.
  intros Ha Hb. rewrite (real_compare_spec a b p q Ha Hb).
  assert (U : a = b <-> (p == q)%Q).
  { split.
    - intros <-. destruct (rrep_parts a p Ha) as (n & d & [_ Hn] & [_ Hd] & _ & _ & E).
      destruct (rrep_parts a q Hb) as (n' & d' & [_ Hn'] & [_ Hd'] & _ & _ & E').
      rewrite E, E'. subst. reflexivity.
    - intros E. apply rrep_unique with q; trivial. now rewrite <- E. }
  split; [|split; [|split; [|split; [exact U|]]]].
  - unfold qsgn_compare. rewrite Qlt_alt. now destruct (p ?= q)%Q.
  - unfold qsgn_compare. rewrite Qeq_alt. now destruct (p ?= q)%Q.
  - unfold qsgn_compare. rewrite Qgt_alt. now destruct (p ?= q)%Q.
  - intros Pa Pb. rewrite <- U. now apply (cl_ratio_equal_spec a b p q).
Qed.

Lemma rational_order_correct_witness :
  let a := RRatio (Fix 22) (Fix 7) in let b := RRatio (Fix 355) (Fix 113) in
  real_compare a b = 1 /\
  (real_compare a b = -1 <-> ((22 # 7) < (355 # 113))%Q) /\
  (real_compare a b = 0 <-> ((22 # 7) == (355 # 113))%Q) /\
  (real_compare a b = 1 <-> ((355 # 113) < (22 # 7))%Q) /\
  (a = b <-> ((22 # 7) == (355 # 113))%Q) /\
  (CL_RATIO_P a = true -> CL_RATIO_P b = true ->
   (cl_ratio_equal a b = true <-> ((22 # 7) == (355 # 113))%Q)).
Proof. split; [vm_compute; reflexivity|]. apply rational_order_correct; rrep_eval. Defined.
