(* ===== verification/Number.v ===== *)
(** * Exact numbers: the arithmetic dispatch with complex operands

    src/src/core/bignum.c: make_complex_canonical, complex_parts and the complex paths of
    cl_arith_add, cl_arith_sub, cl_arith_mul, cl_arith_div, cl_arith_negate,
    cl_numeric_equal and cl_arith_zerop, over the rationals of Ratio.v.  A
    [number] is any CL number with rational parts; with the real paths of
    Ratio.v and Bignum.v these are the whole functions except for their
    single and double float branches.

    [crep x z]: [x] is canonical (a complex never has a zero imaginary part)
    and denotes the Gaussian rational [z]. *)

From Stdlib Require Import ZArith List Lia Bool QArith Qfield.
From S2P Require Import Prelude Limbs Bignum BignumExt Ratio.
Import ListNotations.
Local Open Scope Z_scope.
Local Open Scope amilisp_scope.

Inductive number : Set :=
| Real (r : rational)
| Complex (realpart imagpart : rational).

Definition CL_COMPLEX_P (x : number) : bool :=
  match x with Complex _ _ => true | Real _ => false end.

(** Rational parts: the float contagion does not apply. *)
Definition make_complex_canonical (re im : rational) : number :=
  match im with
  | RInt (Fix v) => if v =? 0 then Real re else Complex re im
  | _ => Complex re im
  end.

Definition complex_parts (x : number) : rational * rational :=
  match x with
  | Complex re im => (re, im)
  | Real r => (r, RInt (make_fixnum 0))
  end.

Definition cl_arith_add (a b : number) : result number :=
  match a, b with
  | Real x, Real y => r <- real_add x y ;; Ok (Real r)
  | _, _ =>
      let '(a_re, a_im) := complex_parts a in
      let '(b_re, b_im) := complex_parts b in
      new_re <- real_add a_re b_re ;;
      new_im <- real_add a_im b_im ;;
      Ok (make_complex_canonical new_re new_im)
  end.

Definition cl_arith_sub (a b : number) : result number :=
  match a, b with
  | Real x, Real y => r <- real_sub x y ;; Ok (Real r)
  | _, _ =>
      let '(a_re, a_im) := complex_parts a in
      let '(b_re, b_im) := complex_parts b in
      new_re <- real_sub a_re b_re ;;
      new_im <- real_sub a_im b_im ;;
      Ok (make_complex_canonical new_re new_im)
  end.

Definition cl_arith_mul (a b : number) : result number :=
  match a, b with
  | Real x, Real y => r <- real_mul x y ;; Ok (Real r)
  | _, _ =>
      let '(a_re, a_im) := complex_parts a in
      let '(b_re, b_im) := complex_parts b in
      ac <- real_mul a_re b_re ;;
      bd <- real_mul a_im b_im ;;
      new_re <- real_sub ac bd ;;
      ad <- real_mul a_re b_im ;;
      bc <- real_mul a_im b_re ;;
      new_im <- real_add ad bc ;;
      Ok (make_complex_canonical new_re new_im)
  end.

Definition cl_arith_div (a b : number) : result number :=
  match a, b with
  | Real x, Real y => r <- cl_ratio_div x y ;; Ok (Real r)
  | _, _ =>
      let '(a_re, a_im) := complex_parts a in
      let '(b_re, b_im) := complex_parts b in
      if cl_ratio_zerop b_re && cl_ratio_zerop b_im then Err CL_ERR_DIVZERO
      else
        c2 <- real_mul b_re b_re ;;
        d2 <- real_mul b_im b_im ;;
        denom <- real_add c2 d2 ;;
        ac <- real_mul a_re b_re ;;
        bd <- real_mul a_im b_im ;;
        re_num <- real_add ac bd ;;
        bc <- real_mul a_im b_re ;;
        ad <- real_mul a_re b_im ;;
        im_num <- real_sub bc ad ;;
        new_re <- cl_ratio_div re_num denom ;;
        new_im <- cl_ratio_div im_num denom ;;
        Ok (make_complex_canonical new_re new_im)
  end.

Definition cl_arith_negate (a : number) : number :=
  match a with
  | Complex re im => make_complex_canonical (real_negate re) (real_negate im)
  | Real r => Real (real_negate r)
  end.

Definition cl_arith_zerop (a : number) : bool :=
  match a with
  | Complex re im => cl_ratio_zerop re && cl_ratio_zerop im
  | Real r => cl_ratio_zerop r
  end.

Definition cl_numeric_equal (a b : number) : bool :=
  match a, b with
  | Real x, Real y => real_compare x y =? 0
  | Complex ar ai, Complex br bi =>
      (real_compare ar br =? 0) && (real_compare ai bi =? 0)
  | Complex ar ai, Real y => cl_ratio_zerop ai && (real_compare ar y =? 0)
  | Real x, Complex br bi => cl_ratio_zerop bi && (real_compare x br =? 0)
  end.

(** ** Gaussian rationals *)

Definition gauss : Set := (Q * Q)%type.

Definition ceq (z w : gauss) : Prop := (fst z == fst w)%Q /\ (snd z == snd w)%Q.

Definition cadd (z w : gauss) : gauss := (fst z + fst w, snd z + snd w)%Q.
Definition csub (z w : gauss) : gauss := (fst z - fst w, snd z - snd w)%Q.
Definition cmul (z w : gauss) : gauss :=
  (fst z * fst w - snd z * snd w, fst z * snd w + snd z * fst w)%Q.
Definition copp (z : gauss) : gauss := (- fst z, - snd z)%Q.

Definition crep (x : number) (z : gauss) : Prop :=
  match x with
  | Real r => rrep r (fst z) /\ (snd z == 0)%Q
  | Complex re im => rrep re (fst z) /\ rrep im (snd z) /\ ~ (snd z == 0)%Q
  end.

Definition cbits (x : number) (k : Z) : Prop :=
  let '(re, im) := complex_parts x in rbits re k /\ rbits im k.

Lemma crep_ceq x z w : ceq z w -> crep x z -> crep x w.
Proof.
  intros [E1 E2]. destruct x; cbn [crep]; rewrite E1, E2; trivial.
Qed.

Lemma rrep_zero : rrep (RInt (make_fixnum 0)) 0.
Proof. exists 0. split; [apply rep_0 | reflexivity]. Qed.

Lemma crep_parts x z :
  crep x z -> let '(re, im) := complex_parts x in rrep re (fst z) /\ rrep im (snd z).
Proof.
  destruct x; cbn [crep complex_parts]; intros H; [|easy]. destruct H as [H E].
  split; trivial. rewrite E. apply rrep_zero.
Qed.

(** The imaginary part is dropped exactly when it is zero. *)
Lemma make_complex_canonical_spec re im p q :
  rrep re p -> rrep im q -> crep (make_complex_canonical re im) (p, q).
Proof.
  intros Hr Hi. pose proof (cl_ratio_zerop_spec im q Hi) as Z0.
  assert (E : make_complex_canonical re im = if cl_ratio_zerop im then Real re else Complex re im).
  { destruct im as [[v|s l]|n d]; cbn [make_complex_canonical cl_ratio_zerop]; trivial.
    destruct Hi as (x & y & Hx & Hy & P & G & E).
    rewrite (Bignum.cl_arith_zerop_spec n x Hx). destruct (Z.eqb_spec x 0) as [->|]; trivial.
    rewrite Z.gcd_0_l in G. lia. }
  rewrite E. destruct (cl_ratio_zerop im); cbn [crep fst snd].
  - split; trivial. now apply Z0.
  - split; [trivial|]. split; [trivial|]. intros H. apply Z0 in H. discriminate.
Qed.

Lemma canonical_bits re im k :
  rbits re k -> rbits im k -> cbits (make_complex_canonical re im) k.
Proof.
  intros Hr Hi. unfold make_complex_canonical.
  destruct im as [[v|s l]|n d]; try now split.
  destruct (Z.eqb_spec v 0) as [->|]; now split.
Qed.

(** ** The operations *)

Definition ccomputes (k : Z) (f : result number) (z : gauss) : Prop :=
  exists r, f = Ok r /\ crep r z /\ cbits r k.

Ltac run H r := let R := fresh "R" in let B := fresh "B" in
  let E := fresh "E" in
  destruct H as (r & E & R & B); rewrite E; cbn [bind].

(** Two computed parts make a canonical number. *)
Lemma ccomputes_parts k re im z :
  rrep re (fst z) -> rrep im (snd z) -> rbits re k -> rbits im k ->
  ccomputes k (Ok (make_complex_canonical re im)) z.
Proof.
  intros. eexists. split; [reflexivity|]. split; [|now apply canonical_bits].
  rewrite (surjective_pairing z). now apply make_complex_canonical_spec.
Qed.

Lemma ccomputes_real k r p q :
  rrep r p -> rbits r k -> (q == 0)%Q -> 1 <= k -> ccomputes k (Ok (Real r)) (p, q).
Proof.
  intros Hr Hb E Hk. eexists. split; [reflexivity|]. split; [now split|]. split; [exact Hb|].
  change (Z.abs 0 < 2 ^ k /\ Z.abs 1 < 2 ^ k).
  assert (2 ^ 1 <= 2 ^ k) by (apply Z.pow_le_mono_r; lia). lia.
Qed.

Section Operations.
Context {a b : number} {z w : gauss} {k : Z}.
Hypothesis (Ha : crep a z) (Hb : crep b w) (Ba : cbits a k) (Bb : cbits b k) (Hk0 : 0 <= k).

Lemma cl_arith_add_spec :
  2 * k + 1 <= BITS16 -> ccomputes (2 * k + 1) (cl_arith_add a b) (cadd z w).
Proof.
  intros Hk. pose proof (crep_parts a z Ha) as Pa. pose proof (crep_parts b w Hb) as Pb.
  assert (G : ccomputes (2 * k + 1)
    (let '(a_re, a_im) := complex_parts a in
     let '(b_re, b_im) := complex_parts b in
     new_re <- real_add a_re b_re ;;
     new_im <- real_add a_im b_im ;;
     Ok (make_complex_canonical new_re new_im)) (cadd z w)).
  { unfold cbits in Ba, Bb. destruct (complex_parts a) as [ar ai], (complex_parts b) as [br bi].
    destruct Pa as [Par Pai], Pb as [Pbr Pbi], Ba as [Bar Bai], Bb as [Bbr Bbi].
    run (real_add_spec Par Pbr Bar Bbr Hk) re. run (real_add_spec Pai Pbi Bai Bbi Hk) im.
    now apply ccomputes_parts. }
  (* on two reals the zero imaginary parts compute away *)
  now destruct a, b.
Qed.

Lemma cl_arith_sub_spec :
  2 * k + 1 <= BITS16 -> ccomputes (2 * k + 1) (cl_arith_sub a b) (csub z w).
Proof.
  intros Hk. pose proof (crep_parts a z Ha) as Pa. pose proof (crep_parts b w Hb) as Pb.
  assert (G : ccomputes (2 * k + 1)
    (let '(a_re, a_im) := complex_parts a in
     let '(b_re, b_im) := complex_parts b in
     new_re <- real_sub a_re b_re ;;
     new_im <- real_sub a_im b_im ;;
     Ok (make_complex_canonical new_re new_im)) (csub z w)).
  { unfold cbits in Ba, Bb. destruct (complex_parts a) as [ar ai], (complex_parts b) as [br bi].
    destruct Pa as [Par Pai], Pb as [Pbr Pbi], Ba as [Bar Bai], Bb as [Bbr Bbi].
    run (real_sub_spec Par Pbr Bar Bbr Hk) re. run (real_sub_spec Pai Pbi Bai Bbi Hk) im.
    now apply ccomputes_parts. }
  now destruct a, b.
Qed.

Lemma cl_arith_mul_spec :
  4 * k + 3 <= BITS16 -> ccomputes (4 * k + 3) (cl_arith_mul a b) (cmul z w).
Proof.
  intros Hk. pose proof (crep_parts a z Ha) as Pa. pose proof (crep_parts b w Hb) as Pb.
  assert (K1 : 2 * k + 1 <= BITS16) by lia. assert (K2 : 2 * (2 * k + 1) + 1 <= BITS16) by lia.
  replace (4 * k + 3) with (2 * (2 * k + 1) + 1) by lia.
  assert (G : ccomputes (2 * (2 * k + 1) + 1)
    (let '(a_re, a_im) := complex_parts a in
     let '(b_re, b_im) := complex_parts b in
     ac <- real_mul a_re b_re ;;
     bd <- real_mul a_im b_im ;;
     new_re <- real_sub ac bd ;;
     ad <- real_mul a_re b_im ;;
     bc <- real_mul a_im b_re ;;
     new_im <- real_add ad bc ;;
     Ok (make_complex_canonical new_re new_im)) (cmul z w)).
  { unfold cbits in Ba, Bb. destruct (complex_parts a) as [ar ai], (complex_parts b) as [br bi].
    destruct Pa as [Par Pai], Pb as [Pbr Pbi], Ba as [Bar Bai], Bb as [Bbr Bbi].
    run (real_mul_spec Par Pbr Bar Bbr K1) ac. run (real_mul_spec Pai Pbi Bai Bbi K1) bd.
    run (real_sub_spec R R0 B B0 K2) re.
    run (real_mul_spec Par Pbi Bar Bbi K1) ad. run (real_mul_spec Pai Pbr Bai Bbr K1) bc.
    run (real_add_spec R2 R3 B2 B3 K2) im. now apply ccomputes_parts. }
  destruct a as [x|]; [destruct b as [y|]|]; try exact G. clear G.
  destruct Ha as [Hx E], Hb as [Hy E'], Ba as [Bx _], Bb as [By _]. cbn [cl_arith_mul].
  run (real_mul_spec Hx Hy Bx By K1) r. exists (Real r). split; [reflexivity|].
  split; [|split; [apply rbits_mono with (2 * k + 1); [trivial|lia]|]].
  - split; cbn [cmul fst snd]; rewrite E, E'; [|ring]. rewrite Qmult_0_l.
    unfold Qminus. now rewrite Qplus_0_r.
  - change (Z.abs 0 < 2 ^ (2 * (2 * k + 1) + 1) /\ Z.abs 1 < 2 ^ (2 * (2 * k + 1) + 1)).
    assert (2 ^ 1 <= 2 ^ (2 * (2 * k + 1) + 1)) by (apply Z.pow_le_mono_r; lia). lia.
Qed.

(** Division by a zero complex or real number is an error. *)
Lemma cl_arith_div_zero : ceq w (0, 0)%Q -> cl_arith_div a b = Err CL_ERR_DIVZERO.
Proof.
  intros [E1 E2]. cbn [fst snd] in E1, E2. destruct b as [y|re im]; cbn [crep] in Hb.
  - destruct Hb as [Hy _]. rewrite E1 in Hy. unfold cl_arith_div. destruct a as [x|ar ai].
    + destruct Ha as [Hx _]. now rewrite (cl_ratio_div_zero x y (fst z)).
    + cbn [complex_parts]. rewrite (proj2 (cl_ratio_zerop_spec y 0 Hy)) by reflexivity. reflexivity.
  - destruct Hb as (_ & _ & N). contradiction.
Qed.

(** The norm of a non-zero divisor. *)
Lemma norm_nonzero (c d : Q) : ~ (c == 0 /\ d == 0)%Q -> ~ (c * c + d * d == 0)%Q.
Proof.
  intros N E. apply N. destruct c as [cn cd], d as [dn dd].
  unfold Qeq, Qplus, Qmult in *. cbn [Qnum Qden] in *. rewrite !Pos2Z.inj_mul in E.
  assert (0 < Z.pos cd) by lia. assert (0 < Z.pos dd) by lia.
  assert (S : cn * cn * (Z.pos dd * Z.pos dd) + dn * dn * (Z.pos cd * Z.pos cd) = 0) by nia.
  assert (0 <= cn * cn) by nia. assert (0 <= dn * dn) by nia.
  assert (0 < Z.pos dd * Z.pos dd) by nia. assert (0 < Z.pos cd * Z.pos cd) by nia.
  split; nia.
Qed.

(** The quotient times the divisor is the dividend. *)
Lemma cl_arith_div_spec :
  ~ ceq w (0, 0)%Q -> 8 * k + 7 <= BITS16 ->
  exists q, ccomputes (8 * k + 7) (cl_arith_div a b) q /\ ceq (cmul q w) z.
Proof.
  intros Hw Hk. pose proof (crep_parts a z Ha) as Pa. pose proof (crep_parts b w Hb) as Pb.
  assert (K1 : 2 * k + 1 <= BITS16) by lia. assert (K2 : 2 * (2 * k + 1) + 1 <= BITS16) by lia.
  assert (K3 : 2 * (2 * (2 * k + 1) + 1) + 1 <= BITS16) by lia.
  replace (8 * k + 7) with (2 * (2 * (2 * k + 1) + 1) + 1) by lia.
  assert (Hn : ~ (fst w * fst w + snd w * snd w == 0)%Q).
  { apply norm_nonzero. intros [E1 E2]. apply Hw. now split. }
  set (q := ((fst z * fst w + snd z * snd w) / (fst w * fst w + snd w * snd w),
             (snd z * fst w - fst z * snd w) / (fst w * fst w + snd w * snd w))%Q : gauss).
  exists q. split; [|split; cbn [q cmul fst snd]; field; exact Hn].
  assert (G : ccomputes (2 * (2 * (2 * k + 1) + 1) + 1)
    (let '(a_re, a_im) := complex_parts a in
     let '(b_re, b_im) := complex_parts b in
     if cl_ratio_zerop b_re && cl_ratio_zerop b_im then Err CL_ERR_DIVZERO
     else
       c2 <- real_mul b_re b_re ;;
       d2 <- real_mul b_im b_im ;;
       denom <- real_add c2 d2 ;;
       ac <- real_mul a_re b_re ;;
       bd <- real_mul a_im b_im ;;
       re_num <- real_add ac bd ;;
       bc <- real_mul a_im b_re ;;
       ad <- real_mul a_re b_im ;;
       im_num <- real_sub bc ad ;;
       new_re <- cl_ratio_div re_num denom ;;
       new_im <- cl_ratio_div im_num denom ;;
       Ok (make_complex_canonical new_re new_im)) q).
  { unfold cbits in Ba, Bb. destruct (complex_parts a) as [ar ai], (complex_parts b) as [br bi].
    destruct Pa as [Par Pai], Pb as [Pbr Pbi], Ba as [Bar Bai], Bb as [Bbr Bbi].
    destruct (cl_ratio_zerop br && cl_ratio_zerop bi) eqn:Z0.
    { apply andb_prop in Z0. destruct Z0 as [Z1 Z2]. exfalso. apply Hw.
      split; [now apply (cl_ratio_zerop_spec br) | now apply (cl_ratio_zerop_spec bi)]. }
    run (real_mul_spec Pbr Pbr Bbr Bbr K1) c2. run (real_mul_spec Pbi Pbi Bbi Bbi K1) d2.
    run (real_add_spec R R0 B B0 K2) denom.
    run (real_mul_spec Par Pbr Bar Bbr K1) ac. run (real_mul_spec Pai Pbi Bai Bbi K1) bd.
    run (real_add_spec R2 R3 B2 B3 K2) re_num.
    run (real_mul_spec Pai Pbr Bai Bbr K1) bc. run (real_mul_spec Par Pbi Bar Bbi K1) ad.
    run (real_sub_spec R5 R6 B5 B6 K2) im_num.
    run (cl_ratio_div_spec R4 R1 B4 B1 K3 Hn) re. run (cl_ratio_div_spec R7 R1 B7 B1 K3 Hn) im.
    now apply ccomputes_parts. }
  destruct a as [x|]; [destruct b as [y|]|]; try exact G. clear G.
  destruct Ha as [Hx E], Hb as [Hy E'], Ba as [Bx _], Bb as [By _]. cbn [cl_arith_div].
  assert (Hy0 : ~ (fst w == 0)%Q) by (intros H0; apply Hw; now split).
  run (cl_ratio_div_spec Hx Hy Bx By K1 Hy0) r. exists (Real r). split; [reflexivity|].
  split; [|split; [apply rbits_mono with (2 * k + 1); [trivial|lia]|]].
  - split; cbn [q fst snd].
    + eapply rrep_proper; [|exact R]. rewrite E, E'. field. exact Hy0.
    + rewrite E, E'. field. exact Hy0.
  - set (j := 2 * (2 * (2 * k + 1) + 1) + 1) in *. change (Z.abs 0 < 2 ^ j /\ Z.abs 1 < 2 ^ j).
    assert (2 ^ 1 <= 2 ^ j) by (apply Z.pow_le_mono_r; subst j; lia). lia.
Qed.
End Operations.

Lemma cl_arith_negate_spec a z k :
  crep a z -> cbits a k -> k <= BITS16 -> crep (cl_arith_negate a) (copp z).
Proof.
  intros Ha Hb Hk. destruct a as [x|re im]; cbn [cl_arith_negate].
  - destruct Ha as [Hx E], Hb as [Bx _]. destruct (real_negate_spec x _ k Hx Bx Hk) as [R _].
    split; trivial. cbn [copp snd]. rewrite E. reflexivity.
  - destruct Ha as (Hr & Hi & N), Hb as [Br Bi].
    destruct (real_negate_spec re _ k Hr Br Hk) as [R1 _].
    destruct (real_negate_spec im _ k Hi Bi Hk) as [R2 _].
    now apply make_complex_canonical_spec.
Qed.

Lemma qsgn_compare_zero p q : (qsgn_compare p q =? 0) = true <-> (p == q)%Q.
Proof.
  unfold qsgn_compare. rewrite Qeq_alt. destruct (p ?= q)%Q; cbn; split; intros; congruence.
Qed.

(** [=] decides equality of the numbers denoted. *)
Lemma cl_numeric_equal_spec a b z w :
  crep a z -> crep b w -> cl_numeric_equal a b = true <-> ceq z w.
Proof.
  intros Ha Hb. unfold ceq. destruct a as [x|ar ai], b as [y|br bi]; cbn [cl_numeric_equal].
  - destruct Ha as [Hx E], Hb as [Hy E']. rewrite (real_compare_spec x y (fst z) (fst w)) by trivial.
    rewrite qsgn_compare_zero, E, E'. intuition reflexivity.
  - destruct Ha as [Hx E], Hb as (Hr & Hi & N).
    rewrite andb_true_iff, (cl_ratio_zerop_spec bi (snd w)) by trivial.
    split; [intros [H _]; contradiction|]. intros [_ H]. exfalso. apply N.
    rewrite <- H. exact E.
  - destruct Ha as (Hr & Hi & N), Hb as [Hy E'].
    rewrite andb_true_iff, (cl_ratio_zerop_spec ai (snd z)) by trivial.
    split; [intros [H _]; contradiction|]. intros [_ H]. exfalso. apply N.
    rewrite H. exact E'.
  - destruct Ha as (Hr & Hi & N), Hb as (Hr' & Hi' & N').
    rewrite (real_compare_spec ar br (fst z) (fst w)), (real_compare_spec ai bi (snd z) (snd w))
      by trivial.
    now rewrite andb_true_iff, !qsgn_compare_zero.
Qed.

(** One object per number. *)
Lemma crep_unique a b z : crep a z -> crep b z -> a = b.
Proof.
  intros Ha Hb. destruct a as [x|ar ai], b as [y|br bi].
  - f_equal. destruct Ha as [Ha _], Hb as [Hb _]. now apply rrep_unique with (fst z).
  - destruct Ha as [_ E], Hb as (_ & _ & N). contradiction.
  - destruct Ha as (_ & _ & N), Hb as [_ E]. contradiction.
  - destruct Ha as (H1 & H2 & _), Hb as (H1' & H2' & _).
    f_equal; eapply rrep_unique; eassumption.
Qed.

(** ** Properties *)

Definition crepb (x : number) (z : gauss) : bool :=
  match x with
  | Real r => rrepb r (fst z) && Qeq_bool (snd z) 0
  | Complex re im => rrepb re (fst z) && rrepb im (snd z) && negb (Qeq_bool (snd z) 0)
  end.

Lemma crep_check x z : crepb x z = true -> crep x z.
Proof.
  destruct x as [r|re im]; cbn [crepb crep].
  - intros [H1 H2]%andb_prop. split; [now apply rrep_check | now apply Qeq_bool_eq].
  - intros [[H1 H2]%andb_prop H3]%andb_prop. split; [now apply rrep_check|].
    split; [now apply rrep_check|]. now apply Qeq_bool_neq, negb_true_iff.
Qed.

Ltac crep_eval := apply crep_check; vm_compute; reflexivity.
Ltac cbits_eval := split; rbits_eval.

(** On exact numbers, real or complex, addition, subtraction and
    multiplication are those of the Gaussian rationals; a complex result with
    a zero imaginary part is demoted to a real. *)
Theorem number_ring_correct a b z w k :
  crep a z -> crep b w -> cbits a k -> cbits b k -> 0 <= k -> 4 * k + 3 <= BITS16 ->
  ccomputes (2 * k + 1) (cl_arith_add a b) (cadd z w) /\
  ccomputes (2 * k + 1) (cl_arith_sub a b) (csub z w) /\
  ccomputes (4 * k + 3) (cl_arith_mul a b) (cmul z w) /\
  crep (cl_arith_negate a) (copp z).
Proof.
  intros Ha Hb Ba Bb H0 Hk. split; [apply cl_arith_add_spec; trivial; lia|].
  split; [apply cl_arith_sub_spec; trivial; lia|]. split; [now apply cl_arith_mul_spec|].
  apply cl_arith_negate_spec with k; trivial. lia.
Qed.

(** (1 + 2i) and (1/2 - i). *)
Lemma number_ring_correct_witness :
  let a := Complex (RInt (Fix 1)) (RInt (Fix 2)) in
  let b := Complex (RRatio (Fix 1) (Fix 2)) (RInt (Fix (-1))) in
  let z := (1, 2)%Q in let w := (1 # 2, -1)%Q in
  cl_arith_mul a b = Ok (Real (RRatio (Fix 5) (Fix 2))) /\
  ccomputes (2 * 2 + 1) (cl_arith_add a b) (cadd z w) /\
  ccomputes (2 * 2 + 1) (cl_arith_sub a b) (csub z w) /\
  ccomputes (4 * 2 + 3) (cl_arith_mul a b) (cmul z w) /\
  crep (cl_arith_negate a) (copp z).
Proof.
  split; [vm_compute; reflexivity|].
  apply number_ring_correct;
    [crep_eval | crep_eval | cbits_eval | cbits_eval | lia | vm_compute; discriminate].
Defined.

(** Division of exact numbers inverts multiplication, and is an error
    exactly on a zero divisor. *)
Theorem number_division_correct a b z w k :
  crep a z -> crep b w -> cbits a k -> cbits b k -> 0 <= k -> 8 * k + 7 <= BITS16 ->
  (ceq w (0, 0)%Q -> cl_arith_div a b = Err CL_ERR_DIVZERO) /\
  (~ ceq w (0, 0)%Q ->
   exists q, ccomputes (8 * k + 7) (cl_arith_div a b) q /\ ceq (cmul q w) z).
Proof.
  intros Ha Hb Ba Bb H0 Hk. split; intros H; [now apply (cl_arith_div_zero (k := k) Ha Hb)|].
  now apply cl_arith_div_spec.
Qed.

(** 1 / (1 + 2i) = 1/5 - 2/5 i *)
Lemma number_division_correct_witness :
  let a := Real (RInt (Fix 1)) in let b := Complex (RInt (Fix 1)) (RInt (Fix 2)) in
  let z := (1, 0)%Q in let w := (1, 2)%Q in
  cl_arith_div a b = Ok (Complex (RRatio (Fix 1) (Fix 5)) (RRatio (Fix (-2)) (Fix 5))) /\
  (ceq w (0, 0)%Q -> cl_arith_div a b = Err CL_ERR_DIVZERO) /\
  (~ ceq w (0, 0)%Q ->
   exists q, ccomputes (8 * 2 + 7) (cl_arith_div a b) q /\ ceq (cmul q w) z).
Proof.
  split; [vm_compute; reflexivity|].
  apply number_division_correct;
    [crep_eval | crep_eval | cbits_eval | cbits_eval | lia | vm_compute; discriminate].
Defined.

(** Numeric equality decides equality of the numbers across the whole
    tower, and equal numbers are the same object. *)
Theorem number_equality_correct a b z w :
  crep a z -> crep b w ->
  (cl_numeric_equal a b = true <-> ceq z w) /\ (cl_numeric_equal a b = true -> a = b).
Proof.
  intros Ha Hb. pose proof (cl_numeric_equal_spec a b z w Ha Hb) as E. split; [exact E|].
  intros H. apply E in H. apply (crep_unique a b w); trivial. now apply crep_ceq with z.
Qed.

Lemma number_equality_correct_witness :
  let a := Complex (RInt (Fix 1)) (RRatio (Fix 2) (Fix 3)) in
  cl_numeric_equal a a = true /\ (cl_numeric_equal a a = true <-> ceq (1, 2 # 3)%Q (1, 4 # 6)%Q) /\
  (cl_numeric_equal a a = true -> a = a).
Proof.
  split; [vm_compute; reflexivity|].
  apply (number_equality_correct (Complex (RInt (Fix 1)) (RRatio (Fix 2) (Fix 3)))
           (Complex (RInt (Fix 1)) (RRatio (Fix 2) (Fix 3))) (1, 2 # 3)%Q (1, 4 # 6)%Q);
    crep_eval.
Defined.
