(* ===== verification/Arith.v ===== *)
(** * The arithmetic builtins

    src/src/core/builtins_arith.c over the exact numbers: n-ary arithmetic and comparison, the
    FLOOR family, REM and MOD, GCD and LCM, the logical folds, byte specifiers
    and BOOLE.  The float branches and the float-quotient variants (FFLOOR and
    the like) are outside the domain.  An argument vector is a list; a byte
    specifier (a cons of size and position) is a pair.

    The rounding functions are specified by their remainder, as the language
    standard does: [rounding_ok]. *)

From Stdlib Require Import ZArith List Lia Bool QArith Qabs Qfield.
From S2P Require Import Prelude Limbs Bignum BignumExt Ratio Number.
Import ListNotations.
Local Open Scope Z_scope.
Local Open Scope amilisp_scope.

(** ** Rounding *)

Inductive rounding : Set := ROUND_FLOOR | ROUND_CEILING | ROUND_TRUNCATE | ROUND_ROUND.

(** The adjustment of the truncated quotient [q] and its remainder [r]. *)
Definition adjust_rounding (mode : rounding) (a b : rational) (q : integer) (r : rational)
  : result (integer * rational) :=
  let down := q' <- Ok (Bignum.cl_arith_sub q (make_fixnum 1)) ;;
              r' <- real_add r b ;; Ok (q', r') in
  let up := q' <- Ok (Bignum.cl_arith_add q (make_fixnum 1)) ;;
            r' <- real_sub r b ;; Ok (q', r') in
  match mode with
  | ROUND_TRUNCATE => Ok (q, r)
  | _ =>
      if cl_ratio_zerop r then Ok (q, r)
      else
        match mode with
        | ROUND_FLOOR =>
            if negb (eqb (cl_ratio_minusp r) (cl_ratio_minusp b)) then down else Ok (q, r)
        | ROUND_CEILING =>
            if eqb (cl_ratio_minusp r) (cl_ratio_minusp b) then up else Ok (q, r)
        | _ =>
            abs_2r <- real_add r r ;;
            let cmp := real_compare (real_abs abs_2r) (real_abs b) in
            if (cmp >? 0) || (cmp =? 0) && negb (cl_arith_evenp q)
            then if eqb (cl_ratio_minusp a) (cl_ratio_minusp b) then up else down
            else Ok (q, r)
        end
  end.

(** do_rounding with two arguments. *)
Definition do_rounding2 (mode : rounding) (a b : rational) : result (integer * rational) :=
  let int_a := Bignum.cl_arith_mul (cl_numerator a) (cl_denominator b) in
  let int_b := Bignum.cl_arith_mul (cl_denominator a) (cl_numerator b) in
  q <- cl_arith_truncate int_a int_b ;;
  r <- real_mul (RInt q) b ;;
  r <- real_sub a r ;;
  adjust_rounding mode a b q r.

(** ... and with one. *)
Definition do_rounding1 (mode : rounding) (a : rational) : result (integer * rational) :=
  match a with
  | RInt i => Ok (i, RInt (make_fixnum 0))
  | RRatio n d =>
      qr <- do_rounding2 mode (RInt n) (RInt d) ;;
      r <- real_sub a (RInt (fst qr)) ;;
      Ok (fst qr, r)
  end.

(** do_rounding; the registrations require one or two arguments. *)
Definition do_rounding (args : list rational) (mode : rounding) : result (integer * rational) :=
  match args with
  | [a] => do_rounding1 mode a
  | [a; b] => do_rounding2 mode a b
  | _ => Err CL_ERR_ARGS
  end.

Definition bi_floor (args : list rational) := do_rounding args ROUND_FLOOR.
Definition bi_ceiling (args : list rational) := do_rounding args ROUND_CEILING.
Definition bi_truncate (args : list rational) := do_rounding args ROUND_TRUNCATE.
Definition bi_round (args : list rational) := do_rounding args ROUND_ROUND.

(** The quotient of bi_rem's and bi_mod's ratio case as an integer. *)
Definition truncate_quot (quot : rational) : result integer :=
  match quot with
  | RInt q => Ok q
  | RRatio num den => cl_arith_truncate num den
  end.

Definition floor_quot (quot : rational) : result integer :=
  match quot with
  | RInt q => Ok q
  | RRatio num den =>
      let neg := cl_ratio_minusp quot in
      trunc_q <- cl_arith_truncate num den ;;
      let check := Bignum.cl_arith_mul trunc_q den in
      Ok (if negb (cl_arith_compare check num =? 0) && neg
          then Bignum.cl_arith_sub trunc_q (make_fixnum 1) else trunc_q)
  end.

Definition bi_rem (a b : rational) : result rational :=
  match a, b with
  | RInt (Fix va), RInt (Fix vb) =>
      if vb =? 0 then Err CL_ERR_DIVZERO else Ok (RInt (make_fixnum (Z.rem va vb)))
  | RInt i, RInt j =>
      q <- cl_arith_truncate i j ;;
      let prod := Bignum.cl_arith_mul q j in
      Ok (RInt (Bignum.cl_arith_sub i prod))
  | _, _ =>
      quot <- cl_ratio_div a b ;;
      trunc_q <- truncate_quot quot ;;
      prod <- real_mul (RInt trunc_q) b ;;
      real_sub a prod
  end.

Definition bi_mod (a b : rational) : result rational :=
  match a, b with
  | RInt i, RInt j => r <- cl_arith_mod i j ;; Ok (RInt r)
  | _, _ =>
      quot <- cl_ratio_div a b ;;
      floor_q <- floor_quot quot ;;
      prod <- real_mul (RInt floor_q) b ;;
      real_sub a prod
  end.

(** ** n-ary arithmetic *)

Fixpoint fold_result {A B} (f : A -> B -> result A) (args : list B) (acc : A) : result A :=
  match args with
  | [] => Ok acc
  | x :: t => acc' <- f acc x ;; fold_result f t acc'
  end.

Definition num_of (i : integer) : number := Real (RInt i).

Definition bi_add (args : list number) : result number :=
  match args with
  | [x] => Ok x
  | _ => fold_result cl_arith_add args (num_of (make_fixnum 0))
  end.

Definition bi_sub (args : list number) : result number :=
  match args with
  | [] => Ok (num_of (make_fixnum 0))
  | [x] => Ok (cl_arith_negate x)
  | x :: t => fold_result cl_arith_sub t x
  end.

Definition bi_1plus (a : number) : result number := cl_arith_add a (num_of (make_fixnum 1)).
Definition bi_1minus (a : number) : result number := cl_arith_sub a (num_of (make_fixnum 1)).

Definition bi_mul (args : list number) : result number :=
  match args with
  | [x] => Ok x
  | _ => fold_result cl_arith_mul args (num_of (make_fixnum 1))
  end.

(** The registration requires at least one argument. *)
Definition bi_div (args : list number) : result number :=
  match args with
  | [] => Err CL_ERR_ARGS
  | [x] => cl_arith_div (num_of (make_fixnum 1)) x
  | x :: t => fold_result cl_arith_div t x
  end.

(** ** Comparison *)

Definition bi_numeq (args : list number) : bool :=
  match args with
  | [] => true
  | x :: t => forallb (cl_numeric_equal x) t
  end.

(** Every pair [i < j] is compared. *)
Fixpoint bi_numneq (args : list number) : bool :=
  match args with
  | [] => true
  | x :: t => forallb (fun y => negb (cl_numeric_equal x y)) t && bi_numneq t
  end.

(** DEFINE_REAL_CHAIN_CMP: adjacent pairs; [failop] of the comparison fails
    the chain. *)
Fixpoint real_chain (failop : Z -> bool) (args : list rational) : bool :=
  match args with
  | x :: ((y :: _) as t) =>
      if failop (real_compare x y) then false else real_chain failop t
  | _ => true
  end.

Definition bi_lt := real_chain (fun c => c >=? 0).
Definition bi_gt := real_chain (fun c => c <=? 0).
Definition bi_le := real_chain (fun c => c >? 0).
Definition bi_ge := real_chain (fun c => c <? 0).

(** DEFINE_MINMAX: the first of the extreme arguments. *)
Fixpoint minmax_loop (pickop : Z -> bool) (args : list rational) (best : rational) : rational :=
  match args with
  | [] => best
  | x :: t => minmax_loop pickop t (if pickop (real_compare x best) then x else best)
  end.

Definition bi_max (x : rational) (t : list rational) := minmax_loop (fun c => c >? 0) t x.
Definition bi_min (x : rational) (t : list rational) := minmax_loop (fun c => c <? 0) t x.

Definition bi_signum (a : rational) : result rational :=
  if cl_ratio_zerop a then Ok a else cl_ratio_div a (real_abs a).

(** ** Integer functions *)

Definition bi_gcd (args : list integer) : integer :=
  match args with
  | [] => make_fixnum 0
  | x :: t => fold_left cl_arith_gcd t (cl_arith_abs x)
  end.

Fixpoint lcm_loop (args : list integer) (acc : integer) : result integer :=
  match args with
  | [] => Ok acc
  | x :: t =>
      let b := cl_arith_abs x in
      if Bignum.cl_arith_zerop acc || Bignum.cl_arith_zerop b then Ok (make_fixnum 0)
      else
        let g := cl_arith_gcd acc b in
        g <- cl_arith_truncate acc g ;;
        lcm_loop t (Bignum.cl_arith_mul g b)
  end.

Definition bi_lcm (args : list integer) : result integer :=
  match args with
  | [] => Ok (make_fixnum 1)
  | x :: t => lcm_loop t (cl_arith_abs x)
  end.

Definition bi_logand (args : list integer) : integer :=
  fold_left cl_arith_logand args (make_fixnum (-1)).
Definition bi_logior (args : list integer) : integer :=
  fold_left cl_arith_logior args (make_fixnum 0).
Definition bi_logxor (args : list integer) : integer :=
  fold_left cl_arith_logxor args (make_fixnum 0).

Definition bi_logtest (a b : integer) : bool :=
  negb (Bignum.cl_arith_zerop (cl_arith_logand a b)).

Definition bi_logbitp (index n : integer) : result bool :=
  if Bignum.cl_arith_minusp index then Err CL_ERR_TYPE
  else
    match index with
    | Big _ _ => Ok (Bignum.cl_arith_minusp n)
    | Fix i => Ok (negb (cl_arith_logbitp i n =? 0))
    end.

(** ** Byte specifiers: (size . position) *)

Definition byte_spec : Set := (integer * integer)%type.

(** [ash(1, size) - 1] *)
Definition byte_mask (spec : byte_spec) : result integer :=
  mask <- cl_arith_ash (make_fixnum 1) (fst spec) ;;
  Ok (Bignum.cl_arith_sub mask (make_fixnum 1)).

Definition bi_ldb (spec : byte_spec) (n : integer) : result integer :=
  let neg := Bignum.cl_arith_negate (snd spec) in
  shifted <- cl_arith_ash n neg ;;
  mask <- byte_mask spec ;;
  Ok (cl_arith_logand shifted mask).

Definition bi_dpb (newbyte : integer) (spec : byte_spec) (n : integer) : result integer :=
  mask <- byte_mask spec ;;
  shifted_mask <- cl_arith_ash mask (snd spec) ;;
  let cleared := cl_arith_logand n (cl_arith_lognot shifted_mask) in
  let new_bits := cl_arith_logand newbyte mask in
  new_bits <- cl_arith_ash new_bits (snd spec) ;;
  Ok (cl_arith_logior cleared new_bits).

Definition bi_ldb_test (spec : byte_spec) (n : integer) : result bool :=
  val <- bi_ldb spec n ;; Ok (negb (Bignum.cl_arith_zerop val)).

Definition bi_mask_field (spec : byte_spec) (n : integer) : result integer :=
  mask <- byte_mask spec ;;
  shifted_mask <- cl_arith_ash mask (snd spec) ;;
  Ok (cl_arith_logand n shifted_mask).

Definition bi_deposit_field (newbyte : integer) (spec : byte_spec) (n : integer)
  : result integer :=
  mask <- byte_mask spec ;;
  shifted_mask <- cl_arith_ash mask (snd spec) ;;
  let cleared := cl_arith_logand n (cl_arith_lognot shifted_mask) in
  let new_bits := cl_arith_logand newbyte shifted_mask in
  Ok (cl_arith_logior cleared new_bits).

Definition bi_boole (op a b : integer) : result integer :=
  match op with
  | Big _ _ => Err CL_ERR_TYPE
  | Fix op =>
      match op with
      | 0 => Ok (make_fixnum 0)
      | 1 => Ok (make_fixnum (-1))
      | 2 => Ok a
      | 3 => Ok b
      | 4 => Ok (cl_arith_lognot a)
      | 5 => Ok (cl_arith_lognot b)
      | 6 => Ok (cl_arith_logand a b)
      | 7 => Ok (cl_arith_logior a b)
      | 8 => Ok (cl_arith_logxor a b)
      | 9 => Ok (cl_arith_lognot (cl_arith_logxor a b))
      | 10 => Ok (cl_arith_lognot (cl_arith_logand a b))
      | 11 => Ok (cl_arith_lognot (cl_arith_logior a b))
      | 12 => Ok (cl_arith_logand (cl_arith_lognot a) b)
      | 13 => Ok (cl_arith_logand a (cl_arith_lognot b))
      | 14 => Ok (cl_arith_logior (cl_arith_lognot a) b)
      | 15 => Ok (cl_arith_logior a (cl_arith_lognot b))
      | _ => Err CL_ERR_ARGS
      end
  end.

(** ** Rounding: what the quotient and the remainder are *)

(** The remainder [r] of dividing [a] by [b] with integer quotient [q]. *)
Definition rounding_ok (mode : rounding) (a b : Q) (q : Z) (r : Q) : Prop :=
  (r == a - inject_Z q * b)%Q /\
  match mode with
  | ROUND_FLOOR => (0 <= r < b)%Q \/ (b < r <= 0)%Q
  | ROUND_CEILING => (- b < r <= 0)%Q \/ (0 <= r < - b)%Q
  | ROUND_TRUNCATE => (Qabs r < Qabs b)%Q /\ (0 <= r * a)%Q
  | ROUND_ROUND => (Qabs (r + r) <= Qabs b)%Q /\ (Qabs (r + r) == Qabs b -> Z.even q = true)%Q
  end.

(** The same over integers: [x = y q + m]. *)
Definition rounding_okZ (mode : rounding) (x y q m : Z) : Prop :=
  x = y * q + m /\
  match mode with
  | ROUND_FLOOR => 0 <= m < y \/ y < m <= 0
  | ROUND_CEILING => - y < m <= 0 \/ 0 <= m < - y
  | ROUND_TRUNCATE => Z.abs m < Z.abs y /\ 0 <= m * x
  | ROUND_ROUND => 2 * Z.abs m <= Z.abs y /\ (2 * Z.abs m = Z.abs y -> Z.even q = true)
  end.

(** Fractions over one denominator compare as their numerators. *)
Lemma frac_le n m d : 0 < d -> (frac n d <= frac m d)%Q <-> n <= m.
Proof.
  intros Hd. rewrite Qle_alt, frac_compare by trivial. unfold Z.le.
  now rewrite <- (Zmult_compare_compat_r n m d) by lia.
Qed.

Lemma frac_lt n m d : 0 < d -> (frac n d < frac m d)%Q <-> n < m.
Proof.
  intros Hd. rewrite Qlt_alt, frac_compare by trivial. unfold Z.lt.
  now rewrite <- (Zmult_compare_compat_r n m d) by lia.
Qed.

Lemma frac_0 d : 0 < d -> (0 == frac 0 d)%Q.
Proof. intros Hd. unfold frac, Qdiv. now rewrite Qmult_0_l. Qed.

Lemma frac_same_add n m d : 0 < d -> (frac n d + frac m d == frac (n + m) d)%Q.
Proof.
  intros Hd. unfold frac. rewrite inject_Z_plus. field. apply inject_nz. lia.
Qed.

Lemma frac_same_sub n m d : 0 < d -> (frac n d - frac m d == frac (n - m) d)%Q.
Proof.
  intros Hd. unfold frac, Z.sub. rewrite inject_Z_plus, inject_Z_opp. field. apply inject_nz. lia.
Qed.

Lemma frac_scale q y d : 0 < d -> (inject_Z q * frac y d == frac (q * y) d)%Q.
Proof. intros Hd. unfold frac. rewrite inject_Z_mult. field. apply inject_nz. lia. Qed.

Lemma rounding_okZ_iff mode x y q m d :
  0 < d -> rounding_ok mode (frac x d) (frac y d) q (frac m d) <-> rounding_okZ mode x y q m.
Proof.
  intros Hd. unfold rounding_ok, rounding_okZ.
  assert (E : (frac m d == frac x d - inject_Z q * frac y d)%Q <-> x = y * q + m).
  { rewrite frac_scale, frac_same_sub, (frac_eq _ _ _ _ Hd Hd) by trivial. nia. }
  rewrite E. pose proof (frac_0 d Hd) as Z0. pose proof (frac_opp y d ltac:(lia)) as Ny.
  apply and_iff_compat_l. destruct mode.
  - rewrite Z0, !frac_le, !frac_lt by trivial. reflexivity.
  - rewrite <- Ny, Z0, !frac_le, !frac_lt by trivial. reflexivity.
  - rewrite <- !frac_abs, frac_lt, <- frac_mul by lia. apply and_iff_compat_l.
    rewrite (frac_0 (d * d)) by nia. apply frac_le; nia.
  - rewrite frac_same_add, <- !frac_abs, frac_le, (frac_eq _ d _ d Hd Hd) by trivial.
    replace (Z.abs (m + m)) with (2 * Z.abs m) by lia. apply and_iff_compat_l.
    now rewrite Z.mul_cancel_r by lia.
Qed.

Lemma rounding_okZ_Q mode x y q m d :
  0 < d -> rounding_okZ mode x y q m -> rounding_ok mode (frac x d) (frac y d) q (frac m d).
Proof. intros Hd. now apply rounding_okZ_iff. Qed.

(** The adjusted quotient and remainder, on numbers. *)
Definition adjust_Z (mode : rounding) (x y q m : Z) : Z * Z :=
  let down := (q - 1, m + y) in
  let up := (q + 1, m - y) in
  match mode with
  | ROUND_TRUNCATE => (q, m)
  | _ =>
      if m =? 0 then (q, m)
      else
        match mode with
        | ROUND_FLOOR => if negb (eqb (m <? 0) (y <? 0)) then down else (q, m)
        | ROUND_CEILING => if eqb (m <? 0) (y <? 0) then up else (q, m)
        | _ =>
            if (2 * Z.abs m >? Z.abs y) || (2 * Z.abs m =? Z.abs y) && negb (Z.even q)
            then if eqb (x <? 0) (y <? 0) then up else down
            else (q, m)
        end
  end.

Lemma even_pred_succ q : Z.even q = false -> Z.even (q - 1) = true /\ Z.even (q + 1) = true.
Proof. intros H. rewrite Z.even_sub, Z.even_add, H. now split. Qed.

Lemma adjust_Z_ok mode x y :
  y <> 0 ->
  let '(q, m) := adjust_Z mode x y (Z.quot x y) (Z.rem x y) in rounding_okZ mode x y q m.
Proof.
  intros Hy. pose proof (Z.quot_rem x y Hy) as Q. pose proof (Z.rem_bound_abs x y Hy) as A.
  pose proof (Z.rem_sign_mul x y Hy) as S.
  assert (X0 : x = 0 -> Z.rem x y = 0) by (intros ->; apply Z.rem_0_l; lia).
  set (q := Z.quot x y) in *. set (m := Z.rem x y) in *. clearbody q m. unfold adjust_Z.
  destruct (Z.eqb_spec m 0) as [->|N].
  { destruct mode; (split; [lia|]); lia. }
  destruct mode.
  - destruct (Z.ltb_spec m 0), (Z.ltb_spec y 0); cbn [eqb negb]; split; lia.
  - destruct (Z.ltb_spec m 0), (Z.ltb_spec y 0); cbn [eqb negb]; split; lia.
  - split; [lia|]. now split.
  - assert (Sx : (x <? 0) = (m <? 0)).
    { destruct (Z.ltb_spec x 0), (Z.ltb_spec m 0); trivial; nia. }
    rewrite Sx. destruct (Z.gtb_spec (2 * Z.abs m) (Z.abs y)); cbn [orb].
    + destruct (Z.ltb_spec m 0), (Z.ltb_spec y 0); cbn [eqb]; (split; [lia|split; lia]).
    + destruct (Z.eqb_spec (2 * Z.abs m) (Z.abs y)); cbn [andb].
      2: { split; [lia|]. split; [lia|]. intros; lia. }
      destruct (Z.even q) eqn:Ev; cbn [negb]; [split; [lia|]; now split|].
      destruct (even_pred_succ q Ev) as [E1 E2].
      destruct (Z.ltb_spec m 0), (Z.ltb_spec y 0); cbn [eqb];
        (split; [lia|]; split; [lia|]; intros _; assumption).
Qed.

#[export] Instance rounding_ok_proper mode :
  Morphisms.Proper (Qeq ==> Qeq ==> eq ==> Qeq ==> iff)%signature (rounding_ok mode).
Proof.
  intros a a' Ea b b' Eb q q' <- r r' Er. unfold rounding_ok.
  destruct mode; now rewrite Ea, Eb, Er.
Qed.

Lemma minusp_frac r m d : 0 < d -> rrep r (frac m d) -> cl_ratio_minusp r = (m <? 0).
Proof.
  intros Hd Hr. pose proof (cl_ratio_minusp_spec r _ Hr) as S.
  rewrite (frac_0 d Hd), frac_lt in S by trivial. apply eq_true_iff_eq.
  now rewrite S, Z.ltb_lt.
Qed.

Lemma zerop_frac r m d : 0 < d -> rrep r (frac m d) -> cl_ratio_zerop r = (m =? 0).
Proof.
  intros Hd Hr. pose proof (cl_ratio_zerop_spec r _ Hr) as S.
  rewrite (frac_0 d Hd), (frac_eq m d 0 d Hd Hd) in S. apply eq_true_iff_eq.
  rewrite S, Z.eqb_eq. nia.
Qed.

Lemma rrep_eq r p q : (p == q)%Q -> rrep r p -> rrep r q.
Proof. intros E. now rewrite E. Qed.

Lemma qsgn_frac n m d : 0 < d -> qsgn_compare (frac n d) (frac m d) = sgn_compare n m.
Proof.
  intros Hd. unfold qsgn_compare, sgn_compare. rewrite frac_compare by trivial.
  now rewrite <- (Zmult_compare_compat_r n m d) by lia.
Qed.

Section AdjustSpec.
Context {a b r : rational} {q : integer} {x y t m d k : Z}.
Hypothesis (Hd : 0 < d) (Ha : rrep a (frac x d)) (Hb : rrep b (frac y d))
  (Hr : rrep r (frac m d)) (Hq : rep q t) (Bb : rbits b k) (Br : rbits r k)
  (Hk : 2 * k + 1 <= BITS16).

Definition adjusted (f : result (integer * rational)) (t' m' : Z) : Prop :=
  exists q' r', f = Ok (q', r') /\ rep q' t' /\ rrep r' (frac m' d).

Lemma adjusted_down :
  adjusted (q' <- Ok (Bignum.cl_arith_sub q (make_fixnum 1)) ;;
            r' <- real_add r b ;; Ok (q', r')) (t - 1) (m + y).
Proof.
  cbn [bind]. destruct (real_add_spec Hr Hb Br Bb Hk) as (r' & -> & R & _). cbn [bind].
  eexists _, r'. split; [reflexivity|]. split; [apply rep_sub; trivial; apply rep_small; lia|].
  eapply rrep_eq; [|exact R]. now apply frac_same_add.
Qed.

Lemma adjusted_up :
  adjusted (q' <- Ok (Bignum.cl_arith_add q (make_fixnum 1)) ;;
            r' <- real_sub r b ;; Ok (q', r')) (t + 1) (m - y).
Proof.
  cbn [bind]. destruct (real_sub_spec Hr Hb Br Bb Hk) as (r' & -> & R & _). cbn [bind].
  eexists _, r'. split; [reflexivity|]. split; [apply rep_add; trivial; apply rep_small; lia|].
  eapply rrep_eq; [|exact R]. now apply frac_same_sub.
Qed.

Lemma adjusted_none : adjusted (Ok (q, r)) t m.
Proof. exists q, r. auto. Qed.

Lemma adjust_rounding_spec mode :
  let '(t', m') := adjust_Z mode x y t m in
  adjusted (adjust_rounding mode a b q r) t' m'.
Proof.
  unfold adjust_rounding, adjust_Z.
  rewrite (zerop_frac r m d), !(minusp_frac _ _ d Hd Ha), !(minusp_frac _ _ d Hd Hb),
    !(minusp_frac _ _ d Hd Hr) by trivial.
  destruct mode; try exact adjusted_none; destruct (m =? 0); try exact adjusted_none.
  - destruct (negb _); [apply adjusted_down | apply adjusted_none].
  - destruct (eqb _ _); [apply adjusted_up | apply adjusted_none].
  - destruct (real_add_spec Hr Hr Br Br Hk) as (r2 & -> & R2 & B2). cbn [bind].
    assert (K : 2 * k + 1 <= BITS16) by exact Hk.
    destruct (real_abs_spec r2 _ _ R2 B2 K) as [A2 _].
    destruct (real_abs_spec b _ k Hb Bb) as [Ab _].
    { assert (0 <= k) by (destruct Bb as [B _]; now apply bits_nonneg in B). lia. }
    assert (C : real_compare (real_abs r2) (real_abs b) = sgn_compare (2 * Z.abs m) (Z.abs y)).
    { rewrite <- (qsgn_frac _ _ d Hd). apply real_compare_spec.
      - eapply rrep_eq; [|exact A2]. rewrite frac_same_add, <- frac_abs by trivial.
        replace (Z.abs (m + m)) with (2 * Z.abs m) by lia. reflexivity.
      - eapply rrep_eq; [|exact Ab]. now rewrite <- frac_abs. }
    rewrite C, sgn_compare_eqb, (cl_arith_evenp_spec q t Hq).
    replace (sgn_compare (2 * Z.abs m) (Z.abs y) >? 0) with (2 * Z.abs m >? Z.abs y)
      by (unfold sgn_compare, Z.gtb; now destruct (_ ?= Z.abs y)).
    destruct (_ || _); [|apply adjusted_none].
    destruct (eqb _ _); [apply adjusted_up | apply adjusted_down].
Qed.
End AdjustSpec.

(** The overflow of the fixnum fast path of cl_arith_truncate, on operands
    [a] and [b] brought to integers. *)
Definition no_overflow (a b : rational) : Prop :=
  ~ (int_val (cl_numerator a) * int_val (cl_denominator b) = CL_FIXNUM_MIN /\
     int_val (cl_denominator a) * int_val (cl_numerator b) = -1).

(** Two rationals over a common denominator. *)
Lemma common_denominator a b p q k :
  rrep a p -> rrep b q -> rbits a k -> rbits b k ->
  exists x y d, 0 < d /\ (p == frac x d)%Q /\ (q == frac y d)%Q /\ Z.abs x < 2 ^ (2 * k) /\
    rep (Bignum.cl_arith_mul (cl_numerator a) (cl_denominator b)) x /\
    rep (Bignum.cl_arith_mul (cl_denominator a) (cl_numerator b)) y /\
    (no_overflow a b -> ~ (x = CL_FIXNUM_MIN /\ y = -1)).
Proof.
  intros Ha Hb Ba Bb.
  destruct (rrep_parts_bits a p k Ha Ba) as (n & d & Hn & Hd & Pd & E & Bn & Bd).
  destruct (rrep_parts_bits b q k Hb Bb) as (n' & d' & Hn' & Hd' & Pd' & E' & Bn' & Bd').
  exists (n * d'), (d * n'), (d * d'). split; [nia|]. split.
  { rewrite E, (Z.mul_comm d), (Z.mul_comm n). symmetry. apply frac_cancel; lia. }
  split. { rewrite E'. symmetry. apply frac_cancel; lia. }
  split; [now apply bits_mul|]. split; [auto with ints|]. split; [auto with ints|].
  unfold no_overflow. rewrite (proj2 Hn), (proj2 Hd), (proj2 Hn'), (proj2 Hd'). trivial.
Qed.

Lemma rbits_pos r k : rbits r k -> CL_RATIO_P r = false -> 1 <= k.
Proof.
  intros [_ B] H. destruct r as [i|]; [|discriminate]. cbn [cl_denominator] in B.
  change (int_val (make_fixnum 1)) with 1 in B. pose proof (bits_nonneg 1 k B).
  destruct (Z.eq_dec k 0) as [->|]; [cbn in B|]; lia.
Qed.

Lemma rbits_int i x k : rep i x -> Z.abs x < 2 ^ k -> 1 <= k -> rbits (RInt i) k.
Proof.
  intros Hi Hx Hk. split; cbn [cl_numerator cl_denominator]; [now rewrite (proj2 Hi)|].
  change (int_val (make_fixnum 1)) with 1. apply Z.lt_le_trans with (2 ^ 1); [lia|].
  apply Z.pow_le_mono_r; lia.
Qed.

Lemma rrep_int i x : rep i x -> rrep (RInt i) (inject_Z x).
Proof. intros H. exists x. split; trivial. reflexivity. Qed.

Lemma bits_pos x k : 0 < x -> Z.abs x < 2 ^ k -> 1 <= k.
Proof.
  intros Hp B. pose proof (bits_nonneg x k B).
  destruct (Z.eq_dec k 0) as [->|]; [rewrite Z.pow_0_r in B|]; lia.
Qed.

Lemma rbits_one r q k : rrep r q -> rbits r k -> 1 <= k.
Proof.
  intros Hr B. destruct (rrep_parts_bits r q k Hr B) as (n & d & _ & _ & Pd & _ & _ & Bd).
  now apply (bits_pos d).
Qed.

(** The remainder [a - q b] for an integer quotient [q]. *)
Lemma remainder_spec a b q p v t k :
  rrep a p -> rrep b v -> rep q t -> rbits a k -> rbits b k -> Z.abs t < 2 ^ k ->
  4 * k + 3 <= BITS16 ->
  exists r, (prod <- real_mul (RInt q) b ;; real_sub a prod) = Ok r /\
            rrep r (p - inject_Z t * v) /\ rbits r (4 * k + 3).
Proof.
  intros Ha Hb Hq Ba Bb Bt Hk. pose proof (rbits_one a p k Ha Ba).
  destruct (real_mul_spec (rrep_int q t Hq) Hb (rbits_int q t k Hq Bt ltac:(lia)) Bb ltac:(lia))
    as (r1 & -> & R1 & B1). cbn [bind].
  destruct (real_sub_spec Ha R1 (rbits_mono _ _ (2 * k + 1) Ba ltac:(lia)) B1 ltac:(lia))
    as (r & E & R & B).
  exists r. split; trivial. split; trivial.
  now replace (2 * (2 * k + 1) + 1) with (4 * k + 3) in B by lia.
Qed.

Lemma quot_bits x y k : y <> 0 -> Z.abs x < 2 ^ k -> Z.abs (Z.quot x y) < 2 ^ k.
Proof.
  intros Hy Hx. rewrite <- Z.quot_abs by trivial.
  assert (Z.quot (Z.abs x) (Z.abs y) <= Z.abs x) by (apply Z.quot_le_upper_bound; nia).
  pose proof (Z.quot_pos (Z.abs x) (Z.abs y)). lia.
Qed.

(** FLOOR, CEILING, TRUNCATE and ROUND of two rationals of at most [k] bits,
    unless the quotient is the one integer the fixnum path gets wrong. *)
Lemma do_rounding2_spec mode a b p v k :
  rrep a p -> rrep b v -> rbits a k -> rbits b k -> 16 * k + 7 <= BITS16 ->
  ~ (v == 0)%Q -> no_overflow a b ->
  exists q r t w, do_rounding2 mode a b = Ok (q, r) /\ rep q t /\ rrep r w /\
                  rounding_ok mode p v t w.
Proof.
  intros Ha Hb Ba Bb Hk Hv Hov. unfold do_rounding2.
  destruct (common_denominator a b p v k Ha Hb Ba Bb) as (x & y & d & Pd & E & E' & Bx & Rx & Ry & O).
  assert (Hy : y <> 0).
  { intros ->. apply Hv. rewrite E'. symmetry. now apply frac_0. }
  destruct (cl_arith_truncate_spec _ _ x y Rx Ry Hy (O Hov)) as (q & -> & Rq). cbn [bind].
  pose proof (rbits_one a p k Ha Ba).
  destruct (remainder_spec a b q p v (Z.quot x y) (2 * k)) as (r & Er & Rr & Br); trivial;
    try (eapply rbits_mono; [eassumption|lia]); [now apply quot_bits | lia |].
  revert Er. destruct (real_mul (RInt q) b) as [r1|e]; cbn [bind]; [|discriminate]. intros ->.
  cbn [bind].
  assert (Rr' : rrep r (frac (Z.rem x y) d)).
  { eapply rrep_eq; [|exact Rr]. rewrite E, E', frac_scale, frac_same_sub by trivial.
    pose proof (Z.quot_rem x y Hy). replace (x - Z.quot x y * y) with (Z.rem x y) by lia.
    reflexivity. }
  pose proof (adjust_rounding_spec (a := a) (b := b) (r := r) (q := q) (x := x) (y := y)
    (t := Z.quot x y) (m := Z.rem x y) (d := d) (k := 4 * (2 * k) + 3) Pd
    (rrep_eq _ _ _ E Ha) (rrep_eq _ _ _ E' Hb) Rr' Rq
    (rbits_mono b k (4 * (2 * k) + 3) Bb ltac:(lia)) Br ltac:(lia) mode) as S.
  pose proof (adjust_Z_ok mode x y Hy) as OkZ.
  destruct (adjust_Z mode x y (Z.quot x y) (Z.rem x y)) as [t m].
  destruct S as (q' & r' & -> & Rq' & Rr2). exists q', r', t, (frac m d).
  split; [reflexivity|]. split; [trivial|]. split; [trivial|].
  rewrite E, E'. now apply rounding_okZ_Q.
Qed.

(** The integer form of [do_rounding2_spec]. *)
Lemma do_rounding2_specZ mode n d x y k :
  rep n x -> rep d y -> Z.abs x < 2 ^ k -> Z.abs y < 2 ^ k -> 1 <= k -> 16 * k + 7 <= BITS16 ->
  y <> 0 -> no_overflow (RInt n) (RInt d) ->
  exists q r t m, do_rounding2 mode (RInt n) (RInt d) = Ok (q, r) /\ rep q t /\
    rrep r (inject_Z m) /\ rounding_okZ mode x y t m.
Proof.
  intros Hx Hy Bx By Hk1 Hk Hy0 O.
  destruct (do_rounding2_spec mode (RInt n) (RInt d) (inject_Z x) (inject_Z y) k)
    as (q & r & t & w & E & Rq & Rr & Ok1); trivial; try (now apply rrep_int);
    try (eapply rbits_int; eassumption); [now apply inject_nz|].
  pose proof (proj1 Ok1) as Ew.
  assert (E2 : (w == inject_Z (x - t * y))%Q).
  { rewrite Ew. unfold Z.sub. rewrite inject_Z_plus, inject_Z_opp, inject_Z_mult. ring. }
  exists q, r, t, (x - t * y). rewrite E2, <- !frac_1 in Ok1.
  apply rounding_okZ_iff in Ok1; [|lia].
  split; [trivial|]. split; [trivial|]. split; [now rewrite <- E2 | trivial].
Qed.

(** ** REM and MOD *)

(** Scaling both operands scales the remainder. *)
Lemma rounding_okZ_scale mode x y q m g :
  g <> 0 -> rounding_okZ mode x y q m -> rounding_okZ mode (g * x) (g * y) q (g * m).
Proof.
  intros Hg [E H]. split; [nia|]. destruct mode.
  - destruct (Z.lt_ge_cases g 0), H; nia.
  - destruct (Z.lt_ge_cases g 0), H; nia.
  - destruct H as [H1 H2]. rewrite !Z.abs_mul. split; [nia|].
    replace (g * m * (g * x)) with (g * g * (m * x)) by ring. nia.
  - destruct H as [H1 H2]. rewrite !Z.abs_mul. split; [nia|]. intros Eq. apply H2. nia.
Qed.

Lemma frac_cross a b c d :
  b <> 0 -> d <> 0 -> (frac a b == frac c d)%Q -> a * d = c * b.
Proof.
  intros Hb Hd E. apply inject_Z_injective. rewrite !inject_Z_mult.
  transitivity (frac a b * inject_Z b * inject_Z d)%Q.
  - unfold frac. field. now apply inject_nz.
  - rewrite E. unfold frac. field. now apply inject_nz.
Qed.

Lemma quot_floor n d :
  0 < d -> n / d = if negb (Z.quot n d * d =? n) && (n <? 0) then Z.quot n d - 1 else Z.quot n d.
Proof.
  intros Hd. pose proof (Z.quot_rem n d ltac:(lia)) as Q.
  pose proof (Z.rem_bound_abs n d ltac:(lia)) as A. pose proof (Z.rem_sign_mul n d ltac:(lia)) as S.
  assert (X0 : n = 0 -> Z.rem n d = 0) by (intros ->; apply Z.rem_0_l; lia).
  set (q := Z.quot n d) in *. set (m := Z.rem n d) in *. clearbody q m.
  destruct (Z.eqb_spec (q * d) n) as [E|E]; cbn [negb andb].
  - symmetry. apply Z.div_unique with 0; lia.
  - destruct (Z.ltb_spec n 0).
    + symmetry. apply Z.div_unique with (m + d); nia.
    + symmetry. apply Z.div_unique with m; nia.
Qed.

Lemma okZ_floor x y : y <> 0 -> rounding_okZ ROUND_FLOOR x y (x / y) (x mod y).
Proof.
  intros Hy. split; [apply Z.div_mod; trivial|].
  destruct (Z.lt_ge_cases y 0); [right; apply Z.mod_neg_bound; lia | left; apply Z.mod_pos_bound; lia].
Qed.

Lemma okZ_truncate x y : y <> 0 -> rounding_okZ ROUND_TRUNCATE x y (Z.quot x y) (Z.rem x y).
Proof.
  intros Hy. split; [now apply Z.quot_rem|]. split; [now apply Z.rem_bound_abs|].
  now apply Z.rem_sign_mul.
Qed.

(** The quotient object of two rationals and its use to divide: a rounding of
    the quotient's fraction is a rounding of the operands. *)
Lemma quotient_rounding mode a b p v k quot :
  rrep a p -> rrep b v -> rbits a k -> rbits b k -> ~ (v == 0)%Q -> rrep quot (p / v) ->
  forall t m, (let n := int_val (cl_numerator quot) in let d := int_val (cl_denominator quot) in
               rounding_okZ mode n d t m) ->
  rounding_ok mode p v t (p - inject_Z t * v).
Proof.
  intros Ha Hb Ba Bb Hv Hq t m Ok.
  destruct (rrep_parts quot _ Hq) as (n & d & Hn & Hd & Pd & G & E).
  rewrite (proj2 Hn), (proj2 Hd) in Ok. cbv zeta in Ok.
  destruct (common_denominator a b p v k Ha Hb Ba Bb) as (x & y & D & PD & Ex & Ey & _).
  assert (Hy : y <> 0) by (intros ->; apply Hv; rewrite Ey; symmetry; now apply frac_0).
  rewrite Ex, Ey, <- frac_div in E by lia.
  apply frac_cross in E; [|nia|lia].
  assert (C : x * d = n * y) by nia.
  assert (Dv : (d | y)).
  { apply Z.gauss with n; [exists x; lia | now rewrite Z.gcd_comm]. }
  destruct Dv as [g Eg]. assert (Hx : x = g * n) by nia. assert (Hg : g <> 0) by lia.
  pose proof (rounding_okZ_scale mode n d t m g Hg Ok) as Ok'.
  rewrite <- Hx, (Z.mul_comm g d), (Z.mul_comm d g), <- Eg in Ok'.
  pose proof (rounding_okZ_Q mode x y t (g * m) D PD Ok') as R.
  rewrite <- Ex, <- Ey in R. pose proof (proj1 R) as Er. now rewrite Er in R.
Qed.

Lemma rep_num_bits r q k : rrep r q -> rbits r k ->
  rep (cl_numerator r) (int_val (cl_numerator r)) /\
  rep (cl_denominator r) (int_val (cl_denominator r)) /\
  0 < int_val (cl_denominator r) /\ Z.abs (int_val (cl_numerator r)) < 2 ^ k.
Proof.
  intros Hr [B1 B2]. destruct (rrep_parts r q Hr) as (n & d & Hn & Hd & Pd & _).
  rewrite (proj2 Hn), (proj2 Hd). rewrite (proj2 Hn) in B1. auto.
Qed.

Lemma bi_rem_spec a b p v k :
  rrep a p -> rrep b v -> rbits a k -> rbits b k -> 8 * k + 7 <= BITS16 -> ~ (v == 0)%Q ->
  exists r w t, bi_rem a b = Ok r /\ rrep r w /\ rounding_ok ROUND_TRUNCATE p v t w.
Proof.
  intros Ha Hb Ba Bb Hk Hv. pose proof (rbits_one a p k Ha Ba).
  assert (G : exists r w t,
    (quot <- cl_ratio_div a b ;;
     trunc_q <- truncate_quot quot ;;
     prod <- real_mul (RInt trunc_q) b ;;
     real_sub a prod) = Ok r /\ rrep r w /\ rounding_ok ROUND_TRUNCATE p v t w).
  { destruct (cl_ratio_div_spec Ha Hb Ba Bb ltac:(lia) Hv) as (quot & -> & Rq & Bq). cbn [bind].
    destruct (rep_num_bits quot _ _ Rq Bq) as (Hn & Hd & Pd & Bn).
    pose proof (quotient_rounding ROUND_TRUNCATE a b p v k quot Ha Hb Ba Bb Hv Rq) as Qr.
    set (n := int_val (cl_numerator quot)) in *. set (d := int_val (cl_denominator quot)) in *.
    specialize (Qr _ _ (okZ_truncate n d ltac:(lia))).
    assert (T : exists q, truncate_quot quot = Ok q /\ rep q (Z.quot n d)).
    { destruct quot as [i|i j]; cbn [truncate_quot].
      - exists i. split; trivial. subst n d. cbn [cl_numerator cl_denominator] in *.
        change (int_val (make_fixnum 1)) with 1. now rewrite Z.quot_1_r.
      - apply cl_arith_truncate_spec; trivial; lia. }
    destruct T as (q & -> & Rt). cbn [bind].
    destruct (remainder_spec a b q p v (Z.quot n d) (2 * k + 1)) as (r & Er & Rr & _); trivial;
      try (eapply rbits_mono; [eassumption|lia]); [apply quot_bits; trivial; lia | lia |].
    exists r, (p - inject_Z (Z.quot n d) * v)%Q, (Z.quot n d). auto. }
  destruct a as [i|na da]; [destruct b as [j|nb db]|]; [|destruct i; exact G|exact G]. clear G.
  destruct Ha as (x & Hx & E), Hb as (y & Hy & E').
  assert (Hy0 : y <> 0) by (intros ->; apply Hv; now rewrite E').
  assert (R : forall o, rep o (Z.rem x y) -> exists r w t, Ok (RInt o) = Ok r /\ rrep r w /\
                rounding_ok ROUND_TRUNCATE p v t w).
  { intros o Ho. exists (RInt o), (inject_Z (Z.rem x y)), (Z.quot x y). split; [reflexivity|].
    split; [now apply rrep_int|]. rewrite E, E', <- !frac_1.
    apply rounding_okZ_Q; [lia | now apply okZ_truncate]. }
  assert (G : (exists z, i = Fix z) /\ (exists z, j = Fix z) \/ exists q o,
    cl_arith_truncate i j = Ok q /\
    o = Bignum.cl_arith_sub i (Bignum.cl_arith_mul q j) /\ rep o (Z.rem x y)).
  { assert (F : (exists z, i = Fix z) /\ (exists z, j = Fix z) \/ ~ (x = CL_FIXNUM_MIN /\ y = -1)).
    { destruct (Z.eq_dec x CL_FIXNUM_MIN) as [->|]; [|right; lia].
      destruct (Z.eq_dec y (-1)) as [->|]; [|right; lia]. left. split; eexists.
      - apply (rep_unique i _ _ Hx), rep_fix. fixnums. lia.
      - apply (rep_unique j _ _ Hy), rep_fix. fixnums. lia. }
    destruct F as [F|F]; [now left|]. right.
    destruct (cl_arith_truncate_spec i j x y Hx Hy Hy0 F) as (q & -> & Rq).
    eexists q, _. split; [reflexivity|]. split; [reflexivity|].
    replace (Z.rem x y) with (x - Z.quot x y * y) by (pose proof (Z.quot_rem x y Hy0); lia).
    auto with ints. }
  destruct G as [[[zi ->] [zj ->]]|(q & o & T & -> & Ro)].
  - destruct Hx as [Wx <-], Hy as [Wy <-]. cbn [int_val] in *. cbn [bi_rem].
    destruct (Z.eqb_spec zj 0); [contradiction|]. apply R, rep_make_fixnum.
    cbn in Wx. pose proof (Z.rem_bound_abs zi zj Hy0). cbn in Wy. fixnums. lia.
  - destruct i as [zi|], j as [zj|]; cbn [bi_rem]; try (rewrite T; now apply R).
    destruct (Z.eqb_spec zj 0) as [->|Nz].
    { destruct Hy as [_ V]. cbn in V. lia. }
    destruct Hx as [Wx <-], Hy as [Wy <-]. apply R, rep_make_fixnum. cbn [int_val].
    cbn in Wx, Wy. pose proof (Z.rem_bound_abs zi zj Nz). fixnums. lia.
Qed.

Lemma bi_mod_spec a b p v k :
  rrep a p -> rrep b v -> rbits a k -> rbits b k -> 8 * k + 7 <= BITS16 -> ~ (v == 0)%Q ->
  exists r w t, bi_mod a b = Ok r /\ rrep r w /\ rounding_ok ROUND_FLOOR p v t w.
Proof.
  intros Ha Hb Ba Bb Hk Hv. pose proof (rbits_one a p k Ha Ba).
  assert (G : exists r w t,
    (quot <- cl_ratio_div a b ;;
     floor_q <- floor_quot quot ;;
     prod <- real_mul (RInt floor_q) b ;;
     real_sub a prod) = Ok r /\ rrep r w /\ rounding_ok ROUND_FLOOR p v t w).
  { destruct (cl_ratio_div_spec Ha Hb Ba Bb ltac:(lia) Hv) as (quot & -> & Rq & Bq). cbn [bind].
    destruct (rep_num_bits quot _ _ Rq Bq) as (Hn & Hd & Pd & Bn).
    pose proof (quotient_rounding ROUND_FLOOR a b p v k quot Ha Hb Ba Bb Hv Rq) as Qr.
    set (n := int_val (cl_numerator quot)) in *. set (d := int_val (cl_denominator quot)) in *.
    specialize (Qr _ _ (okZ_floor n d ltac:(lia))).
    assert (T : exists q, floor_quot quot = Ok q /\ rep q (n / d)).
    { destruct quot as [i|i j]; cbn [floor_quot cl_numerator cl_denominator cl_ratio_minusp] in *.
      - exists i. split; trivial. subst n d. cbn [cl_denominator cl_numerator] in *.
        change (int_val (make_fixnum 1)) with 1. now rewrite Z.div_1_r.
      - fold n in Hn. fold d in Hd.
        destruct (cl_arith_truncate_spec i j n d Hn Hd) as (t & -> & Rt); [lia|lia|].
        cbn [bind]. eexists. split; [reflexivity|].
        rewrite (cl_arith_compare_spec _ i (Z.quot n d * d) n) by auto with ints.
        rewrite sgn_compare_eqb, (Bignum.cl_arith_minusp_spec i n Hn), quot_floor by lia.
        destruct (_ && _); [|trivial]. apply rep_sub; trivial. apply rep_small; lia. }
    destruct T as (q & -> & Rt). cbn [bind].
    destruct (remainder_spec a b q p v (n / d) (2 * k + 1)) as (r & Er & Rr & _); trivial;
      try (eapply rbits_mono; [eassumption|lia]); [|lia|].
    { assert (Z.abs (n / d) <= Z.abs n); [|lia].
      destruct (Z.lt_ge_cases n 0).
      - pose proof (Z.div_lt_upper_bound n d 0 Pd). pose proof (Z.div_le_lower_bound n d n Pd). nia.
      - pose proof (Z.div_pos n d). pose proof (Z.div_le_upper_bound n d n Pd). nia. }
    exists r, (p - inject_Z (n / d) * v)%Q, (n / d). auto. }
  destruct a as [i|na da]; [destruct b as [j|nb db]|]; [|exact G|exact G]. clear G.
  destruct Ha as (x & Hx & E), Hb as (y & Hy & E').
  assert (Hy0 : y <> 0) by (intros ->; apply Hv; now rewrite E').
  cbn [bi_mod]. destruct (cl_arith_mod_spec i j x y Hx Hy Hy0) as (o & -> & Ro). cbn [bind].
  exists (RInt o), (inject_Z (x mod y)), (x / y). split; [reflexivity|].
  split; [now apply rrep_int|]. rewrite E, E', <- !frac_1.
  apply rounding_okZ_Q; [lia | now apply okZ_floor].
Qed.

(** One argument: the divisor is 1. *)
Lemma do_rounding1_spec mode a p k :
  rrep a p -> rbits a k -> 16 * k + 7 <= BITS16 ->
  exists q r t w, do_rounding1 mode a = Ok (q, r) /\ rep q t /\ rrep r w /\
                  rounding_ok mode p 1 t w.
Proof.
  intros Ha Ba Hk. pose proof (rbits_one a p k Ha Ba).
  destruct a as [i|n d].
  - destruct Ha as (x & Hx & E). exists i, (RInt (make_fixnum 0)), x, 0%Q.
    split; [reflexivity|]. split; [trivial|]. split; [apply rrep_zero|].
    rewrite E, <- (frac_1 x), <- (frac_1 0).
    apply (rounding_okZ_Q mode x 1 x 0 1); [lia|]. split; [lia|]. destruct mode; lia.
  - pose proof Ha as (x & y & Hx & Hy & P & G & E). destruct Ba as [B1 B2].
    cbn [cl_numerator cl_denominator] in B1, B2. rewrite (proj2 Hx) in B1. rewrite (proj2 Hy) in B2.
    assert (O : no_overflow (RInt n) (RInt d)).
    { unfold no_overflow. cbn [cl_numerator cl_denominator]. rewrite (proj2 Hy).
      change (int_val (make_fixnum 1)) with 1. lia. }
    assert (Hv : ~ (inject_Z y == 0)%Q) by (apply inject_nz; lia).
    cbn [do_rounding1].
    destruct (do_rounding2_specZ mode n d x y k Hx Hy B1 B2 H Hk ltac:(lia) O)
      as (q & r & t & m & -> & Rq & Rm & Ok1).
    cbn [bind fst].
    assert (Bq : Z.abs t <= Z.abs x + 1).
    { destruct Ok1 as [Ex Om]. destruct mode; nia. }
    assert (Rb : rbits (RRatio n d) (k + 1)).
    { split; cbn [cl_numerator cl_denominator]; [rewrite (proj2 Hx) | rewrite (proj2 Hy)];
        eapply bits_mono; try eassumption; lia. }
    assert (Bt : Z.abs t < 2 ^ (k + 1)) by (apply bits_double; lia).
    destruct (real_sub_spec Ha (rrep_int q t Rq) Rb (rbits_int q t (k + 1) Rq Bt ltac:(lia)) ltac:(lia))
      as (r' & -> & Rr' & _).
    cbn [bind]. exists q, r', t, (p - inject_Z t)%Q. split; [reflexivity|]. split; [trivial|].
    split; [trivial|].
    pose proof (rounding_okZ_Q mode x y t m y ltac:(lia) Ok1) as R.
    assert (F1 : (frac y y == 1)%Q) by (unfold frac; field; apply inject_nz; lia).
    rewrite F1, <- E in R. pose proof (proj1 R) as Er. rewrite Er in R.
    eapply rounding_ok_proper; [reflexivity|reflexivity|reflexivity| |exact R]. ring.
Qed.

(** ** GCD, LCM and the logical folds *)

Lemma gcd_abs_fold xs : forall acc, 0 <= acc -> 0 <= fold_left Z.gcd xs acc.
Proof. induction xs as [|x xs IH]; intros acc H; cbn; [trivial | apply IH, Z.gcd_nonneg]. Qed.

Definition rep_list : list integer -> list Z -> Prop := Forall2 rep.

Lemma bi_gcd_spec args xs :
  rep_list args xs -> Forall2 (fun a x => x < 0 -> len16 a) args xs ->
  rep (bi_gcd args) (fold_left Z.gcd xs 0).
Proof.
  intros H L. destruct H as [|a x args xs Ha H]; [apply (rep_small 0); lia|].
  inversion L as [|? ? ? ? La L']; subst. cbn [bi_gcd fold_left]. rewrite Z.gcd_0_l.
  pose proof (rep_abs a x Ha La) as R. clear Ha L La. pose proof (Z.abs_nonneg x) as P. revert R P.
  generalize (cl_arith_abs a), (Z.abs x). induction H as [|b y args xs Hb H IH]; intros c z R P; cbn.
  - exact R.
  - inversion L' as [|? ? ? ? Lb L2]; subst. apply IH; trivial; [|apply Z.gcd_nonneg].
    apply rep_gcd; trivial. intros; lia.
Qed.

(** The product over the gcd is the least common multiple. *)
Lemma lcm_quot x y : 0 < x -> 0 < y -> Z.quot x (Z.gcd x y) * y = Z.lcm x y.
Proof.
  intros Hx Hy. pose proof (Z.gcd_nonneg x y). pose proof (Z.gcd_eq_0_l x y) as N.
  destruct (Z.gcd_divide_l x y) as [p Ep], (Z.gcd_divide_r x y) as [q Eq].
  set (g := Z.gcd x y) in *. assert (0 < g) by lia.
  unfold Z.lcm. fold g. clearbody g. rewrite Ep at 1. rewrite Z.quot_mul by lia.
  rewrite Eq at 2. rewrite Z.div_mul by lia. rewrite Z.abs_eq by nia. nia.
Qed.

Lemma lcm_fold_0 xs : fold_left Z.lcm xs 0 = 0.
Proof. induction xs as [|x xs IH]; cbn [fold_left]; [reflexivity | now rewrite Z.lcm_0_l]. Qed.

Lemma lcm_loop_spec args xs :
  rep_list args xs -> Forall2 (fun a x => x < 0 -> len16 a) args xs ->
  forall acc z, rep acc z -> 0 <= z ->
  exists r, lcm_loop args acc = Ok r /\ rep r (fold_left Z.lcm xs z).
Proof.
  induction 1 as [|a x args xs Ha H IH]; intros L acc z Hz Pz; cbn [lcm_loop fold_left].
  { eauto. }
  inversion L as [|? ? ? ? La L']; subst. pose proof (rep_abs a x Ha La) as R.
  rewrite (Bignum.cl_arith_zerop_spec acc z Hz), (Bignum.cl_arith_zerop_spec _ _ R).
  destruct (Z.eqb_spec z 0) as [->|Nz]; cbn [orb].
  { rewrite Z.lcm_0_l, lcm_fold_0. eexists. split; [reflexivity | apply rep_small; lia]. }
  destruct (Z.eqb_spec (Z.abs x) 0) as [Ex|Nx].
  { assert (x = 0) as -> by lia. rewrite Z.lcm_0_r, lcm_fold_0.
    eexists. split; [reflexivity | apply rep_small; lia]. }
  pose proof (rep_gcd acc (cl_arith_abs a) z (Z.abs x) Hz R ltac:(intros; lia) ltac:(intros; lia)) as G.
  pose proof (Z.gcd_eq_0_l z (Z.abs x)) as G0.
  destruct (cl_arith_truncate_spec _ _ _ _ Hz G) as (g & -> & Rg); [lia|fixnums; lia|].
  cbn [bind]. apply IH; trivial; [|apply Z.lcm_nonneg].
  rewrite <- Z.lcm_abs_r, <- lcm_quot by lia. auto with ints.
Qed.

Lemma bi_lcm_spec args xs :
  rep_list args xs -> Forall2 (fun a x => x < 0 -> len16 a) args xs ->
  exists r, bi_lcm args = Ok r /\ rep r (fold_left Z.lcm xs 1).
Proof.
  intros H L. destruct H as [|a x args xs Ha H].
  { eexists. split; [reflexivity | apply (rep_small 1); lia]. }
  inversion L as [|? ? ? ? La L']; subst. cbn [bi_lcm fold_left].
  rewrite Z.lcm_1_l. apply lcm_loop_spec; trivial; [|lia]. now apply rep_abs.
Qed.

(** A fold of a binary operation refines the fold of its meaning. *)
Lemma rep_fold f g args xs :
  (forall a b x y, rep a x -> rep b y -> rep (f a b) (g x y)) -> rep_list args xs ->
  forall acc z, rep acc z -> rep (fold_left f args acc) (fold_left g xs z).
Proof. intros F H. induction H; intros acc z Hz; cbn; eauto. Qed.

Lemma bi_logand_spec args xs :
  rep_list args xs -> rep (bi_logand args) (fold_left Z.land xs (-1)).
Proof. intros H. apply rep_fold; [auto with ints | trivial | apply rep_small; lia]. Qed.

Lemma bi_logior_spec args xs :
  rep_list args xs -> rep (bi_logior args) (fold_left Z.lor xs 0).
Proof. intros H. apply rep_fold; [auto with ints | trivial | apply rep_small; lia]. Qed.

Lemma bi_logxor_spec args xs :
  rep_list args xs -> rep (bi_logxor args) (fold_left Z.lxor xs 0).
Proof. intros H. apply rep_fold; [auto with ints | trivial | apply rep_small; lia]. Qed.

(** ** Byte specifiers *)

Definition byte_ok (spec : byte_spec) (size pos : Z) : Prop :=
  rep (fst spec) size /\ rep (snd spec) pos /\
  0 <= size <= CL_FIXNUM_MAX /\ 0 <= pos <= CL_FIXNUM_MAX.

Section Bytes.
Context {spec : byte_spec} {size pos : Z} (Hspec : byte_ok spec size pos).

Lemma byte_mask_spec : exists m, byte_mask spec = Ok m /\ rep m (Z.ones size).
Proof.
  destruct Hspec as (Hs & Hp & Bs & Bp). unfold byte_mask.
  destruct (cl_arith_ash_spec (make_fixnum 1) (fst spec) 1 size) as (m & -> & Rm);
    [apply rep_small; lia | trivial | left; cbn; trivial | lia |].
  cbn [bind]. eexists. split; [reflexivity|].
  rewrite Z.shiftl_1_l in Rm. rewrite Z.ones_equiv, <- Z.sub_1_r.
  apply rep_sub; [trivial | apply rep_small; lia].
Qed.

(** A left shift by the position. *)
Lemma ash_pos a x : rep a x -> exists r, cl_arith_ash a (snd spec) = Ok r /\ rep r (Z.shiftl x pos).
Proof.
  destruct Hspec as (Hs & Hp & Bs & Bp). intros Ha.
  apply cl_arith_ash_spec; trivial; [right | left]; fixnums; lia.
Qed.

Lemma bi_ldb_spec n x :
  rep n x -> exists r, bi_ldb spec n = Ok r /\ rep r (Z.land (Z.shiftr x pos) (Z.ones size)).
Proof.
  destruct Hspec as (Hs & Hp & Bs & Bp). intros Hn. unfold bi_ldb.
  assert (L : len16 (snd spec)).
  { destruct Hp as [W V]. destruct (snd spec) as [v|s l]; cbn; [trivial|].
    exfalso. destruct W as (W & _ & N). pose proof (wf_val_nonneg l W).
    cbn in V. destruct s; cbn in V; fixnums; lia. }
  pose proof (rep_negate _ _ Hp L) as Rn.
  destruct (cl_arith_ash_spec n _ x (- pos) Hn Rn) as (r & -> & Rr);
    [right; fixnums; lia | left; fixnums; lia|].
  destruct byte_mask_spec as (m & -> & Rm). cbn [bind].
  eexists. split; [reflexivity|]. rewrite Z.shiftl_opp_r in Rr. auto with ints.
Qed.

Lemma bi_ldb_test_spec n x :
  rep n x ->
  bi_ldb_test spec n = Ok (negb (Z.land (Z.shiftr x pos) (Z.ones size) =? 0)).
Proof.
  intros Hn. unfold bi_ldb_test. destruct (bi_ldb_spec n x Hn) as (r & -> & Rr). cbn [bind].
  now rewrite (Bignum.cl_arith_zerop_spec _ _ Rr).
Qed.

(** The mask of the byte in place. *)
Definition field_mask : Z := Z.shiftl (Z.ones size) pos.

Lemma field_mask_testbit i : 0 <= i -> Z.testbit field_mask i = (pos <=? i) && (i <? pos + size).
Proof.
  destruct Hspec as (_ & _ & Bs & Bp). intros Hi. unfold field_mask.
  rewrite Z.shiftl_spec by trivial. destruct (Z.leb_spec pos i); cbn [andb].
  - rewrite Z.testbit_ones_nonneg by lia. destruct (Z.ltb_spec (i - pos) size), (Z.ltb_spec i (pos + size)); lia.
  - apply Z.testbit_neg_r. lia.
Qed.

Lemma shifted_mask_spec {B} (k : integer -> B) :
  exists m, (mask <- byte_mask spec ;;
             shifted_mask <- cl_arith_ash mask (snd spec) ;;
             Ok (k shifted_mask)) = Ok (k m) /\ rep m field_mask.
Proof.
  destruct byte_mask_spec as (m & -> & Rm). cbn [bind].
  destruct (ash_pos m _ Rm) as (m' & -> & Rm'). cbn [bind]. eauto.
Qed.

Lemma bi_mask_field_spec n x :
  rep n x -> exists r, bi_mask_field spec n = Ok r /\ rep r (Z.land x field_mask).
Proof.
  intros Hn. destruct (shifted_mask_spec (fun m => cl_arith_logand n m)) as (m & E & Rm).
  eexists. split; [exact E | auto with ints].
Qed.

Lemma bi_deposit_field_spec newbyte n y x :
  rep newbyte y -> rep n x ->
  exists r, bi_deposit_field newbyte spec n = Ok r /\
            rep r (Z.lor (Z.land x (Z.lnot field_mask)) (Z.land y field_mask)).
Proof.
  intros Hy Hn.
  destruct (shifted_mask_spec (fun m => cl_arith_logior
    (cl_arith_logand n (cl_arith_lognot m)) (cl_arith_logand newbyte m))) as (m & E & Rm).
  eexists. split; [exact E | auto with ints].
Qed.

Lemma bi_dpb_spec newbyte n y x :
  rep newbyte y -> rep n x ->
  exists r, bi_dpb newbyte spec n = Ok r /\
    rep r (Z.lor (Z.land x (Z.lnot field_mask)) (Z.shiftl (Z.land y (Z.ones size)) pos)).
Proof.
  intros Hy Hn. unfold bi_dpb. destruct byte_mask_spec as (m & -> & Rm). cbn [bind].
  destruct (ash_pos m _ Rm) as (m' & -> & Rm'). cbn [bind].
  destruct (ash_pos _ _ (rep_logand _ _ _ _ Hy Rm)) as (b & -> & Rb). cbn [bind].
  eexists. split; [reflexivity | auto 6 with ints].
Qed.

(** Bit by bit: the deposited byte inside the field, the old bits outside. *)
Lemma dpb_testbit x y i :
  0 <= i ->
  Z.testbit (Z.lor (Z.land x (Z.lnot field_mask)) (Z.shiftl (Z.land y (Z.ones size)) pos)) i
  = if (pos <=? i) && (i <? pos + size) then Z.testbit y (i - pos) else Z.testbit x i.
Proof.
  destruct Hspec as (_ & _ & Bs & Bp). intros Hi.
  rewrite Z.lor_spec, Z.land_spec, Z.lnot_spec, field_mask_testbit, Z.shiftl_spec by lia.
  destruct (Z.leb_spec pos i); cbn [andb].
  - rewrite Z.land_spec, Z.testbit_ones_nonneg by lia.
    replace (i - pos <? size) with (i <? pos + size) by lia.
    destruct (i <? pos + size); rewrite ?andb_true_r, ?andb_false_r, ?orb_false_r; reflexivity.
  - now rewrite (Z.testbit_neg_r _ (i - pos)), andb_true_r, orb_false_r by lia.
Qed.

Lemma deposit_testbit x y i :
  0 <= i ->
  Z.testbit (Z.lor (Z.land x (Z.lnot field_mask)) (Z.land y field_mask)) i
  = if (pos <=? i) && (i <? pos + size) then Z.testbit y i else Z.testbit x i.
Proof.
  intros Hi. rewrite Z.lor_spec, !Z.land_spec, Z.lnot_spec, field_mask_testbit by lia.
  destruct ((pos <=? i) && (i <? pos + size)); rewrite ?andb_true_r, ?andb_false_r, ?orb_false_r;
    reflexivity.
Qed.

(** LDB reads back what DPB wrote. *)
Lemma ldb_dpb x y :
  Z.land (Z.shiftr (Z.lor (Z.land x (Z.lnot field_mask)) (Z.shiftl (Z.land y (Z.ones size)) pos)) pos)
         (Z.ones size) = Z.land y (Z.ones size).
Proof.
  pose proof Hspec as (_ & _ & Bs & Bp). apply Z.bits_inj'. intros i Hi.
  rewrite !Z.land_spec, Z.shiftr_spec, dpb_testbit, Z.testbit_ones_nonneg by lia.
  destruct (Z.ltb_spec i size); rewrite ?andb_false_r; [|reflexivity].
  replace ((pos <=? i + pos) && (i + pos <? pos + size)) with true by lia.
  now replace (i + pos - pos) with i by lia.
Qed.
End Bytes.

(** ** BOOLE *)

(** The truth table of each operation code. *)
Definition boole_bit (op : Z) (a b : bool) : bool :=
  match op with
  | 0 => false | 1 => true | 2 => a | 3 => b | 4 => negb a | 5 => negb b
  | 6 => a && b | 7 => a || b | 8 => xorb a b | 9 => eqb a b
  | 10 => negb (a && b) | 11 => negb (a || b)
  | 12 => negb a && b | 13 => a && negb b
  | 14 => negb a || b | _ => a || negb b
  end.

Lemma bi_boole_spec op a b x y :
  rep a x -> rep b y -> 0 <= op <= 15 ->
  exists r z, bi_boole (Fix op) a b = Ok r /\ rep r z /\
    forall i, 0 <= i -> Z.testbit z i = boole_bit op (Z.testbit x i) (Z.testbit y i).
Proof.
  intros Ha Hb Hop.
  assert (op = 0 \/ op = 1 \/ op = 2 \/ op = 3 \/ op = 4 \/ op = 5 \/ op = 6 \/ op = 7 \/
          op = 8 \/ op = 9 \/ op = 10 \/ op = 11 \/ op = 12 \/ op = 13 \/ op = 14 \/ op = 15)
    as C by lia.
  repeat match type of C with _ \/ _ => destruct C as [->|C] end; subst; cbn [bi_boole];
    (eexists; eexists; split; [reflexivity|]; split;
      [first [ eassumption | solve [eauto 6 with ints] | apply rep_small; lia ] | ]);
    intros i Hi; cbn [boole_bit];
    rewrite ?Z.lnot_spec, ?Z.lor_spec, ?Z.land_spec, ?Z.lxor_spec, ?Z.lnot_spec,
      ?Z.lor_spec, ?Z.land_spec, ?Z.lxor_spec, ?Z.bits_0, ?Z.bits_m1 by lia;
    try reflexivity; now destruct (Z.testbit x i), (Z.testbit y i).
Qed.

(** ** Comparison chains and extrema *)

Fixpoint chain {A} (R : A -> A -> Prop) (l : list A) : Prop :=
  match l with
  | x :: ((y :: _) as t) => R x y /\ chain R t
  | _ => True
  end.

Definition rreal_list : list rational -> list Q -> Prop := Forall2 rrep.

(** [failop] decides the complement of the relation [R]. *)
Lemma real_chain_spec failop (R : Q -> Q -> Prop) args qs :
  (forall p q, failop (qsgn_compare p q) = false <-> R p q) ->
  rreal_list args qs -> (real_chain failop args = true <-> chain R qs).
Proof.
  intros HR H. induction H as [|a p args qs Ha H IH]; [easy|].
  destruct H as [|b q args qs Hb H]; [easy|]. cbn [real_chain chain].
  rewrite (real_compare_spec a b p q Ha Hb), <- HR, <- IH.
  destruct (failop _); intuition congruence.
Qed.

Lemma qsgn_fail_lt p q : (qsgn_compare p q >=? 0) = false <-> (p < q)%Q.
Proof. unfold qsgn_compare. rewrite Qlt_alt. destruct (p ?= q)%Q; easy. Qed.
Lemma qsgn_fail_gt p q : (qsgn_compare p q <=? 0) = false <-> (q < p)%Q.
Proof. unfold qsgn_compare. rewrite Qgt_alt. destruct (p ?= q)%Q; easy. Qed.
Lemma qsgn_fail_le p q : (qsgn_compare p q >? 0) = false <-> (p <= q)%Q.
Proof. unfold qsgn_compare. rewrite Qle_alt. destruct (p ?= q)%Q; easy. Qed.
Lemma qsgn_fail_ge p q : (qsgn_compare p q <? 0) = false <-> (q <= p)%Q.
Proof. unfold qsgn_compare. rewrite Qge_alt. destruct (p ?= q)%Q; easy. Qed.

(** The extremum is one of the arguments and bounds them all. *)
Lemma minmax_loop_spec pickop (R : Q -> Q -> Prop) :
  (forall p q, pickop (qsgn_compare p q) = true -> R q p) ->
  (forall p q, pickop (qsgn_compare p q) = false -> R p q) ->
  (forall p, R p p) -> (forall p q r, R p q -> R q r -> R p r) ->
  forall args qs best q, rreal_list args qs -> rrep best q ->
  exists m, rrep (minmax_loop pickop args best) m /\ R q m /\ Forall (fun p => R p m) qs /\
            In m (q :: qs) /\ In (minmax_loop pickop args best) (best :: args).
Proof.
  intros Ht Hf Rr Rt args qs best q H. revert best q.
  induction H as [|a p args qs Ha H IH]; intros best q Hq; cbn [minmax_loop].
  - exists q. split; [trivial|]. split; [auto|]. split; [constructor|]. split; now left.
  - rewrite (real_compare_spec a best p q Ha Hq). destruct (pickop _) eqn:E.
    + destruct (IH a p Ha) as (m & Hm & R1 & R2 & I1 & I2). exists m.
      apply Ht in E. split; [trivial|]. split; [eauto|]. split; [now constructor|].
      cbn [In] in *. intuition.
    + destruct (IH best q Hq) as (m & Hm & R1 & R2 & I1 & I2). exists m.
      apply Hf in E. split; [trivial|]. split; [trivial|]. split; [constructor; eauto|].
      cbn [In] in *. intuition.
Qed.

(** ** n-ary arithmetic on integers *)

Lemma num_of_add a b : cl_arith_add (num_of a) (num_of b) = Ok (num_of (Bignum.cl_arith_add a b)).
Proof. reflexivity. Qed.
Lemma num_of_sub a b : cl_arith_sub (num_of a) (num_of b) = Ok (num_of (Bignum.cl_arith_sub a b)).
Proof. reflexivity. Qed.
Lemma num_of_mul a b : cl_arith_mul (num_of a) (num_of b) = Ok (num_of (Bignum.cl_arith_mul a b)).
Proof. reflexivity. Qed.

Lemma fold_integers f g h :
  (forall a b, f (num_of a) (num_of b) = Ok (num_of (g a b))) ->
  (forall a b x y, rep a x -> rep b y -> rep (g a b) (h x y)) ->
  forall args xs acc z, rep_list args xs -> rep acc z ->
  exists r, fold_result f (map num_of args) (num_of acc) = Ok (num_of r) /\
            rep r (fold_left h xs z).
Proof.
  intros F G args xs acc z H. revert acc z.
  induction H as [|a x args xs Ha H IH]; intros acc z Hz; cbn [map fold_result fold_left].
  - eauto.
  - rewrite F. cbn [bind]. apply IH. auto.
Qed.

Lemma bi_add_integers args xs :
  rep_list args xs ->
  exists r, bi_add (map num_of args) = Ok (num_of r) /\ rep r (fold_left Z.add xs 0).
Proof.
  intros H. pose proof (fold_integers _ _ Z.add num_of_add ltac:(auto with ints) args xs
    (make_fixnum 0) 0 H ltac:(apply rep_small; lia)) as G.
  destruct H as [|a x args xs Ha H]; [exact G|]. destruct H as [|b y args xs Hb H]; [|exact G].
  exists a. split; [reflexivity|]. exact Ha.
Qed.

Lemma bi_mul_integers args xs :
  rep_list args xs ->
  exists r, bi_mul (map num_of args) = Ok (num_of r) /\ rep r (fold_left Z.mul xs 1).
Proof.
  intros H. pose proof (fold_integers _ _ Z.mul num_of_mul ltac:(auto with ints) args xs
    (make_fixnum 1) 1 H ltac:(apply rep_small; lia)) as G.
  destruct H as [|a x args xs Ha H]; [exact G|]. destruct H as [|b y args xs Hb H]; [|exact G].
  exists a. split; [reflexivity|]. cbn [fold_left]. replace (1 * x) with x by lia. exact Ha.
Qed.

Lemma bi_sub_integers a args x xs :
  rep a x -> len16 a -> rep_list args xs ->
  exists r, bi_sub (map num_of (a :: args)) = Ok (num_of r) /\
            rep r (match xs with [] => - x | _ => fold_left Z.sub xs x end).
Proof.
  intros Ha L H. destruct H as [|b y args xs Hb H].
  - eexists. split; [reflexivity|]. now apply rep_negate.
  - change (bi_sub (map num_of (a :: b :: args)))
      with (fold_result cl_arith_sub (map num_of (b :: args)) (num_of a)).
    apply (fold_integers _ _ Z.sub num_of_sub ltac:(auto with ints)); trivial. now constructor.
Qed.

(** ** Properties *)

(** C31: FLOOR, CEILING, TRUNCATE and ROUND of exact reals, with one argument
    or with a non-zero divisor, return the integer quotient and the remainder
    the standard defines: [p = q v + r], with the remainder's sign and size
    those of the mode, ties of ROUND going to the even quotient.  Excepted are
    the operands whose cross products are MOST-NEGATIVE-FIXNUM and -1. *)
Theorem do_rounding_correct mode a b p v k :
  rrep a p -> rrep b v -> rbits a k -> rbits b k -> 16 * k + 7 <= BITS16 ->
  ~ (v == 0)%Q -> no_overflow a b ->
  (exists q r t w, do_rounding [a; b] mode = Ok (q, r) /\ rep q t /\ rrep r w /\
                   rounding_ok mode p v t w) /\
  (exists q r t w, do_rounding [a] mode = Ok (q, r) /\ rep q t /\ rrep r w /\
                   rounding_ok mode p 1 t w).
Proof.
  intros Ha Hb Ba Bb Hk Hv O. split.
  - now apply (do_rounding2_spec mode a b p v k).
  - now apply (do_rounding1_spec mode a p k).
Qed.

(** (round 7/2 1) is 4 with remainder -1/2. *)
Lemma do_rounding_correct_witness :
  let a := RRatio (Fix 7) (Fix 2) in let b := RInt (Fix 1) in
  bi_round [a; b] = Ok (Fix 4, RRatio (Fix (-1)) (Fix 2)) /\
  (exists q r t w, do_rounding [a; b] ROUND_ROUND = Ok (q, r) /\ rep q t /\ rrep r w /\
                   rounding_ok ROUND_ROUND (7 # 2) 1 t w) /\
  (exists q r t w, do_rounding [a] ROUND_ROUND = Ok (q, r) /\ rep q t /\ rrep r w /\
                   rounding_ok ROUND_ROUND (7 # 2) 1 t w).
Proof.
  split; [vm_compute; reflexivity|].
  apply (do_rounding_correct ROUND_ROUND (RRatio (Fix 7) (Fix 2)) (RInt (Fix 1)) (7 # 2) 1 3);
    [rrep_eval | rrep_eval | rbits_eval | rbits_eval | vm_compute; discriminate
    | discriminate | vm_compute; intros [E _]; discriminate].
Defined.

(** FLOOR inherits the wrapped quotient: of MOST-NEGATIVE-FIXNUM by -1 it
    returns MOST-NEGATIVE-FIXNUM, with a remainder of -2^31. *)
Theorem do_rounding_most_negative :
  bi_floor [RInt (Fix CL_FIXNUM_MIN); RInt (Fix (-1))]
    = Ok (Fix CL_FIXNUM_MIN, RInt (Big true [0; 32768])).
Proof. vm_compute. reflexivity. Qed.

(** REM and MOD of exact reals are the remainders of TRUNCATE and FLOOR,
    on every pair of operands with a non-zero divisor. *)
Theorem bi_rem_mod_correct a b p v k :
  rrep a p -> rrep b v -> rbits a k -> rbits b k -> 8 * k + 7 <= BITS16 -> ~ (v == 0)%Q ->
  (exists r w t, bi_rem a b = Ok r /\ rrep r w /\ rounding_ok ROUND_TRUNCATE p v t w) /\
  (exists r w t, bi_mod a b = Ok r /\ rrep r w /\ rounding_ok ROUND_FLOOR p v t w).
Proof.
  intros Ha Hb Ba Bb Hk Hv. split; [now apply bi_rem_spec with k | now apply bi_mod_spec with k].
Qed.

Lemma bi_rem_mod_correct_witness :
  let a := RInt (Fix CL_FIXNUM_MIN) in let b := RRatio (Fix 5) (Fix 3) in
  bi_mod a b = Ok (RInt (Fix 1)) /\
  (exists r w t, bi_rem a b = Ok r /\ rrep r w /\
                 rounding_ok ROUND_TRUNCATE (-1073741824) (5 # 3) t w) /\
  (exists r w t, bi_mod a b = Ok r /\ rrep r w /\
                 rounding_ok ROUND_FLOOR (-1073741824) (5 # 3) t w).
Proof.
  split; [vm_compute; reflexivity|].
  apply (bi_rem_mod_correct (RInt (Fix CL_FIXNUM_MIN)) (RRatio (Fix 5) (Fix 3))
           (-1073741824) (5 # 3) 31);
    [rrep_eval | rrep_eval | rbits_eval | rbits_eval | vm_compute; discriminate | discriminate].
Defined.

(** On integers, +, -, * and the logical folds of any number of arguments
    are the folds of the binary operation from its identity, and GCD and LCM
    are the greatest common divisor and the least common multiple. *)
Theorem integer_folds_correct args xs :
  rep_list args xs -> Forall2 (fun a x => x < 0 -> len16 a) args xs ->
  (exists r, bi_add (map num_of args) = Ok (num_of r) /\ rep r (fold_left Z.add xs 0)) /\
  (exists r, bi_mul (map num_of args) = Ok (num_of r) /\ rep r (fold_left Z.mul xs 1)) /\
  rep (bi_logand args) (fold_left Z.land xs (-1)) /\
  rep (bi_logior args) (fold_left Z.lor xs 0) /\
  rep (bi_logxor args) (fold_left Z.lxor xs 0) /\
  rep (bi_gcd args) (fold_left Z.gcd xs 0) /\
  (exists r, bi_lcm args = Ok r /\ rep r (fold_left Z.lcm xs 1)).
Proof.
  intros H L. split; [now apply bi_add_integers|]. split; [now apply bi_mul_integers|].
  split; [now apply bi_logand_spec|]. split; [now apply bi_logior_spec|].
  split; [now apply bi_logxor_spec|]. split; [now apply bi_gcd_spec | now apply bi_lcm_spec].
Qed.

Lemma integer_folds_correct_witness :
  let args := [Fix 12; Fix (-18); Fix 40] in let xs := [12; -18; 40] in
  bi_lcm args = Ok (Fix 360) /\
  (exists r, bi_add (map num_of args) = Ok (num_of r) /\ rep r (fold_left Z.add xs 0)) /\
  (exists r, bi_mul (map num_of args) = Ok (num_of r) /\ rep r (fold_left Z.mul xs 1)) /\
  rep (bi_logand args) (fold_left Z.land xs (-1)) /\
  rep (bi_logior args) (fold_left Z.lor xs 0) /\
  rep (bi_logxor args) (fold_left Z.lxor xs 0) /\
  rep (bi_gcd args) (fold_left Z.gcd xs 0) /\
  (exists r, bi_lcm args = Ok r /\ rep r (fold_left Z.lcm xs 1)).
Proof.
  split; [vm_compute; reflexivity|]. apply integer_folds_correct.
  - repeat constructor; fixnums; lia.
  - repeat constructor.
Defined.

(** DPB writes the byte's bits and no others, DEPOSIT-FIELD copies the
    field in place, MASK-FIELD keeps only the field, and LDB reads back the
    byte DPB wrote, reduced to its size. *)
Theorem byte_operations_correct spec size pos newbyte n y x :
  byte_ok spec size pos -> rep newbyte y -> rep n x ->
  let inside i := (pos <=? i) && (i <? pos + size) in
  exists d f m l dz fz mz,
    bi_dpb newbyte spec n = Ok d /\ rep d dz /\
    bi_deposit_field newbyte spec n = Ok f /\ rep f fz /\
    bi_mask_field spec n = Ok m /\ rep m mz /\
    bi_ldb spec d = Ok l /\ rep l (y mod 2 ^ size) /\
    forall i, 0 <= i ->
      Z.testbit dz i = (if inside i then Z.testbit y (i - pos) else Z.testbit x i) /\
      Z.testbit fz i = (if inside i then Z.testbit y i else Z.testbit x i) /\
      Z.testbit mz i = inside i && Z.testbit x i.
Proof.
  intros S Hy Hx inside.
  destruct (bi_dpb_spec S newbyte n y x Hy Hx) as (d & Ed & Rd).
  destruct (bi_deposit_field_spec S newbyte n y x Hy Hx) as (f & Ef & Rf).
  destruct (bi_mask_field_spec S n x Hx) as (m & Em & Rm).
  destruct (bi_ldb_spec S d _ Rd) as (l & El & Rl).
  rewrite (ldb_dpb S), Z.land_ones in Rl by (unfold byte_ok in S; lia).
  do 7 eexists.
  split; [exact Ed|]. split; [exact Rd|]. split; [exact Ef|]. split; [exact Rf|].
  split; [exact Em|]. split; [exact Rm|]. split; [exact El|]. split; [exact Rl|].
  intros i Hi. split; [now apply (dpb_testbit S)|]. split; [now apply (deposit_testbit S)|].
  rewrite Z.land_spec, (field_mask_testbit S) by trivial. apply andb_comm.
Qed.

Lemma byte_operations_correct_witness :
  let spec := (Fix 8, Fix 12) in
  let inside i := (12 <=? i) && (i <? 12 + 8) in
  bi_dpb (Fix 511) spec (Fix (-1048576)) = Ok (Fix (-4096)) /\
  exists d f m l dz fz mz,
    bi_dpb (Fix 511) spec (Fix (-1048576)) = Ok d /\ rep d dz /\
    bi_deposit_field (Fix 511) spec (Fix (-1048576)) = Ok f /\ rep f fz /\
    bi_mask_field spec (Fix (-1048576)) = Ok m /\ rep m mz /\
    bi_ldb spec d = Ok l /\ rep l (511 mod 2 ^ 8) /\
    forall i, 0 <= i ->
      Z.testbit dz i = (if inside i then Z.testbit 511 (i - 12) else Z.testbit (-1048576) i) /\
      Z.testbit fz i = (if inside i then Z.testbit 511 i else Z.testbit (-1048576) i) /\
      Z.testbit mz i = inside i && Z.testbit (-1048576) i.
Proof.
  split; [vm_compute; reflexivity|].
  apply (byte_operations_correct (Fix 8, Fix 12) 8 12 (Fix 511) (Fix (-1048576)) 511 (-1048576));
    [|rep_eval | rep_eval].
  split; [rep_eval|]. split; [rep_eval|]. fixnums. lia.
Defined.

(** BOOLE applies the connective its operation code names to every bit,
    and rejects a code that is no operation. *)
Theorem bi_boole_correct op a b x y :
  rep a x -> rep b y ->
  if (0 <=? op) && (op <=? 15)
  then exists r z, bi_boole (Fix op) a b = Ok r /\ rep r z /\
         forall i, 0 <= i -> Z.testbit z i = boole_bit op (Z.testbit x i) (Z.testbit y i)
  else bi_boole (Fix op) a b = Err CL_ERR_ARGS.
Proof.
  intros Ha Hb. destruct (Z.leb_spec 0 op), (Z.leb_spec op 15); cbn [andb];
    try (now apply bi_boole_spec).
  - destruct op as [|p|p]; try lia.
    do 4 (destruct p as [p|p|]; try lia; try reflexivity).
  - destruct op; try lia. reflexivity.
  - lia.
Qed.

Lemma bi_boole_correct_witness :
  bi_boole (Fix 13) (Fix 12) (Fix 10) = Ok (Fix 4) /\
  if (0 <=? 13) && (13 <=? 15)
  then exists r z, bi_boole (Fix 13) (Fix 12) (Fix 10) = Ok r /\ rep r z /\
         forall i, 0 <= i -> Z.testbit z i = boole_bit 13 (Z.testbit 12 i) (Z.testbit 10 i)
  else bi_boole (Fix 13) (Fix 12) (Fix 10) = Err CL_ERR_ARGS.
Proof. split; [vm_compute; reflexivity|]. apply bi_boole_correct; rep_eval. Defined.

Lemma qsgn_fail_le_true p q : (qsgn_compare p q >? 0) = true -> (q < p)%Q.
Proof. unfold qsgn_compare. rewrite Qgt_alt. destruct (p ?= q)%Q; easy. Qed.
Lemma qsgn_fail_ge_true p q : (qsgn_compare p q <? 0) = true -> (p < q)%Q.
Proof. unfold qsgn_compare. rewrite Qlt_alt. destruct (p ?= q)%Q; easy. Qed.

(** [<], [>], [<=] and [>=] of any number of exact reals hold exactly when
    every adjacent pair is in the order, and MAX and MIN return one of their
    arguments, an upper or a lower bound of them all. *)
Theorem real_comparison_correct args qs a q :
  rreal_list args qs -> rrep a q ->
  (bi_lt args = true <-> chain Qlt qs) /\
  (bi_gt args = true <-> chain (fun p q => Qlt q p) qs) /\
  (bi_le args = true <-> chain Qle qs) /\
  (bi_ge args = true <-> chain (fun p q => Qle q p) qs) /\
  (exists m, rrep (bi_max a args) m /\ Forall (fun p => p <= m)%Q (q :: qs) /\
             In (bi_max a args) (a :: args)) /\
  (exists m, rrep (bi_min a args) m /\ Forall (fun p => m <= p)%Q (q :: qs) /\
             In (bi_min a args) (a :: args)).
Proof.
  intros H Ha.
  split; [apply real_chain_spec; [exact qsgn_fail_lt | trivial]|].
  split; [apply real_chain_spec; [exact qsgn_fail_gt | trivial]|].
  split; [apply real_chain_spec; [exact qsgn_fail_le | trivial]|].
  split; [apply real_chain_spec; [exact qsgn_fail_ge | trivial]|].
  split.
  - destruct (minmax_loop_spec (fun c => c >? 0) Qle) with (args := args) (qs := qs)
      (best := a) (q := q) as (m & R & B & F & _ & I); trivial.
    + intros p p' E. apply Qlt_le_weak, qsgn_fail_le_true. exact E.
    + intros p p' E. now apply qsgn_fail_le.
    + exact Qle_refl.
    + exact Qle_trans.
    + exists m. auto.
  - destruct (minmax_loop_spec (fun c => c <? 0) (fun p p' => Qle p' p)) with (args := args)
      (qs := qs) (best := a) (q := q) as (m & R & B & F & _ & I); trivial.
    + intros p p' E. apply Qlt_le_weak, qsgn_fail_ge_true. exact E.
    + intros p p' E. now apply qsgn_fail_ge.
    + exact Qle_refl.
    + intros p1 p2 p3 H1 H2. now apply Qle_trans with p2.
    + exists m. auto.
Qed.

Lemma real_comparison_correct_witness :
  let args := [RInt (Fix 1); RRatio (Fix 3) (Fix 2); RInt (Fix 2)] in
  let qs := [1; 3 # 2; 2]%Q in let a := RRatio (Fix 5) (Fix 3) in
  bi_max a args = RInt (Fix 2) /\
  (bi_lt args = true <-> chain Qlt qs) /\
  (bi_gt args = true <-> chain (fun p q => Qlt q p) qs) /\
  (bi_le args = true <-> chain Qle qs) /\
  (bi_ge args = true <-> chain (fun p q => Qle q p) qs) /\
  (exists m, rrep (bi_max a args) m /\ Forall (fun p => p <= m)%Q ((5 # 3)%Q :: qs) /\
             In (bi_max a args) (a :: args)) /\
  (exists m, rrep (bi_min a args) m /\ Forall (fun p => m <= p)%Q ((5 # 3)%Q :: qs) /\
             In (bi_min a args) (a :: args)).
Proof.
  split; [vm_compute; reflexivity|]. apply real_comparison_correct.
  - constructor; [rrep_eval|]. constructor; [rrep_eval|]. constructor; [rrep_eval | constructor].
  - rrep_eval.
Defined.
