(* ===== verification/Env.v ===== *)
(** * Compile-time lexical environments

    src/src/core/env.c: the tables in which the compiler resolves variables,
    local functions, MACROLET and SYMBOL-MACROLET names, and the flat-closure
    capture of variables of enclosing functions (upvalues); with the parts of
    compiler.c and compiler_special.c that leave a scope, inline a local
    function and rebuild an environment from a macro's &environment argument.

    A [CompEnv] is one CL_CompEnv without its [parent] pointer; a chain of
    environments is the list of them, innermost first.  An array with its
    [_count] field is the list of its live entries; [boxed] is the whole
    array, since its entries outlive the scopes that use them.  An [int]
    result of -1 is [None]. *)

From stdpp Require Import base list relations.
From Stdlib Require Import ZArith Lia ZifyBool.
Local Open Scope nat_scope.

(** ** Data *)

(** Heap words; symbols are compared by identity. *)
Abbreviation CL_Obj := Z (only parsing).
Definition CL_NIL : CL_Obj := 0%Z.

Definition CL_MAX_LOCALS : nat := 256.
Definition CL_MAX_UPVALUES : nat := 64.
Definition CL_MAX_LOCAL_FUNS : nat := 64.
Definition CL_MAX_LOCAL_MACROS : nat := 16.
Definition CL_MAX_SYMBOL_MACROS : nat := 32.

Record UpvalueDesc : Set := { is_local : bool; index : nat; is_boxed : bool }.

Record LocalFun : Set := {
  lf_name : CL_Obj;
  lf_slot : Z;
  inline_body : CL_Obj;
  inline_params : CL_Obj;
  def_local_mark : nat;
  def_fun_mark : nat;
  def_macro_mark : nat;
  def_smacro_mark : nat }.

Record LocalMacro : Set := { lm_name : CL_Obj; expander : CL_Obj }.

Record SymbolMacro : Set := {
  sm_name : CL_Obj; expansion : CL_Obj; local_count_at_create : nat }.

(** A hiding band [lo, hi). *)
Definition band : Set := (nat * nat)%type.

Record CompEnv : Set := {
  locals : list CL_Obj;
  max_locals : nat;
  depth : nat;
  boxed : list bool;
  upvalues : list UpvalueDesc;
  local_funs : list LocalFun;
  local_macros : list LocalMacro;
  symbol_macros : list SymbolMacro;
  inherited_symbol_macro_count : nat;
  hide_local : band;
  hide_fun : band;
  hide_macro : band;
  hide_smacro : band }.

Abbreviation chain := (list CompEnv) (only parsing).

Definition set_locals ls mx (e : CompEnv) : CompEnv :=
  {| locals := ls; max_locals := mx; depth := depth e; boxed := boxed e;
     upvalues := upvalues e; local_funs := local_funs e; local_macros := local_macros e;
     symbol_macros := symbol_macros e;
     inherited_symbol_macro_count := inherited_symbol_macro_count e;
     hide_local := hide_local e; hide_fun := hide_fun e; hide_macro := hide_macro e;
     hide_smacro := hide_smacro e |}.

Definition set_boxed bs (e : CompEnv) : CompEnv :=
  {| locals := locals e; max_locals := max_locals e; depth := depth e; boxed := bs;
     upvalues := upvalues e; local_funs := local_funs e; local_macros := local_macros e;
     symbol_macros := symbol_macros e;
     inherited_symbol_macro_count := inherited_symbol_macro_count e;
     hide_local := hide_local e; hide_fun := hide_fun e; hide_macro := hide_macro e;
     hide_smacro := hide_smacro e |}.

Definition set_upvalues us (e : CompEnv) : CompEnv :=
  {| locals := locals e; max_locals := max_locals e; depth := depth e; boxed := boxed e;
     upvalues := us; local_funs := local_funs e; local_macros := local_macros e;
     symbol_macros := symbol_macros e;
     inherited_symbol_macro_count := inherited_symbol_macro_count e;
     hide_local := hide_local e; hide_fun := hide_fun e; hide_macro := hide_macro e;
     hide_smacro := hide_smacro e |}.

Definition set_tables lfs lms sms (e : CompEnv) : CompEnv :=
  {| locals := locals e; max_locals := max_locals e; depth := depth e; boxed := boxed e;
     upvalues := upvalues e; local_funs := lfs; local_macros := lms; symbol_macros := sms;
     inherited_symbol_macro_count := inherited_symbol_macro_count e;
     hide_local := hide_local e; hide_fun := hide_fun e; hide_macro := hide_macro e;
     hide_smacro := hide_smacro e |}.

Definition set_bands bl bf bm bs (e : CompEnv) : CompEnv :=
  {| locals := locals e; max_locals := max_locals e; depth := depth e; boxed := boxed e;
     upvalues := upvalues e; local_funs := local_funs e; local_macros := local_macros e;
     symbol_macros := symbol_macros e;
     inherited_symbol_macro_count := inherited_symbol_macro_count e;
     hide_local := bl; hide_fun := bf; hide_macro := bm; hide_smacro := bs |}.

(** ** Name lookup *)

(** CL_ENV_LOCAL_VISIBLE, for any of the four tables. *)
Definition visible (b : band) (i : nat) : bool := (i <? fst b) || (snd b <=? i).

(** The lookup loop [for (i = count - 1; i >= 0; i--)] shared by the four
    tables: an index inside the band jumps to its lower end.  [n] is [i + 1];
    the fuel is [count], one unit per iteration. *)
Fixpoint scan_down {A} (fuel : nat) (b : band) (p : A -> bool) (table : list A) (n : nat)
  : option nat :=
  match fuel, n with
  | S f, S i =>
      if (i <? snd b) && (fst b <=? i) then scan_down f b p table (fst b)
      else
        match table !! i with
        | Some x => if p x then Some i else scan_down f b p table i
        | None => None
        end
  | _, _ => None
  end.

Definition find_last {A} (b : band) (p : A -> bool) (table : list A) : option nat :=
  scan_down (length table) b p table (length table).

Definition cl_env_lookup (env : CompEnv) (symbol : CL_Obj) : option nat :=
  find_last (hide_local env) (Z.eqb symbol) (locals env).

(** The walk up the parents: how many levels up, and which slot there. *)
Fixpoint lookup_parents (es : chain) (symbol : CL_Obj) (d : nat) : option (nat * nat) :=
  match es with
  | [] => None
  | e :: es' =>
      match cl_env_lookup e symbol with
      | Some idx => Some (d, idx)
      | None => lookup_parents es' symbol (S d)
      end
  end.

Definition cl_env_lookup_upvalue (c : chain) (symbol : CL_Obj) : option (nat * nat) :=
  lookup_parents (tail c) symbol 1.

(** ** Locals *)

Definition cl_env_add_local (env : CompEnv) (symbol : CL_Obj) : CompEnv * option nat :=
  let n := length (locals env) in
  if CL_MAX_LOCALS <=? n then (env, None)
  else (set_locals (locals env ++ [symbol]) (Nat.max (max_locals env) (S n)) env, Some n).

(** alloc_temp_slot (compiler.c): an anonymous slot; [None] is the error "Too
    many local variable slots in one function". *)
Definition alloc_temp_slot (env : CompEnv) : option (CompEnv * nat) :=
  let n := length (locals env) in
  if CL_MAX_LOCALS <=? n then None
  else Some (set_locals (locals env ++ [CL_NIL]) (Nat.max (max_locals env) (S n)) env, n).

(** The forms that take an anonymous slot by themselves: BLOCK, FLET, LABELS,
    DOLIST, DOTIMES and the implicit BLOCK of a loop, RESTART-CASE, CASE,
    TYPECASE, MULTIPLE-VALUE-PROG1.  They do not look at the count:
    [env->locals[slot] = CL_NIL; env->local_count++], and the high-water mark.
    [None] is the store past the end of [locals], which has no result in C
    (the next field of the struct is [local_count]). *)
Definition push_anonymous_slot (env : CompEnv) : option (CompEnv * nat) :=
  let slot := length (locals env) in
  if slot <? CL_MAX_LOCALS
  then Some (set_locals (locals env ++ [CL_NIL]) (Nat.max (max_locals env) (S slot)) env, slot)
  else None.

(** [env->boxed[slot] = 1] *)
Definition box_local (env : CompEnv) (slot : nat) : CompEnv :=
  set_boxed (<[slot := true]> (boxed env)) env.

(** Slots [from, local_count) *)
Definition cl_env_clear_boxed (env : CompEnv) (from : nat) : CompEnv :=
  set_boxed (take from (boxed env) ++ replicate (length (locals env) - from) false ++
             drop (from `max` length (locals env)) (boxed env)) env.

(** The pair of statements that ends every binding form. *)
Definition leave_scope (env : CompEnv) (saved_local_count : nat) : CompEnv :=
  let env := cl_env_clear_boxed env saved_local_count in
  set_locals (take saved_local_count (locals env)) (max_locals env) env.

(** ** Local functions, macros and symbol macros *)

Definition cl_env_add_local_fun (env : CompEnv) (name : CL_Obj) (slot : Z)
  : CompEnv * option nat :=
  let n := length (local_funs env) in
  if CL_MAX_LOCAL_FUNS <=? n then (env, None)
  else
    let lf := {| lf_name := name; lf_slot := slot; inline_body := CL_NIL;
                 inline_params := CL_NIL; def_local_mark := 0; def_fun_mark := 0;
                 def_macro_mark := 0; def_smacro_mark := 0 |} in
    (set_tables (local_funs env ++ [lf]) (local_macros env) (symbol_macros env) env, Some n).

Definition cl_env_lookup_local_fun_index (env : CompEnv) (name : CL_Obj) : option nat :=
  find_last (hide_fun env) (fun lf => Z.eqb (lf_name lf) name) (local_funs env).

Definition cl_env_lookup_local_fun (env : CompEnv) (name : CL_Obj) : Z :=
  match cl_env_lookup_local_fun_index env name with
  | Some i => match local_funs env !! i with Some lf => lf_slot lf | None => (-1)%Z end
  | None => (-1)%Z
  end.

Fixpoint parent_fun_is_inline (es : chain) (name : CL_Obj) : bool :=
  match es with
  | [] => false
  | e :: es' =>
      match cl_env_lookup_local_fun_index e name with
      | Some i =>
          match local_funs e !! i with
          | Some lf => negb (Z.eqb (inline_body lf) CL_NIL)
          | None => false
          end
      | None => parent_fun_is_inline es' name
      end
  end.

Definition cl_env_parent_fun_is_inline (c : chain) (name : CL_Obj) : bool :=
  parent_fun_is_inline (tail c) name.

Definition cl_env_add_local_macro (env : CompEnv) (name ex : CL_Obj) : CompEnv * option nat :=
  let n := length (local_macros env) in
  if CL_MAX_LOCAL_MACROS <=? n then (env, None)
  else (set_tables (local_funs env) (local_macros env ++ [{| lm_name := name; expander := ex |}])
          (symbol_macros env) env, Some n).

Definition cl_env_lookup_local_macro (env : CompEnv) (name : CL_Obj) : CL_Obj :=
  match find_last (hide_macro env) (fun lm => Z.eqb (lm_name lm) name) (local_macros env) with
  | Some i => match local_macros env !! i with Some lm => expander lm | None => CL_NIL end
  | None => CL_NIL
  end.

Definition cl_env_add_symbol_macro (env : CompEnv) (name ex : CL_Obj) : CompEnv * option nat :=
  let n := length (symbol_macros env) in
  if CL_MAX_SYMBOL_MACROS <=? n then (env, None)
  else (set_tables (local_funs env) (local_macros env)
          (symbol_macros env ++ [{| sm_name := name; expansion := ex;
                                    local_count_at_create := length (locals env) |}]) env,
        Some n).

(** Some visible local at or above [from] bears [name]. *)
Definition local_at_or_above (env : CompEnv) (from : nat) (name : CL_Obj) : bool :=
  existsb (fun j => visible (hide_local env) j &&
                    match locals env !! j with Some s => Z.eqb s name | None => false end)
          (seq from (length (locals env) - from)).

Definition cl_env_lookup_symbol_macro_p (env : CompEnv) (name : CL_Obj) : option CL_Obj :=
  match find_last (hide_smacro env) (fun sm => Z.eqb (sm_name sm) name) (symbol_macros env) with
  | None => None
  | Some i =>
      match symbol_macros env !! i with
      | None => None
      | Some sm =>
          if inherited_symbol_macro_count env <=? i then
            match cl_env_lookup env name with
            | Some slot => if local_count_at_create sm <=? slot then None else Some (expansion sm)
            | None => Some (expansion sm)
            end
          else if local_at_or_above env 0 name then None
          else Some (expansion sm)
      end
  end.

Definition cl_env_lookup_symbol_macro (env : CompEnv) (name : CL_Obj) : CL_Obj :=
  default CL_NIL (cl_env_lookup_symbol_macro_p env name).

(** ** Creation *)

(** Entry [i] of the parent's symbol macros is hidden by one of its locals. *)
Definition locally_shadowed (parent : CompEnv) (i : nat) (sm : SymbolMacro) : bool :=
  let threshold :=
    if i <? inherited_symbol_macro_count parent then 0 else local_count_at_create sm in
  local_at_or_above parent threshold (sm_name sm).

Fixpoint inherit_symbol_macros (parent : CompEnv) (i : nat) (sms : list SymbolMacro)
  : list SymbolMacro :=
  match sms with
  | [] => []
  | sm :: t =>
      if locally_shadowed parent i sm then inherit_symbol_macros parent (S i) t
      else sm :: inherit_symbol_macros parent (S i) t
  end.

Definition empty_env : CompEnv :=
  {| locals := []; max_locals := 0; depth := 0; boxed := replicate CL_MAX_LOCALS false;
     upvalues := []; local_funs := []; local_macros := []; symbol_macros := [];
     inherited_symbol_macro_count := 0; hide_local := (0, 0); hide_fun := (0, 0);
     hide_macro := (0, 0); hide_smacro := (0, 0) |}.

(** cl_env_create: the new environment, given its chain of parents. *)
Definition cl_env_create (parents : chain) : CompEnv :=
  match parents with
  | [] => empty_env
  | parent :: _ =>
      let sms := inherit_symbol_macros parent 0 (take CL_MAX_SYMBOL_MACROS (symbol_macros parent)) in
      {| locals := []; max_locals := 0; depth := S (depth parent);
         boxed := replicate CL_MAX_LOCALS false; upvalues := []; local_funs := [];
         local_macros := take CL_MAX_LOCAL_MACROS (local_macros parent);
         symbol_macros := sms; inherited_symbol_macro_count := length sms;
         hide_local := (0, 0); hide_fun := (0, 0); hide_macro := (0, 0); hide_smacro := (0, 0) |}
  end.

(** ** Upvalues *)

(** The index of the tracked descriptor, or a fresh one at the end. *)
Definition capture (env : CompEnv) (d : UpvalueDesc) : CompEnv * option nat :=
  match list_find (fun u => is_local u = is_local d /\ index u = index d) (upvalues env) with
  | Some (i, _) => (env, Some i)
  | None =>
      if CL_MAX_UPVALUES <=? length (upvalues env) then (env, None)
      else (set_upvalues (upvalues env ++ [d]) env, Some (length (upvalues env)))
  end.

(** The recursion common to variables and functions: [find parent] is the
    slot of the name in the immediate parent. *)
Fixpoint resolve (find : CompEnv -> option nat) (c : chain) : chain * option nat :=
  match c with
  | env :: ((parent :: _) as up) =>
      match find parent with
      | Some slot =>
          let '(env', r) :=
            capture env {| is_local := true; index := slot;
                           is_boxed := nth slot (boxed parent) false |} in
          (env' :: up, r)
      | None =>
          match resolve find up with
          | ((parent' :: _) as up', Some u) =>
              let b := match upvalues parent' !! u with Some d => is_boxed d | None => false end in
              let '(env', r) := capture env {| is_local := false; index := u; is_boxed := b |} in
              (env' :: up', r)
          | (up', r) => (env :: up', r)
          end
      end
  | _ => (c, None)
  end.

Definition cl_env_resolve_upvalue (c : chain) (symbol : CL_Obj) : chain * option nat :=
  resolve (fun e => cl_env_lookup e symbol) c.

Definition fun_slot (name : CL_Obj) (e : CompEnv) : option nat :=
  let s := cl_env_lookup_local_fun e name in
  if (s >=? 0)%Z then Some (Z.to_nat s) else None.

Definition cl_env_resolve_fun_upvalue (c : chain) (name : CL_Obj) : chain * option nat :=
  resolve (fun_slot name) c.

(** ** The environment seen by macro expanders *)

(** An entry of the alist: its car, and its cdr: an expansion, or the pair
    (name . expander) behind the SYM_LEX_LOCAL_MACRO sentinel. *)
Inductive lex_cdr : Set :=
| LexObj (e : CL_Obj)
| LexPair (name ex : CL_Obj).

Definition lex_env : Set := list (CL_Obj * lex_cdr).

(** The loops of cl_build_lex_env: [scan_down] with an accumulator. *)
Fixpoint fold_down {A B} (fuel : nat) (b : band) (f : nat -> A -> B -> B) (table : list A)
    (n : nat) (acc : B) : B :=
  match fuel, n with
  | S k, S i =>
      if (i <? snd b) && (fst b <=? i) then fold_down k b f table (fst b) acc
      else
        match table !! i with
        | Some x => fold_down k b f table i (f i x acc)
        | None => acc
        end
  | _, _ => acc
  end.

Section LexEnv.
Variable SYM_LEX_LOCAL_MACRO : CL_Obj.

Definition push_local_macro (_ : nat) (lm : LocalMacro) (result : lex_env) : lex_env :=
  (SYM_LEX_LOCAL_MACRO, LexPair (lm_name lm) (expander lm)) :: result.

Definition push_symbol_macro (env : CompEnv) (i : nat) (sm : SymbolMacro) (result : lex_env)
  : lex_env :=
  if (i <? inherited_symbol_macro_count env) && local_at_or_above env 0 (sm_name sm)
  then result
  else if existsb (fun e => Z.eqb (fst e) (sm_name sm)) result then result
  else (sm_name sm, LexObj (expansion sm)) :: result.

Definition cl_build_lex_env (env : CompEnv) : lex_env :=
  let n := length (local_macros env) in
  let m := length (symbol_macros env) in
  fold_down m (hide_smacro env) (push_symbol_macro env) (symbol_macros env) m
    (fold_down n (hide_macro env) push_local_macro (local_macros env) n []).

(** builtins_io.c: MACROEXPAND-1 of a symbol. *)
Fixpoint lex_env_lookup_symbol_macro (env : lex_env) (sym : CL_Obj) : option lex_cdr :=
  match env with
  | [] => None
  | (k, v) :: t =>
      if negb (Z.eqb k SYM_LEX_LOCAL_MACRO) && Z.eqb k sym then Some v
      else lex_env_lookup_symbol_macro t sym
  end.

(** compiler.c: MACROEXPAND-1 of a form. *)
Fixpoint lex_env_local_macro (env : lex_env) (sym : CL_Obj) : CL_Obj :=
  match env with
  | [] => CL_NIL
  | (k, LexPair n e) :: t =>
      if Z.eqb k SYM_LEX_LOCAL_MACRO && Z.eqb n sym then e else lex_env_local_macro t sym
  | _ :: t => lex_env_local_macro t sym
  end.

(** compiler.c: the tail is seeded first. *)
Fixpoint seed_env_from_lex_env (env : CompEnv) (le : lex_env) : CompEnv :=
  match le with
  | [] => env
  | (k, v) :: t =>
      let env := seed_env_from_lex_env env t in
      if Z.eqb k SYM_LEX_LOCAL_MACRO then
        match v with LexPair n e => fst (cl_env_add_local_macro env n e) | LexObj _ => env end
      else
        match v with LexObj e => fst (cl_env_add_symbol_macro env k e) | LexPair _ _ => env end
  end.
End LexEnv.

(** ** Local-function inlining (compiler_special.c) *)

(** local_inline_fill: the definition marks. *)
Definition local_inline_fill (env : CompEnv) (idx : nat) (body params : CL_Obj)
    (local_mark fun_mark macro_mark smacro_mark : nat) : CompEnv :=
  set_tables
    (alter (fun lf => {| lf_name := lf_name lf; lf_slot := lf_slot lf; inline_body := body;
                         inline_params := params; def_local_mark := local_mark;
                         def_fun_mark := fun_mark; def_macro_mark := macro_mark;
                         def_smacro_mark := smacro_mark |}) idx (local_funs env))
    (local_macros env) (symbol_macros env) env.

(** compile_local_inline_call, its part in the environment: the parameters
    become locals above the call site's (boxed where flagged), then the bands hide what the call
    site bound since the definition. *)
Definition bind_params (env : CompEnv) (params : list (CL_Obj * bool)) : option CompEnv :=
  foldl (fun oe p => e ← oe;
                     match cl_env_add_local e (fst p) with
                     | (e', Some slot) => Some (if snd p : bool then box_local e' slot else e')
                     | (_, None) => None
                     end) (Some env) params.

Definition inline_bands (lf : LocalFun) (saved_local_count : nat) (env : CompEnv) : CompEnv :=
  set_bands (def_local_mark lf, saved_local_count) (def_fun_mark lf, length (local_funs env))
    (def_macro_mark lf, length (local_macros env)) (def_smacro_mark lf, length (symbol_macros env))
    env.

Definition enter_inline (env : CompEnv) (fun_idx : nat) (params : list (CL_Obj * bool))
  : option CompEnv :=
  lf ← local_funs env !! fun_idx;
  e ← bind_params env params;
  Some (inline_bands lf (length (locals env)) e).

(** After the body: the saved bands, and the scope left. *)
Definition leave_inline (saved env : CompEnv) : CompEnv :=
  leave_scope (set_bands (hide_local saved) (hide_fun saved) (hide_macro saved)
                 (hide_smacro saved) env) (length (locals saved)).

(** ** Lookup finds the innermost visible entry *)

(** What a lookup below index [n] returns: the last visible match. *)
Definition last_match {A} (b : band) (p : A -> bool) (table : list A) (n : nat) (r : option nat)
  : Prop :=
  match r with
  | Some i =>
      i < n /\ visible b i = true /\ (exists x, table !! i = Some x /\ p x = true) /\
      forall j y, i < j < n -> visible b j = true -> table !! j = Some y -> p y = false
  | None => forall j y, j < n -> visible b j = true -> table !! j = Some y -> p y = false
  end.

Lemma visible_skip b i : (i <? snd b) && (fst b <=? i) = negb (visible b i).
Proof.
  unfold visible. destruct (Nat.ltb_spec i (fst b)), (Nat.leb_spec (snd b) i),
    (Nat.ltb_spec i (snd b)), (Nat.leb_spec (fst b) i); cbn; lia.
Qed.

Lemma skipped_band b i j : visible b i = false -> fst b <= j <= i -> visible b j = false.
Proof. unfold visible. intros H%orb_false_iff Hj. apply orb_false_iff. lia. Qed.

Lemma last_match_weaken {A} b (p : A -> bool) table n m r :
  last_match b p table n r -> n <= m ->
  (forall j y, n <= j < m -> visible b j = true -> table !! j = Some y -> p y = false) ->
  last_match b p table m r.
Proof.
  destruct r as [i|]; cbn; intros H Hm E.
  - destruct H as (Hi & V & X & U). split; [lia|]. split; [trivial|]. split; [trivial|].
    intros j y Hj. destruct (Nat.lt_ge_cases j n); [apply U; lia | apply E; lia].
  - intros j y Hj. destruct (Nat.lt_ge_cases j n); [apply H; lia | apply E; lia].
Qed.

Lemma scan_down_spec {A} b (p : A -> bool) table : forall fuel n,
  n <= fuel -> n <= length table -> last_match b p table n (scan_down fuel b p table n).
Proof.
  induction fuel as [|f IH]; intros n Hf Hn; destruct n as [|i]; try (cbn; intros; lia).
  cbn [scan_down]. rewrite visible_skip. destruct (visible b i) eqn:V; cbn [negb].
  - destruct (lookup_lt_is_Some_2 table i ltac:(lia)) as [x Hx]. rewrite Hx.
    destruct (p x) eqn:P.
    + cbn. split; [lia|]. split; [trivial|]. split; [eauto|]. lia.
    + apply last_match_weaken with i; [apply IH; lia | lia|].
      intros j y Hj _ Hy. assert (j = i) as -> by lia. congruence.
  - assert (fst b <= i) by (unfold visible in V; apply orb_false_iff in V; lia).
    apply last_match_weaken with (fst b); [apply IH; lia | lia|].
    intros j y Hj Vj. rewrite (skipped_band b i j) in Vj by (trivial; lia). discriminate.
Qed.

Lemma find_last_spec {A} b (p : A -> bool) table :
  last_match b p table (length table) (find_last b p table).
Proof. now apply scan_down_spec. Qed.

Lemma last_match_det {A} b (p : A -> bool) table n r s :
  last_match b p table n r -> last_match b p table n s -> r = s.
Proof.
  destruct r as [i|], s as [j|]; cbn; trivial.
  - intros (Hi & Vi & (x & Hx & Px) & Ui) (Hj & Vj & (y & Hy & Py) & Uj).
    destruct (Nat.lt_trichotomy i j) as [L|[->|L]]; trivial.
    + rewrite (Ui j y) in Py by (trivial; lia). discriminate.
    + rewrite (Uj i x) in Px by (trivial; lia). discriminate.
  - intros (Hi & Vi & (x & Hx & Px) & _) U. rewrite (U i x) in Px by (trivial; lia). discriminate.
  - intros U (Hi & Vi & (x & Hx & Px) & _). rewrite (U j x) in Px by (trivial; lia). discriminate.
Qed.

Lemma find_last_eq {A} b (p : A -> bool) table r :
  last_match b p table (length table) r -> find_last b p table = r.
Proof. intros H. eapply last_match_det; [apply find_last_spec | exact H]. Qed.

Lemma find_last_lt {A} b (p : A -> bool) table i :
  find_last b p table = Some i -> i < length table.
Proof. intros E. pose proof (find_last_spec b p table) as S. rewrite E in S. apply S. Qed.

(** ** Upvalues denote the variables they capture *)

(** Follow the descriptors of upvalue [u] to the slot it stands for. *)
Fixpoint denote (c : chain) (u : nat) : option (nat * nat) :=
  match c with
  | [] => None
  | env :: up =>
      d ← upvalues env !! u;
      if is_local d : bool then match up with [] => None | _ => Some (1, index d) end
      else '(n, s) ← denote up (index d); Some (S n, s)
  end.

(** The boxed flag of the slot [n] levels up. *)
Definition boxed_at (c : chain) (n s : nat) : bool :=
  match c !! n with Some e => nth s (boxed e) false | None => false end.

(** Every descriptor denotes a slot and carries its boxed flag, no variable is
    captured twice, and the table is within its bounds. *)
Fixpoint wf_upvalues (c : chain) : Prop :=
  match c with
  | [] => True
  | env :: up =>
      length (upvalues env) <= CL_MAX_UPVALUES /\
      (forall u d, upvalues env !! u = Some d ->
         exists n s, denote c u = Some (n, s) /\ is_boxed d = boxed_at c n s) /\
      (forall u v d e, upvalues env !! u = Some d -> upvalues env !! v = Some e ->
         is_local d = is_local e -> index d = index e -> u = v) /\
      wf_upvalues up
  end.

(** [c'] extends [c]: the same environments with more upvalues. *)
Definition grows (e e' : CompEnv) : Prop :=
  e' = set_upvalues (upvalues e') e /\ upvalues e `prefix_of` upvalues e'.

Definition extends : chain -> chain -> Prop := Forall2 grows.

#[export] Instance grows_refl : Reflexive grows.
Proof. intros e. split; [now destruct e | reflexivity]. Qed.

#[export] Instance grows_trans : Transitive grows.
Proof.
  intros a b c [E1 P1] [E2 P2]. split; [|now transitivity (upvalues b)].
  etransitivity; [exact E2|]. rewrite E1 at 1. reflexivity.
Qed.

#[export] Instance extends_refl : Reflexive extends.
Proof. intros c. induction c; constructor; trivial; reflexivity. Qed.

Lemma grows_lookup e e' u d :
  grows e e' -> upvalues e !! u = Some d -> upvalues e' !! u = Some d.
Proof. intros [_ P] H. eapply prefix_lookup_Some; eassumption. Qed.

Lemma grows_cl_env_lookup e e' s : grows e e' -> cl_env_lookup e' s = cl_env_lookup e s.
Proof. intros [-> _]. reflexivity. Qed.

Lemma grows_boxed e e' : grows e e' -> boxed e' = boxed e.
Proof. intros [-> _]. reflexivity. Qed.

Lemma extends_length c c' : extends c c' -> length c' = length c.
Proof. intros H. symmetry. eapply Forall2_length, H. Qed.

Lemma extends_boxed_at c c' n s : extends c c' -> boxed_at c' n s = boxed_at c n s.
Proof.
  intros H. unfold boxed_at. destruct (c !! n) eqn:E.
  - destruct (Forall2_lookup_l _ _ _ _ _ H E) as (e' & -> & G). now rewrite (grows_boxed _ _ G).
  - apply lookup_ge_None in E. rewrite (lookup_ge_None_2 c' n); [trivial|].
    now rewrite (extends_length c c').
Qed.

(** What an index denoted, it denotes in any extension. *)
Lemma denote_extends c c' : extends c c' -> forall u r, denote c u = Some r -> denote c' u = Some r.
Proof.
  induction 1 as [|e e' up up' G H IH]; intros u r; [easy|]. cbn [denote].
  destruct (upvalues e !! u) as [d|] eqn:E; cbn; [|easy]. rewrite (grows_lookup _ _ _ _ G E). cbn.
  destruct (is_local d).
  - destruct H; [easy | trivial].
  - destruct (denote up (index d)) as [[n s]|] eqn:D; cbn; [|easy].
    now rewrite (IH _ _ D).
Qed.

(** ** Resolution agrees with lexical lookup *)

Section Resolve.
Variable find : CompEnv -> option nat.
Hypothesis find_grows : forall e e', grows e e' -> find e' = find e.

(** The walk up the parents, for the name [find] looks up. *)
Fixpoint find_parents (es : chain) : option (nat * nat) :=
  match es with
  | [] => None
  | e :: es' =>
      match find e with
      | Some s => Some (1, s)
      | None => '(n, s) ← find_parents es'; Some (S n, s)
      end
  end.

Lemma find_parents_extends es es' : extends es es' -> find_parents es' = find_parents es.
Proof.
  induction 1 as [|e e' up up' G H IH]; [reflexivity|]. cbn [find_parents].
  now rewrite (find_grows _ _ G), IH.
Qed.

(** A captured descriptor: found or appended. *)
Lemma capture_spec env d env' r :
  length (upvalues env) <= CL_MAX_UPVALUES -> capture env d = (env', r) ->
  grows env env' /\ length (upvalues env') <= CL_MAX_UPVALUES /\
    match r with
  | None => env' = env /\ length (upvalues env) = CL_MAX_UPVALUES
  | Some u =>
      exists d', upvalues env' !! u = Some d' /\ is_local d' = is_local d /\ index d' = index d /\
    (env' = env \/
         upvalues env' = upvalues env ++ [d] /\ d' = d /\ u = length (upvalues env) /\
    Forall (fun x => ~ (is_local x = is_local d /\ index x = index d)) (upvalues env))
  end.
Proof.
  intros L. unfold capture. destruct (list_find _ (upvalues env)) as [[i x]|] eqn:F.
  - intros [= <- <-]. apply list_find_Some in F as (E & (E1 & E2) & _).
    split; [reflexivity|]. split; [trivial|]. exists x. auto.
  - apply list_find_None in F. destruct (Nat.leb_spec CL_MAX_UPVALUES (length (upvalues env)));
      intros [= <- <-].
    + split; [reflexivity|]. split; [trivial|]. split; [trivial | lia].
    + split; [split; [reflexivity | now apply prefix_app_r]|].
      cbn [upvalues set_upvalues]. split; [rewrite length_app; cbn; lia|].
      exists d. rewrite lookup_app_r, Nat.sub_diag by lia.
      split; [reflexivity|]. split; [trivial|]. split; [trivial|]. right. auto.
Qed.

(** Capturing a descriptor whose meaning is known keeps the invariant. *)
Lemma capture_wf env up up' d env' u n s :
  wf_upvalues (env :: up) -> extends up up' -> wf_upvalues up' ->
  capture env d = (env', Some u) ->
  (if is_local d then up' <> [] /\ (n, s) = (1, index d)
   else exists m, denote up' (index d) = Some (m, s) /\ n = S m) ->
  is_boxed d = boxed_at (env' :: up') n s ->
  wf_upvalues (env' :: up') /\ denote (env' :: up') u = Some (n, s).
Proof.
  intros (L & D & U & W) X W' E M B.
  destruct (capture_spec env d env' (Some u) L E) as (G & L' & d' & Eu & E1 & E2 & C).
  assert (Du : denote (env' :: up') u = Some (n, s)).
  { cbn [denote]. rewrite Eu. cbn. rewrite E1, E2. destruct (is_local d).
    - destruct M as [N [= -> ->]]. now destruct up'.
    - destruct M as (m & -> & ->). reflexivity. }
  assert (Xe : extends (env :: up) (env' :: up')) by (now constructor).
  split; [|exact Du]. split; [exact L'|]. split; [|split; [|exact W']].
  - intros v x Hx. assert (O : upvalues env !! v = Some x \/ v = u /\ x = d).
    { destruct C as [->|(A & -> & -> & _)]; [now left|].
      rewrite A in Hx. apply lookup_app_Some in Hx as [Hx|[Hv Hx]]; [now left|].
      apply list_lookup_singleton_Some in Hx as [Hv' ->]. right. split; [lia | trivial]. }
    destruct O as [O|[-> ->]]; [|now exists n, s].
    destruct (D v x O) as (n' & s' & Dv & Bv). exists n', s'.
    split; [exact (denote_extends _ _ Xe _ _ Dv)|]. now rewrite (extends_boxed_at _ _ _ _ Xe).
  - destruct C as [->|(A & -> & -> & F)]; [exact U|]. rewrite Forall_lookup in F.
    intros v w x y Hx Hy Q1 Q2. rewrite A in Hx, Hy.
    apply lookup_app_Some in Hx as [Hx|[Hv Hx]], Hy as [Hy|[Hw Hy]].
    + now apply (U v w x y).
    + apply list_lookup_singleton_Some in Hy as [Hw' <-]. now destruct (F v x Hx).
    + apply list_lookup_singleton_Some in Hx as [Hv' <-]. destruct (F w y Hy). now split.
    + apply list_lookup_singleton_Some in Hx as [Hv' _], Hy as [Hw' _]. lia.
Qed.

(** Some environment of the chain has no room for another upvalue. *)
Definition full (c : chain) : Prop :=
  Exists (fun e => length (upvalues e) = CL_MAX_UPVALUES) c.

Lemma resolve_cons env parent up0 :
  resolve find (env :: parent :: up0) =
    match find parent with
    | Some slot =>
        let '(env', r) :=
          capture env {| is_local := true; index := slot;
                         is_boxed := nth slot (boxed parent) false |} in
        (env' :: parent :: up0, r)
    | None =>
        match resolve find (parent :: up0) with
        | ((parent' :: _) as up', Some u) =>
            let b := match upvalues parent' !! u with Some d => is_boxed d | None => false end in
            let '(env', r) := capture env {| is_local := false; index := u; is_boxed := b |} in
            (env' :: up', r)
        | (up', r) => (env :: up', r)
        end
    end.
Proof. reflexivity. Qed.

Lemma resolve_spec c : forall c' r,
  wf_upvalues c -> resolve find c = (c', r) ->
  extends c c' /\ wf_upvalues c' /\
    match r with
  | Some u => exists p, find_parents (tail c) = Some p /\ denote c' u = Some p
  | None => find_parents (tail c) = None \/ full c'
  end.
Proof.
  induction c as [|env up IH]; intros c' r W.
  { intros [= <- <-]. split; [reflexivity|]. split; [trivial | now left]. }
  destruct up as [|parent up0]; cbn [tail].
  { intros [= <- <-]. split; [reflexivity|]. split; [trivial | now left]. }
  rewrite resolve_cons. set (up := parent :: up0) in *. assert (W1 : wf_upvalues up) by apply W.
  cbn [find_parents]. destruct (find parent) as [slot|] eqn:F.
  - destruct (capture env _) as [env' r'] eqn:C. intros [= <- <-].
    destruct (capture_spec _ _ _ _ (proj1 W) C) as (G & L' & Sc).
    assert (Xe : extends (env :: up) (env' :: up)) by (constructor; [trivial | reflexivity]).
    split; [exact Xe|]. destruct r' as [u|].
    + epose proof (capture_wf env up up _ env' u 1 slot W (extends_refl up) W1 C) as K.
      destruct K as [Wf Du].
      * cbn. now split.
      * reflexivity.
      * split; [exact Wf|]. exists (1, slot). split; [|exact Du].
        subst up. cbn [find_parents]. now rewrite F.
    + destruct Sc as [-> Sc]. split; [exact W|]. right. now constructor.
  - destruct (resolve find up) as [up' r1] eqn:R. destruct (IH up' r1 W1 eq_refl) as (X & W' & Sr).
    assert (P : find_parents up = '(n, s) ← find_parents up0; Some (S n, s)).
    { subst up. cbn [find_parents]. now rewrite F. }
    change (tail up) with up0 in Sr.
    assert (Xe : forall e, grows env e -> extends (env :: up) (e :: up')) by (now constructor).
    assert (We : wf_upvalues (env :: up')).
    { destruct W as (L & D & U & _). split; [exact L|]. split; [|now split].
      intros u d Hu. destruct (D u d Hu) as (n & s & Du & Bu). exists n, s.
      assert (X1 : extends (env :: up) (env :: up')) by (now apply Xe).
      split; [exact (denote_extends _ _ X1 _ _ Du)|]. now rewrite (extends_boxed_at _ _ _ _ X1). }
    destruct r1 as [u1|].
    + destruct Sr as ([n s] & Ep & Du1).
      destruct up' as [|parent' up0']; [inversion X|]. cbv beta iota zeta.
      set (up' := parent' :: up0') in *.
      destruct (capture env _) as [env' r'] eqn:C. intros [= <- <-].
      destruct (capture_spec _ _ _ _ (proj1 W) C) as (G & L' & Sc).
      split; [now apply Xe|]. destruct r' as [u|].
      * destruct (upvalues parent' !! u1) as [d1|] eqn:E1;
          [|subst up'; cbn [denote] in Du1; now rewrite E1 in Du1].
        epose proof (capture_wf env up up' _ env' u (S n) s W X W' C) as K.
        destruct K as [Wf Du].
        -- cbn. now exists n.
        -- cbn [is_boxed]. destruct (proj1 (proj2 W') u1 d1 E1) as (n' & s' & Dn & ->).
           change (denote up' u1 = Some (n', s')) in Dn. rewrite Du1 in Dn. injection Dn as [= <- <-]. reflexivity.
        -- split; [exact Wf|]. exists (S n, s). split; [|exact Du]. now rewrite P, Ep.
      * destruct Sc as [-> Sc]. split; [exact We|]. right. now constructor.
    + intros H. assert (c' = env :: up' /\ r = None) as [-> ->].
      { destruct up'; now injection H as [= <- <-]. }
      split; [now apply Xe|]. split; [exact We|]. destruct Sr as [Sr|Sr].
      * left. now rewrite P, Sr.
      * right. now constructor 2.
Qed.
End Resolve.

Lemma lookup_parents_find es sym d :
  lookup_parents es sym (S d) =
  '(n, s) ← find_parents (fun e => cl_env_lookup e sym) es; Some (d + n, s).
Proof.
  revert d. induction es as [|e es IH]; intros d; [reflexivity|]. cbn [lookup_parents find_parents].
  destruct (cl_env_lookup e sym) as [s|]; cbn; [f_equal; f_equal; lia|].
  rewrite IH. destruct (find_parents _ es) as [[n s]|]; cbn; [f_equal; f_equal; lia | reflexivity].
Qed.

Lemma cl_env_lookup_upvalue_find c sym :
  cl_env_lookup_upvalue c sym = find_parents (fun e => cl_env_lookup e sym) (tail c).
Proof.
  unfold cl_env_lookup_upvalue. rewrite lookup_parents_find.
  now destruct (find_parents _ (tail c)) as [[n s]|].
Qed.

Lemma fun_slot_grows name e e' : grows e e' -> fun_slot name e' = fun_slot name e.
Proof. intros [-> _]. reflexivity. Qed.

(** ** Scopes and boxed slots *)

(** Dead slots are not boxed, so that a new local never inherits the flag. *)
Definition wf_scope (env : CompEnv) : Prop :=
  length (boxed env) = CL_MAX_LOCALS /\ length (locals env) <= CL_MAX_LOCALS /\
  length (locals env) <= max_locals env /\
  forall i, length (locals env) <= i < CL_MAX_LOCALS -> boxed env !! i = Some false.

(** The operations the compiler applies to an environment's locals, where they
    stay inside the arrays: the three ways to take a slot, boxing, and leaving a
    scope. *)
Inductive scope_step : CompEnv -> CompEnv -> Prop :=
| step_add env s env' slot :
    cl_env_add_local env s = (env', Some slot) -> scope_step env env'
| step_temp env env' slot :
    alloc_temp_slot env = Some (env', slot) -> scope_step env env'
| step_anonymous env env' slot :
    push_anonymous_slot env = Some (env', slot) -> scope_step env env'
| step_box env slot :
    slot < length (locals env) -> scope_step env (box_local env slot)
| step_leave env n :
    n <= length (locals env) -> scope_step env (leave_scope env n).

Lemma wf_scope_create parents : wf_scope (cl_env_create parents).
Proof.
  assert (E : locals (cl_env_create parents) = [] /\
              boxed (cl_env_create parents) = replicate CL_MAX_LOCALS false)
    by (destruct parents; now split).
  destruct E as [E1 E2]. unfold wf_scope. rewrite E1, E2, length_replicate. cbn [length].
  split; [reflexivity|]. split; [unfold CL_MAX_LOCALS; lia|]. split; [lia|].
  intros i Hi. apply lookup_replicate. split; [reflexivity | lia].
Qed.

(** A slot taken: the next one, still below the limit. *)
Definition takes_slot (env env' : CompEnv) (s : CL_Obj) (slot : nat) : Prop :=
  slot = length (locals env) /\ slot < CL_MAX_LOCALS /\ locals env' = locals env ++ [s] /\
  boxed env' = boxed env /\ max_locals env' = Nat.max (max_locals env) (S slot).

Lemma add_local_spec env s env' slot :
  cl_env_add_local env s = (env', Some slot) -> takes_slot env env' s slot.
Proof.
  unfold cl_env_add_local. destruct (Nat.leb_spec CL_MAX_LOCALS (length (locals env)));
    intros [= <- <-]. unfold takes_slot. auto.
Qed.

Lemma temp_slot_spec env env' slot : alloc_temp_slot env = Some (env', slot) -> takes_slot env env' CL_NIL slot.
Proof.
  unfold alloc_temp_slot. destruct (Nat.leb_spec CL_MAX_LOCALS (length (locals env)));
    intros [= <- <-]. unfold takes_slot. auto.
Qed.

Lemma anonymous_slot_spec env env' slot :
  push_anonymous_slot env = Some (env', slot) -> takes_slot env env' CL_NIL slot.
Proof.
  unfold push_anonymous_slot. destruct (Nat.ltb_spec (length (locals env)) CL_MAX_LOCALS);
    intros [= <- <-]. unfold takes_slot. auto.
Qed.

Lemma clear_boxed_lookup (bs : list bool) from n i :
  length bs = CL_MAX_LOCALS -> from <= n -> n <= CL_MAX_LOCALS -> i < CL_MAX_LOCALS ->
  (take from bs ++ replicate (n - from) false ++ drop (from `max` n) bs) !! i =
  if (from <=? i) && (i <? n) then Some false else bs !! i.
Proof.
  intros L F N I. rewrite Nat.max_r by lia.
  destruct (Nat.leb_spec from i); cbn [andb].
  - rewrite lookup_app_r; rewrite length_take_le; try lia.
    destruct (Nat.ltb_spec i n).
    + rewrite lookup_app_l by (rewrite length_replicate; lia). apply lookup_replicate.
      split; [reflexivity | lia].
    + rewrite lookup_app_r; rewrite length_replicate; [|lia].
      rewrite lookup_drop. f_equal. lia.
  - rewrite lookup_app_l by (rewrite length_take_le; lia). now rewrite lookup_take_lt.
Qed.

Lemma takes_slot_wf env env' s slot :
  wf_scope env -> takes_slot env env' s slot -> wf_scope env' /\ boxed env' !! slot = Some false.
Proof.
  intros (L & N & M & D) (-> & Hs & El & Eb & Em). unfold wf_scope.
  rewrite El, Eb, Em, length_app. cbn [length]. split; [|apply D; lia].
  split; [trivial|]. split; [lia|]. split; [lia|]. intros i Hi. apply D. lia.
Qed.

Lemma wf_scope_step env env' : wf_scope env -> scope_step env env' -> wf_scope env'.
Proof.
  intros W Hst. destruct Hst as [env s e' slot E | env e' slot E | env e' slot E | env slot Hs | env n Hn].
  - apply add_local_spec in E. exact (proj1 (takes_slot_wf _ _ _ _ W E)).
  - apply temp_slot_spec in E. exact (proj1 (takes_slot_wf _ _ _ _ W E)).
  - apply anonymous_slot_spec in E. exact (proj1 (takes_slot_wf _ _ _ _ W E)).
  - destruct W as (L & N & M & D). unfold wf_scope. cbn [box_local set_boxed boxed locals max_locals].
    rewrite length_insert. split; [trivial|]. split; [trivial|]. split; [trivial|].
    intros i Hi. rewrite list_lookup_insert_ne by lia. now apply D.
  - destruct W as (L & N & M & D). unfold wf_scope, leave_scope, cl_env_clear_boxed.
    cbn [set_boxed set_locals boxed locals max_locals].
    rewrite length_take_le by lia. rewrite !length_app, length_take_le, length_replicate,
      length_drop by lia.
    split; [lia|]. split; [lia|]. split; [lia|]. intros i Hi.
    rewrite clear_boxed_lookup by (trivial; lia).
    destruct (Nat.leb_spec n i), (Nat.ltb_spec i (length (locals env))); cbn [andb]; trivial;
      try lia. apply D. lia.
Qed.

(** What the three ways to take a slot do when there is one and when there is none. *)
Lemma slot_taken env s : length (locals env) < CL_MAX_LOCALS ->
  exists e1 e2 e3, cl_env_add_local env s = (e1, Some (length (locals env))) /\
    alloc_temp_slot env = Some (e2, length (locals env)) /\
    push_anonymous_slot env = Some (e3, length (locals env)).
Proof.
  intros H. unfold cl_env_add_local, alloc_temp_slot, push_anonymous_slot.
  rewrite (proj2 (Nat.leb_gt _ _) H), (proj2 (Nat.ltb_lt _ _) H). eauto 6.
Qed.

Lemma slot_refused env s : CL_MAX_LOCALS <= length (locals env) ->
  cl_env_add_local env s = (env, None) /\ alloc_temp_slot env = None /\ push_anonymous_slot env = None.
Proof.
  intros H. unfold cl_env_add_local, alloc_temp_slot, push_anonymous_slot.
  now rewrite (proj2 (Nat.leb_le _ _) H), (proj2 (Nat.ltb_ge _ _) H).
Qed.

(** Leaving a scope undoes everything done to the locals since. *)
Lemma leave_scope_restores env locals_since :
  locals (leave_scope (set_locals (locals env ++ locals_since) (max_locals env) env)
                      (length (locals env))) = locals env.
Proof. cbn. apply take_app_length. Qed.

(** ** Macros across a function boundary *)

Lemma existsb_seq (P : nat -> bool) from n :
  existsb P (seq from n) = true <-> exists j, from <= j < from + n /\ P j = true.
Proof.
  rewrite existsb_exists. split; intros (j & Hj & Pj); exists j; split; trivial.
  - apply in_seq in Hj. lia.
  - apply in_seq. lia.
Qed.

(** A visible local at or above [t] exists exactly when the lookup says so. *)
Lemma local_at_or_above_lookup env t name :
  local_at_or_above env t name =
  match cl_env_lookup env name with Some slot => t <=? slot | None => false end.
Proof.
  apply eq_true_iff_eq. unfold local_at_or_above. rewrite existsb_seq.
  pose proof (find_last_spec (hide_local env) (Z.eqb name) (locals env)) as S.
  unfold cl_env_lookup. destruct (find_last _ _ _) as [i|]; cbn in S.
  - destruct S as (Hi & V & (x & Hx & Px) & U). rewrite Nat.leb_le. split.
    + intros (j & Hj & E). apply andb_prop in E as [Vj Ej].
      destruct (locals env !! j) as [y|] eqn:Hy; [|discriminate].
      destruct (Nat.le_gt_cases j i); [lia|]. rewrite Z.eqb_sym in Ej.
      rewrite (U j y) in Ej by (trivial; lia). discriminate.
    + intros Hle. exists i. split; [lia|]. rewrite V, Hx, Z.eqb_sym, Px. reflexivity.
  - split; [|discriminate]. intros (j & Hj & E). apply andb_prop in E as [Vj Ej].
    destruct (locals env !! j) as [y|] eqn:Hy; [|discriminate].
    rewrite Z.eqb_sym, (S j y) in Ej by (trivial; lia). discriminate.
Qed.

Lemma locally_shadowed_lookup env i sm :
  locally_shadowed env i sm =
  match cl_env_lookup env (sm_name sm) with
  | Some slot => (i <? inherited_symbol_macro_count env) || (local_count_at_create sm <=? slot)
  | None => false
  end.
Proof.
  unfold locally_shadowed. rewrite local_at_or_above_lookup.
  destruct (cl_env_lookup env (sm_name sm)); [|reflexivity].
  now destruct (i <? inherited_symbol_macro_count env).
Qed.

(** One more way to write the symbol-macro lookup. *)
Lemma lookup_symbol_macro_eq env name i sm :
  find_last (hide_smacro env) (fun sm => Z.eqb (sm_name sm) name) (symbol_macros env) = Some i ->
  symbol_macros env !! i = Some sm -> sm_name sm = name ->
  cl_env_lookup_symbol_macro_p env name =
  if locally_shadowed env i sm then None else Some (expansion sm).
Proof.
  intros F E <-. unfold cl_env_lookup_symbol_macro_p. rewrite F, E, locally_shadowed_lookup.
  rewrite local_at_or_above_lookup.
  destruct (Nat.leb_spec (inherited_symbol_macro_count env) i) as [H|H].
  - rewrite (proj2 (Nat.ltb_ge _ _)) by lia. now destruct (cl_env_lookup env (sm_name sm)).
  - rewrite (proj2 (Nat.ltb_lt _ _)) by lia. now destruct (cl_env_lookup env (sm_name sm)).
Qed.

(** Symbol macros of one environment are nested like its scopes. *)
Definition wf_symbol_macros (env : CompEnv) : Prop :=
  inherited_symbol_macro_count env <= length (symbol_macros env) <= CL_MAX_SYMBOL_MACROS /\
  forall i j sm sm', inherited_symbol_macro_count env <= i <= j ->
    symbol_macros env !! i = Some sm -> symbol_macros env !! j = Some sm' ->
    local_count_at_create sm <= local_count_at_create sm'.

(** If an entry is shadowed, so are the entries of the same name below it. *)
Lemma shadowed_below env i j sm sm' :
  wf_symbol_macros env -> i <= j ->
  symbol_macros env !! i = Some sm -> symbol_macros env !! j = Some sm' ->
  sm_name sm = sm_name sm' -> locally_shadowed env j sm' = true ->
  locally_shadowed env i sm = true.
Proof.
  intros [[H1 H2] M] Hij Ei Ej En. rewrite !locally_shadowed_lookup, En.
  destruct (cl_env_lookup env (sm_name sm')) as [slot|]; [|discriminate].
  rewrite !orb_true_iff, !Nat.ltb_lt, !Nat.leb_le. intros Hs.
  destruct (Nat.lt_ge_cases i (inherited_symbol_macro_count env)) as [L|L]; [now left|]. right.
  pose proof (M i j sm sm' ltac:(lia) Ei Ej). lia.
Qed.

(** The last matching entry when nothing is hidden. *)
Definition last_entry {A} (p : A -> bool) (l : list A) : option A :=
  i ← find_last (0, 0) p l; l !! i.

Lemma visible_empty b i : snd b <= fst b -> visible b i = true.
Proof. unfold visible. intros. destruct (Nat.ltb_spec i (fst b)), (Nat.leb_spec (snd b) i); cbn; lia. Qed.

Ltac vis := solve [reflexivity | apply visible_empty; cbn; lia].

Lemma find_last_empty_band {A} b (p : A -> bool) l :
  snd b <= fst b -> find_last b p l = find_last (0, 0) p l.
Proof.
  intros Hb. apply find_last_eq. pose proof (find_last_spec (0, 0) p l) as S.
  destruct (find_last (0, 0) p l) as [i|]; cbn in S |- *.
  - destruct S as (Hi & _ & X & U). split; [trivial|]. split; [vis|].
    split; [trivial|]. intros j y Hj _. apply U; [trivial | vis].
  - intros j y Hj _. apply S; [trivial | vis].
Qed.

Lemma find_last_snoc {A} (p : A -> bool) l x :
  find_last (0, 0) p (l ++ [x]) = if p x then Some (length l) else find_last (0, 0) p l.
Proof.
  apply find_last_eq. rewrite length_app. cbn [length]. destruct (p x) eqn:P.
  - cbn. split; [lia|]. split; [vis|]. split.
    + exists x. split; [|trivial]. rewrite lookup_app_r, Nat.sub_diag by lia. reflexivity.
    + lia.
  - apply last_match_weaken with (length l); [|lia|].
    + pose proof (find_last_spec (0, 0) p l) as S. destruct (find_last (0, 0) p l) as [i|]; cbn in *.
      * destruct S as (Hi & V & (y & Hy & Py) & U). split; [trivial|]. split; [trivial|]. split.
        -- exists y. split; [|trivial]. now rewrite lookup_app_l.
        -- intros j z Hj Vj Hz. rewrite lookup_app_l in Hz by lia. now apply (U j z).
      * intros j z Hj Vj Hz. rewrite lookup_app_l in Hz by lia. now apply (S j z).
    + intros j y Hj _ Hy. assert (j = length l) as -> by lia.
      rewrite lookup_app_r, Nat.sub_diag in Hy by lia. now injection Hy as [= <-].
Qed.

Lemma last_entry_snoc {A} (p : A -> bool) l x :
  last_entry p (l ++ [x]) = if p x then Some x else last_entry p l.
Proof.
  unfold last_entry. rewrite find_last_snoc. destruct (p x); cbn.
  - now rewrite lookup_app_r, Nat.sub_diag by lia.
  - destruct (find_last (0, 0) p l) as [i|] eqn:E; cbn; [|reflexivity].
    rewrite lookup_app_l; [reflexivity|]. eapply find_last_lt, E.
Qed.

Lemma inherit_snoc parent l x : forall k,
  inherit_symbol_macros parent k (l ++ [x]) =
  inherit_symbol_macros parent k l ++
  (if locally_shadowed parent (k + length l) x then [] else [x]).
Proof.
  induction l as [|y l IH]; intros k; cbn [app inherit_symbol_macros length].
  - rewrite Nat.add_0_r. now destruct (locally_shadowed parent k x).
  - rewrite IH. replace (S k + length l) with (k + S (length l)) by lia.
    now destruct (locally_shadowed parent k y).
Qed.

(** The inherited table answers like the parent's. *)
Lemma inherit_last_entry parent name l :
  wf_symbol_macros parent -> l `prefix_of` symbol_macros parent ->
  let p sm := Z.eqb (sm_name sm) name in
  last_entry p (inherit_symbol_macros parent 0 l) =
  i ← find_last (0, 0) p l; sm ← l !! i; if locally_shadowed parent i sm then None else Some sm.
Proof.
  intros W. cbv zeta. induction l as [|x l IH] using rev_ind; intros Hp; [reflexivity|].
  assert (Hl : l `prefix_of` symbol_macros parent)
    by (transitivity (l ++ [x]); [now apply prefix_app_r | trivial]).
  specialize (IH Hl). rewrite inherit_snoc, find_last_snoc. cbn [Nat.add].
  assert (Ex : symbol_macros parent !! length l = Some x).
  { eapply prefix_lookup_Some; [|exact Hp]. now rewrite lookup_app_r, Nat.sub_diag by lia. }
  assert (Er : forall i, find_last (0, 0) (fun sm => Z.eqb (sm_name sm) name) l = Some i ->
                 (l ++ [x]) !! i = l !! i).
  { intros i Hi. apply lookup_app_l. eapply find_last_lt, Hi. }
  destruct (Z.eqb_spec (sm_name x) name) as [En|En].
  - cbn [mbind option_bind]. rewrite lookup_app_r, Nat.sub_diag by lia. cbn.
    destruct (locally_shadowed parent (length l) x) eqn:Sh.
    + rewrite app_nil_r, IH.
      pose proof (find_last_spec (0, 0) (fun sm => Z.eqb (sm_name sm) name) l) as S.
      destruct (find_last _ _ l) as [i|] eqn:F; cbn in S |- *; [|reflexivity].
      destruct S as (Hi & _ & (y & Hy & Py) & _). rewrite Hy. cbn.
      rewrite (shadowed_below parent i (length l) y x); trivial; [lia| |].
      * eapply prefix_lookup_Some; eassumption.
      * apply Z.eqb_eq in Py. congruence.
    + rewrite last_entry_snoc, En, Z.eqb_refl. reflexivity.
  - transitivity (last_entry (fun sm => Z.eqb (sm_name sm) name) (inherit_symbol_macros parent 0 l)).
    + destruct (locally_shadowed _ _ x); [now rewrite app_nil_r|].
      rewrite last_entry_snoc. now destruct (Z.eqb_spec (sm_name x) name).
    + rewrite IH. destruct (find_last _ _ l) as [i|] eqn:F; cbn; [|reflexivity].
      now rewrite (Er i eq_refl).
Qed.

Lemma child_symbol_macro parent ps name :
  cl_env_lookup_symbol_macro_p (cl_env_create (parent :: ps)) name =
  expansion <$> last_entry (fun sm => Z.eqb (sm_name sm) name)
                 (inherit_symbol_macros parent 0 (take CL_MAX_SYMBOL_MACROS (symbol_macros parent))).
Proof.
  unfold cl_env_lookup_symbol_macro_p, last_entry.
  set (child := cl_env_create (parent :: ps)).
  change (hide_smacro child) with (0, 0).
  change (symbol_macros child) with
    (inherit_symbol_macros parent 0 (take CL_MAX_SYMBOL_MACROS (symbol_macros parent))).
  change (inherited_symbol_macro_count child) with
    (length (inherit_symbol_macros parent 0 (take CL_MAX_SYMBOL_MACROS (symbol_macros parent)))).
  change (local_at_or_above child 0 name) with false.
  generalize (inherit_symbol_macros parent 0 (take CL_MAX_SYMBOL_MACROS (symbol_macros parent))).
  intros l. destruct (find_last _ _ l) as [i|] eqn:F; [|reflexivity].
  pose proof (find_last_lt _ _ _ _ F) as Hi. destruct (lookup_lt_is_Some_2 l i Hi) as [sm E].
  cbn [mbind option_bind]. rewrite E. now destruct (Nat.leb_spec (length l) i); [lia|].
Qed.

(** A fresh inner function sees every symbol macro as its parent does. *)
Lemma create_symbol_macro parent ps name :
  wf_symbol_macros parent -> snd (hide_smacro parent) <= fst (hide_smacro parent) ->
  cl_env_lookup_symbol_macro_p (cl_env_create (parent :: ps)) name =
  cl_env_lookup_symbol_macro_p parent name.
Proof.
  intros W B. rewrite child_symbol_macro. pose proof W as [[_ H] _].
  rewrite take_ge by trivial.
  rewrite (inherit_last_entry parent name (symbol_macros parent) W) by reflexivity.
  destruct (find_last (0, 0) _ (symbol_macros parent)) as [i|] eqn:F.
  - pose proof (find_last_lt _ _ _ _ F) as Hi.
    destruct (lookup_lt_is_Some_2 (symbol_macros parent) i Hi) as [sm E].
    pose proof (find_last_spec (0, 0) (fun sm => Z.eqb (sm_name sm) name) (symbol_macros parent)) as S.
    rewrite F in S. destruct S as (_ & _ & (y & Hy & Py) & _). rewrite E in Hy. injection Hy as [= <-].
    apply Z.eqb_eq in Py. rewrite (lookup_symbol_macro_eq parent name i sm); trivial.
    + cbn. rewrite E. cbn. now destruct (locally_shadowed parent i sm).
    + now rewrite find_last_empty_band.
  - unfold cl_env_lookup_symbol_macro_p. rewrite find_last_empty_band by trivial. now rewrite F.
Qed.

(** ... and so for its macros. *)
Lemma create_local_macro parent ps name :
  length (local_macros parent) <= CL_MAX_LOCAL_MACROS ->
  snd (hide_macro parent) <= fst (hide_macro parent) ->
  cl_env_lookup_local_macro (cl_env_create (parent :: ps)) name =
  cl_env_lookup_local_macro parent name.
Proof.
  intros L B. unfold cl_env_lookup_local_macro.
  rewrite (find_last_empty_band (hide_macro parent)) by trivial.
  cbn [cl_env_create hide_macro local_macros]. now rewrite take_ge.
Qed.

(** ** Inlined bodies resolve names in the definition environment *)

Lemma bind_params_locals params : forall env env',
  bind_params env params = Some env' ->
  locals env' = locals env ++ map fst params /\ local_funs env' = local_funs env /\
  local_macros env' = local_macros env.
Proof.
  unfold bind_params. induction params as [|[s b] params IH]; intros env env'; cbn [foldl].
  - intros [= <-]. cbn. now rewrite app_nil_r.
  - cbn [mbind option_bind fst snd].
    assert (N : foldl (fun oe p => e ← oe;
                     match cl_env_add_local e (fst p) with
                     | (e', Some slot) => Some (if snd p : bool then box_local e' slot else e')
                     | (_, None) => None
                     end) None params = None) by (clear IH; now induction params).
    destruct (cl_env_add_local env s) as [e' [slot|]] eqn:E; [|now rewrite N].
    assert (P : locals e' = locals env ++ [s] /\ local_funs e' = local_funs env /\ local_macros e' = local_macros env).
    { unfold cl_env_add_local in E. destruct (CL_MAX_LOCALS <=? _); [discriminate|].
      now injection E as [= <- _]. }
    destruct P as (P1 & P2 & P3). intros H. apply IH in H as (-> & -> & ->). cbn [map fst].
    destruct b; cbn [box_local set_boxed locals local_funs local_macros];
      now rewrite P1, P2, P3, <- app_assoc.
Qed.

(** A scan over two live stretches around a hidden one. *)
Lemma scan_band_split {A} (p : A -> bool) (l m : list A) k :
  k <= length l ->
  find_last (k, length l) p (l ++ m) =
  match find_last (0, 0) p m with
  | Some i => Some (length l + i)
  | None => find_last (0, 0) p (take k l)
  end.
Proof.
  intros Hk. apply find_last_eq. rewrite length_app.
  assert (Vu : forall i, visible (k, length l) i = (i <? k) || (length l <=? i)) by reflexivity.
  pose proof (find_last_spec (0, 0) p m) as Sm. destruct (find_last (0, 0) p m) as [i|]; cbn in Sm.
  - destruct Sm as (Hi & _ & (x & Hx & Px) & U). cbn. split; [lia|].
    split; [rewrite Vu; apply orb_true_iff; right; apply Nat.leb_le; lia|]. split.
    + exists x. rewrite lookup_app_r by lia. now replace (length l + i - length l) with i by lia.
    + intros j y Hj _ Hy. rewrite lookup_app_r in Hy by lia.
      apply (U (j - length l) y); [lia | vis | trivial].
  - apply last_match_weaken with k; [|lia|].
    + pose proof (find_last_spec (0, 0) p (take k l)) as Sk. rewrite length_take_le in Sk by lia.
      assert (T : forall j, j < k -> (l ++ m) !! j = take k l !! j)
        by (intros j Hj; rewrite lookup_app_l, lookup_take_lt by lia; reflexivity).
      destruct (find_last (0, 0) p (take k l)) as [i|]; cbn in Sk |- *.
      * destruct Sk as (Hi & _ & (x & Hx & Px) & U). split; [trivial|].
        split; [rewrite Vu; apply orb_true_iff; left; apply Nat.ltb_lt; lia|]. split.
        -- exists x. now rewrite T.
        -- intros j y Hj _. rewrite T by lia. apply U; [lia | vis].
      * intros j y Hj _. rewrite T by lia. apply Sk; [lia | vis].
    + intros j y Hj Vj Hy. rewrite Vu in Vj.
      assert (Hge : length l <= j) by (apply orb_true_iff in Vj; rewrite Nat.ltb_lt, Nat.leb_le in Vj; lia).
      rewrite lookup_app_r in Hy by lia.
      apply (Sm (j - length l) y); [lia | vis | trivial].
Qed.

(** No entry with property [p] is hidden in [table]. *)
Definition none_hidden {A} (b : band) (p : A -> bool) (table : list A) : Prop :=
  forall j x, visible b j = false -> table !! j = Some x -> p x = false.

Lemma none_hidden_outside {A} b (p : A -> bool) table : snd b <= fst b -> none_hidden b p table.
Proof. intros H j x V. unfold visible in V. apply orb_false_iff in V. lia. Qed.

(** Hidden entries that do not match do not matter. *)
Lemma find_last_none_hidden {A} b (p : A -> bool) table :
  none_hidden b p table -> find_last (0, 0) p table = find_last b p table.
Proof.
  intros H. apply find_last_eq. pose proof (find_last_spec b p table) as S.
  destruct (find_last b p table) as [i|]; cbn in S |- *.
  - destruct S as (Hi & _ & X & U). split; [trivial|]. split; [vis|]. split; [trivial|].
    intros j y Hj _ Hy. destruct (visible b j) eqn:V; [now apply (U j)|now apply (H j)].
  - intros j y Hj _ Hy. destruct (visible b j) eqn:V; [now apply (S j)|now apply (H j)].
Qed.

(** A scan over a table that has grown since [def], the growth hidden. *)
Lemma scan_band_grown {A} (p : A -> bool) (def l m : list A) b :
  def `prefix_of` l -> none_hidden b p def ->
  find_last (length def, length l) p (l ++ m) =
  match find_last (0, 0) p m with
  | Some i => Some (length l + i)
  | None => find_last b p def
  end.
Proof.
  intros [l' ->] H. rewrite scan_band_split by (rewrite length_app; lia).
  destruct (find_last (0, 0) p m); [reflexivity|]. rewrite take_app_length. now apply find_last_none_hidden.
Qed.

(** [def] is the environment in which the local function [lf] was defined: the
    tables of [env], a later state of the same CL_CompEnv, as long as the marks
    say; [def] has its own hiding bands. *)
Record defined_in (def : CompEnv) (lf : LocalFun) (env : CompEnv) : Prop := {
  di_local_mark : def_local_mark lf = length (locals def);
  di_fun_mark : def_fun_mark lf = length (local_funs def);
  di_macro_mark : def_macro_mark lf = length (local_macros def);
  di_locals : locals def `prefix_of` locals env;
  di_funs : local_funs def `prefix_of` local_funs env;
  di_macros : local_macros def `prefix_of` local_macros env }.

Section Inline.
Context (def env env' : CompEnv) (idx : nat) (lf : LocalFun) (params : list (CL_Obj * bool)).
Hypothesis Hlf : local_funs env !! idx = Some lf.
Hypothesis Hdef : defined_in def lf env.
Hypothesis Henter : enter_inline env idx params = Some env'.

Lemma enter_inline_tables :
  locals env' = locals env ++ map fst params /\ hide_local env' = (length (locals def), length (locals env)) /\
  local_funs env' = local_funs env /\ hide_fun env' = (length (local_funs def), length (local_funs env)) /\
  local_macros env' = local_macros env /\ hide_macro env' = (length (local_macros def), length (local_macros env)).
Proof.
  revert Henter. unfold enter_inline. rewrite Hlf. cbn [mbind option_bind].
  destruct (bind_params env params) as [e|] eqn:B; cbn [mbind option_bind]; [|discriminate]. intros [= <-].
  apply bind_params_locals in B as (E1 & E2 & E3). destruct Hdef as [M1 M2 M3 _ _ _].
  cbn [inline_bands set_bands locals local_funs local_macros hide_local hide_fun hide_macro].
  now rewrite E1, E2, E3, M1, M2, M3.
Qed.

Lemma inline_variable s : none_hidden (hide_local def) (Z.eqb s) (locals def) ->
  cl_env_lookup env' s =
  match find_last (0, 0) (Z.eqb s) (map fst params) with
  | Some i => Some (length (locals env) + i)
  | None => cl_env_lookup def s
  end.
Proof.
  intros H. destruct enter_inline_tables as (E1 & E2 & _). unfold cl_env_lookup. rewrite E1, E2.
  apply scan_band_grown; [apply Hdef|exact H].
Qed.

Lemma inline_function s : none_hidden (hide_fun def) (fun f => Z.eqb (lf_name f) s) (local_funs def) ->
  cl_env_lookup_local_fun_index env' s = cl_env_lookup_local_fun_index def s.
Proof.
  intros H. destruct enter_inline_tables as (_ & _ & E1 & E2 & _). unfold cl_env_lookup_local_fun_index.
  rewrite E1, E2. pose proof (scan_band_grown _ _ _ [] _ (di_funs _ _ _ Hdef) H) as G.
  now rewrite app_nil_r in G.
Qed.

Lemma inline_macro s : none_hidden (hide_macro def) (fun m => Z.eqb (lm_name m) s) (local_macros def) ->
  cl_env_lookup_local_macro env' s = cl_env_lookup_local_macro def s.
Proof.
  intros H. destruct enter_inline_tables as (_ & _ & _ & _ & E1 & E2). unfold cl_env_lookup_local_macro.
  pose proof (scan_band_grown _ _ _ [] _ (di_macros _ _ _ Hdef) H) as G. rewrite app_nil_r in G. cbn in G.
  rewrite E1, E2, G. destruct (find_last (hide_macro def) _ _) as [i|] eqn:F; [|reflexivity].
  destruct (di_macros _ _ _ Hdef) as [l' ->]. apply find_last_lt in F. now rewrite lookup_app_l.
Qed.

End Inline.

(** ** What &environment holds *)

Section LexEnvSpec.
Variable SYM : CL_Obj.

Definition bound (name : CL_Obj) (le : lex_env) : bool :=
  existsb (fun e => Z.eqb (fst e) name) le.

(** A symbol already listed keeps its binding. *)
Lemma fold_symbol_macros_keep env name fuel : forall n acc,
  bound name acc = true ->
  lex_env_lookup_symbol_macro SYM
    (fold_down fuel (hide_smacro env) (push_symbol_macro env) (symbol_macros env) n acc) name
  = lex_env_lookup_symbol_macro SYM acc name.
Proof.
  induction fuel as [|f IH]; intros n acc Hb; [reflexivity|].
  destruct n as [|i]; [reflexivity|]. cbn [fold_down].
  destruct (_ && _); [now apply IH|]. destruct (symbol_macros env !! i) as [sm|]; [|reflexivity].
  unfold push_symbol_macro. destruct (_ && _); [now apply IH|].
  destruct (existsb _ acc) eqn:E; [now apply IH|].
  assert (N : sm_name sm <> name) by (intros <-; unfold bound in Hb; congruence).
  rewrite IH.
  - cbn. destruct (Z.eqb_spec (sm_name sm) name); [contradiction|]. now rewrite andb_false_r.
  - change (Z.eqb (sm_name sm) name || bound name acc = true). now rewrite Hb, orb_true_r.
Qed.

Lemma fold_symbol_macros_last env name i sm fuel : forall n acc,
  name <> SYM -> n <= fuel -> n <= length (symbol_macros env) ->
  last_match (hide_smacro env) (fun sm => Z.eqb (sm_name sm) name) (symbol_macros env) n (Some i) ->
  symbol_macros env !! i = Some sm ->
  (i <? inherited_symbol_macro_count env) && local_at_or_above env 0 name = false ->
  bound name acc = false ->
  lex_env_lookup_symbol_macro SYM
    (fold_down fuel (hide_smacro env) (push_symbol_macro env) (symbol_macros env) n acc) name
  = Some (LexObj (expansion sm)).
Proof.
  induction fuel as [|f IH]; intros n acc Hs Hf Hn S E Sh Hb.
  { cbn in S. lia. }
  destruct n as [|k]; [cbn in S; lia|].
  pose proof S as (Hi & V & (y & Hy & Py) & U). rewrite E in Hy. injection Hy as [= <-].
  apply Z.eqb_eq in Py as En.
  cbn [fold_down]. rewrite visible_skip. destruct (visible (hide_smacro env) k) eqn:Vk; cbn [negb].
  - destruct (lookup_lt_is_Some_2 (symbol_macros env) k ltac:(lia)) as [x Hx]. rewrite Hx.
    destruct (Nat.eq_dec i k) as [->|Nk].
    + rewrite E in Hx. injection Hx as [= <-]. unfold push_symbol_macro. rewrite En, Sh.
      unfold bound in Hb. rewrite Hb. rewrite fold_symbol_macros_keep.
      * cbn. rewrite Z.eqb_refl. now destruct (Z.eqb_spec name SYM).
      * cbn. now rewrite Z.eqb_refl.
    + assert (Nx : sm_name x <> name)
        by (intros Ex; pose proof (U k x ltac:(lia) Vk Hx); rewrite Ex, Z.eqb_refl in *; discriminate).
      apply IH; [exact Hs | lia | lia | | exact E | exact Sh |].
      * split; [lia|]. split; [trivial|]. split; [now exists sm|]. intros j z Hj. apply U. lia.
      * unfold push_symbol_macro. case_match; [exact Hb|]. case_match; [exact Hb|].
        change (Z.eqb (sm_name x) name || bound name acc = false).
        rewrite Hb. now destruct (Z.eqb_spec (sm_name x) name).
  - assert (Lk : fst (hide_smacro env) <= k) by (unfold visible in Vk; apply orb_false_iff in Vk; lia).
    assert (i < fst (hide_smacro env)).
    { destruct (Nat.lt_ge_cases i (fst (hide_smacro env))); [trivial|].
      rewrite (skipped_band _ k i Vk) in V by lia. discriminate. }
    apply IH; [exact Hs | lia | lia | | exact E | exact Sh | exact Hb].
    split; [lia|]. split; [trivial|]. split; [now exists sm|]. intros j z Hj. apply U. lia.
Qed.

(** The macro part holds no key but the sentinel. *)
Lemma fold_macros_bound env name fuel : forall n acc,
  name <> SYM -> bound name acc = false ->
  bound name (fold_down fuel (hide_macro env) (push_local_macro SYM) (local_macros env) n acc) = false.
Proof.
  induction fuel as [|f IH]; intros n acc Hs Hb; [trivial|]. destruct n as [|i]; [trivial|].
  cbn [fold_down]. destruct (_ && _); [now apply IH|].
  destruct (local_macros env !! i); [|trivial]. apply IH; trivial.
  change (Z.eqb SYM name || bound name acc = false).
  rewrite Hb. destruct (Z.eqb_spec SYM name); [congruence | trivial].
Qed.

Lemma build_symbol_macro env name e :
  name <> SYM -> cl_env_lookup_symbol_macro_p env name = Some e ->
  lex_env_lookup_symbol_macro SYM (cl_build_lex_env SYM env) name = Some (LexObj e).
Proof.
  intros Hs. unfold cl_env_lookup_symbol_macro_p.
  pose proof (find_last_spec (hide_smacro env) (fun sm => Z.eqb (sm_name sm) name)
                (symbol_macros env)) as S.
  destruct (find_last _ _ _) as [i|] eqn:F; [|discriminate].
  destruct (symbol_macros env !! i) as [sm|] eqn:E; [|discriminate]. intros H.
  assert (Sh : (i <? inherited_symbol_macro_count env) && local_at_or_above env 0 name = false /\
               e = expansion sm).
  { destruct (Nat.leb_spec (inherited_symbol_macro_count env) i).
    - rewrite (proj2 (Nat.ltb_ge i (inherited_symbol_macro_count env))) by lia.
      split; [reflexivity|].
      repeat case_match; congruence.
    - rewrite (proj2 (Nat.ltb_lt i (inherited_symbol_macro_count env))) by lia.
      destruct (local_at_or_above env 0 name); [easy|].
      repeat case_match; split; congruence || lia. }
  destruct Sh as [Sh ->]. unfold cl_build_lex_env.
  apply (fold_symbol_macros_last env name i sm); trivial.
  now apply fold_macros_bound.
Qed.

(** The lowest visible macro of a name is found first. *)
Lemma fold_macros_first env name i lm fuel : forall n acc,
  n <= fuel -> n <= length (local_macros env) -> i < n -> visible (hide_macro env) i = true ->
  local_macros env !! i = Some lm -> lm_name lm = name ->
  (forall j x, j < i -> visible (hide_macro env) j = true -> local_macros env !! j = Some x ->
               lm_name x <> name) ->
  lex_env_local_macro SYM
    (fold_down fuel (hide_macro env) (push_local_macro SYM) (local_macros env) n acc) name
  = expander lm.
Proof.
  assert (K : forall fuel n acc, n <= fuel -> n <= i -> n <= length (local_macros env) ->
    (forall j x, j < i -> visible (hide_macro env) j = true -> local_macros env !! j = Some x ->
                 lm_name x <> name) ->
    lex_env_local_macro SYM
      (fold_down fuel (hide_macro env) (push_local_macro SYM) (local_macros env) n acc) name
    = lex_env_local_macro SYM acc name).
  { induction fuel0 as [|f IH]; intros n acc Hf Hn Hl U; [reflexivity|].
    destruct n as [|k]; [reflexivity|].
    cbn [fold_down]. rewrite visible_skip. destruct (visible (hide_macro env) k) eqn:Vk; cbn [negb].
    - destruct (lookup_lt_is_Some_2 (local_macros env) k ltac:(lia)) as [x Hx]. rewrite Hx.
      rewrite IH by (trivial; lia). cbn. pose proof (U k x ltac:(lia) Vk Hx).
      destruct (Z.eqb_spec (lm_name x) name); [contradiction | now rewrite andb_false_r].
    - assert (fst (hide_macro env) <= k) by (unfold visible in Vk; apply orb_false_iff in Vk; lia).
      apply IH; trivial; lia. }
  induction fuel as [|f IH]; intros n acc Hf Hn Hi V E En U; [lia|].
  destruct n as [|k]; [lia|].
  cbn [fold_down]. rewrite visible_skip. destruct (visible (hide_macro env) k) eqn:Vk; cbn [negb].
  - destruct (lookup_lt_is_Some_2 (local_macros env) k ltac:(lia)) as [x Hx]. rewrite Hx.
    destruct (Nat.eq_dec i k) as [->|Nk].
    + rewrite E in Hx. injection Hx as [= <-]. rewrite K by (trivial; lia).
      cbn. now rewrite En, !Z.eqb_refl.
    + apply IH; trivial; lia.
  - assert (fst (hide_macro env) <= k) by (unfold visible in Vk; apply orb_false_iff in Vk; lia).
    apply IH; trivial; try lia.
    destruct (Nat.lt_ge_cases i (fst (hide_macro env))); [trivial|].
    rewrite (skipped_band _ k i Vk) in V by lia. discriminate.
Qed.

Lemma fold_symbol_macros_local env name fuel : forall n acc,
  lex_env_local_macro SYM
    (fold_down fuel (hide_smacro env) (push_symbol_macro env) (symbol_macros env) n acc) name
  = lex_env_local_macro SYM acc name.
Proof.
  induction fuel as [|f IH]; intros n acc; [reflexivity|]. destruct n as [|i]; [reflexivity|].
  cbn [fold_down]. destruct (_ && _); [apply IH|].
  destruct (symbol_macros env !! i) as [sm|]; [|reflexivity]. rewrite IH.
  unfold push_symbol_macro. destruct (_ && _); [reflexivity|]. now destruct (existsb _ acc).
Qed.

Lemma build_local_macro env name i lm :
  visible (hide_macro env) i = true -> local_macros env !! i = Some lm -> lm_name lm = name ->
  (forall j x, j < i -> visible (hide_macro env) j = true -> local_macros env !! j = Some x ->
               lm_name x <> name) ->
  lex_env_local_macro SYM (cl_build_lex_env SYM env) name = expander lm.
Proof.
  intros V E En U. unfold cl_build_lex_env. rewrite fold_symbol_macros_local.
  apply (fold_macros_first env name i lm); trivial. now apply lookup_lt_is_Some_1.
Qed.
End LexEnvSpec.

(** ** Properties *)

(** C27: capturing a variable, or a local function's closure slot, as a flat
    upvalue agrees with lexical lookup: the index returned denotes, through
    the chain of descriptors, the very slot the walk up the enclosing
    functions finds, with that slot's boxed flag; indices handed out earlier
    keep their meaning; no variable is captured twice; and resolution fails
    only for an unbound name or when some function's table is full. *)
Theorem cl_env_resolve_upvalue_correct c name :
  wf_upvalues c ->
  (let '(c', r) := cl_env_resolve_upvalue c name in
   extends c c' /\ wf_upvalues c' /\
   match r with
   | Some u => exists p, cl_env_lookup_upvalue c name = Some p /\ denote c' u = Some p
   | None => cl_env_lookup_upvalue c name = None \/ full c'
   end) /\
  (let '(c', r) := cl_env_resolve_fun_upvalue c name in
   extends c c' /\ wf_upvalues c' /\
   match r with
   | Some u => exists p, find_parents (fun_slot name) (tail c) = Some p /\ denote c' u = Some p
   | None => find_parents (fun_slot name) (tail c) = None \/ full c'
   end).
Proof.
  intros W. split.
  - destruct (cl_env_resolve_upvalue c name) as [c' r] eqn:E. rewrite cl_env_lookup_upvalue_find.
    now apply (resolve_spec _).
  - destruct (cl_env_resolve_fun_upvalue c name) as [c' r] eqn:E.
    now apply (resolve_spec _).
Qed.

(** Two functions inside one that binds symbols 10 and 11, the second boxed. *)
Definition sample_chain : list CompEnv :=
  let outer := box_local (set_locals [10%Z; 11%Z] 2 empty_env) 1 in
  let mid := cl_env_create [outer] in
  [cl_env_create [mid; outer]; mid; outer].

Lemma cl_env_resolve_upvalue_correct_witness :
  let c := sample_chain in
  (snd (cl_env_resolve_upvalue c 11%Z) = Some 0 /\ cl_env_lookup_upvalue c 11%Z = Some (2, 1)) /\
  (let '(c', r) := cl_env_resolve_upvalue c 11%Z in
   extends c c' /\ wf_upvalues c' /\
   match r with
   | Some u => exists p, cl_env_lookup_upvalue c 11%Z = Some p /\ denote c' u = Some p
   | None => cl_env_lookup_upvalue c 11%Z = None \/ full c'
   end) /\
  (let '(c', r) := cl_env_resolve_fun_upvalue c 11%Z in
   extends c c' /\ wf_upvalues c' /\
   match r with
   | Some u => exists p, find_parents (fun_slot 11%Z) (tail c) = Some p /\ denote c' u = Some p
   | None => find_parents (fun_slot 11%Z) (tail c) = None \/ full c'
   end).
Proof.
  split; [split; vm_compute; reflexivity|].
  apply (cl_env_resolve_upvalue_correct sample_chain 11%Z).
  cbn. unfold CL_MAX_UPVALUES.
  split; [lia|]. split; [discriminate|]. split; [discriminate|].
  split; [lia|]. split; [discriminate|]. split; [discriminate|].
  split; [lia|]. split; [discriminate|]. split; [discriminate | exact I].
Defined.

(** Every lookup returns the innermost visible entry: the highest index
    outside the hiding band that bears the name, or none when there is none. *)
Theorem cl_env_lookup_correct env name :
  last_match (hide_local env) (Z.eqb name) (locals env) (length (locals env))
             (cl_env_lookup env name) /\
  last_match (hide_fun env) (fun lf => Z.eqb (lf_name lf) name) (local_funs env)
             (length (local_funs env)) (cl_env_lookup_local_fun_index env name).
Proof. split; apply find_last_spec. Qed.

(** C39: However slots are taken, boxed and given back, the locals stay within
    the 256 slots and the high-water mark, and a slot that is taken, in any of
    the three ways, never inherits the boxed flag of its former local.  While
    the scope is not full each way gives the next slot; when it is full
    cl_env_add_local returns -1 and alloc_temp_slot signals an error, but the
    forms that take a slot without looking at the count store past the array
    ([push_anonymous_slot] has no result): the invariant is one of the runs
    in which none of them meets a full scope. *)
Theorem scope_invariant parents env :
  rtc scope_step (cl_env_create parents) env ->
  wf_scope env /\
  (forall s env' slot,
     cl_env_add_local env s = (env', Some slot) \/ alloc_temp_slot env = Some (env', slot) \/
     push_anonymous_slot env = Some (env', slot) ->
     slot = length (locals env) /\ boxed env' !! slot = Some false) /\
  (forall s, if decide (length (locals env) = CL_MAX_LOCALS)
     then cl_env_add_local env s = (env, None) /\ alloc_temp_slot env = None /\ push_anonymous_slot env = None
     else exists e1 e2 e3, cl_env_add_local env s = (e1, Some (length (locals env))) /\
       alloc_temp_slot env = Some (e2, length (locals env)) /\
       push_anonymous_slot env = Some (e3, length (locals env))).
Proof.
  intros R. assert (W : wf_scope env).
  { pose proof (wf_scope_create parents) as W0. revert W0.
    induction R as [|a b c S R IH]; intros W0; [trivial|]. apply IH. now apply wf_scope_step with a. }
  split; [exact W|]. split.
  - intros s env' slot H.
    assert (T : exists s', takes_slot env env' s' slot).
    { destruct H as [H|[H|H]]; eexists; eauto using add_local_spec, temp_slot_spec, anonymous_slot_spec. }
    destruct T as [s' T]. split; [apply T|]. now apply (takes_slot_wf env env' s' slot).
  - intros s. destruct W as (_ & N & _). case_decide as E; [apply slot_refused; lia|apply slot_taken; lia].
Qed.

(** Slot 0 is boxed, the scope left, and the slot taken again. *)
Lemma scope_invariant_witness :
  let env1 := fst (cl_env_add_local empty_env 10%Z) in
  let env := leave_scope (box_local env1 0) 0 in
  wf_scope env /\
  exists env', push_anonymous_slot env = Some (env', 0) /\ boxed env' !! 0 = Some false.
Proof.
  destruct (scope_invariant [] (leave_scope (box_local (fst (cl_env_add_local empty_env 10%Z)) 0) 0)) as (W & H & _).
  - apply rtc_l with (fst (cl_env_add_local empty_env 10%Z));
      [apply (step_add empty_env 10%Z _ 0); reflexivity|].
    apply rtc_l with (box_local (fst (cl_env_add_local empty_env 10%Z)) 0);
      [apply step_box; cbn; lia|].
    apply rtc_once. apply step_leave. cbn. lia.
  - split; [exact W|]. eexists. split; [reflexivity|]. apply (H CL_NIL _ 0). right. right. reflexivity.
Defined.

(** A full scope can be reached, with variables alone: the next BLOCK or loop
    stores to locals[256], and a LET* that ignores the -1 boxes slot -1. *)
Lemma full_scope_reached :
  exists env, rtc scope_step (cl_env_create []) env /\ push_anonymous_slot env = None /\
    cl_env_add_local env 10%Z = (env, None).
Proof.
  assert (H : forall n, n <= CL_MAX_LOCALS -> exists env, rtc scope_step (cl_env_create []) env /\ length (locals env) = n).
  { induction n as [|n IH]; intros Hn; [by exists (cl_env_create [])|]. destruct IH as (env & R & E); [lia|].
    destruct (slot_taken env 10%Z) as (e1 & _ & _ & E1 & _); [lia|]. exists e1. split.
    - eapply rtc_r; [exact R|]. by eapply step_add.
    - destruct (add_local_spec _ _ _ _ E1) as (_ & _ & -> & _). rewrite length_app, E. cbn. lia. }
  destruct (H CL_MAX_LOCALS (le_n _)) as (env & R & E). exists env. split; [exact R|].
  destruct (slot_refused env 10%Z) as (H1 & _ & H2); [lia|]. by split.
Qed.

(** Outside an inlined body, a new inner function sees every SYMBOL-MACROLET
    and MACROLET name exactly as the place that encloses it: a symbol macro
    shadowed there by a variable is shadowed inside, any other expands alike. *)
Theorem cl_env_create_macros_correct parent ps name :
  wf_symbol_macros parent -> snd (hide_smacro parent) <= fst (hide_smacro parent) ->
  length (local_macros parent) <= CL_MAX_LOCAL_MACROS ->
  snd (hide_macro parent) <= fst (hide_macro parent) ->
  let child := cl_env_create (parent :: ps) in
  cl_env_lookup_symbol_macro_p child name = cl_env_lookup_symbol_macro_p parent name /\
  cl_env_lookup_local_macro child name = cl_env_lookup_local_macro parent name.
Proof.
  intros W B L Bm child. split; [now apply create_symbol_macro | now apply create_local_macro].
Qed.

(** (symbol-macrolet ((x 90)) (let ((x ..)) (symbol-macrolet ((y 91)) ..))) *)
Definition sample_parent : CompEnv :=
  let e := fst (cl_env_add_symbol_macro empty_env 10%Z 90%Z) in
  let e := fst (cl_env_add_local e 10%Z) in
  fst (cl_env_add_symbol_macro e 11%Z 91%Z).

Lemma cl_env_create_macros_correct_witness :
  let child := cl_env_create [sample_parent] in
  (cl_env_lookup_symbol_macro_p child 10%Z = None /\
   cl_env_lookup_symbol_macro_p child 11%Z = Some 91%Z) /\
  cl_env_lookup_symbol_macro_p child 10%Z = cl_env_lookup_symbol_macro_p sample_parent 10%Z /\
  cl_env_lookup_local_macro child 10%Z = cl_env_lookup_local_macro sample_parent 10%Z.
Proof.
  split; [split; vm_compute; reflexivity|].
  apply (cl_env_create_macros_correct sample_parent []); [|cbn; lia | cbn; lia | cbn; lia].
  split; [cbn; unfold CL_MAX_SYMBOL_MACROS; lia|]. intros i j sm sm' Hij Hi Hj.
  destruct i as [|[|i]], j as [|[|j]]; cbn in Hi, Hj; try discriminate; try lia;
    injection Hi as [= <-]; injection Hj as [= <-]; cbn; lia.
Defined.

(** C40: The body of an inlined local function resolves a variable to its
    parameter if it is one, and otherwise, like local functions and local
    macros, exactly as the environment in which the function was defined does,
    whatever the call site has bound since.  This is so for every name of which
    the definition environment hides no entry, thus for all names when the
    function was not itself defined inside an inlined body; there the new bands
    replace the old ones ([inline_bands_incomplete]). *)
Theorem enter_inline_correct def env idx lf params env' name :
  local_funs env !! idx = Some lf -> defined_in def lf env ->
  enter_inline env idx params = Some env' ->
  (none_hidden (hide_local def) (Z.eqb name) (locals def) ->
   cl_env_lookup env' name =
   match find_last (0, 0) (Z.eqb name) (map fst params) with
   | Some i => Some (length (locals env) + i)
   | None => cl_env_lookup def name
   end) /\
  (none_hidden (hide_fun def) (fun f => Z.eqb (lf_name f) name) (local_funs def) ->
   cl_env_lookup_local_fun_index env' name = cl_env_lookup_local_fun_index def name) /\
  (none_hidden (hide_macro def) (fun m => Z.eqb (lm_name m) name) (local_macros def) ->
   cl_env_lookup_local_macro env' name = cl_env_lookup_local_macro def name).
Proof.
  intros Hlf Hdef He. split; [|split].
  - now apply (inline_variable def env env' idx lf params).
  - now apply (inline_function def env env' idx lf params).
  - now apply (inline_macro def env env' idx lf params).
Qed.

(** (let ((x 1)) (flet ((f (y) ..)) (let ((x 2)) <here>))), with x = 10,
    y = 12 and f = 20; f is defined where only x is bound. *)
Definition inline_def : CompEnv := fst (cl_env_add_local empty_env 10%Z).

Definition inline_site : CompEnv :=
  let e := inline_def in
  let mark := length (locals e) in
  let e := fst (cl_env_add_local e CL_NIL) in
  let e := fst (cl_env_add_local_fun e 20%Z 1%Z) in
  let e := local_inline_fill e 0 500%Z 501%Z mark 0 0 0 in
  fst (cl_env_add_local e 10%Z).

Lemma enter_inline_correct_witness :
  exists env', enter_inline inline_site 0 [(12%Z, false)] = Some env' /\
  cl_env_lookup inline_site 10%Z = Some 2 /\ cl_env_lookup env' 10%Z = Some 0 /\ cl_env_lookup env' 12%Z = Some 3.
Proof.
  assert (D : forall lf, local_funs inline_site !! 0 = Some lf -> defined_in inline_def lf inline_site).
  { intros lf [= <-]. split; [reflexivity..|by exists [CL_NIL; 10%Z]|by eexists|by exists []]. }
  eexists. split; [reflexivity|]. split; [reflexivity|]. split.
  - destruct (enter_inline_correct inline_def inline_site 0 _ [(12%Z, false)] _ 10%Z eq_refl (D _ eq_refl) eq_refl) as (H & _).
    rewrite H by (apply none_hidden_outside; cbn; lia). reflexivity.
  - destruct (enter_inline_correct inline_def inline_site 0 _ [(12%Z, false)] _ 12%Z eq_refl (D _ eq_refl) eq_refl) as (H & _).
    rewrite H by (apply none_hidden_outside; cbn; lia). reflexivity.
Defined.

(** (flet ((g () x)) (g)) compiled inside the body of f: the call of g. *)
Definition nested_inline : option CompEnv :=
  e ← enter_inline inline_site 0 [];
  let mark := length (locals e) in
  let e := fst (cl_env_add_local e CL_NIL) in
  let e := fst (cl_env_add_local_fun e 21%Z 3%Z) in
  let e := local_inline_fill e 1 502%Z 503%Z mark 1 0 0 in
  enter_inline e 1 [].

(** Inlining does not nest, and its bands are not inherited.  The body
    of a function that is defined and inlined inside an inlined body sees the
    call site's variable (slot 2) which the outer band hid (f's own body
    resolves it to slot 0), because the new band replaces the old one; and a
    function created inside an inlined body sees a MACROLET name of the call
    site which the band hides from the body itself. *)
Theorem inline_bands_incomplete :
  (e ← enter_inline inline_site 0 []; cl_env_lookup e 10%Z) = Some 0 /\
  (e ← nested_inline; cl_env_lookup e 10%Z) = Some 2 /\
  exists e, enter_inline (fst (cl_env_add_local_macro inline_site 30%Z 600%Z)) 0 [] = Some e /\
    cl_env_lookup_local_macro e 30%Z = CL_NIL /\
    cl_env_lookup_local_macro (cl_env_create [e]) 30%Z = 600%Z.
Proof.
  split; [vm_compute; reflexivity|]. split; [vm_compute; reflexivity|].
  eexists. split; [reflexivity|]. split; vm_compute; reflexivity.
Qed.

(** A macro expander that passes its environment to MACROEXPAND-1 gets
    the compiler's own expansion of every symbol macro in scope; of several
    MACROLET definitions of one name, however, it gets the outermost. *)
Theorem cl_build_lex_env_correct SYM env name :
  name <> SYM ->
  (forall e, cl_env_lookup_symbol_macro_p env name = Some e ->
     lex_env_lookup_symbol_macro SYM (cl_build_lex_env SYM env) name = Some (LexObj e)) /\
  (forall i lm, visible (hide_macro env) i = true -> local_macros env !! i = Some lm ->
     lm_name lm = name ->
     (forall j x, j < i -> visible (hide_macro env) j = true -> local_macros env !! j = Some x ->
                  lm_name x <> name) ->
     lex_env_local_macro SYM (cl_build_lex_env SYM env) name = expander lm).
Proof.
  intros Hs. split.
  - intros e. now apply build_symbol_macro.
  - intros i lm. apply build_local_macro.
Qed.

(** Two nested MACROLETs of symbol 30: the environment finds the inner
    expander 601, the alist the outer 600. *)
Lemma cl_build_lex_env_correct_witness :
  let env := fst (cl_env_add_local_macro (fst (cl_env_add_local_macro empty_env 30%Z 600%Z))
                    30%Z 601%Z) in
  cl_env_lookup_local_macro env 30%Z = 601%Z /\
  lex_env_local_macro 99%Z (cl_build_lex_env 99%Z env) 30%Z = 600%Z.
Proof.
  split; [vm_compute; reflexivity|].
  apply (proj2 (cl_build_lex_env_correct 99%Z
           (fst (cl_env_add_local_macro (fst (cl_env_add_local_macro empty_env 30%Z 600%Z))
              30%Z 601%Z)) 30%Z ltac:(discriminate)) 0 {| lm_name := 30%Z; expander := 600%Z |});
    try reflexivity.
  intros j x Hj. lia.
Defined.
