(* ===== verification/Hashtable.v ===== *)
(** * Hash tables

    src/src/core/builtins_hashtable.c, cl_make_hashtable (src/src/core/mem.c)
    and gc_rehash_table (src/src/core/gc_compact.c): open hashing over a
    power-of-two bucket array, growth by relinking, the locked path of the
    synchronized tables, iteration, and the rebuilding of a table after the
    compactor moved its keys.

    Keys enter only through hash_obj, keys_equal and gc_key_addr_sensitive:
    [KeyOps] holds the three, [KeyLaws] what the tables rely on, namely that
    equality is an equivalence on the keys in use and equal keys hash alike.
    HashKey.v defines the three for heap objects and proves the laws.

    A bucket is the list of its (key . value) pairs from the head of the
    chain; [buckets] is the array ht_get_buckets(ht) returns, inline or in
    bucket_vec.  The abstract value of a table is [entries], the pairs in
    iteration order, and [ht_find], the partial function from keys to values.

    Allocation of a bucket vector can fail; ht_maybe_rehash gets the outcome
    as [alloc].  Conses always succeed. *)

From Stdlib Require Import String ZArith Lia ZifyBool.
From stdpp Require Import base list gmap.
From S2P Require Import Prelude.
Local Open Scope Z_scope.

Inductive ht_test : Set :=
| CL_HT_TEST_EQ | CL_HT_TEST_EQL | CL_HT_TEST_EQUAL | CL_HT_TEST_EQUALP.

#[export] Instance ht_test_eq_dec : EqDecision ht_test.
Proof. solve_decision. Defined.

Definition CL_HT_MAX_BUCKETS : Z := 1048576.
Definition CL_HT_DEFAULT_BUCKETS : Z := 16.

(** What a table knows of its keys. *)
Class KeyOps (K : Type) := {
  hash_obj : K -> ht_test -> Z;
  keys_equal : K -> K -> ht_test -> bool;
  gc_key_addr_sensitive : K -> ht_test -> bool }.

(** What it relies on, for the keys [ok]. *)
Class KeyLaws (K : Type) {O : KeyOps K} (t : ht_test) (ok : K -> Prop) : Prop := {
  keys_equal_refl a : ok a -> keys_equal a a t = true;
  keys_equal_sym a b : ok a -> ok b -> keys_equal a b t = true -> keys_equal b a t = true;
  keys_equal_trans a b c : ok a -> ok b -> ok c ->
    keys_equal a b t = true -> keys_equal b c t = true -> keys_equal a c t = true;
  keys_equal_hash a b : ok a -> ok b ->
    keys_equal a b t = true -> hash_obj a t = hash_obj b t }.

Record CL_Hashtable {K V : Type} := {
  test : ht_test;
  count : Z;
  bucket_count : Z;
  sync : bool;                   (* CL_HT_FLAG_SYNC *)
  buckets : list (list (K * V)) }.
Arguments CL_Hashtable : clear implicits.

(** ** Operations *)

Section Operations.
Context {K V : Type} {O : KeyOps K}.
Implicit Types (ht : CL_Hashtable K V) (t : ht_test) (c : list (K * V)).

(** [hash_obj(key, test) & (bucket_count - 1)]. *)
Definition bucket_index (t : ht_test) (n : Z) (key : K) : nat :=
  Z.to_nat (Z.land (hash_obj key t) (n - 1)).

Definition set_buckets (cnt : Z) (bs : list (list (K * V))) (ht : CL_Hashtable K V)
  : CL_Hashtable K V :=
  {| test := test ht; count := cnt; bucket_count := bucket_count ht; sync := sync ht;
     buckets := bs |}.

(** The chain of a key. *)
Definition bucket_of (ht : CL_Hashtable K V) (key : K) : list (K * V) :=
  buckets ht !!! bucket_index (test ht) (bucket_count ht) key.

Fixpoint chain_find (t : ht_test) (key : K) (chain : list (K * V)) : option V :=
  match chain with
  | [] => None
  | entry :: chain' =>
      if keys_equal entry.1 key t then Some entry.2 else chain_find t key chain'
  end.

(** Both values of GETHASH. *)
Definition bi_gethash (key : K) (ht : CL_Hashtable K V) (default_val : V) : V * bool :=
  match chain_find (test ht) key (bucket_of ht key) with
  | Some val => (val, true)
  | None => (default_val, false)
  end.

(** Assignment to the cdr of the entry with an equal key, if there is one. *)
Fixpoint chain_update (t : ht_test) (key : K) (value : V) (chain : list (K * V))
  : option (list (K * V)) :=
  match chain with
  | [] => None
  | entry :: chain' =>
      if keys_equal entry.1 key t then Some ((entry.1, value) :: chain')
      else cons entry <$> chain_update t key value chain'
  end.

(** Unlinking of the first cell with an equal key. *)
Fixpoint chain_remove (t : ht_test) (key : K) (chain : list (K * V))
  : option (list (K * V)) :=
  match chain with
  | [] => None
  | entry :: chain' =>
      if keys_equal entry.1 key t then Some chain'
      else cons entry <$> chain_remove t key chain'
  end.

(** A cell becomes the head of its bucket. *)
Definition splice (t : ht_test) (n : Z) (bs : list (list (K * V))) (entry : K * V)
  : list (list (K * V)) :=
  alter (cons entry) (bucket_index t n entry.1) bs.

(** Every cell of every old bucket, spliced into a fresh vector. *)
Definition relink (t : ht_test) (n : Z) (old : list (list (K * V))) : list (list (K * V)) :=
  fold_left (fun bs chain => fold_left (splice t n) chain bs) old
            (repeat [] (Z.to_nat n)).

Definition ht_rehash_into (ht : CL_Hashtable K V) (new_count : Z) : CL_Hashtable K V :=
  {| test := test ht; count := count ht; bucket_count := new_count; sync := sync ht;
     buckets := relink (test ht) new_count (buckets ht) |}.

Definition ht_maybe_rehash (alloc : bool) (ht : CL_Hashtable K V) : CL_Hashtable K V :=
  let old_count := bucket_count ht in
  if count ht <=? u32 (old_count * 3) / 4 then ht
  else
    let new_count := u32 (old_count * 2) in
    if new_count >? CL_HT_MAX_BUCKETS then ht
    else if negb alloc then ht
    else ht_rehash_into ht new_count.

(** A new entry at the head of its bucket. *)
Definition ht_add (ht : CL_Hashtable K V) (key : K) (value : V) : CL_Hashtable K V :=
  set_buckets (u32 (count ht + 1))
              (splice (test ht) (bucket_count ht) (buckets ht) (key, value)) ht.

(** The update in place, if the key has an entry. *)
Definition ht_update (ht : CL_Hashtable K V) (key : K) (value : V)
  : option (CL_Hashtable K V) :=
  let idx := bucket_index (test ht) (bucket_count ht) key in
  match chain_update (test ht) key value (bucket_of ht key) with
  | Some chain => Some (set_buckets (count ht) (<[idx := chain]> (buckets ht)) ht)
  | None => None
  end.

(** bi_setf_gethash_sync before its critical section: the length of the
    vector it allocates in advance. *)
Definition setf_gethash_prepare (ht : CL_Hashtable K V) : option Z :=
  let prealloc_buckets := bucket_count ht in
  if (u32 (count ht + 1) >? u32 (prealloc_buckets * 3) / 4) &&
     (u32 (prealloc_buckets * 2) <=? CL_HT_MAX_BUCKETS)
  then Some (u32 (prealloc_buckets * 2)) else None.

(** The critical section, on the table as other threads have left it. *)
Definition setf_gethash_commit (pre_vec : option Z) (ht : CL_Hashtable K V) (key : K)
    (value : V) : CL_Hashtable K V :=
  match ht_update ht key value with
  | Some ht' => ht'
  | None =>
      let ht := ht_add ht key value in
      match pre_vec with
      | Some len =>
          if (count ht >? u32 (bucket_count ht * 3) / 4) && (len =? u32 (bucket_count ht * 2))
          then ht_rehash_into ht len else ht
      | None => ht
      end
  end.

Definition bi_setf_gethash_sync (alloc : bool) (ht : CL_Hashtable K V) (key : K) (value : V)
  : CL_Hashtable K V :=
  setf_gethash_commit (if alloc then setf_gethash_prepare ht else None) ht key value.

(** [mt]: more than one thread runs (CL_MT). *)
Definition bi_setf_gethash (mt alloc : bool) (key : K) (ht : CL_Hashtable K V) (value : V)
  : CL_Hashtable K V :=
  if sync ht && mt then bi_setf_gethash_sync alloc ht key value
  else
    match ht_update ht key value with
    | Some ht' => ht'
    | None => ht_maybe_rehash alloc (ht_add ht key value)
    end.

Definition bi_remhash (key : K) (ht : CL_Hashtable K V) : bool * CL_Hashtable K V :=
  let idx := bucket_index (test ht) (bucket_count ht) key in
  match chain_remove (test ht) key (bucket_of ht key) with
  | Some chain => (true, set_buckets (u32 (count ht - 1)) (<[idx := chain]> (buckets ht)) ht)
  | None => (false, ht)
  end.

Definition bi_clrhash (ht : CL_Hashtable K V) : CL_Hashtable K V :=
  set_buckets 0 (repeat [] (Z.to_nat (bucket_count ht))) ht.

(** MAPHASH with a function that leaves the table alone; [S] is the state it
    acts on. *)
Definition bi_maphash {S : Type} (func : K -> V -> S -> S) (ht : CL_Hashtable K V) (s : S) : S :=
  fold_left (fun s chain => fold_left (fun s entry => func entry.1 entry.2 s) chain s)
            (buckets ht) s.

Definition bi_hash_table_pairs (ht : CL_Hashtable K V) : list (K * V) :=
  fold_left (fun result chain => fold_left (fun result entry => entry :: result) chain result)
            (buckets ht) [].

(** [same] is the pointer comparison [a == b]. *)
Definition cl_hashtable_equalp (same : bool) (a b : CL_Hashtable K V)
    (val_eq : V -> V -> bool) : bool :=
  if same then true
  else if negb (bool_decide (test a = test b)) then false
  else if negb (count a =? count b) then false
  else
    forallb (forallb (fun entry : K * V =>
      match chain_find (test b) entry.1 (bucket_of b entry.1) with
      | Some v => val_eq entry.2 v
      | None => false
      end)) (buckets a).

(** The rebuilding after a compaction: all cells on one list, then spliced. *)
Definition gc_rehash_table (ht : CL_Hashtable K V) : CL_Hashtable K V :=
  if existsb (existsb (fun entry => gc_key_addr_sensitive entry.1 (test ht))) (buckets ht) then
    let all_entries :=
      fold_left (fun l chain => fold_left (fun l entry => entry :: l) chain l) (buckets ht) [] in
    set_buckets (count ht)
      (fold_left (splice (test ht) (bucket_count ht)) all_entries
                 (repeat [] (Z.to_nat (bucket_count ht)))) ht
  else ht.

(** Objects moved: the same cells hold the new addresses of their keys. *)
Definition move_keys (move : K -> K) (ht : CL_Hashtable K V) : CL_Hashtable K V :=
  set_buckets (count ht) (map (map (fun entry => (move entry.1, entry.2))) (buckets ht)) ht.

(** [while (p < bucket_count) p <<= 1]; 21 doublings pass 2^20. *)
Fixpoint round_up (fuel : nat) (p n : Z) : Z :=
  match fuel with
  | S f => if p <? n then round_up f (u32 (Z.shiftl p 1)) n else p
  | 0%nat => p
  end.

Definition cl_make_hashtable (n : Z) (t : ht_test) : result (CL_Hashtable K V) :=
  if n >? CL_HT_MAX_BUCKETS then Err CL_ERR_STORAGE
  else
    let n := if n <? 2 then 2 else n in
    let n := round_up 21 1 n in
    Ok {| test := t; count := 0; bucket_count := n; sync := false;
          buckets := repeat [] (Z.to_nat n) |}.

(** A keyword argument of MAKE-HASH-TABLE: an integer, a symbol, a function
    object named by a symbol, or anything else. *)
Inductive ht_arg : Set :=
| KW_TEST | KW_SIZE | FixnumArg (n : Z) | SymbolArg (name : string)
| FunctionArg (name : string) | OtherArg.

Definition parse_test (a : ht_arg) : result ht_test :=
  match a with
  | SymbolArg name | FunctionArg name =>
      if String.eqb name "EQ" then Ok CL_HT_TEST_EQ
      else if String.eqb name "EQL" then Ok CL_HT_TEST_EQL
      else if String.eqb name "EQUAL" then Ok CL_HT_TEST_EQUAL
      else if String.eqb name "EQUALP" then Ok CL_HT_TEST_EQUALP
      else Err CL_ERR_ARGS
  | _ => Err CL_ERR_ARGS
  end.

(** The bucket count for an expected number of entries. *)
Definition parse_size (a : ht_arg) : result Z :=
  match a with
  | FixnumArg v =>
      if v <? 0 then Err CL_ERR_TYPE
      else
        let requested := u32 v in
        let requested := if requested <? 1 then 1 else requested in
        let requested := if requested >? CL_HT_MAX_BUCKETS then CL_HT_MAX_BUCKETS
                         else requested in
        let size := u32 (u32 (requested * 4) + 2) / 3 in
        Ok (if size >? CL_HT_MAX_BUCKETS then CL_HT_MAX_BUCKETS else size)
  | _ => Err CL_ERR_TYPE
  end.

(** The keyword loop [for (i = 0; i + 1 < n; i += 2)]. *)
Fixpoint parse_keywords (args : list ht_arg) (t : ht_test) (size : Z) : result (ht_test * Z) :=
  match args with
  | KW_TEST :: a :: args' => bind (parse_test a) (fun t' => parse_keywords args' t' size)
  | KW_SIZE :: a :: args' => bind (parse_size a) (fun size' => parse_keywords args' t size')
  | _ :: _ :: args' => parse_keywords args' t size
  | _ => Ok (t, size)
  end.

Definition bi_make_hash_table (args : list ht_arg) : result (CL_Hashtable K V) :=
  bind (parse_keywords args CL_HT_TEST_EQL CL_HT_DEFAULT_BUCKETS)
       (fun '(t, size) => cl_make_hashtable size t).

(** [%MAKE-SYNC-HASH-TABLE], whose argument must be a symbol. *)
Definition bi_make_sync_hash_table (arg : ht_arg) : result (CL_Hashtable K V) :=
  bind (match arg with SymbolArg _ => parse_test arg | _ => Err CL_ERR_ARGS end) (fun t =>
  bind (cl_make_hashtable CL_HT_DEFAULT_BUCKETS t) (fun ht =>
  Ok {| test := test ht; count := count ht; bucket_count := bucket_count ht; sync := true;
        buckets := buckets ht |})).

End Operations.

(** ** The table as a finite map *)

Definition entries {K V} (ht : CL_Hashtable K V) : list (K * V) := concat (buckets ht).

Definition ht_find {K V} `{KeyOps K} (ht : CL_Hashtable K V) (key : K) : option V :=
  chain_find (test ht) key (bucket_of ht key).

(** No two entries have equal keys. *)
Definition distinct {K V} `{KeyOps K} (t : ht_test) (es : list (K * V)) : Prop :=
  ForallOrdPairs (fun e e' => keys_equal e.1 e'.1 t = false) es.

(** Every entry sits in the bucket of its key. *)
Definition placed {K V} `{KeyOps K} (t : ht_test) (n : Z) (bs : list (list (K * V))) : Prop :=
  forall i c, bs !! i = Some c -> Forall (fun e => bucket_index t n e.1 = i) c.

(** The invariant of a table with test [t] and keys in [ok]: a power-of-two
    bucket array, entries in their places, no key twice, and an exact count. *)
Record ht_wf {K V} `{KeyOps K} (t : ht_test) (ok : K -> Prop) (ht : CL_Hashtable K V)
  : Prop := {
  wf_test : test ht = t;
  wf_size : exists j, 1 <= j <= 20 /\ bucket_count ht = 2 ^ j;
  wf_length : Z.of_nat (length (buckets ht)) = bucket_count ht;
  wf_placed : placed t (bucket_count ht) (buckets ht);
  wf_keys : Forall (fun e => ok e.1) (entries ht);
  wf_distinct : distinct t (entries ht);
  wf_count : count ht = Z.of_nat (length (entries ht)) }.

(** ** Threads

    Threads that share a synchronized table run its operations between its
    lock's acquisitions and releases; an insertion alone has work to do before
    it takes the lock, on a table that may change until it does.  [pending]
    holds what each thread has prepared.  A plain table has one owner, so its
    insertion is one step. *)

Record ht_sys {K V : Type} := {
  table : CL_Hashtable K V;
  pending : gmap nat (option Z * K * V) }.
Arguments ht_sys : clear implicits.

Inductive ht_event {K V : Type} : Type :=
| Put (key : K) (value : V) | Rem (key : K) | Clr.
Arguments ht_event : clear implicits.

(** The list of the events of a step: none or one. *)
Inductive sys_step {K V} `{KeyOps K} : ht_sys K V -> list (ht_event K V) -> ht_sys K V -> Prop :=
| step_put s mt alloc key value :
    sync (table s) && mt = false ->
    sys_step s [Put key value]
      {| table := bi_setf_gethash mt alloc key (table s) value; pending := pending s |}
| step_prepare s tid (alloc : bool) key value :
    sync (table s) = true -> pending s !! tid = None ->
    sys_step s []
      {| table := table s;
         pending := <[tid := (if alloc then setf_gethash_prepare (table s) else None, key, value)]>
                      (pending s) |}
| step_commit s tid pre key value :
    pending s !! tid = Some (pre, key, value) ->
    sys_step s [Put key value]
      {| table := setf_gethash_commit pre (table s) key value;
         pending := delete tid (pending s) |}
| step_rem s key :
    sys_step s [Rem key] {| table := (bi_remhash key (table s)).2; pending := pending s |}
| step_clr s :
    sys_step s [Clr] {| table := bi_clrhash (table s); pending := pending s |}.

(** Runs, with the events so far, the latest first. *)
Inductive sys_run {K V} `{KeyOps K} (s0 : ht_sys K V) : list (ht_event K V) -> ht_sys K V -> Prop :=
| run_nil : sys_run s0 [] s0
| run_step evs s ev s' : sys_run s0 evs s -> sys_step s ev s' -> sys_run s0 (ev ++ evs) s'.

(** The map the events describe. *)
Fixpoint map_of {K V} `{KeyOps K} (t : ht_test) (evs : list (ht_event K V)) (k : K) : option V :=
  match evs with
  | [] => None
  | Put key value :: evs' => if keys_equal key k t then Some value else map_of t evs' k
  | Rem key :: evs' => if keys_equal key k t then None else map_of t evs' k
  | Clr :: _ => None
  end.

Definition event_ok {K V} (ok : K -> Prop) (ev : ht_event K V) : Prop :=
  match ev with Put key _ | Rem key => ok key | Clr => True end.

(** What the compactor guarantees of the objects it moves: equality survives,
    and a key it calls insensitive hashes as before. *)
Class MoveLaws (K : Type) `{KeyOps K} (t : ht_test) (ok : K -> Prop) (move : K -> K)
    (ok' : K -> Prop) : Prop := {
  move_ok a : ok a -> ok' (move a);
  move_equal a b : ok a -> ok b -> keys_equal (move a) (move b) t = keys_equal a b t;
  move_hash a : ok a -> gc_key_addr_sensitive (move a) t = false ->
    hash_obj (move a) t = hash_obj a t }.

(** ** Lists of entries *)

Lemma ForallOrdPairs_app {A} (R : A -> A -> Prop) l1 l2 :
  ForallOrdPairs R (l1 ++ l2) <->
  ForallOrdPairs R l1 /\ ForallOrdPairs R l2 /\ Forall (fun x => Forall (R x) l2) l1.
Proof.
  induction l1 as [|x l1 IH]; cbn.
  - split; [intros H; repeat split; trivial; constructor | tauto].
  - split.
    + intros H. inversion H as [|? ? Hx Hl]; subst. apply IH in Hl as (H1 & H2 & H3).
      apply Forall_app in Hx as [Ha Hb]. repeat split; [now constructor | trivial | now constructor].
    + intros (H1 & H2 & H3). inversion H1; subst. inversion H3; subst.
      constructor; [now apply Forall_app | apply IH; tauto].
Qed.

(** Distinctness and the entry of a key do not depend on the order. *)
Section Entries.
Context {K V : Type} {O : KeyOps K} (t : ht_test) (ok : K -> Prop) {L : KeyLaws K t ok}.
Implicit Types (es c : list (K * V)).

Abbreviation oks := (Forall (fun e : K * V => ok e.1)).

Lemma keys_equal_comm a b : ok a -> ok b -> keys_equal a b t = keys_equal b a t.
Proof.
  intros Ha Hb. destruct (keys_equal a b t) eqn:E.
  - symmetry. now apply (keys_equal_sym (t := t) (ok := ok)).
  - destruct (keys_equal b a t) eqn:F; [|trivial].
    apply (keys_equal_sym (t := t) (ok := ok)) in F; trivial. congruence.
Qed.

(** Equal keys answer every comparison alike. *)
Lemma keys_equal_subst (a b c : K) :
  ok a -> ok b -> ok c -> keys_equal a b t = true -> keys_equal c a t = keys_equal c b t.
Proof.
  intros Ha Hb Hc E. destruct (keys_equal c b t) eqn:F.
  - apply (keys_equal_trans (t := t) (ok := ok) c b a); trivial.
    now apply (keys_equal_sym (t := t) (ok := ok)).
  - destruct (keys_equal c a t) eqn:G; [|trivial].
    rewrite <- F. symmetry. now apply (keys_equal_trans (t := t) (ok := ok) c a b).
Qed.

Lemma distinct_perm es es' : es ≡ₚ es' -> oks es -> distinct t es -> distinct t es'.
Proof.
  unfold distinct. induction 1 as [|e l l' P IH|x y l|l1 l2 l3 P1 IH1 P2 IH2]; intros Hok H.
  - trivial.
  - inversion Hok; subst. inversion H; subst. constructor; [now rewrite <- P | auto].
  - inversion Hok as [|? ? Hx Hok']; subst. inversion Hok'; subst.
    inversion H as [|? ? Hy Hl]; subst. inversion Hl; subst. inversion Hy; subst.
    constructor; [constructor|constructor]; trivial.
    now rewrite keys_equal_comm.
  - apply IH2; [now rewrite <- P1 | auto].
Qed.

(** In a list without equal keys, the first entry found is the entry. *)
Lemma chain_find_spec es key v :
  oks es -> ok key -> distinct t es ->
  chain_find t key es = Some v <-> exists k, (k, v) ∈ es /\ keys_equal k key t = true.
Proof.
  intros Hok Hk. induction es as [|[k0 v0] es IH]; intros Hd; cbn.
  - split; [discriminate | now intros (k & H%elem_of_nil & _)].
  - inversion Hok as [|? ? Hk0 Hes]; subst. inversion Hd as [|? ? Hd0 Hds]; subst. cbn in *.
    destruct (keys_equal k0 key t) eqn:E.
    + split.
      * intros [= ->]. exists k0. split; [left | trivial].
      * intros (k & [Heq|Hin]%elem_of_cons & Hkk); [congruence|]. exfalso.
        rewrite Forall_forall in Hd0, Hes. specialize (Hd0 _ Hin). specialize (Hes _ Hin).
        cbn in *. rewrite (keys_equal_comm k0 k), <- Hd0 in * by trivial.
        rewrite (keys_equal_subst k0 key k) in Hd0 by trivial. congruence.
    + rewrite IH by trivial. split.
      * intros (k & Hin & Hkk). exists k. split; [now right | trivial].
      * intros (k & [Heq|Hin]%elem_of_cons & Hkk); [congruence|]. now exists k.
Qed.

Lemma chain_find_perm es es' key :
  es ≡ₚ es' -> oks es -> ok key -> distinct t es -> chain_find t key es = chain_find t key es'.
Proof.
  intros P Hok Hk Hd. apply option_eq. intros v.
  rewrite !chain_find_spec; [now setoid_rewrite P| | | | | |]; trivial.
  - now rewrite <- P.
  - now apply distinct_perm with es.
Qed.

Lemma chain_update_spec key value c :
  match chain_update t key value c with
  | Some c' => exists l1 k v l2, c = l1 ++ (k, v) :: l2 /\ c' = l1 ++ (k, value) :: l2 /\
                 keys_equal k key t = true
  | None => Forall (fun e : K * V => keys_equal e.1 key t = false) c
  end.
Proof.
  induction c as [|[k v] c IH]; cbn; [constructor|].
  destruct (keys_equal k key t) eqn:E; cbn.
  - now exists [], k, v, c.
  - destruct (chain_update t key value c) as [c'|]; cbn.
    + destruct IH as (l1 & k' & v' & l2 & -> & -> & H). now exists ((k, v) :: l1), k', v', l2.
    + now constructor.
Qed.

Lemma chain_remove_spec key c :
  match chain_remove t key c with
  | Some c' => exists l1 k v l2, c = l1 ++ (k, v) :: l2 /\ c' = l1 ++ l2 /\
                 keys_equal k key t = true
  | None => Forall (fun e : K * V => keys_equal e.1 key t = false) c
  end.
Proof.
  induction c as [|[k v] c IH]; cbn; [constructor|].
  destruct (keys_equal k key t) eqn:E; cbn.
  - now exists [], k, v, c.
  - destruct (chain_remove t key c) as [c'|]; cbn.
    + destruct IH as (l1 & k' & v' & l2 & -> & -> & H). now exists ((k, v) :: l1), k', v', l2.
    + now constructor.
Qed.

Lemma chain_find_None es key :
  chain_find t key es = None <-> Forall (fun e : K * V => keys_equal e.1 key t = false) es.
Proof.
  induction es as [|[k v] es IH]; cbn; [easy|].
  destruct (keys_equal k key t) eqn:E; rewrite Forall_cons; cbn; [|tauto].
  rewrite E. split; [discriminate | now intros []].
Qed.

End Entries.
(** ** Bucket arrays *)

Lemma fold_left_concat {A B} (f : B -> A -> B) (ls : list (list A)) (b : B) :
  fold_left (fun b l => fold_left f l b) ls b = fold_left f (concat ls) b.
Proof. revert b. induction ls as [|l ls IH]; intros b; cbn; [trivial | now rewrite fold_left_app]. Qed.

Lemma fold_left_cons {A} (l acc : list A) : fold_left (fun r x => x :: r) l acc = rev l ++ acc.
Proof. revert acc. induction l as [|x l IH]; intros acc; cbn; [trivial | now rewrite IH, <- app_assoc]. Qed.

Lemma existsb_concat {A} (p : A -> bool) ls : existsb (existsb p) ls = existsb p (concat ls).
Proof. induction ls as [|l ls IH]; cbn; [trivial | now rewrite existsb_app, IH]. Qed.

Lemma concat_repeat_nil {A} n : concat (repeat (@nil A) n) = [].
Proof. induction n; cbn; trivial. Qed.

(** One bucket of an array, and the array with that bucket replaced. *)
Lemma bucket_split {A} (bs : list A) i c :
  bs !! i = Some c ->
  exists b1 b2, bs = b1 ++ c :: b2 /\ length b1 = i /\ forall c', <[i := c']> bs = b1 ++ c' :: b2.
Proof.
  intros H. exists (take i bs), (drop (S i) bs).
  pose proof (lookup_lt_Some _ _ _ H) as Hlt. repeat split.
  - symmetry. now apply take_drop_middle.
  - rewrite length_take. lia.
  - intros c'. now apply insert_take_drop.
Qed.

Section Buckets.
Context {K V : Type} {O : KeyOps K} (t : ht_test).
Implicit Types (bs : list (list (K * V))) (e : K * V) (es : list (K * V)).

Definition pow2 (n : Z) : Prop := exists j, 1 <= j <= 20 /\ n = 2 ^ j.

Lemma pow2_range n : pow2 n -> 2 <= n <= 1048576.
Proof.
  intros (j & Hj & ->). split.
  - change 2 with (2 ^ 1) at 1. apply Z.pow_le_mono_r; lia.
  - change 1048576 with (2 ^ 20). apply Z.pow_le_mono_r; lia.
Qed.

Lemma pow2_double n : pow2 n -> n * 2 <= 1048576 -> pow2 (n * 2).
Proof.
  intros (j & Hj & ->) H. exists (j + 1). replace (2 ^ j * 2) with (2 ^ (j + 1)) in *
    by (rewrite Z.pow_add_r; lia).
  split; [|trivial]. split; [lia|]. apply (Z.pow_le_mono_r_iff 2); lia.
Qed.

Lemma bucket_index_lt n (key : K) : pow2 n -> (bucket_index t n key < Z.to_nat n)%nat.
Proof.
  intros (j & Hj & ->). unfold bucket_index. rewrite land_mask by lia.
  assert (0 < 2 ^ j) by (apply Z.pow_pos_nonneg; lia).
  pose proof (Z.mod_pos_bound (hash_obj key t) (2 ^ j)). lia.
Qed.

Lemma placed_nil n k : placed t n (repeat (@nil (K * V)) k).
Proof.
  intros i c H. assert (c = []) as ->; [|constructor].
  apply list_elem_of_lookup_2 in H. apply list_elem_of_In, repeat_spec in H. exact H.
Qed.

Lemma placed_replace n bs i c c' :
  placed t n bs -> bs !! i = Some c -> c' ⊆ c \/ Forall (fun e => bucket_index t n e.1 = i) c' ->
  placed t n (<[i := c']> bs).
Proof.
  intros Hp Hi Hc j d Hj. apply list_lookup_insert_Some in Hj as [(<- & <- & _)|[_ Hj]];
    [|now apply Hp].
  destruct Hc as [Hc|Hc]; [|trivial].
  specialize (Hp _ _ Hi). rewrite Forall_forall in *. auto.
Qed.

Lemma splice_spec n bs e :
  pow2 n -> Z.of_nat (length bs) = n -> placed t n bs ->
  Z.of_nat (length (splice t n bs e)) = n /\ placed t n (splice t n bs e) /\
  concat (splice t n bs e) ≡ₚ e :: concat bs.
Proof.
  intros Hn Hlen Hp. unfold splice. set (i := bucket_index t n e.1).
  assert (Hi : (i < length bs)%nat) by (pose proof (bucket_index_lt n e.1 Hn); lia).
  apply lookup_lt_is_Some in Hi as [c Hc].
  destruct (bucket_split _ _ _ Hc) as (b1 & b2 & Hbs & Hl & Hins).
  assert (Ha : alter (cons e) i bs = <[i := e :: c]> bs)
    by (apply list_eq; intros j; destruct (decide (i = j)) as [<-|];
        [rewrite list_lookup_alter_eq, Hc, list_lookup_insert_eq by (now apply lookup_lt_Some in Hc)
        | rewrite list_lookup_alter_ne, list_lookup_insert_ne by trivial]; trivial).
  rewrite Ha. split; [now rewrite length_insert|]. split.
  - apply placed_replace with c; trivial. right. constructor; [trivial | now apply Hp].
  - rewrite Hins, Hbs, !concat_app. cbn. now rewrite <- Permutation_middle.
Qed.

Lemma fold_splice_spec n es bs :
  pow2 n -> Z.of_nat (length bs) = n -> placed t n bs ->
  Z.of_nat (length (fold_left (splice t n) es bs)) = n /\
  placed t n (fold_left (splice t n) es bs) /\
  concat (fold_left (splice t n) es bs) ≡ₚ es ++ concat bs.
Proof.
  intros Hn. revert bs. induction es as [|e es IH]; intros bs Hl Hp; cbn; [auto|].
  destruct (splice_spec n bs e Hn Hl Hp) as (Hl' & Hp' & Hc').
  destruct (IH _ Hl' Hp') as (H1 & H2 & H3). repeat split; trivial.
  rewrite H3, Hc'. symmetry. apply Permutation_middle.
Qed.

(** A fresh vector filled from a list of entries. *)
Lemma fill_spec n es (bs := fold_left (splice t n) es (repeat [] (Z.to_nat n))) :
  pow2 n -> Z.of_nat (length bs) = n /\ placed t n bs /\ concat bs ≡ₚ es.
Proof.
  intros Hn. pose proof (pow2_range n Hn).
  destruct (fold_splice_spec n es (repeat [] (Z.to_nat n))) as (H1 & H2 & H3); trivial.
  - rewrite repeat_length. lia.
  - apply placed_nil.
  - rewrite concat_repeat_nil, app_nil_r in H3. auto.
Qed.

Lemma relink_spec n bs :
  pow2 n -> Z.of_nat (length (relink t n bs)) = n /\ placed t n (relink t n bs) /\
  concat (relink t n bs) ≡ₚ concat bs.
Proof. intros Hn. unfold relink. rewrite fold_left_concat. now apply fill_spec. Qed.

End Buckets.
(** ** The operations on well-formed tables *)

Section Tables.
Context {K V : Type} {O : KeyOps K} (t : ht_test) (ok : K -> Prop) {L : KeyLaws K t ok}.
Implicit Types (ht : CL_Hashtable K V) (key k : K) (value v : V) (es c : list (K * V)).

Abbreviation wf := (ht_wf t ok).
Abbreviation oks := (Forall (fun e : K * V => ok e.1)).
Abbreviation differ key := (Forall (fun e : K * V => keys_equal e.1 key t = false)).

Lemma chain_find_app key es es' :
  chain_find t key (es ++ es') =
  match chain_find t key es with Some v => Some v | None => chain_find t key es' end.
Proof.
  induction es as [|e es IH]; cbn; [trivial|]. now destruct (keys_equal e.1 key t).
Qed.

Lemma wf_bucket_count ht : wf ht -> 2 <= bucket_count ht <= 1048576.
Proof. intros H. apply pow2_range. exact (wf_size _ _ _ H). Qed.

(** The bucket of a key; the keys of the others differ from it. *)
Lemma wf_split ht key (i := bucket_index t (bucket_count ht) key) :
  wf ht -> ok key ->
  exists b1 c b2, buckets ht = b1 ++ c :: b2 /\ bucket_of ht key = c /\
    buckets ht !! i = Some c /\ (forall c', <[i := c']> (buckets ht) = b1 ++ c' :: b2) /\
    differ key (concat b1) /\ differ key (concat b2).
Proof.
  intros H Hk.
  assert (Hi : (i < length (buckets ht))%nat).
  { pose proof (bucket_index_lt t _ key (wf_size _ _ _ H)). pose proof (wf_length _ _ _ H). lia. }
  apply lookup_lt_is_Some in Hi as [c Hc].
  destruct (bucket_split _ _ _ Hc) as (b1 & b2 & Hbs & Hl & Hins).
  assert (Hdiff : forall j d, buckets ht !! j = Some d -> j <> i -> differ key d).
  { intros j d Hj Hne. pose proof (wf_placed _ _ _ H _ _ Hj) as Hp.
    pose proof (wf_keys _ _ _ H) as Ho. rewrite Forall_forall in *. intros e He.
    destruct (keys_equal e.1 key t) eqn:E; [|trivial]. exfalso. apply Hne.
    rewrite <- (Hp e He). unfold i, bucket_index. f_equal. f_equal.
    apply (keys_equal_hash (t := t) (ok := ok)); trivial. apply Ho.
    apply list_elem_of_In, in_concat. exists d.
    split; [now apply list_elem_of_In, list_elem_of_lookup_2 with j | now apply list_elem_of_In]. }
  exists b1, c, b2. repeat split; trivial.
  - unfold bucket_of. rewrite (wf_test _ _ _ H). now apply list_lookup_total_correct.
  - apply Forall_concat, Forall_lookup. intros j d Hj.
    pose proof (lookup_lt_Some _ _ _ Hj).
    apply Hdiff with j; [rewrite Hbs, lookup_app_l; trivial | lia].
  - apply Forall_concat, Forall_lookup. intros j d Hj.
    apply Hdiff with (length b1 + S j)%nat; [|lia].
    rewrite Hbs, lookup_app_r by lia. now replace (length b1 + S j - length b1)%nat with (S j) by lia.
Qed.

(** Looking in one bucket is looking among all entries. *)
Lemma ht_find_entries ht key : wf ht -> ok key -> ht_find ht key = chain_find t key (entries ht).
Proof.
  intros H Hk. destruct (wf_split ht key H Hk) as (b1 & c & b2 & Hbs & Hc & _ & _ & H1 & H2).
  unfold ht_find, entries. rewrite Hc, Hbs, (wf_test _ _ _ H), concat_app. cbn [concat].
  rewrite !chain_find_app.
  apply (proj2 (chain_find_None t _ key)) in H1, H2. rewrite H1, H2.
  now destruct (chain_find t key c).
Qed.

(** Any array holding the same entries in their places is the same map. *)
Lemma wf_rearranged ht cnt n sy bs :
  wf ht -> pow2 n -> Z.of_nat (length bs) = n -> placed t n bs -> concat bs ≡ₚ entries ht ->
  cnt = count ht ->
  let ht' := {| test := t; count := cnt; bucket_count := n; sync := sy; buckets := bs |} in
  wf ht' /\ forall k, ok k -> ht_find ht' k = ht_find ht k.
Proof.
  intros H Hn Hl Hp Hc -> ht'.
  assert (H' : wf ht').
  { constructor; cbn; trivial; unfold entries; cbn.
    - rewrite Hc. exact (wf_keys _ _ _ H).
    - apply (distinct_perm t ok (entries ht)); [now symmetry | apply H | apply H].
    - rewrite Hc. apply H. }
  split; [trivial|]. intros k Hk. rewrite !ht_find_entries by trivial.
  apply (chain_find_perm t ok); trivial; apply H'.
Qed.

Lemma ht_rehash_into_spec ht n :
  wf ht -> pow2 n ->
  wf (ht_rehash_into ht n) /\ forall k, ok k -> ht_find (ht_rehash_into ht n) k = ht_find ht k.
Proof.
  intros H Hn. unfold ht_rehash_into. rewrite (wf_test _ _ _ H).
  destruct (relink_spec t n (buckets ht) Hn) as (H1 & H2 & H3).
  now apply wf_rearranged.
Qed.

Lemma ht_maybe_rehash_spec alloc ht :
  wf ht ->
  wf (ht_maybe_rehash alloc ht) /\
  forall k, ok k -> ht_find (ht_maybe_rehash alloc ht) k = ht_find ht k.
Proof.
  intros H. pose proof (wf_bucket_count ht H). unfold ht_maybe_rehash, CL_HT_MAX_BUCKETS.
  destruct (_ <=? _); [easy|]. rewrite u32_small by lia.
  destruct (Z.gtb_spec (bucket_count ht * 2) 1048576); [easy|].
  destruct (negb alloc); [easy|]. apply ht_rehash_into_spec; trivial.
  apply pow2_double; [apply H | trivial].
Qed.

(** The entries with one value replaced, and with one entry left out. *)
Lemma replace_entry es E1 E2 k0 v0 key value (es' := E1 ++ (k0, value) :: E2) :
  es = E1 ++ (k0, v0) :: E2 -> oks es -> distinct t es -> ok key -> keys_equal k0 key t = true ->
  oks es' /\ distinct t es' /\ chain_find t key es = Some v0 /\
  forall k, ok k -> chain_find t k es' = if keys_equal key k t then Some value
                                       else chain_find t k es.
Proof.
  intros E Ho Hd Hk Hk0.
  assert (P : es ≡ₚ (k0, v0) :: E1 ++ E2) by (rewrite E; now rewrite <- Permutation_middle).
  assert (P' : es' ≡ₚ (k0, value) :: E1 ++ E2) by (unfold es'; now rewrite <- Permutation_middle).
  pose proof (distinct_perm t ok _ _ P Ho Hd) as Hd2.
  assert (Ho2 := Ho). rewrite P, Forall_cons in Ho2. destruct Ho2 as [Hok0 Ho2].
  assert (Ho' : oks es') by (rewrite P'; now constructor).
  assert (Hd' : distinct t es').
  { apply (distinct_perm t ok ((k0, value) :: E1 ++ E2)); [now symmetry | now constructor |].
    inversion Hd2; subst; now constructor. }
  split; [trivial|]. split; [trivial|]. split.
  { apply (chain_find_spec t ok); trivial. exists k0. split; [rewrite P; left | trivial]. }
  intros k Hkk. rewrite (chain_find_perm t ok _ _ k P'), (chain_find_perm t ok _ _ k P) by trivial.
  cbn. rewrite (keys_equal_comm t ok key k), <- (keys_equal_subst t ok k0 key k),
    (keys_equal_comm t ok k k0) by trivial.
  now destruct (keys_equal k0 k t).
Qed.

Lemma remove_entry es E1 E2 k0 v0 key :
  es = E1 ++ (k0, v0) :: E2 -> oks es -> distinct t es -> ok key -> keys_equal k0 key t = true ->
  oks (E1 ++ E2) /\ distinct t (E1 ++ E2) /\ chain_find t key es = Some v0 /\
  forall k, ok k -> chain_find t k (E1 ++ E2) = if keys_equal key k t then None
                                       else chain_find t k es.
Proof.
  intros E Ho Hd Hk Hk0.
  assert (P : es ≡ₚ (k0, v0) :: E1 ++ E2) by (rewrite E; now rewrite <- Permutation_middle).
  pose proof (distinct_perm t ok _ _ P Ho Hd) as Hd2. inversion Hd2 as [|? ? Hne Hd']; subst.
  assert (Ho2 := Ho). rewrite P, Forall_cons in Ho2. destruct Ho2 as [Hok0 Ho2].
  split; [trivial|]. split; [trivial|]. split.
  { apply (chain_find_spec t ok); trivial. exists k0. split; [rewrite P; left | trivial]. }
  intros k Hkk. rewrite (chain_find_perm t ok _ _ k P) by trivial. cbn in *.
  rewrite (keys_equal_comm t ok key k), <- (keys_equal_subst t ok k0 key k),
    (keys_equal_comm t ok k k0) by trivial.
  destruct (keys_equal k0 k t) eqn:F; [|trivial]. apply chain_find_None.
  rewrite Forall_forall in Hne, Ho2 |- *. intros e He. specialize (Hne e He). specialize (Ho2 e He).
  rewrite <- Hne, (keys_equal_comm t ok k0) by trivial. symmetry.
  now apply (keys_equal_subst t ok).
Qed.

Lemma wf_set_buckets ht cnt bs :
  wf ht -> length bs = length (buckets ht) -> placed t (bucket_count ht) bs ->
  oks (concat bs) -> distinct t (concat bs) -> cnt = Z.of_nat (length (concat bs)) ->
  wf (set_buckets cnt bs ht).
Proof. intros H Hl Hp Ho Hd Hc. constructor; cbn; trivial; [..|rewrite Hl]; apply H. Qed.

Lemma ht_maybe_rehash_count alloc ht : count (ht_maybe_rehash alloc ht) = count ht.
Proof. unfold ht_maybe_rehash. now repeat case_match. Qed.

Lemma ht_update_spec ht key value :
  wf ht -> ok key ->
  match ht_update ht key value with
  | Some ht' =>
      wf ht' /\ (exists v, ht_find ht key = Some v) /\ length (entries ht') = length (entries ht) /\
      (forall k, ok k -> ht_find ht' k = if keys_equal key k t then Some value else ht_find ht k)
  | None => differ key (entries ht)
  end.
Proof.
  intros H Hk. destruct (wf_split ht key H Hk) as (b1 & c & b2 & Hbs & Hc & Hi & Hins & H1 & H2).
  unfold ht_update. rewrite (wf_test _ _ _ H), Hc.
  pose proof (chain_update_spec t key value c) as Hu.
  destruct (chain_update t key value c) as [c'|].
  2: { unfold entries. rewrite Hbs, concat_app. cbn. now rewrite !Forall_app. }
  destruct Hu as (l1 & k0 & v0 & l2 & Ec & Ec' & Hk0).
  pose proof (replace_entry (entries ht) (concat b1 ++ l1) (l2 ++ concat b2) k0 v0 key value) as R.
  destruct R as (Ro & Rd & Rf & Rk); [| apply H | apply H | trivial | trivial |].
  { unfold entries. rewrite Hbs, concat_app. cbn. now rewrite Ec, <- !app_assoc. }
  set (ht' := set_buckets _ _ _).
  assert (HE : entries ht' = (concat b1 ++ l1) ++ (k0, value) :: l2 ++ concat b2)
    by (unfold entries; cbn; rewrite Hins, concat_app; cbn; now rewrite Ec', <- !app_assoc).
  rewrite <- HE in Ro, Rd, Rk.
  assert (Hlen : length (entries ht') = length (entries ht))
    by (rewrite HE; unfold entries; rewrite Hbs, concat_app; cbn; rewrite Ec;
        rewrite !length_app; cbn; rewrite !length_app; cbn; lia).
  assert (H' : wf ht').
  { apply wf_set_buckets; trivial; [apply length_insert| |].
    - apply placed_replace with c; trivial; [apply H|]. right.
      pose proof (wf_placed _ _ _ H _ _ Hi) as Hp. rewrite Ec, Forall_app, Forall_cons in Hp.
      rewrite Ec', Forall_app, Forall_cons. exact Hp.
    - rewrite (wf_count _ _ _ H). now f_equal. }
  split; [exact H'|]. rewrite !ht_find_entries by trivial. split; [now exists v0|].
  split; [trivial|]. intros k Hkk. rewrite !ht_find_entries by trivial. now apply Rk.
Qed.

Lemma differ_find es key k :
  differ key es -> oks es -> ok key -> ok k -> keys_equal key k t = true ->
  chain_find t k es = None.
Proof.
  intros N Ho Hk Hkk F. apply chain_find_None.
  rewrite Forall_forall in N, Ho |- *. intros e He. specialize (N e He). specialize (Ho e He).
  rewrite <- N. symmetry. now apply (keys_equal_subst t ok).
Qed.

Lemma bi_remhash_spec ht key (r := bi_remhash key ht) :
  wf ht -> ok key -> count ht < 2 ^ 32 ->
  wf r.2 /\ (r.1 = true <-> exists v, ht_find ht key = Some v) /\
  (forall k, ok k -> ht_find r.2 k = if keys_equal key k t then None else ht_find ht k) /\
  count r.2 = count ht - Zb r.1.
Proof.
  intros H Hk Hcnt.
  destruct (wf_split ht key H Hk) as (b1 & c & b2 & Hbs & Hc & Hi & Hins & H1 & H2).
  assert (HE : entries ht = concat b1 ++ c ++ concat b2)
    by (unfold entries; now rewrite Hbs, concat_app).
  unfold r, bi_remhash. rewrite (wf_test _ _ _ H), Hc.
  pose proof (chain_remove_spec t key c) as Hu.
  destruct (chain_remove t key c) as [c'|]; cbn [fst snd Zb].
  2: { assert (N : differ key (entries ht)) by (rewrite HE; now rewrite !Forall_app).
       split; [trivial|]. split; [|split; [|lia]].
       - split; [discriminate|]. intros [v Hv]. rewrite ht_find_entries in Hv by trivial.
         apply chain_find_None in N. congruence.
       - intros k Hkk. destruct (keys_equal key k t) eqn:F; [|trivial].
         rewrite ht_find_entries by trivial. apply (differ_find _ key); trivial. apply H. }
  destruct Hu as (l1 & k0 & v0 & l2 & Ec & Ec' & Hk0).
  destruct (remove_entry (entries ht) (concat b1 ++ l1) (l2 ++ concat b2) k0 v0 key)
    as (Ro & Rd & Rf & Rk); [| apply H | apply H | trivial | trivial |].
  { now rewrite HE, Ec, <- !app_assoc. }
  set (ht' := set_buckets _ _ _).
  assert (HE' : entries ht' = (concat b1 ++ l1) ++ l2 ++ concat b2)
    by (unfold entries; cbn; rewrite Hins, concat_app; cbn; now rewrite Ec', <- !app_assoc).
  rewrite <- HE' in Ro, Rd, Rk.
  assert (Hlen : Z.of_nat (length (entries ht')) = count ht - 1)
    by (rewrite (wf_count _ _ _ H), HE', HE, Ec, !length_app; cbn; rewrite ?length_app; lia).
  assert (Hcnt' : count ht' = count ht - 1) by (cbn; apply u32_small; lia).
  assert (H' : wf ht').
  { apply wf_set_buckets; trivial; [apply length_insert| |].
    - apply placed_replace with c; trivial; [apply H|]. left. rewrite Ec, Ec'.
      intros x. rewrite !elem_of_app, elem_of_cons. tauto.
    - cbn in Hcnt'. now rewrite Hcnt', <- Hlen. }
  split; [exact H'|]. rewrite ht_find_entries by trivial.
  split; [split; [now exists v0 | trivial]|].
  split; [|trivial]. intros k Hkk. rewrite !ht_find_entries by trivial. now apply Rk.
Qed.

Lemma ht_add_spec ht key value :
  wf ht -> ok key -> differ key (entries ht) -> count ht + 1 < 2 ^ 32 ->
  wf (ht_add ht key value) /\ count (ht_add ht key value) = count ht + 1 /\
  forall k, ok k ->
    ht_find (ht_add ht key value) k = if keys_equal key k t then Some value else ht_find ht k.
Proof.
  intros H Hk N Hcnt. pose proof (wf_count _ _ _ H) as Hc0.
  assert (Hcnt' : u32 (count ht + 1) = count ht + 1) by (apply u32_small; lia).
  unfold ht_add. rewrite (wf_test _ _ _ H), Hcnt'.
  destruct (splice_spec t (bucket_count ht) (buckets ht) (key, value)) as (H1 & H2 & H3); [apply H..|].
  set (bs := splice _ _ _ _) in *. fold (entries ht) in H3.
  assert (Hd : distinct t ((key, value) :: entries ht)).
  { constructor; [|apply H]. pose proof (wf_keys _ _ _ H) as Ho.
    rewrite Forall_forall in N, Ho |- *. intros e He. cbn.
    rewrite (keys_equal_comm t ok) by (trivial; exact (Ho e He)). now apply N. }
  assert (Ho : oks ((key, value) :: entries ht)) by (constructor; [trivial | apply H]).
  assert (H' : wf (set_buckets (count ht + 1) bs ht)).
  { apply wf_set_buckets; trivial.
    - pose proof (wf_length _ _ _ H). lia.
    - now rewrite H3.
    - apply (distinct_perm t ok ((key, value) :: entries ht)); [now symmetry | trivial..].
    - rewrite H3. cbn. lia. }
  split; [trivial|]. split; [trivial|]. intros k Hkk. rewrite !ht_find_entries by trivial.
  rewrite (chain_find_perm t ok _ ((key, value) :: entries ht)); trivial; apply H'.
Qed.

(** Insertion on either path, whatever the outcome of the allocation and
    whatever vector was prepared in advance. *)
Lemma setf_gethash_commit_spec pre ht key value :
  wf ht -> ok key -> count ht + 1 < 2 ^ 32 ->
  (forall len, pre = Some len -> len <= CL_HT_MAX_BUCKETS) ->
  wf (setf_gethash_commit pre ht key value) /\
  count (setf_gethash_commit pre ht key value) <= count ht + 1 /\
  forall k, ok k -> ht_find (setf_gethash_commit pre ht key value) k =
                    if keys_equal key k t then Some value else ht_find ht k.
Proof.
  intros H Hk Hcnt Hpre. unfold setf_gethash_commit.
  pose proof (ht_update_spec ht key value H Hk) as Hu.
  destruct (ht_update ht key value) as [ht'|].
  { destruct Hu as (H' & _ & Hc & Hf). split; [trivial|]. split; [|trivial].
    rewrite (wf_count _ _ _ H), (wf_count _ _ _ H'). lia. }
  destruct (ht_add_spec ht key value H Hk Hu Hcnt) as (Ha & Hc & Hf).
  assert (Hle : count (ht_add ht key value) <= count ht + 1) by lia.
  destruct pre as [len|]; [|auto]. specialize (Hpre _ eq_refl). unfold CL_HT_MAX_BUCKETS in Hpre.
  case_match eqn:E; [|auto]. apply andb_prop in E as [_ E%Z.eqb_eq].
  pose proof (wf_bucket_count _ Ha). rewrite u32_small in E by lia.
  destruct (ht_rehash_into_spec _ len Ha) as [Hr Hrf].
  { subst len. apply pow2_double; [apply Ha | trivial]. }
  split; [trivial|]. split; [trivial|]. intros k Hkk. now rewrite Hrf, Hf.
Qed.

Lemma setf_gethash_prepare_bound ht len :
  setf_gethash_prepare ht = Some len -> len <= CL_HT_MAX_BUCKETS.
Proof. unfold setf_gethash_prepare. case_match eqn:E; [|easy]. intros [= <-]. lia. Qed.

Lemma bi_setf_gethash_spec mt alloc ht key value :
  wf ht -> ok key -> count ht + 1 < 2 ^ 32 ->
  wf (bi_setf_gethash mt alloc key ht value) /\
  count (bi_setf_gethash mt alloc key ht value) <= count ht + 1 /\
  forall k, ok k -> ht_find (bi_setf_gethash mt alloc key ht value) k =
                    if keys_equal key k t then Some value else ht_find ht k.
Proof.
  intros H Hk Hcnt. unfold bi_setf_gethash. case_match eqn:E.
  - unfold bi_setf_gethash_sync. apply setf_gethash_commit_spec; trivial.
    intros len. destruct alloc; [apply setf_gethash_prepare_bound | discriminate].
  - pose proof (ht_update_spec ht key value H Hk) as Hu.
    destruct (ht_update ht key value) as [ht'|].
    { destruct Hu as (H' & _ & Hc & Hf). split; [trivial|]. split; [|trivial].
      rewrite (wf_count _ _ _ H), (wf_count _ _ _ H'). lia. }
    destruct (ht_add_spec ht key value H Hk Hu Hcnt) as (Ha & Hc & Hf).
    destruct (ht_maybe_rehash_spec alloc _ Ha) as [Hr Hrf].
    split; [trivial|]. split; [rewrite ht_maybe_rehash_count; lia|]. intros k Hkk. now rewrite Hrf, Hf.
Qed.

Lemma bi_clrhash_spec ht :
  wf ht -> wf (bi_clrhash ht) /\ forall k, ok k -> ht_find (bi_clrhash ht) k = None.
Proof.
  intros H. pose proof (wf_length _ _ _ H).
  assert (H' : wf (bi_clrhash ht)).
  { apply wf_set_buckets; trivial; rewrite ?concat_repeat_nil.
    - rewrite repeat_length. lia.
    - apply placed_nil.
    - constructor.
    - constructor.
    - trivial. }
  split; [trivial|]. intros k Hk. rewrite ht_find_entries by trivial.
  unfold entries. cbn. now rewrite concat_repeat_nil.
Qed.

(** Without interference the locked path does what the plain one does. *)
Lemma sync_put_plain alloc ht key value :
  wf ht -> ok key -> count ht + 1 < 2 ^ 32 ->
  bi_setf_gethash_sync alloc ht key value =
  match ht_update ht key value with
  | Some ht' => ht'
  | None => ht_maybe_rehash alloc (ht_add ht key value)
  end.
Proof.
  intros H Hk Hcnt. unfold bi_setf_gethash_sync, setf_gethash_commit, setf_gethash_prepare.
  destruct (ht_update ht key value) as [ht'|]; [trivial|].
  pose proof (wf_bucket_count ht H). pose proof (wf_count _ _ _ H).
  unfold ht_maybe_rehash. cbn. rewrite (u32_small (count ht + 1)) by lia.
  rewrite (u32_small (bucket_count ht * 3)), (u32_small (bucket_count ht * 2)) by lia.
  destruct (Z.gtb_spec (count ht + 1) (bucket_count ht * 3 / 4)),
    (Z.leb_spec (count ht + 1) (bucket_count ht * 3 / 4)); try lia; cbn.
  - destruct (Z.leb_spec (bucket_count ht * 2) CL_HT_MAX_BUCKETS),
      (Z.gtb_spec (bucket_count ht * 2) CL_HT_MAX_BUCKETS); try lia; destruct alloc; cbn; trivial.
    now rewrite Z.eqb_refl.
  - now destruct alloc.
Qed.

(** At most three entries to four buckets, short of the maximum. *)
Definition ht_load ht : Prop :=
  count ht <= bucket_count ht * 3 / 4 \/ bucket_count ht = CL_HT_MAX_BUCKETS.

Lemma ht_maybe_rehash_load ht :
  wf ht -> count ht <= bucket_count ht * 3 / 4 + 1 \/ bucket_count ht = CL_HT_MAX_BUCKETS ->
  ht_load (ht_maybe_rehash true ht).
Proof.
  intros H Hl. pose proof (wf_bucket_count ht H). unfold ht_load, ht_maybe_rehash, CL_HT_MAX_BUCKETS in *.
  rewrite !u32_small by lia.
  destruct (Z.leb_spec (count ht) (bucket_count ht * 3 / 4)); [now left|].
  destruct (Z.gtb_spec (bucket_count ht * 2) 1048576); cbn.
  - right. destruct (wf_size _ _ _ H) as (j & Hj & E).
    destruct (Z.eq_dec j 20) as [->|]; [now rewrite E|].
    assert (2 ^ j <= 2 ^ 19) by (apply Z.pow_le_mono_r; lia).
    change (2 ^ 19) with 524288 in *. lia.
  - left. divmod. lia.
Qed.

(** ** Iteration *)

Lemma bi_maphash_entries {S} (f : K -> V -> S -> S) ht s :
  bi_maphash f ht s = fold_left (fun s e => f e.1 e.2 s) (entries ht) s.
Proof. apply (fold_left_concat (fun s (e : K * V) => f e.1 e.2 s)). Qed.

Lemma bi_hash_table_pairs_entries ht : bi_hash_table_pairs ht = rev (entries ht).
Proof.
  unfold bi_hash_table_pairs. rewrite fold_left_concat, fold_left_cons. apply app_nil_r.
Qed.

(** ** Comparison of two tables *)

(** Distinct keys that all occur among other keys are no more than those. *)
Lemma distinct_length es es' :
  oks es -> oks es' -> distinct t es ->
  Forall (fun e => exists e', e' ∈ es' /\ keys_equal e'.1 e.1 t = true) es ->
  (length es <= length es')%nat.
Proof.
  revert es'. induction es as [|e es IH]; intros es' Ho Ho' Hd Hin; cbn; [lia|].
  inversion Ho as [|? ? Hoe Hoes]; subst. inversion Hd as [|? ? Hde Hdes]; subst.
  inversion Hin as [|? ? (e' & He' & Heq) Hins]; subst.
  apply list_elem_of_split in He' as (l1 & l2 & ->).
  rewrite length_app. cbn. rewrite Nat.add_succ_r, <- length_app. apply le_n_S.
  rewrite Forall_app, Forall_cons in Ho'. destruct Ho' as (Ho1 & Hoe' & Ho2).
  apply IH; trivial; [now apply Forall_app|].
  rewrite Forall_forall in Hde, Hoes, Hins |- *. intros x Hx.
  destruct (Hins x Hx) as (x' & Hx' & Hxeq). exists x'. split; [|trivial].
  apply elem_of_app in Hx' as [?|[->|?]%elem_of_cons]; apply elem_of_app; auto. exfalso.
  specialize (Hde x Hx). specialize (Hoes x Hx). cbn in *.
  rewrite (keys_equal_comm t ok), <- (keys_equal_subst t ok e'.1) in Hde by trivial.
  rewrite (keys_equal_comm t ok) in Hde by trivial. congruence.
Qed.

End Tables.
(** ** Rebuilding after a move *)

Section Moving.
Context {K V : Type} {O : KeyOps K} (t : ht_test) (ok ok' : K -> Prop) (move : K -> K).
Context {L : KeyLaws K t ok} {L' : KeyLaws K t ok'} {M : MoveLaws K t ok move ok'}.
Implicit Types (ht : CL_Hashtable K V) (es : list (K * V)).

Definition moved (e : K * V) : K * V := (move e.1, e.2).

Lemma moved_entries ht : entries (move_keys move ht) = map moved (entries ht).
Proof. unfold entries. cbn. now rewrite concat_map. Qed.

Lemma moved_oks es :
  Forall (fun e => ok e.1) es -> Forall (fun e => ok' e.1) (map moved es).
Proof. intros H. apply Forall_map. apply (Forall_impl _ _ _ H). intros e. exact (move_ok e.1). Qed.

Lemma moved_distinct es :
  Forall (fun e => ok e.1) es -> distinct t es -> distinct t (map moved es).
Proof.
  induction es as [|e es IH]; cbn; intros Ho Hd; [constructor|].
  inversion Ho as [|? ? Hoe Hoes]; subst. inversion Hd as [|? ? Hde Hdes]; subst.
  constructor; [|now apply IH]. apply Forall_map.
  rewrite Forall_forall in Hde, Hoes |- *. intros x Hx. cbn.
  rewrite (move_equal (ok := ok)) by (trivial; exact (Hoes x Hx)). now apply Hde.
Qed.

Lemma moved_find es key :
  Forall (fun e => ok e.1) es -> ok key ->
  chain_find t (move key) (map moved es) = chain_find t key es.
Proof.
  intros Ho Hk. induction Ho as [|e es He Ho IH]; cbn; [trivial|].
  now rewrite (move_equal (ok := ok)), IH.
Qed.

(** Without a sensitive key, every cell is still in its place. *)
Lemma moved_placed ht :
  ht_wf t ok ht ->
  existsb (fun e => gc_key_addr_sensitive e.1 t) (map moved (entries ht)) = false ->
  placed t (bucket_count ht) (map (map moved) (buckets ht)).
Proof.
  intros H X i c Hc. rewrite list_lookup_fmap in Hc.
  destruct (buckets ht !! i) as [d|] eqn:Hi; [|discriminate]. injection Hc as <-.
  apply Forall_map. pose proof (wf_placed _ _ _ H _ _ Hi) as Hp.
  pose proof (wf_keys _ _ _ H) as Hk.
  rewrite Forall_forall in Hp, Hk |- *. intros e He. rewrite <- (Hp e He). cbn.
  assert (Hin : e ∈ entries ht).
  { apply list_elem_of_In, in_concat. exists d.
    split; apply list_elem_of_In; [now apply list_elem_of_lookup_2 with i | trivial]. }
  unfold bucket_index. rewrite (move_hash (ok := ok)); trivial; [now apply Hk|].
  rewrite <- not_true_iff_false, existsb_exists in X.
  apply not_true_iff_false. intros F. apply X. exists (moved e).
  split; [now apply in_map, list_elem_of_In | exact F].
Qed.

Lemma gc_rehash_table_spec ht (ht' := gc_rehash_table (move_keys move ht)) :
  ht_wf t ok ht ->
  ht_wf t ok' ht' /\ count ht' = count ht /\ entries ht' ≡ₚ map moved (entries ht).
Proof.
  intros H. pose proof (moved_entries ht) as E.
  pose proof (moved_oks _ (wf_keys _ _ _ H)) as Ho.
  pose proof (moved_distinct _ (wf_keys _ _ _ H) (wf_distinct _ _ _ H)) as Hd.
  unfold ht', gc_rehash_table. rewrite existsb_concat.
  fold (entries (move_keys move ht)). rewrite E.
  assert (Hlen : count ht = Z.of_nat (length (map moved (entries ht))))
    by (rewrite length_map; apply H).
  destruct (existsb _ _) eqn:X.
  - set (all := fold_left _ (buckets (move_keys move ht)) []).
    assert (Hall : all ≡ₚ map moved (entries ht)).
    { unfold all. rewrite fold_left_concat, fold_left_cons, app_nil_r, <- Permutation_rev.
      now rewrite <- E. }
    clearbody all. cbn [test bucket_count move_keys set_buckets]. rewrite (wf_test _ _ _ H).
    destruct (fill_spec t (bucket_count ht) all (wf_size _ _ _ H)) as (H1 & H2 & H3).
    set (bs := fold_left _ all _) in *.
    assert (Hb : concat bs ≡ₚ map moved (entries ht)) by now rewrite H3.
    split; [|now split]. constructor; cbn; trivial; try apply H; unfold entries; cbn.
    + now rewrite Hb.
    + apply (distinct_perm t ok' (map moved (entries ht))); [now symmetry | trivial..].
    + now rewrite Hb.
  - split; [|split; [trivial | now rewrite E]].
    constructor; rewrite ?E; cbn; trivial; try apply H.
    + rewrite length_map. apply H.
    + apply moved_placed; [trivial|]. cbn in X. now rewrite (wf_test _ _ _ H) in X.
Qed.

End Moving.
(** ** Fresh tables *)

Lemma round_up_spec fuel i n :
  0 <= i -> i + Z.of_nat fuel <= 21 -> 2 <= n <= 2 ^ (i + Z.of_nat fuel) -> n <= 2 ^ 20 ->
  i = 0 \/ 2 ^ i < 2 * n ->
  exists j, 1 <= j <= 20 /\ round_up fuel (2 ^ i) n = 2 ^ j /\ n <= 2 ^ j < 2 * n.
Proof.
  revert i. induction fuel as [|f IH]; intros i Hi Hf Hn Hmax Hlt.
  - change (Z.of_nat 0) with 0 in *. rewrite Z.add_0_r in *. cbn [round_up]. exists i.
    destruct (Z.eq_dec i 0) as [->|]; [cbn in Hn; lia|].
    assert (i <= 20); [|repeat split; lia].
    destruct Hlt as [|Hlt]; [lia|]. apply Z.lt_succ_r. apply (Z.pow_lt_mono_r_iff 2); try lia.
  - cbn [round_up]. destruct (Z.ltb_spec (2 ^ i) n).
    + assert (i < 20) by (apply (Z.pow_lt_mono_r_iff 2); lia).
      assert (2 ^ i <= 2 ^ 19) by (apply Z.pow_le_mono_r; lia).
      change (2 ^ 19) with 524288 in *.
      rewrite Z.shiftl_mul_pow2 by lia. change (2 ^ 1) with 2. rewrite u32_small by lia.
      replace (2 ^ i * 2) with (2 ^ (i + 1)) by (rewrite Z.pow_add_r; lia).
      apply IH; try lia.
      * now replace (i + 1 + Z.of_nat f) with (i + Z.of_nat (S f)) by lia.
      * right. rewrite Z.pow_add_r by lia. lia.
    + destruct (Z.eq_dec i 0) as [->|]; [cbn in *; lia|]. exists i.
      destruct Hlt as [|Hlt]; [lia|]. assert (i < 21); [|lia].
      apply (Z.pow_lt_mono_r_iff 2); lia.
Qed.

Section Fresh.
Context {K V : Type} {O : KeyOps K}.
Implicit Types (ht : CL_Hashtable K V).

(** A request within the maximum gives an empty table on the next power of
    two. *)
Lemma cl_make_hashtable_spec n t (ok : K -> Prop) :
  0 <= n <= CL_HT_MAX_BUCKETS ->
  exists ht, cl_make_hashtable n t = Ok ht /\ ht_wf t ok ht /\ count ht = 0 /\
    sync ht = false /\ entries ht = [] /\ Z.max 2 n <= bucket_count ht < 2 * Z.max 2 n.
Proof.
  unfold CL_HT_MAX_BUCKETS. intros Hn. unfold cl_make_hashtable, CL_HT_MAX_BUCKETS.
  destruct (Z.gtb_spec n 1048576); [lia|].
  replace (if n <? 2 then 2 else n) with (Z.max 2 n) by (destruct (Z.ltb_spec n 2); lia).
  destruct (round_up_spec 21 0 (Z.max 2 n)) as (j & Hj & E & Hb); try lia.
  change (2 ^ 0) with 1 in E. rewrite E.
  assert (0 < 2 ^ j) by (apply Z.pow_pos_nonneg; lia).
  eexists. split; [reflexivity|]. unfold entries. cbn. rewrite concat_repeat_nil.
  split; [|split; [trivial|split; [trivial|split; [trivial | exact Hb]]]].
  constructor; unfold entries; cbn; rewrite ?concat_repeat_nil; trivial; try constructor.
  - now exists j.
  - rewrite repeat_length. lia.
  - apply placed_nil.
Qed.

(** The bucket count asked for leaves room for the expected entries. *)
Lemma parse_size_spec r :
  0 <= r <= 1073741823 ->
  exists size, parse_size (FixnumArg r) = Ok size /\ 2 <= size <= CL_HT_MAX_BUCKETS /\
    forall b, size <= b <= CL_HT_MAX_BUCKETS -> Z.min r 786432 <= b * 3 / 4.
Proof.
  unfold CL_HT_MAX_BUCKETS. intros Hr. unfold parse_size, CL_HT_MAX_BUCKETS.
  destruct (Z.ltb_spec r 0); [lia|]. rewrite (u32_small r) by lia.
  set (q := if (if r <? 1 then 1 else r) >? 1048576 then 1048576 else if r <? 1 then 1 else r).
  assert (Hq : q = Z.min 1048576 (Z.max 1 r)) by 
    (unfold q; destruct (Z.ltb_spec r 1); [cbn | destruct (Z.gtb_spec r 1048576)]; lia).
  clearbody q.
  cbv zeta. rewrite (u32_small (q * 4)), (u32_small (q * 4 + 2)) by lia.
  eexists. split; [reflexivity|].
  destruct (Z.gtb_spec ((q * 4 + 2) / 3) 1048576) as [Hs|Hs].
  - split; [lia|]. intros b Hb. replace b with 1048576 by lia.
    change (1048576 * 3 / 4) with 786432. lia.
  - split; [divmod; lia|]. intros b Hb. divmod. lia.
Qed.

Lemma parse_size_bound a :
  match parse_size a with
  | Ok size => 0 <= size <= CL_HT_MAX_BUCKETS
  | Err e => e <> CL_ERR_STORAGE
  end.
Proof.
  unfold parse_size. destruct a; try discriminate. destruct (n <? 0); [discriminate|].
  unfold CL_HT_MAX_BUCKETS. cbv zeta.
  set (x := u32 (u32 _ + 2)).
  assert (0 <= x / 3) by (apply Z.div_pos; [apply u32_range | lia]).
  destruct (Z.gtb_spec (x / 3) 1048576); lia.
Qed.

Lemma parse_test_error a :
  match parse_test a with Ok _ => True | Err e => e <> CL_ERR_STORAGE end.
Proof.
  destruct a; try discriminate; unfold parse_test;
  repeat (destruct (String.eqb _ _); [exact I|]); discriminate.
Qed.

(** The keyword loop yields an admissible size or a type or argument error. *)
Lemma parse_keywords_ok args t size :
  match parse_keywords args t size with
  | Ok (_, size') => 0 <= size <= CL_HT_MAX_BUCKETS -> 0 <= size' <= CL_HT_MAX_BUCKETS
  | Err e => e <> CL_ERR_STORAGE
  end.
Proof.
  revert t size. induction args as [args IH] using (induction_ltof1 _ (@length ht_arg)).
  intros t size. unfold ltof in IH.
  destruct args as [|a [|b args]]; [easy | destruct a; easy |].
  assert (G : forall t' size', match parse_keywords args t' size' with
    | Ok (_, s') => 0 <= size' <= CL_HT_MAX_BUCKETS -> 0 <= s' <= CL_HT_MAX_BUCKETS
    | Err e => e <> CL_ERR_STORAGE end) by (intros; apply IH; cbn; lia).
  destruct a; cbn [parse_keywords]; try apply G.
  - pose proof (parse_test_error b) as B. destruct (parse_test b) as [t'|e]; cbn [bind];
      [apply G | trivial].
  - pose proof (parse_size_bound b) as B. destruct (parse_size b) as [size'|e]; cbn [bind]; [|trivial].
    specialize (G t size'). destruct (parse_keywords args t size') as [[? ?]|]; [|trivial].
    intros _. apply G, B.
Qed.

End Fresh.

(** ** Runs of several threads *)

Section Runs.
Context {K V : Type} {O : KeyOps K} (t : ht_test) (ok : K -> Prop) {L : KeyLaws K t ok}.
Implicit Types (s : ht_sys K V) (evs : list (ht_event K V)).

(** The table is the map of the events, and every prepared vector is of an
    admissible size. *)
Record sys_ok (evs : list (ht_event K V)) (s : ht_sys K V) : Prop := {
  sys_wf : ht_wf t ok (table s);
  sys_count : count (table s) <= Z.of_nat (length evs);
  sys_find k : ok k -> ht_find (table s) k = map_of t evs k;
  sys_pending tid len key value :
    pending s !! tid = Some (Some len, key, value) -> len <= CL_HT_MAX_BUCKETS }.

Lemma sys_step_ok evs s ev s' :
  sys_step s ev s' -> Forall (event_ok ok) ev ->
  Z.of_nat (length (ev ++ evs)) < 2 ^ 32 -> sys_ok evs s -> sys_ok (ev ++ evs) s'.
Proof.
  intros Hs Hev Hlen [Hw Hc Hf Hp].
  destruct Hs as [s mt alloc key value _|s tid alloc key value _ _|s tid pre key value Hpend|s key|s];
    cbn [app length] in *; rewrite ?Forall_singleton in Hev; cbn [event_ok] in *.
  - destruct (bi_setf_gethash_spec t ok mt alloc (table s) key value) as (H1 & H2 & H3);
      trivial; [lia|].
    constructor; cbn [table pending map_of length]; trivial; [lia|].
    intros k Hk. now rewrite H3, Hf.
  - constructor; cbn; trivial. intros tid' len key' value'.
    rewrite lookup_insert_Some. intros [[_ E]|[_ E]]; [|eauto].
    injection E as E _ _. destruct alloc; [|discriminate]. now apply setf_gethash_prepare_bound in E.
  - destruct (setf_gethash_commit_spec t ok pre (table s) key value) as (H1 & H2 & H3); trivial.
    + lia.
    + intros len ->. eauto.
    + constructor; cbn [table pending map_of length]; trivial; [lia| |].
      * intros k Hk. now rewrite H3, Hf.
      * intros tid' len key' value' [_ E]%lookup_delete_Some. eauto.
  - destruct (bi_remhash_spec t ok (table s) key) as (H1 & _ & H3 & H4); trivial; [lia|].
    constructor; cbn [table pending map_of length]; trivial.
    + rewrite H4. destruct (bi_remhash key (table s)).1; cbn; lia.
    + intros k Hk. now rewrite H3, Hf.
  - destruct (bi_clrhash_spec t ok (table s) Hw) as [H1 H2].
    constructor; cbn [table pending map_of length]; trivial. cbn. lia.
Qed.

Lemma sys_run_ok s0 evs s :
  sys_run s0 evs s -> Forall (event_ok ok) evs -> Z.of_nat (length evs) < 2 ^ 32 ->
  sys_ok [] s0 -> sys_ok evs s.
Proof.
  intros R. induction R as [|evs s ev s' R IH St]; intros He Hl H0; [trivial|].
  apply Forall_app in He as [He1 He2]. pose proof (length_app ev evs).
  apply (sys_step_ok evs s); trivial. apply IH; trivial. lia.
Qed.

End Runs.
(** ** EQUALP of tables *)

Section Equalp.
Context {K V : Type} {O : KeyOps K} (t : ht_test) (ok : K -> Prop) {L : KeyLaws K t ok}.
Implicit Types (a b ht : CL_Hashtable K V).

Lemma ht_find_congr ht k k' :
  ht_wf t ok ht -> ok k -> ok k' -> keys_equal k k' t = true -> ht_find ht k = ht_find ht k'.
Proof.
  intros H Hk Hk' E. rewrite !(ht_find_entries t ok) by trivial.
  pose proof (wf_keys _ _ _ H) as Ho. induction Ho as [|e es He Ho IH]; cbn; [trivial|].
  now rewrite (keys_equal_subst t ok k k' e.1), IH.
Qed.

(** The entries of a table are what it finds. *)
Lemma ht_find_in ht k v : ht_wf t ok ht -> (k, v) ∈ entries ht -> ok k /\ ht_find ht k = Some v.
Proof.
  intros H Hin. pose proof (wf_keys _ _ _ H) as Ho. rewrite Forall_forall in Ho.
  assert (Hk : ok k) by exact (Ho _ Hin). split; [trivial|].
  rewrite (ht_find_entries t ok) by trivial. apply (chain_find_spec t ok); trivial; try apply H.
  exists k. split; [trivial | now apply keys_equal_refl].
Qed.

Lemma ht_find_some ht k v :
  ht_wf t ok ht -> ok k -> ht_find ht k = Some v ->
  exists k0, (k0, v) ∈ entries ht /\ ok k0 /\ keys_equal k0 k t = true.
Proof.
  intros H Hk E. rewrite (ht_find_entries t ok) in E by trivial.
  apply (chain_find_spec t ok) in E as (k0 & Hin & Hk0); trivial; try apply H.
  exists k0. destruct (ht_find_in ht k0 v H Hin). auto.
Qed.

(** Two tables in which every key of the first is found in the second. *)
Lemma entries_length a b :
  ht_wf t ok a -> ht_wf t ok b ->
  (forall k v, (k, v) ∈ entries a -> is_Some (ht_find b k)) ->
  (length (entries a) <= length (entries b))%nat.
Proof.
  intros Ha Hb Hin. apply (distinct_length t ok); try (now apply Ha); try (now apply Hb).
  apply Forall_forall. intros [k v] Hkv. destruct (Hin k v Hkv) as [v' Hv'].
  destruct (ht_find_in a k v Ha Hkv) as [Hk _].
  destruct (ht_find_some b k v' Hb Hk Hv') as (k0 & Hk0 & _ & E). now exists (k0, v').
Qed.

(** With equal counts, the first then has every key of the second. *)
Lemma same_domain a b k :
  ht_wf t ok a -> ht_wf t ok b -> count a = count b ->
  (forall k v, (k, v) ∈ entries a -> is_Some (ht_find b k)) ->
  ok k -> ht_find a k = None -> ht_find b k = None.
Proof.
  intros Ha Hb Hc Hin Hk N. destruct (ht_find b k) as [v|] eqn:E; [exfalso | trivial].
  rewrite (ht_find_entries t ok) in N by trivial. apply chain_find_None in N.
  pose proof (wf_keys _ _ _ Ha) as Ho.
  assert (length ((k, v) :: entries a) <= length (entries b))%nat.
  - apply (distinct_length t ok); try (now apply Hb); [now constructor| |].
    + constructor; [|apply Ha]. rewrite Forall_forall in N, Ho |- *. intros e He. cbn.
      rewrite (keys_equal_comm t ok) by (trivial; exact (Ho e He)). now apply N.
    + apply Forall_forall. intros [k1 v1] [[= -> ->]|Hkv]%elem_of_cons.
      * destruct (ht_find_some b k v Hb Hk E) as (k0 & Hk0 & _ & E0). now exists (k0, v).
      * destruct (Hin k1 v1 Hkv) as [v' Hv']. destruct (ht_find_in a k1 v1 Ha Hkv) as [Hk1 _].
        destruct (ht_find_some b k1 v' Hb Hk1 Hv') as (k0 & Hk0 & _ & E0). now exists (k0, v').
  - rewrite (wf_count _ _ _ Ha), (wf_count _ _ _ Hb) in Hc. cbn in *. lia.
Qed.

(** The loops of the comparison. *)
Lemma equalp_loops b val_eq (es : list (list (K * V))) :
  forallb (forallb (fun entry : K * V =>
      match chain_find (test b) entry.1 (bucket_of b entry.1) with
      | Some v => val_eq entry.2 v
      | None => false
      end)) es = true <->
  forall k v, (k, v) ∈ concat es -> exists v', ht_find b k = Some v' /\ val_eq v v' = true.
Proof.
  unfold ht_find. rewrite forallb_forall. split.
  - intros H k v (l & Hl & Hin)%list_elem_of_In%in_concat.
    specialize (H l Hl). rewrite forallb_forall in H. specialize (H _ Hin). cbn in H.
    case_match; [eauto | discriminate].
  - intros H l Hl. apply forallb_forall. intros [k v] Hin.
    destruct (H k v) as (v' & E1 & E2); [apply list_elem_of_In, in_concat; eauto|].
    cbn. now rewrite E1.
Qed.

Lemma cl_hashtable_equalp_spec a b val_eq :
  ht_wf t ok a -> ht_wf t ok b ->
  cl_hashtable_equalp false a b val_eq = true <->
  forall k, ok k ->
    match ht_find a k, ht_find b k with
    | Some v, Some v' => val_eq v v' = true
    | None, None => True
    | _, _ => False
    end.
Proof.
  intros Ha Hb. unfold cl_hashtable_equalp.
  rewrite bool_decide_eq_true_2 by (now rewrite (wf_test _ _ _ Ha), (wf_test _ _ _ Hb)).
  cbn [negb]. destruct (Z.eqb_spec (count a) (count b)) as [Hc|Hc]; cbn [negb].
  - rewrite equalp_loops. fold (entries a). split.
    + intros H k Hk.
      assert (Hin : forall k v, (k, v) ∈ entries a -> is_Some (ht_find b k))
        by (intros k1 v1 (v' & -> & _)%H; eauto).
      destruct (ht_find a k) as [v|] eqn:E.
      * destruct (ht_find_some a k v Ha Hk E) as (k0 & Hk0 & Ho0 & E0).
        destruct (H k0 v Hk0) as (v' & E1 & E2).
        now rewrite <- (ht_find_congr b k0 k), E1.
      * now rewrite (same_domain a b k Ha Hb Hc Hin Hk E).
    + intros H k v Hkv. destruct (ht_find_in a k v Ha Hkv) as [Hk E].
      specialize (H k Hk). rewrite E in H. destruct (ht_find b k); [eauto | easy].
  - split; [discriminate|]. intros H. exfalso. apply Hc.
    rewrite (wf_count _ _ _ Ha), (wf_count _ _ _ Hb). apply f_equal, Nat.le_antisymm.
    + apply entries_length; trivial. intros k v Hkv. destruct (ht_find_in a k v Ha Hkv) as [Hk E].
      specialize (H k Hk). rewrite E in H. destruct (ht_find b k); [eauto | easy].
    + apply entries_length; trivial. intros k v Hkv. destruct (ht_find_in b k v Hb Hkv) as [Hk E].
      specialize (H k Hk). rewrite E in H. destruct (ht_find a k); [eauto | easy].
Qed.

End Equalp.
