(* ===== verification/HashKey.v ===== *)
(** * Hashing and comparing heap objects

    src/src/core/builtins_hashtable.c, hash_obj and keys_equal, with
    cl_hash_string (src/src/core/symbol.c), the string and array accessors they use, and
    gc_key_addr_sensitive (src/src/core/gc_compact.c).

    [obj] is an object with what is reachable from it, as a tree; every heap
    object carries its word [w], the arena offset that EQ compares.  A vector
    is the list of its active elements: fill pointers, displacement and the
    dimensions of an array are resolved by the accessors, and neither function
    looks at them.  A float is its IEEE bit pattern; [float_eq] is the C
    comparison of two of them.

    [canon t a] is the representative of the objects that the test [t]
    identifies with [a]: [keys_equal_canon] and [hash_canon] reduce the two
    functions to it, and so give the laws the tables rely on.  They hold for
    objects of one heap ([key_heap]); the theorems below name the two places
    where the code's hash and comparison disagree. *)

From Stdlib Require Import ZArith Lia ZifyBool.
From stdpp Require Import base list gmap.
From S2P Require Import Prelude Limbs Bignum Ratio Hashtable.
Local Open Scope Z_scope.

(** ** Objects *)

#[warnings="-register-all"]
Inductive obj : Type :=
| NIL
| FIXNUM (v : Z)
| CHAR (code : Z)
| SYMBOL (w : Z)
| CONS (w : Z) (car cdr : obj)
| BIGNUM (w : Z) (sign : bool) (limbs : list Z)
| RATIO (w : Z) (numerator denominator : integer)
| COMPLEX (w : Z) (realpart imagpart : obj)
| SINGLE (w : Z) (bits : Z)
| DOUBLE (w : Z) (bits : Z)
| STRING (w : Z) (data : list Z)                     (* bytes *)
| WIDE_STRING (w : Z) (data : list Z)                (* code points *)
| VECTOR (w : Z) (string_flag : bool) (elts : list obj)
| BIT_VECTOR (w : Z) (bits : list Z)
| BYTE_VECTOR (w : Z) (elts : list Z)
| OTHER (w : Z).

Definition CL_MAKE_CHAR (c : Z) : Z := Z.lor (u32 (Z.shiftl (u32 c) 8)) 10.

(** The CL_Obj word. *)
Definition word (a : obj) : Z :=
  match a with
  | NIL => 0
  | FIXNUM v => CL_MAKE_FIXNUM v
  | CHAR c => CL_MAKE_CHAR c
  | SYMBOL w | CONS w _ _ | BIGNUM w _ _ | RATIO w _ _ | COMPLEX w _ _ | SINGLE w _
  | DOUBLE w _ | STRING w _ | WIDE_STRING w _ | VECTOR w _ _ | BIT_VECTOR w _
  | BYTE_VECTOR w _ | OTHER w => w
  end.

(** ** Hashing *)

Definition hash_mix (h : Z) : Z :=
  let h := Z.lxor h (Z.shiftr h 16) in
  let h := u32 (h * 73244475) in
  Z.lxor h (Z.shiftr h 16).

(** [if (ch >= 'A' && ch <= 'Z') ch += 32]. *)
Definition fold_ascii (ch : Z) : Z := if (65 <=? ch) && (ch <=? 90) then ch + 32 else ch.

(** Conversion to [char], signed on the targets. *)
Definition i8 (x : Z) : Z := (x + 2 ^ 7) mod 2 ^ 8 - 2 ^ 7.

Definition cl_hash_string (str : list Z) : Z :=
  fold_left (fun hash ch => rotate_xor hash (u8 ch)) str 0.

Definition hash_string_ci (str : list Z) : Z :=
  fold_left (fun hash ch => rotate_xor hash (u8 (fold_ascii (i8 ch)))) str 0.

Definition hash_string_content (codes : list Z) (ci : bool) : Z :=
  fold_left (fun hash ch => rotate_xor hash (u8 (if ci then fold_ascii ch else ch))) codes 0.

Definition hash_bit_vector_content (bits : list Z) : Z :=
  fold_left rotate_xor bits (u32 (Z.of_nat (length bits) * 2654435761)).

(** cl_string_char_at on an element of a character vector. *)
Definition char_at (e : obj) : Z := match e with CHAR c => c | _ => 0 end.

Definition char_hash (code : Z) (ci : bool) : Z :=
  if ci then CL_MAKE_CHAR (fold_ascii (i8 code)) else CL_MAKE_CHAR code.

Definition single_hash (bits : Z) : Z := u32 (bits * 2654435761).
Definition double_hash (bits : Z) : Z :=
  u32 (Z.lxor (u32 bits) (u32 (Z.shiftr bits 32)) * 2654435761).

Definition is_equalp (t : ht_test) : bool :=
  match t with CL_HT_TEST_EQUALP => true | _ => false end.

(** The type-blind array hash: the length, and the hash of the first element
    if there is one. *)
Definition array_hash (len : nat) (first : option Z) : Z :=
  let h := u32 (u32 (Z.of_nat len * 31) + 2) in
  match first with Some h0 => u32 (u32 (h * 31) + h0) | None => h end.

Fixpoint hash_obj (t : ht_test) (a : obj) : Z :=
  match t with
  | CL_HT_TEST_EQ => hash_mix (word a)
  | CL_HT_TEST_EQL =>
      match a with
      | BIGNUM _ s l => cl_bignum_hash s l
      | RATIO _ n d => cl_ratio_hash (RRatio n d)
      | COMPLEX _ re im => u32 (u32 (hash_obj t re * 31) + hash_obj t im)
      | SINGLE _ b => single_hash b
      | DOUBLE _ b => double_hash b
      | _ => hash_mix (word a)
      end
  | _ =>
      match a with
      | NIL => 0
      | FIXNUM _ => hash_mix (word a)
      | CHAR c => char_hash c (is_equalp t)
      | BIGNUM _ s l => cl_bignum_hash s l
      | RATIO _ n d => cl_ratio_hash (RRatio n d)
      | COMPLEX _ re im => u32 (u32 (hash_obj t re * 31) + hash_obj t im)
      | SINGLE _ b => single_hash b
      | DOUBLE _ b => double_hash b
      | STRING _ d => if is_equalp t then hash_string_ci d else cl_hash_string d
      | WIDE_STRING _ d => hash_string_content d (is_equalp t)
      | VECTOR _ true l => hash_string_content (map char_at l) (is_equalp t)
      | VECTOR _ false l =>
          if is_equalp t
          then array_hash (length l) (match l with [] => None | e :: _ => Some (hash_obj t e) end)
          else hash_mix (word a)
      | BIT_VECTOR _ l =>
          if is_equalp t
          then array_hash (length l)
                 (match l with [] => None | e :: _ => Some (hash_mix (CL_MAKE_FIXNUM e)) end)
          else hash_bit_vector_content l
      | BYTE_VECTOR _ l =>
          if is_equalp t
          then array_hash (length l)
                 (match l with [] => None | e :: _ => Some (hash_mix (CL_MAKE_FIXNUM e)) end)
          else hash_mix (word a)
      | CONS _ x _ => u32 (u32 (hash_obj t x * 31) + 1)
      | SYMBOL _ | OTHER _ => hash_mix (word a)
      end
  end.

(** ** Comparing *)

(** [==] of floats with [e] exponent and [m] fraction bits. *)
Definition is_nan (e m bits : Z) : bool :=
  let r := Z.land bits (2 ^ (e + m) - 1) in (2 ^ e - 1) * 2 ^ m <? r.
Definition is_zero (e m bits : Z) : bool := Z.land bits (2 ^ (e + m) - 1) =? 0.
Definition float_eq (e m x y : Z) : bool :=
  negb (is_nan e m x) && negb (is_nan e m y) &&
  ((x =? y) || is_zero e m x && is_zero e m y).

Definition fold_char (t : ht_test) (c : Z) : Z := if is_equalp t then fold_ascii c else c.

(** Element by element, after the comparison of the lengths. *)
Fixpoint all_equal {A B} (eq : A -> B -> bool) (l : list A) (m : list B) : bool :=
  match l, m with
  | [], [] => true
  | x :: l', y :: m' => eq x y && all_equal eq l' m'
  | _, _ => false
  end.

Definition chars_equal (t : ht_test) : list Z -> list Z -> bool :=
  all_equal (fun x y => fold_char t x =? fold_char t y).

(** The characters of an object that is a string in some representation. *)
Definition string_chars (a : obj) : option (list Z) :=
  match a with
  | STRING _ d | WIDE_STRING _ d => Some d
  | VECTOR _ true l => Some (map char_at l)
  | _ => None
  end.

(** equalp_xarr_elt, for the arrays that is_equalp_xarr admits. *)
Definition equalp_xarr (a : obj) : option (list obj) :=
  match a with
  | VECTOR _ _ l => Some l
  | BIT_VECTOR _ l | BYTE_VECTOR _ l => Some (map FIXNUM l)
  | _ => None
  end.

(** keys_equal with a fixnum on the left, under EQUALP. *)
Definition fixnum_equal (i : Z) (b : obj) : bool := CL_MAKE_FIXNUM i =? word b.

Fixpoint keys_equal (t : ht_test) (a b : obj) {struct a} : bool :=
  match t with
  | CL_HT_TEST_EQ => word a =? word b
  | CL_HT_TEST_EQL =>
      if word a =? word b then true
      else
        match a, b with
        | BIGNUM _ s l, BIGNUM _ s' l' => cl_bignum_equal (Big s l) (Big s' l')
        | RATIO _ n d, RATIO _ n' d' => cl_ratio_equal (RRatio n d) (RRatio n' d')
        | COMPLEX _ re im, COMPLEX _ re' im' => keys_equal t re re' && keys_equal t im im'
        | SINGLE _ x, SINGLE _ y => float_eq 8 23 x y
        | DOUBLE _ x, DOUBLE _ y => float_eq 11 52 x y
        | _, _ => false
        end
  | _ =>
      if word a =? word b then true
      else
        match a, b with
        | CHAR c, CHAR c' => if is_equalp t then fold_ascii c =? fold_ascii c' else false
        | FIXNUM _, _ | CHAR _, _ => false
        | BIGNUM _ s l, BIGNUM _ s' l' => cl_bignum_equal (Big s l) (Big s' l')
        | RATIO _ n d, RATIO _ n' d' => cl_ratio_equal (RRatio n d) (RRatio n' d')
        | COMPLEX _ re im, COMPLEX _ re' im' => keys_equal t re re' && keys_equal t im im'
        | SINGLE _ x, SINGLE _ y => float_eq 8 23 x y
        | DOUBLE _ x, DOUBLE _ y => float_eq 11 52 x y
        | CONS _ x y, CONS _ x' y' => keys_equal t x x' && keys_equal t y y'
        | BIT_VECTOR _ l, BIT_VECTOR _ l' => all_equal Z.eqb l l'
        | BYTE_VECTOR _ l, BYTE_VECTOR _ l' => is_equalp t && all_equal Z.eqb l l'
        | _, _ =>
            match string_chars a, string_chars b with
            | Some s, Some s' => chars_equal t s s'
            | _, _ =>
                if negb (is_equalp t) then false
                else
                  match a, equalp_xarr b with
                  | VECTOR _ _ l, Some m => all_equal (keys_equal t) l m
                  | BIT_VECTOR _ l, Some m | BYTE_VECTOR _ l, Some m =>
                      all_equal fixnum_equal l m
                  | _, _ => false
                  end
            end
        end
  end.

(** The compactor's test, gc_key_addr_sensitive. *)
Fixpoint gc_key_addr_sensitive (a : obj) (t : ht_test) : bool :=
  match a with
  | NIL | FIXNUM _ | CHAR _ => false
  | _ =>
      match t with
      | CL_HT_TEST_EQ => true
      | _ =>
          match a with
          | BIGNUM _ _ _ | RATIO _ _ _ | SINGLE _ _ | DOUBLE _ _ | COMPLEX _ _ _ => false
          | STRING _ _ | WIDE_STRING _ _ | BIT_VECTOR _ _ =>
              match t with CL_HT_TEST_EQL => true | _ => false end
          | CONS _ x _ =>
              match t with CL_HT_TEST_EQL => true | _ => gc_key_addr_sensitive x t end
          | _ => true
          end
      end
  end.

#[export] Instance obj_key_ops : KeyOps obj := {
  Hashtable.hash_obj a t := hash_obj t a;
  Hashtable.keys_equal a b t := keys_equal t a b;
  Hashtable.gc_key_addr_sensitive := gc_key_addr_sensitive }.

(** SXHASH: the low 30 bits of the EQUAL hash, a non-negative fixnum. *)
Definition bi_sxhash (a : obj) : integer :=
  make_fixnum (i32 (Z.land (hash_obj CL_HT_TEST_EQUAL a) 1073741823)).
Definition bi_hash_table_count {K V} (ht : CL_Hashtable K V) : integer := make_fixnum (count ht).
Definition bi_hash_table_size {K V} (ht : CL_Hashtable K V) : integer :=
  make_fixnum (i32 (bucket_count ht)).

(** ** Induction on objects *)

Section ObjInd.
Variable P : obj -> Prop.
Hypothesis Hleaf : forall a,
  match a with CONS _ _ _ | COMPLEX _ _ _ | VECTOR _ _ _ => True | _ => P a end.
Hypothesis Hcons : forall w x y, P x -> P y -> P (CONS w x y).
Hypothesis Hcomplex : forall w x y, P x -> P y -> P (COMPLEX w x y).
Hypothesis Hvector : forall w s l, Forall P l -> P (VECTOR w s l).

Fixpoint obj_tree_ind (a : obj) : P a :=
  match a with
  | CONS w x y => Hcons w x y (obj_tree_ind x) (obj_tree_ind y)
  | COMPLEX w x y => Hcomplex w x y (obj_tree_ind x) (obj_tree_ind y)
  | VECTOR w s l =>
      Hvector w s l ((fix go l : Forall P l :=
        match l with
        | [] => Forall_nil_2 P
        | e :: l' => Forall_cons_2 P e l' (obj_tree_ind e) (go l')
        end) l)
  | a => Hleaf a
  end.
End ObjInd.

(** ** Objects of one heap *)

Definition is_real (a : obj) : bool :=
  match a with
  | FIXNUM _ | BIGNUM _ _ _ | RATIO _ _ _ | SINGLE _ _ | DOUBLE _ _ => true
  | _ => false
  end.

(** A set of objects closed under their parts, in which the word determines
    the object, with complex numbers of reals and normalized ratios; without negative zeros (whose hash
    differs from that of zero), and for EQUALP without character vectors with
    a fill pointer (which hash as strings and compare as vectors). *)
Record key_heap (t : ht_test) (H : obj -> Prop) : Prop := {
  kh_word a b : H a -> H b -> word a = word b -> a = b;
  kh_cons w x y : H (CONS w x y) -> H x /\ H y;
  kh_complex w x y : H (COMPLEX w x y) -> H x /\ H y;
  kh_real w x y : H (COMPLEX w x y) -> is_real x = true /\ is_real y = true;
  kh_vector w s l : H (VECTOR w s l) -> Forall H l;
  kh_bits w l : H (BIT_VECTOR w l) -> Forall (fun i => H (FIXNUM i)) l;
  kh_bytes w l : H (BYTE_VECTOR w l) -> Forall (fun i => H (FIXNUM i)) l;
  kh_string w d : H (STRING w d) -> Forall (fun c => 0 <= c < 256) d;
  kh_ratio w n d : H (RATIO w n d) -> wf_int n /\ wf_int d;
  kh_single w b : H (SINGLE w b) -> 0 <= b < 2 ^ 32 /\ b <> 2 ^ 31;
  kh_double w b : H (DOUBLE w b) -> 0 <= b < 2 ^ 64 /\ b <> 2 ^ 63;
  kh_fill w l : H (VECTOR w true l) -> t <> CL_HT_TEST_EQUALP }.

(** ** Representatives *)

(** What the tests compare by contents loses its word; a string of any kind
    becomes a wide string of folded characters, and under EQUALP an array of
    any kind a vector. *)
Definition canon_float (a : obj) : obj :=
  match a with
  | SINGLE _ b => if is_nan 8 23 b then a else SINGLE 0 b
  | DOUBLE _ b => if is_nan 11 52 b then a else DOUBLE 0 b
  | _ => a
  end.

Fixpoint canon (t : ht_test) (a : obj) : obj :=
  match t with
  | CL_HT_TEST_EQ => a
  | CL_HT_TEST_EQL =>
      match a with
      | BIGNUM _ s l => BIGNUM 0 s l
      | RATIO _ n d => RATIO 0 n d
      | COMPLEX _ re im => COMPLEX 0 (canon t re) (canon t im)
      | _ => canon_float a
      end
  | _ =>
      match a with
      | CHAR c => CHAR (fold_char t c)
      | BIGNUM _ s l => BIGNUM 0 s l
      | RATIO _ n d => RATIO 0 n d
      | COMPLEX _ re im => COMPLEX 0 (canon t re) (canon t im)
      | CONS _ x y => CONS 0 (canon t x) (canon t y)
      | STRING _ d | WIDE_STRING _ d => WIDE_STRING 0 (map (fold_char t) d)
      | VECTOR _ true l => WIDE_STRING 0 (map (fold_char t) (map char_at l))
      | VECTOR _ false l => if is_equalp t then VECTOR 0 false (map (canon t) l) else a
      | BIT_VECTOR _ l =>
          if is_equalp t then VECTOR 0 false (map FIXNUM l) else BIT_VECTOR 0 l
      | BYTE_VECTOR _ l => if is_equalp t then VECTOR 0 false (map FIXNUM l) else a
      | _ => canon_float a
      end
  end.

Lemma all_equal_map {A B C} (eq : A -> B -> bool) (f : A -> C) (g : B -> C) l m :
  Forall (fun x => forall y, y ∈ m -> eq x y = true <-> f x = g y) l ->
  all_equal eq l m = true <-> map f l = map g m.
Proof.
  revert m. induction l as [|x l IH]; intros [|y m] Hl; cbn; try easy.
  apply Forall_cons in Hl as [Hx Hl]. rewrite andb_true_iff, Hx by left. rewrite IH.
  - split; [now intros [-> ->] | now intros [= -> ->]].
  - apply (Forall_impl _ _ _ Hl). intros z Hz u Hu. apply Hz. now right.
Qed.

Lemma chars_equal_map t l m :
  chars_equal t l m = true <-> map (fold_char t) l = map (fold_char t) m.
Proof. apply all_equal_map, Forall_true. intros x y _. apply Z.eqb_eq. Qed.

Lemma all_eqb l m : all_equal Z.eqb l m = true <-> l = m.
Proof.
  rewrite (all_equal_map Z.eqb id id), !map_id; [easy|].
  apply Forall_true. intros x y _. apply Z.eqb_eq.
Qed.

Lemma cl_ratio_equal_eq n d n' d' :
  wf_int n -> wf_int d -> wf_int n' -> wf_int d' ->
  cl_ratio_equal (RRatio n d) (RRatio n' d') = true <-> n = n' /\ d = d'.
Proof.
  intros Hn Hd Hn' Hd'. cbn [cl_ratio_equal].
  assert (E : forall a b, wf_int a -> wf_int b -> (cl_arith_compare a b =? 0) = true <-> a = b).
  { intros a b Ha Hb. rewrite Z.eqb_eq, (cl_arith_compare_spec a b (int_val a) (int_val b))
      by (now split). unfold sgn_compare. split.
    - intros C. apply rep_unique with (int_val a); split; trivial.
      destruct (Z.compare_spec (int_val a) (int_val b)); [congruence | discriminate..].
    - intros ->. now rewrite Z.compare_refl. }
  now rewrite andb_true_iff, !E.
Qed.

Lemma cl_bignum_equal_eq s l s' l' :
  cl_bignum_equal (Big s l) (Big s' l') = true <-> s = s' /\ l = l'.
Proof.
  change (bi_eql (Big s l) (Big s' l') = true <-> s = s' /\ l = l'). rewrite bi_eql_eq.
  split; [now intros [= -> ->] | now intros [-> ->]].
Qed.

Lemma is_zero_spec e m x :
  0 <= e + m -> 0 <= x < 2 ^ (e + m + 1) -> x <> 2 ^ (e + m) -> is_zero e m x = true -> x = 0.
Proof.
  intros He Hx Hn. unfold is_zero. rewrite land_mask by lia. intros E%Z.eqb_eq.
  rewrite Z.pow_add_r in Hx by lia. change (2 ^ 1) with 2 in Hx.
  assert (0 < 2 ^ (e + m)) by (apply Z.pow_pos_nonneg; lia).
  revert E Hx Hn H. generalize (2 ^ (e + m)). intros n E Hx Hn H.
  apply Z.mod_divide in E as [q ->]; [|lia].
  assert (q = 0 \/ q = 1) as [-> | ->] by nia; lia.
Qed.

Lemma float_eq_spec e m x y :
  0 <= e + m -> 0 <= x < 2 ^ (e + m + 1) -> 0 <= y < 2 ^ (e + m + 1) ->
  x <> 2 ^ (e + m) -> y <> 2 ^ (e + m) ->
  float_eq e m x y = true <-> x = y /\ is_nan e m x = false.
Proof.
  intros He Hx Hy Nx Ny. unfold float_eq. rewrite !andb_true_iff, !negb_true_iff, orb_true_iff.
  rewrite andb_true_iff, Z.eqb_eq. split.
  - intros [[H1 H2] [->|[Zx Zy]]]; [easy|].
    apply is_zero_spec in Zx, Zy; trivial. now subst.
  - intros [-> H]. auto.
Qed.

Section Canon.
Variables (t : ht_test) (H : obj -> Prop).
Hypothesis KH : key_heap t H.

Lemma fixnum_equal_eq i b : H (FIXNUM i) -> H b -> fixnum_equal i b = true <-> FIXNUM i = b.
Proof.
  intros Hi Hb. unfold fixnum_equal. rewrite Z.eqb_eq. split.
  - intros E. now apply (kh_word _ _ KH).
  - now intros <-.
Qed.

Lemma single_equal w w' x y :
  H (SINGLE w x) -> H (SINGLE w' y) -> w <> w' ->
  float_eq 8 23 x y = true <-> canon_float (SINGLE w x) = canon_float (SINGLE w' y).
Proof.
  intros [Hx Nx]%(kh_single _ _ KH) [Hy Ny]%(kh_single _ _ KH) Hw.
  rewrite (float_eq_spec 8 23) by (trivial; lia). cbn [canon_float].
  destruct (is_nan 8 23 x) eqn:Ex, (is_nan 8 23 y) eqn:Ey.
  - split; [now intros [] | congruence].
  - split; [now intros [] | intros [= _ ->]; congruence].
  - split; [intros [-> ?]; congruence | intros [= _ ->]; congruence].
  - split; [now intros [-> _] | now intros [= ->]].
Qed.

Lemma double_equal w w' x y :
  H (DOUBLE w x) -> H (DOUBLE w' y) -> w <> w' ->
  float_eq 11 52 x y = true <-> canon_float (DOUBLE w x) = canon_float (DOUBLE w' y).
Proof.
  intros [Hx Nx]%(kh_double _ _ KH) [Hy Ny]%(kh_double _ _ KH) Hw.
  rewrite (float_eq_spec 11 52) by (trivial; lia). cbn [canon_float].
  destruct (is_nan 11 52 x) eqn:Ex, (is_nan 11 52 y) eqn:Ey.
  - split; [now intros [] | congruence].
  - split; [now intros [] | intros [= _ ->]; congruence].
  - split; [intros [-> ?]; congruence | intros [= _ ->]; congruence].
  - split; [now intros [-> _] | now intros [= ->]].
Qed.

Lemma keys_equal_word a b : word a = word b -> keys_equal t a b = true.
Proof. intros E. destruct t, a; cbn [keys_equal]; now rewrite (proj2 (Z.eqb_eq _ _) E). Qed.

Lemma chars_wide l m :
  chars_equal t l m = true <->
  WIDE_STRING 0 (map (fold_char t) l) = WIDE_STRING 0 (map (fold_char t) m).
Proof. rewrite chars_equal_map. split; [now intros -> | now intros [= ->]]. Qed.

Lemma canon_fixnum i e : FIXNUM i = canon t e <-> FIXNUM i = e.
Proof.
  split; [|intros <-; now destruct t].
  destruct t, e; cbn; repeat case_match; congruence.
Qed.

Lemma canon_fixnums l : map (canon t) (map FIXNUM l) = map FIXNUM l.
Proof. rewrite map_map. apply map_ext. intros i. now destruct t. Qed.

(** An array of fixnums and an array. *)
Lemma fixnums_equal l m :
  Forall (fun i => H (FIXNUM i)) l -> Forall H m ->
  all_equal fixnum_equal l m = true <->
  VECTOR 0 false (map FIXNUM l) = VECTOR 0 false (map (canon t) m).
Proof.
  intros Hl Hm. rewrite (all_equal_map fixnum_equal FIXNUM (canon t)).
  - split; [now intros -> | now intros [= ->]].
  - apply (Forall_impl _ _ _ Hl). intros i Hi e He. rewrite Forall_forall in Hm.
    rewrite canon_fixnum. apply fixnum_equal_eq; auto.
Qed.

Lemma fixnums_equal_2 l m :
  Forall (fun i => H (FIXNUM i)) l -> Forall (fun i => H (FIXNUM i)) m ->
  all_equal fixnum_equal l (map FIXNUM m) = true <->
  VECTOR 0 false (map FIXNUM l) = VECTOR 0 false (map FIXNUM m).
Proof.
  intros Hl Hm. pose proof (fixnums_equal l (map FIXNUM m)) as E. rewrite canon_fixnums in E.
  apply E; [trivial | now apply Forall_map].
Qed.

Lemma fixnums_eqb l m :
  all_equal Z.eqb l m = true <-> VECTOR 0 false (map FIXNUM l) = VECTOR 0 false (map FIXNUM m).
Proof.
  rewrite (all_equal_map Z.eqb FIXNUM FIXNUM).
  - split; [now intros -> | now intros [= ->]].
  - apply Forall_true. intros x y _. rewrite Z.eqb_eq. split; [now intros -> | now intros [= ->]].
Qed.

Lemma ratios_equal w w' n d n' d' :
  H (RATIO w n d) -> H (RATIO w' n' d') ->
  cl_ratio_equal (RRatio n d) (RRatio n' d') = true <-> RATIO 0 n d = RATIO 0 n' d'.
Proof.
  intros [H1 H2]%(kh_ratio _ _ KH) [H3 H4]%(kh_ratio _ _ KH). rewrite cl_ratio_equal_eq by trivial.
  split; [now intros [-> ->] | now intros [= -> ->]].
Qed.

(** It is enough to compare objects with different words. *)
Lemma keys_equal_apart a b :
  H a -> H b -> (word a <> word b -> keys_equal t a b = true <-> canon t a = canon t b) ->
  keys_equal t a b = true <-> canon t a = canon t b.
Proof.
  intros Ha Hb G. destruct (Z.eq_dec (word a) (word b)) as [E|N]; [|auto].
  rewrite keys_equal_word by trivial. apply (kh_word _ _ KH) in E; trivial. now subst.
Qed.

End Canon.

Lemma bignums_equal s l s' l' :
  cl_bignum_equal (Big s l) (Big s' l') = true <-> BIGNUM 0 s l = BIGNUM 0 s' l'.
Proof. rewrite cl_bignum_equal_eq. split; [now intros [-> ->] | now intros [= -> ->]]. Qed.

Lemma bit_vectors_equal l l' :
  all_equal Z.eqb l l' = true <-> BIT_VECTOR 0 l = BIT_VECTOR 0 l'.
Proof. rewrite all_eqb. split; [now intros -> | now intros [= ->]]. Qed.

Lemma folded_equal c c' :
  (fold_ascii c =? fold_ascii c') = true <->
  CHAR (fold_char CL_HT_TEST_EQUALP c) = CHAR (fold_char CL_HT_TEST_EQUALP c').
Proof. rewrite Z.eqb_eq. split; [now cbn; intros -> | now intros [=]]. Qed.

(** One comparison of two objects [N : word a <> word b], by the lemma for
    their types, or because nothing but identity makes them equal. *)
Ltac canon_differ N :=
  repeat case_match;
  (split; [discriminate |
    let E := fresh in intros E; exfalso;
    first [discriminate E | apply N; exact (f_equal word E)]]).

Ltac canon_open N :=
  cbn [keys_equal canon canon_float]; rewrite ?(proj2 (Z.eqb_neq _ _) N);
  cbn [string_chars equalp_xarr is_equalp negb andb].

Ltac canon_same KH Ha Hb N :=
  first
    [ apply bignums_equal
    | apply folded_equal
    | apply (ratios_equal _ _ KH _ _ _ _ _ _ Ha Hb)
    | apply (single_equal _ _ KH _ _ _ _ Ha Hb N)
    | apply (double_equal _ _ KH _ _ _ _ Ha Hb N)
    | apply chars_wide
    | apply bit_vectors_equal
    | apply fixnums_eqb
    | apply (fixnums_equal_2 _ _ KH);
        solve [apply (kh_bits _ _ KH _ _ Ha) | apply (kh_bytes _ _ KH _ _ Ha)
              | apply (kh_bits _ _ KH _ _ Hb) | apply (kh_bytes _ _ KH _ _ Hb)]
    | apply (fixnums_equal _ _ KH);
        solve [apply (kh_bits _ _ KH _ _ Ha) | apply (kh_bytes _ _ KH _ _ Ha)
              | apply (kh_vector _ _ KH _ _ _ Hb)] ].

Section KeysEqual.
Variables (t : ht_test) (H : obj -> Prop).
Hypothesis KH : key_heap t H.

Definition agrees (a : obj) : Prop :=
  H a -> forall b, H b -> keys_equal t a b = true <-> canon t a = canon t b.

Lemma leaf_agrees a :
  match a with CONS _ _ _ | COMPLEX _ _ _ | VECTOR _ _ _ => True | _ => agrees a end.
Proof.
  destruct a; trivial; intros Ha b Hb; apply (keys_equal_apart t H KH _ _ Ha Hb); intros N.
  all: destruct t; canon_open N.
  all: destruct b as [| | | | | | | | | | | |w' [] l'| | |]; canon_open N.
  all: solve [canon_differ N | canon_same KH Ha Hb N
             | exfalso; now apply (kh_fill _ _ KH _ _ Hb)].
Qed.

(** Two parts at once. *)
Lemma parts_agree x y x' y' (P : obj -> obj -> obj) :
  (forall u v u' v', P u v = P u' v' -> u = u' /\ v = v') ->
  agrees x -> agrees y -> H x -> H y -> H x' -> H y' ->
  keys_equal t x x' && keys_equal t y y' = true <->
  P (canon t x) (canon t y) = P (canon t x') (canon t y').
Proof.
  intros HP Gx Gy Hx Hy Hx' Hy'. rewrite andb_true_iff, (Gx Hx x' Hx'), (Gy Hy y' Hy').
  split; [now intros [-> ->] | apply HP].
Qed.

Lemma cons_agrees w x y : agrees x -> agrees y -> agrees (CONS w x y).
Proof.
  intros Gx Gy Ha b Hb. apply (keys_equal_apart t H KH _ _ Ha Hb). intros N.
  destruct (kh_cons _ _ KH _ _ _ Ha) as [Hx Hy].
  destruct b as [| | | |w' x' y'| | | | | | | |w' [] l'| | |];
    try (destruct t; canon_open N; canon_differ N).
  destruct (kh_cons _ _ KH _ _ _ Hb) as [Hx' Hy'].
  pose proof (parts_agree x y x' y' (CONS 0)) as G.
  destruct t; canon_open N; [canon_differ N | canon_differ N | |];
    (apply G; trivial; now intros ? ? ? ? [= -> ->]).
Qed.

Lemma complex_agrees w x y : agrees x -> agrees y -> agrees (COMPLEX w x y).
Proof.
  intros Gx Gy Ha b Hb. apply (keys_equal_apart t H KH _ _ Ha Hb). intros N.
  destruct (kh_complex _ _ KH _ _ _ Ha) as [Hx Hy].
  destruct b as [| | | | | | |w' x' y'| | | | |w' [] l'| | |];
    try (destruct t; canon_open N; canon_differ N).
  destruct (kh_complex _ _ KH _ _ _ Hb) as [Hx' Hy'].
  pose proof (parts_agree x y x' y' (COMPLEX 0)) as G.
  destruct t; canon_open N; [canon_differ N | | |];
    (apply G; trivial; now intros ? ? ? ? [= -> ->]).
Qed.

(** Vectors, element by element. *)
Lemma elements_agree l m :
  Forall agrees l -> Forall H l -> Forall H m ->
  all_equal (keys_equal t) l m = true <->
  VECTOR 0 false (map (canon t) l) = VECTOR 0 false (map (canon t) m).
Proof.
  intros Gl Hl Hm. rewrite (all_equal_map (keys_equal t) (canon t) (canon t)).
  - split; [now intros -> | now intros [= ->]].
  - rewrite Forall_forall in *. intros x Hx y Hy. apply Gl; auto.
Qed.

Lemma vector_agrees w s l : Forall agrees l -> agrees (VECTOR w s l).
Proof.
  intros Gl Ha b Hb. apply (keys_equal_apart t H KH _ _ Ha Hb). intros N.
  pose proof (kh_vector _ _ KH _ _ _ Ha) as Hl.
  pose proof (fun m => elements_agree l m Gl Hl) as G.
  pose proof (fun m => canon_fixnums t H KH m) as F.
  pose proof (kh_fill _ _ KH) as Nf.
  destruct t; destruct s; try (exfalso; now apply (Nf _ _ Ha)).
  all: destruct b as [| | | | | | | | | | | |w' [] l'| | |]; canon_open N.
  all: try solve [canon_differ N | apply chars_wide | exfalso; now apply (Nf _ _ Hb)].
  - apply G. now apply (kh_vector _ _ KH _ _ _ Hb).
  - specialize (G (map FIXNUM bits)). rewrite F in G. apply G, Forall_map, (kh_bits _ _ KH _ _ Hb).
  - specialize (G (map FIXNUM elts)). rewrite F in G. apply G, Forall_map, (kh_bytes _ _ KH _ _ Hb).
Qed.

(** Two objects of the heap are equal under the test exactly if they have the
    same representative. *)
Lemma keys_equal_canon a b : H a -> H b -> keys_equal t a b = true <-> canon t a = canon t b.
Proof.
  intros Ha Hb.
  exact (obj_tree_ind agrees leaf_agrees cons_agrees complex_agrees vector_agrees a Ha b Hb).
Qed.

End KeysEqual.

(** ** Hashing respects the tests *)

Lemma fold_ascii_idem c : fold_ascii (fold_ascii c) = fold_ascii c.
Proof. unfold fold_ascii. repeat case_match; lia. Qed.

Lemma fold_ascii_byte c : 0 <= c < 256 -> u8 (fold_ascii (i8 c)) = u8 (fold_ascii c).
Proof.
  intros Hc. unfold u8, i8. change (2 ^ 8) with 256. change (2 ^ 7) with 128.
  destruct (Z.lt_ge_cases c 128).
  - replace ((c + 128) mod 256 - 128) with c by (divmod; lia). trivial.
  - replace ((c + 128) mod 256 - 128) with (c - 256) by (divmod; lia).
    unfold fold_ascii. repeat case_match; try lia. divmod. lia.
Qed.

Lemma char_hash_fold c : char_hash (fold_ascii c) true = char_hash c true.
Proof.
  cbn. f_equal. unfold i8, fold_ascii at 2. change (2 ^ 8) with 256. change (2 ^ 7) with 128.
  case_match; [|trivial].
  replace ((c + 32 + 128) mod 256 - 128) with (c + 32) by (divmod; lia).
  replace ((c + 128) mod 256 - 128) with c by (divmod; lia).
  unfold fold_ascii. repeat case_match; lia.
Qed.

(** Folds over two lists whose elements act alike. *)
Lemma fold_left_map_ext {A B C} (f : C -> A -> C) (g : C -> B -> C) (m : B -> A) (l : list B) c :
  Forall (fun x => forall c, f c (m x) = g c x) l -> fold_left f (map m l) c = fold_left g l c.
Proof.
  intros Hl. revert c. induction Hl as [|x l Hx Hl IH]; intros c; cbn; [trivial|].
  now rewrite Hx, IH.
Qed.

Lemma content_hash_fold t d :
  hash_string_content (map (fold_char t) d) (is_equalp t) = hash_string_content d (is_equalp t).
Proof.
  apply fold_left_map_ext, Forall_true. intros x c. unfold fold_char.
  destruct (is_equalp t); [now rewrite fold_ascii_idem | trivial].
Qed.

(** A base string hashes as any other string with its characters. *)
Lemma base_hash_content t d :
  Forall (fun c => 0 <= c < 256) d ->
  (if is_equalp t then hash_string_ci d else cl_hash_string d) =
  hash_string_content d (is_equalp t).
Proof.
  intros Hd. destruct (is_equalp t); [|reflexivity].
  unfold hash_string_ci, hash_string_content. rewrite <- (map_id d) at 1.
  apply fold_left_map_ext. apply (Forall_impl _ _ _ Hd). intros x Hx c.
  now rewrite fold_ascii_byte.
Qed.

Section Hashing.
Variables (t : ht_test) (H : obj -> Prop).
Hypothesis KH : key_heap t H.

Lemma hash_canon a : H a -> hash_obj t (canon t a) = hash_obj t a.
Proof.
  pattern a. apply obj_tree_ind; clear a.
  - intros a. destruct a as [| | | | | | | | | |w d|w d| |w l|w l|]; trivial; intros Ha.
    all: pose proof (kh_string _ _ KH) as S8.
    all: destruct t; try reflexivity; cbn [canon canon_float is_equalp].
    all: try solve [case_match; reflexivity | apply char_hash_fold | apply content_hash_fold].
    + etransitivity; [apply (content_hash_fold CL_HT_TEST_EQUALP)|].
      symmetry. apply (base_hash_content CL_HT_TEST_EQUALP). eauto.
    + cbn [hash_obj is_equalp]. rewrite length_map. now destruct l.
    + cbn [hash_obj is_equalp]. rewrite length_map. now destruct l.
  - intros w x y Ix Iy [Hx _]%(kh_cons _ _ KH). specialize (Ix Hx).
    destruct t; cbn [canon hash_obj canon_float]; rewrite ?Ix; trivial.
  - intros w x y Ix Iy [Hx Hy]%(kh_complex _ _ KH). specialize (Ix Hx). specialize (Iy Hy).
    destruct t; cbn [canon hash_obj canon_float]; rewrite ?Ix, ?Iy; trivial.
  - intros w s l Il Ha. pose proof (kh_vector _ _ KH _ _ _ Ha) as Hl.
    destruct t, s; try reflexivity.
    + apply (content_hash_fold CL_HT_TEST_EQUAL).
    + apply (content_hash_fold CL_HT_TEST_EQUALP).
    + cbn [canon hash_obj is_equalp]. rewrite length_map. destruct l as [|e l]; [trivial|].
      apply Forall_cons in Hl as [He _]. apply Forall_cons in Il as [Ie _]. cbn. now rewrite Ie.
Qed.

(** The laws of the hash tables. *)
Lemma obj_key_laws : KeyLaws obj t H.
Proof.
  constructor; cbn [Hashtable.keys_equal Hashtable.hash_obj obj_key_ops].
  - intros a Ha. now apply (keys_equal_word t H KH).
  - intros a b Ha Hb. now rewrite !(keys_equal_canon t H KH).
  - intros a b c Ha Hb Hc. rewrite !(keys_equal_canon t H KH) by trivial. congruence.
  - intros a b Ha Hb. rewrite (keys_equal_canon t H KH) by trivial. intros E.
    rewrite <- (hash_canon a Ha), <- (hash_canon b Hb). now rewrite E.
Qed.

End Hashing.

(** ** Moving objects *)

(** CL_HEAP_P, of an object and of a word. *)
Definition CL_HEAP_P (a : obj) : bool :=
  match a with NIL | FIXNUM _ | CHAR _ => false | _ => true end.
Definition heap_word (w : Z) : Prop := w <> 0 /\ Z.land w 3 = 0.

(** The compactor's forwarding of every reference. *)
Fixpoint relocate (f : Z -> Z) (a : obj) : obj :=
  match a with
  | NIL => NIL
  | FIXNUM v => FIXNUM v
  | CHAR c => CHAR c
  | SYMBOL w => SYMBOL (f w)
  | CONS w x y => CONS (f w) (relocate f x) (relocate f y)
  | BIGNUM w s l => BIGNUM (f w) s l
  | RATIO w n d => RATIO (f w) n d
  | COMPLEX w x y => COMPLEX (f w) (relocate f x) (relocate f y)
  | SINGLE w b => SINGLE (f w) b
  | DOUBLE w b => DOUBLE (f w) b
  | STRING w d => STRING (f w) d
  | WIDE_STRING w d => WIDE_STRING (f w) d
  | VECTOR w s l => VECTOR (f w) s (map (relocate f) l)
  | BIT_VECTOR w l => BIT_VECTOR (f w) l
  | BYTE_VECTOR w l => BYTE_VECTOR (f w) l
  | OTHER w => OTHER (f w)
  end.

(** The objects after the move. *)
Definition moved_heap (f : Z -> Z) (H : obj -> Prop) (b : obj) : Prop :=
  exists a, H a /\ b = relocate f a.

(** A forwarding function: NIL stays, heap words become heap words, and
    distinct objects stay distinct ([g] takes them back). *)
Record forwarding (f g : Z -> Z) (H : obj -> Prop) : Prop := {
  fw_nil : f 0 = 0;
  fw_back w : g (f w) = w;
  fw_heap w : heap_word w -> heap_word (f w);
  fw_word a : H a -> CL_HEAP_P a = true -> heap_word (word a) }.

Lemma relocate_back f g : (forall w, g (f w) = w) -> forall a, relocate g (relocate f a) = a.
Proof.
  intros G a. pattern a. apply obj_tree_ind; clear a.
  - intros []; cbn; now rewrite ?G.
  - intros w x y Ix Iy. cbn. now rewrite G, Ix, Iy.
  - intros w x y Ix Iy. cbn. now rewrite G, Ix, Iy.
  - intros w s l Il. cbn. rewrite G. f_equal. induction Il as [|e l E Il IH]; cbn; congruence.
Qed.

Lemma char_at_relocate f e : char_at (relocate f e) = char_at e.
Proof. now destruct e. Qed.

Lemma canon_relocate f t a : f 0 = 0 -> canon t (relocate f a) = relocate f (canon t a).
Proof.
  intros F. destruct (decide (t = CL_HT_TEST_EQ)) as [->|Nt]; [now destruct a|].
  pattern a. apply obj_tree_ind; clear a.
  - intros []; trivial; destruct t; cbn; rewrite ?map_map; try now rewrite ?F.
    all: try (case_match; cbn; now rewrite ?F).
  - intros w x y Ix Iy. destruct t; cbn; now rewrite ?F, ?Ix, ?Iy.
  - intros w x y Ix Iy. destruct t; cbn; now rewrite ?F, ?Ix, ?Iy.
  - intros w s l Il.
    assert (Ec : map char_at (map (relocate f) l) = map char_at l)
      by (rewrite map_map; apply map_ext; intros; apply char_at_relocate).
    assert (El : map (canon t) (map (relocate f) l) = map (relocate f) (map (canon t) l)).
    { rewrite !map_map. clear Ec. induction Il as [|e l E Il IH]; cbn; congruence. }
    destruct t, s; cbn [relocate canon canon_float is_equalp]; rewrite ?Ec, ?El, ?F; trivial.
Qed.

Lemma land_3_fixnum v : Z.land (CL_MAKE_FIXNUM v) 3 <> 0.
Proof.
  intros E. apply (f_equal (fun z => Z.testbit z 0)) in E. unfold CL_MAKE_FIXNUM in E.
  rewrite Z.land_spec, Z.lor_spec in E. cbn in E. now rewrite orb_true_r in E.
Qed.

Lemma land_3_char c : Z.land (CL_MAKE_CHAR c) 3 <> 0.
Proof.
  intros E. apply (f_equal (fun z => Z.testbit z 1)) in E. unfold CL_MAKE_CHAR in E.
  rewrite Z.land_spec, Z.lor_spec in E. cbn in E. now rewrite orb_true_r in E.
Qed.

Lemma immediate_word a : CL_HEAP_P a = false -> ~ heap_word (word a).
Proof.
  intros E [H0 H3]. destruct a; try discriminate; cbn [word] in *; [easy | |].
  - now apply land_3_fixnum in H3.
  - now apply land_3_char in H3.
Qed.

Section Moving.
Variables (t : ht_test) (H : obj -> Prop) (f g : Z -> Z).
Hypothesis KH : key_heap t H.
Hypothesis FW : forwarding f g H.

Lemma relocate_word a : CL_HEAP_P a = true -> word (relocate f a) = f (word a).
Proof. now destruct a. Qed.

Lemma relocate_immediate a : CL_HEAP_P a = false -> relocate f a = a.
Proof. now destruct a. Qed.

Lemma relocate_heap_p a : CL_HEAP_P (relocate f a) = CL_HEAP_P a.
Proof. now destruct a. Qed.

Lemma relocate_words a b :
  H a -> H b -> word (relocate f a) = word (relocate f b) -> a = b.
Proof.
  intros Ha Hb E.
  assert (G : forall x, H x -> CL_HEAP_P x = true -> heap_word (word (relocate f x))).
  { intros x Hx X. rewrite relocate_word by trivial. apply (fw_heap _ _ _ FW).
    now apply (fw_word _ _ _ FW). }
  destruct (CL_HEAP_P a) eqn:A, (CL_HEAP_P b) eqn:B.
  - rewrite !relocate_word in E by trivial. apply (kh_word _ _ KH); trivial.
    rewrite <- (fw_back _ _ _ FW (word a)), <- (fw_back _ _ _ FW (word b)). now f_equal.
  - exfalso. rewrite (relocate_immediate b B) in E. apply (immediate_word b B).
    rewrite <- E. now apply G.
  - exfalso. rewrite (relocate_immediate a A) in E. apply (immediate_word a A).
    rewrite E. now apply G.
  - rewrite !relocate_immediate in E by trivial. now apply (kh_word _ _ KH).
Qed.

Lemma moved_in a : H a -> moved_heap f H (relocate f a).
Proof. intros Ha. now exists a. Qed.

(** The moved heap is a heap. *)
Lemma moved_key_heap : key_heap t (moved_heap f H).
Proof.
  constructor.
  - intros a b (a' & Ha & ->) (b' & Hb & ->) E. now rewrite (relocate_words a' b').
  - intros w x y ([] & Ha & [=]). apply (kh_cons _ _ KH) in Ha as [? ?]. subst.
    split; now apply moved_in.
  - intros w x y ([] & Ha & [=]). apply (kh_complex _ _ KH) in Ha as [? ?]. subst.
    split; now apply moved_in.
  - intros w x y ([] & Ha & [=]). apply (kh_real _ _ KH) in Ha as [? ?]. subst.
    now destruct realpart, imagpart.
  - intros w s l ([] & Ha & [=]). apply (kh_vector _ _ KH) in Ha. subst. apply Forall_map.
    apply (Forall_impl _ _ _ Ha). intros e He. now exists e.
  - intros w l ([] & Ha & [=]). apply (kh_bits _ _ KH) in Ha. subst.
    apply (Forall_impl _ _ _ Ha). intros i Hi. now exists (FIXNUM i).
  - intros w l ([] & Ha & [=]). apply (kh_bytes _ _ KH) in Ha. subst.
    apply (Forall_impl _ _ _ Ha). intros i Hi. now exists (FIXNUM i).
  - intros w d ([] & Ha & [=]). subst. now apply (kh_string _ _ KH) in Ha.
  - intros w n d ([] & Ha & [=]). subst. now apply (kh_ratio _ _ KH) in Ha.
  - intros w b ([] & Ha & [=]). subst. now apply (kh_single _ _ KH) in Ha.
  - intros w b ([] & Ha & [=]). subst. now apply (kh_double _ _ KH) in Ha.
  - intros w l ([] & Ha & [=]). subst. now apply (kh_fill _ _ KH) in Ha.
Qed.

Lemma real_hash_relocate a :
  t <> CL_HT_TEST_EQ -> is_real a = true -> hash_obj t (relocate f a) = hash_obj t a.
Proof. intros Nt R. destruct a; try discriminate; destruct t; try contradiction; reflexivity. Qed.

(** A key that is not address-sensitive hashes as before the move. *)
Lemma insensitive_hash a :
  H a -> gc_key_addr_sensitive (relocate f a) t = false ->
  hash_obj t (relocate f a) = hash_obj t a.
Proof.
  destruct (decide (t = CL_HT_TEST_EQ)) as [Et|Nt].
  { rewrite Et. now destruct a. }
  pattern a. apply obj_tree_ind; clear a.
  - intros []; trivial; intros Ha S; destruct t; cbn in S |- *; congruence.
  - intros w x y Ix _ [Hx _]%(kh_cons _ _ KH) S.
    destruct t; cbn [gc_key_addr_sensitive relocate] in S; try discriminate;
      cbn [hash_obj relocate]; now rewrite Ix.
  - intros w x y _ _ [Rx Ry]%(kh_real _ _ KH) _.
    pose proof (real_hash_relocate x Nt Rx) as Ex. pose proof (real_hash_relocate y Nt Ry) as Ey.
    destruct t; [contradiction | ..]; cbn [hash_obj relocate]; now rewrite Ex, Ey.
  - intros w s l _ _ S. destruct t; [contradiction | discriminate..].
Qed.

Lemma obj_move_laws : MoveLaws obj t H (relocate f) (moved_heap f H).
Proof.
  constructor; cbn [Hashtable.keys_equal Hashtable.hash_obj Hashtable.gc_key_addr_sensitive obj_key_ops].
  - intros a Ha. now exists a.
  - intros a b Ha Hb. apply eq_true_iff_eq.
    rewrite (keys_equal_canon t H KH a b) by trivial.
    rewrite (keys_equal_canon t _ moved_key_heap) by now apply moved_in.
    rewrite !canon_relocate by apply FW. split; [|now intros ->].
    intros E. apply (f_equal (relocate g)) in E.
    now rewrite !(relocate_back f g (fw_back _ _ _ FW)) in E.
  - exact insensitive_hash.
Qed.

End Moving.

(** ** A small heap *)

(** A string under two identities, a list that holds one of them, and a key of
    another kind. *)
Definition sample_a : obj := STRING 64 [97; 98].
Definition sample_b : obj := WIDE_STRING 128 [97; 98].
Definition sample_list : obj := CONS 192 sample_a NIL.
Definition sample_sym : obj := SYMBOL 256.
Definition sample_heap (x : obj) : Prop :=
  In x [NIL; FIXNUM 1; sample_a; sample_b; sample_list; sample_sym].

Ltac in_cases :=
  repeat match goal with
    | H : sample_heap _ |- _ => unfold sample_heap in H; cbn [In] in H
    | H : _ \/ _ |- _ => destruct H as [H|H]
    | H : False |- _ => destruct H
    end.

Lemma sample_key_heap t : key_heap t sample_heap.
Proof.
  constructor.
  - intros a b Ha Hb E. in_cases; subst; try reflexivity; vm_compute in E; discriminate.
  - intros w x y Hc. in_cases; try discriminate. injection Hc as <- <- <-.
    split; unfold sample_heap; cbn; tauto.
  - intros w x y Hc. in_cases; discriminate.
  - intros w x y Hc. in_cases; discriminate.
  - intros w s l Hc. in_cases; discriminate.
  - intros w l Hc. in_cases; discriminate.
  - intros w l Hc. in_cases; discriminate.
  - intros w d Hc. in_cases; try discriminate. injection Hc as <- <-. repeat constructor; lia.
  - intros w n d Hc. in_cases; discriminate.
  - intros w b Hc. in_cases; discriminate.
  - intros w b Hc. in_cases; discriminate.
  - intros w l Hc. in_cases; discriminate.
Qed.

Ltac in_sample := unfold sample_heap; cbn; tauto.

(** * Properties *)

(** C29: keys_equal is an equivalence on the objects of a [key_heap] and hash_obj
    respects it, under each of the four tests: two keys that the test calls
    equal get the same hash word, of which every table uses the same low bits.
    SXHASH of EQUAL objects is the same non-negative fixnum.  A [key_heap] has no
    float that is minus zero, and under EQUALP no character vector with a fill
    pointer: the code breaks the property on both ([zeros_hash_apart],
    [fill_pointer_strings_hash_apart]). *)
Theorem keys_equal_hash_correct t (H : obj -> Prop) a b c :
  key_heap t H -> H a -> H b -> H c ->
  keys_equal t a a = true /\
  (keys_equal t a b = keys_equal t b a) /\
  (keys_equal t a b = true -> keys_equal t b c = true -> keys_equal t a c = true) /\
  (keys_equal t a b = true -> hash_obj t a = hash_obj t b) /\
  (keys_equal t a b = true -> t = CL_HT_TEST_EQUAL -> bi_sxhash a = bi_sxhash b) /\
  (exists v, 0 <= v < 2 ^ 30 /\ bi_sxhash a = Fix v).
Proof.
  intros KH Ha Hb Hc. pose proof (obj_key_laws t H KH) as L.
  assert (Hh : keys_equal t a b = true -> hash_obj t a = hash_obj t b)
    by exact (keys_equal_hash a b Ha Hb).
  split; [exact (keys_equal_refl a Ha)|].
  split; [exact (keys_equal_comm t H a b Ha Hb)|].
  split; [exact (keys_equal_trans a b c Ha Hb Hc)|].
  split; [exact Hh|].
  split; [intros E ->; unfold bi_sxhash; now rewrite (Hh E)|].
  exists (Z.land (hash_obj CL_HT_TEST_EQUAL a) 1073741823).
  set (h := hash_obj _ _).
  assert (R : 0 <= Z.land h 1073741823 < 2 ^ 30)
    by (change 1073741823 with (2 ^ 30 - 1); rewrite land_mask by lia; apply Z.mod_pos_bound; lia).
  split; [trivial|]. unfold bi_sxhash. fold h. rewrite i32_small by lia.
  apply make_fixnum_small. unfold fixnum_range, CL_FIXNUM_MIN, CL_FIXNUM_MAX. lia.
Qed.

Lemma keys_equal_hash_correct_witness :
  keys_equal CL_HT_TEST_EQUAL sample_a sample_b = true /\
  hash_obj CL_HT_TEST_EQUAL sample_a = hash_obj CL_HT_TEST_EQUAL sample_b.
Proof.
  assert (E : keys_equal CL_HT_TEST_EQUAL sample_a sample_b = true) by reflexivity.
  split; [exact E|].
  apply (keys_equal_hash_correct CL_HT_TEST_EQUAL sample_heap sample_a sample_b sample_sym
           (sample_key_heap _)); [in_sample | in_sample | in_sample | exact E].
Defined.

(** C28: a hash table is the finite map its history describes.  From an empty
    table, plain or synchronized, of any admissible size, any interleaving of
    insertions (each thread preparing its cells and its vector before it takes
    the lock), removals and clearings leaves a well-formed table, in which
    GETHASH of any key answers with the latest value stored under an equal key
    and not removed since, or with the default. *)
Theorem hash_table_run_correct t (H : obj -> Prop) (n : Z) (sy : bool)
    (evs : list (ht_event obj obj)) (s : ht_sys obj obj) :
  key_heap t H -> 0 <= n <= CL_HT_MAX_BUCKETS ->
  (exists ht0, cl_make_hashtable n t = Ok ht0 /\
     sys_run {| table := {| test := test ht0; count := count ht0;
                            bucket_count := bucket_count ht0; sync := sy;
                            buckets := buckets ht0 |};
                pending := ∅ |} evs s) ->
  Forall (event_ok H) evs -> Z.of_nat (length evs) < 2 ^ 32 ->
  ht_wf t H (table s) /\
  forall k default_val, H k ->
    bi_gethash k (table s) default_val =
    match map_of t evs k with Some v => (v, true) | None => (default_val, false) end.
Proof.
  intros KH Hn (ht0 & Hm & R) He Hl. pose proof (obj_key_laws t H KH) as L.
  destruct (cl_make_hashtable_spec (V := obj) n t H Hn) as (ht1 & Hm1 & W & C & _ & E & _).
  rewrite Hm1 in Hm. injection Hm as <-.
  assert (S0 : sys_ok t H [] {| table := {| test := test ht1; count := count ht1;
                            bucket_count := bucket_count ht1; sync := sy;
                            buckets := buckets ht1 |}; pending := ∅ |}).
  { assert (W' : ht_wf t H {| test := test ht1; count := count ht1;
                              bucket_count := bucket_count ht1; sync := sy;
                              buckets := buckets ht1 |}) by (destruct W; now constructor).
    constructor; cbn; trivial.
    - lia.
    - intros k Hk. rewrite (ht_find_entries t H) by trivial. unfold entries in *. cbn. now rewrite E.
    - intros tid len key value. now rewrite lookup_empty. }
  destruct (sys_run_ok t H _ evs s R He Hl S0) as [Hw _ Hf _].
  split; [trivial|]. intros k d Hk. rewrite <- Hf by trivial.
  unfold bi_gethash, ht_find. now destruct (chain_find _ _ _).
Qed.

(** Two threads insert under equal keys; the second to take the lock wins. *)
Definition sample_table : CL_Hashtable obj obj :=
  {| test := CL_HT_TEST_EQUAL; count := 0; bucket_count := 2; sync := true; buckets := [[]; []] |}.

Definition sample_final : CL_Hashtable obj obj :=
  setf_gethash_commit None
    (setf_gethash_commit None sample_table sample_b NIL) sample_a (FIXNUM 1).

Lemma sample_table_wf : ht_wf CL_HT_TEST_EQUAL sample_heap sample_table.
Proof.
  constructor; cbn; trivial; try (now constructor).
  - exists 1. split; [lia | reflexivity].
  - intros i c Hc. destruct i as [|[|i]]; cbn in Hc; try discriminate; injection Hc as <-; constructor.
Qed.

Lemma hash_table_run_correct_witness :
  bi_gethash sample_b sample_final sample_sym = (FIXNUM 1, true).
Proof.
  set (s0 := {| table := sample_table; pending := ∅ |} : ht_sys obj obj).
  set (p1 := <[1%nat := (None, sample_a, FIXNUM 1)]> (∅ : gmap nat (option Z * obj * obj))).
  set (p2 := <[2%nat := (None, sample_b, NIL)]> p1).
  assert (R : sys_run s0 [Put sample_a (FIXNUM 1); Put sample_b NIL]
                {| table := sample_final; pending := delete 1%nat (delete 2%nat p2) |}).
  { apply (run_step s0 [Put sample_b NIL]
             {| table := setf_gethash_commit None sample_table sample_b NIL;
                pending := delete 2%nat p2 |} [Put sample_a (FIXNUM 1)]).
    2: { exact (step_commit {| table := setf_gethash_commit None sample_table sample_b NIL;
                               pending := delete 2%nat p2 |} 1 None sample_a (FIXNUM 1) eq_refl). }
    apply (run_step s0 [] {| table := sample_table; pending := p2 |} [Put sample_b NIL]).
    2: { exact (step_commit {| table := sample_table; pending := p2 |} 2 None sample_b NIL eq_refl). }
    apply (run_step s0 [] {| table := sample_table; pending := p1 |} []).
    2: { exact (step_prepare {| table := sample_table; pending := p1 |} 2 false sample_b NIL
                  eq_refl eq_refl). }
    apply (run_step s0 [] s0 []); [constructor|].
    exact (step_prepare s0 1 false sample_a (FIXNUM 1) eq_refl eq_refl). }
  destruct (hash_table_run_correct CL_HT_TEST_EQUAL sample_heap 2 true
    [Put sample_a (FIXNUM 1); Put sample_b NIL]
    {| table := sample_final; pending := delete 1%nat (delete 2%nat p2) |} (sample_key_heap _))
    as [_ G].
  - unfold CL_HT_MAX_BUCKETS. lia.
  - eexists. split; [vm_compute; reflexivity | exact R].
  - repeat constructor; in_sample.
  - cbn. lia.
  - exact (G sample_b sample_sym ltac:(in_sample)).
Defined.

(** C30: compaction loses no entry.  After the compactor has moved the keys to
    new addresses, gc_rehash_table (which leaves a table alone if it calls no
    key address-sensitive) gives a well-formed table of the same count, in
    which the moved key of every object finds what the object found before. *)
Theorem gc_rehash_correct t (H : obj -> Prop) (f g : Z -> Z) (ht : CL_Hashtable obj obj) k :
  key_heap t H -> forwarding f g H -> ht_wf t H ht -> H k ->
  let ht' := gc_rehash_table (move_keys (relocate f) ht) in
  ht_wf t (moved_heap f H) ht' /\ count ht' = count ht /\
  ht_find ht' (relocate f k) = ht_find ht k.
Proof.
  intros KH FW W Hk ht'. pose proof (obj_key_laws t H KH) as L.
  pose proof (obj_key_laws t _ (moved_key_heap t H f g KH FW)) as L'.
  pose proof (obj_move_laws t H f g KH FW) as M.
  destruct (gc_rehash_table_spec t H (moved_heap f H) (relocate f) ht W) as (W' & C & P).
  fold ht' in W', C, P. split; [trivial|]. split; [trivial|].
  rewrite (ht_find_entries t (moved_heap f H)) by (trivial; now apply moved_in).
  rewrite (ht_find_entries t H) by trivial.
  rewrite (chain_find_perm t (moved_heap f H) _ _ (relocate f k) P);
    [| apply W' | now apply moved_in | apply W'].
  exact (moved_find t H (moved_heap f H) (relocate f) _ k (wf_keys _ _ _ W) Hk).
Qed.

(** An EQ table whose key moves by 8192 bytes. *)
Definition sample_eq_table : CL_Hashtable obj obj :=
  bi_setf_gethash false true sample_sym
    {| test := CL_HT_TEST_EQ; count := 0; bucket_count := 4; sync := false;
       buckets := [[]; []; []; []] |} (FIXNUM 1).

Definition sample_forward (w : Z) : Z := if w =? 256 then 8448 else if w =? 8448 then 256 else w.

Lemma gc_rehash_correct_witness :
  ht_find (gc_rehash_table (move_keys (relocate sample_forward) sample_eq_table)) (SYMBOL 8448) =
  Some (FIXNUM 1).
Proof.
  destruct (gc_rehash_correct CL_HT_TEST_EQ sample_heap sample_forward sample_forward
              sample_eq_table sample_sym) as (_ & _ & G).
  - apply sample_key_heap.
  - constructor.
    + reflexivity.
    + intros w. unfold sample_forward. repeat case_match; lia.
    + intros w [N E]. unfold sample_forward. repeat case_match; split; trivial; lia.
    + intros a Ha E. in_cases; subst; try discriminate; split; trivial; discriminate.
  - assert (Hk : sample_heap sample_sym) by in_sample.
    pose proof (obj_key_laws CL_HT_TEST_EQ sample_heap (sample_key_heap _)) as L.
    destruct (cl_make_hashtable_spec (K := obj) (V := obj) 4 CL_HT_TEST_EQ sample_heap)
      as (ht0 & E & W & _); [unfold CL_HT_MAX_BUCKETS; lia|].
    vm_compute in E. injection E as <-.
    apply (bi_setf_gethash_spec CL_HT_TEST_EQ sample_heap false true _ sample_sym (FIXNUM 1) W Hk).
    cbn. lia.
  - in_sample.
  - exact G.
Defined.

(** MAKE-HASH-TABLE.  With :SIZE r it builds an empty, well-formed table
    of a power-of-two size that takes r entries (at most 786432) without
    growing; every result of any argument list is empty and well formed for
    the test the arguments name; a negative size is a type error, an unknown
    test an argument error, and no argument list fails for want of storage. *)
Theorem bi_make_hash_table_correct (H : obj -> Prop) (r : Z) (args : list ht_arg) :
  (0 <= r <= CL_FIXNUM_MAX ->
   exists ht : CL_Hashtable obj obj,
     bi_make_hash_table [KW_SIZE; FixnumArg r] = Ok ht /\ ht_wf CL_HT_TEST_EQL H ht /\
     entries ht = [] /\ Z.min r 786432 <= u32 (bucket_count ht * 3) / 4) /\
  match @bi_make_hash_table obj obj args with
  | Ok ht => ht_wf (test ht) H ht /\ entries ht = [] /\
             exists size, parse_keywords args CL_HT_TEST_EQL CL_HT_DEFAULT_BUCKETS =
                          Ok (test ht, size)
  | Err e => e <> CL_ERR_STORAGE /\
             parse_keywords args CL_HT_TEST_EQL CL_HT_DEFAULT_BUCKETS = Err e
  end /\
  (r < 0 -> @bi_make_hash_table obj obj [KW_SIZE; FixnumArg r] = Err CL_ERR_TYPE) /\
  @bi_make_hash_table obj obj [KW_TEST; OtherArg] = Err CL_ERR_ARGS.
Proof.
  split; [|split; [|split; [|reflexivity]]].
  - unfold CL_FIXNUM_MAX. intros Hr. destruct (parse_size_spec r Hr) as (size & E & Hs & Hb).
    unfold CL_HT_MAX_BUCKETS in *.
    destruct (cl_make_hashtable_spec (K := obj) (V := obj) size CL_HT_TEST_EQL H)
      as (ht & Em & W & _ & _ & En & Hc); [unfold CL_HT_MAX_BUCKETS; lia|].
    exists ht. unfold bi_make_hash_table. cbn [parse_keywords]. rewrite E. cbn [bind].
    rewrite Em. pose proof (pow2_range _ (wf_size _ _ _ W)).
    rewrite u32_small by lia. repeat split; trivial; try apply W. apply Hb. lia.
  - unfold bi_make_hash_table.
    pose proof (parse_keywords_ok args CL_HT_TEST_EQL CL_HT_DEFAULT_BUCKETS) as P.
    destruct (parse_keywords _ _ _) as [[t size]|e]; cbn [bind].
    + destruct (cl_make_hashtable_spec (K := obj) (V := obj) size t H)
        as (ht & Em & W & _ & _ & En & _); [apply P; unfold CL_HT_DEFAULT_BUCKETS, CL_HT_MAX_BUCKETS; lia|].
      rewrite Em, (wf_test _ _ _ W). eauto.
    + auto.
  - intros Hr. unfold bi_make_hash_table. cbn [parse_keywords parse_size].
    now rewrite (proj2 (Z.ltb_lt r 0) Hr).
Qed.

Lemma bi_make_hash_table_correct_witness :
  exists ht : CL_Hashtable obj obj,
    bi_make_hash_table [KW_SIZE; FixnumArg 100] = Ok ht /\
    Z.min 100 786432 <= u32 (bucket_count ht * 3) / 4.
Proof.
  destruct (bi_make_hash_table_correct sample_heap 100 []) as [G _].
  destruct G as (ht & E & _ & _ & B); [unfold CL_FIXNUM_MAX; lia|].
  exists ht. split; [exact E | exact B].
Defined.

(** Growth.  An insertion on the plain path never leaves more than three
    entries to four buckets unless the table has its maximal size, if the
    allocation of bucket vectors succeeds; and the locked path of a
    synchronized table, without interference by other threads, builds the very
    same table as the plain path. *)
Theorem bi_setf_gethash_growth t (H : obj -> Prop) (ht : CL_Hashtable obj obj) alloc key value :
  key_heap t H -> ht_wf t H ht -> H key -> count ht + 1 < 2 ^ 32 ->
  (ht_load ht -> ht_load (bi_setf_gethash false true key ht value)) /\
  bi_setf_gethash_sync alloc ht key value =
  bi_setf_gethash false alloc key ht value.
Proof.
  intros KH W Hk Hc. pose proof (obj_key_laws t H KH) as L.
  assert (E : sync ht && false = false) by apply andb_false_r.
  split.
  - intros HL. unfold bi_setf_gethash. rewrite E.
    pose proof (ht_update_spec t H ht key value W Hk) as U.
    destruct (ht_update ht key value) as [ht'|] eqn:Eu.
    + unfold ht_update in Eu. destruct (chain_update _ _ _ _); [|discriminate].
      injection Eu as <-. exact HL.
    + destruct (ht_add_spec t H ht key value W Hk U Hc) as (Wa & Ca & _).
      apply (ht_maybe_rehash_load t H); [exact Wa|].
      rewrite Ca. unfold ht_load in HL. cbn [bucket_count ht_add set_buckets]. lia.
  - unfold bi_setf_gethash. rewrite E. now apply (sync_put_plain t H).
Qed.

Lemma bi_setf_gethash_growth_witness :
  ht_load (bi_setf_gethash false true sample_a sample_table NIL).
Proof.
  apply (bi_setf_gethash_growth CL_HT_TEST_EQUAL sample_heap sample_table true sample_a NIL).
  - apply sample_key_heap.
  - apply sample_table_wf.
  - in_sample.
  - cbn. lia.
  - left. vm_compute. discriminate.
Defined.

(** The other readers of a table.  %HASH-TABLE-PAIRS lists, and MAPHASH
    visits (in the opposite order), exactly the entries, no two with equal
    keys, and each is what GETHASH finds; HASH-TABLE-COUNT is their number; EQUALP of two tables of one test
    holds exactly if they find matching values, or none, for every key. *)
Theorem table_readers_correct t (H : obj -> Prop) (a b : CL_Hashtable obj obj)
    (val_eq : obj -> obj -> bool) :
  key_heap t H -> ht_wf t H a -> ht_wf t H b ->
  distinct t (bi_hash_table_pairs a) /\
  (forall S (func : obj -> obj -> S -> S) s,
     bi_maphash func a s =
     fold_right (fun entry s => func entry.1 entry.2 s) s (bi_hash_table_pairs a)) /\
  (forall k v, H k ->
     ht_find a k = Some v <->
     exists k0, (k0, v) ∈ bi_hash_table_pairs a /\ keys_equal t k0 k = true) /\
  (count a < 2 ^ 30 ->
   bi_hash_table_count a = Fix (Z.of_nat (length (bi_hash_table_pairs a)))) /\
  (cl_hashtable_equalp false a b val_eq = true <->
   forall k, H k ->
     match ht_find a k, ht_find b k with
     | Some v, Some v' => val_eq v v' = true
     | None, None => True
     | _, _ => False
     end).
Proof.
  intros KH Wa Wb. pose proof (obj_key_laws t H KH) as L.
  rewrite bi_hash_table_pairs_entries.
  split; [|split; [|split; [|split]]].
  - apply (distinct_perm t H (entries a)); [apply Permutation_rev | apply Wa | apply Wa].
  - intros S func s. rewrite bi_maphash_entries. symmetry.
    apply (fold_left_rev_right (fun (entry : obj * obj) s => func entry.1 entry.2 s)).
  - intros k v Hk. rewrite (ht_find_entries t H) by trivial.
    rewrite (chain_find_spec t H) by (trivial; apply Wa).
    setoid_rewrite <- (Permutation_rev (entries a)). reflexivity.
  - intros Hc. unfold bi_hash_table_count. pose proof (wf_count _ _ _ Wa) as E.
    rewrite length_rev, <- E. apply make_fixnum_small.
    unfold fixnum_range, CL_FIXNUM_MIN, CL_FIXNUM_MAX. lia.
  - now apply (cl_hashtable_equalp_spec t H).
Qed.

Lemma table_readers_correct_witness :
  ht_find sample_final sample_b = Some (FIXNUM 1) <->
  exists k0, (k0, FIXNUM 1) ∈ bi_hash_table_pairs sample_final /\
             keys_equal CL_HT_TEST_EQUAL k0 sample_b = true.
Proof.
  pose proof (obj_key_laws CL_HT_TEST_EQUAL sample_heap (sample_key_heap _)) as L.
  assert (W : ht_wf CL_HT_TEST_EQUAL sample_heap sample_final).
  { assert (W0 : ht_wf CL_HT_TEST_EQUAL sample_heap sample_table) by apply sample_table_wf.
    destruct (setf_gethash_commit_spec CL_HT_TEST_EQUAL sample_heap None sample_table sample_b NIL)
      as [W1 _]; [exact W0 | in_sample | cbn; lia | discriminate |].
    refine (proj1 (setf_gethash_commit_spec CL_HT_TEST_EQUAL sample_heap None _ sample_a (FIXNUM 1)
              W1 _ _ _)); [in_sample | vm_compute; reflexivity | discriminate]. }
  destruct (table_readers_correct CL_HT_TEST_EQUAL sample_heap sample_final sample_final
              (fun _ _ => true) (sample_key_heap _) W W) as (_ & _ & G & _).
  apply G. in_sample.
Defined.

(** ** Where hash and comparison disagree *)

(** Positive and negative zero compare equal and hash apart, under EQL, EQUAL
    and EQUALP. *)
Lemma zeros_hash_apart t w w' :
  t <> CL_HT_TEST_EQ ->
  keys_equal t (SINGLE w 0) (SINGLE w' 2147483648) = true /\
  hash_obj t (SINGLE w 0) <> hash_obj t (SINGLE w' 2147483648).
Proof.
  intros Nt. split.
  - destruct t; [contradiction | ..]; cbn [keys_equal]; destruct (word _ =? word _); reflexivity.
  - destruct t; [contradiction | ..]; vm_compute; discriminate.
Qed.

(** Under EQUALP a character vector with a fill pointer and a general vector
    of the same characters compare equal and hash apart. *)
Lemma fill_pointer_strings_hash_apart w w' :
  keys_equal CL_HT_TEST_EQUALP (VECTOR w true [CHAR 97]) (VECTOR w' false [CHAR 97]) = true /\
  hash_obj CL_HT_TEST_EQUALP (VECTOR w true [CHAR 97]) <>
  hash_obj CL_HT_TEST_EQUALP (VECTOR w' false [CHAR 97]).
Proof.
  split; [|vm_compute; discriminate].
  cbn [keys_equal]. destruct (word _ =? word _); reflexivity.
Qed.

(** Under EQUALP a table keeps 1 and 1.0 apart, which the predicate EQUALP
    does not. *)
Lemma equalp_table_numbers w : 
  keys_equal CL_HT_TEST_EQUALP (FIXNUM 1) (SINGLE (4 * w) 1065353216) = false.
Proof.
  cbn [keys_equal]. destruct (Z.eqb_spec (word (FIXNUM 1)) (word (SINGLE (4 * w) 1065353216))) as [E|];
    [|reflexivity]. cbn [word] in E. change (CL_MAKE_FIXNUM 1) with 3 in E. lia.
Qed.
