(* ===== verification/Opcodes.v ===== *)
(** * The bytecode instruction set: opcodes.h and the tables of peephole.c

    The X-macro CL_OPCODE_LIST of src/src/core/opcodes.h is [opcode_row], one
    row per opcode: its byte, its operand shape and its dataflow flags.
    [cl_opcode_info] is the table lookup, [cl_opnd_len] and
    [cl_opnd_jrel_pos] the two shape facts every decoder uses. *)

From Stdlib Require Import ZArith Lia ZifyBool.
From stdpp Require Import base list.
From S2P Require Import Prelude.
Local Open Scope Z_scope.

Inductive CL_OperandKind : Set :=
| CL_OPND_NONE | CL_OPND_U8 | CL_OPND_U16 | CL_OPND_JREL | CL_OPND_U16_JREL
| CL_OPND_U16_U16 | CL_OPND_CLOSURE | CL_OPND_AMIGA | CL_OPND_U16_U8
| CL_OPND_U8_U8 | CL_OPND_U8_U16_U8 | CL_OPND_U8_JREL | CL_OPND_U8_U16
| CL_OPND_U16_U16_U8.

Definition CL_OPF_MVW : Z := 1.
Definition CL_OPF_MVR : Z := 2.
Definition CL_OPF_PURE : Z := 4.
Definition CL_OPF_UNCOND : Z := 8.

(** The opcodes, in the order of CL_OPCODE_LIST. *)
Inductive opcode : Set :=
| OP_CONST | OP_LOAD | OP_STORE | OP_GLOAD | OP_GSTORE | OP_UPVAL | OP_POP
| OP_DUP | OP_CONS | OP_CAR | OP_CDR | OP_ADD | OP_SUB | OP_MUL | OP_DIV
| OP_EQ | OP_LT | OP_GT | OP_LE | OP_GE | OP_NUMEQ | OP_NOT | OP_JMP
| OP_JNIL | OP_JTRUE | OP_CALL | OP_TAILCALL | OP_RET | OP_CLOSURE | OP_APPLY
| OP_LIST | OP_NIL | OP_T | OP_FLOAD | OP_DEFMACRO | OP_CATCH | OP_ARGC
| OP_UNCATCH | OP_UWPROT | OP_UWPOP | OP_UWRETHROW | OP_MV_LOAD
| OP_MV_TO_LIST | OP_NTH_VALUE | OP_DYNBIND | OP_DYNUNBIND | OP_RPLACA
| OP_RPLACD | OP_ASET | OP_DEFTYPE | OP_HANDLER_PUSH | OP_HANDLER_POP
| OP_RESTART_PUSH | OP_RESTART_POP | OP_ASSERT_TYPE | OP_BLOCK_PUSH
| OP_BLOCK_POP | OP_BLOCK_RETURN | OP_FSTORE | OP_MAKE_CELL | OP_CELL_REF
| OP_CELL_SET_LOCAL | OP_CELL_SET_UPVAL | OP_TAGBODY_PUSH | OP_TAGBODY_POP
| OP_TAGBODY_GO | OP_PROGV_BIND | OP_PROGV_UNBIND | OP_DEFSETF | OP_DEFVAR
| OP_MV_RESET | OP_AMIGA_CALL | OP_STRUCT_REF | OP_STRUCT_SET
| OP_CALL_GLOBAL | OP_TAILCALL_GLOBAL | OP_MV_SAVE | OP_MV_RESTORE
| OP_HANDLER_CASE_PUSH | OP_HANDLER_CASE_POP | OP_STORE_POP | OP_LOAD_LOAD
| OP_LOAD_CALL_GLOBAL | OP_LOAD_STRUCT_REF | OP_LOAD_MV_RESET | OP_LOAD_RET
| OP_EQ_JNIL | OP_GLOAD_JNIL | OP_LOAD_JNIL | OP_LOAD_CONST
| OP_GLOAD_CALL_GLOBAL | OP_GLOAD_EQ_JNIL | OP_LOAD_STORE_POP | OP_POP_LOAD
| OP_AREF | OP_CHAREQ | OP_CMP_BR | OP_PUSH_LOCAL | OP_POP_LOCAL | OP_HALT.

(** One row of CL_OPCODE_LIST: byte value, operand shape, flags. *)
Definition opcode_row (op : opcode) : Z * CL_OperandKind * Z :=
  match op with
  | OP_CONST => (1, CL_OPND_U16, CL_OPF_MVW + CL_OPF_PURE)
  | OP_LOAD => (2, CL_OPND_U8, CL_OPF_PURE)
  | OP_STORE => (3, CL_OPND_U8, 0)
  | OP_GLOAD => (4, CL_OPND_U16, CL_OPF_MVW)
  | OP_GSTORE => (5, CL_OPND_U16, 0)
  | OP_UPVAL => (6, CL_OPND_U8, CL_OPF_MVW + CL_OPF_PURE)
  | OP_POP => (16, CL_OPND_NONE, 0)
  | OP_DUP => (17, CL_OPND_NONE, CL_OPF_PURE)
  | OP_CONS => (32, CL_OPND_NONE, CL_OPF_MVW)
  | OP_CAR => (33, CL_OPND_NONE, CL_OPF_MVW)
  | OP_CDR => (34, CL_OPND_NONE, CL_OPF_MVW)
  | OP_ADD => (48, CL_OPND_NONE, CL_OPF_MVW)
  | OP_SUB => (49, CL_OPND_NONE, CL_OPF_MVW)
  | OP_MUL => (50, CL_OPND_NONE, CL_OPF_MVW)
  | OP_DIV => (51, CL_OPND_NONE, CL_OPF_MVW)
  | OP_EQ => (64, CL_OPND_NONE, CL_OPF_MVW)
  | OP_LT => (65, CL_OPND_NONE, CL_OPF_MVW)
  | OP_GT => (66, CL_OPND_NONE, CL_OPF_MVW)
  | OP_LE => (67, CL_OPND_NONE, CL_OPF_MVW)
  | OP_GE => (68, CL_OPND_NONE, CL_OPF_MVW)
  | OP_NUMEQ => (69, CL_OPND_NONE, CL_OPF_MVW)
  | OP_NOT => (80, CL_OPND_NONE, CL_OPF_MVW)
  | OP_JMP => (96, CL_OPND_JREL, CL_OPF_UNCOND)
  | OP_JNIL => (97, CL_OPND_JREL, 0)
  | OP_JTRUE => (98, CL_OPND_JREL, 0)
  | OP_CALL => (112, CL_OPND_U8, CL_OPF_MVW + CL_OPF_MVR)
  | OP_TAILCALL => (113, CL_OPND_U8, CL_OPF_MVR + CL_OPF_MVW)
  | OP_RET => (114, CL_OPND_NONE, CL_OPF_MVR + CL_OPF_UNCOND)
  | OP_CLOSURE => (115, CL_OPND_CLOSURE, CL_OPF_MVW)
  | OP_APPLY => (116, CL_OPND_NONE, CL_OPF_MVW + CL_OPF_MVR)
  | OP_LIST => (128, CL_OPND_U8, CL_OPF_MVW)
  | OP_NIL => (129, CL_OPND_NONE, CL_OPF_MVW + CL_OPF_PURE)
  | OP_T => (130, CL_OPND_NONE, CL_OPF_MVW + CL_OPF_PURE)
  | OP_FLOAD => (131, CL_OPND_U16, CL_OPF_MVW)
  | OP_DEFMACRO => (132, CL_OPND_U16, 0)
  | OP_CATCH => (133, CL_OPND_JREL, 0)
  | OP_ARGC => (134, CL_OPND_NONE, CL_OPF_MVW)
  | OP_UNCATCH => (135, CL_OPND_NONE, 0)
  | OP_UWPROT => (136, CL_OPND_JREL, 0)
  | OP_UWPOP => (137, CL_OPND_NONE, 0)
  | OP_UWRETHROW => (138, CL_OPND_NONE, 0)
  | OP_MV_LOAD => (139, CL_OPND_U8, CL_OPF_MVR)
  | OP_MV_TO_LIST => (140, CL_OPND_NONE, CL_OPF_MVR + CL_OPF_MVW)
  | OP_NTH_VALUE => (141, CL_OPND_NONE, CL_OPF_MVR + CL_OPF_MVW)
  | OP_DYNBIND => (142, CL_OPND_U16, 0)
  | OP_DYNUNBIND => (143, CL_OPND_U8, 0)
  | OP_RPLACA => (144, CL_OPND_NONE, CL_OPF_MVW)
  | OP_RPLACD => (145, CL_OPND_NONE, CL_OPF_MVW)
  | OP_ASET => (146, CL_OPND_NONE, CL_OPF_MVW)
  | OP_DEFTYPE => (147, CL_OPND_U16, 0)
  | OP_HANDLER_PUSH => (148, CL_OPND_U16, 0)
  | OP_HANDLER_POP => (149, CL_OPND_U8, 0)
  | OP_RESTART_PUSH => (150, CL_OPND_U16, 0)
  | OP_RESTART_POP => (151, CL_OPND_U8, 0)
  | OP_ASSERT_TYPE => (152, CL_OPND_U16, 0)
  | OP_BLOCK_PUSH => (153, CL_OPND_U16_JREL, 0)
  | OP_BLOCK_POP => (154, CL_OPND_NONE, 0)
  | OP_BLOCK_RETURN => (155, CL_OPND_U16, CL_OPF_MVR + CL_OPF_UNCOND)
  | OP_FSTORE => (156, CL_OPND_U16, 0)
  | OP_MAKE_CELL => (157, CL_OPND_NONE, 0)
  | OP_CELL_REF => (158, CL_OPND_NONE, 0)
  | OP_CELL_SET_LOCAL => (159, CL_OPND_U8, 0)
  | OP_CELL_SET_UPVAL => (160, CL_OPND_U8, 0)
  | OP_TAGBODY_PUSH => (161, CL_OPND_U16_JREL, 0)
  | OP_TAGBODY_POP => (162, CL_OPND_NONE, 0)
  | OP_TAGBODY_GO => (163, CL_OPND_U16, CL_OPF_MVR + CL_OPF_UNCOND)
  | OP_PROGV_BIND => (164, CL_OPND_NONE, 0)
  | OP_PROGV_UNBIND => (165, CL_OPND_NONE, 0)
  | OP_DEFSETF => (166, CL_OPND_U16_U16, 0)
  | OP_DEFVAR => (167, CL_OPND_U16, 0)
  | OP_MV_RESET => (168, CL_OPND_NONE, CL_OPF_MVW)
  | OP_AMIGA_CALL => (169, CL_OPND_AMIGA, CL_OPF_MVW)
  | OP_STRUCT_REF => (170, CL_OPND_U8, CL_OPF_MVW)
  | OP_STRUCT_SET => (171, CL_OPND_U8, CL_OPF_MVW)
  | OP_CALL_GLOBAL => (172, CL_OPND_U16_U8, CL_OPF_MVW + CL_OPF_MVR)
  | OP_TAILCALL_GLOBAL => (173, CL_OPND_U16_U8, CL_OPF_MVW + CL_OPF_MVR)
  | OP_MV_SAVE => (174, CL_OPND_NONE, CL_OPF_MVR)
  | OP_MV_RESTORE => (175, CL_OPND_NONE, CL_OPF_MVW)
  | OP_HANDLER_CASE_PUSH => (176, CL_OPND_U16_JREL, 0)
  | OP_HANDLER_CASE_POP => (177, CL_OPND_NONE, 0)
  | OP_STORE_POP => (178, CL_OPND_U8, 0)
  | OP_LOAD_LOAD => (179, CL_OPND_U8_U8, 0)
  | OP_LOAD_CALL_GLOBAL => (180, CL_OPND_U8_U16_U8, CL_OPF_MVW + CL_OPF_MVR)
  | OP_LOAD_STRUCT_REF => (181, CL_OPND_U8_U8, CL_OPF_MVW)
  | OP_LOAD_MV_RESET => (182, CL_OPND_U8, CL_OPF_MVW)
  | OP_LOAD_RET => (183, CL_OPND_U8, CL_OPF_MVR + CL_OPF_UNCOND)
  | OP_EQ_JNIL => (184, CL_OPND_JREL, CL_OPF_MVW)
  | OP_GLOAD_JNIL => (185, CL_OPND_U16_JREL, CL_OPF_MVW)
  | OP_LOAD_JNIL => (186, CL_OPND_U8_JREL, 0)
  | OP_LOAD_CONST => (187, CL_OPND_U8_U16, CL_OPF_MVW)
  | OP_GLOAD_CALL_GLOBAL => (188, CL_OPND_U16_U16_U8, CL_OPF_MVW + CL_OPF_MVR)
  | OP_GLOAD_EQ_JNIL => (189, CL_OPND_U16_JREL, CL_OPF_MVW)
  | OP_LOAD_STORE_POP => (190, CL_OPND_U8_U8, 0)
  | OP_POP_LOAD => (191, CL_OPND_U8, 0)
  | OP_AREF => (192, CL_OPND_U8, CL_OPF_MVW)
  | OP_CHAREQ => (193, CL_OPND_NONE, CL_OPF_MVW)
  | OP_CMP_BR => (194, CL_OPND_U8_JREL, CL_OPF_MVW)
  | OP_PUSH_LOCAL => (195, CL_OPND_U8, CL_OPF_MVW)
  | OP_POP_LOCAL => (196, CL_OPND_U8, CL_OPF_MVW)
  | OP_HALT => (255, CL_OPND_NONE, CL_OPF_UNCOND)
  end.

Definition CL_OPCODE_LIST : list opcode :=
  [OP_CONST; OP_LOAD; OP_STORE; OP_GLOAD; OP_GSTORE; OP_UPVAL; OP_POP;
   OP_DUP; OP_CONS; OP_CAR; OP_CDR; OP_ADD; OP_SUB; OP_MUL; OP_DIV; OP_EQ;
   OP_LT; OP_GT; OP_LE; OP_GE; OP_NUMEQ; OP_NOT; OP_JMP; OP_JNIL; OP_JTRUE;
   OP_CALL; OP_TAILCALL; OP_RET; OP_CLOSURE; OP_APPLY; OP_LIST; OP_NIL;
   OP_T; OP_FLOAD; OP_DEFMACRO; OP_CATCH; OP_ARGC; OP_UNCATCH; OP_UWPROT;
   OP_UWPOP; OP_UWRETHROW; OP_MV_LOAD; OP_MV_TO_LIST; OP_NTH_VALUE;
   OP_DYNBIND; OP_DYNUNBIND; OP_RPLACA; OP_RPLACD; OP_ASET; OP_DEFTYPE;
   OP_HANDLER_PUSH; OP_HANDLER_POP; OP_RESTART_PUSH; OP_RESTART_POP;
   OP_ASSERT_TYPE; OP_BLOCK_PUSH; OP_BLOCK_POP; OP_BLOCK_RETURN; OP_FSTORE;
   OP_MAKE_CELL; OP_CELL_REF; OP_CELL_SET_LOCAL; OP_CELL_SET_UPVAL;
   OP_TAGBODY_PUSH; OP_TAGBODY_POP; OP_TAGBODY_GO; OP_PROGV_BIND;
   OP_PROGV_UNBIND; OP_DEFSETF; OP_DEFVAR; OP_MV_RESET; OP_AMIGA_CALL;
   OP_STRUCT_REF; OP_STRUCT_SET; OP_CALL_GLOBAL; OP_TAILCALL_GLOBAL;
   OP_MV_SAVE; OP_MV_RESTORE; OP_HANDLER_CASE_PUSH; OP_HANDLER_CASE_POP;
   OP_STORE_POP; OP_LOAD_LOAD; OP_LOAD_CALL_GLOBAL; OP_LOAD_STRUCT_REF;
   OP_LOAD_MV_RESET; OP_LOAD_RET; OP_EQ_JNIL; OP_GLOAD_JNIL; OP_LOAD_JNIL;
   OP_LOAD_CONST; OP_GLOAD_CALL_GLOBAL; OP_GLOAD_EQ_JNIL; OP_LOAD_STORE_POP;
   OP_POP_LOAD; OP_AREF; OP_CHAREQ; OP_CMP_BR; OP_PUSH_LOCAL; OP_POP_LOCAL;
   OP_HALT].

Definition opcode_value (op : opcode) : Z := (opcode_row op).1.1.
Definition opcode_operands (op : opcode) : CL_OperandKind := (opcode_row op).1.2.
Definition opcode_flags (op : opcode) : Z := (opcode_row op).2.

(** [info->flags & f] as a condition. *)
Definition has_flag (op : opcode) (f : Z) : bool := negb (Z.land (opcode_flags op) f =? 0).

(** cl_opcode_info: the row of a byte, [None] for a byte that is no opcode.
    The pass keeps the opcode itself, whose row the functions above read. *)
Definition cl_opcode_info (byte : Z) : option opcode :=
  List.find (fun op => opcode_value op =? byte) CL_OPCODE_LIST.

(** cl_opnd_len: the operand byte count, [None] (-1) for CLOSURE. *)
Definition cl_opnd_len (kind : CL_OperandKind) : option nat :=
  match kind with
  | CL_OPND_NONE => Some 0%nat
  | CL_OPND_U8 => Some 1%nat
  | CL_OPND_U16 => Some 2%nat
  | CL_OPND_JREL => Some 4%nat
  | CL_OPND_U16_JREL => Some 6%nat
  | CL_OPND_U16_U16 => Some 4%nat
  | CL_OPND_U16_U8 => Some 3%nat
  | CL_OPND_AMIGA => Some 9%nat
  | CL_OPND_U8_U8 => Some 2%nat
  | CL_OPND_U8_U16_U8 => Some 4%nat
  | CL_OPND_U8_JREL => Some 5%nat
  | CL_OPND_U8_U16 => Some 3%nat
  | CL_OPND_U16_U16_U8 => Some 5%nat
  | CL_OPND_CLOSURE => None
  end.

(** cl_opnd_jrel_pos: where the i32 offset sits, counted from the opcode
    byte; 0 when the shape has none. *)
Definition cl_opnd_jrel_pos (kind : CL_OperandKind) : nat :=
  match kind with
  | CL_OPND_JREL => 1
  | CL_OPND_U16_JREL => 3
  | CL_OPND_U8_JREL => 2
  | _ => 0
  end.

(** The OP_CMP_BR kind byte: comparison in bits 0-2, polarity in bit 3. *)
Definition CL_CMP_BR_LT : Z := 0.
Definition CL_CMP_BR_GT : Z := 1.
Definition CL_CMP_BR_LE : Z := 2.
Definition CL_CMP_BR_GE : Z := 3.
Definition CL_CMP_BR_NUMEQ : Z := 4.
Definition CL_CMP_BR_CHAREQ : Z := 5.
Definition CL_CMP_BR_CMP_MASK : Z := 7.
Definition CL_CMP_BR_IF_TRUE : Z := 8.

(** ** The table is consistent *)

Lemma cl_opcode_info_value op : cl_opcode_info (opcode_value op) = Some op.
Proof. destruct op; reflexivity. Qed.

Lemma cl_opcode_info_Some byte op : cl_opcode_info byte = Some op -> opcode_value op = byte.
Proof. intros [_ ?%Z.eqb_eq]%List.find_some. done. Qed.

#[export] Instance opcode_value_inj : Inj (=) (=) opcode_value.
Proof.
  intros a b E. apply (f_equal cl_opcode_info) in E. rewrite !cl_opcode_info_value in E.
  by injection E.
Qed.

#[export] Instance opcode_eq_dec : EqDecision opcode.
Proof.
  refine (fun a b => cast_if (decide (opcode_value a = opcode_value b)));
    [by apply (inj opcode_value) | by intros ->].
Defined.

Lemma opcode_value_byte op : 0 < opcode_value op < 256.
Proof. destruct op; done. Qed.

(** A jump operand fits inside its operand bytes, after any index. *)
Lemma jrel_pos_fits kind n :
  cl_opnd_len kind = Some n -> cl_opnd_jrel_pos kind <> 0%nat ->
  (cl_opnd_jrel_pos kind + 4 = S n)%nat.
Proof. destruct kind; naive_solver. Qed.

(** An opcode with a jump operand never has the variable-length shape. *)
Lemma jrel_fixed kind :
  cl_opnd_jrel_pos kind <> 0%nat -> exists n, cl_opnd_len kind = Some n.
Proof. destruct kind; naive_solver. Qed.
