(* ===== verification/PeepCode.v ===== *)
(** * The instruction list of the peephole pass: decoding and re-encoding

    Translation of the data, peep_decode, peep_mark_targets and peep_encode of
    src/src/core/peephole.c.  A byte buffer is the list of its bytes; the
    [raw] pointer of an instruction is the list of its own bytes; positions
    and indices are naturals, jump offsets integers.  A constant of the pool is
    what the pass reads of it ([pool_entry]). *)

From Stdlib Require Import ZArith Lia ZifyBool.
From stdpp Require Import base option list.
From S2P Require Import Prelude Opcodes.

(** What peep_decode asks of a constant: a bytecode template with its
    n_upvalues, a list with its length when it is proper, anything else. *)
Inductive pool_entry : Set :=
| Template (n_upvalues : nat)
| TypeList (len : nat)
| OtherConstant.

(** PeepInsn.  The PEEP_* bits of [flags] are four booleans; [synth] is
    [Some] when synth_len is 1. *)
Record PeepInsn : Set := {
  old_pos : nat; new_pos : nat; raw : list Z; raw_len : nat;
  jump_target : option nat; fused_with : option nat; own_len : nat; op : opcode;
  deleted : bool; target : bool; fused : bool; pinned : bool; synth : option Z }.

Record PeepCode : Set := { insns : list PeepInsn; constants : option (list pool_entry) }.

Definition count (pc : PeepCode) : nat := length (insns pc).

(** ** Updates of one instruction *)

Definition set_deleted (x : PeepInsn) : PeepInsn :=
  {| old_pos := old_pos x; new_pos := new_pos x; raw := raw x; raw_len := raw_len x;
     jump_target := jump_target x; fused_with := fused_with x; own_len := own_len x;
     op := op x; deleted := true; target := target x; fused := fused x;
     pinned := pinned x; synth := synth x |}.

Definition set_target (b : bool) (x : PeepInsn) : PeepInsn :=
  {| old_pos := old_pos x; new_pos := new_pos x; raw := raw x; raw_len := raw_len x;
     jump_target := jump_target x; fused_with := fused_with x; own_len := own_len x;
     op := op x; deleted := deleted x; target := b; fused := fused x;
     pinned := pinned x; synth := synth x |}.

Definition set_pinned (x : PeepInsn) : PeepInsn :=
  {| old_pos := old_pos x; new_pos := new_pos x; raw := raw x; raw_len := raw_len x;
     jump_target := jump_target x; fused_with := fused_with x; own_len := own_len x;
     op := op x; deleted := deleted x; target := target x; fused := fused x;
     pinned := true; synth := synth x |}.

Definition set_jump (t : option nat) (x : PeepInsn) : PeepInsn :=
  {| old_pos := old_pos x; new_pos := new_pos x; raw := raw x; raw_len := raw_len x;
     jump_target := t; fused_with := fused_with x; own_len := own_len x;
     op := op x; deleted := deleted x; target := target x; fused := fused x;
     pinned := pinned x; synth := synth x |}.

Definition set_op (o : opcode) (x : PeepInsn) : PeepInsn :=
  {| old_pos := old_pos x; new_pos := new_pos x; raw := raw x; raw_len := raw_len x;
     jump_target := jump_target x; fused_with := fused_with x; own_len := own_len x;
     op := o; deleted := deleted x; target := target x; fused := fused x;
     pinned := pinned x; synth := synth x |}.

(** op = o; raw_len = 1; own_len = 0: an instruction of one byte. *)
Definition set_bare (o : opcode) (x : PeepInsn) : PeepInsn :=
  {| old_pos := old_pos x; new_pos := new_pos x; raw := raw x; raw_len := 1;
     jump_target := jump_target x; fused_with := fused_with x; own_len := 0;
     op := o; deleted := deleted x; target := target x; fused := fused x;
     pinned := pinned x; synth := synth x |}.

Definition set_new_pos (p : nat) (x : PeepInsn) : PeepInsn :=
  {| old_pos := old_pos x; new_pos := p; raw := raw x; raw_len := raw_len x;
     jump_target := jump_target x; fused_with := fused_with x; own_len := own_len x;
     op := op x; deleted := deleted x; target := target x; fused := fused x;
     pinned := pinned x; synth := synth x |}.

(** Replace instruction [i] of the list by its image. *)
Definition upd (i : nat) (f : PeepInsn -> PeepInsn) (pc : PeepCode) : PeepCode :=
  {| insns := alter f i (insns pc); constants := constants pc |}.

(** ** Bytes *)

Definition byte_at (l : list Z) (i : nat) : Z := nth i l 0%Z.

Definition peep_read_u16 (p : list Z) : Z :=
  Z.lor (Z.shiftl (byte_at p 0) 8) (byte_at p 1).

Definition peep_read_i32 (p : list Z) : Z :=
  i32 (Z.lor (Z.lor (Z.lor (u32 (Z.shiftl (byte_at p 0) 24)) (Z.shiftl (byte_at p 1) 16))
                    (Z.shiftl (byte_at p 2) 8)) (byte_at p 3)).

Definition i32_bytes (v : Z) : list Z :=
  [Z.land (Z.shiftr v 24) 255; Z.land (Z.shiftr v 16) 255;
   Z.land (Z.shiftr v 8) 255; Z.land v 255].

(** peep_write_i32 at offset [pos] of a buffer. *)
Definition peep_write_i32 (pos : nat) (v : Z) (buf : list Z) : list Z :=
  take pos buf ++ i32_bytes v ++ drop (pos + 4) buf.

(** ** Positions *)

(** The loop of peep_index_of_pos on [lo..hi]; the fuel is the count. *)
Fixpoint index_search (fuel : nat) (l : list PeepInsn) (pos : nat) (lo hi : Z) : option nat :=
  match fuel with
  | O => None
  | S fuel =>
      if (hi <? lo)%Z then None else
      let mid := (lo + (hi - lo) / 2)%Z in
      match l !! Z.to_nat mid with
      | None => None
      | Some x =>
          if old_pos x =? pos then Some (Z.to_nat mid)
          else if old_pos x <? pos then index_search fuel l pos (mid + 1) hi
          else index_search fuel l pos lo (mid - 1)
      end
  end.

Definition peep_index_of_pos (pc : PeepCode) (pos : nat) : option nat :=
  index_search (S (count pc)) (insns pc) pos 0 (Z.of_nat (count pc) - 1).

(** The deleted instructions at the head of a list. *)
Fixpoint deleted_run (l : list PeepInsn) : list PeepInsn :=
  match l with
  | x :: l' => if deleted x then x :: deleted_run l' else []
  | [] => []
  end.

(** [while (t < count && DELETED) t++]: the first live instruction at or
    after [t], or the count. *)
Definition skip_deleted (pc : PeepCode) (t : nat) : nat :=
  t + length (deleted_run (drop t (insns pc))).

Arguments skip_deleted : simpl never.

Definition peep_next_live (pc : PeepCode) (i : nat) : nat := skip_deleted pc (S i).

(** The second result is *crossed_target. *)
Definition peep_next_live_unjoined (pc : PeepCode) (i : nat) : nat * bool :=
  let skipped := deleted_run (drop (S i) (insns pc)) in
  let n := S i + length skipped in
  (n, existsb target skipped
      || match insns pc !! n with Some x => target x | None => false end).

(** ** Decoding *)

(** [pc->constants[idx]], when there is a pool that long. *)
Definition pool_constant (pool : option (list pool_entry)) (idx : Z) : option pool_entry :=
  match pool with
  | None => None
  | Some l => if (idx <? Z.of_nat (length l))%Z then l !! Z.to_nat idx else None
  end.

(** The operand byte count of the instruction at [ip] (CLOSURE reads its
    template); [None] is a bail-out. *)
Definition operand_length (pool : option (list pool_entry)) (code : list Z) (ip : nat)
    (o : opcode) : option nat :=
  match opcode_operands o with
  | CL_OPND_CLOSURE =>
      if length code <? ip + 3 then None else
      match pool_constant pool (peep_read_u16 (drop (ip + 1) code)) with
      | Some (Template n) => Some (2 + 2 * n)
      | _ => None
      end
  | kind => cl_opnd_len kind
  end.

(** The instruction peep_decode stores for [1 + n] bytes at [ip]. *)
Definition decoded_insn (code : list Z) (ip n : nat) (o : opcode) : PeepInsn :=
  {| old_pos := ip; new_pos := 0; raw := take (1 + n) (drop ip code); raw_len := 1 + n;
     jump_target := None; fused_with := None; own_len := n; op := o; deleted := false;
     target := false; fused := false; pinned := false; synth := None |}.

(** The first loop of peep_decode. *)
Fixpoint decode_insns (fuel : nat) (pool : option (list pool_entry)) (code : list Z) (ip : nat)
    : option (list PeepInsn) :=
  match fuel with
  | O => None
  | S fuel =>
      if ip <? length code then
        o ← cl_opcode_info (byte_at code ip);
        n ← operand_length pool code ip o;
        if length code <? ip + 1 + n then None else
        rest ← decode_insns fuel pool code (ip + 1 + n);
        Some (decoded_insn code ip n o :: rest)
      else Some []
  end.

(** The target index of a jump or landing offset: uint32_t arithmetic. *)
Definition resolve_target (pc : PeepCode) (len : nat) (x : PeepInsn) (jpos : nat) : option nat :=
  let off := peep_read_i32 (drop jpos (raw x)) in
  let tpos := u32 (Z.of_nat (old_pos x) + Z.of_nat (raw_len x) + u32 off) in
  if (Z.of_nat len <=? tpos)%Z then None else peep_index_of_pos pc (Z.to_nat tpos).

(** One step of the second loop. *)
Definition resolve_insn (pc : PeepCode) (len : nat) (x : PeepInsn) : option PeepInsn :=
  match cl_opnd_jrel_pos (opcode_operands (op x)) with
  | O => Some x
  | jpos => t ← resolve_target pc len x jpos; Some (set_jump (Some t) x)
  end.

(** Pin the [n] entries of the landing table at [t]. *)
Fixpoint pin_entries (n : nat) (t : nat) (l : list PeepInsn) : option (list PeepInsn) :=
  match n with
  | O => Some l
  | S n =>
      match l !! t with
      | Some e =>
          if decide (op e = OP_JMP) then
            if raw_len e =? 5 then pin_entries n (S t) (alter set_pinned t l) else None
          else None
      | None => None
      end
  end.

(** One step of the HANDLER-CASE loop. *)
Definition pin_landing (pool : option (list pool_entry)) (l : list PeepInsn) (x : PeepInsn)
    : option (list PeepInsn) :=
  if decide (op x = OP_HANDLER_CASE_PUSH) then
    match pool_constant pool (peep_read_u16 (drop 1 (raw x))), jump_target x with
    | Some (TypeList n), Some t =>
        if length l <? t + n then None else pin_entries n t l
    | _, _ => None
    end
  else Some l.

Definition pin_landings (pool : option (list pool_entry)) (l : list PeepInsn)
    : option (list PeepInsn) :=
  foldl (fun acc i => l' ← acc; x ← l' !! i; pin_landing pool l' x) (Some l) (seq 0 (length l)).

Definition peep_decode (pool : option (list pool_entry)) (code : list Z) : option PeepCode :=
  l ← decode_insns (S (length code)) pool code 0;
  l' ← mapM (resolve_insn {| insns := l; constants := pool |} (length code)) l;
  l'' ← pin_landings pool l';
  Some {| insns := l''; constants := pool |}.

(** ** Target marks *)

Definition clear_target (x : PeepInsn) : PeepInsn := set_target (pinned x) x.

(** The target of one live instruction becomes a boundary. *)
Definition mark_target (l : list PeepInsn) (x : PeepInsn) : list PeepInsn :=
  if deleted x then l else
  match jump_target x with
  | Some t => alter (set_target true) t l
  | None => l
  end.

(** peep_mark_targets.  Marking changes no field the second loop reads, so
    the loop runs over the instructions as the first loop left them. *)
Definition peep_mark_targets (pc : PeepCode) : PeepCode :=
  let l := clear_target <$> insns pc in
  {| insns := foldl mark_target l l; constants := constants pc |}.

(** ** Re-encoding *)

(** The members of the instruction at [i]: itself, then along fused_with. *)
Fixpoint member_bytes (fuel : nat) (l : list PeepInsn) (i : nat) : list Z :=
  match fuel with
  | O => []
  | S fuel =>
      match l !! i with
      | None => []
      | Some m =>
          take (own_len m) (drop 1 (raw m)) ++
          match fused_with m with Some j => member_bytes fuel l j | None => [] end
      end
  end.

(** The operand bytes the encoder emits for the instruction [x] at [i]. *)
Definition operand_bytes (l : list PeepInsn) (i : nat) (x : PeepInsn) : list Z :=
  option_list (synth x) ++ member_bytes (length l) l i.

(** Pass 1: positions of the live instructions, and the new length. *)
Fixpoint assign_positions (pos : nat) (l : list PeepInsn) : list PeepInsn * nat :=
  match l with
  | [] => ([], pos)
  | x :: l' =>
      if deleted x then
        let '(r, p) := assign_positions pos l' in (x :: r, p)
      else
        let '(r, p) := assign_positions (pos + raw_len x) l' in (set_new_pos pos x :: r, p)
  end.

(** Pass 2, for the live instruction [x] at [i]: its bytes, with the jump
    offset recomputed from the new positions. *)
Definition emit_insn (pc : PeepCode) (i : nat) (x : PeepInsn) : list Z :=
  let bytes := opcode_value (op x) :: operand_bytes (insns pc) i x in
  match jump_target x with
  | None => bytes
  | Some t =>
      let tpos := match insns pc !! skip_deleted pc t with Some y => new_pos y | None => 0 end in
      let off := i32 (Z.of_nat tpos - Z.of_nat (new_pos x + raw_len x)) in
      peep_write_i32 (cl_opnd_jrel_pos (opcode_operands (op x))) off bytes
  end.

(** The live instructions are emitted at consecutive positions, so the
    output buffer is their concatenation. *)
Definition emit (pc : PeepCode) : list Z :=
  concat (imap (fun i x => if deleted x then [] else emit_insn pc i x) (insns pc)).

Record CL_LineEntry : Set := { pc_of : nat; line : nat }.

(** The inner binary search: the first instruction at [old_pos >= want]. *)
Fixpoint lower_bound (fuel : nat) (l : list PeepInsn) (want : nat) (lo hi : nat) : nat :=
  match fuel with
  | O => lo
  | S fuel =>
      if lo <? hi then
        let mid := lo + (hi - lo) / 2 in
        match l !! mid with
        | Some x => if old_pos x <? want then lower_bound fuel l want (S mid) hi
                    else lower_bound fuel l want lo mid
        | None => lo
        end
      else lo
  end.

(** [while (idx > 0 && DELETED) idx--]. *)
Fixpoint back_to_live (l : list PeepInsn) (idx : nat) : nat :=
  match idx with
  | O => O
  | S i => match l !! idx with
           | Some x => if deleted x then back_to_live l i else idx
           | None => idx
           end
  end.

(** The instruction that runs the code the entry at [want] is about. *)
Definition line_index (pc : PeepCode) (want : nat) : nat :=
  let idx := lower_bound (S (count pc)) (insns pc) want 0 (count pc) in
  let idx := match insns pc !! idx with
             | Some x => if fused x then back_to_live (insns pc) idx else idx
             | None => idx
             end in
  skip_deleted pc idx.

(** One step of the line loop: the entries kept so far and the last pc
    (last_pc = -1 is [None]). *)
Definition remap_line (pc : PeepCode) (acc : list CL_LineEntry * option nat) (e : CL_LineEntry)
    : list CL_LineEntry * option nat :=
  match insns pc !! line_index pc (pc_of e) with
  | None => acc
  | Some x =>
      if decide (acc.2 = Some (new_pos x)) then acc
      else (acc.1 ++ [{| pc_of := new_pos x; line := line e |}], Some (new_pos x))
  end.

Definition remap_lines (pc : PeepCode) (lines : list CL_LineEntry) : list CL_LineEntry :=
  (foldl (remap_line pc) ([], None) lines).1.

(** peep_encode: the new code and the new line table. *)
Definition peep_encode (pc : PeepCode) (lines : list CL_LineEntry) : list Z * list CL_LineEntry :=
  let pc' := {| insns := (assign_positions 0 (insns pc)).1; constants := constants pc |} in
  (emit pc', remap_lines pc' lines).

(** ** cl_bytecode_has_backward_jump *)

(** The scan of the decoder, looking at the sign of each offset; bytes it
    does not understand answer no. *)
Fixpoint backward_scan (fuel : nat) (pool : option (list pool_entry)) (code : list Z) (ip : nat)
    : bool :=
  match fuel with
  | O => false
  | S fuel =>
      if ip <? length code then
        match cl_opcode_info (byte_at code ip) with
        | None => false
        | Some o =>
            match operand_length pool code ip o with
            | None => false
            | Some n =>
                if length code <? ip + 1 + n then false else
                let jpos := cl_opnd_jrel_pos (opcode_operands o) in
                if negb (jpos =? 0) && (peep_read_i32 (drop (ip + jpos) code) <? 0)%Z then true
                else backward_scan fuel pool code (ip + 1 + n)
            end
        end
      else false
  end.

Definition cl_bytecode_has_backward_jump (pool : option (list pool_entry)) (code : list Z) : bool :=
  backward_scan (S (length code)) pool code 0.
