(* ===== verification/Peephole.v ===== *)
(** * The rewrites and the driver of the peephole pass

    Translation of the patterns, the superinstruction fusion and
    cl_peephole_run of src/src/core/peephole.c.  A pattern is a function that
    tries the rewrite at one index ([None] when it does not apply); the C
    loop that tries every index in order is [each_index]. *)

From Stdlib Require Import ZArith Lia ZifyBool.
From stdpp Require Import base option list.
From S2P Require Import Prelude Opcodes PeepCode.

Notation "'require' b ; k" := (if (b : bool) then k else None)
  (at level 10, b at level 100, k at level 200) : amilisp_scope.
Local Open Scope amilisp_scope.

Lemma require_Some {A} (b : bool) (k : option A) r :
  (require b; k) = Some r -> b = true /\ k = Some r.
Proof. by destruct b. Qed.

Definition opcode_eqb (a b : opcode) : bool := bool_decide (a = b).

Lemma opcode_eqb_eq a b : opcode_eqb a b = true <-> a = b.
Proof. apply bool_decide_eq_true. Qed.

(** A loop over the indices that counts the rewrites applied. *)
Definition each_index (f : PeepCode -> nat -> option PeepCode) (pc : PeepCode) : PeepCode * nat :=
  foldl (fun acc i => match f acc.1 i with Some pc' => (pc', S acc.2) | None => acc end)
        (pc, 0) (seq 0 (count pc)).

(** peep_mv_write_is_dead over the instructions from [from] on; [entry] says
    that the next one is the entry of the scan. *)
Fixpoint mv_scan (l : list PeepInsn) (entry allow_entry_target : bool) : bool :=
  match l with
  | [] => false
  | x :: l' =>
      if target x && negb (entry && allow_entry_target) then false
      else if deleted x then mv_scan l' false allow_entry_target
      else if has_flag (op x) CL_OPF_MVR then false
      else if has_flag (op x) CL_OPF_MVW then true
      else if has_flag (op x) CL_OPF_UNCOND then false
      else match jump_target x with Some _ => false | None => mv_scan l' false allow_entry_target end
  end.

Definition peep_mv_write_is_dead (pc : PeepCode) (from : nat) (allow_entry_target : bool) : bool :=
  mv_scan (drop from (insns pc)) true allow_entry_target.

(** ** Jumps *)

(** The JMP becomes the RET it leads to. *)
Definition become_ret (x : PeepInsn) : PeepInsn := set_jump None (set_bare OP_RET x).

(** One hop of peep_thread_jumps for instruction [i]: the rewritten list and
    whether the chase goes on; [None] when it stops unchanged. *)
Definition thread_hop (pc : PeepCode) (i : nat) : option (PeepCode * bool) :=
  x ← insns pc !! i;
  t0 ← jump_target x;
  y ← insns pc !! skip_deleted pc t0;
  if opcode_eqb (op x) OP_JMP && opcode_eqb (op y) OP_RET && negb (pinned x)
  then Some (upd i become_ret pc, false)
  else
    require opcode_eqb (op y) OP_JMP;
    t2 ← jump_target y;
    require negb (t2 =? t0);
    Some (upd i (set_jump (Some t2)) pc, true).

Fixpoint thread_hops (hops : nat) (pc : PeepCode) (i : nat) : PeepCode * nat :=
  match hops with
  | O => (pc, 0)
  | S hops =>
      match thread_hop pc i with
      | None => (pc, 0)
      | Some (pc', false) => (pc', 1)
      | Some (pc', true) => let '(pc'', n) := thread_hops hops pc' i in (pc'', S n)
      end
  end.

Definition threadable (x : PeepInsn) : bool :=
  negb (deleted x) &&
  (opcode_eqb (op x) OP_JMP || opcode_eqb (op x) OP_JNIL || opcode_eqb (op x) OP_JTRUE).

Definition thread_at (pc : PeepCode) (i : nat) : PeepCode * nat :=
  match insns pc !! i with
  | Some x => if threadable x then thread_hops 16 pc i else (pc, 0)
  | None => (pc, 0)
  end.

Definition peep_thread_jumps (pc : PeepCode) : PeepCode * nat :=
  foldl (fun acc i => let '(pc', n) := thread_at acc.1 i in (pc', acc.2 + n))
        (pc, 0) (seq 0 (count pc)).

Definition delete_insn (x : PeepInsn) : PeepInsn := set_jump None (set_deleted x).

Definition jump_to_next_at (pc : PeepCode) (i : nat) : option PeepCode :=
  x ← insns pc !! i;
  require negb (deleted x);
  require opcode_eqb (op x) OP_JMP;
  t ← jump_target x;
  require negb (pinned x);
  let n := peep_next_live pc i in
  require (skip_deleted pc t =? n);
  require (n <? count pc);
  Some (upd i delete_insn pc).

Definition peep_jump_to_next := each_index jump_to_next_at.

(** ** The return site *)

(** The live instruction after [i] reached without crossing a target. *)
Definition next_unjoined (pc : PeepCode) (i : nat) : option (nat * PeepInsn) :=
  let '(n, joined) := peep_next_live_unjoined pc i in
  require negb joined;
  y ← insns pc !! n;
  Some (n, y).

(** The landing at [t] reloads [slot] and returns; the result says whether
    an MV_RESET stands in between. *)
Definition reloads_and_returns (pc : PeepCode) (t : nat) (slot : Z) : option bool :=
  l ← insns pc !! t;
  require opcode_eqb (op l) OP_LOAD;
  require (byte_at (raw l) 1 =? slot)%Z;
  let ri := peep_next_live pc t in
  r ← insns pc !! ri;
  if opcode_eqb (op r) OP_MV_RESET then
    r' ← insns pc !! peep_next_live pc ri;
    require opcode_eqb (op r') OP_RET;
    Some true
  else
    require opcode_eqb (op r) OP_RET;
    Some false.

(** The live instruction after [i]; when it is a POP, the POP and the one
    after it.  Neither may be a target. *)
Definition skip_pop (pc : PeepCode) (i : nat) : option (option nat * (nat * PeepInsn)) :=
  j ← next_unjoined pc i;
  if opcode_eqb (op j.2) OP_POP then j' ← next_unjoined pc j.1; Some (Some j.1, j')
  else Some (None, j).

Definition return_site_at (pc : PeepCode) (i : nat) : option PeepCode :=
  s ← insns pc !! i;
  require negb (deleted s);
  require opcode_eqb (op s) OP_STORE;
  pj ← skip_pop pc i;
  let '(p, (ji, j)) := pj in
  require opcode_eqb (op j) OP_JMP;
  t ← jump_target j;
  reset ← reloads_and_returns pc (skip_deleted pc t) (byte_at (raw s) 1);
  let pc := upd i (if reset : bool then set_bare OP_MV_RESET else set_deleted) pc in
  let pc := match p with Some pi => upd pi set_deleted pc | None => pc end in
  Some (upd ji become_ret pc).

Definition peep_return_site := each_index return_site_at.

Definition dead_store_ret_at (pc : PeepCode) (i : nat) : option PeepCode :=
  s ← insns pc !! i;
  require negb (deleted s);
  require opcode_eqb (op s) OP_STORE;
  let ni := peep_next_live pc i in
  n ← insns pc !! ni;
  r ← (if opcode_eqb (op n) OP_MV_RESET then insns pc !! peep_next_live pc ni else Some n);
  require opcode_eqb (op r) OP_RET;
  Some (upd i set_deleted pc).

Definition peep_dead_store_ret := each_index dead_store_ret_at.

(** ** Dead code *)

(** The loop of peep_dead_code with its [reachable] flag. *)
Fixpoint dead_code_loop (reachable : bool) (l : list PeepInsn) : list PeepInsn * nat :=
  match l with
  | [] => ([], 0)
  | x :: l' =>
      let reachable := target x || reachable in
      if deleted x then
        let '(r, n) := dead_code_loop reachable l' in (x :: r, n)
      else if negb reachable then
        let '(r, n) := dead_code_loop reachable l' in (delete_insn x :: r, S n)
      else
        let '(r, n) := dead_code_loop (negb (has_flag (op x) CL_OPF_UNCOND)) l' in (x :: r, n)
  end.

Definition peep_dead_code (pc : PeepCode) : PeepCode * nat :=
  let '(l, n) := dead_code_loop true (insns pc) in
  ({| insns := l; constants := constants pc |}, n).

(** ** Pairs *)

Definition store_reload_at (pc : PeepCode) (i : nat) : option PeepCode :=
  s ← insns pc !! i;
  require negb (deleted s);
  require opcode_eqb (op s) OP_STORE;
  p ← next_unjoined pc i;
  require opcode_eqb (op p.2) OP_POP;
  l ← next_unjoined pc p.1;
  require opcode_eqb (op l.2) OP_LOAD;
  require (byte_at (raw s) 1 =? byte_at (raw l.2) 1)%Z;
  Some (upd l.1 set_deleted (upd p.1 set_deleted pc)).

Definition peep_store_reload := each_index store_reload_at.

Definition pure_pop_at (pc : PeepCode) (i : nat) : option PeepCode :=
  u ← insns pc !! i;
  require negb (deleted u);
  require has_flag (op u) CL_OPF_PURE;
  p ← next_unjoined pc i;
  require opcode_eqb (op p.2) OP_POP;
  require negb (has_flag (op u) CL_OPF_MVW)
          || peep_mv_write_is_dead pc (peep_next_live pc p.1) false;
  Some (upd p.1 set_deleted (upd i set_deleted pc)).

Definition peep_pure_pop := each_index pure_pop_at.

Definition invert_branch (o : opcode) : opcode :=
  if opcode_eqb o OP_JNIL then OP_JTRUE else OP_JNIL.

Definition not_branch_at (pc : PeepCode) (i : nat) : option PeepCode :=
  n ← insns pc !! i;
  require negb (deleted n);
  require opcode_eqb (op n) OP_NOT;
  j ← next_unjoined pc i;
  require opcode_eqb (op j.2) OP_JNIL || opcode_eqb (op j.2) OP_JTRUE;
  let pc := upd j.1 (set_op (invert_branch (op j.2))) pc in
  let dead := peep_mv_write_is_dead pc (peep_next_live pc j.1) false
              && match jump_target j.2 with
                 | Some t => peep_mv_write_is_dead pc t true
                 | None => false
                 end in
  Some (upd i (if dead : bool then set_deleted else set_op OP_MV_RESET) pc).

Definition peep_not_branch := each_index not_branch_at.

(** ** Superinstructions *)

Definition peep_fused_opcode3 (a b c : opcode) : option opcode :=
  match a, b, c with
  | OP_LOAD, OP_STORE, OP_POP => Some OP_LOAD_STORE_POP
  | OP_GLOAD, OP_EQ, OP_JNIL => Some OP_GLOAD_EQ_JNIL
  | _, _, _ => None
  end.

Definition peep_cmp_br_kind (a b : opcode) : option Z :=
  cmp ← match a with
        | OP_LT => Some CL_CMP_BR_LT
        | OP_GT => Some CL_CMP_BR_GT
        | OP_LE => Some CL_CMP_BR_LE
        | OP_GE => Some CL_CMP_BR_GE
        | OP_NUMEQ => Some CL_CMP_BR_NUMEQ
        | OP_CHAREQ => Some CL_CMP_BR_CHAREQ
        | _ => None
        end;
  match b with
  | OP_JNIL => Some cmp
  | OP_JTRUE => Some (Z.lor cmp CL_CMP_BR_IF_TRUE)
  | _ => None
  end.

Definition peep_fused_opcode (a b : opcode) : option opcode :=
  match a, b with
  | OP_STORE, OP_POP => Some OP_STORE_POP
  | OP_LOAD, OP_LOAD => Some OP_LOAD_LOAD
  | OP_LOAD, OP_CONST => Some OP_LOAD_CONST
  | OP_LOAD, OP_CALL_GLOBAL => Some OP_LOAD_CALL_GLOBAL
  | OP_LOAD, OP_STRUCT_REF => Some OP_LOAD_STRUCT_REF
  | OP_LOAD, OP_MV_RESET => Some OP_LOAD_MV_RESET
  | OP_LOAD, OP_RET => Some OP_LOAD_RET
  | OP_LOAD, OP_JNIL => Some OP_LOAD_JNIL
  | OP_POP, OP_LOAD => Some OP_POP_LOAD
  | OP_EQ, OP_JNIL => Some OP_EQ_JNIL
  | OP_GLOAD, OP_JNIL => Some OP_GLOAD_JNIL
  | OP_GLOAD, OP_CALL_GLOBAL => Some OP_GLOAD_CALL_GLOBAL
  | _, _ => None
  end.

(** peep_absorb(a, prev, m, mi): the updates of head, predecessor and member. *)
Definition absorb_head (m : PeepInsn) (a : PeepInsn) : PeepInsn :=
  {| old_pos := old_pos a; new_pos := new_pos a; raw := raw a; raw_len := raw_len a + own_len m;
     jump_target := match jump_target m with Some t => Some t | None => jump_target a end;
     fused_with := fused_with a; own_len := own_len a; op := op a; deleted := deleted a;
     target := target a; fused := fused a; pinned := pinned a; synth := synth a |}.

Definition chain_to (mi : nat) (x : PeepInsn) : PeepInsn :=
  {| old_pos := old_pos x; new_pos := new_pos x; raw := raw x; raw_len := raw_len x;
     jump_target := jump_target x; fused_with := Some mi; own_len := own_len x; op := op x;
     deleted := deleted x; target := target x; fused := fused x; pinned := pinned x;
     synth := synth x |}.

Definition absorbed (x : PeepInsn) : PeepInsn :=
  {| old_pos := old_pos x; new_pos := new_pos x; raw := raw x; raw_len := raw_len x;
     jump_target := None; fused_with := fused_with x; own_len := own_len x; op := op x;
     deleted := true; target := target x; fused := true; pinned := pinned x;
     synth := synth x |}.

Definition peep_absorb (pc : PeepCode) (a prev mi : nat) (m : PeepInsn) : PeepCode :=
  upd mi absorbed (upd prev (chain_to mi) (upd a (absorb_head m) pc)).

(** [a->op = OP_CMP_BR; a->synth = kind; a->raw_len++]. *)
Definition set_cmp_br (kind : Z) (a : PeepInsn) : PeepInsn :=
  {| old_pos := old_pos a; new_pos := new_pos a; raw := raw a; raw_len := raw_len a + 1;
     jump_target := jump_target a; fused_with := fused_with a; own_len := own_len a;
     op := OP_CMP_BR; deleted := deleted a; target := target a; fused := fused a;
     pinned := pinned a; synth := Some kind |}.

Definition fuse_triple (pc : PeepCode) (i : nat) (a : PeepInsn) (bi : nat) (b : PeepInsn)
    : option (PeepCode * nat) :=
  c ← next_unjoined pc bi;
  o ← peep_fused_opcode3 (op a) (op b) (op c.2);
  Some (peep_absorb (peep_absorb (upd i (set_op o) pc) i i bi b) i bi c.1 c.2, c.1).

Definition fuse_pair (pc : PeepCode) (i : nat) (a : PeepInsn) (bi : nat) (b : PeepInsn)
    : option (PeepCode * nat) :=
  match peep_fused_opcode (op a) (op b) with
  | Some o => Some (peep_absorb (upd i (set_op o) pc) i i bi b, bi)
  | None =>
      kind ← peep_cmp_br_kind (op a) (op b);
      Some (peep_absorb (upd i (set_cmp_br kind) pc) i i bi b, bi)
  end.

(** One iteration: the rewritten list and the last absorbed member. *)
Definition fuse_at (pc : PeepCode) (i : nat) : option (PeepCode * nat) :=
  a ← insns pc !! i;
  require negb (deleted a);
  b ← next_unjoined pc i;
  match fuse_triple pc i a b.1 b.2 with
  | Some r => Some r
  | None => fuse_pair pc i a b.1 b.2
  end.

Fixpoint fuse_loop (fuel : nat) (pc : PeepCode) (i : nat) (changed : nat) : PeepCode * nat :=
  match fuel with
  | O => (pc, changed)
  | S fuel =>
      if i <? count pc then
        match fuse_at pc i with
        | Some (pc', last) => fuse_loop fuel pc' (S last) (S changed)
        | None => fuse_loop fuel pc (S i) changed
        end
      else (pc, changed)
  end.

Definition peep_fuse (cl_peephole_fuse_enabled : bool) (pc : PeepCode) : PeepCode * nat :=
  if cl_peephole_fuse_enabled then fuse_loop (S (count pc)) pc 0 0 else (pc, 0).

(** ** Driver *)

(** Run a rewriting pass, adding to the number of changes. *)
Definition then_run (f : PeepCode -> PeepCode * nat) (acc : PeepCode * nat) : PeepCode * nat :=
  let '(pc, n) := f acc.1 in (pc, acc.2 + n).

Definition peep_round (pc : PeepCode) : PeepCode * nat :=
  let acc := then_run peep_jump_to_next (then_run peep_thread_jumps (peep_mark_targets pc, 0)) in
  let acc := (peep_mark_targets acc.1, acc.2) in
  then_run peep_not_branch (then_run peep_pure_pop (then_run peep_dead_store_ret
    (then_run peep_store_reload (then_run peep_dead_code (then_run peep_return_site acc))))).

Fixpoint peep_rounds (rounds : nat) (pc : PeepCode) (total : nat) : PeepCode * nat :=
  match rounds with
  | O => (pc, total)
  | S rounds =>
      let '(pc', changed) := peep_round pc in
      if changed =? 0 then (pc', total) else peep_rounds rounds pc' (total + changed)
  end.

(** The rewriting of the list: the rounds, then the fusion over fresh marks. *)
Definition peep_rewrite (fuse : bool) (pc : PeepCode) : PeepCode * nat :=
  let '(pc1, total) := peep_rounds 8 pc 0 in
  let '(pc2, n) := peep_fuse fuse (peep_mark_targets pc1) in
  (pc2, total + n).

(** The validation before encoding: every live jump still has a live target. *)
Definition jumps_land (pc : PeepCode) : bool :=
  forallb (fun x => deleted x || match jump_target x with
                                 | Some t => skip_deleted pc t <? count pc
                                 | None => true
                                 end) (insns pc).

Definition CL_PEEPHOLE_MAX_CODE : nat := Z.to_nat 60000.

(** cl_peephole_run: [None] when it returns 0 and leaves the code as it is.
    [alloc] says whether both platform_alloc calls succeed. *)
Definition cl_peephole_run (alloc fuse : bool) (code : list Z) (pool : option (list pool_entry))
    (lines : list CL_LineEntry) : option (list Z * list CL_LineEntry) :=
  require negb (length code =? 0);
  require (length code <=? CL_PEEPHOLE_MAX_CODE);
  require alloc;
  pc ← peep_decode pool code;
  let '(pc', total) := peep_rewrite fuse pc in
  require negb (total =? 0);
  require jumps_land pc';
  Some (peep_encode pc' lines).

(** cl_peephole_optimize, with the compiler's peep_speed_max. *)
Definition cl_peephole_optimize (peep_speed_max : Z) (alloc fuse : bool) (code : list Z)
    (pool : option (list pool_entry)) (lines : list CL_LineEntry) : list Z * list CL_LineEntry :=
  if (peep_speed_max <? 1)%Z then (code, lines)
  else default (code, lines) (cl_peephole_run alloc fuse code pool lines).
