(* ===== verification/Machine.v ===== *)
(** * The virtual machine as the peephole pass sees it

    The dispatch cases of cl_vm_run (src/src/core/vm.c) for the instructions
    the peephole pass rewrites or fuses, over one activation: its locals, its
    operand stack, cl_mv_count and the rest of the world.  Everything else the
    interpreter does is behind the class [VM]: the objects, the constants, the
    signalling of errors, and [exec_other] for the instructions the pass only
    moves.  A call is one step whose outcome is that of the callee, so a callee
    that never returns is a result like any other.  [VMLaws] states what
    opcodes.h promises about every instruction by its flag columns.

    Control addresses are instruction indices.  A non-local exit that lands in
    this activation goes to a landing the activation has registered
    ([landings]); HANDLER-CASE enters entry [k] of its landing table. *)

From Stdlib Require Import ZArith Lia ZifyBool.
From stdpp Require Import base option list sets.
From S2P Require Import Prelude Opcodes PeepCode.

(** ** States and outcomes *)

Record frame (val world : Type) : Type := Frame {
  locals : list val; stack : list val; mv_count : Z; rest : world }.
Arguments Frame {val world}.
Arguments locals {val world}.
Arguments stack {val world}.
Arguments mv_count {val world}.
Arguments rest {val world}.

Inductive outcome (val world result : Type) : Type :=
| Next (f : frame val world)          (* fall through *)
| Jump (f : frame val world)          (* take the instruction's jump *)
| Goto (l k : nat) (f : frame val world)  (* a transfer to entry [k] of the landing [l] *)
| Done (r : result)                   (* the activation is left *)
| Stuck.                              (* no meaning: underflow, a slot out of range *)
Arguments Next {val world result}.
Arguments Jump {val world result}.
Arguments Goto {val world result}.
Arguments Done {val world result}.
Arguments Stuck {val world result}.

(** A registered landing: is it the cleanup of an UNWIND-PROTECT, where is it,
    how many entries has it. *)
Record landing : Set := { l_cleanup : bool; l_label : nat; l_entries : nat }.

(** The errors the modelled cases signal. *)
Inductive vm_error (val : Type) : Type :=
| UnboundVariable (sym : val)
| NotNumber (datum : val) (cmp : Z)
| NotReal (datum : val) (cmp : Z)
| NotCharacter.
Arguments UnboundVariable {val}.
Arguments NotNumber {val}.
Arguments NotReal {val}.
Arguments NotCharacter {val}.

(** What the interpreter takes from the rest of the runtime. *)
Class VM (val world result : Type) : Type := {
  word_eq : val -> val -> bool;                      (* a == b on CL_Obj *)
  CL_NIL : val;
  SYM_T : val;
  constant : nat -> option val;                      (* constants[idx] *)
  upvalue : world -> nat -> val;
  global_value : world -> val -> option val;         (* VM_GLOBAL_VALUE; None: unbound *)
  fixnum_val : val -> option Z;                      (* CL_FIXNUM_P and CL_FIXNUM_VAL *)
  char_p : val -> bool;
  number_p : val -> bool;
  real_p : val -> bool;
  numeric_equal : val -> val -> world -> bool * world;
  arith_compare : val -> val -> world -> Z * world;
  vm_return : val -> Z -> world -> result;
  signal : vm_error val -> frame val world -> outcome val world result;
  exec_other : opcode -> list Z -> option nat -> frame val world -> outcome val world result;
  landings : world -> list landing }.

(** ** The dispatch cases *)

Section Exec.
Context {val world result : Type} `{VM val world result}.

Abbreviation frame := (frame val world).
Abbreviation outcome := (outcome val world result).

Definition push (v : val) (f : frame) : frame :=
  Frame (locals f) (v :: stack f) (mv_count f) (rest f).
Definition set_mv (n : Z) (f : frame) : frame := Frame (locals f) (stack f) n (rest f).
Definition set_rest (w : world) (f : frame) : frame := Frame (locals f) (stack f) (mv_count f) w.
Definition set_stack (s : list val) (f : frame) : frame :=
  Frame (locals f) s (mv_count f) (rest f).
Definition set_locals (l : list val) (f : frame) : frame :=
  Frame l (stack f) (mv_count f) (rest f).

Definition CL_NULL_P (v : val) : bool := word_eq v CL_NIL.
Definition of_bool (b : bool) : val := if b then SYM_T else CL_NIL.

Definition pop (f : frame) (k : val -> frame -> outcome) : outcome :=
  match stack f with v :: s => k v (set_stack s f) | [] => Stuck end.
Definition peek (f : frame) (k : val -> outcome) : outcome :=
  match stack f with v :: _ => k v | [] => Stuck end.
Definition load (slot : Z) (f : frame) (k : val -> outcome) : outcome :=
  match locals f !! Z.to_nat slot with Some v => k v | None => Stuck end.
Definition store (slot : Z) (v : val) (f : frame) (k : frame -> outcome) : outcome :=
  if Z.to_nat slot <? length (locals f) then k (set_locals (<[Z.to_nat slot := v]> (locals f)) f)
  else Stuck.
Definition const (args : list Z) (k : val -> outcome) : outcome :=
  match constant (Z.to_nat (peep_read_u16 args)) with Some v => k v | None => Stuck end.
(** [if (taken) ip += offset]. *)
Definition branch (taken : bool) (f : frame) : outcome := if taken then Jump f else Next f.

Definition op_const (args : list Z) (f : frame) : outcome :=
  const args (fun v => Next (set_mv 1 (push v f))).
Definition op_nil (f : frame) : outcome := Next (set_mv 1 (push CL_NIL f)).
Definition op_t (f : frame) : outcome := Next (set_mv 1 (push SYM_T f)).
Definition op_load (args : list Z) (f : frame) : outcome :=
  load (byte_at args 0) f (fun v => Next (push v f)).
Definition op_store (args : list Z) (f : frame) : outcome :=
  peek f (fun v => store (byte_at args 0) v f Next).

Definition op_gload (args : list Z) (f : frame) : outcome :=
  const args (fun sym =>
    match global_value (rest f) sym with
    | None => signal (UnboundVariable sym) f
    | Some v => Next (set_mv 1 (push v f))
    end).
Definition op_upval (args : list Z) (f : frame) : outcome :=
  Next (set_mv 1 (push (upvalue (rest f) (Z.to_nat (byte_at args 0))) f)).
Definition op_pop (f : frame) : outcome := pop f (fun _ f => Next f).
Definition op_dup (f : frame) : outcome := peek f (fun v => Next (push v f)).
Definition op_not (f : frame) : outcome :=
  pop f (fun a f => Next (set_mv 1 (push (of_bool (CL_NULL_P a)) f))).
Definition op_jnil (f : frame) : outcome := pop f (fun v f => branch (CL_NULL_P v) f).
Definition op_jtrue (f : frame) : outcome := pop f (fun v f => branch (negb (CL_NULL_P v)) f).

(** The result of RET and HALT: the top of the stack, NIL when it is empty. *)
Definition op_ret (f : frame) : outcome :=
  Done (vm_return (match stack f with v :: _ => v | [] => CL_NIL end) (mv_count f) (rest f)).

(** ** Comparisons *)

Definition op_eq (f : frame) : outcome :=
  pop f (fun b f => pop f (fun a f => Next (set_mv 1 (push (of_bool (word_eq a b)) f)))).

(** The relation of a comparison between two machine integers. *)
Definition cmp_fixnums (cmp a b : Z) : bool :=
  if (cmp =? CL_CMP_BR_LT)%Z then (a <? b)%Z
  else if (cmp =? CL_CMP_BR_GT)%Z then (b <? a)%Z
  else if (cmp =? CL_CMP_BR_LE)%Z then (a <=? b)%Z
  else if (cmp =? CL_CMP_BR_GE)%Z then (b <=? a)%Z
  else (a =? b)%Z.

(** VM_ORDER_CMP, with the comparison it is expanded for. *)
Definition VM_ORDER_CMP (cmp : Z) (f : frame) : outcome :=
  pop f (fun b f => pop f (fun a f =>
    match fixnum_val a, fixnum_val b with
    | Some x, Some y => Next (set_mv 1 (push (of_bool (cmp_fixnums cmp x y)) f))
    | _, _ =>
        if negb (real_p a) then signal (NotReal a cmp) f else
        if negb (real_p b) then signal (NotReal b cmp) f else
        let '(c, w) := arith_compare a b (rest f) in
        Next (set_mv 1 (push (of_bool (cmp_fixnums cmp c 0)) (set_rest w f)))
    end)).

Definition op_numeq (f : frame) : outcome :=
  pop f (fun b f => pop f (fun a f =>
    match fixnum_val a, fixnum_val b with
    | Some _, Some _ => Next (set_mv 1 (push (of_bool (word_eq a b)) f))
    | _, _ =>
        if negb (number_p a) then signal (NotNumber a CL_CMP_BR_NUMEQ) f else
        if negb (number_p b) then signal (NotNumber b CL_CMP_BR_NUMEQ) f else
        let '(e, w) := numeric_equal a b (rest f) in
        Next (set_mv 1 (push (of_bool e) (set_rest w f)))
    end)).

Definition op_chareq (f : frame) : outcome :=
  pop f (fun b f => pop f (fun a f =>
    if negb (char_p a) || negb (char_p b) then signal NotCharacter f
    else Next (set_mv 1 (push (of_bool (word_eq a b)) f)))).

(** cl_vm_compare_kind: the answer with the world after it, or an error. *)
Definition cl_vm_compare_kind (a b : val) (cmp : Z) (w : world)
    : (bool * world) + vm_error val :=
  if (cmp =? CL_CMP_BR_CHAREQ)%Z then
    if negb (char_p a) || negb (char_p b) then inr NotCharacter else inl (word_eq a b, w)
  else if (cmp =? CL_CMP_BR_NUMEQ)%Z then
    match fixnum_val a, fixnum_val b with
    | Some _, Some _ => inl (word_eq a b, w)
    | _, _ => if negb (number_p a) then inr (NotNumber a cmp) else
              if negb (number_p b) then inr (NotNumber b cmp) else
              inl (numeric_equal a b w)
    end
  else
    let answer (c : Z) (w : world) :=
      inl (if (cmp =? CL_CMP_BR_LT)%Z then (c <? 0)%Z
           else if (cmp =? CL_CMP_BR_GT)%Z then (0 <? c)%Z
           else if (cmp =? CL_CMP_BR_LE)%Z then (c <=? 0)%Z
           else (0 <=? c)%Z, w) in
    match fixnum_val a, fixnum_val b with
    | Some x, Some y => answer (if (x <? y)%Z then (-1)%Z else if (y <? x)%Z then 1%Z else 0%Z) w
    | _, _ => if negb (real_p a) then inr (NotReal a cmp) else
              if negb (real_p b) then inr (NotReal b cmp) else
              let '(c, w) := arith_compare a b w in answer c w
    end.

(** ** Superinstructions *)

Definition op_cmp_br (args : list Z) (f : frame) : outcome :=
  let kind := byte_at args 0 in
  let cmp := Z.land kind CL_CMP_BR_CMP_MASK in
  let finish (holds : bool) (f : frame) :=
    branch (if (Z.land kind CL_CMP_BR_IF_TRUE =? 0)%Z then negb holds else holds) f in
  pop f (fun b f => pop f (fun a f =>
    let f := set_mv 1 f in
    let slow := match cl_vm_compare_kind a b cmp (rest f) with
                | inl (holds, w) => finish holds (set_rest w f)
                | inr e => signal e f
                end in
    if (cmp <? CL_CMP_BR_CHAREQ)%Z then
      match fixnum_val a, fixnum_val b with
      | Some x, Some y => finish (cmp_fixnums cmp x y) f
      | _, _ => slow
      end
    else if (cmp =? CL_CMP_BR_CHAREQ)%Z && char_p a && char_p b then finish (word_eq a b) f
    else slow)).

Definition op_store_pop (args : list Z) (f : frame) : outcome :=
  pop f (fun v f => store (byte_at args 0) v f Next).
Definition op_load_load (args : list Z) (f : frame) : outcome :=
  load (byte_at args 0) f (fun a => load (byte_at args 1) f (fun b => Next (push b (push a f)))).
Definition op_load_const (args : list Z) (f : frame) : outcome :=
  load (byte_at args 0) f (fun a => const (drop 1 args) (fun k => Next (set_mv 1 (push k (push a f))))).
(** [stack[bp + b] = stack[bp + a]]. *)
Definition op_load_store_pop (args : list Z) (f : frame) : outcome :=
  load (byte_at args 0) f (fun v => store (byte_at args 1) v f Next).
(** [stack[sp - 1] = stack[bp + s]]. *)
Definition op_pop_load (args : list Z) (f : frame) : outcome :=
  pop f (fun _ f => load (byte_at args 0) f (fun v => Next (push v f))).
Definition op_load_mv_reset (args : list Z) (f : frame) : outcome :=
  load (byte_at args 0) f (fun v => Next (set_mv 1 (push v f))).
Definition op_load_jnil (args : list Z) (f : frame) : outcome :=
  load (byte_at args 0) f (fun v => branch (CL_NULL_P v) f).
Definition op_eq_jnil (f : frame) : outcome :=
  pop f (fun b f => pop f (fun a f => branch (negb (word_eq a b)) (set_mv 1 f))).
Definition op_gload_jnil (args : list Z) (f : frame) : outcome :=
  const args (fun sym =>
    match global_value (rest f) sym with
    | None => signal (UnboundVariable sym) f
    | Some v => branch (CL_NULL_P v) (set_mv 1 f)
    end).
Definition op_gload_eq_jnil (args : list Z) (f : frame) : outcome :=
  const args (fun sym =>
    match global_value (rest f) sym with
    | None => signal (UnboundVariable sym) f
    | Some v => pop f (fun a f => branch (negb (word_eq a v)) (set_mv 1 f))
    end).
Definition op_gload_call_global (args : list Z) (f : frame) : outcome :=
  const args (fun sym =>
    match global_value (rest f) sym with
    | None => signal (UnboundVariable sym) f
    | Some v => exec_other OP_CALL_GLOBAL (drop 2 args) None (push v f)
    end).
(** The three that fall through into the tail's own case. *)
Definition op_load_call_global (args : list Z) (f : frame) : outcome :=
  load (byte_at args 0) f (fun v => exec_other OP_CALL_GLOBAL (drop 1 args) None (push v f)).
Definition op_load_struct_ref (args : list Z) (f : frame) : outcome :=
  load (byte_at args 0) f (fun v => exec_other OP_STRUCT_REF (drop 1 args) None (push v f)).
Definition op_load_ret (args : list Z) (f : frame) : outcome :=
  load (byte_at args 0) f (fun v => op_ret (push v f)).

(** The dispatch. *)
Definition exec (o : opcode) (args : list Z) (tgt : option nat) (f : frame) : outcome :=
  match o with
  | OP_CONST => op_const args f
  | OP_NIL => op_nil f
  | OP_T => op_t f
  | OP_LOAD => op_load args f
  | OP_STORE => op_store args f
  | OP_GLOAD => op_gload args f
  | OP_UPVAL => op_upval args f
  | OP_POP => op_pop f
  | OP_DUP => op_dup f
  | OP_EQ => op_eq f
  | OP_LT => VM_ORDER_CMP CL_CMP_BR_LT f
  | OP_GT => VM_ORDER_CMP CL_CMP_BR_GT f
  | OP_LE => VM_ORDER_CMP CL_CMP_BR_LE f
  | OP_GE => VM_ORDER_CMP CL_CMP_BR_GE f
  | OP_NUMEQ => op_numeq f
  | OP_CHAREQ => op_chareq f
  | OP_NOT => op_not f
  | OP_JMP => Jump f
  | OP_JNIL => op_jnil f
  | OP_JTRUE => op_jtrue f
  | OP_RET | OP_HALT => op_ret f
  | OP_MV_RESET => Next (set_mv 1 f)
  | OP_STORE_POP => op_store_pop args f
  | OP_LOAD_LOAD => op_load_load args f
  | OP_LOAD_CALL_GLOBAL => op_load_call_global args f
  | OP_LOAD_STRUCT_REF => op_load_struct_ref args f
  | OP_LOAD_MV_RESET => op_load_mv_reset args f
  | OP_LOAD_RET => op_load_ret args f
  | OP_EQ_JNIL => op_eq_jnil f
  | OP_GLOAD_JNIL => op_gload_jnil args f
  | OP_LOAD_JNIL => op_load_jnil args f
  | OP_LOAD_CONST => op_load_const args f
  | OP_GLOAD_CALL_GLOBAL => op_gload_call_global args f
  | OP_GLOAD_EQ_JNIL => op_gload_eq_jnil args f
  | OP_LOAD_STORE_POP => op_load_store_pop args f
  | OP_POP_LOAD => op_pop_load args f
  | OP_CMP_BR => op_cmp_br args f
  | _ => exec_other o args tgt f
  end.

(** The opcodes that may take their jump. *)
Definition branches (o : opcode) : bool :=
  match o with
  | OP_JMP | OP_JNIL | OP_JTRUE | OP_EQ_JNIL | OP_GLOAD_JNIL | OP_LOAD_JNIL
  | OP_GLOAD_EQ_JNIL | OP_CMP_BR => true
  | _ => false
  end.

End Exec.

(** ** What the flag columns of opcodes.h promise *)

(** The landings an instruction registers when it runs. *)
Definition insn_landings (pool : option (list pool_entry)) (o : opcode) (args : list Z)
    (tgt : option nat) : list landing :=
  match o, tgt with
  | OP_UWPROT, Some t => [{| l_cleanup := true; l_label := t; l_entries := 1 |}]
  | (OP_CATCH | OP_BLOCK_PUSH | OP_TAGBODY_PUSH), Some t =>
      [{| l_cleanup := false; l_label := t; l_entries := 1 |}]
  | OP_HANDLER_CASE_PUSH, Some t =>
      match pool_constant pool (peep_read_u16 args) with
      | Some (TypeList n) => [{| l_cleanup := false; l_label := t; l_entries := n |}]
      | _ => []
      end
  | _, _ => []
  end.

(** The cases and what they are made of, to be opened together. *)
Create HintDb vm_cases.
#[export] Hint Unfold op_const op_nil op_t op_load op_store op_gload op_upval op_pop op_dup op_not op_jnil op_jtrue op_ret op_eq VM_ORDER_CMP op_numeq op_chareq op_cmp_br op_store_pop op_load_load op_load_const op_load_store_pop op_pop_load op_load_mv_reset op_load_jnil op_eq_jnil op_gload_jnil op_gload_eq_jnil op_gload_call_global op_load_call_global op_load_struct_ref op_load_ret push set_mv set_rest set_stack set_locals pop peek load store const branch : vm_cases.

Section Laws.
Context {val world result : Type} `{VM val world result}.

Abbreviation frame := (frame val world).
Abbreviation outcome := (outcome val world result).

(** Equal up to cl_mv_count. *)
Definition same_but_mv (f g : frame) : Prop :=
  locals f = locals g /\ stack f = stack g /\ rest f = rest g.

(** Entry [k] of landing [l] is among [ls]; it is a cleanup. *)
Definition lands_at (ls : list landing) (l k : nat) : Prop :=
  exists e, e ∈ ls /\ l_label e = l /\ k < l_entries e.
Definition cleanup_at (ls : list landing) (l k : nat) : Prop :=
  exists e, e ∈ ls /\ l_label e = l /\ k < l_entries e /\ l_cleanup e = true.

(** Two outcomes that differ in nothing but cl_mv_count, and not even in that
    after a transfer, which restores or sets it, except one that lands in a
    cleanup, which leaves it alone. *)
Definition out_sim (ls : list landing) (o o' : outcome) : Prop :=
  match o, o' with
  | Next f, Next f' | Jump f, Jump f' => same_but_mv f f'
  | Goto l k f, Goto l' k' f' =>
      l = l' /\ k = k' /\ same_but_mv f f' /\ (f = f' \/ cleanup_at ls l k)
  | Done r, Done r' => r = r'
  | Stuck, Stuck => True
  | _, _ => False
  end.

(** The instruction does not look at cl_mv_count. *)
Definition mv_blind (ex : frame -> outcome) (ls : list landing) : Prop :=
  forall f f', same_but_mv f f' -> out_sim (landings (rest f) ++ ls) (ex f) (ex f').

(** On its normal path it overwrites it. *)
Definition mv_writes (ex : frame -> outcome) : Prop :=
  forall f f', same_but_mv f f' ->
    (forall g g', ex f = Next g -> ex f' = Next g' -> g = g') /\
    (forall g g', ex f = Jump g -> ex f' = Jump g' -> g = g').

(** A transfer lands at a registered landing, and the registered landings
    grow only by the instruction's own. *)
Definition lands_ok (ls : list landing) (o : outcome) : Prop :=
  match o with
  | Next g | Jump g => landings (rest g) ⊆ ls
  | Goto l k g => lands_at ls l k /\ landings (rest g) ⊆ ls
  | _ => True
  end.

Definition leaves (o : outcome) : Prop :=
  match o with Next _ | Jump _ => False | _ => True end.

End Laws.

(** The promises, for the constant pool [pool]. *)
Class VMLaws {val world result : Type} (pool : option (list pool_entry))
    (V : VM val world result) : Prop := {
  null_nil : CL_NULL_P CL_NIL = true;
  null_t : CL_NULL_P SYM_T = false;
  fixnum_word a b x y : fixnum_val a = Some x -> fixnum_val b = Some y -> word_eq a b = (x =? y)%Z;
  compare_landings a b w : landings (arith_compare a b w).2 = landings w;
  numeric_landings a b w : landings (numeric_equal a b w).2 = landings w;
  signal_leaves e f : leaves (signal e f);
  signal_blind e : mv_blind (signal e) [];
  signal_lands e f : lands_ok (landings (rest f)) (signal e f);
  other_blind o args tgt :
    has_flag o CL_OPF_MVR = false -> mv_blind (exec_other o args tgt) (insn_landings pool o args tgt);
  other_writes o args tgt :
    has_flag o CL_OPF_MVR = false -> has_flag o CL_OPF_MVW = true -> mv_writes (exec_other o args tgt);
  other_uncond o args tgt f g :
    has_flag o CL_OPF_UNCOND = true -> exec_other o args tgt f <> Next g;
  other_no_jump o args tgt f g : exec_other o args tgt f <> Jump g;
  other_lands o args tgt f :
    lands_ok (landings (rest f) ++ insn_landings pool o args tgt) (exec_other o args tgt f) }.

Section Exec_laws.
Context {val world result : Type} {pool : option (list pool_entry)} {V : VM val world result}
  {L : VMLaws pool V}.

Abbreviation frame := (frame val world).
Abbreviation outcome := (outcome val world result).

#[global] Arguments same_but_mv : simpl never.

#[export] Instance same_but_mv_equiv : Equivalence (same_but_mv (val:=val) (world:=world)).
Proof.
  split.
  - by intros [].
  - intros f g (? & ? & ?). by split_and!.
  - intros f g h (? & ? & ?) (? & ? & ?). split_and!; congruence.
Qed.

(** [f'] is [f] with another count. *)
Lemma same_but_mv_set f f' : same_but_mv (val:=val) (world:=world) f f' -> f' = set_mv (mv_count f') f.
Proof. destruct f, f'. intros (E1 & E2 & E3); cbn in *. by subst. Qed.

Lemma out_sim_refl ls (o : outcome) : out_sim ls o o.
Proof. destruct o; cbn; try reflexivity; try done. split_and!; by try left. Qed.

Lemma out_sim_mono ls ls' (o o' : outcome) : ls ⊆ ls' -> out_sim ls o o' -> out_sim ls' o o'.
Proof.
  intros Hs. destruct o, o'; cbn; auto.
  intros (-> & -> & Hf & Hc). split_and!; auto.
  destruct Hc as [?|(e & ? & ? & ? & ?)]; [by left|right; exists e; auto].
Qed.

Lemma signal_sim e f f' : same_but_mv f f' -> out_sim (landings (rest f)) (signal e f) (signal e f').
Proof. intros E. pose proof (signal_blind e f f' E) as S. by rewrite app_nil_r in S. Qed.

Lemma lands_ok_mono ls ls' (o : outcome) : ls ⊆ ls' -> lands_ok ls o -> lands_ok ls' o.
Proof.
  intros Hs. destruct o; cbn; auto; try (intros; by etrans).
  intros ((e & ? & ? & ?) & ?); split; [exists e; auto|by etrans].
Qed.

(** ** The dispatch keeps the promises *)

Lemma signal_sim_at e (f f' : frame) ls :
  landings (rest f) ⊆ ls -> same_but_mv f f' -> out_sim ls (signal e f) (signal e f').
Proof. intros. eapply out_sim_mono; [done|]. by apply signal_sim. Qed.

Lemma compare_kind_landings a b cmp w p :
  cl_vm_compare_kind a b cmp w = inl p -> landings p.2 = landings w.
Proof.
  unfold cl_vm_compare_kind.
  pose proof (numeric_landings a b w). pose proof (compare_landings a b w).
  repeat case_match; naive_solver.
Qed.

(** Open a dispatch case on a frame in constructor form. *)
Ltac open_case :=
  autounfold with vm_cases; cbn;
  repeat match goal with
    | |- context [match stack ?f with _ => _ end] => is_var f; destruct f; cbn
    end;
  repeat (case_match; cbn; simplify_eq); try done.

(** An instruction that does not observe the count computes the same whatever
    the count is.  HALT is not flagged as an observer but returns it. *)
Lemma exec_blind o args tgt :
  has_flag o CL_OPF_MVR = false -> o <> OP_HALT ->
  mv_blind (exec o args tgt) (insn_landings pool o args tgt).
Proof.
  intros Hf Hh [l s m w] f' E. rewrite (same_but_mv_set _ _ E). clear E. generalize (mv_count f').
  clear f'. intros m'.
  destruct o; try done; cbn [exec];
    try (by apply (other_blind _ args tgt Hf (Frame _ _ _ _) (Frame _ _ _ _))); open_case.
  all: try (apply signal_sim_at; [|done]; cbn; intros ? ?; apply elem_of_app; auto).
  by apply (other_blind OP_STRUCT_REF (drop 1 args) None eq_refl (Frame _ _ _ _) (Frame _ _ _ _)).
Qed.

Lemma signal_not_next e (f g : frame) : signal e f <> Next g.
Proof. intros E. pose proof (signal_leaves e f) as S. by rewrite E in S. Qed.

Lemma signal_not_jump e (f g : frame) : signal e f <> Jump g.
Proof. intros E. pose proof (signal_leaves e f) as S. by rewrite E in S. Qed.

(** An instruction flagged as a writer that is no observer sets the count on
    its normal path. *)
Lemma exec_writes o args tgt :
  has_flag o CL_OPF_MVR = false -> has_flag o CL_OPF_MVW = true -> mv_writes (exec o args tgt).
Proof.
  intros Hr Hw [l s m w] f' E. rewrite (same_but_mv_set _ _ E). clear E. generalize (mv_count f').
  clear f'. intros m'.
  destruct o; try done; cbn [exec];
    try (by apply (other_writes _ args tgt Hr Hw (Frame _ _ _ _) (Frame _ _ _ _)));
    try (apply (other_writes OP_STRUCT_REF (drop 1 args) None)); split; intros g g'; open_case;
    try (by intros ?%signal_not_next); try (by intros ?%signal_not_jump); try congruence.
  - by apply (other_writes OP_STRUCT_REF (drop 1 args) None eq_refl eq_refl
                (Frame _ _ _ _) (Frame _ _ _ _)).
  - by intros ?%other_no_jump.
Qed.

(** Control never falls through an instruction flagged UNCOND. *)
Lemma exec_uncond o args tgt f g : has_flag o CL_OPF_UNCOND = true -> exec o args tgt f <> Next g.
Proof.
  intros Hu. destruct o; try done; cbn [exec]; try (by apply other_uncond); open_case.
Qed.

(** Only the branching opcodes jump. *)
Lemma exec_jump o args tgt f g : exec o args tgt f = Jump g -> branches o = true.
Proof.
  destruct o; try done; cbn [exec]; intros E; exfalso; revert E; try apply other_no_jump; open_case;
    try apply signal_not_jump; try apply other_no_jump.
Qed.

Lemma exec_lands o args tgt f :
  lands_ok (landings (rest f) ++ insn_landings pool o args tgt) (exec o args tgt f).
Proof.
  destruct f as [l s m w].
  destruct o; cbn [exec]; try apply other_lands; cbn [insn_landings rest]; rewrite ?app_nil_r;
    open_case; try apply (signal_lands _ (Frame _ _ _ _)).
  all: try (match goal with
            | E : arith_compare ?a ?b ?w = _ |- _ => pose proof (compare_landings a b w) as C; rewrite E in C
            | E : numeric_equal ?a ?b ?w = _ |- _ => pose proof (numeric_landings a b w) as C; rewrite E in C
            | E : cl_vm_compare_kind _ _ _ _ = inl _ |- _ => pose proof (compare_kind_landings _ _ _ _ _ E) as C
            end; cbn in C; by rewrite C).
  all: match goal with |- context [exec_other ?o ?a ?t ?f] => pose proof (other_lands o a t f) as O end;
    by rewrite app_nil_r in O.
Qed.
End Exec_laws.
