(* ===== verification/PeepSim.v ===== *)
(** * Running an instruction list, and what it means to rewrite one

    [step] runs the instruction at the first live index, [refines] says that a
    rewritten list behaves like the original from every fresh frame on which
    the original makes sense.  [local_sim] is the proof principle of every
    rewrite of peephole.c: the lists agree except at a head, whose old and new
    code are compared by hand, and at the other members of the pattern,
    which no control transfer reaches ([P]).  cl_mv_count may differ where
    nothing observes it ([D]). *)

From Stdlib Require Import ZArith Lia ZifyBool.
From stdpp Require Import base option list sets.
From S2P Require Import Prelude Opcodes PeepCode Machine.

(** ** The first live instruction *)

Definition live_at (pc : PeepCode) (j : nat) (x : PeepInsn) : Prop :=
  insns pc !! j = Some x /\ deleted x = false.

Definition deleted_at (pc : PeepCode) (j : nat) : Prop :=
  exists x, insns pc !! j = Some x /\ deleted x = true.

Lemma skip_step pc t : deleted_at pc t -> skip_deleted pc t = skip_deleted pc (S t).
Proof.
  intros (x & Hx & Hd). unfold skip_deleted.
  rewrite (drop_S _ x t Hx). cbn. rewrite Hd. cbn. lia.
Qed.

Lemma skip_stop pc t x : live_at pc t x -> skip_deleted pc t = t.
Proof.
  intros [Hx Hd]. unfold skip_deleted. rewrite (drop_S _ x t Hx). cbn. rewrite Hd. cbn. lia.
Qed.

Lemma skip_end pc t : count pc <= t -> skip_deleted pc t = t.
Proof. intros. unfold skip_deleted, count in *. rewrite drop_ge by lia. cbn. lia. Qed.

Lemma skip_ge pc t : t <= skip_deleted pc t.
Proof. unfold skip_deleted. lia. Qed.

Lemma skip_over pc t j :
  t <= j -> (forall k, t <= k < j -> deleted_at pc k) -> skip_deleted pc t = skip_deleted pc j.
Proof.
  intros Hle. remember (j - t) as n eqn:En. revert t Hle En.
  induction n as [|n IH]; intros t Hle En Hdel.
  - by replace j with t by lia.
  - rewrite skip_step by (apply Hdel; lia). apply IH; [lia..|]. intros; apply Hdel; lia.
Qed.

Lemma skip_cases pc t :
  (exists x, live_at pc (skip_deleted pc t) x) \/
  (insns pc !! skip_deleted pc t = None).
Proof.
  remember (count pc - t) as n eqn:En. revert t En.
  induction n as [|n IH]; intros t En.
  { right. rewrite skip_end by lia. apply lookup_ge_None_2. unfold count in *. lia. }
  destruct (lookup_lt_is_Some_2 (insns pc) t) as [x Hx]; [unfold count in *; lia|].
  destruct (deleted x) eqn:Hd.
  - rewrite skip_step by (by exists x). apply IH. lia.
  - left. rewrite (skip_stop _ _ x) by done. by exists x.
Qed.

Lemma skip_live pc t x : insns pc !! skip_deleted pc t = Some x -> live_at pc (skip_deleted pc t) x.
Proof. destruct (skip_cases pc t) as [(y & Hy)|E]; [|congruence]. destruct Hy. intros; split; congruence. Qed.

Lemma skip_between pc t k : t <= k < skip_deleted pc t -> deleted_at pc k.
Proof.
  remember (k - t) as n eqn:En. revert t En. induction n as [|n IH]; intros t En Hk.
  - replace k with t in * by lia.
    destruct (insns pc !! t) as [x|] eqn:Hx.
    + destruct (deleted x) eqn:Hd; [by exists x|]. rewrite (skip_stop _ _ x) in Hk by done. lia.
    + rewrite skip_end in Hk; [lia|]. by apply lookup_ge_None_1.
  - apply (IH (S t)); [lia|]. rewrite <- skip_step; [lia|].
    destruct (insns pc !! t) as [x|] eqn:Hx.
    + destruct (deleted x) eqn:Hd; [by exists x|]. rewrite (skip_stop _ _ x) in Hk by done. lia.
    + rewrite skip_end in Hk; [lia|]. by apply lookup_ge_None_1.
Qed.

Lemma skip_idem pc t : skip_deleted pc (skip_deleted pc t) = skip_deleted pc t.
Proof. symmetry. apply skip_over; [apply skip_ge|]. intros; by eapply skip_between. Qed.

(** Deleting more: the first live instruction is found from the old one. *)
Lemma skip_more pc pc' t :
  (forall k, deleted_at pc k -> deleted_at pc' k) ->
  skip_deleted pc' t = skip_deleted pc' (skip_deleted pc t).
Proof. intros Hd. apply skip_over; [apply skip_ge|]. intros; by eapply Hd, skip_between. Qed.

Lemma skip_kept pc pc' t y :
  (forall k, deleted_at pc k -> deleted_at pc' k) -> live_at pc' (skip_deleted pc t) y ->
  skip_deleted pc' t = skip_deleted pc t.
Proof. intros Hd Hy. rewrite (skip_more pc pc' t) by done. by eapply skip_stop. Qed.

(** An entry point lies at or before the instruction it reaches. *)
Lemma skip_le_live pc t j x : live_at pc j x -> t <= j -> skip_deleted pc t <= j.
Proof.
  intros [Hx Hd] Hle. destruct (decide (skip_deleted pc t <= j)); [done|].
  destruct (skip_between pc t j) as (y & ? & ?); [lia|congruence].
Qed.

(** ** Running *)

Section Run.
Context {val world result : Type} {V : VM val world result}.

Abbreviation frame := (frame val world).
Definition state : Type := nat * frame.

Inductive status : Type :=
| Running (s : state)
| Final (r : result)
| Wrong.

(** One dispatch at index [s.1]. *)
Definition step (pc : PeepCode) (s : state) : status :=
  let j := skip_deleted pc s.1 in
  match insns pc !! j with
  | None => Wrong
  | Some x =>
      match exec (op x) (operand_bytes (insns pc) j x) (jump_target x) s.2 with
      | Next f => Running (S j, f)
      | Jump f => match jump_target x with Some t => Running (t, f) | None => Wrong end
      | Goto l k f => Running (l + k, f)
      | Done r => Final r
      | Stuck => Wrong
      end
  end.

Fixpoint run (n : nat) (pc : PeepCode) (s : state) : status :=
  match n with
  | O => Running s
  | S n => match step pc s with Running s' => run n pc s' | st => st end
  end.

(** The activation makes sense: it never reaches a meaningless step. *)
Definition safe (pc : PeepCode) (s : state) : Prop := forall n, run n pc s <> Wrong.

Definition ends (pc : PeepCode) (s : state) (r : result) : Prop := exists n, run n pc s = Final r.

(** From every frame entered fresh, the rewritten code is as sound as the
    original and ends exactly when it does, with the same result. *)
Definition refines (pc pc' : PeepCode) : Prop :=
  forall f : frame, landings (rest f) = [] -> safe pc (0, f) ->
    safe pc' (0, f) /\ forall r, ends pc (0, f) r <-> ends pc' (0, f) r.

#[export] Instance refines_preorder : PreOrder refines.
Proof.
  split.
  - by intros pc f.
  - intros p q s H1 H2 f Hf Hs. destruct (H1 f Hf Hs) as [Hq E1].
    destruct (H2 f Hf Hq) as [Hp E2]. split; [done|]. intros r. by rewrite E1.
Qed.

Lemma run_add n m pc s :
  run (n + m) pc s = match run n pc s with Running s' => run m pc s' | st => st end.
Proof.
  revert s. induction n as [|n IH]; intros s; cbn; [done|].
  destruct (step pc s); [apply IH|done|done].
Qed.

(** A run that has ended stays ended. *)
Lemma run_ended n m pc s st :
  run n pc s = st -> (forall s', st <> Running s') -> n <= m -> run m pc s = st.
Proof.
  intros E Hst Hle. replace m with (n + (m - n)) by lia. rewrite run_add, E.
  destruct st; [by edestruct Hst|done|done].
Qed.

Lemma run_unique n m pc s st st' :
  run n pc s = st -> run m pc s = st' ->
  (forall s', st <> Running s') -> (forall s', st' <> Running s') -> st = st'.
Proof.
  intros E E' H H'. destruct (le_ge_dec n m).
  - by rewrite <- E', (run_ended n m _ _ _ E).
  - by rewrite <- E, (run_ended m n _ _ _ E').
Qed.

Lemma step_skip pc i j f :
  skip_deleted pc i = skip_deleted pc j -> step pc (i, f) = step pc (j, f).
Proof. intros E. unfold step. cbn [fst snd]. by rewrite E. Qed.

Lemma run_skip pc n i j f :
  0 < n -> skip_deleted pc i = skip_deleted pc j -> run n pc (i, f) = run n pc (j, f).
Proof. intros Hn E. destruct n; [lia|]. cbn. by rewrite (step_skip pc i j). Qed.

(** ** Simulation with stuttering *)

(** From related states the old code runs into nonsense, or both end alike,
    or both run to related states, the new one at least one step or the
    measure of the old state decreasing. *)
Definition matches (pc pc' : PeepCode) (R : state -> state -> Prop) (meas : state -> nat)
    (s s' : state) : Prop :=
  (exists n, run n pc s = Wrong) \/
  (exists n n' r, run n pc s = Final r /\ run n' pc' s' = Final r) \/
  (exists n n' s1 s1', run (S n) pc s = Running s1 /\ run n' pc' s' = Running s1' /\
     R s1 s1' /\ (0 < n' \/ meas s1 < meas s)).

Section Simulation.
Context (pc pc' : PeepCode) (R : state -> state -> Prop) (meas : state -> nat).
Hypothesis sim : forall s s', R s s' -> matches pc pc' R meas s s'.

Lemma safe_run n s s1 : safe pc s -> run n pc s = Running s1 -> safe pc s1.
Proof. intros Hs E m Hm. apply (Hs (n + m)). by rewrite run_add, E. Qed.

Lemma sim_forward n s s' r : R s s' -> safe pc s -> run n pc s = Final r -> ends pc' s' r.
Proof.
  revert s s'. induction (lt_wf n) as [n _ IH]. intros s s' HR Hs E.
  destruct (sim s s' HR) as [[m Hm]|[(m & m' & r' & E1 & E2)|(m & m' & s1 & s1' & E1 & E2 & HR1 & _)]].
  - by destruct (Hs m).
  - pose proof (run_unique _ _ _ _ _ _ E E1). exists m'. rewrite E2. naive_solver.
  - destruct (decide (S m <= n)) as [Hle|Hgt].
    + destruct (IH (n - S m)) with s1 s1' as [k Hk]; [lia|done|by eapply safe_run| |].
      { replace n with (S m + (n - S m)) in E by lia. by rewrite run_add, E1 in E. }
      exists (m' + k). by rewrite run_add, E2.
    + pose proof (run_ended _ (S m) _ _ _ E) as E3. rewrite E3 in E1; [done|done|lia].
Qed.

Lemma sim_backward k n s s' st :
  meas s <= k -> R s s' -> safe pc s -> run n pc' s' = st -> (forall s2, st <> Running s2) ->
  exists r, st = Final r /\ ends pc s r.
Proof.
  revert k s s'. induction (lt_wf n) as [n _ IHn].
  intros k. induction (lt_wf k) as [k _ IHk]. intros s s' Hk HR Hs E Hst.
  destruct (sim s s' HR) as [[m Hm]|[(m & m' & r' & E1 & E2)|(m & m' & s1 & s1' & E1 & E2 & HR1 & D)]].
  - by destruct (Hs m).
  - exists r'. split; [|by exists m]. by apply (run_unique _ _ _ _ _ _ E E2).
  - assert (Hs1 : safe pc s1) by (by eapply safe_run).
    assert (Hback : forall r, ends pc s1 r -> ends pc s r).
    { intros r [q Hq]. exists (S m + q). by rewrite run_add, E1. }
    destruct (decide (m' = 0)) as [->|Hm'].
    + cbn in E2. simplify_eq. destruct D as [?|D]; [lia|].
      destruct (IHk (meas s1)) with s1 s1' as (r & -> & Hr); [lia|lia|done..|].
      exists r. auto.
    + destruct (decide (m' <= n)) as [Hle|Hgt].
      * destruct (IHn (n - m')) with (meas s1) s1 s1' as (r & -> & Hr); [lia|lia|done|done| |done|].
        { replace n with (m' + (n - m')) in E by lia. by rewrite run_add, E2 in E. }
        exists r. auto.
      * pose proof (run_ended _ m' _ _ _ E Hst) as E3. rewrite E3 in E2 by lia. by destruct (Hst s1').
Qed.

Lemma sim_equivalent s s' :
  R s s' -> safe pc s -> safe pc' s' /\ forall r, ends pc s r <-> ends pc' s' r.
Proof.
  intros HR Hs. split.
  - intros n E. destruct (sim_backward (meas s) n s s' Wrong) as (r & ? & _); [lia|done..].
  - intros r. split.
    + intros [n E]. by eapply sim_forward.
    + intros [n E]. destruct (sim_backward (meas s) n s s' (Final r)) as (r' & [= <-] & ?); [lia|done..].
Qed.

End Simulation.
End Run.

(** ** Where cl_mv_count is dead *)

Section Dead.
Context {val world result : Type} {pool : option (list pool_entry)} {V : VM val world result}
  {L : VMLaws pool V}.

Abbreviation frame := (frame val world).

(** The instruction [x] at [j], as the machine runs it. *)
Definition runs (pc : PeepCode) (j : nat) (x : PeepInsn) : frame -> outcome val world result :=
  exec (op x) (operand_bytes (insns pc) j x) (jump_target x).

Definition lands_of (pc : PeepCode) (j : nat) (x : PeepInsn) : list landing :=
  insn_landings pool (op x) (operand_bytes (insns pc) j x) (jump_target x).

(** A landing some live instruction registers. *)
Definition code_landing (pc : PeepCode) (e : landing) : Prop :=
  exists j x, live_at pc j x /\ e ∈ lands_of pc j x.

Definition registered_ok (pc : PeepCode) (f : frame) : Prop :=
  forall e, e ∈ landings (rest f) -> code_landing pc e.

(** The instruction at [j] does not observe the count, and overwrites it or
    goes on within [C]. *)
Definition quiet (pc : PeepCode) (C : nat -> Prop) (j : nat) : Prop :=
  exists x, live_at pc j x /\
    mv_blind (runs pc j x) (lands_of pc j x) /\
    ((has_flag (op x) CL_OPF_MVW = true /\ mv_writes (runs pc j x)) \/
     ((has_flag (op x) CL_OPF_UNCOND = false -> C (skip_deleted pc (S j))) /\
      (branches (op x) = true -> forall t, jump_target x = Some t -> C (skip_deleted pc t)))).

(** [D] is a set of instructions from which no path observes the count before
    it is overwritten. *)
Definition mv_dead_set (pc : PeepCode) (D : nat -> Prop) : Prop := forall j, D j -> quiet pc D j.

Definition cleanups_in (pc : PeepCode) (D : nat -> Prop) : Prop :=
  forall e, code_landing pc e -> l_cleanup e = true -> D (skip_deleted pc (l_label e)).

(** The count an UNWIND-PROTECT cleanup inherits from an error is dead. *)
Definition cleanups_mv_dead (pc : PeepCode) : Prop :=
  exists D, mv_dead_set pc D /\ cleanups_in pc D.

(** Two frames at index [i], the same but for a dead count. *)
Definition shadow (pc : PeepCode) (D : nat -> Prop) (i : nat) (f f' : frame) : Prop :=
  f = f' \/ (D (skip_deleted pc i) /\ same_but_mv f f').

Lemma shadow_trans pc D i f g h : shadow pc D i f g -> shadow pc D i g h -> shadow pc D i f h.
Proof.
  intros [->|[? E1]] [->|[? E2]]; [by left|right; auto..]. split; [done|]. by etrans.
Qed.

(** The landing of a cleanup has the one entry. *)
Lemma cleanup_entries o args tgt e :
  e ∈ insn_landings pool o args tgt -> l_cleanup e = true -> l_entries e = 1.
Proof.
  intros He Hc.
  assert (He' : e ∈ [] \/ l_cleanup e = false \/ l_entries e = 1).
  { revert He. unfold insn_landings. repeat case_match; auto;
      rewrite list_elem_of_singleton; intros ->; auto. }
  destruct He' as [He'|[?|?]]; [by apply elem_of_nil in He'|congruence|lia].
Qed.

Lemma lands_code pc f j x l k :
  registered_ok pc f -> live_at pc j x ->
  cleanup_at (landings (rest f) ++ lands_of pc j x) l k ->
  exists e, code_landing pc e /\ l_cleanup e = true /\ l + k = l_label e.
Proof.
  intros Hr Hx (e & He & <- & Hk & Hc).
  assert (Hcode : code_landing pc e).
  { apply elem_of_app in He as [He|He]; [by apply Hr|]. by exists j, x. }
  exists e. split_and!; [done|done|]. destruct Hcode as (j' & x' & _ & He').
  pose proof (cleanup_entries _ _ _ _ He' Hc). lia.
Qed.

(** A step registers landings of the code only. *)
Lemma registered_step pc i f i1 f1 :
  registered_ok pc f -> step pc (i, f) = Running (i1, f1) -> registered_ok pc f1.
Proof.
  unfold step; cbn [fst snd]. intros Hr E e He.
  destruct (insns pc !! skip_deleted pc i) as [x|] eqn:Hx; [|done].
  pose proof (skip_live _ _ _ Hx) as Hl.
  pose proof (exec_lands (pool:=pool) (op x) (operand_bytes (insns pc) (skip_deleted pc i) x)
                (jump_target x) f) as Hok.
  assert (Hsub : landings (rest f1) ⊆ landings (rest f) ++ lands_of pc (skip_deleted pc i) x).
  { revert E Hok. fold (lands_of pc (skip_deleted pc i) x).
    destruct (exec _ _ _ _); cbn; repeat case_match; intros; simplify_eq; by try destruct_and!. }
  apply Hsub, elem_of_app in He as [He|He]; [by apply Hr|]. by eexists _, x.
Qed.

Section Shadow.
Context (pc : PeepCode) (D : nat -> Prop).
Hypothesis Dclosed : mv_dead_set pc D.
Hypothesis Dcleanup : cleanups_in pc D.

(** Steps from shadowing frames stay in step. *)
Definition same_status (st st' : @status val world result) : Prop :=
  match st, st' with
  | Running s, Running s' => s.1 = s'.1 /\ shadow pc D s.1 s.2 s'.2
  | Final r, Final r' => r = r'
  | Wrong, Wrong => True
  | _, _ => False
  end.

Lemma same_status_refl st : same_status st st.
Proof. destruct st; cbn; auto. split; [done|by left]. Qed.

Lemma shadow_step i f f' :
  registered_ok pc f -> shadow pc D i f f' -> same_status (step pc (i, f)) (step pc (i, f')).
Proof.
  intros Hr [->|[HD Hf]]; [apply same_status_refl|].
  destruct (Dclosed _ HD) as (x & Hl & Hb & Hw). pose proof Hl as [Hx _].
  unfold step; cbn [fst snd]. rewrite Hx.
  specialize (Hb f f' Hf). fold (runs pc (skip_deleted pc i) x).
  destruct (runs pc (skip_deleted pc i) x f) as [g|g|l k g|r|] eqn:E,
    (runs pc (skip_deleted pc i) x f') as [g'|g'|l' k' g'|r'|] eqn:E'; cbn in Hb; try done; cbn.
  - split; [done|]. destruct Hw as [[_ Hw]|[Hw _]].
    + left. by apply (proj1 (Hw f f' Hf)).
    + right. split; [|done]. apply Hw. destruct (has_flag (op x) CL_OPF_UNCOND) eqn:Hu; [|done].
      by destruct (exec_uncond (pool:=pool) _ _ _ _ _ Hu E).
  - destruct (jump_target x) as [t|] eqn:Ht; [|done]. cbn. split; [done|].
    destruct Hw as [[_ Hw]|[_ Hw]].
    + left. by apply (proj2 (Hw f f' Hf)).
    + right. split; [|done]. apply (Hw (exec_jump (pool:=pool) _ _ _ _ _ E) t eq_refl).
  - destruct Hb as (-> & -> & Hg & Hc). split; [done|]. destruct Hc as [->|Hc]; [by left|right].
    split; [|done]. destruct (lands_code pc f _ x l' k' Hr Hl Hc) as (e & He & Hce & ->).
    by apply Dcleanup.
Qed.

Lemma shadow_run n i f f' :
  registered_ok pc f -> shadow pc D i f f' -> same_status (run n pc (i, f)) (run n pc (i, f')).
Proof.
  revert i f f'. induction n as [|n IH]; intros i f f' Hr Hs; cbn; [done|].
  pose proof (shadow_step i f f' Hr Hs) as Hst.
  destruct (step pc (i, f)) as [[i1 f1]|r|] eqn:E, (step pc (i, f')) as [[i2 f2]|r'|]; try done.
  destruct Hst as [E1 Hs1]. cbn in E1, Hs1. subst i2. apply IH; [|done].
  by eapply registered_step.
Qed.

End Shadow.

(** ** Local rewrites *)

(** How far a state is from the end of the list. *)
Definition distance (pc : PeepCode) (s : @state val world) : nat :=
  count pc - skip_deleted pc s.1.

Section Local.
Context (pc pc' : PeepCode) (P : nat -> Prop) (D : nat -> Prop) (head : nat -> bool).

(** The same place of the code, not inside a rewritten pattern, with frames
    that differ in a dead count at most. *)
Definition related (s s' : @state val world) : Prop :=
  skip_deleted pc' s.1 = skip_deleted pc' s'.1 /\ ~ P (skip_deleted pc s.1) /\
  registered_ok pc' s.2 /\ shadow pc' D s'.1 s.2 s'.2.

(** The instruction at [j] is the same on both sides. *)
Definition same_insn (j : nat) (x : PeepInsn) : Prop :=
  exists x', live_at pc' j x' /\ op x' = op x /\ jump_target x' = jump_target x /\
    operand_bytes (insns pc') j x' = operand_bytes (insns pc) j x.

Hypothesis more_deleted : forall k, deleted_at pc k -> deleted_at pc' k.
Hypothesis others_same : forall j x, live_at pc j x -> ~ P j -> ~ head j -> same_insn j x.
Hypothesis next_outside : forall j x,
  live_at pc j x -> ~ P j -> ~ head j -> has_flag (op x) CL_OPF_UNCOND = false ->
  ~ P (skip_deleted pc (S j)).
Hypothesis jump_outside : forall j x t,
  live_at pc j x -> ~ P j -> ~ head j -> branches (op x) = true -> jump_target x = Some t ->
  ~ P (skip_deleted pc t).
Hypothesis landing_outside : forall e k,
  code_landing pc' e -> k < l_entries e -> ~ P (skip_deleted pc (l_label e + k)).
Hypothesis Dclosed : mv_dead_set pc' D.
Hypothesis Dcleanup : cleanups_in pc' D.
Hypothesis head_matches : forall j x f,
  live_at pc j x -> ~ P j -> head j -> registered_ok pc' f ->
  matches pc pc' related (distance pc) (j, f) (j, f).

(** A shared instruction takes the same step on both sides. *)
Lemma common_step j x f :
  live_at pc j x -> ~ P j -> ~ head j -> registered_ok pc' f ->
  step pc (j, f) = step pc' (j, f) /\
  forall i1 f1, step pc (j, f) = Running (i1, f1) -> ~ P (skip_deleted pc i1).
Proof.
  intros Hl HP Hh Hr. destruct (others_same j x Hl HP Hh) as (x' & Hl' & Eo & Et & Ea).
  unfold step; cbn [fst snd].
  rewrite (skip_stop _ _ _ Hl), (skip_stop _ _ _ Hl'). pose proof Hl as [Hx _].
  pose proof Hl' as [Hx' _]. rewrite Hx, Hx', Eo, Et, Ea. split; [done|]. intros i1 f1.
  pose proof (exec_lands (pool:=pool) (op x) (operand_bytes (insns pc) j x) (jump_target x) f) as Hok.
  destruct (exec _ _ _ f) as [g|g|l k g|r|] eqn:E; try done.
  - intros [= <- <-]. apply (next_outside j x); auto.
    destruct (has_flag (op x) CL_OPF_UNCOND) eqn:Hu; [|done].
    by destruct (exec_uncond (pool:=pool) _ _ _ _ _ Hu E).
  - destruct (jump_target x) as [t|] eqn:Ht; [|done]. intros [= <- <-].
    by eapply (jump_outside j x), Ht; eauto using exec_jump.
  - intros [= <- <-]. destruct Hok as [(e & He & <- & Hk) _]. apply landing_outside; [|done].
    apply elem_of_app in He as [He|He]; [by apply Hr|]. exists j, x'. split; [done|].
    unfold lands_of. by rewrite Eo, Et, Ea.
Qed.

Lemma common_matches j x f :
  live_at pc j x -> ~ P j -> ~ head j -> registered_ok pc' f ->
  matches pc pc' related (distance pc) (j, f) (j, f).
Proof.
  intros Hl HP Hh Hr. destruct (common_step j x f Hl HP Hh Hr) as [E Hout].
  destruct (step pc (j, f)) as [[i1 f1]|r|] eqn:E1.
  - right; right. exists 0, 1, (i1, f1), (i1, f1). cbn. rewrite E1, <- E. split_and!; [done..| |lia].
    split_and!; cbn; [done|by eapply Hout|eapply registered_step; eauto|by left].
  - right; left. exists 1, 1, r. cbn. by rewrite E1, <- E.
  - left. exists 1. cbn. by rewrite E1.
Qed.

(** A match at the instruction itself serves every state that reaches it. *)
Lemma matches_lift i i' f f' :
  related (i, f) (i', f') ->
  matches pc pc' related (distance pc) (skip_deleted pc i, f) (skip_deleted pc i, f) ->
  matches pc pc' related (distance pc) (i, f) (i', f').
Proof.
  intros (Ei & HP & Hr & Hs) M. cbn [fst snd] in *.
  assert (Hrun : forall n, 0 < n -> run n pc (i, f) = run n pc (skip_deleted pc i, f)).
  { intros n Hn. apply run_skip; [done|]. by rewrite skip_idem. }
  assert (Hrun' : forall n, 0 < n -> run n pc' (i', f) = run n pc' (skip_deleted pc i, f)).
  { intros n Hn. apply run_skip; [done|]. rewrite <- Ei. by apply skip_more. }
  destruct M as [[n Hn]|[(n & n' & r & E1 & E2)|(n & n' & s1 & s1' & E1 & E2 & HR & Hm)]].
  - left. destruct n; [done|]. exists (S n). rewrite Hrun; [done|lia].
  - right; left. destruct n, n'; try done. exists (S n), (S n'), r. rewrite Hrun by lia.
    split; [done|]. rewrite <- Hrun' in E2 by lia.
    pose proof (shadow_run pc' D Dclosed Dcleanup (S n') i' f f' Hr Hs) as Hst.
    rewrite E2 in Hst. by destruct (run _ _ (i', f')); cbn in Hst; subst.
  - right; right. destruct s1 as [i1 f1]. destruct HR as (Ei1 & HP1 & Hr1 & Hs1). cbn [fst snd] in *.
    destruct n' as [|n'].
    + exists n, 0, (i1, f1), (i', f'). rewrite Hrun by lia. simplify_eq/=.
      split_and!; [done|done| |].
      * assert (E : skip_deleted pc' (skip_deleted pc i) = skip_deleted pc' i')
          by (rewrite <- Ei; symmetry; by apply skip_more).
        split_and!; cbn; [by rewrite Ei1|done|done|].
        unfold shadow in Hs1, Hs |- *. rewrite E in Hs1. by eapply shadow_trans.
      * destruct Hm as [?|Hm]; [lia|]. right. unfold distance in *. cbn [fst snd] in *. by rewrite skip_idem in Hm.
    + rewrite <- Hrun' in E2 by lia.
      pose proof (shadow_run pc' D Dclosed Dcleanup (S n') i' f f' Hr Hs) as Hst.
      rewrite E2 in Hst. destruct (run (S n') pc' (i', f')) as [[i2 f2]| |] eqn:E3; try done.
      destruct s1' as [i1' f1']. destruct Hst as [E4 Hs2]. cbn [fst snd] in *. subst i2.
      exists n, (S n'), (i1, f1), (i1', f2). rewrite Hrun by lia.
      split_and!; [done|done| |lia]. split_and!; cbn; [done..|]. by eapply shadow_trans.
Qed.

Lemma local_sim s s' : related s s' -> matches pc pc' related (distance pc) s s'.
Proof.
  destruct s as [i f], s' as [i' f']. intros HR. apply matches_lift; [done|].
  destruct HR as (_ & HP & Hr & _). cbn in *.
  destruct (skip_cases pc i) as [(x & Hl)|E].
  - destruct (head (skip_deleted pc i)) eqn:Hh; [eapply head_matches|eapply common_matches]; eauto; rewrite Hh; auto.
  - left. exists 1. cbn. unfold step. cbn [fst snd]. by rewrite skip_idem, E.
Qed.

(** The rewritten list refines the original when entry is outside the pattern. *)
Lemma local_refines : ~ P (skip_deleted pc 0) -> refines (val:=val) (world:=world) pc pc'.
Proof.
  intros H0 f Hf Hs. eapply sim_equivalent; [apply local_sim| |done].
  split_and!; cbn; [done|done| |by left]. intros e He. rewrite Hf in He. by apply elem_of_nil in He.
Qed.

End Local.

(** ** Carrying a dead set over a rewrite *)

Section Carry.
Context (pc pc' : PeepCode) (P : nat -> Prop) (D D0 : nat -> Prop) (head : nat -> bool).

(** The old set outside the pattern, with the part [D0] shown by hand. *)
Definition carried (j : nat) : Prop := (D j /\ ~ P j /\ ~ head j) \/ D0 j.

Hypothesis more_deleted : forall k, deleted_at pc k -> deleted_at pc' k.
Hypothesis others_same : forall j x, live_at pc j x -> ~ P j -> ~ head j -> same_insn pc pc' j x.
Hypothesis next_outside : forall j x,
  live_at pc j x -> ~ P j -> ~ head j -> has_flag (op x) CL_OPF_UNCOND = false ->
  ~ P (skip_deleted pc (S j)).
Hypothesis jump_outside : forall j x t,
  live_at pc j x -> ~ P j -> ~ head j -> branches (op x) = true -> jump_target x = Some t ->
  ~ P (skip_deleted pc t).
Hypothesis landing_outside : forall e k,
  code_landing pc' e -> k < l_entries e -> ~ P (skip_deleted pc (l_label e + k)).
Hypothesis old_landings : forall e, code_landing pc' e -> code_landing pc e.
Hypothesis Dclosed : mv_dead_set pc D.
Hypothesis Dcleanup : cleanups_in pc D.
Hypothesis D0_closed : forall j, D0 j -> quiet pc' carried j.
Hypothesis head_carried : forall j, D j -> ~ P j -> head j -> carried (skip_deleted pc' j).

Lemma carried_skip t : D (skip_deleted pc t) -> ~ P (skip_deleted pc t) -> carried (skip_deleted pc' t).
Proof.
  intros HD HP. rewrite (skip_more pc pc' t) by done.
  destruct (head (skip_deleted pc t)) eqn:Hh.
  - apply head_carried; [done..|by rewrite Hh].
  - destruct (Dclosed _ HD) as (x & Hl & _).
    destruct (others_same _ x Hl HP) as (x' & Hl' & _); [rewrite Hh; auto|].
    rewrite (skip_stop _ _ _ Hl'). left. rewrite Hh. auto.
Qed.

Lemma carried_dead : mv_dead_set pc' carried.
Proof.
  intros j [(HD & HP & Hh)|H0]; [|by apply D0_closed].
  destruct (Dclosed j HD) as (x & Hl & Hb & Hw).
  destruct (others_same j x Hl HP Hh) as (x' & Hl' & Eo & Et & Ea).
  assert (Er : runs pc' j x' = runs pc j x) by (unfold runs; by rewrite Eo, Et, Ea).
  assert (El : lands_of pc' j x' = lands_of pc j x) by (unfold lands_of; by rewrite Eo, Et, Ea).
  exists x'. rewrite Er, El, Eo, Et. split_and!; [done|done|].
  destruct Hw as [Hw|[Hn Hj]]; [by left|right]. split.
  - intros Hu. apply carried_skip; [by apply Hn|by eapply next_outside].
  - intros Hbr t Ht. apply carried_skip; [by apply Hj|by eapply jump_outside].
Qed.

Lemma carried_cleanups : cleanups_in pc' carried.
Proof.
  intros e He Hc. apply carried_skip.
  - apply Dcleanup; [by apply old_landings|done].
  - pose proof (landing_outside e 0) as Ho. rewrite Nat.add_0_r in Ho. apply Ho; [done|].
    destruct He as (j & x & _ & He). pose proof (cleanup_entries _ _ _ _ He Hc). lia.
Qed.

End Carry.

(** ** The proof principle of a rewrite *)

(** What has to hold of the shape of a rewrite from [pc] to [pc'] whose head is
    marked by [head] and whose other members are [P]. *)
Record pattern_ok (pc pc' : PeepCode) (P : nat -> Prop) (head : nat -> bool) : Prop := {
  pat_deleted k : deleted_at pc k -> deleted_at pc' k;
  pat_same j x : live_at pc j x -> ~ P j -> ~ head j -> same_insn pc pc' j x;
  pat_next j x : live_at pc j x -> ~ P j -> ~ head j -> has_flag (op x) CL_OPF_UNCOND = false ->
    ~ P (skip_deleted pc (S j));
  pat_jump j x t : live_at pc j x -> ~ P j -> ~ head j -> branches (op x) = true ->
    jump_target x = Some t -> ~ P (skip_deleted pc t);
  pat_landing e k : code_landing pc' e -> k < l_entries e -> ~ P (skip_deleted pc (l_label e + k));
  pat_old e : code_landing pc' e -> code_landing pc e;
  pat_start : ~ P (skip_deleted pc 0) }.

(** What has to hold of the head, for every dead set [D] of the old list: a
    part [D0] to carry it over, and the comparison of old and new code. *)
Definition head_ok (pc pc' : PeepCode) (P : nat -> Prop) (head : nat -> bool) : Prop :=
  forall D, mv_dead_set pc D -> cleanups_in pc D -> exists D0,
    (forall j, D0 j -> quiet pc' (carried P D D0 head) j) /\
    (forall j, D j -> ~ P j -> head j -> carried P D D0 head (skip_deleted pc' j)) /\
    (forall j x f, live_at pc j x -> ~ P j -> head j -> registered_ok pc' f ->
       matches pc pc' (related pc pc' P (carried P D D0 head)) (distance pc) (j, f) (j, f)).

Theorem local_simulation pc pc' P head :
  pattern_ok pc pc' P head -> head_ok pc pc' P head -> cleanups_mv_dead pc ->
  refines (val:=val) (world:=world) pc pc' /\ cleanups_mv_dead pc'.
Proof.
  intros [] Hh (D & HD & HC). destruct (Hh D HD HC) as (D0 & H0 & Hc & Hm).
  assert (HD' : mv_dead_set pc' (carried P D D0 head)) by (eapply carried_dead; eauto).
  assert (HC' : cleanups_in pc' (carried P D D0 head)) by (eapply (carried_cleanups pc); eauto).
  split; [|by eexists]. by eapply local_refines.
Qed.

End Dead.
