(* ===== verification/PeepWf.v ===== *)
(** * Well-formed instruction lists

    The invariant between peep_decode and peep_fuse ([well_formed]), the
    meaning of the target marks ([marks_ok]), and the shape of the patterns
    that peep_next_live_unjoined delimits ([isolated]). *)

From Stdlib Require Import ZArith Lia ZifyBool.
From stdpp Require Import base option list sets.
From S2P Require Import Prelude Opcodes PeepCode Peephole Machine PeepSim.

(** The operand bytes an instruction was decoded with, shortened by own_len. *)
Definition body (x : PeepInsn) : list Z := take (own_len x) (drop 1 (raw x)).

Record insn_ok (pc : PeepCode) (x : PeepInsn) : Prop := {
  ok_raw : own_len x < length (raw x);
  ok_len : raw_len x = S (own_len x);
  ok_shape : match cl_opnd_len (opcode_operands (op x)) with
             | Some n => own_len x = n
             | None => exists n, pool_constant (constants pc) (peep_read_u16 (body x))
                                 = Some (Template n) /\ own_len x = 2 + 2 * n
             end;
  ok_jump : cl_opnd_jrel_pos (opcode_operands (op x)) <> 0 <-> is_Some (jump_target x);
  ok_target t : jump_target x = Some t -> t < count pc }.

Record well_formed (pc : PeepCode) : Prop := {
  wf_plain j x : insns pc !! j = Some x -> fused_with x = None /\ synth x = None;
  wf_live j x : live_at pc j x -> insn_ok pc x;
  wf_pinned j x : insns pc !! j = Some x -> pinned x = true -> deleted x = false /\ op x = OP_JMP;
  wf_handler j x : live_at pc j x -> op x = OP_HANDLER_CASE_PUSH ->
    exists n, pool_constant (constants pc) (peep_read_u16 (body x)) = Some (TypeList n);
  wf_tables j x t n k : live_at pc j x -> op x = OP_HANDLER_CASE_PUSH -> jump_target x = Some t ->
    pool_constant (constants pc) (peep_read_u16 (body x)) = Some (TypeList n) -> k < n ->
    exists y, insns pc !! (t + k) = Some y /\ pinned y = true }.

Definition targeted (pc : PeepCode) (t : nat) : Prop :=
  exists x, insns pc !! t = Some x /\ target x = true.

(** Where control may enter other than by falling through. *)
Definition entry (pc : PeepCode) (t : nat) : Prop :=
  (exists j x, live_at pc j x /\ jump_target x = Some t) \/
  (exists x, insns pc !! t = Some x /\ pinned x = true).

Definition marks_ok (pc : PeepCode) : Prop := forall t, entry pc t -> targeted pc t.

(** ** Plain instructions *)

Lemma operand_bytes_plain pc j x :
  well_formed pc -> insns pc !! j = Some x -> operand_bytes (insns pc) j x = body x.
Proof.
  intros W Hx. destruct (wf_plain _ W _ _ Hx) as [Hf Hs].
  unfold operand_bytes. rewrite Hs. cbn.
  destruct (length (insns pc)) as [|n] eqn:El.
  { apply nil_length_inv in El. by rewrite El, lookup_nil in Hx. }
  cbn [member_bytes]. rewrite Hx, Hf. apply app_nil_r.
Qed.

Lemma live_lt pc j x : live_at pc j x -> j < count pc.
Proof. intros [Hx _]. by eapply lookup_lt_Some. Qed.

Lemma live_fun pc j x y : live_at pc j x -> live_at pc j y -> x = y.
Proof. intros [Hx _] [Hy _]. congruence. Qed.

(** ** Edits of one instruction *)

Lemma lookup_upd i f pc j :
  insns (upd i f pc) !! j = if decide (i = j) then f <$> insns pc !! j else insns pc !! j.
Proof. cbn. rewrite list_lookup_alter. by case_decide; subst. Qed.

Lemma lookup_upd_ne i f pc j : i <> j -> insns (upd i f pc) !! j = insns pc !! j.
Proof. intros. by rewrite lookup_upd, decide_False. Qed.

Lemma lookup_upd_eq i f pc x : insns pc !! i = Some x -> insns (upd i f pc) !! i = Some (f x).
Proof. intros E. by rewrite lookup_upd, decide_True, E. Qed.

Lemma live_upd_ne i f pc j y : i <> j -> live_at pc j y -> live_at (upd i f pc) j y.
Proof. intros Hne [Hy Hd]. split; [|done]. by rewrite lookup_upd_ne. Qed.

Lemma count_upd i f pc : count (upd i f pc) = count pc.
Proof. apply length_alter. Qed.

Lemma insn_ok_count pc pc' x :
  constants pc' = constants pc -> count pc' = count pc -> insn_ok pc x -> insn_ok pc' x.
Proof. intros Ec En []. split; rewrite ?Ec, ?En; auto. Qed.

(** An edit that keeps the invariant: it deletes, or leaves a sound
    instruction that registers no table. *)
Record edit_ok (pc : PeepCode) (x x' : PeepInsn) : Prop := {
  ed_fused : fused_with x' = fused_with x;
  ed_synth : synth x' = synth x;
  ed_pinned : pinned x' = pinned x;
  ed_deleted : deleted x = true -> deleted x' = true;
  ed_pin : pinned x = true -> deleted x' = false /\ op x' = OP_JMP;
  ed_live : deleted x' = false -> insn_ok pc x';
  ed_table : deleted x' = false -> op x' <> OP_HANDLER_CASE_PUSH }.

Lemma upd_well_formed i f pc x :
  well_formed pc -> insns pc !! i = Some x -> edit_ok pc x (f x) -> well_formed (upd i f pc).
Proof.
  intros W Hx Hed.
  assert (Hlook : forall j y, insns (upd i f pc) !! j = Some y ->
            (j = i /\ y = f x) \/ (j <> i /\ insns pc !! j = Some y)).
  { intros j y. rewrite lookup_upd. case_decide; subst; [rewrite Hx; cbn|]; naive_solver. }
  split.
  - intros j y [[-> ->]|[_ Hy]]%Hlook; [|by eapply wf_plain].
    rewrite (ed_fused _ _ _ Hed), (ed_synth _ _ _ Hed). by eapply wf_plain.
  - intros j y [[[-> ->]|[_ Hy]]%Hlook Hd]; (apply (insn_ok_count pc); [done|apply count_upd|]).
    + by apply (ed_live _ _ _ Hed).
    + by apply (wf_live _ W j).
  - intros j y [[-> ->]|[_ Hy]]%Hlook; [|by eapply wf_pinned].
    rewrite (ed_pinned _ _ _ Hed). apply (ed_pin _ _ _ Hed).
  - intros j y [[[-> ->]|[_ Hy]]%Hlook Hd] Ho; [by destruct (ed_table _ _ _ Hed Hd)|].
    by apply (wf_handler _ W j).
  - intros j y t n k [[[-> ->]|[_ Hy]]%Hlook Hd] Ho Ht Hc Hk; [by destruct (ed_table _ _ _ Hed Hd)|].
    destruct (wf_tables _ W j y t n k) as (z & Hz & Hp); [done..|].
    destruct (decide (t + k = i)) as [E|Hne].
    + exists (f x). rewrite E in *. rewrite (lookup_upd_eq _ _ _ x) by done.
      rewrite (ed_pinned _ _ _ Hed). split; congruence.
    + exists z. by rewrite lookup_upd_ne.
Qed.

(** An edit that adds no jump keeps the marks. *)
Lemma upd_marks_ok i f pc x :
  marks_ok pc -> insns pc !! i = Some x -> target (f x) = target x -> pinned (f x) = pinned x ->
  (deleted (f x) = true \/ deleted x = false /\
   (jump_target (f x) = None \/ jump_target (f x) = jump_target x)) ->
  marks_ok (upd i f pc).
Proof.
  intros M Hx Ht Hp Hj t He.
  assert (Hold : entry pc t).
  { destruct He as [(j & y & [Hy Hd] & E)|(y & Hy & E)]; rewrite lookup_upd in Hy; case_decide as Hi;
      [|by left; exists j, y|subst i; rewrite Hx in Hy|by right; exists y].
    - subst i. rewrite Hx in Hy. cbn in Hy. simplify_eq. left. exists j, x.
      destruct Hj as [?|[? [?|?]]]; [congruence..|]. by split; [|congruence].
    - cbn in Hy. simplify_eq. right. exists x. split; [done|congruence]. }
  destruct (M t Hold) as (y & Hy & E). destruct (decide (i = t)) as [<-|Hne].
  - exists (f x). rewrite (lookup_upd_eq _ _ _ x) by done. split; [done|congruence].
  - exists y. by rewrite lookup_upd_ne.
Qed.

(** ** The next live instruction *)

Lemma deleted_run_app (l : list PeepInsn) :
  exists k, deleted_run l = take k l /\ k = length (deleted_run l).
Proof.
  induction l as [|x l (k & E & Ek)]; cbn; [by exists 0|].
  destruct (deleted x); [|by exists 0]. exists (S k). cbn. by rewrite E at 1; rewrite <- Ek.
Qed.

Lemma next_unjoined_spec pc i n y :
  next_unjoined pc i = Some (n, y) ->
  live_at pc n y /\ i < n /\ skip_deleted pc (S i) = n /\
  forall t, i < t <= n -> ~ targeted pc t.
Proof.
  unfold next_unjoined, peep_next_live_unjoined.
  fold (skip_deleted pc (S i)).
  change (S i + length (deleted_run (drop (S i) (insns pc)))) with (skip_deleted pc (S i)).
  destruct (existsb _ _) eqn:Hex; cbn [orb negb]; [done|].
  destruct (insns pc !! skip_deleted pc (S i)) as [z|] eqn:Hz; [|done].
  destruct (target z) eqn:Htz; cbn; [done|].
  cbn. intros [= <- <-].
  pose proof (skip_ge pc (S i)). split_and!; [by apply skip_live|lia|done|].
  intros t Ht (x & Hx & Htx).
  destruct (decide (t = skip_deleted pc (S i))) as [->|Hne]; [congruence|].
  assert (Hin : In x (deleted_run (drop (S i) (insns pc)))).
  { destruct (deleted_run_app (drop (S i) (insns pc))) as (k & E & Ek). rewrite E.
    apply list_elem_of_In, (list_elem_of_lookup_2 _ (t - S i)).
    rewrite lookup_take, decide_True, lookup_drop; [by replace (S i + (t - S i)) with t by lia|].
    unfold skip_deleted in *. lia. }
  assert (existsb target (deleted_run (drop (S i) (insns pc))) = true); [|congruence].
  apply existsb_exists. eauto.
Qed.

(** ** Isolated patterns *)

(** No control transfer reaches a member of [P] except by falling through
    from the head [i] or from another member. *)
Record isolated (pc : PeepCode) (i : nat) (P : nat -> Prop) : Prop := {
  iso_dec k : P k \/ ~ P k;
  iso_after k : P k -> i < k;
  iso_entry t : entry pc t -> ~ P (skip_deleted pc t);
  iso_next j x : live_at pc j x -> j <> i -> ~ P j -> ~ P (skip_deleted pc (S j)) }.

Lemma isolated_none pc i : isolated pc i (fun _ => False).
Proof. split; auto; lia. Qed.

Lemma isolated_ext pc i P Q : (forall k, P k <-> Q k) -> isolated pc i P -> isolated pc i Q.
Proof.
  intros E [Hd Ha He Hn]. split.
  - intros k. destruct (Hd k); [left|right]; by rewrite <- E.
  - intros k Hk. by apply Ha, E.
  - intros t Ht Hq. by eapply He, E.
  - intros j x Hj Hne Hq Hq'. eapply Hn; [done..| |by apply E]. by rewrite E.
Qed.

(** The instruction after [i] is reached from nowhere else. *)
Lemma next_unjoined_only pc i x n y :
  marks_ok pc -> live_at pc i x -> next_unjoined pc i = Some (n, y) ->
  (forall t, entry pc t -> skip_deleted pc t <> n) /\
  (forall j z, live_at pc j z -> j <> i -> skip_deleted pc (S j) <> n).
Proof.
  intros M Hi Hn. destruct (next_unjoined_spec _ _ _ _ Hn) as (Hl & Hlt & Hs & Hno). split.
  - intros t He E. pose proof (skip_ge pc t) as Hge.
    destruct (decide (t <= i)) as [Hle|Hgt].
    + pose proof (skip_le_live pc t i x Hi Hle). lia.
    + apply (Hno t); [lia|]. by apply M.
  - intros j z Hj Hne E. pose proof (skip_ge pc (S j)) as Hge.
    destruct (decide (j < i)) as [Hlt'|Hgt].
    + pose proof (skip_le_live pc (S j) i x Hi). lia.
    + destruct (skip_between pc (S i) j) as (w & Hw & Hd); [lia|]. destruct Hj. congruence.
Qed.

Lemma isolated_one pc i x n y :
  marks_ok pc -> live_at pc i x -> next_unjoined pc i = Some (n, y) ->
  isolated pc i (fun k => k = n).
Proof.
  intros M Hi Hn. destruct (next_unjoined_spec _ _ _ _ Hn) as (_ & Hlt & _).
  destruct (next_unjoined_only _ _ _ _ _ M Hi Hn) as [He Hj].
  split; [intros; lia|intros; lia|auto|eauto].
Qed.

Lemma isolated_two pc i x n y m z :
  marks_ok pc -> live_at pc i x -> next_unjoined pc i = Some (n, y) ->
  next_unjoined pc n = Some (m, z) -> isolated pc i (fun k => k = n \/ k = m).
Proof.
  intros M Hi Hn Hm. destruct (next_unjoined_spec _ _ _ _ Hn) as (Hl & Hlt & _).
  destruct (next_unjoined_spec _ _ _ _ Hm) as (_ & Hlt' & _).
  destruct (next_unjoined_only _ _ _ _ _ M Hi Hn) as [He Hj].
  destruct (next_unjoined_only _ _ _ _ _ M Hl Hm) as [He' Hj'].
  split; [intros; lia|intros; lia| |].
  - intros t Ht [?|?]; [by eapply He|by eapply He'].
  - intros j w Hw Hne Hnot [?|?]; [by eapply Hj|eapply Hj'; [done| |done]]. tauto.
Qed.

(** The opcodes that register a landing. *)
Definition registers (o : opcode) : bool :=
  match o with
  | OP_CATCH | OP_UWPROT | OP_BLOCK_PUSH | OP_TAGBODY_PUSH | OP_HANDLER_CASE_PUSH => true
  | _ => false
  end.

Lemma registers_none pool o args tgt : registers o = false -> insn_landings pool o args tgt = [].
Proof. by destruct o, tgt. Qed.

(** Every entry of a landing of the code is an entry point. *)
Lemma landing_entry pc e k :
  well_formed pc -> code_landing (pool:=constants pc) pc e -> k < l_entries e ->
  entry pc (l_label e + k).
Proof.
  intros W (j & x & Hl & He) Hk. unfold lands_of in He.
  rewrite (operand_bytes_plain _ _ _ W (proj1 Hl)) in He.
  assert (Hplain : l_label e + k = l_label e -> jump_target x = Some (l_label e) ->
            entry pc (l_label e + k)) by (intros ->; left; eauto).
  revert He Hk Hplain. unfold insn_landings. destruct (jump_target x) as [t|] eqn:Ht;
    repeat case_match; try (by intros ?%elem_of_nil);
    rewrite list_elem_of_singleton; intros ->; cbn; intros; try (apply Hplain; [lia|done]).
  right. by eapply wf_tables.
Qed.

Lemma same_insn_plain pc pc' j x :
  well_formed pc -> well_formed pc' -> live_at pc j x -> insns pc' !! j = insns pc !! j ->
  same_insn pc pc' j x.
Proof.
  intros W W' [Hx Hd] E. rewrite Hx in E. exists x. split_and!; [done..|].
  by rewrite !operand_bytes_plain.
Qed.

(** A rewrite that touches only an isolated pattern has the right shape. *)
Lemma pattern_intro pc pc' i x P :
  well_formed pc -> well_formed pc' -> live_at pc i x -> isolated pc i P ->
  (forall k, deleted_at pc k -> deleted_at pc' k) ->
  (forall j, j <> i -> ~ P j -> insns pc' !! j = insns pc !! j) ->
  (forall j y, live_at pc' j y -> j = i \/ P j -> registers (op y) = false) ->
  pattern_ok (pool:=constants pc) pc pc' P (fun j => j =? i).
Proof.
  intros W W' Hi I Hdel Hsame Hreg.
  assert (Hold : forall e, code_landing (pool:=constants pc) pc' e -> code_landing (pool:=constants pc) pc e).
  { intros e (j & y & Hy & He). destruct (decide (j = i)) as [->|Hne];
      [|destruct (iso_dec _ _ _ I j) as [HP|HP]].
    - unfold lands_of in He. rewrite registers_none in He; [by apply elem_of_nil in He|eauto].
    - unfold lands_of in He. rewrite registers_none in He; [by apply elem_of_nil in He|eauto].
    - assert (Hy' : live_at pc j y) by (unfold live_at in *; by rewrite <- Hsame).
      exists j, y. split; [done|]. unfold lands_of in *.
      rewrite operand_bytes_plain in He |- *; by try apply Hy; try apply Hy'. }
  split.
  - done.
  - intros j y Hy HP Hh. apply same_insn_plain; [done..|]. apply Hsame; [|done].
    intros ->. apply Hh. by rewrite Nat.eqb_refl.
  - intros j y Hy HP Hh _. eapply iso_next; eauto. intros ->. apply Hh. by rewrite Nat.eqb_refl.
  - intros j y t Hy HP Hh _ Ht. apply (iso_entry _ _ _ I). left; eauto.
  - intros e k He Hk. by apply (iso_entry _ _ _ I), landing_entry; auto.
  - done.
  - intros HP. pose proof (iso_after _ _ _ I _ HP). pose proof (skip_le_live pc 0 i x Hi). lia.
Qed.
