(* ===== verification/PeepRules.v ===== *)
(** * The rewrites of the peephole pass are correct

    For each pattern of peephole.c: when it fires on a well-formed list, the
    result is well formed and refines it.  The invariant of the second half of
    a round, where marks are current, is [marked]; the first half needs only
    [sound]. *)

From Stdlib Require Import ZArith Lia ZifyBool.
From stdpp Require Import base option list sets.
From S2P Require Import Prelude Opcodes PeepCode Peephole Machine PeepSim PeepWf.

Section Rules.
Context {val world result : Type} {pool : option (list pool_entry)} {V : VM val world result}
  {L : VMLaws pool V}.

Abbreviation frame := (frame val world).

(** What the semantic half of every theorem below is proved under.  The shape
    of the lists does not depend on it. *)
Context {good : Prop}.

Definition gives (pc pc' : PeepCode) : Prop := good -> refines (val:=val) (world:=world) pc pc'.

#[export] Instance gives_preorder : PreOrder gives.
Proof.
  split; [by intros pc _|]. intros p q s H1 H2 g. etrans; [by apply H1|by apply H2].
Qed.

Abbreviation refines := gives.

Lemma local_rewrite pc pc' P head :
  pattern_ok (pool:=pool) pc pc' P head -> head_ok (pool:=pool) (val:=val) (world:=world) (result:=result) pc pc' P head ->
  (good -> cleanups_mv_dead (pool:=pool) (val:=val) (world:=world) pc) ->
  refines pc pc' /\ (good -> cleanups_mv_dead (pool:=pool) (val:=val) (world:=world) pc').
Proof. intros HP Hh HC. split; intros g; by destruct (local_simulation pc pc' P head HP Hh (HC g)). Qed.

Record sound (pc : PeepCode) : Prop := {
  s_wf : well_formed pc;
  s_pool : constants pc = pool;
  s_dead : good -> cleanups_mv_dead (pool:=pool) (val:=val) (world:=world) pc }.

Record marked (pc : PeepCode) : Prop := {
  m_sound :> sound pc;
  m_marks : marks_ok pc }.

(** ** One step of a plain list *)

(** Where the outcome of instruction [x] at [j] leads. *)
Definition after (j : nat) (x : PeepInsn) (o : outcome val world result) : status :=
  match o with
  | Next f => Running (S j, f)
  | Jump f => match jump_target x with Some t => Running (t, f) | None => Wrong end
  | Goto l k f => Running (l + k, f)
  | Done r => Final r
  | Stuck => Wrong
  end.

Lemma step_live pc i j x (f : frame) :
  well_formed pc -> live_at pc j x -> skip_deleted pc i = j ->
  step pc (i, f) = after j x (exec (op x) (body x) (jump_target x) f).
Proof.
  intros W Hl <-. unfold step; cbn [fst snd]. pose proof Hl as [Hx _].
  by rewrite Hx, (operand_bytes_plain _ _ _ W Hx).
Qed.

Lemma registered_rest pc (f g : frame) :
  rest g = rest f -> registered_ok (pool:=pool) pc f -> registered_ok (pool:=pool) pc g.
Proof. unfold registered_ok. by intros ->. Qed.

(** States at the same place, with the same frame. *)
Lemma related_same pc pc' P D i j (f : frame) :
  skip_deleted pc' i = skip_deleted pc' j -> ~ P (skip_deleted pc i) ->
  registered_ok (pool:=pool) pc' f -> related (pool:=pool) pc pc' P D (i, f) (j, f).
Proof. intros. split_and!; cbn; auto. by left. Qed.

(** ** Dead sets *)

Section Dead_sets.
Context (pc : PeepCode) (D : nat -> Prop) (W : well_formed pc).
Hypothesis HD : mv_dead_set (pool:=pool) (val:=val) (world:=world) pc D.

Lemma dead_next j x :
  D j -> live_at pc j x -> has_flag (op x) CL_OPF_MVW = false ->
  has_flag (op x) CL_OPF_UNCOND = false -> D (skip_deleted pc (S j)).
Proof.
  intros Hj Hl Hw Hu. destruct (HD j Hj) as (y & Hy & _ & [[? _]|[Hn _]]);
    rewrite (live_fun _ _ _ _ Hy Hl) in *; [congruence|auto].
Qed.

Lemma dead_jump j x t :
  D j -> live_at pc j x -> has_flag (op x) CL_OPF_MVW = false -> branches (op x) = true ->
  jump_target x = Some t -> D (skip_deleted pc t).
Proof.
  intros Hj Hl Hw Hb Ht. destruct (HD j Hj) as (y & Hy & _ & [[? _]|[_ Hn]]);
    rewrite (live_fun _ _ _ _ Hy Hl) in *; [congruence|auto].
Qed.

End Dead_sets.

Lemma quiet_other pc C j x :
  live_at pc j x -> well_formed pc -> has_flag (op x) CL_OPF_MVR = false -> op x <> OP_HALT ->
  (has_flag (op x) CL_OPF_MVW = false -> has_flag (op x) CL_OPF_UNCOND = false ->
     C (skip_deleted pc (S j))) ->
  (has_flag (op x) CL_OPF_MVW = false -> branches (op x) = true ->
     forall t, jump_target x = Some t -> C (skip_deleted pc t)) ->
  quiet (pool:=pool) (val:=val) (world:=world) (result:=result) pc C j.
Proof.
  intros Hl W Hr Hh Hn Hj. exists x. split_and!; [done|by apply exec_blind|].
  destruct (has_flag (op x) CL_OPF_MVW) eqn:Hw; [left|right; by auto].
  split; [done|]. by apply (exec_writes (pool:=pool)).
Qed.

Lemma carried_plain pc pc' P D D0 head t :
  pattern_ok (pool:=pool) pc pc' P head ->
  mv_dead_set (pool:=pool) (val:=val) (world:=world) pc D ->
  D (skip_deleted pc t) -> ~ P (skip_deleted pc t) -> ~ head (skip_deleted pc t) ->
  carried P D D0 head (skip_deleted pc' t).
Proof.
  intros H HD Ht HP Hh. destruct (HD _ Ht) as (x & Hl & _).
  destruct (pat_same _ _ _ _ H _ x Hl HP Hh) as (x' & Hl' & _).
  rewrite (skip_more pc pc' t), (skip_stop _ _ _ Hl') by apply H. by left.
Qed.

(** The head of a pattern is carried over. *)
Definition head_carries (pc' : PeepCode) P D D0 head : Prop :=
  forall j, D j -> ~ P j -> Is_true (head j) -> carried P D D0 head (skip_deleted pc' j).

Lemma carried_on pc pc' P D D0 head :
  pattern_ok (pool:=pool) pc pc' P head ->
  mv_dead_set (pool:=pool) (val:=val) (world:=world) pc D -> head_carries pc' P D D0 head ->
  forall t, D (skip_deleted pc t) -> ~ P (skip_deleted pc t) ->
  carried P D D0 head (skip_deleted pc' t).
Proof.
  intros H HD Hh t Ht HP. destruct (head (skip_deleted pc t)) eqn:E.
  - rewrite (skip_more pc pc' t) by apply H. apply Hh; [done..|by rewrite E].
  - eapply carried_plain; [done..|rewrite E; auto].
Qed.

Lemma head_eq (i j : nat) : Is_true (j =? i) <-> j = i.
Proof. rewrite Is_true_true. apply Nat.eqb_eq. Qed.

(** ** Jump threading *)

Lemma upd_deleted i f pc k :
  (forall x, deleted x = true -> deleted (f x) = true) -> deleted_at pc k -> deleted_at (upd i f pc) k.
Proof.
  intros Hf (x & Hx & Hd). unfold deleted_at. rewrite lookup_upd, Hx. case_decide; cbn; eauto.
Qed.

(** Editing the instruction at [i] alone. *)
Lemma pattern_edit pc i x f :
  well_formed pc -> constants pc = pool -> live_at pc i x -> edit_ok pc x (f x) ->
  (deleted (f x) = true \/ registers (op (f x)) = false) -> 
  (forall y, deleted y = true -> deleted (f y) = true) ->
  well_formed (upd i f pc) /\
  pattern_ok (pool:=pool) pc (upd i f pc) (fun _ => False) (fun j => j =? i).
Proof.
  intros W <- Hl He Hr Hf. destruct Hl as [Hx Hd].
  assert (W' : well_formed (upd i f pc)) by by eapply upd_well_formed.
  split; [done|]. eapply pattern_intro; [done..|apply isolated_none| | |].
  - intros. by apply upd_deleted.
  - intros j Hne _. by apply lookup_upd_ne.
  - intros j y Hy [->|[]]. destruct Hy as [Hy Hdy].
    rewrite (lookup_upd_eq _ _ _ _ Hx) in Hy. destruct Hr; congruence.
Qed.

(** What thread_hop and jump_to_next_at rewrite. *)
Lemma threadable_spec x :
  threadable x = true <-> deleted x = false /\ (op x = OP_JMP \/ op x = OP_JNIL \/ op x = OP_JTRUE).
Proof.
  unfold threadable, opcode_eqb.
  rewrite andb_true_iff, !orb_true_iff, negb_true_iff, !bool_decide_eq_true. tauto.
Qed.

Lemma edit_jump pc i x t :
  well_formed pc -> live_at pc i x -> threadable x = true -> t < count pc ->
  edit_ok pc x (set_jump (Some t) x).
Proof.
  intros W Hl Ht%threadable_spec Hlt. destruct (wf_live _ W _ _ Hl) as [? ? ? Hjmp ?].
  destruct Ht as [Hd Ho]. split; cbn; auto.
  - intros Hp. apply (wf_pinned _ W i x); [apply Hl|done].
  - intros _. split; cbn; auto.
    + split; [by eauto|]. intros _. by destruct Ho as [->|[->| ->]].
    + by intros ? [= <-].
  - intros _. by destruct Ho as [->|[->| ->]].
Qed.

Lemma edit_ret pc i x :
  well_formed pc -> live_at pc i x -> pinned x = false -> edit_ok pc x (become_ret x).
Proof.
  intros W Hl Hp. destruct (wf_live _ W _ _ Hl). split; cbn; auto; try congruence.
  intros _. split; cbn; try done; try lia. all: split; [done|by intros []].
Qed.

(** What a threadable instruction does: jump or not, and the frame after. *)
Definition thread_outcome (o : opcode) (f : frame) : option (bool * frame) :=
  match o with
  | OP_JMP => Some (true, f)
  | _ => match stack f with
         | v :: s => Some (if opcode_eqb o OP_JNIL then CL_NULL_P v else negb (CL_NULL_P v),
                           set_stack s f)
         | [] => None
         end
  end.

Lemma threadable_exec x args f : threadable x = true -> forall tgt,
  exec (op x) args tgt f = match thread_outcome (op x) f with
                           | Some (true, g) => Jump g
                           | Some (false, g) => Next g
                           | None => Stuck
                           end.
Proof.
  intros [_ Ho]%threadable_spec tgt.
  destruct Ho as [->|[->| ->]]; cbn; [done|..]; unfold op_jnil, op_jtrue, pop, branch;
    destruct (stack f); cbn; try done; by destruct (CL_NULL_P _).
Qed.

Lemma thread_outcome_rest o f b g : thread_outcome o f = Some (b, g) -> rest g = rest f.
Proof. destruct o; cbn; repeat case_match; intros; simplify_eq; done. Qed.

Section Thread.
Context (pc : PeepCode) (i : nat) (x y : PeepInsn) (t0 : nat).
Hypothesis Hsound : sound pc.
Hypothesis Hl : live_at pc i x.
Hypothesis Ht : threadable x = true.
Hypothesis Hj : jump_target x = Some t0.
Hypothesis Hy : insns pc !! skip_deleted pc t0 = Some y.

(** The jump goes straight to where the JMP at its target goes. *)
Lemma thread_jmp_sound t2 :
  op y = OP_JMP -> jump_target y = Some t2 ->
  sound (upd i (set_jump (Some t2)) pc) /\ refines pc (upd i (set_jump (Some t2)) pc).
Proof.
  intros Hoy Hty. pose proof (skip_live _ _ _ Hy) as Hly. destruct Hsound as [W Hp HC].
  pose proof Ht as [Hd Ho]%threadable_spec.
  assert (Hlt : t2 < count pc) by (by eapply (ok_target _ _ (wf_live _ W _ _ Hly))).
  destruct (pattern_edit pc i x (set_jump (Some t2))) as [W' HP]; [done..|by eapply edit_jump| |done|].
  { right. cbn. by destruct Ho as [->|[->| ->]]. }
  set (pc' := upd i (set_jump (Some t2)) pc) in *.
  assert (Hl' : live_at pc' i (set_jump (Some t2) x)).
  { split; [|done]. by apply lookup_upd_eq, Hl. }
  destruct (local_rewrite pc pc' _ _ HP) as [HR HC']; [|done|by split].
  intros D HD HC0. exists (fun j => j = i /\ D i).
  assert (Hhead : head_carries pc' (fun _ => False) D (fun j => j = i /\ D i) (fun j => j =? i)).
  { intros j HDj _ ->%head_eq. rewrite (skip_stop _ _ _ Hl'). by right. }
  pose proof (carried_on _ _ _ _ _ _ HP HD Hhead) as Hcarry. split_and!.
  - intros j [-> HDi].
    eapply quiet_other; [exact Hl'|done| | | |]; cbn.
    + by destruct Ho as [->|[->| ->]].
    + by destruct Ho as [->|[->| ->]].
    + intros Hw Hu. apply Hcarry; [by eapply dead_next|auto].
    + intros Hw Hb t [= <-]. apply Hcarry; [|auto].
      assert (D (skip_deleted pc t0)) by by eapply dead_jump.
      by eapply (dead_jump pc D HD (skip_deleted pc t0) y); rewrite ?Hoy.
  - done.
  - intros j z f Hlz _ ->%head_eq Hr. pose proof (live_fun _ _ _ _ Hlz Hl) as ->.
    pose proof (step_live pc i i x f W Hl (skip_stop _ _ _ Hl)) as E.
    pose proof (step_live pc' i i _ f W' Hl' (skip_stop _ _ _ Hl')) as E'. cbn [op set_jump] in E'.
    change (body (set_jump (Some t2) x)) with (body x) in E'.
    pose proof (threadable_exec x (body x) f Ht) as Hx. rewrite (Hx (jump_target x)) in E.
    rewrite (Hx (jump_target (set_jump (Some t2) x))) in E'.
    destruct (thread_outcome (op x) f) as [[[] g]|] eqn:Eo.
    + right; right. exists 1, 1, (t2, g), (t2, g). cbn [run]. rewrite E, E'. cbn. rewrite Hj.
      rewrite (step_live pc t0 _ y g W Hly eq_refl), Hoy. cbn. rewrite Hty.
      split_and!; [done..| |lia]. apply related_same; auto. eapply registered_rest; [|done].
      by eapply thread_outcome_rest.
    + right; right. exists 0, 1, (S i, g), (S i, g). cbn [run]. rewrite E, E'. cbn.
      split_and!; [done..| |lia]. apply related_same; auto. eapply registered_rest; [|done].
      by eapply thread_outcome_rest.
    + left. exists 1. cbn. by rewrite E.
Qed.

(** The JMP to a RET becomes the RET. *)
Lemma thread_ret_sound :
  op x = OP_JMP -> op y = OP_RET -> pinned x = false ->
  sound (upd i become_ret pc) /\ refines pc (upd i become_ret pc).
Proof.
  intros Hox Hoy Hpx. pose proof (skip_live _ _ _ Hy) as Hly. destruct Hsound as [W Hp HC].
  destruct (pattern_edit pc i x become_ret) as [W' HP]; [done..|by eapply edit_ret|by right|done|].
  set (pc' := upd i become_ret pc) in *.
  assert (Hl' : live_at pc' i (become_ret x)) by (split; [by apply lookup_upd_eq, Hl|apply Hl]).
  destruct (local_rewrite pc pc' _ _ HP) as [HR HC']; [|done|by split].
  intros D HD HC0. exists (fun j => j = i /\ D i). split_and!.
  - intros j [-> HDi]. exists (become_ret x).
    assert (HDy : D (skip_deleted pc t0)) by (apply (dead_jump pc D HD i x); rewrite ?Hox; done).
    destruct (HD _ HDy) as (z & Hz & Hb & _). rewrite (live_fun _ _ _ _ Hz Hly) in *.
    unfold runs, lands_of in *. rewrite Hoy in Hb. by split_and!; [..|right].
  - intros j HDj _ ->%head_eq. rewrite (skip_stop _ _ _ Hl'). by right.
  - intros j z f Hlz _ ->%head_eq Hr. pose proof (live_fun _ _ _ _ Hlz Hl) as ->. right; left.
    exists 2, 1. cbn [run].
    rewrite (step_live pc i i x f), (step_live pc' i i _ f W' Hl'), Hox by eauto using skip_stop.
    cbn. rewrite Hj, (step_live pc t0 _ y f W Hly eq_refl), Hoy. cbn. eauto.
Qed.

End Thread.

Theorem thread_hop_sound pc i x pc' b :
  sound pc -> insns pc !! i = Some x -> threadable x = true -> thread_hop pc i = Some (pc', b) ->
  sound pc' /\ refines pc pc' /\
  (b = true -> exists x', insns pc' !! i = Some x' /\ threadable x' = true).
Proof.
  unfold thread_hop. intros S Hx Ht. rewrite Hx. cbn.
  destruct (jump_target x) as [t0|] eqn:Hj; [|done]. cbn.
  destruct (insns pc !! skip_deleted pc t0) as [y|] eqn:Hy; [|done]. cbn.
  assert (Hl : live_at pc i x) by (split; [done|by destruct (proj1 (threadable_spec x) Ht)]).
  unfold opcode_eqb. destruct (_ && _ && _) eqn:Hret.
  - rewrite !andb_true_iff, !bool_decide_eq_true, negb_true_iff in Hret.
    destruct Hret as [[Hox Hoy] Hp]. intros [= <- <-].
    destruct (thread_ret_sound pc i x y t0) as [S' HR]; done.
  - clear Hret. case_bool_decide as Hoy; [|done]. destruct (jump_target y) as [t2|] eqn:Hty; [|done]. cbn.
    destruct (t2 =? t0); [done|]. intros [= <- <-].
    destruct (thread_jmp_sound pc i x y t0 S Hl Ht Hj Hy t2 Hoy Hty) as [S' HR].
    split_and!; [done..|]. intros _. exists (set_jump (Some t2) x). split; [|done].
    by apply lookup_upd_eq.
Qed.

(** A family of rewrites, one per index, that keeps [Inv] and refines. *)
Definition correct_at (Inv : PeepCode -> Prop) (f : PeepCode -> nat -> option PeepCode) : Prop :=
  forall pc i pc', Inv pc -> f pc i = Some pc' -> Inv pc' /\ refines pc pc'.

Lemma each_index_correct Inv f pc :
  correct_at Inv f -> Inv pc -> Inv (each_index f pc).1 /\ refines pc (each_index f pc).1.
Proof.
  intros Hf HI. unfold each_index.
  assert (Hgen : forall l acc, Inv acc.1 -> refines pc acc.1 ->
    let r := foldl (fun acc i => match f acc.1 i with Some pc' => (pc', S acc.2) | None => acc end) acc l in
    Inv r.1 /\ refines pc r.1).
  { induction l as [|i l IH]; intros [q n] HIq HRq; cbn in *; [done|].
    destruct (f q i) as [q'|] eqn:E; [|by apply IH].
    destruct (Hf q i q' HIq E). apply IH; cbn; [done|by etrans]. }
  by apply Hgen.
Qed.

Lemma thread_hops_correct n pc i x :
  sound pc -> insns pc !! i = Some x -> threadable x = true ->
  sound (thread_hops n pc i).1 /\ refines pc (thread_hops n pc i).1.
Proof.
  revert pc x. induction n as [|n IH]; intros pc x S Hx Ht; cbn; [done|].
  destruct (thread_hop pc i) as [[pc' b]|] eqn:E; [|done].
  destruct (thread_hop_sound _ _ _ _ _ S Hx Ht E) as (S' & HR & Hc).
  destruct b; [|done]. destruct Hc as (x' & Hx' & Ht'); [done|].
  destruct (IH pc' x' S' Hx' Ht') as [S2 HR2].
  destruct (thread_hops n pc' i) as [q m]. cbn in *. split; [done|by etrans].
Qed.

Theorem peep_thread_jumps_correct pc :
  sound pc -> sound (peep_thread_jumps pc).1 /\ refines pc (peep_thread_jumps pc).1.
Proof.
  intros S. unfold peep_thread_jumps.
  assert (Hgen : forall l acc, sound acc.1 -> refines pc acc.1 ->
    let r := foldl (fun acc i => let '(pc', n) := thread_at acc.1 i in (pc', acc.2 + n)) acc l in
    sound r.1 /\ refines pc r.1).
  { induction l as [|i l IH]; intros [q n] HIq HRq; cbn in *; [done|].
    destruct (thread_at q i) as [q' m] eqn:E. apply IH; cbn; unfold thread_at in E;
      (destruct (insns q !! i) as [x|] eqn:Hx; [|by simplify_eq]);
      (destruct (threadable x) eqn:Ht; [|by simplify_eq]);
      destruct (thread_hops_correct 16 q i x) as [S' HR]; try done; rewrite E in *; [done|by etrans]. }
  by apply Hgen.
Qed.

(** ** A jump to the next instruction *)

(** Deleting one instruction that is not pinned. *)
Lemma edit_delete pc x f :
  pinned x = false -> fused_with (f x) = fused_with x -> synth (f x) = synth x ->
  pinned (f x) = pinned x -> deleted (f x) = true -> edit_ok pc x (f x).
Proof. intros Hp Ef Es Ep Ed. split; auto; rewrite ?Ed; congruence || done. Qed.

Lemma deleted_upd i f pc x :
  insns pc !! i = Some x -> deleted (f x) = true -> deleted_at (upd i f pc) i.
Proof. intros Hx Hd. exists (f x). by rewrite (lookup_upd_eq _ _ _ _ Hx). Qed.

Theorem jump_to_next_correct : correct_at sound jump_to_next_at.
Proof.
  intros pc i pc' Hs H. unfold jump_to_next_at in H.
  apply bind_Some in H as (x & Hx & H). apply require_Some in H as [Hd%negb_true_iff H].
  apply require_Some in H as [Ho%opcode_eqb_eq H]. apply bind_Some in H as (t & Hj & H).
  apply require_Some in H as [Hp%negb_true_iff H]. unfold peep_next_live in H.
  apply require_Some in H as [Et%Nat.eqb_eq H]. apply require_Some in H as [Hn%Nat.ltb_lt H].
  injection H as <-.
  destruct Hs as [W Hpool HC]. assert (Hl : live_at pc i x) by done.
  destruct (pattern_edit pc i x delete_insn) as [W' HP]; [done..|by apply edit_delete|by left|done|].
  set (pc' := upd i delete_insn pc) in *. pose proof (skip_ge pc (S i)) as Hge.
  assert (Hi : skip_deleted pc' i = skip_deleted pc' (S i))
    by (apply skip_step; by eapply deleted_upd).
  destruct (local_rewrite pc pc' _ _ HP) as [HR HC']; [|done|by split].
  intros D HD HC0. exists (fun _ => False). split_and!.
  - done.
  - intros j HDj _ ->%head_eq. rewrite Hi. eapply carried_plain; [done..| | |].
    + rewrite <- Et. apply (dead_jump pc D HD i x); rewrite ?Ho; done.
    + auto.
    + rewrite head_eq. lia.
  - intros j z f Hlz _ ->%head_eq Hr. pose proof (live_fun _ _ _ _ Hlz Hl) as ->. right; right.
    exists 0, 0, (t, f), (i, f). cbn [run].
    rewrite (step_live pc i i x f), Ho by eauto using skip_stop. cbn. rewrite Hj.
    split_and!; [done..| |right].
    + apply related_same; auto.
      rewrite Hi, (skip_more pc pc' t), (skip_more pc pc' (S i)), Et; [done|apply HP..].
    + unfold distance. cbn. rewrite Et, (skip_stop _ _ _ Hl). lia.
Qed.

(** ** A store before the return *)

(** The slot operand of an instruction is the byte after its opcode. *)
Lemma body_slot pc j x n :
  well_formed pc -> live_at pc j x -> cl_opnd_len (opcode_operands (op x)) = Some (S n) ->
  byte_at (body x) 0 = byte_at (raw x) 1.
Proof.
  intros W Hl Hn. destruct (wf_live _ W _ _ Hl) as [Hr _ Hs _ _]. rewrite Hn in Hs.
  unfold body, byte_at. rewrite Hs in *. by destruct (raw x) as [|a [|b r]].
Qed.

(** Returning does not look at the locals. *)
Lemma ret_locals l (f : frame) : op_ret (result:=result) (set_locals l f) = op_ret f.
Proof. done. Qed.

Lemma store_cases args (f : frame) :
  op_store (result:=result) args f = Stuck \/
  exists l, op_store (result:=result) args f = Next (set_locals l f).
Proof. unfold op_store, peek, store. repeat case_match; eauto. Qed.

Theorem dead_store_ret_correct : correct_at sound dead_store_ret_at.
Proof.
  intros pc i pc' [W Hpool HC] H. unfold dead_store_ret_at, peep_next_live in H.
  apply bind_Some in H as (x & Hx & H). apply require_Some in H as [Hd%negb_true_iff H].
  apply require_Some in H as [Ho%opcode_eqb_eq H]. apply bind_Some in H as (n & Hn & H).
  apply bind_Some in H as (r & Hr & H). apply require_Some in H as [Hor%opcode_eqb_eq H].
  injection H as <-. pose proof (conj Hx Hd : live_at pc i x) as Hl.
  pose proof (skip_live _ _ _ Hn) as Hln. set (ni := skip_deleted pc (S i)) in *.
  pose proof (skip_ge pc (S i) : S i <= ni) as Hge.
  assert (Hpin : pinned x = false).
  { destruct (pinned x) eqn:Hp; [|done]. destruct (wf_pinned _ W i x Hx Hp). congruence. }
  destruct (pattern_edit pc i x set_deleted) as [W' HP]; [done..|by apply edit_delete|by left|done|].
  set (pc' := upd i set_deleted pc) in *.
  assert (Hi : skip_deleted pc' i = skip_deleted pc' (S i)) by (apply skip_step; by eapply deleted_upd).
  assert (Hln' : live_at pc' ni n) by (apply live_upd_ne; [lia|done]).
  assert (Hni' : skip_deleted pc' i = ni) by (rewrite Hi; eapply skip_kept; [apply HP|done]).
  destruct (local_rewrite pc pc' _ _ HP) as [HR HC']; [|done|by split].
  intros D HD HC0. exists (fun _ => False). split_and!.
  - done.
  - intros j HDj _ ->%head_eq. rewrite Hi. eapply carried_plain; [done..| |auto|rewrite head_eq; lia].
    apply (dead_next pc D HD i x); rewrite ?Ho; done.
  - intros j z f Hlz _ ->%head_eq Hreg. pose proof (live_fun _ _ _ _ Hlz Hl) as ->.
    pose proof (step_live pc i i x f W Hl (skip_stop _ _ _ Hl)) as E1. rewrite Ho in E1. cbn in E1.
    destruct (store_cases (body x) f) as [E|[l E]]; rewrite E in E1.
    { left. exists 1. cbn. by rewrite E1. }
    cbn in E1. pose proof (fun g => step_live pc (S i) ni n g W Hln eq_refl) as E2.
    pose proof (fun g => step_live pc' i ni n g W' Hln' Hni') as E3.
    right; left. destruct (opcode_eqb (op n) OP_MV_RESET) eqn:Hmv; [apply opcode_eqb_eq in Hmv|].
    + set (ri := skip_deleted pc (S ni)) in *. pose proof (skip_live _ _ _ Hr) as Hlr.
      pose proof (skip_ge pc (S ni) : S ni <= ri) as Hge2.
      exists 3, 2. cbn [run]. rewrite E1, E2, E3, Hmv. cbn [exec after run].
      rewrite (step_live pc (S ni) ri r _ W Hlr eq_refl), Hor.
      assert (Hlr' : live_at pc' ri r) by (apply live_upd_ne; [lia|done]).
      rewrite (step_live pc' (S ni) ri r _ W' Hlr'), Hor; [cbn; eauto|].
      eapply skip_kept; [apply HP|done].
    + injection Hr as <-. exists 2, 1. cbn [run]. rewrite E1, E2, E3, Hor. cbn. eauto.
Qed.

(** ** Patterns delimited by the marks *)

(** An edit that adds no jump keeps the invariant and the marks. *)
Lemma edit_keeps pc i x f :
  well_formed pc -> marks_ok pc -> live_at pc i x -> edit_ok pc x (f x) -> target (f x) = target x ->
  (deleted (f x) = true \/ jump_target (f x) = None \/ jump_target (f x) = jump_target x) ->
  well_formed (upd i f pc) /\ marks_ok (upd i f pc).
Proof.
  intros W M [Hx Hd] He Ht Hj. split; [by eapply upd_well_formed|].
  eapply upd_marks_ok; [done..|apply He|]. destruct Hj; auto.
Qed.

Lemma not_jmp_unpinned pc i x : well_formed pc -> live_at pc i x -> op x <> OP_JMP -> pinned x = false.
Proof.
  intros W [Hx _] Ho. destruct (pinned x) eqn:Hp; [|done].
  by destruct (wf_pinned _ W i x Hx Hp).
Qed.

Lemma delete_keeps pc i x :
  well_formed pc -> marks_ok pc -> live_at pc i x -> op x <> OP_JMP ->
  well_formed (upd i set_deleted pc) /\ marks_ok (upd i set_deleted pc).
Proof.
  intros W M Hl Ho. eapply edit_keeps; [done..| |done|by left].
  apply edit_delete; try done. by eapply not_jmp_unpinned.
Qed.

(** Between the head and the place after the members all is deleted. *)
Lemma skip_members pc pc' i p :
  (forall k, deleted_at pc k -> deleted_at pc' k) -> skip_deleted pc i = p -> deleted_at pc' p ->
  skip_deleted pc' i = skip_deleted pc' (S p).
Proof. intros Hd <- Hp. rewrite (skip_more pc pc' i) by done. by apply skip_step. Qed.

(** Deleting the two members after a head that stays. *)
Lemma delete_two pc i p l s y z :
  well_formed pc -> marks_ok pc -> live_at pc i s ->
  next_unjoined pc i = Some (p, y) -> next_unjoined pc p = Some (l, z) -> constants pc = pool ->
  registers (op s) = false ->
  let pc' := upd l set_deleted (upd p set_deleted pc) in well_formed pc' ->
  live_at pc' i s /\
  pattern_ok (pool:=pool) pc pc' (fun k => k = p \/ k = l) (fun j => j =? i) /\
  skip_deleted pc' (S i) = skip_deleted pc' (S l) /\
  ~ (skip_deleted pc (S l) = p \/ skip_deleted pc (S l) = l).
Proof.
  intros W M Hls Hp Hl Hpool Hreg pc' W'.
  destruct (next_unjoined_spec _ _ _ _ Hp) as (Hlp & Hip & Hsp & _).
  destruct (next_unjoined_spec _ _ _ _ Hl) as (Hll & Hpl & Hsl & _).
  assert (Hmore : forall k, deleted_at pc k -> deleted_at pc' k)
    by (intros; by apply upd_deleted, upd_deleted).
  assert (Hkeep : forall j, j <> p -> j <> l -> insns pc' !! j = insns pc !! j)
    by (intros; unfold pc'; by rewrite !lookup_upd_ne).
  assert (Hls' : live_at pc' i s) by (split; [rewrite Hkeep by lia|]; apply Hls).
  assert (Hdp : deleted_at pc' p) by (apply upd_deleted; [done|]; eapply deleted_upd; [apply Hlp|done]).
  assert (Hdl : deleted_at pc' l)
    by (eapply deleted_upd; [|done]; rewrite lookup_upd_ne by lia; apply Hll).
  split_and!; [done| | |].
  - rewrite <- Hpool.
    eapply pattern_intro; [done..|by eapply isolated_two|done| |].
    + intros j _ HP. apply Hkeep; tauto.
    + intros j w Hw [->|HP]; [by rewrite (live_fun _ _ _ _ Hw Hls')|]. exfalso. destruct Hw.
      destruct HP as [->| ->]; [destruct Hdp as (? & ? & ?)|destruct Hdl as (? & ? & ?)]; congruence.
  - by rewrite (skip_members pc pc' (S i) p), (skip_members pc pc' (S p) l).
  - pose proof (skip_ge pc (S l)). lia.
Qed.

(** The two codes on a frame: nonsense, or the same frame after the members. *)
Lemma store_reload_runs pc pc' i p l s y z (f : frame) :
  well_formed pc -> well_formed pc' -> live_at pc i s -> live_at pc' i s ->
  live_at pc p y -> live_at pc l z -> skip_deleted pc (S i) = p -> skip_deleted pc (S p) = l ->
  op s = OP_STORE -> op y = OP_POP -> op z = OP_LOAD -> byte_at (raw s) 1 = byte_at (raw z) 1 ->
  run 1 pc (i, f) = Wrong \/
  exists g, rest g = rest f /\ run 3 pc (i, f) = Running (S l, g) /\ run 1 pc' (i, f) = Running (S i, g).
Proof.
  intros W W' Hls Hls' Hlp Hll Hsp Hsl Hos Hop Hol Hslot.
  pose proof (step_live pc i i s f W Hls (skip_stop _ _ _ Hls)) as E1.
  pose proof (step_live pc' i i s f W' Hls' (skip_stop _ _ _ Hls')) as E1'.
  pose proof (body_slot pc i s 0 W Hls) as Bs. pose proof (body_slot pc l z 0 W Hll) as Bl.
  rewrite Hos in *. rewrite Hol in *. specialize (Bs eq_refl). specialize (Bl eq_refl).
  cbn in E1, E1'. unfold op_store, peek, store in E1, E1'.
  destruct (stack f) as [|v st] eqn:Est; [left; cbn; by rewrite E1|].
  destruct (_ <? _) eqn:Hlt in E1, E1'; rewrite ?Hlt in E1'; [|left; cbn; by rewrite E1].
  right. cbn in E1, E1'. apply Nat.ltb_lt in Hlt. set (g := set_locals _ f) in *.
  exists g. split; [done|]. cbn [run]. rewrite E1, E1', (step_live pc (S i) p y g W Hlp Hsp), Hop.
  split; [|done]. cbn. unfold op_pop, pop. cbn. rewrite Est. cbn.
  rewrite (step_live pc (S p) l z _ W Hll Hsl), Hol. cbn. unfold op_load, load. cbn.
  rewrite Bl, <- Hslot, <- Bs, list_lookup_insert_eq by done. cbn.
  unfold g, push, set_stack, set_locals. cbn. by rewrite Est.
Qed.

Theorem store_reload_correct : correct_at marked store_reload_at.
Proof.
  intros pc i pc' [[W Hpool HC] M] H. unfold store_reload_at in H.
  apply bind_Some in H as (s & Hx & H). apply require_Some in H as [Hd%negb_true_iff H].
  apply require_Some in H as [Hos%opcode_eqb_eq H].
  apply bind_Some in H as ([p y] & Hp & H). apply require_Some in H as [Hop%opcode_eqb_eq H].
  apply bind_Some in H as ([l z] & Hl & H). apply require_Some in H as [Hol%opcode_eqb_eq H].
  apply require_Some in H as [Hslot%Z.eqb_eq H]. injection H as <-. cbn [fst snd] in *.
  pose proof (conj Hx Hd : live_at pc i s) as Hls.
  destruct (next_unjoined_spec _ _ _ _ Hp) as (Hlp & Hip & Hsp & _).
  destruct (next_unjoined_spec _ _ _ _ Hl) as (Hll & Hpl & Hsl & _).
  destruct (delete_keeps pc p y W M Hlp) as [W1 M1]; [congruence|].
  destruct (delete_keeps _ l z W1 M1) as [W2 M2]; [by apply live_upd_ne; [lia|]|congruence|].
  destruct (delete_two pc i p l s y z W M Hls Hp Hl) as (Hls' & HP & Hskip & Hout); [done|by rewrite Hos|done|].
  set (pc' := upd l set_deleted (upd p set_deleted pc)) in *.
  destruct (local_rewrite pc pc' _ _ HP) as [HR HC']; [|done|by split; [split|]].
  intros D HD HC0. exists (fun j => j = i /\ D i).
  assert (Hhead : head_carries pc' (fun k => k = p \/ k = l) D (fun j => j = i /\ D i) (fun j => j =? i)).
  { intros j HDj _ ->%head_eq. rewrite (skip_stop _ _ _ Hls'). by right. }
  split_and!; [|done|].
  - intros j [-> HDi]. eapply quiet_other; rewrite ?Hos; try done. intros _ _. rewrite Hskip.
    apply (carried_on _ _ _ _ _ _ HP HD Hhead); [|done].
    apply (dead_next pc D HD l z); rewrite ?Hol; try done. rewrite <- Hsl.
    apply (dead_next pc D HD p y); rewrite ?Hop; try done. rewrite <- Hsp.
    by apply (dead_next pc D HD i s); rewrite ?Hos.
  - intros j w f Hlw _ ->%head_eq Hreg. pose proof (live_fun _ _ _ _ Hlw Hls) as ->.
    destruct (store_reload_runs pc pc' i p l s y z f) as [E|(g & Hg & E & E')]; try done; [by left; exists 1|].
    right; right. exists 2, 1, (S l, g), (S i, g). split_and!; [done..| |lia].
    apply related_same; [done..|]. by eapply registered_rest.
Qed.

(** ** The scan for a masking write *)

(** [r] is a live instruction at which a scan of [pc] succeeds. *)
Definition scanned (pc : PeepCode) (r : nat) : Prop :=
  (exists x, live_at pc r x) /\ exists e a, mv_scan (drop r (insns pc)) e a = true.

Lemma scan_skip pc t e a :
  mv_scan (drop t (insns pc)) e a = true -> scanned pc (skip_deleted pc t).
Proof.
  remember (count pc - t) as n eqn:En. revert t e En. induction n as [|n IH]; intros t e En H.
  { rewrite drop_ge in H by (unfold count in En; lia). done. }
  destruct (lookup_lt_is_Some_2 (insns pc) t) as [x Hx]; [unfold count in En; lia|].
  destruct (deleted x) eqn:Hd.
  - rewrite skip_step by (by exists x). rewrite (drop_S _ x t Hx) in H. cbn in H.
    destruct (_ && _); [done|]. rewrite Hd in H. by eapply IH; [lia|].
  - rewrite (skip_stop _ _ x) by done. split; [by exists x|]. eauto.
Qed.

Lemma scanned_live pc r x :
  scanned pc r -> live_at pc r x ->
  has_flag (op x) CL_OPF_MVR = false /\
  (has_flag (op x) CL_OPF_MVW = true \/
   has_flag (op x) CL_OPF_UNCOND = false /\ jump_target x = None /\
   scanned pc (skip_deleted pc (S r))).
Proof.
  intros [_ (e & a & H)] [Hx Hd]. rewrite (drop_S _ x r Hx) in H. cbn in H.
  destruct (_ && _); [done|]. rewrite Hd in H.
  destruct (has_flag (op x) CL_OPF_MVR); [done|]. split; [done|].
  destruct (has_flag (op x) CL_OPF_MVW); [by left|right].
  destruct (has_flag (op x) CL_OPF_UNCOND); [done|]. destruct (jump_target x); [done|].
  split_and!; [done..|]. by eapply scan_skip.
Qed.

(** A scanned instruction that the rewrite keeps is quiet when the place after
    it is. *)
Lemma scanned_quiet pc pc' C r x :
  scanned pc r -> live_at pc r x -> live_at pc' r x -> well_formed pc' ->
  (scanned pc (skip_deleted pc (S r)) -> C (skip_deleted pc' (S r))) ->
  quiet (pool:=pool) (val:=val) (world:=world) (result:=result) pc' C r.
Proof.
  intros Hs Hl Hl' W' HC. destruct (scanned_live _ _ _ Hs Hl) as [Hr Hw].
  eapply quiet_other; [exact Hl'|done|done| | |].
  - intros Ho. rewrite Ho in Hw. destruct Hw as [?|[? _]]; done.
  - intros Hw' Hu. destruct Hw as [?|(_ & _ & ?)]; [congruence|auto].
  - intros Hw' Hb t Ht. destruct Hw as [?|(_ & ? & _)]; congruence.
Qed.

(** ** A pure push and its POP *)

(** A pure instruction pushes one value, and writes the count when flagged. *)
Lemma pure_exec o args tgt f :
  has_flag o CL_OPF_PURE = true ->
  exec o args tgt f = Stuck \/
  exists v, exec o args tgt f
            = Next (push v (if has_flag o CL_OPF_MVW then set_mv 1 f else f)).
Proof.
  intros Hp. destruct o; try done; cbn;
    unfold op_const, op_load, op_upval, op_dup, op_nil, op_t, const, load, peek;
    repeat case_match; try (by left); right; eexists; reflexivity.
Qed.

Lemma pure_pop_runs pc i p u y (f : frame) :
  well_formed pc -> live_at pc i u -> live_at pc p y -> skip_deleted pc (S i) = p ->
  has_flag (op u) CL_OPF_PURE = true -> op y = OP_POP ->
  run 1 pc (i, f) = Wrong \/
  run 2 pc (i, f) = Running (S p, if has_flag (op u) CL_OPF_MVW then set_mv 1 f else f).
Proof.
  intros W Hl Hlp Hs Hu Hy. cbn [run].
  rewrite (step_live pc i i u f W Hl (skip_stop _ _ _ Hl)).
  destruct (pure_exec (op u) (body u) (jump_target u) f Hu) as [E|[v E]]; rewrite E; cbn; [by left|right].
  rewrite (step_live pc (S i) p y _ W Hlp Hs), Hy.
  by destruct f, (has_flag (op u) CL_OPF_MVW).
Qed.

(** Deleting the head and the member after it. *)
Lemma delete_pair pc i p u y :
  well_formed pc -> marks_ok pc -> live_at pc i u -> next_unjoined pc i = Some (p, y) ->
  constants pc = pool ->
  let pc' := upd p set_deleted (upd i set_deleted pc) in well_formed pc' ->
  pattern_ok (pool:=pool) pc pc' (fun k => k = p) (fun j => j =? i) /\
  skip_deleted pc' i = skip_deleted pc' (S p) /\ p < skip_deleted pc (S p).
Proof.
  intros W M Hl Hp Hpool pc' W'.
  destruct (next_unjoined_spec _ _ _ _ Hp) as (Hlp & Hip & Hsp & _).
  assert (Hmore : forall k, deleted_at pc k -> deleted_at pc' k)
    by (intros; by apply upd_deleted, upd_deleted).
  assert (Hdi : deleted_at pc' i) by (apply upd_deleted; [done|]; eapply deleted_upd; [apply Hl|done]).
  assert (Hdp : deleted_at pc' p)
    by (eapply deleted_upd; [|done]; rewrite lookup_upd_ne by lia; apply Hlp).
  split_and!.
  - rewrite <- Hpool. eapply pattern_intro; [done..|by eapply isolated_one|done| |].
    + intros j Hne HP. unfold pc'. rewrite !lookup_upd_ne; auto.
    + intros j w Hw HP. exfalso. destruct Hw.
      destruct HP as [->| ->]; [destruct Hdi as (? & ? & ?)|destruct Hdp as (? & ? & ?)]; congruence.
  - rewrite (skip_step pc' i Hdi). by apply (skip_members pc pc' (S i) p).
  - pose proof (skip_ge pc (S p)). lia.
Qed.

Theorem pure_pop_correct : correct_at marked pure_pop_at.
Proof.
  intros pc i pc' [[W Hpool HC] M] H. unfold pure_pop_at in H.
  apply bind_Some in H as (u & Hx & H). apply require_Some in H as [Hd%negb_true_iff H].
  apply require_Some in H as [Hu H]. apply bind_Some in H as ([p y] & Hp & H).
  apply require_Some in H as [Hop%opcode_eqb_eq H]. apply require_Some in H as [Hscan H].
  injection H as <-. cbn [fst snd] in *. pose proof (conj Hx Hd : live_at pc i u) as Hl.
  destruct (next_unjoined_spec _ _ _ _ Hp) as (Hlp & Hip & Hsp & _).
  destruct (delete_keeps pc i u W M Hl) as [W1 M1]; [by intros E; rewrite E in Hu|].
  destruct (delete_keeps _ p y W1 M1) as [W2 M2]; [by apply live_upd_ne; [lia|]|congruence|].
  destruct (delete_pair pc i p u y W M Hl Hp Hpool W2) as (HP & Hskip & Hgt).
  set (pc' := upd p set_deleted (upd i set_deleted pc)) in *.
  assert (Hafter : has_flag (op u) CL_OPF_MVW = true -> scanned pc (skip_deleted pc (S p))).
  { intros E. rewrite E in Hscan. apply scan_skip in Hscan. unfold peep_next_live in Hscan.
    by rewrite skip_idem in Hscan. }
  clear Hscan.
  destruct (local_rewrite pc pc' _ _ HP) as [HR HC']; [|done|by split; [split|]].
  intros D HD HC0. exists (fun r => p < r /\ scanned pc r).
  assert (Hreg : forall r, p < r -> scanned pc r -> exists x, live_at pc r x /\ live_at pc' r x).
  { intros r Hr [[x Hlx] _]. exists x. split; [done|]. apply live_upd_ne; [lia|].
    by apply live_upd_ne; [lia|]. }
  assert (Hto : forall t, p < skip_deleted pc t -> scanned pc (skip_deleted pc t) ->
            carried (fun k => k = p) D (fun r => p < r /\ scanned pc r) (fun j => j =? i) (skip_deleted pc' t)).
  { intros t Ht Hs. right. destruct (Hreg _ Ht Hs) as (x & _ & Hlx).
    by rewrite (skip_kept pc pc' t x) by (done || apply HP). }
  split_and!.
  - intros r [Hr Hs]. destruct (Hreg r Hr Hs) as (x & Hlx & Hlx').
    eapply scanned_quiet; [done..|]. intros Hs'. apply Hto; [|done].
    pose proof (skip_ge pc (S r)). lia.
  - intros j HDj _ ->%head_eq. rewrite Hskip.
    destruct (has_flag (op u) CL_OPF_MVW) eqn:Hw; [by apply Hto; auto|].
    eapply carried_plain; [done..| |lia|rewrite head_eq; lia].
    apply (dead_next pc D HD p y); rewrite ?Hop; try done. rewrite <- Hsp.
    apply (dead_next pc D HD i u); try done. revert Hu. by destruct (op u).
  - intros j w f Hlw _ ->%head_eq Hok. pose proof (live_fun _ _ _ _ Hlw Hl) as ->.
    destruct (pure_pop_runs pc i p u y f) as [E|E]; try done; [by left; exists 1|].
    right; right. eexists 1, 0, _, (i, f). split_and!; [exact E|done| |right].
    + assert (Hrest : forall b : bool, registered_ok (pool:=pool) pc' (if b then set_mv 1 f else f))
        by (intros []; by apply (registered_rest _ f)).
      split_and!; cbn [fst snd]; [by rewrite Hskip|lia|apply Hrest|].
      destruct (has_flag (op u) CL_OPF_MVW) eqn:Hw; [right|by left].
      split; [rewrite Hskip; by apply Hto; auto|done].
    + unfold distance. cbn. rewrite (skip_stop _ _ _ Hl). pose proof (live_lt _ _ _ Hl). lia.
Qed.

(** ** NOT before a branch *)

Definition branch_op (o : opcode) : Prop := o = OP_JNIL \/ o = OP_JTRUE.

Lemma invert_branch_op o : branch_op o -> branch_op (invert_branch o).
Proof. intros [->| ->]; [by right|by left]. Qed.

(** Changing the opcode to one of the same shape that registers nothing. *)
Lemma edit_op pc x o :
  insn_ok pc x -> deleted x = false -> pinned x = false ->
  opcode_operands o = opcode_operands (op x) -> o <> OP_HANDLER_CASE_PUSH ->
  edit_ok pc x (set_op o x).
Proof.
  intros [? ? ? ? ?] Hd Hp Ho Hh. split; cbn; auto; try congruence.
  intros _. split; cbn; rewrite ?Ho; auto.
Qed.

Lemma null_of_bool b : CL_NULL_P (of_bool b) = negb b.
Proof. destruct b; [apply null_t|apply null_nil]. Qed.

(** Where the branch [y] at [p] goes, and that NOT before it is the inverted
    branch. *)
Definition branch_dest (p : nat) (y : PeepInsn) (taken : bool) : nat :=
  if taken then default 0 (jump_target y) else S p.

Lemma branch_step pc i p y (h : frame) v s :
  well_formed pc -> live_at pc p y -> skip_deleted pc i = p -> branch_op (op y) ->
  stack h = v :: s ->
  step pc (i, h) = Running (branch_dest p y (xorb (opcode_eqb (op y) OP_JTRUE) (CL_NULL_P v)),
                            set_stack s h).
Proof.
  intros W Hl Hs Hb Hh. rewrite (step_live pc i p y h W Hl Hs).
  assert (Hj : is_Some (jump_target y)).
  { apply (ok_jump _ _ (wf_live _ W _ _ Hl)). by destruct Hb as [->| ->]. }
  destruct Hj as [t Ht]. unfold branch_dest. rewrite Ht.
  destruct Hb as [E|E]; rewrite E; cbn; unfold op_jnil, op_jtrue, pop, branch; rewrite Hh;
    destruct (CL_NULL_P v); cbn; by rewrite ?Ht.
Qed.

Lemma not_branch_runs pc i p n y (f : frame) :
  well_formed pc -> live_at pc i n -> live_at pc p y -> skip_deleted pc (S i) = p ->
  op n = OP_NOT -> branch_op (op y) ->
  run 1 pc (i, f) = Wrong \/
  exists v s, stack f = v :: s /\
    run 2 pc (i, f) = Running (branch_dest p y (xorb (opcode_eqb (op y) OP_JTRUE) (negb (CL_NULL_P v))),
                               set_mv 1 (set_stack s f)).
Proof.
  intros W Hl Hlp Hs Hn Hb. cbn [run].
  rewrite (step_live pc i i n f W Hl (skip_stop _ _ _ Hl)), Hn. cbn. unfold op_not, pop.
  destruct (stack f) as [|v s] eqn:Es; [by left|right]. exists v, s. split; [done|]. cbn.
  erewrite (branch_step pc (S i) p y) by done. cbn. by rewrite null_of_bool.
Qed.

(** The shape of the rewrite: the member is inverted, the head is [f]-edited. *)
Lemma not_branch_shape pc i p n y f :
  well_formed pc -> marks_ok pc -> constants pc = pool -> live_at pc i n ->
  next_unjoined pc i = Some (p, y) -> op n = OP_NOT -> branch_op (op y) ->
  f = set_deleted \/ f = set_op OP_MV_RESET ->
  let pc1 := upd p (set_op (invert_branch (op y))) pc in let pc' := upd i f pc1 in
  well_formed pc' /\ marks_ok pc' /\ live_at pc' p (set_op (invert_branch (op y)) y) /\
  pattern_ok (pool:=pool) pc pc' (fun k => k = p) (fun j => j =? i) /\
  insns pc' !! i = Some (f n) /\ (forall t, skip_deleted pc1 t = skip_deleted pc t).
Proof.
  intros W M Hpool Hl Hp Hn Hb Hf pc1 pc'.
  destruct (next_unjoined_spec _ _ _ _ Hp) as (Hlp & Hip & Hsp & _).
  pose proof (wf_live _ W _ _ Hl) as On. pose proof (wf_live _ W _ _ Hlp) as Oy.
  assert (Hpn : pinned n = false) by (eapply not_jmp_unpinned; [done..|congruence]).
  assert (Hpy : pinned y = false) by (eapply not_jmp_unpinned; [done..|]; by destruct Hb as [->| ->]).
  destruct (edit_keeps pc p y (set_op (invert_branch (op y))) W M Hlp) as [W1 M1]; [|done|by right; right|].
  { apply edit_op; [done|apply Hlp|done|by destruct Hb as [->| ->]..]. }
  assert (Hl1 : live_at pc1 i n) by (apply live_upd_ne; [lia|done]).
  assert (Hed : edit_ok pc1 n (f n)).
  { destruct Hf as [->| ->]; [by apply edit_delete|].
    apply edit_op; [|apply Hl|done|by rewrite Hn|done].
    by apply (insn_ok_count pc); [|apply count_upd|]. }
  destruct (edit_keeps pc1 i n f W1 M1 Hl1 Hed) as [W2 M2];
    [by destruct Hf as [->| ->]|destruct Hf as [->| ->]; auto|].
  assert (Hlp1 : live_at pc1 p (set_op (invert_branch (op y)) y))
    by (split; [by apply lookup_upd_eq, Hlp|apply Hlp]).
  assert (Hlp' : live_at pc' p (set_op (invert_branch (op y)) y)) by (apply live_upd_ne; [lia|done]).
  assert (Hsame : forall k, deleted_at pc k <-> deleted_at pc1 k).
  { intros k. unfold deleted_at, pc1. rewrite lookup_upd. case_decide as E; [subst k|done].
    destruct Hlp as [Hy Hdy]. rewrite Hy. cbn. split; intros (? & [= <-] & ?); cbn in *; eauto. }
  split_and!; [done..| |by apply lookup_upd_eq, Hl1|].
  - rewrite <- Hpool. eapply pattern_intro; [done..|by eapply isolated_one| | |].
    + intros k Hk. apply upd_deleted; [by destruct Hf as [->| ->]|]. by apply Hsame.
    + intros j Hne HP. unfold pc', pc1. by rewrite !lookup_upd_ne by auto.
    + intros j w Hw [->| ->].
      * destruct Hw as [Hw Hdw]. unfold pc' in Hw. rewrite (lookup_upd_eq _ _ _ n) in Hw by apply Hl1.
        by destruct Hf as [->| ->]; simplify_eq.
      * rewrite (live_fun _ _ _ _ Hw Hlp'). by destruct Hb as [->| ->].
  - intros t. rewrite (skip_more pc pc1 t) by (intros; by apply Hsame).
    destruct (skip_cases pc t) as [(x & Hx)|E].
    + assert (Hx1 : exists x', live_at pc1 (skip_deleted pc t) x').
      { destruct (decide (skip_deleted pc t = p)) as [->|Hne]; [eauto|].
        exists x. by apply live_upd_ne; auto. }
      destruct Hx1 as [x' Hx1]. by eapply skip_stop.
    + apply skip_end. unfold pc1. rewrite count_upd. by apply lookup_ge_None_1.
Qed.

(** The NOT is dropped: its write is dead on both paths of the branch. *)
Section Not_dead.
Context (pc pc1 pc' : PeepCode) (i p : nat) (n y y' : PeepInsn).
Hypothesis W : well_formed pc.
Hypothesis W' : well_formed pc'.
Hypothesis Hl : live_at pc i n.
Hypothesis Hlp : live_at pc p y.
Hypothesis Hlp' : live_at pc' p y'.
Hypothesis Hip : i < p.
Hypothesis Hsp : skip_deleted pc (S i) = p.
Hypothesis HP : pattern_ok (pool:=pool) pc pc' (fun k => k = p) (fun j => j =? i).
Hypothesis Hskip1 : forall t, skip_deleted pc1 t = skip_deleted pc t.
Hypothesis Hon : op n = OP_NOT.
Hypothesis Hb : branch_op (op y).
Hypothesis Hy' : y' = set_op (invert_branch (op y)) y.
Hypothesis Hdel : deleted_at pc' i.
Hypothesis Hkeep : forall k x, k <> i -> live_at pc1 k x -> live_at pc' k x.
Hypothesis Hnext : scanned pc1 (skip_deleted pc (S p)).
Hypothesis Hjump : forall t, jump_target y = Some t -> scanned pc1 (skip_deleted pc t).
Hypothesis Hout : forall b, skip_deleted pc (branch_dest p y b) <> p.

Let D0 (k : nat) : Prop := k = p \/ (k <> i /\ scanned pc1 k).

Lemma not_dead_head : skip_deleted pc' i = p.
Proof.
  rewrite (skip_step _ _ Hdel). rewrite <- Hsp. eapply skip_kept; [apply HP|]. by rewrite Hsp.
Qed.

Lemma not_dead_to D t :
  scanned pc1 (skip_deleted pc t) -> carried (fun k => k = p) D D0 (fun j => j =? i) (skip_deleted pc' t).
Proof.
  intros Hs. rewrite (skip_more pc pc' t) by apply HP. right.
  destruct (decide (skip_deleted pc t = i)) as [->|Hne]; [left; apply not_dead_head|].
  destruct Hs as [[x Hx] Hsc]. rewrite (skip_stop pc' _ x) by auto. right. split; [done|]. by split; [eauto|].
Qed.

Lemma not_dead_dest D b :
  jump_target y <> None ->
  carried (fun k => k = p) D D0 (fun j => j =? i) (skip_deleted pc' (branch_dest p y b)).
Proof.
  intros Hj. apply not_dead_to. destruct b; cbn; [|done].
  destruct (jump_target y) as [t|]; [by apply Hjump|done].
Qed.

Lemma not_dead_head_ok : head_ok (pool:=pool) (val:=val) (world:=world) (result:=result)
  pc pc' (fun k => k = p) (fun j => j =? i).
Proof.
  assert (Hb' : branch_op (op y')) by (rewrite Hy'; cbn; by apply invert_branch_op).
  assert (Hjy : jump_target y <> None).
  { destruct (proj1 (ok_jump _ _ (wf_live _ W _ _ Hlp))) as [t Ht]; [by destruct Hb as [->| ->]|congruence]. }
  intros D HD HC0. exists D0. split_and!.
  - intros k [->|[Hne Hs]].
    + eapply quiet_other; [exact Hlp'|done|by destruct Hb' as [->| ->]..| |].
      * intros _ _. by apply (not_dead_dest D false).
      * intros _ _ t Ht. rewrite Hy' in Ht. cbn in Ht. apply not_dead_to. by apply Hjump.
    + destruct (proj1 Hs) as [x Hx]. eapply scanned_quiet; [done..|by auto|done|].
      intros Hs'. rewrite Hskip1 in Hs'. by apply not_dead_to.
  - intros j _ _ ->%head_eq. rewrite not_dead_head. right. by left.
  - intros j z f Hlz _ ->%head_eq Hr. pose proof (live_fun _ _ _ _ Hlz Hl) as ->.
    destruct (not_branch_runs pc i p n y f) as [E|(v & s & Es & E)]; try done; [by left; exists 1|].
    right; right. do 2 eexists; eexists _, _. split_and!; [exact E| | |left; apply Nat.lt_0_1].
    { cbn [run]. erewrite branch_step; [reflexivity|done|done|apply not_dead_head|done|done]. }
    rewrite Hy'. cbn [op set_op]. unfold branch_dest at 2. cbn [jump_target set_op].
    fold (branch_dest p y (xorb (opcode_eqb (invert_branch (op y)) OP_JTRUE) (CL_NULL_P v))).
    replace (xorb (opcode_eqb (invert_branch (op y)) OP_JTRUE) (CL_NULL_P v))
      with (xorb (opcode_eqb (op y) OP_JTRUE) (negb (CL_NULL_P v)))
      by (by destruct Hb as [->| ->], (CL_NULL_P v)).
    split_and!; cbn [fst snd]; [done|apply Hout|by apply (registered_rest _ f)|].
    right. split; [by apply not_dead_dest|done].
Qed.

End Not_dead.

(** The NOT becomes MV_RESET, which keeps its write. *)
Lemma not_reset_head_ok pc pc' i p n y y' :
  well_formed pc -> well_formed pc' -> live_at pc i n -> live_at pc p y -> live_at pc' p y' ->
  live_at pc' i (set_op OP_MV_RESET n) -> i < p -> skip_deleted pc (S i) = p ->
  pattern_ok (pool:=pool) pc pc' (fun k => k = p) (fun j => j =? i) ->
  op n = OP_NOT -> branch_op (op y) -> y' = set_op (invert_branch (op y)) y ->
  (forall b, skip_deleted pc (branch_dest p y b) <> p) ->
  head_ok (pool:=pool) (val:=val) (world:=world) (result:=result) pc pc' (fun k => k = p) (fun j => j =? i).
Proof.
  intros W W' Hl Hlp Hlp' Hl' Hip Hsp HP Hon Hb Hy' Hout D HD. exists (fun k => k = i).
  assert (Hsp' : skip_deleted pc' (S i) = p) by (rewrite <- Hsp; eapply skip_kept; [apply HP|by rewrite Hsp]).
  assert (Hb' : branch_op (op y')) by (rewrite Hy'; cbn; by apply invert_branch_op).
  split_and!.
  - intros j ->. by eapply quiet_other.
  - intros j _ _ ->%head_eq. rewrite (skip_stop _ _ _ Hl'). by right.
  - intros j z f Hlz _ ->%head_eq Hr. pose proof (live_fun _ _ _ _ Hlz Hl) as ->.
    destruct (not_branch_runs pc i p n y f) as [E|(v & s & Es & E)]; try done; [by left; exists 1|].
    right; right. exists 1, 2. do 2 eexists. split_and!; [exact E| | |left; lia].
    { cbn [run]. rewrite (step_live pc' i i _ f W' Hl' (skip_stop _ _ _ Hl')). cbn.
      by erewrite (branch_step pc' (S i) p y'). }
    rewrite Hy'. cbn [op set_op]. unfold branch_dest at 2. cbn [jump_target set_op].
    fold (branch_dest p y (xorb (opcode_eqb (invert_branch (op y)) OP_JTRUE) (CL_NULL_P v))).
    replace (xorb (opcode_eqb (invert_branch (op y)) OP_JTRUE) (CL_NULL_P v))
      with (xorb (opcode_eqb (op y) OP_JTRUE) (negb (CL_NULL_P v)))
      by (by destruct Hb as [->| ->], (CL_NULL_P v)).
    apply related_same; [done|apply Hout|by apply (registered_rest _ f)].
Qed.

Theorem not_branch_correct : correct_at marked not_branch_at.
Proof.
  intros pc i pc' [[W Hpool HC] M] H. unfold not_branch_at in H.
  apply bind_Some in H as (n & Hx & H). apply require_Some in H as [Hd%negb_true_iff H].
  apply require_Some in H as [Hon%opcode_eqb_eq H]. apply bind_Some in H as ([p y] & Hp & H).
  apply require_Some in H as [Hb H]. rewrite orb_true_iff, !opcode_eqb_eq in Hb. cbn [fst snd] in *.
  pose proof (conj Hx Hd : live_at pc i n) as Hl.
  destruct (next_unjoined_spec _ _ _ _ Hp) as (Hlp & Hip & Hsp & _).
  assert (Hout : forall b, skip_deleted pc (branch_dest p y b) <> p).
  { intros [].
    - destruct (proj1 (ok_jump _ _ (wf_live _ W _ _ Hlp))) as [t Ht]; [by destruct Hb as [->| ->]|].
      unfold branch_dest. rewrite Ht. apply (iso_entry _ _ _ (isolated_one _ _ _ _ _ M Hl Hp)).
      left. eauto.
    - cbn. pose proof (skip_ge pc (S p)). lia. }
  set (pc1 := upd p (set_op (invert_branch (op y))) pc) in *.
  destruct (_ && _) eqn:Hdead in H; injection H as <-.
  - destruct (not_branch_shape pc i p n y set_deleted) as (W' & M' & Hlp' & HP & Hi' & Hskip1); auto.
    apply andb_true_iff in Hdead as [Hn Hj]. apply scan_skip in Hn. unfold peep_next_live in Hn.
    rewrite skip_idem, Hskip1 in Hn.
    destruct (jump_target y) as [t|] eqn:Ht; [|done]. apply scan_skip in Hj. rewrite Hskip1 in Hj.
    destruct (local_rewrite _ _ _ _ HP) as [HR HC']; [|done|by split; [split|]].
    eapply (not_dead_head_ok pc pc1); eauto.
    + by exists (set_deleted n).
    + intros k x Hne Hk. by apply live_upd_ne; auto.
    + intros t' E. rewrite Ht in E. by simplify_eq.
  - destruct (not_branch_shape pc i p n y (set_op OP_MV_RESET)) as (W' & M' & Hlp' & HP & Hi' & Hskip1); auto.
    destruct (local_rewrite _ _ _ _ HP) as [HR HC']; [|done|by split; [split|]].
    by eapply not_reset_head_ok.
Qed.

(** ** The return site *)

(** The landing reloads the slot and returns what it holds. *)
Lemma landing_runs pc t slot reset (g : frame) v :
  well_formed pc -> reloads_and_returns pc (skip_deleted pc t) slot = Some reset ->
  locals g !! Z.to_nat slot = Some v ->
  exists n, run n pc (t, g) = Final (vm_return v (if reset then 1%Z else mv_count g) (rest g)).
Proof.
  intros W H Hv. unfold reloads_and_returns, peep_next_live in H.
  apply bind_Some in H as (l & Hl & H). apply require_Some in H as [Hol%opcode_eqb_eq H].
  apply require_Some in H as [Hslot%Z.eqb_eq H]. apply bind_Some in H as (r & Hr & H).
  pose proof (skip_live _ _ _ Hl) as Hll. pose proof (skip_live _ _ _ Hr) as Hlr.
  pose proof (body_slot pc _ l 0 W Hll) as Bl. rewrite Hol in Bl. specialize (Bl eq_refl).
  pose proof (step_live pc t _ l g W Hll eq_refl) as E1. rewrite Hol in E1. cbn in E1.
  unfold op_load, load in E1. rewrite Bl, Hslot, Hv in E1. cbn in E1.
  pose proof (fun h => step_live pc _ _ r h W Hlr eq_refl) as E2.
  destruct (opcode_eqb (op r) OP_MV_RESET) eqn:Ho.
  - apply opcode_eqb_eq in Ho. apply bind_Some in H as (r' & Hr' & H).
    apply require_Some in H as [Hor%opcode_eqb_eq H]. injection H as <-.
    pose proof (skip_live _ _ _ Hr') as Hlr'. exists 3. cbn [run]. rewrite E1, E2, Ho. cbn.
    by rewrite (step_live pc _ _ r' _ W Hlr' eq_refl), Hor.
  - apply require_Some in H as [Hor%opcode_eqb_eq H]. injection H as <-.
    exists 2. cbn [run]. by rewrite E1, E2, Hor.
Qed.

Definition site_members (po : option nat) (ji k : nat) : Prop := k = ji \/ po = Some k.

Lemma skip_pop_spec pc i s po ji j :
  marks_ok pc -> live_at pc i s -> skip_pop pc i = Some (po, (ji, j)) ->
  live_at pc ji j /\ i < ji /\ ~ targeted pc ji /\ isolated pc i (site_members po ji) /\
  match po with
  | None => skip_deleted pc (S i) = ji
  | Some p => exists y, live_at pc p y /\ op y = OP_POP /\ i < p < ji /\
                        skip_deleted pc (S i) = p /\ skip_deleted pc (S p) = ji
  end.
Proof.
  intros M Hs H. unfold skip_pop in H. apply bind_Some in H as ([p y] & Hp & H). cbn in H.
  destruct (next_unjoined_spec _ _ _ _ Hp) as (Hlp & Hip & Hsp & Hno).
  destruct (opcode_eqb (op y) OP_POP) eqn:Ho; [apply opcode_eqb_eq in Ho|].
  - apply bind_Some in H as ([q z] & Hq & [= <- <- <-]).
    destruct (next_unjoined_spec _ _ _ _ Hq) as (Hlq & Hpq & Hsq & Hno'). cbn in *.
    split_and!; [done|lia|apply Hno'; lia| |exists y; split_and!; done || lia].
    eapply isolated_ext; [|by eapply isolated_two]. unfold site_members. intros k. split; [intros [?|?]|intros [?|?]]; subst; auto; by simplify_eq; auto.
  - injection H as <- <- <-. split_and!; [done|lia|apply Hno; lia| |done].
    eapply isolated_ext; [|by eapply isolated_one]. unfold site_members. intros k. split; [intros ?|intros [?|?]]; subst; auto; done.
Qed.

(** The list return_site_at makes. *)
Definition site_rewrite (reset : bool) (po : option nat) (i ji : nat) (pc : PeepCode) : PeepCode :=
  let pc := upd i (if reset then set_bare OP_MV_RESET else set_deleted) pc in
  let pc := match po with Some pi => upd pi set_deleted pc | None => pc end in
  upd ji become_ret pc.

Lemma edit_bare pc x o :
  insn_ok pc x -> deleted x = false -> pinned x = false -> jump_target x = None ->
  opcode_operands o = CL_OPND_NONE -> o <> OP_HANDLER_CASE_PUSH -> edit_ok pc x (set_bare o x).
Proof.
  intros [? ? ? ? ?] Hd Hp Hj Ho Hh. split; cbn; auto; try congruence.
  intros _. split; cbn; rewrite ?Ho, ?Hj; cbn; auto; try lia; try done.
  all: split; [done|by intros []].
Qed.

(** It is sound, differs from the old list in the members only, and leaves
    the RET where the JMP was. *)
Lemma site_shape reset pc i s po ji j :
  well_formed pc -> marks_ok pc -> live_at pc i s -> op s = OP_STORE -> op j = OP_JMP ->
  skip_pop pc i = Some (po, (ji, j)) ->
  let pc' := site_rewrite reset po i ji pc in
  well_formed pc' /\ marks_ok pc' /\ live_at pc' ji (become_ret j) /\
  insns pc' !! i = Some ((if reset then set_bare OP_MV_RESET else set_deleted) s) /\
  (forall p, po = Some p -> deleted_at pc' p) /\
  (forall k, deleted_at pc k -> deleted_at pc' k) /\
  (forall k, k <> i -> ~ site_members po ji k -> insns pc' !! k = insns pc !! k).
Proof.
  intros W M Hs Hos Hoj Hp pc'. destruct (skip_pop_spec _ _ _ _ _ _ M Hs Hp) as (Hlj & Hij & Hno & _ & Hpo).
  set (fs := if reset then set_bare OP_MV_RESET else set_deleted) in *.
  assert (Hps : pinned s = false) by (eapply not_jmp_unpinned; [done..|congruence]).
  assert (Hpj : pinned j = false).
  { destruct (pinned j) eqn:E; [|done]. destruct Hno. apply M. right. exists j. split; [apply Hlj|done]. }
  assert (Hjs : jump_target s = None).
  { destruct (jump_target s) eqn:E; [|done]. pose proof (wf_live _ W _ _ Hs) as O.
    destruct (proj2 (ok_jump _ _ O)); [by rewrite E|by rewrite Hos]. }
  destruct (edit_keeps pc i s fs W M Hs) as [W1 M1]; [| |unfold fs; destruct reset; auto|].
  { unfold fs. destruct reset; [|by apply edit_delete].
    apply edit_bare; try done; [by apply (wf_live _ W i)|apply Hs]. }
  { unfold fs. by destruct reset. }
  set (pc1 := upd i fs pc) in *.
  assert (Hmid : exists pc2, pc2 = (match po with Some pi => upd pi set_deleted pc1 | None => pc1 end) /\
            well_formed pc2 /\ marks_ok pc2 /\ (forall k, po <> Some k -> insns pc2 !! k = insns pc1 !! k) /\
            (forall p, po = Some p -> deleted_at pc2 p) /\ (forall k, deleted_at pc1 k -> deleted_at pc2 k)).
  { destruct po as [p|]; [|by exists pc1]. destruct Hpo as (y & Hly & Hoy & Hlt & _ & _).
    assert (Hly1 : live_at pc1 p y) by (apply live_upd_ne; [lia|done]).
    eexists. split; [done|]. destruct (delete_keeps pc1 p y W1 M1 Hly1) as [W2 M2]; [congruence|].
    split_and!; [done..| | |].
    - intros k Hne. apply lookup_upd_ne. congruence.
    - intros q [= <-]. eapply deleted_upd; [apply Hly1|done].
    - intros k Hk. by apply upd_deleted. }
  destruct Hmid as (pc2 & Epc2 & W2 & M2 & Hk2 & Hd2 & Hm2).
  assert (Hpne : po <> Some i /\ po <> Some ji) by (destruct po; [destruct Hpo as (? & ? & ? & ? & _)|]; split; intros [= E]; lia).
  assert (Hlj2 : live_at pc2 ji j).
  { destruct Hlj as [Hj Hdj]. split; [|done]. rewrite Hk2 by tauto. unfold pc1. by rewrite lookup_upd_ne by lia. }
  assert (Epc' : pc' = upd ji become_ret pc2) by (unfold pc', site_rewrite; by rewrite Epc2).
  rewrite Epc'. destruct (edit_keeps pc2 ji j become_ret W2 M2 Hlj2) as [W3 M3]; [by eapply edit_ret|done|auto|].
  split; [done|]. split; [done|]. split.
  { split; [by apply lookup_upd_eq, Hlj2|apply Hlj2]. }
  split_and!.
  - rewrite lookup_upd_ne by lia. rewrite Hk2 by tauto. by apply lookup_upd_eq, Hs.
  - intros p E. apply upd_deleted; auto.
  - intros k Hk. apply upd_deleted; [done|]. apply Hm2, upd_deleted; [by unfold fs; destruct reset|done].
  - intros k Hne Hk. assert (ji <> k /\ po <> Some k) as [? ?]
      by (split; intros E; apply Hk; [by left|by right]).
    rewrite lookup_upd_ne, Hk2 by done. apply lookup_upd_ne; auto.
Qed.

(** The old code returns the stored value; so does the RET in the JMP's place. *)
Lemma site_runs pc i s po ji j t reset (f : frame) :
  well_formed pc -> marks_ok pc -> live_at pc i s -> op s = OP_STORE -> op j = OP_JMP ->
  skip_pop pc i = Some (po, (ji, j)) -> jump_target j = Some t ->
  reloads_and_returns pc (skip_deleted pc t) (byte_at (raw s) 1) = Some reset ->
  run 1 pc (i, f) = Wrong \/
  exists n r, run n pc (i, f) = Final r /\ op_ret (if reset then set_mv 1 f else f) = Done r.
Proof.
  intros W M Hs Hos Hoj Hp Ht Hland.
  destruct (skip_pop_spec _ _ _ _ _ _ M Hs Hp) as (Hlj & _ & _ & _ & Hpo).
  pose proof (step_live pc i i s f W Hs (skip_stop _ _ _ Hs)) as E1.
  pose proof (body_slot pc i s 0 W Hs) as Bs. rewrite Hos in *. specialize (Bs eq_refl).
  cbn in E1. unfold op_store, peek, store in E1.
  destruct (stack f) as [|v st] eqn:Est; [left; cbn; by rewrite E1|].
  destruct (_ <? _) eqn:Hlt in E1; [|left; cbn; by rewrite E1]. apply Nat.ltb_lt in Hlt.
  right. cbn in E1. set (g := set_locals _ f) in *.
  assert (Hjmp : exists n h, run n pc (S i, g) = Running (t, h) /\ locals h = locals g /\
                   mv_count h = mv_count g /\ rest h = rest g).
  { destruct po as [p|].
    - destruct Hpo as (y & Hly & Hoy & _ & Hsp & Hsj). exists 2, (set_stack st g). cbn [run].
      rewrite (step_live pc (S i) p y g W Hly Hsp), Hoy. cbn. unfold op_pop, pop. cbn. rewrite Est. cbn.
      rewrite (step_live pc (S p) ji j _ W Hlj Hsj), Hoj. cbn. by rewrite Ht.
    - exists 1, g. cbn [run]. rewrite (step_live pc (S i) ji j _ W Hlj Hpo), Hoj. cbn. by rewrite Ht. }
  destruct Hjmp as (n & h & En & Hlo & Hmv & Hre).
  destruct (landing_runs pc t (byte_at (raw s) 1) reset h v W Hland) as [m Em].
  { rewrite Hlo, <- Bs. unfold g. cbn. by apply list_lookup_insert_eq. }
  exists (1 + (n + m)). eexists. split.
  - rewrite run_add. cbn [run]. rewrite E1, run_add, En, Em. reflexivity.
  - rewrite Hmv, Hre. unfold op_ret, g. destruct reset; cbn; by rewrite Est.
Qed.

(** A dead count at the site is dead at the return, so the RET there is one
    that does not look at it. *)
Lemma site_dead pc D i s po ji j t reset :
  well_formed pc -> marks_ok pc -> mv_dead_set (pool:=pool) (val:=val) (world:=world) pc D ->
  live_at pc i s -> op s = OP_STORE -> op j = OP_JMP ->
  skip_pop pc i = Some (po, (ji, j)) -> jump_target j = Some t ->
  reloads_and_returns pc (skip_deleted pc t) (byte_at (raw s) 1) = Some reset -> D i ->
  reset = true \/ exists k r, D k /\ live_at pc k r /\ op r = OP_RET.
Proof.
  intros W M HD Hs Hos Hoj Hp Ht H HDi.
  destruct (skip_pop_spec _ _ _ _ _ _ M Hs Hp) as (Hlj & _ & _ & _ & Hpo).
  assert (HDs : D (skip_deleted pc (S i))) by (by apply (dead_next pc D HD i s); rewrite ?Hos).
  assert (HDj : D ji).
  { destruct po as [p|]; [|by rewrite <- Hpo]. destruct Hpo as (y & Hly & Hoy & _ & Hsp & <-).
    rewrite Hsp in HDs. by apply (dead_next pc D HD p y); rewrite ?Hoy. }
  assert (HDl : D (skip_deleted pc t)) by (by apply (dead_jump pc D HD ji j); rewrite ?Hoj).
  unfold reloads_and_returns, peep_next_live in H.
  apply bind_Some in H as (l & Hl & H). apply require_Some in H as [Hol%opcode_eqb_eq H].
  apply require_Some in H as [_ H]. apply bind_Some in H as (r & Hr & H).
  destruct (opcode_eqb (op r) OP_MV_RESET).
  - left. apply bind_Some in H as (r' & _ & H). by apply require_Some in H as [_ [= ->]].
  - right. apply require_Some in H as [Hor%opcode_eqb_eq _]. do 2 eexists.
    split_and!; [|by apply skip_live|done].
    by apply (dead_next pc D HD _ l); rewrite ?Hol; [|apply skip_live|..].
Qed.

Theorem return_site_correct : correct_at marked return_site_at.
Proof.
  intros pc i pc' [[W Hpool HC] M] H. unfold return_site_at in H.
  apply bind_Some in H as (s & Hx & H). apply require_Some in H as [Hd%negb_true_iff H].
  apply require_Some in H as [Hos%opcode_eqb_eq H]. apply bind_Some in H as ([po [ji j]] & Hp & H).
  apply require_Some in H as [Hoj%opcode_eqb_eq H]. apply bind_Some in H as (t & Ht & H).
  apply bind_Some in H as (reset & Hland & H).
  assert (E : pc' = site_rewrite reset po i ji pc) by (unfold site_rewrite; congruence). clear H.
  pose proof (conj Hx Hd : live_at pc i s) as Hs.
  destruct (site_shape reset pc i s po ji j) as (W' & M' & Hlj' & Hi' & Hdp' & Hmore & Hkeep); try done.
  rewrite <- E in *.
  destruct (skip_pop_spec _ _ _ _ _ _ M Hs Hp) as (Hlj & Hij & _ & I & Hpo).
  assert (HP : pattern_ok (pool:=pool) pc pc' (site_members po ji) (fun k => k =? i)).
  { rewrite <- Hpool. eapply pattern_intro; try done. intros k y [Hy Hdy] [->|[->|Hk]].
    - rewrite Hi' in Hy. by destruct reset; simplify_eq.
    - by rewrite (live_fun _ _ _ _ (conj Hy Hdy) Hlj').
    - destruct (Hdp' k Hk) as (? & ? & ?). congruence. }
  assert (Hto : skip_deleted pc' (S i) = ji).
  { destruct po as [p|].
    - destruct Hpo as (y & _ & _ & _ & Hsp & Hsj). rewrite (skip_members pc pc' (S i) p) by auto.
      rewrite <- Hsj. eapply skip_kept; [done|]. by rewrite Hsj.
    - rewrite <- Hpo. eapply skip_kept; [done|]. by rewrite Hpo. }
  assert (Hpc : constants pc' = pool) by (by rewrite E; destruct po).
  destruct (local_rewrite _ _ _ _ HP) as [HR HC']; [|done|by split; [split|]].
  intros D HD HC0. exists (fun k => D i /\ k = if reset : bool then i else ji). split_and!.
  - intros k [HDi ->]. destruct (site_dead pc D i s po ji j t reset) as [->|(q & r & HDq & Hq & Hor)]; try done.
    { by eapply (quiet_other pc' _ i (set_bare OP_MV_RESET s)). }
    destruct reset; [by eapply (quiet_other pc' _ i (set_bare OP_MV_RESET s))|].
    destruct (HD q HDq) as (z & Hz & Hb & _). rewrite (live_fun _ _ _ _ Hz Hq) in Hb.
    exists (become_ret j). unfold runs, lands_of in *. rewrite Hor in Hb.
    by split_and!; [..|right].
  - intros k HDk _ ->%head_eq. right. split; [done|]. destruct reset.
    + by eapply skip_stop.
    + rewrite skip_step; [done|]. by exists (set_deleted s).
  - intros k z f Hlz _ ->%head_eq Hr. pose proof (live_fun _ _ _ _ Hlz Hs) as ->.
    destruct (site_runs pc i s po ji j t reset f) as [Er|(n & r & Er & Eo)]; try done; [by left; exists 1|].
    right; left. destruct reset.
    + exists n, 2, r. split; [done|]. cbn [run].
      rewrite (step_live pc' i i (set_bare OP_MV_RESET s) f W' (conj Hi' Hd)) by (by eapply skip_stop).
      cbn [op set_bare exec after]. rewrite (step_live pc' (S i) ji _ _ W' Hlj' Hto).
      cbn [op become_ret set_jump set_bare exec after]. by rewrite Eo.
    + exists n, 1, r. split; [done|]. cbn [run].
      rewrite (step_live pc' i ji _ _ W' Hlj')
        by (rewrite skip_step; [done|by exists (set_deleted s)]).
      cbn [op become_ret set_jump set_bare exec after]. by rewrite Eo.
Qed.

(** ** Dead code *)

(** The [reachable] flag of the loop when it looks at index [j]. *)
Fixpoint reach_at (r : bool) (l : list PeepInsn) (j : nat) : bool :=
  match l with
  | [] => r
  | x :: l' =>
      let r' := target x || r in
      match j with
      | O => r'
      | S j => reach_at (if deleted x then r' else r' && negb (has_flag (op x) CL_OPF_UNCOND)) l' j
      end
  end.

Lemma dead_code_lookup r l j :
  (dead_code_loop r l).1 !! j =
  (fun x => if deleted x then x else if reach_at r l j then x else delete_insn x) <$> l !! j.
Proof.
  revert r j. induction l as [|x l IH]; intros r j; [done|]. cbn [dead_code_loop].
  destruct (deleted x) eqn:Hd; [|destruct (target x || r) eqn:Hr]; cbn [negb];
    match goal with |- context [dead_code_loop ?b l] => destruct (dead_code_loop b l) as [q n] eqn:E end;
    pose proof (f_equal fst E) as Eq; cbn in Eq; subst q;
    (destruct j as [|j]; cbn; [by rewrite ?Hd, ?Hr|]); rewrite IH; by rewrite ?Hd, ?Hr.
Qed.

Lemma reach_target r l j x : l !! j = Some x -> target x = true -> reach_at r l j = true.
Proof.
  revert r j. induction l as [|y l IH]; intros r [|j] H Ht; cbn in *; try done; [|eauto].
  injection H as ->. by rewrite Ht.
Qed.

Lemma reach_next r l j x :
  l !! j = Some x -> reach_at r l j = true ->
  deleted x = true \/ has_flag (op x) CL_OPF_UNCOND = false -> reach_at r l (S j) = true.
Proof.
  revert r j. induction l as [|y l IH]; intros r [|j] H Hr Hx; cbn in H; try done.
  - injection H as ->. cbn in *. rewrite Hr. cbn.
    assert (E : (if deleted x then true else negb (has_flag (op x) CL_OPF_UNCOND)) = true).
    { destruct (deleted x); [done|]. destruct Hx as [?| ->]; done. }
    rewrite E. destruct l; [done|]. cbn. apply orb_true_r.
  - cbn in Hr. by apply (IH _ j).
Qed.

Lemma reach_skip pc t :
  reach_at true (insns pc) t = true -> reach_at true (insns pc) (skip_deleted pc t) = true.
Proof.
  remember (skip_deleted pc t - t) as n eqn:En. revert t En. induction n as [|n IH]; intros t En Hr.
  - pose proof (skip_ge pc t). by replace (skip_deleted pc t) with t by lia.
  - destruct (skip_between pc t t) as (x & Hx & Hd); [lia|].
    assert (E : skip_deleted pc t = skip_deleted pc (S t)) by (apply skip_step; by exists x).
    rewrite E in *. apply IH; [lia|]. eapply reach_next; eauto.
Qed.

Definition unreached (pc : PeepCode) (j : nat) : Prop := reach_at true (insns pc) j = false.

Section Dead_code.
Context (pc pc' : PeepCode).
Hypothesis W : well_formed pc.
Hypothesis M : marks_ok pc.
Hypothesis Hpc' : pc' = (peep_dead_code pc).1.

Lemma dead_code_insns j : insns pc' !! j =
  (fun x => if deleted x then x else if reach_at true (insns pc) j then x else delete_insn x) <$> insns pc !! j.
Proof.
  rewrite Hpc'. unfold peep_dead_code. rewrite <- dead_code_lookup. by destruct (dead_code_loop _ _).
Qed.

Lemma dead_code_constants : constants pc' = constants pc /\ count pc' = count pc.
Proof.
  assert (E : constants pc' = constants pc).
  { rewrite Hpc'. unfold peep_dead_code. by destruct (dead_code_loop _ _). }
  split; [done|]. unfold count. apply Nat.le_antisymm; apply Nat.nlt_ge; intros Hlt.
  - destruct (lookup_lt_is_Some_2 (insns pc') (length (insns pc)) Hlt) as [x Hx].
    by rewrite dead_code_insns, lookup_ge_None_2 in Hx by done.
  - destruct (lookup_lt_is_Some_2 (insns pc) (length (insns pc')) Hlt) as [x Hx].
    pose proof (dead_code_insns (length (insns pc'))) as E'. by rewrite Hx, lookup_ge_None_2 in E' by done.
Qed.

Lemma dead_code_live j x : live_at pc' j x <-> live_at pc j x /\ ~ unreached pc j.
Proof.
  unfold live_at, unreached. rewrite dead_code_insns. destruct (insns pc !! j) as [y|]; cbn.
  - destruct (deleted y) eqn:Hd, (reach_at true (insns pc) j) eqn:Hr; cbn; split.
    all: intros; destruct_and?; simplify_eq; auto; try congruence; cbn in *; congruence || tauto.
  - split; [by intros [? _]|by intros [[? _] _]].
Qed.

Lemma dead_code_entry t : entry pc t -> ~ unreached pc t.
Proof.
  intros He Hu. destruct (M t He) as (x & Hx & Ht). unfold unreached in Hu.
  by rewrite (reach_target _ _ _ _ Hx Ht) in Hu.
Qed.

Lemma dead_code_pinned j x : insns pc' !! j = Some x -> pinned x = true -> insns pc !! j = Some x.
Proof.
  rewrite dead_code_insns. destruct (insns pc !! j) as [y|] eqn:Hy; [|done]. cbn.
  destruct (deleted y); [by intros [= <-]|].
  destruct (reach_at true (insns pc) j) eqn:Hr; [by intros [= <-]|]. intros [= <-] Hp.
  destruct (dead_code_entry j); [|done]. right. by exists y.
Qed.

Lemma dead_code_wf : well_formed pc' /\ marks_ok pc'.
Proof.
  destruct dead_code_constants as [Ec En].
  assert (Hpin : forall j x, insns pc !! j = Some x -> pinned x = true -> insns pc' !! j = Some x).
  { intros j x Hx Hp. rewrite dead_code_insns, Hx. cbn. destruct (deleted x); [done|].
    destruct (reach_at true (insns pc) j) eqn:Hr; [done|].
    destruct (dead_code_entry j); [right; by exists x|done]. }
  split; [split|].
  - intros j x. rewrite dead_code_insns. destruct (insns pc !! j) as [y|] eqn:Hy; [|done].
    cbn. destruct (wf_plain _ W j y Hy) as [? ?]. repeat case_match; intros [= <-]; by cbn.
  - intros j x [Hl _]%dead_code_live. apply (insn_ok_count pc); [done..|]. by apply (wf_live _ W j).
  - intros j x Hx Hp. apply (wf_pinned _ W j); [|done]. by apply dead_code_pinned.
  - intros j x [Hl _]%dead_code_live. rewrite Ec. by apply (wf_handler _ W j).
  - intros j x t n k [Hl _]%dead_code_live Ho Ht. rewrite Ec. intros Hc Hk.
    destruct (wf_tables _ W j x t n k) as (y & Hy & Hp); [done..|]. exists y. auto.
  - intros t He.
    assert (He' : entry pc t).
    { destruct He as [(j & x & Hl & Ht)|(x & Hx & Hp)].
      - apply dead_code_live in Hl as [Hl _]. left. eauto.
      - right. exists x. split; [by apply dead_code_pinned|done]. }
    destruct (M t He') as (x & Hx & Ht). unfold targeted. rewrite dead_code_insns, Hx. cbn.
    eexists. split; [done|]. by repeat case_match.
Qed.

Lemma dead_code_pattern :
  pattern_ok (pool:=constants pc) pc pc' (unreached pc) (fun _ => false).
Proof.
  destruct dead_code_wf as [W' _]. destruct dead_code_constants as [Ec En].
  assert (Hold : forall e, code_landing (pool:=constants pc) pc' e -> code_landing (pool:=constants pc) pc e).
  { intros e (j & x & Hl' & He). pose proof Hl' as [Hl _]%dead_code_live. exists j, x. split; [done|].
    unfold lands_of in *.
    rewrite (operand_bytes_plain pc') in He by (done || apply Hl').
    by rewrite (operand_bytes_plain pc) by (done || apply Hl). }
  assert (Hin : forall t, ~ unreached pc t -> ~ unreached pc (skip_deleted pc t)).
  { unfold unreached. intros t Ht. rewrite reach_skip; [done|]. by destruct (reach_at _ _ t). }
  split.
  - intros k (x & Hx & Hd). unfold deleted_at. rewrite dead_code_insns, Hx. cbn. rewrite Hd. eauto.
  - intros j x Hl HP _. assert (Hl' : live_at pc' j x) by by apply dead_code_live.
    apply same_insn_plain; [done..|]. destruct Hl, Hl'. congruence.
  - intros j x Hl HP _ Hu. apply Hin. unfold unreached in *.
    rewrite (reach_next _ _ _ x); [done|apply Hl| |by right]. by destruct (reach_at _ _ j).
  - intros j x t Hl HP _ _ Ht. apply Hin, dead_code_entry. left. eauto.
  - intros e k He Hk. apply Hin, dead_code_entry, landing_entry; auto.
  - done.
  - apply Hin. unfold unreached. destruct (insns pc); cbn; [done|]. by rewrite orb_true_r.
Qed.

End Dead_code.

Theorem peep_dead_code_correct pc :
  marked pc -> marked (peep_dead_code pc).1 /\ refines pc (peep_dead_code pc).1.
Proof.
  intros [[W Hpool HC] M]. destruct (dead_code_wf pc _ W M eq_refl) as [W' M'].
  destruct (dead_code_constants pc _ eq_refl) as [Ec _].
  pose proof (dead_code_pattern pc _ W M eq_refl) as HP. rewrite Hpool in HP, Ec.
  destruct (local_rewrite _ _ _ _ HP) as [HR HC']; [|done|by split; [split|]].
  intros D HD HC0. exists (fun _ => False). by split_and!; [|intros j _ _ []|intros j x f _ _ []].
Qed.

End Rules.
