(* ===== verification/PeepRound.v ===== *)
(** * A round of the peephole pass is correct

    peep_mark_targets makes the marks current and changes nothing a run sees;
    with the rewrites of [PeepRules] that gives [peep_round] and
    [peep_rounds], the fixpoint loop of cl_peephole_run. *)

From Stdlib Require Import ZArith Lia ZifyBool.
From stdpp Require Import base option list sets.
From S2P Require Import Prelude Opcodes PeepCode Peephole Machine PeepSim PeepWf PeepRules.

(** ** The marks *)

(** The live instruction [x] jumps to index [j]. *)
Definition leads_to (j : nat) (x : PeepInsn) : bool :=
  negb (deleted x) && bool_decide (jump_target x = Some j).

Lemma mark_lookup l acc j :
  foldl mark_target acc l !! j =
  (fun x => set_target (target x || existsb (leads_to j) l) x) <$> acc !! j.
Proof.
  revert acc. induction l as [|y l IH]; intros acc; cbn.
  { destruct (acc !! j) as [[]|]; cbn; [|done]. by rewrite orb_false_r. }
  rewrite IH. unfold mark_target, leads_to at 2.
  destruct (deleted y); cbn; [done|]. destruct (jump_target y) as [t|]; cbn; [|done].
  rewrite list_lookup_alter. case_decide as E.
  - subst. rewrite bool_decide_true by done. destruct (acc !! j) as [x|]; cbn; [|done].
    by rewrite orb_true_r.
  - by rewrite bool_decide_false by congruence.
Qed.

(** After marking, an index is a target exactly when it is pinned or a live
    instruction leads to it. *)
Lemma mark_targets_lookup pc j :
  insns (peep_mark_targets pc) !! j =
  (fun x => set_target (pinned x || existsb (leads_to j) (insns pc)) x) <$> insns pc !! j.
Proof.
  cbn. rewrite mark_lookup, list_lookup_fmap.
  destruct (insns pc !! j) as [x|]; cbn; [|done]. unfold set_target. cbn. do 3 f_equal.
  induction (insns pc) as [|y l IH]; cbn; [done|]. by rewrite IH.
Qed.

(** Two lists that differ in marks only. *)
Record same_code (pc pc' : PeepCode) : Prop := {
  sc_insns j : insns pc' !! j = (fun x => set_target (match insns pc' !! j with Some y => target y | None => false end) x)
                                <$> insns pc !! j;
  sc_constants : constants pc' = constants pc }.

Lemma mark_targets_same pc : same_code pc (peep_mark_targets pc).
Proof. split; [|done]. intros j. rewrite mark_targets_lookup. by destruct (insns pc !! j). Qed.

Section Same.
Context (pc pc' : PeepCode).
Hypothesis E : same_code pc pc'.

Lemma sc_lookup j x : insns pc !! j = Some x -> exists b, insns pc' !! j = Some (set_target b x).
Proof. intros Hx. rewrite (sc_insns _ _ E), Hx. cbn. eauto. Qed.

Lemma sc_back j x' : insns pc' !! j = Some x' -> exists x b, insns pc !! j = Some x /\ x' = set_target b x.
Proof.
  intros Hx. pose proof (sc_insns _ _ E j) as H. rewrite Hx in H.
  destruct (insns pc !! j) as [x|]; cbn in H; [|done]. injection H as H. eauto.
Qed.

Lemma sc_count : count pc' = count pc.
Proof.
  unfold count. apply Nat.le_antisymm; apply Nat.nlt_ge; intros Hlt.
  - destruct (lookup_lt_is_Some_2 _ _ Hlt) as [x (y & ? & Hy & _)%sc_back].
    apply lookup_lt_Some in Hy. lia.
  - destruct (lookup_lt_is_Some_2 _ _ Hlt) as [x [b Hy]%sc_lookup].
    apply lookup_lt_Some in Hy. lia.
Qed.

Lemma sc_live j x : live_at pc j x -> exists b, live_at pc' j (set_target b x).
Proof. intros [[b Hx]%sc_lookup Hd]. exists b. by split. Qed.

Lemma sc_live_back j x' : live_at pc' j x' -> exists x b, live_at pc j x /\ x' = set_target b x.
Proof.
  intros [(x & b & Hx & Ex)%sc_back Hd]. exists x, b. split; [split; [done|]|done]. by rewrite Ex in Hd.
Qed.

Lemma sc_skip t : skip_deleted pc' t = skip_deleted pc t.
Proof.
  rewrite (skip_more pc pc' t).
  - destruct (skip_cases pc t) as [(x & [b Hl]%sc_live)|Hn]; [by eapply skip_stop|].
    apply skip_end. rewrite sc_count. by apply lookup_ge_None_1.
  - intros k (x & [b Hx]%sc_lookup & Hd). by exists (set_target b x).
Qed.

Lemma sc_well_formed : well_formed pc -> well_formed pc'.
Proof.
  intros W. split.
  - intros j x' (x & b & Hx & ->)%sc_back. apply (wf_plain _ W j x Hx).
  - intros j x' (x & b & Hx & ->)%sc_live_back.
    apply (insn_ok_count pc); [apply E|apply sc_count|]. destruct (wf_live _ W j x Hx). by split.
  - intros j x' (x & b & Hx & ->)%sc_back Hp. apply (wf_pinned _ W j x Hx Hp).
  - intros j x' (x & b & Hx & ->)%sc_live_back Ho. rewrite (sc_constants _ _ E). by apply (wf_handler _ W j x).
  - intros j x' t n k (x & b & Hx & ->)%sc_live_back Ho Ht Hc Hk.
    rewrite (sc_constants _ _ E) in Hc.
    destruct (wf_tables _ W j x t n k) as (y & [c Hy]%sc_lookup & Hp); [done..|]. eauto.
Qed.

Lemma sc_entry t : entry pc' t -> entry pc t.
Proof.
  intros [(j & x' & (x & b & Hx & ->)%sc_live_back & Ht)|(x' & (x & b & Hx & ->)%sc_back & Hp)].
  - left. eauto.
  - right. eauto.
Qed.

Context {val world result : Type} {V : VM val world result}.
Hypothesis W : well_formed pc.

Lemma sc_operands j x b : insns pc !! j = Some x ->
  operand_bytes (insns pc') j (set_target b x) = operand_bytes (insns pc) j x.
Proof.
  intros Hx. destruct (sc_lookup j x Hx) as [c Hc].
  rewrite (operand_bytes_plain pc) by done.
  transitivity (operand_bytes (insns pc') j (set_target c x)); [done|].
  by rewrite (operand_bytes_plain pc') by (done || by apply sc_well_formed).
Qed.

Lemma sc_step s : step (val:=val) (world:=world) pc' s = step pc s.
Proof.
  unfold step. rewrite sc_skip.
  destruct (insns pc !! skip_deleted pc s.1) as [x|] eqn:Hx.
  - destruct (sc_lookup _ _ Hx) as [b Hb]. rewrite Hb, sc_operands by done. done.
  - destruct (insns pc' !! skip_deleted pc s.1) as [x|] eqn:Hx'; [|done].
    apply sc_back in Hx' as (y & ? & ? & _). congruence.
Qed.

Lemma sc_refines : refines (val:=val) (world:=world) pc pc'.
Proof.
  assert (Hr : forall n s, run (val:=val) (world:=world) n pc' s = run n pc s).
  { induction n as [|n IH]; intros s; cbn; [done|]. rewrite sc_step. by destruct (step pc s). }
  intros f _ Hs. split; [intros n; rewrite Hr; apply Hs|].
  intros r. unfold ends. by setoid_rewrite Hr.
Qed.

Lemma sc_dead pool : cleanups_mv_dead (pool:=pool) (val:=val) (world:=world) pc -> cleanups_mv_dead (pool:=pool) (val:=val) (world:=world) pc'.
Proof.
  intros (D & HD & HC). exists D.
  assert (Hops : forall j x' x, live_at pc j x -> (exists b, x' = set_target b x) ->
            operand_bytes (insns pc') j x' = operand_bytes (insns pc) j x).
  { intros j x' x [Hx _] [b ->]. by apply sc_operands. }
  split.
  - intros j Hj. destruct (HD j Hj) as (x & Hx & Hq). destruct (sc_live j x Hx) as [b Hb].
    exists (set_target b x). split; [done|]. unfold runs, lands_of in *. cbn [op set_target jump_target].
    rewrite (Hops j (set_target b x) x) by eauto. setoid_rewrite sc_skip. done.
  - intros e (j & x' & Hx' & He) Hc. rewrite sc_skip. apply HC; [|done].
    destruct (sc_live_back j x' Hx') as (x & b & Hx & Ex). exists j, x. split; [done|].
    unfold lands_of in *. rewrite (Hops j x' x) in He by eauto. by rewrite Ex in He.
Qed.

End Same.

Lemma mark_targets_marks pc : well_formed pc -> marks_ok (peep_mark_targets pc).
Proof.
  intros W t He. apply (sc_entry pc) in He; [|apply mark_targets_same].
  unfold targeted. rewrite mark_targets_lookup.
  destruct He as [(j & x & [Hx Hd] & Ht)|(x & Hx & Hp)].
  - destruct (wf_live _ W j x (conj Hx Hd)) as [_ _ _ _ Hin].
    destruct (lookup_lt_is_Some_2 (insns pc) t (Hin t Ht)) as [y Hy]. rewrite Hy. cbn.
    eexists; split; [done|]. cbn. apply orb_true_iff. right. apply existsb_exists. exists x. split.
    + apply list_elem_of_In. by eapply list_elem_of_lookup_2.
    + unfold leads_to. rewrite Hd, bool_decide_true by done. done.
  - rewrite Hx. cbn. eexists; split; [done|]. cbn. by rewrite Hp.
Qed.

(** ** The rounds *)

Section Rounds.
Context {val world result : Type} {pool : option (list pool_entry)} {V : VM val world result}
  {L : VMLaws pool V}.

Context {good : Prop}.
Abbreviation refines := (gives (val:=val) (world:=world) (good:=good)).
Abbreviation sound := (sound (pool:=pool) (val:=val) (world:=world) (good:=good)).
Abbreviation marked := (marked (pool:=pool) (val:=val) (world:=world) (good:=good)).

Lemma mark_targets_correct pc :
  sound pc -> marked (peep_mark_targets pc) /\ refines pc (peep_mark_targets pc).
Proof.
  intros [W Hp HC]. pose proof (mark_targets_same pc) as E. split.
  - split; [split|].
    + by eapply sc_well_formed.
    + by rewrite (sc_constants _ _ E).
    + intros g. eapply sc_dead; [done|done|by apply HC].
    + by apply mark_targets_marks.
  - intros g. by eapply sc_refines.
Qed.

(** The dead store keeps the marks as well. *)
Lemma dead_store_ret_marked : correct_at (good:=good) marked dead_store_ret_at.
Proof.
  intros pc i pc' [S M] H. destruct (dead_store_ret_correct pc i pc' S H) as [S' HR].
  split; [|done]. split; [done|]. destruct S as [W _ _].
  unfold dead_store_ret_at in H.
  apply bind_Some in H as (x & Hx & H). apply require_Some in H as [Hd%negb_true_iff H].
  apply require_Some in H as [Ho%opcode_eqb_eq H]. apply bind_Some in H as (n & Hn & H).
  apply bind_Some in H as (r & Hr & H). apply require_Some in H as [_ H]. injection H as <-.
  apply (delete_keeps pc i x); [done..|by split|congruence].
Qed.

(** A pass that keeps [Inv] and refines, run on what came before. *)
Lemma then_run_correct (Inv Inv' : PeepCode -> Prop) f pc acc :
  (forall q, Inv q -> Inv' (f q).1 /\ refines q (f q).1) ->
  Inv acc.1 /\ refines pc acc.1 -> Inv' (then_run f acc).1 /\ refines pc (then_run f acc).1.
Proof.
  intros Hf [HI HR]. destruct (Hf _ HI) as [HI' HR']. unfold then_run.
  destruct (f acc.1) as [q n]. cbn in *. split; [done|by etrans].
Qed.

Lemma peep_round_correct pc : sound pc -> sound (peep_round pc).1 /\ refines pc (peep_round pc).1.
Proof.
  intros S. unfold peep_round.
  set (acc := then_run peep_jump_to_next _).
  assert (Hacc : sound acc.1 /\ refines pc acc.1).
  { apply (then_run_correct sound); [intros q; apply each_index_correct, jump_to_next_correct|].
    apply (then_run_correct sound); [apply peep_thread_jumps_correct|]. cbn.
    destruct (mark_targets_correct pc S) as [[? _] ?]. done. }
  clearbody acc. destruct Hacc as [Sa Ra]. destruct (mark_targets_correct _ Sa) as [Ma Rm].
  assert (Hm : marked (peep_mark_targets acc.1, acc.2).1 /\ refines pc (peep_mark_targets acc.1, acc.2).1).
  { split; [done|]. by etrans. }
  revert Hm. generalize (peep_mark_targets acc.1, acc.2). intros a Hm.
  enough (H : forall r : PeepCode * nat, marked r.1 /\ refines pc r.1 -> sound r.1 /\ refines pc r.1).
  { apply H. repeat apply (then_run_correct marked); [..|exact Hm];
      try (intros q; apply each_index_correct).
    - apply not_branch_correct.
    - apply pure_pop_correct.
    - apply dead_store_ret_marked.
    - apply store_reload_correct.
    - apply peep_dead_code_correct.
    - apply return_site_correct. }
  intros r [[? _] ?]. done.
Qed.

(** However many rounds the fixpoint loop is given, it refines. *)
Theorem peep_rounds_correct rounds pc total :
  sound pc -> sound (peep_rounds rounds pc total).1 /\ refines pc (peep_rounds rounds pc total).1.
Proof.
  revert pc total. induction rounds as [|n IH]; intros pc total S; cbn; [done|].
  destruct (peep_round_correct pc S) as [S' R']. destruct (peep_round pc) as [q c]. cbn in *.
  destruct (c =? 0); [done|]. destruct (IH q (total + c) S') as [S2 R2]. split; [done|by etrans].
Qed.

End Rounds.
