(* ===== verification/PeepDecode.v ===== *)
(** * What the decoder produces

    Every list [peep_decode] accepts is [well_formed]: operands of the length
    the opcode table gives, targets inside the list, landing tables pinned.
    The bytes of the list are the code ([decode_bytes]), so an instruction is
    where its [old_pos] says. *)

From Stdlib Require Import ZArith Lia ZifyBool.
From stdpp Require Import base option list sets.
From S2P Require Import Prelude Opcodes PeepCode Peephole Machine PeepSim PeepWf PeepRules.

(** ** The first loop *)

(** The instruction decoded at [old_pos x]. *)
Record fresh (pool : option (list pool_entry)) (code : list Z) (x : PeepInsn) : Prop := {
  fr_info : cl_opcode_info (byte_at code (old_pos x)) = Some (op x);
  fr_operands : operand_length pool code (old_pos x) (op x) = Some (own_len x);
  fr_fits : old_pos x + 1 + own_len x <= length code;
  fr_raw : raw x = take (1 + own_len x) (drop (old_pos x) code);
  fr_len : raw_len x = 1 + own_len x;
  fr_plain : fused_with x = None /\ synth x = None /\ deleted x = false /\ pinned x = false /\ target x = false /\
             fused x = false /\ jump_target x = None }.

(** The instructions lie one after the other from [ip] to the end of the code. *)
Inductive laid_out (pool : option (list pool_entry)) (code : list Z) : nat -> list PeepInsn -> Prop :=
| laid_nil ip : length code <= ip -> laid_out pool code ip []
| laid_cons x l : fresh pool code x -> laid_out pool code (old_pos x + 1 + own_len x) l ->
    laid_out pool code (old_pos x) (x :: l).

Lemma decode_insns_laid fuel pool code ip l :
  decode_insns fuel pool code ip = Some l -> laid_out pool code ip l.
Proof.
  revert ip l. induction fuel as [|fuel IH]; intros ip l; cbn [decode_insns]; [done|].
  destruct (ip <? length code) eqn:Hlt; [|intros [= <-]; constructor; lia].
  intros (o & Ho & H)%bind_Some. apply bind_Some in H as (n & Hn & H).
  destruct (length code <? ip + 1 + n) eqn:Hle; [done|].
  apply bind_Some in H as (rest & Hr & [= <-]).
  apply (laid_cons pool code (decoded_insn code ip n o)); [|by apply IH].
  split; cbn; try done. lia.
Qed.

(** Fuel for every byte of the code is enough: the loop ends by reaching the
    end or by a bail-out. *)
Lemma decode_insns_fuel fuel fuel' pool code ip :
  length code - ip < fuel -> length code - ip < fuel' ->
  decode_insns fuel pool code ip = decode_insns fuel' pool code ip.
Proof.
  revert fuel' ip. induction fuel as [|fuel IH]; intros [|fuel'] ip H H'; try lia. cbn [decode_insns].
  destruct (ip <? length code) eqn:Hlt; [|done].
  destruct (cl_opcode_info _) as [o|]; [|done]. cbn [mbind option_bind]. destruct (operand_length _ _ _ _) as [n|]; [|done]. cbn [mbind option_bind].
  destruct (length code <? ip + 1 + n); [done|]. rewrite (IH fuel'); [done|lia..].
Qed.

Lemma laid_fresh pool code ip l j x : laid_out pool code ip l -> l !! j = Some x -> fresh pool code x.
Proof.
  intros Hl. revert j. induction Hl as [|y l Hf Hl IH]; intros [|j] Hj; cbn in Hj; simplify_eq; eauto.
Qed.

Lemma laid_from pool code ip l x : laid_out pool code ip l -> x ∈ l -> ip <= old_pos x.
Proof.
  intros Hl. induction Hl as [|y l Hf Hl IH]; [by intros ?%elem_of_nil|].
  intros [->|Hx]%elem_of_cons; [lia|]. apply IH in Hx. lia.
Qed.

(** Positions grow with the index. *)
Lemma laid_sorted pool code ip l i j x y :
  laid_out pool code ip l -> l !! i = Some x -> l !! j = Some y -> i < j ->
  old_pos x + 1 + own_len x <= old_pos y.
Proof.
  intros Hl. revert i j. induction Hl as [|z l Hf Hl IH]; intros i j Hi Hj Hij; [done|].
  destruct j as [|j]; [lia|]. cbn in Hj. destruct i as [|i]; cbn in Hi.
  - simplify_eq. eapply laid_from; [done|]. by eapply list_elem_of_lookup_2.
  - eapply IH; [done..|lia].
Qed.

(** The bytes of the instructions are the code. *)
Lemma decode_bytes pool code ip l :
  laid_out pool code ip l -> concat (raw <$> l) = drop ip code.
Proof.
  intros Hl. induction Hl as [ip Hip|x l Hf Hl IH]; cbn.
  - by rewrite drop_ge.
  - rewrite IH, (fr_raw _ _ _ Hf). rewrite <- (take_drop (1 + own_len x) (drop (old_pos x) code)) at 2.
    f_equal. rewrite drop_drop. f_equal. lia.
Qed.

(** ** Operand lengths *)

Lemma take_nth (l : list Z) n i : i < n -> byte_at (take n l) i = byte_at l i.
Proof.
  intros Hi. unfold byte_at. revert l n Hi. induction i as [|i IH]; intros [|y l] [|n] Hi; try lia; cbn; try done.
  apply IH. lia.
Qed.

Lemma drop_nth (l : list Z) n i : byte_at (drop n l) i = byte_at l (n + i).
Proof.
  unfold byte_at. revert l. induction n as [|n IH]; intros [|y l]; cbn; try done; first [apply IH | by destruct i].
Qed.

Lemma read_u16_ext l l' : (forall i, i < 2 -> byte_at l i = byte_at l' i) -> peep_read_u16 l = peep_read_u16 l'.
Proof. intros H. unfold peep_read_u16. by rewrite !H by lia. Qed.

(** The operand bytes of a decoded instruction are those of the code. *)
Lemma fresh_body pool code x i :
  fresh pool code x -> i < own_len x -> byte_at (body x) i = byte_at code (old_pos x + 1 + i).
Proof.
  intros F Hi. unfold body. rewrite take_nth by done.
  rewrite (fr_raw _ _ _ F), drop_nth, take_nth by lia. rewrite drop_nth. f_equal. lia.
Qed.

Lemma fresh_shape pool code x :
  fresh pool code x ->
  match cl_opnd_len (opcode_operands (op x)) with
  | Some n => own_len x = n
  | None => exists n, pool_constant pool (peep_read_u16 (body x)) = Some (Template n) /\ own_len x = 2 + 2 * n
  end.
Proof.
  intros F. pose proof (fr_operands _ _ _ F) as H. unfold operand_length in H.
  destruct (opcode_operands (op x)) eqn:Ho; cbn [cl_opnd_len] in *; try congruence.
  destruct (length code <? old_pos x + 3); [done|].
  destruct (pool_constant _ _) as [[n| |]|] eqn:Hp; try done. exists n. split; [|congruence].
  rewrite <- Hp. f_equal. apply read_u16_ext. intros i Hi.
  rewrite (fresh_body _ _ _ _ F), drop_nth; [f_equal; lia|]. assert (own_len x = 2 + 2 * n) by congruence. lia.
Qed.

(** ** Jump targets *)

Lemma index_search_lt fuel l pos lo hi t : index_search fuel l pos lo hi = Some t -> t < length l.
Proof.
  revert lo hi. induction fuel as [|fuel IH]; intros lo hi; cbn [index_search]; [done|].
  destruct (hi <? lo)%Z; [done|]. cbv zeta. set (mid := Z.to_nat _).
  destruct (l !! mid) as [x|] eqn:Hx; [|done].
  apply lookup_lt_Some in Hx. destruct (old_pos x =? pos); [by intros [= <-]|]. case_match; apply IH.
Qed.

(** The search finds nothing but the instruction at the position. *)
Lemma index_search_pos fuel l pos lo hi t :
  index_search fuel l pos lo hi = Some t -> exists x, l !! t = Some x /\ old_pos x = pos.
Proof.
  revert lo hi. induction fuel as [|fuel IH]; intros lo hi; cbn [index_search]; [done|].
  destruct (hi <? lo)%Z; [done|]. cbv zeta. set (mid := Z.to_nat _).
  destruct (l !! mid) as [x|] eqn:Hx; [|done].
  destruct (old_pos x =? pos) eqn:E; [|case_match; apply IH].
  intros [= <-]. exists x. split; [done|lia].
Qed.

(** And it finds it: over sorted positions, enough fuel for the interval is
    enough. *)
Lemma index_search_finds fuel (l : list PeepInsn) pos lo hi t x :
  (forall i j y z, l !! i = Some y -> l !! j = Some z -> i < j -> old_pos y < old_pos z) ->
  l !! t = Some x -> old_pos x = pos -> (0 <= lo <= Z.of_nat t)%Z -> (Z.of_nat t <= hi < Z.of_nat (length l))%Z ->
  (hi - lo < Z.of_nat fuel)%Z -> index_search fuel l pos lo hi = Some t.
Proof.
  intros Hs Hx Hp. revert lo hi. induction fuel as [|fuel IH]; intros lo hi Hlo Hhi Hf; [lia|].
  cbn [index_search]. destruct (hi <? lo)%Z eqn:Hh; [lia|].
  set (mid := (lo + (hi - lo) / 2)%Z).
  assert (Hmid : (lo <= mid <= hi)%Z).
  { unfold mid. pose proof (Z.div_mod (hi - lo) 2). pose proof (Z.mod_pos_bound (hi - lo) 2). lia. }
  destruct (lookup_lt_is_Some_2 l (Z.to_nat mid)) as [y Hy]; [lia|]. rewrite Hy.
  destruct (Nat.lt_trichotomy (Z.to_nat mid) t) as [Hlt|[E|Hgt]].
  - pose proof (Hs _ _ _ _ Hy Hx Hlt). destruct (old_pos y =? pos) eqn:E1; [lia|].
    destruct (old_pos y <? pos) eqn:E2; [|lia]. apply IH; lia.
  - rewrite E in *. assert (y = x) as -> by congruence. by rewrite Hp, Nat.eqb_refl.
  - pose proof (Hs _ _ _ _ Hx Hy Hgt). destruct (old_pos y =? pos) eqn:E1; [lia|].
    destruct (old_pos y <? pos) eqn:E2; [lia|]. apply IH; lia.
Qed.

(** One step of the second loop. *)
Lemma resolve_insn_spec pc len x y :
  resolve_insn pc len x = Some y -> jump_target x = None ->
  y = set_jump (jump_target y) x /\
  (cl_opnd_jrel_pos (opcode_operands (op x)) <> 0 <-> is_Some (jump_target y)) /\
  (forall t, jump_target y = Some t -> t < count pc /\
     resolve_target pc len x (cl_opnd_jrel_pos (opcode_operands (op x))) = Some t).
Proof.
  unfold resolve_insn. destruct (cl_opnd_jrel_pos _) as [|j] eqn:Ej.
  - intros [= <-] Hn. rewrite Hn. split_and!; [by destruct x; cbn in *; subst| |done].
    split; [done|by intros []].
  - intros (t & Ht & [= <-])%bind_Some _. cbn. split_and!; [done|by split; eauto|].
    intros ? [= <-]. split; [|done]. unfold resolve_target in Ht. case_match; [done|].
    by eapply index_search_lt.
Qed.

(** ** Landing tables *)

(** [l'] is [l] with some JMPs pinned, and nothing else. *)
Record pins (l l' : list PeepInsn) : Prop := {
  pin_length : length l' = length l;
  pin_each j x : l !! j = Some x -> exists x', l' !! j = Some x' /\
    (x' = x \/ x' = set_pinned x /\ op x = OP_JMP) }.

Lemma pins_refl l : pins l l.
Proof. split; eauto. Qed.

Lemma pins_trans l1 l2 l3 : pins l1 l2 -> pins l2 l3 -> pins l1 l3.
Proof.
  intros [L1 E1] [L2 E2]. split; [congruence|]. intros j x Hx.
  destruct (E1 j x Hx) as (y & Hy & Hxy). destruct (E2 j y Hy) as (z & Hz & Hyz).
  exists z. split; [done|].
  destruct Hxy as [->|[-> Hj]], Hyz as [->|[-> Hj']]; auto.
Qed.

Lemma pin_entries_spec n t l l' :
  pin_entries n t l = Some l' ->
  pins l l' /\ forall k, k < n -> exists y, l' !! (t + k) = Some y /\ pinned y = true.
Proof.
  revert t l. induction n as [|n IH]; intros t l; cbn; [intros [= <-]; split; [apply pins_refl|lia]|].
  destruct (l !! t) as [e|] eqn:He; [|done]. destruct (decide (op e = OP_JMP)) as [Ho|]; [|done].
  destruct (raw_len e =? 5); [|done]. intros [Hp Hk]%IH.
  assert (H1 : pins l (alter set_pinned t l)).
  { split; [apply length_alter|]. intros j x Hx. rewrite list_lookup_alter.
    destruct (decide (t = j)) as [->|Hne]; [|eauto]. rewrite Hx in *. simplify_eq. cbn. eauto. }
  split; [by eapply pins_trans|]. intros [|k] Hlt.
  - rewrite Nat.add_0_r. destruct (pin_each _ _ Hp t (set_pinned e)) as (y & Hy & Hc).
    { by rewrite list_lookup_alter, decide_True, He. }
    exists y. split; [done|]. by destruct Hc as [->|[-> _]].
  - destruct (Hk k) as (y & Hy & Hpy); [lia|]. exists y. by rewrite Nat.add_succ_r.
Qed.

Lemma pins_keep l l' j y : pins l l' -> l !! j = Some y -> pinned y = true ->
  exists z, l' !! j = Some z /\ pinned z = true.
Proof. intros Hp Hy Hpy. destruct (pin_each _ _ Hp j y Hy) as (z & Hz & [->|[-> _]]); eauto. Qed.

(** The entries of the table [x] registers are pinned. *)
Definition table_pinned (pool : option (list pool_entry)) (l : list PeepInsn) (x : PeepInsn) : Prop :=
  (op x = OP_HANDLER_CASE_PUSH ->
     exists n, pool_constant pool (peep_read_u16 (drop 1 (raw x))) = Some (TypeList n)) /\
  forall t n k, op x = OP_HANDLER_CASE_PUSH -> jump_target x = Some t ->
    pool_constant pool (peep_read_u16 (drop 1 (raw x))) = Some (TypeList n) -> k < n ->
    exists y, l !! (t + k) = Some y /\ pinned y = true.

Lemma pin_landing_spec pool l x l' : pin_landing pool l x = Some l' -> pins l l' /\ table_pinned pool l' x.
Proof.
  unfold pin_landing. case_decide as Ho; [|intros [= <-]; split; [apply pins_refl|by split]].
  destruct (pool_constant _ _) as [[|n|]|] eqn:Hp; try done. destruct (jump_target x) as [t|] eqn:Ht; [|done].
  case_match; [done|]. intros [H1 H2]%pin_entries_spec. split; [done|].
  split; [eauto|]. intros t' n' k _ Ht' Hp' Hk. simplify_eq. eauto.
Qed.

Lemma pin_landings_spec pool l l' :
  pin_landings pool l = Some l' ->
  pins l l' /\ forall j x, l' !! j = Some x -> table_pinned pool l' x.
Proof.
  unfold pin_landings.
  set (stp := fun (acc : option (list PeepInsn)) i => _).
  assert (Hnone : forall s, foldl stp None s = None) by (induction s; done).
  assert (Hgen : forall n s q, foldl stp (Some q) (seq s n) = Some l' ->
    pins q l' /\ forall j x, s <= j < s + n -> q !! j = Some x -> table_pinned pool l' x).
  { induction n as [|n IH]; intros s q; cbn [seq foldl].
    - intros [= <-]. split; [apply pins_refl|lia].
    - destruct (stp (Some q) s) as [q'|] eqn:E; [|by rewrite Hnone].
      intros [Hp Ht]%IH. unfold stp in E. cbn in E. apply bind_Some in E as (x & Hx & E).
      apply pin_landing_spec in E as [Hp1 Ht1]. split; [by eapply pins_trans|].
      intros j y Hj Hy. destruct (decide (j = s)) as [->|Hne].
      + simplify_eq. destruct Ht1 as [Hn1 Ht1]. split; [done|].
        intros t m k Ho Hjt Hc Hk. destruct (Ht1 t m k Ho Hjt Hc Hk) as (z & Hz & Hpz).
        by eapply pins_keep.
      + destruct (pin_each _ _ Hp1 j y Hy) as (y' & Hy' & Hc).
        assert (Ht' : table_pinned pool l' y') by (apply (Ht j); [lia|done]).
        by destruct Hc as [->|[-> _]]. }
  intros [Hp Ht]%Hgen. split; [done|]. intros j x' Hx'.
  destruct (lookup_lt_is_Some_2 l j) as [x Hx].
  { rewrite <- (pin_length _ _ Hp). by eapply lookup_lt_Some. }
  assert (Hj : table_pinned pool l' x) by (apply (Ht j); [apply lookup_lt_Some in Hx; lia|done]).
  destruct (pin_each _ _ Hp j x Hx) as (y & Hy & Hc). assert (y = x') as -> by congruence.
  by destruct Hc as [->|[-> _]].
Qed.

(** ** The decoded list *)

Lemma set_pinned_jump t x : set_pinned (set_jump t x) = set_jump t (set_pinned x).
Proof. done. Qed.

(** The instruction at an index of a decoded list: the fresh one with its
    target resolved, pinned when it is an entry of a landing table. *)
Lemma decode_lookup pool code pc :
  peep_decode pool code = Some pc ->
  exists l, laid_out pool code 0 l /\ constants pc = pool /\ length l = count pc /\
    (forall j x', insns pc !! j = Some x' -> exists x, l !! j = Some x /\
       (x' = set_jump (jump_target x') x \/ x' = set_jump (jump_target x') (set_pinned x) /\ op x = OP_JMP) /\
       (cl_opnd_jrel_pos (opcode_operands (op x)) <> 0 <-> is_Some (jump_target x')) /\
       (forall t, jump_target x' = Some t -> t < count pc /\
          resolve_target {| insns := l; constants := pool |} (length code) x
            (cl_opnd_jrel_pos (opcode_operands (op x))) = Some t) /\
       table_pinned pool (insns pc) x').
Proof.
  unfold peep_decode. intros (l & Hl%decode_insns_laid & H)%bind_Some.
  apply bind_Some in H as (l' & Hl' & H). apply bind_Some in H as (l'' & Hl'' & [= <-]).
  apply mapM_Some in Hl'. apply pin_landings_spec in Hl'' as [Hp Ht].
  pose proof (Forall2_length _ _ _ Hl') as En. unfold count. cbn [insns constants].
  exists l. split_and!; [done|done|by rewrite (pin_length _ _ Hp)|]. intros j x' Hx'.
  destruct (lookup_lt_is_Some_2 l' j) as [y Hy].
  { rewrite <- (pin_length _ _ Hp). by eapply lookup_lt_Some. }
  destruct (lookup_lt_is_Some_2 l j) as [x Hx]; [rewrite En; by eapply lookup_lt_Some|].
  pose proof (Forall2_lookup_lr _ _ _ _ _ _ Hl' Hx Hy) as Hr.
  pose proof (laid_fresh _ _ _ _ _ _ Hl Hx) as F. destruct (fr_plain _ _ _ F) as (_ & _ & _ & _ & _ & _ & Hj).
  destruct (resolve_insn_spec _ _ _ _ Hr Hj) as (Ey & Hiff & Htgt).
  destruct (pin_each _ _ Hp j y Hy) as (z & Hz & Hc). assert (z = x') as -> by congruence.
  assert (Ej : jump_target x' = jump_target y) by (by destruct Hc as [->|[-> _]]).
  assert (Eo : op y = op x) by (by rewrite Ey).
  exists x. rewrite Ej. split_and!; [done| |done| |by eapply Ht].
  - destruct Hc as [->|[-> Ho]]; [by left|right]. split; [|congruence]. rewrite Ey at 1. done.
  - intros t Et. destruct (Htgt t Et) as [Hlt ?]. unfold count in Hlt. cbn in Hlt.
    split; [|done]. by rewrite (pin_length _ _ Hp), <- En.
Qed.

Lemma fresh_index pool code x : fresh pool code x -> 2 <= own_len x ->
  peep_read_u16 (drop 1 (raw x)) = peep_read_u16 (body x).
Proof.
  intros F Hn. apply read_u16_ext. intros i Hi. unfold body. by rewrite take_nth by lia.
Qed.

Lemma decode_well_formed pool code pc : peep_decode pool code = Some pc -> well_formed pc /\ constants pc = pool.
Proof.
  intros (l & Hl & Ec & En & H)%decode_lookup.
  assert (Hplain : forall j x', insns pc !! j = Some x' -> exists x, fresh pool code x /\ l !! j = Some x /\
            raw x' = raw x /\ own_len x' = own_len x /\ raw_len x' = raw_len x /\ op x' = op x /\
            fused_with x' = None /\ synth x' = None /\ deleted x' = false /\ (pinned x' = true -> op x = OP_JMP)).
  { intros j x' Hx'. destruct (H j x' Hx') as (x & Hx & Hc & _). exists x.
    pose proof (laid_fresh _ _ _ _ _ _ Hl Hx) as F. destruct (fr_plain _ _ _ F) as (? & ? & ? & ? & ? & ? & ?).
    split_and!; [done|done|..]; destruct Hc as [->|[-> ?]]; cbn; congruence || done. }
  assert (Hidx : forall j x', insns pc !! j = Some x' -> op x' = OP_HANDLER_CASE_PUSH ->
            peep_read_u16 (drop 1 (raw x')) = peep_read_u16 (body x')).
  { intros j x' Hx' Ho. destruct (Hplain _ _ Hx') as (x2 & F & _ & Er & Eo & _ & Ep & _).
    rewrite Er. unfold body. rewrite Er, Eo. apply (fresh_index _ _ _ F).
    pose proof (fresh_shape _ _ _ F) as Hs. rewrite <- Ep, Ho in Hs. cbn in Hs. lia. }
  split; [|done]. split.
  - intros j x' (x & _ & _ & _ & _ & _ & _ & ? & ? & _)%Hplain. done.
  - intros j x' [Hx' _]. destruct (Hplain _ _ Hx') as (x & F & Hx & Er & Eo & El & Ep & _ & _ & _).
    destruct (H j x' Hx') as (x2 & Hx2 & _ & Hj & Ht & _). assert (x2 = x) as -> by congruence.
    pose proof (fr_fits _ _ _ F) as Hfit.
    assert (Hlen : length (raw x) = 1 + own_len x).
    { rewrite (fr_raw _ _ _ F), length_take, length_drop. lia. }
    split.
    + rewrite Er, Eo. lia.
    + rewrite El, Eo. apply (fr_len _ _ _ F).
    + pose proof (fresh_shape _ _ _ F) as Hs. unfold body in *. by rewrite Ep, Eo, Er, Ec.
    + by rewrite Ep.
    + intros t Et. by apply Ht.
  - intros j x' (x & _ & _ & _ & _ & _ & Eo & _ & _ & ? & ?)%Hplain Hp. rewrite Eo. auto.
  - intros j x' [Hx' _] Ho. destruct (H j x' Hx') as (x & Hx & _ & _ & _ & [Htab _]).
    rewrite Ec, <- (Hidx j x' Hx' Ho). by apply Htab.
  - intros j x' t n k [Hx' _] Ho Ht Hc Hk. destruct (H j x' Hx') as (x & Hx & _ & _ & _ & [_ Htab]).
    apply (Htab t n k); [done..| |done]. rewrite <- Ec, <- Hc. f_equal. by apply (Hidx j).
Qed.
