(* ===== verification/PeepFuse.v ===== *)
(** * Superinstructions do what their members did

    [pair_agree], [triple_agree] and [cmp_br_agree]: the dispatch case of a
    fused opcode, run on the members' operand bytes in order, is the sequence
    of the members' cases. *)

From Stdlib Require Import ZArith Lia ZifyBool.
From stdpp Require Import base option list sets.
From S2P Require Import Prelude Opcodes PeepCode Peephole Machine PeepSim PeepWf PeepRules.

Section Fused.
Context {val world result : Type} {pool : option (list pool_entry)} {V : VM val world result}
  {L : VMLaws pool V}.

Abbreviation frame := (frame val world).
Abbreviation outcome := (outcome val world result).

(** One instruction after another. *)
Definition seq (o : outcome) (k : frame -> outcome) : outcome :=
  match o with Next g => k g | _ => o end.

(** The same outcome, or the same error signalled with another count. *)
Definition agree (f : frame) (o o' : outcome) : Prop :=
  o = o' \/ exists e g g', same_but_mv g g' /\ rest g = rest f /\ o = signal e g /\ o' = signal e g'.

(** A call whose callee does not look at the caller's count. *)
Definition call_ignores_count (args : list Z) : Prop :=
  forall n (f : frame), exec_other OP_CALL_GLOBAL args None (set_mv n f)
                        = exec_other (result:=result) OP_CALL_GLOBAL args None f.

Ltac operands Ha :=
  repeat match type of Ha with
    | Some _ = Some (length ?l) => destruct l as [|? ?]; cbn in Ha; try discriminate Ha
    | Some _ = Some (S (length ?l)) => destruct l as [|? ?]; cbn in Ha; try discriminate Ha
    | Some _ = Some (S (S (length ?l))) => destruct l as [|? ?]; cbn in Ha; try discriminate Ha
    end.

Lemma seq_signal e (f : frame) k : seq (signal e f) k = signal e f.
Proof. pose proof (signal_leaves e f) as S. unfold leaves in S. by destruct (signal e f). Qed.

(** Run both sides, splitting on what they test.  A two-byte index is read
    from the first two bytes whatever follows. *)
Ltac short_index :=
  repeat match goal with
    | |- context [peep_read_u16 (?x :: ?y :: ?l)] =>
        lazymatch l with [] => fail | _ => change (peep_read_u16 (x :: y :: l)) with (peep_read_u16 [x; y]) end
    end.

Ltac run_pair :=
  repeat (cbn [exec seq]; autounfold with vm_cases; short_index; cbn - [peep_read_u16];
          rewrite ?seq_signal, ?null_of_bool, ?drop_0, ?list_lookup_insert_eq
            by (apply Nat.ltb_lt; assumption);
          cbn - [peep_read_u16]; first [done | case_match; simplify_eq]).

Lemma pair_agree a b o argsa argsb tgt (f : frame) :
  peep_fused_opcode a b = Some o ->
  cl_opnd_len (opcode_operands a) = Some (length argsa) ->
  (cl_opnd_jrel_pos (opcode_operands b) = 0 -> tgt = None) ->
  (o = OP_GLOAD_CALL_GLOBAL -> call_ignores_count argsb) ->
  agree f (seq (exec a argsa None f) (exec b argsb tgt)) (exec o (argsa ++ argsb) tgt f).
Proof.
  intros Ho Ha Ht Hc. destruct f as [l s m w].
  destruct a; try done; destruct b; try done; injection Ho as <-; cbn in Ha; operands Ha;
    cbn [app]; try (specialize (Ht eq_refl); subst tgt); left; run_pair.
  by apply (Hc eq_refl 1%Z (Frame l _ m w)).
Qed.

(** GLOAD_CALL_GLOBAL leaves the count alone that GLOAD sets to 1. *)
Lemma gload_call_agree argsa argsb (f : frame) :
  cl_opnd_len (opcode_operands OP_GLOAD) = Some (length argsa) ->
  agree f (seq (exec OP_GLOAD argsa None f) (fun g => exec OP_CALL_GLOBAL argsb None (set_mv (mv_count f) g)))
          (exec OP_GLOAD_CALL_GLOBAL (argsa ++ argsb) None f).
Proof.
  intros Ha. destruct f as [l s m w]. cbn in Ha. operands Ha. cbn [app]. left. run_pair.
Qed.

Lemma triple_agree a b c o argsa argsb argsc tgt (f : frame) :
  peep_fused_opcode3 a b c = Some o ->
  cl_opnd_len (opcode_operands a) = Some (length argsa) ->
  cl_opnd_len (opcode_operands b) = Some (length argsb) ->
  agree f (seq (exec a argsa None f) (fun g => seq (exec b argsb None g) (exec c argsc tgt)))
          (exec o (argsa ++ argsb ++ argsc) tgt f).
Proof.
  intros Ho Ha Hb. destruct f as [l s m w].
  destruct a; try done; destruct b; try done; destruct c; try done; injection Ho as <-;
    cbn in Ha, Hb; operands Ha; operands Hb; cbn [app]; left; run_pair.
Qed.

(** Fold the constants of a CMP_BR kind byte. *)
Ltac fold_kind :=
  unfold CL_CMP_BR_LT, CL_CMP_BR_GT, CL_CMP_BR_LE, CL_CMP_BR_GE, CL_CMP_BR_NUMEQ, CL_CMP_BR_CHAREQ,
    CL_CMP_BR_CMP_MASK, CL_CMP_BR_IF_TRUE in *;
  repeat match goal with
    | |- context [Z.land ?x ?y] => let v := eval vm_compute in (Z.land x y) in change (Z.land x y) with v
    end.

Lemma cmp_br_agree a b kind argsb tgt (f : frame) :
  peep_cmp_br_kind a b = Some kind ->
  agree f (seq (exec a [] None f) (exec b argsb tgt)) (exec OP_CMP_BR (kind :: argsb) tgt f).
Proof.
  intros Hk. destruct f as [l s m w].
  destruct a; try done; destruct b; try done; injection Hk as <-.
  all: destruct s as [|bv [|av s]]; [by left..|].
  all: cbn [exec]; unfold VM_ORDER_CMP, op_numeq, op_chareq, op_cmp_br, cl_vm_compare_kind, cmp_fixnums, pop,
    set_stack, byte_at; cbn - [Z.land]; fold_kind; cbn - [Z.land].
  all: destruct (fixnum_val av) as [x|] eqn:Ex, (fixnum_val bv) as [y|] eqn:Ey;
    try rewrite (fixnum_word _ _ _ _ Ex Ey); cbn - [Z.land].
  all: destruct (char_p av) eqn:?, (char_p bv) eqn:?; cbn - [Z.land].
  all: repeat (case_match; simplify_eq; cbn - [Z.land]); rewrite ?seq_signal.
  all: try (right; do 3 eexists; split_and!; [| |reflexivity|reflexivity]; done).
  all: left; unfold op_jnil, op_jtrue, pop, branch; cbn; rewrite ?null_of_bool; cbn.
  all: repeat case_match; try done; try congruence.
Qed.

End Fused.
