(* ===== verification/PeepFusion.v ===== *)
(** * The fusion pass is correct

    [fusing pc i] is the invariant of peep_fuse at index [i]: what lies ahead
    is as decoded, the members absorbed so far are chained below [i].  A fused
    run of instructions is a [block] of the old list; [absorbs] is what
    peep_absorb makes of it. *)

From Stdlib Require Import ZArith Lia ZifyBool.
From stdpp Require Import base option list sets.
From S2P Require Import Prelude Opcodes PeepCode Peephole Machine PeepSim PeepWf PeepRules PeepRound PeepFuse.

(** ** Lists with superinstructions *)

(** The live instruction [x] at [j] has the operand bytes its opcode wants. *)
Record code_ok (pc : PeepCode) (j : nat) (x : PeepInsn) : Prop := {
  co_len : raw_len x = S (length (operand_bytes (insns pc) j x));
  co_shape : match cl_opnd_len (opcode_operands (op x)) with
             | Some n => length (operand_bytes (insns pc) j x) = n
             | None => exists n, pool_constant (constants pc) (peep_read_u16 (operand_bytes (insns pc) j x))
                                 = Some (Template n) /\ length (operand_bytes (insns pc) j x) = 2 + 2 * n
             end;
  co_jump : cl_opnd_jrel_pos (opcode_operands (op x)) <> 0 <-> is_Some (jump_target x);
  co_target t : jump_target x = Some t -> t < count pc }.

Definition plain (x : PeepInsn) : Prop := fused_with x = None /\ synth x = None.

Record fusing (pc : PeepCode) (i : nat) : Prop := {
  fz_tail j x : i <= j -> insns pc !! j = Some x -> plain x;
  fz_chain j x k : insns pc !! j = Some x -> fused_with x = Some k -> j < k < i;
  fz_code j x : live_at pc j x -> code_ok pc j x;
  fz_own j x : i <= j -> live_at pc j x -> own_len x = length (body x);
  fz_registers j x : live_at pc j x -> registers (op x) = true -> plain x;
  fz_handler j x : live_at pc j x -> op x = OP_HANDLER_CASE_PUSH ->
    exists n, pool_constant (constants pc) (peep_read_u16 (body x)) = Some (TypeList n);
  fz_tables j x t n k : live_at pc j x -> op x = OP_HANDLER_CASE_PUSH -> jump_target x = Some t ->
    pool_constant (constants pc) (peep_read_u16 (body x)) = Some (TypeList n) -> k < n ->
    exists y, insns pc !! (t + k) = Some y /\ pinned y = true;
  fz_pinned j x : insns pc !! j = Some x -> pinned x = true -> deleted x = false /\ op x = OP_JMP;
  fz_marks : marks_ok pc }.

Lemma plain_operands pc j x :
  insns pc !! j = Some x -> plain x -> operand_bytes (insns pc) j x = body x.
Proof.
  intros Hx [Hf Hs]. unfold operand_bytes. rewrite Hs. cbn.
  destruct (length (insns pc)) as [|n] eqn:El.
  { apply nil_length_inv in El. by rewrite El, lookup_nil in Hx. }
  cbn [member_bytes]. rewrite Hx, Hf. apply app_nil_r.
Qed.

Lemma body_length x : own_len x < length (raw x) -> length (body x) = own_len x.
Proof. intros. unfold body. rewrite length_take, length_drop. lia. Qed.

(** What the rounds leave is where the fusion starts. *)
Lemma fusing_start pc : well_formed pc -> marks_ok pc -> fusing pc 0.
Proof.
  intros W M. split; try done.
  - intros j x _. apply (wf_plain _ W).
  - intros j x k Hx Hk. destruct (wf_plain _ W j x Hx). congruence.
  - intros j x Hl. destruct (wf_live _ W j x Hl) as [Hr Hn Hs Hj Ht].
    pose proof (operand_bytes_plain pc j x W (proj1 Hl)) as E. split; rewrite ?E, ?body_length; auto.
  - intros j x _ Hl. destruct (wf_live _ W j x Hl). by rewrite body_length.
  - intros j x [Hx _] _. by apply (wf_plain _ W j).
  - apply (wf_handler _ W).
  - apply (wf_tables _ W).
  - apply (wf_pinned _ W).
Qed.

(** The members of a chain below [i] are found whatever is at [i] and after. *)
Lemma chain_ext l l' i fuel j :
  (forall k, k < i -> l' !! k = l !! k) ->
  (forall k x m, l !! k = Some x -> fused_with x = Some m -> k < m < i) ->
  j < i -> member_bytes fuel l' j = member_bytes fuel l j.
Proof.
  intros He Hc. revert j. induction fuel as [|fuel IH]; intros j Hj; cbn; [done|].
  rewrite He by done. destruct (l !! j) as [x|] eqn:Hx; [|done]. f_equal.
  destruct (fused_with x) as [m|] eqn:Hm; [|done]. apply IH. by eapply Hc.
Qed.

(** A landing of the code is an entry point. *)
Lemma fusing_landing pc i e k :
  fusing pc i -> code_landing (pool:=constants pc) pc e -> k < l_entries e -> entry pc (l_label e + k).
Proof.
  intros Z (j & x & Hl & He) Hk. unfold lands_of in He.
  destruct (registers (op x)) eqn:Hreg; [|by rewrite registers_none, elem_of_nil in He].
  rewrite (plain_operands pc j x) in He by (apply Hl || by apply (fz_registers _ _ Z j)).
  assert (Hplain : l_label e + k = l_label e -> jump_target x = Some (l_label e) ->
            entry pc (l_label e + k)) by (intros ->; left; eauto).
  revert He Hk Hplain. unfold insn_landings. destruct (jump_target x) as [t|] eqn:Ht;
    repeat case_match; try (by intros ?%elem_of_nil);
    rewrite list_elem_of_singleton; intros ->; cbn; intros; try (apply Hplain; [lia|done]).
  right. by eapply fz_tables.
Qed.

(** ** What absorbing makes *)

(** From [pc] to [pc'] the instructions [P], up to [last], were absorbed into
    the head at [i], which is now [x']; its jump, if any, was one of the
    old list. *)
Record absorbs (pc pc' : PeepCode) (i last : nat) (P : nat -> Prop) (a x' : PeepInsn) : Prop := {
  ab_constants : constants pc' = constants pc;
  ab_count : length (insns pc') = length (insns pc);
  ab_old : live_at pc i a;
  ab_head : live_at pc' i x';
  ab_target : target x' = target a;
  ab_pinned : pinned x' = pinned a;
  ab_unpinned : pinned a = false;
  ab_registers : registers (op x') = false;
  ab_jump t : jump_target x' = Some t -> entry pc t;
  ab_chain k : fused_with x' = Some k -> P k;
  ab_other j : j <> i -> ~ P j -> insns pc' !! j = insns pc !! j;
  ab_member k : P k -> exists y y', insns pc !! k = Some y /\ insns pc' !! k = Some y' /\
    deleted y' = true /\ target y' = target y /\ pinned y' = pinned y /\
    (forall m, fused_with y' = Some m -> k < m /\ P m);
  ab_range k : P k -> i < k <= last;
  ab_last : P last;
  ab_code : code_ok pc' i x' }.

Section Absorbs.
Context (pc pc' : PeepCode) (i last : nat) (P : nat -> Prop) (a x' : PeepInsn).
Hypothesis Z : fusing pc i.
Hypothesis I : isolated pc i P.
Hypothesis A : absorbs pc pc' i last P a x'.

Lemma ab_deleted k : deleted_at pc k -> deleted_at pc' k.
Proof.
  intros (y & Hy & Hd). destruct (iso_dec _ _ _ I k) as [Hk|Hk].
  - destruct (ab_member _ _ _ _ _ _ _ A k Hk) as (_ & y' & _ & ? & ? & _). by exists y'.
  - exists y. split; [|done]. rewrite (ab_other _ _ _ _ _ _ _ A); [done| |done].
    intros ->. destruct (ab_old _ _ _ _ _ _ _ A). congruence.
Qed.

Lemma ab_live j y : live_at pc' j y -> (j = i /\ y = x') \/ (j <> i /\ ~ P j /\ live_at pc j y).
Proof.
  intros [Hy Hd]. destruct (decide (j = i)) as [->|Hne].
  - left. split; [done|]. destruct (ab_head _ _ _ _ _ _ _ A). congruence.
  - right. assert (HP : ~ P j).
    { intros Hk. destruct (ab_member _ _ _ _ _ _ _ A j Hk) as (_ & y' & _ & ? & ? & _). congruence. }
    split_and!; [done|done|]. split; [|done]. by rewrite <- (ab_other _ _ _ _ _ _ _ A).
Qed.

Lemma ab_same_operands j y :
  live_at pc j y -> j <> i -> ~ P j -> operand_bytes (insns pc') j y = operand_bytes (insns pc) j y.
Proof.
  intros [Hy Hd] Hne HP. destruct (decide (i <= j)) as [Hle|Hgt].
  - pose proof (fz_tail _ _ Z j y Hle Hy) as Hp. rewrite !plain_operands; auto.
    by rewrite (ab_other _ _ _ _ _ _ _ A).
  - unfold operand_bytes. rewrite (ab_count _ _ _ _ _ _ _ A). f_equal. apply (chain_ext _ _ i); [|apply Z|lia].
    intros k Hk. apply (ab_other _ _ _ _ _ _ _ A); [lia|]. intros Hpk.
    apply (ab_range _ _ _ _ _ _ _ A) in Hpk. lia.
Qed.

Lemma ab_entry t : entry pc' t -> entry pc t.
Proof.
  intros [(j & y & [[-> ->]|(Hne & HP & Hl)]%ab_live & Ht)|(y & Hy & Hp)].
  - by eapply ab_jump.
  - left. eauto.
  - right. destruct (decide (t = i)) as [->|Hne].
    + destruct (ab_head _ _ _ _ _ _ _ A) as [Hx' _]. simplify_eq.
      destruct (ab_old _ _ _ _ _ _ _ A) as [Ha _]. exists a. split; [done|].
      by rewrite <- (ab_pinned _ _ _ _ _ _ _ A).
    + destruct (iso_dec _ _ _ I t) as [Hk|Hk].
      * destruct (ab_member _ _ _ _ _ _ _ A t Hk) as (z & y' & Hz & ? & _ & _ & Ep & _). simplify_eq.
        exists z. split; [done|congruence].
      * exists y. split; [|done]. by rewrite <- (ab_other _ _ _ _ _ _ _ A).
Qed.

Lemma ab_lookup j y : insns pc !! j = Some y ->
  exists y', insns pc' !! j = Some y' /\ target y' = target y /\ pinned y' = pinned y.
Proof.
  intros Hy. destruct (decide (j = i)) as [->|Hne].
  - destruct (ab_old _ _ _ _ _ _ _ A) as [Ha _]. simplify_eq. exists x'.
    split_and!; [apply A|by eapply ab_target|by eapply ab_pinned].
  - destruct (iso_dec _ _ _ I j) as [Hk|Hk].
    + destruct (ab_member _ _ _ _ _ _ _ A j Hk) as (z & y' & Hz & ? & _ & ? & ? & _). simplify_eq. eauto.
    + exists y. split; [|done]. by rewrite (ab_other _ _ _ _ _ _ _ A).
Qed.

(** The invariant moves on past the last member. *)
Lemma ab_fusing : fusing pc' (S last).
Proof.
  pose proof (ab_range _ _ _ _ _ _ _ A) as Hr. pose proof (Hr last (ab_last _ _ _ _ _ _ _ A)) as Hlast. split.
  - intros j y Hj Hy. apply (fz_tail _ _ Z j); [lia|]. rewrite <- (ab_other _ _ _ _ _ _ _ A); [done|lia|].
    intros Hk%Hr. lia.
  - intros j y k Hy Hk. destruct (decide (j = i)) as [->|Hne].
    + destruct (ab_head _ _ _ _ _ _ _ A) as [Hx' _]. simplify_eq.
      pose proof (Hr k (ab_chain _ _ _ _ _ _ _ A k Hk)). lia.
    + destruct (iso_dec _ _ _ I j) as [HP|HP].
      * destruct (ab_member _ _ _ _ _ _ _ A j HP) as (_ & y' & _ & ? & _ & _ & _ & Hm). simplify_eq.
        destruct (Hm k Hk) as [? ?%Hr]. lia.
      * rewrite (ab_other _ _ _ _ _ _ _ A) in Hy by done. pose proof (fz_chain _ _ Z j y k Hy Hk). lia.
  - intros j y [[-> ->]|(Hne & HP & Hl)]%ab_live; [apply A|].
    destruct (fz_code _ _ Z j y Hl) as [H1 H2 H3 H4].
    split; rewrite ?ab_same_operands, ?(ab_constants _ _ _ _ _ _ _ A) by done; try done.
    intros t Ht. unfold count. rewrite (ab_count _ _ _ _ _ _ _ A). by apply H4.
  - intros j y Hj [[-> ->]|(Hne & HP & Hl)]%ab_live; [lia|]. apply (fz_own _ _ Z j); [lia|done].
  - intros j y [[-> ->]|(Hne & HP & Hl)]%ab_live Hreg; [|by eapply fz_registers].
    by rewrite (ab_registers _ _ _ _ _ _ _ A) in Hreg.
  - intros j y [[-> ->]|(Hne & HP & Hl)]%ab_live Ho.
    + pose proof (ab_registers _ _ _ _ _ _ _ A) as Hreg. by rewrite Ho in Hreg.
    + rewrite (ab_constants _ _ _ _ _ _ _ A). by apply (fz_handler _ _ Z j).
  - intros j y t n k [[-> ->]|(Hne & HP & Hl)]%ab_live Ho Ht Hc Hk.
    + pose proof (ab_registers _ _ _ _ _ _ _ A) as Hreg. by rewrite Ho in Hreg.
    + rewrite (ab_constants _ _ _ _ _ _ _ A) in Hc.
      destruct (fz_tables _ _ Z j y t n k Hl Ho Ht Hc Hk) as (z & (z' & Hz' & _ & Ep)%ab_lookup & Hp).
      exists z'. split; [done|congruence].
  - intros j y Hy Hp. destruct (decide (j = i)) as [->|Hne].
    { destruct (ab_head _ _ _ _ _ _ _ A) as [Hx' _]. simplify_eq.
      by rewrite (ab_pinned _ _ _ _ _ _ _ A), (ab_unpinned _ _ _ _ _ _ _ A) in Hp. }
    destruct (iso_dec _ _ _ I j) as [HP|HP].
    + destruct (ab_member _ _ _ _ _ _ _ A j HP) as (z & y' & Hz & ? & _ & _ & Ep & _). simplify_eq.
      rewrite Ep in Hp. destruct (fz_pinned _ _ Z j z Hz Hp) as [Hd _].
      destruct (iso_entry _ _ _ I j); [right; by exists z|]. by rewrite (skip_stop _ _ _ (conj Hz Hd)).
    + rewrite (ab_other _ _ _ _ _ _ _ A) in Hy by done. by apply (fz_pinned _ _ Z j).
  - intros t (y & (y' & Hy' & Et & _)%ab_lookup & Hty)%ab_entry%(fz_marks _ _ Z). exists y'. split; [done|congruence].
Qed.

Lemma ab_pattern : pattern_ok (pool:=constants pc) pc pc' P (fun j => j =? i).
Proof.
  assert (Hold : forall e, code_landing (pool:=constants pc) pc' e -> code_landing (pool:=constants pc) pc e).
  { intros e (j & y & [[-> ->]|(Hne & HP & Hl)]%ab_live & He); unfold lands_of in He.
    - rewrite registers_none, elem_of_nil in He by apply A. done.
    - exists j, y. split; [done|]. unfold lands_of. by rewrite <- ab_same_operands. }
  split.
  - apply ab_deleted.
  - intros j y Hl HP Hh. assert (Hne : j <> i) by (intros ->; apply Hh, head_eq; done).
    exists y. split_and!; [|done|done|by apply ab_same_operands].
    destruct Hl. split; [|done]. by rewrite (ab_other _ _ _ _ _ _ _ A).
  - intros j y Hl HP Hh _. apply (iso_next _ _ _ I j y); [done| |done]. intros ->. apply Hh, head_eq. done.
  - intros j y t Hl HP Hh _ Ht. apply (iso_entry _ _ _ I). left. eauto.
  - intros e k He%Hold Hk. apply (iso_entry _ _ _ I). by eapply fusing_landing.
  - done.
  - intros HP. pose proof (iso_after _ _ _ I _ HP).
    pose proof (skip_le_live pc 0 i a (ab_old _ _ _ _ _ _ _ A)). lia.
Qed.

End Absorbs.

(** ** Runs of old instructions *)

Section Blocks.
Context {val world result : Type} {pool : option (list pool_entry)} {V : VM val world result}
  {L : VMLaws pool V}.

Abbreviation frame := (frame val world).
Abbreviation outcome := (outcome val world result).

(** Where an outcome leads, falling through to [nx]. *)
Definition arrive (nx : nat) (tgt : option nat) (o : outcome) : status :=
  match o with
  | Next f => Running (nx, f)
  | Jump f => match tgt with Some t => Running (t, f) | None => Wrong end
  | Goto l k f => Running (l + k, f)
  | Done r => Final r
  | Stuck => Wrong
  end.

(** From [j] to [last] the code computes [ex]; it writes the count, never
    falls through, may jump, as [w], [u] and [b] say. *)
Record block (pc : PeepCode) (j : nat) (ex : frame -> outcome) (last : nat) (tgt : option nat)
    (w u b : bool) : Prop := {
  blk_run f : exists n, run (S n) pc (j, f) = arrive (S last) tgt (ex f);
  blk_lands f : lands_ok (landings (rest f)) (ex f);
  blk_quiet D : mv_dead_set (pool:=pool) (val:=val) (world:=world) pc D -> D j -> mv_blind ex [] /\
    ((w = true /\ mv_writes ex) \/
     ((u = false -> D (skip_deleted pc (S last))) /\
      (b = true -> forall t, tgt = Some t -> D (skip_deleted pc t)))) }.

Lemma exec_lands_plain o args tgt (f : frame) :
  registers o = false -> lands_ok (landings (rest f)) (exec o args tgt f).
Proof.
  intros Hr. pose proof (exec_lands (pool:=pool) o args tgt f) as E.
  by rewrite registers_none, app_nil_r in E.
Qed.

Lemma block_single pc j x :
  live_at pc j x -> plain x -> registers (op x) = false ->
  block pc j (exec (op x) (body x) (jump_target x)) j (jump_target x)
    (has_flag (op x) CL_OPF_MVW) (has_flag (op x) CL_OPF_UNCOND) (branches (op x)).
Proof.
  intros Hl Hp Hr. split.
  - intros f. exists 0. cbn [run]. unfold step. cbn [fst snd]. rewrite (skip_stop _ _ _ Hl), (proj1 Hl).
    rewrite plain_operands by (done || apply Hl). unfold arrive. destruct (exec _ _ _ _); try done.
    by destruct (jump_target x).
  - intros f. by apply exec_lands_plain.
  - intros D HD Hj. destruct (HD j Hj) as (y & Hy & Hb & Hw). pose proof (live_fun _ _ _ _ Hy Hl) as ->.
    unfold runs, lands_of in *. rewrite registers_none in Hb by done.
    by rewrite plain_operands in Hb, Hw by (done || apply Hl).
Qed.

(** *** One after the other *)

Lemma blind_seq (ex1 ex2 : frame -> outcome) :
  mv_blind ex1 [] -> (forall f, lands_ok (landings (rest f)) (ex1 f)) ->
  (mv_writes ex1 \/ mv_blind ex2 []) -> mv_blind (fun f => seq (ex1 f) ex2) [].
Proof.
  intros Hb Hl Hor f f' E. specialize (Hb f f' E). pose proof (Hl f) as Hf.
  destruct (ex1 f) as [g|g|l k g|r|] eqn:E1, (ex1 f') as [g'|g'|l' k' g'|r'|] eqn:E2; cbn in Hb; try done.
  cbn [seq]. destruct Hor as [Hw|Hb2].
  - rewrite (proj1 (Hw f f' E) g g' E1 E2). apply out_sim_refl.
  - eapply out_sim_mono; [|by apply Hb2]. rewrite !app_nil_r. apply Hf.
Qed.

Lemma writes_seq (ex1 ex2 : frame -> outcome) :
  mv_blind ex1 [] -> (forall f g, ex1 f <> Jump g) -> (mv_writes ex1 \/ mv_writes ex2) ->
  mv_writes (fun f => seq (ex1 f) ex2).
Proof.
  intros Hb Hj Hor f f' E. specialize (Hb f f' E).
  destruct (ex1 f) as [g|g|l k g|r|] eqn:E1, (ex1 f') as [g'|g'|l' k' g'|r'|] eqn:E2; cbn in Hb; try done;
    try (by destruct (Hj f g)).
  cbn [seq]. destruct Hor as [Hw|Hw].
  - rewrite (proj1 (Hw f f' E) g g' E1 E2). split; congruence.
  - by apply Hw.
Qed.

Lemma block_cons pc j x ex last tgt w u b :
  live_at pc j x -> plain x -> registers (op x) = false -> branches (op x) = false ->
  jump_target x = None -> has_flag (op x) CL_OPF_UNCOND = false ->
  block pc (skip_deleted pc (S j)) ex last tgt w u b ->
  block pc j (fun f => seq (exec (op x) (body x) None f) ex) last tgt (has_flag (op x) CL_OPF_MVW || w) u b.
Proof.
  intros Hl Hp Hr Hbr Hjt Hu B. pose proof (block_single pc j x Hl Hp Hr) as S0. rewrite Hjt in S0.
  assert (Hnj : forall f g, exec (op x) (body x) None f <> Jump g).
  { intros f g E. by rewrite (exec_jump (pool:=pool) _ _ _ _ _ E) in Hbr. }
  split.
  - intros f. destruct (blk_run _ _ _ _ _ _ _ _ S0 f) as [n1 E1].
    destruct (exec (op x) (body x) None f) as [g|g|l k g|r|] eqn:Ex; cbn [seq arrive] in *; eauto.
    + destruct (blk_run _ _ _ _ _ _ _ _ B g) as [n2 E2]. exists (n1 + S n2).
      replace (S (n1 + S n2)) with (S n1 + S n2) by lia. rewrite run_add, E1. cbn [arrive].
      rewrite <- E2. apply run_skip; [lia|]. by rewrite skip_idem.
    + by destruct (Hnj f g).
  - intros f. pose proof (blk_lands _ _ _ _ _ _ _ _ S0 f) as H1.
    destruct (exec (op x) (body x) None f) as [g|g|l k g|r|] eqn:Ex; try done. cbn [seq].
    eapply lands_ok_mono; [exact H1|]. apply (blk_lands _ _ _ _ _ _ _ _ B).
  - intros D HD Hj. destruct (blk_quiet _ _ _ _ _ _ _ _ S0 D HD Hj) as [Hb Hw].
    pose proof (blk_lands _ _ _ _ _ _ _ _ S0) as Hlands.
    destruct Hw as [[Hf Hw]|[Hn _]].
    + split; [apply blind_seq; auto|]. left. rewrite Hf. split; [done|]. apply writes_seq; auto.
    + destruct (blk_quiet _ _ _ _ _ _ _ _ B D HD (Hn Hu)) as [Hb2 Hw2].
      split; [apply blind_seq; auto|]. destruct Hw2 as [[-> Hw2]|Hgo]; [left|by right].
      split; [by rewrite orb_true_r|]. apply writes_seq; auto.
Qed.

(** *** Agreement carries the count's deadness *)

Lemma out_sim_sym ls (o o' : outcome) : out_sim ls o o' -> out_sim ls o' o.
Proof.
  destruct o, o'; cbn; try done. intros (-> & -> & ? & Hc). split_and!; try done.
  destruct Hc as [->|?]; auto.
Qed.

Lemma out_sim_trans ls (o1 o2 o3 : outcome) : out_sim ls o1 o2 -> out_sim ls o2 o3 -> out_sim ls o1 o3.
Proof.
  destruct o1, o2, o3; cbn; try done; try (intros; by etrans).
  intros (-> & -> & E1 & C1) (-> & -> & E2 & C2). split_and!; [done|done|by etrans|].
  destruct C1 as [->|?]; auto.
Qed.

Lemma agree_sim (f : frame) o o' : agree f o o' -> out_sim (landings (rest f)) o o'.
Proof.
  intros [->|(e & g & g' & E & Er & -> & ->)]; [apply out_sim_refl|].
  rewrite <- Er. by apply signal_sim.
Qed.

(** Outcomes that agree are equal when control stays. *)
Lemma agree_stays (f : frame) o o' : agree f o o' -> (o = o' \/ leaves o /\ leaves o').
Proof.
  intros [->|(e & g & g' & E & Er & -> & ->)]; [by left|right]. split; apply signal_leaves.
Qed.

Lemma agree_blind (ex ex' : frame -> outcome) :
  (forall f, agree f (ex f) (ex' f)) -> mv_blind ex [] -> mv_blind ex' [].
Proof.
  intros Ha Hb f f' E. pose proof (agree_sim _ _ _ (Ha f)) as S1. pose proof (agree_sim _ _ _ (Ha f')) as S2.
  destruct E as (E1 & E2 & E3). specialize (Hb f f' (conj E1 (conj E2 E3))). rewrite app_nil_r in *.
  eapply out_sim_trans; [apply out_sim_sym, S1|]. eapply out_sim_trans; [exact Hb|]. by rewrite E3.
Qed.

Lemma agree_writes (ex ex' : frame -> outcome) :
  (forall f, agree f (ex f) (ex' f)) -> mv_writes ex -> mv_writes ex'.
Proof.
  intros Ha Hw f f' E. destruct (Hw f f' E) as [Hn Hj].
  split; intros g g' E1 E2;
    destruct (agree_stays _ _ _ (Ha f)) as [Ef|[_ Hf]]; try (by rewrite E1 in Hf);
    destruct (agree_stays _ _ _ (Ha f')) as [Ef'|[_ Hf']]; try (by rewrite E2 in Hf').
  - apply Hn; congruence.
  - apply Hj; congruence.
Qed.

(** *** The superinstruction against its block *)

Section Step.
Context (pc pc' : PeepCode) (i last : nat) (P : nat -> Prop) (a x' : PeepInsn) (ex : frame -> outcome)
  (w u b : bool).
Hypothesis Hpool : constants pc = pool.
Hypothesis Z : fusing pc i.
Hypothesis I : isolated pc i P.
Hypothesis A : absorbs pc pc' i last P a x'.
Hypothesis Hout : ~ P (skip_deleted pc (S last)).
Hypothesis Hskip : skip_deleted pc' (S i) = skip_deleted pc' (S last).
Hypothesis B : block pc i ex last (jump_target x') w u b.
Hypothesis Hagree : forall f, agree f (ex f) (runs pc' i x' f).
Hypothesis Hflags : (w = true -> has_flag (op x') CL_OPF_MVW = true) /\
  has_flag (op x') CL_OPF_UNCOND = u /\ branches (op x') = b.

Let HP : pattern_ok (pool:=pool) pc pc' P (fun j => j =? i).
Proof. rewrite <- Hpool. by eapply ab_pattern. Qed.

Lemma fused_lands f : lands_ok (landings (rest f)) (runs pc' i x' f).
Proof. apply exec_lands_plain, A. Qed.

Section Carried.
Context (D : nat -> Prop).
Hypothesis HD : mv_dead_set (pool:=pool) (val:=val) (world:=world) pc D.
Hypothesis HC : cleanups_in (pool:=pool) pc D.

Let D' := carried P D (fun j => j = i /\ D i) (fun j => j =? i).

Lemma fused_carried t : D (skip_deleted pc t) -> ~ P (skip_deleted pc t) -> D' (skip_deleted pc' t).
Proof.
  apply (carried_on (pool:=pool)); [done..|]. intros j Hj _ ->%head_eq. right.
  rewrite (skip_stop _ _ _ (ab_head _ _ _ _ _ _ _ A)). done.
Qed.

Lemma fused_quiet : D i -> quiet (pool:=pool) pc' D' i.
Proof.
  intros Hi. destruct (blk_quiet _ _ _ _ _ _ _ _ B D HD Hi) as [Hb Hw].
  destruct Hflags as (Fw & Fu & Fb). exists x'. split_and!; [apply A| |].
  - unfold lands_of. rewrite registers_none by apply A. by eapply agree_blind.
  - destruct Hw as [[Ew Hw]|[Hn Hj]]; [left|right].
    + split; [auto|]. by eapply agree_writes.
    + split.
      * rewrite Fu, Hskip. intros Hu. apply fused_carried; auto.
      * rewrite Fb. intros Hb' t Ht. apply fused_carried; [by apply Hj|].
        apply (iso_entry _ _ _ I). by eapply ab_jump.
Qed.

(** Landing [l] of the code is outside, and carries the deadness. *)
Lemma fused_landing f l k g g' :
  registered_ok (pool:=pool) pc' f -> lands_at (landings (rest f)) l k -> same_but_mv g g' ->
  (g = g' \/ cleanup_at (landings (rest f)) l k) -> registered_ok (pool:=pool) pc' g ->
  related (pool:=pool) pc pc' P D' (l + k, g) (l + k, g').
Proof.
  intros Hr (e & He & <- & Hk) Hg Hc Hrg. split_and!; cbn; [done| |done|].
  - eapply pat_landing; [apply HP|by apply Hr|done].
  - destruct Hc as [->|(e2 & He2 & El & Hk2 & Hcl)]; [by left|right]. split; [|done].
    assert (Hcode : code_landing (pool:=pool) pc e2) by (apply (pat_old _ _ _ _ HP), Hr, He2).
    assert (E0 : k = 0).
    { destruct Hcode as (j & y & _ & Hin). pose proof (cleanup_entries _ _ _ _ Hin Hcl). lia. }
    rewrite E0, Nat.add_0_r, <- El. apply fused_carried; [by apply HC|].
    pose proof (pat_landing _ _ _ _ HP e2 0) as Ho. rewrite Nat.add_0_r in Ho. apply Ho; [by apply Hr|lia].
Qed.

Lemma fused_matches f : registered_ok (pool:=pool) pc' f ->
  matches pc pc' (related (pool:=pool) pc pc' P D') (distance pc) (i, f) (i, f).
Proof.
  intros Hr. destruct (blk_run _ _ _ _ _ _ _ _ B f) as [n E].
  assert (E' : run 1 pc' (i, f) = arrive (S i) (jump_target x') (runs pc' i x' f)).
  { cbn [run]. unfold step. cbn [fst snd]. destruct (ab_head _ _ _ _ _ _ _ A) as [Hx' Hd'].
    rewrite (skip_stop _ _ _ (conj Hx' Hd')), Hx'. fold (runs pc' i x' f). unfold arrive.
    destruct (runs pc' i x' f); try done. by destruct (jump_target x'). }
  assert (Hsub : forall g ls, ls ⊆ landings (rest f) -> landings (rest g) = ls -> registered_ok (pool:=pool) pc' g).
  { intros g ls Hs <- e He. by apply Hr, Hs. }
  pose proof (agree_sim _ _ _ (Hagree f)) as Hsim. pose proof (agree_stays _ _ _ (Hagree f)) as Hst.
  pose proof (blk_lands _ _ _ _ _ _ _ _ B f) as Hl.
  destruct (ex f) as [g|g|l k g|r|] eqn:E1.
  - destruct Hst as [Est|[[] _]]. rewrite <- Est in E'. right; right.
    exists n, 1, (S last, g), (S i, g). split_and!; [done|done| |lia].
    split_and!; cbn; [by rewrite Hskip|done|by eapply Hsub|by left].
  - destruct Hst as [Est|[[] _]]. rewrite <- Est in E'. cbn in E, E'.
    destruct (jump_target x') as [t|] eqn:Ht; [|by left; exists (S n)]. right; right.
    exists n, 1, (t, g), (t, g). split_and!; [done|done| |lia].
    split_and!; cbn; [done| |by eapply Hsub|by left].
    apply (iso_entry _ _ _ I). by eapply (ab_jump _ _ _ _ _ _ _ A).
  - destruct (runs pc' i x' f) as [g'|g'|l' k' g'|r'|]; try done. cbn in Hsim.
    destruct Hsim as (-> & -> & Hg & Hc). destruct Hl as [Hla Hls]. right; right.
    exists n, 1, (l' + k', g), (l' + k', g'). split_and!; [done|done| |lia].
    eapply fused_landing; [done..|]. by eapply Hsub.
  - destruct (runs pc' i x' f) as [g'|g'|l' k' g'|r'|]; try done. cbn in Hsim. subst r'.
    right; left. by exists (S n), 1, r.
  - by left; exists (S n).
Qed.

End Carried.

Lemma fused_refines :
  cleanups_mv_dead (pool:=pool) (val:=val) (world:=world) pc ->
  refines (val:=val) (world:=world) pc pc' /\ cleanups_mv_dead (pool:=pool) (val:=val) (world:=world) pc'.
Proof.
  apply (local_simulation pc pc' P (fun j => j =? i)); [done|]. intros D HD HC.
  exists (fun j => j = i /\ D i). split_and!.
  - intros j [-> Hi]. by apply fused_quiet.
  - intros j Hj _ ->%head_eq. right. rewrite (skip_stop _ _ _ (ab_head _ _ _ _ _ _ _ A)). done.
  - intros j x f _ _ ->%head_eq Hr. by apply fused_matches.
Qed.

End Step.

End Blocks.

(** ** The fused opcodes *)

(** The operand length of an opcode that may come before the last member. *)
Definition head_len (a : opcode) : option nat :=
  if registers a || branches a || has_flag a CL_OPF_UNCOND || negb (cl_opnd_jrel_pos (opcode_operands a) =? 0)
  then None else cl_opnd_len (opcode_operands a).

(** What the tables make of [heads] followed by [b]: the opcode [o], with
    [extra] bytes of its own. *)
Definition fits (heads : list opcode) (b o : opcode) (extra : nat) : bool :=
  match mapM head_len heads, cl_opnd_len (opcode_operands b), cl_opnd_len (opcode_operands o) with
  | Some ns, Some nb, Some no => no =? extra + sum_list ns + nb
  | _, _, _ => false
  end && negb (registers b || registers o)
  && eqb (cl_opnd_jrel_pos (opcode_operands o) =? 0) (cl_opnd_jrel_pos (opcode_operands b) =? 0)
  && eqb (has_flag o CL_OPF_UNCOND) (has_flag b CL_OPF_UNCOND)
  && eqb (branches o) (branches b)
  && implb (existsb (fun a => has_flag a CL_OPF_MVW) heads || has_flag b CL_OPF_MVW) (has_flag o CL_OPF_MVW).

Lemma fused_fits a b o : peep_fused_opcode a b = Some o -> fits [a] b o 0 = true.
Proof. destruct a; try done; destruct b; try done; by intros [= <-]. Qed.

Lemma fused3_fits a b c o : peep_fused_opcode3 a b c = Some o -> fits [a; b] c o 0 = true.
Proof. destruct a; try done; destruct b; try done; destruct c; try done; by intros [= <-]. Qed.

Lemma cmp_br_fits a b k : peep_cmp_br_kind a b = Some k -> fits [a] b OP_CMP_BR 1 = true.
Proof. destruct a; try done; destruct b; done. Qed.

(** An instruction ahead that may come before the last member. *)
Record is_head (pc : PeepCode) (j : nat) (x : PeepInsn) : Prop := {
  ih_live : live_at pc j x;
  ih_plain : plain x;
  ih_len : cl_opnd_len (opcode_operands (op x)) = Some (length (body x));
  ih_own : own_len x = length (body x);
  ih_size : raw_len x = S (length (body x));
  ih_registers : registers (op x) = false;
  ih_branches : branches (op x) = false;
  ih_pinned : pinned x = false;
  ih_falls : has_flag (op x) CL_OPF_UNCOND = false;
  ih_jump : jump_target x = None }.

Lemma ahead_sized pc i j x n :
  fusing pc i -> i <= j -> live_at pc j x -> cl_opnd_len (opcode_operands (op x)) = Some n ->
  plain x /\ n = length (body x) /\ own_len x = length (body x) /\ raw_len x = S (length (body x)).
Proof.
  intros Z Hj Hl Hn. pose proof (fz_tail _ _ Z j x Hj (proj1 Hl)) as Hp.
  destruct (fz_code _ _ Z j x Hl) as [H1 H2 _ _]. rewrite (plain_operands pc j x) in H1, H2 by (done || apply Hl).
  rewrite Hn in H2. split_and!; [done|done| |done]. by apply (fz_own _ _ Z j).
Qed.

Lemma head_intro pc i j x n :
  fusing pc i -> i <= j -> live_at pc j x -> head_len (op x) = Some n -> is_head pc j x /\ n = length (body x).
Proof.
  intros Z Hj Hl H. unfold head_len in H.
  destruct (registers (op x)) eqn:H1; [done|]. destruct (branches (op x)) eqn:H2; [done|].
  destruct (has_flag (op x) CL_OPF_UNCOND) eqn:H3; [done|]. cbn [orb] in H.
  destruct (cl_opnd_jrel_pos (opcode_operands (op x)) =? 0) eqn:H4; [|done]. cbn [negb] in H.
  destruct (ahead_sized pc i j x n Z Hj Hl H) as (Hp & -> & Ho & Hs). split; [|done]. split; try done.
  { destruct (pinned x) eqn:Ep; [|done]. destruct (fz_pinned _ _ Z j x (proj1 Hl) Ep) as [_ Eo].
    by rewrite Eo in H2. }
  destruct (jump_target x) eqn:Ej; [|done]. destruct (fz_code _ _ Z j x Hl) as [_ _ Hjump _].
  rewrite Ej in Hjump. destruct (proj2 Hjump); [eauto|lia].
Qed.


Lemma fits_facts heads b o extra :
  fits heads b o extra = true -> exists ns nb,
    mapM head_len heads = Some ns /\ cl_opnd_len (opcode_operands b) = Some nb /\
    cl_opnd_len (opcode_operands o) = Some (extra + sum_list ns + nb) /\
    registers b = false /\ registers o = false /\
    (cl_opnd_jrel_pos (opcode_operands o) <> 0 <-> cl_opnd_jrel_pos (opcode_operands b) <> 0) /\
    (existsb (fun a => has_flag a CL_OPF_MVW) heads || has_flag b CL_OPF_MVW = true -> has_flag o CL_OPF_MVW = true) /\
    has_flag o CL_OPF_UNCOND = has_flag b CL_OPF_UNCOND /\ branches o = branches b.
Proof.
  unfold fits. rewrite !andb_true_iff, !eqb_true_iff.
  intros (((((H1 & H2) & H3) & H4) & H5) & H6).
  destruct (mapM head_len heads) as [ns|]; [|done]. destruct (cl_opnd_len (opcode_operands b)) as [nb|]; [|done].
  destruct (cl_opnd_len (opcode_operands o)) as [no|]; [|done]. apply Nat.eqb_eq in H1 as ->.
  apply negb_true_iff, orb_false_iff in H2 as [? ?]. exists ns, nb. split_and!; try done.
  - destruct (cl_opnd_jrel_pos (opcode_operands o)), (cl_opnd_jrel_pos (opcode_operands b)); done.
  - intros E. by rewrite E in H6.
Qed.

(** The head as set_op or set_cmp_br leaves it. *)
Record renamed (a a1 : PeepInsn) (o : opcode) (extra : list Z) : Prop := {
  rn_op : op a1 = o;
  rn_synth : option_list (synth a1) = extra;
  rn_len : raw_len a1 = length extra + raw_len a;
  rn_raw : raw a1 = raw a;
  rn_own : own_len a1 = own_len a;
  rn_jump : jump_target a1 = jump_target a;
  rn_same : deleted a1 = deleted a /\ target a1 = target a /\ pinned a1 = pinned a }.

Lemma renamed_op a o : synth a = None -> renamed a (set_op o a) o [].
Proof. intros H. split; cbn; rewrite ?H; done. Qed.

Lemma renamed_cmp_br a k : renamed a (set_cmp_br k a) OP_CMP_BR [k].
Proof. split; cbn; try done. lia. Qed.

(** The last member, as fits wants it. *)
Lemma last_sized pc i j y n :
  fusing pc i -> i <= j -> live_at pc j y -> cl_opnd_len (opcode_operands (op y)) = Some n ->
  plain y /\ n = length (body y) /\ own_len y = length (body y) /\
  (cl_opnd_jrel_pos (opcode_operands (op y)) <> 0 <-> is_Some (jump_target y)) /\
  (forall t, jump_target y = Some t -> t < count pc /\ entry pc t).
Proof.
  intros Z Hj Hl Hn. destruct (ahead_sized pc i j y n Z Hj Hl Hn) as (Hp & E1 & E2 & _).
  destruct (fz_code _ _ Z j y Hl) as [_ _ H3 H4]. split_and!; try done.
  intros t Ht. split; [by apply H4|]. left. eauto.
Qed.

Section Pair.
Context (pc : PeepCode) (i bi : nat) (a b : PeepInsn) (f : PeepInsn -> PeepInsn) (o : opcode) (extra : list Z).
Hypothesis Z : fusing pc i.
Hypothesis Ha : live_at pc i a.
Hypothesis Hb : next_unjoined pc i = Some (bi, b).
Hypothesis Hf : renamed a (f a) o extra.
Hypothesis Hfits : fits [op a] (op b) o (length extra) = true.

Let pc' := peep_absorb (upd i f pc) i i bi b.
Let x' := chain_to bi (absorb_head b (f a)).

Lemma pair_lookup j :
  insns pc' !! j = if decide (j = bi) then Some (absorbed b) else if decide (j = i) then Some x' else insns pc !! j.
Proof.
  destruct (next_unjoined_spec _ _ _ _ Hb) as ([Hlb _] & Hlt & _). destruct Ha as [Hla _].
  unfold pc', peep_absorb. rewrite !lookup_upd. repeat case_decide; subst; try lia; try done;
    rewrite ?Hlb, ?Hla; done.
Qed.

Lemma pair_facts : exists nb, is_head pc i a /\ plain b /\ nb = length (body b) /\ own_len b = length (body b) /\
  cl_opnd_len (opcode_operands (op b)) = Some nb /\
  cl_opnd_len (opcode_operands o) = Some (length extra + length (body a) + nb).
Proof.
  destruct (fits_facts _ _ _ _ Hfits) as (ns & nb & Hns & Hnb & Hno & _).
  destruct (next_unjoined_spec _ _ _ _ Hb) as (Hlb & Hlt & _).
  cbn in Hns. destruct (head_len (op a)) as [na|] eqn:Hna; [|done]. cbn in Hns. injection Hns as <-.
  destruct (head_intro pc i i a na Z) as [Hh ->]; [done..|].
  destruct (last_sized pc i bi b nb Z) as (Hp & -> & Ho & _); [lia|done..|].
  exists (length (body b)). split_and!; try done. rewrite Hno. cbn. f_equal. lia.
Qed.

Lemma pair_operands : operand_bytes (insns pc') i x' = extra ++ body a ++ body b.
Proof.
  destruct pair_facts as (nb & Hh & Hpb & _).
  destruct (next_unjoined_spec _ _ _ _ Hb) as ([Hlb _] & Hlt & _).
  unfold operand_bytes. f_equal; [apply (rn_synth _ _ _ _ Hf)|].
  assert (Hn : length (insns pc') = length (insns pc)) by (unfold pc', peep_absorb; cbn; by rewrite !length_alter).
  apply lookup_lt_Some in Hlb. rewrite Hn. destruct (length (insns pc)) as [|[|n]] eqn:En; [lia..|].
  cbn [member_bytes]. rewrite !pair_lookup, decide_False, !decide_True by lia.
  cbn [fused_with own_len raw x' chain_to absorb_head].
  rewrite (rn_own _ _ _ _ Hf), (rn_raw _ _ _ _ Hf). fold (body a). f_equal.
  rewrite pair_lookup, decide_True by done. cbn. fold (body b). destruct Hpb as [-> _]. apply app_nil_r.
Qed.

Lemma pair_absorbs : absorbs pc pc' i bi (fun k => k = bi) a x'.
Proof.
  destruct pair_facts as (nb & Hh & Hpb & Enb & Eob & Hnb & Hno).
  destruct (fits_facts _ _ _ _ Hfits) as (_ & _ & _ & _ & _ & Hrb & Hro & Hj & _).
  destruct (next_unjoined_spec _ _ _ _ Hb) as ([Hlb Hdb] & Hlt & _). pose proof Ha as [Hla Hda].
  destruct (last_sized pc i bi b nb Z) as (_ & _ & _ & Hjb & Htb); [lia|by split|done|].
  destruct (rn_same _ _ _ _ Hf) as (Hd & Ht & Hp).
  assert (Ex : insns pc' !! i = Some x') by (by rewrite pair_lookup, decide_False, decide_True by lia).
  assert (Ej : jump_target x' = jump_target b).
  { cbn. rewrite (rn_jump _ _ _ _ Hf), (ih_jump _ _ _ Hh). by destruct (jump_target b). }
  assert (Ec : length (insns pc') = length (insns pc)) by (unfold pc', peep_absorb; cbn; by rewrite !length_alter).
  split.
  - done.
  - done.
  - done.
  - split; [done|]. cbn. congruence.
  - done.
  - done.
  - apply Hh.
  - cbn. by rewrite (rn_op _ _ _ _ Hf).
  - rewrite Ej. apply Htb.
  - by intros k [= <-].
  - intros j Hne HP. by rewrite pair_lookup, !decide_False.
  - intros k ->. exists b, (absorbed b). rewrite pair_lookup, decide_True by done. split_and!; try done.
    cbn. destruct Hpb as [-> _]. done.
  - intros k ->. lia.
  - done.
  - split; rewrite ?pair_operands, ?Ej.
    + cbn. rewrite (rn_len _ _ _ _ Hf), (ih_size _ _ _ Hh), Eob, !length_app. lia.
    + cbn [op x' chain_to absorb_head]. rewrite (rn_op _ _ _ _ Hf), Hno, !length_app. lia.
    + cbn [op x' chain_to absorb_head]. rewrite (rn_op _ _ _ _ Hf), Hj. done.
    + intros t Et. unfold count. rewrite Ec. by apply Htb.
Qed.

Lemma pair_skip : skip_deleted pc' (S i) = skip_deleted pc' (S bi).
Proof.
  destruct (next_unjoined_spec _ _ _ _ Hb) as (_ & _ & Hs & _).
  rewrite (skip_more pc pc' (S i)).
  - rewrite Hs. apply skip_step. exists (absorbed b). by rewrite pair_lookup, decide_True.
  - eapply ab_deleted; [|apply pair_absorbs]. eapply isolated_one; [apply Z|done..].
Qed.

End Pair.

Section Triple.
Context (pc : PeepCode) (i bi ci : nat) (a b c : PeepInsn) (o : opcode).
Hypothesis Z : fusing pc i.
Hypothesis Ha : live_at pc i a.
Hypothesis Hb : next_unjoined pc i = Some (bi, b).
Hypothesis Hc : next_unjoined pc bi = Some (ci, c).
Hypothesis Hfits : fits [op a; op b] (op c) o 0 = true.

Let pc' := peep_absorb (peep_absorb (upd i (set_op o) pc) i i bi b) i bi ci c.
Let x' := absorb_head c (chain_to bi (absorb_head b (set_op o a))).

Lemma triple_lookup j :
  insns pc' !! j = if decide (j = ci) then Some (absorbed c)
                   else if decide (j = bi) then Some (chain_to ci (absorbed b))
                   else if decide (j = i) then Some x' else insns pc !! j.
Proof.
  destruct (next_unjoined_spec _ _ _ _ Hb) as ([Hlb _] & Hlt & _).
  destruct (next_unjoined_spec _ _ _ _ Hc) as ([Hlc _] & Hlt2 & _). destruct Ha as [Hla _].
  unfold pc', peep_absorb. rewrite !lookup_upd. repeat case_decide; subst; try lia; try done;
    rewrite ?Hlb, ?Hla, ?Hlc; done.
Qed.

Lemma triple_facts : exists nc, is_head pc i a /\ is_head pc bi b /\ plain c /\ nc = length (body c) /\
  own_len c = length (body c) /\ cl_opnd_len (opcode_operands (op c)) = Some nc /\
  cl_opnd_len (opcode_operands o) = Some (length (body a) + (length (body b) + nc)).
Proof.
  destruct (fits_facts _ _ _ _ Hfits) as (ns & nc & Hns & Hnc & Hno & _).
  destruct (next_unjoined_spec _ _ _ _ Hb) as (Hlb & Hlt & _).
  destruct (next_unjoined_spec _ _ _ _ Hc) as (Hlc & Hlt2 & _).
  cbn in Hns. destruct (head_len (op a)) as [na|] eqn:Hna; [|done].
  cbn in Hns. destruct (head_len (op b)) as [nb|] eqn:Hnb; [|done]. cbn in Hns. injection Hns as <-.
  destruct (head_intro pc i i a na Z) as [Hh ->]; [done..|].
  destruct (head_intro pc i bi b nb Z) as [Hh2 ->]; [lia|done..|].
  destruct (last_sized pc i ci c nc Z) as (Hp & -> & Ho & _); [lia|done..|].
  exists (length (body c)). split_and!; try done. rewrite Hno. cbn. f_equal. lia.
Qed.

Lemma triple_operands : operand_bytes (insns pc') i x' = body a ++ body b ++ body c.
Proof.
  destruct triple_facts as (nc & Hh & Hh2 & Hpc & _).
  destruct (next_unjoined_spec _ _ _ _ Hb) as ([Hlb _] & Hlt & _).
  destruct (next_unjoined_spec _ _ _ _ Hc) as ([Hlc _] & Hlt2 & _).
  unfold operand_bytes. cbn [synth x' chain_to absorb_head set_op].
  destruct (ih_plain _ _ _ Hh) as [_ ->]. change (option_list None) with (@nil BinNums.Z). cbn [app].
  assert (Hn : length (insns pc') = length (insns pc)) by (unfold pc', peep_absorb; cbn; by rewrite !length_alter).
  apply lookup_lt_Some in Hlc. rewrite Hn. destruct (length (insns pc)) as [|[|[|n]]] eqn:En; [lia..|].
  cbn [member_bytes]. rewrite !triple_lookup, !decide_False, !decide_True by lia.
  cbn [fused_with own_len raw x' chain_to absorb_head absorbed set_op]. fold (body a). f_equal.
  fold (body b). rewrite triple_lookup, decide_False, decide_True by lia. cbn [fused_with chain_to own_len raw absorbed].
  fold (body b). f_equal. rewrite triple_lookup, decide_True by done. cbn. fold (body c).
  destruct Hpc as [-> _]. apply app_nil_r.
Qed.

Lemma triple_absorbs : absorbs pc pc' i ci (fun k => k = bi \/ k = ci) a x'.
Proof.
  destruct triple_facts as (nc & Hh & Hh2 & Hpc & Enc & Eoc & Hnc & Hno).
  destruct (fits_facts _ _ _ _ Hfits) as (_ & _ & _ & _ & _ & Hrc & Hro & Hj & _).
  destruct (next_unjoined_spec _ _ _ _ Hb) as ([Hlb Hdb] & Hlt & _).
  destruct (next_unjoined_spec _ _ _ _ Hc) as ([Hlc Hdc] & Hlt2 & _). pose proof Ha as [Hla Hda].
  destruct (last_sized pc i ci c nc Z) as (_ & _ & _ & Hjc & Htc); [lia|by split|done|].
  assert (Ex : insns pc' !! i = Some x') by (by rewrite triple_lookup, !decide_False, decide_True by lia).
  assert (Ej : jump_target x' = jump_target c).
  { cbn. rewrite (ih_jump _ _ _ Hh2), (ih_jump _ _ _ Hh). by destruct (jump_target c). }
  assert (Ec : length (insns pc') = length (insns pc)) by (unfold pc', peep_absorb; cbn; by rewrite !length_alter).
  split.
  - done.
  - done.
  - done.
  - by split.
  - done.
  - done.
  - apply Hh.
  - done.
  - rewrite Ej. apply Htc.
  - intros k [= <-]. by left.
  - intros j Hne HP. by rewrite triple_lookup, !decide_False by tauto.
  - intros k [-> | ->].
    + exists b, (chain_to ci (absorbed b)). rewrite triple_lookup, decide_False, decide_True by lia.
      split_and!; try done. intros m [= <-]. split; [lia|by right].
    + exists c, (absorbed c). rewrite triple_lookup, decide_True by done. split_and!; try done.
      cbn. destruct Hpc as [-> _]. done.
  - intros k [-> | ->]; lia.
  - by right.
  - split; rewrite ?triple_operands, ?Ej.
    + cbn. rewrite (ih_size _ _ _ Hh), (ih_own _ _ _ Hh2), Eoc, !length_app. lia.
    + cbn [op x' chain_to absorb_head set_op]. rewrite Hno, !length_app. lia.
    + cbn [op x' chain_to absorb_head set_op]. by rewrite Hj.
    + intros t Et. unfold count. rewrite Ec. by apply Htc.
Qed.

Lemma triple_skip : skip_deleted pc' (S i) = skip_deleted pc' (S ci).
Proof.
  destruct (next_unjoined_spec _ _ _ _ Hb) as (_ & Hlt & Hs & _).
  destruct (next_unjoined_spec _ _ _ _ Hc) as (_ & Hlt2 & Hs2 & _).
  assert (Hdel : forall k, deleted_at pc k -> deleted_at pc' k).
  { eapply ab_deleted; [|apply triple_absorbs]. eapply isolated_two; [apply Z|done..]. }
  rewrite (skip_more pc pc' (S i)) by done. rewrite Hs.
  rewrite (skip_step pc' bi).
  - rewrite (skip_more pc pc' (S bi)) by done. rewrite Hs2. apply skip_step.
    exists (absorbed c). by rewrite triple_lookup, decide_True.
  - exists (chain_to ci (absorbed b)). by rewrite triple_lookup, decide_False, decide_True by lia.
Qed.

End Triple.

(** ** The pass *)

Section Pass.
Context {val world result : Type} {pool : option (list pool_entry)} {V : VM val world result}
  {L : VMLaws pool V}.

Abbreviation frame := (frame val world).
Context {good : Prop}.
Abbreviation refines := (gives (val:=val) (world:=world) (good:=good)).

(** The calls that may be fused with the GLOAD before them do not look at the
    count that GLOAD would have set. *)
Definition gload_calls_ok (pc : PeepCode) (i : nat) : Prop :=
  forall j x n y, i <= j -> live_at pc j x -> op x = OP_GLOAD -> next_unjoined pc j = Some (n, y) ->
    op y = OP_CALL_GLOBAL -> call_ignores_count (val:=val) (world:=world) (result:=result) (body y).

Record fuse_state (pc : PeepCode) (i : nat) : Prop := {
  fs_fusing : fusing pc i;
  fs_pool : constants pc = pool;
  fs_dead : good -> cleanups_mv_dead (pool:=pool) (val:=val) (world:=world) pc;
  fs_calls : good -> gload_calls_ok pc i }.

Lemma fusing_le pc i j : fusing pc i -> i <= j -> fusing pc j.
Proof.
  intros [] Hle. split; auto.
  - intros k x Hk. apply fz_tail0. lia.
  - intros k x m Hx Hm. destruct (fz_chain0 k x m Hx Hm). lia.
  - intros k x Hk. apply fz_own0. lia.
Qed.

Lemma fuse_state_le pc i j : fuse_state pc i -> i <= j -> fuse_state pc j.
Proof.
  intros [Z Hp HC Hg] Hle. split; try done; [by eapply fusing_le|].
  intros g k x n y Hk. apply (Hg g). lia.
Qed.

(** What comes after the last member is found as before. *)
Lemma next_unjoined_after pc pc' last j :
  (forall k, last < k -> insns pc' !! k = insns pc !! k) -> last < j -> next_unjoined pc' j = next_unjoined pc j.
Proof.
  intros E Hj. assert (Ed : drop (S j) (insns pc') = drop (S j) (insns pc)).
  { apply list_eq. intros k. rewrite !lookup_drop. apply E. lia. }
  unfold next_unjoined, peep_next_live_unjoined. rewrite Ed. by rewrite E by lia.
Qed.

Section Apply.
Context (pc pc' : PeepCode) (i last : nat) (P : nat -> Prop) (a x' : PeepInsn).
Hypothesis S0 : fuse_state pc i.
Hypothesis I : isolated pc i P.
Hypothesis A : absorbs pc pc' i last P a x'.

Lemma absorbed_state :
  (good -> cleanups_mv_dead (pool:=pool) (val:=val) (world:=world) pc') -> fuse_state pc' (S last).
Proof.
  intros HC. destruct S0 as [Z Hp _ Hg]. split.
  - by eapply ab_fusing.
  - by rewrite (ab_constants _ _ _ _ _ _ _ A).
  - done.
  - intros g. pose proof (ab_range _ _ _ _ _ _ _ A) as Hr. pose proof (Hr last (ab_last _ _ _ _ _ _ _ A)).
    assert (E : forall k, last < k -> insns pc' !! k = insns pc !! k).
    { intros k Hk. apply (ab_other _ _ _ _ _ _ _ A); [lia|]. intros Hpk%Hr. lia. }
    intros j x n y Hj [Hx Hd] Ho Hn. rewrite (next_unjoined_after pc pc' last) in Hn by (done || lia).
    apply (Hg g j x n y); [lia| |done|done]. split; [|done]. by rewrite <- E by lia.
Qed.

End Apply.

Lemma gload_call_is a b o :
  peep_fused_opcode a b = Some o -> o = OP_GLOAD_CALL_GLOBAL -> a = OP_GLOAD /\ b = OP_CALL_GLOBAL.
Proof. destruct a; try done; destruct b; try done; intros [= <-]; done. Qed.

(** A pair that fits and agrees is fused soundly. *)
Lemma pair_correct pc i bi a b f o extra :
  fuse_state pc i -> live_at pc i a -> next_unjoined pc i = Some (bi, b) -> renamed a (f a) o extra ->
  fits [op a] (op b) o (length extra) = true ->
  (good -> forall g, agree g (seq (exec (op a) (body a) None g) (exec (op b) (body b) (jump_target b)))
                   (exec o (extra ++ body a ++ body b) (jump_target b) g)) ->
  let pc' := peep_absorb (upd i f pc) i i bi b in
  fuse_state pc' (S bi) /\ refines pc pc'.
Proof.
  intros S0 Ha Hb Hf Hfits Hag pc'. pose proof S0 as [Z Hp HC _].
  pose proof (pair_absorbs pc i bi a b f o extra Z Ha Hb Hf Hfits) as A.
  pose proof (pair_operands pc i bi a b f o extra Z Ha Hb Hf Hfits) as Eops.
  destruct (pair_facts pc i bi a b o extra Z Ha Hb Hfits) as (nb & Hh & Hpb & _).
  destruct (fits_facts _ _ _ _ Hfits) as (_ & _ & _ & _ & _ & Hrb & _ & _ & Hw & Hu & Hbr).
  destruct (next_unjoined_spec _ _ _ _ Hb) as (Hlb & Hlt & Hs & _).
  assert (I : isolated pc i (fun k => k = bi)) by (eapply isolated_one; [apply Z|done..]).
  assert (Ej : jump_target (chain_to bi (absorb_head b (f a))) = jump_target b).
  { cbn. rewrite (rn_jump _ _ _ _ Hf), (ih_jump _ _ _ Hh). by destruct (jump_target b). }
  assert (HG : good -> PeepSim.refines (val:=val) (world:=world) pc pc' /\
                       cleanups_mv_dead (pool:=pool) (val:=val) (world:=world) pc').
  2: { split; [|intros g; by apply HG]. eapply absorbed_state; try done. intros g. by apply HG. }
  intros g0. apply (fused_refines (pool:=pool) (val:=val) (world:=world) (result:=result) pc pc' i bi (fun k => k = bi) a
    (chain_to bi (absorb_head b (f a))) (fun g => seq (exec (op a) (body a) None g) (exec (op b) (body b) (jump_target b)))
    (has_flag (op a) CL_OPF_MVW || has_flag (op b) CL_OPF_MVW) (has_flag (op b) CL_OPF_UNCOND) (branches (op b)));
    try done.
  - pose proof (skip_ge pc (S bi)). lia.
  - by eapply pair_skip.
  - rewrite Ej. apply block_cons; try apply Hh. rewrite Hs. by apply block_single.
  - intros g. unfold runs. unfold pc'. rewrite Eops, Ej. cbn [op chain_to absorb_head]. rewrite (rn_op _ _ _ _ Hf). by apply Hag.
  - cbn [op chain_to absorb_head]. rewrite (rn_op _ _ _ _ Hf). split_and!; [|done|done].
    cbn in Hw. by rewrite orb_false_r in Hw.
  - by apply HC.
Qed.

Lemma triple_correct pc i bi ci a b c o :
  fuse_state pc i -> live_at pc i a -> next_unjoined pc i = Some (bi, b) -> next_unjoined pc bi = Some (ci, c) ->
  peep_fused_opcode3 (op a) (op b) (op c) = Some o ->
  let pc' := peep_absorb (peep_absorb (upd i (set_op o) pc) i i bi b) i bi ci c in
  fuse_state pc' (S ci) /\ refines pc pc'.
Proof.
  intros S0 Ha Hb Hc Ho pc'. pose proof S0 as [Z Hp HC _]. pose proof (fused3_fits _ _ _ _ Ho) as Hfits.
  pose proof (triple_absorbs pc i bi ci a b c o Z Ha Hb Hc Hfits) as A.
  pose proof (triple_operands pc i bi ci a b c o Z Ha Hb Hc Hfits) as Eops.
  destruct (triple_facts pc i bi ci a b c o Z Ha Hb Hc Hfits) as (nc & Hh & Hh2 & Hpc & _).
  destruct (fits_facts _ _ _ _ Hfits) as (_ & _ & _ & _ & _ & Hrc & _ & _ & Hw & Hu & Hbr).
  destruct (next_unjoined_spec _ _ _ _ Hb) as (Hlb & Hlt & Hs & _).
  destruct (next_unjoined_spec _ _ _ _ Hc) as (Hlc & Hlt2 & Hs2 & _).
  assert (I : isolated pc i (fun k => k = bi \/ k = ci)) by (eapply isolated_two; [apply Z|done..]).
  set (x' := absorb_head c (chain_to bi (absorb_head b (set_op o a)))) in *.
  assert (Ej : jump_target x' = jump_target c).
  { cbn. rewrite (ih_jump _ _ _ Hh2), (ih_jump _ _ _ Hh). by destruct (jump_target c). }
  assert (HG : good -> PeepSim.refines (val:=val) (world:=world) pc pc' /\
                       cleanups_mv_dead (pool:=pool) (val:=val) (world:=world) pc').
  2: { split; [|intros g; by apply HG]. eapply absorbed_state; try done. intros g. by apply HG. }
  intros g0. apply (fused_refines (pool:=pool) (val:=val) (world:=world) (result:=result) pc pc' i ci
    (fun k => k = bi \/ k = ci) a x'
    (fun g => seq (exec (op a) (body a) None g)
                  (fun h => seq (exec (op b) (body b) None h) (exec (op c) (body c) (jump_target c))))
    (has_flag (op a) CL_OPF_MVW || (has_flag (op b) CL_OPF_MVW || has_flag (op c) CL_OPF_MVW))
    (has_flag (op c) CL_OPF_UNCOND) (branches (op c))); try done.
  - pose proof (skip_ge pc (S ci)). lia.
  - by eapply triple_skip.
  - rewrite Ej. apply block_cons; try apply Hh. rewrite Hs. apply block_cons; try apply Hh2.
    rewrite Hs2. by apply block_single.
  - intros g. unfold runs. unfold pc'. rewrite Eops, Ej. apply triple_agree; [done|apply Hh|apply Hh2].
  - split_and!; [|done|done]. cbn in Hw. by rewrite orb_false_r, <- orb_assoc in Hw.
  - by apply HC.
Qed.

Lemma fuse_at_correct pc i pc' last :
  fuse_state pc i -> fuse_at pc i = Some (pc', last) -> i <= last /\ fuse_state pc' (S last) /\ refines pc pc'.
Proof.
  intros S0 H. unfold fuse_at in H. apply bind_Some in H as (a & Hx & H).
  apply require_Some in H as [Hd%negb_true_iff H]. apply bind_Some in H as ([bi b] & Hb & H). cbn [fst snd] in H.
  pose proof (conj Hx Hd : live_at pc i a) as Ha. pose proof S0 as [Z _ _ Hg].
  destruct (next_unjoined_spec _ _ _ _ Hb) as (Hlb & Hlt & _).
  destruct (fuse_triple pc i a bi b) as [[q l]|] eqn:E3.
  - injection H as -> ->. unfold fuse_triple in E3. apply bind_Some in E3 as ([ci c] & Hc & E3).
    apply bind_Some in E3 as (o & Ho & E3). cbn [fst snd] in *. injection E3 as <- <-.
    destruct (next_unjoined_spec _ _ _ _ Hc) as (_ & Hlt2 & _). split; [lia|]. by apply (triple_correct pc i bi ci a b c o).
  - clear E3. unfold fuse_pair in H. destruct (peep_fused_opcode (op a) (op b)) as [o|] eqn:Ho.
    + injection H as <- <-. split; [lia|].
      destruct (fz_tail _ _ Z i a (le_n _) Hx) as [_ Hsyn].
      pose proof (fused_fits _ _ _ Ho) as Hfits.
      destruct (pair_facts pc i bi a b o [] Z Ha Hb Hfits) as (nb & Hh & Hpb & _ & _ & Hnb & _).
      destruct (last_sized pc i bi b nb Z) as (_ & _ & _ & Hj & _); [lia|done|done|].
      apply (pair_correct _ _ _ a b _ o []); try done; [by apply renamed_op|]. intros g0 g. cbn [app].
      apply pair_agree; [done|apply Hh| |].
      * intros E. destruct (jump_target b); [|done]. destruct (proj2 Hj); eauto.
      * intros Eo. destruct (gload_call_is _ _ _ Ho Eo). by eapply (Hg g0 i a bi b).
    + apply bind_Some in H as (k & Hk & H). injection H as <- <-. split; [lia|].
      pose proof (cmp_br_fits _ _ _ Hk) as Hfits.
      destruct (pair_facts pc i bi a b OP_CMP_BR [k] Z Ha Hb Hfits) as (nb & Hh & _).
      apply (pair_correct _ _ _ a b _ OP_CMP_BR [k]); try done; [apply renamed_cmp_br|]. intros _ g.
      assert (Hnil : body a = []).
      { pose proof (ih_len _ _ _ Hh) as Hl. apply nil_length_inv. destruct (op a); try done; cbn in Hl; congruence. }
      rewrite Hnil. cbn [app]. by apply cmp_br_agree.
Qed.

Lemma fuse_loop_correct fuel pc i n :
  fuse_state pc i -> (exists j, fuse_state (fuse_loop fuel pc i n).1 j) /\ refines pc (fuse_loop fuel pc i n).1.
Proof.
  revert pc i n. induction fuel as [|fuel IH]; intros pc i n S0; cbn [fuse_loop]; [by split; [eexists|]|].
  destruct (i <? count pc); [|by split; [eexists|]].
  destruct (fuse_at pc i) as [[pc' last]|] eqn:E.
  - destruct (fuse_at_correct _ _ _ _ S0 E) as (Hle & S1 & R1).
    destruct (IH pc' (S last) (S n) S1) as [? R2]. split; [done|by etrans].
  - apply IH. eapply fuse_state_le; [done|lia].
Qed.

(** The pass over marked code. *)
Lemma peep_fuse_state enabled pc :
  marked (pool:=pool) (val:=val) (world:=world) (good:=good) pc ->
  (good -> enabled = true -> gload_calls_ok pc 0) ->
  (exists j, fusing (peep_fuse enabled pc).1 j) /\ constants (peep_fuse enabled pc).1 = pool /\
  refines pc (peep_fuse enabled pc).1.
Proof.
  intros [[W Hp HC] M] Hg. pose proof (fusing_start pc W M) as Z. unfold peep_fuse.
  destruct enabled; [|by split_and!; [exists 0| |]].
  destruct (fuse_loop_correct (S (count pc)) pc 0 0) as [[j []] R]; [by split; auto|eauto].
Qed.

(** The calls the fusion may meet, in the code the rounds leave. *)
Definition fusible_calls_ok (pc : PeepCode) : Prop :=
  gload_calls_ok (peep_mark_targets (peep_rounds 8 pc 0).1) 0.

Lemma peep_rewrite_state fuse pc :
  sound (pool:=pool) (val:=val) (world:=world) (good:=good) pc -> (good -> fuse = true -> fusible_calls_ok pc) ->
  (exists j, fusing (peep_rewrite fuse pc).1 j) /\ constants (peep_rewrite fuse pc).1 = pool /\
  refines pc (peep_rewrite fuse pc).1.
Proof.
  intros S0 Hg. unfold peep_rewrite. destruct (peep_rounds_correct 8 pc 0 S0) as [S1 R1].
  unfold fusible_calls_ok in Hg. destruct (peep_rounds 8 pc 0) as [pc1 total]. cbn [fst] in *.
  destruct (mark_targets_correct pc1 S1) as [M R2].
  destruct (peep_fuse_state fuse (peep_mark_targets pc1) M Hg) as (Z & Hp & R3).
  destruct (peep_fuse fuse (peep_mark_targets pc1)) as [pc2 n]. cbn [fst] in *.
  split_and!; [done|done|]. etrans; [done|]. by etrans.
Qed.

End Pass.
