(* ===== verification/PeepEncode.v ===== *)
(** * What the encoder emits

    The output of peep_encode decodes to the live instructions of the list in
    order, their jumps leading to the instructions the list's jumps lead to
    ([encode_decode]); it is no longer than the code the list was decoded
    from, so it fits the buffer it replaces. *)

From Stdlib Require Import ZArith Lia ZifyBool.
From stdpp Require Import base option list sets.
From S2P Require Import Prelude Opcodes PeepCode Peephole Machine PeepSim PeepWf PeepRules PeepDecode PeepFusion.

(** ** Bytes of an offset *)

Lemma i32_bytes_range v b : b ∈ i32_bytes v -> (0 <= b < 256)%Z.
Proof.
  intros Hb. assert (H : exists w, b = Z.land w 255).
  { unfold i32_bytes in Hb. rewrite !elem_of_cons, elem_of_nil in Hb.
    destruct Hb as [->|[->|[->|[->|[]]]]]; eauto. }
  destruct H as [w ->]. change 255%Z with (Z.ones 8). rewrite Z.land_ones by lia. apply Z.mod_pos_bound. lia.
Qed.

(** Byte [k] of the offset, put back where it was. *)
Lemma byte_back_bit v k n : (0 <= k)%Z -> (0 <= n)%Z ->
  Z.testbit (Z.shiftl (Z.land (Z.shiftr v k) 255) k) n = (k <=? n)%Z && (n <? k + 8)%Z && Z.testbit v n.
Proof.
  intros Hk Hn. rewrite Z.shiftl_spec by done. destruct (k <=? n)%Z eqn:E; cbn [andb].
  - rewrite Z.land_spec, Z.shiftr_spec by lia. change 255%Z with (Z.ones 8).
    rewrite Z.testbit_ones by lia. replace (n - k + k)%Z with n by lia.
    replace (0 <=? n - k)%Z with true by lia. replace (n - k <? 8)%Z with (n <? k + 8)%Z by lia.
    cbn [andb]. apply andb_comm.
  - apply Z.testbit_neg_r. lia.
Qed.

Lemma read_i32_bytes v l : (- 2 ^ 31 <= v < 2 ^ 31)%Z -> peep_read_i32 (i32_bytes v ++ l) = v.
Proof.
  intros Hv. unfold peep_read_i32, i32_bytes, byte_at. cbn [app nth].
  transitivity (i32 (u32 v)).
  - f_equal. apply Z.bits_inj'. intros n Hn. unfold u32. rewrite <- !Z.land_ones by lia.
    rewrite !Z.lor_spec, !(Z.land_spec _ (Z.ones 32)), Z.testbit_ones by lia.
    rewrite !byte_back_bit by lia. change (Z.land v 255) with (Z.land v (Z.ones 8)).
    rewrite Z.land_spec, Z.testbit_ones by lia. destruct (Z.testbit v n); lia.
  - unfold u32, i32. pose proof (Z.div_mod v (2 ^ 32)) as D.
    rewrite <- (Z.mod_add (v mod 2 ^ 32 + 2 ^ 31) (v / 2 ^ 32) (2 ^ 32)) by lia.
    replace (v mod 2 ^ 32 + 2 ^ 31 + v / 2 ^ 32 * 2 ^ 32)%Z with (v + 2 ^ 31)%Z by lia.
    rewrite Z.mod_small; lia.
Qed.

Lemma write_i32_length pos v buf : pos + 4 <= length buf -> length (peep_write_i32 pos v buf) = length buf.
Proof. intros. unfold peep_write_i32. rewrite !length_app, length_take, length_drop. cbn. lia. Qed.

Lemma write_i32_read pos v buf :
  pos + 4 <= length buf -> (- 2 ^ 31 <= v < 2 ^ 31)%Z -> peep_read_i32 (drop pos (peep_write_i32 pos v buf)) = v.
Proof.
  intros Hp Hv. unfold peep_write_i32. rewrite drop_app_length' by (rewrite length_take; lia).
  by apply read_i32_bytes.
Qed.

(** Only the four bytes of the offset change. *)
Lemma write_i32_other pos v buf i :
  pos + 4 <= length buf -> i < pos \/ pos + 4 <= i -> byte_at (peep_write_i32 pos v buf) i = byte_at buf i.
Proof.
  intros Hp Hi. unfold byte_at, peep_write_i32. destruct Hi as [Hi|Hi].
  - rewrite app_nth1 by (rewrite length_take; lia). by apply take_nth.
  - rewrite app_nth2 by (rewrite length_take; lia). rewrite length_take.
    rewrite app_nth2 by (cbn; lia). pose proof (drop_nth buf (pos + 4)) as Hd. unfold byte_at in Hd.
    rewrite Hd. f_equal. cbn [length i32_bytes]. lia.
Qed.

(** ** Positions and ranks *)

(** The bytes of the live instructions of a list. *)
Fixpoint size (l : list PeepInsn) : nat :=
  match l with
  | [] => 0
  | x :: l' => if deleted x then size l' else raw_len x + size l'
  end.

(** The new position of index [j], and its place among the live ones. *)
Definition pos_of (pc : PeepCode) (j : nat) : nat := size (take j (insns pc)).
Definition is_live (x : PeepInsn) : bool := negb (deleted x).
Definition rank (pc : PeepCode) (j : nat) : nat := length (List.filter is_live (take j (insns pc))).

Lemma assign_positions_spec p l :
  (assign_positions p l).2 = p + size l /\
  forall j, (assign_positions p l).1 !! j =
    (fun x => if deleted x then x else set_new_pos (p + size (take j l)) x) <$> l !! j.
Proof.
  revert p. induction l as [|x l IH]; intros p; cbn [assign_positions size]; [by split; [cbn; lia|]|].
  destruct (deleted x) eqn:Hd.
  - specialize (IH p). destruct (assign_positions p l) as [r q]. cbn [fst snd] in *. destruct IH as [-> Hr].
    split; [done|]. intros [|j]; cbn; [by rewrite Hd|]. rewrite Hr. by rewrite Hd.
  - specialize (IH (p + raw_len x)). destruct (assign_positions (p + raw_len x) l) as [r q].
    cbn [fst snd] in *. destruct IH as [-> Hr].
    split; [lia|]. intros [|j]; cbn; [by rewrite Hd, Nat.add_0_r|]. rewrite Hr, Hd, Nat.add_assoc. done.
Qed.

Lemma size_app l k : size (l ++ k) = size l + size k.
Proof. induction l as [|x l IH]; cbn; [done|]. rewrite IH. destruct (deleted x); lia. Qed.

Lemma pos_of_S pc j x : insns pc !! j = Some x ->
  pos_of pc (S j) = pos_of pc j + (if deleted x then 0 else raw_len x).
Proof.
  intros Hx. unfold pos_of. rewrite (take_S_r _ _ x Hx), size_app. cbn. destruct (deleted x); lia.
Qed.

Lemma pos_of_le pc i j : i <= j -> pos_of pc i <= pos_of pc j.
Proof.
  intros Hle. unfold pos_of. replace (take j (insns pc)) with (take i (insns pc) ++ take (j - i) (drop i (insns pc))).
  - rewrite size_app. lia.
  - rewrite take_drop_commute. replace (i + (j - i)) with j by lia.
    rewrite <- (take_drop i (take j (insns pc))) at 2. by rewrite take_take, Nat.min_l by lia.
Qed.

Lemma rank_S pc j x : insns pc !! j = Some x -> rank pc (S j) = rank pc j + (if deleted x then 0 else 1).
Proof.
  intros Hx. unfold rank. rewrite (take_S_r _ _ x Hx), List.filter_app, length_app. cbn.
  unfold is_live. by destruct (deleted x).
Qed.

Lemma rank_le pc i j : i <= j -> rank pc i <= rank pc j.
Proof.
  intros Hle. unfold rank. replace (take j (insns pc)) with (take i (insns pc) ++ take (j - i) (drop i (insns pc))).
  - rewrite List.filter_app, length_app. lia.
  - rewrite take_drop_commute. replace (i + (j - i)) with j by lia.
    rewrite <- (take_drop i (take j (insns pc))) at 2. by rewrite take_take, Nat.min_l by lia.
Qed.

(** The live indices from [j] on, in order. *)
Definition live_index (pc : PeepCode) (j : nat) : bool :=
  match insns pc !! j with Some x => is_live x | None => false end.
Definition lives_from (pc : PeepCode) (j : nat) : list nat :=
  List.filter (live_index pc) (seq j (count pc - j)).

Lemma live_index_iff pc j : live_index pc j = true <-> exists x, live_at pc j x.
Proof.
  unfold live_index, live_at, is_live. destruct (insns pc !! j) as [x|]; split.
  - intros H%negb_true_iff. eauto.
  - intros (y & [= ->] & ->). done.
  - done.
  - by intros (? & ? & _).
Qed.

Lemma lives_from_step pc j x : insns pc !! j = Some x ->
  lives_from pc j = if deleted x then lives_from pc (S j) else j :: lives_from pc (S j).
Proof.
  intros Hx. pose proof (lookup_lt_Some _ _ _ Hx) as Hlt. unfold lives_from, count.
  replace (length (insns pc) - j) with (S (length (insns pc) - S j)) by lia. cbn [seq List.filter].
  unfold live_index at 1, is_live. rewrite Hx. by destruct (deleted x).
Qed.

Lemma lives_from_end pc j : count pc <= j -> lives_from pc j = [].
Proof. intros. unfold lives_from. by replace (count pc - j) with 0 by lia. Qed.

Lemma lives_prefix pc j : j <= count pc ->
  exists l, lives_from pc 0 = l ++ lives_from pc j /\ length l = rank pc j.
Proof.
  induction j as [|j IH]; intros Hj; [by exists []|].
  destruct IH as (l & El & En); [lia|].
  destruct (lookup_lt_is_Some_2 (insns pc) j) as [x Hx]; [unfold count in *; lia|].
  rewrite (lives_from_step _ _ _ Hx) in El. rewrite (rank_S _ _ _ Hx).
  destruct (deleted x).
  - exists l. split; [done|lia].
  - exists (l ++ [j]). split; [by rewrite <- app_assoc|]. rewrite length_app. cbn. lia.
Qed.

(** The live instruction at [j] is number [rank j]. *)
Lemma lives_rank pc j x : live_at pc j x -> lives_from pc 0 !! rank pc j = Some j.
Proof.
  intros [Hx Hd]. pose proof (lookup_lt_Some _ _ _ Hx) as Hlt.
  destruct (lives_prefix pc j) as (l & -> & <-); [unfold count; lia|].
  rewrite lookup_app_r, Nat.sub_diag by lia. by rewrite (lives_from_step _ _ _ Hx), Hd.
Qed.

Lemma lives_elem pc j k : k ∈ lives_from pc j -> j <= k /\ exists x, live_at pc k x.
Proof.
  intros [Hin Hl]%list_elem_of_In%filter_In. apply in_seq in Hin.
  split; [lia|]. by apply live_index_iff.
Qed.

Lemma lives_sorted pc i j a b :
  lives_from pc 0 !! i = Some a -> lives_from pc 0 !! j = Some b -> i < j -> a < b.
Proof.
  intros Ha Hb Hij.
  assert (Hr : forall k c, lives_from pc 0 !! k = Some c -> rank pc c = k).
  { intros k c Hk. destruct (lives_elem pc 0 c) as [_ [x Hx]]; [by eapply list_elem_of_lookup_2|].
    pose proof (lives_rank _ _ _ Hx) as Hk'. eapply NoDup_lookup; [|done..].
    apply NoDup_ListNoDup, List.NoDup_filter, NoDup_ListNoDup, NoDup_seq. }
  apply Nat.nle_gt. intros Hle. pose proof (rank_le pc b a Hle).
  rewrite (Hr _ _ Ha), (Hr _ _ Hb) in *. lia.
Qed.

Lemma lives_length pc : length (lives_from pc 0) = rank pc (count pc).
Proof.
  destruct (lives_prefix pc (count pc)) as (l & -> & <-); [done|]. rewrite lives_from_end by done.
  by rewrite app_nil_r.
Qed.

Lemma pos_of_lt pc i j x : live_at pc i x -> i < j -> pos_of pc i + raw_len x <= pos_of pc j.
Proof.
  intros [Hx Hd] Hlt. pose proof (pos_of_S _ _ _ Hx) as E. rewrite Hd in E.
  rewrite <- E. apply pos_of_le. lia.
Qed.

(** ** The emitted bytes *)

(** The list after pass 1 of peep_encode. *)
Definition placed (pc : PeepCode) : PeepCode :=
  {| insns := (assign_positions 0 (insns pc)).1; constants := constants pc |}.

Lemma placed_lookup pc j :
  insns (placed pc) !! j =
  (fun x => if deleted x then x else set_new_pos (pos_of pc j) x) <$> insns pc !! j.
Proof. apply (proj2 (assign_positions_spec 0 (insns pc))). Qed.

Lemma placed_count pc : length (insns (placed pc)) = length (insns pc).
Proof.
  apply Nat.le_antisymm; apply Nat.nlt_ge; intros Hlt.
  - destruct (lookup_lt_is_Some_2 _ _ Hlt) as [x Hx].
    by rewrite placed_lookup, lookup_ge_None_2 in Hx.
  - pose proof (placed_lookup pc (length (insns (placed pc)))) as E.
    rewrite lookup_ge_None_2 in E by done. destruct (lookup_lt_is_Some_2 _ _ Hlt) as [x Hx]. by rewrite Hx in E.
Qed.

Lemma placed_members pc fuel j : member_bytes fuel (insns (placed pc)) j = member_bytes fuel (insns pc) j.
Proof.
  revert j. induction fuel as [|fuel IH]; intros j; cbn [member_bytes]; [done|].
  rewrite placed_lookup. destruct (insns pc !! j) as [x|]; cbn; [|done].
  destruct (deleted x); cbn; f_equal; destruct (fused_with x); auto.
Qed.

Lemma placed_operands pc j p x :
  operand_bytes (insns (placed pc)) j (set_new_pos p x) = operand_bytes (insns pc) j x.
Proof. unfold operand_bytes. rewrite placed_count, placed_members. done. Qed.

Lemma placed_skip pc t : skip_deleted (placed pc) t = skip_deleted pc t.
Proof.
  rewrite (skip_more pc (placed pc) t).
  - destruct (skip_cases pc t) as [(x & Hx & Hd)|Hn].
    + apply (skip_stop _ _ (set_new_pos (pos_of pc (skip_deleted pc t)) x)).
      split; [|done]. by rewrite placed_lookup, Hx; cbn; rewrite Hd.
    + apply skip_end. unfold count. rewrite placed_count. by apply lookup_ge_None_1.
  - intros k (x & Hx & Hd). exists x. by rewrite placed_lookup, Hx; cbn; rewrite Hd.
Qed.

(** The bytes at index [j]. *)
Definition chunk (pc : PeepCode) (j : nat) : list Z :=
  match insns pc !! j with Some x => emit_insn (placed pc) j (set_new_pos (pos_of pc j) x) | None => [] end.

Lemma emit_chunks pc : emit (placed pc) = concat (chunk pc <$> lives_from pc 0).
Proof.
  assert (H : forall n j, n = count pc - j -> concat (imap (fun k x => if deleted x then []
            else emit_insn (placed pc) (j + k) x) (drop j (insns (placed pc))))
          = concat (chunk pc <$> lives_from pc j)).
  { induction n as [|n IH]; intros j En.
    - rewrite lives_from_end, drop_ge by (rewrite ?placed_count; unfold count in *; lia). done.
    - destruct (lookup_lt_is_Some_2 (insns pc) j) as [x Hx]; [unfold count in *; lia|].
      pose proof (placed_lookup pc j) as Hp. rewrite Hx in Hp. cbn [fmap option_fmap option_map] in Hp.
      rewrite (drop_S _ _ _ Hp), (lives_from_step _ _ _ Hx). cbn [imap]. cbn [concat]. rewrite Nat.add_0_r.
      assert (E : imap ((fun k x => if deleted x then [] else emit_insn (placed pc) (j + k) x) ∘ S)
                    (drop (S j) (insns (placed pc)))
                = imap (fun k x => if deleted x then [] else emit_insn (placed pc) (S j + k) x)
                    (drop (S j) (insns (placed pc)))).
      { apply imap_ext. intros k y _. cbn. by rewrite Nat.add_succ_r. }
      rewrite E, IH by lia. destruct (deleted x) eqn:Hd; [by rewrite Hd|]. cbn. rewrite Hd.
      f_equal. unfold chunk. by rewrite Hx. }
  pose proof (H (count pc) 0) as H0. unfold emit. rewrite <- H0 by lia. by rewrite drop_0.
Qed.

(** *** Sizes *)

Section Emitted.
Context (pc : PeepCode).
Hypothesis Hcode : forall j x, live_at pc j x -> code_ok pc j x.

(** The operand bytes, and what the encoder makes of them. *)
Definition args_at (j : nat) (x : PeepInsn) : list Z := operand_bytes (insns pc) j x.

Lemma jump_fits j x : live_at pc j x -> is_Some (jump_target x) ->
  cl_opnd_jrel_pos (opcode_operands (op x)) + 4 = S (length (args_at j x)).
Proof.
  intros Hl Ht. destruct (Hcode j x Hl) as [_ Hs Hj _]. apply Hj in Ht.
  destruct (jrel_fixed _ Ht) as [n Hn]. rewrite Hn in Hs. unfold args_at. rewrite Hs. by apply jrel_pos_fits.
Qed.

Lemma chunk_length j x : live_at pc j x -> length (chunk pc j) = raw_len x.
Proof.
  intros Hl. pose proof (jump_fits j x Hl) as Hf. destruct (Hcode j x Hl) as [Hn _ _ _].
  unfold chunk, emit_insn. rewrite (proj1 Hl), placed_operands. cbn [op jump_target raw_len new_pos set_new_pos].
  destruct (jump_target x) as [t|]; [|cbn; by rewrite Hn].
  unfold args_at in Hf. rewrite write_i32_length; cbn [length]; [done|]. rewrite Hf by eauto. done.
Qed.

Lemma chunk_op j x : live_at pc j x -> byte_at (chunk pc j) 0 = opcode_value (op x).
Proof.
  intros Hl. pose proof (jump_fits j x Hl) as Hf. destruct (Hcode j x Hl) as [_ _ Hj _].
  unfold chunk, emit_insn. rewrite (proj1 Hl), placed_operands. cbn [op jump_target raw_len new_pos set_new_pos].
  destruct (jump_target x) as [t|]; [|done]. unfold args_at in Hf. rewrite write_i32_other; [done|..].
  - cbn [length]. rewrite Hf by eauto. done.
  - left. assert (H0 : cl_opnd_jrel_pos (opcode_operands (op x)) <> 0) by (apply Hj; eauto). lia.
Qed.

(** The operand bytes outside the offset are those of the list. *)
Lemma chunk_args j x i : live_at pc j x ->
  (is_Some (jump_target x) -> S i < cl_opnd_jrel_pos (opcode_operands (op x))) ->
  byte_at (chunk pc j) (S i) = byte_at (args_at j x) i.
Proof.
  intros Hl Hi. pose proof (jump_fits j x Hl) as Hf.
  unfold chunk, emit_insn. rewrite (proj1 Hl), placed_operands. cbn [op jump_target raw_len new_pos set_new_pos].
  destruct (jump_target x) as [t|]; [|done]. unfold args_at in Hf. rewrite write_i32_other; [done|..].
  - cbn [length]. rewrite Hf by eauto. done.
  - left. apply Hi. eauto.
Qed.

Lemma chunks_length j : j <= count pc ->
  length (concat (chunk pc <$> lives_from pc j)) + pos_of pc j = pos_of pc (count pc).
Proof.
  remember (count pc - j) as n eqn:En. revert j En. induction n as [|n IH]; intros j En Hj.
  - replace j with (count pc) by lia. by rewrite lives_from_end.
  - destruct (lookup_lt_is_Some_2 (insns pc) j) as [x Hx]; [unfold count in *; lia|].
    specialize (IH (S j) ltac:(lia) ltac:(lia)). rewrite (pos_of_S _ _ _ Hx) in IH. rewrite (lives_from_step _ _ _ Hx).
    destruct (deleted x) eqn:Hd; [lia|]. cbn [fmap list_fmap concat]. rewrite length_app.
    rewrite (chunk_length j x) by (by split). lia.
Qed.

Lemma emit_length : length (emit (placed pc)) = pos_of pc (count pc).
Proof. rewrite emit_chunks. pose proof (chunks_length 0 ltac:(lia)) as E. change (pos_of pc 0) with 0 in E. lia. Qed.

Lemma emit_drop j : j <= count pc -> drop (pos_of pc j) (emit (placed pc)) = concat (chunk pc <$> lives_from pc j).
Proof.
  rewrite emit_chunks. induction j as [|j IH]; intros Hj; [by rewrite drop_0|].
  destruct (lookup_lt_is_Some_2 (insns pc) j) as [x Hx]; [unfold count in *; lia|].
  specialize (IH ltac:(lia)). rewrite (pos_of_S _ _ _ Hx), (lives_from_step _ _ _ Hx) in *.
  destruct (deleted x) eqn:Hd; [by rewrite Nat.add_0_r|]. rewrite <- drop_drop, IH.
  cbn [fmap list_fmap concat]. rewrite <- (chunk_length j x) by (by split). apply drop_app_length.
Qed.

End Emitted.

(** ** Decoding the emitted bytes *)

Section Decode.
Context (pc : PeepCode).
Hypothesis Hcode : forall j x, live_at pc j x -> code_ok pc j x.

Abbreviation code' := (emit (placed pc)).

(** What the first loop reads at the new position of [j]. *)
Definition redecoded (j : nat) : PeepInsn :=
  match insns pc !! j with
  | Some x => decoded_insn code' (pos_of pc j) (length (args_at pc j x)) (op x)
  | None => decoded_insn code' 0 0 OP_NIL
  end.

Lemma emitted_byte j x i : live_at pc j x -> i < raw_len x ->
  byte_at code' (pos_of pc j + i) = byte_at (chunk pc j) i.
Proof.
  intros Hl Hi. pose proof (live_lt _ _ _ Hl). rewrite <- drop_nth, emit_drop by (auto || lia).
  rewrite (lives_from_step _ _ _ (proj1 Hl)), (proj2 Hl). cbn [fmap list_fmap concat].
  unfold byte_at. by rewrite app_nth1 by (by rewrite (chunk_length pc Hcode j x)).
Qed.

Lemma emitted_chunk j x : live_at pc j x -> take (raw_len x) (drop (pos_of pc j) code') = chunk pc j.
Proof.
  intros Hl. pose proof (live_lt _ _ _ Hl). rewrite emit_drop by (auto || lia).
  rewrite (lives_from_step _ _ _ (proj1 Hl)), (proj2 Hl). cbn [fmap list_fmap concat].
  rewrite <- (chunk_length pc Hcode j x Hl). apply take_app_length.
Qed.

Lemma emitted_fits j x : live_at pc j x -> pos_of pc j + raw_len x <= length code'.
Proof.
  intros Hl. rewrite emit_length by done. apply pos_of_lt; [done|]. by eapply live_lt.
Qed.

Lemma emitted_operands j x : live_at pc j x ->
  operand_length (constants pc) code' (pos_of pc j) (op x) = Some (length (args_at pc j x)).
Proof.
  intros Hl. pose proof (emitted_fits j x Hl) as Hfit. destruct (Hcode j x Hl) as [Hn Hs Hj _].
  unfold args_at, operand_length. destruct (opcode_operands (op x)) eqn:Ho; cbn [cl_opnd_len] in *; try by rewrite Hs.
  destruct Hs as (n & Hp & Hlen). destruct (length code' <? pos_of pc j + 3) eqn:Hlt; [lia|].
  assert (E : peep_read_u16 (drop (pos_of pc j + 1) code') = peep_read_u16 (operand_bytes (insns pc) j x)).
  { apply read_u16_ext. intros i Hi. rewrite drop_nth.
    replace (pos_of pc j + 1 + i) with (pos_of pc j + S i) by lia.
    rewrite (emitted_byte j x) by (done || lia). apply (chunk_args pc Hcode); [done|].
    intros Hjt%Hj. by destruct Hjt. }
  by rewrite E, Hp, Hlen.
Qed.

Lemma decode_lives fuel j : j <= count pc -> length code' - pos_of pc j < fuel ->
  decode_insns fuel (constants pc) code' (pos_of pc j) = Some (redecoded <$> lives_from pc j).
Proof.
  remember (count pc - j) as n eqn:En. revert fuel j En. induction n as [|n IH]; intros fuel j En Hj Hf.
  - replace j with (count pc) in * by lia. rewrite lives_from_end by done.
    destruct fuel as [|fuel]; [lia|]. cbn [decode_insns]. rewrite emit_length by done.
    by rewrite (proj2 (Nat.ltb_ge _ _)) by done.
  - destruct (lookup_lt_is_Some_2 (insns pc) j) as [x Hx]; [unfold count in *; lia|].
    pose proof (pos_of_S _ _ _ Hx) as Ep. rewrite (lives_from_step _ _ _ Hx).
    destruct (deleted x) eqn:Hd.
    { rewrite <- (Nat.add_0_r (pos_of pc j)), <- Ep. apply IH; lia. }
    assert (Hl : live_at pc j x) by by split.
    pose proof (emitted_fits j x Hl) as Hfit. destruct (Hcode j x Hl) as [Hn _ _ _].
    destruct fuel as [|fuel]; [lia|]. cbn [decode_insns].
    rewrite (proj2 (Nat.ltb_lt _ _)) by lia. rewrite <- (Nat.add_0_r (pos_of pc j)) at 1.
    rewrite (emitted_byte j x), (chunk_op pc Hcode j x), cl_opcode_info_value by (done || lia).
    cbn [mbind option_bind]. rewrite emitted_operands by done. cbn [mbind option_bind].
    unfold args_at. rewrite (proj2 (Nat.ltb_ge _ _)) by lia.
    replace (pos_of pc j + 1 + length (operand_bytes (insns pc) j x)) with (pos_of pc (S j)) by lia.
    rewrite IH by lia. cbn. f_equal. f_equal. unfold redecoded. by rewrite Hx.
Qed.

(** *** Jumps *)

Hypothesis Hlands : jumps_land pc = true.
Hypothesis Hshort : (Z.of_nat (length code') < 2 ^ 31)%Z.

(** A live jump leads to a live instruction. *)
Lemma lands_live j x t : live_at pc j x -> jump_target x = Some t -> exists y, live_at pc (skip_deleted pc t) y.
Proof.
  intros [Hx Hd] Ht. unfold jumps_land in Hlands. rewrite forallb_forall in Hlands.
  assert (Hin : In x (insns pc)) by (apply list_elem_of_In; by eapply list_elem_of_lookup_2).
  specialize (Hlands x Hin). rewrite Hd, Ht in Hlands. cbn [orb] in Hlands. apply Nat.ltb_lt in Hlands.
  destruct (lookup_lt_is_Some_2 (insns pc) _ Hlands) as [y Hy]. exists y. by apply skip_live.
Qed.

(** The place of index [t]'s code among the live instructions. *)
Definition renumber (t : nat) : nat := rank pc (skip_deleted pc t).

Definition resolved (j : nat) : PeepInsn :=
  match insns pc !! j with
  | Some x => match jump_target x with
              | Some t => set_jump (Some (renumber t)) (redecoded j)
              | None => redecoded j
              end
  | None => redecoded j
  end.

Lemma redecoded_live j x : live_at pc j x ->
  redecoded j = decoded_insn code' (pos_of pc j) (length (args_at pc j x)) (op x).
Proof. intros [Hx _]. unfold redecoded. by rewrite Hx. Qed.

Lemma redecoded_lookup j x : live_at pc j x -> (redecoded <$> lives_from pc 0) !! rank pc j = Some (redecoded j).
Proof. intros Hl. by rewrite list_lookup_fmap, (lives_rank _ _ _ Hl). Qed.

Lemma redecoded_pos j : live_index pc j = true -> old_pos (redecoded j) = pos_of pc j.
Proof. intros [x Hl]%live_index_iff. by rewrite (redecoded_live j x). Qed.

Lemma index_of_live t x : live_at pc t x ->
  peep_index_of_pos {| insns := redecoded <$> lives_from pc 0; constants := constants pc |} (pos_of pc t)
  = Some (rank pc t).
Proof.
  intros Hl. pose proof (redecoded_lookup t x Hl) as Hr. pose proof (lookup_lt_Some _ _ _ Hr) as Hlt.
  unfold peep_index_of_pos, count. cbn [insns].
  apply (index_search_finds _ _ _ _ _ _ (redecoded t)); try done; try lia.
  - intros i j y z Hy Hz Hij. apply list_lookup_fmap_Some in Hy as (a & -> & Ha).
    apply list_lookup_fmap_Some in Hz as (b & -> & Hb).
    pose proof (lives_sorted _ _ _ _ _ Ha Hb Hij) as Hab.
    destruct (lives_elem pc 0 a) as [_ [xa Hla]]; [by eapply list_elem_of_lookup_2|].
    destruct (lives_elem pc 0 b) as [_ [xb Hlb]]; [by eapply list_elem_of_lookup_2|].
    rewrite !redecoded_pos by (apply live_index_iff; eauto).
    pose proof (pos_of_lt _ _ _ _ Hla Hab). destruct (Hcode a xa Hla). lia.
  - apply redecoded_pos, live_index_iff. eauto.
Qed.

(** The offset read back is the distance. *)
Lemma offset_read j x t y : live_at pc j x -> jump_target x = Some t -> live_at pc (skip_deleted pc t) y ->
  peep_read_i32 (drop (cl_opnd_jrel_pos (opcode_operands (op x))) (chunk pc j)) =
  (Z.of_nat (pos_of pc (skip_deleted pc t)) - Z.of_nat (pos_of pc j + raw_len x))%Z.
Proof.
  intros Hl Ht Hy. pose proof (jump_fits pc Hcode j x Hl) as Hf.
  pose proof (emitted_fits j x Hl). pose proof (emitted_fits _ y Hy).
  unfold chunk, emit_insn. rewrite (proj1 Hl), placed_operands. cbn [op jump_target raw_len new_pos set_new_pos].
  rewrite Ht in *. rewrite placed_skip, placed_lookup, (proj1 Hy). cbn [fmap option_fmap option_map].
  rewrite (proj2 Hy). cbn [new_pos set_new_pos]. unfold args_at in Hf. rewrite i32_small by lia.
  apply write_i32_read; [cbn [length]; rewrite Hf by eauto; done|lia].
Qed.

Lemma resolve_live j x : live_at pc j x ->
  resolve_insn {| insns := redecoded <$> lives_from pc 0; constants := constants pc |} (length code') (redecoded j)
  = Some (resolved j).
Proof.
  intros Hl. destruct (Hcode j x Hl) as [Hn _ Hj _]. pose proof (emitted_fits j x Hl) as Hfit.
  unfold resolved. rewrite (proj1 Hl), (redecoded_live j x Hl). unfold resolve_insn. cbn [op decoded_insn].
  destruct (jump_target x) as [t|] eqn:Ht.
  - destruct (cl_opnd_jrel_pos (opcode_operands (op x))) as [|jp] eqn:Ejp; [destruct (proj2 Hj); by eauto|].
    destruct (lands_live j x t Hl Ht) as [y Hy]. pose proof (emitted_fits _ y Hy) as Hfit2.
    destruct (Hcode _ y Hy) as [Hny _ _ _].
    unfold resolve_target. cbn [raw old_pos raw_len decoded_insn]. unfold args_at.
    replace (1 + length (operand_bytes (insns pc) j x)) with (raw_len x) by lia.
    rewrite (emitted_chunk j x Hl), <- Ejp, (offset_read j x t y Hl Ht Hy).
    set (T := pos_of pc (skip_deleted pc t)) in *.
    assert (E : u32 (Z.of_nat (pos_of pc j) + Z.of_nat (raw_len x)
                     + u32 (Z.of_nat T - Z.of_nat (pos_of pc j + raw_len x)))%Z = Z.of_nat T).
    { unfold u32. rewrite Z.add_mod_idemp_r by lia.
      replace (_ + _ + _)%Z with (Z.of_nat T) by lia. apply Z.mod_small. lia. }
    rewrite E. replace (Z.of_nat (length code') <=? Z.of_nat T)%Z with false by lia. rewrite Nat2Z.id.
    unfold T. by rewrite (index_of_live _ y).
  - destruct (cl_opnd_jrel_pos (opcode_operands (op x))) as [|jp] eqn:Ejp; [done|].
    destruct (proj1 Hj); [lia|done].
Qed.

Lemma resolve_lives :
  mapM (resolve_insn {| insns := redecoded <$> lives_from pc 0; constants := constants pc |} (length code'))
    (redecoded <$> lives_from pc 0) = Some (resolved <$> lives_from pc 0).
Proof.
  apply mapM_Some_2. rewrite Forall2_fmap_l, Forall2_fmap_r. apply Forall_Forall2_diag, Forall_forall.
  intros j [_ [x Hx]]%lives_elem. by eapply resolve_live.
Qed.

End Decode.

(** *** Landing tables *)

(** A table that peep_decode accepts: [n] JMPs of five bytes. *)
Definition table_ok (pool : option (list pool_entry)) (l : list PeepInsn) (x : PeepInsn) : Prop :=
  op x = OP_HANDLER_CASE_PUSH -> exists n t,
    pool_constant pool (peep_read_u16 (drop 1 (raw x))) = Some (TypeList n) /\ jump_target x = Some t /\
    t + n <= length l /\ forall k, k < n -> exists y, l !! (t + k) = Some y /\ op y = OP_JMP /\ raw_len y = 5.

Lemma pin_entries_total n t l :
  (forall k, k < n -> exists y, l !! (t + k) = Some y /\ op y = OP_JMP /\ raw_len y = 5) ->
  exists l', pin_entries n t l = Some l'.
Proof.
  revert t l. induction n as [|n IH]; intros t l H; cbn [pin_entries]; [eauto|].
  destruct (H 0) as (y & Hy & Ho & Hn); [lia|]. rewrite Nat.add_0_r in Hy. rewrite Hy, decide_True, Hn by done.
  apply IH. intros k Hk. destruct (H (S k)) as (z & Hz & ? & ?); [lia|]. exists z.
  rewrite list_lookup_alter, decide_False by lia. by replace (S t + k) with (t + S k) by lia.
Qed.

Lemma pin_landing_total pool l x : table_ok pool l x -> exists l', pin_landing pool l x = Some l'.
Proof.
  intros H. unfold pin_landing. case_decide as Ho; [|eauto].
  destruct (H Ho) as (n & t & -> & -> & Hle & Hk). rewrite (proj2 (Nat.ltb_ge _ _)) by done.
  by apply pin_entries_total.
Qed.

Lemma pins_table_ok pool l l' x : pins l l' -> table_ok pool l x -> table_ok pool l' x.
Proof.
  intros Hp H Ho. destruct (H Ho) as (n & t & ? & ? & ? & Hk). exists n, t. split_and!; [done|done| |].
  - by rewrite (pin_length _ _ Hp).
  - intros k (y & Hy & ? & ?)%Hk. destruct (pin_each _ _ Hp _ y Hy) as (z & Hz & Hc). exists z.
    by destruct Hc as [->|[-> _]].
Qed.

Lemma pin_landings_total pool l :
  (forall j x, l !! j = Some x -> table_ok pool l x) -> exists l', pin_landings pool l = Some l'.
Proof.
  intros H. unfold pin_landings.
  set (stp := fun (acc : option (list PeepInsn)) i => _).
  assert (Hgen : forall n s q, s + n = length l -> pins l q -> exists l', foldl stp (Some q) (seq s n) = Some l').
  { induction n as [|n IH]; intros s q Hn Hp; cbn [seq foldl]; [eauto|].
    destruct (lookup_lt_is_Some_2 l s) as [x Hx]; [lia|].
    destruct (pin_each _ _ Hp s x Hx) as (x' & Hx' & Hc).
    destruct (pin_landing_total pool q x') as [q' Hq'].
    { apply (pins_table_ok pool l q); [done|]. specialize (H s x Hx). by destruct Hc as [->|[-> _]]. }
    assert (E : stp (Some q) s = Some q') by (unfold stp; cbn; by rewrite Hx').
    rewrite E. apply IH; [lia|]. eapply pins_trans; [done|]. by eapply pin_landing_spec. }
  apply Hgen; [lia|apply pins_refl].
Qed.

(** ** The round trip *)

(** The instruction [y] of the re-decoded code is [x] at [j] of the list. *)
Record re_encoded (pc : PeepCode) (j : nat) (x y : PeepInsn) : Prop := {
  re_op : op y = op x;
  re_pos : old_pos y = pos_of pc j;
  re_len : length (body y) = length (args_at pc j x);
  re_args i : (is_Some (jump_target x) -> S i < cl_opnd_jrel_pos (opcode_operands (op x))) ->
    byte_at (body y) i = byte_at (args_at pc j x) i;
  re_jump : jump_target y = renumber pc <$> jump_target x }.

Section Round_trip.
Context (pc : PeepCode) (i : nat).
Hypothesis Z : fusing pc i.
Hypothesis Hlands : jumps_land pc = true.
Hypothesis Hshort : (Z.of_nat (length (emit (placed pc))) < 2 ^ 31)%Z.

Let Hcode : forall j x, live_at pc j x -> code_ok pc j x := fz_code _ _ Z.

Lemma resolved_live j x : live_at pc j x ->
  op (resolved pc j) = op x /\ raw (resolved pc j) = chunk pc j /\ raw_len (resolved pc j) = raw_len x /\
  own_len (resolved pc j) = length (args_at pc j x) /\ old_pos (resolved pc j) = pos_of pc j /\
  jump_target (resolved pc j) = renumber pc <$> jump_target x.
Proof.
  intros Hl. destruct (Hcode j x Hl) as [Hn _ _ _].
  assert (Er : take (1 + length (args_at pc j x)) (drop (pos_of pc j) (emit (placed pc))) = chunk pc j).
  { unfold args_at. rewrite <- (emitted_chunk pc Hcode j x Hl). f_equal. lia. }
  unfold resolved. rewrite (proj1 Hl), (redecoded_live pc j x Hl).
  destruct (jump_target x) as [t|];
    cbn [op raw raw_len own_len old_pos jump_target set_jump decoded_insn fmap option_fmap option_map];
    rewrite Er; split_and!; try done; unfold args_at; lia.
Qed.

Lemma resolved_re_encoded j x y : live_at pc j x -> (y = resolved pc j \/ y = set_pinned (resolved pc j)) ->
  re_encoded pc j x y.
Proof.
  intros Hl Hy. destruct (resolved_live j x Hl) as (Eo & Er & En & Ew & Ep & Ej).
  destruct (Hcode j x Hl) as [Hn _ _ _]. pose proof (chunk_length pc Hcode j x Hl) as Hc.
  assert (Hb : forall k, k < length (args_at pc j x) -> byte_at (body (resolved pc j)) k = byte_at (chunk pc j) (S k)).
  { intros k Hk. unfold body. by rewrite Er, Ew, take_nth, drop_nth. }
  assert (Hlen : length (body (resolved pc j)) = length (args_at pc j x)).
  { rewrite body_length; [done|]. rewrite Er, Ew, Hc. unfold args_at in *. lia. }
  assert (R : re_encoded pc j x (resolved pc j)).
  { split; try done. intros k Hk. destruct (decide (k < length (args_at pc j x))) as [Hlt|Hge].
    - rewrite Hb by done. by apply (chunk_args pc Hcode).
    - unfold byte_at. rewrite !nth_overflow by lia. done. }
  destruct Hy as [->| ->]; [done|]. by destruct R.
Qed.

(** Entries of a table keep their order. *)
Lemma table_rank t k : (forall m, m < k -> exists x, live_at pc (t + m) x) -> rank pc (t + k) = rank pc t + k.
Proof.
  clear Hlands. induction k as [|k IH]; intros H; [by rewrite !Nat.add_0_r|].
  destruct (H k) as (x & Hx & Hd); [lia|]. rewrite Nat.add_succ_r, (rank_S _ _ _ Hx), Hd, IH; [lia|].
  intros m Hm. apply H. lia.
Qed.

Lemma resolved_table_ok r y : (resolved pc <$> lives_from pc 0) !! r = Some y ->
  table_ok (constants pc) (resolved pc <$> lives_from pc 0) y.
Proof.
  intros Hy. apply list_lookup_fmap_Some in Hy as (j & -> & Hr).
  destruct (lives_elem pc 0 j) as [_ [x Hl]]; [by eapply list_elem_of_lookup_2|].
  destruct (resolved_live j x Hl) as (Eo & Er & _ & _ & _ & Ej). unfold table_ok. rewrite Eo. intros Ho.
  pose proof (fz_registers _ _ Z j x Hl) as Hp. rewrite Ho in Hp. specialize (Hp eq_refl).
  pose proof (plain_operands pc j x (proj1 Hl) Hp) as Eb.
  destruct (fz_handler _ _ Z j x Hl Ho) as (n & Hn).
  destruct (Hcode j x Hl) as [Hn0 Hs Hj _]. rewrite Ho in *. cbn in Hs, Hj.
  destruct (proj1 Hj) as [t Ht]; [lia|]. exists n, (renumber pc t).
  assert (Hidx : peep_read_u16 (drop 1 (chunk pc j)) = peep_read_u16 (body x)).
  { rewrite <- Eb. apply read_u16_ext. intros k Hk. rewrite drop_nth. apply (chunk_args pc Hcode j x k Hl).
    rewrite Ho. cbn. lia. }
  assert (Hent : forall k, k < n -> exists z, live_at pc (t + k) z /\ op z = OP_JMP).
  { intros k Hk. destruct (fz_tables _ _ Z j x t n k Hl Ho Ht Hn Hk) as (z & Hz & Hpz).
    destruct (fz_pinned _ _ Z _ z Hz Hpz). exists z. by split; [split|]. }
  assert (Hrk : forall k, k < n -> (resolved pc <$> lives_from pc 0) !! (renumber pc t + k) = Some (resolved pc (t + k))).
  { intros k Hk. destruct (Hent 0) as (z0 & Hz0 & _); [lia|]. rewrite Nat.add_0_r in Hz0.
    unfold renumber. rewrite (skip_stop _ _ _ Hz0), <- table_rank.
    - destruct (Hent k Hk) as (z & Hz & _). by rewrite list_lookup_fmap, (lives_rank _ _ _ Hz).
    - intros m Hm. destruct (Hent m) as (z & ? & _); [lia|eauto]. }
  split_and!.
  - by rewrite Er, Hidx.
  - by rewrite Ej, Ht.
  - destruct n as [|n].
    + rewrite Nat.add_0_r, length_fmap, lives_length. unfold renumber. apply rank_le.
      destruct (lands_live pc Hlands j x t Hl Ht) as [w Hw]. apply live_lt in Hw. lia.
    + pose proof (lookup_lt_Some _ _ _ (Hrk n ltac:(lia))). lia.
  - intros k Hk. exists (resolved pc (t + k)). destruct (Hent k Hk) as (z & Hz & Hoz).
    destruct (resolved_live _ z Hz) as (Eoz & _ & Enz & _). split_and!; [by apply Hrk|congruence|].
    rewrite Enz. destruct (Hcode _ z Hz) as [Hnz Hsz _ _]. rewrite Hoz in Hsz. cbn in Hsz. lia.
Qed.

(** The emitted code decodes to the live instructions, in order. *)
Lemma round_trip : exists pc2,
  peep_decode (constants pc) (emit (placed pc)) = Some pc2 /\ count pc2 = rank pc (count pc) /\
  forall j x, live_at pc j x -> exists y, insns pc2 !! rank pc j = Some y /\ re_encoded pc j x y.
Proof.
  destruct (pin_landings_total _ _ resolved_table_ok) as [l Hl].
  exists {| insns := l; constants := constants pc |}.
  pose proof (decode_lives pc Hcode (S (length (emit (placed pc)))) 0) as Hd. change (pos_of pc 0) with 0 in Hd.
  pose proof (resolve_lives pc Hcode Hlands Hshort) as Hr.
  apply pin_landings_spec in Hl as H1. destruct H1 as [Hp _]. split_and!.
  - unfold peep_decode. rewrite Hd by lia. cbn [mbind option_bind]. rewrite Hr. cbn [mbind option_bind].
    by rewrite Hl.
  - unfold count at 1. cbn. by rewrite (pin_length _ _ Hp), length_fmap, lives_length.
  - intros j x Hx. destruct (pin_each _ _ Hp (rank pc j) (resolved pc j)) as (y & Hy & Hc).
    { by rewrite list_lookup_fmap, (lives_rank _ _ _ Hx). }
    exists y. split; [done|]. apply resolved_re_encoded; [done|]. destruct Hc as [->|[-> _]]; auto.
Qed.

End Round_trip.
