(* ===== verification/PeepSize.v ===== *)
(** * The pass never grows the code

    The live instructions of a list weigh their bytes; every rewrite keeps the
    sum, or lowers it, so the re-encoded code fits where the old one was.  And
    every instruction stays the one decoded at its [old_pos], by which the
    line table finds it. *)

From Stdlib Require Import ZArith Lia ZifyBool.
From stdpp Require Import base option list sets.
From S2P Require Import Prelude Opcodes PeepCode Peephole PeepSim PeepWf PeepDecode PeepFusion PeepEncode.

Definition weight (x : PeepInsn) : nat := if deleted x then 0 else raw_len x.
Definition sized (x : PeepInsn) : Prop := own_len x < raw_len x.

(** Part of no superinstruction, neither as a member nor as a head. *)
Definition single (x : PeepInsn) : Prop := fused x = false /\ fused_with x = None.

(** [early]: the fusion has not begun. *)
Record bounded (early : bool) (n : nat) (ps : list nat) (pc : PeepCode) : Prop := {
  bd_pos : old_pos <$> insns pc = ps;
  bd_size : size (insns pc) <= n;
  bd_sized j x : insns pc !! j = Some x -> sized x;
  bd_single j x : early = true -> insns pc !! j = Some x -> single x }.

(** An edit that does not add bytes, does not move the instruction and fuses
    nothing. *)
Definition shrinks (f : PeepInsn -> PeepInsn) : Prop :=
  forall x, sized x -> old_pos (f x) = old_pos x /\ sized (f x) /\ weight (f x) <= weight x /\
    fused (f x) = fused x /\ fused_with (f x) = fused_with x.

Lemma size_alter f i l x : l !! i = Some x -> size (alter f i l) + weight x = size l + weight (f x).
Proof.
  revert i. induction l as [|y l IH]; intros [|i] H; try done; cbn in H.
  - injection H as ->. cbn. unfold weight. destruct (deleted x), (deleted (f x)); lia.
  - specialize (IH i H). change (alter f (S i) (y :: l)) with (y :: alter f i l). cbn [size].
    destruct (deleted y); lia.
Qed.

Lemma upd_positions i f pc :
  (forall x, insns pc !! i = Some x -> old_pos (f x) = old_pos x) ->
  old_pos <$> insns (upd i f pc) = old_pos <$> insns pc.
Proof.
  intros H. apply list_eq. intros j. rewrite !list_lookup_fmap, lookup_upd. case_decide as E; [|done].
  subst j. destruct (insns pc !! i) as [x|] eqn:Hx; [|done]. cbn. by rewrite H.
Qed.

Lemma upd_bounded e n ps i f pc : shrinks f -> bounded e n ps pc -> bounded e n ps (upd i f pc).
Proof.
  intros Hf [Hp Hs Hz H1]. destruct (insns pc !! i) as [x|] eqn:Hx.
  - destruct (Hf x (Hz i x Hx)) as (Hpx & Hfx & Hw & Hu & Hc). split.
    + rewrite upd_positions; [done|]. intros y Hy. apply Hf. by eapply Hz.
    + cbn. pose proof (size_alter f i _ x Hx). lia.
    + intros j y. rewrite lookup_upd. case_decide as E; [|apply Hz]. subst j. rewrite Hx. by intros [= <-].
    + intros j y He. rewrite lookup_upd. case_decide as E; [|by apply H1]. subst j. rewrite Hx. intros [= <-].
      unfold single. rewrite Hu, Hc. by apply (H1 i).
  - assert (E : insns (upd i f pc) = insns pc).
    { apply list_eq. intros j. rewrite lookup_upd. case_decide as E; [|done]. subst j. by rewrite Hx. }
    by split; rewrite E.
Qed.

Create HintDb shrink.

Lemma shrinks_deleted : shrinks set_deleted.
Proof. intros x Hx. split_and!; [done|done| |done|done]. unfold weight. cbn. lia. Qed.
Lemma shrinks_delete_insn : shrinks delete_insn.
Proof. intros x Hx. split_and!; [done|done| |done|done]. unfold weight. cbn. lia. Qed.
Lemma shrinks_op o : shrinks (set_op o).
Proof. done. Qed.
Lemma shrinks_jump t : shrinks (set_jump t).
Proof. done. Qed.
Lemma shrinks_bare o : shrinks (set_bare o).
Proof. intros x Hx. unfold sized, weight in *. cbn. destruct (deleted x); split_and!; done || lia. Qed.
Lemma shrinks_ret : shrinks become_ret.
Proof. intros x Hx. unfold sized, weight in *. cbn. destruct (deleted x); split_and!; done || lia. Qed.
Lemma shrinks_if (b : bool) f g : shrinks f -> shrinks g -> shrinks (if b then f else g).
Proof. by destruct b. Qed.

#[export] Hint Resolve shrinks_deleted shrinks_delete_insn shrinks_op shrinks_jump shrinks_bare
  shrinks_ret shrinks_if upd_bounded : shrink.

(** A pattern that keeps the bound. *)
Definition bounded_at (f : PeepCode -> nat -> option PeepCode) : Prop :=
  forall e n ps pc i pc', bounded e n ps pc -> f pc i = Some pc' -> bounded e n ps pc'.

Lemma each_index_bounded f e n ps pc : bounded_at f -> bounded e n ps pc -> bounded e n ps (each_index f pc).1.
Proof.
  intros Hf HB. unfold each_index. generalize (seq 0 (count pc)). intros l.
  assert (Hgen : forall acc, bounded e n ps acc.1 -> bounded e n ps
    (foldl (fun acc i => match f acc.1 i with Some pc' => (pc', S acc.2) | None => acc end) acc l).1).
  { induction l as [|i l IH]; intros [q m] Hq; cbn; [done|]. apply IH.
    destruct (f q i) eqn:E; [by eapply Hf|done]. }
  by apply Hgen.
Qed.

(** Open a pattern: every bind and guard, then the updates. *)
Ltac open_pattern H :=
  repeat match type of H with
    | mbind _ _ = Some _ => apply bind_Some in H as (? & ? & H)
    | (if _ then _ else None) = Some _ => apply require_Some in H as [_ H]
    | (let '(_, _) := ?p in _) = Some _ => destruct p
    end.

Ltac pattern_bounded :=
  intros e n ps pc i pc' HB H; hnf in H; open_pattern H; injection H as <-; repeat case_match; eauto 6 with shrink.

Lemma jump_to_next_bounded : bounded_at jump_to_next_at.
Proof. unfold jump_to_next_at. pattern_bounded. Qed.
Lemma return_site_bounded : bounded_at return_site_at.
Proof. unfold return_site_at. pattern_bounded. Qed.
Lemma dead_store_ret_bounded : bounded_at dead_store_ret_at.
Proof. unfold dead_store_ret_at. pattern_bounded. Qed.
Lemma store_reload_bounded : bounded_at store_reload_at.
Proof. unfold store_reload_at. pattern_bounded. Qed.
Lemma pure_pop_bounded : bounded_at pure_pop_at.
Proof. unfold pure_pop_at. pattern_bounded. Qed.
Lemma not_branch_bounded : bounded_at not_branch_at.
Proof. unfold not_branch_at. pattern_bounded. Qed.

Lemma thread_hop_bounded e n ps pc i r : bounded e n ps pc -> thread_hop pc i = Some r -> bounded e n ps r.1.
Proof.
  intros HB H. unfold thread_hop in H. apply bind_Some in H as (x & _ & H). apply bind_Some in H as (t & _ & H).
  apply bind_Some in H as (y & _ & H). destruct (_ && _) in H; [injection H as <-; cbn; eauto with shrink|].
  apply require_Some in H as [_ H]. apply bind_Some in H as (t2 & _ & H). apply require_Some in H as [_ H].
  injection H as <-. cbn. eauto with shrink.
Qed.

Lemma thread_hops_bounded e n ps hops pc i : bounded e n ps pc -> bounded e n ps (thread_hops hops pc i).1.
Proof.
  revert pc. induction hops as [|hops IH]; intros pc HB; cbn; [done|].
  destruct (thread_hop pc i) as [[pc' b]|] eqn:E; [|done]. pose proof (thread_hop_bounded _ _ _ _ _ _ HB E) as HB'.
  destruct b; [|done]. specialize (IH pc' HB'). by destruct (thread_hops hops pc' i).
Qed.

Lemma peep_thread_jumps_bounded e n ps pc : bounded e n ps pc -> bounded e n ps (peep_thread_jumps pc).1.
Proof.
  intros HB. unfold peep_thread_jumps. generalize (seq 0 (count pc)). intros l.
  assert (Hgen : forall acc, bounded e n ps acc.1 -> bounded e n ps
    (foldl (fun acc i => let '(pc', m) := thread_at acc.1 i in (pc', acc.2 + m)) acc l).1).
  { induction l as [|i l IH]; intros [q m] Hq; cbn; [done|]. destruct (thread_at q i) as [q' k] eqn:E.
    apply IH. cbn in *. unfold thread_at in E. destruct (insns q !! i); [|by simplify_eq].
    destruct (threadable p); [|by simplify_eq]. pose proof (thread_hops_bounded e n ps 16 q i Hq). by rewrite E in *. }
  by apply Hgen.
Qed.

Lemma dead_code_loop_size r l : size (dead_code_loop r l).1 <= size l /\
  old_pos <$> (dead_code_loop r l).1 = old_pos <$> l /\
  (Forall sized l -> Forall sized (dead_code_loop r l).1) /\
  (Forall single l -> Forall single (dead_code_loop r l).1).
Proof.
  revert r. induction l as [|x l IH]; intros r; cbn [dead_code_loop]; [done|].
  destruct (deleted x) eqn:Hd; [|destruct (target x || r)]; cbn [negb];
    match goal with |- context [dead_code_loop ?b l] => specialize (IH b); destruct (dead_code_loop b l) as [q m] end;
    cbn [fst] in *; destruct IH as (IH1 & IH2 & IH3 & IH4); cbn [size]; rewrite ?Hd; cbn [fmap list_fmap];
    rewrite IH2; cbn; (split_and!; [lia|done| |]); rewrite !Forall_cons; intros [Hx Hl]; auto.
Qed.

Lemma bounded_list e n ps pc : bounded e n ps pc <-> old_pos <$> insns pc = ps /\ size (insns pc) <= n /\
  Forall sized (insns pc) /\ (e = true -> Forall single (insns pc)).
Proof.
  split.
  - intros [Hp Hs Hz H1]. split_and!; [done|done|by apply Forall_lookup|].
    intros He. apply Forall_lookup. eauto.
  - rewrite Forall_lookup. intros (? & ? & H & H1). split; [done..|].
    intros j x He. specialize (H1 He). rewrite Forall_lookup in H1. apply H1.
Qed.

Lemma peep_dead_code_bounded e n ps pc : bounded e n ps pc -> bounded e n ps (peep_dead_code pc).1.
Proof.
  rewrite !bounded_list. unfold peep_dead_code. destruct (dead_code_loop_size true (insns pc)) as (Hs & Hp & Hz & H1).
  destruct (dead_code_loop true (insns pc)) as [l m]. cbn [fst insns] in *. intros (? & ? & ? & ?).
  split_and!; [congruence|lia|auto|auto].
Qed.

Lemma size_target l l' :
  (forall j, l' !! j = (fun x => set_target (match l' !! j with Some y => target y | None => false end) x) <$> l !! j) ->
  size l' = size l.
Proof.
  revert l'. induction l as [|x l IH]; intros l' H.
  - specialize (H 0). destruct l'; [done|]. by cbn in H.
  - pose proof (H 0) as H0. destruct l' as [|y l']; [done|]. cbn in H0. injection H0 as Ey.
    cbn [size]. rewrite (IH l') by (intros j; apply (H (S j))). rewrite Ey. done.
Qed.

Lemma mark_targets_bounded e n ps pc : bounded e n ps pc -> bounded e n ps (peep_mark_targets pc).
Proof.
  intros [Hp Hs Hz H1]. split.
  - rewrite <- Hp. apply list_eq. intros j. rewrite !list_lookup_fmap, PeepRound.mark_targets_lookup.
    by destruct (insns pc !! j).
  - rewrite (size_target (insns pc)); [done|]. intros j. rewrite PeepRound.mark_targets_lookup. by destruct (insns pc !! j).
  - intros j y. rewrite PeepRound.mark_targets_lookup. destruct (insns pc !! j) as [x|] eqn:Hx; [|done].
    intros [= <-]. by apply (Hz j x).
  - intros j y He. rewrite PeepRound.mark_targets_lookup. destruct (insns pc !! j) as [x|] eqn:Hx; [|done].
    intros [= <-]. by apply (H1 j x).
Qed.

Lemma then_run_bounded e n ps f acc :
  (forall pc, bounded e n ps pc -> bounded e n ps (f pc).1) -> bounded e n ps acc.1 -> bounded e n ps (then_run f acc).1.
Proof. intros Hf HB. unfold then_run. specialize (Hf _ HB). by destruct (f acc.1). Qed.

Lemma peep_round_bounded e n ps pc : bounded e n ps pc -> bounded e n ps (peep_round pc).1.
Proof.
  intros HB. unfold peep_round. repeat apply then_run_bounded; cbn [fst];
    try (intros q; apply each_index_bounded); auto using not_branch_bounded, pure_pop_bounded,
      dead_store_ret_bounded, store_reload_bounded, return_site_bounded, peep_dead_code_bounded.
  apply mark_targets_bounded. repeat apply then_run_bounded; cbn [fst].
  - intros q. apply each_index_bounded, jump_to_next_bounded.
  - apply peep_thread_jumps_bounded.
  - by apply mark_targets_bounded.
Qed.

Lemma peep_rounds_bounded e n ps rounds pc total : bounded e n ps pc -> bounded e n ps (peep_rounds rounds pc total).1.
Proof.
  revert pc total. induction rounds as [|r IH]; intros pc total HB; cbn; [done|].
  pose proof (peep_round_bounded e n ps pc HB) as HB'. destruct (peep_round pc) as [q c].
  destruct (c =? 0); [done|]. by apply IH.
Qed.

(** ** Absorption *)

Lemma upd_grow n ps k i f pc :
  (forall x, sized x -> old_pos (f x) = old_pos x /\ sized (f x) /\ weight (f x) <= weight x + k) -> bounded false n ps pc -> bounded false (n + k) ps (upd i f pc).
Proof.
  intros Hf [Hp Hs Hz _]. destruct (insns pc !! i) as [x|] eqn:Hx.
  - destruct (Hf x (Hz i x Hx)) as (Hpx & Hfx & Hw). split.
    + rewrite upd_positions; [done|]. intros y Hy. apply Hf. by eapply Hz.
    + cbn. pose proof (size_alter f i _ x Hx). lia.
    + intros j y. rewrite lookup_upd. case_decide as E; [|apply Hz]. subst j. rewrite Hx. by intros [= <-].
    + done.
  - assert (E : insns (upd i f pc) = insns pc).
    { apply list_eq. intros j. rewrite lookup_upd. case_decide as E; [|done]. subst j. by rewrite Hx. }
    split; rewrite ?E; [done|lia|done|done].
Qed.

Lemma upd_absorbed n ps i pc x :
  insns pc !! i = Some x -> deleted x = false -> bounded false n ps pc -> bounded false (n - raw_len x) ps (upd i absorbed pc).
Proof.
  intros Hx Hd [Hp Hs Hz _]. split.
  - by rewrite upd_positions.
  - cbn. pose proof (size_alter absorbed i _ x Hx) as E. unfold weight in E. rewrite Hd in E. cbn in E. lia.
  - intros j y. rewrite lookup_upd. case_decide as E; [|apply Hz]. subst j. rewrite Hx. intros [= <-]. by apply (Hz i x).
  - done.
Qed.

(** Absorbing the live instruction [m] at [mi] saves its opcode byte. *)
Lemma peep_absorb_bounded n ps pc a prev mi m :
  insns pc !! mi = Some m -> deleted m = false -> a <> mi -> prev <> mi ->
  bounded false (S n) ps pc -> bounded false n ps (peep_absorb pc a prev mi m).
Proof.
  intros Hm Hd Ha Hp HB. pose proof (bd_sized _ _ _ _ HB _ _ Hm) as Hz. unfold sized in Hz. unfold peep_absorb.
  assert (B1 : bounded false (S n + own_len m) ps (upd prev (chain_to mi) (upd a (absorb_head m) pc))).
  { rewrite <- (Nat.add_0_r (_ + _)). apply upd_grow.
    { intros x Hx. unfold sized, weight in *. cbn. destruct (deleted x); split_and!; done || lia. }
    apply upd_grow; [|done]. intros x Hx. unfold sized, weight in *. cbn.
    destruct (deleted x); split_and!; done || lia. }
  destruct (upd_absorbed (S n + own_len m) ps mi (upd prev (chain_to mi) (upd a (absorb_head m) pc)) m)
    as [Hp' Hs Hz' _]; [by rewrite !lookup_upd_ne|done|done|]. split; [done|lia|done|done].
Qed.

Lemma bounded_le n ps m pc : n <= m -> bounded false n ps pc -> bounded false m ps pc.
Proof. intros ? []. split; [done|lia|done|done]. Qed.

Lemma fuse_at_bounded n ps pc i r : bounded false n ps pc -> fuse_at pc i = Some r -> bounded false n ps r.1.
Proof.
  intros HB H. unfold fuse_at in H. apply bind_Some in H as (a & Hx & H).
  apply require_Some in H as [_ H]. apply bind_Some in H as ([bi b] & Hb & H). cbn [fst snd] in H.
  destruct (next_unjoined_spec _ _ _ _ Hb) as ([Hlb Hdb] & Hlt & _).
  destruct (fuse_triple pc i a bi b) as [q|] eqn:E3.
  - injection H as <-. unfold fuse_triple in E3. apply bind_Some in E3 as ([ci c] & Hc & E3).
    apply bind_Some in E3 as (o & _ & E3). injection E3 as <-. cbn [fst snd] in *.
    destruct (next_unjoined_spec _ _ _ _ Hc) as ([Hlc Hdc] & Hlt2 & _).
    apply peep_absorb_bounded; [|done|lia..|].
    { unfold peep_absorb. by rewrite !lookup_upd_ne by lia. }
    apply (bounded_le n ps); [lia|]. apply peep_absorb_bounded; [by rewrite lookup_upd_ne by lia|done|lia..|].
    apply (bounded_le n ps); [lia|]. eauto with shrink.
  - unfold fuse_pair in H. destruct (peep_fused_opcode (op a) (op b)) as [o|].
    + injection H as <-. cbn [fst]. apply peep_absorb_bounded; [by rewrite lookup_upd_ne by lia|done|lia..|].
      apply (bounded_le n ps); [lia|]. eauto with shrink.
    + apply bind_Some in H as (k & _ & H). injection H as <-. cbn [fst].
      apply peep_absorb_bounded; [by rewrite lookup_upd_ne by lia|done|lia..|].
      rewrite <- Nat.add_1_r. apply upd_grow; [|done]. intros x Hz. unfold sized, weight in *. cbn.
      destruct (deleted x); split_and!; done || lia.
Qed.

Lemma bounded_late e n ps pc : bounded e n ps pc -> bounded false n ps pc.
Proof. by intros []. Qed.

Lemma peep_rewrite_bounded n ps fuse pc : bounded true n ps pc -> bounded false n ps (peep_rewrite fuse pc).1.
Proof.
  intros HB. unfold peep_rewrite. pose proof (peep_rounds_bounded true n ps 8 pc 0 HB) as B1.
  destruct (peep_rounds 8 pc 0) as [q m]. cbn in B1. apply mark_targets_bounded, bounded_late in B1.
  assert (Hloop : forall fuel p i c, bounded false n ps p -> bounded false n ps (fuse_loop fuel p i c).1).
  { induction fuel as [|fuel IH]; intros p i c Hp; cbn [fuse_loop]; [done|].
    destruct (i <? count p); [|done]. destruct (fuse_at p i) as [[p' last]|] eqn:E; [|by apply IH].
    apply IH. by apply (fuse_at_bounded n ps p i (p', last)). }
  unfold peep_fuse. destruct fuse.
  - specialize (Hloop (S (count (peep_mark_targets q))) (peep_mark_targets q) 0 0 B1).
    by destruct (fuse_loop _ _ _ _).
  - done.
Qed.

(** The decoder starts at the length of the code. *)
Lemma decode_bounded pool code pc : peep_decode pool code = Some pc -> bounded true (length code) (old_pos <$> insns pc) pc.
Proof.
  intros H. destruct (decode_well_formed _ _ _ H) as [W _].
  apply decode_lookup in H as (l & Hl & _ & En & H).
  assert (Hsz : forall ip, laid_out pool code ip l -> ip <= length code -> size l + ip <= length code).
  { clear. intros ip Hl. induction Hl as [|x l F Hl IH]; intros Hip; cbn [size]; [lia|].
    pose proof (fr_fits _ _ _ F) as Hf. pose proof (fr_len _ _ _ F). destruct (fr_plain _ _ _ F) as (_ & _ & Hd & _).
    rewrite Hd. specialize (IH ltac:(lia)). lia. }
  specialize (Hsz 0 Hl ltac:(lia)).
  assert (E : forall n, size (take n (insns pc)) = size (take n l)).
  { induction n as [|n IH]; [done|].
    destruct (insns pc !! n) as [x'|] eqn:Hx'.
    - destruct (H n x' Hx') as (x & Hx & Hc & _). rewrite (take_S_r _ _ _ Hx'), (take_S_r _ _ _ Hx), !size_app, IH.
      destruct Hc as [->|[-> _]]; done.
    - apply lookup_ge_None_1 in Hx' as Hge. unfold count in En. rewrite !take_ge in IH |- * by lia. done. }
  split.
  - done.
  - specialize (E (length l)). rewrite !take_ge in E by (unfold count in *; lia). lia.
  - intros j x' Hx'. destruct (H j x' Hx') as (x & Hx & Hc & _).
    pose proof (fr_len _ _ _ (laid_fresh _ _ _ _ _ _ Hl Hx)) as Hlen. unfold sized.
    destruct Hc as [->|[-> _]]; cbn; lia.
  - intros j x' _ Hx'. destruct (H j x' Hx') as (x & Hx & Hc & _).
    destruct (fr_plain _ _ _ (laid_fresh _ _ _ _ _ _ Hl Hx)) as (Hw & _ & _ & _ & _ & Hu & _).
    destruct Hc as [->|[-> _]]; by split.
Qed.
