(* ===== verification/PeepLines.v ===== *)
(** * The line table after the pass

    Which instruction of the rewritten list runs the code an old entry is
    about is said by [covers]: the head of the superinstruction that absorbed
    it, or the next instruction that is left.  peep_encode finds exactly that
    one ([line_index_covers]), because the members of a superinstruction
    follow their head with nothing alive in between ([fusion]). *)

From Stdlib Require Import ZArith Lia ZifyBool.
From stdpp Require Import base option list sets relations.
From S2P Require Import Prelude Opcodes PeepCode Peephole PeepSim PeepWf PeepDecode PeepFusion PeepEncode PeepSize.

Definition sorted_positions (l : list PeepInsn) : Prop :=
  forall i j y z, l !! i = Some y -> l !! j = Some z -> i < j -> old_pos y < old_pos z.

(** [i] is the first instruction at [p] or after it. *)
Definition first_at (pc : PeepCode) (p i : nat) : Prop :=
  i <= count pc /\ forall j x, insns pc !! j = Some x -> j < i <-> old_pos x < p.

(** [b] is the member after [a] of a superinstruction; [j] is absorbed into
    the one headed by [h]. *)
Definition follows (pc : PeepCode) (a b : nat) : Prop :=
  exists x, insns pc !! a = Some x /\ fused_with x = Some b.
Definition absorbed_by (pc : PeepCode) (h j : nat) : Prop := tc (follows pc) h j.

(** The live instruction [k] runs what was at position [p]: it absorbed the
    first instruction at [p] or after it, or it is the first one left from
    there on. *)
Definition covers (pc : PeepCode) (p k : nat) : Prop :=
  (exists x, live_at pc k x) /\
  exists i, first_at pc p i /\
    (absorbed_by pc k i \/
     ~ (exists h, absorbed_by pc h i) /\ i <= k /\ forall j, i <= j < k -> deleted_at pc j).

(** ** The members of superinstructions *)

(** The fusion up to index [i]: nothing from there on is fused; the member
    after [a] comes after it, with nothing alive in between; and every
    absorbed instruction has a live head. *)
Record fusion (pc : PeepCode) (i : nat) : Prop := {
  fs_ahead j x : i <= j -> insns pc !! j = Some x -> single x;
  fs_follows a b : follows pc a b -> a < b /\ (forall j, a < j <= b -> deleted_at pc j) /\
    exists y, insns pc !! b = Some y /\ fused y = true;
  fs_head j x : insns pc !! j = Some x -> fused x = true ->
    exists h y, live_at pc h y /\ absorbed_by pc h j }.

(** The superinstruction headed by [h], whose last member so far is [t]. *)
Record growing (pc : PeepCode) (h t : nat) : Prop := {
  gr_fusion : fusion pc (S t);
  gr_head : exists y, live_at pc h y;
  gr_chain : rtc (follows pc) h t;
  gr_last x : insns pc !! t = Some x -> fused_with x = None;
  gr_deleted j : h < j <= t -> deleted_at pc j }.

Lemma fusion_le pc i j : fusion pc i -> i <= j -> fusion pc j.
Proof. intros [H1 H2 H3] Hij. split; [|done..]. intros k x Hk. apply H1. lia. Qed.

(** Nothing alive lies between a head and its members. *)
Lemma absorbed_deleted pc i h j :
  fusion pc i -> absorbed_by pc h j -> h < j /\ forall m, h < m <= j -> deleted_at pc m.
Proof.
  intros F. induction 1 as [a b H|a b c H _ [Hlt Hd]]; destruct (fs_follows _ _ F _ _ H) as (H1 & H2 & _); [done|].
  split; [lia|]. intros m Hm. destruct (Nat.le_gt_cases m b); [apply H2; lia|apply Hd; lia].
Qed.

Lemma absorbed_fused pc i h j :
  fusion pc i -> absorbed_by pc h j -> exists y, insns pc !! j = Some y /\ fused y = true.
Proof. intros F. induction 1 as [a b H|]; [|done]. by destruct (fs_follows _ _ F _ _ H) as (_ & _ & ?). Qed.

(** An edit that leaves the flags and the chains alone. *)
Lemma fusion_upd pc i k f :
  (forall x, fused (f x) = fused x /\ fused_with (f x) = fused_with x /\ deleted (f x) = deleted x) ->
  fusion pc i -> fusion (upd k f pc) i.
Proof.
  intros Hf [H1 H2 H3].
  assert (Hfw : forall a b, follows (upd k f pc) a b <-> follows pc a b).
  { intros a b. unfold follows. rewrite lookup_upd. case_decide as E; [|done]. subst a.
    destruct (insns pc !! k) as [x|] eqn:Hx; [|done]. destruct (Hf x) as (_ & Hw & _).
    split; intros (y & [= <-] & Hy); eexists; (split; [done|]); congruence. }
  assert (Hl : forall j y, insns (upd k f pc) !! j = Some y -> exists x, insns pc !! j = Some x /\
            fused y = fused x /\ fused_with y = fused_with x /\ deleted y = deleted x).
  { intros j y. rewrite lookup_upd. case_decide as E; [subst j|by eauto 6].
    destruct (insns pc !! k) as [x|]; [|done]. intros [= <-]. exists x. by rewrite !(proj1 (Hf x)), !(proj1 (proj2 (Hf x))), !(proj2 (proj2 (Hf x))). }
  assert (Hr : forall j x, insns pc !! j = Some x -> exists y, insns (upd k f pc) !! j = Some y /\
            fused y = fused x /\ deleted y = deleted x).
  { intros j x Hx. rewrite lookup_upd. case_decide as E; [subst j; rewrite Hx|by eauto]. eexists. split; [done|].
    destruct (Hf x) as (? & _ & ?). done. }
  assert (Hd : forall j, deleted_at pc j -> deleted_at (upd k f pc) j).
  { intros j (x & Hx & Hd). destruct (Hr j x Hx) as (y & Hy & _ & E). exists y. by rewrite E. }
  split.
  - intros j y Hj Hy. destruct (Hl j y Hy) as (x & Hx & Hu & Hw & _). destruct (H1 j x Hj Hx). split; congruence.
  - intros a b H%Hfw. destruct (H2 a b H) as (Hab & Hdel & x & Hx & Hu). split_and!; [done|auto|].
    destruct (Hr b x Hx) as (y & Hy & E & _). exists y. by rewrite E.
  - intros j y Hy Hu. destruct (Hl j y Hy) as (x & Hx & E & _). destruct (H3 j x Hx) as (h & z & [Hz Hdz] & Hab); [congruence|].
    destruct (Hr h z Hz) as (z' & Hz' & _ & Ed). exists h, z'. split; [by split; [|rewrite Ed]|].
    revert Hab. apply (tc_congruence id). intros ?? ?. by apply Hfw.
Qed.

(** One more member: [m] at [mi], the next live instruction after [t]. *)
Section Absorb.
Context (pc : PeepCode) (h t mi : nat) (m : PeepInsn).
Hypothesis G : growing pc h t.
Hypothesis Hm : live_at pc mi m.
Hypothesis Hlt : t < mi.
Hypothesis Hgap : forall j, t < j < mi -> deleted_at pc j.

Let pc' := peep_absorb pc h t mi m.

Lemma head_before : h <= t.
Proof.
  destruct (proj1 (rtc_tc _ _) (gr_chain _ _ _ G)) as [->|H]; [done|].
  destruct (absorbed_deleted _ _ _ _ (gr_fusion _ _ _ G) H). lia.
Qed.

(** What the absorption makes of the flags and of the chain. *)
Lemma absorb_lookup j : insns pc' !! j = (fun x =>
  (if decide (j = mi) then absorbed else id) ((if decide (j = t) then chain_to mi else id)
    ((if decide (j = h) then absorb_head m else id) x))) <$> insns pc !! j.
Proof.
  unfold pc', peep_absorb. rewrite !lookup_upd. destruct (insns pc !! j);
    repeat case_decide; subst; done || congruence.
Qed.

Lemma absorb_back j y : insns pc' !! j = Some y -> exists x, insns pc !! j = Some x /\
  fused y = (if decide (j = mi) then true else fused x) /\
  fused_with y = (if decide (j = t) then Some mi else fused_with x) /\
  deleted y = (if decide (j = mi) then true else deleted x).
Proof.
  rewrite absorb_lookup. intros (x & -> & Hx)%fmap_Some. exists x. split; [done|]. repeat case_decide; by rewrite Hx.
Qed.

Lemma absorb_forth j x : insns pc !! j = Some x -> exists y, insns pc' !! j = Some y /\
  fused y = (if decide (j = mi) then true else fused x) /\
  fused_with y = (if decide (j = t) then Some mi else fused_with x) /\
  deleted y = (if decide (j = mi) then true else deleted x).
Proof.
  intros Hx. rewrite absorb_lookup, Hx. cbn. eexists. split; [done|]. by repeat case_decide.
Qed.

Lemma absorb_deleted j : deleted_at pc j -> deleted_at pc' j.
Proof.
  intros (x & Hx & Hd). destruct (absorb_forth j x Hx) as (y & Hy & _ & _ & E). exists y. split; [done|].
  rewrite E. by case_decide.
Qed.

Lemma absorb_member : deleted_at pc' mi /\ exists y, insns pc' !! mi = Some y /\ fused y = true.
Proof.
  destruct Hm as [Hx _]. destruct (absorb_forth mi m Hx) as (y & Hy & Hu & _ & Hd).
  rewrite decide_True in Hu, Hd by done. split; exists y; done.
Qed.

Lemma absorb_live j x : live_at pc j x -> j <> mi -> exists y, live_at pc' j y.
Proof.
  intros [Hx Hd] Hj. destruct (absorb_forth j x Hx) as (y & Hy & _ & _ & E). rewrite decide_False in E by done.
  exists y. split; [done|congruence].
Qed.

Lemma absorb_follows a b : follows pc a b -> follows pc' a b.
Proof.
  intros (x & Hx & Hw). destruct (absorb_forth a x Hx) as (y & Hy & _ & E & _). exists y. split; [done|].
  rewrite E. case_decide; [|done]. subst a. pose proof (gr_last _ _ _ G x Hx). congruence.
Qed.

Lemma absorb_last : follows pc' t mi.
Proof.
  destruct (lookup_lt_is_Some_2 (insns pc) t) as [x Hx].
  { destruct Hm as [E _]. apply lookup_lt_Some in E. lia. }
  destruct (absorb_forth t x Hx) as (y & Hy & _ & E & _). exists y. by rewrite decide_True in E.
Qed.

Lemma absorb_follows_back a b : follows pc' a b -> follows pc a b \/ a = t /\ b = mi.
Proof.
  intros (y & Hy & Hw). destruct (absorb_back a y Hy) as (x & Hx & _ & E & _).
  rewrite E in Hw. case_decide; [right; by simplify_eq|left; by exists x].
Qed.

Lemma absorb_chain : rtc (follows pc') h mi.
Proof.
  eapply rtc_r; [|exact absorb_last]. eapply (rtc_congruence id); [|apply (gr_chain _ _ _ G)]. exact absorb_follows.
Qed.

Lemma absorb_between j : t < j <= mi -> deleted_at pc' j.
Proof.
  intros Hj. destruct (decide (j = mi)) as [->|]; [apply absorb_member|]. apply absorb_deleted, Hgap. lia.
Qed.

Lemma absorb_fusion : fusion pc' (S mi).
Proof.
  destruct G as [[H1 H2 H3] (z & Hz) Hc Hl Hd]. split.
  - intros j y Hj Hy. destruct (absorb_back j y Hy) as (x & Hx & Hu & Hw & _).
    rewrite decide_False in Hu by lia. rewrite decide_False in Hw by lia. destruct (H1 j x ltac:(lia) Hx). split; congruence.
  - intros a b [H|[-> ->]]%absorb_follows_back; [|split_and!; [done|apply absorb_between|apply absorb_member]].
    destruct (H2 a b H) as (Hab & Hdel & x & Hx & Hu). split_and!; [done|auto using absorb_deleted|].
    destruct (absorb_forth b x Hx) as (y & Hy & E & _). exists y. split; [done|]. rewrite E. by case_decide.
  - intros j y Hy Hu. destruct (absorb_back j y Hy) as (x & Hx & E & _). case_decide as Ej.
    + subst j. destruct (absorb_live h z Hz) as [z' Hz']; [pose proof head_before; lia|]. exists h, z'. split; [done|].
      destruct (proj1 (rtc_tc _ _) absorb_chain) as [Eh|]; [pose proof head_before; lia|done].
    + rewrite E in Hu. destruct (H3 j x Hx Hu) as (h' & z' & Hz' & Hab).
      destruct (absorb_live h' z' Hz') as [z2 Hz2].
      { intros ->. destruct (absorbed_deleted _ _ _ _ (gr_fusion _ _ _ G) Hab) as [Hlt' _].
        destruct (H1 j x ltac:(lia) Hx). congruence. }
      exists h', z2. split; [done|]. revert Hab. apply (tc_congruence id), absorb_follows.
Qed.

Lemma absorb_growing : growing pc' h mi.
Proof.
  pose proof head_before as Hh. destruct (gr_head _ _ _ G) as [z Hz]. split.
  - apply absorb_fusion.
  - eapply absorb_live; [done|lia].
  - apply absorb_chain.
  - intros y Hy. destruct (absorb_back mi y Hy) as (x & Hx & _ & E & _). rewrite decide_False in E by lia.
    rewrite E. by apply (fs_ahead _ _ (gr_fusion _ _ _ G) mi); [lia|].
  - intros j Hj. destruct (Nat.le_gt_cases j t); [apply absorb_deleted, (gr_deleted _ _ _ G); lia|].
    apply absorb_between. lia.
Qed.

End Absorb.

(** The pass: each head starts a superinstruction and takes one member or two. *)
Lemma growing_start pc i x f :
  (forall y, fused (f y) = fused y /\ fused_with (f y) = fused_with y /\ deleted (f y) = deleted y) ->
  fusion pc i -> live_at pc i x -> growing (upd i f pc) i i.
Proof.
  intros Hf F [Hx Hd]. pose proof (fusion_upd pc i i f Hf F) as F'.
  pose proof (lookup_upd_eq i f pc x Hx) as Hx'. split.
  - by apply (fusion_le _ i); [|lia].
  - exists (f x). split; [done|]. destruct (Hf x) as (_ & _ & E). congruence.
  - done.
  - intros y Hy. by apply (fs_ahead _ _ F' i).
  - intros j Hj. lia.
Qed.

Lemma member_next pc t mi m pc0 :
  (forall j, t < j -> insns pc !! j = insns pc0 !! j) -> next_unjoined pc0 t = Some (mi, m) ->
  live_at pc mi m /\ t < mi /\ forall j, t < j < mi -> deleted_at pc j.
Proof.
  intros He Hn. destruct (next_unjoined_spec _ _ _ _ Hn) as ([Hx Hd] & Hlt & Hs & _). split_and!; [|done|].
  - split; [|done]. by rewrite He.
  - intros j Hj. destruct (skip_between pc0 (S t) j) as (y & Hy & ?); [lia|]. exists y. by rewrite He by lia.
Qed.

Lemma fuse_at_fusion pc i pc' last : fusion pc i -> fuse_at pc i = Some (pc', last) -> fusion pc' (S last).
Proof.
  intros F H. unfold fuse_at in H. apply bind_Some in H as (a & Hx & H).
  apply require_Some in H as [Hd%negb_true_iff H]. apply bind_Some in H as ([bi b] & Hb & H). cbn [fst snd] in H.
  assert (Hup : forall f j, i < j -> insns (upd i f pc) !! j = insns pc !! j) by (intros; apply lookup_upd_ne; lia).
  assert (Hg : forall f, (forall y, fused (f y) = fused y /\ fused_with (f y) = fused_with y /\ deleted (f y) = deleted y) ->
            growing (peep_absorb (upd i f pc) i i bi b) i bi).
  { intros f Hf. destruct (member_next (upd i f pc) i bi b pc (Hup f) Hb) as (Hl & Hlt & Hgap).
    apply absorb_growing; [|done..]. by apply (growing_start pc i a). }
  destruct (fuse_triple pc i a bi b) as [[q l]|] eqn:E3.
  - injection H as -> ->. unfold fuse_triple in E3. apply bind_Some in E3 as ([ci c] & Hc & E3).
    apply bind_Some in E3 as (o & _ & E3). injection E3 as <- <-. cbn [fst snd].
    set (q := peep_absorb (upd i (set_op o) pc) i i bi b).
    destruct (member_next q bi ci c pc) as (Hl & Hlt & Hgap); [|done|].
    { intros j Hj. unfold q, peep_absorb. destruct (next_unjoined_spec _ _ _ _ Hb) as (_ & ? & _).
      by rewrite !lookup_upd_ne by lia. }
    apply (gr_fusion _ i ci). apply absorb_growing; [by apply Hg|done..].
  - clear E3. unfold fuse_pair in H. destruct (peep_fused_opcode (op a) (op b)) as [o|].
    + injection H as <- <-. apply (gr_fusion _ i bi). by apply Hg.
    + apply bind_Some in H as (k & _ & H). injection H as <- <-. apply (gr_fusion _ i bi). by apply Hg.
Qed.

Lemma fuse_loop_fusion fuel pc i n : fusion pc i -> exists j, fusion (fuse_loop fuel pc i n).1 j.
Proof.
  revert pc i n. induction fuel as [|fuel IH]; intros pc i n F; cbn [fuse_loop]; [by eexists|].
  destruct (i <? count pc); [|by eexists]. destruct (fuse_at pc i) as [[pc' last]|] eqn:E.
  - eapply IH, fuse_at_fusion; eauto.
  - eapply IH, fusion_le; eauto.
Qed.

Lemma rewrite_fusion pool code pc fuse :
  peep_decode pool code = Some pc -> exists j, fusion (peep_rewrite fuse pc).1 j.
Proof.
  intros H%decode_bounded. apply (peep_rounds_bounded _ _ _ 8 pc 0) in H. unfold peep_rewrite.
  destruct (peep_rounds 8 pc 0) as [q m]. cbn [fst] in H. apply mark_targets_bounded in H.
  assert (F : fusion (peep_mark_targets q) 0).
  { split.
    - intros j x _ Hx. by apply (bd_single _ _ _ _ H j x).
    - intros a b (x & Hx & Hw). destruct (bd_single _ _ _ _ H a x eq_refl Hx). congruence.
    - intros j x Hx Hu. destruct (bd_single _ _ _ _ H j x eq_refl Hx). congruence. }
  unfold peep_fuse. destruct fuse; [|by exists 0].
  destruct (fuse_loop_fusion (S (count (peep_mark_targets q))) _ 0 0 F) as [j Hj]. exists j.
  by destruct (fuse_loop _ _ _ _).
Qed.

(** ** The search *)

(** The binary search finds the boundary; the fuel is enough for the
    interval. *)
Lemma line_bound_spec fuel l want lo hi :
  sorted_positions l -> lo <= hi <= length l -> hi - lo < fuel ->
  (forall j x, l !! j = Some x -> j < lo -> old_pos x < want) ->
  (forall j x, l !! j = Some x -> hi <= j -> want <= old_pos x) ->
  let i := lower_bound fuel l want lo hi in
  i <= length l /\ forall j x, l !! j = Some x -> j < i <-> old_pos x < want.
Proof.
  intros Hs. revert lo hi. induction fuel as [|fuel IH]; intros lo hi Hn Hf Hlo Hhi; [lia|].
  cbn [lower_bound]. cbv zeta. destruct (lo <? hi) eqn:Hlt.
  2: { split; [lia|]. intros j x Hx. split; [by apply Hlo|]. intros ?.
       destruct (Nat.lt_ge_cases j lo); [done|]. specialize (Hhi j x Hx). lia. }
  set (mid := lo + (hi - lo) / 2).
  assert (Hmid : lo <= mid < hi).
  { unfold mid. pose proof (Nat.div_lt (hi - lo) 2 ltac:(lia) ltac:(lia)). lia. }
  destruct (lookup_lt_is_Some_2 l mid) as [y Hy]; [lia|]. rewrite Hy. destruct (old_pos y <? want) eqn:Hw.
  - apply IH; [lia..| |done]. intros j x Hx Hj. destruct (decide (j = mid)) as [->|]; [simplify_eq; lia|].
    pose proof (Hs j mid x y Hx Hy). lia.
  - apply IH; [lia..|done|]. intros j x Hx Hj. destruct (decide (j = mid)) as [->|]; [simplify_eq; lia|].
    pose proof (Hs mid j y x Hy Hx). lia.
Qed.

Lemma search_first pc p : sorted_positions (insns pc) ->
  first_at pc p (lower_bound (S (count pc)) (insns pc) p 0 (count pc)).
Proof.
  intros Hs. apply line_bound_spec; [done|unfold count; lia|lia|lia|]. intros j x Hx Hj.
  apply lookup_lt_Some in Hx. unfold count in Hj. lia.
Qed.

Lemma first_at_fun pc p i j : first_at pc p i -> first_at pc p j -> i = j.
Proof.
  assert (H : forall i j, first_at pc p i -> first_at pc p j -> ~ i < j).
  { intros a b [_ Ha] [Hb Hb'] Hlt. destruct (lookup_lt_is_Some_2 (insns pc) a) as [x Hx]; [unfold count in *; lia|].
    apply (Hb' a x Hx), (Ha a x Hx) in Hlt. lia. }
  intros Hi Hj. pose proof (H i j Hi Hj). pose proof (H j i Hj Hi). lia.
Qed.

(** [while (idx > 0 && DELETED) idx--] ends at the live instruction before. *)
Lemma back_to_head pc h i x :
  live_at pc h x -> h <= i -> (forall j, h < j <= i -> deleted_at pc j) -> back_to_live (insns pc) i = h.
Proof.
  intros [Hx Hd]. induction i as [|i IH]; intros Hi Hdel; cbn [back_to_live]; [lia|].
  destruct (decide (h = S i)) as [->|]; [by rewrite Hx, Hd|].
  destruct (Hdel (S i)) as (y & -> & ->); [lia|]. apply IH; [lia|]. intros j Hj. apply Hdel. lia.
Qed.

(** peep_encode finds the instruction that runs the code the entry is
    about, if there is one. *)
Lemma line_index_covers pc n p k x :
  fusion pc n -> sorted_positions (insns pc) ->
  covers pc p k /\ insns pc !! k = Some x <-> line_index pc p = k /\ live_at pc k x.
Proof.
  intros F Hs. pose proof (search_first pc p Hs) as Hi. unfold line_index.
  set (i := lower_bound (S (count pc)) (insns pc) p 0 (count pc)) in *. clearbody i.
  assert (Hf : forall h y, live_at pc h y -> absorbed_by pc h i ->
            match insns pc !! i with Some x => if fused x then back_to_live (insns pc) i else i | None => i end = h).
  { intros h y Hh Ha. destruct (absorbed_fused _ _ _ _ F Ha) as (z & -> & ->).
    destruct (absorbed_deleted _ _ _ _ F Ha). apply (back_to_head _ _ _ y); [done|lia|done]. }
  assert (Hn : ~ (exists h, absorbed_by pc h i) ->
            match insns pc !! i with Some x => if fused x then back_to_live (insns pc) i else i | None => i end = i).
  { intros Hno. destruct (insns pc !! i) as [y|] eqn:Hy; [|done]. destruct (fused y) eqn:Hu; [|done].
    destruct (fs_head _ _ F i y Hy Hu) as (h & _ & _ & ?). destruct Hno. by exists h. }
  split.
  - intros [[[y Hl] (i' & Hi' & Hc)] Hx]. pose proof Hl as [Hy _]. assert (y = x) as -> by congruence.
    rewrite (first_at_fun _ _ _ _ Hi' Hi) in Hc. split; [|done]. destruct Hc as [Ha|(Hno & Hle & Hd)].
    + rewrite (Hf k x Hl Ha). by apply (skip_stop _ _ x).
    + rewrite (Hn Hno), (skip_over _ _ k) by done. by apply (skip_stop _ _ x).
  - intros [E Hl]. split; [|by destruct Hl]. split; [by exists x|]. exists i. split; [done|].
    destruct (insns pc !! i) as [y|] eqn:Hy; [destruct (fused y) eqn:Hu|].
    + destruct (fs_head _ _ F i y Hy Hu) as (h & z & Hz & Ha). rewrite (Hf h z Hz Ha), (skip_stop _ _ z) in E by done.
      left. by rewrite <- E.
    + right. split_and!.
      * intros [h Ha]. destruct (absorbed_fused _ _ _ _ F Ha) as (? & ? & ?). congruence.
      * rewrite <- E. apply skip_ge.
      * intros j Hj. rewrite <- E in Hj. by eapply skip_between.
    + apply lookup_ge_None_1 in Hy. pose proof (live_lt _ _ _ Hl) as Hlt. unfold count in Hlt.
      pose proof (skip_ge pc i). lia.
Qed.

(** A surviving instruction runs what was at its own position. *)
Lemma covers_own pc k x : sorted_positions (insns pc) -> (exists n, fusion pc n) -> live_at pc k x -> covers pc (old_pos x) k.
Proof.
  intros Hs [n F] Hl. split; [by exists x|]. exists k. pose proof Hl as [Hx Hd]. split.
  - split; [pose proof (live_lt _ _ _ Hl); lia|]. intros j y Hy. split; [by apply (Hs j k)|]. intros Hp.
    destruct (Nat.lt_trichotomy j k) as [?|[->|Hlt]]; [done|simplify_eq; lia|]. pose proof (Hs k j x y Hx Hy Hlt). lia.
  - right. split_and!; [|done|intros; lia]. intros [h Ha]. destruct (absorbed_deleted _ _ _ _ F Ha) as [Hlt Hdel].
    destruct (Hdel k) as (y & Hy & Hdy); [lia|]. congruence.
Qed.

(** The positions assigned before do not matter to the search. *)
Lemma lower_bound_placed pc fuel p lo hi :
  lower_bound fuel (insns (placed pc)) p lo hi = lower_bound fuel (insns pc) p lo hi.
Proof.
  revert lo hi. induction fuel as [|fuel IH]; intros lo hi; cbn [lower_bound]; [done|].
  destruct (lo <? hi); [|done]. rewrite placed_lookup. destruct (insns pc !! _) as [x|]; [|done]. cbn.
  rewrite !IH. by destruct (deleted x).
Qed.

Lemma back_to_live_placed pc i : back_to_live (insns (placed pc)) i = back_to_live (insns pc) i.
Proof.
  induction i as [|i IH]; cbn [back_to_live]; [done|]. rewrite placed_lookup.
  destruct (insns pc !! S i) as [x|]; [|done]. cbn. destruct (deleted x) eqn:Hd; cbn; by rewrite ?Hd.
Qed.

Lemma line_index_placed pc p : line_index (placed pc) p = line_index pc p.
Proof.
  unfold line_index. rewrite placed_skip, lower_bound_placed. unfold count. rewrite placed_count. f_equal.
  rewrite placed_lookup. destruct (insns pc !! _) as [x|]; [|done]. cbn [fmap option_fmap option_map]. rewrite back_to_live_placed. by destruct (deleted x).
Qed.

Section Remap.
Context (pc : PeepCode).
Abbreviation at_entry e := (insns pc !! line_index pc (pc_of e)).

(** What the loop has made of the entries [lines] read so far: the first entry
    for an instruction gives it its line. *)
Record remapped (lines : list CL_LineEntry) (acc : list CL_LineEntry * option nat) : Prop := {
  rm_length : length acc.1 <= length lines;
  rm_from e' : e' ∈ acc.1 -> exists e x, e ∈ lines /\ line e' = line e /\ at_entry e = Some x /\ pc_of e' = new_pos x;
  rm_kept l1 e l2 x : lines = l1 ++ e :: l2 -> at_entry e = Some x ->
    exists e', e' ∈ acc.1 /\ pc_of e' = new_pos x /\
      ((forall e0 y, e0 ∈ l1 -> at_entry e0 = Some y -> new_pos y <> new_pos x) -> line e' = line e);
  rm_last p : acc.2 = Some p -> exists e', e' ∈ acc.1 /\ pc_of e' = p }.

Lemma snoc_split {A} (l l1 l2 : list A) a b : l ++ [a] = l1 ++ b :: l2 ->
  (exists l3, l = l1 ++ b :: l3) \/ l1 = l /\ b = a.
Proof.
  destruct l2 as [|c l2 _] using rev_ind.
  - intros [<- [= <-]]%app_inj_tail. by right.
  - rewrite app_comm_cons, app_assoc. intros [-> _]%app_inj_tail. left. by exists l2.
Qed.

Lemma remap_line_spec lines acc e : remapped lines acc -> remapped (lines ++ [e]) (remap_line pc acc e).
Proof.
  intros [H1 H2 H3 H4]. unfold remap_line.
  assert (Hfrom : forall e', e' ∈ acc.1 -> exists e0 x, e0 ∈ lines ++ [e] /\ line e' = line e0 /\
    at_entry e0 = Some x /\ pc_of e' = new_pos x).
  { intros e' He'. destruct (H2 e' He') as (e0 & x & Hin & ?). exists e0, x. split; [|done].
    apply elem_of_app. by left. }
  destruct (at_entry e) as [y|] eqn:Hy.
  - case_decide as Hlast.
    + split; [rewrite length_app; cbn; lia|done| |done].
      intros l1 e0 l2 x [[l3 ->]|[-> ->]]%snoc_split Hx; [by eapply H3|]. simplify_eq.
      destruct (H4 _ Hlast) as (e' & He' & Hp). exists e'. split_and!; [done..|]. intros Hno.
      destruct (H2 e' He') as (e0 & x0 & Hin & _ & Hx0 & Hp0). destruct (Hno e0 x0 Hin Hx0). congruence.
    + assert (Hnew : {| pc_of := new_pos y; line := line e |} ∈ acc.1 ++ [{| pc_of := new_pos y; line := line e |}]).
      { apply elem_of_app. right. apply list_elem_of_here. }
      split; cbn [fst snd].
      * rewrite !length_app. cbn. lia.
      * intros e' [He'|He'%list_elem_of_singleton]%elem_of_app; [by apply Hfrom|]. subst e'.
        exists e, y. split; [|done]. apply elem_of_app. right. apply list_elem_of_here.
      * intros l1 e0 l2 x [[l3 ->]|[-> ->]]%snoc_split Hx.
        -- destruct (H3 _ e0 _ x eq_refl Hx) as (e' & He' & ?). exists e'. split; [|done]. apply elem_of_app. by left.
        -- simplify_eq. by eexists.
      * intros p [= <-]. by eexists.
  - split; [rewrite length_app; cbn; lia|done| |done].
    intros l1 e0 l2 x [[l3 ->]|[-> ->]]%snoc_split Hx; [by eapply H3|congruence].
Qed.

Lemma remap_lines_spec lines : remapped lines (foldl (remap_line pc) ([], None) lines).
Proof.
  induction lines as [|e lines IH] using rev_ind.
  - split; cbn; try done; [by intros ? ?%elem_of_nil|]. by intros [].
  - rewrite foldl_app. cbn [foldl]. by apply remap_line_spec.
Qed.

End Remap.
