(* ===== verification/PeepRelabel.v ===== *)
(** * The emitted code runs as the list does

    The encoder gives the live instructions new places.  [VMLabels] says that
    the machine treats control addresses as opaque: renaming the labels of the
    registered landings and of an instruction's jump renames the labels of the
    outcome and nothing else, and the bytes of a jump offset are not looked
    at.  Under it the re-decoded code is in lockstep with the list. *)

From Stdlib Require Import ZArith Lia ZifyBool.
From stdpp Require Import base option list sets.
From S2P Require Import Prelude Opcodes PeepCode Peephole Machine PeepSim PeepWf PeepRules PeepDecode.
From S2P Require Import PeepFusion PeepEncode.

(** Operand bytes equal but for the jump offset. *)
Definition same_operands (o : opcode) (args args' : list Z) : Prop :=
  length args' = length args /\
  forall i, (cl_opnd_jrel_pos (opcode_operands o) <> 0 -> S i < cl_opnd_jrel_pos (opcode_operands o)) ->
    byte_at args' i = byte_at args i.

Definition relabel_landing (r : nat -> nat) (e : landing) : landing :=
  {| l_cleanup := l_cleanup e; l_label := r (l_label e); l_entries := l_entries e |}.

Section Labels.
Context {val world result : Type}.

Definition relabel_frame (rw : world -> world) (f : frame val world) : frame val world :=
  Frame (locals f) (stack f) (mv_count f) (rw (rest f)).

Definition relabel_outcome (r : nat -> nat) (rw : world -> world) (o : outcome val world result)
    : outcome val world result :=
  match o with
  | Next f => Next (relabel_frame rw f)
  | Jump f => Jump (relabel_frame rw f)
  | Goto l k f => Goto (r l) k (relabel_frame rw f)
  | Done x => Done x
  | Stuck => Stuck
  end.

Class VMLabels (V : VM val world result) : Type := {
  relabel : (nat -> nat) -> world -> world;
  relabel_fresh r w : landings w = [] -> relabel r w = w;
  relabel_landings r w : landings (relabel r w) = relabel_landing r <$> landings w;
  relabel_upvalue r w n : upvalue (relabel r w) n = upvalue w n;
  relabel_global r w v : global_value (relabel r w) v = global_value w v;
  relabel_numeric r a b w :
    numeric_equal a b (relabel r w) = ((numeric_equal a b w).1, relabel r (numeric_equal a b w).2);
  relabel_compare r a b w :
    arith_compare a b (relabel r w) = ((arith_compare a b w).1, relabel r (arith_compare a b w).2);
  relabel_return r v n w : vm_return v n (relabel r w) = vm_return v n w;
  relabel_signal r e f : signal e (relabel_frame (relabel r) f) = relabel_outcome r (relabel r) (signal e f);
  relabel_other r o args args' tgt f : same_operands o args args' ->
    exec_other o args' (r <$> tgt) (relabel_frame (relabel r) f)
    = relabel_outcome r (relabel r) (exec_other o args tgt f) }.

End Labels.

Section Exec.
Context {val world result : Type} {V : VM val world result} {B : VMLabels V}.

Lemma same_operands_refl o args : same_operands o args args.
Proof. by split. Qed.

Lemma bytes_eq (l l' : list Z) : length l' = length l -> (forall i, byte_at l' i = byte_at l i) -> l' = l.
Proof.
  intros En E. apply list_eq_same_length with (length l); [done..|]. intros i x y Hi Hx Hy.
  specialize (E i). unfold byte_at in E.
  rewrite (nth_lookup_Some l' i 0%Z x), (nth_lookup_Some l i 0%Z y) in E by done. done.
Qed.

Lemma same_operands_eq o args args' :
  cl_opnd_jrel_pos (opcode_operands o) = 0 -> same_operands o args args' -> args' = args.
Proof. intros Ho [En E]. apply bytes_eq; [done|]. intros i. apply E. lia. Qed.

Ltac rewrite_labels :=
  rewrite ?relabel_global, ?relabel_upvalue, ?relabel_numeric, ?relabel_compare, ?relabel_return; cbn.

Ltac open_label :=
  autounfold with vm_cases; cbn; rewrite_labels; repeat (case_match; simplify_eq/=; rewrite_labels); try done.

(** The compare behind CMP_BR. *)
Lemma compare_kind_relabel r a b cmp w :
  cl_vm_compare_kind a b cmp (relabel r w) =
  match cl_vm_compare_kind a b cmp w with inl (h, w) => inl (h, relabel r w) | inr e => inr e end.
Proof. unfold cl_vm_compare_kind. open_label. Qed.

(** The bytes a jumping instruction reads are before its offset. *)
Lemma same_index o args args' :
  3 <= cl_opnd_jrel_pos (opcode_operands o) -> same_operands o args args' -> peep_read_u16 args' = peep_read_u16 args.
Proof. intros Ho [_ E]. apply read_u16_ext. intros i Hi. apply E. lia. Qed.

Lemma same_byte o args args' :
  2 <= cl_opnd_jrel_pos (opcode_operands o) -> same_operands o args args' -> byte_at args' 0 = byte_at args 0.
Proof. intros Ho [_ E]. apply E. lia. Qed.

(** Renaming the labels before an instruction or after it is the same. *)
Lemma exec_relabel r o args args' tgt (f : frame val world) :
  same_operands o args args' ->
  exec o args' (r <$> tgt) (relabel_frame (relabel r) f) = relabel_outcome r (relabel r) (exec o args tgt f).
Proof.
  intros Hs. destruct (decide (cl_opnd_jrel_pos (opcode_operands o) = 0)) as [Hj|Hj].
  - pose proof (same_operands_eq _ _ _ Hj Hs) as ->. clear Hs.
    destruct f as [l s m w]; destruct o; try discriminate Hj; try done; cbn [exec];
      try (by apply (relabel_other r _ _ _ _ (Frame _ _ _ _)), same_operands_refl);
      unfold relabel_frame; open_label;
      try (apply (relabel_signal r _ (Frame _ _ _ _)));
      apply (relabel_other r _ _ _ None (Frame _ _ _ _)), same_operands_refl.
  - destruct f as [l s m w]; destruct o; try done; cbn [exec]; try (by apply relabel_other);
      try assert (Hi : peep_read_u16 args' = peep_read_u16 args) by (eapply same_index; [|exact Hs]; cbn; lia);
      try assert (Hb : byte_at args' 0 = byte_at args 0) by (eapply same_byte; [|exact Hs]; cbn; lia);
      clear Hs Hj; unfold relabel_frame.
    all: try (by unfold op_cmp_br; rewrite Hb; cbv zeta; generalize (byte_at args 0); intros kind;
      destruct s as [|? [|? ?]]; [done..|]; unfold pop; cbn; rewrite !compare_kind_relabel; open_label;
      apply (relabel_signal r _ (Frame _ _ _ _))).
    all: unfold op_gload_jnil, op_gload_eq_jnil, op_load_jnil, const; rewrite ?Hi, ?Hb; open_label;
      try (apply (relabel_signal r _ (Frame _ _ _ _))).
Qed.

End Exec.

(** ** Ranks *)

Lemma rank_deleted pc i j : i <= j -> (forall k, i <= k < j -> deleted_at pc k) -> rank pc j = rank pc i.
Proof.
  intros Hle. remember (j - i) as n eqn:En. revert i Hle En. induction n as [|n IH]; intros i Hle En H.
  - by replace j with i by lia.
  - destruct (H i) as (x & Hx & Hd); [lia|]. rewrite (IH (S i)); [|lia..|intros; apply H; lia].
    rewrite (rank_S _ _ _ Hx), Hd. lia.
Qed.

Lemma rank_skip pc j : rank pc (skip_deleted pc j) = rank pc j.
Proof. apply rank_deleted; [apply skip_ge|]. intros; by eapply skip_between. Qed.

Lemma rank_end pc j : insns pc !! j = None -> rank pc j = rank pc (count pc).
Proof. intros Hj%lookup_ge_None_1. unfold rank, count. by rewrite !take_ge by lia. Qed.

Lemma decode_live pool code pc j x : peep_decode pool code = Some pc -> insns pc !! j = Some x -> deleted x = false.
Proof.
  intros (l & Hl & _ & _ & H)%decode_lookup Hx. destruct (H j x Hx) as (y & Hy & Hc & _).
  destruct (fr_plain _ _ _ (laid_fresh _ _ _ _ _ _ Hl Hy)) as (_ & _ & Hd & _).
  by destruct Hc as [->|[-> _]].
Qed.

(** ** Lockstep *)

Section Lockstep.
Context {val world result : Type} {V : VM val world result} {B : VMLabels V}.
Context (pc pc2 : PeepCode) (i : nat).
Context {L : VMLaws (constants pc) V}.
Hypothesis Z : fusing pc i.
Hypothesis Hdec : peep_decode (constants pc) (emit (placed pc)) = Some pc2.
Hypothesis Hcount : count pc2 = rank pc (count pc).
Hypothesis Hre : forall j x, live_at pc j x -> exists y, insns pc2 !! rank pc j = Some y /\ re_encoded pc j x y.

Abbreviation r := (renumber pc).
Abbreviation moved := (relabel_frame (val:=val) (relabel r)).

Lemma landing_rank e k : code_landing (pool:=constants pc) pc e -> k < l_entries e ->
  r (l_label e) + k = rank pc (l_label e + k).
Proof.
  intros (j & x & Hl & He) Hk. unfold renumber. rewrite rank_skip. unfold lands_of in He.
  destruct (registers (op x)) eqn:Hreg; [|by rewrite registers_none, elem_of_nil in He].
  rewrite (plain_operands pc j x) in He by (apply Hl || by apply (fz_registers _ _ Z j)).
  assert (Hone : k = 0 -> rank pc (l_label e) + k = rank pc (l_label e + k)) by (intros ->; by rewrite !Nat.add_0_r).
  revert He Hk Hone. unfold insn_landings. destruct (jump_target x) as [t|] eqn:Ht;
    repeat case_match; try (by intros ?%elem_of_nil);
    rewrite list_elem_of_singleton; intros ->; cbn; intros; try (apply Hone; lia).
  symmetry. apply table_rank. intros m Hm.
  destruct (fz_tables _ _ Z j x t len m Hl) as (y & Hy & Hp); [done..|lia|].
  exists y. split; [done|]. by apply (fz_pinned _ _ Z _ y Hy Hp).
Qed.

Lemma moved_operands j x y : live_at pc j x -> re_encoded pc j x y ->
  same_operands (op x) (operand_bytes (insns pc) j x) (body y).
Proof.
  intros Hl R. split; [apply R|]. intros k Hk. apply (re_args _ _ _ _ R). intros Hj. apply Hk.
  by apply (co_jump _ _ _ (fz_code _ _ Z j x Hl)).
Qed.

(** States at the same place, the labels renamed. *)
Definition in_step (s s2 : state (val:=val) (world:=world)) : Prop :=
  s2 = (rank pc s.1, moved s.2) /\ registered_ok (pool:=constants pc) pc s.2.

Definition status_in_step (st st2 : status (val:=val) (world:=world) (result:=result)) : Prop :=
  match st, st2 with
  | Running s, Running s2 => in_step s s2
  | Final x, Final x2 => x = x2
  | Wrong, Wrong => True
  | _, _ => False
  end.

Lemma step_in_step s s2 : in_step s s2 -> status_in_step (step pc s) (step pc2 s2).
Proof.
  destruct s as [j f]. intros [-> Hr]. cbn [fst snd] in *.
  destruct (step pc (j, f)) as [[j1 f1]|x|] eqn:E; pose proof E as E0; unfold step in E; cbn [fst snd] in E.
  all: unfold step; cbn [fst snd]; rewrite <- (rank_skip pc j).
  all: set (k := skip_deleted pc j) in *.
  all: destruct (insns pc !! k) as [x'|] eqn:Hx; [|try done].
  4: { rewrite (rank_end pc k) by done. rewrite skip_end by lia.
       rewrite lookup_ge_None_2; [done|]. rewrite <- Hcount. unfold count. lia. }
  all: pose proof (skip_live _ _ _ Hx : live_at pc k x') as Hl.
  all: destruct (Hre k x' Hl) as (y & Hy & R).
  all: rewrite (skip_stop pc2 _ y) by (split; [done|by eapply decode_live]); rewrite Hy.
  all: rewrite (operand_bytes_plain pc2) by (done || by eapply decode_well_formed).
  all: rewrite (re_op _ _ _ _ R), (re_jump _ _ _ _ R), (exec_relabel r _ _ _ _ f (moved_operands k x' y Hl R)).
  all: pose proof (exec_lands (pool:=constants pc) (op x') (operand_bytes (insns pc) k x') (jump_target x') f) as Hla.
  all: fold (lands_of (pool:=constants pc) pc k x') in Hla.
  all: destruct (exec _ _ _ f) as [g|g|l m g|z|] eqn:Ex; try done; cbn [relabel_outcome].
  all: try (by destruct (jump_target x')).
  - injection E as <- <-. split; cbn [fst snd]; [|by eapply registered_step].
    by rewrite (rank_S _ _ _ Hx), (proj2 Hl), Nat.add_1_r.
  - destruct (jump_target x') as [t|]; [|done]. injection E as <- <-. cbn [fmap option_fmap option_map].
    split; cbn [fst snd]; [|by eapply registered_step]. unfold renumber. by rewrite rank_skip.
  - injection E as <- <-. split; cbn [fst snd]; [|by eapply registered_step]. f_equal.
    destruct Hla as [(e & He & <- & Hk) _]. apply landing_rank; [|done].
    apply elem_of_app in He as [He|He]; [by apply Hr|]. by exists k, x'.
  - by injection E as <-.
Qed.

Lemma run_in_step n s s2 : in_step s s2 -> status_in_step (run n pc s) (run n pc2 s2).
Proof.
  revert s s2. induction n as [|n IH]; intros s s2 H; cbn [run]; [done|].
  pose proof (step_in_step s s2 H) as Hst. destruct (step pc s), (step pc2 s2); try done. by apply IH.
Qed.

(** The re-decoded code refines the list it was emitted from. *)
Lemma re_encoded_refines : refines (val:=val) (world:=world) pc pc2.
Proof.
  intros f Hf Hs. assert (H : in_step (0, f) (0, f)).
  { split; cbn [fst snd].
    - unfold relabel_frame. rewrite relabel_fresh by done. by destruct f.
    - intros e He. rewrite Hf in He. by apply elem_of_nil in He. }
  split.
  - intros n E. pose proof (run_in_step n _ _ H) as R. rewrite E in R. specialize (Hs n).
    destruct (run n pc (0, f)); [done|done|by destruct Hs].
  - intros x. split; intros [n E]; exists n; pose proof (run_in_step n _ _ H) as R; rewrite E in R.
    + destruct (run n pc2 (0, f)); cbn in R; by subst.
    + destruct (run n pc (0, f)); cbn in R; by subst.
Qed.

End Lockstep.
