(* ===== verification/Example.v ===== *)
(** * A small machine, and examples of the peephole pass on it

    [tiny] is an instance of [VM] that keeps the promises of [VMLaws]: objects
    are fixnums, characters and symbols, an UNWIND-PROTECT registers its
    landing, an error is caught by the innermost landing, and the call of
    symbol 9 leaves the activation with the caller's cl_mv_count, as the
    builtin behind THROW does. *)

From Stdlib Require Import ZArith Lia ZifyBool.
From stdpp Require Import base option list sets.
From S2P Require Import Prelude Opcodes PeepCode Peephole Machine PeepSim PeepWf PeepRules PeepFuse PeepFusion PeepRelabel.

Inductive obj : Set := Fixnum (n : Z) | Character (c : Z) | Symbol (n : nat).

#[export] Instance obj_eq_dec : EqDecision obj.
Proof. solve_decision. Defined.

(** How the activation ends: a value with its count, or an error. *)
Inductive ending : Set := Returned (v : obj) (mv : Z) | Thrown (mv : Z) | Failed (e : vm_error obj).

Definition tiny_signal (e : vm_error obj) (f : frame obj (list landing)) : outcome obj (list landing) ending :=
  match rest f with
  | l :: ls => if 0 <? l_entries l then
                 Goto (l_label l) 0 (Frame (locals f) []
                   (if l_cleanup l then mv_count f else 1%Z) ls)
               else Done (Failed e)
  | [] => Done (Failed e)
  end.

Definition tiny_other (o : opcode) (args : list Z) (tgt : option nat) (f : frame obj (list landing))
    : outcome obj (list landing) ending :=
  match o, tgt with
  | OP_CALL_GLOBAL, _ =>
      if (peep_read_u16 args =? 9)%Z then Done (Thrown (mv_count f))
      else Next (Frame (locals f) (Fixnum 42 :: stack f) 1 (rest f))
  | OP_UWPROT, Some t =>
      Next (Frame (locals f) (stack f) (mv_count f)
             ({| l_cleanup := true; l_label := t; l_entries := 1 |} :: rest f))
  | OP_UWPOP, _ => Next (Frame (locals f) (stack f) (mv_count f) (tail (rest f)))
  | _, _ => Stuck
  end.

#[export] Instance tiny : VM obj (list landing) ending := {
  word_eq a b := bool_decide (a = b);
  CL_NIL := Symbol 0;
  SYM_T := Symbol 1;
  constant n := Some (if n <? 20 then Symbol n else Fixnum (Z.of_nat n));
  upvalue _ n := Fixnum (Z.of_nat n);
  global_value _ v := match v with Symbol n => if n <? 15 then Some (Fixnum (Z.of_nat n)) else None | _ => None end;
  fixnum_val v := match v with Fixnum n => Some n | _ => None end;
  char_p v := match v with Character _ => true | _ => false end;
  number_p v := match v with Fixnum _ => true | _ => false end;
  real_p v := match v with Fixnum _ => true | _ => false end;
  numeric_equal a b w := (bool_decide (a = b), w);
  arith_compare _ _ w := (0%Z, w);
  vm_return v mv _ := Returned v mv;
  signal := tiny_signal;
  exec_other := tiny_other;
  landings w := w }.

Lemma tiny_signal_blind e : mv_blind (tiny_signal e) [].
Proof.
  intros [l s m w] [l' s' m' w'] (El & Es & Er). cbn in *. subst. unfold tiny_signal. cbn [rest].
  destruct w' as [|x w]; [done|]. destruct (0 <? l_entries x) eqn:Hn; [|done]. cbn.
  split_and!; [done|done|by destruct (l_cleanup x)|].
  destruct (l_cleanup x) eqn:Hc; [right|by left]. exists x. split_and!; [apply list_elem_of_here|done|lia|done].
Qed.

#[export] Instance tiny_laws pool : VMLaws pool tiny.
Proof.
  split; try done.
  - intros a b x y. destruct a, b; try done. intros [= ->] [= ->]. cbn.
    apply eq_true_iff_eq. rewrite bool_decide_eq_true, Z.eqb_eq. split; congruence.
  - intros e f. cbn. unfold tiny_signal. by repeat case_match.
  - apply tiny_signal_blind.
  - intros e f. cbn. unfold tiny_signal. destruct (rest f) as [|x w] eqn:Ew; [done|].
    destruct (0 <? l_entries x) eqn:Hn; [|done]. split; [|cbn; intros ? ?; by apply list_elem_of_further].
    exists x. split_and!; [apply list_elem_of_here|done|lia].
  - intros o args tgt Hf f f' (El & Es & Er). cbn. destruct o; try done; cbn; destruct tgt; cbn; try done;
      split_and!; cbn; congruence.
  - intros o args tgt Hr Hw. destruct o; try done; destruct tgt; split; done.
  - intros o args tgt f g Hu. by destruct o, tgt.
  - intros o args tgt f g. destruct o, tgt; cbn; try done; by case_match.
  - intros o args tgt f. destruct o, tgt; cbn; try done; rewrite ?app_nil_r; try case_match; try done; cbn.
    + intros x [->|Hx]%elem_of_cons; apply elem_of_app; [right; apply list_elem_of_here|by left].
    + destruct (rest f); [done|]. intros x Hx. by apply list_elem_of_further.
    + destruct (rest f); [done|]. intros x Hx. by apply list_elem_of_further.
    + done.
    + done.
Qed.


#[export] Instance tiny_labels : VMLabels tiny.
Proof.
  refine {| relabel r w := relabel_landing r <$> w |}.
  - intros r w Hw. cbn in Hw. by subst.
  - done.
  - done.
  - done.
  - done.
  - done.
  - done.
  - intros r e f. cbn. unfold tiny_signal, relabel_frame. destruct f as [l s m w]; cbn [rest].
    destruct w as [|x w]; [done|]. cbn. destruct (l_entries x); done.
  - intros r o args args' tgt f H. destruct f as [l s m w].
    destruct o; try (destruct tgt; done).
    + destruct tgt; cbn; unfold relabel_frame; cbn; by destruct w.
    + rewrite (same_operands_eq OP_CALL_GLOBAL args args' eq_refl H).
      destruct tgt; cbn; by destruct (peep_read_u16 args =? 9)%Z.
Defined.

(** ** Meeting the hypotheses *)

Section Easy.
Context {val world result : Type} {V : VM val world result}.

(** Code without UNWIND-PROTECT has no cleanups. *)
Lemma no_cleanups pool pc :
  forallb (fun x => negb (opcode_eqb (op x) OP_UWPROT)) (insns pc) = true ->
  cleanups_mv_dead (pool:=pool) (val:=val) (world:=world) pc.
Proof.
  intros H. exists (fun _ => False). split; [by intros j []|]. intros e (j & x & [Hx _] & He) Hc.
  rewrite forallb_forall in H. assert (Hin : In x (insns pc)) by (apply list_elem_of_In; by eapply list_elem_of_lookup_2).
  specialize (H x Hin). assert (Hl : l_cleanup e = false); [|congruence].
  clear Hc Hin Hx. revert He. unfold lands_of, insn_landings.
  destruct (op x); try discriminate H; destruct (jump_target x); repeat case_match;
    rewrite ?list_elem_of_singleton, ?elem_of_nil; try done; by intros ->.
Qed.

(** Code that calls no global function fuses no call. *)
Lemma no_calls pc :
  forallb (fun x => negb (opcode_eqb (op x) OP_CALL_GLOBAL)) (insns pc) = true ->
  gload_calls_ok (val:=val) (world:=world) (result:=result) pc 0.
Proof.
  intros H j x n y _ _ _ Hn Ho. destruct (next_unjoined_spec _ _ _ _ Hn) as ([Hy _] & _).
  rewrite forallb_forall in H. assert (Hin : In y (insns pc)) by (apply list_elem_of_In; by eapply list_elem_of_lookup_2).
  specialize (H y Hin). by rewrite Ho in H.
Qed.

End Easy.

(** LOAD 0; NOT; JNIL L; NIL; RET; L: LOAD 1; STORE 2; POP; LOAD 2; RET *)
Definition code1 : list Z :=
  [2; 0; 80; 97; 0; 0; 0; 2; 129; 114; 2; 1; 3; 2; 16; 2; 2; 114]%Z.

(** GLOAD 3; CALL_GLOBAL 9 with one argument; RET *)
Definition code2 : list Z := [4; 0; 3; 172; 0; 9; 1; 114]%Z.
