(* ===== verification/PeepCorrect.v ===== *)
(** * The peephole pass is correct

    The theorems about cl_peephole_run itself, from bytes to bytes. *)

From Stdlib Require Import ZArith Lia ZifyBool.
From stdpp Require Import base option list sets.
From S2P Require Import Prelude Opcodes PeepCode Peephole Machine PeepSim PeepWf PeepRules PeepRound.
From S2P Require Import PeepDecode PeepFuse PeepFusion PeepEncode PeepSize PeepLines PeepRelabel Example.

(** ** The pieces of a successful run *)

Lemma run_spec alloc fuse code pool lines code' lines' :
  cl_peephole_run alloc fuse code pool lines = Some (code', lines') ->
  exists pc, length code <= CL_PEEPHOLE_MAX_CODE /\ peep_decode pool code = Some pc /\
    jumps_land (peep_rewrite fuse pc).1 = true /\ peep_encode (peep_rewrite fuse pc).1 lines = (code', lines').
Proof.
  unfold cl_peephole_run. intros H. apply require_Some in H as [_ H]. apply require_Some in H as [Hn H].
  apply require_Some in H as [_ H]. apply bind_Some in H as (pc & Hd & H).
  destruct (peep_rewrite fuse pc) as [pc' total] eqn:E. apply require_Some in H as [_ H].
  apply require_Some in H as [Hl H]. exists pc. rewrite E. cbn [fst].
  split_and!; [by apply Nat.leb_le|done|done|congruence].
Qed.

Lemma encode_placed pc lines code' lines' : peep_encode pc lines = (code', lines') -> code' = emit (placed pc).
Proof. unfold peep_encode. intros H. by injection H as <- _. Qed.

(** The shape of the rewritten list needs no machine; any serves. *)
Lemma rewrite_fusing fuse pool code pc :
  peep_decode pool code = Some pc ->
  (exists j, fusing (peep_rewrite fuse pc).1 j) /\ constants (peep_rewrite fuse pc).1 = pool.
Proof.
  intros H. destruct (decode_well_formed _ _ _ H) as [W Ec].
  destruct (peep_rewrite_state (pool:=pool) (V:=tiny) (good:=False) fuse pc) as (Z & Hp & _); [by split|done|done].
Qed.

Lemma emit_shrinks fuse pool code pc :
  peep_decode pool code = Some pc -> length (emit (placed (peep_rewrite fuse pc).1)) <= length code.
Proof.
  intros H. destruct (rewrite_fusing fuse pool code pc H) as [[j Z] _].
  rewrite emit_length by apply (fz_code _ _ Z). unfold pos_of, count. rewrite take_ge by done.
  apply (bd_size _ _ _ _ (peep_rewrite_bounded _ _ fuse pc (decode_bounded _ _ _ H))).
Qed.

(** A successful run: the old code, the rewritten list and the new code. *)
Lemma run_decodes alloc fuse code pool lines code' lines' :
  cl_peephole_run alloc fuse code pool lines = Some (code', lines') ->
  exists pc j pc2, let pc' := (peep_rewrite fuse pc).1 in
    peep_decode pool code = Some pc /\ constants pc' = pool /\ fusing pc' j /\
    code' = emit (placed pc') /\ length code' <= length code /\
    peep_decode pool code' = Some pc2 /\ count pc2 = rank pc' (count pc') /\
    forall k x, live_at pc' k x -> exists y, insns pc2 !! rank pc' k = Some y /\ re_encoded pc' k x y.
Proof.
  intros (pc & Hn & Hd & Hl & He)%run_spec. destruct (rewrite_fusing fuse pool code pc Hd) as [[j Z] Hp].
  pose proof (emit_shrinks fuse pool code pc Hd) as Hs. apply encode_placed in He as ->.
  destruct (round_trip _ j Z Hl) as (pc2 & Hd2 & Hc & Hre).
  { unfold CL_PEEPHOLE_MAX_CODE in Hn. lia. }
  rewrite Hp in Hd2. exists pc, j, pc2. cbv zeta. split_and!; done.
Qed.

(** ** What is promised of the pass *)

(** C1: The optimised bytecode refines the original: whenever cl_peephole_run
    replaces a code, both decode, and from every fresh activation in which the
    original makes sense the new code makes sense, ends exactly when the
    original does and with the same result.  The machine is any that keeps the
    promises of the opcode table and treats labels as opaque.  Two hypotheses are
    on the original code: a cleanup that it pushes does not look at the
    cl_mv_count it inherits, and no global call that is fused with the GLOAD
    before it does either; without the second the fused call can end
    differently ([gload_call_global_count]).  Activations that are resumed in
    the middle, at a landing, are not claimed about. *)
Theorem cl_peephole_run_refines {val world result : Type} (V : VM val world result) pool
    (L : VMLaws pool V) (B : VMLabels V) alloc fuse code lines code' lines' :
  cl_peephole_run alloc fuse code pool lines = Some (code', lines') ->
  (forall pc, peep_decode pool code = Some pc ->
     cleanups_mv_dead (pool:=pool) (val:=val) (world:=world) pc /\
     (fuse = true -> fusible_calls_ok (val:=val) (world:=world) (result:=result) pc)) ->
  exists pc pc2, peep_decode pool code = Some pc /\ peep_decode pool code' = Some pc2 /\
    refines (val:=val) (world:=world) pc pc2.
Proof.
  intros (pc & j & pc2 & Hd & Hp & Z & -> & _ & Hd2 & Hc & Hre)%run_decodes Hyp.
  exists pc, pc2. split_and!; [done|done|]. destruct (Hyp pc Hd) as [HC Hg].
  destruct (decode_well_formed _ _ _ Hd) as [W Ec].
  destruct (peep_rewrite_state (pool:=pool) (V:=V) (good:=True) fuse pc) as (_ & _ & R); [by split|done|].
  specialize (R I). etrans; [exact R|]. rewrite <- Hp in L, Hd2.
  by eapply (re_encoded_refines _ pc2 j).
Qed.

Lemma cl_peephole_run_refines_witness :
  exists pc pc2, peep_decode None code1 = Some pc /\
    peep_decode None [182; 0; 98; 0; 0; 0; 2; 129; 114; 183; 1]%Z = Some pc2 /\
    refines (V:=tiny) pc pc2.
Proof.
  apply (cl_peephole_run_refines tiny None _ _ true true code1 [] _ []).
  - vm_compute. reflexivity.
  - intros pc Hpc. vm_compute in Hpc. injection Hpc as <-. split.
    + apply no_cleanups. vm_compute. reflexivity.
    + intros _. apply no_calls. vm_compute. reflexivity.
Defined.

(** C5: The replacement is never longer than the code it overwrites, so it
    fits the compiler's buffer. *)
Theorem cl_peephole_run_shrinks alloc fuse code pool lines code' lines' :
  cl_peephole_run alloc fuse code pool lines = Some (code', lines') -> length code' <= length code.
Proof. intros (pc & j & pc2 & _ & _ & _ & _ & H & _)%run_decodes. done. Qed.

Lemma cl_peephole_run_shrinks_witness :
  length [182; 0; 98; 0; 0; 0; 2; 129; 114; 183; 1]%Z <= length code1.
Proof. apply (cl_peephole_run_shrinks true true code1 None [] _ []). vm_compute. reflexivity. Defined.

(** C3: The encoder's output decodes to exactly the live instructions of the
    rewritten list in order: same opcodes, the operand bytes of a
    superinstruction those of its members one after the other, and every jump
    leading to the instruction the list's jump leads to. *)
Theorem encode_decode alloc fuse code pool lines code' lines' :
  cl_peephole_run alloc fuse code pool lines = Some (code', lines') ->
  exists pc pc2, let pc' := (peep_rewrite fuse pc).1 in
    peep_decode pool code = Some pc /\ peep_decode pool code' = Some pc2 /\
    count pc2 = rank pc' (count pc') /\
    forall k x, live_at pc' k x -> exists y, insns pc2 !! rank pc' k = Some y /\
      op y = op x /\ length (body y) = length (operand_bytes (insns pc') k x) /\
      (forall i, (is_Some (jump_target x) -> S i < cl_opnd_jrel_pos (opcode_operands (op x))) ->
         byte_at (body y) i = byte_at (operand_bytes (insns pc') k x) i) /\
      jump_target y = (fun t => rank pc' (skip_deleted pc' t)) <$> jump_target x.
Proof.
  intros (pc & j & pc2 & Hd & _ & _ & _ & _ & Hd2 & Hc & Hre)%run_decodes.
  exists pc, pc2. cbv zeta. split_and!; [done..|]. intros k x Hx. destruct (Hre k x Hx) as (y & Hy & []).
  exists y. done.
Qed.

Lemma encode_decode_witness :
  exists pc pc2, let pc' := (peep_rewrite true pc).1 in
    peep_decode None code1 = Some pc /\
    peep_decode None [182; 0; 98; 0; 0; 0; 2; 129; 114; 183; 1]%Z = Some pc2 /\
    count pc2 = rank pc' (count pc').
Proof.
  destruct (encode_decode true true code1 None [] [182; 0; 98; 0; 0; 0; 2; 129; 114; 183; 1]%Z [])
    as (pc & pc2 & H1 & H2 & H3 & _); [vm_compute; reflexivity|].
  exists pc, pc2. exact (conj H1 (conj H2 H3)).
Defined.

(** C4: Whatever peep_decode accepts is well formed, and nothing of the code
    is lost: the instructions' bytes one after the other are the code, each at
    its [old_pos], in increasing order. *)
Theorem peep_decode_code pool code pc :
  peep_decode pool code = Some pc ->
  well_formed pc /\ concat (raw <$> insns pc) = code /\
  (forall j x, insns pc !! j = Some x -> raw x = take (raw_len x) (drop (old_pos x) code)) /\
  (forall i j x y, insns pc !! i = Some x -> insns pc !! j = Some y -> i < j -> old_pos x + raw_len x <= old_pos y).
Proof.
  intros H. destruct (decode_well_formed _ _ _ H) as [W _].
  apply decode_lookup in H as (l & Hl & _ & En & H).
  assert (Hx' : forall j x', insns pc !! j = Some x' -> exists x, l !! j = Some x /\ fresh pool code x /\
            raw x' = raw x /\ old_pos x' = old_pos x /\ raw_len x' = raw_len x).
  { intros j x' Hx'. destruct (H j x' Hx') as (x & Hx & Hc & _). exists x.
    split_and!; [done|by eapply laid_fresh|..]; by destruct Hc as [->|[-> _]]. }
  split_and!; [done| | |].
  - rewrite <- (drop_0 code), <- (decode_bytes pool code 0 l Hl). f_equal. apply list_eq. intros j.
    rewrite !list_lookup_fmap. destruct (insns pc !! j) as [x'|] eqn:Ej.
    + destruct (Hx' j x' Ej) as (x & -> & _ & Er & _). cbn. by rewrite Er.
    + rewrite lookup_ge_None_2; [done|]. rewrite En. by apply lookup_ge_None_1.
  - intros j x' Ej. destruct (Hx' j x' Ej) as (x & _ & F & -> & -> & ->).
    by rewrite (fr_len _ _ _ F), (fr_raw _ _ _ F).
  - intros i j x' y' Ei Ej Hij. destruct (Hx' i x' Ei) as (x & Hx & F & _ & -> & ->).
    destruct (Hx' j y' Ej) as (y & Hy & _ & _ & -> & _).
    pose proof (laid_sorted _ _ _ _ _ _ _ _ Hl Hx Hy Hij). rewrite (fr_len _ _ _ F). lia.
Qed.

Lemma peep_decode_code_witness :
  match peep_decode None code1 with Some pc => well_formed pc /\ concat (raw <$> insns pc) = code1 | None => False end.
Proof.
  destruct (peep_decode None code1) as [pc|] eqn:H; [|vm_compute in H; discriminate H].
  destruct (peep_decode_code None code1 pc H) as (W & E & _). exact (conj W E).
Defined.

(** ** Superinstructions *)

(** C2: A fused opcode other than GLOAD_CALL_GLOBAL does what its members did:
    run on the members' operand bytes in order, its dispatch case gives the
    outcome of the members run one after the other, errors included (an error
    may be signalled with another cl_mv_count).  GLOAD_CALL_GLOBAL is the GLOAD
    and the CALL_GLOBAL with the cl_mv_count from before them put back in
    between, so that it is not their sequence ([gload_call_global_count]). *)
Theorem superinstructions_agree {val world result : Type} (V : VM val world result) pool (L : VMLaws pool V) :
  (forall a b o argsa argsb tgt f, peep_fused_opcode a b = Some o -> o <> OP_GLOAD_CALL_GLOBAL ->
     cl_opnd_len (opcode_operands a) = Some (length argsa) ->
     (cl_opnd_jrel_pos (opcode_operands b) = 0 -> tgt = None) ->
     agree f (seq (exec a argsa None f) (exec b argsb tgt)) (exec o (argsa ++ argsb) tgt f)) /\
  (forall a b c o argsa argsb argsc tgt f, peep_fused_opcode3 a b c = Some o ->
     cl_opnd_len (opcode_operands a) = Some (length argsa) ->
     cl_opnd_len (opcode_operands b) = Some (length argsb) ->
     agree f (seq (exec a argsa None f) (fun g => seq (exec b argsb None g) (exec c argsc tgt)))
             (exec o (argsa ++ argsb ++ argsc) tgt f)) /\
  (forall a b kind argsb tgt f, peep_cmp_br_kind a b = Some kind ->
     agree f (seq (exec a [] None f) (exec b argsb tgt)) (exec OP_CMP_BR (kind :: argsb) tgt f)) /\
  (forall argsa argsb f, cl_opnd_len (opcode_operands OP_GLOAD) = Some (length argsa) ->
     agree f (seq (exec OP_GLOAD argsa None f) (fun g => exec OP_CALL_GLOBAL argsb None (set_mv (mv_count f) g)))
             (exec OP_GLOAD_CALL_GLOBAL (argsa ++ argsb) None f)).
Proof.
  split_and!.
  - intros a b o argsa argsb tgt f Ho Hne Ha Ht. by apply pair_agree.
  - intros a b c o argsa argsb argsc tgt f Ho Ha Hb. by apply triple_agree.
  - intros a b kind argsb tgt f Hk. by apply cmp_br_agree.
  - intros argsa argsb f Ha. by apply gload_call_agree.
Qed.

Lemma superinstructions_agree_witness :
  agree (V:=tiny) (Frame [] [Fixnum 5; Fixnum 3] 2 [])
    (seq (exec OP_LT [] None (Frame [] [Fixnum 5; Fixnum 3] 2 [])) (exec OP_JNIL [0; 0; 0; 4]%Z (Some 7)))
    (exec OP_CMP_BR [CL_CMP_BR_LT; 0; 0; 0; 4]%Z (Some 7) (Frame [] [Fixnum 5; Fixnum 3] 2 [])).
Proof.
  destruct (superinstructions_agree tiny None (tiny_laws None)) as (_ & _ & H & _). apply H. reflexivity.
Defined.

Definition code2_fused : list Z := [188; 0; 3; 0; 9; 1; 114]%Z.

(** GLOAD_CALL_GLOBAL is not GLOAD followed by CALL_GLOBAL.  With a bound
    symbol the pair enters the call with cl_mv_count 1, the superinstruction with
    whatever count the caller had; so for a callee that looks at it, as THROW
    does, the optimised code ends differently from the original. *)
Theorem gload_call_global_count :
  (forall val world result (V : VM val world result) hi lo args v f,
     constant (Z.to_nat (peep_read_u16 [hi; lo])) = Some v -> forall w, global_value (rest f) v = Some w ->
     seq (exec OP_GLOAD [hi; lo] None f) (exec OP_CALL_GLOBAL args None)
       = exec_other OP_CALL_GLOBAL args None (set_mv 1 (push w f)) /\
     exec OP_GLOAD_CALL_GLOBAL ([hi; lo] ++ args) None f = exec_other OP_CALL_GLOBAL args None (push w f)) /\
  cl_peephole_run true true code2 None [] = Some (code2_fused, []) /\
  match peep_decode None code2, peep_decode None code2_fused with
  | Some pc, Some pc2 =>
      ends (V:=tiny) pc (0, Frame [] [] 2 []) (Thrown 1) /\ ends (V:=tiny) pc2 (0, Frame [] [] 2 []) (Thrown 2)
  | _, _ => False
  end.
Proof.
  split_and!.
  - intros val world result V hi lo args v [l s m u] Hc w Hg. cbn [rest] in Hg. split.
    + cbn [exec]. unfold op_gload, const. rewrite Hc. cbn [rest]. rewrite Hg. reflexivity.
    + cbn [exec app]. unfold op_gload_call_global, const.
      change (peep_read_u16 (hi :: lo :: args)) with (peep_read_u16 [hi; lo]). rewrite Hc. cbn [rest]. by rewrite Hg.
  - vm_compute. reflexivity.
  - destruct (peep_decode None code2) as [pc|] eqn:E1; [|vm_compute in E1; discriminate E1].
    destruct (peep_decode None code2_fused) as [pc2|] eqn:E2; [|vm_compute in E2; discriminate E2].
    split; [exists 2|exists 1]; vm_compute in E1, E2; injection E1 as <-; injection E2 as <-; vm_compute; reflexivity.
Qed.

(** ** Backward jumps *)

(** The instruction jumps backwards by its own offset. *)
Definition jumps_back (x : PeepInsn) : bool :=
  let jpos := cl_opnd_jrel_pos (opcode_operands (op x)) in
  negb (jpos =? 0) && (peep_read_i32 (drop jpos (raw x)) <? 0)%Z.

Lemma read_i32_ext l l' : (forall i, i < 4 -> byte_at l i = byte_at l' i) -> peep_read_i32 l = peep_read_i32 l'.
Proof. intros H. unfold peep_read_i32. by rewrite !H by lia. Qed.

Lemma jrel_pos_own x pool code : fresh pool code x -> cl_opnd_jrel_pos (opcode_operands (op x)) <> 0 ->
  cl_opnd_jrel_pos (opcode_operands (op x)) + 4 = S (own_len x).
Proof.
  intros F Hj. destruct (jrel_fixed _ Hj) as [n Hn]. pose proof (fresh_shape _ _ _ F) as Hs. rewrite Hn in Hs.
  rewrite Hs. by apply jrel_pos_fits.
Qed.

Lemma backward_scan_spec fuel pool code ip l :
  laid_out pool code ip l -> length code - ip < fuel -> backward_scan fuel pool code ip = existsb jumps_back l.
Proof.
  intros Hl. revert fuel. induction Hl as [ip Hip|x l F Hl IH]; intros [|fuel] Hf; try lia; cbn [backward_scan].
  - by rewrite (proj2 (Nat.ltb_ge _ _)) by done.
  - pose proof (fr_fits _ _ _ F) as Hfit. rewrite (proj2 (Nat.ltb_lt _ _)) by lia.
    rewrite (fr_info _ _ _ F), (fr_operands _ _ _ F), (proj2 (Nat.ltb_ge _ _)) by lia.
    cbn [existsb]. set (jpos := cl_opnd_jrel_pos (opcode_operands (op x))) in *.
    assert (E : negb (jpos =? 0) && (peep_read_i32 (drop (old_pos x + jpos) code) <? 0)%Z = jumps_back x).
    { unfold jumps_back. fold jpos. destruct (jpos =? 0) eqn:Ej; [done|]. cbn [negb andb].
      pose proof (jrel_pos_own x pool code F) as Hown. fold jpos in Hown.
      assert (E : peep_read_i32 (drop (old_pos x + jpos) code) = peep_read_i32 (drop jpos (raw x))); [|by rewrite E].
      apply read_i32_ext. intros i Hi. rewrite (fr_raw _ _ _ F), !drop_nth, take_nth by lia.
      rewrite drop_nth. f_equal. lia. }
    rewrite E. destruct (jumps_back x); [done|]. cbn [orb]. apply IH. lia.
Qed.

(** A decoded jump goes back exactly when its target is not after it. *)
Lemma jumps_back_target pool code l j x t :
  laid_out pool code 0 l -> l !! j = Some x ->
  (Z.of_nat (length code) < 2 ^ 31)%Z -> cl_opnd_jrel_pos (opcode_operands (op x)) <> 0 ->
  resolve_target {| insns := l; constants := pool |} (length code) x
    (cl_opnd_jrel_pos (opcode_operands (op x))) = Some t -> jumps_back x = (t <=? j).
Proof.
  intros Hl Hx Hn Hj Ht. unfold resolve_target in Ht. unfold jumps_back.
  rewrite (proj2 (Nat.eqb_neq _ _) Hj). cbn [negb andb].
  set (off := peep_read_i32 (drop (cl_opnd_jrel_pos (opcode_operands (op x))) (raw x))) in *.
  assert (Hoff : (- 2147483648 <= off < 2147483648)%Z) by apply i32_range.
  pose proof (laid_fresh _ _ _ _ _ _ Hl Hx) as F. pose proof (fr_fits _ _ _ F) as Hfit.
  pose proof (fr_len _ _ _ F) as Hlen.
  set (tpos := u32 (Z.of_nat (old_pos x) + Z.of_nat (raw_len x) + u32 off)) in *.
  destruct (Z.of_nat (length code) <=? tpos)%Z eqn:Hle; [done|].
  assert (Etp : tpos = (Z.of_nat (old_pos x) + Z.of_nat (raw_len x) + off)%Z).
  { unfold tpos, u32 in *. rewrite Z.add_mod_idemp_r in * by lia.
    set (s := (Z.of_nat (old_pos x) + Z.of_nat (raw_len x) + off)%Z) in *.
    destruct (Z_lt_ge_dec s 0) as [Hneg|Hpos]; [|apply Z.mod_small; lia].
    rewrite <- (Z.mod_add s 1) in Hle by lia. rewrite Z.mod_small in Hle by lia. lia. }
  apply index_search_pos in Ht as (y & Hy & Hpos). cbn [insns] in Hy.
  destruct (t <=? j) eqn:Etj.
  - destruct (decide (t = j)) as [->|Hne].
    + assert (y = x) as -> by congruence. lia.
    + pose proof (laid_sorted _ _ _ _ _ _ _ _ Hl Hy Hx). lia.
  - pose proof (laid_sorted _ _ _ _ _ _ _ _ Hl Hx Hy). lia.
Qed.

(** Cl_bytecode_has_backward_jump finds the loops: on code the pass can
    decode it answers yes exactly when some instruction's jump leads to itself
    or to an earlier one. *)
Theorem has_backward_jump_spec pool code pc :
  peep_decode pool code = Some pc -> (Z.of_nat (length code) < 2 ^ 31)%Z ->
  (cl_bytecode_has_backward_jump pool code = true <->
   exists j x t, insns pc !! j = Some x /\ jump_target x = Some t /\ t <= j).
Proof.
  intros (l & Hl & _ & En & H)%decode_lookup Hn. unfold cl_bytecode_has_backward_jump.
  rewrite (backward_scan_spec _ _ _ _ _ Hl) by lia. rewrite existsb_exists. split.
  - intros (x & [j Hx]%list_elem_of_In%list_elem_of_lookup_1 & Hb).
    destruct (lookup_lt_is_Some_2 (insns pc) j) as [x' Hx'].
    { apply lookup_lt_Some in Hx. unfold count in En. lia. }
    destruct (H j x' Hx') as (x0 & Hx0 & _ & Hj & Ht & _). assert (x0 = x) as -> by congruence.
    assert (Hnz : cl_opnd_jrel_pos (opcode_operands (op x)) <> 0).
    { unfold jumps_back in Hb. intros E. by rewrite E in Hb. }
    destruct (proj1 Hj Hnz) as [t Et]. destruct (Ht t Et) as [_ Hr]. exists j, x', t. split_and!; [done..|].
    pose proof (jumps_back_target pool code l j x t Hl Hx Hn Hnz Hr). lia.
  - intros (j & x' & t & Hx' & Et & Hle). destruct (H j x' Hx') as (x & Hx & _ & Hj & Ht & _).
    assert (Hnz : cl_opnd_jrel_pos (opcode_operands (op x)) <> 0) by (apply Hj; eauto).
    destruct (Ht t Et) as [_ Hr]. exists x. split; [apply list_elem_of_In; by eapply list_elem_of_lookup_2|].
    rewrite (jumps_back_target pool code l j x t Hl Hx Hn Hnz Hr). lia.
Qed.

(** JMP -5: a loop of one instruction. *)
Lemma has_backward_jump_spec_witness :
  cl_bytecode_has_backward_jump None [96; 255; 255; 255; 251]%Z = true <->
  exists j x t, [set_jump (Some 0) (decoded_insn [96; 255; 255; 255; 251]%Z 0 4 OP_JMP)] !! j = Some x /\
    jump_target x = Some t /\ t <= j.
Proof.
  apply (has_backward_jump_spec None [96; 255; 255; 255; 251]%Z
    {| insns := [set_jump (Some 0) (decoded_insn [96; 255; 255; 255; 251]%Z 0 4 OP_JMP)]; constants := None |}).
  - vm_compute. reflexivity.
  - cbn. lia.
Defined.

(** ** Source lines *)

(** The positions of a rewritten list are those of the decoded one. *)
Lemma rewrite_sorted fuse pool code pc :
  peep_decode pool code = Some pc -> sorted_positions (insns (peep_rewrite fuse pc).1).
Proof.
  intros H. pose proof (bd_pos _ _ _ _ (peep_rewrite_bounded _ _ fuse pc (decode_bounded _ _ _ H))) as Hp.
  apply decode_lookup in H as (l & Hl & _ & _ & H).
  assert (Hold : forall i y, insns (peep_rewrite fuse pc).1 !! i = Some y ->
            exists x, l !! i = Some x /\ old_pos x = old_pos y).
  { intros i y Hy. assert (E : (old_pos <$> insns pc) !! i = Some (old_pos y)) by by rewrite <- Hp, list_lookup_fmap, Hy.
    apply list_lookup_fmap_Some in E as (x' & -> & Hx'). destruct (H i x' Hx') as (x & Hx & Hc & _).
    exists x. split; [done|]. by destruct Hc as [->|[-> _]]. }
  intros i j y z Hy Hz Hij. destruct (Hold i y Hy) as (x1 & H1 & <-). destruct (Hold j z Hz) as (x2 & H2 & <-).
  pose proof (laid_sorted _ _ _ _ _ _ _ _ Hl H1 H2 Hij). lia.
Qed.

(** Different live instructions begin at different places. *)
Lemma rewrite_pos_inj fuse pool code pc : peep_decode pool code = Some pc ->
  let pc' := (peep_rewrite fuse pc).1 in
  forall j k x y, live_at pc' j x -> live_at pc' k y -> pos_of pc' j = pos_of pc' k -> j = k.
Proof.
  intros H pc'. pose proof (bd_sized _ _ _ _ (peep_rewrite_bounded _ _ fuse pc (decode_bounded _ _ _ H))) as Hz.
  fold pc' in Hz. clearbody pc'. intros j k x y Hj Hk E. unfold sized in Hz.
  pose proof (Hz j x (proj1 Hj)). pose proof (Hz k y (proj1 Hk)).
  destruct (Nat.lt_trichotomy j k) as [Hlt|[?|Hlt]]; [|done|].
  - pose proof (pos_of_lt _ _ _ _ Hj Hlt). lia.
  - pose proof (pos_of_lt _ _ _ _ Hk Hlt). lia.
Qed.

(** What peep_encode looks up for an entry is the instruction that runs the
    entry's code. *)
Lemma encode_entry fuse pool code pc p z : peep_decode pool code = Some pc ->
  let pc' := (peep_rewrite fuse pc).1 in
  insns (placed pc') !! line_index (placed pc') p = Some z <->
  exists k x, covers pc' p k /\ live_at pc' k x /\ z = set_new_pos (pos_of pc' k) x.
Proof.
  intros H pc'. pose proof (rewrite_sorted fuse pool code pc H : sorted_positions (insns pc')) as Hs.
  destruct (rewrite_fusion pool code pc fuse H) as [n F]. fold pc' in F. clearbody pc'.
  rewrite line_index_placed, placed_lookup. split.
  - intros (x & Hx & ->)%fmap_Some. assert (Hl : live_at pc' (line_index pc' p) x) by by apply skip_live.
    exists (line_index pc' p), x. split_and!; [|done|].
    + by apply (line_index_covers pc' n p _ x F Hs).
    + destruct Hl as [_ ->]. done.
  - intros (k & x & Hc & Hl & ->). destruct (proj1 (line_index_covers pc' n p k x F Hs)) as [-> _]; [by split; [|apply Hl]|].
    destruct Hl as [-> Hd]. cbn. by rewrite Hd.
Qed.

(** C6: The line table follows the code.  An instruction of the rewritten list
    [covers] an old position if it is the head of the superinstruction that
    absorbed the instruction there, or else the next one that is left.  Every
    entry of the new table stands at an instruction that covers the position
    of an old entry with the same line; every old entry whose position is
    covered leaves an entry at the covering instruction, with its own line if
    it is the first of the entries covered by that instruction; a surviving
    instruction covers its own position; and the table does not grow, so it is
    rewritten in place. *)
Theorem line_table_kept alloc fuse code pool lines code' lines' :
  cl_peephole_run alloc fuse code pool lines = Some (code', lines') ->
  exists pc, let pc' := (peep_rewrite fuse pc).1 in
    peep_decode pool code = Some pc /\ length lines' <= length lines /\
    (forall e', e' ∈ lines' -> exists e k, e ∈ lines /\ line e' = line e /\
       covers pc' (pc_of e) k /\ pc_of e' = pos_of pc' k) /\
    (forall l1 e l2 k, lines = l1 ++ e :: l2 -> covers pc' (pc_of e) k ->
       exists e', e' ∈ lines' /\ pc_of e' = pos_of pc' k /\
         ((forall e0, e0 ∈ l1 -> ~ covers pc' (pc_of e0) k) -> line e' = line e)) /\
    (forall k x, live_at pc' k x -> covers pc' (old_pos x) k).
Proof.
  intros (pc & _ & Hd & _ & He)%run_spec. exists pc. cbv zeta. split; [done|].
  pose proof (rewrite_sorted fuse pool code pc Hd) as Hs. pose proof (rewrite_fusion pool code pc fuse Hd) as F.
  pose proof (fun p z => encode_entry fuse pool code pc p z Hd) as Hat. cbv zeta in Hat.
  pose proof (rewrite_pos_inj fuse pool code pc Hd) as Hinj. cbv zeta in Hinj.
  set (pc' := (peep_rewrite fuse pc).1) in *. clearbody pc'.
  assert (El : lines' = remap_lines (placed pc') lines) by (symmetry; exact (f_equal snd He)).
  unfold remap_lines in El. destruct (remap_lines_spec (placed pc') lines) as [H1 H2 H3 _]. rewrite <- El in *.
  split_and!; [done| | |intros k x; by apply covers_own].
  - intros e' He'. destruct (H2 e' He') as (e & z & Hin & Hline & Hz & Hpos).
    apply Hat in Hz as (k & x & Hc & _ & ->). by exists e, k.
  - intros l1 e l2 k El1 Hc. pose proof Hc as [[x Hx] _].
    destruct (H3 l1 e l2 _ El1 (proj2 (Hat (pc_of e) _) (ex_intro _ k (ex_intro _ x (conj Hc (conj Hx eq_refl)))))) as (e' & He' & Hp & Hline).
    exists e'. split_and!; [done..|]. intros Hno. apply Hline. intros e0 y Hin Hy Heq.
    apply Hat in Hy as (k0 & x0 & Hc0 & Hl0 & ->). apply (Hno e0 Hin).
    by rewrite <- (Hinj k0 k x0 x Hl0 Hx Heq).
Qed.

Lemma line_table_kept_witness :
  let lines := [{| pc_of := 0; line := 10 |}; {| pc_of := 2; line := 11 |}; {| pc_of := 8; line := 12 |}] in
  exists pc, peep_decode None code1 = Some pc /\
    length [{| pc_of := 0; line := 10 |}; {| pc_of := 7; line := 12 |}] <= length lines.
Proof.
  destruct (line_table_kept true true code1 None
    [{| pc_of := 0; line := 10 |}; {| pc_of := 2; line := 11 |}; {| pc_of := 8; line := 12 |}]
    [182; 0; 98; 0; 0; 0; 2; 129; 114; 183; 1]%Z
    [{| pc_of := 0; line := 10 |}; {| pc_of := 7; line := 12 |}]) as (pc & H1 & H2 & _); [vm_compute; reflexivity|].
  exists pc. exact (conj H1 H2).
Defined.

(** An instruction deleted between a head and its member is not absorbed, so
    its entry moves forward over the member: it takes the place of the next
    instruction's own entry, and when the member has an entry too the table is
    no longer sorted by pc, as lookup_source_line takes it to be. *)
Lemma line_entry_in_gap :
  let code := [2; 0; 129; 16; 2; 1; 32; 114]%Z in
  let code' := [179; 0; 1; 32; 114]%Z in
  let at_line p l := {| pc_of := p; line := l |} in
  cl_peephole_run true true code None [at_line 0 10; at_line 2 11; at_line 6 13]
    = Some (code', [at_line 0 10; at_line 3 11]) /\
  cl_peephole_run true true code None [at_line 0 10; at_line 2 11; at_line 4 12]
    = Some (code', [at_line 0 10; at_line 3 11; at_line 0 12]).
Proof. split; vm_compute; reflexivity. Qed.
