(* ===== verification/GcHeap.v ===== *)
(** * The arena: headers, the block chain, the slots of an object

    The heap core shared by the passes of the collector: the header word and
    the type tags of types.h, the arena iterator of mem.h, and the one list of
    the CL_Obj slots of every heap type (GC_WALK_OBJ_CHILDREN, gc_internal.h).

    Memory is a map from byte addresses, relative to the arena base, to 32-bit
    words: the arena is [0, arena_size), and every other address is memory
    outside it (the roots, the constant pools of bytecode objects).  All object
    sizes and slots are multiples of four bytes; fields smaller than a word and
    fields whose place depends on the pointer size are read through the class
    [Layout]. *)

From Stdlib Require Import ZArith Lia ZifyBool.
From stdpp Require Import base option list sets.
From S2P Require Import Prelude.
Local Open Scope Z_scope.

(** ** Memory *)

Definition memory : Type := Z -> Z.

Definition put (m : memory) (a v : Z) : memory := fun b => if b =? a then v else m b.

Lemma put_eq m a v : put m a v a = v.
Proof. unfold put. by rewrite Z.eqb_refl. Qed.

Lemma put_ne m a v b : b <> a -> put m a v b = m b.
Proof. unfold put. intros H. by rewrite (proj2 (Z.eqb_neq _ _) H). Qed.

(** ** The header word: [type:8][mark:1][size:23] *)

Definition CL_HDR_MARK_BIT : Z := Z.shiftl 1 23.
Definition CL_HDR_SIZE_MASK : Z := 8388607.
Definition CL_HDR_TYPE (h : Z) : Z := Z.land (Z.shiftr h 24) 255.
Definition CL_HDR_SIZE (h : Z) : Z := Z.land h CL_HDR_SIZE_MASK.
Definition CL_HDR_MARKED (h : Z) : bool := negb (Z.land h CL_HDR_MARK_BIT =? 0).
Definition CL_HDR_SET_MARK (h : Z) : Z := Z.lor h CL_HDR_MARK_BIT.
Definition CL_HDR_CLR_MARK (h : Z) : Z := Z.ldiff h CL_HDR_MARK_BIT.
Definition CL_MAKE_HDR (type size : Z) : Z :=
  Z.lor (u32 (Z.shiftl type 24)) (Z.land size CL_HDR_SIZE_MASK).

Definition CL_TYPE_DEAD : Z := 255.

(** Words of 32 bits. *)
Definition word (v : Z) : Prop := 0 <= v < 2 ^ 32.

Lemma marked_testbit h : CL_HDR_MARKED h = Z.testbit h 23.
Proof.
  unfold CL_HDR_MARKED, CL_HDR_MARK_BIT. rewrite Z.shiftl_1_l. destruct (Z.testbit h 23) eqn:E.
  - apply negb_true_iff, Z.eqb_neq. intros H0.
    assert (H : Z.testbit (Z.land h (2 ^ 23)) 23 = true) by by rewrite Z.land_spec, E.
    rewrite H0 in H. by rewrite Z.bits_0 in H.
  - apply negb_false_iff, Z.eqb_eq. apply Z.bits_inj'. intros n Hn. rewrite Z.land_spec, Z.bits_0.
    destruct (decide (n = 23)) as [->|Hne]; [by rewrite E|].
    rewrite Z.pow2_bits_false by lia. apply andb_false_r.
Qed.

Lemma mark_bit_spec n : 0 <= n -> Z.testbit CL_HDR_MARK_BIT n = (n =? 23).
Proof.
  intros Hn. unfold CL_HDR_MARK_BIT. rewrite Z.shiftl_1_l.
  destruct (n =? 23) eqn:E; [|apply Z.pow2_bits_false; lia].
  apply Z.eqb_eq in E as ->. reflexivity.
Qed.

Lemma size_mask_spec n : 0 <= n -> Z.testbit CL_HDR_SIZE_MASK n = (n <? 23).
Proof. intros Hn. change CL_HDR_SIZE_MASK with (Z.ones 23). rewrite Z.testbit_ones by lia. lia. Qed.

Lemma type_mask_spec n : 0 <= n -> Z.testbit 255 n = (n <? 8).
Proof. intros Hn. change 255 with (Z.ones 8). rewrite Z.testbit_ones by lia. lia. Qed.

(** Two header words are compared bit by bit. *)
Ltac header_bits :=
  apply Z.bits_inj'; intros n Hn;
  unfold CL_HDR_TYPE, CL_HDR_SIZE, CL_HDR_SET_MARK, CL_HDR_CLR_MARK;
  repeat (rewrite Z.land_spec || rewrite Z.lor_spec || rewrite Z.ldiff_spec || rewrite Z.shiftr_spec by lia);
  rewrite ?mark_bit_spec, ?size_mask_spec, ?type_mask_spec by lia.

Lemma size_set_mark h : CL_HDR_SIZE (CL_HDR_SET_MARK h) = CL_HDR_SIZE h.
Proof. header_bits. destruct (Z.testbit h n); lia. Qed.

Lemma type_set_mark h : CL_HDR_TYPE (CL_HDR_SET_MARK h) = CL_HDR_TYPE h.
Proof. header_bits. destruct (Z.testbit h (n + 24)); lia. Qed.

Lemma size_clr_mark h : CL_HDR_SIZE (CL_HDR_CLR_MARK h) = CL_HDR_SIZE h.
Proof. header_bits. destruct (Z.testbit h n); lia. Qed.

Lemma type_clr_mark h : CL_HDR_TYPE (CL_HDR_CLR_MARK h) = CL_HDR_TYPE h.
Proof. header_bits. destruct (Z.testbit h (n + 24)); lia. Qed.

Lemma marked_set_mark h : CL_HDR_MARKED (CL_HDR_SET_MARK h) = true.
Proof. rewrite marked_testbit. unfold CL_HDR_SET_MARK. rewrite Z.lor_spec, mark_bit_spec by lia. apply orb_true_r. Qed.

Lemma marked_clr_mark h : CL_HDR_MARKED (CL_HDR_CLR_MARK h) = false.
Proof. rewrite marked_testbit. unfold CL_HDR_CLR_MARK. rewrite Z.ldiff_spec, mark_bit_spec by lia. apply andb_false_r. Qed.

Lemma clr_unmarked h : CL_HDR_MARKED h = false -> CL_HDR_CLR_MARK h = h.
Proof.
  rewrite marked_testbit. intros E. header_bits. destruct (decide (n = 23)) as [->|]; [by rewrite E|].
  destruct (Z.testbit h n); lia.
Qed.

Lemma clr_set_mark h : CL_HDR_MARKED h = false -> CL_HDR_CLR_MARK (CL_HDR_SET_MARK h) = h.
Proof.
  rewrite marked_testbit. intros E. header_bits. destruct (decide (n = 23)) as [->|]; [by rewrite E|].
  destruct (Z.testbit h n); lia.
Qed.

Lemma size_range h : 0 <= CL_HDR_SIZE h <= CL_HDR_SIZE_MASK.
Proof.
  unfold CL_HDR_SIZE. change CL_HDR_SIZE_MASK with (Z.ones 23). rewrite Z.land_ones by lia.
  pose proof (Z.mod_pos_bound h (2 ^ 23)). change (Z.ones 23) with (2 ^ 23 - 1). lia.
Qed.

Lemma type_range h : 0 <= CL_HDR_TYPE h < 256.
Proof.
  unfold CL_HDR_TYPE. change 255 with (Z.ones 8). rewrite Z.land_ones by lia.
  apply Z.mod_pos_bound. lia.
Qed.

Lemma set_mark_word h : word h -> word (CL_HDR_SET_MARK h).
Proof. unfold word, CL_HDR_SET_MARK. intros H. apply (lor_bound h CL_HDR_MARK_BIT 32); [lia|exact H|unfold CL_HDR_MARK_BIT; rewrite Z.shiftl_1_l; lia]. Qed.

Lemma clr_mark_word h : word h -> word (CL_HDR_CLR_MARK h).
Proof.
  unfold word, CL_HDR_CLR_MARK. intros [Hx Bx]%bits_bound; [|lia]. apply bits_bound; [lia|].
  split; [apply Z.ldiff_nonneg; lia|]. intros n Hn. by rewrite Z.ldiff_spec, Bx.
Qed.

(** A plain size is the header of an unmarked block of tag 0. *)
Lemma raw_size_header s : 0 <= s <= CL_HDR_SIZE_MASK ->
  CL_HDR_SIZE s = s /\ CL_HDR_TYPE s = 0 /\ CL_HDR_MARKED s = false.
Proof.
  change CL_HDR_SIZE_MASK with (2 ^ 23 - 1). intros H. split_and!.
  - unfold CL_HDR_SIZE. change CL_HDR_SIZE_MASK with (Z.ones 23). rewrite Z.land_ones by lia. apply Z.mod_small. lia.
  - unfold CL_HDR_TYPE. rewrite Z.shiftr_div_pow2, Z.div_small by lia. done.
  - rewrite marked_testbit. rewrite Z.testbit_false, Z.div_small by lia. done.
Qed.

Lemma make_hdr_fields type size : 0 <= type < 256 -> 0 <= size <= CL_HDR_SIZE_MASK ->
  word (CL_MAKE_HDR type size) /\ CL_HDR_TYPE (CL_MAKE_HDR type size) = type /\
  CL_HDR_SIZE (CL_MAKE_HDR type size) = size /\ CL_HDR_MARKED (CL_MAKE_HDR type size) = false.
Proof.
  change CL_HDR_SIZE_MASK with (2 ^ 23 - 1). intros Ht Hs.
  assert (E : CL_MAKE_HDR type size = size + type * 2 ^ 24).
  { unfold CL_MAKE_HDR. rewrite Z.shiftl_mul_pow2 by lia. rewrite u32_small by lia.
    change CL_HDR_SIZE_MASK with (Z.ones 23). rewrite Z.land_ones, Z.mod_small by lia.
    rewrite Z.lor_comm, <- (Z.shiftl_mul_pow2 type 24) by lia. rewrite lor_add_shiftl by lia.
    by rewrite Z.shiftl_mul_pow2 by lia. }
  rewrite E. unfold word. split_and!; [lia|lia|..].
  - unfold CL_HDR_TYPE. rewrite Z.shiftr_div_pow2 by lia. rewrite Z.div_add, Z.div_small by lia.
    change 255 with (Z.ones 8). rewrite Z.land_ones, Z.mod_small by lia. lia.
  - unfold CL_HDR_SIZE. change CL_HDR_SIZE_MASK with (Z.ones 23). rewrite Z.land_ones by lia.
    replace (type * 2 ^ 24) with (type * 2 * 2 ^ 23) by lia. rewrite Z.mod_add, Z.mod_small by lia. done.
  - rewrite marked_testbit, Z.testbit_false by lia. replace (type * 2 ^ 24) with (type * 2 * 2 ^ 23) by lia.
    rewrite Z.div_add, Z.div_small by lia. rewrite Z.add_0_l. apply Z.mod_mul. lia.
Qed.

(** ** Heap types *)

Inductive CL_ObjType : Set :=
| TYPE_CONS | TYPE_SYMBOL | TYPE_STRING | TYPE_FUNCTION | TYPE_CLOSURE | TYPE_BYTECODE | TYPE_VECTOR
| TYPE_PACKAGE | TYPE_HASHTABLE | TYPE_CONDITION | TYPE_STRUCT | TYPE_BIGNUM | TYPE_SINGLE_FLOAT
| TYPE_DOUBLE_FLOAT | TYPE_RATIO | TYPE_COMPLEX | TYPE_STREAM | TYPE_RANDOM_STATE | TYPE_BIT_VECTOR
| TYPE_PATHNAME | TYPE_CELL | TYPE_THREAD | TYPE_LOCK | TYPE_CONDVAR | TYPE_FOREIGN_POINTER
| TYPE_RESTART | TYPE_BYTE_VECTOR | TYPE_FFI_STUB | TYPE_WIDE_STRING.

#[export] Instance CL_ObjType_eq_dec : EqDecision CL_ObjType.
Proof. solve_decision. Defined.

(** The tags in the order of the enum (a build with CL_WIDE_STRINGS). *)
Definition obj_types : list CL_ObjType :=
  [TYPE_CONS; TYPE_SYMBOL; TYPE_STRING; TYPE_FUNCTION; TYPE_CLOSURE; TYPE_BYTECODE; TYPE_VECTOR;
   TYPE_PACKAGE; TYPE_HASHTABLE; TYPE_CONDITION; TYPE_STRUCT; TYPE_BIGNUM; TYPE_SINGLE_FLOAT;
   TYPE_DOUBLE_FLOAT; TYPE_RATIO; TYPE_COMPLEX; TYPE_STREAM; TYPE_RANDOM_STATE; TYPE_BIT_VECTOR;
   TYPE_PATHNAME; TYPE_CELL; TYPE_THREAD; TYPE_LOCK; TYPE_CONDVAR; TYPE_FOREIGN_POINTER;
   TYPE_RESTART; TYPE_BYTE_VECTOR; TYPE_FFI_STUB; TYPE_WIDE_STRING].

(** The type of a tag; [None] for CL_TYPE_DEAD and every other unused tag. *)
Definition obj_type (tag : Z) : option CL_ObjType :=
  if tag <? 0 then None else obj_types !! Z.to_nat tag.

Definition tag_of (t : CL_ObjType) : Z :=
  match t with
  | TYPE_CONS => 0 | TYPE_SYMBOL => 1 | TYPE_STRING => 2 | TYPE_FUNCTION => 3 | TYPE_CLOSURE => 4
  | TYPE_BYTECODE => 5 | TYPE_VECTOR => 6 | TYPE_PACKAGE => 7 | TYPE_HASHTABLE => 8
  | TYPE_CONDITION => 9 | TYPE_STRUCT => 10 | TYPE_BIGNUM => 11 | TYPE_SINGLE_FLOAT => 12
  | TYPE_DOUBLE_FLOAT => 13 | TYPE_RATIO => 14 | TYPE_COMPLEX => 15 | TYPE_STREAM => 16
  | TYPE_RANDOM_STATE => 17 | TYPE_BIT_VECTOR => 18 | TYPE_PATHNAME => 19 | TYPE_CELL => 20
  | TYPE_THREAD => 21 | TYPE_LOCK => 22 | TYPE_CONDVAR => 23 | TYPE_FOREIGN_POINTER => 24
  | TYPE_RESTART => 25 | TYPE_BYTE_VECTOR => 26 | TYPE_FFI_STUB => 27 | TYPE_WIDE_STRING => 28
  end.

Lemma obj_type_tag t : obj_type (tag_of t) = Some t.
Proof. by destruct t. Qed.

(** GC_LEAF_TYPE_MASK: the types without CL_Obj slots, as a bit set over the tags. *)
Definition GC_LEAF_TYPE_MASK : Z :=
  foldr (fun t acc => Z.lor (Z.shiftl 1 (tag_of t)) acc) 0
    [TYPE_STRING; TYPE_BIGNUM; TYPE_SINGLE_FLOAT; TYPE_DOUBLE_FLOAT; TYPE_RANDOM_STATE;
     TYPE_BIT_VECTOR; TYPE_BYTE_VECTOR; TYPE_FOREIGN_POINTER; TYPE_WIDE_STRING].

Definition GC_TYPE_HAS_CHILDREN (tag : Z) : bool :=
  Z.land (Z.shiftr GC_LEAF_TYPE_MASK (Z.land tag 31)) 1 =? 0.

(** ** Object references *)

Definition CL_UNBOUND : Z := 4294967286.
Definition CL_TAG_MASK_LO2 : Z := 3.

(** NIL, fixnums, characters, CL_UNBOUND: gc_mark_visit takes every word with
    a tag bit for an immediate, gc_forward tests for each of them. *)
Definition immediate (v : Z) : bool :=
  (v =? 0) || Z.testbit v 0 || (Z.land v 255 =? 10) || (v =? CL_UNBOUND).

(** ** The slots of an object *)

(** What depends on the compiler's structure layout: alignment, the fields
    behind native pointers, and the byte fields of CL_Vector. *)
Class Layout : Type := {
  CL_ALIGN : Z;
  fn_name : Z;                             (* offset of CL_Function.name *)
  bc_name : Z;                             (* offsets in CL_Bytecode *)
  bc_source_lambda_list : Z;
  bc_constants : memory -> Z -> Z;         (* the address in the field constants *)
  bc_n_constants : memory -> Z -> Z;
  bc_key_syms : memory -> Z -> option Z;   (* None: a null pointer *)
  bc_n_keys : memory -> Z -> Z;
  vec_flags : Z -> Z;                      (* of the word that holds the bytes *)
  vec_rank : Z -> Z }.

Section Slots.
Context {L : Layout} {S : Type} (mem_of : S -> memory) (visit : Z -> S -> S).

(** for (i = 0; i < n; i++) GC_VISIT(base[i]) *)
Fixpoint visit_range (n : nat) (base : Z) (s : S) : S :=
  match n with
  | O => s
  | Datatypes.S n => visit_range n (base + 4) (visit base s)
  end.

Definition visit_each (l : list Z) (s : S) : S := foldl (fun s a => visit a s) s l.

Definition CL_VEC_FLAG_DISPLACED : Z := 8.

(** The displaced flag of the vector at [ptr], and the index of its base
    reference (CL_DISP_BASE_IDX). *)
Definition vec_displaced (m : memory) (ptr : Z) : bool :=
  negb (Z.land (vec_flags (m (ptr + 12))) CL_VEC_FLAG_DISPLACED =? 0).
Definition CL_DISP_BASE_IDX (m : memory) (ptr : Z) : Z :=
  if vec_rank (m (ptr + 12)) >? 1 then vec_rank (m (ptr + 12)) else 0.

(** GC_WALK_OBJ_CHILDREN: visit every CL_Obj slot of the object at [ptr].
    The words that decide which slots there are are read as the walk gets to
    them, from the memory the visits so far have left. *)
Definition GC_WALK_OBJ_CHILDREN (ptr type : Z) (s : S) : S :=
  match obj_type type with
  | Some TYPE_CONS => visit_each [ptr + 4; ptr + 8] s
  | Some TYPE_SYMBOL =>
      let s := visit (ptr + 4) s in
      let s := if mem_of s (ptr + 8) =? CL_UNBOUND then s else visit (ptr + 8) s in
      let s := if mem_of s (ptr + 12) =? CL_UNBOUND then s else visit (ptr + 12) s in
      visit_each [ptr + 16; ptr + 20] s
  | Some TYPE_FUNCTION => visit (ptr + fn_name) s
  | Some TYPE_CLOSURE =>
      let n_upvals := (CL_HDR_SIZE (mem_of s ptr) - 8) / 4 in
      visit_range (Z.to_nat n_upvals) (ptr + 8) (visit (ptr + 4) s)
  | Some TYPE_BYTECODE =>
      let s := visit_each [ptr + bc_name; ptr + bc_source_lambda_list] s in
      let s := visit_range (Z.to_nat (bc_n_constants (mem_of s) ptr)) (bc_constants (mem_of s) ptr) s in
      match bc_key_syms (mem_of s) ptr with
      | Some p => visit_range (Z.to_nat (bc_n_keys (mem_of s) ptr)) p s
      | None => s
      end
  | Some TYPE_VECTOR =>
      if vec_displaced (mem_of s) ptr then visit (ptr + 16 + 4 * CL_DISP_BASE_IDX (mem_of s) ptr) s
      else
        let rank := vec_rank (mem_of s (ptr + 12)) in
        let n_entries := if rank >? 1 then u32 (rank + mem_of s (ptr + 4)) else mem_of s (ptr + 4) in
        visit_range (Z.to_nat n_entries) (ptr + 16) s
  | Some TYPE_PACKAGE => visit_range 8 (ptr + 4) s
  | Some TYPE_HASHTABLE =>
      let s := visit (ptr + 20) s in
      if negb (mem_of s (ptr + 20) =? 0) then s
      else visit_range (Z.to_nat (mem_of s (ptr + 12))) (ptr + 24) s
  | Some TYPE_CONDITION => visit_range 3 (ptr + 4) s
  | Some TYPE_RESTART => visit_range 6 (ptr + 4) s
  | Some TYPE_FFI_STUB => visit_range 2 (ptr + 4) s
  | Some TYPE_STRUCT =>
      let s := visit (ptr + 4) s in
      visit_range (Z.to_nat (mem_of s (ptr + 8))) (ptr + 12) s
  | Some TYPE_STREAM => visit_each [ptr + 20; ptr + 44] s
  | Some TYPE_RATIO => visit_each [ptr + 4; ptr + 8] s
  | Some TYPE_COMPLEX => visit_each [ptr + 4; ptr + 8] s
  | Some TYPE_PATHNAME => visit_range 6 (ptr + 4) s
  | Some TYPE_CELL => visit (ptr + 4) s
  | Some TYPE_THREAD => visit_each [ptr + 12; ptr + 16] s
  | Some TYPE_LOCK => visit (ptr + 16) s
  | Some TYPE_CONDVAR => visit (ptr + 8) s
  | Some (TYPE_STRING | TYPE_BIGNUM | TYPE_SINGLE_FLOAT | TYPE_DOUBLE_FLOAT | TYPE_RANDOM_STATE
         | TYPE_BIT_VECTOR | TYPE_BYTE_VECTOR | TYPE_FOREIGN_POINTER | TYPE_WIDE_STRING) => s
  | None => s
  end.

End Slots.

(** The addresses of the slots, as the walk meets them. *)
Section Children.
Context {L : Layout}.

Fixpoint word_range (n : nat) (base : Z) : list Z :=
  match n with O => [] | S n => base :: word_range n (base + 4) end.

Definition children (m : memory) (ptr type : Z) : list Z :=
  match obj_type type with
  | Some (TYPE_CONS | TYPE_RATIO | TYPE_COMPLEX) => [ptr + 4; ptr + 8]
  | Some TYPE_SYMBOL =>
      ptr + 4 :: (if m (ptr + 8) =? CL_UNBOUND then [] else [ptr + 8]) ++
      (if m (ptr + 12) =? CL_UNBOUND then [] else [ptr + 12]) ++ [ptr + 16; ptr + 20]
  | Some TYPE_FUNCTION => [ptr + fn_name]
  | Some TYPE_CLOSURE => ptr + 4 :: word_range (Z.to_nat ((CL_HDR_SIZE (m ptr) - 8) / 4)) (ptr + 8)
  | Some TYPE_BYTECODE =>
      ptr + bc_name :: ptr + bc_source_lambda_list ::
      word_range (Z.to_nat (bc_n_constants m ptr)) (bc_constants m ptr) ++
      match bc_key_syms m ptr with Some p => word_range (Z.to_nat (bc_n_keys m ptr)) p | None => [] end
  | Some TYPE_VECTOR =>
      if vec_displaced m ptr then [ptr + 16 + 4 * CL_DISP_BASE_IDX m ptr]
      else
        let rank := vec_rank (m (ptr + 12)) in
        word_range (Z.to_nat (if rank >? 1 then u32 (rank + m (ptr + 4)) else m (ptr + 4))) (ptr + 16)
  | Some TYPE_PACKAGE => word_range 8 (ptr + 4)
  | Some TYPE_HASHTABLE =>
      ptr + 20 :: (if negb (m (ptr + 20) =? 0) then [] else word_range (Z.to_nat (m (ptr + 12))) (ptr + 24))
  | Some TYPE_CONDITION => word_range 3 (ptr + 4)
  | Some (TYPE_RESTART | TYPE_PATHNAME) => word_range 6 (ptr + 4)
  | Some TYPE_FFI_STUB => word_range 2 (ptr + 4)
  | Some TYPE_STRUCT => ptr + 4 :: word_range (Z.to_nat (m (ptr + 8))) (ptr + 12)
  | Some TYPE_STREAM => [ptr + 20; ptr + 44]
  | Some TYPE_CELL => [ptr + 4]
  | Some TYPE_THREAD => [ptr + 12; ptr + 16]
  | Some TYPE_LOCK => [ptr + 16]
  | Some TYPE_CONDVAR => [ptr + 8]
  | _ => []
  end.

(** The words that decide which slots an object has are the same. *)
Definition same_shape (ptr type : Z) (m m' : memory) : Prop :=
  match obj_type type with
  | Some TYPE_SYMBOL =>
      (m' (ptr + 8) =? CL_UNBOUND) = (m (ptr + 8) =? CL_UNBOUND) /\
      (m' (ptr + 12) =? CL_UNBOUND) = (m (ptr + 12) =? CL_UNBOUND)
  | Some TYPE_CLOSURE => CL_HDR_SIZE (m' ptr) = CL_HDR_SIZE (m ptr)
  | Some TYPE_BYTECODE =>
      bc_n_constants m' ptr = bc_n_constants m ptr /\ bc_constants m' ptr = bc_constants m ptr /\
      bc_key_syms m' ptr = bc_key_syms m ptr /\ bc_n_keys m' ptr = bc_n_keys m ptr
  | Some TYPE_VECTOR => m' (ptr + 12) = m (ptr + 12) /\ m' (ptr + 4) = m (ptr + 4)
  | Some TYPE_HASHTABLE => (m' (ptr + 20) =? 0) = (m (ptr + 20) =? 0) /\ m' (ptr + 12) = m (ptr + 12)
  | Some TYPE_STRUCT => m' (ptr + 8) = m (ptr + 8)
  | _ => True
  end.

Lemma same_shape_refl ptr type m : same_shape ptr type m m.
Proof. unfold same_shape. by destruct (obj_type type) as [[]|]. Qed.

Lemma same_shape_sym ptr type m m' : same_shape ptr type m m' -> same_shape ptr type m' m.
Proof. unfold same_shape. destruct (obj_type type) as [[]|]; intuition congruence. Qed.

Lemma same_shape_trans ptr type m m' m'' :
  same_shape ptr type m m' -> same_shape ptr type m' m'' -> same_shape ptr type m m''.
Proof. unfold same_shape. destruct (obj_type type) as [[]|]; intuition congruence. Qed.

Lemma same_shape_children ptr type m m' :
  same_shape ptr type m m' -> children m' ptr type = children m ptr type.
Proof.
  unfold same_shape, children, vec_displaced, CL_DISP_BASE_IDX.
  destruct (obj_type type) as [[]|]; intros H; try done;
    repeat match goal with H : _ /\ _ |- _ => destruct H end;
    repeat match goal with H : _ = _ |- _ => rewrite ?H; clear H end; done.
Qed.

Section Walk.
Context {S : Type} (mem_of : S -> memory) (visit : Z -> S -> S).

Lemma visit_range_each n base s :
  visit_range visit n base s = visit_each visit (word_range n base) s.
Proof. revert base s. induction n as [|n IH]; intros base s; [done|]. cbn. apply IH. Qed.

Lemma visit_each_app l1 l2 s : visit_each visit (l1 ++ l2) s = visit_each visit l2 (visit_each visit l1 s).
Proof. apply foldl_app. Qed.

(** A property the visits of [l] keep, one by one. *)
Lemma visit_each_keeps (P : list Z -> S -> Prop) l : forall pre s,
  (forall l1 a l2 s, l = l1 ++ a :: l2 -> P (pre ++ l1) s -> P (pre ++ l1 ++ [a]) (visit a s)) ->
  P pre s -> P (pre ++ l) (visit_each visit l s).
Proof.
  induction l as [|a l IH]; intros pre s H Hs; [by rewrite app_nil_r|].
  replace (pre ++ a :: l) with ((pre ++ [a]) ++ l) by by rewrite <- app_assoc. apply IH.
  - intros l1 b l2 s' -> Hp. rewrite <- app_assoc in *. cbn [app] in *. by apply (H (a :: l1) b l2).
  - apply (H [] a l); [done|by rewrite app_nil_r].
Qed.

(** When the visits keep a property [Q] of the slots visited and the state,
    under which the shape is that of the start, the walk visits [children]. *)
Lemma walk_children (Q : list Z -> S -> Prop) ptr type s :
  (forall pre a post s', children (mem_of s) ptr type = pre ++ a :: post -> Q pre s' -> Q (pre ++ [a]) (visit a s')) ->
  (forall pre s', Q pre s' -> same_shape ptr type (mem_of s) (mem_of s')) -> Q [] s ->
  GC_WALK_OBJ_CHILDREN mem_of visit ptr type s = visit_each visit (children (mem_of s) ptr type) s.
Proof.
  intros Hv Hq Q0. set (P := fun s' => same_shape ptr type (mem_of s) (mem_of s')).
  assert (P0 : P s) by apply same_shape_refl.
  assert (Hk : forall l post, children (mem_of s) ptr type = l ++ post -> P (visit_each visit l s)).
  { intros l post El. apply (Hq l). apply (visit_each_keeps Q l [] s); [|done].
    intros l1 a l2 s' -> Hp. rewrite <- app_assoc in El. by apply (Hv l1 a (l2 ++ post)). }
  clear Hv Hq. unfold P, same_shape, children, GC_WALK_OBJ_CHILDREN, vec_displaced, CL_DISP_BASE_IDX in *.
  destruct (obj_type type) as [[]|] eqn:Et; rewrite ?visit_range_each; try done.
  - (* symbol *)
    set (c8 := if mem_of s (ptr + 8) =? CL_UNBOUND then [] else [ptr + 8]) in *.
    set (c12 := if mem_of s (ptr + 12) =? CL_UNBOUND then [] else [ptr + 12]) in *.
    destruct (Hk [ptr + 4] _ eq_refl) as [E8 _]. cbn in E8. rewrite E8.
    replace (if mem_of s (ptr + 8) =? CL_UNBOUND then visit (ptr + 4) s else visit (ptr + 8) (visit (ptr + 4) s))
      with (visit_each visit (ptr + 4 :: c8) s) by (unfold c8; by destruct (mem_of s (ptr + 8) =? CL_UNBOUND)).
    destruct (Hk (ptr + 4 :: c8) _ eq_refl) as [_ E12]. rewrite E12.
    change (ptr + 4 :: c8 ++ c12 ++ [ptr + 16; ptr + 20]) with ((ptr + 4 :: c8) ++ c12 ++ [ptr + 16; ptr + 20]).
    rewrite !visit_each_app. f_equal. unfold c12. by destruct (mem_of s (ptr + 12) =? CL_UNBOUND).
  - (* bytecode *)
    set (l2 := [ptr + bc_name; ptr + bc_source_lambda_list]) in *.
    destruct (Hk l2 _ eq_refl) as (E1 & E2 & _). rewrite E1, E2.
    set (cs := word_range (Z.to_nat (bc_n_constants (mem_of s) ptr)) (bc_constants (mem_of s) ptr)) in *.
    destruct (Hk (l2 ++ cs) (match bc_key_syms (mem_of s) ptr with
      | Some p => word_range (Z.to_nat (bc_n_keys (mem_of s) ptr)) p | None => [] end)) as (_ & _ & E3 & E4).
    { by rewrite <- app_assoc. }
    rewrite visit_each_app in E3, E4. rewrite E3, E4.
    change (ptr + bc_name :: ptr + bc_source_lambda_list :: ?x) with (l2 ++ x). rewrite !visit_each_app.
    destruct (bc_key_syms (mem_of s) ptr); rewrite ?visit_range_each; done.
  - (* vector *)
    by destruct (negb _).
  - (* hash table *)
    destruct (Hk [ptr + 20] _ eq_refl) as [E1 E2]. cbn in E1, E2. rewrite E1, E2.
    by destruct (negb _).
  - (* struct *)
    pose proof (Hk [ptr + 4] _ eq_refl) as E. cbn in E. by rewrite E.
Qed.

End Walk.
End Children.

(** ** The block chain and its iterator *)

Record GcWalk : Set := { w_off : Z; w_end : Z }.

Definition gc_walk_begin {L : Layout} (bump : Z) : GcWalk := {| w_off := CL_ALIGN; w_end := bump |}.
Definition gc_walk_seek (w : GcWalk) (off : Z) : GcWalk := {| w_off := off; w_end := w_end w |}.

(** The next block: its offset, size and tag, and the advanced cursor. *)
Definition gc_walk_next (m : memory) (w : GcWalk) : option (Z * Z * Z * GcWalk) :=
  if w_end w <=? w_off w then None
  else
    let hdr := m (w_off w) in
    let s := CL_HDR_SIZE hdr in
    if s =? 0 then None
    else Some (w_off w, s, CL_HDR_TYPE hdr, gc_walk_seek w (w_off w + s)).

Section Walk_loop.
Context {S : Type} (mem_of : S -> memory).

(** while (gc_walk_next(&w, &off, &size, &type)) body; the body may re-seek. *)
Fixpoint gc_walk (fuel : nat) (body : Z -> Z -> Z -> GcWalk -> S -> GcWalk * S) (w : GcWalk) (s : S) : S :=
  match fuel with
  | O => s
  | Datatypes.S fuel =>
      match gc_walk_next (mem_of s) w with
      | None => s
      | Some (off, size, type, w) => let '(w, s) := body off size type w s in gc_walk fuel body w s
      end
  end.

(** A body that leaves the cursor alone. *)
Definition no_seek (body : Z -> Z -> Z -> S -> S) (off size type : Z) (w : GcWalk) (s : S) : GcWalk * S :=
  (w, body off size type s).

End Walk_loop.

(** Steps enough for any chain below the bump front. *)
Definition walk_fuel (bump : Z) : nat := S (Z.to_nat bump).

(** The blocks from [off] to [e]: every header leads to the next block. *)
Inductive chain (m : memory) (e : Z) : Z -> list Z -> Prop :=
| chain_end : chain m e e []
| chain_step off l : 0 < CL_HDR_SIZE (m off) -> chain m e (off + CL_HDR_SIZE (m off)) l ->
    chain m e off (off :: l).

(** The blocks follow one another. *)
Definition block_end (m : memory) (o : Z) : Z := o + CL_HDR_SIZE (m o).

Lemma chain_bounds m e off l : chain m e off l ->
  off <= e /\ forall o, o ∈ l -> off <= o /\ 0 < CL_HDR_SIZE (m o) /\ block_end m o <= e.
Proof.
  unfold block_end. induction 1 as [|off l Hs Hc [IH1 IH2]]; [split; [lia|]; by intros o Ho%elem_of_nil|].
  split; [lia|]. intros o [->|Ho]%elem_of_cons; [lia|]. specialize (IH2 o Ho). lia.
Qed.

Lemma chain_length m e off l : chain m e off l -> (length l <= Z.to_nat (e - off))%nat.
Proof.
  induction 1 as [|off l Hs Hc IH]; cbn; [lia|]. apply chain_bounds in Hc as [Hc _]. lia.
Qed.

Lemma blocks_ext m m' e off l : chain m e off l ->
  (forall o, o ∈ l -> CL_HDR_SIZE (m' o) = CL_HDR_SIZE (m o)) -> chain m' e off l.
Proof.
  induction 1 as [|off l Hs Hc IH]; intros H; [constructor|].
  pose proof (H off ltac:(apply list_elem_of_here)) as E. constructor; rewrite E; [done|].
  apply IH. intros o Ho. apply H. by apply list_elem_of_further.
Qed.

Lemma chain_det m e off l l' : chain m e off l -> chain m e off l' -> l = l'.
Proof.
  intros H. revert l'. induction H as [|off l Hs Hc IH]; intros l' H'; inversion H'; subst.
  - done.
  - by apply chain_bounds in H0 as [? _]; lia.
  - by apply chain_bounds in Hc as [? _]; lia.
  - f_equal. by apply IH.
Qed.

Lemma chain_app m e off l1 l2 : chain m e off (l1 ++ l2) <->
  exists mid, chain m mid off l1 /\ chain m e mid l2.
Proof.
  split.
  - revert off. induction l1 as [|o l1 IH]; intros off H; cbn in H.
    + exists off. split; [constructor|done].
    + inversion H; subst. destruct (IH _ H4) as (mid & H1 & H2). exists mid. split; [by constructor|done].
  - intros (mid & H1 & H2). induction H1 as [|off l Hs Hc IH]; [done|]. cbn. constructor; [done|]. by apply IH.
Qed.

(** Two different blocks do not overlap. *)
Lemma chain_disjoint m e off l o o' : chain m e off l -> o ∈ l -> o' ∈ l -> o <> o' ->
  block_end m o <= o' \/ block_end m o' <= o.
Proof.
  unfold block_end. induction 1 as [|off l Hs Hc IH]; [by intros ?%elem_of_nil|].
  apply chain_bounds in Hc as [_ Hb].
  intros [->|Ho]%elem_of_cons [->|Ho']%elem_of_cons Hne; [done|..|auto].
  - specialize (Hb o' Ho'). lia.
  - specialize (Hb o Ho). lia.
Qed.

Lemma chain_NoDup m e off l : chain m e off l -> NoDup l.
Proof.
  induction 1 as [|off l Hs Hc IH]; constructor; [|done].
  intros Ho. apply chain_bounds in Hc as [_ Hb]. specialize (Hb off Ho). lia.
Qed.

Section Walk_rule.
Context {S : Type} (mem_of : S -> memory) (e : Z).

Lemma walk_next_step m off l o : chain m e off (o :: l) ->
  o = off /\ gc_walk_next m {| w_off := off; w_end := e |} =
    Some (o, CL_HDR_SIZE (m o), CL_HDR_TYPE (m o), {| w_off := block_end m o; w_end := e |}) /\
  chain m e (block_end m o) l.
Proof.
  intros H. inversion H; subst. split; [done|]. pose proof (chain_bounds _ _ _ _ H4) as [Hb _].
  unfold gc_walk_next. cbn. rewrite (proj2 (Z.leb_gt _ _)), (proj2 (Z.eqb_neq _ _)) by lia. done.
Qed.

(** The rule for a pass: an invariant over the blocks still ahead. *)
Lemma gc_walk_rule (I : list Z -> S -> Prop) (body : Z -> Z -> Z -> S -> S) :
  (forall o l s, I (o :: l) s -> chain (mem_of s) e o (o :: l) ->
     let s' := body o (CL_HDR_SIZE (mem_of s o)) (CL_HDR_TYPE (mem_of s o)) s in
     I l s' /\ chain (mem_of s') e (block_end (mem_of s) o) l) ->
  forall fuel l off s, (length l < fuel)%nat -> chain (mem_of s) e off l -> I l s ->
  I [] (gc_walk mem_of fuel (no_seek body) {| w_off := off; w_end := e |} s).
Proof.
  intros Hb fuel. induction fuel as [|fuel IH]; intros l off s Hf Hc HI; [lia|].
  cbn [gc_walk]. destruct l as [|o l].
  - inversion Hc; subst. unfold gc_walk_next. cbn. by rewrite Z.leb_refl.
  - destruct (walk_next_step _ _ _ _ Hc) as (-> & -> & _). unfold no_seek at 1.
    destruct (Hb off l s HI Hc) as [HI' Hc']. eapply (IH l); [cbn in Hf; lia|exact Hc'|exact HI'].
Qed.

End Walk_rule.

Lemma walk_fuel_enough m e off l : 0 <= off -> chain m e off l -> (length l < walk_fuel e)%nat.
Proof. intros Ho H%chain_length. unfold walk_fuel. lia. Qed.
