(* ===== verification/GcGraph.v ===== *)
(** * The object graph of a heap

    What the collector may assume about the arena and what it has to keep: the
    objects reachable from the roots, the slots each of them owns, and the
    changes to memory that leave the shape of an object alone. *)

From Stdlib Require Import ZArith Lia ZifyBool.
From stdpp Require Import base option list sets.
From S2P Require Import Prelude GcHeap.
Local Open Scope Z_scope.

(** ** The layouts the model covers *)

(** Alignment 4 or 8, and CL_Bytecode fields that are words of the object. *)
Class LayoutLaws (L : Layout) : Type := {
  align_cases : CL_ALIGN = 4 \/ CL_ALIGN = 8;
  bc_size : Z;                                  (* sizeof(CL_Bytecode) *)
  bc_fields d : d = bc_name \/ d = bc_source_lambda_list -> 4 <= d <= bc_size - 4;
  bc_local m m' ptr ptr' :
    (forall d, 0 < d < bc_size -> d <> bc_name -> d <> bc_source_lambda_list -> m' (ptr' + d) = m (ptr + d)) ->
    bc_n_constants m' ptr' = bc_n_constants m ptr /\ bc_constants m' ptr' = bc_constants m ptr /\
    bc_key_syms m' ptr' = bc_key_syms m ptr /\ bc_n_keys m' ptr' = bc_n_keys m ptr }.

Lemma align_pos {L : Layout} {LL : LayoutLaws L} : 4 <= CL_ALIGN <= 8.
Proof. destruct align_cases; lia. Qed.

(** The size an object has at least, where its shape depends on its words. *)
Definition min_size {L : Layout} {LL : LayoutLaws L} (type : Z) : Z :=
  match obj_type type with
  | Some TYPE_SYMBOL => 28
  | Some TYPE_CLOSURE => 8
  | Some TYPE_BYTECODE => bc_size
  | Some TYPE_VECTOR => 16
  | Some TYPE_HASHTABLE => 24
  | Some TYPE_STRUCT => 12
  | _ => 4
  end.

Lemma elem_of_word_range a n base : a ∈ word_range n base <->
  exists i, 0 <= i < Z.of_nat n /\ a = base + 4 * i.
Proof.
  revert base. induction n as [|n IH]; intros base; cbn [word_range].
  - rewrite elem_of_nil. split; [done|]. intros (i & Hi & _). lia.
  - rewrite elem_of_cons, IH. split.
    + intros [->|(i & Hi & ->)]; [exists 0; lia|exists (i + 1); lia].
    + intros (i & Hi & ->). destruct (decide (i = 0)) as [->|Hne]; [left; lia|right; exists (i - 1); lia].
Qed.

Lemma word_range_NoDup n base : NoDup (word_range n base).
Proof.
  revert base. induction n as [|n IH]; intros base; constructor; [|done].
  intros (i & Hi & E)%elem_of_word_range. lia.
Qed.

(** A free block holds its size and the offset of the next one. *)
Definition sizeof_FreeBlock : Z := 8.

Section Graph.
Context {L : Layout} {LL : LayoutLaws L} (arena_size : Z).

(** The words gc_mark_visit takes for references. *)
Definition is_ref (v : Z) : bool := (Z.land v CL_TAG_MASK_LO2 =? 0) && negb (v =? 0) && (v <? arena_size).

Definition outside (a : Z) : Prop := a < 0 \/ arena_size <= a.

Definition slots_of (m : memory) (o : Z) : list Z := children m o (CL_HDR_TYPE (m o)).

(** What an object needs for its slots to be its own. *)
Record obj_fits (m : memory) (o : Z) : Prop := {
  fit_size : min_size (CL_HDR_TYPE (m o)) <= CL_HDR_SIZE (m o);
  fit_slots : forall a, a ∈ slots_of m o -> (o + 4 <= a <= block_end m o - 4 /\ (4 | a - o)) \/
    (outside a /\ obj_type (CL_HDR_TYPE (m o)) = Some TYPE_BYTECODE);
  fit_inside : 0 <= o /\ block_end m o <= arena_size;
  fit_pool : obj_type (CL_HDR_TYPE (m o)) = Some TYPE_BYTECODE -> forall a, a ∈ slots_of m o ->
    a <> o + bc_name -> a <> o + bc_source_lambda_list -> outside a;
  fit_NoDup : NoDup (slots_of m o) }.

(** A word that changes neither from nor to NIL or CL_UNBOUND. *)
Definition same_kind (v v' : Z) : Prop := (v' =? 0) = (v =? 0) /\ (v' =? CL_UNBOUND) = (v =? CL_UNBOUND).

(** [m'] is [m] on the object at [o] but for slots, mark bit aside. *)
Record slots_only (m m' : memory) (o : Z) : Prop := {
  so_hdr : CL_HDR_SIZE (m' o) = CL_HDR_SIZE (m o);
  so_type : CL_HDR_TYPE (m' o) = CL_HDR_TYPE (m o);
  so_words : forall a, o < a < block_end m o -> a ∉ slots_of m o -> m' a = m a;
  so_slots : forall a, a ∈ slots_of m o -> same_kind (m a) (m' a) }.

Lemma same_kind_refl v : same_kind v v.
Proof. done. Qed.

Lemma slots_only_refl m o : slots_only m m o.
Proof. by split. Qed.

Lemma slots_only_shape m m' o : obj_fits m o -> slots_only m m' o ->
  same_shape o (CL_HDR_TYPE (m o)) m m'.
Proof.
  intros [Hs Hf Hi Hp _] [E _ Hw Hk]. unfold min_size, same_shape in *. unfold slots_of, block_end in *.
  remember (CL_HDR_TYPE (m o)) as type eqn:Et. unfold children in Hf, Hp, Hw, Hk.
  destruct (obj_type type) as [[]|] eqn:Eo; try done.
  - (* symbol *)
    assert (Hx : forall d, d = 8 \/ d = 12 -> (m' (o + d) =? CL_UNBOUND) = (m (o + d) =? CL_UNBOUND)).
    { intros d Hd. destruct (m (o + d) =? CL_UNBOUND) eqn:Eu.
      - rewrite Hw, Eu; [done|lia|]. intros Hin.
        rewrite !elem_of_cons, !elem_of_app, !elem_of_cons in Hin.
        destruct Hd as [->| ->]; rewrite Eu in Hin; rewrite ?elem_of_nil in Hin;
          repeat case_match; rewrite ?elem_of_cons, ?elem_of_nil in Hin; lia.
      - rewrite <- Eu. apply Hk. rewrite !elem_of_cons, !elem_of_app, !elem_of_cons.
        destruct Hd as [->| ->]; rewrite Eu, list_elem_of_singleton; tauto. }
    split; apply Hx; lia.
  - (* bytecode *)
    apply bc_local. intros d Hd Hn Hl. apply Hw; [lia|]. intros Hin.
    destruct (Hp eq_refl _ Hin ltac:(lia) ltac:(lia)) as [?|?]; lia.
  - (* vector *)
    assert (Hx : forall d, d = 4 \/ d = 12 -> m' (o + d) = m (o + d)); [|split; apply Hx; lia].
    intros d Hd. apply Hw; [lia|]. destruct (vec_displaced m o).
    + rewrite list_elem_of_singleton. unfold CL_DISP_BASE_IDX. destruct (vec_rank (m (o + 12)) >? 1) eqn:Er; lia.
    + intros (i & Hi' & ?)%elem_of_word_range. lia.
  - (* hash table *)
    split; [apply Hk, list_elem_of_here|]. apply Hw; [lia|]. rewrite elem_of_cons. intros [?|Hin]; [lia|].
    destruct (negb (m (o + 20) =? 0)); [by apply elem_of_nil in Hin|].
    apply elem_of_word_range in Hin as (i & ? & ?). lia.
  - (* struct *)
    apply Hw; [lia|]. rewrite elem_of_cons. intros [?|(i & ? & ?)%elem_of_word_range]; lia.
Qed.

Lemma slots_only_same m m' o : obj_fits m o -> slots_only m m' o -> slots_of m' o = slots_of m o.
Proof.
  intros Hf Hs. unfold slots_of. rewrite (so_type _ _ _ Hs). by apply same_shape_children, slots_only_shape.
Qed.

(** ** Reachability *)

(** From the root slots and the pinned objects, through the slots of objects. *)
Inductive reachable (m : memory) (roots pinned : list Z) : Z -> Prop :=
| reach_root a : a ∈ roots -> is_ref (m a) = true -> reachable m roots pinned (m a)
| reach_pin o : o ∈ pinned -> reachable m roots pinned o
| reach_slot o a : reachable m roots pinned o -> a ∈ slots_of m o -> is_ref (m a) = true ->
    reachable m roots pinned (m a).

(** Memories that agree on the reachable objects and outside the arena have the
    same reachable objects, and every one of them the same slots. *)
Section Frame.
Context (m m' : memory) (roots pinned : list Z).
Context (Hpos : forall o, reachable m roots pinned o -> 0 < CL_HDR_SIZE (m o) /\ obj_fits m o).
Context (Hroots : forall a, a ∈ roots -> outside a).
Context (Hobj : forall o a, reachable m roots pinned o -> o <= a < block_end m o -> m' a = m a).
Context (Hout : forall a, outside a -> m' a = m a).

Lemma frame_slots o : reachable m roots pinned o -> slots_of m' o = slots_of m o /\
  forall a, a ∈ slots_of m o -> m' a = m a.
Proof.
  intros Ho. destruct (Hpos o Ho) as [Hs Hf].
  assert (Hw : forall a, a ∈ slots_of m o -> m' a = m a).
  { intros a Ha. destruct (fit_slots _ _ Hf a Ha) as [[Hr _]|[? _]]; [|auto]. apply (Hobj o); [done|lia]. }
  split; [|done]. apply slots_only_same; [done|].
  assert (E : m' o = m o) by (apply (Hobj o); [done|unfold block_end; lia]).
  split; [by rewrite E..| |].
  - intros a Ha _. apply (Hobj o); [done|lia].
  - intros a Ha. by rewrite Hw.
Qed.

Lemma reachable_frame o : reachable m' roots pinned o <-> reachable m roots pinned o.
Proof.
  split; induction 1 as [a Ha Hr|o Ho|o a Ho IH Ha Hr].
  - rewrite Hout in * by auto. by apply reach_root.
  - by apply reach_pin.
  - destruct (frame_slots o IH) as [E Hw]. rewrite E in Ha. rewrite (Hw a Ha) in *. by eapply reach_slot.
  - rewrite <- (Hout a) in * by auto. by apply reach_root.
  - by apply reach_pin.
  - destruct (frame_slots o Ho) as [E Hw]. rewrite <- (Hw a Ha) in *. eapply reach_slot; [exact IH|by rewrite E|done].
Qed.

Lemma frame_fits o : reachable m roots pinned o -> obj_fits m' o.
Proof.
  intros Ho. destruct (Hpos o Ho) as [Hs Hf]. destruct (frame_slots o Ho) as [E _].
  assert (Eh : m' o = m o) by (apply (Hobj o); [done|unfold block_end; lia]).
  destruct Hf as [F1 F2 F3 F4 F5]. split; unfold block_end in *; rewrite ?E, ?Eh; done.
Qed.

End Frame.

(** The heap a collection starts from: the block chain up to the bump front, no
    mark bit set, every object reachable from the root slots and the pinned
    objects a block with slots of its own, and the root slots outside. *)
Record heap_wf (bump : Z) (m : memory) (bl roots pinned : list Z) : Prop := {
  hw_size : 0 < arena_size < 2 ^ 32;
  hw_bump : bump <= arena_size;
  hw_chain : chain m bump CL_ALIGN bl;
  hw_align : forall o, o ∈ bl -> (CL_ALIGN | CL_HDR_SIZE (m o));
  hw_min : forall o, o ∈ bl -> sizeof_FreeBlock <= CL_HDR_SIZE (m o);
  hw_clear : forall o, o ∈ bl -> CL_HDR_MARKED (m o) = false;
  hw_obj : forall o, reachable m roots pinned o -> o ∈ bl /\ obj_fits m o;
  hw_roots : forall a, a ∈ roots -> outside a }.

Lemma block_inside bump m bl o : chain m bump CL_ALIGN bl -> bump <= arena_size -> o ∈ bl ->
  0 < o /\ o < arena_size /\ CL_ALIGN <= o.
Proof.
  intros Hc Hb Ho. destruct (chain_bounds _ _ _ _ Hc) as [_ H]. specialize (H o Ho). unfold block_end in H.
  destruct align_cases as [E|E]; rewrite E in *; lia.
Qed.

Lemma chain_aligned bump m bl off : chain m bump off bl -> (forall o, o ∈ bl -> (CL_ALIGN | CL_HDR_SIZE (m o))) ->
  (CL_ALIGN | off) -> (CL_ALIGN | bump) /\ forall o, o ∈ bl -> (CL_ALIGN | o).
Proof.
  induction 1 as [|off l Hs Hc IH]; intros Ha Hoff; [split; [done|]; by intros o ?%elem_of_nil|].
  destruct IH as [Hb Hl]; [intros o Ho; apply Ha; by apply list_elem_of_further| |].
  - apply Z.divide_add_r; [done|]. apply Ha, list_elem_of_here.
  - split; [done|]. intros o [->|Ho]%elem_of_cons; auto.
Qed.

(** A block's offset is a reference. *)
Lemma block_is_ref bump m bl o : chain m bump CL_ALIGN bl -> bump <= arena_size ->
  (forall o, o ∈ bl -> (CL_ALIGN | CL_HDR_SIZE (m o))) -> o ∈ bl -> is_ref o = true.
Proof.
  intros Hc Hb Ha Ho. destruct (block_inside _ _ _ _ Hc Hb Ho) as (H1 & H2 & _).
  destruct (chain_aligned _ _ _ _ Hc Ha (Z.divide_refl _)) as [_ Hd]. specialize (Hd o Ho).
  unfold is_ref, CL_TAG_MASK_LO2. change 3 with (Z.ones 2). rewrite Z.land_ones by lia.
  assert (o mod 2 ^ 2 = 0).
  { apply Z.mod_divide; [done|]. eapply Z.divide_trans; [|exact Hd]. destruct align_cases as [->| ->]; [by exists 1|by exists 2]. }
  lia.
Qed.

(** An address within a block, or outside the arena, is no other block's header. *)
Lemma inner_no_header bump m bl o a : chain m bump CL_ALIGN bl -> bump <= arena_size -> o ∈ bl ->
  o < a < block_end m o \/ outside a -> a ∉ bl.
Proof.
  intros Hc Hb Ho Ha Hbl. pose proof (block_inside _ _ _ a Hc Hb Hbl) as Hin. destruct Ha as [Ha|Ha]; [|destruct Ha; lia].
  destruct (chain_disjoint _ _ _ _ o a Hc Ho Hbl) as [?|Hd]; [lia|lia|].
  destruct (chain_bounds _ _ _ _ Hc) as [_ H]. specialize (H a Hbl). unfold block_end in Hd. lia.
Qed.

Lemma slot_place m o a : obj_fits m o -> a ∈ slots_of m o -> o < a < block_end m o \/ outside a.
Proof. intros Hf Ha. destruct (fit_slots _ _ Hf a Ha) as [[? _]|[? _]]; [left; lia|by right]. Qed.

End Graph.

(** ** A 64-bit little-endian host, and a small heap on it *)

Definition lp64 (arena : Z) : Layout := {|
  CL_ALIGN := 8;
  fn_name := 16;
  bc_name := 36;
  bc_source_lambda_list := 124;
  bc_constants m ptr := m (ptr + 16) + 2 ^ 32 * m (ptr + 20) - arena;
  bc_n_constants m ptr := m (ptr + 28) mod 2 ^ 16;
  bc_key_syms m ptr :=
    let p := m (ptr + 48) + 2 ^ 32 * m (ptr + 52) in if p =? 0 then None else Some (p - arena);
  bc_n_keys m ptr := m (ptr + 40) / 2 ^ 16 mod 2 ^ 8;
  vec_flags w := w mod 2 ^ 8;
  vec_rank w := w / 2 ^ 8 mod 2 ^ 8 |}.

#[export] Program Instance lp64_laws arena : LayoutLaws (lp64 arena) := {| bc_size := 128 |}.
Next Obligation. intros arena. by right. Qed.
Next Obligation. intros arena d [->| ->]; cbn; lia. Qed.
Next Obligation.
  intros arena m m' ptr ptr' H. cbn in *. by rewrite !H by lia.
Qed.

(** A 32-bit big-endian target with natural alignment (PowerPC). *)
Definition ilp32 (arena : Z) : Layout := {|
  CL_ALIGN := 4;
  fn_name := 8;
  bc_name := 24;
  bc_source_lambda_list := 72;
  bc_constants m ptr := m (ptr + 8) - arena;
  bc_n_constants m ptr := m (ptr + 16) / 2 ^ 16;
  bc_key_syms m ptr := let p := m (ptr + 32) in if p =? 0 then None else Some (p - arena);
  bc_n_keys m ptr := m (ptr + 28) / 2 ^ 8 mod 2 ^ 8;
  vec_flags w := w / 2 ^ 24;
  vec_rank w := w / 2 ^ 16 mod 2 ^ 8 |}.

#[export] Program Instance ilp32_laws arena : LayoutLaws (ilp32 arena) := {| bc_size := 76 |}.
Next Obligation. intros arena. by left. Qed.
Next Obligation. intros arena d [->| ->]; cbn; lia. Qed.
Next Obligation.
  intros arena m m' ptr ptr' H. cbn in *. by rewrite !H by lia.
Qed.

(** Three conses, a string and a garbage cons: the root at -4 holds the cons at
    8, whose car and cdr are the conses at 24 and 40; the string at 56 is
    reached through the second of them, and a pin keeps the one at 24. *)
Module Sample.
Definition arena_size : Z := 128.
Definition bump : Z := 88.
Definition words : list (Z * Z) :=
  [(-4, 8); (8, 16); (12, 24); (16, 40); (24, 16); (28, 3); (32, 0); (40, 16); (44, 56); (48, 8);
   (56, CL_MAKE_HDR 2 16); (60, 4); (64, 40); (72, 16); (76, 40); (80, 0)].
Definition mem : memory := fun a => default 0 (snd <$> List.find (fun p => fst p =? a) words).
Definition blocks : list Z := [8; 24; 40; 56; 72].
Definition roots : list Z := [-4].
Definition pinned : list Z := [24].
Definition layout : Layout := lp64 65536.
#[export] Existing Instance layout.

Ltac each H := repeat (apply elem_of_cons in H as [->|H]); [..|by apply elem_of_nil in H].

Lemma live o : reachable arena_size mem roots pinned o -> o ∈ [8; 24; 40; 56].
Proof.
  assert (E : forall a v, a = v -> v ∈ [8; 24; 40; 56] -> a ∈ [8; 24; 40; 56]) by (by intros ?? ->).
  induction 1 as [a Ha _|p Hp|p a _ IH Ha Hr].
  - each Ha. apply (bool_decide_unpack _). by vm_compute.
  - each Hp. apply (bool_decide_unpack _). by vm_compute.
  - each IH; vm_compute in Ha; each Ha; vm_compute in Hr; try done; apply (bool_decide_unpack _); by vm_compute.
Qed.

Lemma fits o : o ∈ [8; 24; 40; 56] -> obj_fits arena_size mem o.
Proof.
  intros Ho. each Ho; split; try (by vm_compute); try (by vm_compute; split);
    try (intros a Ha; vm_compute in Ha; each Ha; (left; split; [vm_compute; by split|apply Z.mod_divide; by vm_compute])).
  all: try (intros a Ha; vm_compute in Ha; by apply elem_of_nil in Ha).
  all: try (apply (bool_decide_unpack _); by vm_compute).
Qed.

Lemma wf : heap_wf arena_size bump mem blocks roots pinned.
Proof.
  split.
  - done.
  - done.
  - repeat (apply chain_step; [done|];
      match goal with |- chain _ _ ?x _ => let y := eval vm_compute in x in change x with y end).
    constructor.
  - intros o Ho. each Ho; apply Z.mod_divide; done.
  - intros o Ho. each Ho; done.
  - intros o Ho. each Ho; done.
  - intros o Ho. apply live in Ho. split; [|by apply fits]. each Ho; apply (bool_decide_unpack _); done.
  - intros a Ha. each Ha. by left.
Qed.
End Sample.

(** The same arena with holes: the root at -4, given twice, holds the cons at 24, whose cdr
    is the cons at 40, which is pinned, and whose car is the string at 72; the
    conses at 8 and 56 are garbage. *)
Module Holes.
Definition arena_size : Z := 128.
Definition bump : Z := 88.
Definition words : list (Z * Z) :=
  [(-4, 24); (8, 16); (12, 24); (16, 56); (24, 16); (28, 72); (32, 40); (40, 16); (44, 3); (48, 24);
   (56, 16); (60, 8); (64, 0); (72, CL_MAKE_HDR 2 16); (76, 4); (80, 67)].
Definition memory_of (words : list (Z * Z)) : memory := fun a => default 0 (snd <$> List.find (fun p => fst p =? a) words).
Definition mem : memory := memory_of words.
Definition marked : memory := foldr (fun o m => put m o (CL_HDR_SET_MARK (m o))) mem [24; 40; 72].
Definition blocks : list Z := [8; 24; 40; 56; 72].
Definition roots : list Z := [-4; -4].
Definition pinned : list Z := [40].
Definition layout : Layout := lp64 65536.
#[local] Existing Instance layout.

Ltac chain_steps := repeat (apply chain_step; [done|];
  match goal with |- chain _ _ ?x _ => let y := eval vm_compute in x in change x with y end); constructor.

Lemma holes_marked_chain : chain marked bump CL_ALIGN blocks.
Proof. chain_steps. Qed.

Lemma holes_live o : reachable arena_size mem roots pinned o -> o ∈ [24; 40; 72].
Proof.
  assert (E : forall a v, a = v -> v ∈ [24; 40; 72] -> a ∈ [24; 40; 72]) by (by intros ?? ->).
  induction 1 as [a Ha _|p Hp|p a _ IH Ha Hr].
  - Sample.each Ha; apply (bool_decide_unpack _); by vm_compute.
  - Sample.each Hp. apply (bool_decide_unpack _). by vm_compute.
  - Sample.each IH; vm_compute in Ha; Sample.each Ha; vm_compute in Hr; try done; apply (bool_decide_unpack _); by vm_compute.
Qed.

Lemma holes_fits o : o ∈ [24; 40; 72] -> obj_fits arena_size mem o.
Proof.
  intros Ho. Sample.each Ho; split; try (by vm_compute); try (by vm_compute; split);
    try (intros a Ha; vm_compute in Ha; Sample.each Ha; (left; split; [vm_compute; by split|apply Z.mod_divide; by vm_compute])).
  all: try (intros a Ha; vm_compute in Ha; by apply elem_of_nil in Ha).
  all: try (apply (bool_decide_unpack _); by vm_compute).
Qed.

Lemma holes_wf : heap_wf arena_size bump mem blocks roots pinned.
Proof.
  split.
  - done.
  - done.
  - chain_steps.
  - intros o Ho. Sample.each Ho; apply Z.mod_divide; done.
  - intros o Ho. Sample.each Ho; done.
  - intros o Ho. Sample.each Ho; done.
  - intros o Ho. apply holes_live in Ho. split; [|by apply holes_fits]. Sample.each Ho; apply (bool_decide_unpack _); done.
  - intros a Ha. Sample.each Ha; by left.
Qed.
End Holes.
