(* ===== verification/GcMark.v ===== *)
(** * The mark phase

    gc_trace.c: the mark stack with its growth and its overflow, the visit of
    a reference, the drain, and gc_mark with the heap re-scan that makes up
    for a stack that could not grow.  The theorem is that the marked blocks are
    the reachable objects, whatever the allocator says to the stack's requests.

    A stack is the list of its entries, top first.  The root slots are given in
    the order gc_visit_roots enumerates them; [pinned] are the objects the
    conservative scan of the native stacks finds. *)

From Stdlib Require Import ZArith Lia ZifyBool.
From stdpp Require Import base option list sets.
From S2P Require Import Prelude GcHeap GcGraph.
Local Open Scope Z_scope.

Record GcMark : Type := {
  gm_mem : memory;
  gc_mark_stack : list Z;
  gc_mark_stack_cap : Z;
  gc_mark_overflow : bool;
  gc_mark_grow_failed : bool;
  gc_mark_stack_grows : Z;
  gc_mark_rescan_passes : Z }.

Definition set_mem (m : memory) (s : GcMark) : GcMark :=
  {| gm_mem := m; gc_mark_stack := gc_mark_stack s; gc_mark_stack_cap := gc_mark_stack_cap s;
     gc_mark_overflow := gc_mark_overflow s; gc_mark_grow_failed := gc_mark_grow_failed s;
     gc_mark_stack_grows := gc_mark_stack_grows s; gc_mark_rescan_passes := gc_mark_rescan_passes s |}.
Definition set_mark_stack (l : list Z) (s : GcMark) : GcMark :=
  {| gm_mem := gm_mem s; gc_mark_stack := l; gc_mark_stack_cap := gc_mark_stack_cap s;
     gc_mark_overflow := gc_mark_overflow s; gc_mark_grow_failed := gc_mark_grow_failed s;
     gc_mark_stack_grows := gc_mark_stack_grows s; gc_mark_rescan_passes := gc_mark_rescan_passes s |}.
Definition set_overflow (b : bool) (s : GcMark) : GcMark :=
  {| gm_mem := gm_mem s; gc_mark_stack := gc_mark_stack s; gc_mark_stack_cap := gc_mark_stack_cap s;
     gc_mark_overflow := b; gc_mark_grow_failed := gc_mark_grow_failed s;
     gc_mark_stack_grows := gc_mark_stack_grows s; gc_mark_rescan_passes := gc_mark_rescan_passes s |}.
Definition set_grow_failed (b : bool) (s : GcMark) : GcMark :=
  {| gm_mem := gm_mem s; gc_mark_stack := gc_mark_stack s; gc_mark_stack_cap := gc_mark_stack_cap s;
     gc_mark_overflow := gc_mark_overflow s; gc_mark_grow_failed := b;
     gc_mark_stack_grows := gc_mark_stack_grows s; gc_mark_rescan_passes := gc_mark_rescan_passes s |}.
Definition grown (cap : Z) (s : GcMark) : GcMark :=
  {| gm_mem := gm_mem s; gc_mark_stack := gc_mark_stack s; gc_mark_stack_cap := cap;
     gc_mark_overflow := gc_mark_overflow s; gc_mark_grow_failed := gc_mark_grow_failed s;
     gc_mark_stack_grows := u32 (gc_mark_stack_grows s + 1);
     gc_mark_rescan_passes := gc_mark_rescan_passes s |}.
Definition rescanned (s : GcMark) : GcMark :=
  {| gm_mem := gm_mem s; gc_mark_stack := gc_mark_stack s; gc_mark_stack_cap := gc_mark_stack_cap s;
     gc_mark_overflow := false; gc_mark_grow_failed := gc_mark_grow_failed s;
     gc_mark_stack_grows := gc_mark_stack_grows s;
     gc_mark_rescan_passes := u32 (gc_mark_rescan_passes s + 1) |}.

(** How the mark stack may grow: the size of the static buffer, the cap of
    the test hook (0: none), and which requests the C heap grants. *)
Class MarkConfig : Type := {
  CL_GC_MARK_STACK_SIZE : Z;
  gc_mark_stack_test_limit : Z;
  mark_alloc_ok : Z -> bool }.

Section Mark.
Context {L : Layout} {C : MarkConfig} (arena_size : Z).

(** Double the stack, up to the cap: the state and whether it grew. *)
Definition gc_mark_stack_grow (s : GcMark) : GcMark * bool :=
  if gc_mark_grow_failed s then (s, false)
  else
    let max_cap := arena_size / 128 in
    let max_cap := if max_cap <? CL_GC_MARK_STACK_SIZE then CL_GC_MARK_STACK_SIZE else max_cap in
    let max_cap := if negb (gc_mark_stack_test_limit =? 0) && (max_cap >? gc_mark_stack_test_limit)
                   then gc_mark_stack_test_limit else max_cap in
    if gc_mark_stack_cap s >=? max_cap then (set_grow_failed true s, false)
    else
      let new_cap := u32 (gc_mark_stack_cap s * 2) in
      let new_cap := if new_cap >? max_cap then max_cap else new_cap in
      if mark_alloc_ok (new_cap * 4) then (grown new_cap s, true)
      else (set_grow_failed true s, false).

Definition gc_mark_overflow_drop (s : GcMark) : GcMark := set_overflow true s.

Definition gc_mark_grow_or_drop (s : GcMark) : GcMark * bool :=
  let '(s, ok) := gc_mark_stack_grow s in
  if ok then (s, true) else (gc_mark_overflow_drop s, false).

Definition mark_push (obj : Z) (s : GcMark) : GcMark := set_mark_stack (obj :: gc_mark_stack s) s.

(** The only place an object becomes marked. *)
Definition gc_mark_visit (obj : Z) (s : GcMark) : GcMark :=
  if negb (Z.land obj CL_TAG_MASK_LO2 =? 0) || (obj =? 0) then s
  else if obj >=? arena_size then s
  else if CL_HDR_MARKED (gm_mem s obj) then s
  else
    let s := set_mem (put (gm_mem s) obj (CL_HDR_SET_MARK (gm_mem s obj))) s in
    if negb (GC_TYPE_HAS_CHILDREN (CL_HDR_TYPE (gm_mem s obj))) then s
    else if Z.of_nat (length (gc_mark_stack s)) <? gc_mark_stack_cap s then mark_push obj s
    else
      let '(s, ok) := gc_mark_grow_or_drop s in
      if ok then mark_push obj s else s.

Definition gc_mark_obj (obj : Z) (s : GcMark) : GcMark := gc_mark_visit obj s.

(** The visit of a slot: of the word it holds. *)
Definition gc_mark_slot (a : Z) (s : GcMark) : GcMark := gc_mark_visit (gm_mem s a) s.

Definition gc_mark_children (ptr type : Z) (s : GcMark) : GcMark :=
  GC_WALK_OBJ_CHILDREN gm_mem gc_mark_slot ptr type s.

(** Scan everything queued; the cons without the call into the walk. *)
Fixpoint gc_mark_drain (fuel : nat) (s : GcMark) : GcMark :=
  match fuel with
  | O => s
  | S fuel =>
      match gc_mark_stack s with
      | [] => s
      | obj :: st =>
          let s := set_mark_stack st s in
          let type := CL_HDR_TYPE (gm_mem s obj) in
          gc_mark_drain fuel
            (if type =? 0 then gc_mark_slot (obj + 8) (gc_mark_slot (obj + 4) s)
             else gc_mark_children obj type s)
      end
  end.

(** One full-arena re-scan for marked objects that were not queued. *)
Definition gc_mark_rescan (bump : Z) (fuel : nat) (s : GcMark) : GcMark :=
  let s := gc_walk gm_mem (walk_fuel bump)
             (no_seek (fun off size type s =>
                if negb (type =? CL_TYPE_DEAD) && CL_HDR_MARKED (gm_mem s off)
                then gc_mark_children off type s else s))
             (gc_walk_begin bump) (rescanned s) in
  gc_mark_drain fuel s.

Fixpoint gc_mark_rescans (bump : Z) (passes fuel : nat) (s : GcMark) : GcMark :=
  match passes with
  | O => s
  | S passes => if gc_mark_overflow s then gc_mark_rescans bump passes fuel (gc_mark_rescan bump fuel s) else s
  end.

(** The mark phase, with [fuel] steps for each drain and [passes] re-scans. *)
Definition gc_mark_with (passes fuel : nat) (bump : Z) (roots pinned : list Z) (s : GcMark) : GcMark :=
  let s := set_grow_failed false (set_overflow false s) in
  let s := foldl (fun s a => gc_mark_slot a s) s roots in
  let s := gc_mark_drain fuel s in
  let s := foldl (fun s o => gc_mark_obj o s) s pinned in
  let s := gc_mark_drain fuel s in
  gc_mark_rescans bump passes fuel s.

(** Blocks are at least a word, so the bump front bounds them. *)
Definition gc_mark (bump : Z) (roots pinned : list Z) (s : GcMark) : GcMark :=
  gc_mark_with (walk_fuel bump) (walk_fuel bump) bump roots pinned s.

End Mark.

(** ** Counting *)

Definition count_if (f : Z -> bool) (l : list Z) : nat := length (List.filter f l).

Lemma count_if_ext f g l : (forall o, o ∈ l -> g o = f o) -> count_if g l = count_if f l.
Proof.
  unfold count_if. induction l as [|o l IH]; intros H; [done|]. cbn.
  rewrite (H o (list_elem_of_here _ _)). specialize (IH (fun o' Ho => H o' (list_elem_of_further _ _ _ Ho))).
  destruct (f o); cbn; congruence.
Qed.

Lemma count_if_less f g v l : NoDup l -> v ∈ l -> f v = true -> g v = false ->
  (forall o, o <> v -> g o = f o) -> (S (count_if g l) = count_if f l)%nat.
Proof.
  intros Hnd Hv Hf Hg He. unfold count_if. induction l as [|o l IH]; [by apply elem_of_nil in Hv|].
  apply NoDup_cons in Hnd as [Hni Hnd]. cbn. apply elem_of_cons in Hv as [<-|Hv].
  - rewrite Hf, Hg. cbn. f_equal. apply (count_if_ext f g). intros o Ho. apply He. congruence.
  - rewrite He by congruence. specialize (IH Hnd Hv). destruct (f o); cbn; lia.
Qed.

Lemma count_if_le f l : (count_if f l <= length l)%nat.
Proof. apply List.filter_length_le. Qed.

(** ** What marking does *)

Section Proof.
Context {L : Layout} {LL : LayoutLaws L} {C : MarkConfig} (arena_size bump : Z) (m0 : memory).
Context (bl roots pinned : list Z).

Abbreviation is_ref := (is_ref arena_size).
Abbreviation R := (reachable arena_size m0 roots pinned).
Abbreviation visit := (gc_mark_visit arena_size).
Abbreviation slot := (gc_mark_slot arena_size).

Context (Hw : heap_wf arena_size bump m0 bl roots pinned).
Context (Hbuf : 0 < CL_GC_MARK_STACK_SIZE < 2 ^ 31 /\ 0 <= gc_mark_stack_test_limit < 2 ^ 31).

Definition is_marked (s : GcMark) (o : Z) : bool := CL_HDR_MARKED (gm_mem s o).

(** The blocks still unmarked. *)
Definition unmarked (s : GcMark) : nat := count_if (fun o => negb (is_marked s o)) bl.

(** The stack fits its buffer. *)
Definition stack_ok (s : GcMark) : Prop :=
  0 < gc_mark_stack_cap s < 2 ^ 31 /\ Z.of_nat (length (gc_mark_stack s)) <= gc_mark_stack_cap s.

Record mark_inv (s : GcMark) : Prop := {
  mi_mem : forall a, gm_mem s a = m0 a \/ (R a /\ gm_mem s a = CL_HDR_SET_MARK (m0 a));
  mi_stack : forall o, o ∈ gc_mark_stack s -> is_marked s o = true /\ R o;
  mi_room : (unmarked s + length (gc_mark_stack s) <= length bl)%nat;
  mi_cap : stack_ok s }.

Definition scanned (s : GcMark) (o : Z) : Prop :=
  forall a, a ∈ slots_of m0 o -> is_ref (m0 a) = true -> is_marked s (m0 a) = true.

(** Every marked block is queued, scanned, in [P], or made up for by a re-scan. *)
Definition pending (P : Z -> Prop) (s : GcMark) : Prop :=
  forall o, R o -> is_marked s o = true ->
    o ∈ gc_mark_stack s \/ scanned s o \/ P o \/ gc_mark_overflow s = true.

(** What any part of the phase does to the marks. *)
Record evolves (s s' : GcMark) : Prop := {
  ev_mono : forall o, is_marked s o = true -> is_marked s' o = true;
  ev_unmarked : (unmarked s' <= unmarked s)%nat;
  ev_over : gc_mark_overflow s = true -> gc_mark_overflow s' = true;
  ev_strict : gc_mark_overflow s = false -> gc_mark_overflow s' = true -> (unmarked s' < unmarked s)%nat }.

(** And what the visits do to the stack. *)
Record visits (s s' : GcMark) : Prop := {
  vs_evolves : evolves s s';
  vs_inv : mark_inv s';
  vs_stack : exists new, gc_mark_stack s' = new ++ gc_mark_stack s /\
    (unmarked s' + length new <= unmarked s)%nat /\
    forall o, is_marked s' o = true -> is_marked s o = false ->
      o ∈ new \/ slots_of m0 o = [] \/ gc_mark_overflow s' = true }.

Lemma evolves_refl s : evolves s s.
Proof. split; [done|lia|done|congruence]. Qed.

Lemma evolves_trans s1 s2 s3 : evolves s1 s2 -> evolves s2 s3 -> evolves s1 s3.
Proof.
  intros [A1 A2 A3 A4] [B1 B2 B3 B4]. split; [auto|lia|auto|].
  intros H1 H3. destruct (gc_mark_overflow s2) eqn:E; [specialize (A4 H1 eq_refl)|specialize (B4 eq_refl H3)]; lia.
Qed.

Lemma visits_refl s : mark_inv s -> visits s s.
Proof.
  intros H. split; [apply evolves_refl|done|]. exists []. split_and!; [done|cbn; lia|]. intros o H1 H2. congruence.
Qed.

Lemma visits_trans s1 s2 s3 : visits s1 s2 -> visits s2 s3 -> visits s1 s3.
Proof.
  intros [A1 A2 (n1 & An & Al & Ao)] [B1 B2 (n2 & Bn & Bl & Bo)].
  split; [by eapply evolves_trans|done|]. exists (n2 ++ n1). rewrite length_app. split_and!.
  - by rewrite Bn, An, app_assoc.
  - lia.
  - intros o H3 H1. rewrite elem_of_app. destruct (is_marked s2 o) eqn:E2.
    + destruct (Ao o E2 H1) as [?|[?|?]]; [tauto|tauto|]. right. right. by apply (ev_over _ _ B1).
    + destruct (Bo o H3 E2) as [?|[?|?]]; tauto.
Qed.

Lemma scanned_mono s s' o : evolves s s' -> scanned s o -> scanned s' o.
Proof. intros E H a Ha Hr. by apply (ev_mono _ _ E), H. Qed.

Lemma visits_pending P s s' : visits s s' -> pending P s -> pending P s'.
Proof.
  intros [E _ (new & En & _ & Ho)] HP o HR Hm. rewrite En, elem_of_app. destruct (is_marked s o) eqn:Es.
  - destruct (HP o HR Es) as [?|[?|[?|?]]]; [tauto| |tauto|].
    + right. left. by eapply scanned_mono.
    + right. right. right. by apply (ev_over _ _ E).
  - destruct (Ho o Hm Es) as [?|[H0|?]]; [tauto| |tauto].
    right. left. intros a Ha. rewrite H0 in Ha. by apply elem_of_nil in Ha.
Qed.

(** ** One visit *)

Lemma leaf_has_no_slots m o : GC_TYPE_HAS_CHILDREN (CL_HDR_TYPE (m o)) = false -> slots_of m o = [].
Proof.
  unfold slots_of, children. destruct (obj_type (CL_HDR_TYPE (m o))) as [t|] eqn:E; [|done].
  intros H. assert (Et : CL_HDR_TYPE (m o) = tag_of t).
  { unfold obj_type in E. destruct (CL_HDR_TYPE (m o) <? 0) eqn:E0; [done|].
    assert (Hn : (Z.to_nat (CL_HDR_TYPE (m o)) < length obj_types)%nat) by (by eapply lookup_lt_Some).
    cbn in Hn. assert (Hr : 0 <= CL_HDR_TYPE (m o) < 29) by lia. clear Hn H.
    remember (CL_HDR_TYPE (m o)) as x. clear Heqx.
    assert (Hx : x = Z.of_nat (Z.to_nat x)) by lia. rewrite Hx. revert E. generalize (Z.to_nat x).
    intros n E. do 29 (destruct n as [|n]; [by injection E as <-|]). done. }
  rewrite Et in H. by destruct t.
Qed.

Lemma unmarked_ext s s' : (forall o, o ∈ bl -> is_marked s' o = is_marked s o) -> unmarked s' = unmarked s.
Proof. intros H. apply count_if_ext. intros o Ho. by rewrite H. Qed.

Lemma unmarked_mark s s' v : v ∈ bl -> is_marked s v = false -> is_marked s' v = true ->
  (forall o, o <> v -> is_marked s' o = is_marked s o) -> (S (unmarked s') = unmarked s)%nat.
Proof.
  pose proof (chain_NoDup _ _ _ _ (hw_chain _ _ _ _ _ _ Hw)) as Hnd. intros Hv H0 H1 He.
  apply (count_if_less _ _ v); [done|done|by rewrite H0|by rewrite H1|].
  intros o Ho. by rewrite He.
Qed.

(** A grown stack is larger, and the cap holds; without room the push is dropped. *)
Lemma grow_spec s : stack_ok s -> let '(s', ok) := gc_mark_grow_or_drop arena_size s in
  gm_mem s' = gm_mem s /\ gc_mark_stack s' = gc_mark_stack s /\
  (if ok then gc_mark_overflow s' = gc_mark_overflow s /\ gc_mark_stack_cap s < gc_mark_stack_cap s' < 2 ^ 31
   else gc_mark_overflow s' = true /\ gc_mark_stack_cap s' = gc_mark_stack_cap s).
Proof.
  pose proof (hw_size _ _ _ _ _ _ Hw) as Hsize. intros [Hc _]. unfold gc_mark_grow_or_drop, gc_mark_stack_grow.
  assert (Ha : arena_size / 128 < 2 ^ 31) by (apply Z.div_lt_upper_bound; lia).
  destruct (gc_mark_grow_failed s); [done|].
  set (c1 := if arena_size / 128 <? _ then _ else _).
  set (c2 := if _ && (c1 >? _) then _ else c1).
  assert (H2 : c2 < 2 ^ 31).
  { unfold c2, c1. clear Hw. repeat case_match; lia. }
  clearbody c2. clear Hw.
  destruct (gc_mark_stack_cap s >=? c2) eqn:E; [done|].
  rewrite u32_small by lia.
  destruct (mark_alloc_ok _); cbn; [|done]. split_and!; [done|done|done|..]; case_match; lia.
Qed.

Lemma is_ref_spec v : is_ref v = negb (negb (Z.land v CL_TAG_MASK_LO2 =? 0) || (v =? 0)) && negb (v >=? arena_size).
Proof. unfold is_ref. rewrite negb_orb, negb_involutive. f_equal. lia. Qed.

(** The mark itself, before the push. *)
Lemma mark_step s v : mark_inv s -> R v -> is_marked s v = false ->
  let s' := set_mem (put (gm_mem s) v (CL_HDR_SET_MARK (gm_mem s v))) s in
  is_marked s' v = true /\ (S (unmarked s') = unmarked s)%nat /\
  (forall o, is_marked s o = true -> is_marked s' o = true) /\
  (forall o, o <> v -> is_marked s' o = is_marked s o) /\
  (forall a, gm_mem s' a = m0 a \/ (R a /\ gm_mem s' a = CL_HDR_SET_MARK (m0 a))).
Proof.
  intros Hi Hv Hm s'. destruct (hw_obj _ _ _ _ _ _ Hw v Hv) as [Hbl _].
  assert (Hne : forall o, o <> v -> is_marked s' o = is_marked s o).
  { intros o Ho. unfold is_marked, s'. cbn. by rewrite put_ne. }
  assert (Hmv : is_marked s' v = true) by (unfold is_marked, s'; cbn; rewrite put_eq; apply marked_set_mark).
  split_and!; [done|by apply (unmarked_mark s s' v)|..|done|].
  - intros o Ho. destruct (decide (o = v)) as [->|]; [done|]. by rewrite Hne.
  - intros a. destruct (decide (a = v)) as [->|Ha]; unfold s'; cbn.
    + right. split; [done|]. rewrite put_eq. f_equal.
      destruct (mi_mem _ Hi v) as [->|[_ E]]; [done|]. unfold is_marked in Hm. rewrite E, marked_set_mark in Hm. done.
    + rewrite put_ne by done. apply (mi_mem _ Hi).
Qed.

(** The mark and what follows it: a leaf, a push, or the overflow flag. *)
Lemma marked_visits s s2 v new : mark_inv s -> R v -> is_marked s v = false ->
  gm_mem s2 = put (gm_mem s) v (CL_HDR_SET_MARK (gm_mem s v)) ->
  gc_mark_stack s2 = new ++ gc_mark_stack s -> (length new <= 1)%nat -> (forall o, o ∈ new -> o = v) ->
  v ∈ new \/ slots_of m0 v = [] \/ gc_mark_overflow s2 = true ->
  (gc_mark_overflow s = true -> gc_mark_overflow s2 = true) -> stack_ok s2 ->
  visits s s2 /\ is_marked s2 v = true.
Proof.
  intros Hi Hv Hm Em Es Hl Hn Hq Ho Hk. destruct (mark_step s v Hi Hv Hm) as (Mv & Mu & Mm & Mn & Ma).
  set (s1 := set_mem _ s) in *.
  assert (E : forall o, is_marked s2 o = is_marked s1 o) by (intros o; unfold is_marked; by rewrite Em).
  assert (Eu : unmarked s2 = unmarked s1) by (apply unmarked_ext; auto).
  assert (Hev : evolves s s2).
  { split; [intros o Hs; rewrite E; auto|lia|done|intros _ _; lia]. }
  split; [|by rewrite E]. split; [done|split|].
  - intros a. rewrite Em. apply Ma.
  - intros o. rewrite Es, elem_of_app, E. intros [Hin|Hin].
    + apply Hn in Hin as ->. done.
    + apply (mi_stack _ Hi) in Hin as [? ?]. auto.
  - rewrite Es, length_app. pose proof (mi_room _ Hi). lia.
  - done.
  - exists new. split_and!; [done|lia|]. intros o H2 H0. rewrite E in H2.
    destruct (decide (o = v)) as [->|Hne]; [done|]. rewrite Mn in H2 by done. congruence.
Qed.

(** One visit: the reference in hand is marked, and nothing is lost. *)
Lemma visit_steps s v : mark_inv s -> (is_ref v = true -> R v) ->
  visits s (visit v s) /\ (is_ref v = true -> is_marked (visit v s) v = true).
Proof.
  intros Hi Hv. rewrite is_ref_spec in *. unfold gc_mark_visit.
  destruct (negb (Z.land v CL_TAG_MASK_LO2 =? 0) || (v =? 0)); [split; [by apply visits_refl|done]|].
  destruct (v >=? arena_size); [split; [by apply visits_refl|done]|].
  specialize (Hv eq_refl). destruct (CL_HDR_MARKED (gm_mem s v)) eqn:Em; [split; [by apply visits_refl|done]|].
  set (s1 := set_mem _ s).
  assert (E1 : CL_HDR_TYPE (gm_mem s1 v) = CL_HDR_TYPE (m0 v)).
  { unfold s1. cbn. rewrite put_eq, type_set_mark. destruct (mi_mem _ Hi v) as [->|[_ ->]]; [done|]. apply type_set_mark. }
  assert (Hfin : forall s2, visits s s2 /\ is_marked s2 v = true ->
    visits s s2 /\ (negb false && negb false = true -> is_marked s2 v = true)) by (intros s2 [? ?]; done).
  destruct (negb (GC_TYPE_HAS_CHILDREN _)) eqn:El.
  - apply Hfin. apply (marked_visits s s1 v []); try done; [cbn; lia|by intros o ?%elem_of_nil| |apply (mi_cap _ Hi)].
    right. left. apply leaf_has_no_slots. rewrite <- E1. by apply negb_true_iff.
  - pose proof (mi_cap _ Hi) as [Hc Hl]. destruct (Z.of_nat (length (gc_mark_stack s1)) <? gc_mark_stack_cap s1) eqn:Er.
    + apply Hfin. apply (marked_visits s _ v [v]); try done; [by intros o ?%list_elem_of_singleton|left; apply list_elem_of_here|].
      unfold stack_ok. cbn in *. lia.
    + pose proof (grow_spec s1 (mi_cap _ Hi)) as G. destruct (gc_mark_grow_or_drop arena_size s1) as [s2 ok].
      destruct G as (Gm & Gs & Go). apply Hfin. destruct ok; destruct Go as [Go Gc].
      * apply (marked_visits s _ v [v]); try done;
          [by cbn; rewrite Gs|by intros o ?%list_elem_of_singleton|left; apply list_elem_of_here|cbn; by rewrite Go|].
        unfold stack_ok. cbn in *. rewrite Gs. cbn. lia.
      * apply (marked_visits s _ v []); try done; [cbn; lia|by intros o ?%elem_of_nil|tauto|].
        unfold stack_ok. rewrite Gs, Gc. apply (mi_cap _ Hi).
Qed.

(** ** Slots *)

(** A slot of a reachable object is no header, so marking does not change it. *)
Lemma slot_no_header o a : R o -> a ∈ slots_of m0 o -> a ∉ bl.
Proof.
  intros Ho Ha. destruct (hw_obj _ _ _ _ _ _ Hw o Ho) as [Hob Hf].
  apply (inner_no_header arena_size bump m0 bl o); [apply Hw..|done|by apply slot_place].
Qed.

Lemma slot_word s a : mark_inv s -> a ∉ bl -> gm_mem s a = m0 a.
Proof. intros Hi Ha. destruct (mi_mem _ Hi a) as [E|[Hr _]]; [done|]. by apply (hw_obj _ _ _ _ _ _ Hw) in Hr as [? _]. Qed.

(** The visits of slots that hold reachable references. *)
Lemma slots_steps l : forall s, mark_inv s ->
  (forall a, a ∈ l -> (a ∉ bl) /\ (is_ref (m0 a) = true -> R (m0 a))) ->
  visits s (visit_each slot l s) /\
  (forall a, a ∈ l -> is_ref (m0 a) = true -> is_marked (visit_each slot l s) (m0 a) = true).
Proof.
  induction l as [|a l IH]; intros s Hi Hl.
  - split; [by apply visits_refl|]. by intros a ?%elem_of_nil.
  - destruct (Hl a (list_elem_of_here _ _)) as [Hna Hr].
    destruct (visit_steps s (m0 a) Hi Hr) as [Hv Hm]. cbn. unfold gc_mark_slot at 2 4. rewrite (slot_word s a Hi Hna).
    destruct (IH (visit (m0 a) s) (vs_inv _ _ Hv)) as [Hv' Hm'].
    { intros b Hb. apply Hl. by apply list_elem_of_further. }
    split; [by eapply visits_trans|]. intros b [->|Hb]%elem_of_cons Hrb; [|auto].
    apply (ev_mono _ _ (vs_evolves _ _ Hv')). auto.
Qed.

(** ** An object *)

Lemma marked_fields s o : mark_inv s ->
  CL_HDR_SIZE (gm_mem s o) = CL_HDR_SIZE (m0 o) /\ CL_HDR_TYPE (gm_mem s o) = CL_HDR_TYPE (m0 o).
Proof. intros Hi. destruct (mi_mem _ Hi o) as [->|[_ ->]]; [done|]. by rewrite size_set_mark, type_set_mark. Qed.

Lemma mark_slots_only s o : mark_inv s -> R o -> slots_only m0 (gm_mem s) o.
Proof.
  intros Hi Ho. destruct (hw_obj _ _ _ _ _ _ Hw o Ho) as [Hob Hf]. split; [apply marked_fields, Hi..| |].
  - intros a Ha _. apply (slot_word s a Hi). apply (inner_no_header arena_size bump m0 bl o); [apply Hw..|done|by left].
  - intros a Ha. rewrite (slot_word s a Hi); [apply same_kind_refl|]. by eapply slot_no_header.
Qed.

(** Scanning a reachable object marks what it refers to. *)
Lemma object_steps s o : mark_inv s -> R o ->
  let s' := gc_mark_children arena_size o (CL_HDR_TYPE (gm_mem s o)) s in visits s s' /\ scanned s' o.
Proof.
  intros Hi Ho s'. pose proof (hw_obj _ _ _ _ _ _ Hw o Ho) as [_ Hf].
  assert (Hsh : forall s1, mark_inv s1 -> same_shape o (CL_HDR_TYPE (m0 o)) m0 (gm_mem s1)).
  { intros s1 H1. apply (slots_only_shape arena_size); [done|]. by apply mark_slots_only. }
  assert (Hsl : forall a, a ∈ slots_of m0 o -> (a ∉ bl) /\ (is_ref (m0 a) = true -> R (m0 a))).
  { intros a Ha. split; [by eapply slot_no_header|]. intros Hr. by eapply reach_slot. }
  assert (E : s' = visit_each slot (slots_of m0 o) s).
  { unfold s', gc_mark_children. destruct (marked_fields s o Hi) as [_ ->].
    assert (Ec : children (gm_mem s) o (CL_HDR_TYPE (m0 o)) = slots_of m0 o) by (apply same_shape_children; auto).
    rewrite <- Ec. apply (walk_children gm_mem slot (fun _ => mark_inv)); [|intros _ s1 H1; eapply same_shape_trans;
      [apply same_shape_sym|]; by apply Hsh|done].
    rewrite Ec. intros pre a post s1 El H1. destruct (Hsl a) as [Hna Hr]; [rewrite El; apply elem_of_app; right; apply list_elem_of_here|]. unfold gc_mark_slot.
    rewrite (slot_word s1 a H1 Hna). apply (vs_inv s1). by apply visit_steps. }
  rewrite E. by apply slots_steps.
Qed.

(** The cons case of the drain is the walk. *)
Lemma cons_is_children obj type s :
  (if type =? 0 then slot (obj + 8) (slot (obj + 4) s) else gc_mark_children arena_size obj type s) =
  gc_mark_children arena_size obj type s.
Proof. destruct (type =? 0) eqn:E; [|done]. by apply Z.eqb_eq in E as ->. Qed.

(** ** The drain *)

Lemma pop_inv s obj st : mark_inv s -> gc_mark_stack s = obj :: st -> mark_inv (set_mark_stack st s).
Proof.
  intros [H1 H2 H3 [H4 H5]] E. rewrite E in *. split; [done| | |].
  - intros o Ho. apply (H2 o). cbn in Ho. by apply list_elem_of_further.
  - change (unmarked (set_mark_stack st s)) with (unmarked s). cbn in *. lia.
  - unfold stack_ok. cbn in *. lia.
Qed.

Lemma drain_spec P fuel : forall s, mark_inv s -> pending P s ->
  (unmarked s + length (gc_mark_stack s) < fuel)%nat ->
  let s' := gc_mark_drain arena_size fuel s in
  mark_inv s' /\ evolves s s' /\ gc_mark_stack s' = [] /\ pending P s'.
Proof.
  induction fuel as [|fuel IH]; intros s Hi HP Hf; [lia|]. cbn [gc_mark_drain].
  destruct (gc_mark_stack s) as [|obj st] eqn:Es; [by split_and!; [|apply evolves_refl|..]|].
  destruct (mi_stack _ Hi obj) as [Hm HR]; [rewrite Es; apply list_elem_of_here|].
  rewrite cons_is_children. set (s1 := set_mark_stack st s).
  pose proof (pop_inv _ _ _ Hi Es) as H1. destruct (object_steps s1 obj H1 HR) as [Hv Hsc].
  set (s2 := gc_mark_children _ _ _ _) in *.
  assert (HP1 : pending (fun o => P o \/ o = obj) s1).
  { intros o Ho Hmo. destruct (HP o Ho Hmo) as [Hin|?]; [|tauto]. rewrite Es in Hin.
    apply elem_of_cons in Hin as [->|?]; tauto. }
  assert (HP2 : pending P s2).
  { intros o Ho Hmo. destruct (visits_pending _ _ _ Hv HP1 o Ho Hmo) as [?|[?|[[?|Hx]|?]]]; try tauto.
    rewrite Hx. tauto. }
  assert (E1 : evolves s s1) by (split; [done|apply Nat.le_refl|done|intros A B; cbn in B; congruence]).
  destruct (IH s2) as (A & B & D & F); [apply Hv|done| |].
  { destruct (vs_stack _ _ Hv) as (new & -> & Hn & _). rewrite length_app. cbn in *.
    change (unmarked s1) with (unmarked s) in Hn. lia. }
  split_and!; [done| |done|done]. eapply evolves_trans; [exact E1|]. eapply evolves_trans; [apply Hv|done].
Qed.

(** ** The re-scan *)

Lemma fuel_blocks : (length bl < walk_fuel bump)%nat.
Proof. eapply walk_fuel_enough; [|apply Hw]. destruct align_cases; lia. Qed.

Lemma drain_fuel s : mark_inv s -> (unmarked s + length (gc_mark_stack s) < walk_fuel bump)%nat.
Proof. intros Hi. pose proof (mi_room _ Hi). pose proof fuel_blocks. lia. Qed.

Lemma marked_reachable s o : mark_inv s -> o ∈ bl -> is_marked s o = true -> R o.
Proof.
  intros Hi Ho Hm. destruct (mi_mem _ Hi o) as [E|[? _]]; [|done]. unfold is_marked in Hm.
  rewrite E, (hw_clear _ _ _ _ _ _ Hw) in Hm by done. done.
Qed.

Lemma dead_has_no_slots m o : CL_HDR_TYPE (m o) = CL_TYPE_DEAD -> slots_of m o = [].
Proof. unfold slots_of. by intros ->. Qed.

(** What holds at every block of the re-scan, with the blocks [l] still ahead. *)
Definition rescan_inv (s0 : GcMark) (l : list Z) (s : GcMark) : Prop :=
  (forall o, o ∈ l -> o ∈ bl) /\ mark_inv s /\ pending (fun o => o ∈ l) s /\ evolves s0 s.

Definition rescan_body (off size type : Z) (s : GcMark) : GcMark :=
  if negb (type =? CL_TYPE_DEAD) && CL_HDR_MARKED (gm_mem s off)
  then gc_mark_children arena_size off type s else s.

Lemma rescan_step s0 o l s size : rescan_inv s0 (o :: l) s ->
  rescan_inv s0 l (rescan_body o size (CL_HDR_TYPE (gm_mem s o)) s).
Proof.
  intros (Hl & H1 & HP & He). assert (Hb : o ∈ bl) by apply Hl, list_elem_of_here.
  assert (Hl' : forall o', o' ∈ l -> o' ∈ bl) by (intros; by apply Hl, list_elem_of_further).
  unfold rescan_body. destruct (negb _ && CL_HDR_MARKED _) eqn:Eb.
  - apply andb_true_iff in Eb as [_ Hm]. destruct (object_steps s o H1) as [Hv Hsc]; [by apply (marked_reachable s)|].
    split_and!; [done|apply Hv| |eapply evolves_trans; [done|apply Hv]].
    intros o' Ho' Hm'. destruct (visits_pending _ _ _ Hv HP o' Ho' Hm') as [?|[?|[Hin|?]]]; try tauto.
    apply elem_of_cons in Hin as [->|?]; tauto.
  - split_and!; [done|done| |done]. intros o' Ho' Hm'. destruct (HP o' Ho' Hm') as [?|[?|[Hin|?]]]; try tauto.
    apply elem_of_cons in Hin as [->|?]; [|tauto]. right. left. unfold is_marked in Hm'. rewrite Hm', andb_true_r in Eb.
    apply negb_false_iff, Z.eqb_eq in Eb. destruct (marked_fields s o H1) as [_ Et]. rewrite Et in Eb.
    intros a Ha. rewrite (dead_has_no_slots _ _ Eb) in Ha. by apply elem_of_nil in Ha.
Qed.

Lemma rescan_pass s : mark_inv s -> gc_mark_stack s = [] ->
  let s' := gc_mark_rescan arena_size bump (walk_fuel bump) s in
  mark_inv s' /\ evolves (rescanned s) s' /\ gc_mark_stack s' = [] /\ pending (fun _ => False) s'.
Proof.
  intros Hi Hst. set (s0 := rescanned s). assert (H0 : mark_inv s0) by (destruct Hi; by split).
  assert (HI : rescan_inv s0 bl s0).
  { split_and!; [done|done| |apply evolves_refl]. intros o Ho _. apply (hw_obj _ _ _ _ _ _ Hw) in Ho as [? _]. tauto. }
  unfold gc_mark_rescan. change (fun off size type s1 => _) with rescan_body.
  assert (Hwalk : rescan_inv s0 [] (gc_walk gm_mem (walk_fuel bump) (no_seek rescan_body) (gc_walk_begin bump) s0)).
  { apply (gc_walk_rule gm_mem bump (rescan_inv s0)) with (l := bl); [|apply fuel_blocks| |done].
    - intros o l s1 HIs Hc s1'. pose proof (rescan_step s0 o l s1 _ HIs : rescan_inv s0 l s1') as G. split; [done|].
      destruct HIs as (_ & H1 & _), G as (_ & G1 & _). inversion Hc; subst. unfold block_end.
      eapply blocks_ext; [eassumption|]. intros o' Ho'.
      by rewrite (proj1 (marked_fields s1' o' G1)), (proj1 (marked_fields s1 o' H1)).
    - eapply blocks_ext; [apply Hw|]. intros o Ho. by apply marked_fields. }
  destruct Hwalk as (_ & H1 & HP & He). destruct (drain_spec (fun _ => False) (walk_fuel bump) _ H1) as (A & B & D & F).
  - intros o Ho Hm. destruct (HP o Ho Hm) as [?|[?|[Hx|?]]]; try tauto. by apply elem_of_nil in Hx.
  - by apply drain_fuel.
  - split_and!; [done|by eapply evolves_trans|done|done].
Qed.

(** Every pass that overflows again has marked something. *)
Lemma rescans_spec passes : forall s, mark_inv s -> gc_mark_stack s = [] -> pending (fun _ => False) s ->
  (unmarked s < passes)%nat ->
  let s' := gc_mark_rescans arena_size bump passes (walk_fuel bump) s in
  mark_inv s' /\ (forall o, is_marked s o = true -> is_marked s' o = true) /\
  gc_mark_stack s' = [] /\ gc_mark_overflow s' = false /\ pending (fun _ => False) s'.
Proof.
  induction passes as [|passes IH]; intros s Hi Hst HP Hu; [lia|]. cbn [gc_mark_rescans].
  destruct (gc_mark_overflow s) eqn:Eo; [|done].
  destruct (rescan_pass s Hi Hst) as (A & B & D & F). set (s1 := gc_mark_rescan _ _ _ _) in *.
  assert (Hm : forall o, is_marked s o = true -> is_marked s1 o = true) by (intros o Ho; by apply (ev_mono _ _ B)).
  destruct (gc_mark_overflow s1) eqn:E1.
  - destruct (IH s1 A D F) as (G1 & G2 & G3); [|split_and!; [done|auto|apply G3..]].
    pose proof (ev_strict _ _ B eq_refl E1) as Hs. change (unmarked (rescanned s)) with (unmarked s) in Hs. lia.
  - destruct passes as [|n]; cbn [gc_mark_rescans]; rewrite ?E1; done.
Qed.

(** ** The whole phase *)

Lemma pins_steps l : forall s, mark_inv s -> (forall o, o ∈ l -> R o) ->
  visits s (foldl (fun s o => gc_mark_obj arena_size o s) s l) /\
  (forall o, o ∈ l -> is_marked (foldl (fun s o => gc_mark_obj arena_size o s) s l) o = true).
Proof.
  induction l as [|o l IH]; intros s Hi Hl.
  - split; [by apply visits_refl|]. by intros a ?%elem_of_nil.
  - assert (Ho : R o) by apply Hl, list_elem_of_here. destruct (visit_steps s o Hi) as [Hv Hm]; [done|].
    assert (Hr : is_ref o = true).
    { destruct (hw_obj _ _ _ _ _ _ Hw o Ho) as [Hb _]. by apply (block_is_ref arena_size bump m0 bl); [apply Hw..|]. }
    destruct (IH (visit o s) (vs_inv _ _ Hv)) as [Hv' Hm']; [intros; by apply Hl, list_elem_of_further|].
    cbn. split; [by eapply visits_trans|]. intros o' [->|Ho']%elem_of_cons; [|by apply Hm'].
    apply (ev_mono _ _ (vs_evolves _ _ Hv')). by apply Hm.
Qed.

(** The state marking starts from. *)
Definition mark_start (s : GcMark) : Prop :=
  gm_mem s = m0 /\ gc_mark_stack s = [] /\ 0 < gc_mark_stack_cap s < 2 ^ 31.

Lemma mark_start_inv s : mark_start s ->
  let s1 := set_grow_failed false (set_overflow false s) in mark_inv s1 /\ forall P, pending P s1.
Proof.
  intros (Em & Es & Hc) s1. split; [split|].
  - intros a. left. by rewrite <- Em.
  - intros o Ho. cbn in Ho. rewrite Es in Ho. by apply elem_of_nil in Ho.
  - assert (E : gc_mark_stack s1 = []) by apply Es. rewrite E. cbn [length]. rewrite Nat.add_0_r. apply count_if_le.
  - unfold stack_ok. cbn. rewrite Es. cbn. lia.
  - intros P o Ho Hm. unfold is_marked in Hm. cbn in Hm. rewrite Em in Hm.
    apply (hw_obj _ _ _ _ _ _ Hw) in Ho as [Hb _]. rewrite (hw_clear _ _ _ _ _ _ Hw) in Hm by done. done.
Qed.

(** What the phase ends with: the invariant, every reachable object marked,
    nothing left to do. *)
Lemma gc_mark_ends s : mark_start s ->
  let s' := gc_mark arena_size bump roots pinned s in
  mark_inv s' /\ (forall o, R o -> is_marked s' o = true) /\ gc_mark_stack s' = [] /\ gc_mark_overflow s' = false.
Proof.
  intros Hs. destruct (mark_start_inv s Hs) as [H1 HP1]. specialize (HP1 (fun _ => False)).
  unfold gc_mark, gc_mark_with. set (s1 := set_grow_failed _ _) in *. change (foldl _ s1 roots) with (visit_each slot roots s1).
  destruct (slots_steps roots s1 H1) as [V1 M1].
  { intros a Ha. split; [|by apply reach_root]. intros Hb. pose proof (hw_roots _ _ _ _ _ _ Hw a Ha) as Ho.
    pose proof (block_inside arena_size bump m0 bl a (hw_chain _ _ _ _ _ _ Hw) (hw_bump _ _ _ _ _ _ Hw) Hb). destruct Ho; lia. }
  set (s2 := visit_each _ _ _) in *.
  destruct (drain_spec (fun _ => False) (walk_fuel bump) s2 (vs_inv _ _ V1)) as (A2 & B2 & _ & P2);
    [by eapply visits_pending|apply drain_fuel, V1|]. set (s3 := gc_mark_drain _ _ s2) in *.
  destruct (pins_steps pinned s3 A2) as [V3 M3]; [intros o Ho; by apply reach_pin|]. set (s4 := foldl _ s3 pinned) in *.
  destruct (drain_spec (fun _ => False) (walk_fuel bump) s4 (vs_inv _ _ V3)) as (A4 & B4 & D4 & P4);
    [by eapply visits_pending|apply drain_fuel, V3|]. set (s5 := gc_mark_drain _ _ s4) in *.
  destruct (rescans_spec (walk_fuel bump) s5 A4 D4 P4) as (A & M & D & O & P); [pose proof (drain_fuel s5 A4); lia|].
  set (s6 := gc_mark_rescans _ _ _ _ _) in *. split_and!; [done| |done|done].
  intros o Ho. induction Ho as [a Ha Hr|o Ho|o a Ho IH Ha Hr].
  - apply M, (ev_mono _ _ B4), (ev_mono _ _ (vs_evolves _ _ V3)), (ev_mono _ _ B2). by apply M1.
  - apply M, (ev_mono _ _ B4). by apply M3.
  - destruct (P o Ho IH) as [Hx|[Hx|[Hx|Hx]]]; [|by apply Hx|done|by rewrite O in Hx].
    rewrite D in Hx. by apply elem_of_nil in Hx.
Qed.

End Proof.

(** ** The theorems *)

Section Theorems.
Context {L : Layout} {LL : LayoutLaws L} {C : MarkConfig}.

(** C10: Whatever the allocator answers to the mark stack's requests, and however
    small its buffer, the mark phase ends with an empty stack, no overflow
    outstanding, and every object reachable from the roots and the pinned
    objects marked. *)
Theorem gc_mark_complete arena_size bump m bl roots pinned s :
  heap_wf arena_size bump m bl roots pinned ->
  0 < CL_GC_MARK_STACK_SIZE < 2 ^ 31 /\ 0 <= gc_mark_stack_test_limit < 2 ^ 31 -> mark_start m s ->
  let s' := gc_mark arena_size bump roots pinned s in
  (forall o, reachable arena_size m roots pinned o -> is_marked s' o = true) /\
  gc_mark_stack s' = [] /\ gc_mark_overflow s' = false.
Proof. intros Hw Hb Hs. by destruct (gc_mark_ends arena_size bump m bl roots pinned Hw Hb s Hs) as (_ & H). Qed.

(** C11: Marking changes nothing but mark bits, sets them only on reachable objects,
    and never holds more entries on the mark stack than its buffer has. *)
Theorem gc_mark_sound arena_size bump m bl roots pinned s :
  heap_wf arena_size bump m bl roots pinned ->
  0 < CL_GC_MARK_STACK_SIZE < 2 ^ 31 /\ 0 <= gc_mark_stack_test_limit < 2 ^ 31 -> mark_start m s ->
  let s' := gc_mark arena_size bump roots pinned s in
  (forall a, gm_mem s' a = m a \/
     reachable arena_size m roots pinned a /\ gm_mem s' a = CL_HDR_SET_MARK (m a)) /\
  (forall o, o ∈ bl -> is_marked s' o = true -> reachable arena_size m roots pinned o).
Proof.
  intros Hw Hb Hs s'. destruct (gc_mark_ends arena_size bump m bl roots pinned Hw Hb s Hs) as (Hi & _).
  split; [apply Hi|]. intros o Ho Hm. by eapply marked_reachable.
Qed.

(** The visit of any reference keeps the mark stack within its buffer. *)
Lemma gc_mark_visit_stack_bounds arena_size bump m bl roots pinned s v :
  heap_wf arena_size bump m bl roots pinned ->
  0 < CL_GC_MARK_STACK_SIZE < 2 ^ 31 /\ 0 <= gc_mark_stack_test_limit < 2 ^ 31 ->
  mark_inv arena_size m bl roots pinned s -> (is_ref arena_size v = true -> reachable arena_size m roots pinned v) ->
  stack_ok (gc_mark_visit arena_size v s).
Proof. intros Hw Hb Hi Hv. apply (mi_cap arena_size m bl roots pinned). by apply (visit_steps arena_size bump m bl roots pinned Hw Hb). Qed.

End Theorems.

(** A buffer of one entry that may not grow: marking the sample overflows, and
    the re-scan finds what was dropped. *)
#[local] Existing Instance Sample.layout.

Definition tiny_stack : MarkConfig :=
  {| CL_GC_MARK_STACK_SIZE := 1; gc_mark_stack_test_limit := 0; mark_alloc_ok _ := false |}.

Definition sample_start : GcMark :=
  {| gm_mem := Sample.mem; gc_mark_stack := []; gc_mark_stack_cap := 1; gc_mark_overflow := false;
     gc_mark_grow_failed := false; gc_mark_stack_grows := 0; gc_mark_rescan_passes := 0 |}.

Lemma sample_mark_start : mark_start Sample.mem sample_start.
Proof. done. Qed.

Example gc_mark_complete_witness :
  let s' := gc_mark (C := tiny_stack) Sample.arena_size Sample.bump Sample.roots Sample.pinned sample_start in
  ((forall o, reachable Sample.arena_size Sample.mem Sample.roots Sample.pinned o -> is_marked s' o = true) /\
   gc_mark_stack s' = [] /\ gc_mark_overflow s' = false) /\
  gc_mark_rescan_passes s' = 1 /\ is_marked s' 56 = true /\ is_marked s' 72 = false.
Proof.
  intros s'. split; [|by vm_compute].
  apply (gc_mark_complete (C := tiny_stack) Sample.arena_size Sample.bump Sample.mem Sample.blocks Sample.roots Sample.pinned).
  - apply Sample.wf.
  - done.
  - apply sample_mark_start.
Defined.

Example gc_mark_sound_witness :
  let s' := gc_mark (C := tiny_stack) Sample.arena_size Sample.bump Sample.roots Sample.pinned sample_start in
  (forall a, gm_mem s' a = Sample.mem a \/
     reachable Sample.arena_size Sample.mem Sample.roots Sample.pinned a /\
     gm_mem s' a = CL_HDR_SET_MARK (Sample.mem a)) /\
  (forall o, o ∈ Sample.blocks -> is_marked s' o = true ->
     reachable Sample.arena_size Sample.mem Sample.roots Sample.pinned o).
Proof.
  apply (gc_mark_sound (C := tiny_stack) Sample.arena_size Sample.bump Sample.mem Sample.blocks Sample.roots Sample.pinned).
  - apply Sample.wf.
  - done.
  - apply sample_mark_start.
Defined.
