(* ===== verification/GcSweep.v ===== *)
(** * The sweep

    gc_sweep of gc_classic.c: one walk over the arena that clears the mark of
    the live blocks, merges runs of dead blocks up to the size a header can
    hold, and rebuilds the free list.  The theorem is that every marked block
    is kept as it was, mark bit aside, and that all the rest of the arena is on
    the free list.

    The release of what a dead object owns outside the arena (gc_finalize_dead:
    buffers, handles, thread slots) is a parameter that may rewrite the words
    of the dead object behind its header. *)

From Stdlib Require Import ZArith Lia ZifyBool.
From stdpp Require Import base option list sets.
From S2P Require Import Prelude GcHeap GcGraph.
Local Open Scope Z_scope.

(** The part of CL_Heap the passes work on. *)
Record CL_Heap : Type := {
  hp_mem : memory;
  bump : Z;
  free_list : Z;
  total_allocated : Z }.

Definition heap_put (a v : Z) (h : CL_Heap) : CL_Heap :=
  {| hp_mem := put (hp_mem h) a v; bump := bump h; free_list := free_list h; total_allocated := total_allocated h |}.
Definition heap_mem (m : memory) (h : CL_Heap) : CL_Heap :=
  {| hp_mem := m; bump := bump h; free_list := free_list h; total_allocated := total_allocated h |}.
Definition set_free_list (o : Z) (h : CL_Heap) : CL_Heap :=
  {| hp_mem := hp_mem h; bump := bump h; free_list := o; total_allocated := total_allocated h |}.
Definition set_bump (b : Z) (h : CL_Heap) : CL_Heap :=
  {| hp_mem := hp_mem h; bump := b; free_list := free_list h; total_allocated := total_allocated h |}.
Definition set_total (n : Z) (h : CL_Heap) : CL_Heap :=
  {| hp_mem := hp_mem h; bump := bump h; free_list := free_list h; total_allocated := n |}.

(** fb->size = size; fb->next_offset = cl_heap.free_list; cl_heap.free_list = off *)
Definition push_free (off size : Z) (h : CL_Heap) : CL_Heap :=
  let h := heap_put off size h in
  let h := heap_put (off + 4) (free_list h) h in
  set_free_list off h.

Section Sweep.
Context {L : Layout} (gc_finalize_dead : memory -> Z -> memory).

(** Extend the dead block at [off] over the dead blocks behind it. *)
Fixpoint gc_coalesce (fuel : nat) (off total : Z) (h : CL_Heap) : Z * CL_Heap :=
  match fuel with
  | O => (total, h)
  | S fuel =>
      if off + total <? bump h then
        let next := hp_mem h (off + total) in
        let next_size := CL_HDR_SIZE next in
        if next_size =? 0 then (total, h)
        else if CL_HDR_MARKED next then (total, h)
        else if total + next_size >? CL_HDR_SIZE_MASK then (total, h)
        else gc_coalesce fuel off (total + next_size) (heap_mem (gc_finalize_dead (hp_mem h) (off + total)) h)
      else (total, h)
  end.

Definition gc_sweep_block (off size type : Z) (w : GcWalk) (h : CL_Heap) : GcWalk * CL_Heap :=
  if CL_HDR_MARKED (hp_mem h off) then
    let h := heap_put off (CL_HDR_CLR_MARK (hp_mem h off)) h in
    (w, set_total (u32 (total_allocated h + size)) h)
  else
    let h := heap_mem (gc_finalize_dead (hp_mem h) off) h in
    let '(total, h) := gc_coalesce (walk_fuel (bump h)) off size h in
    (gc_walk_seek w (off + total), push_free off total h).

Definition gc_sweep (h : CL_Heap) : CL_Heap :=
  gc_walk hp_mem (walk_fuel (bump h)) gc_sweep_block (gc_walk_begin (bump h)) (set_total 0 (set_free_list 0 h)).

End Sweep.

(** ** The free list *)

Inductive free_chain (m : memory) : Z -> list Z -> Prop :=
| free_nil : free_chain m 0 []
| free_cons o l : o <> 0 -> free_chain m (m (o + 4)) l -> free_chain m o (o :: l).

Lemma free_chain_ext m m' o l : free_chain m o l -> (forall b, b ∈ l -> m' (b + 4) = m (b + 4)) -> free_chain m' o l.
Proof.
  induction 1 as [|o l Ho Hc IH]; intros H; constructor; [done|].
  rewrite (H o (list_elem_of_here _ _)). apply IH. intros b Hb. apply H. by apply list_elem_of_further.
Qed.

Lemma free_chain_det m o l l' : free_chain m o l -> free_chain m o l' -> l = l'.
Proof.
  intros H. revert l'. induction H as [|o l Ho Hc IH]; intros l' H'; inversion H'; subst; try done.
  f_equal. by apply IH.
Qed.

(** A free block: a raw size for header, so unmarked and of tag 0. *)
Definition is_free_block {L : Layout} (m : memory) (o : Z) : Prop :=
  sizeof_FreeBlock <= m o <= CL_HDR_SIZE_MASK /\ (CL_ALIGN | m o).

Lemma free_block_fields {L : Layout} m o : is_free_block m o ->
  sizeof_FreeBlock <= CL_HDR_SIZE (m o) /\ (CL_ALIGN | CL_HDR_SIZE (m o)) /\ CL_HDR_MARKED (m o) = false.
Proof.
  intros [H8 Ha]. destruct (raw_size_header (m o)) as (-> & _ & ->); [unfold sizeof_FreeBlock in *; lia|].
  split_and!; [lia|done|done].
Qed.

(** What the release of a dead object leaves alone. *)
Definition finalize_local (gc_finalize_dead : memory -> Z -> memory) : Prop :=
  forall m o a, ~ (o < a < block_end m o) -> gc_finalize_dead m o a = m a.

(** The live blocks of a marked chain and their bytes. *)
Definition live_bytes (m : memory) (l : list Z) : Z :=
  foldr (fun o n => (if CL_HDR_MARKED (m o) then CL_HDR_SIZE (m o) else 0) + n) 0 l.

Lemma live_bytes_cons m o l : live_bytes m (o :: l) =
  (if CL_HDR_MARKED (m o) then CL_HDR_SIZE (m o) else 0) + live_bytes m l.
Proof. done. Qed.

Lemma live_bytes_app m l1 l2 : live_bytes m (l1 ++ l2) = live_bytes m l1 + live_bytes m l2.
Proof. induction l1 as [|o l1 IH]; [done|]. cbn [app]. rewrite !live_bytes_cons. lia. Qed.

Lemma live_bytes_dead m l : (forall o, o ∈ l -> CL_HDR_MARKED (m o) = false) -> live_bytes m l = 0.
Proof.
  induction l as [|o l IH]; intros H; [done|]. rewrite live_bytes_cons, H by apply list_elem_of_here.
  rewrite IH; [done|]. intros o' Ho'. apply H. by apply list_elem_of_further.
Qed.

Lemma live_bytes_bound m e off l : chain m e off l -> 0 <= live_bytes m l <= e - off.
Proof. induction 1 as [|off l Hs Hc IH]; [cbn; lia|]. rewrite live_bytes_cons. destruct (CL_HDR_MARKED _); lia. Qed.

Section Proof.
Context {L : Layout} {LL : LayoutLaws L} (gc_finalize_dead : memory -> Z -> memory).
Context (bmp : Z) (m1 : memory) (bl : list Z).
Context (Hfin : finalize_local gc_finalize_dead).
Context (Hchain : chain m1 bmp CL_ALIGN bl) (Hbump : bmp < 2 ^ 32).
Context (Hmin : forall o, o ∈ bl -> sizeof_FreeBlock <= CL_HDR_SIZE (m1 o)).
Context (Halign : forall o, o ∈ bl -> (CL_ALIGN | CL_HDR_SIZE (m1 o))).

Lemma coalesce_spec off fuel : forall l h total,
  chain m1 bmp (off + total) l -> (forall o, o ∈ l -> hp_mem h o = m1 o) -> (length l < fuel)%nat ->
  0 < total <= CL_HDR_SIZE_MASK -> bump h = bmp ->
  exists total' m' dead rest, gc_coalesce gc_finalize_dead fuel off total h = (total', heap_mem m' h) /\
    l = dead ++ rest /\ (forall o, o ∈ dead -> CL_HDR_MARKED (m1 o) = false) /\
    chain m1 (off + total') (off + total) dead /\ chain m1 bmp (off + total') rest /\ total <= total' <= CL_HDR_SIZE_MASK /\
    (forall a, ~ (off < a < off + total') -> m' a = hp_mem h a).
Proof.
  induction fuel as [|fuel IH]; intros l h total Hc Hm Hf Ht Hb; [lia|]. cbn [gc_coalesce].
  assert (Hstop : exists total' m' dead rest, (total, h) = (total', heap_mem m' h) /\
    l = dead ++ rest /\ (forall o, o ∈ dead -> CL_HDR_MARKED (m1 o) = false) /\
    chain m1 (off + total') (off + total) dead /\ chain m1 bmp (off + total') rest /\ total <= total' <= CL_HDR_SIZE_MASK /\
    (forall a, ~ (off < a < off + total') -> m' a = hp_mem h a)).
  { exists total, (hp_mem h), [], l. split_and!; try done; [by destruct h|by intros o ?%elem_of_nil|constructor|lia..]. }
  destruct (off + total <? bump h) eqn:E1; [|done]. destruct l as [|o l]; [inversion Hc; subst; lia|].
  destruct (walk_next_step _ _ _ _ _ Hc) as (-> & _ & Hc'). rewrite (Hm _ (list_elem_of_here _ _)).
  set (next := off + total) in *. destruct (CL_HDR_SIZE (m1 next) =? 0); [done|].
  destruct (CL_HDR_MARKED (m1 next)) eqn:E3; [done|]. destruct (_ >? _) eqn:E4; [done|].
  unfold block_end in Hc'. replace (next + CL_HDR_SIZE (m1 next)) with (off + (total + CL_HDR_SIZE (m1 next))) in Hc' by lia.
  assert (Hs : 0 < CL_HDR_SIZE (m1 next)) by (by inversion Hc).
  assert (Hl : forall a, ~ (off < a < off + (total + CL_HDR_SIZE (m1 next))) ->
                 gc_finalize_dead (hp_mem h) next a = hp_mem h a).
  { intros a Ha. apply Hfin. unfold block_end. rewrite (Hm _ (list_elem_of_here _ _)). lia. }
  destruct (IH l (heap_mem (gc_finalize_dead (hp_mem h) next) h) (total + CL_HDR_SIZE (m1 next)))
    as (t & m' & dead & rest & -> & -> & Hd & Hk & Hr & Hb' & Hm'); [done| |cbn in Hf; lia|lia|done|].
  { intros o Ho. cbn. destruct (chain_bounds _ _ _ _ Hc') as [_ Hbd]. specialize (Hbd o Ho).
    rewrite Hl by lia. apply Hm. by apply list_elem_of_further. }
  exists t, m', (next :: dead), rest. split_and!; [done|done| | |done|lia|lia|].
  - intros o [->|Ho]%elem_of_cons; auto.
  - constructor; [done|]. by replace (next + CL_HDR_SIZE (m1 next)) with (off + (total + CL_HDR_SIZE (m1 next))) by lia.
  - intros a Ha. rewrite Hm' by done. cbn. apply Hl. lia.
Qed.

Definition dead (o : Z) : Prop := o ∈ bl /\ CL_HDR_MARKED (m1 o) = false.

(** With the blocks [l] still ahead of [off]: the new chain [pre] below it. *)
Record swept (off : Z) (pre fl l : list Z) (h : CL_Heap) : Prop := {
  sw_bump : bump h = bmp;
  sw_ahead : exists done, bl = done ++ l /\ chain m1 off CL_ALIGN done /\
    (forall o, o ∈ done -> CL_HDR_MARKED (m1 o) = true -> o ∈ pre /\ hp_mem h o = CL_HDR_CLR_MARK (m1 o)) /\
    (forall o, o ∈ pre -> (o ∈ done /\ CL_HDR_MARKED (m1 o) = true) \/ o ∈ fl) /\
    total_allocated h = live_bytes m1 done;
  sw_next : chain m1 bmp off l;
  sw_hdrs : forall o, o ∈ l -> hp_mem h o = m1 o;
  sw_chain : chain (hp_mem h) off CL_ALIGN pre;
  sw_inner : forall o a, o ∈ bl -> CL_HDR_MARKED (m1 o) = true -> o < a < block_end m1 o -> hp_mem h a = m1 a;
  sw_outer : forall a, a < CL_ALIGN \/ bmp <= a -> hp_mem h a = m1 a;
  sw_free : free_chain (hp_mem h) (free_list h) fl;
  sw_fl : forall o, o ∈ fl -> o ∈ pre /\ is_free_block (hp_mem h) o /\ dead o;
  sw_NoDup : NoDup fl }.

(** What a step on the blocks [blk] from [off] to [off + t] leaves alone: the
    words outside that range. *)
Record block_frame (off t : Z) (pre fl blk l : list Z) (h : CL_Heap) (m' : memory) : Prop := {
  fr_ahead : forall o, o ∈ l -> m' o = m1 o;
  fr_chain : chain m' (off + t) CL_ALIGN (pre ++ [off]);
  fr_pre : forall o, o ∈ pre -> o < off /\ m' o = hp_mem h o;
  fr_outer : forall a, a < CL_ALIGN \/ bmp <= a -> m' a = m1 a;
  fr_inner : forall o a, o ∈ bl -> CL_HDR_MARKED (m1 o) = true -> o < a < block_end m1 o -> o ∉ blk -> m' a = m1 a;
  fr_free : free_chain m' (free_list h) fl;
  fr_fl : forall o, o ∈ fl -> o ∈ pre /\ is_free_block m' o /\ dead o;
  fr_space : CL_ALIGN <= off /\ off + t <= bmp }.

Lemma swept_frame off t pre fl blk l h m' : swept off pre fl (blk ++ l) h -> 0 < t ->
  chain m1 (off + t) off blk -> chain m1 bmp (off + t) l -> CL_HDR_SIZE (m' off) = t ->
  (forall a, ~ (off <= a < off + t) -> m' a = hp_mem h a) -> block_frame off t pre fl blk l h m'.
Proof.
  intros [_ (dn & Ebl & Hdn & _) _ Hh Hc Hi Ho Hf Hfl _] Ht Hblk Hl Hs Hm'. pose proof align_pos.
  destruct (chain_bounds _ _ _ _ Hc) as [Hlo Hpb], (chain_bounds _ _ _ _ Hl) as [Hhi Hlb], (chain_bounds _ _ _ _ Hdn) as [_ Hdb].
  assert (Hlow : forall o, o ∈ pre -> o < off) by (intros o Hp; specialize (Hpb o Hp); unfold block_end in Hpb; lia).
  assert (Hpre : forall o, o ∈ pre -> o < off /\ m' o = hp_mem h o).
  { intros o Hp. specialize (Hlow o Hp). split; [done|]. apply Hm'. lia. }
  assert (Hfree : forall o, o ∈ fl -> o + 8 <= off).
  { intros o Hof. destruct (Hfl o Hof) as [Hop [[H8 _] _]]. specialize (Hpb o Hop). unfold block_end, sizeof_FreeBlock in *.
    destruct (raw_size_header (hp_mem h o)) as (E & _); lia. }
  split; [|..|lia].
  - intros o Hol. specialize (Hlb o Hol). rewrite Hm' by lia. apply Hh. apply elem_of_app. tauto.
  - apply chain_app. exists off. split; [|rewrite <- Hs; constructor; [lia|constructor]].
    eapply blocks_ext; [done|]. intros o Hp. by destruct (Hpre o Hp) as [_ ->].
  - done.
  - intros a Ha. rewrite Hm' by (destruct Ha; lia). auto.
  - intros o a Hob Hmo Ha Hnb. rewrite Hm'; [by eapply Hi|]. rewrite Ebl, !elem_of_app in Hob.
    destruct Hob as [Hd|[?|Hd]]; [specialize (Hdb o Hd)|done|specialize (Hlb o Hd)]; lia.
  - eapply free_chain_ext; [done|]. intros b Hb. specialize (Hfree b Hb). apply Hm'. lia.
  - intros o Hof. destruct (Hfl o Hof) as [Hop Hb']. split; [done|]. unfold is_free_block. by destruct (Hpre o Hop) as [_ ->].
Qed.

(** A live block keeps its words but for the mark. *)
Lemma sweep_live off pre fl l h : swept off pre fl (off :: l) h -> CL_HDR_MARKED (m1 off) = true ->
  swept (block_end m1 off) (pre ++ [off]) fl l
    (set_total (u32 (total_allocated h + CL_HDR_SIZE (m1 off))) (heap_put off (CL_HDR_CLR_MARK (hp_mem h off)) h)).
Proof.
  intros Hsw Hm. pose proof Hsw as [Hb (dn & Ebl & Hdn & Hlive & Hpre & Htot) Hn Hh _ Hi _ _ _ Hnd].
  assert (Hsz : 0 < CL_HDR_SIZE (m1 off)) by (by inversion Hn).
  destruct (walk_next_step _ _ _ _ _ Hn) as (_ & _ & Hn'). unfold block_end in *.
  assert (Eh : hp_mem h off = m1 off) by apply Hh, list_elem_of_here.
  assert (Hblk : chain m1 (off + CL_HDR_SIZE (m1 off)) off [off]) by (constructor; [done|constructor]).
  set (m' := put (hp_mem h) off (CL_HDR_CLR_MARK (hp_mem h off))).
  destruct (swept_frame off (CL_HDR_SIZE (m1 off)) pre fl [off] l h m') as [F1 F2 F3 F4 F5 F6 F7 F8]; try done.
  { unfold m'. by rewrite put_eq, size_clr_mark, Eh. }
  { intros a Ha. apply put_ne. lia. }
  split; cbn; fold m'; try done.
  - exists (dn ++ [off]). split_and!; [by rewrite <- app_assoc|apply chain_app; by exists off| | |].
    + intros o [Ho'|Ho']%elem_of_app Hmo; rewrite elem_of_app, ?list_elem_of_singleton.
      * destruct (Hlive o Ho' Hmo) as [Hop ?]. destruct (F3 o Hop) as [_ ->]. tauto.
      * apply list_elem_of_singleton in Ho' as ->. unfold m'. rewrite put_eq, Eh. tauto.
    + intros o [Ho'|Ho']%elem_of_app; rewrite elem_of_app; [destruct (Hpre o Ho') as [[? ?]|?]; tauto|].
      apply list_elem_of_singleton in Ho' as ->. left. rewrite list_elem_of_singleton. tauto.
    + rewrite live_bytes_app, Htot, live_bytes_cons, Hm. cbn [live_bytes foldr].
      pose proof (live_bytes_bound _ _ _ _ Hdn). pose proof align_pos. rewrite u32_small; lia.
  - intros o a Hob Hmo Ha. destruct (decide (o = off)) as [->|Hne].
    + unfold m'. rewrite put_ne by lia. by apply (Hi off).
    + apply (F5 o); try done. by rewrite list_elem_of_singleton.
  - intros o Hof. destruct (F7 o Hof) as [? ?]. rewrite elem_of_app. tauto.
Qed.

(** A run of dead blocks becomes one block of the free list. *)
Lemma sweep_dead off pre fl l h h1 total blk : swept off pre fl (blk ++ l) h ->
  chain m1 (off + total) off blk -> chain m1 bmp (off + total) l ->
  (forall o, o ∈ blk -> CL_HDR_MARKED (m1 o) = false) -> sizeof_FreeBlock <= total <= CL_HDR_SIZE_MASK ->
  bump h1 = bump h -> free_list h1 = free_list h -> total_allocated h1 = total_allocated h ->
  (forall a, ~ (off <= a < off + total) -> hp_mem h1 a = hp_mem h a) ->
  swept (off + total) (pre ++ [off]) (off :: fl) l (push_free off total h1).
Proof.
  intros Hsw Hblk Hl Hdead Ht Eb Ef Et Hm1. pose proof Hsw as [Hb (dn & Ebl & Hdn & Hlive & Hpre & Htot) Hn Hh _ Hi _ _ _ Hnd].
  assert (Hoff : off ∈ blk).
  { inversion Hblk; subst; [unfold sizeof_FreeBlock in *; lia|apply list_elem_of_here]. }
  assert (Hat : (CL_ALIGN | total)).
  { destruct (chain_aligned _ _ _ _ Hdn) as [Ha _]; [intros o Ho; apply Halign; rewrite Ebl, elem_of_app; tauto|apply Z.divide_refl|].
    destruct (chain_aligned _ _ _ _ Hblk) as [Hb' _]; [intros o Ho; apply Halign; rewrite Ebl, !elem_of_app; tauto|done|].
    replace total with (off + total - off) by lia. by apply Z.divide_sub_r. }
  destruct (raw_size_header total) as (Es & _ & Eu); [unfold sizeof_FreeBlock in *; lia|].
  set (m' := put (put (hp_mem h1) off total) (off + 4) (free_list h1)).
  assert (E0 : m' off = total) by (unfold m'; rewrite put_ne, put_eq by lia; done).
  assert (E4 : m' (off + 4) = free_list h) by (unfold m'; by rewrite put_eq, Ef).
  destruct (swept_frame off total pre fl blk l h m') as [F1 F2 F3 F4 F5 F6 F7 F8]; try done; [unfold sizeof_FreeBlock in *; lia|by rewrite E0| |].
  { intros a Ha. unfold m', sizeof_FreeBlock in *. rewrite !put_ne by lia. by apply Hm1. }
  pose proof align_pos. split; cbn; fold m'; try done.
  - congruence.
  - exists (dn ++ blk). split_and!; [by rewrite <- app_assoc|apply chain_app; by exists off| | |].
    + intros o [Ho'|Ho']%elem_of_app Hmo; [|by rewrite Hdead in Hmo].
      destruct (Hlive o Ho' Hmo) as [Hop ?]. destruct (F3 o Hop) as [_ ->]. rewrite elem_of_app. tauto.
    + intros o [Ho'|Ho']%elem_of_app; rewrite elem_of_app, elem_of_cons; [destruct (Hpre o Ho') as [[? ?]|?]; tauto|].
      apply list_elem_of_singleton in Ho'. tauto.
    + rewrite live_bytes_app, (live_bytes_dead _ blk Hdead), Et, Htot. lia.
  - intros o a Hob Hmo Ha. apply (F5 o); try done. intros Hx. by rewrite Hdead in Hmo.
  - constructor; [lia|]. by rewrite E4.
  - intros o Hof. rewrite elem_of_app, list_elem_of_singleton. apply elem_of_cons in Hof as [->|Hof].
    + split; [tauto|]. unfold is_free_block. rewrite E0. split; [done|]. split; [|by apply Hdead].
      rewrite Ebl, !elem_of_app. tauto.
    + destruct (F7 o Hof) as [? ?]. tauto.
  - constructor; [|done]. intros Hx. destruct (F7 off Hx) as [Hp _]. destruct (F3 off Hp). lia.
Qed.

Lemma sweep_walk fuel : forall l off pre fl h, (length l < fuel)%nat -> swept off pre fl l h ->
  exists pre' fl', swept bmp pre' fl' []
    (gc_walk hp_mem fuel (gc_sweep_block gc_finalize_dead) {| w_off := off; w_end := bmp |} h).
Proof.
  induction fuel as [|fuel IH]; intros l off pre fl h Hf Hsw; [lia|]. cbn [gc_walk].
  pose proof Hsw as [Hb (dn & Ebl & _) Hn Hh _ _ _ _ _ _]. destruct l as [|o l].
  - inversion Hn; subst. unfold gc_walk_next. cbn. rewrite Z.leb_refl. by exists pre, fl.
  - assert (Hhc : chain (hp_mem h) bmp off (o :: l)) by (eapply blocks_ext; [done|]; intros x Hx; by rewrite Hh).
    destruct (walk_next_step _ _ _ _ _ Hhc) as (-> & -> & _).
    destruct (walk_next_step _ _ _ _ _ Hn) as (_ & _ & Hn'). unfold gc_sweep_block at 1.
    assert (Eh : hp_mem h off = m1 off) by apply Hh, list_elem_of_here. unfold block_end in *.
    destruct (CL_HDR_MARKED (hp_mem h off)) eqn:Em.
    + rewrite !Eh in *. pose proof (sweep_live off pre fl l h Hsw Em) as Hs. rewrite Eh in Hs.
      eapply (IH l); [cbn in Hf; lia|exact Hs].
    + rewrite Eh in *. assert (Hob : off ∈ bl) by (rewrite Ebl; apply elem_of_app; right; apply list_elem_of_here).
      set (h0 := heap_mem (gc_finalize_dead (hp_mem h) off) h).
      assert (Hfl : forall a, ~ (off < a < off + CL_HDR_SIZE (m1 off)) -> hp_mem h0 a = hp_mem h a).
      { intros a Ha. apply Hfin. unfold block_end. by rewrite Eh. }
      destruct (chain_bounds _ _ _ _ Hn') as [Hhi Hlb]. pose proof (Hmin off Hob) as H8. pose proof (size_range (m1 off)).
      destruct (coalesce_spec off (walk_fuel (bump h0)) l h0 (CL_HDR_SIZE (m1 off)))
        as (t & m' & dead & rest & -> & -> & Hd & Hk & Hr & Ht & Hm'); [done| | |unfold sizeof_FreeBlock in *; lia|done|].
      { intros o Ho. specialize (Hlb o Ho). rewrite Hfl by lia. apply Hh. by apply list_elem_of_further. }
      { change (bump h0) with (bump h). rewrite Hb. eapply walk_fuel_enough; [|exact Hn']. pose proof align_pos.
        destruct (chain_bounds _ _ _ _ (sw_chain _ _ _ _ _ Hsw)). lia. }
      eapply (IH rest (off + t)); [cbn in Hf; rewrite length_app in Hf; lia|].
      apply (sweep_dead off pre fl rest h (heap_mem m' h0) t (off :: dead)); try done.
      * constructor; [unfold sizeof_FreeBlock in *; lia|done].
      * intros o [->|Ho]%elem_of_cons; auto.
      * lia.
      * intros a Ha. cbn. rewrite Hm' by lia. apply Hfl. lia.
Qed.

(** What a sweep of the marked memory [m1] makes of it. *)
Record sweep_result (h' : CL_Heap) (pre fl : list Z) : Prop := {
  sr_bump : bump h' = bmp;
  sr_chain : chain (hp_mem h') bmp CL_ALIGN pre;
  sr_live : forall o, o ∈ bl -> CL_HDR_MARKED (m1 o) = true -> o ∈ pre /\ hp_mem h' o = CL_HDR_CLR_MARK (m1 o) /\
    forall a, o < a < block_end m1 o -> hp_mem h' a = m1 a;
  sr_rest : forall o, o ∈ pre -> (o ∈ bl /\ CL_HDR_MARKED (m1 o) = true) \/ o ∈ fl;
  sr_free : free_chain (hp_mem h') (free_list h') fl;
  sr_blocks : forall o, o ∈ fl -> o ∈ pre /\ is_free_block (hp_mem h') o /\ dead o;
  sr_NoDup : NoDup fl;
  sr_outer : forall a, a < CL_ALIGN \/ bmp <= a -> hp_mem h' a = m1 a;
  sr_total : total_allocated h' = live_bytes m1 bl }.

Lemma gc_sweep_spec h : hp_mem h = m1 -> bump h = bmp ->
  exists pre fl, sweep_result (gc_sweep gc_finalize_dead h) pre fl.
Proof.
  intros Em Eb. set (h0 := set_total 0 (set_free_list 0 h)). pose proof align_pos.
  assert (H0 : swept CL_ALIGN [] [] bl h0).
  { split; cbn; try done; try (by intros o ?%elem_of_nil); try constructor; [|intros; by rewrite Em..].
    exists []. split_and!; [done|constructor|..]; try (by intros o ?%elem_of_nil); done. }
  destruct (sweep_walk (walk_fuel bmp) bl CL_ALIGN [] [] h0) as (pre & fl & [R1 R2 R3 R4 R5 R6 R7 R8 R9 R10]); [|done|].
  { eapply walk_fuel_enough; [|exact Hchain]. lia. }
  exists pre, fl. unfold gc_sweep. rewrite Eb. destruct R2 as (dn & Ebl & _ & Hl & Hp & Ht). rewrite app_nil_r in Ebl. subst dn.
  split; try done. intros o Ho Hm. destruct (Hl o Ho Hm). split_and!; try done. intros a Ha. by apply (R6 o).
Qed.

End Proof.
