(* ===== verification/GcCollect.v ===== *)
(** * The sweep collection

    cl_gc_stopped of gc_classic.c: the mark phase, then the sweep.  A collection
    keeps every reachable object word for word and puts all the rest of the
    arena below the bump front on the free list. *)

From Stdlib Require Import ZArith Lia ZifyBool.
From stdpp Require Import base option list sets.
From S2P Require Import Prelude GcHeap GcGraph.
From S2P Require Import GcMark GcSweep.
Local Open Scope Z_scope.

(** The heap, the mark stack and the number of collections. *)
Record GcState : Type := { gs_heap : CL_Heap; gs_mark : GcMark; gc_count : Z }.

Section Collect.
Context {L : Layout} {C : MarkConfig} (arena_size : Z) (gc_finalize_dead : memory -> Z -> memory).

(** gc_mark on the memory of the heap. *)
Definition mark_heap (roots pinned : list Z) (s : GcState) : GcState :=
  let g := gc_mark arena_size (bump (gs_heap s)) roots pinned (set_mem (hp_mem (gs_heap s)) (gs_mark s)) in
  {| gs_heap := heap_mem (gm_mem g) (gs_heap s); gs_mark := g; gc_count := gc_count s |}.

Definition sweep_heap (s : GcState) : GcState :=
  {| gs_heap := gc_sweep gc_finalize_dead (gs_heap s); gs_mark := gs_mark s; gc_count := gc_count s |}.

Definition count_gc (s : GcState) : GcState :=
  {| gs_heap := gs_heap s; gs_mark := gs_mark s; gc_count := u32 (gc_count s + 1) |}.

Definition cl_gc_stopped (roots pinned : list Z) (s : GcState) : GcState :=
  count_gc (sweep_heap (mark_heap roots pinned s)).

(** The mark stack between collections: empty, its buffer in place. *)
Definition mark_idle (s : GcState) : Prop :=
  gc_mark_stack (gs_mark s) = [] /\ 0 < gc_mark_stack_cap (gs_mark s) < 2 ^ 31.

End Collect.

Section Proof.
Context {L : Layout} {LL : LayoutLaws L} {C : MarkConfig} (arena_size : Z) (gc_finalize_dead : memory -> Z -> memory).
Context (Hfin : finalize_local gc_finalize_dead).
Context (Hbuf : 0 < CL_GC_MARK_STACK_SIZE < 2 ^ 31 /\ 0 <= gc_mark_stack_test_limit < 2 ^ 31).
Context (roots pinned bl : list Z) (s : GcState).

Abbreviation m0 := (hp_mem (gs_heap s)).
Abbreviation R := (reachable arena_size m0 roots pinned).

Context (Hw : heap_wf arena_size (bump (gs_heap s)) m0 bl roots pinned) (Hidle : mark_idle s).

(** After the mark phase: the heap is the one before but for the mark bits of
    the reachable objects. *)
Record marked_heap (s1 : GcState) : Prop := {
  mh_bump : bump (gs_heap s1) = bump (gs_heap s);
  mh_mem : forall a, hp_mem (gs_heap s1) a = m0 a \/ (R a /\ hp_mem (gs_heap s1) a = CL_HDR_SET_MARK (m0 a));
  mh_live : forall o, R o -> hp_mem (gs_heap s1) o = CL_HDR_SET_MARK (m0 o);
  mh_idle : mark_idle s1;
  mh_count : gc_count s1 = gc_count s }.

Lemma mark_heap_spec : marked_heap (mark_heap arena_size roots pinned s).
Proof.
  destruct Hidle as [Hst Hc]. unfold mark_heap. set (g0 := set_mem _ _).
  assert (Hs : mark_start m0 g0) by (split; [done|split; [done|exact Hc]]).
  destruct (gc_mark_ends arena_size _ _ _ _ _ Hw Hbuf g0 Hs) as (Hi & Hl & Hk & Ho). set (g := gc_mark _ _ _ _ _) in *.
  assert (Hm : forall o, R o -> gm_mem g o = CL_HDR_SET_MARK (m0 o)).
  { intros o HR. destruct (mi_mem _ _ _ _ _ _ Hi o) as [E|[_ E]]; [|done]. specialize (Hl o HR). unfold is_marked in Hl.
    apply (hw_obj _ _ _ _ _ _ Hw) in HR as [Hb _]. rewrite E, (hw_clear _ _ _ _ _ _ Hw) in Hl by done. done. }
  split; cbn; try done; [apply Hi|]. split; [done|]. apply (mi_cap _ _ _ _ _ _ Hi).
Qed.

(** The marked heap is still a chain of the same blocks. *)
Lemma marked_fields_same s1 o : marked_heap s1 -> CL_HDR_SIZE (hp_mem (gs_heap s1) o) = CL_HDR_SIZE (m0 o).
Proof. intros H. destruct (mh_mem _ H o) as [->|[_ ->]]; [done|]. by rewrite size_set_mark. Qed.

Lemma marked_iff s1 o : marked_heap s1 -> o ∈ bl -> CL_HDR_MARKED (hp_mem (gs_heap s1) o) = true <-> R o.
Proof.
  intros H Ho. split.
  - destruct (mh_mem _ H o) as [->|[? _]]; [|done]. by rewrite (hw_clear _ _ _ _ _ _ Hw).
  - intros HR. rewrite (mh_live _ H) by done. apply marked_set_mark.
Qed.

Lemma marked_chain s1 : marked_heap s1 -> chain (hp_mem (gs_heap s1)) (bump (gs_heap s)) CL_ALIGN bl.
Proof. intros H. eapply blocks_ext; [apply Hw|]. intros o _. by apply marked_fields_same. Qed.

(** A word of a block other than its header is not marked over. *)
Lemma marked_inner s1 o a : marked_heap s1 -> R o -> o < a < block_end m0 o -> hp_mem (gs_heap s1) a = m0 a.
Proof.
  intros H HR Ha. destruct (mh_mem _ H a) as [?|[Hx _]]; [done|]. apply (hw_obj _ _ _ _ _ _ Hw) in Hx as [Hb _].
  apply (hw_obj _ _ _ _ _ _ Hw) in HR as [Ho _]. exfalso. revert Hb.
  eapply (inner_no_header arena_size _ _ bl o); [apply Hw..|done|by left].
Qed.

Lemma marked_outer s1 a : marked_heap s1 -> a < CL_ALIGN \/ bump (gs_heap s) <= a -> hp_mem (gs_heap s1) a = m0 a.
Proof.
  intros H Ha. destruct (mh_mem _ H a) as [?|[Hx _]]; [done|]. apply (hw_obj _ _ _ _ _ _ Hw) in Hx as [Hb _].
  destruct (chain_bounds _ _ _ _ (hw_chain _ _ _ _ _ _ Hw)) as [_ Hbd]. specialize (Hbd a Hb). unfold block_end in Hbd. lia.
Qed.

(** What a non-moving collection guarantees: a heap to go on with, whose chain
    [pre] is the reachable objects and the free list [fl], and the same
    objects with the same contents. *)
Record collected (s' : GcState) (pre fl : list Z) : Prop := {
  co_wf : heap_wf arena_size (bump (gs_heap s')) (hp_mem (gs_heap s')) pre roots pinned;
  co_bump : bump (gs_heap s') = bump (gs_heap s);
  co_reach : forall o, reachable arena_size (hp_mem (gs_heap s')) roots pinned o <-> R o;
  co_words : forall o a, R o -> o <= a < block_end m0 o -> hp_mem (gs_heap s') a = m0 a;
  co_outer : forall a, a < CL_ALIGN \/ bump (gs_heap s) <= a -> hp_mem (gs_heap s') a = m0 a;
  co_all : forall o, o ∈ pre <-> R o \/ o ∈ fl;
  co_free : free_chain (hp_mem (gs_heap s')) (free_list (gs_heap s')) fl /\ NoDup fl;
  co_blocks : forall o, o ∈ fl -> is_free_block (hp_mem (gs_heap s')) o /\ ~ R o;
  co_idle : mark_idle s' }.

(** The sweep of a marked heap: how the compactor's fallback ends too. *)
Lemma sweep_collects s1 : marked_heap s1 ->
  exists pre fl, collected (sweep_heap gc_finalize_dead s1) pre fl.
Proof.
  intros Hm. set (m1 := hp_mem (gs_heap s1)). set (s' := sweep_heap _ s1). pose proof (hw_size _ _ _ _ _ _ Hw) as Hsz.
  pose proof (hw_bump _ _ _ _ _ _ Hw) as Hbp. pose proof align_pos as Hap.
  assert (Hsame : forall o, CL_HDR_SIZE (m1 o) = CL_HDR_SIZE (m0 o)) by (intros; by apply marked_fields_same).
  assert (Hmin : forall o, o ∈ bl -> sizeof_FreeBlock <= CL_HDR_SIZE (m1 o)) by (intros o Ho; rewrite Hsame; by apply Hw).
  assert (Hal : forall o, o ∈ bl -> (CL_ALIGN | CL_HDR_SIZE (m1 o))) by (intros o Ho; rewrite Hsame; by apply Hw).
  destruct (gc_sweep_spec gc_finalize_dead (bump (gs_heap s)) m1 bl Hfin (marked_chain s1 Hm) ltac:(lia) Hmin Hal
              (gs_heap s1) eq_refl (mh_bump _ Hm)) as (pre & fl & [S1 S2 S3 S4 S5 S6 S7 S8 S9]).
  change (gc_sweep gc_finalize_dead (gs_heap s1)) with (gs_heap s') in *. set (m' := hp_mem (gs_heap s')) in *.
  assert (Hlive : forall o, R o -> o ∈ bl /\ CL_HDR_MARKED (m1 o) = true).
  { intros o HR. pose proof (hw_obj _ _ _ _ _ _ Hw o HR) as [Hb _]. split; [done|]. by apply (marked_iff s1). }
  assert (Hwords : forall o a, R o -> o <= a < block_end m0 o -> m' a = m0 a).
  { intros o a HR Ha. destruct (Hlive o HR) as [Hb Hmk]. destruct (S3 o Hb Hmk) as (_ & E & Hi).
    destruct (decide (a = o)) as [->|Hne].
    - rewrite E. unfold m1. rewrite (mh_live _ Hm) by done. apply clr_set_mark. by apply (hw_clear _ _ _ _ _ _ Hw).
    - unfold block_end in *. rewrite Hi by (rewrite Hsame; lia). apply (marked_inner s1 o); [done|done|unfold block_end; lia]. }
  assert (Hout : forall a, a < CL_ALIGN \/ bump (gs_heap s) <= a -> m' a = m0 a).
  { intros a Ha. rewrite S8 by done. by apply marked_outer. }
  assert (Hpos : forall o, R o -> 0 < CL_HDR_SIZE (m0 o) /\ obj_fits arena_size m0 o).
  { intros o HR. destruct (hw_obj _ _ _ _ _ _ Hw o HR) as [Hb Hf]. split; [|done].
    pose proof (hw_min _ _ _ _ _ _ Hw o Hb). unfold sizeof_FreeBlock in *. lia. }
  assert (Hout' : forall a, outside arena_size a -> m' a = m0 a) by (intros a [?|?]; apply Hout; lia).
  assert (Hreach : forall o, reachable arena_size m' roots pinned o <-> R o).
  { intros o. apply (reachable_frame arena_size m0 m' roots pinned Hpos); [apply Hw|done|done]. }
  assert (Hfits : forall o, R o -> obj_fits arena_size m' o).
  { intros o HR. by apply (frame_fits arena_size m0 m' roots pinned Hpos). }
  assert (Hall : forall o, o ∈ pre <-> R o \/ o ∈ fl).
  { intros o. split.
    - intros Ho. destruct (S4 o Ho) as [[Hb Hmk]|?]; [left; by apply (marked_iff s1)|tauto].
    - intros [HR|Ho]; [|by apply S6]. destruct (Hlive o HR) as [Hb Hmk]. by apply S3. }
  assert (Hrd : forall o, R o -> m' o = m0 o).
  { intros o HR. apply (Hwords o o HR). unfold block_end. destruct (Hpos o HR). lia. }
  exists pre, fl. split; fold m'; try done.
  - rewrite S1. split; [done|done|done| | | | |apply Hw].
    1-3: intros o [HR|Ho]%Hall; [rewrite Hrd by done; apply Hw; by apply Hlive|by apply free_block_fields, S6].
    + intros o Ho%Hreach. split; [apply Hall; tauto|auto].
  - intros o Ho. destruct (S6 o Ho) as (_ & Hf & Hd & Hu). split; [done|]. intros HR. destruct (Hlive o HR). congruence.
  - apply (mh_idle _ Hm).
Qed.

End Proof.

(** ** The theorem *)

Section Theorems.
Context {L : Layout} {LL : LayoutLaws L} {C : MarkConfig}.

(** C9: A sweep collection of a well-formed heap ends in a well-formed heap in
    which the same objects are reachable, each with the same words and no mark;
    the blocks that are not reachable objects are exactly the free list, and
    nothing outside the blocks has changed. *)
Theorem cl_gc_stopped_correct arena_size gc_finalize_dead roots pinned bl s :
  finalize_local gc_finalize_dead ->
  0 < CL_GC_MARK_STACK_SIZE < 2 ^ 31 /\ 0 <= gc_mark_stack_test_limit < 2 ^ 31 ->
  heap_wf arena_size (bump (gs_heap s)) (hp_mem (gs_heap s)) bl roots pinned -> mark_idle s ->
  let s' := cl_gc_stopped arena_size gc_finalize_dead roots pinned s in
  gc_count s' = u32 (gc_count s + 1) /\ exists pre fl, collected arena_size roots pinned s s' pre fl.
Proof.
  intros Hfin Hbuf Hw Hi s'.
  pose proof (mark_heap_spec arena_size Hbuf roots pinned bl s Hw Hi) as Hm.
  destruct (sweep_collects arena_size gc_finalize_dead Hfin Hbuf roots pinned bl s Hw _ Hm) as (pre & fl & Hc).
  split; [done|]. exists pre, fl. destruct Hc. by split.
Qed.

End Theorems.

#[local] Existing Instance Sample.layout.

Definition sample_heap : CL_Heap :=
  {| hp_mem := Sample.mem; bump := Sample.bump; free_list := 0; total_allocated := 80 |}.
Definition sample_state : GcState := {| gs_heap := sample_heap; gs_mark := sample_start; gc_count := 0 |}.
Definition sample_finalize (m : memory) (o : Z) : memory := m.

(** The sample: the garbage cons at 72 becomes the free list. *)
Example cl_gc_stopped_correct_witness :
  let s' := cl_gc_stopped (C := tiny_stack) Sample.arena_size sample_finalize Sample.roots Sample.pinned sample_state in
  (gc_count s' = 1 /\ exists pre fl, collected Sample.arena_size Sample.roots Sample.pinned sample_state s' pre fl) /\
  free_list (gs_heap s') = 72 /\ total_allocated (gs_heap s') = 64 /\ hp_mem (gs_heap s') 8 = 16.
Proof.
  intros s'. split; [|by vm_compute].
  apply (cl_gc_stopped_correct (C := tiny_stack) Sample.arena_size sample_finalize Sample.roots Sample.pinned Sample.blocks
           sample_state).
  - by intros m o a _.
  - done.
  - apply Sample.wf.
  - done.
Defined.
