(* ===== verification/GcBits.v ===== *)
(** * The bitmap of live granules

    The bit-level part of gc_compact.c: the population count, setting the bits
    of a live object, and counting the live granules of whole and partial
    words.  The bitmap is the list of its 32-bit words; a granule is CL_ALIGN
    bytes of the arena. *)

From Stdlib Require Import ZArith Lia ZifyBool.
From stdpp Require Import base option list.
From S2P Require Import Prelude.
Local Open Scope Z_scope.

(** A word of an array. *)
Definition nth_word (l : list Z) (i : Z) : Z := default 0 (l !! Z.to_nat i).
Definition set_word (i v : Z) (l : list Z) : list Z := <[Z.to_nat i := v]> l.

(** ** The bitmap *)

(** The shift-and-mask form; on the other hosts it is a builtin of the compiler. *)
Definition gc_popcount32 (x : Z) : Z :=
  let x := u32 (x - Z.land (Z.shiftr x 1) 1431655765) in
  let x := u32 (Z.land x 858993459 + Z.land (Z.shiftr x 2) 858993459) in
  let x := Z.land (u32 (x + Z.shiftr x 4)) 252645135 in
  let x := u32 (x + Z.shiftr x 8) in
  let x := u32 (x + Z.shiftr x 16) in
  Z.land x 63.

Definition or_word (i v : Z) (l : list Z) : list Z := set_word i (Z.lor (nth_word l i) v) l.

(** while (++w0 < w1) gc_fwd_bits[w0] = 0xFFFFFFFF *)
Fixpoint fill_words (n : nat) (w : Z) (l : list Z) : list Z :=
  match n with
  | O => l
  | S n => fill_words n (w + 1) (set_word w 4294967295 l)
  end.

(** Set the bits of the granules [g0, g1). *)
Definition gc_fwd_set_range (g0 g1 : Z) (bits : list Z) : list Z :=
  let w0 := Z.shiftr g0 5 in
  let w1 := Z.shiftr (g1 - 1) 5 in
  let m0 := u32 (Z.shiftl 4294967295 (Z.land g0 31)) in
  let m1 := Z.shiftr 4294967295 (31 - Z.land (g1 - 1) 31) in
  if w0 =? w1 then or_word w0 (Z.land m0 m1) bits
  else
    let bits := or_word w0 m0 bits in
    let bits := fill_words (Z.to_nat (w1 - w0 - 1)) (w0 + 1) bits in
    or_word w1 m1 bits.

(** The live granules of the words [w], [w + 1], ..., [n] of them. *)
Fixpoint pop_words (n : nat) (w : Z) (bits : list Z) : Z :=
  match n with
  | O => 0
  | S n => gc_popcount32 (nth_word bits w) + pop_words n (w + 1) bits
  end.

Definition granule_bit (bits : list Z) (g : Z) : bool :=
  Z.testbit (nth_word bits (Z.shiftr g 5)) (Z.land g 31).

(** ** The population count *)

(** The set bits below bit [n]. *)
Fixpoint bit_count (n : nat) (x : Z) : Z :=
  match n with
  | O => 0
  | S n => Z.b2z (Z.testbit x (Z.of_nat n)) + bit_count n x
  end.

(** The pairs, nibbles and bytes of a 16-bit half. *)
Definition half_sums (x : Z) : Z :=
  let x := x - Z.land (Z.shiftr x 1) 21845 in
  let x := Z.land x 13107 + Z.land (Z.shiftr x 2) 13107 in
  Z.land (x + Z.shiftr x 4) 3855.

(** A test of all [n]-bit numbers. *)
Fixpoint all_bits (n : nat) (f : Z -> bool) (x : Z) : bool :=
  match n with
  | O => f x
  | S n => all_bits n f (2 * x) && all_bits n f (2 * x + 1)
  end.

Lemma all_bits_spec n f : forall x y, all_bits n f x = true -> 0 <= y < 2 ^ Z.of_nat n ->
  f (x * 2 ^ Z.of_nat n + y) = true.
Proof.
  induction n as [|n IH]; intros x y H Hy; cbn in H.
  - replace (x * 2 ^ Z.of_nat 0 + y) with x by lia. done.
  - apply andb_true_iff in H as [H0 H1]. rewrite Nat2Z.inj_succ, Z.pow_succ_r in * by lia.
    destruct (Z.lt_ge_cases y (2 ^ Z.of_nat n)) as [Hl|Hl].
    + specialize (IH (2 * x) y H0 ltac:(lia)). by replace (x * (2 * 2 ^ Z.of_nat n) + y) with (2 * x * 2 ^ Z.of_nat n + y) by lia.
    + specialize (IH (2 * x + 1) (y - 2 ^ Z.of_nat n) H1 ltac:(lia)).
      by replace (x * (2 * 2 ^ Z.of_nat n) + y) with ((2 * x + 1) * 2 ^ Z.of_nat n + (y - 2 ^ Z.of_nat n)) by lia.
Qed.

(** What the three steps make of a half, tested on every half. *)
Definition half_ok (x : Z) : bool :=
  let a := x - Z.land (Z.shiftr x 1) 21845 in
  let b := Z.land a 13107 + Z.land (Z.shiftr a 2) 13107 in
  let y := Z.land (b + Z.shiftr b 4) 3855 in
  (0 <=? a) && (a <? 65536) && (0 <=? b) && (b <=? 17476) && (b mod 16 <=? 4) &&
  (0 <=? y mod 256) && (y mod 256 <=? 8) && (0 <=? y / 256) && (y / 256 <=? 8) &&
  (y mod 256 + y / 256 =? bit_count 16 x).

Lemma half_ok_all x : 0 <= x < 2 ^ 16 -> half_ok x = true.
Proof.
  intros Hx. assert (E : all_bits 16 half_ok 0 = true) by (vm_compute; reflexivity).
  pose proof (all_bits_spec 16 half_ok 0 x E Hx) as Hb. by rewrite Z.mul_0_l, Z.add_0_l in Hb.
Qed.

Lemma half_sums_ok x : 0 <= x < 2 ^ 16 ->
  let y := half_sums x in 0 <= y mod 256 <= 8 /\ 0 <= y / 256 <= 8 /\ y mod 256 + y / 256 = bit_count 16 x.
Proof.
  intros Hx%half_ok_all y. unfold half_ok in Hx. cbv zeta in Hx. fold (half_sums x) in Hx. fold y in Hx.
  revert Hx. generalize (bit_count 16 x). clearbody y. intros n Hx. lia.
Qed.

(** Numbers of two 16-bit halves, bit by bit. *)
Lemma testbit_halves u v n : 0 <= u < 2 ^ 16 -> 0 <= n ->
  Z.testbit (u + 2 ^ 16 * v) n = if n <? 16 then Z.testbit u n else Z.testbit v (n - 16).
Proof.
  intros Hu Hn. rewrite (Z.mul_comm (2 ^ 16)). destruct (n <? 16) eqn:E.
  - rewrite <- (Z.mod_pow2_bits_low (u + v * 2 ^ 16) 16 n) by lia. by rewrite Z.mod_add, Z.mod_small by lia.
  - assert (En : n = n - 16 + 16) by lia. rewrite En at 1. rewrite <- Z.div_pow2_bits by lia.
    by rewrite Z.div_add, Z.div_small, Z.add_0_l by lia.
Qed.

(** Masking two halves. *)
Lemma land_halves a b c d : 0 <= a < 2 ^ 16 -> 0 <= c < 2 ^ 16 ->
  Z.land (a + 2 ^ 16 * b) (c + 2 ^ 16 * d) = Z.land a c + 2 ^ 16 * Z.land b d.
Proof.
  intros Ha Hc. assert (Hl : 0 <= Z.land a c < 2 ^ 16).
  { destruct (bits_bound a 16) as [Ba _], (bits_bound (Z.land a c) 16) as [_ Bl]; try lia. apply Bl.
    split; [apply Z.land_nonneg; lia|]. intros n Hn. destruct (Ba Ha) as [_ Hb]. by rewrite Z.land_spec, Hb. }
  apply Z.bits_inj'. intros n Hn. rewrite Z.land_spec, !testbit_halves by done.
  destruct (n <? 16); by rewrite Z.land_spec.
Qed.

Lemma shr_halves a b k : 0 <= a < 2 ^ 16 -> 0 <= k <= 16 ->
  Z.shiftr (a + 2 ^ 16 * b) k = Z.shiftr a k + 2 ^ (16 - k) * (b mod 2 ^ k) + 2 ^ 16 * Z.shiftr b k.
Proof.
  intros Ha Hk. rewrite !Z.shiftr_div_pow2 by lia.
  assert (E : 2 ^ 16 = 2 ^ (16 - k) * 2 ^ k) by (rewrite <- Z.pow_add_r by lia; f_equal; lia).
  assert (Hp : 0 < 2 ^ k) by (apply Z.pow_pos_nonneg; lia).
  rewrite E. replace (a + 2 ^ (16 - k) * 2 ^ k * b) with (a + (2 ^ (16 - k) * b) * 2 ^ k) by ring.
  rewrite Z.div_add by lia. pose proof (Z.div_mod b (2 ^ k)). nia.
Qed.

Lemma bit_count_S n x : bit_count (S n) x = Z.b2z (Z.testbit x (Z.of_nat n)) + bit_count n x.
Proof. reflexivity. Qed.

Lemma bit_count_halves n lo hi : 0 <= lo < 2 ^ 16 ->
  bit_count (16 + n) (lo + 2 ^ 16 * hi) = bit_count 16 lo + bit_count n hi.
Proof.
  intros Hlo. assert (Hlow : forall k, (k <= 16)%nat -> bit_count k (lo + 2 ^ 16 * hi) = bit_count k lo).
  { induction k as [|k IH]; intros Hk; [reflexivity|]. rewrite !bit_count_S, IH, testbit_halves by lia.
    by replace (Z.of_nat k <? 16) with true by lia. }
  induction n as [|n IH].
  - rewrite Nat.add_0_r, Hlow by lia. symmetry. apply Z.add_0_r.
  - replace (16 + S n)%nat with (S (16 + n)) by lia. rewrite (bit_count_S (16 + n)), (bit_count_S n), IH, testbit_halves by lia.
    replace (Z.of_nat (16 + n) <? 16) with false by lia. replace (Z.of_nat (16 + n) - 16) with (Z.of_nat n) by lia. ring.
Qed.

(** The steps of the shift-and-mask form act on the halves apart. *)
Lemma half_bounds x : 0 <= x < 2 ^ 16 ->
  let a := x - Z.land (Z.shiftr x 1) 21845 in let b := Z.land a 13107 + Z.land (Z.shiftr a 2) 13107 in
  0 <= a < 2 ^ 16 /\ 0 <= b <= 17476 /\ b mod 16 <= 4.
Proof.
  intros Hx%half_ok_all a b. unfold half_ok in Hx. cbv zeta in Hx. fold a in Hx. fold b in Hx.
  revert Hx. generalize (bit_count 16 x), (Z.land (b + Z.shiftr b 4) 3855). clearbody b. clearbody a. intros n y Hx. lia.
Qed.

(** Bits carried over from the high half fall outside the mask. *)
Lemma land_carry a b c k : 0 <= a < 2 ^ 16 -> 0 <= c < 2 ^ (16 - k) -> 0 <= k <= 16 ->
  Z.land (Z.shiftr a k + 2 ^ (16 - k) * (b mod 2 ^ k)) c = Z.land (Z.shiftr a k) c.
Proof.
  intros Ha Hc Hk. apply Z.bits_inj'. intros n Hn. rewrite !Z.land_spec.
  destruct (Z.lt_ge_cases n (16 - k)) as [Hlt|Hge].
  - f_equal. rewrite <- (Z.mod_pow2_bits_low _ (16 - k) n) by lia.
    rewrite (Z.mul_comm (2 ^ (16 - k))), Z.mod_add by (apply Z.pow_nonzero; lia). by rewrite Z.mod_pow2_bits_low by lia.
  - apply bits_bound in Hc as [_ Hb]; [|lia]. by rewrite Hb, !andb_false_r by lia.
Qed.

(** A mask below bit 12 sees the low 12 bits. *)
Lemma land_mod_mask x : Z.land x 3855 = Z.land (x mod 2 ^ 12) 3855.
Proof.
  apply Z.bits_inj'. intros n Hn. rewrite !Z.land_spec. destruct (Z.lt_ge_cases n 12) as [Hlt|Hge].
  - by rewrite Z.mod_pow2_bits_low by lia.
  - assert (Hb : Z.testbit 3855 n = false); [|by rewrite Hb, !andb_false_r].
    destruct (bits_bound 3855 12) as [Hb _]; [lia|]. by apply Hb.
Qed.

(** The first three steps, of a whole word. *)
Lemma word_sums lo hi : 0 <= lo < 2 ^ 16 -> 0 <= hi < 2 ^ 16 ->
  let x := lo + 2 ^ 16 * hi in
  let x := u32 (x - Z.land (Z.shiftr x 1) 1431655765) in
  let x := u32 (Z.land x 858993459 + Z.land (Z.shiftr x 2) 858993459) in
  Z.land (u32 (x + Z.shiftr x 4)) 252645135 = half_sums lo + 2 ^ 16 * half_sums hi.
Proof.
  intros Hlo Hhi. cbv zeta. destruct (half_bounds lo Hlo) as (A1 & B1 & C1), (half_bounds hi Hhi) as (A2 & B2 & C2).
  assert (Hstep : forall a b c k, 0 <= a < 2 ^ 16 -> 0 <= b -> 0 <= c < 2 ^ (16 - k) -> 0 <= k <= 16 -> c < 2 ^ 16 ->
    Z.land (Z.shiftr (a + 2 ^ 16 * b) k) (c + 2 ^ 16 * c) = Z.land (Z.shiftr a k) c + 2 ^ 16 * Z.land (Z.shiftr b k) c).
  { intros a b c k Ha Hb Hc Hk Hc'. rewrite shr_halves by lia. rewrite land_halves; [by rewrite land_carry|..|lia].
    rewrite Z.shiftr_div_pow2 by lia. assert (Hp : 0 < 2 ^ k) by (apply Z.pow_pos_nonneg; lia).
    assert (E : 2 ^ 16 = 2 ^ (16 - k) * 2 ^ k) by (rewrite <- Z.pow_add_r by lia; f_equal; lia).
    pose proof (Z.mod_pos_bound b (2 ^ k) Hp). assert (Hq : 0 <= a / 2 ^ k < 2 ^ (16 - k)).
    { split; [apply Z.div_pos; lia|]. apply Z.div_lt_upper_bound; lia. }
    assert (Hp' : 0 < 2 ^ (16 - k)) by (apply Z.pow_pos_nonneg; lia). nia. }
  change 1431655765 with (21845 + 2 ^ 16 * 21845). change 858993459 with (13107 + 2 ^ 16 * 13107).
  change 252645135 with (3855 + 2 ^ 16 * 3855). rewrite (Hstep lo hi 21845 1) by lia.
  set (a1 := lo - Z.land (Z.shiftr lo 1) 21845) in *. set (a2 := hi - Z.land (Z.shiftr hi 1) 21845) in *.
  replace (lo + 2 ^ 16 * hi - _) with (a1 + 2 ^ 16 * a2) by (unfold a1, a2; ring).
  rewrite (u32_small (a1 + _)) by lia. rewrite land_halves, (Hstep a1 a2 13107 2) by lia.
  set (b1 := Z.land a1 13107 + Z.land (Z.shiftr a1 2) 13107) in *. set (b2 := Z.land a2 13107 + Z.land (Z.shiftr a2 2) 13107) in *.
  replace (_ + 2 ^ 16 * Z.land a2 13107 + _) with (b1 + 2 ^ 16 * b2) by (unfold b1, b2; ring).
  rewrite (u32_small (b1 + _)) by lia. unfold half_sums. fold a1 a2 b1 b2. rewrite shr_halves by lia. clearbody b1 b2. clear - B1 B2 C2.
  assert (Hq : forall b, 0 <= b <= 17476 -> 0 <= Z.shiftr b 4 <= 1092).
  { intros b Hb. rewrite Z.shiftr_div_pow2 by lia. change (2 ^ 4) with 16. Z.to_euclidean_division_equations. lia. }
  pose proof (Hq b1 B1). pose proof (Hq b2 B2). pose proof (Z.mod_pos_bound b2 16).
  replace (b1 + 2 ^ 16 * b2 + _) with
    ((b1 + Z.shiftr b1 4 + 2 ^ 12 * (b2 mod 2 ^ 4)) + 2 ^ 16 * (b2 + Z.shiftr b2 4)) by (change (16 - 4) with 12; ring).
  change (2 ^ 4) with 16. rewrite u32_small by lia. rewrite land_halves by lia. f_equal.
  rewrite (land_mod_mask (b1 + _ + _)), (land_mod_mask (b1 + _)). f_equal. by rewrite (Z.mul_comm (2 ^ 12)), Z.mod_add by lia.
Qed.

(** The shift-and-mask form counts the set bits. *)
Lemma gc_popcount32_spec x : 0 <= x < 2 ^ 32 -> gc_popcount32 x = bit_count 32 x.
Proof.
  intros Hx. set (lo := x mod 2 ^ 16). set (hi := x / 2 ^ 16).
  assert (Hlo : 0 <= lo < 2 ^ 16) by (apply Z.mod_pos_bound; lia).
  assert (Hhi : 0 <= hi < 2 ^ 16) by (unfold hi; split; [apply Z.div_pos; lia|apply Z.div_lt_upper_bound; lia]).
  assert (E : x = lo + 2 ^ 16 * hi) by (unfold lo, hi; pose proof (Z.div_mod x (2 ^ 16)); lia).
  rewrite E. change 32%nat with (16 + 16)%nat. rewrite bit_count_halves by done.
  unfold gc_popcount32. rewrite word_sums by done.
  destruct (half_sums_ok lo Hlo) as (L1 & L2 & <-), (half_sums_ok hi Hhi) as (H1 & H2 & <-).
  set (y := half_sums lo) in *. set (z := half_sums hi) in *. clearbody y z. clear - L1 L2 H1 H2.
  assert (Ey : y = y mod 256 + 256 * (y / 256)) by (pose proof (Z.div_mod y 256); lia).
  assert (Ez : z = z mod 256 + 256 * (z / 256)) by (pose proof (Z.div_mod z 256); lia).
  set (p0 := y mod 256) in *. set (p1 := y / 256) in *. set (p2 := z mod 256) in *. set (p3 := z / 256) in *.
  clearbody p0 p1 p2 p3. subst y z. rewrite !Z.shiftr_div_pow2 by lia.
  replace ((p0 + 256 * p1 + 2 ^ 16 * (p2 + 256 * p3)) / 2 ^ 8) with (p1 + 256 * p2 + 65536 * p3) by (change (2 ^ 8) with 256; Z.to_euclidean_division_equations; lia).
  change (2 ^ 16) with 65536. rewrite (u32_small (_ + (p1 + _ + _))) by lia.
  set (x2 := p0 + _ + _ + _). assert (Ex2 : x2 / 65536 = p2 + p3 + 256 * p3).
  { symmetry. apply (Z.div_unique x2 65536 _ (p0 + p1 + 256 * (p1 + p2))); unfold x2; lia. }
  rewrite Ex2. unfold x2. clear Ex2 x2. rewrite u32_small by lia.
  change 63 with (Z.ones 6). rewrite Z.land_ones by lia. change (2 ^ 6) with 64.
  symmetry. apply (Z.mod_unique _ 64 (4 * (p1 + p2) + 1024 * (p2 + p3) + 262144 * p3 + 4 * p3)); lia.
Qed.

(** ** Words of an array *)

Lemma nth_word_set i v l j : 0 <= i < Z.of_nat (length l) -> 0 <= j ->
  nth_word (set_word i v l) j = if j =? i then v else nth_word l j.
Proof.
  intros Hi Hj. unfold nth_word, set_word. destruct (j =? i) eqn:E.
  - apply Z.eqb_eq in E as ->. by rewrite list_lookup_insert_eq by lia.
  - by rewrite list_lookup_insert_ne by lia.
Qed.

Lemma length_set_word i v l : length (set_word i v l) = length l.
Proof. apply length_insert. Qed.

Lemma length_fill_words n : forall w l, length (fill_words n w l) = length l.
Proof. induction n as [|n IH]; intros w l; [done|]. cbn. by rewrite IH, length_set_word. Qed.

Lemma nth_word_fill n : forall w l j, 0 <= w -> w + Z.of_nat n <= Z.of_nat (length l) -> 0 <= j ->
  nth_word (fill_words n w l) j = if (w <=? j) && (j <? w + Z.of_nat n) then 4294967295 else nth_word l j.
Proof.
  induction n as [|n IH]; intros w l j Hw Hl Hj; cbn [fill_words].
  - by replace ((w <=? j) && (j <? w + Z.of_nat 0)) with false by lia.
  - rewrite IH by (rewrite ?length_set_word; lia). rewrite nth_word_set by lia.
    destruct (j =? w) eqn:E; [|by replace ((w + 1 <=? j) && (j <? w + 1 + Z.of_nat n)) with ((w <=? j) && (j <? w + Z.of_nat (S n))) by lia].
    replace ((w <=? j) && (j <? w + Z.of_nat (S n))) with true by lia.
    by destruct (_ && _).
Qed.

(** ** Setting a range *)

Definition words_ok (l : list Z) : Prop := forall i, 0 <= i -> 0 <= nth_word l i < 2 ^ 32.

Lemma granule_bit_div bits g : granule_bit bits g = Z.testbit (nth_word bits (g / 32)) (g mod 32).
Proof.
  unfold granule_bit. rewrite Z.shiftr_div_pow2 by lia. change 31 with (Z.ones 5). by rewrite Z.land_ones by lia.
Qed.

Lemma ones_bits k : 0 <= k -> Z.testbit 4294967295 k = (k <? 32).
Proof. intros Hk. change 4294967295 with (Z.ones 32). rewrite Z.testbit_ones by lia. lia. Qed.

Lemma low_mask_bits s k : 0 <= s < 32 -> 0 <= k < 32 -> Z.testbit (u32 (Z.shiftl 4294967295 s)) k = (s <=? k).
Proof.
  intros Hs Hk. unfold u32. rewrite Z.mod_pow2_bits_low by lia. rewrite Z.shiftl_spec by lia.
  destruct (s <=? k) eqn:E; [rewrite ones_bits by lia; lia|apply Z.testbit_neg_r; lia].
Qed.

Lemma high_mask_bits e k : 0 <= e < 32 -> 0 <= k < 32 -> Z.testbit (Z.shiftr 4294967295 (31 - e)) k = (k <=? e).
Proof. intros He Hk. rewrite Z.shiftr_spec, ones_bits by lia. lia. Qed.

Lemma masks_word s e : 0 <= s < 32 -> 0 <= e < 32 ->
  0 <= u32 (Z.shiftl 4294967295 s) < 2 ^ 32 /\ 0 <= Z.shiftr 4294967295 (31 - e) < 2 ^ 32.
Proof.
  intros Hs He. split; [apply u32_range|]. rewrite Z.shiftr_div_pow2 by lia.
  assert (0 < 2 ^ (31 - e)) by (apply Z.pow_pos_nonneg; lia). split; [apply Z.div_pos; lia|].
  apply Z.div_lt_upper_bound; nia.
Qed.

Lemma or_word_ok i v l : 0 <= i < Z.of_nat (length l) -> 0 <= v < 2 ^ 32 -> words_ok l -> words_ok (or_word i v l).
Proof.
  intros Hi Hv Hl j Hj. unfold or_word. rewrite nth_word_set by lia. destruct (j =? i); [|by apply Hl].
  apply lor_bound; [lia|apply Hl; lia|done].
Qed.

Lemma nth_word_or i v l j : 0 <= i < Z.of_nat (length l) -> 0 <= j ->
  nth_word (or_word i v l) j = if j =? i then Z.lor (nth_word l i) v else nth_word l j.
Proof. apply nth_word_set. Qed.

(** A granule's word and bit. *)
Lemma granule_split g : 0 <= g -> exists w k, g / 32 = w /\ g mod 32 = k /\ g = 32 * w + k /\ 0 <= k < 32 /\ 0 <= w.
Proof.
  intros Hg. exists (g / 32), (g mod 32). pose proof (Z.div_mod g 32). pose proof (Z.mod_pos_bound g 32).
  pose proof (Z.div_pos g 32). split_and!; lia.
Qed.

(** The bits of the range are set and all others kept. *)
Definition range_set (g0 g1 : Z) (bits bits' : list Z) : Prop :=
  length bits' = length bits /\ words_ok bits' /\
  forall g, 0 <= g -> granule_bit bits' g = granule_bit bits g || ((g0 <=? g) && (g <? g1)).

Section Masks.
Context (bits : list Z) (w0 w1 s e : Z).
Context (Hw0 : 0 <= w0) (Hw1 : w1 < Z.of_nat (length bits)) (Hs : 0 <= s < 32) (He : 0 <= e < 32) (Hok : words_ok bits).

Abbreviation m0 := (u32 (Z.shiftl 4294967295 s)).
Abbreviation m1 := (Z.shiftr 4294967295 (31 - e)).

Lemma range_one_word : w0 = w1 -> s <= e -> range_set (32 * w0 + s) (32 * w1 + e + 1) bits (or_word w0 (Z.land m0 m1) bits).
Proof.
  intros <- Hse. destruct (masks_word s e Hs He) as [M0 M1]. split_and!; [apply length_set_word| |].
  - apply or_word_ok; [lia| |done]. apply bits_bound; [lia|]. split; [apply Z.land_nonneg; lia|].
    intros n Hn. apply bits_bound in M0 as [_ Hb]; [|lia]. by rewrite Z.land_spec, Hb.
  - intros g Hg. rewrite !granule_bit_div. destruct (granule_split g Hg) as (w & k & -> & -> & Eg & Hk & Hw).
    rewrite nth_word_or by lia. destruct (w =? w0) eqn:E.
    + apply Z.eqb_eq in E as ->. rewrite Z.lor_spec, Z.land_spec, low_mask_bits, high_mask_bits by lia. f_equal. lia.
    + replace ((32 * w0 + s <=? g) && (g <? 32 * w0 + e + 1)) with false by lia. by rewrite orb_false_r.
Qed.

Lemma range_words : w0 < w1 -> range_set (32 * w0 + s) (32 * w1 + e + 1) bits
  (or_word w1 m1 (fill_words (Z.to_nat (w1 - w0 - 1)) (w0 + 1) (or_word w0 m0 bits))).
Proof.
  intros Hlt. destruct (masks_word s e Hs He) as [M0 M1].
  assert (L0 : length (or_word w0 m0 bits) = length bits) by apply length_set_word. split_and!.
  - unfold or_word at 1. by rewrite length_set_word, length_fill_words.
  - apply or_word_ok; [rewrite length_fill_words; lia|done|]. intros j Hj. rewrite nth_word_fill by lia.
    destruct (_ && _); [lia|]. by apply or_word_ok; [lia|..].
  - intros g Hg. rewrite !granule_bit_div. destruct (granule_split g Hg) as (w & k & -> & -> & Eg & Hk & Hw).
    rewrite nth_word_or by (rewrite ?length_fill_words; lia). rewrite !nth_word_fill by lia. rewrite !nth_word_or by lia.
    destruct (w =? w1) eqn:Ea.
    + replace ((w0 + 1 <=? w1) && _) with false by lia. replace (w1 =? w0) with false by lia.
      apply Z.eqb_eq in Ea as ->. rewrite Z.lor_spec, high_mask_bits by lia. f_equal. lia.
    + destruct ((w0 + 1 <=? w) && _) eqn:Eb.
      * rewrite ones_bits by lia. replace ((32 * w0 + s <=? g) && (g <? 32 * w1 + e + 1)) with true by lia.
        rewrite orb_true_r. lia.
      * destruct (w =? w0) eqn:Ec.
        -- apply Z.eqb_eq in Ec as ->. rewrite Z.lor_spec, low_mask_bits by lia. f_equal. lia.
        -- replace ((32 * w0 + s <=? g) && (g <? 32 * w1 + e + 1)) with false by lia. by rewrite orb_false_r.
Qed.

End Masks.

Lemma gc_fwd_set_range_spec g0 g1 bits : 0 <= g0 < g1 -> g1 <= 32 * Z.of_nat (length bits) -> words_ok bits ->
  range_set g0 g1 bits (gc_fwd_set_range g0 g1 bits).
Proof.
  intros Hg Hl Hok. unfold gc_fwd_set_range. rewrite !Z.shiftr_div_pow2 by lia. change 31 with (Z.ones 5).
  rewrite !Z.land_ones by lia. change (Z.ones 5) with 31. change (2 ^ 5) with 32.
  destruct (granule_split g0) as (w0 & s & -> & -> & E0 & Hs & Hw0); [lia|].
  destruct (granule_split (g1 - 1)) as (w1 & e & Ew & Ee & E1 & He & Hw1); [lia|].
  rewrite Ew, Ee, E0. replace g1 with (32 * w1 + e + 1) in * by lia.
  destruct (w0 =? w1) eqn:E; [apply range_one_word|apply range_words]; done || lia.
Qed.

(** ** Counting live granules *)

(** The live granules among [n] from [g] on. *)
Fixpoint live_count (bits : list Z) (g : Z) (n : nat) : Z :=
  match n with
  | O => 0
  | S n => Z.b2z (granule_bit bits (g + Z.of_nat n)) + live_count bits g n
  end.

Lemma live_count_app bits g a b : live_count bits g (a + b) = live_count bits g a + live_count bits (g + Z.of_nat a) b.
Proof.
  induction b as [|b IH]; [rewrite Nat.add_0_r; cbn; lia|]. rewrite Nat.add_succ_r. cbn [live_count]. rewrite IH.
  replace (g + Z.of_nat (a + b)) with (g + Z.of_nat a + Z.of_nat b) by lia. lia.
Qed.

Lemma live_count_ext bits bits' g n :
  (forall x, g <= x < g + Z.of_nat n -> granule_bit bits' x = granule_bit bits x) ->
  live_count bits' g n = live_count bits g n.
Proof.
  induction n as [|n IH]; intros H; [done|]. cbn [live_count]. rewrite (H (g + Z.of_nat n)) by lia.
  rewrite IH; [done|]. intros x Hx. apply H. lia.
Qed.

Lemma live_count_all bits g n b :
  (forall x, g <= x < g + Z.of_nat n -> granule_bit bits x = b) -> live_count bits g n = Z.b2z b * Z.of_nat n.
Proof.
  induction n as [|n IH]; intros H; [cbn; lia|]. cbn [live_count]. rewrite (H (g + Z.of_nat n)) by lia.
  rewrite IH; [lia|]. intros x Hx. apply H. lia.
Qed.

Lemma bit_count_word bits w k : 0 <= w -> (k <= 32)%nat ->
  bit_count k (nth_word bits w) = live_count bits (32 * w) k.
Proof.
  intros Hw. induction k as [|k IH]; intros Hk; [done|]. rewrite bit_count_S, IH by lia. cbn [live_count]. f_equal.
  rewrite granule_bit_div. rewrite Z.mul_comm, Z.div_add_l, Z.div_small, Z.add_0_r by lia.
  by rewrite Z.add_comm, Z.mod_add, Z.mod_small by lia.
Qed.

Lemma bit_count_low x k n : (k <= n)%nat -> bit_count n (Z.land x (Z.ones (Z.of_nat k))) = bit_count k x.
Proof.
  intros Hk. assert (Hlow : forall j, (j <= k)%nat -> bit_count j (Z.land x (Z.ones (Z.of_nat k))) = bit_count j x).
  { induction j as [|j IH]; intros Hj; [done|]. rewrite !bit_count_S, IH by lia. f_equal.
    rewrite Z.land_spec, Z.ones_spec_low by lia. by rewrite andb_true_r. }
  induction n as [|n IH]; [replace k with 0%nat by lia; done|]. destruct (decide (k = S n)) as [->|Hne]; [by apply Hlow|].
  rewrite bit_count_S, IH by lia. rewrite Z.land_spec, Z.ones_spec_high by lia. by rewrite andb_false_r.
Qed.

(** Whole words and the low part of one. *)
Lemma pop_words_spec bits n : forall w, 0 <= w -> words_ok bits ->
  pop_words n w bits = live_count bits (32 * w) (32 * n).
Proof.
  induction n as [|n IH]; intros w Hw Hok; [done|]. cbn [pop_words]. rewrite gc_popcount32_spec by (by apply Hok).
  rewrite bit_count_word, IH by lia || done. replace (32 * S n)%nat with (32 + 32 * n)%nat by lia.
  rewrite live_count_app. f_equal. f_equal. lia.
Qed.

Lemma pop_low_spec bits w k : 0 <= w -> 0 <= k < 32 -> words_ok bits ->
  gc_popcount32 (Z.land (nth_word bits w) (Z.shiftl 1 k - 1)) = live_count bits (32 * w) (Z.to_nat k).
Proof.
  intros Hw Hk Hok. assert (E : Z.shiftl 1 k - 1 = Z.ones (Z.of_nat (Z.to_nat k))).
  { rewrite Z2Nat.id by lia. rewrite Z.ones_equiv, Z.shiftl_1_l. lia. }
  rewrite E, gc_popcount32_spec.
  - rewrite bit_count_low by lia. apply bit_count_word; lia.
  - specialize (Hok w Hw). apply bits_bound in Hok as [H0 Hb]; [|lia]. apply bits_bound; [lia|].
    split; [apply Z.land_nonneg; lia|]. intros n Hn. by rewrite Z.land_spec, Hb.
Qed.
