(* ===== verification/GcFwd.v ===== *)
(** * The forwarding structures of the compactor

    gc_compact.c, pass 2: the bitmap of live granules, the table of slide
    cursors at page starts, the holes below pinned objects, the placement rule
    [gc_place] shared with the slide, and the lookup [gc_forward].  The theorem
    is that the lookup gives every live object, and every granule inside one,
    the address the placement rule gives it.

    Arrays are lists of the length allocated for them; a store outside a list
    is lost, so the theorem also says that none is needed. *)

From Stdlib Require Import ZArith Lia ZifyBool.
From stdpp Require Import base option list sets sorting.
From S2P Require Import Prelude GcHeap GcGraph GcBits.
Local Open Scope Z_scope.

(** ** Pins *)

(** How many entries from the front satisfy [f]. *)
Fixpoint leading (f : Z -> bool) (l : list Z) : nat :=
  match l with
  | x :: l => if f x then S (leading f l) else O
  | [] => O
  end.

(** The index of the first pin that is not below [lo], by bisection. *)
Fixpoint pin_search (fuel : nat) (pins : list Z) (lo a b : Z) : Z :=
  match fuel with
  | O => a
  | S fuel =>
      if a <? b then
        let mid := (a + b) / 2 in
        if nth_word pins mid <? lo then pin_search fuel pins lo (mid + 1) b else pin_search fuel pins lo a mid
      else a
  end.

(** The sum of the gaps from index [a] while the pins are at most [hi]. *)
Fixpoint sum_gaps (pins gaps : list Z) (hi : Z) : Z :=
  match pins, gaps with
  | p :: pins, g :: gaps => if p <=? hi then g + sum_gaps pins gaps hi else 0
  | _, _ => 0
  end.

Definition gc_fwd_pin_gaps (pins gaps : list Z) (lo hi : Z) : Z :=
  let a := Z.to_nat (pin_search (S (length pins)) pins lo 0 (Z.of_nat (length pins))) in
  u32 (sum_gaps (drop a pins) (drop a gaps) hi).

(** ** Placement *)

Record GcPlace : Type := { cur : Z; pin_i : nat }.

(** Advance the pin index while [f] holds. *)
Definition skip_pins (f : Z -> bool) (pins : list Z) (i : nat) : nat := (i + leading f (drop i pins))%nat.

(** Where the live object of [size] bytes at [off] goes; the gap below a pin is
    recorded on the first of the two passes. *)
Definition gc_place (pins : list Z) (off size : Z) (record_gap : bool) (pl : GcPlace) (gaps : list Z) :
  Z * GcPlace * list Z :=
  let i := skip_pins (fun p => p <? off) pins (pin_i pl) in
  match pins !! i with
  | Some p =>
      if p =? off then
        let gaps := if record_gap then <[i := u32 (off - cur pl)]> gaps else gaps in
        let i := skip_pins (fun p => p =? off) pins (S i) in
        (off, {| cur := u32 (off + size); pin_i := i |}, gaps)
      else (cur pl, {| cur := u32 (cur pl + size); pin_i := i |}, gaps)
  | None => (cur pl, {| cur := u32 (cur pl + size); pin_i := i |}, gaps)
  end.

Section Forward.
Context {L : Layout}.

Definition GC_FWD_ALIGN_SHIFT : Z := if CL_ALIGN =? 8 then 3 else 2.
Definition GC_FWD_WORDS_PER_PAGE : Z := 2.
Definition GC_FWD_PAGE_SHIFT : Z := GC_FWD_ALIGN_SHIFT + 5 + 1.
Definition GC_FWD_PAGE : Z := Z.shiftl 1 GC_FWD_PAGE_SHIFT.

Record GcFwd : Type := { gc_fwd_bits : list Z; gc_fwd_page : list Z; gc_fwd_gap : list Z }.

Definition fwd_words (bump : Z) : Z := (bump / CL_ALIGN + 31) / 32.
Definition fwd_pages (bump : Z) : Z := Z.shiftr (u32 (bump + GC_FWD_PAGE - 1)) GC_FWD_PAGE_SHIFT.

Definition cl_gc_fwd_bytes (bump : Z) (npins : nat) : Z :=
  u32 ((fwd_words bump + fwd_pages bump + Z.of_nat npins) * 4).

(** One zeroed block for the three arrays, or none: [alloc_ok] is the C heap,
    [fail_over] the size from which a test lets it refuse. *)
Definition gc_fwd_alloc (alloc_ok : Z -> bool) (fail_over bump : Z) (npins : nat) : option GcFwd :=
  let bytes := cl_gc_fwd_bytes bump npins in
  if negb (fail_over =? 0) && (bytes >=? fail_over) then None
  else if alloc_ok bytes then
    Some {| gc_fwd_bits := replicate (Z.to_nat (fwd_words bump)) 0;
            gc_fwd_page := replicate (Z.to_nat (fwd_pages bump)) 0;
            gc_fwd_gap := replicate npins 0 |}
  else None.

(** ** Pass 2 *)

(** Set page entries from [np] while [cond] holds of the page start. *)
Fixpoint fill_pages (fuel : nat) (npages : Z) (cond : Z -> bool) (val : Z -> Z) (np : Z) (page : list Z) : Z * list Z :=
  match fuel with
  | O => (np, page)
  | S fuel =>
      if (np <? npages) && cond (u32 (Z.shiftl np GC_FWD_PAGE_SHIFT))
      then fill_pages fuel npages cond val (np + 1) (set_word np (val (u32 (Z.shiftl np GC_FWD_PAGE_SHIFT))) page)
      else (np, page)
  end.

Record Pass2 : Type := { p2_fwd : GcFwd; p2_next : Z; p2_place : GcPlace }.

(** One live object of pass 2. *)
Definition forward_block (npages : Z) (pins : list Z) (off size : Z) (s : Pass2) : Pass2 :=
  let fuel := S (Z.to_nat npages) in
  let f := p2_fwd s in
  let '(np, page) := fill_pages fuel npages (fun ps => ps <=? off) (fun _ => cur (p2_place s)) (p2_next s) (gc_fwd_page f) in
  let '(new_off, pl, gaps) := gc_place pins off size true (p2_place s) (gc_fwd_gap f) in
  let '(np, page) := fill_pages fuel npages (fun ps => ps <? off + size) (fun ps => u32 (new_off + (ps - off))) np page in
  {| p2_fwd := {| gc_fwd_bits := gc_fwd_set_range (Z.shiftr off GC_FWD_ALIGN_SHIFT)
                                   (Z.shiftr (off + size) GC_FWD_ALIGN_SHIFT) (gc_fwd_bits f);
                  gc_fwd_page := page; gc_fwd_gap := gaps |};
     p2_next := np; p2_place := pl |}.

(** The pass over the marked blocks of [m]. *)
Definition gc_compute_forwarding (m : memory) (bump : Z) (jit_pinned : list Z) (f : GcFwd) : list Z * GcFwd :=
  let npages := fwd_pages bump in
  let pins := if 1 <? Z.of_nat (length jit_pinned) then merge_sort Z.le jit_pinned else jit_pinned in
  let s := gc_walk (fun _ : Pass2 => m) (walk_fuel bump)
             (no_seek (fun off size _ s => if CL_HDR_MARKED (m off) then forward_block npages pins off size s else s))
             (gc_walk_begin bump) {| p2_fwd := f; p2_next := 0; p2_place := {| cur := CL_ALIGN; pin_i := 0 |} |} in
  let '(_, page) := fill_pages (S (Z.to_nat npages)) npages (fun _ => true) (fun _ => cur (p2_place s)) (p2_next s)
                      (gc_fwd_page (p2_fwd s)) in
  (pins, {| gc_fwd_bits := gc_fwd_bits (p2_fwd s); gc_fwd_page := page; gc_fwd_gap := gc_fwd_gap (p2_fwd s) |}).

(** ** The lookup *)

Definition gc_forward (bump : Z) (pins : list Z) (f : GcFwd) (obj : Z) : Z :=
  if immediate obj then obj
  else if obj >=? bump then obj
  else
    let g := Z.shiftr obj GC_FWD_ALIGN_SHIFT in
    if negb (granule_bit (gc_fwd_bits f) g) then obj
    else
      let w := Z.shiftr obj GC_FWD_PAGE_SHIFT * GC_FWD_WORDS_PER_PAGE in
      let live := pop_words (Z.to_nat (Z.shiftr g 5 - w)) w (gc_fwd_bits f) in
      let live := live + gc_popcount32 (Z.land (nth_word (gc_fwd_bits f) (Z.shiftr g 5)) (Z.shiftl 1 (Z.land g 31) - 1)) in
      let fwd := u32 (nth_word (gc_fwd_page f) (Z.shiftr obj GC_FWD_PAGE_SHIFT) + Z.shiftl live GC_FWD_ALIGN_SHIFT) in
      if 0 <? Z.of_nat (length pins)
      then u32 (fwd + gc_fwd_pin_gaps pins (gc_fwd_gap f) (Z.land obj (Z.lnot (GC_FWD_PAGE - 1))) obj)
      else fwd.

End Forward.

(** ** Pins in order *)

Lemma leading_spec f l : (leading f l <= length l)%nat /\
  (forall (j : nat) x, (j < leading f l)%nat -> l !! j = Some x -> f x = true) /\
  (forall x, l !! leading f l = Some x -> f x = false).
Proof.
  induction l as [|y l (IH1 & IH2 & IH3)]; cbn; [split_and!; [lia|lia|done]|].
  destruct (f y) eqn:E; split_and!; try lia.
  - intros [|j] x Hj Hx; cbn in Hx; [by simplify_eq|]. apply (IH2 j x); [lia|done].
  - done.
  - intros x Hx. cbn in Hx. by simplify_eq.
Qed.

Lemma skip_pins_spec f pins i : (i <= skip_pins f pins i)%nat /\
  (forall (j : nat) x, (i <= j < skip_pins f pins i)%nat -> pins !! j = Some x -> f x = true) /\
  (forall x, pins !! skip_pins f pins i = Some x -> f x = false).
Proof.
  unfold skip_pins. destruct (leading_spec f (drop i pins)) as (H1 & H2 & H3). split_and!; [lia| |].
  - intros j x Hj Hx. apply (H2 (j - i)%nat x); [lia|]. rewrite lookup_drop. by replace (i + (j - i))%nat with j by lia.
  - intros x Hx. apply H3. by rewrite lookup_drop.
Qed.

Definition ascending (pins : list Z) : Prop := forall (i j : nat) x y, (i < j)%nat -> pins !! i = Some x -> pins !! j = Some y -> x <= y.

Lemma pin_search_spec (pins : list Z) lo fuel : forall a b : Z, ascending pins -> 0 <= a <= b -> b <= Z.of_nat (length pins) ->
  b - a < Z.of_nat fuel ->
  (forall (j : nat) x, Z.of_nat j < a -> pins !! j = Some x -> x < lo) ->
  (forall (j : nat) x, b <= Z.of_nat j -> pins !! j = Some x -> lo <= x) ->
  let c := pin_search fuel pins lo a b in
  0 <= c <= Z.of_nat (length pins) /\ (forall (j : nat) x, Z.of_nat j < c -> pins !! j = Some x -> x < lo) /\
  (forall (j : nat) x, c <= Z.of_nat j -> pins !! j = Some x -> lo <= x).
Proof.
  induction fuel as [|fuel IH]; intros a b Hs Hab Hb Hf Hlo Hhi; [lia|]. cbn [pin_search].
  destruct (a <? b) eqn:E; [|split_and!; [lia..|done|]; intros j x Hj; apply Hhi; lia].
  assert (Hm : a <= (a + b) / 2 < b) by (split; [apply Z.div_le_lower_bound; lia|apply Z.div_lt_upper_bound; lia]).
  set (mid := (a + b) / 2) in *. clearbody mid.
  destruct (lookup_lt_is_Some_2 pins (Z.to_nat mid)) as [y Hy]; [lia|].
  assert (En : nth_word pins mid = y) by (unfold nth_word; by rewrite Hy). rewrite En.
  destruct (y <? lo) eqn:Ey; apply IH; try done; try lia.
  - intros j x Hj Hx. destruct (decide (j = Z.to_nat mid)) as [->|Hne]; [simplify_eq; lia|].
    pose proof (Hs j (Z.to_nat mid) x y ltac:(lia) Hx Hy). lia.
  - intros j x Hj Hx. destruct (decide (j = Z.to_nat mid)) as [->|Hne]; [simplify_eq; lia|].
    pose proof (Hs (Z.to_nat mid) j y x ltac:(lia) Hy Hx). lia.
Qed.

(** The gaps of the pins that satisfy [f]. *)
Fixpoint gap_sum (f : Z -> bool) (pins gaps : list Z) : Z :=
  match pins, gaps with
  | p :: pins, g :: gaps => (if f p then g else 0) + gap_sum f pins gaps
  | _, _ => 0
  end.

Lemma gap_sum_eq (f f' : Z -> bool) (pins : list Z) : forall gaps gaps' : list Z, length gaps = length gaps' ->
  (forall (j : nat) p g g', pins !! j = Some p -> gaps !! j = Some g -> gaps' !! j = Some g' ->
     (if f p then g else 0) = (if f' p then g' else 0)) ->
  gap_sum f pins gaps = gap_sum f' pins gaps'.
Proof.
  induction pins as [|p pins IH]; intros gaps gaps' Hl H; [done|].
  destruct gaps as [|g gaps], gaps' as [|g' gaps']; try done. cbn [gap_sum]. f_equal.
  - by apply (H 0%nat).
  - apply IH; [cbn in Hl; lia|]. intros j p' x x' H1 H2 H3. by apply (H (S j)).
Qed.

Lemma gap_sum_split (f f1 f2 : Z -> bool) (pins : list Z) : forall gaps : list Z,
  (forall p, p ∈ pins -> Z.b2z (f p) = Z.b2z (f1 p) + Z.b2z (f2 p)) ->
  gap_sum f pins gaps = gap_sum f1 pins gaps + gap_sum f2 pins gaps.
Proof.
  induction pins as [|p pins IH]; intros gaps H; [done|]. destruct gaps as [|g gaps]; [done|]. cbn [gap_sum].
  rewrite IH by (intros q Hq; apply H; by apply list_elem_of_further).
  specialize (H p (list_elem_of_here _ _)). destruct (f p), (f1 p), (f2 p); cbn in H; lia.
Qed.

Lemma gap_sum_zero (f : Z -> bool) (pins : list Z) : forall gaps : list Z,
  (forall (j : nat) p g, pins !! j = Some p -> gaps !! j = Some g -> f p = true -> g = 0) -> gap_sum f pins gaps = 0.
Proof.
  induction pins as [|p pins IH]; intros gaps H; [done|]. destruct gaps as [|g gaps]; [done|]. cbn [gap_sum].
  rewrite IH by (intros j q x; apply (H (S j))). specialize (H 0%nat p g eq_refl eq_refl).
  destruct (f p); [rewrite H by done|]; lia.
Qed.

Lemma gap_sum_one (f : Z -> bool) (pins : list Z) : forall (gaps : list Z) (i : nat) p g, pins !! i = Some p -> gaps !! i = Some g -> f p = true ->
  (forall (j : nat) q x, j <> i -> pins !! j = Some q -> gaps !! j = Some x -> f q = true -> x = 0) -> gap_sum f pins gaps = g.
Proof.
  induction pins as [|q pins IH]; intros gaps i p g Hp Hg Hf H; [done|]. destruct gaps as [|x gaps]; [done|].
  cbn [gap_sum]. destruct i as [|i]; cbn in Hp, Hg; simplify_eq.
  - rewrite Hf, gap_sum_zero; [lia|]. intros j q x Hq Hx. by apply (H (S j)).
  - rewrite (IH gaps i p g) by (done || (intros j r y Hj; apply (H (S j)); lia)).
    specialize (H 0%nat q x ltac:(lia) eq_refl eq_refl). destruct (f q); [rewrite H by done|]; lia.
Qed.

Lemma gap_sum_nonneg (f : Z -> bool) (pins : list Z) : forall gaps : list Z, (forall (j : nat) g, gaps !! j = Some g -> 0 <= g) -> 0 <= gap_sum f pins gaps.
Proof.
  induction pins as [|p pins IH]; intros gaps H; [done|]. destruct gaps as [|g gaps]; [done|]. cbn [gap_sum].
  specialize (IH gaps (fun j => H (S j))). specialize (H 0%nat g eq_refl). destruct (f p); lia.
Qed.

Lemma sum_gaps_spec pins : forall gaps hi, ascending pins ->
  sum_gaps pins gaps hi = gap_sum (fun p => p <=? hi) pins gaps.
Proof.
  induction pins as [|p pins IH]; intros gaps hi Hs; [done|]. destruct gaps as [|g gaps]; [done|].
  cbn [sum_gaps gap_sum]. assert (Hs' : ascending pins) by (intros i j x y Hij; apply (Hs (S i) (S j)); lia).
  rewrite IH by done. destruct (p <=? hi) eqn:E; [done|].
  rewrite gap_sum_zero; [done|]. intros j q x Hq _ Hle. pose proof (Hs 0%nat (S j) p q ltac:(lia) eq_refl Hq). lia.
Qed.

Lemma gap_sum_drop (f : Z -> bool) (pins : list Z) : forall (gaps : list Z) n, (forall (j : nat) p, (j < n)%nat -> pins !! j = Some p -> f p = false) ->
  gap_sum f (drop n pins) (drop n gaps) = gap_sum f pins gaps.
Proof.
  induction pins as [|p pins IH]; intros gaps n H; [by rewrite !drop_nil|]. destruct n as [|n]; [done|].
  destruct gaps as [|g gaps]; [cbn; by destruct (drop n pins)|]. cbn [drop gap_sum].
  rewrite (H 0%nat p) by (done || lia). rewrite IH; [lia|]. intros j q Hj. apply (H (S j)). lia.
Qed.

Lemma gc_fwd_pin_gaps_spec pins gaps lo hi : ascending pins ->
  gc_fwd_pin_gaps pins gaps lo hi = u32 (gap_sum (fun p => (lo <=? p) && (p <=? hi)) pins gaps).
Proof.
  intros Hs. unfold gc_fwd_pin_gaps. f_equal.
  destruct (pin_search_spec pins lo (S (length pins)) 0 (Z.of_nat (length pins)) Hs) as (Hc & Hlo & Hhi); try lia.
  { intros j x Hj Hx. apply lookup_lt_Some in Hx. lia. }
  set (c := pin_search _ _ _ _ _) in *. clearbody c. rewrite sum_gaps_spec.
  - rewrite <- (gap_sum_drop _ pins gaps (Z.to_nat c)).
    + apply gap_sum_eq; [done|]. intros j p g g' Hp Hg Hg'. rewrite Hg in Hg'. simplify_eq.
      rewrite lookup_drop in Hp. rewrite (proj2 (Z.leb_le lo p)); [done|]. apply (Hhi (Z.to_nat c + j)%nat p); [lia|done].
    + intros j p Hj Hp. specialize (Hlo j p ltac:(lia) Hp). lia.
  - intros i j x y Hij. rewrite !lookup_drop. apply Hs. lia.
Qed.
