(* ===== verification/GcLookup.v ===== *)
(** * The forwarding lookup agrees with the placement

    Pass 2 of the compactor walks the marked blocks once; [forwarding] collects
    what it leaves in the bitmap, the page table and the gap array.  From it the
    lookup gc_forward and the slide derive the same new address. *)

From Stdlib Require Import ZArith Lia ZifyBool.
From stdpp Require Import base option list sets sorting.
From S2P Require Import Prelude GcHeap GcGraph GcBits GcFwd.
Local Open Scope Z_scope.

(** ** Granules and pages *)

Section Units.
Context {L : Layout} {LL : LayoutLaws L}.

Lemma align_shift : CL_ALIGN = 2 ^ GC_FWD_ALIGN_SHIFT /\ 2 <= GC_FWD_ALIGN_SHIFT <= 3.
Proof. unfold GC_FWD_ALIGN_SHIFT. destruct align_cases as [E|E]; rewrite E; cbn; lia. Qed.

Lemma page_size : GC_FWD_PAGE = 64 * CL_ALIGN /\ 2 ^ GC_FWD_PAGE_SHIFT = 64 * CL_ALIGN.
Proof.
  unfold GC_FWD_PAGE, GC_FWD_PAGE_SHIFT. rewrite Z.shiftl_1_l. destruct align_shift as [E H].
  assert (X : 2 ^ (GC_FWD_ALIGN_SHIFT + 5 + 1) = 64 * CL_ALIGN); [|done].
  rewrite E, !Z.pow_add_r by lia. lia.
Qed.

Lemma shift_granule x : Z.shiftr x GC_FWD_ALIGN_SHIFT = x / CL_ALIGN.
Proof. destruct align_shift as [-> H]. apply Z.shiftr_div_pow2. lia. Qed.

Lemma shift_page x : Z.shiftr x GC_FWD_PAGE_SHIFT = x / GC_FWD_PAGE.
Proof.
  destruct page_size as [-> <-]. apply Z.shiftr_div_pow2. unfold GC_FWD_PAGE_SHIFT. destruct align_shift. lia.
Qed.

Lemma page_start p : Z.shiftl p GC_FWD_PAGE_SHIFT = p * GC_FWD_PAGE.
Proof.
  destruct page_size as [-> <-]. apply Z.shiftl_mul_pow2. unfold GC_FWD_PAGE_SHIFT. destruct align_shift. lia.
Qed.

Lemma page_pos : 0 < GC_FWD_PAGE <= 512.
Proof. destruct page_size as [-> _]. pose proof align_pos. lia. Qed.

Lemma div_align x : (CL_ALIGN | x) -> x = CL_ALIGN * (x / CL_ALIGN).
Proof. intros H. apply Z.div_exact; [pose proof align_pos; lia|]. apply Z.mod_divide; [pose proof align_pos; lia|done]. Qed.

(** ** The page loop *)

Context (npages : Z) (Hpages : npages * GC_FWD_PAGE <= 2 ^ 32).

Lemma fill_pages_spec cond val fuel : forall np page,
  npages - np < Z.of_nat fuel -> 0 <= np <= npages -> Z.of_nat (length page) = npages ->
  exists np' page', fill_pages fuel npages cond val np page = (np', page') /\
  np <= np' <= npages /\ length page' = length page /\
  (forall p, np <= p < np' -> cond (p * GC_FWD_PAGE) = true /\ nth_word page' p = val (p * GC_FWD_PAGE)) /\
  (forall p, 0 <= p -> ~ (np <= p < np') -> nth_word page' p = nth_word page p) /\
  (np' = npages \/ cond (np' * GC_FWD_PAGE) = false).
Proof.
  induction fuel as [|fuel IH]; intros np page Hf Hnp Hl; [lia|]. cbn [fill_pages].
  destruct (np <? npages) eqn:E; cbn [andb].
  - rewrite page_start. rewrite (u32_small (np * GC_FWD_PAGE)) by (pose proof page_pos; nia).
    destruct (cond (np * GC_FWD_PAGE)) eqn:Ec; [|exists np, page; split_and!; done || lia].
    destruct (IH (np + 1) (set_word np (val (np * GC_FWD_PAGE)) page)) as (np' & page' & -> & H1 & H2 & H3 & H4 & H5);
      [lia|lia|by rewrite length_set_word|].
    exists np', page'. rewrite length_set_word in H2. split_and!; try done; try lia.
    + intros p Hp. destruct (decide (p = np)) as [->|Hne]; [|apply H3; lia].
      split; [done|]. rewrite H4 by lia. rewrite nth_word_set by lia. by rewrite Z.eqb_refl.
    + intros p Hp Hn. rewrite H4 by lia. rewrite nth_word_set by lia.
      by replace (p =? np) with false by lia.
  - exists np, page. split_and!; try done; lia.
Qed.

End Units.

(** ** The cursor as a function of the arrays *)

Section Cursor.
Context {L : Layout} {LL : LayoutLaws L} (pins : list Z).

(** The slide cursor on arrival at [x], and after a pin at [x]. *)
Definition cursor_at (bits gaps : list Z) (x : Z) : Z :=
  CL_ALIGN + CL_ALIGN * live_count bits 0 (Z.to_nat (x / CL_ALIGN)) + gap_sum (fun p => p <? x) pins gaps.
Definition placed_at (bits gaps : list Z) (x : Z) : Z :=
  CL_ALIGN + CL_ALIGN * live_count bits 0 (Z.to_nat (x / CL_ALIGN)) + gap_sum (fun p => p <=? x) pins gaps.

Lemma live_count_split bits x y : 0 <= x <= y ->
  live_count bits 0 (Z.to_nat y) = live_count bits 0 (Z.to_nat x) + live_count bits x (Z.to_nat (y - x)).
Proof.
  intros H. replace (Z.to_nat y) with (Z.to_nat x + Z.to_nat (y - x))%nat by lia. rewrite live_count_app.
  f_equal. f_equal. lia.
Qed.

Lemma placed_cursor bits gaps x : placed_at bits gaps x = cursor_at bits gaps x + gap_sum (fun p => p =? x) pins gaps.
Proof.
  unfold placed_at, cursor_at. rewrite (gap_sum_split (fun p => p <=? x) (fun p => p <? x) (fun p => p =? x)); [lia|].
  intros p _. destruct (p <? x) eqn:E1, (p <=? x) eqn:E2, (p =? x) eqn:E3; cbn; lia.
Qed.

(** Changes above [x] do not matter to it. *)
Lemma cursor_ext bits bits' gaps gaps' x : length gaps = length gaps' ->
  (forall g, 0 <= g < x / CL_ALIGN -> granule_bit bits' g = granule_bit bits g) ->
  (forall (j : nat) p, pins !! j = Some p -> p < x -> gaps' !! j = gaps !! j) -> 0 <= x ->
  cursor_at bits' gaps' x = cursor_at bits gaps x.
Proof.
  intros Hl Hb Hg Hx. unfold cursor_at. f_equal; [f_equal; f_equal; apply live_count_ext|].
  - intros g H. apply Hb. pose proof (Z.div_pos x CL_ALIGN). pose proof align_pos. lia.
  - apply gap_sum_eq; [done|]. intros j p g g' Hp H1 H2. destruct (p <? x) eqn:E; [|done].
    specialize (Hg j p Hp ltac:(lia)). rewrite H1, H2 in Hg. congruence.
Qed.

(** Nothing lives between [x] and [y]. *)
Lemma cursor_dead bits gaps x y : 0 <= x <= y -> (CL_ALIGN | x) ->
  (forall g, x <= g * CL_ALIGN < y -> granule_bit bits g = false) ->
  (forall (j : nat) p g, pins !! j = Some p -> gaps !! j = Some g -> x <= p < y -> g = 0) ->
  cursor_at bits gaps y = cursor_at bits gaps x.
Proof.
  intros Hxy Hd Hb Hg. pose proof align_pos as Hp. unfold cursor_at.
  assert (Hdiv : 0 <= x / CL_ALIGN <= y / CL_ALIGN) by (split; [apply Z.div_pos; lia|apply Z.div_le_mono; lia]).
  rewrite (live_count_split bits (x / CL_ALIGN) (y / CL_ALIGN)) by lia.
  rewrite (live_count_all bits (x / CL_ALIGN) _ false).
  2: { intros g H. apply Hb. rewrite (div_align x) by done. pose proof (Z.mul_div_le y CL_ALIGN). nia. }
  rewrite (gap_sum_split (fun p => p <? y) (fun p => p <? x) (fun p => (x <=? p) && (p <? y))).
  2: { intros p _. destruct (p <? y) eqn:E1, (p <? x) eqn:E2, (x <=? p) eqn:E3; cbn; lia. }
  rewrite (gap_sum_zero (fun p => (x <=? p) && (p <? y))); [cbn; lia|].
  intros j p g Hj Hgj H. apply (Hg j p g); [done|done|lia].
Qed.

(** From the start [x] of a live object to a granule [y] of it, or its end. *)
Lemma cursor_live bits gaps x y : 0 <= x < y -> (CL_ALIGN | x) -> (CL_ALIGN | y) ->
  (forall g, x <= g * CL_ALIGN < y -> granule_bit bits g = true) ->
  (forall (j : nat) p g, pins !! j = Some p -> gaps !! j = Some g -> x < p < y -> g = 0) ->
  cursor_at bits gaps y = placed_at bits gaps x + (y - x).
Proof.
  intros Hxy Hdx Hdy Hb Hg. pose proof align_pos as Hp. unfold cursor_at, placed_at.
  pose proof (div_align x Hdx) as Ex. pose proof (div_align y Hdy) as Ey.
  assert (Hdiv : 0 <= x / CL_ALIGN <= y / CL_ALIGN) by (split; [apply Z.div_pos; lia|apply Z.div_le_mono; lia]).
  rewrite (live_count_split bits (x / CL_ALIGN) (y / CL_ALIGN)) by lia.
  rewrite (live_count_all bits (x / CL_ALIGN) _ true).
  2: { intros g H. apply Hb. rewrite Z2Nat.id in H by lia. clear Hb Hg Hdx Hdy. revert Ex Ey H.
    generalize (x / CL_ALIGN), (y / CL_ALIGN). intros q1 q2 -> -> H. nia. }
  rewrite (gap_sum_split (fun p => p <? y) (fun p => p <=? x) (fun p => (x <? p) && (p <? y))).
  2: { intros p _. destruct (p <? y) eqn:E1, (p <=? x) eqn:E2, (x <? p) eqn:E3; cbn; lia. }
  rewrite (gap_sum_zero (fun p => (x <? p) && (p <? y))).
  2: { intros j p g Hj Hgj H. apply (Hg j p g); [done|done|lia]. }
  cbn [Z.b2z]. rewrite Z2Nat.id by lia. clear Hb Hg Hdx Hdy. revert Ex Ey Hdiv.
  generalize (x / CL_ALIGN), (y / CL_ALIGN). intros q1 q2 -> -> Hdiv. ring.
Qed.

Lemma live_count_nonneg bits g n : 0 <= live_count bits g n.
Proof. induction n as [|n IH]; cbn [live_count]; [lia|]. destruct (granule_bit bits (g + Z.of_nat n)); cbn [Z.b2z]; lia. Qed.

(** The lookup of an address of a live granule, from the page it is in. *)
Lemma cursor_pages bits gaps ps x : 0 <= ps <= x -> (CL_ALIGN | ps) ->
  placed_at bits gaps x = cursor_at bits gaps ps + CL_ALIGN * live_count bits (ps / CL_ALIGN) (Z.to_nat (x / CL_ALIGN - ps / CL_ALIGN)) +
    gap_sum (fun p => (ps <=? p) && (p <=? x)) pins gaps.
Proof.
  intros H Hd. pose proof align_pos as Hp. unfold placed_at, cursor_at.
  assert (Hdiv : 0 <= ps / CL_ALIGN <= x / CL_ALIGN) by (split; [apply Z.div_pos; lia|apply Z.div_le_mono; lia]).
  rewrite (live_count_split bits (ps / CL_ALIGN) (x / CL_ALIGN)) by lia.
  rewrite (gap_sum_split (fun p => p <=? x) (fun p => p <? ps) (fun p => (ps <=? p) && (p <=? x))); [lia|].
  intros p _. destruct (p <=? x) eqn:E1, (p <? ps) eqn:E2, (ps <=? p) eqn:E3; cbn; lia.
Qed.

End Cursor.

(** ** One placement *)

Lemma gc_place_spec (pins : list Z) off size record_gap pl (gaps : list Z) :
  ascending pins ->
  (forall (j : nat) p, (j < pin_i pl)%nat -> pins !! j = Some p -> p < off) ->
  0 <= cur pl <= off -> 0 <= size -> off + size < 2 ^ 32 ->
  exists at_ pl' gaps', gc_place pins off size record_gap pl gaps = (at_, pl', gaps') /\
  cur pl' = at_ + size /\ (forall (j : nat) p, (j < pin_i pl')%nat -> pins !! j = Some p -> p <= off) /\
  (((off ∉ pins) /\ at_ = cur pl /\ gaps' = gaps) \/
   (at_ = off /\ exists i, pins !! i = Some off /\ gaps' = if record_gap then <[i := off - cur pl]> gaps else gaps)).
Proof.
  intros Hs Hi Hc Hsz Ho. unfold gc_place.
  destruct (skip_pins_spec (fun p => p <? off) pins (pin_i pl)) as (S1 & S2 & S3).
  set (i := skip_pins _ pins (pin_i pl)) in *.
  assert (Hbelow : forall (j : nat) p, (j < i)%nat -> pins !! j = Some p -> p < off).
  { intros j p Hj Hp. destruct (decide (j < pin_i pl)%nat) as [Hlt|Hge]; [by apply (Hi j p)|].
    specialize (S2 j p ltac:(lia) Hp). cbn in S2. lia. }
  assert (Hmiss : (forall p, pins !! i = Some p -> p <> off) -> off ∉ pins).
  { intros H Hin. apply list_elem_of_lookup in Hin as [j Hj]. destruct (Nat.lt_trichotomy j i) as [Hlt|[->|Hgt]].
    - specialize (Hbelow j off Hlt Hj). lia.
    - by apply (H off).
    - destruct (lookup_lt_is_Some_2 pins i) as [p Hp]; [apply lookup_lt_Some in Hj; lia|].
      pose proof (Hs i j p off Hgt Hp Hj). specialize (S3 p Hp). cbn in S3. specialize (H p Hp). lia. }
  destruct (pins !! i) as [p|] eqn:Ep.
  - specialize (S3 p eq_refl). cbn in S3. destruct (p =? off) eqn:E.
    + apply Z.eqb_eq in E as ->. rewrite (u32_small (off - cur pl)), (u32_small (off + size)) by lia.
      destruct (skip_pins_spec (fun p => p =? off) pins (S i)) as (T1 & T2 & _).
      eexists _, _, _. split_and!; [reflexivity|done| |right; split; [done|by exists i]].
      cbn [pin_i]. intros j q Hj Hq. destruct (Nat.lt_trichotomy j i) as [Hlt|[->|Hgt]].
      * specialize (Hbelow j q Hlt Hq). lia.
      * simplify_eq. lia.
      * specialize (T2 j q ltac:(lia) Hq). cbn in T2. lia.
    + rewrite u32_small by lia. eexists _, _, _. split_and!; [reflexivity|done| |left; split_and!; [|done..]].
      * cbn [pin_i]. intros j q Hj Hq. specialize (Hbelow j q Hj Hq). lia.
      * apply Hmiss. intros q Hq. simplify_eq. lia.
  - rewrite u32_small by lia. eexists _, _, _. split_and!; [reflexivity|done| |left; split_and!; [|done..]].
    + cbn [pin_i]. intros j q Hj Hq. specialize (Hbelow j q Hj Hq). lia.
    + by apply Hmiss.
Qed.

(** ** Pass 2 *)

Section Pass2.
Context {L : Layout} {LL : LayoutLaws L} (m : memory) (bump : Z) (bl pins : list Z).
Context (Hchain : chain m bump CL_ALIGN bl).
Context (Halign : forall o, o ∈ bl -> (CL_ALIGN | CL_HDR_SIZE (m o))).
Context (Hasc : ascending pins) (Hbump : bump + GC_FWD_PAGE <= 2 ^ 32).

Definition live (o : Z) : Prop := o ∈ bl /\ CL_HDR_MARKED (m o) = true.

(** The arrays describe the live objects of [dn]. *)
Record arrays_ok (dn : list Z) (bits gaps : list Z) : Prop := {
  ar_len : Z.of_nat (length bits) = fwd_words bump;
  ar_words : words_ok bits;
  ar_bits : forall g, 0 <= g -> granule_bit bits g = true <->
    exists o, o ∈ dn /\ CL_HDR_MARKED (m o) = true /\ o <= g * CL_ALIGN < block_end m o;
  ar_gaplen : length gaps = length pins;
  ar_gaps : forall (j : nat) g, gaps !! j = Some g -> 0 <= g;
  ar_zero : forall (j : nat) p g, pins !! j = Some p -> gaps !! j = Some g ->
    g = 0 \/ (p ∈ dn /\ CL_HDR_MARKED (m p) = true);
  ar_pin : forall o, o ∈ dn -> CL_HDR_MARKED (m o) = true -> o ∈ pins -> placed_at pins bits gaps o = o }.

(** The state of the pass, with every live object below [last] done. *)
Record pass2_inv (dn : list Z) (last : Z) (s : Pass2) : Prop := {
  i_arrays : arrays_ok dn (gc_fwd_bits (p2_fwd s)) (gc_fwd_gap (p2_fwd s));
  i_last : 0 <= last /\ (CL_ALIGN | last) /\ forall o, o ∈ dn -> CL_HDR_MARKED (m o) = true -> block_end m o <= last;
  i_cur : cur (p2_place s) = cursor_at pins (gc_fwd_bits (p2_fwd s)) (gc_fwd_gap (p2_fwd s)) last /\
    CL_ALIGN <= cur (p2_place s) <= Z.max last CL_ALIGN;
  i_idx : forall (j : nat) p, (j < pin_i (p2_place s))%nat -> pins !! j = Some p -> p < last;
  i_pages : Z.of_nat (length (gc_fwd_page (p2_fwd s))) = fwd_pages bump /\ 0 <= p2_next s <= fwd_pages bump /\
    (forall p, 0 <= p < fwd_pages bump -> p < p2_next s <-> p * GC_FWD_PAGE < last);
  i_entries : forall p, 0 <= p < p2_next s -> nth_word (gc_fwd_page (p2_fwd s)) p =
    cursor_at pins (gc_fwd_bits (p2_fwd s)) (gc_fwd_gap (p2_fwd s)) (p * GC_FWD_PAGE) }.

Lemma pages_range : 0 <= fwd_pages bump /\ fwd_pages bump * GC_FWD_PAGE <= 2 ^ 32 /\
  (forall p, p < fwd_pages bump <-> p * GC_FWD_PAGE < bump).
Proof.
  pose proof page_pos as Hp. pose proof (chain_bounds _ _ _ _ Hchain) as [Hb _]. pose proof align_pos.
  unfold fwd_pages. rewrite shift_page. rewrite u32_small by lia.
  assert (E : (bump + GC_FWD_PAGE - 1) = GC_FWD_PAGE * ((bump + GC_FWD_PAGE - 1) / GC_FWD_PAGE) +
              (bump + GC_FWD_PAGE - 1) mod GC_FWD_PAGE) by (apply Z.div_mod; lia).
  pose proof (Z.mod_pos_bound (bump + GC_FWD_PAGE - 1) GC_FWD_PAGE (proj1 Hp)).
  set (n := (bump + GC_FWD_PAGE - 1) / GC_FWD_PAGE) in *. clearbody n.
  set (r := (bump + GC_FWD_PAGE - 1) mod GC_FWD_PAGE) in *. clearbody r. split_and!; [nia|nia|]. intros p. split; nia.
Qed.

(** No object of [dn] reaches above [last]. *)
Lemma arrays_above dn last bits gaps : arrays_ok dn bits gaps ->
  (forall o, o ∈ dn -> CL_HDR_MARKED (m o) = true -> block_end m o <= last) ->
  (forall o, o ∈ dn -> 0 < CL_HDR_SIZE (m o)) ->
  (forall g, 0 <= g -> last <= g * CL_ALIGN -> granule_bit bits g = false) /\
  (forall (j : nat) p g, pins !! j = Some p -> gaps !! j = Some g -> last <= p -> g = 0).
Proof.
  intros Ha Hl Hs. split.
  - intros g Hg Hge. destruct (granule_bit bits g) eqn:E; [|done]. apply (ar_bits _ _ _ Ha) in E as (o & Ho & Hm & Hr); [|done].
    specialize (Hl o Ho Hm). lia.
  - intros j p g Hp Hgj Hge. destruct (ar_zero _ _ _ Ha j p g Hp Hgj) as [?|[Ho Hm]]; [done|].
    specialize (Hl p Ho Hm). specialize (Hs p Ho). unfold block_end in Hl. lia.
Qed.

(** One more live object, at [off]. *)
Section Step.
Context (dn : list Z) (off last : Z) (bits gaps gaps' : list Z) (at_ : Z).
Context (Har : arrays_ok dn bits gaps) (Hoff : off ∈ bl) (Hm : CL_HDR_MARKED (m off) = true).
Context (Hlast : 0 <= last <= off) (Hbelow : forall o, o ∈ dn -> CL_HDR_MARKED (m o) = true -> block_end m o <= last).
Context (Hdn : forall o, o ∈ dn -> 0 <= o < off /\ 0 < CL_HDR_SIZE (m o)).
Context (Hat : ((off ∉ pins) /\ at_ = cursor_at pins bits gaps off /\ gaps' = gaps) \/
  (at_ = off /\ exists i, pins !! i = Some off /\ gaps' = <[i := off - cursor_at pins bits gaps off]> gaps)).
Context (Hcur : cursor_at pins bits gaps off <= off).

Abbreviation size := (CL_HDR_SIZE (m off)).
Abbreviation bits' := (gc_fwd_set_range (Z.shiftr off GC_FWD_ALIGN_SHIFT) (Z.shiftr (off + size) GC_FWD_ALIGN_SHIFT) bits).

Lemma off_facts : (CL_ALIGN | off) /\ (CL_ALIGN | off + size) /\ 0 < off /\ 0 < size /\ off + size <= bump.
Proof.
  destruct (chain_aligned _ _ _ _ Hchain Halign (Z.divide_refl _)) as [_ Ha]. pose proof align_pos.
  destruct (chain_bounds _ _ _ _ Hchain) as [_ Hb]. specialize (Hb off Hoff). unfold block_end in Hb.
  split_and!; [auto|apply Z.divide_add_r; auto|lia|lia|lia].
Qed.

Lemma step_bits : range_set (off / CL_ALIGN) ((off + size) / CL_ALIGN) bits bits'.
Proof.
  destruct off_facts as (H1 & H2 & H3 & H4 & H5). pose proof align_pos as Hp. rewrite !shift_granule.
  pose proof (div_align _ H1). pose proof (div_align _ H2).
  apply gc_fwd_set_range_spec; [|rewrite (ar_len _ _ _ Har)|apply Har].
  - split; [apply Z.div_pos; lia|nia].
  - unfold fwd_words. assert ((off + size) / CL_ALIGN <= bump / CL_ALIGN) by (apply Z.div_le_mono; lia).
    pose proof (Z.mul_div_le (bump / CL_ALIGN + 31) 32). pose proof (Z.mul_succ_div_gt (bump / CL_ALIGN + 31) 32). lia.
Qed.

Lemma step_bit g : 0 <= g ->
  granule_bit bits' g = granule_bit bits g || ((off <=? g * CL_ALIGN) && (g * CL_ALIGN <? off + size)).
Proof.
  intros Hg. destruct step_bits as (_ & _ & ->); [|done]. f_equal.
  destruct off_facts as (H1 & H2 & _). pose proof align_pos. pose proof (div_align _ H1) as E1. pose proof (div_align _ H2) as E2.
  clear - E1 E2 H. revert E1 E2. generalize (off / CL_ALIGN), ((off + size) / CL_ALIGN).
  intros q1 q2 E1 E2. apply eq_bool_prop_intro. rewrite !andb_True, !Is_true_true, !Z.leb_le, !Z.ltb_lt. rewrite E2, E1. nia.
Qed.

(** Only a pin at [off] has its gap changed, and it had none. *)
Lemma step_gap (j : nat) p : pins !! j = Some p -> p <> off -> gaps' !! j = gaps !! j.
Proof.
  intros Hp Hne. destruct Hat as [(_ & _ & ->)|(_ & i & Hi & ->)]; [done|].
  apply list_lookup_insert_ne. intros ->. simplify_eq.
Qed.

Lemma step_gaplen : length gaps' = length gaps.
Proof. destruct Hat as [(_ & _ & ->)|(_ & i & Hi & ->)]; [done|]. apply length_insert. Qed.

Lemma step_no_gap (j : nat) g : pins !! j = Some off -> gaps !! j = Some g -> g = 0.
Proof.
  intros Hp Hg. destruct (ar_zero _ _ _ Har j off g Hp Hg) as [?|[Ho _]]; [done|]. destruct (Hdn off Ho). lia.
Qed.

Lemma step_zero (j : nat) p g : pins !! j = Some p -> gaps' !! j = Some g -> off < p -> g = 0.
Proof.
  intros Hp Hg Hgt. rewrite (step_gap j p) in Hg by (done || lia).
  apply (proj2 (arrays_above dn last bits gaps Har Hbelow (fun o Ho => proj2 (Hdn o Ho))) j p g); done || lia.
Qed.

Lemma step_below x : 0 <= x <= off -> cursor_at pins bits' gaps' x = cursor_at pins bits gaps x.
Proof.
  intros Hx. apply cursor_ext; [symmetry; apply step_gaplen| | |lia].
  - intros g Hg. rewrite step_bit by lia. destruct off_facts as (H1 & _). pose proof align_pos.
    pose proof (Z.mul_div_le x CL_ALIGN). replace (off <=? g * CL_ALIGN) with false by (symmetry; apply Z.leb_gt; nia).
    by rewrite andb_false_l, orb_false_r.
  - intros j p Hp Hlt. apply (step_gap j p); [done|lia].
Qed.

Lemma step_placed : placed_at pins bits' gaps' off = at_.
Proof.
  rewrite placed_cursor, step_below by lia. destruct Hat as [(Hni & -> & ->)|(-> & i & Hi & ->)].
  - rewrite gap_sum_zero; [lia|]. intros j p g Hp _ E. apply list_elem_of_lookup_2 in Hp. apply Z.eqb_eq in E as ->. done.
  - rewrite (gap_sum_one _ pins _ i off (off - cursor_at pins bits gaps off)); [lia|done| |apply Z.eqb_refl|].
    + apply list_lookup_insert_eq. rewrite (ar_gaplen _ _ _ Har). by eapply lookup_lt_Some.
    + intros j p g Hj Hp Hg E. apply Z.eqb_eq in E as ->. rewrite list_lookup_insert_ne in Hg by done.
      by apply (step_no_gap j).
Qed.

Lemma step_inside y : off < y <= off + size -> (CL_ALIGN | y) -> cursor_at pins bits' gaps' y = at_ + (y - off).
Proof.
  intros Hy Hd. rewrite <- step_placed. destruct off_facts as (H1 & H2 & _). apply cursor_live; [lia|done|done| |].
  - intros g Hg. pose proof align_pos. rewrite step_bit by nia.
    replace ((off <=? g * CL_ALIGN) && (g * CL_ALIGN <? off + size)) with true by lia. apply orb_true_r.
  - intros j p g Hp Hgj Hr. apply (step_zero j p); done || lia.
Qed.

Lemma step_arrays : arrays_ok (dn ++ [off]) bits' gaps'.
Proof.
  destruct step_bits as (B1 & B2 & _). destruct off_facts as (H1 & H2 & H3 & H4 & _). split.
  - rewrite B1. apply Har.
  - done.
  - intros g Hg. rewrite step_bit, orb_true_iff, (ar_bits _ _ _ Har) by done. split.
    + intros [(o & Ho & Ho2)|Hr]; [exists o; rewrite elem_of_app; tauto|]. exists off.
      rewrite elem_of_app, list_elem_of_singleton. unfold block_end. split_and!; [tauto|done|lia..].
    + intros (o & [Ho|Ho]%elem_of_app & Ho2 & Hr); [left; by exists o|].
      apply list_elem_of_singleton in Ho as ->. right. unfold block_end in Hr. lia.
  - rewrite step_gaplen. apply Har.
  - intros j g Hg. destruct Hat as [(_ & _ & ->)|(_ & i & Hi & ->)]; [by apply (ar_gaps _ _ _ Har j)|].
    destruct (decide (j = i)) as [->|Hne]; [|rewrite list_lookup_insert_ne in Hg by done; by apply (ar_gaps _ _ _ Har j)].
    rewrite list_lookup_insert_eq in Hg by (rewrite (ar_gaplen _ _ _ Har); by eapply lookup_lt_Some). simplify_eq. lia.
  - intros j p g Hp Hg. rewrite elem_of_app, list_elem_of_singleton. destruct (decide (p = off)) as [->|Hne]; [tauto|].
    rewrite (step_gap j p Hp Hne) in Hg. destruct (ar_zero _ _ _ Har j p g Hp Hg); tauto.
  - intros o [Ho|Ho]%elem_of_app Hmo Hp.
    + destruct (Hdn o Ho) as [Ho' _]. rewrite <- (ar_pin _ _ _ Har o Ho Hmo Hp) at 2.
      rewrite !placed_cursor, step_below by lia. f_equal. apply gap_sum_eq; [apply step_gaplen|].
      intros j p g g' Hj Hg Hg'. destruct (p =? o) eqn:E; [|done].
      rewrite (step_gap j p Hj) in Hg by lia. congruence.
    + apply list_elem_of_singleton in Ho as ->. rewrite step_placed.
      destruct Hat as [(Hni & _)|(-> & _)]; done.
Qed.

End Step.

(** Nothing changes between the last live object and the next. *)
Lemma cursor_gap dn last x bits gaps : arrays_ok dn bits gaps ->
  (forall o, o ∈ dn -> CL_HDR_MARKED (m o) = true -> block_end m o <= last) ->
  (forall o, o ∈ dn -> 0 < CL_HDR_SIZE (m o)) -> (CL_ALIGN | last) -> 0 <= last <= x ->
  cursor_at pins bits gaps x = cursor_at pins bits gaps last.
Proof.
  intros Ha Hb Hs Hd Hx. destruct (arrays_above dn last bits gaps Ha Hb Hs) as [G1 G2]. pose proof align_pos.
  apply cursor_dead; [done|done| |].
  - intros g Hg. apply G1; [nia|lia].
  - intros j p g Hp Hg Hr. apply (G2 j p g); done || lia.
Qed.

Lemma forward_block_inv dn last off s : pass2_inv dn last s -> last <= off -> off ∈ bl ->
  CL_HDR_MARKED (m off) = true -> (forall o, o ∈ dn -> 0 <= o < off /\ 0 < CL_HDR_SIZE (m o)) ->
  pass2_inv (dn ++ [off]) (block_end m off) (forward_block (fwd_pages bump) pins off (CL_HDR_SIZE (m off)) s).
Proof.
  intros [Har (L0 & Ld & Lb) [C1 C2] Hidx (P1 & P2 & P3) Hent] Hle Hoff Hm Hdn. destruct s as [f np pl]. cbn [p2_fwd p2_next p2_place] in *.
  set (bits := gc_fwd_bits f) in *. set (gaps := gc_fwd_gap f) in *. set (size := CL_HDR_SIZE (m off)) in *.
  destruct (off_facts off Hoff Hm) as (A1 & A2 & A3 & A4 & A5). destruct pages_range as (N0 & N1 & N2).
  pose proof align_pos as Hap. pose proof page_pos as Hpp.
  assert (Hps0 : forall p, 0 <= p -> 0 <= p * GC_FWD_PAGE) by (intros; apply Z.mul_nonneg_nonneg; lia).
  assert (Hmono : forall p q, p <= q -> p * GC_FWD_PAGE <= q * GC_FWD_PAGE) by (intros; apply Z.mul_le_mono_nonneg_r; lia).
  assert (HA : CL_ALIGN <= off).
  { destruct (chain_bounds _ _ _ _ Hchain) as [_ Hb]. specialize (Hb off Hoff). lia. }
  assert (Ecur : cur pl = cursor_at pins bits gaps off).
  { rewrite (cursor_gap dn last off bits gaps); try done. intros o Ho. by apply Hdn. }
  unfold forward_block. cbn [p2_fwd p2_next p2_place]. fold bits gaps.
  destruct (fill_pages_spec (fwd_pages bump) N1 (fun ps => ps <=? off) (fun _ => cur pl) (S (Z.to_nat (fwd_pages bump))) np
              (gc_fwd_page f)) as (np1 & page1 & -> & R1 & R2 & R3 & R4 & R5); [lia|lia|lia|].
  destruct (gc_place_spec pins off size true pl gaps Hasc) as (at_ & pl' & gaps' & -> & Q1 & Q2 & Q3);
    [intros j p Hj Hp; specialize (Hidx j p Hj Hp); lia|lia|lia|lia|]. rewrite Ecur in Q3.
  destruct (fill_pages_spec (fwd_pages bump) N1 (fun ps => ps <? off + size) (fun ps => u32 (at_ + (ps - off)))
              (S (Z.to_nat (fwd_pages bump))) np1 page1) as (np2 & page2 & -> & T1 & T2 & T3 & T4 & T5); [lia|lia|lia|].
  assert (Hcur : cursor_at pins bits gaps off <= off) by lia.
  assert (Hbelow := step_below dn off bits gaps gaps' at_ Har Hoff Hm Q3).
  assert (Hplaced := step_placed dn off last bits gaps gaps' at_ Har Hoff Hm (conj L0 Hle) Hdn Q3).
  assert (Hinside := step_inside dn off last bits gaps gaps' at_ Har Hoff Hm (conj L0 Hle) Lb Hdn Q3).
  assert (Harr := step_arrays dn off last bits gaps gaps' at_ Har Hoff Hm (conj L0 Hle) Hdn Q3 Hcur).
  fold size in Hbelow, Hplaced, Hinside, Harr. set (bits' := gc_fwd_set_range _ _ bits) in *.
  assert (Hat : CL_ALIGN <= at_ <= off) by (destruct Q3 as [(_ & -> & _)|(-> & _)]; lia).
  split; cbn [p2_fwd p2_next p2_place gc_fwd_bits gc_fwd_page gc_fwd_gap]; unfold block_end; fold size.
  - done.
  - split_and!; [lia|done|]. intros o [Ho|Ho]%elem_of_app Hmo; [specialize (Lb o Ho Hmo); unfold block_end in Lb; lia|].
    apply list_elem_of_singleton in Ho as ->. unfold size. lia.
  - rewrite Q1, Hinside by (done || lia). lia.
  - intros j p Hj Hp. specialize (Q2 j p Hj Hp). lia.
  - split_and!; [lia|lia|lia|]. intros p Hp. split.
    + intros Hlt. destruct (Z.lt_ge_cases p np1) as [H1|H1]; [|destruct (T3 p ltac:(lia)) as [E _]; lia].
      destruct (Z.lt_ge_cases p np) as [H2|H2]; [apply P3 in H2; lia|]. destruct (R3 p ltac:(lia)) as [E _]. lia.
    + intros Hps. destruct (Z.lt_ge_cases p np2) as [|Hge]; [done|]. destruct T5 as [->|E]; [lia|].
      specialize (Hmono np2 p Hge). lia.
  - intros p Hp. destruct (Z.lt_ge_cases p np1) as [H1|H1].
    + rewrite T4 by lia. destruct (Z.lt_ge_cases p np) as [H2|H2].
      * rewrite R4 by lia. rewrite Hent by lia. apply P3 in H2; [|lia]. specialize (Hps0 p). symmetry. apply Hbelow. lia.
      * destruct (R3 p ltac:(lia)) as [E ->]. specialize (Hps0 p). rewrite Hbelow by lia. rewrite C1. symmetry.
        apply (cursor_gap dn last); try done; [intros o Ho; by apply Hdn|].
        assert (~ p * GC_FWD_PAGE < last) by (rewrite <- P3 by lia; lia). lia.
    + destruct (T3 p ltac:(lia)) as [E ->]. destruct R5 as [->|E1]; [lia|].
      specialize (Hmono np1 p ltac:(lia)). rewrite Hinside; [|lia|].
      * rewrite u32_small by lia. done.
      * destruct page_size as [-> _]. exists (p * 64). lia.
Qed.

Lemma inv_dead dn last off s : pass2_inv dn last s -> CL_HDR_MARKED (m off) = false -> pass2_inv (dn ++ [off]) last s.
Proof.
  intros [Har (L0 & Ld & Lb) Hc Hidx Hp Hent] Hm.
  assert (Hin : forall o, CL_HDR_MARKED (m o) = true -> o ∈ dn ++ [off] <-> o ∈ dn).
  { intros o Hmo. rewrite elem_of_app, list_elem_of_singleton. split; [|tauto]. intros [?|E]; congruence. }
  split; try done.
  - destruct Har as [R1 R2 R3 R4 R5 R6 R7]. split; try done.
    + intros g Hg. rewrite R3 by done. split; intros (o & Ho & Hmo & Hr); exists o; (split; [by apply Hin|done]).
    + intros j p g Hj Hg. destruct (R6 j p g Hj Hg) as [?|[Ho Hmo]]; [by left|]. right. split; [by apply Hin|done].
    + intros o Ho Hmo. apply R7; [by apply Hin|done].
  - split_and!; [done|done|]. intros o Ho Hmo. apply Lb; [by apply Hin|done].
Qed.

(** What pass 2 leaves behind. *)
Record forwarding (f : GcFwd) : Prop := {
  fw_arrays : arrays_ok bl (gc_fwd_bits f) (gc_fwd_gap f);
  fw_pages : forall p, 0 <= p < fwd_pages bump ->
    nth_word (gc_fwd_page f) p = cursor_at pins (gc_fwd_bits f) (gc_fwd_gap f) (p * GC_FWD_PAGE) }.

(** The state the pass starts from: the zeroed block. *)
Definition fresh (f : GcFwd) : Prop :=
  gc_fwd_bits f = replicate (Z.to_nat (fwd_words bump)) 0 /\
  gc_fwd_page f = replicate (Z.to_nat (fwd_pages bump)) 0 /\ gc_fwd_gap f = replicate (length pins) 0.

Lemma nth_word_zeros n i : 0 <= i -> nth_word (replicate n 0) i = 0.
Proof.
  intros Hi. unfold nth_word. destruct (replicate n 0 !! Z.to_nat i) as [x|] eqn:E; [|done].
  by apply lookup_replicate in E as [-> _].
Qed.

Lemma fresh_inv f : fresh f ->
  pass2_inv [] 0 {| p2_fwd := f; p2_next := 0; p2_place := {| cur := CL_ALIGN; pin_i := 0 |} |}.
Proof.
  intros (Fb & Fp & Fg). pose proof align_pos as Hap. destruct pages_range as (N0 & _). pose proof page_pos.
  assert (Hbit : forall g, granule_bit (gc_fwd_bits f) g = false).
  { intros g. unfold granule_bit. rewrite Fb. destruct (Z.lt_ge_cases (Z.shiftr g 5) 0) as [Hn|Hn].
    - unfold nth_word. replace (Z.to_nat (Z.shiftr g 5)) with (Z.to_nat 0) by lia.
      change (default 0 (?l !! Z.to_nat 0)) with (nth_word l 0). by rewrite nth_word_zeros, Z.testbit_0_l.
    - by rewrite nth_word_zeros, Z.testbit_0_l. }
  assert (Hgap : forall (j : nat) g, gc_fwd_gap f !! j = Some g -> g = 0).
  { intros j g Hg. rewrite Fg in Hg. by apply lookup_replicate in Hg as [-> _]. }
  assert (Hcur : cursor_at pins (gc_fwd_bits f) (gc_fwd_gap f) 0 = CL_ALIGN).
  { unfold cursor_at. rewrite Z.div_0_l by lia. rewrite gap_sum_zero; [change (Z.to_nat 0) with O; cbn [live_count]; lia|]. intros j p g _ Hg _. by apply (Hgap j). }
  split; cbn [p2_fwd p2_next p2_place cur pin_i]; try lia; try (intros j p Hj; lia).
  - split.
    + rewrite Fb, length_replicate. rewrite Z2Nat.id; [done|]. unfold fwd_words. apply Z.div_pos; [|lia].
      pose proof (chain_bounds _ _ _ _ Hchain) as [Hb _]. assert (0 <= bump / CL_ALIGN) by (apply Z.div_pos; lia). lia.
    + intros i Hi. rewrite Fb, nth_word_zeros by done. lia.
    + intros g _. rewrite Hbit. split; [done|]. by intros (o & ?%elem_of_nil & _).
    + by rewrite Fg, length_replicate.
    + intros j g Hg. rewrite (Hgap j g Hg). lia.
    + intros j p g _ Hg. left. by apply (Hgap j).
    + by intros o ?%elem_of_nil.
  - split_and!; [lia|apply Z.divide_0_r|by intros o ?%elem_of_nil].
  - rewrite Fp, length_replicate. split_and!; try lia.
Qed.

Lemma walk_inv f : fresh f -> exists last,
  pass2_inv bl last (gc_walk (fun _ : Pass2 => m) (walk_fuel bump)
    (no_seek (fun off size _ s => if CL_HDR_MARKED (m off) then forward_block (fwd_pages bump) pins off size s else s))
    (gc_walk_begin bump) {| p2_fwd := f; p2_next := 0; p2_place := {| cur := CL_ALIGN; pin_i := 0 |} |}).
Proof.
  intros Hf. set (I := fun (l : list Z) (s : Pass2) => exists dn last, bl = dn ++ l /\ pass2_inv dn last s /\
    forall x, x ∈ l -> last <= x). set (body := fun off size _ s => _).
  assert (H : I [] (gc_walk (fun _ => m) (walk_fuel bump) (no_seek body) (gc_walk_begin bump)
    {| p2_fwd := f; p2_next := 0; p2_place := {| cur := CL_ALIGN; pin_i := 0 |} |})).
  { destruct (chain_bounds _ _ _ _ Hchain) as [_ Hb]. pose proof align_pos.
    apply (gc_walk_rule (fun _ => m) bump I) with (l := bl); [|eapply walk_fuel_enough; [|exact Hchain]; lia|done|].
    - intros o l s (dn & last & Ebl & Hinv & Hlast) Hc s'. destruct (walk_next_step _ _ _ _ _ Hc) as (_ & _ & Hc').
      split; [|done]. exists (dn ++ [o]). destruct (chain_bounds _ _ _ _ Hc') as [_ Hcb].
      assert (Hin : o ∈ bl) by (rewrite Ebl, elem_of_app; right; apply list_elem_of_here).
      assert (Hdn : forall x, x ∈ dn -> 0 <= x < o /\ 0 < CL_HDR_SIZE (m x)).
      { intros x Hx. assert (Hxb : x ∈ bl) by (rewrite Ebl, elem_of_app; tauto). destruct (Hb x Hxb) as (B1 & B2 & _).
        rewrite Ebl in Hchain. apply chain_app in Hchain as (mid & Hd & Hr). inversion Hr; subst.
        destruct (chain_bounds _ _ _ _ Hd) as [_ Hdb]. destruct (Hdb x Hx) as (_ & _ & B3). unfold block_end in B3. lia. }
      unfold s', body. destruct (CL_HDR_MARKED (m o)) eqn:Em.
      + exists (block_end m o). split_and!; [by rewrite <- app_assoc| |intros x Hx; apply Hcb, Hx].
        apply forward_block_inv with (last := last); try done. apply Hlast, list_elem_of_here.
      + exists last. split_and!; [by rewrite <- app_assoc|by apply inv_dead|].
        intros x Hx. apply Hlast. by apply list_elem_of_further.
    - exists [], 0. split_and!; [done|by apply fresh_inv|]. intros x Hx. destruct (Hb x Hx). lia. }
  destruct H as (dn & last & Ebl & Hinv & _). rewrite app_nil_r in Ebl. subst dn. by exists last.
Qed.

(** The pages behind the last live object. *)
Lemma finish_pages last s : pass2_inv bl last s -> exists np page,
  fill_pages (S (Z.to_nat (fwd_pages bump))) (fwd_pages bump) (fun _ => true) (fun _ => cur (p2_place s)) (p2_next s)
    (gc_fwd_page (p2_fwd s)) = (np, page) /\
  forall p, 0 <= p < fwd_pages bump ->
    nth_word page p = cursor_at pins (gc_fwd_bits (p2_fwd s)) (gc_fwd_gap (p2_fwd s)) (p * GC_FWD_PAGE).
Proof.
  intros [Har (L0 & Ld & Lb) [C1 C2] Hidx (P1 & P2 & P3) Hent]. destruct pages_range as (N0 & N1 & N2).
  destruct (fill_pages_spec (fwd_pages bump) N1 (fun _ => true) (fun _ => cur (p2_place s)) (S (Z.to_nat (fwd_pages bump)))
              (p2_next s) (gc_fwd_page (p2_fwd s))) as (np & page & -> & R1 & R2 & R3 & R4 & R5); [lia|lia|lia|].
  exists np, page. split; [done|]. intros p Hp. destruct R5 as [->|?]; [|done].
  destruct (Z.lt_ge_cases p (p2_next s)) as [Hlt|Hge]; [rewrite R4 by lia; apply Hent; lia|].
  destruct (R3 p ltac:(lia)) as [_ ->]. rewrite C1. symmetry.
  assert (Hl : ~ p * GC_FWD_PAGE < last) by (rewrite <- P3 by lia; lia).
  apply (cursor_gap bl last); try done; [|lia]. intros o Ho. destruct (chain_bounds _ _ _ _ Hchain) as [_ Hb]. by apply Hb.
Qed.

(** ** The lookup *)

Section Lookup.
Context (f : GcFwd) (Hf : forwarding f).
Context (Hmin : forall o, o ∈ bl -> sizeof_FreeBlock <= CL_HDR_SIZE (m o)).

Abbreviation cursor := (cursor_at pins (gc_fwd_bits f) (gc_fwd_gap f)).

(** The new address of a live object. *)
Definition new_addr (o : Z) : Z := placed_at pins (gc_fwd_bits f) (gc_fwd_gap f) o.

Lemma live_bounds o : o ∈ bl -> (CL_ALIGN | o) /\ (CL_ALIGN | block_end m o) /\ CL_ALIGN <= o /\ o < block_end m o <= bump.
Proof.
  intros Ho. destruct (chain_aligned _ _ _ _ Hchain Halign (Z.divide_refl _)) as [_ Ha].
  destruct (chain_bounds _ _ _ _ Hchain) as [_ Hb]. specialize (Hb o Ho). unfold block_end in *.
  split_and!; [auto|apply Z.divide_add_r; auto|lia..].
Qed.

(** Two blocks that share an address are one. *)
Lemma same_block o o' a : o ∈ bl -> o' ∈ bl -> o <= a < block_end m o -> o' <= a < block_end m o' -> o = o'.
Proof.
  intros Ho Ho' Ha Ha'. destruct (decide (o = o')) as [|Hne]; [done|].
  destruct (chain_disjoint _ _ _ _ o o' Hchain Ho Ho' Hne); lia.
Qed.

Lemma final_bit o g : o ∈ bl -> CL_HDR_MARKED (m o) = true -> o <= g * CL_ALIGN < block_end m o ->
  granule_bit (gc_fwd_bits f) g = true.
Proof.
  intros Ho Hm Hg. destruct (live_bounds o Ho) as (_ & _ & ? & _). pose proof align_pos.
  apply (ar_bits _ _ _ (fw_arrays _ Hf)); [nia|]. by exists o.
Qed.

(** A pin that is no live object has no gap; a live object has pins only at its start. *)
Lemma final_gap (j : nat) p g : pins !! j = Some p -> gc_fwd_gap f !! j = Some g ->
  ~ (p ∈ bl /\ CL_HDR_MARKED (m p) = true) -> g = 0.
Proof. intros Hp Hg Hn. by destruct (ar_zero _ _ _ (fw_arrays _ Hf) j p g Hp Hg). Qed.

Lemma inner_gap o : o ∈ bl -> forall (j : nat) p g,
  pins !! j = Some p -> gc_fwd_gap f !! j = Some g -> o < p < block_end m o -> g = 0.
Proof.
  intros Ho j p g Hp Hgj Hr. apply (final_gap j p g Hp Hgj). intros [Hpb _].
  destruct (live_bounds p Hpb) as (_ & _ & _ & Hlt). assert (p = o) by (apply (same_block p o p); done || lia). lia.
Qed.

Lemma inside_cursor o y : o ∈ bl -> CL_HDR_MARKED (m o) = true -> o < y <= block_end m o -> (CL_ALIGN | y) ->
  cursor y = new_addr o + (y - o).
Proof.
  intros Ho Hm Hy Hd. destruct (live_bounds o Ho) as (D1 & D2 & L1 & L2). pose proof align_pos.
  apply cursor_live; [lia|done|done| |].
  - intros g Hg. apply (final_bit o); [done|done|lia].
  - intros j p g Hp Hgj Hr. apply (inner_gap o Ho j p g Hp Hgj). lia.
Qed.

Lemma inside_placed o y : o ∈ bl -> CL_HDR_MARKED (m o) = true -> o <= y < block_end m o -> (CL_ALIGN | y) ->
  placed_at pins (gc_fwd_bits f) (gc_fwd_gap f) y = new_addr o + (y - o).
Proof.
  intros Ho Hm Hy Hd. destruct (decide (y = o)) as [->|Hne]; [unfold new_addr; lia|].
  rewrite placed_cursor, (inside_cursor o) by (done || lia).
  rewrite gap_sum_zero; [lia|]. intros j p g Hp Hg E. apply Z.eqb_eq in E as ->. apply (inner_gap o Ho j y g); done || lia.
Qed.

(** A pinned object stays, any other goes where the cursor is. *)
Lemma placed_cases o : o ∈ bl -> CL_HDR_MARKED (m o) = true ->
  (o ∈ pins /\ new_addr o = o) \/ ((o ∉ pins) /\ new_addr o = cursor o).
Proof.
  intros Ho Hm. unfold new_addr. destruct (decide (o ∈ pins)) as [Hp|Hp]; [left|right]; (split; [done|]).
  - by apply (ar_pin _ _ _ (fw_arrays _ Hf)).
  - rewrite placed_cursor, gap_sum_zero; [lia|]. intros j p g Hpj _ E.
    apply Z.eqb_eq in E as ->. by apply list_elem_of_lookup_2 in Hpj.
Qed.

(** The cursor on arrival at a block, and where the objects before it end. *)
Lemma cursor_walk dn : forall l off, bl = dn ++ l -> chain m off CL_ALIGN dn ->
  CL_ALIGN <= cursor off <= off /\ (cursor off = off \/ cursor off + sizeof_FreeBlock <= off) /\
  forall o, o ∈ dn -> CL_HDR_MARKED (m o) = true ->
    CL_ALIGN <= new_addr o <= o /\ new_addr o + CL_HDR_SIZE (m o) <= cursor off.
Proof.
  induction dn as [|o dn IH] using rev_ind; intros l off Ebl Hc.
  - inversion Hc; subst. assert (E0 : cursor CL_ALIGN = CL_ALIGN); [|rewrite E0; split_and!; [lia|lia|lia|by intros o ?%elem_of_nil]].
    unfold cursor_at. pose proof align_pos as Hap. rewrite Z.div_same by lia. change (Z.to_nat 1) with 1%nat. cbn [live_count].
    assert (Hb : granule_bit (gc_fwd_bits f) (0 + Z.of_nat 0) = false).
    { destruct (granule_bit _ _) eqn:E; [|done]. apply (ar_bits _ _ _ (fw_arrays _ Hf)) in E as (o & Ho & _ & Hr); [|lia].
      destruct (live_bounds o Ho). lia. }
    rewrite Hb. rewrite gap_sum_zero; [cbn [Z.b2z]; lia|]. intros j p g Hp Hg Hlt. apply (final_gap j p g Hp Hg).
    intros [Hpb _]. destruct (live_bounds p Hpb). lia.
  - apply chain_app in Hc as (mid & Hd & Hr). destruct (walk_next_step _ _ _ _ _ Hr) as (-> & _ & Hr').
    inversion Hr'; subst. rewrite <- app_assoc in Ebl. destruct (IH _ mid Ebl Hd) as (I1 & I3 & I2).
    assert (Ho : mid ∈ bl) by (rewrite Ebl, elem_of_app; right; apply list_elem_of_here).
    destruct (live_bounds mid Ho) as (D1 & D2 & L1 & L2). pose proof align_pos as Hap.
    destruct (CL_HDR_MARKED (m mid)) eqn:Em.
    + rewrite (inside_cursor mid (block_end m mid)) by (done || lia).
      assert (Hn : new_addr mid = mid \/ new_addr mid = cursor mid) by (destruct (placed_cases mid Ho Em) as [[_ ?]|[_ ?]]; tauto).
      unfold block_end in *. split; [lia|]. split; [lia|]. intros o [Hin|Hin]%elem_of_app Hmo.
      * destruct (I2 o Hin Hmo). lia.
      * apply list_elem_of_singleton in Hin as ->. lia.
    + assert (Hlive : forall o a, o ∈ bl -> CL_HDR_MARKED (m o) = true -> mid <= a < block_end m mid -> o <= a < block_end m o -> False).
      { intros o a Hob Hmo Ha Ha'. rewrite (same_block o mid a Hob Ho Ha' Ha) in Hmo. congruence. }
      rewrite (cursor_dead pins (gc_fwd_bits f) (gc_fwd_gap f) mid (block_end m mid)); [|lia|done| |].
      * specialize (Hmin mid Ho). unfold block_end in *. split; [lia|]. split; [lia|].
        intros o [Hin|Hin]%elem_of_app Hmo; [by apply I2|]. apply list_elem_of_singleton in Hin as ->. congruence.
      * intros g Hg. destruct (granule_bit _ _) eqn:E; [|done].
        apply (ar_bits _ _ _ (fw_arrays _ Hf)) in E as (o & Hob & Hmo & Hr2); [|nia]. exfalso. by apply (Hlive o (g * CL_ALIGN)).
      * intros j p g Hp Hg Hr2. apply (final_gap j p g Hp Hg). intros [Hpb Hpm]. apply (Hlive p p Hpb Hpm Hr2).
        destruct (live_bounds p Hpb). lia.
Qed.

(** ** gc_forward *)

Lemma aligned_not_immediate y : (4 | y) -> 0 < y -> immediate y = false.
Proof.
  intros [k ->] Hy. unfold immediate, CL_UNBOUND. rewrite !orb_false_iff, !Z.eqb_neq. split_and!; try lia.
  - rewrite Z.bit0_odd, Z.odd_mul. apply andb_false_r.
  - change 255 with (Z.ones 8). rewrite Z.land_ones by lia. intros E. pose proof (Z.div_mod (k * 4) (2 ^ 8)). lia.
Qed.

Lemma granule_page y : 0 <= y -> Z.land y (Z.lnot (GC_FWD_PAGE - 1)) = y / GC_FWD_PAGE * GC_FWD_PAGE.
Proof.
  intros Hy. destruct page_size as [E1 E2]. rewrite E1, <- E2. assert (0 <= GC_FWD_PAGE_SHIFT).
  { unfold GC_FWD_PAGE_SHIFT. destruct align_shift. lia. }
  replace (2 ^ GC_FWD_PAGE_SHIFT - 1) with (Z.ones GC_FWD_PAGE_SHIFT) by (rewrite Z.ones_equiv; lia).
  change (Z.land y (Z.lnot ?x)) with (Z.land y (Z.lnot x)). rewrite <- Z.ldiff_land, Z.ldiff_ones_r by lia.
  by rewrite Z.shiftl_mul_pow2, Z.shiftr_div_pow2 by lia.
Qed.

(** The granules counted by the lookup: from the page start up to [y]. *)
Lemma page_live y : 0 <= y -> words_ok (gc_fwd_bits f) ->
  let g := Z.shiftr y GC_FWD_ALIGN_SHIFT in
  let w := Z.shiftr y GC_FWD_PAGE_SHIFT * GC_FWD_WORDS_PER_PAGE in
  pop_words (Z.to_nat (Z.shiftr g 5 - w)) w (gc_fwd_bits f) +
    gc_popcount32 (Z.land (nth_word (gc_fwd_bits f) (Z.shiftr g 5)) (Z.shiftl 1 (Z.land g 31) - 1)) =
  live_count (gc_fwd_bits f) (64 * (y / GC_FWD_PAGE)) (Z.to_nat (y / CL_ALIGN - 64 * (y / GC_FWD_PAGE))) /\
  64 * (y / GC_FWD_PAGE) <= y / CL_ALIGN.
Proof.
  intros Hy Hok. rewrite shift_granule, shift_page. unfold GC_FWD_WORDS_PER_PAGE. pose proof align_pos as Hap.
  assert (Ep : y / GC_FWD_PAGE = y / CL_ALIGN / 64).
  { destruct page_size as [-> _]. rewrite Z.div_div by lia. f_equal. lia. }
  rewrite Ep. assert (Hg : 0 <= y / CL_ALIGN) by (apply Z.div_pos; lia). set (g := y / CL_ALIGN) in *. clearbody g.
  rewrite Z.shiftr_div_pow2 by lia. change 31 with (Z.ones 5). rewrite Z.land_ones by lia. change (2 ^ 5) with 32.
  destruct (granule_split g Hg) as (w & k & -> & -> & -> & Hk & Hw).
  replace ((32 * w + k) / 64) with (w / 2).
  2: { change 64 with (32 * 2). rewrite <- Z.div_div by lia. f_equal.
       rewrite Z.mul_comm, Z.div_add_l, Z.div_small by lia. lia. }
  assert (Hw2 : 2 * (w / 2) <= w) by (apply Z.mul_div_le; lia). assert (0 <= w / 2) by (apply Z.div_pos; lia).
  rewrite pop_words_spec, pop_low_spec by (done || lia). split; [|lia].
  replace (Z.to_nat (32 * w + k - 64 * (w / 2))) with (32 * Z.to_nat (w - w / 2 * 2) + Z.to_nat k)%nat by lia.
  rewrite live_count_app. f_equal; [f_equal; lia|]. f_equal. lia.
Qed.

(** An object, or a granule inside one, is looked up at its new address. *)
Lemma gc_forward_live o y : o ∈ bl -> CL_HDR_MARKED (m o) = true -> o <= y < block_end m o -> (CL_ALIGN | y) ->
  gc_forward bump pins f y = new_addr o + (y - o).
Proof.
  intros Ho Hm Hy Hd. destruct (live_bounds o Ho) as (D1 & D2 & L1 & L2). pose proof align_pos as Hap. pose proof page_pos as Hpp.
  destruct (cursor_walk bl [] bump) as (_ & _ & Hw); [by rewrite app_nil_r|done|]. destruct (Hw o Ho Hm) as [W1 W2]. clear Hw.
  unfold gc_forward. rewrite aligned_not_immediate; [|eapply Z.divide_trans; [|exact Hd]; destruct align_cases as [->| ->];
    [by exists 1|by exists 2]|lia]. replace (y >=? bump) with false by lia.
  assert (Hb : granule_bit (gc_fwd_bits f) (Z.shiftr y GC_FWD_ALIGN_SHIFT) = true).
  { rewrite shift_granule. apply (final_bit o); [done|done|]. rewrite Z.mul_comm, <- div_align by done. done. }
  rewrite Hb. cbn [negb]. destruct (page_live y ltac:(lia) (ar_words _ _ _ (fw_arrays _ Hf))) as [Epop Hpop].
  cbn zeta in Epop. rewrite Epop. clear Epop Hb. set (pg := y / GC_FWD_PAGE) in *.
  assert (Hpg : 0 <= pg /\ pg * GC_FWD_PAGE <= y).
  { split; [apply Z.div_pos; lia|]. unfold pg. rewrite Z.mul_comm. apply Z.mul_div_le. lia. }
  assert (Hps : (CL_ALIGN | pg * GC_FWD_PAGE)) by (destruct page_size as [-> _]; exists (pg * 64); lia).
  assert (Ediv : pg * GC_FWD_PAGE / CL_ALIGN = 64 * pg).
  { destruct page_size as [-> _]. replace (pg * (64 * CL_ALIGN)) with (64 * pg * CL_ALIGN) by lia. apply Z.div_mul. lia. }
  pose proof (cursor_pages pins (gc_fwd_bits f) (gc_fwd_gap f) (pg * GC_FWD_PAGE) y ltac:(lia) Hps) as Epl.
  rewrite (inside_placed o) in Epl by done. rewrite Ediv in Epl.
  assert (Hpage : nth_word (gc_fwd_page f) (Z.shiftr y GC_FWD_PAGE_SHIFT) = cursor (pg * GC_FWD_PAGE)).
  { rewrite shift_page. apply (fw_pages _ Hf). split; [lia|]. destruct pages_range as (_ & _ & ->). fold pg. lia. }
  rewrite Hpage. set (n := live_count _ _ _) in *.
  assert (Hsh : Z.shiftl n GC_FWD_ALIGN_SHIFT = CL_ALIGN * n).
  { destruct align_shift as [E ?]. rewrite Z.shiftl_mul_pow2, <- E by lia. apply Z.mul_comm. }
  rewrite Hsh. clear Hsh Hpage. rewrite gc_fwd_pin_gaps_spec, granule_page by (done || lia). fold pg.
  assert (Hn : 0 <= n) by apply live_count_nonneg.
  assert (Hc : 0 <= cursor (pg * GC_FWD_PAGE)).
  { unfold cursor_at. pose proof (live_count_nonneg (gc_fwd_bits f) 0 (Z.to_nat (pg * GC_FWD_PAGE / CL_ALIGN))).
    pose proof (gap_sum_nonneg (fun p => p <? pg * GC_FWD_PAGE) pins (gc_fwd_gap f) (ar_gaps _ _ _ (fw_arrays _ Hf))). nia. }
  pose proof (gap_sum_nonneg (fun p => (pg * GC_FWD_PAGE <=? p) && (p <=? y)) pins (gc_fwd_gap f) (ar_gaps _ _ _ (fw_arrays _ Hf))) as Hgs.
  set (gs := gap_sum _ pins _) in *. assert (Hn2 : 0 <= CL_ALIGN * n) by (apply Z.mul_nonneg_nonneg; lia).
  rewrite (u32_small (cursor _ + _)) by lia. rewrite (u32_small gs) by lia.
  destruct (0 <? Z.of_nat (length pins)) eqn:El; [rewrite u32_small; lia|].
  assert (gs = 0); [|lia]. unfold gs. destruct pins; [done|cbn in El; lia].
Qed.

(** Every other word is left as it is. *)
Lemma gc_forward_other v : immediate v = true \/ bump <= v -> gc_forward bump pins f v = v.
Proof.
  unfold gc_forward. destruct (immediate v); [done|]. intros [?|Hv]; [done|]. by replace (v >=? bump) with true by lia.
Qed.

End Lookup.

End Pass2.

(** ** Pass 2 as a whole *)

Section Whole.
Context {L : Layout} {LL : LayoutLaws L}.

Lemma gc_fwd_alloc_fresh alloc_ok fail_over bump pins f :
  gc_fwd_alloc alloc_ok fail_over bump (length pins) = Some f -> fresh bump pins f.
Proof. unfold gc_fwd_alloc. by repeat case_match; intros; simplify_eq. Qed.

Lemma sorted_ascending l : Sorted Z.le l -> ascending l.
Proof.
  intros Hs%Sorted_StronglySorted; [|intros x y z; apply Z.le_trans]. induction Hs as [|x l Hs IH Hx].
  - intros i j y z _ Hy. done.
  - intros i j y z Hij Hy Hz. destruct i as [|i], j as [|j]; cbn in Hy, Hz; try lia; simplify_eq.
    + rewrite List.Forall_forall in Hx. apply Hx. apply list_elem_of_In. by eapply list_elem_of_lookup_2.
    + apply (IH i j y z); [lia|done|done].
Qed.

Lemma gc_compute_forwarding_spec m bump bl jit_pinned f0 :
  chain m bump CL_ALIGN bl -> (forall o, o ∈ bl -> (CL_ALIGN | CL_HDR_SIZE (m o))) -> bump + GC_FWD_PAGE <= 2 ^ 32 ->
  fresh bump jit_pinned f0 ->
  exists pins f, gc_compute_forwarding m bump jit_pinned f0 = (pins, f) /\
    pins ≡ₚ jit_pinned /\ ascending pins /\ forwarding m bump bl pins f.
Proof.
  intros Hc Ha Hb Hf. unfold gc_compute_forwarding.
  set (pins := if 1 <? Z.of_nat (length jit_pinned) then merge_sort Z.le jit_pinned else jit_pinned).
  assert (Hp : pins ≡ₚ jit_pinned) by (unfold pins; destruct (1 <? _); [apply merge_sort_Permutation|done]).
  assert (Hasc : ascending pins).
  { unfold pins. destruct (1 <? _) eqn:E.
    - apply sorted_ascending, Sorted_merge_sort. intros x y. lia.
    - intros i j x y Hij Hx Hy. apply lookup_lt_Some in Hx, Hy. lia. }
  assert (Hf' : fresh bump pins f0) by (unfold fresh in *; by rewrite Hp).
  destruct (walk_inv m bump bl pins Hc Ha Hasc Hb f0 Hf') as [last Hinv]. set (s := gc_walk _ _ _ _ _) in *.
  destruct (finish_pages m bump bl pins Hc Hb last s Hinv) as (np & page & -> & Hpage).
  eexists _, _. split; [reflexivity|]. split; [done|]. split; [done|]. split; cbn; [apply Hinv|done].
Qed.

End Whole.
