(* ===== verification/GcUpdate.v ===== *)
(** * Updating the references

    gc_compact.c, pass 3: every root slot and every slot of a live object is
    replaced by the forwarded value of its word, exactly once.  Forwarding is
    not idempotent, so a slot registered twice, or registered and visited by a
    root walk as well, must not be forwarded twice; the sorted list of
    gc_update_registered_roots sees to it.

    The forwarding function is a variable here.  The root walks are given by
    the slots they visit, in order: [threads] for gc_visit_thread_roots over
    all threads, [shared] for gc_visit_shared_roots, [registered] for the
    registered slots, which may repeat. *)

From Stdlib Require Import ZArith Lia ZifyBool.
From stdpp Require Import base option list sets sorting.
From S2P Require Import Prelude GcHeap GcGraph GcBits GcFwd GcLookup.
Local Open Scope Z_scope.

Section Update.
Context {L : Layout} (forward : Z -> Z).

Definition gc_update_slot (a : Z) (m : memory) : memory := put m a (forward (m a)).

Definition gc_update_children (ptr type : Z) (m : memory) : memory :=
  GC_WALK_OBJ_CHILDREN (fun m => m) gc_update_slot ptr type m.

Definition update_walk (l : list Z) (m : memory) : memory := foldl (fun m a => gc_update_slot a m) m l.

(** Is the slot one of those the walks visit? *)
Definition root_slot_independently_forwarded (walks : list Z) (slot : Z) : bool := bool_decide (slot ∈ walks).

(** The index of a copy of [slot] in the sorted list. *)
Fixpoint probe_search (fuel : nat) (buf : list Z) (slot lo hi : Z) : option Z :=
  match fuel with
  | O => None
  | S fuel =>
      if lo <? hi then
        let mid := (lo + hi) / 2 in
        if nth_word buf mid <? slot then probe_search fuel buf slot (mid + 1) hi
        else if nth_word buf mid >? slot then probe_search fuel buf slot lo mid
        else Some mid
      else None
  end.

(** while (mid > 0 && gc_root_slot_buf[mid - 1] == slot) mid--; *)
Fixpoint first_copy (buf : list Z) (slot : Z) (mid : nat) : nat :=
  match mid with
  | O => O
  | S k => if nth_word buf (Z.of_nat k) =? slot then first_copy buf slot k else mid
  end.

(** Flag the first copy of a visited slot. *)
Definition gc_alias_probe (buf : list Z) (slot : Z) (flags : list bool) : list bool :=
  match probe_search (S (length buf)) buf slot 0 (Z.of_nat (length buf)) with
  | Some mid => <[first_copy buf slot (Z.to_nat mid) := true]> flags
  | None => flags
  end.

(** Forward the entries that are neither a copy of the one before nor flagged. *)
Fixpoint update_entries (prev : option Z) (buf : list Z) (flags : list bool) (m : memory) : memory :=
  match buf, flags with
  | a :: buf, fl :: flags =>
      let m := if bool_decide (prev = Some a) then m else if (fl : bool) then m else gc_update_slot a m in
      update_entries (Some a) buf flags m
  | _, _ => m
  end.

(** With a buffer of [cap] entries, which may be replaced by a larger one. *)
Definition gc_update_registered_roots (alloc_ok : Z -> bool) (cap : Z) (registered walks : list Z) (m : memory) : memory :=
  let total := Z.of_nat (length registered) in
  if total =? 0 then m
  else
    let cap := if (total >? cap) && alloc_ok total then total else cap in
    if total >? cap then
      foldl (fun m a => if root_slot_independently_forwarded walks a then m else gc_update_slot a m) m registered
    else
      let buf := merge_sort Z.le registered in
      let flags := foldl (fun flags slot => gc_alias_probe buf slot flags) (replicate (length buf) false) walks in
      update_entries None buf flags m.

Definition gc_update_all_roots (alloc_ok : Z -> bool) (cap : Z) (threads registered shared : list Z) (m : memory) : memory :=
  let m := update_walk threads m in
  let m := gc_update_registered_roots alloc_ok cap registered (threads ++ shared) m in
  update_walk shared m.

(** Roots, then the children of every marked block. *)
Definition gc_update_all_references (alloc_ok : Z -> bool) (cap bump : Z) (threads registered shared : list Z)
  (m : memory) : memory :=
  let m := gc_update_all_roots alloc_ok cap threads registered shared m in
  gc_walk (fun m => m) (walk_fuel bump)
    (no_seek (fun off _ type m => if CL_HDR_MARKED (m off) then gc_update_children off type m else m))
    (gc_walk_begin bump) m.

End Update.

(** ** Each slot once *)

(** The memory in which exactly the slots of [l] are forwarded. *)
Definition forwarded (forward : Z -> Z) (l : list Z) (m m' : memory) : Prop :=
  forall a, m' a = if bool_decide (a ∈ l) then forward (m a) else m a.

Section Once.
Context (forward : Z -> Z).

Lemma forwarded_refl m : forwarded forward [] m m.
Proof. intros a. by rewrite bool_decide_eq_false_2 by apply not_elem_of_nil. Qed.

Lemma forwarded_trans l1 l2 m1 m2 m3 : (forall a, a ∈ l1 -> a ∉ l2) ->
  forwarded forward l1 m1 m2 -> forwarded forward l2 m2 m3 -> forwarded forward (l1 ++ l2) m1 m3.
Proof.
  intros Hd H1 H2 a. rewrite H2, H1. destruct (decide (a ∈ l1)) as [Ha|Ha], (decide (a ∈ l2)) as [Hb|Hb];
    rewrite ?(bool_decide_eq_true_2 (a ∈ l1)), ?(bool_decide_eq_true_2 (a ∈ l2)), ?(bool_decide_eq_false_2 (a ∈ l1)),
      ?(bool_decide_eq_false_2 (a ∈ l2)), ?bool_decide_eq_true_2, ?bool_decide_eq_false_2
      by (rewrite ?elem_of_app; tauto); try done. by apply Hd in Ha.
Qed.

Lemma forwarded_same l l' m m' : (forall a, a ∈ l <-> a ∈ l') -> forwarded forward l m m' -> forwarded forward l' m m'.
Proof. intros H Hf a. rewrite Hf. by rewrite (bool_decide_ext _ _ (H a)). Qed.

Lemma update_slot_forwarded a m : forwarded forward [a] m (gc_update_slot forward a m).
Proof.
  intros b. unfold gc_update_slot, put. destruct (b =? a) eqn:E.
  - apply Z.eqb_eq in E as ->. by rewrite bool_decide_eq_true_2 by apply list_elem_of_here.
  - rewrite bool_decide_eq_false_2; [done|]. rewrite list_elem_of_singleton. lia.
Qed.

Lemma update_walk_forwarded l : forall m, NoDup l -> forwarded forward l m (update_walk forward l m).
Proof.
  induction l as [|a l IH]; intros m Hnd; [apply forwarded_refl|]. apply NoDup_cons in Hnd as [Ha Hnd].
  apply (forwarded_trans [a] l m (gc_update_slot forward a m)); [|apply update_slot_forwarded|by apply IH].
  by intros b ->%list_elem_of_singleton.
Qed.

(** ** The sorted list *)

Section Sorted.
Context (buf : list Z) (Hasc : ascending buf).

Lemma probe_search_spec slot fuel : forall lo hi, 0 <= lo -> hi <= Z.of_nat (length buf) -> hi - lo < Z.of_nat fuel ->
  (forall (j : nat) x, Z.of_nat j < lo -> buf !! j = Some x -> x < slot) ->
  (forall (j : nat) x, hi <= Z.of_nat j -> buf !! j = Some x -> slot < x) ->
  match probe_search fuel buf slot lo hi with
  | Some mid => buf !! Z.to_nat mid = Some slot
  | None => slot ∉ buf
  end.
Proof.
  induction fuel as [|fuel IH]; intros lo hi Hlo Hhi Hf Hl Hh.
  - cbn. intros [j Hj]%list_elem_of_lookup.
      destruct (Z.lt_ge_cases (Z.of_nat j) lo) as [?|?]; [specialize (Hl j slot ltac:(lia) Hj)|specialize (Hh j slot ltac:(lia) Hj)]; lia.
  - cbn [probe_search]. destruct (lo <? hi) eqn:E.
    + assert (Hm : lo <= (lo + hi) / 2 < hi) by (split; [apply Z.div_le_lower_bound; lia|apply Z.div_lt_upper_bound; lia]).
      set (mid := (lo + hi) / 2) in *. clearbody mid. destruct (lookup_lt_is_Some_2 buf (Z.to_nat mid)) as [y Hy]; [lia|].
      assert (En : nth_word buf mid = y) by (unfold nth_word; by rewrite Hy). rewrite En.
      destruct (y <? slot) eqn:E1; [|destruct (y >? slot) eqn:E2].
      * apply IH; try done; try lia. intros j x Hj Hx. destruct (decide (j = Z.to_nat mid)) as [->|Hne]; [simplify_eq; lia|].
        pose proof (Hasc j (Z.to_nat mid) x y ltac:(lia) Hx Hy). lia.
      * apply IH; try done; try lia. intros j x Hj Hx. destruct (decide (j = Z.to_nat mid)) as [->|Hne]; [simplify_eq; lia|].
        pose proof (Hasc (Z.to_nat mid) j y x ltac:(lia) Hy Hx). lia.
      * rewrite Hy. f_equal. lia.
    + intros [j Hj]%list_elem_of_lookup.
      destruct (Z.lt_ge_cases (Z.of_nat j) lo) as [?|?]; [specialize (Hl j slot ltac:(lia) Hj)|specialize (Hh j slot ltac:(lia) Hj)]; lia.
Qed.

(** The copy the pass keeps. *)
Definition is_first (i : nat) (x : Z) : Prop :=
  buf !! i = Some x /\ forall j, (j < i)%nat -> buf !! j <> Some x.

Lemma first_copy_spec slot mid : buf !! mid = Some slot -> is_first (first_copy buf slot mid) slot.
Proof.
  induction mid as [|k IH]; intros H; cbn [first_copy]; [split; [done|lia]|].
  destruct (lookup_lt_is_Some_2 buf k) as [y Hy]; [apply lookup_lt_Some in H; lia|].
  assert (En : nth_word buf (Z.of_nat k) = y) by (unfold nth_word; by rewrite Nat2Z.id, Hy). rewrite En.
  destruct (y =? slot) eqn:E; [apply IH; rewrite Hy; f_equal; lia|]. split; [done|].
  intros j Hj Hx. destruct (decide (j = k)) as [->|Hne]; [simplify_eq; lia|].
  pose proof (Hasc j k slot y ltac:(lia) Hx Hy). pose proof (Hasc k (S k) y slot ltac:(lia) Hy H). lia.
Qed.

Lemma is_first_inj i j x : is_first i x -> is_first j x -> i = j.
Proof.
  intros [H1 H2] [H3 H4]. destruct (Nat.lt_trichotomy i j) as [H|[H|H]]; [|done|]; [by apply H4 in H|by apply H2 in H].
Qed.

(** After the walks, the first copies of the visited slots are flagged. *)
Lemma alias_flags walks : forall flags done, length flags = length buf ->
  (forall i x, is_first i x -> flags !! i = Some (bool_decide (x ∈ done))) ->
  let flags' := foldl (fun flags slot => gc_alias_probe buf slot flags) flags walks in
  length flags' = length buf /\ forall i x, is_first i x -> flags' !! i = Some (bool_decide (x ∈ done ++ walks)).
Proof.
  induction walks as [|w walks IH]; intros flags dn Hl H; cbn [foldl]; [rewrite app_nil_r; done|].
  assert (E : dn ++ w :: walks = (dn ++ [w]) ++ walks) by by rewrite <- app_assoc. rewrite E. apply IH; unfold gc_alias_probe.
  - destruct (probe_search _ _ _ _ _); rewrite ?length_insert; done.
  - intros i x Hi. pose proof (probe_search_spec w (S (length buf)) 0 (Z.of_nat (length buf))) as Hp.
    specialize (Hp ltac:(lia) ltac:(lia) ltac:(lia) ltac:(lia)).
    specialize (Hp (fun j x Hj Hx => ltac:(apply lookup_lt_Some in Hx; lia))).
    destruct (probe_search _ _ _ _ _) as [mid|].
    + apply first_copy_spec in Hp. destruct (decide (x = w)) as [->|Hne].
      * rewrite (is_first_inj _ _ _ Hi Hp). rewrite list_lookup_insert_eq.
        -- rewrite bool_decide_eq_true_2; [done|]. rewrite elem_of_app, list_elem_of_singleton. tauto.
        -- rewrite Hl. eapply lookup_lt_Some, Hp.
      * rewrite list_lookup_insert_ne; [|intros Heq; destruct Hi as [Hi _], Hp as [Hp _]; congruence].
        rewrite (H i x Hi). f_equal. apply bool_decide_ext. rewrite elem_of_app, list_elem_of_singleton. tauto.
    + rewrite (H i x Hi). f_equal. apply bool_decide_ext. rewrite elem_of_app, list_elem_of_singleton.
      split; [tauto|]. intros [?| ->]; [done|]. destruct Hi as [Hi _]. apply list_elem_of_lookup_2 in Hi. done.
Qed.

End Sorted.

Definition after (prev : option Z) (buf : list Z) : list Z := match prev with Some p => p :: buf | None => buf end.

Lemma ascending_tail x l : ascending (x :: l) -> ascending l.
Proof. intros H i j a b Hij. apply (H (S i) (S j)). lia. Qed.

Lemma ascending_head x l y : ascending (x :: l) -> y ∈ l -> x <= y.
Proof. intros H [j Hj]%list_elem_of_lookup. apply (H 0%nat (S j) x y); [lia|done|done]. Qed.

Lemma update_entries_spec (walks : list Z) buf : forall flags prev m, length flags = length buf -> ascending (after prev buf) ->
  (forall i x, is_first buf i x -> prev <> Some x -> flags !! i = Some (bool_decide (x ∈ walks))) ->
  forall x, update_entries forward prev buf flags m x =
    if bool_decide (x ∈ buf /\ (x ∉ walks) /\ prev <> Some x) then forward (m x) else m x.
Proof.
  induction buf as [|a buf IH]; intros flags prev m Hl Hasc Hfl x.
  - cbn. rewrite bool_decide_eq_false_2; [done|]. by intros (?%elem_of_nil & _).
  - destruct flags as [|fl flags]; [done|]. cbn [update_entries].
    set (m1 := if bool_decide (prev = Some a) then m else if fl then m else gc_update_slot forward a m).
    assert (Hasc' : ascending (a :: buf)) by (destruct prev; [by eapply ascending_tail|done]).
    rewrite (IH flags (Some a) m1); [|by injection Hl|done|].
    + assert (Hm1 : m1 x = if bool_decide (x = a /\ (a ∉ walks) /\ prev <> Some a) then forward (m x) else m x).
      { unfold m1. case_bool_decide as Hp; [rewrite bool_decide_eq_false_2 by tauto; done|].
        assert (Efl : fl = bool_decide (a ∈ walks)) by (apply (inj Some), (Hfl 0%nat a); [split; [done|lia]|done]).
        rewrite Efl. case_bool_decide as Hw; [by rewrite bool_decide_eq_false_2 by tauto|].
        rewrite (update_slot_forwarded a m x), (bool_decide_ext _ (x = a /\ (a ∉ walks) /\ prev <> Some a)); [done|].
        rewrite list_elem_of_singleton. tauto. }
      rewrite Hm1. destruct (decide (x = a)) as [->|Hne].
      * rewrite (bool_decide_eq_false_2 (a ∈ buf /\ _)) by tauto.
        rewrite (bool_decide_ext (a = a /\ _) (a ∈ a :: buf /\ (a ∉ walks) /\ prev <> Some a)); [done|].
        rewrite elem_of_cons. tauto.
      * rewrite (bool_decide_eq_false_2 (x = a /\ _)) by tauto.
        replace (bool_decide (x ∈ buf /\ (x ∉ walks) /\ Some a <> Some x))
          with (bool_decide (x ∈ a :: buf /\ (x ∉ walks) /\ prev <> Some x)); [done|]. apply bool_decide_ext.
        rewrite elem_of_cons. split; [intros ([?|?] & ? & ?); [done|]; split_and!; [done|done|congruence]|].
        intros (Hx & Hw & _). split_and!; [tauto|done|]. intros ->. cbn in Hasc.
        pose proof (ascending_head x (a :: buf) a Hasc (list_elem_of_here _ _)).
        pose proof (ascending_head a buf x Hasc' Hx). lia.
    + intros i y [Hi1 Hi2] Hy. apply (Hfl (S i) y).
      * split; [done|]. intros [|j] Hj Hx; [cbn in Hx; congruence|]. apply (Hi2 j); [lia|done].
      * intros ->. cbn in Hasc. pose proof (ascending_head y (a :: buf) a Hasc (list_elem_of_here _ _)).
        apply list_elem_of_lookup_2 in Hi1. pose proof (ascending_head a buf y Hasc' Hi1). assert (a = y) by lia. congruence.
Qed.

(** ** The roots *)

Lemma update_if_forwarded walks l : forall m, NoDup l ->
  forwarded forward (filter (fun a => a ∉ walks) l) m
    (foldl (fun m a => if root_slot_independently_forwarded walks a then m else gc_update_slot forward a m) m l).
Proof.
  induction l as [|a l IH]; intros m Hnd; [apply forwarded_refl|]. apply NoDup_cons in Hnd as [Ha Hnd]. cbn [foldl].
  unfold root_slot_independently_forwarded at 2. case_bool_decide as Hw.
  - rewrite filter_cons_False by tauto. by apply IH.
  - rewrite filter_cons_True by done. change (a :: filter (fun a => a ∉ walks) l) with ([a] ++ filter (fun a => a ∉ walks) l).
    eapply forwarded_trans; [|apply update_slot_forwarded|by apply IH].
    intros b ->%list_elem_of_singleton. rewrite list_elem_of_filter. tauto.
Qed.

(** The registered slots the walks do not visit are forwarded, each once: with
    the buffer for any registration, without it when no slot is registered twice. *)
Lemma registered_once alloc_ok cap registered walks m :
  NoDup registered \/ Z.of_nat (length registered) <= cap \/ alloc_ok (Z.of_nat (length registered)) = true ->
  forwarded forward (filter (fun a => a ∉ walks) registered) m
    (gc_update_registered_roots forward alloc_ok cap registered walks m).
Proof.
  intros H. unfold gc_update_registered_roots. set (total := Z.of_nat (length registered)) in *.
  destruct (total =? 0) eqn:E0.
  { unfold total in E0. assert (registered = []) as -> by (destruct registered; [done|cbn in E0; lia]). apply forwarded_refl. }
  set (cap' := if _ && _ then total else cap). destruct (total >? cap') eqn:Ec.
  - apply update_if_forwarded. destruct H as [?|[H|H]]; [done|..].
    + exfalso. unfold cap' in Ec. destruct (_ && _); lia.
    + exfalso. unfold cap' in Ec. rewrite H, andb_true_r in Ec. destruct (total >? cap) eqn:E; lia.
  - set (buf := merge_sort Z.le registered). assert (Hp : buf ≡ₚ registered) by apply merge_sort_Permutation.
    assert (Hasc : ascending buf) by (apply sorted_ascending, Sorted_merge_sort; intros x y; lia).
    destruct (alias_flags buf Hasc walks (replicate (length buf) false) []) as [F1 F2].
    { by rewrite length_replicate. }
    { intros i x [Hi _]. rewrite bool_decide_eq_false_2 by apply not_elem_of_nil. apply lookup_replicate_2.
      by eapply lookup_lt_Some. }
    intros a. rewrite (update_entries_spec walks buf) by (done || (intros i x Hi _; by apply F2)).
    rewrite (bool_decide_ext _ (a ∈ filter (fun a => a ∉ walks) registered)); [done|].
    rewrite list_elem_of_filter, Hp. split; [tauto|]. intros [? ?]. done.
Qed.

Lemma roots_once alloc_ok cap threads registered shared m : NoDup (threads ++ shared) ->
  NoDup registered \/ Z.of_nat (length registered) <= cap \/ alloc_ok (Z.of_nat (length registered)) = true ->
  forwarded forward (threads ++ registered ++ shared) m
    (gc_update_all_roots forward alloc_ok cap threads registered shared m).
Proof.
  intros Hnd H. apply NoDup_app in Hnd as (N1 & N2 & N3). unfold gc_update_all_roots.
  set (fr := filter (fun a => a ∉ threads ++ shared) registered).
  apply (forwarded_same ((threads ++ fr) ++ shared)).
  { intros a. unfold fr. rewrite !elem_of_app, list_elem_of_filter, elem_of_app. destruct (decide (a ∈ threads)), (decide (a ∈ shared)); tauto. }
  eapply forwarded_trans; [|eapply forwarded_trans; [|by apply update_walk_forwarded|by apply registered_once]|by apply update_walk_forwarded].
  - intros a [Ha|Ha]%elem_of_app; [by apply N2|]. unfold fr in Ha. apply list_elem_of_filter in Ha as [Ha _].
    rewrite elem_of_app in Ha. tauto.
  - intros a Ha Hf. unfold fr in Hf. apply list_elem_of_filter in Hf as [Hf _]. rewrite elem_of_app in Hf. tauto.
Qed.

End Once.

(** ** The heap *)

Section Heap.
Context {L : Layout} {LL : LayoutLaws L} (forward : Z -> Z) (arena_size bump : Z) (m1 : memory) (bl : list Z).

Abbreviation is_live o := (o ∈ bl /\ CL_HDR_MARKED (m1 o) = true).

Context (Hchain : chain m1 bump CL_ALIGN bl) (Hbump : bump <= arena_size).
Context (Hfits : forall o, is_live o -> obj_fits arena_size m1 o).
Context (Hkind : forall o a, is_live o -> a ∈ slots_of m1 o -> same_kind (m1 a) (forward (m1 a))).
Context (Hapart : forall o o' a, is_live o -> is_live o' -> o <> o' -> a ∈ slots_of m1 o -> a ∉ slots_of m1 o').

(** The slots of the live objects among [l]. *)
Definition live_slots (l : list Z) : list Z :=
  concat (map (fun o => if CL_HDR_MARKED (m1 o) then slots_of m1 o else []) l).

Lemma elem_of_live_slots a l : a ∈ live_slots l <-> exists o, o ∈ l /\ CL_HDR_MARKED (m1 o) = true /\ a ∈ slots_of m1 o.
Proof.
  unfold live_slots. rewrite list_elem_of_In, List.in_concat. split.
  - intros (x & Hx & Ha). apply List.in_map_iff in Hx as (o & <- & Ho).
    destruct (CL_HDR_MARKED (m1 o)) eqn:E; [|done].
    exists o. split; [by apply list_elem_of_In|]. split; [done|by apply list_elem_of_In].
  - intros (o & Ho & Hm & Ha). exists (slots_of m1 o). rewrite list_elem_of_In in Ha. split; [|done].
    apply List.in_map_iff. exists o. rewrite Hm. split; [done|]. by apply list_elem_of_In.
Qed.

Lemma live_slots_snoc l o : live_slots (l ++ [o]) = live_slots l ++ (if CL_HDR_MARKED (m1 o) then slots_of m1 o else []).
Proof. unfold live_slots. rewrite map_app, concat_app. cbn. by rewrite app_nil_r. Qed.

(** A slot is not a header, and within a block it is one of that block. *)
Lemma slot_not_header o a : is_live o -> a ∈ slots_of m1 o -> a ∉ bl.
Proof.
  intros Ho Ha. apply (inner_no_header arena_size bump m1 bl o); [done|done|apply Ho|].
  by apply slot_place; [apply Hfits|].
Qed.

Lemma slot_in_own o o' a : is_live o -> o' ∈ bl -> a ∈ slots_of m1 o -> o' <= a < block_end m1 o' -> o = o'.
Proof.
  intros Ho Ho' Ha Hr. destruct (slot_place arena_size m1 o a (Hfits o Ho) Ha) as [Hi|Hi].
  - destruct (decide (o = o')) as [|Hne]; [done|].
    destruct (chain_disjoint _ _ _ _ o o' Hchain (proj1 Ho) Ho' Hne); lia.
  - destruct (block_inside arena_size bump m1 bl o' Hchain Hbump Ho'). destruct (chain_bounds _ _ _ _ Hchain) as [_ Hb].
    specialize (Hb o' Ho'). destruct Hi; lia.
Qed.

Lemma children_forwarded o cur_m : is_live o ->
  (forall a, o <= a < block_end m1 o \/ a ∈ slots_of m1 o -> cur_m a = m1 a) ->
  forwarded forward (slots_of m1 o) cur_m (gc_update_children forward o (CL_HDR_TYPE (cur_m o)) cur_m).
Proof.
  intros Ho Hcur. pose proof (Hfits o Ho) as Hf. destruct (chain_bounds _ _ _ _ Hchain) as [_ Hb]. specialize (Hb o (proj1 Ho)).
  assert (Eo : cur_m o = m1 o) by (apply Hcur; left; unfold block_end in *; lia). rewrite Eo.
  assert (Hso : slots_only m1 cur_m o).
  { split; [by rewrite Eo..| |].
    - intros a Ha _. apply Hcur. left. lia.
    - intros a Ha. rewrite Hcur by tauto. apply same_kind_refl. }
  pose proof (slots_only_shape arena_size m1 cur_m o Hf Hso) as Hsh.
  assert (Ec : children cur_m o (CL_HDR_TYPE (m1 o)) = slots_of m1 o) by by apply same_shape_children.
  unfold gc_update_children. rewrite (walk_children (fun m => m) (gc_update_slot forward) (fun pre m' =>
    (exists post, slots_of m1 o = pre ++ post) /\ forwarded forward pre cur_m m')).
  - rewrite Ec. apply update_walk_forwarded, Hf.
  - rewrite Ec. intros pre a post s' El [_ Hs']. split; [exists post; by rewrite El, <- app_assoc|].
    eapply forwarded_trans; [|exact Hs'|apply update_slot_forwarded].
    pose proof (fit_NoDup _ _ _ Hf) as Hnd. rewrite El in Hnd. apply NoDup_app in Hnd as (_ & Hnd & _).
    intros b Hbp ->%list_elem_of_singleton. apply (Hnd a Hbp), list_elem_of_here.
  - intros pre s' [[post El] Hs']. eapply same_shape_trans; [apply same_shape_sym, Hsh|].
    apply (slots_only_shape arena_size); [done|]. assert (Hin : forall a, a ∈ pre -> a ∈ slots_of m1 o) by (intros a; rewrite El, elem_of_app; tauto).
    assert (Hoo : o ∉ pre) by (intros Hx; exact (slot_not_header o o Ho (Hin o Hx) (proj1 Ho))).
    split; [rewrite Hs', bool_decide_eq_false_2, Eo by done; done..| |].
    + intros a Ha Hn. rewrite Hs', bool_decide_eq_false_2 by (intros Hp; exact (Hn (Hin a Hp))). apply Hcur. left. lia.
    + intros a Ha. rewrite Hs', Hcur by tauto. case_bool_decide; [by apply (Hkind o)|apply same_kind_refl].
  - split; [by exists (slots_of m1 o)|apply forwarded_refl].
Qed.

(** The whole of pass 3: every root slot and every slot of a live object. *)
Lemma references_forwarded alloc_ok cap threads registered shared :
  NoDup (threads ++ shared) ->
  NoDup registered \/ Z.of_nat (length registered) <= cap \/ alloc_ok (Z.of_nat (length registered)) = true ->
  (forall a, a ∈ threads ++ registered ++ shared -> outside arena_size a) ->
  (forall o a, is_live o -> a ∈ threads ++ registered ++ shared -> a ∉ slots_of m1 o) ->
  forwarded forward ((threads ++ registered ++ shared) ++ live_slots bl) m1
    (gc_update_all_references forward alloc_ok cap bump threads registered shared m1).
Proof.
  intros Hnd Hreg Hout Hroots. pose proof (roots_once forward alloc_ok cap threads registered shared m1 Hnd Hreg) as H0.
  unfold gc_update_all_references. set (m2 := gc_update_all_roots _ _ _ _ _ _ _) in *.
  set (roots := threads ++ registered ++ shared) in *.
  set (I := fun (l : list Z) (m : memory) => exists dn, bl = dn ++ l /\ forwarded forward (roots ++ live_slots dn) m1 m).
  set (body := fun off _ type m => _).
  assert (Hhdr : forall dn l m o, bl = dn ++ l -> forwarded forward (roots ++ live_slots dn) m1 m -> o ∈ bl -> m o = m1 o).
  { intros dn l m o Ebl Hm Ho. rewrite Hm, bool_decide_eq_false_2; [done|]. rewrite elem_of_app, elem_of_live_slots.
    intros [Hr|(o' & Ho' & Hmo & Ha)].
    - destruct (block_inside arena_size bump m1 bl o Hchain Hbump Ho). destruct (Hout o Hr); lia.
    - apply (slot_not_header o' o); [split; [rewrite Ebl, elem_of_app; tauto|done]|done|done]. }
  assert (H : I [] (gc_walk (fun m => m) (walk_fuel bump) (no_seek body) (gc_walk_begin bump) m2)).
  { apply (gc_walk_rule (fun m => m) bump I) with (l := bl).
    - intros o l m (dn & Ebl & Hm) Hc m'. assert (Hob : o ∈ bl) by (rewrite Ebl, elem_of_app; right; apply list_elem_of_here).
      assert (Ebl' : bl = (dn ++ [o]) ++ l) by by rewrite <- app_assoc.
      pose proof (Hhdr dn (o :: l) m o Ebl Hm Hob) as Eo.
      assert (G : forwarded forward (roots ++ live_slots (dn ++ [o])) m1 m').
      { unfold m', body. rewrite Eo, live_slots_snoc. destruct (CL_HDR_MARKED (m1 o)) eqn:Em; [|by rewrite app_nil_r].
        rewrite app_assoc. assert (Hol : is_live o) by done.
        assert (Hnot : forall a, o <= a < block_end m1 o \/ a ∈ slots_of m1 o -> a ∉ roots ++ live_slots dn).
        { intros a Ha. rewrite elem_of_app, elem_of_live_slots. intros [Hr|(o' & Ho' & Hmo & Ha')].
          - destruct Ha as [Ha|Ha]; [|by apply (Hroots o a)]. destruct (block_inside arena_size bump m1 bl o Hchain Hbump Hob).
            destruct (chain_bounds _ _ _ _ Hchain) as [_ Hb]. specialize (Hb o Hob). destruct (Hout a Hr); lia.
          - assert (Hne : o' <> o).
            { intros ->. rewrite Ebl in Hchain. apply chain_NoDup, NoDup_app in Hchain as (_ & Hd & _).
              apply (Hd o Ho'), list_elem_of_here. }
            assert (Hol' : is_live o') by (split; [rewrite Ebl, elem_of_app; tauto|done]). destruct Ha as [Ha|Ha].
            + apply Hne. by apply (slot_in_own o' o a).
            + by apply (Hapart o' o a). }
        rewrite <- Eo. eapply forwarded_trans; [|exact Hm|apply children_forwarded; [done|]].
        - intros a Ha Hs. by apply (Hnot a); [right|].
        - intros a Ha. rewrite Hm, bool_decide_eq_false_2 by auto. done. }
      split; [by exists (dn ++ [o])|]. destruct (walk_next_step _ _ _ _ _ Hc) as (_ & _ & Hc').
      eapply blocks_ext; [exact Hc'|].
      intros x Hx. assert (Hxb : x ∈ dn ++ o :: l) by (rewrite elem_of_app, elem_of_cons; tauto). 
      rewrite <- Ebl in Hxb. rewrite (Hhdr _ _ m x Ebl Hm Hxb). by rewrite (Hhdr _ _ m' x Ebl' G Hxb).
    - eapply walk_fuel_enough; [|exact Hchain]. pose proof align_pos. lia.
    - eapply blocks_ext; [exact Hchain|]. intros o Ho. rewrite H0, bool_decide_eq_false_2; [done|].
      destruct (block_inside arena_size bump m1 bl o Hchain Hbump Ho). intros Hr. destruct (Hout o Hr); lia.
    - exists []. split; [done|]. change (live_slots []) with (@nil Z). by rewrite app_nil_r. }
  destruct H as (dn & Ebl & Hm). rewrite app_nil_r in Ebl. by subst dn.
Qed.

End Heap.

(** ** The roots *)

(** C14: Forwarding is not idempotent.  If the walks of the threads and of the
    shared tables visit no slot twice, every root slot is forwarded exactly once,
    however often it is registered besides: a visited slot by its walk alone, any
    other registered slot by the sorted list; and no other word changes.  When
    the list cannot be allocated, every registered slot is forwarded as it comes,
    and the claim is made only for lists without duplicates
    ([registered_twice_without_list]). *)
Theorem gc_update_all_roots_once forward alloc_ok cap threads registered shared m :
  NoDup (threads ++ shared) ->
  NoDup registered \/ Z.of_nat (length registered) <= cap \/ alloc_ok (Z.of_nat (length registered)) = true ->
  forall a, gc_update_all_roots forward alloc_ok cap threads registered shared m a =
    if bool_decide (a ∈ threads ++ registered ++ shared) then forward (m a) else m a.
Proof. intros Hnd Hreg. by apply roots_once. Qed.

(** The slot 4 registered twice and visited by a thread, and forwarding by 1. *)
Example gc_update_all_roots_once_witness :
  let m' := gc_update_all_roots (fun v => v + 1) (fun _ => true) 1 [4; 8] [12; 4; 12; 4] [16] (fun a => 10 * a) in
  m' 4 = 41 /\ m' 12 = 121 /\ m' 20 = 200.
Proof.
  pose proof (gc_update_all_roots_once (fun v => v + 1) (fun _ => true) 1 [4; 8] [12; 4; 12; 4] [16] (fun a => 10 * a)) as H.
  cbv zeta. rewrite !H by first [by right; right|apply (bool_decide_unpack _); by vm_compute]. by vm_compute.
Defined.

(** Without the list a slot that is registered twice is forwarded twice: what
    the comment of gc_update_registered_roots accepts for that case. *)
Lemma registered_twice_without_list :
  gc_update_all_roots (fun v => v + 1) (fun _ => false) 1 [] [4; 4] [] (fun a => 10 * a) 4 = 42.
Proof. by vm_compute. Qed.
