(* ===== verification/GcSlide.v ===== *)
(** * The slide

    gc_compact.c, pass 4: the live objects move down to their new addresses,
    the holes below pinned objects become free blocks, and the bump front ends
    up behind the last object. *)

From Stdlib Require Import ZArith Lia ZifyBool.
From stdpp Require Import base option list sets sorting.
From S2P Require Import Prelude GcHeap GcGraph GcSweep.
From S2P Require Import GcBits GcFwd GcLookup.
Local Open Scope Z_scope.

Definition CL_MIN_ALLOC_SIZE : Z := 16.

(** The next piece of a free gap of [total] bytes: at most what a header holds,
    aligned, and never leaving less than a free block's header. *)
Definition gc_free_gap_chunk (total align : Z) : Z :=
  if total >? CL_HDR_SIZE_MASK then
    let chunk := Z.land CL_HDR_SIZE_MASK (Z.lnot (align - 1)) in
    if u32 (total - chunk) <? sizeof_FreeBlock then chunk - CL_MIN_ALLOC_SIZE else chunk
  else total.

Section Slide.
Context {L : Layout} (gc_finalize_dead : memory -> Z -> memory).

(** Free blocks over [offset, offset + total). *)
Fixpoint gc_make_free_gap (fuel : nat) (offset total : Z) (h : CL_Heap) : CL_Heap :=
  match fuel with
  | O => h
  | S fuel =>
      if total >? 0 then
        let chunk := gc_free_gap_chunk total CL_ALIGN in
        if chunk <? sizeof_FreeBlock then heap_put offset (Z.lor (u32 (Z.shiftl CL_TYPE_DEAD 24)) chunk) h
        else gc_make_free_gap fuel (offset + chunk) (total - chunk) (push_free offset chunk h)
      else h
  end.

Definition memmove (m : memory) (dst src n : Z) : memory :=
  fun a => if (dst <=? a) && (a <? dst + n) then m (a - dst + src) else m a.

Record Slide : Type := { sl_heap : CL_Heap; sl_place : GcPlace; sl_fill : Z; sl_live : Z }.

Definition slide_block (pins : list Z) (off size type : Z) (s : Slide) : Slide :=
  let h := sl_heap s in
  if CL_HDR_MARKED (hp_mem h off) then
    let '(new_off, pl, _) := gc_place pins off size false (sl_place s) [] in
    let h := heap_put off (CL_HDR_CLR_MARK (hp_mem h off)) h in
    let h := if new_off >? sl_fill s
             then gc_make_free_gap (S (Z.to_nat (new_off - sl_fill s))) (sl_fill s) (new_off - sl_fill s) h else h in
    let h := if new_off =? off then h else heap_mem (memmove (hp_mem h) new_off off size) h in
    {| sl_heap := h; sl_place := pl; sl_fill := new_off + size; sl_live := u32 (sl_live s + size) |}
  else {| sl_heap := heap_mem (gc_finalize_dead (hp_mem h) off) h; sl_place := sl_place s;
          sl_fill := sl_fill s; sl_live := sl_live s |}.

Definition gc_slide (pins : list Z) (h : CL_Heap) : CL_Heap :=
  let s := gc_walk (fun s => hp_mem (sl_heap s)) (walk_fuel (bump h)) (no_seek (slide_block pins)) (gc_walk_begin (bump h))
             {| sl_heap := set_free_list 0 h; sl_place := {| cur := CL_ALIGN; pin_i := 0 |};
                sl_fill := CL_ALIGN; sl_live := 0 |} in
  set_total (sl_live s) (set_bump (sl_fill s) (sl_heap s)).

(** The addresses the placement rule gives the marked blocks of [l], in order. *)
Fixpoint placements (m : memory) (pins l : list Z) (pl : GcPlace) : list (Z * Z) :=
  match l with
  | [] => []
  | o :: l =>
      if CL_HDR_MARKED (m o) then
        let '(n, pl, _) := gc_place pins o (CL_HDR_SIZE (m o)) false pl [] in (o, n) :: placements m pins l pl
      else placements m pins l pl
  end.

End Slide.

(** ** Free gaps *)

(** Pieces are aligned free blocks that leave nothing or another free block. *)
Lemma gc_free_gap_chunk_spec total align : align = 4 \/ align = 8 -> (align | total) ->
  sizeof_FreeBlock <= total < 2 ^ 32 ->
  let chunk := gc_free_gap_chunk total align in
  sizeof_FreeBlock <= chunk <= CL_HDR_SIZE_MASK /\ (align | chunk) /\ chunk <= total /\
  (total = chunk \/ sizeof_FreeBlock <= total - chunk).
Proof.
  intros Ha Hd Ht. unfold gc_free_gap_chunk, sizeof_FreeBlock, CL_MIN_ALLOC_SIZE, CL_HDR_SIZE_MASK in *.
  destruct (total >? 8388607) eqn:E; cbv zeta; [|split_and!; lia || done].
  destruct Ha as [->| ->].
  - change (Z.land 8388607 (Z.lnot (4 - 1))) with 8388604. destruct Hd as [k ->].
    rewrite u32_small by lia. destruct (_ <? 8) eqn:E8; split_and!; try lia; first [by exists 2097147|by exists 2097151].
  - change (Z.land 8388607 (Z.lnot (8 - 1))) with 8388600. destruct Hd as [k ->].
    rewrite u32_small by lia. destruct (_ <? 8) eqn:E8; split_and!; try lia; first [by exists 1048573|by exists 1048575].
Qed.

(** The heap [h'] is [h] with the free blocks [fb] over [offset, offset + total). *)
Record gap_filled {L : Layout} (offset total : Z) (fl fb : list Z) (h h' : CL_Heap) : Prop := {
  gf_bump : bump h' = bump h;
  gf_mem : forall a, ~ (offset <= a < offset + total) -> hp_mem h' a = hp_mem h a;
  gf_chain : chain (hp_mem h') (offset + total) offset fb;
  gf_blocks : forall o, o ∈ fb -> is_free_block (hp_mem h') o;
  gf_free : free_chain (hp_mem h') (free_list h') (reverse fb ++ fl) }.

Lemma make_free_gap_spec {L : Layout} {LL : LayoutLaws L} fuel : forall offset total fl h,
  (Z.to_nat total < fuel)%nat -> total = 0 \/ sizeof_FreeBlock <= total -> total < 2 ^ 32 -> (CL_ALIGN | total) -> 0 < offset ->
  free_chain (hp_mem h) (free_list h) fl -> (forall b, b ∈ fl -> b + 8 <= offset) ->
  exists fb, gap_filled offset total fl fb h (gc_make_free_gap fuel offset total h).
Proof.
  induction fuel as [|fuel IH]; intros offset total fl h Hf Ht Hlt Hd Ho Hfc Hfl; [lia|]. cbn [gc_make_free_gap].
  destruct (total >? 0) eqn:E.
  2: { exists []. assert (total = 0) as -> by (unfold sizeof_FreeBlock in Ht; lia). split; try done.
    - rewrite Z.add_0_r. constructor.
    - by intros o ?%elem_of_nil. }
  destruct (gc_free_gap_chunk_spec total CL_ALIGN align_cases Hd) as (C1 & C2 & C3 & C4); [unfold sizeof_FreeBlock in *; lia|].
  set (chunk := gc_free_gap_chunk total CL_ALIGN) in *. clearbody chunk. replace (chunk <? sizeof_FreeBlock) with false by lia.
  set (h1 := push_free offset chunk h). unfold sizeof_FreeBlock in *.
  assert (E0 : hp_mem h1 offset = chunk) by (unfold h1; cbn; rewrite put_ne, put_eq by lia; done).
  assert (E4 : hp_mem h1 (offset + 4) = free_list h) by (unfold h1; cbn; by rewrite put_eq).
  assert (Em : forall a, ~ (offset <= a < offset + chunk) -> hp_mem h1 a = hp_mem h a) by (intros a Ha; unfold h1; cbn; rewrite !put_ne by lia; done).
  destruct (IH (offset + chunk) (total - chunk) (offset :: fl) h1) as (fb & [G1 G2 G3 G4 G5]); try lia.
  - by apply Z.divide_sub_r.
  - constructor; [lia|]. rewrite E4. eapply free_chain_ext; [done|]. intros b Hb. specialize (Hfl b Hb). apply Em. lia.
  - intros b [->|Hb]%elem_of_cons; [lia|]. specialize (Hfl b Hb). lia.
  - replace (offset + chunk + (total - chunk)) with (offset + total) in * by lia.
    set (h2 := gc_make_free_gap _ _ _ _) in *. assert (E2 : hp_mem h2 offset = chunk) by (rewrite G2 by lia; done).
    destruct (raw_size_header chunk) as (Es & _ & _); [lia|]. exists (offset :: fb). split.
    + by rewrite G1.
    + intros a Ha. rewrite G2 by lia. apply Em. lia.
    + constructor; rewrite E2, Es; [lia|done].
    + intros o [->|Ho']%elem_of_cons; [|by apply G4]. unfold is_free_block, sizeof_FreeBlock. rewrite E2. split; [lia|done].
    + rewrite reverse_cons, <- app_assoc. done.
Qed.

(** C15: A gap of any size below 4 GB is covered by a chain of aligned free blocks
    that the free list gains in front; nothing outside the gap is written, and
    no piece is too small for a free block's header. *)
Theorem gc_make_free_gap_correct {L : Layout} {LL : LayoutLaws L} offset total fl h :
  total = 0 \/ sizeof_FreeBlock <= total -> total < 2 ^ 32 -> (CL_ALIGN | total) -> 0 < offset ->
  free_chain (hp_mem h) (free_list h) fl -> (forall b, b ∈ fl -> b + 8 <= offset) ->
  let h' := gc_make_free_gap (S (Z.to_nat total)) offset total h in
  bump h' = bump h /\ (forall a, ~ (offset <= a < offset + total) -> hp_mem h' a = hp_mem h a) /\
  exists fb, chain (hp_mem h') (offset + total) offset fb /\ (forall o, o ∈ fb -> is_free_block (hp_mem h') o) /\
    free_chain (hp_mem h') (free_list h') (reverse fb ++ fl).
Proof.
  intros Ht Hlt Hd Ho Hfc Hfl h'. destruct (make_free_gap_spec (S (Z.to_nat total)) offset total fl h) as (fb & [G1 G2 G3 G4 G5]); try done; [lia|].
  split; [done|]. split; [done|]. by exists fb.
Qed.

(** Under alignment 4 a gap of 4 bytes more than a header's largest aligned size
    leaves 20 bytes for the second block, not 4. *)
Definition empty_heap : CL_Heap := {| hp_mem := fun _ => 0; bump := 2 ^ 24; free_list := 0; total_allocated := 0 |}.

Example gc_make_free_gap_correct_witness :
  (exists fb, free_chain (hp_mem (gc_make_free_gap (L := ilp32 0) (S (Z.to_nat 8388608)) 4 8388608 empty_heap))
    (free_list (gc_make_free_gap (L := ilp32 0) (S (Z.to_nat 8388608)) 4 8388608 empty_heap)) (reverse fb ++ [])) /\
  gc_free_gap_chunk 8388608 4 = 8388588 /\ gc_free_gap_chunk 20 4 = 20.
Proof.
  split; [|by vm_compute]. pose proof (gc_make_free_gap_correct (L := ilp32 0) 4 8388608 [] empty_heap) as H.
  destruct H as (_ & _ & fb & _ & _ & H).
  - by right.
  - done.
  - by exists 2097152.
  - done.
  - constructor.
  - by intros b ?%elem_of_nil.
  - by exists fb.
Defined.

(** ** The slide of one block *)

Section Proof.
Context {L : Layout} {LL : LayoutLaws L} (gc_finalize_dead : memory -> Z -> memory).
Context (m3 : memory) (bmp : Z) (bl pins : list Z) (f : GcFwd).
Context (Hfin : finalize_local gc_finalize_dead).
Context (Hchain : chain m3 bmp CL_ALIGN bl) (Hbump : bmp + GC_FWD_PAGE <= 2 ^ 32).
Context (Halign : forall o, o ∈ bl -> (CL_ALIGN | CL_HDR_SIZE (m3 o))).
Context (Hmin : forall o, o ∈ bl -> sizeof_FreeBlock <= CL_HDR_SIZE (m3 o)).
Context (Hasc : ascending pins) (Hf : forwarding m3 bmp bl pins f).

Abbreviation cursor := (cursor_at pins (gc_fwd_bits f) (gc_fwd_gap f)).
Abbreviation new := (new_addr pins f).
Abbreviation mem s := (hp_mem (sl_heap s)).

(** The blocks [dn] below [off] are done: the new chain [pre] with the free blocks [fl]. *)
Record slid (dn pre fl : list Z) (off : Z) (s : Slide) : Prop := {
  sd_bump : bump (sl_heap s) = bmp;
  sd_done : chain m3 off CL_ALIGN dn;
  sd_align : (CL_ALIGN | cursor off);
  sd_cur : cur (sl_place s) = cursor off /\ sl_fill s = cursor off;
  sd_idx : forall (j : nat) p, (j < pin_i (sl_place s))%nat -> pins !! j = Some p -> p < off;
  sd_live : sl_live s = live_bytes m3 dn;
  sd_ahead : forall a, off <= a \/ a < CL_ALIGN -> mem s a = m3 a;
  sd_obj : forall o, o ∈ dn -> CL_HDR_MARKED (m3 o) = true -> new o ∈ pre /\ mem s (new o) = CL_HDR_CLR_MARK (m3 o) /\
    forall k, 0 < k < CL_HDR_SIZE (m3 o) -> mem s (new o + k) = m3 (o + k);
  sd_chain : chain (mem s) (cursor off) CL_ALIGN pre;
  sd_rest : forall x, x ∈ pre -> (exists o, o ∈ dn /\ CL_HDR_MARKED (m3 o) = true /\ x = new o) \/ x ∈ fl;
  sd_free : free_chain (mem s) (free_list (sl_heap s)) fl;
  sd_fl : forall x, x ∈ fl -> x ∈ pre /\ is_free_block (mem s) x /\
    forall o, o ∈ dn -> CL_HDR_MARKED (m3 o) = true -> x <> new o;
  sd_NoDup : NoDup fl;
  sd_dense : pins = [] -> fl = [] /\ cursor off = CL_ALIGN + live_bytes m3 dn }.

(** The blocks of [dn] end below the cursor. *)
Lemma slid_bounds dn pre fl off s l : slid dn pre fl off s -> bl = dn ++ l ->
  CL_ALIGN <= cursor off <= off /\ (cursor off = off \/ cursor off + sizeof_FreeBlock <= off) /\
  (forall o, o ∈ dn -> CL_HDR_MARKED (m3 o) = true ->
    CL_ALIGN <= new o <= o /\ new o + CL_HDR_SIZE (m3 o) <= cursor off /\ o + CL_HDR_SIZE (m3 o) <= off) /\
  (forall x, x ∈ pre -> CL_ALIGN <= x /\ block_end (mem s) x <= cursor off /\ x < cursor off) /\
  (forall x, x ∈ fl -> x + 8 <= cursor off).
Proof.
  intros Hs Ebl. destruct (cursor_walk m3 bmp bl pins Hchain Halign f Hf Hmin dn l off Ebl (sd_done _ _ _ _ _ Hs)) as (W1 & W2 & W3).
  destruct (chain_bounds _ _ _ _ (sd_chain _ _ _ _ _ Hs)) as [_ Hpb], (chain_bounds _ _ _ _ (sd_done _ _ _ _ _ Hs)) as [_ Hdb].
  split_and!; try done; try lia.
  - intros o Ho Hm. specialize (W3 o Ho Hm). specialize (Hdb o Ho). unfold block_end in Hdb. lia.
  - intros x Hx. specialize (Hpb x Hx). unfold block_end in *. lia.
  - intros x Hx. destruct (sd_fl _ _ _ _ _ Hs x Hx) as (Hp & [Hb _] & _). specialize (Hpb x Hp).
    unfold block_end, sizeof_FreeBlock in *. destruct (raw_size_header (mem s x)) as (E & _); lia.
Qed.

(** A step that writes only from the cursor on keeps the blocks placed so far. *)
Record kept (dn pre fl : list Z) (off : Z) (s : Slide) (m' : memory) : Prop := {
  kp_obj : forall o, o ∈ dn -> CL_HDR_MARKED (m3 o) = true -> m' (new o) = CL_HDR_CLR_MARK (m3 o) /\
    forall k, 0 < k < CL_HDR_SIZE (m3 o) -> m' (new o + k) = m3 (o + k);
  kp_chain : chain m' (cursor off) CL_ALIGN pre;
  kp_free : free_chain m' (free_list (sl_heap s)) fl;
  kp_fl : forall x, x ∈ fl -> is_free_block m' x }.

Lemma slid_kept dn pre fl off s l m' : slid dn pre fl off s -> bl = dn ++ l ->
  (forall a, CL_ALIGN <= a < cursor off -> m' a = mem s a) -> kept dn pre fl off s m'.
Proof.
  intros Hs Ebl Hm'. destruct (slid_bounds _ _ _ _ _ _ Hs Ebl) as (B1 & _ & B3 & B4 & B5). pose proof align_pos.
  split.
  - intros o Ho Hm. destruct (B3 o Ho Hm) as (C1 & C2 & C3). destruct (sd_obj _ _ _ _ _ Hs o Ho Hm) as (_ & E1 & E2).
    assert (0 < CL_HDR_SIZE (m3 o)).
    { assert (Hob : o ∈ bl) by (rewrite Ebl, elem_of_app; tauto). specialize (Hmin o Hob). unfold sizeof_FreeBlock in Hmin. lia. }
    split; [rewrite Hm' by lia; done|]. intros k Hk. rewrite Hm' by lia. by apply E2.
  - eapply blocks_ext; [apply Hs|]. intros x Hx. destruct (B4 x Hx). by rewrite Hm' by lia.
  - eapply free_chain_ext; [apply Hs|]. intros x Hx. specialize (B5 x Hx).
    destruct (sd_fl _ _ _ _ _ Hs x Hx) as (Hp & _). destruct (B4 x Hp). apply Hm'. lia.
  - intros x Hx. destruct (sd_fl _ _ _ _ _ Hs x Hx) as (Hp & Hb & _). destruct (B4 x Hp). unfold is_free_block.
    by rewrite Hm' by lia.
Qed.

Lemma cursor_dead_block dn l off : bl = dn ++ off :: l -> chain m3 off CL_ALIGN dn -> CL_HDR_MARKED (m3 off) = false ->
  cursor (block_end m3 off) = cursor off.
Proof.
  intros Ebl Hd Hm. assert (Ho : off ∈ bl) by (rewrite Ebl, elem_of_app; right; apply list_elem_of_here).
  destruct (live_bounds m3 bmp bl Hchain Halign off Ho) as (D1 & D2 & L1 & L2). pose proof align_pos.
  assert (Hlive : forall o a, o ∈ bl -> CL_HDR_MARKED (m3 o) = true -> off <= a < block_end m3 off -> o <= a < block_end m3 o -> False).
  { intros o a Hob Hmo Ha Ha'. rewrite (same_block m3 bmp bl Hchain o off a Hob Ho Ha' Ha) in Hmo. congruence. }
  apply cursor_dead; [lia|done| |].
  - intros g Hg. destruct (granule_bit _ _) eqn:E; [|done].
    apply (ar_bits _ _ _ _ _ _ (fw_arrays _ _ _ _ _ Hf)) in E as (o & Hob & Hmo & Hr2); [|nia]. exfalso. by apply (Hlive o (g * CL_ALIGN)).
  - intros j p g Hp Hg Hr2. apply (final_gap m3 bmp bl pins f Hf j p g Hp Hg). intros [Hpb Hpm]. apply (Hlive p p Hpb Hpm Hr2).
    destruct (live_bounds m3 bmp bl Hchain Halign p Hpb). lia.
Qed.

Lemma slide_dead dn pre fl off l s : slid dn pre fl off s -> bl = dn ++ off :: l -> CL_HDR_MARKED (m3 off) = false ->
  slid (dn ++ [off]) pre fl (block_end m3 off)
    {| sl_heap := heap_mem (gc_finalize_dead (mem s) off) (sl_heap s); sl_place := sl_place s;
       sl_fill := sl_fill s; sl_live := sl_live s |}.
Proof.
  intros Hs Ebl Hm. destruct (slid_bounds _ _ _ _ _ _ Hs Ebl) as (B1 & _ & B3 & B4 & B5).
  assert (Ho : off ∈ bl) by (rewrite Ebl, elem_of_app; right; apply list_elem_of_here).
  destruct (live_bounds m3 bmp bl Hchain Halign off Ho) as (D1 & D2 & L1 & L2). pose proof align_pos.
  assert (Eo : mem s off = m3 off) by (apply (sd_ahead _ _ _ _ _ Hs); lia).
  assert (Hfl : forall a, ~ (off < a < block_end m3 off) -> gc_finalize_dead (mem s) off a = mem s a).
  { intros a Ha. apply Hfin. unfold block_end in *. by rewrite Eo. }
  destruct (slid_kept _ _ _ _ _ _ (gc_finalize_dead (mem s) off) Hs Ebl) as [K1 K2 K3 K4]; [intros a Ha; apply Hfl; lia|].
  assert (Hin : forall o, CL_HDR_MARKED (m3 o) = true -> o ∈ dn ++ [off] -> o ∈ dn).
  { intros o Hmo. rewrite elem_of_app, list_elem_of_singleton. intros [?|E]; congruence. }
  pose proof (cursor_dead_block dn l off Ebl (sd_done _ _ _ _ _ Hs) Hm) as Ec.
  destruct Hs as [S1 S2 Sa S3 S4 S5 S6 S7 S8 S9 S10 S11 S12 S13]. split; cbn [sl_heap sl_place sl_fill sl_live hp_mem heap_mem bump free_list]; rewrite ?Ec; try done.
  - apply chain_app. exists off. split; [done|]. constructor; [unfold block_end in *; lia|constructor].
  - intros j p Hj Hp. specialize (S4 j p Hj Hp). lia.
  - rewrite live_bytes_app, live_bytes_cons, Hm, S5. cbn [live_bytes foldr]. lia.
  - intros a Ha. rewrite Hfl by lia. apply S6. lia.
  - intros o Hod Hmo. apply Hin in Hod; [|done]. destruct (S7 o Hod Hmo) as (? & _). by destruct (K1 o Hod Hmo).
  - intros x Hx. destruct (S9 x Hx) as [(o & ? & ?)|?]; [|tauto]. left. exists o. rewrite elem_of_app. tauto.
  - intros x Hx. destruct (S11 x Hx) as (? & _ & Hne). split_and!; [done|by apply K4|]. intros o Hod Hmo. apply Hne; [by apply Hin|done].
  - intros Ep. destruct (S13 Ep) as [-> ->]. rewrite live_bytes_app, live_bytes_cons, Hm. cbn [live_bytes foldr]. split; [done|lia].
Qed.

(** Where a live block goes, from a place that agrees with the cursor. *)
Lemma place_live dn off l pl : bl = dn ++ off :: l -> chain m3 off CL_ALIGN dn -> CL_HDR_MARKED (m3 off) = true ->
  cur pl = cursor off -> (forall (j : nat) p, (j < pin_i pl)%nat -> pins !! j = Some p -> p < off) ->
  exists pl', gc_place pins off (CL_HDR_SIZE (m3 off)) false pl [] = (new off, pl', []) /\
  cur pl' = new off + CL_HDR_SIZE (m3 off) /\ cursor (block_end m3 off) = new off + CL_HDR_SIZE (m3 off) /\
  (forall (j : nat) p, (j < pin_i pl')%nat -> pins !! j = Some p -> p < block_end m3 off) /\
  (new off = cursor off \/ new off = off).
Proof.
  intros Ebl Hd Hm C1 Hidx.
  destruct (cursor_walk m3 bmp bl pins Hchain Halign f Hf Hmin dn _ off Ebl Hd) as (B1 & B2 & _).
  assert (Ho : off ∈ bl) by (rewrite Ebl, elem_of_app; right; apply list_elem_of_here).
  destruct (live_bounds m3 bmp bl Hchain Halign off Ho) as (D1 & D2 & L1 & L2). pose proof align_pos. pose proof page_pos.
  destruct (gc_place_spec pins off (CL_HDR_SIZE (m3 off)) false pl [] Hasc Hidx)
    as (at_ & pl' & g & E & Ec & Ei & Hcase); [rewrite C1; lia|unfold block_end in L2; lia|unfold block_end in L2; lia|].
  assert (Eat : at_ = new off /\ g = [] /\ (new off = cursor off \/ new off = off)).
  { destruct (placed_cases m3 bmp bl pins f Hf off Ho Hm) as [[Hp En]|[Hp En]], Hcase as [(Hp' & Ea & Eg)|(Ea & i & Hi & Eg)].
    - done.
    - rewrite En. tauto.
    - rewrite En, Ea, C1. tauto.
    - by apply list_elem_of_lookup_2 in Hi. }
  destruct Eat as (-> & -> & Hn). exists pl'. split_and!; try done.
  - rewrite (inside_cursor m3 bmp bl pins Hchain Halign f Hf off (block_end m3 off) Ho Hm) by (done || lia). unfold block_end. lia.
  - intros j p Hj Hp. specialize (Ei j p Hj Hp). lia.
Qed.

Lemma slide_place dn pre fl off l s : slid dn pre fl off s -> bl = dn ++ off :: l -> CL_HDR_MARKED (m3 off) = true ->
  exists pl', gc_place pins off (CL_HDR_SIZE (m3 off)) false (sl_place s) [] = (new off, pl', []) /\
  cur pl' = new off + CL_HDR_SIZE (m3 off) /\ cursor (block_end m3 off) = new off + CL_HDR_SIZE (m3 off) /\
  (forall (j : nat) p, (j < pin_i pl')%nat -> pins !! j = Some p -> p < block_end m3 off) /\
  cursor off <= new off <= off /\ (CL_ALIGN | new off) /\
  (new off - cursor off = 0 \/ sizeof_FreeBlock <= new off - cursor off).
Proof.
  intros Hs Ebl Hm. destruct (slid_bounds _ _ _ _ _ _ Hs Ebl) as (B1 & B2 & _).
  assert (Ho : off ∈ bl) by (rewrite Ebl, elem_of_app; right; apply list_elem_of_here).
  destruct (live_bounds m3 bmp bl Hchain Halign off Ho) as (D1 & _).
  destruct (place_live dn off l (sl_place s) Ebl (sd_done _ _ _ _ _ Hs) Hm) as (pl' & E & Ec & Eb & Ei & Hn); [apply Hs..|].
  exists pl'. split_and!; try done; try lia. destruct Hn as [-> | ->]; [apply Hs|done].
Qed.

(** The hole below it becomes free blocks. *)
Lemma slide_gap dn pre fl off l s : slid dn pre fl off s -> bl = dn ++ off :: l -> CL_HDR_MARKED (m3 off) = true ->
  let h := heap_put off (CL_HDR_CLR_MARK (mem s off)) (sl_heap s) in
  exists fb, gap_filled (cursor off) (new off - cursor off) fl fb h
    (if new off >? sl_fill s
     then gc_make_free_gap (S (Z.to_nat (new off - sl_fill s))) (sl_fill s) (new off - sl_fill s) h else h).
Proof.
  intros Hs Ebl Hm h. destruct (slide_place _ _ _ _ _ _ Hs Ebl Hm) as (pl' & _ & _ & _ & _ & N1 & N2 & N3).
  destruct (slid_bounds _ _ _ _ _ _ Hs Ebl) as (B1 & _ & _ & _ & B5). pose proof align_pos. pose proof page_pos.
  assert (Ho : off ∈ bl) by (rewrite Ebl, elem_of_app; right; apply list_elem_of_here).
  destruct (live_bounds m3 bmp bl Hchain Halign off Ho) as (_ & _ & L1 & L2).
  destruct (sd_cur _ _ _ _ _ Hs) as [_ ->].
  assert (E : (if new off >? cursor off then gc_make_free_gap (S (Z.to_nat (new off - cursor off))) (cursor off) (new off - cursor off) h
     else h) = gc_make_free_gap (S (Z.to_nat (new off - cursor off))) (cursor off) (new off - cursor off) h).
  { destruct (new off >? cursor off) eqn:En; [done|]. cbn [gc_make_free_gap].
    by replace (new off - cursor off >? 0) with false by lia. }
  rewrite E. apply make_free_gap_spec; try done; try lia.
  - apply Z.divide_sub_r; [done|apply Hs].
  - cbn. eapply free_chain_ext; [apply Hs|]. intros b Hb. specialize (B5 b Hb). rewrite put_ne by lia. done.
Qed.

(** The memory after a live block has moved. *)
Section Moved.
Context (dn pre fl fb : list Z) (off : Z) (l : list Z) (s : Slide) (h2 : CL_Heap) (m4 : memory).
Context (Hs : slid dn pre fl off s) (Ebl : bl = dn ++ off :: l) (Hm : CL_HDR_MARKED (m3 off) = true).
Context (Hgap : gap_filled (cursor off) (new off - cursor off) fl fb
  (heap_put off (CL_HDR_CLR_MARK (mem s off)) (sl_heap s)) h2).
Context (H4 : forall a, m4 a = if (new off <=? a) && (a <? new off + CL_HDR_SIZE (m3 off))
  then hp_mem h2 (a - new off + off) else hp_mem h2 a).

Lemma moved_place : CL_ALIGN <= cursor off <= new off /\ new off <= off /\ 0 < CL_HDR_SIZE (m3 off) /\ off + CL_HDR_SIZE (m3 off) <= bmp.
Proof.
  destruct (slide_place _ _ _ _ _ _ Hs Ebl Hm) as (pl' & _ & _ & _ & _ & N1 & _).
  destruct (slid_bounds _ _ _ _ _ _ Hs Ebl) as (B1 & _).
  assert (Ho : off ∈ bl) by (rewrite Ebl, elem_of_app; right; apply list_elem_of_here).
  destruct (live_bounds m3 bmp bl Hchain Halign off Ho) as (_ & _ & L1 & L2). unfold block_end in L2. lia.
Qed.

(** Below the cursor nothing changes, above the block neither. *)
Lemma moved_below a : a < cursor off \/ off + CL_HDR_SIZE (m3 off) <= a -> m4 a = mem s a.
Proof.
  pose proof moved_place. intros Ha. rewrite H4. replace (_ && _) with false by lia.
  rewrite (gf_mem _ _ _ _ _ _ Hgap) by lia. cbn. apply put_ne. lia.
Qed.

(** The block itself, mark bit aside. *)
Lemma moved_words k : 0 <= k < CL_HDR_SIZE (m3 off) ->
  m4 (new off + k) = if k =? 0 then CL_HDR_CLR_MARK (m3 off) else m3 (off + k).
Proof.
  pose proof moved_place. intros Hk. rewrite H4. replace (_ && _) with true by lia.
  rewrite (gf_mem _ _ _ _ _ _ Hgap) by lia. replace (new off + k - new off + off) with (off + k) by lia. cbn.
  destruct (k =? 0) eqn:E.
  - replace (off + k) with off by lia. rewrite put_eq. f_equal. apply (sd_ahead _ _ _ _ _ Hs). lia.
  - rewrite put_ne by lia. apply (sd_ahead _ _ _ _ _ Hs). lia.
Qed.

Lemma gap_bounds b : b ∈ fb -> cursor off <= b /\ b + 8 <= new off.
Proof.
  intros Hb. destruct (chain_bounds _ _ _ _ (gf_chain _ _ _ _ _ _ Hgap)) as [_ H]. specialize (H b Hb).
  destruct (gf_blocks _ _ _ _ _ _ Hgap b Hb) as [F _]. unfold block_end, sizeof_FreeBlock in *.
  destruct (raw_size_header (hp_mem h2 b)) as (E & _); lia.
Qed.

Lemma moved_gap a : cursor off <= a < new off -> m4 a = hp_mem h2 a.
Proof. intros Ha. rewrite H4. by replace (_ && _) with false by lia. Qed.

Lemma moved_chain : chain m4 (new off + CL_HDR_SIZE (m3 off)) CL_ALIGN (pre ++ fb ++ [new off]).
Proof.
  pose proof moved_place as Hp. destruct (slid_kept _ _ _ _ _ _ m4 Hs Ebl) as [_ K2 _ _]; [intros a Ha; apply moved_below; lia|].
  apply chain_app. exists (cursor off). split; [done|]. apply chain_app. exists (new off). split.
  - replace (new off) with (cursor off + (new off - cursor off)) by lia. eapply blocks_ext; [apply Hgap|].
    intros b Hb. destruct (gap_bounds b Hb). by rewrite moved_gap by lia.
  - assert (E : m4 (new off) = CL_HDR_CLR_MARK (m3 off)).
    { replace (new off) with (new off + 0) by lia. rewrite moved_words by lia. done. }
    constructor; rewrite E, size_clr_mark; [lia|constructor].
Qed.

Lemma moved_free : free_chain m4 (free_list h2) (reverse fb ++ fl) /\
  (forall x, x ∈ reverse fb ++ fl -> is_free_block m4 x) /\ NoDup (reverse fb ++ fl).
Proof.
  pose proof moved_place as Hp. destruct (slid_bounds _ _ _ _ _ _ Hs Ebl) as (_ & _ & _ & _ & B5).
  destruct (slid_kept _ _ _ _ _ _ m4 Hs Ebl) as [_ _ _ K4]; [intros a Ha; apply moved_below; lia|]. split_and!.
  - eapply free_chain_ext; [apply Hgap|]. intros b. rewrite elem_of_app, elem_of_reverse. intros [Hb|Hb].
    + destruct (gap_bounds b Hb). apply moved_gap. lia.
    + specialize (B5 b Hb). rewrite moved_below by lia. rewrite (gf_mem _ _ _ _ _ _ Hgap) by lia. cbn. by rewrite put_ne by lia.
  - intros x. rewrite elem_of_app, elem_of_reverse. intros [Hb|Hb]; [|by apply K4].
    destruct (gap_bounds x Hb). unfold is_free_block. rewrite moved_gap by lia. by apply (gf_blocks _ _ _ _ _ _ Hgap).
  - apply NoDup_app. split_and!; [rewrite reverse_Permutation; eapply chain_NoDup, Hgap| |apply Hs].
    intros x Hx Hx'. rewrite elem_of_reverse in Hx. destruct (gap_bounds x Hx). specialize (B5 x Hx'). lia.
Qed.

Lemma moved_slid pl' h4 : hp_mem h4 = m4 -> bump h4 = bmp -> free_list h4 = free_list h2 ->
  cur pl' = new off + CL_HDR_SIZE (m3 off) ->
  (forall (j : nat) p, (j < pin_i pl')%nat -> pins !! j = Some p -> p < block_end m3 off) ->
  slid (dn ++ [off]) (pre ++ fb ++ [new off]) (reverse fb ++ fl) (block_end m3 off)
    {| sl_heap := h4; sl_place := pl'; sl_fill := new off + CL_HDR_SIZE (m3 off);
       sl_live := u32 (sl_live s + CL_HDR_SIZE (m3 off)) |}.
Proof.
  intros Em Eb Ef Ec Ei. pose proof moved_place as Hp. pose proof align_pos. pose proof page_pos. pose proof moved_chain as Hch.
  destruct moved_free as (M1 & M2 & M3). destruct (slide_place _ _ _ _ _ _ Hs Ebl Hm) as (_ & _ & _ & Ecur & _ & N1 & N2 & N3).
  destruct (slid_bounds _ _ _ _ _ _ Hs Ebl) as (B1 & _ & B3 & B4 & B5).
  assert (Ho : off ∈ bl) by (rewrite Ebl, elem_of_app; right; apply list_elem_of_here).
  destruct (slid_kept _ _ _ _ _ _ m4 Hs Ebl) as [K1 _ _ _]; [intros a Ha; apply moved_below; lia|].
  assert (Hsz : forall o, o ∈ dn -> 0 < CL_HDR_SIZE (m3 o)).
  { intros o Hod. destruct (chain_bounds _ _ _ _ (sd_done _ _ _ _ _ Hs)) as [_ H']. by apply H'. }
  destruct Hs as [S1 S2 Sa S3 S4 S5 S6 S7 S8 S9 S10 S11 S12 S13].
  assert (Hlv : live_bytes m3 (dn ++ [off]) = live_bytes m3 dn + CL_HDR_SIZE (m3 off)).
  { rewrite live_bytes_app, live_bytes_cons, Hm. cbn [live_bytes foldr]. lia. }
  split; cbn [sl_heap sl_place sl_fill sl_live]; rewrite ?Em, ?Ecur, ?Ef; try done.
  - apply chain_app. exists off. split; [done|]. constructor; [lia|constructor].
  - apply Z.divide_add_r; [done|by apply Halign].
  - rewrite Hlv, S5, u32_small; [done|]. pose proof (live_bytes_bound m3 off CL_ALIGN dn S2). lia.
  - intros a Ha. unfold block_end in Ha. rewrite moved_below by lia. apply S6. lia.
  - intros o [Hod|Hod]%elem_of_app Hmo.
    + destruct (S7 o Hod Hmo) as (Hin & _). rewrite elem_of_app. split; [tauto|by apply K1].
    + apply list_elem_of_singleton in Hod as ->. rewrite !elem_of_app, list_elem_of_singleton. split; [tauto|]. split.
      * replace (new off) with (new off + 0) by lia. rewrite moved_words by lia. done.
      * intros k Hk. rewrite moved_words by lia. by replace (k =? 0) with false by lia.
  - intros x. rewrite !elem_of_app, list_elem_of_singleton, elem_of_reverse. intros [Hx|[Hx|Hx]]; [|tauto|].
    + destruct (S9 x Hx) as [(o & ? & ? & ?)|?]; [|tauto]. left. exists o. rewrite elem_of_app. tauto.
    + left. exists off. rewrite elem_of_app, list_elem_of_singleton. tauto.
  - intros x Hx. split_and!; [|by apply M2|].
    + rewrite elem_of_app, elem_of_reverse in Hx. rewrite !elem_of_app. destruct Hx as [?|Hx]; [tauto|]. left. by apply S11.
    + intros o. rewrite elem_of_app, list_elem_of_singleton. intros Hod Hmo. rewrite elem_of_app, elem_of_reverse in Hx.
      destruct Hx as [Hx|Hx], Hod as [Hod| ->].
      * destruct (gap_bounds x Hx), (B3 o Hod Hmo). specialize (Hsz o Hod). lia.
      * destruct (gap_bounds x Hx). lia.
      * by apply S11.
      * specialize (B5 x Hx). lia.
  - intros Ep. destruct (S13 Ep) as [Efl Ed]. assert (E : new off = cursor off).
    { destruct (placed_cases m3 bmp bl pins f Hf off Ho Hm) as [[Hin _]|[_ ?]]; [|done]. rewrite Ep in Hin. by apply elem_of_nil in Hin. }
    rewrite Hlv. split; [|lia]. assert (Efb : fb = []); [|by rewrite Efl, Efb].
    apply elem_of_nil_inv. intros b Hb. destruct (gap_bounds b Hb). lia.
Qed.

End Moved.

Lemma slide_live dn pre fl off l s type : slid dn pre fl off s -> bl = dn ++ off :: l -> CL_HDR_MARKED (m3 off) = true ->
  exists fb, slid (dn ++ [off]) (pre ++ fb ++ [new off]) (reverse fb ++ fl) (block_end m3 off)
    (slide_block gc_finalize_dead pins off (CL_HDR_SIZE (m3 off)) type s).
Proof.
  intros Hs Ebl Hm. destruct (slide_place _ _ _ _ _ _ Hs Ebl Hm) as (pl' & Epl & Ec & _ & Ei & _).
  destruct (slide_gap _ _ _ _ _ _ Hs Ebl Hm) as [fb Hgap]. exists fb.
  pose proof (sd_ahead _ _ _ _ _ Hs off ltac:(lia)) as Eo.
  unfold slide_block. rewrite Eo at 1. rewrite Hm, Epl. set (h2 := if new off >? sl_fill s then _ else _) in *.
  assert (Eb : bump h2 = bmp) by (rewrite (gf_bump _ _ _ _ _ _ Hgap); apply Hs).
  set (h4 := if new off =? off then h2 else _).
  eapply moved_slid with (h2 := h2) (m4 := hp_mem h4); try done; unfold h4; try (by destruct (new off =? off)).
  intros a. destruct (new off =? off) eqn:E; [|done]. destruct (_ && _); [f_equal; lia|done].
Qed.

(** ** The placement rule alone *)

Lemma placements_new l : forall dn pl off, bl = dn ++ l -> chain m3 off CL_ALIGN dn -> chain m3 bmp off l -> cur pl = cursor off ->
  (forall (j : nat) p, (j < pin_i pl)%nat -> pins !! j = Some p -> p < off) ->
  placements m3 pins l pl = map (fun o => (o, new o)) (List.filter (fun o => CL_HDR_MARKED (m3 o)) l).
Proof.
  induction l as [|o l IH]; intros dn pl off Ebl Hd Hc Ecur Hidx; [done|].
  destruct (walk_next_step _ _ _ _ _ Hc) as (-> & _ & Hc'). cbn [placements List.filter].
  assert (Hd' : chain m3 (block_end m3 off) CL_ALIGN (dn ++ [off])).
  { apply chain_app. exists off. split; [done|]. inversion Hc; subst. by constructor; [|constructor]. }
  assert (Ebl' : bl = (dn ++ [off]) ++ l) by by rewrite <- app_assoc.
  destruct (chain_bounds _ _ _ _ Hc) as [_ Hb]. destruct (Hb off (list_elem_of_here _ _)) as (_ & Hs & _).
  destruct (CL_HDR_MARKED (m3 off)) eqn:Em.
  - destruct (place_live dn off l pl Ebl Hd Em Ecur Hidx) as (pl' & -> & Ec & Eb & Ei & _). cbn [map]. f_equal.
    apply (IH _ _ _ Ebl' Hd' Hc'); [congruence|done].
  - apply (IH _ _ _ Ebl' Hd' Hc').
    + by rewrite (cursor_dead_block dn l off Ebl Hd Em).
    + intros j p Hj Hp. specialize (Hidx j p Hj Hp). unfold block_end. lia.
Qed.

(** ** The pass *)

Definition slid_all (pre fl : list Z) (h' : CL_Heap) : Prop :=
  exists s, slid bl pre fl bmp s /\ h' = set_total (sl_live s) (set_bump (sl_fill s) (sl_heap s)).

Lemma slide_start h : hp_mem h = m3 -> bump h = bmp ->
  slid [] [] [] CL_ALIGN {| sl_heap := set_free_list 0 h; sl_place := {| cur := CL_ALIGN; pin_i := 0 |};
                            sl_fill := CL_ALIGN; sl_live := 0 |}.
Proof.
  intros Em Eb. destruct (cursor_walk m3 bmp bl pins Hchain Halign f Hf Hmin [] bl CL_ALIGN eq_refl (chain_end _ _)) as (W1 & _).
  assert (E : cursor CL_ALIGN = CL_ALIGN) by lia.
  split; cbn [sl_heap sl_place sl_fill sl_live cur pin_i]; rewrite ?E; try done; try (by intros ? ?%elem_of_nil); try lia.
  all: try constructor.
  - intros a _. cbn. by rewrite Em.
  - done.
  - cbn. lia.
Qed.

Lemma gc_slide_slid h : hp_mem h = m3 -> bump h = bmp -> exists pre fl, slid_all pre fl (gc_slide gc_finalize_dead pins h).
Proof.
  intros Em Eb. set (I := fun (l : list Z) (s : Slide) => exists dn pre fl off, bl = dn ++ l /\ slid dn pre fl off s /\ chain m3 bmp off l).
  set (s0 := {| sl_heap := set_free_list 0 h; sl_place := {| cur := CL_ALIGN; pin_i := 0 |}; sl_fill := CL_ALIGN; sl_live := 0 |}).
  pose proof align_pos as Hap.
  assert (H : I [] (gc_walk (fun s => mem s) (walk_fuel bmp) (no_seek (slide_block gc_finalize_dead pins)) (gc_walk_begin bmp) s0)).
  { apply (gc_walk_rule (fun s => mem s) bmp I) with (l := bl).
    - intros o l s (dn & pre & fl & off & Ebl & Hs & Hc) _ s'. destruct (walk_next_step _ _ _ _ _ Hc) as (-> & _ & Hc').
      assert (Eo : mem s off = m3 off) by (apply (sd_ahead _ _ _ _ _ Hs); lia).
      assert (G : exists pre' fl', slid (dn ++ [off]) pre' fl' (block_end m3 off) s').
      { unfold s'. rewrite Eo. destruct (CL_HDR_MARKED (m3 off)) eqn:Em'.
        - destruct (slide_live _ _ _ _ _ s (CL_HDR_TYPE (m3 off)) Hs Ebl Em') as [fb ?]. by eexists _, _.
        - exists pre, fl. unfold slide_block. rewrite Eo, Em'. by eapply slide_dead. }
      destruct G as (pre' & fl' & G). split.
      + exists (dn ++ [off]), pre', fl', (block_end m3 off). split; [by rewrite <- app_assoc|done].
      + unfold block_end at 1. rewrite Eo. eapply blocks_ext; [exact Hc'|]. intros x Hx.
        destruct (chain_bounds _ _ _ _ Hc') as [_ Hb]. specialize (Hb x Hx). rewrite (sd_ahead _ _ _ _ _ G) by lia. done.
    - eapply walk_fuel_enough; [|exact Hchain]. lia.
    - eapply blocks_ext; [exact Hchain|]. intros o _. cbn. by rewrite Em.
    - exists [], [], [], CL_ALIGN. split; [done|]. split; [by apply slide_start|done]. }
  destruct H as (dn & pre & fl & off & Ebl & Hs & Hc). rewrite app_nil_r in Ebl. subst dn. inversion Hc; subst.
  exists pre, fl. unfold gc_slide. rewrite Eb. by eexists.
Qed.

End Proof.

(** ** The lookup and the slide agree *)

(** C12: Whatever pass 2 is given, the lookup of any granule of a marked block is
    the address the placement rule of the slide gives that block, plus the
    distance: the two passes can be run without a forwarding word per object. *)
Theorem gc_forward_placement {L : Layout} {LL : LayoutLaws L} alloc_ok fail_over m bump bl jit_pinned f0 pins f :
  chain m bump CL_ALIGN bl -> (forall o, o ∈ bl -> (CL_ALIGN | CL_HDR_SIZE (m o))) ->
  (forall o, o ∈ bl -> sizeof_FreeBlock <= CL_HDR_SIZE (m o)) -> bump + GC_FWD_PAGE <= 2 ^ 32 ->
  gc_fwd_alloc alloc_ok fail_over bump (length jit_pinned) = Some f0 ->
  gc_compute_forwarding m bump jit_pinned f0 = (pins, f) ->
  let placed := placements m pins bl {| cur := CL_ALIGN; pin_i := 0 |} in
  map fst placed = List.filter (fun o => CL_HDR_MARKED (m o)) bl /\
  forall o n y, (o, n) ∈ placed -> o <= y < block_end m o -> (CL_ALIGN | y) -> gc_forward bump pins f y = n + (y - o).
Proof.
  intros Hc Ha Hmin Hb Halloc%gc_fwd_alloc_fresh E placed.
  destruct (gc_compute_forwarding_spec m bump bl jit_pinned f0 Hc Ha Hb Halloc) as (pins' & f' & E' & Hp & Hasc & Hf).
  rewrite E' in E. simplify_eq.
  destruct (cursor_walk m bump bl pins Hc Ha f Hf Hmin [] bl CL_ALIGN eq_refl (chain_end _ _)) as (W & _).
  assert (Epl : placed = map (fun o => (o, new_addr pins f o)) (List.filter (fun o => CL_HDR_MARKED (m o)) bl)).
  { apply (placements_new m bump bl pins f Hc Hb Ha Hmin Hasc Hf bl [] _ CL_ALIGN); [done|constructor|done|cbn; lia|cbn; lia]. }
  rewrite Epl, map_map, map_id. split; [done|]. intros o n y Hin Hy Hd.
  apply list_elem_of_In, in_map_iff in Hin as (o' & [= -> <-] & [Ho Hm]%filter_In).
  apply (gc_forward_live m bump bl pins Hc Ha Hasc Hb f Hf Hmin); [by apply list_elem_of_In|done..].
Qed.

#[local] Existing Instance Holes.layout.

(** The live blocks at 24, 40 and 72 of the sample go to 8, 40 (pinned) and 56. *)
Example gc_forward_placement_witness :
  gc_forward Holes.bump [40] (snd (gc_compute_forwarding Holes.marked Holes.bump [40]
    {| gc_fwd_bits := [0]; gc_fwd_page := [0]; gc_fwd_gap := [0] |})) 80 = 56 + (80 - 72).
Proof.
  refine (proj2 (gc_forward_placement (fun _ => true) 0 Holes.marked Holes.bump Holes.blocks [40]
    {| gc_fwd_bits := [0]; gc_fwd_page := [0]; gc_fwd_gap := [0] |} [40] _ _ _ _ _ _ _) 72 56 80 _ _ _).
  - apply Holes.holes_marked_chain.
  - intros o Ho. Sample.each Ho; apply Z.mod_divide; done.
  - intros o Ho. Sample.each Ho; done.
  - done.
  - by vm_compute.
  - by vm_compute.
  - apply (bool_decide_unpack _). by vm_compute.
  - by vm_compute.
  - by exists 10.
Defined.
