(* ===== verification/GcMove.v ===== *)
(** * One object at a new address

    What a move of an object leaves as it is: its slots are the old ones
    shifted with it, but for the slots it owns outside the arena (the constant
    pool of a bytecode object), which stay where they are. *)

From Stdlib Require Import ZArith Lia ZifyBool.
From stdpp Require Import base option list sets.
From S2P Require Import Prelude GcHeap GcGraph.
Local Open Scope Z_scope.

Section Move.
Context {L : Layout} {LL : LayoutLaws L} (arena_size : Z).

(** Where the address [a] of the object at [o] is when the object is at [n]. *)
Definition relocate (m : memory) (o n a : Z) : Z :=
  if (o <=? a) && (a <? block_end m o) then a - o + n else a.

(** [m'] has at [n] the object that [m] has at [o]. *)
Record moved (m m' : memory) (o n : Z) : Prop := {
  mv_size : CL_HDR_SIZE (m' n) = CL_HDR_SIZE (m o);
  mv_type : CL_HDR_TYPE (m' n) = CL_HDR_TYPE (m o);
  mv_words : forall k, 0 < k < CL_HDR_SIZE (m o) -> m' (n + k) = m (o + k) }.

Lemma word_range_shift d k base : map (fun a => a + d) (word_range k base) = word_range k (base + d).
Proof.
  revert base. induction k as [|k IH]; intros base; cbn [word_range map]; [done|].
  rewrite IH. do 2 f_equal. lia.
Qed.

Lemma children_shift m m' o n : obj_fits arena_size m o -> moved m m' o n ->
  obj_type (CL_HDR_TYPE (m o)) <> Some TYPE_BYTECODE ->
  slots_of m' n = map (fun a => a + (n - o)) (slots_of m o).
Proof.
  intros [Hs _ _ _ _] [Es Et Ew] Hb. unfold slots_of, min_size in *. rewrite Et. revert Hs Hb.
  generalize (CL_HDR_TYPE (m o)). intros type Hs Hb. unfold children, vec_displaced, CL_DISP_BASE_IDX in *.
  destruct (obj_type type) as [[]|]; try done; rewrite ?(Ew 4), ?(Ew 8), ?(Ew 12), ?(Ew 20), ?Es by lia;
    rewrite ?map_cons, ?map_app; repeat case_match; cbn [map app]; rewrite ?map_app; cbn [map app];
    rewrite ?word_range_shift; repeat (f_equal; try lia).
Qed.

(** The slots of a moved object. *)
Lemma children_moved m m' o n : obj_fits arena_size m o -> moved m m' o n ->
  slots_of m' n = map (relocate m o n) (slots_of m o).
Proof.
  intros Hf Hmv. assert (Hr : forall a, o + 4 <= a <= block_end m o - 4 -> a + (n - o) = relocate m o n a).
  { intros a Ha. unfold relocate. replace (_ && _) with true by lia. lia. }
  destruct (decide (obj_type (CL_HDR_TYPE (m o)) = Some TYPE_BYTECODE)) as [Hb|Hb].
  - assert (Hout : forall a, outside arena_size a -> relocate m o n a = a).
    { intros a Ha. unfold relocate. pose proof (fit_inside _ _ _ Hf). destruct Ha; replace (_ && _) with false by lia; done. }
    destruct Hmv as [Es Et Ew]. pose proof (fit_pool _ _ _ Hf Hb) as Hp. pose proof (fit_size _ _ _ Hf) as Hs. pose proof (fit_NoDup _ _ _ Hf) as Hn.
    unfold slots_of, min_size, children in *. rewrite Et. rewrite Hb in *.
    destruct (bc_local m m' o n) as (E1 & E2 & E3 & E4); [intros d Hd _ _; apply Ew; lia|].
    rewrite E1, E2, E3, E4. cbn [map]. rewrite <- !Hr by (unfold block_end; pose proof (bc_fields bc_name); pose proof (bc_fields bc_source_lambda_list); lia).
    f_equal; [lia|]. f_equal; [lia|]. set (rest := word_range _ _ ++ _) in *. clearbody rest.
    rewrite <- (map_id rest) at 1. apply map_ext_in. intros a Ha. symmetry.
    apply list_elem_of_In in Ha.
    apply NoDup_cons in Hn as [N1 Hn]. apply NoDup_cons in Hn as [N2 _]. rewrite elem_of_cons in N1.
    apply Hout, Hp; [rewrite !elem_of_cons; tauto|intros ->; tauto|intros ->; tauto].
  - rewrite (children_shift m m' o n Hf Hmv Hb). apply map_ext_in. intros a Ha. apply Hr.
    apply list_elem_of_In in Ha. destruct (fit_slots _ _ _ Hf a Ha) as [[? _]|[_ ?]]; [done|congruence].
Qed.

Lemma relocate_inside m o n k : 0 <= k < CL_HDR_SIZE (m o) -> relocate m o n (o + k) = n + k.
Proof. intros Hk. unfold relocate, block_end. replace (_ && _) with true by lia. lia. Qed.

Lemma relocate_outside m o n a : obj_fits arena_size m o -> outside arena_size a -> relocate m o n a = a.
Proof.
  intros Hf Ha. unfold relocate. pose proof (fit_inside _ _ _ Hf). destruct Ha; replace (_ && _) with false by lia; done.
Qed.

(** A slot is at a word of its object behind the header, or outside. *)
Lemma slot_cases m o a : obj_fits arena_size m o -> a ∈ slots_of m o ->
  (exists k, a = o + k /\ 4 <= k <= CL_HDR_SIZE (m o) - 4 /\ (4 | k)) \/
  (outside arena_size a /\ obj_type (CL_HDR_TYPE (m o)) = Some TYPE_BYTECODE).
Proof.
  intros Hf Ha. destruct (fit_slots _ _ _ Hf a Ha) as [[Hr Hd]|?]; [left|by right]. exists (a - o). unfold block_end in Hr.
  split_and!; [lia..|done].
Qed.

Lemma moved_fits m m' o n : obj_fits arena_size m o -> moved m m' o n -> 0 <= n -> n + CL_HDR_SIZE (m o) <= arena_size ->
  obj_fits arena_size m' n.
Proof.
  intros Hf Hmv Hn Hsz. pose proof (children_moved m m' o n Hf Hmv) as Hc. destruct Hmv as [Es Et Ew].
  assert (Hmap : forall a', a' ∈ slots_of m' n -> exists a, a ∈ slots_of m o /\ a' = relocate m o n a).
  { intros a'. rewrite Hc. intros (a & <- & Ha)%list_elem_of_In%in_map_iff. exists a. split; [by apply list_elem_of_In|done]. }
  split; unfold block_end; rewrite ?Es, ?Et.
  - apply Hf.
  - intros a' (a & Ha & ->)%Hmap. destruct (slot_cases m o a Hf Ha) as [(k & -> & Hk & Hd)|[Ho Hb]].
    + rewrite relocate_inside by lia. left. split; [lia|]. by replace (n + k - n) with k by lia.
    + rewrite relocate_outside by done. by right.
  - lia.
  - intros Hb a' (a & Ha & ->)%Hmap N1 N2. pose proof (fit_size _ _ _ Hf) as Hs. unfold min_size in Hs. rewrite Hb in Hs.
    pose proof (bc_fields bc_name). pose proof (bc_fields bc_source_lambda_list).
    assert (Ho : outside arena_size a); [|by rewrite relocate_outside].
    apply (fit_pool _ _ _ Hf Hb a Ha); intros ->; rewrite relocate_inside in N1, N2 by lia; done.
  - rewrite Hc. apply (NoDup_fmap_2_strong (relocate m o n)); [|apply Hf]. intros a b Ha Hb.
    destruct (slot_cases m o a Hf Ha) as [(k & -> & Hk & _)|[Ho _]];
      [rewrite (relocate_inside m o n k) by lia|rewrite (relocate_outside m o n a Hf Ho)];
      (destruct (slot_cases m o b Hf Hb) as [(k' & -> & Hk' & _)|[Ho' _]];
        [rewrite (relocate_inside m o n k') by lia|rewrite (relocate_outside m o n b Hf Ho')]); intros E.
    + lia.
    + destruct Ho'; lia.
    + destruct Ho; lia.
    + done.
Qed.

(** An object whose slots alone have changed still fits. *)
Lemma slots_only_fits m m' o : obj_fits arena_size m o -> slots_only m m' o -> obj_fits arena_size m' o.
Proof.
  intros Hf Hs. pose proof (slots_only_same arena_size m m' o Hf Hs) as Ec. destruct Hs as [Es Et _ _].
  destruct Hf as [F1 F2 F3 F4 F5]. split; unfold block_end in *; rewrite ?Es, ?Et, ?Ec; done.
Qed.

(** ** The object graph, renamed *)

(** The word [v] after the objects have moved. *)
Definition moved_word (mv : Z -> Z) (v : Z) : Z := if is_ref arena_size v then mv v else v.

(** [m'] has the object graph of [m] with every reachable object [o] at [mv o]:
    the same words but for the references, which follow. *)
Record same_graph (roots pinned : list Z) (mv : Z -> Z) (m m' : memory) : Prop := {
  sg_reach : forall x, reachable arena_size m' roots pinned x <-> exists o, reachable arena_size m roots pinned o /\ x = mv o;
  sg_inj : forall o o', reachable arena_size m roots pinned o -> reachable arena_size m roots pinned o' -> mv o = mv o' -> o = o';
  sg_ref : forall o, reachable arena_size m roots pinned o -> is_ref arena_size (mv o) = true;
  sg_pinned : forall o, o ∈ pinned -> mv o = o;
  sg_header : forall o, reachable arena_size m roots pinned o -> m' (mv o) = m o;
  sg_slots : forall o, reachable arena_size m roots pinned o -> slots_of m' (mv o) = map (relocate m o (mv o)) (slots_of m o);
  sg_slot_words : forall o a, reachable arena_size m roots pinned o -> a ∈ slots_of m o ->
    m' (relocate m o (mv o) a) = moved_word mv (m a);
  sg_words : forall o k, reachable arena_size m roots pinned o -> 0 < k < CL_HDR_SIZE (m o) -> o + k ∉ slots_of m o ->
    m' (mv o + k) = m (o + k);
  sg_roots : forall a, a ∈ roots -> m' a = moved_word mv (m a) }.

Lemma moved_word_id v : moved_word (fun o => o) v = v.
Proof. unfold moved_word. by destruct (is_ref arena_size v). Qed.

(** Nothing has moved when the reachable objects keep their words. *)
Lemma same_graph_id roots pinned m m' :
  (forall o, reachable arena_size m roots pinned o -> 0 < CL_HDR_SIZE (m o) /\ obj_fits arena_size m o /\ is_ref arena_size o = true) ->
  (forall a, a ∈ roots -> outside arena_size a) ->
  (forall o a, reachable arena_size m roots pinned o -> o <= a < block_end m o -> m' a = m a) ->
  (forall a, outside arena_size a -> m' a = m a) -> same_graph roots pinned (fun o => o) m m'.
Proof.
  intros Hobj Hroots Hw Hout.
  assert (Hpos : forall o, reachable arena_size m roots pinned o -> 0 < CL_HDR_SIZE (m o) /\ obj_fits arena_size m o).
  { intros o HR. by destruct (Hobj o HR) as (? & ? & _). }
  assert (Hrel : forall o a, relocate m o o a = a) by (intros o a; unfold relocate; destruct (_ && _); lia).
  split; try done.
  - intros x. rewrite (reachable_frame arena_size m m' roots pinned) by done. split; [by exists x|]. by intros (o & ? & ->).
  - intros o HR. by destruct (Hobj o HR) as (_ & _ & ?).
  - intros o HR. apply (Hw o); [done|]. destruct (Hpos o HR). unfold block_end. lia.
  - intros o HR. destruct (frame_slots arena_size m m' roots pinned Hpos Hw Hout o HR) as [-> _].
    rewrite <- (map_id (slots_of m o)) at 1. by apply map_ext.
  - intros o a HR Ha. rewrite Hrel, moved_word_id. by apply (frame_slots arena_size m m' roots pinned Hpos Hw Hout o HR).
  - intros o k HR Hk _. apply (Hw o); [done|unfold block_end; lia].
  - intros a Ha. rewrite moved_word_id. by apply Hout, Hroots.
Qed.

Lemma same_graph_trans roots pinned mv mv' m m' m'' :
  (forall o, reachable arena_size m roots pinned o -> obj_fits arena_size m o) ->
  (forall o, reachable arena_size m' roots pinned o -> obj_fits arena_size m' o) ->
  same_graph roots pinned mv m m' -> same_graph roots pinned mv' m' m'' -> same_graph roots pinned (fun o => mv' (mv o)) m m''.
Proof.
  intros Hf Hf' G1 G2. assert (Hr : forall o, reachable arena_size m roots pinned o -> reachable arena_size m' roots pinned (mv o)).
  { intros o HR. apply (sg_reach _ _ _ _ _ G1). by exists o. }
  assert (Hsz : forall o, reachable arena_size m roots pinned o -> CL_HDR_SIZE (m' (mv o)) = CL_HDR_SIZE (m o)).
  { intros o HR. by rewrite (sg_header _ _ _ _ _ G1). }
  assert (Hrel : forall o a, reachable arena_size m roots pinned o -> a ∈ slots_of m o ->
    relocate m' (mv o) (mv' (mv o)) (relocate m o (mv o) a) = relocate m o (mv' (mv o)) a).
  { intros o a HR Ha. pose proof (Hsz o HR). destruct (slot_cases m o a (Hf o HR) Ha) as [(k & -> & Hk & _)|[Ho _]].
    - by rewrite !relocate_inside by lia.
    - rewrite (relocate_outside m o (mv o) a), (relocate_outside m' (mv o)), (relocate_outside m o) by auto. done. }
  assert (Hword : forall v, (is_ref arena_size v = true -> reachable arena_size m roots pinned v) ->
    moved_word mv' (moved_word mv v) = moved_word (fun o => mv' (mv o)) v).
  { intros v Hv. unfold moved_word. destruct (is_ref arena_size v) eqn:E; [|by rewrite E].
    by rewrite (sg_ref _ _ _ _ _ G1) by auto. }
  split.
  - intros x. rewrite (sg_reach _ _ _ _ _ G2). setoid_rewrite (sg_reach _ _ _ _ _ G1). split.
    + intros (o' & (o & HR & ->) & ->). by exists o.
    + intros (o & HR & ->). exists (mv o). split; [by exists o|done].
  - intros o o' HR HR' E. apply (sg_inj _ _ _ _ _ G1); [done..|]. apply (sg_inj _ _ _ _ _ G2); auto.
  - intros o HR. apply (sg_ref _ _ _ _ _ G2); auto.
  - intros o Ho. rewrite (sg_pinned _ _ _ _ _ G1) by done. by apply (sg_pinned _ _ _ _ _ G2).
  - intros o HR. rewrite (sg_header _ _ _ _ _ G2) by auto. by apply (sg_header _ _ _ _ _ G1).
  - intros o HR. rewrite (sg_slots _ _ _ _ _ G2), (sg_slots _ _ _ _ _ G1), map_map by auto.
    apply map_ext_in. intros a Ha%list_elem_of_In. by apply Hrel.
  - intros o a HR Ha. rewrite <- Hrel by done. rewrite (sg_slot_words _ _ _ _ _ G2 (mv o)), (sg_slot_words _ _ _ _ _ G1 o) by
      (auto || (rewrite (sg_slots _ _ _ _ _ G1) by done; apply list_elem_of_In, in_map, list_elem_of_In; done)).
    apply Hword. intros E. by eapply reach_slot.
  - intros o k HR Hk Hn. rewrite (sg_words _ _ _ _ _ G2 (mv o)); [by apply (sg_words _ _ _ _ _ G1)|auto|by rewrite Hsz|].
    rewrite (sg_slots _ _ _ _ _ G1) by done. intros Hin%list_elem_of_In%in_map_iff. destruct Hin as (a & Ea & Ha%list_elem_of_In).
    destruct (slot_cases m o a (Hf o HR) Ha) as [(k' & -> & Hk' & _)|[Ho _]].
    + rewrite relocate_inside in Ea by lia. assert (k' = k) as -> by lia. done.
    + rewrite relocate_outside in Ea by auto. pose proof (fit_inside _ _ _ (Hf' _ (Hr o HR))) as Hi. unfold block_end in Hi.
      rewrite Hsz in Hi by done. destruct Ho; lia.
  - intros a Ha. rewrite (sg_roots _ _ _ _ _ G2), (sg_roots _ _ _ _ _ G1) by done. apply Hword. intros E. by apply reach_root.
Qed.

End Move.
