(* ===== verification/GcCompact.v ===== *)
(** * The compacting collection

    cl_gc_compact of gc_compact.c: mark, compute the new addresses, forward
    every reference, slide.  When the pins are incomplete or the forwarding
    structures cannot be allocated it sweeps instead. *)

From Stdlib Require Import ZArith Lia ZifyBool.
From stdpp Require Import base option list sets sorting.
From S2P Require Import Prelude GcHeap GcGraph GcMark GcSweep GcCollect GcFwd GcUpdate GcSlide.
From S2P Require Import GcLookup GcMove.
Local Open Scope Z_scope.

(** What the C heap answers, and the slot buffer at hand. *)
Class CompactConfig : Type := {
  fwd_alloc_ok : Z -> bool;            (* platform_alloc of the forwarding block *)
  cl_gc_fwd_fail_over : Z;
  slot_alloc_ok : Z -> bool;           (* platform_alloc of gc_root_slot_buf *)
  gc_root_slot_cap : Z }.

(** The root slots as the walks meet them, and the outcome of the JIT stack scan. *)
Record Roots : Type := {
  r_threads : list Z;
  r_registered : list Z;
  r_shared : list Z;
  jit_pinned : list Z;
  gc_jit_pin_oom : bool }.

Definition root_slots (r : Roots) : list Z := r_threads r ++ r_registered r ++ r_shared r.

Record CompactState : Type := {
  cs_gc : GcState;
  gc_fwd_fail_bump : Z;
  compact_count : Z;
  gc_sweeps_since_compact : Z }.

Definition set_heap (h : CL_Heap) (s : GcState) : GcState :=
  {| gs_heap := h; gs_mark := gs_mark s; gc_count := gc_count s |}.

Section Compact.
Context {L : Layout} {C : MarkConfig} {K : CompactConfig} (arena_size : Z) (gc_finalize_dead : memory -> Z -> memory).

(** The sweep of the completed mark. *)
Definition gcb_compact_fallback (g : GcState) (fail_bump : Z) (s : CompactState) : CompactState :=
  {| cs_gc := count_gc (sweep_heap gc_finalize_dead g); gc_fwd_fail_bump := fail_bump;
     compact_count := compact_count s; gc_sweeps_since_compact := 0 |}.

(** Passes 2 to 4 on the marked heap. *)
Definition compact_passes (r : Roots) (f : GcFwd) (h : CL_Heap) : CL_Heap :=
  let '(pins, f) := gc_compute_forwarding (hp_mem h) (bump h) (jit_pinned r) f in
  let m := gc_update_all_references (gc_forward (bump h) pins f) slot_alloc_ok gc_root_slot_cap (bump h)
             (r_threads r) (r_registered r) (r_shared r) (hp_mem h) in
  gc_slide gc_finalize_dead pins (heap_mem m h).

(** cl_gc_compact up to the side tables: after the slide the C code also rebuilds
    the hash tables, whose chains are keyed by addresses (gc_rehash_tables; the
    file Hashtable models its rebuilding of one table), the threads' tables of
    dynamic bindings, and the table of source locations. *)
Definition cl_gc_compact (r : Roots) (s : CompactState) : CompactState :=
  let g := mark_heap arena_size (root_slots r) (jit_pinned r) (cs_gc s) in
  if gc_jit_pin_oom r then gcb_compact_fallback g (gc_fwd_fail_bump s) s
  else
    match gc_fwd_alloc fwd_alloc_ok cl_gc_fwd_fail_over (bump (gs_heap g)) (length (jit_pinned r)) with
    | None => gcb_compact_fallback g (bump (gc_sweep gc_finalize_dead (gs_heap g))) s
    | Some f =>
        {| cs_gc := count_gc (set_heap (compact_passes r f (gs_heap g)) g); gc_fwd_fail_bump := 0;
           compact_count := u32 (compact_count s + 1); gc_sweeps_since_compact := 0 |}
    end.

End Compact.

(** ** What a compaction keeps *)

Section Proof.
Context {L : Layout} {LL : LayoutLaws L} {C : MarkConfig} {K : CompactConfig}.
Context (arena_size : Z) (gc_finalize_dead : memory -> Z -> memory) (r : Roots) (bl : list Z) (s : GcState).
Context (Hfin : finalize_local gc_finalize_dead).

Abbreviation m0 := (hp_mem (gs_heap s)).
Abbreviation b0 := (bump (gs_heap s)).
Abbreviation R := (reachable arena_size m0 (root_slots r) (jit_pinned r)).

(** A word the collector can tell apart: an immediate, or no tag bits. *)
Definition tagged (v : Z) : Prop := immediate v = true \/ Z.land v CL_TAG_MASK_LO2 = 0.

(** What the references must be for a move: words of the two kinds, every slot
    owned by one object or one root, every root slot met by one walk. *)
Record movable : Prop := {
  mo_wf : heap_wf arena_size b0 m0 bl (root_slots r) (jit_pinned r);
  mo_page : b0 + GC_FWD_PAGE <= 2 ^ 32;
  mo_words : forall o a, R o -> a ∈ slots_of m0 o -> tagged (m0 a);
  mo_root_words : forall a, a ∈ root_slots r -> tagged (m0 a);
  mo_apart : forall o o' a, R o -> R o' -> o <> o' -> a ∈ slots_of m0 o -> a ∉ slots_of m0 o';
  mo_roots : forall o a, R o -> a ∈ root_slots r -> a ∉ slots_of m0 o;
  mo_walks : NoDup (r_threads r ++ r_shared r);
  mo_registered : NoDup (r_registered r) \/ Z.of_nat (length (r_registered r)) <= gc_root_slot_cap \/
    slot_alloc_ok (Z.of_nat (length (r_registered r))) = true }.

(** The heap of [s'] is that of [s] with every reachable object [o] at [mv o]. *)
Record compacted (mv : Z -> Z) (h' : CL_Heap) (pre fl : list Z) : Prop := {
  cp_wf : heap_wf arena_size (bump h') (hp_mem h') pre (root_slots r) (jit_pinned r);
  cp_graph : same_graph arena_size (root_slots r) (jit_pinned r) mv m0 (hp_mem h');
  cp_bump : bump h' <= b0;
  cp_down : forall o, R o -> CL_ALIGN <= mv o <= o;
  cp_order : forall o o', R o -> R o' -> o < o' -> mv o + CL_HDR_SIZE (m0 o) <= mv o';
  cp_outer : forall a, outside arena_size a -> a ∉ root_slots r -> (forall o, R o -> a ∉ slots_of m0 o) -> hp_mem h' a = m0 a;
  cp_all : forall x, x ∈ pre <-> (exists o, R o /\ x = mv o) \/ x ∈ fl;
  cp_free : free_chain (hp_mem h') (free_list h') fl /\ NoDup fl;
  cp_blocks : forall x, x ∈ fl -> is_free_block (hp_mem h') x /\ forall o, R o -> x <> mv o;
  cp_dense : jit_pinned r = [] -> fl = [] /\ bump h' = CL_ALIGN + total_allocated h' }.

Context (Hmo : movable) (Hidle : mark_idle s).
Context (Hbuf : 0 < CL_GC_MARK_STACK_SIZE < 2 ^ 31 /\ 0 <= gc_mark_stack_test_limit < 2 ^ 31).

Abbreviation Hw := (mo_wf Hmo).

(** *** After the mark phase *)

Section Marked.
Context (s1 : GcState) (Hm : marked_heap arena_size (root_slots r) (jit_pinned r) s s1).
Abbreviation m1 := (hp_mem (gs_heap s1)).
Abbreviation live o := (o ∈ bl /\ CL_HDR_MARKED (m1 o) = true).

Lemma live_reach o : live o <-> R o.
Proof.
  split; [intros [Ho H]; by eapply marked_iff; [apply Hw|..]|]. intros HR.
  destruct (hw_obj _ _ _ _ _ _ Hw o HR) as [Hb _]. split; [done|]. by eapply marked_iff; [apply Hw|..].
Qed.

Lemma marked_size o : CL_HDR_SIZE (m1 o) = CL_HDR_SIZE (m0 o).
Proof. by eapply marked_fields_same. Qed.

Lemma marked_type o : CL_HDR_TYPE (m1 o) = CL_HDR_TYPE (m0 o).
Proof. destruct (mh_mem _ _ _ _ _ Hm o) as [->|[_ ->]]; [done|]. apply type_set_mark. Qed.

Lemma marked_slot o a : R o -> a ∈ slots_of m0 o -> m1 a = m0 a.
Proof.
  intros HR Ha. destruct (hw_obj _ _ _ _ _ _ Hw o HR) as [Hb Hf].
  destruct (mh_mem _ _ _ _ _ Hm a) as [?|[Hx _]]; [done|]. apply (hw_obj _ _ _ _ _ _ Hw) in Hx as [Hx _]. exfalso. revert Hx.
  eapply (inner_no_header arena_size _ _ bl o); [apply Hw..|done|]. by apply (slot_place arena_size).
Qed.

Lemma marked_outside a : outside arena_size a -> m1 a = m0 a.
Proof.
  intros Ha. destruct (mh_mem _ _ _ _ _ Hm a) as [?|[Hx _]]; [done|]. apply (hw_obj _ _ _ _ _ _ Hw) in Hx as [Hx _].
  destruct (block_inside _ _ _ _ a (hw_chain _ _ _ _ _ _ Hw) (hw_bump _ _ _ _ _ _ Hw) Hx). destruct Ha; lia.
Qed.

Lemma marked_slots_only o : R o -> slots_only m0 m1 o.
Proof.
  intros HR. split.
  - apply marked_size.
  - apply marked_type.
  - intros a Ha _. by eapply marked_inner; [apply Hw|..].
  - intros a Ha. rewrite (marked_slot o) by done. apply same_kind_refl.
Qed.

Lemma marked_slots o : R o -> slots_of m1 o = slots_of m0 o /\ obj_fits arena_size m1 o.
Proof.
  intros HR. destruct (hw_obj _ _ _ _ _ _ Hw o HR) as [_ Hf]. pose proof (marked_slots_only o HR) as Hs.
  split; [by apply (slots_only_same arena_size)|by eapply slots_only_fits].
Qed.

(** *** The forwarding function *)

Section Forwarded.
Context (pins : list Z) (f : GcFwd) (Hasc : ascending pins) (Hf : forwarding m1 b0 bl pins f).

Abbreviation mv := (new_addr pins f).
Abbreviation cursor := (cursor_at pins (gc_fwd_bits f) (gc_fwd_gap f)).

Lemma m1_chain : chain m1 b0 CL_ALIGN bl.
Proof. by eapply marked_chain; [apply Hw|..]. Qed.

Lemma m1_align o : o ∈ bl -> (CL_ALIGN | CL_HDR_SIZE (m1 o)).
Proof. rewrite marked_size. apply Hw. Qed.

Lemma m1_min o : o ∈ bl -> sizeof_FreeBlock <= CL_HDR_SIZE (m1 o).
Proof. rewrite marked_size. apply Hw. Qed.

Lemma mv_bounds o : R o -> CL_ALIGN <= mv o <= o /\ mv o + CL_HDR_SIZE (m0 o) <= cursor b0.
Proof.
  intros [Ho Hmk]%live_reach. rewrite <- marked_size.
  destruct (cursor_walk m1 b0 bl pins m1_chain m1_align f Hf m1_min bl [] b0) as (_ & _ & W);
    [by rewrite app_nil_r|apply m1_chain|by apply W].
Qed.

Lemma mv_order o o' : R o -> R o' -> o < o' -> mv o + CL_HDR_SIZE (m0 o) <= mv o'.
Proof.
  intros [Ho Hmk]%live_reach [Ho' Hmk']%live_reach Hlt. rewrite <- marked_size. pose proof m1_chain as Hc.
  destruct (list_elem_of_split _ _ Ho') as (dn & l & Ebl). rewrite Ebl in Hc. apply chain_app in Hc as (mid & Hd & Hc).
  destruct (walk_next_step _ _ _ _ _ Hc) as (<- & _ & Hc').
  destruct (cursor_walk m1 b0 bl pins m1_chain m1_align f Hf m1_min dn _ o' Ebl Hd) as (W1 & _ & W2).
  assert (Hod : o ∈ dn).
  { rewrite Ebl, elem_of_app, elem_of_cons in Ho. destruct Ho as [?|[->|Hl]]; [done|lia|].
    destruct (chain_bounds _ _ _ _ Hc') as [_ Hb]. destruct (Hb o Hl) as (Hb1 & _). unfold block_end in Hb1.
    pose proof (size_range (m1 o')). lia. }
  destruct (W2 o Hod Hmk) as [W3 W4]. destruct (placed_cases m1 b0 bl pins f Hf o' Ho' Hmk') as [[_ E]|[_ E]]; rewrite E; lia.
Qed.

Lemma mv_pinned o : R o -> o ∈ pins -> mv o = o.
Proof.
  intros [Ho Hmk]%live_reach Hp. by destruct (placed_cases m1 b0 bl pins f Hf o Ho Hmk) as [[_ ?]|[? _]].
Qed.

(** What a slot refers to is reachable. *)
Definition good_word (v : Z) : Prop := tagged v /\ (is_ref arena_size v = true -> R v).

Lemma slot_good o a : R o -> a ∈ slots_of m0 o -> good_word (m0 a).
Proof. intros HR Ha. split; [by apply (mo_words Hmo o)|]. intros E. by eapply reach_slot. Qed.

Lemma root_good a : a ∈ root_slots r -> good_word (m0 a).
Proof. intros Ha. split; [by apply (mo_root_words Hmo)|]. intros E. by apply reach_root. Qed.

Lemma forward_word v : good_word v -> gc_forward b0 pins f v = moved_word arena_size mv v.
Proof.
  intros [Ht Hr]. unfold moved_word. destruct (is_ref arena_size v) eqn:E.
  - destruct (proj2 (live_reach v) (Hr eq_refl)) as [Ho Hmk].
    destruct (live_bounds m1 b0 bl m1_chain m1_align v Ho) as (D1 & _ & L1 & L2).
    rewrite (gc_forward_live m1 b0 bl pins m1_chain m1_align Hasc (mo_page Hmo) f Hf m1_min v v Ho Hmk); [lia|lia|done].
  - apply gc_forward_other. destruct Ht as [?|Ht]; [by left|]. unfold is_ref in E. rewrite Ht in E. cbn in E.
    destruct (v =? 0) eqn:E0; [left; by replace v with 0 by lia|right]. pose proof (hw_bump _ _ _ _ _ _ Hw). cbn in E. lia.
Qed.

Lemma moved_kind v : good_word v -> same_kind v (moved_word arena_size mv v).
Proof.
  intros [_ Hr]. unfold moved_word. destruct (is_ref arena_size v) eqn:E; [|apply same_kind_refl].
  specialize (Hr eq_refl). destruct (mv_bounds v Hr) as [B1 _]. pose proof align_pos. pose proof (mo_page Hmo). pose proof page_size as [Ep _].
  destruct (hw_obj _ _ _ _ _ _ Hw v Hr) as [Hv _]. destruct (chain_bounds _ _ _ _ (hw_chain _ _ _ _ _ _ Hw)) as [_ Hb].
  destruct (Hb v Hv) as (_ & B2 & B3). unfold block_end in B3. unfold same_kind, CL_UNBOUND. lia.
Qed.

Lemma live_slots_iff a : a ∈ live_slots m1 bl <-> exists o, R o /\ a ∈ slots_of m0 o.
Proof.
  rewrite elem_of_live_slots. split.
  - intros (o & Ho & Hmk & Ha). assert (HR : R o) by by apply live_reach. exists o. split; [done|].
    by rewrite <- (proj1 (marked_slots o HR)).
  - intros (o & HR & Ha). pose proof (proj2 (live_reach o) HR) as [Ho Hmk]. exists o. split; [done|]. split; [done|].
    by rewrite (proj1 (marked_slots o HR)).
Qed.

Lemma references_forwarded_here : forwarded (gc_forward b0 pins f) (root_slots r ++ live_slots m1 bl) m1
  (gc_update_all_references (gc_forward b0 pins f) slot_alloc_ok gc_root_slot_cap b0 (r_threads r) (r_registered r) (r_shared r) m1).
Proof.
  apply (references_forwarded (gc_forward b0 pins f) arena_size b0 m1 bl m1_chain (hw_bump _ _ _ _ _ _ Hw)).
  - intros o HR%live_reach. by apply marked_slots.
  - intros o a HR%live_reach. rewrite (proj1 (marked_slots o HR)). intros Ha. rewrite (marked_slot o a HR Ha).
    pose proof (slot_good o a HR Ha) as Hg. rewrite forward_word by done. by apply moved_kind.
  - intros o o' a HR%live_reach HR'%live_reach Hne. rewrite (proj1 (marked_slots o HR)), (proj1 (marked_slots o' HR')).
    by apply (mo_apart Hmo).
  - apply (mo_walks Hmo).
  - apply (mo_registered Hmo).
  - apply (hw_roots _ _ _ _ _ _ Hw).
  - intros o a HR%live_reach Ha. rewrite (proj1 (marked_slots o HR)). by apply (mo_roots Hmo).
Qed.

(** *** The memory between pass 3 and the slide *)

Section Updated.
Context (m3 : memory) (H3 : forwarded (gc_forward b0 pins f) (root_slots r ++ live_slots m1 bl) m1 m3).

Lemma updated_header o : o ∈ bl -> m3 o = m1 o.
Proof.
  intros Ho. rewrite H3, bool_decide_eq_false_2; [done|]. rewrite elem_of_app, live_slots_iff.
  intros [Hr|(o' & HR & Ha)].
  - destruct (block_inside _ _ _ _ o (hw_chain _ _ _ _ _ _ Hw) (hw_bump _ _ _ _ _ _ Hw) Ho).
    destruct (hw_roots _ _ _ _ _ _ Hw o Hr); lia.
  - destruct (hw_obj _ _ _ _ _ _ Hw o' HR) as [Hb Hfit]. revert Ho.
    eapply (inner_no_header arena_size _ _ bl o'); [apply Hw..|done|]. by apply (slot_place arena_size).
Qed.

Lemma updated_slot o a : R o -> a ∈ slots_of m0 o -> m3 a = moved_word arena_size mv (m0 a).
Proof.
  intros HR Ha. rewrite H3, bool_decide_eq_true_2.
  - rewrite (marked_slot o a HR Ha). apply forward_word. by apply (slot_good o).
  - rewrite elem_of_app, live_slots_iff. right. by exists o.
Qed.

Lemma updated_root a : a ∈ root_slots r -> m3 a = moved_word arena_size mv (m0 a).
Proof.
  intros Ha. rewrite H3, bool_decide_eq_true_2 by (rewrite elem_of_app; tauto).
  rewrite marked_outside by by apply (hw_roots _ _ _ _ _ _ Hw). apply forward_word. by apply root_good.
Qed.

Lemma updated_outside a : outside arena_size a -> a ∉ root_slots r -> (forall o, R o -> a ∉ slots_of m0 o) -> m3 a = m0 a.
Proof.
  intros Ha Hr Hs. rewrite H3, bool_decide_eq_false_2; [by apply marked_outside|].
  rewrite elem_of_app, live_slots_iff. intros [?|(o & HR & ?)]; [done|]. by apply (Hs o).
Qed.

Lemma updated_word o a : R o -> o < a < block_end m0 o -> a ∉ slots_of m0 o -> m3 a = m0 a.
Proof.
  intros HR Ha Hn. destruct (proj2 (live_reach o) HR) as [Ho Hmk].
  rewrite H3, bool_decide_eq_false_2; [by eapply marked_inner; [apply Hw|..]|].
  rewrite elem_of_app, live_slots_iff. intros [Hr|(o' & HR' & Ha')].
  - pose proof (hw_bump _ _ _ _ _ _ Hw). destruct (chain_bounds _ _ _ _ (hw_chain _ _ _ _ _ _ Hw)) as [_ Hb].
    specialize (Hb o Ho). pose proof align_pos. destruct (hw_roots _ _ _ _ _ _ Hw a Hr); lia.
  - assert (o' = o) as ->; [|done]. apply (slot_in_own arena_size b0 m1 bl m1_chain (hw_bump _ _ _ _ _ _ Hw)) with (a := a).
    + intros x Hx%live_reach. by apply marked_slots.
    + by apply live_reach.
    + done.
    + by rewrite (proj1 (marked_slots o' HR')).
    + unfold block_end in *. rewrite marked_size. lia.
Qed.

Lemma updated_slots o : R o -> slots_of m3 o = slots_of m0 o /\ obj_fits arena_size m3 o /\
  CL_HDR_SIZE (m3 o) = CL_HDR_SIZE (m0 o) /\ m3 o = CL_HDR_SET_MARK (m0 o).
Proof.
  intros HR. destruct (hw_obj _ _ _ _ _ _ Hw o HR) as [Ho Hfit]. pose proof (updated_header o Ho) as E.
  assert (Hs : slots_only m0 m3 o).
  { split; [rewrite E; apply marked_size|rewrite E; apply marked_type| |].
    - intros a. by apply updated_word.
    - intros a Ha. rewrite (updated_slot o a HR Ha). apply moved_kind. by apply (slot_good o). }
  split_and!; [by apply (slots_only_same arena_size)|by eapply slots_only_fits|apply Hs|].
  rewrite E. by apply (mh_live _ _ _ _ _ Hm).
Qed.

Lemma m3_chain : chain m3 b0 CL_ALIGN bl.
Proof. eapply blocks_ext; [apply m1_chain|]. intros o Ho. by rewrite updated_header. Qed.

Lemma m3_align o : o ∈ bl -> (CL_ALIGN | CL_HDR_SIZE (m3 o)).
Proof. intros Ho. rewrite updated_header by done. by apply m1_align. Qed.

Lemma m3_min o : o ∈ bl -> sizeof_FreeBlock <= CL_HDR_SIZE (m3 o).
Proof. intros Ho. rewrite updated_header by done. by apply m1_min. Qed.

Lemma m3_live o : o ∈ bl -> CL_HDR_MARKED (m3 o) = true <-> R o.
Proof. intros Ho. rewrite updated_header by done. pose proof (live_reach o). tauto. Qed.

(** The forwarding structures are those of this memory too. *)
Lemma m3_forwarding : forwarding m3 b0 bl pins f.
Proof.
  destruct Hf as [[A1 A2 A3 A4 A5 A6 A7] Hp]. split; [|done].
  split; try done.
  - intros g Hg. rewrite A3 by done. split; intros (o & Ho & Hx & Hr); exists o; unfold block_end in *;
      rewrite (updated_header o Ho) in *; done.
  - intros j p g H1 H2. destruct (A6 j p g H1 H2) as [?|[Ho Hx]]; [by left|right]. by rewrite updated_header.
  - intros o Ho. rewrite updated_header by done. by apply A7.
Qed.

(** *** After the slide *)

Section Slid.
Context (pre fl : list Z) (h' : CL_Heap) (Hsl : slid_all m3 b0 bl pins f pre fl h') (Hpins : pins ≡ₚ jit_pinned r).
Abbreviation m' := (hp_mem h').

Lemma slid_heap : exists st, slid m3 b0 pins f bl pre fl b0 st /\ hp_mem (sl_heap st) = m' /\ free_list (sl_heap st) = free_list h' /\
  bump h' = cursor b0 /\ total_allocated h' = live_bytes m3 bl.
Proof. destruct Hsl as (st & Hs & ->). exists st. split; [done|]. cbn. split_and!; [done|done|apply Hs|apply Hs]. Qed.

Lemma final_bump : CL_ALIGN <= bump h' <= b0.
Proof.
  destruct slid_heap as (st & Hs & _ & _ & -> & _).
  destruct (cursor_walk m3 b0 bl pins m3_chain m3_align f m3_forwarding m3_min bl [] b0) as (W & _);
    [by rewrite app_nil_r|apply m3_chain|done].
Qed.

Lemma final_object o : R o -> mv o ∈ pre /\ moved m3 m' o (mv o) /\ m' (mv o) = m0 o /\ mv o + CL_HDR_SIZE (m0 o) <= bump h'.
Proof.
  intros HR. destruct (proj2 (live_reach o) HR) as [Ho _]. destruct slid_heap as (st & Hs & Em & _ & -> & _).
  destruct (sd_obj _ _ _ _ _ _ _ _ _ Hs o Ho (proj2 (m3_live o Ho) HR)) as (H1 & H2 & H4). rewrite Em in *.
  split_and!; [done| | |by apply mv_bounds].
  - split; [by rewrite H2, size_clr_mark|by rewrite H2, type_clr_mark|done].
  - destruct (updated_slots o HR) as (_ & _ & _ & E). rewrite H2, E. apply clr_set_mark. by apply (hw_clear _ _ _ _ _ _ Hw).
Qed.

Lemma final_outside a : outside arena_size a -> m' a = m3 a.
Proof.
  intros Ha. destruct slid_heap as (st & Hs & Em & _). rewrite <- Em. apply (sd_ahead _ _ _ _ _ _ _ _ _ Hs).
  pose proof (hw_bump _ _ _ _ _ _ Hw). pose proof align_pos. destruct Ha; lia.
Qed.

Lemma final_slots o : R o -> slots_of m' (mv o) = map (relocate m0 o (mv o)) (slots_of m0 o).
Proof.
  intros HR. destruct (final_object o HR) as (_ & Hmv & _). destruct (updated_slots o HR) as (E & Hfit & Es & _).
  rewrite (children_moved arena_size m3 m' o (mv o) Hfit Hmv), E. apply map_ext. intros a.
  unfold relocate, block_end. by rewrite Es.
Qed.

Lemma final_slot_word o a : R o -> a ∈ slots_of m0 o -> m' (relocate m0 o (mv o) a) = moved_word arena_size mv (m0 a).
Proof.
  intros HR Ha. destruct (hw_obj _ _ _ _ _ _ Hw o HR) as [Ho Hfit]. rewrite <- (updated_slot o a HR Ha).
  destruct (slot_cases arena_size m0 o a Hfit Ha) as [(k & -> & Hk & _)|[Hout _]].
  - rewrite relocate_inside by lia. destruct (final_object o HR) as (_ & Hmv & _).
    apply (mv_words _ _ _ _ Hmv). destruct (updated_slots o HR) as (_ & _ & -> & _). lia.
  - rewrite (relocate_outside arena_size) by done. by apply final_outside.
Qed.

Lemma pre_cases x : x ∈ pre <-> (exists o, R o /\ x = mv o) \/ x ∈ fl.
Proof.
  destruct slid_heap as (st & Hs & _). split.
  - intros Hx. destruct (sd_rest _ _ _ _ _ _ _ _ _ Hs x Hx) as [(o & Ho & Hmk & E)|?]; [left|by right].
    exists o. split; [by apply m3_live|done].
  - intros [(o & HR & ->)|Hx]; [by apply final_object|]. by apply (sd_fl _ _ _ _ _ _ _ _ _ Hs).
Qed.

Lemma pre_fields x : x ∈ pre -> sizeof_FreeBlock <= CL_HDR_SIZE (m' x) /\ (CL_ALIGN | CL_HDR_SIZE (m' x)) /\ CL_HDR_MARKED (m' x) = false.
Proof.
  intros [(o & HR & ->)|Hx]%pre_cases.
  - destruct (final_object o HR) as (_ & _ & -> & _). destruct (hw_obj _ _ _ _ _ _ Hw o HR) as [Ho _]. split_and!; by apply Hw.
  - apply free_block_fields. destruct slid_heap as (st & Hs & <- & _). by apply (sd_fl _ _ _ _ _ _ _ _ _ Hs).
Qed.

Lemma final_chain : chain m' (bump h') CL_ALIGN pre.
Proof. destruct slid_heap as (st & Hs & <- & _ & -> & _). apply Hs. Qed.

Lemma mv_is_ref o : R o -> is_ref arena_size (mv o) = true.
Proof.
  intros HR. apply (block_is_ref arena_size (bump h') m' pre); [apply final_chain| | |by apply final_object].
  - pose proof final_bump. pose proof (hw_bump _ _ _ _ _ _ Hw). lia.
  - intros x Hx. by apply pre_fields.
Qed.

Lemma moved_is_ref v : good_word v -> is_ref arena_size (moved_word arena_size mv v) = is_ref arena_size v.
Proof. intros [_ Hr]. unfold moved_word. destruct (is_ref arena_size v) eqn:E; [|done]. by apply mv_is_ref, Hr. Qed.

Lemma pinned_stay o : o ∈ jit_pinned r -> mv o = o.
Proof. intros Ho. apply mv_pinned; [by apply reach_pin|by rewrite Hpins]. Qed.

Lemma final_reach x : reachable arena_size m' (root_slots r) (jit_pinned r) x <-> exists o, R o /\ x = mv o.
Proof.
  assert (Hroot : forall a, a ∈ root_slots r -> m' a = moved_word arena_size mv (m0 a)).
  { intros a Ha. rewrite final_outside by by apply (hw_roots _ _ _ _ _ _ Hw). by apply updated_root. }
  assert (Hword : forall v, is_ref arena_size v = true -> moved_word arena_size mv v = mv v) by (intros v E; unfold moved_word; by rewrite E).
  split.
  - induction 1 as [a Ha E|p Hp|p a Hp IH Ha E].
    + rewrite Hroot, moved_is_ref in E by (done || by apply root_good). exists (m0 a).
      split; [by apply reach_root|]. by rewrite Hroot, Hword.
    + exists p. split; [by apply reach_pin|]. by rewrite pinned_stay.
    + destruct IH as (o & HR & ->). rewrite (final_slots o HR) in Ha. apply list_elem_of_In, in_map_iff in Ha as (b & <- & Hb).
      apply list_elem_of_In in Hb. rewrite (final_slot_word o b HR Hb) in *. pose proof (slot_good o b HR Hb) as Hg.
      rewrite moved_is_ref in E by done. exists (m0 b). split; [by eapply reach_slot|by rewrite Hword].
  - intros (o & HR & ->). induction HR as [a Ha E|p Hp|p a Hp IH Ha E].
    + rewrite <- Hword, <- (Hroot a) by done. apply reach_root; [done|]. rewrite Hroot, moved_is_ref by (done || by apply root_good). done.
    + rewrite pinned_stay by done. by apply reach_pin.
    + rewrite <- Hword, <- (final_slot_word p a Hp Ha) by done. eapply reach_slot; [exact IH| |].
      * rewrite (final_slots p Hp). apply list_elem_of_In, in_map_iff. exists a. split; [done|by apply list_elem_of_In].
      * rewrite (final_slot_word p a Hp Ha), moved_is_ref by (done || by apply (slot_good p)). done.
Qed.

Lemma final_wf : heap_wf arena_size (bump h') m' pre (root_slots r) (jit_pinned r).
Proof.
  pose proof final_bump. pose proof (hw_bump _ _ _ _ _ _ Hw). split; try apply Hw; try apply final_chain; try lia.
  1-3: intros x Hx; by apply pre_fields.
  intros x (o & HR & ->)%final_reach. destruct (final_object o HR) as (Hp & Hmv & _ & Hb). split; [done|].
  destruct (updated_slots o HR) as (_ & Hfit & Es & _). destruct (mv_bounds o HR) as [B _]. pose proof align_pos.
  apply (moved_fits arena_size m3 m' o (mv o) Hfit Hmv); [lia|]. rewrite Es. lia.
Qed.

Lemma final_graph : same_graph arena_size (root_slots r) (jit_pinned r) mv m0 m'.
Proof.
  split.
  - apply final_reach.
  - intros o o' HR HR' E. destruct (Z.lt_trichotomy o o') as [Hlt|[?|Hlt]]; [|done|];
      [pose proof (mv_order o o' HR HR' Hlt)|pose proof (mv_order o' o HR' HR Hlt)].
    all: assert (Hs : forall x, R x -> 0 < CL_HDR_SIZE (m0 x)) by
      (intros x Hx; destruct (hw_obj _ _ _ _ _ _ Hw x Hx) as [Hb _];
       pose proof (hw_min _ _ _ _ _ _ Hw x Hb); unfold sizeof_FreeBlock in *; lia).
    all: pose proof (Hs o HR); pose proof (Hs o' HR'); lia.
  - apply mv_is_ref.
  - apply pinned_stay.
  - intros o HR. by apply final_object.
  - apply final_slots.
  - apply final_slot_word.
  - intros o k HR Hk Hn. destruct (final_object o HR) as (_ & Hmv & _). destruct (updated_slots o HR) as (_ & _ & Es & _).
    rewrite (mv_words _ _ _ _ Hmv) by lia. apply (updated_word o); [done|unfold block_end; lia|done].
  - intros a Ha. rewrite final_outside by by apply (hw_roots _ _ _ _ _ _ Hw). by apply updated_root.
Qed.

Lemma final_compacted : compacted mv h' pre fl.
Proof.
  destruct slid_heap as (st & Hs & Em & Efl & Eb & Et). split.
  - apply final_wf.
  - apply final_graph.
  - apply final_bump.
  - intros o HR. by apply mv_bounds.
  - apply mv_order.
  - intros a Ha Hr Hso. rewrite final_outside by done. by apply updated_outside.
  - apply pre_cases.
  - rewrite <- Em, <- Efl. split; apply Hs.
  - intros x Hx. rewrite <- Em. destruct (sd_fl _ _ _ _ _ _ _ _ _ Hs x Hx) as (_ & H1 & H2). split; [done|].
    intros o HR. destruct (proj2 (live_reach o) HR) as [Ho _]. apply H2; [done|by apply m3_live].
  - intros Ep. rewrite Eb, Et. apply (sd_dense _ _ _ _ _ _ _ _ _ Hs). apply Permutation_nil_r. by rewrite Hpins, Ep.
Qed.

End Slid.

End Updated.

End Forwarded.

End Marked.
End Proof.

(** ** The theorems *)

Section Theorems.
Context {L : Layout} {LL : LayoutLaws L} {C : MarkConfig} {K : CompactConfig}.

(** Passes 2 to 4 from the marked heap. *)
Lemma compact_passes_moves arena_size gc_finalize_dead r bl s g f0 :
  finalize_local gc_finalize_dead -> 0 < CL_GC_MARK_STACK_SIZE < 2 ^ 31 /\ 0 <= gc_mark_stack_test_limit < 2 ^ 31 ->
  movable arena_size r bl s ->
  marked_heap arena_size (root_slots r) (jit_pinned r) s g ->
  gc_fwd_alloc fwd_alloc_ok cl_gc_fwd_fail_over (bump (gs_heap s)) (length (jit_pinned r)) = Some f0 ->
  exists mv pre fl, compacted arena_size r s mv (compact_passes gc_finalize_dead r f0 (gs_heap g)) pre fl.
Proof.
  intros Hfin Hbuf Hmo Hm Halloc. pose proof (mo_wf _ _ _ _ Hmo) as Hw. pose proof (mh_bump _ _ _ _ _ Hm) as Eb.
  destruct (gc_compute_forwarding_spec (hp_mem (gs_heap g)) (bump (gs_heap s)) bl (jit_pinned r) f0)
    as (pins & f & E & Hp & Hasc & Hf).
  - eapply marked_chain; [apply Hw|done].
  - intros o Ho. rewrite (marked_fields_same arena_size _ _ s g o Hm). by apply Hw.
  - apply (mo_page _ _ _ _ Hmo).
  - by eapply gc_fwd_alloc_fresh.
  - set (m3 := gc_update_all_references (gc_forward (bump (gs_heap s)) pins f) slot_alloc_ok gc_root_slot_cap
      (bump (gs_heap s)) (r_threads r) (r_registered r) (r_shared r) (hp_mem (gs_heap g))).
    assert (H3 : forwarded (gc_forward (bump (gs_heap s)) pins f)
      (root_slots r ++ live_slots (hp_mem (gs_heap g)) bl) (hp_mem (gs_heap g)) m3).
    { by apply (references_forwarded_here arena_size r bl s Hmo g Hm). }
    destruct (gc_slide_slid gc_finalize_dead m3 (bump (gs_heap s)) bl pins f Hfin
      (m3_chain arena_size r bl s Hmo g Hm pins f m3 H3) (mo_page _ _ _ _ Hmo)
      (m3_align arena_size r bl s Hmo g Hm pins f m3 H3) (m3_min arena_size r bl s Hmo g Hm pins f m3 H3) Hasc
      (m3_forwarding arena_size r bl s Hmo g Hm pins f Hf m3 H3) (heap_mem m3 (gs_heap g)) eq_refl Eb)
      as (pre & fl & Hsl).
    exists (new_addr pins f), pre, fl. unfold compact_passes. rewrite Eb, E.
    by eapply final_compacted with (bl := bl) (s1 := g) (m3 := m3).
Qed.

(** C7: A compaction of a heap whose references can be told apart moves every
    reachable object down, in order and without overlap, pinned objects not at
    all, and replaces every reference to it: the new heap is well formed, its
    reachable objects are exactly the images of the old ones, each with the old
    header, slots and words, every root and slot refers to the image of what it
    referred to, all other blocks are on the free list, and without pins the
    live data is dense below the bump front.  This is the heap as the slide leaves
    it, before the hash tables are rebuilt for the new addresses. *)
Theorem cl_gc_compact_correct arena_size gc_finalize_dead r bl s f0 :
  finalize_local gc_finalize_dead ->
  0 < CL_GC_MARK_STACK_SIZE < 2 ^ 31 /\ 0 <= gc_mark_stack_test_limit < 2 ^ 31 ->
  movable arena_size r bl (cs_gc s) -> mark_idle (cs_gc s) -> gc_jit_pin_oom r = false ->
  gc_fwd_alloc fwd_alloc_ok cl_gc_fwd_fail_over (bump (gs_heap (cs_gc s))) (length (jit_pinned r)) = Some f0 ->
  let s' := cl_gc_compact arena_size gc_finalize_dead r s in
  gc_fwd_fail_bump s' = 0 /\ compact_count s' = u32 (compact_count s + 1) /\
  gc_count (cs_gc s') = u32 (gc_count (cs_gc s) + 1) /\ mark_idle (cs_gc s') /\
  exists mv pre fl, compacted arena_size r (cs_gc s) mv (gs_heap (cs_gc s')) pre fl.
Proof.
  intros Hfin Hbuf Hmo Hidle Hoom Halloc s'. pose proof (mo_wf _ _ _ _ Hmo) as Hw.
  pose proof (mark_heap_spec arena_size Hbuf (root_slots r) (jit_pinned r) bl (cs_gc s) Hw Hidle) as Hm.
  unfold s', cl_gc_compact. rewrite Hoom. set (g := mark_heap _ _ _ _) in *. rewrite (mh_bump _ _ _ _ _ Hm), Halloc.
  destruct (compact_passes_moves arena_size gc_finalize_dead r bl (cs_gc s) g f0) as (mv & pre & fl & Hc); [done..|].
  cbn [cs_gc gc_fwd_fail_bump compact_count]. split; [done|]. split; [done|].
  split; [change (u32 (gc_count g + 1) = u32 (gc_count (cs_gc s) + 1)); by rewrite (mh_count _ _ _ _ _ Hm)|].
  split; [apply (mh_idle _ _ _ _ _ Hm)|]. by exists mv, pre, fl.
Qed.

(** C13: When the pin table is incomplete or the forwarding block cannot be had, the
    compaction is a sweep of the completed mark: nothing moves, every reachable
    object keeps its words, and the failure level is remembered for the second case. *)
Theorem cl_gc_compact_fallback_correct arena_size gc_finalize_dead r bl s :
  finalize_local gc_finalize_dead ->
  0 < CL_GC_MARK_STACK_SIZE < 2 ^ 31 /\ 0 <= gc_mark_stack_test_limit < 2 ^ 31 ->
  heap_wf arena_size (bump (gs_heap (cs_gc s))) (hp_mem (gs_heap (cs_gc s))) bl (root_slots r) (jit_pinned r) ->
  mark_idle (cs_gc s) ->
  gc_jit_pin_oom r = true \/
    gc_fwd_alloc fwd_alloc_ok cl_gc_fwd_fail_over (bump (gs_heap (cs_gc s))) (length (jit_pinned r)) = None ->
  let s' := cl_gc_compact arena_size gc_finalize_dead r s in
  gc_fwd_fail_bump s' = (if gc_jit_pin_oom r then gc_fwd_fail_bump s else bump (gs_heap (cs_gc s))) /\
  compact_count s' = compact_count s /\ gc_count (cs_gc s') = u32 (gc_count (cs_gc s) + 1) /\
  exists pre fl, collected arena_size (root_slots r) (jit_pinned r) (cs_gc s) (cs_gc s') pre fl.
Proof.
  intros Hfin Hbuf Hw Hidle Hfail s'.
  pose proof (mark_heap_spec arena_size Hbuf (root_slots r) (jit_pinned r) bl (cs_gc s) Hw Hidle) as Hm.
  unfold s', cl_gc_compact. set (g := mark_heap _ _ _ _) in *. rewrite (mh_bump _ _ _ _ _ Hm).
  destruct (sweep_collects arena_size gc_finalize_dead Hfin Hbuf _ _ bl (cs_gc s) Hw g Hm) as (pre & fl & Hc).
  assert (Hc' : collected arena_size (root_slots r) (jit_pinned r) (cs_gc s)
    (count_gc (sweep_heap gc_finalize_dead g)) pre fl) by (destruct Hc; by split).
  pose proof (co_bump _ _ _ _ _ _ _ Hc) as Eb. cbn in Eb.
  assert (Ec : gc_count (count_gc (sweep_heap gc_finalize_dead g)) = u32 (gc_count (cs_gc s) + 1)).
  { change (u32 (gc_count g + 1) = u32 (gc_count (cs_gc s) + 1)). by rewrite (mh_count _ _ _ _ _ Hm). }
  destruct (gc_jit_pin_oom r) eqn:Eo.
  - cbn. split_and!; [done..|]. by exists pre, fl.
  - destruct Hfail as [?|Hn]; [done|]. rewrite Hn. cbn. split_and!; [done..|]. by exists pre, fl.
Qed.

End Theorems.

(** ** The sample with holes *)

#[local] Existing Instance Holes.layout.

Definition sample_config : CompactConfig :=
  {| fwd_alloc_ok := fun _ => true; cl_gc_fwd_fail_over := 0; slot_alloc_ok := fun _ => true; gc_root_slot_cap := 4 |}.
Definition holes_roots (oom : bool) : Roots :=
  {| r_threads := []; r_registered := Holes.roots; r_shared := []; jit_pinned := Holes.pinned; gc_jit_pin_oom := oom |}.
Definition holes_state : CompactState :=
  {| cs_gc := {| gs_heap := {| hp_mem := Holes.mem; bump := Holes.bump; free_list := 0; total_allocated := 80 |};
                 gs_mark := sample_start; gc_count := 5 |};
     gc_fwd_fail_bump := 0; compact_count := 2; gc_sweeps_since_compact := 1 |}.

Lemma holes_movable oom : movable (K := sample_config) Holes.arena_size (holes_roots oom) Holes.blocks (cs_gc holes_state).
Proof.
  assert (Ht : forall o a, o ∈ [24; 40; 72] -> a ∈ slots_of Holes.mem o -> (a ∈ [28; 32; 44; 48]) /\ o < a < o + 16).
  { intros o a Ho Ha. Sample.each Ho; vm_compute in Ha; Sample.each Ha; (split; [apply (bool_decide_unpack _); by vm_compute|lia]). }
  assert (Hl : forall o, reachable Holes.arena_size Holes.mem Holes.roots Holes.pinned o -> o ∈ [24; 40; 72]) by apply Holes.holes_live.
  split.
  - apply Holes.holes_wf.
  - done.
  - intros o a HR Ha. destruct (Ht o a (Hl o HR) Ha) as [Hx _]. Sample.each Hx; by vm_compute; auto.
  - intros a Ha. Sample.each Ha; by vm_compute; auto.
  - intros o o' a HR HR' Hne Ha Ha'. destruct (Ht o a (Hl o HR) Ha) as [_ H1], (Ht o' a (Hl o' HR') Ha') as [_ H2].
    pose proof (Hl o HR) as H3. pose proof (Hl o' HR') as H4. Sample.each H3; Sample.each H4; lia.
  - intros o a HR Hr Ha. destruct (Ht o a (Hl o HR) Ha) as [Hx _]. Sample.each Hr; rewrite !elem_of_cons, elem_of_nil in Hx; lia.
  - by apply NoDup_nil.
  - right. left. done.
Qed.

(** The cons at 24 goes to 8 and the string at 72 to 56; the pin at 40 leaves
    the free block at 24. *)
Example cl_gc_compact_correct_witness :
  let s' := cl_gc_compact (C := tiny_stack) (K := sample_config) Holes.arena_size sample_finalize (holes_roots false) holes_state in
  let h := gs_heap (cs_gc s') in
  (exists mv pre fl, compacted Holes.arena_size (holes_roots false) (cs_gc holes_state) mv h pre fl) /\
  (bump h, free_list h, total_allocated h, compact_count s') = (72, 24, 48, 3) /\
  map (hp_mem h) [-4; 8; 12; 16; 24; 48; 56; 64] = [8; 16; 56; 40; 16; 8; CL_MAKE_HDR 2 16; 67].
Proof.
  intros s' h. split; [|by vm_compute].
  refine (proj2 (proj2 (proj2 (proj2 (cl_gc_compact_correct (C := tiny_stack) (K := sample_config) Holes.arena_size sample_finalize
    (holes_roots false) Holes.blocks holes_state {| gc_fwd_bits := [0]; gc_fwd_page := [0]; gc_fwd_gap := [0] |} _ _ _ _ _ _))))).
  - by intros m o a _.
  - done.
  - apply holes_movable.
  - done.
  - done.
  - by vm_compute.
Defined.

(** The same heap with an incomplete pin table. *)
Example cl_gc_compact_fallback_correct_witness :
  let s' := cl_gc_compact (C := tiny_stack) (K := sample_config) Holes.arena_size sample_finalize (holes_roots true) holes_state in
  (exists pre fl, collected Holes.arena_size (root_slots (holes_roots true)) Holes.pinned (cs_gc holes_state) (cs_gc s') pre fl) /\
  free_list (gs_heap (cs_gc s')) = 56 /\ compact_count s' = 2.
Proof.
  intros s'. split; [|by vm_compute].
  refine (proj2 (proj2 (proj2 (cl_gc_compact_fallback_correct (C := tiny_stack) (K := sample_config) Holes.arena_size sample_finalize
    (holes_roots true) Holes.blocks holes_state _ _ _ _ _)))).
  - by intros m o a _.
  - done.
  - apply Holes.holes_wf.
  - done.
  - by left.
Defined.
