(* ===== verification/GcNext.v ===== *)
(** * One collection after another

    What a collection leaves is fit for the next one: the sweep and the
    compaction keep [movable], so any sequence of collections with allocations
    in between stays within the theorems. *)

From Stdlib Require Import ZArith Lia ZifyBool.
From stdpp Require Import base option list sets sorting.
From S2P Require Import Prelude GcHeap GcGraph GcMark GcSweep GcCollect GcFwd GcSlide GcMove GcCompact.
From S2P Require Import GcLookup.
Local Open Scope Z_scope.

Section Next.
Context {L : Layout} {LL : LayoutLaws L} {K : CompactConfig} (arena_size : Z) (r : Roots).
Context (Harena : arena_size + GC_FWD_PAGE <= 2 ^ 32).

Abbreviation R m := (reachable arena_size m (root_slots r) (jit_pinned r)).
Abbreviation same := (same_graph arena_size (root_slots r) (jit_pinned r)).

Lemma reach_facts g bl o : movable arena_size r bl g -> R (hp_mem (gs_heap g)) o ->
  o ∈ bl /\ 0 < CL_HDR_SIZE (hp_mem (gs_heap g) o) /\ obj_fits arena_size (hp_mem (gs_heap g)) o /\ is_ref arena_size o = true.
Proof.
  intros Hm HR. pose proof (mo_wf _ _ _ _ Hm) as Hw. destruct (hw_obj _ _ _ _ _ _ Hw o HR) as [Hb Hf]. split; [done|].
  pose proof (hw_min _ _ _ _ _ _ Hw o Hb). unfold sizeof_FreeBlock in *. split; [lia|]. split; [done|].
  by eapply block_is_ref; [apply Hw..|].
Qed.

(** The same words in the reachable objects and outside: the same graph, and as
    good for a collection, when the blocks are. *)
Section Kept.
Context (g g' : GcState) (bl bl' : list Z).
Abbreviation m := (hp_mem (gs_heap g)).
Abbreviation m' := (hp_mem (gs_heap g')).
Context (Hm : movable arena_size r bl g).
Context (Hw : forall o a, R m o -> o <= a < block_end m o -> m' a = m a) (Hout : forall a, outside arena_size a -> m' a = m a).

Lemma kept_graph : same (fun o => o) m m'.
Proof.
  apply same_graph_id; [|apply (hw_roots _ _ _ _ _ _ (mo_wf _ _ _ _ Hm))|done|done].
  intros o HR. by destruct (reach_facts _ _ o Hm HR) as (_ & ? & ? & ?).
Qed.

Lemma kept_reach o : R m' o <-> R m o.
Proof. rewrite (sg_reach _ _ _ _ _ _ kept_graph). split; [by intros (x & ? & ->)|by exists o]. Qed.

Lemma kept_slots o : R m o -> slots_of m' o = slots_of m o /\ forall a, a ∈ slots_of m o -> m' a = m a.
Proof.
  apply (frame_slots arena_size m m' (root_slots r) (jit_pinned r)); [|done|done].
  intros x HR. by destruct (reach_facts _ _ x Hm HR) as (_ & ? & ? & _).
Qed.

Lemma kept_fits o : R m o -> obj_fits arena_size m' o.
Proof.
  apply (frame_fits arena_size m m' (root_slots r) (jit_pinned r)); [|done|done].
  intros x HR. by destruct (reach_facts _ _ x Hm HR) as (_ & ? & ? & _).
Qed.

Lemma kept_movable : heap_wf arena_size (bump (gs_heap g')) m' bl' (root_slots r) (jit_pinned r) -> movable arena_size r bl' g'.
Proof.
  intros Hwf. destruct Hm as [M1 M2 M3 M4 M5 M6 M7 M8]. split; try done.
  - pose proof (hw_bump _ _ _ _ _ _ Hwf). lia.
  - intros o a HR%kept_reach. destruct (kept_slots o HR) as [-> E]. intros Ha. rewrite E by done. by apply (M3 o).
  - intros a Ha. rewrite Hout by by apply (hw_roots _ _ _ _ _ _ M1). by apply M4.
  - intros o o' a HR%kept_reach HR'%kept_reach Hne. destruct (kept_slots o HR) as [-> _], (kept_slots o' HR') as [-> _].
    by apply M5.
  - intros o a HR%kept_reach Ha. destruct (kept_slots o HR) as [-> _]. by apply M6.
Qed.

End Kept.

(** ** After a sweep *)

Lemma collected_movable g g' bl pre fl : movable arena_size r bl g ->
  collected arena_size (root_slots r) (jit_pinned r) g g' pre fl ->
  movable arena_size r pre g' /\ same (fun o => o) (hp_mem (gs_heap g)) (hp_mem (gs_heap g')).
Proof.
  intros Hm Hc. pose proof (mo_wf _ _ _ _ Hm) as Hw. pose proof (hw_bump _ _ _ _ _ _ Hw). pose proof align_pos.
  assert (Hout : forall a, outside arena_size a -> hp_mem (gs_heap g') a = hp_mem (gs_heap g) a).
  { intros a Ha. apply (co_outer _ _ _ _ _ _ _ Hc). destruct Ha; lia. }
  pose proof (co_words _ _ _ _ _ _ _ Hc) as Hold. split.
  - apply (kept_movable g g' bl pre Hm Hold Hout). apply Hc.
  - by apply (kept_graph g g' bl Hm Hold Hout).
Qed.

(** ** After a compaction *)

Section Compacted.
Context (g g' : GcState) (bl pre fl : list Z) (mv : Z -> Z) (Hm : movable arena_size r bl g).
Context (Hc : compacted arena_size r g mv (gs_heap g') pre fl).
Abbreviation m := (hp_mem (gs_heap g)).
Abbreviation m' := (hp_mem (gs_heap g')).
Abbreviation Hg := (cp_graph _ _ _ _ _ _ _ Hc).

Lemma compacted_tagged v : tagged v -> (is_ref arena_size v = true -> R m v) -> tagged (moved_word arena_size mv v).
Proof.
  unfold moved_word. intros Hv Hr. destruct (is_ref arena_size v) eqn:E; [|done]. right.
  pose proof (sg_ref _ _ _ _ _ _ Hg v (Hr eq_refl)) as Hi. unfold is_ref in Hi. lia.
Qed.

(** A slot of a moved object: a word of its own block, or the same word
    outside as before. *)
Lemma compacted_slot o a : R m o -> a ∈ slots_of m' (mv o) ->
  exists b, b ∈ slots_of m o /\ m' a = moved_word arena_size mv (m b) /\
    ((mv o < a < block_end m' (mv o)) \/ (outside arena_size a /\ a = b)).
Proof.
  intros HR Ha. pose proof (sg_slots _ _ _ _ _ _ Hg o HR) as Es. rewrite Es in Ha.
  apply list_elem_of_In, in_map_iff in Ha as (b & <- & Hb%list_elem_of_In). exists b. split; [done|].
  split; [by apply (sg_slot_words _ _ _ _ _ _ Hg)|]. destruct (reach_facts g bl o Hm HR) as (_ & _ & Hf & _).
  destruct (slot_cases arena_size m o b Hf Hb) as [(k & -> & Hk & _)|[Ho _]].
  - left. rewrite relocate_inside by lia. unfold block_end. rewrite (sg_header _ _ _ _ _ _ Hg o HR). lia.
  - right. rewrite (relocate_outside arena_size) by done. done.
Qed.

Lemma compacted_inside o a : R m o -> mv o < a < block_end m' (mv o) -> 0 <= a < arena_size.
Proof.
  intros HR Ha. pose proof (cp_wf _ _ _ _ _ _ _ Hc) as Hw. destruct (hw_obj _ _ _ _ _ _ Hw (mv o)) as [Hb _].
  { apply (sg_reach _ _ _ _ _ _ Hg). by exists o. }
  destruct (chain_bounds _ _ _ _ (hw_chain _ _ _ _ _ _ Hw)) as [_ H]. destruct (H _ Hb). pose proof (hw_bump _ _ _ _ _ _ Hw).
  pose proof align_pos. lia.
Qed.

Lemma compacted_apart o o' a : R m o -> R m o' -> o <> o' -> a ∈ slots_of m' (mv o) -> a ∉ slots_of m' (mv o').
Proof.
  intros HR HR' Hne Ha Ha'. destruct (compacted_slot o a HR Ha) as (b & Hb & _ & Hor).
  destruct (compacted_slot o' a HR' Ha') as (b' & Hb' & _ & Hor').
  destruct Hor as [Hin|[Hx ->]], Hor' as [Hin'|[Hx' ->]].
  - pose proof (cp_wf _ _ _ _ _ _ _ Hc) as Hw. assert (Hp : forall x, R m x -> mv x ∈ pre).
    { intros x Hx. apply (hw_obj _ _ _ _ _ _ Hw). apply (sg_reach _ _ _ _ _ _ Hg). by exists x. }
    destruct (chain_disjoint _ _ _ _ (mv o) (mv o') (hw_chain _ _ _ _ _ _ Hw)); [by apply Hp..| |lia|lia].
    intros E. by apply Hne, (sg_inj _ _ _ _ _ _ Hg).
  - pose proof (compacted_inside o b' HR Hin). destruct Hx'; lia.
  - pose proof (compacted_inside o' b HR' Hin'). destruct Hx; lia.
  - by apply (mo_apart _ _ _ _ Hm o o' b').
Qed.

Lemma compacted_movable : movable arena_size r pre g'.
Proof.
  assert (Hinv : forall x, R m' x -> exists o, R m o /\ x = mv o) by (intros x; apply (sg_reach _ _ _ _ _ _ Hg)).
  split; try apply Hc; try apply Hm.
  - pose proof (cp_bump _ _ _ _ _ _ _ Hc). pose proof (mo_page _ _ _ _ Hm). lia.
  - intros x a (o & HR & ->)%Hinv Ha. destruct (compacted_slot o a HR Ha) as (b & Hb & -> & _).
    apply compacted_tagged; [by apply (mo_words _ _ _ _ Hm o)|]. intros E. by eapply reach_slot.
  - intros a Ha. rewrite (sg_roots _ _ _ _ _ _ Hg) by done.
    apply compacted_tagged; [by apply (mo_root_words _ _ _ _ Hm)|]. intros E. by apply reach_root.
  - intros x x' a (o & HR & ->)%Hinv (o' & HR' & ->)%Hinv Hne. apply compacted_apart; [done..|]. by intros ->.
  - intros x a (o & HR & ->)%Hinv Hr Ha. destruct (compacted_slot o a HR Ha) as (b & Hb & _ & [Hin|[_ ->]]).
    + pose proof (compacted_inside o a HR Hin). pose proof (hw_roots _ _ _ _ _ _ (mo_wf _ _ _ _ Hm) a Hr) as [?|?]; lia.
    + by apply (mo_roots _ _ _ _ Hm o b).
Qed.

End Compacted.
End Next.
