(* ===== verification/GcAlloc.v ===== *)
(** * Allocation

    cl_alloc of mem.c with the classic backend's allocation policy
    (gc_backend.h, gc_classic.c), single-threaded: the cut from the bump front,
    the bounded probe of the free list, the sweep, the compaction under its two
    triggers and the last walk of the whole free list.  Then what a cut leaves
    ([block_cut]), from the front and from a free block, and what the block is
    once cl_alloc has formatted it ([fresh_block]).  GcPolicy has the theorem. *)

From Stdlib Require Import ZArith Lia ZifyBool.
From stdpp Require Import base option list sets sorting.
From S2P Require Import Prelude GcHeap GcGraph GcMark GcSweep GcCollect GcFwd GcSlide GcMove GcCompact.
From S2P Require Import GcLookup GcNext.
Local Open Scope Z_scope.

Record AllocState : Type := {
  al_compact : CompactState;
  gc_last_compact_cycle : Z;
  total_consed : Z;
  freelist_steps : Z }.

Definition al_gc (s : AllocState) : GcState := cs_gc (al_compact s).
Definition al_heap (s : AllocState) : CL_Heap := gs_heap (al_gc s).

Definition set_gc (g : GcState) (c : CompactState) : CompactState :=
  {| cs_gc := g; gc_fwd_fail_bump := gc_fwd_fail_bump c; compact_count := compact_count c;
     gc_sweeps_since_compact := gc_sweeps_since_compact c |}.
Definition set_sweeps (n : Z) (c : CompactState) : CompactState :=
  {| cs_gc := cs_gc c; gc_fwd_fail_bump := gc_fwd_fail_bump c; compact_count := compact_count c;
     gc_sweeps_since_compact := n |}.
Definition set_compact (c : CompactState) (s : AllocState) : AllocState :=
  {| al_compact := c; gc_last_compact_cycle := gc_last_compact_cycle s; total_consed := total_consed s;
     freelist_steps := freelist_steps s |}.
Definition set_last_compact (n : Z) (s : AllocState) : AllocState :=
  {| al_compact := al_compact s; gc_last_compact_cycle := n; total_consed := total_consed s;
     freelist_steps := freelist_steps s |}.
Definition add_steps (n : Z) (s : AllocState) : AllocState :=
  {| al_compact := al_compact s; gc_last_compact_cycle := gc_last_compact_cycle s; total_consed := total_consed s;
     freelist_steps := u32 (freelist_steps s + n) |}.
Definition set_al_heap (h : CL_Heap) (s : AllocState) : AllocState :=
  set_compact (set_gc (set_heap h (al_gc s)) (al_compact s)) s.

(** cl_heap.total_allocated += size; cl_heap.total_consed += size *)
Definition account (size : Z) (s : AllocState) : AllocState :=
  let h := al_heap s in
  let s := set_al_heap (set_total (u32 (total_allocated h + size)) h) s in
  {| al_compact := al_compact s; gc_last_compact_cycle := gc_last_compact_cycle s;
     total_consed := u32 (total_consed s + size); freelist_steps := freelist_steps s |}.

(** memset(block, 0, size) *)
Definition zero_words (m : memory) (off size : Z) : memory := fun a => if (off <=? a) && (a <? off + size) then 0 else m a.

Definition CL_FREELIST_PROBE_LIMIT : Z := 32.
Definition GC_SWEEPS_BEFORE_COMPACT : Z := 8.

(** The block and its size, if one was found, and the state after the attempt. *)
Definition Attempt : Type := (option (Z * Z) * AllocState)%type.
Definition or_else (a : Attempt) (k : AllocState -> Attempt) : Attempt :=
  match a with (Some b, s) => (Some b, s) | (None, s) => k s end.

Section Alloc.
Context {L : Layout} {C : MarkConfig} {K : CompactConfig} (arena_size : Z) (gc_finalize_dead : memory -> Z -> memory) (r : Roots).

Definition align_up (size : Z) : Z := Z.land (u32 (size + CL_ALIGN - 1)) (Z.lnot (CL_ALIGN - 1)).

Definition cl_bump_fits (bump size : Z) : bool := (size <=? arena_size) && (bump <=? arena_size - size).

Definition alloc_from_bump (size : Z) (s : AllocState) : Attempt :=
  let h := al_heap s in
  if cl_bump_fits (bump h) size then (Some (bump h, size), set_al_heap (set_bump (bump h + size) h) s) else (None, s).

(** *prev_off = target: the head of the list or the link of the block before. *)
Definition set_link (prev : option Z) (target : Z) (h : CL_Heap) : CL_Heap :=
  match prev with None => set_free_list target h | Some p => heap_put (p + 4) target h end.

(** The block at [cur] for a request of [size]: split, or taken whole. *)
Definition take_block (prev : option Z) (cur size : Z) (h : CL_Heap) : Z * CL_Heap :=
  let remainder := hp_mem h cur - size in
  let '(size, h) :=
    if remainder >=? CL_MIN_ALLOC_SIZE then
      let new_off := cur + size in
      let next := hp_mem h (cur + 4) in
      (size, set_link prev new_off (heap_put (new_off + 4) next (heap_put new_off remainder h)))
    else (hp_mem h cur, set_link prev (hp_mem h (cur + 4)) h) in
  (size, heap_mem (zero_words (hp_mem h) cur size) h).

(** The walk from [cur] with [steps] blocks behind it: the block found, the
    heap, and the blocks seen. *)
Fixpoint free_list_walk (fuel : nat) (max_steps steps size : Z) (prev : option Z) (cur : Z) (h : CL_Heap) :
  option (Z * Z) * CL_Heap * Z :=
  match fuel with
  | O => (None, h, 0)
  | S fuel =>
      if cur =? 0 then (None, h, 0)
      else if negb (max_steps =? 0) && (steps + 1 >? max_steps) then (None, h, 1)
      else if hp_mem h cur >=? size then
        let '(size, h) := take_block prev cur size h in (Some (cur, size), h, 1)
      else
        let '(res, h, n) := free_list_walk fuel max_steps (steps + 1) size (Some cur) (hp_mem h (cur + 4)) h in
        (res, h, n + 1)
  end.

Definition alloc_from_free_list (size max_steps : Z) (s : AllocState) : Attempt :=
  let h := al_heap s in
  let '(res, h, n) := free_list_walk (walk_fuel (bump h)) max_steps 0 size None (free_list h) h in
  (res, add_steps n (set_al_heap h s)).

(** The single-threaded cursor is the bump front. *)
Definition gcb_cursor_cut_front (size rem : Z) (s : AllocState) : Attempt :=
  let size := if rem - size <? CL_MIN_ALLOC_SIZE then rem else size in
  let h := al_heap s in
  (Some (bump h, size), account size (set_al_heap (set_bump (bump h + size) h) s)).

Definition gcb_alloc_fast (size : Z) (s : AllocState) : Attempt :=
  let rem := arena_size - bump (al_heap s) in
  if size <=? rem then gcb_cursor_cut_front size rem s else (None, s).

(** cl_gc_if_stale: single-threaded it always collects. *)
Definition collect (s : AllocState) : AllocState :=
  let c := al_compact s in
  let g := cl_gc_stopped arena_size gc_finalize_dead (root_slots r) (jit_pinned r) (cs_gc c) in
  set_compact (set_sweeps (u32 (gc_sweeps_since_compact c + 1)) (set_gc g c)) s.

Definition live_hwm : Z := arena_size - Z.shiftr arena_size 3.

Definition fwd_blocked (s : AllocState) : bool :=
  negb (gc_fwd_fail_bump (al_compact s) =? 0) && (bump (al_heap s) >=? gc_fwd_fail_bump (al_compact s)).

Definition not_this_cycle (s : AllocState) : bool := negb (gc_last_compact_cycle s =? gc_count (al_gc s)).

(** Trigger 2: sweeping has not helped for a while and compacting may. *)
Definition compact_due (s : AllocState) : bool :=
  (total_allocated (al_heap s) <? live_hwm) && (gc_sweeps_since_compact (al_compact s) >=? GC_SWEEPS_BEFORE_COMPACT) &&
  negb (fwd_blocked s).

Definition alloc_after_sweep (size : Z) (s : AllocState) : Attempt :=
  or_else (alloc_from_bump size s) (fun s =>
    let will_compact_t2 := not_this_cycle s && compact_due s in
    if will_compact_t2 then (None, s) else alloc_from_free_list size CL_FREELIST_PROBE_LIMIT s).

Definition alloc_compact (size : Z) (a : Attempt) : Attempt :=
  let '(ptr, s) := a in
  if not_this_cycle s then
    let '(ptr, s) := match ptr with
                     | None => if fwd_blocked s then alloc_from_free_list size 0 s else (None, s)
                     | Some _ => (ptr, s)
                     end in
    match ptr with
    | Some _ => if compact_due s
                then let s := set_last_compact (gc_count (al_gc s)) s in
                     alloc_from_bump size (set_compact (cl_gc_compact arena_size gc_finalize_dead r (al_compact s)) s)
                else (ptr, s)
    | None => let s := set_last_compact (gc_count (al_gc s)) s in
              alloc_from_bump size (set_compact (cl_gc_compact arena_size gc_finalize_dead r (al_compact s)) s)
    end
  else (ptr, s).

Definition gcb_alloc_slow (size : Z) (s : AllocState) : Attempt :=
  let '(ptr, s) :=
    or_else (or_else (or_else (alloc_from_bump size s) (alloc_from_free_list size CL_FREELIST_PROBE_LIMIT))
      (fun s => alloc_compact size (alloc_after_sweep size (collect s))))
      (alloc_from_free_list size 0) in
  match ptr with
  | Some (p, size) => (Some (p, size), account size s)
  | None => (None, s)
  end.

(** Zeros behind the header, then the header. *)
Definition init_block (type ptr size : Z) (s : AllocState) : AllocState :=
  let h := al_heap s in
  set_al_heap (heap_put ptr (CL_MAKE_HDR type size) (heap_mem (zero_words (hp_mem h) (ptr + 4) (size - 4)) h)) s.

(** The size asked of the allocator. *)
Definition alloc_size (size : Z) : Z :=
  let size := align_up size in
  if size <? CL_MIN_ALLOC_SIZE then CL_MIN_ALLOC_SIZE else size.

(** The object's offset, or a storage error. *)
Definition cl_alloc (type size : Z) (s : AllocState) : option Z * AllocState :=
  let size := alloc_size size in
  if size >? CL_HDR_SIZE_MASK then (None, s)
  else
    match or_else (gcb_alloc_fast size s) (gcb_alloc_slow size) with
    | (Some (ptr, size), s) => (Some ptr, init_block type ptr size s)
    | (None, s) => (None, s)
    end.

End Alloc.

Lemma align_up_spec {L : Layout} {LL : LayoutLaws L} size : 0 <= size <= 2 ^ 32 - CL_ALIGN ->
  size <= align_up size < size + CL_ALIGN /\ (CL_ALIGN | align_up size).
Proof.
  intros Hs. pose proof align_pos. unfold align_up. rewrite u32_small by lia.
  assert (Hk : exists k, 0 <= k /\ CL_ALIGN = 2 ^ k) by (destruct align_cases as [->| ->]; [by exists 2|by exists 3]).
  destruct Hk as (k & Hk & E). replace (CL_ALIGN - 1) with (Z.ones k) by (rewrite Z.ones_equiv; lia).
  rewrite <- Z.ldiff_land, Z.ldiff_ones_r, Z.shiftr_div_pow2, Z.shiftl_mul_pow2, <- E by lia.
  split; [|apply Z.divide_factor_r]. clear E. set (d := CL_ALIGN) in *. set (q := (size + d - 1) / d).
  assert (size + d - 1 = d * q + (size + d - 1) mod d) by (apply Z.div_mod; lia).
  assert (0 <= (size + d - 1) mod d < d) by (apply Z.mod_pos_bound; lia). lia.
Qed.

Lemma alloc_size_spec {L : Layout} {LL : LayoutLaws L} size : 0 <= size <= 2 ^ 32 - CL_ALIGN ->
  size <= alloc_size size /\ CL_MIN_ALLOC_SIZE <= alloc_size size /\ (CL_ALIGN | alloc_size size).
Proof.
  intros Hs. destruct (align_up_spec size Hs) as [H1 H2]. unfold alloc_size. destruct (_ <? _) eqn:E; [|split_and!; [lia|lia|done]].
  split_and!; [lia|lia|]. unfold CL_MIN_ALLOC_SIZE. destruct align_cases as [->| ->]; [by exists 4|by exists 2].
Qed.

(** The rounding wraps before the size is checked. *)
Lemma alloc_size_wraps {L : Layout} {LL : LayoutLaws L} : alloc_size (2 ^ 32 - 1) = CL_MIN_ALLOC_SIZE.
Proof.
  assert (E : align_up (2 ^ 32 - 1) = 0) by (unfold align_up; destruct align_cases as [->| ->]; by vm_compute).
  unfold alloc_size. by rewrite E.
Qed.

(** ** Heaps to allocate from *)

Section Ready.
Context {L : Layout} {LL : LayoutLaws L} {K : CompactConfig} (arena_size : Z) (r : Roots).
Context (Harena : arena_size + GC_FWD_PAGE <= 2 ^ 32).

Abbreviation mem s := (hp_mem (al_heap s)).
Abbreviation R m := (reachable arena_size m (root_slots r) (jit_pinned r)).
Abbreviation same := (same_graph arena_size (root_slots r) (jit_pinned r)).

(** The heap can be collected, and the free list [fl] is made of blocks that
    are no reachable objects. *)
Record ready (s : AllocState) (bl fl : list Z) : Prop := {
  rd_movable : movable arena_size r bl (al_gc s);
  rd_idle : mark_idle (al_gc s);
  rd_free : free_chain (mem s) (free_list (al_heap s)) fl;
  rd_NoDup : NoDup fl;
  rd_blocks : forall x, x ∈ fl -> x ∈ bl /\ is_free_block (mem s) x /\ ~ R (mem s) x }.

(** ** A block is cut and gets its header *)

(** [h'] is [h] with the block of [size] bytes at [off] taken from it; its
    header is still to be written. *)
Record block_cut (bl fl : list Z) (h h' : CL_Heap) (off size : Z) (bl' fl' : list Z) : Prop := {
  bk_bump : bump h' <= arena_size;
  bk_off : off ∈ bl' /\ (off ∉ fl') /\ (off ∈ fl \/ off ∉ bl);
  bk_size : CL_MIN_ALLOC_SIZE <= size /\ (CL_ALIGN | size);
  bk_chain : forall hd, CL_HDR_SIZE hd = size -> chain (put (hp_mem h') off hd) (bump h') CL_ALIGN bl';
  bk_free : free_chain (hp_mem h') (free_list h') fl' /\ NoDup fl';
  bk_fl : forall x, x ∈ fl' -> x ∈ bl' /\ is_free_block (hp_mem h') x /\ (x ∈ fl \/ x ∉ bl);
  bk_bl : forall x, x ∈ bl' -> x = off \/ x ∈ fl' \/ (x ∈ bl /\ x ∉ fl);
  bk_old : forall x, x ∈ bl -> x ∉ fl -> x ∈ bl' /\ x <> off /\
    forall a, x <= a < block_end (hp_mem h) x -> hp_mem h' a = hp_mem h a;
  bk_out : forall a, outside arena_size a -> hp_mem h' a = hp_mem h a }.

Section Init.
Context (s s1 : AllocState) (bl fl bl' fl' : list Z) (off size type : Z).
Context (Hrd : ready s bl fl) (Hcut : block_cut bl fl (al_heap s) (al_heap s1) off size bl' fl').
Context (Hmark : gs_mark (al_gc s1) = gs_mark (al_gc s)) (Hsize : size <= CL_HDR_SIZE_MASK) (Htype : 0 <= type < 256).

Abbreviation hd := (CL_MAKE_HDR type size).
Abbreviation s2 := (init_block type off size s1).
Abbreviation mc := (put (mem s1) off hd).

Lemma init_hd : CL_HDR_SIZE hd = size /\ CL_HDR_MARKED hd = false.
Proof.
  destruct (bk_size _ _ _ _ _ _ _ _ Hcut) as [Hs _]. unfold CL_MIN_ALLOC_SIZE in Hs.
  by destruct (make_hdr_fields type size Htype) as (_ & _ & ? & ?); [lia|].
Qed.

Lemma cut_chain : chain mc (bump (al_heap s1)) CL_ALIGN bl'.
Proof. apply (bk_chain _ _ _ _ _ _ _ _ Hcut), init_hd. Qed.

Lemma init_mem a : mem s2 a = if (off <=? a) && (a <? off + size) then (if a =? off then hd else if off + 4 <=? a then 0 else mem s1 a) else mem s1 a.
Proof.
  destruct (bk_size _ _ _ _ _ _ _ _ Hcut) as [Hs _]. unfold CL_MIN_ALLOC_SIZE in Hs.
  cbn. unfold put, zero_words. destruct (a =? off) eqn:E; [by replace ((off <=? a) && (a <? off + size)) with true by lia|].
  destruct (off + 4 <=? a) eqn:E4; [|cbn [andb]; by destruct (_ && _)]. replace (off + 4 + (size - 4)) with (off + size) by lia.
  by replace (off <=? a) with true by lia.
Qed.

Lemma init_span : CL_ALIGN <= off /\ off + size <= bump (al_heap s1).
Proof.
  destruct (bk_off _ _ _ _ _ _ _ _ Hcut) as [Hb _]. destruct (chain_bounds _ _ _ _ cut_chain) as [_ H]. destruct (H off Hb) as (H1 & _ & H2).
  unfold block_end in H2. rewrite put_eq, (proj1 init_hd) in H2. lia.
Qed.

(** Another block of the new chain is away from the cut one. *)
Lemma init_apart x : x ∈ bl' -> x <> off -> CL_HDR_SIZE (mem s1 x) = CL_HDR_SIZE (mc x) /\
  forall a, x <= a < block_end (mem s1) x -> mem s2 a = mem s1 a.
Proof.
  intros Hx Hne. assert (E : CL_HDR_SIZE (mem s1 x) = CL_HDR_SIZE (mc x)) by (by rewrite put_ne). split; [done|].
  intros a Ha. destruct (bk_off _ _ _ _ _ _ _ _ Hcut) as [Hb _].
  destruct (chain_disjoint _ _ _ _ x off cut_chain Hx Hb Hne) as [Hd|Hd]; unfold block_end in *; rewrite ?put_eq, ?(proj1 init_hd) in Hd;
    rewrite init_mem; replace (_ && _) with false; try done; lia.
Qed.

Lemma init_header x : x ∈ bl' -> CL_HDR_SIZE (mem s2 x) = CL_HDR_SIZE (mc x).
Proof.
  intros Hx. destruct (decide (x = off)) as [->|Hne].
  - rewrite init_mem, Z.eqb_refl, put_eq. destruct (bk_size _ _ _ _ _ _ _ _ Hcut) as [Hs _]. unfold CL_MIN_ALLOC_SIZE in Hs.
    by replace (_ && _) with true by lia.
  - destruct (init_apart x Hx Hne) as [E H]. rewrite <- E. f_equal. apply H. unfold block_end. rewrite E.
    destruct (chain_bounds _ _ _ _ cut_chain) as [_ Hc]. destruct (Hc x Hx). lia.
Qed.

Lemma init_old o a : R (mem s) o -> o <= a < block_end (mem s) o -> mem s2 a = mem s a.
Proof.
  intros HR Ha. destruct (reach_facts arena_size r _ _ o (rd_movable _ _ _ Hrd) HR) as (Hb & Hs & _).
  destruct (bk_old _ _ _ _ _ _ _ _ Hcut o Hb) as (Hb' & Hne & Hw).
  { intros Hf. by apply (rd_blocks _ _ _ Hrd) in Hf as (_ & _ & ?). }
  rewrite <- Hw by done. apply (init_apart o Hb' Hne). unfold block_end in *.
  rewrite (Hw o); [done|]. unfold al_heap. lia.
Qed.

Lemma init_outside a : outside arena_size a -> mem s2 a = mem s a.
Proof.
  intros Ha. rewrite <- (bk_out _ _ _ _ _ _ _ _ Hcut) by done. rewrite init_mem. pose proof init_span. pose proof align_pos.
  pose proof (bk_bump _ _ _ _ _ _ _ _ Hcut). destruct Ha; replace (_ && _) with false by lia; done.
Qed.

(** The fields of the blocks of the new chain. *)
Lemma init_fields x : x ∈ bl' -> sizeof_FreeBlock <= CL_HDR_SIZE (mem s2 x) /\ (CL_ALIGN | CL_HDR_SIZE (mem s2 x)) /\
  CL_HDR_MARKED (mem s2 x) = false.
Proof.
  intros Hx. pose proof (mo_wf _ _ _ _ (rd_movable _ _ _ Hrd)) as Hw. destruct (decide (x = off)) as [->|Hne].
  - destruct (bk_size _ _ _ _ _ _ _ _ Hcut) as [Hs Ha]. unfold CL_MIN_ALLOC_SIZE in Hs. rewrite init_mem, Z.eqb_refl.
    replace (_ && _) with true by lia. destruct init_hd as [-> ->]. unfold sizeof_FreeBlock. split_and!; [lia|done|done].
  - destruct (init_apart x Hx Hne) as [E H]. assert (Ex : mem s2 x = mem s1 x).
    { apply H. unfold block_end. rewrite E. destruct (chain_bounds _ _ _ _ cut_chain) as [_ Hc]. destruct (Hc x Hx). lia. }
    rewrite Ex. destruct (bk_bl _ _ _ _ _ _ _ _ Hcut x Hx) as [?|[Hf|[Hb Hf]]]; [done| |].
    + apply free_block_fields. by apply (bk_fl _ _ _ _ _ _ _ _ Hcut).
    + destruct (bk_old _ _ _ _ _ _ _ _ Hcut x Hb Hf) as (_ & _ & Ho). pose proof (hw_min _ _ _ _ _ _ Hw x Hb) as Hmin.
      rewrite Ho; [split_and!; by apply Hw|]. unfold block_end, sizeof_FreeBlock, al_heap in *. lia.
Qed.

Lemma init_kept : (forall o a, R (mem s) o -> o <= a < block_end (mem s) o -> mem s2 a = mem s a) /\
  forall a, outside arena_size a -> mem s2 a = mem s a.
Proof. split; [apply init_old|apply init_outside]. Qed.

Lemma init_free x : x ∈ fl' -> x ∈ bl' /\ mem s2 x = mem s1 x /\ mem s2 (x + 4) = mem s1 (x + 4).
Proof.
  intros Hx. destruct (bk_fl _ _ _ _ _ _ _ _ Hcut x Hx) as (Hb & Hfb & _). destruct (bk_off _ _ _ _ _ _ _ _ Hcut) as (_ & Hno & _).
  assert (Hne : x <> off) by by intros ->. split; [done|]. destruct (free_block_fields _ _ Hfb) as [H8 _].
  destruct (init_apart x Hb Hne) as [_ H]. unfold block_end, sizeof_FreeBlock, al_heap in *. split; apply H; lia.
Qed.

Lemma init_wf : heap_wf arena_size (bump (al_heap s2)) (mem s2) bl' (root_slots r) (jit_pinned r).
Proof.
  pose proof (mo_wf _ _ _ _ (rd_movable _ _ _ Hrd)) as Hw. destruct init_kept as [Hold Hout]. split; try apply Hw.
  - apply (bk_bump _ _ _ _ _ _ _ _ Hcut).
  - eapply blocks_ext; [apply cut_chain|]. apply init_header.
  - intros x Hx. by apply init_fields.
  - intros x Hx. by apply init_fields.
  - intros x Hx. by apply init_fields.
  - intros o HR%(kept_reach arena_size r (al_gc s) (al_gc s2) bl (rd_movable _ _ _ Hrd) Hold Hout). split.
    + apply (bk_old _ _ _ _ _ _ _ _ Hcut o); [by apply (hw_obj _ _ _ _ _ _ Hw)|]. intros Hf.
      by apply (rd_blocks _ _ _ Hrd) in Hf as (_ & _ & ?).
    + by apply (kept_fits arena_size r (al_gc s) (al_gc s2) bl (rd_movable _ _ _ Hrd) Hold Hout).
Qed.

Lemma init_graph : same (fun o => o) (mem s) (mem s2).
Proof.
  destruct init_kept as [Hold Hout]. by apply (kept_graph arena_size r (al_gc s) (al_gc s2) bl (rd_movable _ _ _ Hrd) Hold Hout).
Qed.

Lemma init_unreached x : x ∈ fl \/ x ∉ bl -> ~ R (mem s2) x.
Proof.
  destruct init_kept as [Hold Hout]. intros Hx HR%(kept_reach arena_size r (al_gc s) (al_gc s2) bl (rd_movable _ _ _ Hrd) Hold Hout).
  destruct Hx as [Hx|Hx]; [by apply (rd_blocks _ _ _ Hrd) in Hx as (_ & _ & ?)|].
  apply Hx. by apply (hw_obj _ _ _ _ _ _ (mo_wf _ _ _ _ (rd_movable _ _ _ Hrd))).
Qed.

Lemma init_ready : ready s2 bl' fl'.
Proof.
  destruct init_kept as [Hold Hout]. destruct (bk_free _ _ _ _ _ _ _ _ Hcut) as [Hfc Hnd]. split.
  - apply (kept_movable arena_size r Harena (al_gc s) (al_gc s2) bl bl' (rd_movable _ _ _ Hrd) Hold Hout). apply init_wf.
  - pose proof (rd_idle _ _ _ Hrd) as Hi. unfold mark_idle in *. by rewrite <- Hmark in Hi.
  - eapply free_chain_ext; [exact Hfc|]. intros b Hb. by apply init_free.
  - done.
  - intros x Hx. destruct (init_free x Hx) as (Hb & E & _). destruct (bk_fl _ _ _ _ _ _ _ _ Hcut x Hx) as (_ & Hfb & Hn).
    split; [done|]. split; [unfold is_free_block; by rewrite E|by apply init_unreached].
Qed.

(** What cl_alloc hands out: a block of its own, formatted and zero, that is
    no object yet. *)
Record fresh_block (s' : AllocState) (blocks free : list Z) (p n : Z) : Prop := {
  fb_block : p ∈ blocks /\ p ∉ free;
  fb_header : mem s' p = CL_MAKE_HDR type n;
  fb_inside : CL_ALIGN <= p /\ p + n <= bump (al_heap s') /\ (CL_ALIGN | p) /\ (CL_ALIGN | n);
  fb_zero : forall a, p + 4 <= a < p + n -> mem s' a = 0;
  fb_new : ~ R (mem s') p }.

Lemma init_fresh : fresh_block s2 bl' fl' off size.
Proof.
  destruct (bk_off _ _ _ _ _ _ _ _ Hcut) as (Hb & Hf & Hn). destruct (bk_size _ _ _ _ _ _ _ _ Hcut) as [Hs Ha].
  unfold CL_MIN_ALLOC_SIZE in Hs. split.
  - done.
  - rewrite init_mem. by replace (_ && _) with true by lia; rewrite Z.eqb_refl.
  - destruct init_span. split; [done|]. split; [done|]. split; [|done].
    eapply chain_aligned; [apply init_wf|apply init_wf|apply Z.divide_refl|done].
  - intros a Ha'. rewrite init_mem. replace ((off <=? a) && (a <? off + size)) with true by lia.
    replace (a =? off) with false by lia. by replace (off + 4 <=? a) with true by lia.
  - by apply init_unreached.
Qed.

End Init.

(** ** The cut from the bump front *)

Section Cuts.
Context (s : AllocState) (bl fl : list Z) (Hrd : ready s bl fl).
Abbreviation h := (al_heap s).
Abbreviation m := (hp_mem h).

Lemma ready_wf : heap_wf arena_size (bump h) m bl (root_slots r) (jit_pinned r).
Proof. apply (mo_wf _ _ _ _ (rd_movable _ _ _ Hrd)). Qed.

Lemma ready_chain : chain m (bump h) CL_ALIGN bl.
Proof. apply ready_wf. Qed.

Lemma ready_block x : x ∈ bl -> CL_ALIGN <= x /\ sizeof_FreeBlock <= CL_HDR_SIZE (m x) /\ block_end m x <= bump h.
Proof.
  intros Hx. destruct (chain_bounds _ _ _ _ ready_chain) as [_ H]. destruct (H x Hx) as (? & _ & ?).
  pose proof (hw_min _ _ _ _ _ _ ready_wf x Hx). done.
Qed.

Lemma ready_aligned : (CL_ALIGN | bump h) /\ forall x, x ∈ bl -> (CL_ALIGN | x).
Proof. eapply chain_aligned; [apply ready_chain|apply ready_wf|apply Z.divide_refl]. Qed.

Lemma ready_bump : CL_ALIGN <= bump h <= arena_size /\ arena_size < 2 ^ 32.
Proof.
  destruct (chain_bounds _ _ _ _ ready_chain) as [? _]. pose proof (hw_bump _ _ _ _ _ _ ready_wf).
  pose proof (hw_size _ _ _ _ _ _ ready_wf). lia.
Qed.

Lemma bump_cut size : CL_MIN_ALLOC_SIZE <= size /\ (CL_ALIGN | size) -> bump h + size <= arena_size ->
  block_cut bl fl h (set_bump (bump h + size) h) (bump h) size (bl ++ [bump h]) fl.
Proof.
  intros Hs Hb. assert (Hnew : bump h ∉ bl).
  { intros Hx. pose proof (ready_block _ Hx) as (_ & H1 & H2). unfold block_end, sizeof_FreeBlock in *. lia. }
  assert (Hfl : forall x, x ∈ fl -> x ∈ bl) by (intros x Hx; by apply (rd_blocks _ _ _ Hrd)).
  split; cbn [set_bump bump hp_mem free_list].
  - done.
  - rewrite elem_of_app, list_elem_of_singleton. split; [by right|]. split; [|by right]. intros Hx. by apply Hnew, Hfl.
  - done.
  - intros hd Ehd. apply chain_app. exists (bump h). split.
    + eapply blocks_ext; [apply ready_chain|]. intros o Ho. rewrite put_ne; [done|]. by intros ->.
    + constructor; rewrite put_eq, Ehd; [unfold CL_MIN_ALLOC_SIZE in *; lia|constructor].
  - split; apply Hrd.
  - intros x Hx. rewrite elem_of_app. destruct (rd_blocks _ _ _ Hrd x Hx) as (? & ? & _). tauto.
  - intros x. rewrite elem_of_app, list_elem_of_singleton. intros [Hx| ->]; [|by left]. right.
    destruct (decide (x ∈ fl)); tauto.
  - intros x Hx _. rewrite elem_of_app. split; [by left|]. split; [by intros ->|done].
  - done.
Qed.

(** ** The cut from a free block *)

(** The block at [off] of the free list [f1 ++ off :: f2] gives its first
    [size] bytes and leaves the free block [mid], if any. *)
Section Free_cut.
Context (h' : CL_Heap) (off size : Z) (b1 b2 f1 f2 mid : list Z).
Context (Ebl : bl = b1 ++ off :: b2) (Efl : fl = f1 ++ off :: f2) (Hsize : CL_MIN_ALLOC_SIZE <= size /\ (CL_ALIGN | size)).
Context (Hbump : bump h' = bump h).
Context (Hw : forall a, ~ (off <= a < block_end m off) -> (forall p, p ∈ f1 -> a <> p + 4) -> hp_mem h' a = m a).
Context (Hmid : chain (hp_mem h') (block_end m off) (off + size) mid) (Hmf : forall x, x ∈ mid -> is_free_block (hp_mem h') x).
Context (Hfree : free_chain (hp_mem h') (free_list h') (f1 ++ mid ++ f2)).

Lemma cut_free x : x ∈ fl <-> x = off \/ x ∈ f1 \/ x ∈ f2.
Proof. rewrite Efl, elem_of_app, elem_of_cons. tauto. Qed.

Lemma cut_apart x : (x ∈ f1 \/ x ∈ f2) -> x <> off /\ x ∈ fl.
Proof.
  intros Hx. rewrite cut_free. split; [|tauto]. intros ->. pose proof (rd_NoDup _ _ _ Hrd) as Hn. rewrite Efl in Hn.
  apply NoDup_app in Hn as (_ & H1 & H2). apply NoDup_cons in H2 as [H2 _]. destruct Hx as [Hx|Hx]; [|done].
  by apply (H1 off Hx), list_elem_of_here.
Qed.

Lemma cut_blocks x : x ∈ bl <-> x = off \/ x ∈ b1 \/ x ∈ b2.
Proof. rewrite Ebl, elem_of_app, elem_of_cons. tauto. Qed.

Lemma cut_mid x : x ∈ mid -> off + size <= x < block_end m off /\ x ∉ bl.
Proof.
  intros Hx. destruct (chain_bounds _ _ _ _ Hmid) as [_ H]. destruct (H x Hx) as (H1 & H2 & H3). unfold block_end in H3.
  unfold CL_MIN_ALLOC_SIZE in *. split; [unfold block_end; lia|]. eapply (inner_no_header arena_size _ _ bl off);
    [apply ready_chain|apply ready_wf|apply cut_blocks; tauto|left; unfold block_end; lia].
Qed.

(** No block but the cut one changes, unless it links to it. *)
Lemma cut_kept x a : x ∈ bl -> x <> off -> x <= a < block_end m x -> (x ∉ fl) \/ a = x -> hp_mem h' a = m a.
Proof.
  intros Hx Hne Ha Hor. apply Hw.
  - destruct (chain_disjoint _ _ _ _ x off ready_chain Hx ltac:(apply cut_blocks; tauto) Hne); lia.
  - intros p Hp ->. destruct (cut_apart p (or_introl Hp)) as [_ Hpf]. destruct (rd_blocks _ _ _ Hrd p Hpf) as (Hpb & _ & _).
    pose proof (ready_block p Hpb) as (_ & H8 & _). unfold sizeof_FreeBlock in H8. destruct (decide (p = x)) as [->|Hpx].
    + destruct Hor; [done|lia].
    + destruct (chain_disjoint _ _ _ _ x p ready_chain Hx Hpb ltac:(done)); unfold block_end in *; lia.
Qed.

Lemma cut_header x : x ∈ bl -> x <> off -> hp_mem h' x = m x.
Proof.
  intros Hx Hne. apply (cut_kept x); [done|done| |by right]. pose proof (ready_block x Hx) as (_ & H8 & _).
  unfold block_end, sizeof_FreeBlock in *. lia.
Qed.

Lemma free_cut_chain hd : CL_HDR_SIZE hd = size -> chain (put (hp_mem h') off hd) (bump h') CL_ALIGN (b1 ++ off :: mid ++ b2).
Proof.
  intros Ehd. pose proof ready_chain as Hc. rewrite Ebl in Hc. apply chain_app in Hc as (x & H1 & H2).
  destruct (walk_next_step _ _ _ _ _ H2) as (<- & _ & H3). rewrite Hbump.
  assert (Hk : forall o, (o ∈ b1 \/ o ∈ b2) -> o <> off -> CL_HDR_SIZE (put (hp_mem h') off hd o) = CL_HDR_SIZE (m o)).
  { intros o Ho Hne. rewrite put_ne by done. by rewrite cut_header by (done || (apply cut_blocks; tauto)). }
  pose proof (chain_bounds _ _ _ _ H1) as [_ B1]. pose proof (chain_bounds _ _ _ _ H3) as [_ B3].
  pose proof (ready_block off ltac:(apply cut_blocks; tauto)) as (_ & H8 & _). unfold sizeof_FreeBlock in H8.
  apply chain_app. exists off. split; [|constructor; rewrite put_eq, Ehd; [unfold CL_MIN_ALLOC_SIZE in *; lia|]].
  - eapply blocks_ext; [exact H1|]. intros o Ho. apply Hk; [by left|]. destruct (B1 o Ho). unfold block_end in *. lia.
  - apply chain_app. exists (block_end m off). split.
    + eapply blocks_ext; [exact Hmid|]. intros o Ho. rewrite put_ne; [done|]. destruct (cut_mid o Ho). unfold CL_MIN_ALLOC_SIZE in *. lia.
    + eapply blocks_ext; [exact H3|]. intros o Ho. apply Hk; [by right|]. destruct (B3 o Ho). unfold block_end in *. lia.
Qed.

Lemma free_cut : block_cut bl fl h h' off size (b1 ++ off :: mid ++ b2) (f1 ++ mid ++ f2).
Proof.
  assert (Hbl' : forall x, x ∈ b1 ++ off :: mid ++ b2 <-> x ∈ bl \/ x ∈ mid) by
    (intros x; rewrite cut_blocks, elem_of_app, elem_of_cons, elem_of_app; tauto).
  assert (Hfl' : forall x, x ∈ f1 ++ mid ++ f2 <-> (x ∈ fl /\ x <> off) \/ x ∈ mid).
  { intros x. rewrite !elem_of_app. split; [intros [Hx|[Hx|Hx]]; [left|by right|left]; destruct (cut_apart x); tauto|].
    intros [[Hx Hne]|Hx]; [apply cut_free in Hx|]; tauto. }
  assert (Hoff : off ∈ fl /\ off ∈ bl) by (rewrite cut_free, cut_blocks; tauto).
  assert (Hno : off ∉ mid) by (intros Hx; destruct (cut_mid off Hx); unfold CL_MIN_ALLOC_SIZE in *; lia).
  split.
  - rewrite Hbump. apply ready_bump.
  - rewrite Hbl', Hfl'. tauto.
  - done.
  - apply free_cut_chain.
  - split; [done|]. pose proof (rd_NoDup _ _ _ Hrd) as Hn. rewrite Efl in Hn. apply NoDup_app in Hn as (N1 & N2 & N3).
    apply NoDup_cons in N3 as [_ N3]. assert (Hmn : forall x, x ∈ mid -> x ∉ fl).
    { intros x Hx Hxf. destruct (cut_mid x Hx) as [_ Hb]. by apply Hb, (rd_blocks _ _ _ Hrd). }
    apply NoDup_app. split; [done|]. split; [|apply NoDup_app; split; [by eapply chain_NoDup|split; [|done]]].
    + intros x Hx [Hm|H2]%elem_of_app; [apply (Hmn x Hm); rewrite cut_free; tauto|]. apply (N2 x Hx). by apply list_elem_of_further.
    + intros x Hm H2. apply (Hmn x Hm). rewrite cut_free. tauto.
  - intros x. rewrite Hfl', Hbl'. intros [[Hx Hne]|Hx].
    + destruct (rd_blocks _ _ _ Hrd x Hx) as (Hb & Hf & _). split; [by left|]. split; [|by left].
      unfold is_free_block. by rewrite cut_header.
    + split; [by right|]. split; [by apply Hmf|]. right. by apply cut_mid.
  - intros x. rewrite Hbl', Hfl'. intros [Hx|Hx]; [|tauto]. destruct (decide (x = off)); [by left|]. right.
    destruct (decide (x ∈ fl)); tauto.
  - intros x Hx Hf. assert (Hne : x <> off) by (intros ->; by apply Hf, Hoff). split; [apply Hbl'; by left|]. split; [done|].
    intros a Ha. apply (cut_kept x); [done..|by left].
  - intros a Ha. pose proof ready_bump as Hb. pose proof align_pos as Hap. apply Hw.
    + pose proof (ready_block off (proj2 Hoff)) as (? & _ & ?). destruct Ha; lia.
    + intros p Hp ->. destruct (cut_apart p (or_introl Hp)) as [_ Hpf]. destruct (rd_blocks _ _ _ Hrd p Hpf) as (Hpb & _ & _).
      pose proof (ready_block p Hpb) as (? & H8 & ?). unfold block_end, sizeof_FreeBlock in *. destruct Ha; lia.
Qed.

End Free_cut.

(** *** The block the walk takes *)

Lemma free_chain_relink mm p t head f1 rest rest' : free_chain mm head (f1 ++ p :: rest) -> NoDup (f1 ++ p :: rest) ->
  free_chain (put mm (p + 4) t) t rest' -> free_chain (put mm (p + 4) t) head (f1 ++ p :: rest').
Proof.
  intros Hc Hn Ht. revert head Hc. induction f1 as [|o f1 IH]; intros head Hc; cbn in *; inversion Hc as [|? ? Hz Hc']; subst.
  - constructor; [done|]. by rewrite put_eq.
  - apply NoDup_cons in Hn as [Hno Hn]. constructor; [done|]. rewrite put_ne; [by apply IH|].
    intros E. apply Hno. assert (o = p) as -> by lia. apply elem_of_app. right. apply list_elem_of_here.
Qed.

Lemma set_link_chain hh f1 rest t rest' : free_chain (hp_mem hh) (free_list hh) (f1 ++ rest) -> NoDup (f1 ++ rest) ->
  free_chain (hp_mem (set_link (last f1) t hh)) t rest' ->
  free_chain (hp_mem (set_link (last f1) t hh)) (free_list (set_link (last f1) t hh)) (f1 ++ rest').
Proof.
  destruct f1 as [|p f1 _] using rev_ind; [done|]. rewrite last_snoc, <- !app_assoc. cbn. apply free_chain_relink.
Qed.

Lemma free_chain_tail mm head f1 o rest : free_chain mm head (f1 ++ o :: rest) -> o <> 0 /\ free_chain mm (mm (o + 4)) rest.
Proof. revert head. induction f1 as [|p f1 IH]; intros head Hc; cbn in Hc; inversion Hc; subst; [done|]. by eapply IH. Qed.

Lemma set_link_mem prev t hh a : prev <> Some (a - 4) -> hp_mem (set_link prev t hh) a = hp_mem hh a.
Proof. destruct prev as [p|]; [|done]. intros H. apply put_ne. intros ->. apply H. f_equal. lia. Qed.

Lemma set_link_rest prev t hh : bump (set_link prev t hh) = bump hh.
Proof. by destruct prev. Qed.

Section Take.
Context (off size : Z) (b1 b2 f1 f2 : list Z) (Ebl : bl = b1 ++ off :: b2) (Efl : fl = f1 ++ off :: f2).
Context (Hsize : CL_MIN_ALLOC_SIZE <= size /\ (CL_ALIGN | size)) (Hfit : size <= m off).

Lemma take_off : off ∈ bl /\ m off <= CL_HDR_SIZE_MASK /\ (CL_ALIGN | m off) /\ block_end m off = off + m off /\ CL_ALIGN <= off.
Proof.
  assert (Hf : off ∈ fl) by (rewrite Efl; apply elem_of_app; right; apply list_elem_of_here).
  destruct (rd_blocks _ _ _ Hrd off Hf) as (Hb & [H8 Ha] & _). unfold sizeof_FreeBlock in *. unfold block_end.
  destruct (raw_size_header (m off)) as (-> & _); [lia|]. pose proof (ready_block off Hb) as (? & _). tauto.
Qed.

(** The links of the other free blocks are outside the block. *)
Lemma take_links p : p ∈ f1 \/ p ∈ f2 -> p + 4 < off \/ block_end m off <= p + 4.
Proof.
  intros Hp. destruct (cut_apart off size f1 f2 Efl Hsize p Hp) as [Hne Hpf]. destruct (rd_blocks _ _ _ Hrd p Hpf) as (Hpb & _ & _).
  pose proof (ready_block p Hpb) as (_ & H8 & _). unfold sizeof_FreeBlock in *.
  destruct (chain_disjoint _ _ _ _ off p ready_chain (proj1 take_off) Hpb ltac:(done)) as [?|?]; [by right; lia|left].
  unfold block_end in *. lia.
Qed.

Lemma take_last a : off <= a < block_end m off -> last f1 <> Some (a - 4).
Proof. intros Ha E. apply last_Some_elem_of in E. destruct (take_links (a - 4) (or_introl E)); lia. Qed.

(** The rest of the new free list, from the target of the link. *)
Lemma take_target hh t mid : (forall x, x ∈ f2 -> hp_mem hh (x + 4) = m (x + 4)) -> (forall x, x ∈ mid -> off <= x /\ x + 8 <= block_end m off) ->
  (match mid with [] => t = m (off + 4) | x :: mid => t = x /\ mid = [] /\ hp_mem hh (x + 4) = m (off + 4) end) ->
  free_chain (hp_mem (set_link (last f1) t hh)) t (mid ++ f2).
Proof.
  intros Hl Hmid Ht. pose proof (rd_free _ _ _ Hrd) as Hfc. rewrite Efl in Hfc. pose proof (rd_NoDup _ _ _ Hrd) as Hnd.
  apply free_chain_tail in Hfc as [Hz Hfc].
  assert (H2 : free_chain (hp_mem (set_link (last f1) t hh)) (m (off + 4)) f2).
  { eapply free_chain_ext; [exact Hfc|]. intros x Hx. rewrite set_link_mem; [by apply Hl|]. intros E%last_Some_elem_of.
    rewrite Efl in Hnd. apply NoDup_app in Hnd as (_ & Hn & _). apply (Hn _ E). replace (x + 4 - 4) with x by lia.
    by apply list_elem_of_further. }
  destruct mid as [|x mid]; [subst t; exact H2|]. destruct Ht as (-> & -> & Ex). pose proof (Hmid x (list_elem_of_here _ _)).
  pose proof take_off as (_ & _ & _ & _ & ?). pose proof align_pos. constructor; [lia|]. rewrite set_link_mem by (apply take_last; lia). by rewrite Ex.
Qed.

(** The heap before the link is changed: [hh], which differs from [h] in the
    words of the block behind the first [size] bytes. *)
Lemma take_link hh n t mid : (forall a, ~ (off + size <= a < block_end m off) -> hp_mem hh a = m a) ->
  bump hh = bump h -> free_list hh = free_list h -> size <= n <= m off -> (CL_ALIGN | n) ->
  chain (hp_mem hh) (block_end m off) (off + n) mid -> (forall x, x ∈ mid -> is_free_block (hp_mem hh) x) ->
  (match mid with [] => t = m (off + 4) | x :: mid => t = x /\ mid = [] /\ hp_mem hh (x + 4) = m (off + 4) end) ->
  let h1 := set_link (last f1) t hh in
  block_cut bl fl h (heap_mem (zero_words (hp_mem h1) off n) h1) off n (b1 ++ off :: mid ++ b2) (f1 ++ mid ++ f2).
Proof.
  intros Hh Eb Ef Hn Ha Hc Hf Ht h1. destruct take_off as (Hb & Hm & Hma & He & Ho). unfold CL_MIN_ALLOC_SIZE in Hsize.
  set (m' := zero_words (hp_mem h1) off n).
  assert (Hin : forall a, off + n <= a < block_end m off -> m' a = hp_mem hh a).
  { intros a Hx. unfold m', zero_words. replace (_ && _) with false by lia. apply set_link_mem, take_last. lia. }
  assert (Hout : forall a, ~ (off <= a < block_end m off) -> (last f1 <> Some (a - 4)) -> m' a = m a).
  { intros a Hx Hl. unfold m', zero_words. replace (_ && _) with false by lia. unfold h1. rewrite set_link_mem by done. apply Hh. lia. }
  pose proof (rd_free _ _ _ Hrd) as Hfc. rewrite Efl in Hfc. pose proof (rd_NoDup _ _ _ Hrd) as Hnd. rewrite Efl in Hnd.
  assert (Hlinks : forall x, x ∈ f1 \/ x ∈ f2 -> hp_mem hh (x + 4) = m (x + 4)).
  { intros x Hx. apply Hh. destruct (take_links x Hx); lia. }
  assert (Hmid : forall x, x ∈ mid -> off + n <= x /\ x + 8 <= block_end m off).
  { intros x Hx. destruct (chain_bounds _ _ _ _ Hc) as [_ Hbd]. destruct (Hbd x Hx) as (? & _ & Hx').
    destruct (free_block_fields _ _ (Hf x Hx)) as [H8 _]. unfold block_end, sizeof_FreeBlock in *. lia. }
  apply free_cut; cbn [hp_mem heap_mem bump free_list]; fold m'; try done.
  - unfold CL_MIN_ALLOC_SIZE. split; [lia|done].
  - unfold h1. by rewrite set_link_rest.
  - intros a Hx Hp. apply Hout; [done|]. intros E. apply last_Some_elem_of in E. apply (Hp _ E). lia.
  - eapply blocks_ext; [exact Hc|]. intros x Hx. destruct (Hmid x Hx). by rewrite Hin by lia.
  - intros x Hx. destruct (Hmid x Hx). unfold is_free_block. rewrite Hin by lia. by apply Hf.
  - apply (free_chain_ext (hp_mem h1)).
    + apply (set_link_chain hh f1 (off :: f2) t (mid ++ f2)).
      * rewrite Ef. eapply free_chain_ext; [exact Hfc|]. intros x. rewrite elem_of_app, elem_of_cons.
        intros [Hx|[->|Hx]]; [by auto| |by auto]. apply Hh. lia.
      * done.
      * apply take_target; [by auto|intros x Hx; destruct (Hmid x Hx); lia|done].
    + intros b Hb0. unfold m', zero_words. rewrite !elem_of_app in Hb0. replace (_ && _) with false; [done|].
      destruct Hb0 as [Hb0|[Hb0|Hb0]]; [pose proof (take_links b (or_introl Hb0))|pose proof (Hmid b Hb0)|
        pose proof (take_links b (or_intror Hb0))]; lia.
Qed.

(** The block of the request's size, or of the free block's own. *)
Definition cut_of (res : Z * Z) (h' : CL_Heap) : Prop :=
  exists bl' fl', size <= snd res <= CL_HDR_SIZE_MASK /\ block_cut bl fl h h' (fst res) (snd res) bl' fl'.

Lemma take_block_cut : let '(n, h') := take_block (last f1) off size h in cut_of (off, n) h'.
Proof.
  destruct take_off as (_ & Hm & Hma & He & Ho). unfold take_block, CL_MIN_ALLOC_SIZE in *. destruct Hsize as [Hs Ha].
  destruct (_ >=? 16) eqn:E; unfold cut_of; cbn [fst snd].
  - set (new_off := off + size). set (hh := heap_put _ _ _).
    assert (Ehh : forall a, a <> new_off -> a <> new_off + 4 -> hp_mem hh a = m a) by (intros a ? ?; cbn; by rewrite !put_ne).
    assert (En : hp_mem hh new_off = m off - size) by (cbn; rewrite put_ne, put_eq; [done|lia]).
    destruct (raw_size_header (m off - size)) as (Es & _); [lia|].
    eexists _, _. split; [|apply (take_link hh size new_off [new_off]); try done]; try lia.
    + intros a Hx. apply Ehh; unfold new_off; lia.
    + rewrite He. replace (off + m off) with (new_off + CL_HDR_SIZE (hp_mem hh new_off)) by (rewrite En, Es; unfold new_off; lia).
      constructor; [rewrite En, Es; lia|constructor].
    + intros x ->%list_elem_of_singleton. unfold is_free_block, sizeof_FreeBlock. rewrite En. split; [lia|].
      by apply Z.divide_sub_r.
    + split_and!; [done|done|]. cbn. by rewrite put_eq.
  - eexists _, _. split; [|apply (take_link h (m off) (m (off + 4)) []); try done]; try lia.
    + rewrite He. constructor.
    + by intros x ?%elem_of_nil.
Qed.

End Take.

Lemma free_fuel : (length fl < walk_fuel (bump h))%nat.
Proof.
  assert (Hle : (length fl <= length bl)%nat).
  { apply submseteq_length, NoDup_submseteq; [apply Hrd|]. intros x Hx. by apply (rd_blocks _ _ _ Hrd). }
  assert (H0 : 0 <= CL_ALIGN) by (pose proof align_pos; lia).
  pose proof (walk_fuel_enough m (bump h) CL_ALIGN bl H0 ready_chain). lia.
Qed.

Section Walk.
Context (size max_steps : Z) (Hsize : CL_MIN_ALLOC_SIZE <= size /\ (CL_ALIGN | size)).

Lemma free_walk_spec fuel : forall rest seen steps cur, fl = seen ++ rest -> free_chain m cur rest -> (length rest < fuel)%nat ->
  let '(res, h', n) := free_list_walk fuel max_steps steps size (last seen) cur h in
  match res with
  | Some res => cut_of size res h'
  | None => h' = h /\ (max_steps = 0 -> forall x, x ∈ rest -> m x < size)
  end.
Proof.
  induction fuel as [|fuel IH]; intros rest seen steps cur Ef Hc Hl; [lia|]. cbn [free_list_walk].
  inversion Hc as [|? rest' Hz Hc']; subst; [split; [done|]; by intros _ x ?%elem_of_nil|].
  rewrite (proj2 (Z.eqb_neq _ _) Hz). destruct (negb _ && _) eqn:E1.
  { split; [done|]. intros ->. by cbn in E1. }
  destruct (m cur >=? size) eqn:E2.
  - assert (Hb : cur ∈ bl) by (apply (rd_blocks _ _ _ Hrd); rewrite Ef; apply elem_of_app; right; apply list_elem_of_here).
    apply list_elem_of_split in Hb as (b1 & b2 & Eb).
    pose proof (take_block_cut cur size b1 b2 seen rest' Eb Ef Hsize ltac:(lia)) as Ht.
    by destruct (take_block (last seen) cur size h) as [n h'].
  - specialize (IH rest' (seen ++ [cur]) (steps + 1) (m (cur + 4))). rewrite last_snoc in IH.
    destruct (free_list_walk _ _ _ _ _ _ _) as [[res h'] n]. rewrite <- app_assoc in IH. specialize (IH Ef Hc' ltac:(cbn in Hl; lia)).
    destruct res as [res|]; [done|]. destruct IH as [-> H0]. split; [done|].
    intros E0 x [->|Hx]%elem_of_cons; [lia|by apply H0].
Qed.

End Walk.

(** *** The attempts *)

Lemma take_block_rest prev cur size hh : let '(_, h') := take_block prev cur size hh in
  bump h' = bump hh /\ total_allocated h' = total_allocated hh.
Proof. unfold take_block. destruct (_ >=? _), prev; done. Qed.

Lemma free_list_walk_rest fuel max_steps size : forall steps prev cur hh,
  let '(_, h', _) := free_list_walk fuel max_steps steps size prev cur hh in
  bump h' = bump hh /\ total_allocated h' = total_allocated hh.
Proof.
  induction fuel as [|fuel IH]; intros steps prev cur hh; [done|]. cbn [free_list_walk].
  destruct (cur =? 0); [done|]. destruct (negb _ && _); [done|]. destruct (_ >=? _).
  - pose proof (take_block_rest prev cur size hh) as Ht. by destruct (take_block _ _ _ _).
  - specialize (IH (steps + 1) (Some cur) (hp_mem hh (cur + 4)) hh). by destruct (free_list_walk _ _ _ _ _ _ _) as [[? ?] ?].
Qed.

(** Where the policy looks, besides the heap. *)
Record same_control (s s' : AllocState) : Prop := {
  sc_mark : gs_mark (al_gc s') = gs_mark (al_gc s);
  sc_count : gc_count (al_gc s') = gc_count (al_gc s);
  sc_total : total_allocated (al_heap s') = total_allocated (al_heap s);
  sc_fail : gc_fwd_fail_bump (al_compact s') = gc_fwd_fail_bump (al_compact s);
  sc_sweeps : gc_sweeps_since_compact (al_compact s') = gc_sweeps_since_compact (al_compact s);
  sc_cycle : gc_last_compact_cycle s' = gc_last_compact_cycle s }.

(** A cut from the ready state [s], or nothing. *)
Definition cut_attempt (size : Z) (a : Attempt) (none : Prop) : Prop :=
  gs_mark (al_gc (snd a)) = gs_mark (al_gc s) /\
  match fst a with
  | Some res => cut_of size res (al_heap (snd a))
  | None => al_compact (snd a) = al_compact s /\ none
  end.

Section Attempts.
Context (size : Z) (Hsize : CL_MIN_ALLOC_SIZE <= size /\ (CL_ALIGN | size)) (Hmask : size <= CL_HDR_SIZE_MASK).

Lemma cl_bump_fits_iff : cl_bump_fits arena_size (bump h) size = true <-> bump h + size <= arena_size.
Proof. pose proof ready_bump. pose proof align_pos. unfold cl_bump_fits, CL_MIN_ALLOC_SIZE in *. lia. Qed.

Lemma alloc_from_bump_cut :
  cut_attempt size (alloc_from_bump arena_size size s) (cl_bump_fits arena_size (bump h) size = false).
Proof.
  unfold alloc_from_bump, cut_attempt. destruct (cl_bump_fits _ _ _) eqn:E; [|done]. cbn [fst snd]. split; [done|].
  apply cl_bump_fits_iff in E. exists (bl ++ [bump h]), fl. cbn [fst snd]. split; [lia|]. by apply bump_cut.
Qed.

Lemma alloc_from_free_list_cut max_steps : let a := alloc_from_free_list size max_steps s in
  cut_attempt size a (max_steps = 0 -> forall x, x ∈ fl -> m x < size) /\
  same_control s (snd a) /\ bump (al_heap (snd a)) = bump h.
Proof.
  unfold alloc_from_free_list, cut_attempt.
  pose proof (free_walk_spec size max_steps Hsize (walk_fuel (bump h)) fl [] 0 (free_list h) eq_refl (rd_free _ _ _ Hrd) free_fuel) as Hw.
  pose proof (free_list_walk_rest (walk_fuel (bump h)) max_steps size 0 None (free_list h) h) as Hr.
  cbn [last] in Hw. destruct (free_list_walk _ _ _ _ _ _ _) as [[res h'] n]. cbn [fst snd]. destruct Hr as [Eb Et].
  split; [|done]. split; [done|]. destruct res as [res|]; [done|]. destruct Hw as [-> Hw]. split; [|done].
  by destruct s as [[[]]].
Qed.

End Attempts.
End Cuts.

End Ready.
