(* ===== verification/GcPolicy.v ===== *)
(** * The allocation policy

    gcb_alloc_slow and cl_alloc: which attempt follows which, and what the
    caller gets.  An allocation keeps the object graph and hands out a fresh
    block of its own; a storage error means that neither the bump front nor any
    free block is large enough, or that the size does not fit a header.

    A cut block has no valid header until cl_alloc writes one, so no collection
    may run in between; the policy's conditions see to that ([no_collection]). *)

From Stdlib Require Import ZArith Lia ZifyBool.
From stdpp Require Import base option list sets sorting.
From S2P Require Import Prelude GcHeap GcGraph GcMark GcSweep GcCollect GcFwd GcSlide GcMove GcCompact.
From S2P Require Import GcLookup GcNext GcAlloc.
Local Open Scope Z_scope.

Section Policy.
Context {L : Layout} {LL : LayoutLaws L} {K : CompactConfig} (arena_size : Z) (r : Roots).
Context (Harena : arena_size + GC_FWD_PAGE <= 2 ^ 32).
Context {C : MarkConfig} (gc_finalize_dead : memory -> Z -> memory) (Hfin : finalize_local gc_finalize_dead).
Context (Hbuf : 0 < CL_GC_MARK_STACK_SIZE < 2 ^ 31 /\ 0 <= gc_mark_stack_test_limit < 2 ^ 31).

Abbreviation mem s := (hp_mem (al_heap s)).
Abbreviation R m := (reachable arena_size m (root_slots r) (jit_pinned r)).
Abbreviation same := (same_graph arena_size (root_slots r) (jit_pinned r)).
Abbreviation ready := (ready arena_size r).

(** Ready, with the object graph of [s0]. *)
Definition reached (s0 s : AllocState) (bl fl : list Z) : Prop :=
  ready s bl fl /\ exists mv, same mv (mem s0) (mem s).

Lemma ready_ext s s' bl fl : al_gc s' = al_gc s -> ready s bl fl -> ready s' bl fl.
Proof. intros E [R1 R2 R3 R4 R5]. unfold al_heap in *. rewrite <- E in *. by split. Qed.

Lemma reached_ext s0 s s' bl fl : al_compact s' = al_compact s -> reached s0 s bl fl -> reached s0 s' bl fl.
Proof.
  intros E [H1 H2]. assert (E' : al_gc s' = al_gc s) by (unfold al_gc; by rewrite E).
  split; [by eapply ready_ext|]. unfold al_heap in *. by rewrite E'.
Qed.

Lemma reached_refl s bl fl : ready s bl fl -> reached s s bl fl.
Proof.
  intros H. split; [done|]. exists (fun o => o). apply (kept_graph arena_size r (al_gc s) (al_gc s) bl); [apply H|done|done].
Qed.

Lemma ready_fits s bl fl o : ready s bl fl -> R (mem s) o -> obj_fits arena_size (mem s) o.
Proof. intros H HR. by destruct (reach_facts arena_size r _ _ o (rd_movable _ _ _ _ _ H) HR) as (_ & _ & ? & _). Qed.

Lemma reached_step s0 s s' bl0 fl0 bl fl bl' fl' : ready s0 bl0 fl0 -> reached s0 s bl fl -> ready s' bl' fl' ->
  (exists mv, same mv (mem s) (mem s')) -> reached s0 s' bl' fl'.
Proof.
  intros H0 [H1 [mv G1]] H2 [mv' G2]. split; [done|]. eexists. eapply same_graph_trans; [| |exact G1|exact G2].
  - intros o. by apply (ready_fits s0 bl0 fl0).
  - intros o. by apply (ready_fits s bl fl).
Qed.

(** *** The collections *)

Lemma swept_ready s s' bl fl pre fl' : ready s bl fl -> 
  collected arena_size (root_slots r) (jit_pinned r) (al_gc s) (al_gc s') pre fl' ->
  ready s' pre fl' /\ same (fun o => o) (mem s) (mem s').
Proof.
  intros H Hc. destruct (collected_movable arena_size r Harena _ _ bl pre fl' (rd_movable _ _ _ _ _ H) Hc) as [Hm Hg].
  split; [|done]. split; [done|apply (co_idle _ _ _ _ _ _ _ Hc)|apply (co_free _ _ _ _ _ _ _ Hc)|apply (co_free _ _ _ _ _ _ _ Hc)|].
  intros x Hx. destruct (co_blocks _ _ _ _ _ _ _ Hc x Hx) as [Hf Hn]. split; [apply (co_all _ _ _ _ _ _ _ Hc); by right|].
  split; [done|]. intros HR. by apply Hn, (co_reach _ _ _ _ _ _ _ Hc).
Qed.

Lemma marked_now s bl fl : ready s bl fl ->
  marked_heap arena_size (root_slots r) (jit_pinned r) (al_gc s) (mark_heap arena_size (root_slots r) (jit_pinned r) (al_gc s)).
Proof. intros H. eapply mark_heap_spec; [done|apply H|apply H]. Qed.

Lemma sweep_ready s s' bl fl : ready s bl fl ->
  al_gc s' = count_gc (sweep_heap gc_finalize_dead (mark_heap arena_size (root_slots r) (jit_pinned r) (al_gc s))) ->
  exists bl' fl', ready s' bl' fl' /\ same (fun o => o) (mem s) (mem s') /\ bump (al_heap s') = bump (al_heap s).
Proof.
  intros H E. destruct (sweep_collects arena_size gc_finalize_dead Hfin Hbuf _ _ bl (al_gc s) (mo_wf _ _ _ _ (rd_movable _ _ _ _ _ H)) _
    (marked_now s bl fl H)) as (pre & fl' & Hc).
  assert (Hc' : collected arena_size (root_slots r) (jit_pinned r) (al_gc s) (al_gc s') pre fl') by (rewrite E; destruct Hc; by split).
  exists pre, fl'. destruct (swept_ready s s' bl fl pre fl' H Hc') as [H1 H2]. split; [done|]. split; [done|].
  apply (co_bump _ _ _ _ _ _ _ Hc').
Qed.

Lemma collect_ready s bl fl : ready s bl fl -> let s' := collect arena_size gc_finalize_dead r s in
  exists bl' fl', ready s' bl' fl' /\ (exists mv, same mv (mem s) (mem s')) /\ bump (al_heap s') = bump (al_heap s).
Proof.
  intros H s'. destruct (sweep_ready s s' bl fl H eq_refl) as (bl' & fl' & H1 & H2 & H3).
  exists bl', fl'. split; [done|]. split; [by eexists|done].
Qed.

Lemma compact_ready s s' bl fl : ready s bl fl ->
  al_compact s' = cl_gc_compact arena_size gc_finalize_dead r (al_compact s) ->
  exists bl' fl', ready s' bl' fl' /\ exists mv, same mv (mem s) (mem s').
Proof.
  intros H E. unfold cl_gc_compact in E. change (cs_gc (al_compact s)) with (al_gc s) in E.
  pose proof (marked_now s bl fl H) as Hm. set (g := mark_heap _ _ _ _) in *. rewrite (mh_bump _ _ _ _ _ Hm) in E.
  destruct (gc_jit_pin_oom r); [|destruct (gc_fwd_alloc _ _ _ _) as [f0|] eqn:Ea].
  1,3: (destruct (sweep_ready s s' bl fl H) as (bl' & fl' & H1 & H2 & _); [unfold al_gc at 1; by rewrite E|]; by eauto).
  destruct (compact_passes_moves arena_size gc_finalize_dead r bl (al_gc s) g f0) as (mv & pre & fl' & Hc); [done|done|apply H|done|done|].
  assert (Eg : al_gc s' = count_gc (set_heap (compact_passes gc_finalize_dead r f0 (gs_heap g)) g)) by (unfold al_gc at 1; by rewrite E).
  assert (Hc' : compacted arena_size r (al_gc s) mv (gs_heap (al_gc s')) pre fl') by by rewrite Eg.
  exists pre, fl'. split; [|exists mv; apply Hc']. split.
  - by apply (compacted_movable arena_size r (al_gc s) (al_gc s') bl pre fl' mv (rd_movable _ _ _ _ _ H)).
  - rewrite Eg. apply (mh_idle _ _ _ _ _ Hm).
  - apply (cp_free _ _ _ _ _ _ _ Hc').
  - apply (cp_free _ _ _ _ _ _ _ Hc').
  - intros x Hx. destruct (cp_blocks _ _ _ _ _ _ _ Hc' x Hx) as [Hf Hn]. split; [apply (cp_all _ _ _ _ _ _ _ Hc'); by right|].
    split; [done|]. intros (o & HR & Ex)%(sg_reach _ _ _ _ _ _ (cp_graph _ _ _ _ _ _ _ Hc')). by apply (Hn o HR).
Qed.

(** *** The attempts *)

Section Attempts.
Context (size : Z) (Hsize : CL_MIN_ALLOC_SIZE <= size /\ (CL_ALIGN | size)) (Hmask : size <= CL_HDR_SIZE_MASK).
Context (s0 : AllocState) (bl0 fl0 : list Z) (H0 : ready s0 bl0 fl0).

Definition no_front (s : AllocState) (fl : list Z) : Prop := cl_bump_fits arena_size (bump (al_heap s)) size = false.

(** Neither the front nor a free block is large enough. *)
Definition exhausted (s : AllocState) (fl : list Z) : Prop :=
  no_front s fl /\ forall x, x ∈ fl -> mem s x < size.

(** A block cut from a heap with the object graph of [s0], or nothing from one
    where [none] holds. *)
Definition served (a : Attempt) (none : AllocState -> list Z -> Prop) : Prop :=
  exists s bl fl, reached s0 s bl fl /\ cut_attempt arena_size s bl fl size a (none s fl).

Lemma served_or_else a k none : served a no_front ->
  (forall s bl fl, reached s0 s bl fl -> no_front s fl -> served (k s) none) -> served (or_else a k) none.
Proof.
  intros (s & bl & fl & Hr & Hg & Ha) Hk. destruct a as [[res|] s']; cbn [or_else fst snd] in *.
  - by exists s, bl, fl.
  - destruct Ha as [E Hn]. apply (Hk s' bl fl); [by eapply reached_ext|]. unfold no_front, al_heap, al_gc in *. by rewrite E.
Qed.

Lemma bump_served s bl fl : reached s0 s bl fl -> served (alloc_from_bump arena_size size s) no_front.
Proof. intros Hr. exists s, bl, fl. split; [done|]. eapply alloc_from_bump_cut; [apply Hr|done..]. Qed.

Lemma free_served max_steps s bl fl : reached s0 s bl fl -> no_front s fl ->
  let a := alloc_from_free_list size max_steps s in
  served a (fun s fl => no_front s fl /\ (max_steps = 0 -> forall x, x ∈ fl -> mem s x < size)) /\
  same_control s (snd a) /\ bump (al_heap (snd a)) = bump (al_heap s).
Proof.
  intros Hr Hn a. destruct (alloc_from_free_list_cut arena_size r s bl fl (proj1 Hr) size Hsize max_steps) as [[Hg Ha] Hc].
  split; [|done]. exists s, bl, fl. split; [done|]. split; [done|]. change (alloc_from_free_list _ _ _) with a in Ha.
  destruct (fst a); [done|]. by destruct Ha.
Qed.

Lemma served_weaken a (none none' : AllocState -> list Z -> Prop) : (forall s fl, none s fl -> none' s fl) -> served a none -> served a none'.
Proof.
  intros Hw (s & bl & fl & Hr & Hg & Ha). exists s, bl, fl. split; [done|]. split; [done|]. destruct (fst a); [done|].
  destruct Ha. auto.
Qed.

(** The triggers after a cut from the free list are those before it. *)
Lemma triggers_same s s' : same_control s s' -> bump (al_heap s') = bump (al_heap s) ->
  fwd_blocked s' = fwd_blocked s /\ not_this_cycle s' = not_this_cycle s /\ compact_due arena_size s' = compact_due arena_size s.
Proof. intros [? E1 E2 E3 E4 E5] Eb. unfold compact_due, fwd_blocked, not_this_cycle. by rewrite E1, E2, E3, E4, E5, Eb. Qed.

(** A cut block is unformatted until cl_alloc writes its header, so a
    compaction must not come next. *)
Definition no_collection (a : Attempt) : Prop :=
  fst a <> None -> not_this_cycle (snd a) = true -> compact_due arena_size (snd a) = false.

Lemma alloc_after_sweep_served s bl fl : reached s0 s bl fl -> no_front s fl ->
  let a := alloc_after_sweep arena_size size s in served a no_front /\ no_collection a.
Proof.
  intros Hr Hn. unfold alloc_after_sweep, alloc_from_bump. rewrite Hn. cbn [or_else].
  destruct (not_this_cycle s && compact_due arena_size s) eqn:E.
  - split; [|by intros ?]. exists s, bl, fl. split; [done|]. by repeat split.
  - destruct (free_served CL_FREELIST_PROBE_LIMIT s bl fl Hr Hn) as (Hs & Hc & Hb). split.
    + eapply served_weaken; [|exact Hs]. by intros ? ? [? _].
    + intros _. destruct (triggers_same _ _ Hc Hb) as (_ & -> & ->). intros E'. by rewrite E' in E.
Qed.

Lemma compact_front_served s bl fl : reached s0 s bl fl ->
  served (alloc_from_bump arena_size size
    (set_compact (cl_gc_compact arena_size gc_finalize_dead r (al_compact s)) (set_last_compact (gc_count (al_gc s)) s))) no_front.
Proof.
  intros Hr. destruct (compact_ready s (set_compact (cl_gc_compact arena_size gc_finalize_dead r (al_compact s))
    (set_last_compact (gc_count (al_gc s)) s)) bl fl) as (bl' & fl' & H1 & H2); [apply Hr|done|].
  apply (bump_served _ bl' fl'). by eapply reached_step.
Qed.

Lemma alloc_compact_served a : served a no_front -> no_collection a ->
  served (alloc_compact arena_size gc_finalize_dead r size a) no_front.
Proof.
  intros Hs Hno. pose proof Hs as (s & bl & fl & Hr & _ & Ha). destruct a as [[res|] s']; unfold alloc_compact; cbn [fst snd] in *.
  - destruct (not_this_cycle s') eqn:E; [|done]. by rewrite Hno.
  - destruct Ha as [E Hn]. assert (Hr' : reached s0 s' bl fl) by by eapply reached_ext.
    assert (Hn' : no_front s' fl) by (unfold no_front, al_heap, al_gc in *; by rewrite E).
    destruct (not_this_cycle s'); [|done]. destruct (fwd_blocked s') eqn:Ef; [|exact (compact_front_served s' bl fl Hr')].
    destruct (free_served 0 s' bl fl Hr' Hn') as (Hs' & Hc & Hb). destruct (triggers_same _ _ Hc Hb) as (Ef' & _ & _).
    destruct Hs' as (s2 & bl2 & fl2 & Hr2 & Hg2 & Ha2).
    destruct (alloc_from_free_list size 0 s') as [[res|] s3]; cbn [fst snd] in *.
    + unfold compact_due. rewrite Ef', Ef, andb_false_r. by exists s2, bl2, fl2.
    + refine (compact_front_served s3 bl2 fl2 _). eapply reached_ext; [|exact Hr2]. apply Ha2.
Qed.

Lemma collect_served s bl fl : reached s0 s bl fl -> no_front s fl ->
  served (alloc_compact arena_size gc_finalize_dead r size
    (alloc_after_sweep arena_size size (collect arena_size gc_finalize_dead r s))) no_front.
Proof.
  intros Hr Hn. destruct (collect_ready s bl fl (proj1 Hr)) as (bl' & fl' & H1 & H2 & H3).
  destruct (alloc_after_sweep_served (collect arena_size gc_finalize_dead r s) bl' fl') as [Hs Hc].
  - by eapply reached_step.
  - unfold no_front. by rewrite H3.
  - by apply alloc_compact_served.
Qed.

(** The block is on its way out: only its accounting may follow. *)
Definition granted (a : Attempt) : Prop :=
  match a with
  | (Some (off, n), s') => exists s bl fl bl' fl', reached s0 s bl fl /\ size <= n <= CL_HDR_SIZE_MASK /\
      gs_mark (al_gc s') = gs_mark (al_gc s) /\ block_cut arena_size bl fl (al_heap s) (al_heap s') off n bl' fl'
  | (None, s') => exists bl fl, reached s0 s' bl fl /\ exhausted s' fl
  end.

Lemma block_cut_total bl fl h h' off n bl' fl' t :
  block_cut arena_size bl fl h h' off n bl' fl' -> block_cut arena_size bl fl h (set_total t h') off n bl' fl'.
Proof. by intros []. Qed.

Lemma gcb_alloc_slow_granted s bl fl : reached s0 s bl fl -> granted (gcb_alloc_slow arena_size gc_finalize_dead r size s).
Proof.
  intros Hr. unfold gcb_alloc_slow. set (a := or_else _ _).
  assert (Hs : served a exhausted).
  { apply served_or_else; [apply served_or_else; [apply served_or_else|]|].
    - by eapply bump_served.
    - intros s1 bl1 fl1 H1 Hn1. eapply served_weaken; [|by eapply free_served]. by intros ? ? [? _].
    - apply collect_served.
    - intros s1 bl1 fl1 H1 Hn1. eapply served_weaken; [|by eapply free_served]. intros ? ? [? He]. split; [done|]. by apply He. }
  destruct Hs as (s1 & bl1 & fl1 & Hr1 & Hg & Ha). destruct a as [[[off n]|] s']; cbn [fst snd granted] in *.
  - destruct Ha as (bl' & fl' & Hn & Hc). exists s1, bl1, fl1, bl', fl'. split; [done|]. split; [done|]. split; [done|].
    by apply block_cut_total.
  - destruct Ha as [E He]. exists bl1, fl1. split; [by eapply reached_ext|]. unfold exhausted, no_front, al_heap, al_gc in *. by rewrite E.
Qed.

(** *** The fast path *)

(** The front's tail, when the block takes all of it, has to fit a header too. *)
Definition tail_fits : Prop :=
  let rem := arena_size - bump (al_heap s0) in
  size <= rem -> rem - size < CL_MIN_ALLOC_SIZE -> rem <= CL_HDR_SIZE_MASK.

Lemma cut_front_granted n : CL_MIN_ALLOC_SIZE <= n /\ (CL_ALIGN | n) -> size <= n <= CL_HDR_SIZE_MASK ->
  bump (al_heap s0) + n <= arena_size ->
  granted (Some (bump (al_heap s0), n), account n (set_al_heap (set_bump (bump (al_heap s0) + n) (al_heap s0)) s0)).
Proof.
  intros Hn Hs Hb. exists s0, bl0, fl0, (bl0 ++ [bump (al_heap s0)]), fl0. split; [by apply reached_refl|].
  split; [done|]. split; [done|]. apply block_cut_total. by eapply bump_cut.
Qed.

Lemma fast_or_slow_granted : (CL_ALIGN | arena_size) -> tail_fits ->
  granted (or_else (gcb_alloc_fast arena_size size s0) (gcb_alloc_slow arena_size gc_finalize_dead r size)).
Proof.
  intros Ha Ht. unfold tail_fits in Ht. unfold gcb_alloc_fast. set (rem := arena_size - bump (al_heap s0)) in *.
  destruct (size <=? rem) eqn:E; cbn [or_else].
  - destruct (ready_aligned arena_size r s0 bl0 fl0 H0) as [Hb _].
    assert (Hr : (CL_ALIGN | rem)) by by apply Z.divide_sub_r. unfold gcb_cursor_cut_front, CL_MIN_ALLOC_SIZE in *.
    destruct (rem - size <? 16) eqn:E2; cbn [or_else]; apply cut_front_granted; unfold CL_MIN_ALLOC_SIZE in *; try done; try lia.
    split; [lia|done].
  - by apply (gcb_alloc_slow_granted s0 bl0 fl0), reached_refl.
Qed.

End Attempts.

(** What the caller of cl_alloc gets: a block of [n] bytes or more, or the
    reason why there is none; in both cases a heap to go on with. *)
Definition allocation (type n : Z) (s : AllocState) (res : option Z * AllocState) : Prop :=
  match res with
  | (Some p, s') => exists mv bl fl n', ready s' bl fl /\ same mv (mem s) (mem s') /\ n <= n' <= CL_HDR_SIZE_MASK /\
      fresh_block arena_size r type s' bl fl p n'
  | (None, s') => exists mv bl fl, ready s' bl fl /\ same mv (mem s) (mem s') /\ (CL_HDR_SIZE_MASK < n \/ exhausted n s' fl)
  end.

End Policy.

(** ** The theorems *)

Section Theorems.
Context {L : Layout} {LL : LayoutLaws L} {C : MarkConfig} {K : CompactConfig}.

(** C8: An allocation from a heap that can be collected keeps the object graph, up
    to the moves of a compaction, and leaves a heap that can be collected.  On
    success the block is formatted with the requested type and at least the
    requested size, zero behind its header, in no free list and not yet
    reachable; a storage error means that the size does not fit a header's size
    field, or that neither the bump front nor any block of the free list is large
    enough.  The hypothesis [tail_fits] is needed: when the request leaves less
    than a minimal block of the bump front and so takes all of it, the front has
    to fit a header's size field; [cl_alloc_tail_overflow] is what happens when
    it does not. *)
Theorem cl_alloc_correct arena_size gc_finalize_dead r type size bl fl s :
  finalize_local gc_finalize_dead ->
  0 < CL_GC_MARK_STACK_SIZE < 2 ^ 31 /\ 0 <= gc_mark_stack_test_limit < 2 ^ 31 ->
  arena_size + GC_FWD_PAGE <= 2 ^ 32 -> (CL_ALIGN | arena_size) -> 0 <= type < 256 -> 0 <= size <= 2 ^ 32 - CL_ALIGN ->
  ready arena_size r s bl fl -> tail_fits arena_size (alloc_size size) s ->
  size <= alloc_size size /\
  allocation arena_size r type (alloc_size size) s (cl_alloc arena_size gc_finalize_dead r type size s).
Proof.
  intros Hfin Hbuf Harena Ha Htype Hsize Hr Ht. destruct (alloc_size_spec size Hsize) as [Hle Hn]. split; [done|].
  unfold cl_alloc. destruct (_ >? _) eqn:E.
  - destruct (reached_refl arena_size r s bl fl Hr) as [_ [mv Hg]]. exists mv, bl, fl. split; [done|]. split; [done|]. left. lia.
  - pose proof (fast_or_slow_granted arena_size r Harena gc_finalize_dead Hfin Hbuf (alloc_size size) Hn ltac:(lia) s bl fl Hr Ha Ht) as Hg.
    destruct (or_else _ _) as [[[off n]|] s'].
    + destruct Hg as (s1 & bl1 & fl1 & bl' & fl' & Hr1 & Hs & Hmark & Hc).
      assert (Hr' : reached arena_size r s (init_block type off n s') bl' fl').
      { eapply (reached_step arena_size r); [exact Hr|exact Hr1| |exists (fun o => o)].
        - by apply (init_ready arena_size r Harena s1 s' bl1 fl1 bl' fl'); [apply Hr1|..|lia|].
        - by apply (init_graph arena_size r s1 s' bl1 fl1 bl' fl'); [apply Hr1|..|lia|]. }
      destruct Hr' as [Hr' [mv Hg]]. exists mv, bl', fl', n. split; [done|]. split; [done|]. split; [done|].
      by apply (init_fresh arena_size r s1 s' bl1 fl1); [apply Hr1|..|lia|].
    + destruct Hg as (bl' & fl' & [Hr' [mv Hg]] & He). exists mv, bl', fl'. split; [done|]. split; [done|]. by right.
Qed.

(** The cut from the front takes an undersized tail along after the size has
    been checked: a front of more bytes than a header can count, with the tail
    too small for a block of its own, ends in a block whose header says less
    than was asked for (0 bytes when the front is 2^23). *)
Theorem cl_alloc_tail_overflow arena_size gc_finalize_dead r type size s :
  0 <= type < 256 -> 0 <= size <= 2 ^ 32 - CL_ALIGN -> alloc_size size <= CL_HDR_SIZE_MASK ->
  let p := bump (al_heap s) in let rem := arena_size - p in
  alloc_size size <= rem -> rem - alloc_size size < CL_MIN_ALLOC_SIZE -> CL_HDR_SIZE_MASK < rem ->
  let '(res, s') := cl_alloc arena_size gc_finalize_dead r type size s in
  res = Some p /\ bump (al_heap s') = arena_size /\
  CL_HDR_SIZE (hp_mem (al_heap s') p) = rem - 2 ^ 23 /\ rem - 2 ^ 23 < CL_MIN_ALLOC_SIZE.
Proof.
  intros Ht Hs Hmask p rem H1 H2 H3. destruct (alloc_size_spec size Hs) as (_ & Hn & _). unfold cl_alloc.
  destruct (_ >? _) eqn:E; [lia|]. unfold gcb_alloc_fast. fold p. fold rem.
  rewrite (proj2 (Z.leb_le _ _) H1). unfold gcb_cursor_cut_front. fold p. rewrite (proj2 (Z.ltb_lt _ _) H2). cbn [or_else].
  change CL_HDR_SIZE_MASK with (2 ^ 23 - 1) in *. unfold CL_MIN_ALLOC_SIZE in *.
  split; [done|]. split; [cbn; unfold rem; lia|]. split; [|lia].
  cbn. rewrite put_eq. assert (E2 : CL_MAKE_HDR type rem = CL_MAKE_HDR type (rem - 2 ^ 23)).
  { unfold CL_MAKE_HDR. f_equal. change CL_HDR_SIZE_MASK with (Z.ones 23). rewrite !Z.land_ones by lia.
    replace rem with (rem - 2 ^ 23 + 1 * 2 ^ 23) at 1 by lia. by rewrite Z.mod_add by lia. }
  rewrite E2. apply make_hdr_fields; [done|]. change CL_HDR_SIZE_MASK with (2 ^ 23 - 1). lia.
Qed.

End Theorems.

(** ** The sample with holes *)

#[local] Existing Instance Holes.layout.

Definition alloc_state (c : CompactState) : AllocState :=
  {| al_compact := c; gc_last_compact_cycle := 2 ^ 32 - 1; total_consed := 0; freelist_steps := 0 |}.

Lemma holes_ready : ready (K := sample_config) Holes.arena_size (holes_roots false) (alloc_state holes_state) Holes.blocks [].
Proof.
  split; [apply holes_movable|done|constructor|constructor|]. by intros x ?%elem_of_nil.
Qed.

(** 40 bytes are left at the front and the request is for 56: the sweep finds
    two holes of 16 bytes, the compaction moves the front from 88 to 72, and
    the block fills the arena. *)
Example cl_alloc_correct_witness :
  let res := cl_alloc (C := tiny_stack) (K := sample_config) Holes.arena_size sample_finalize (holes_roots false) 2 50 (alloc_state holes_state) in
  allocation (K := sample_config) Holes.arena_size (holes_roots false) 2 56 (alloc_state holes_state) res /\
  fst res = Some 72 /\ map (hp_mem (al_heap (snd res))) [24; 56; 72; 76; 124] = [16; CL_MAKE_HDR 2 16; CL_MAKE_HDR 2 56; 0; 0] /\
  bump (al_heap (snd res)) = 128 /\ gc_last_compact_cycle (snd res) = 6.
Proof.
  intros res. split; [|by vm_compute].
  refine (proj2 (cl_alloc_correct (C := tiny_stack) (K := sample_config) Holes.arena_size sample_finalize (holes_roots false) 2 50
    Holes.blocks [] (alloc_state holes_state) _ _ _ _ _ _ _ _)); try done.
  - by exists 16.
  - apply holes_ready.
Defined.

(** An empty arena of 16 + 2^23 bytes and a request of 2^23 - 8. *)
Definition wide_state : AllocState :=
  alloc_state {| cs_gc := {| gs_heap := {| hp_mem := fun _ => 0; bump := 16; free_list := 0; total_allocated := 0 |};
                             gs_mark := sample_start; gc_count := 0 |};
                 gc_fwd_fail_bump := 0; compact_count := 0; gc_sweeps_since_compact := 0 |}.

Example cl_alloc_tail_overflow_witness :
  let '(res, s') := cl_alloc (C := tiny_stack) (K := sample_config) (2 ^ 23 + 16) sample_finalize (holes_roots false) 2 (2 ^ 23 - 8) wide_state in
  res = Some 16 /\ CL_HDR_SIZE (hp_mem (al_heap s') 16) = 0.
Proof.
  pose proof (cl_alloc_tail_overflow (C := tiny_stack) (K := sample_config) (2 ^ 23 + 16) sample_finalize (holes_roots false)
    2 (2 ^ 23 - 8) wide_state ltac:(done) ltac:(done) ltac:(done) ltac:(done) ltac:(done) ltac:(done)) as H.
  destruct (cl_alloc _ _ _ _ _ _) as [res s']. by destruct H as (H1 & _ & H2 & _).
Defined.
