(* ===== verification/BindBlob.v ===== *)
(** * Binding tables: the blob

    bindtab.c, the reading side.  A generated module ships its names as one
    byte vector, the blob: a header, entries of 16 bytes sorted by name, and an
    arena of names and wide values, all big-endian.  Here are the views of a
    blob, its validation, and the probe: a binary search by name and the guards
    of the variants of a library call.

    A byte vector is the list of its bytes; a name is the list of its bytes. *)

From Stdlib Require Import ZArith Lia ZifyBool.
From stdpp Require Import base option list.
From S2P Require Import Prelude.
Local Open Scope Z_scope.

(** ** Bytes *)

Definition byte_at (d : list Z) (p : Z) : Z := nth (Z.to_nat p) d 0.
Definition slice (d : list Z) (p len : Z) : list Z := take (Z.to_nat len) (drop (Z.to_nat p) d).

Definition rd32 (d : list Z) (p : Z) : Z :=
  Z.lor (Z.lor (Z.lor (Z.shiftl (byte_at d p) 24) (Z.shiftl (byte_at d (p + 1)) 16)) (Z.shiftl (byte_at d (p + 2)) 8))
    (byte_at d (p + 3)).
Definition rd16 (d : list Z) (p : Z) : Z := u16 (Z.lor (Z.shiftl (byte_at d p) 8) (byte_at d (p + 1))).
Definition wr32 (v : Z) : list Z := [u8 (Z.shiftr v 24); u8 (Z.shiftr v 16); u8 (Z.shiftr v 8); u8 v].
Definition wr16 (v : Z) : list Z := [u8 (Z.shiftr v 8); u8 v].

(** (int16_t) *)
Definition i16 (v : Z) : Z := (v + 2 ^ 15) mod 2 ^ 16 - 2 ^ 15.

Definition is_byte (b : Z) : Prop := 0 <= b < 256.

(** ** The layout *)

Definition CL_BT_MAGIC : Z := 1129071188.  (* "CLBT" *)
Definition CL_BT_VERSION : Z := 1.
Definition CL_BT_HEADER_SIZE : Z := 16.
Definition CL_BT_ENTRY_SIZE : Z := 16.
Definition CL_BT_HF_LIBCALLS : Z := 1.

Definition CL_BT_CONST : Z := 0.
Definition CL_BT_VAR : Z := 1.
Definition CL_BT_LIBCALL : Z := 2.
Definition CL_BT_FIELD : Z := 3.
Definition CL_BT_NAME : Z := 4.
Definition CL_BT_KIND_MAX : Z := 4.

Definition CL_BT_F_NOT_MORPHOS : Z := 1.
Definition CL_BT_F_MORPHOS : Z := 2.
Definition CL_BT_F_SIGNED : Z := 4.
Definition CL_BT_F_WIDE : Z := 8.
Definition CL_BT_F_STRING : Z := 16.
Definition CL_BT_F_KNOWN : Z := 31.

Definition CL_STUB_LIBCALL : Z := 0.
Definition CL_STUB_PEEK : Z := 1.
Definition CL_STUB_POKE : Z := 2.
Definition CL_STUB_PEEK_IDX : Z := 3.
Definition CL_STUB_POKE_IDX : Z := 4.
Definition CL_STUB_FIELD_PTR : Z := 5.
Definition CL_STUB_CT_MAX : Z := 9.

Definition CL_AMIGA_RES_KIND_MAX : Z := 8.
Definition CL_AMIGA_RES_KIND (regspec : Z) : Z := Z.land (Z.shiftr regspec 28) 15.
Definition CL_AMIGA_MAKE_REGSPEC (nibbles kind : Z) : Z := Z.lor (Z.land nibbles 268435455) (u32 (Z.shiftl (u32 kind) 28)).

Definition flag (flags f : Z) : bool := negb (Z.land flags f =? 0).

Record BtEntry : Set := {
  name_off : Z; name_len : Z; kind : Z; flags : Z; ea : Z; eb : Z; ec : Z; ed : Z }.

(** base, len, n, names_len; entries and names are offsets into base. *)
Record BtView : Set := { base : list Z; vlen : Z; vn : Z; names_len : Z; entries : Z; names : Z }.

Definition view_blob (data : list Z) : BtView :=
  let n := rd32 data 8 in
  {| base := data; vlen := Z.of_nat (length data); vn := n; names_len := rd32 data 12;
     entries := CL_BT_HEADER_SIZE; names := CL_BT_HEADER_SIZE + u32 (n * CL_BT_ENTRY_SIZE) |}.

Definition decode_entry (v : BtView) (i : Z) : BtEntry :=
  let p := entries v + u32 (i * CL_BT_ENTRY_SIZE) in
  let d := base v in
  {| name_off := rd32 d p; name_len := rd16 d (p + 4); kind := byte_at d (p + 6); flags := byte_at d (p + 7);
     ea := rd32 d (p + 8); eb := i16 (rd16 d (p + 12)); ec := byte_at d (p + 14); ed := byte_at d (p + 15) |}.

(** The name_len bytes at entry_name. *)
Definition entry_name (v : BtView) (e : BtEntry) : list Z := slice (base v) (names v + name_off e) (name_len e).

(** memcmp of the common length. *)
Fixpoint memcmp (a b : list Z) : Z :=
  match a, b with
  | x :: a, y :: b => if x =? y then memcmp a b else x - y
  | _, _ => 0
  end.

Definition name_cmp (a b : list Z) : Z :=
  let r := memcmp a b in
  if negb (r =? 0) then r
  else if (length a <? length b)%nat then -1
  else if (length b <? length a)%nat then 1 else 0.

(** The value of a CONST or VAR entry, out of the blob. *)
Record BtValue : Set := {
  wide : bool; string : bool; va : Z; is_signed : bool; neg : Z; mag : list Z }.

Definition decode_value (v : BtView) (e : BtEntry) : BtValue :=
  let p := names v + ea e in
  if flag (flags e) CL_BT_F_WIDE then
    {| wide := true; string := false; va := ea e; is_signed := flag (flags e) CL_BT_F_SIGNED;
       neg := byte_at (base v) (p + 1); mag := slice (base v) (p + 2) (byte_at (base v) p) |}
  else if flag (flags e) CL_BT_F_STRING then
    {| wide := false; string := true; va := ea e; is_signed := flag (flags e) CL_BT_F_SIGNED;
       neg := 0; mag := slice (base v) (p + 1) (byte_at (base v) p) |}
  else
    {| wide := false; string := false; va := ea e; is_signed := flag (flags e) CL_BT_F_SIGNED; neg := 0; mag := [] |}.

(** ** Validation *)

(** What may be wrong with a blob, by the messages of validate_blob. *)
Inductive bad_blob : Set :=
| not_a_byte_vector | not_unsigned_byte_8 | shorter_than_header | bad_magic | unsupported_version
| entry_count_out_of_range | length_mismatch | empty_name | name_outside_arena | non_ascii_name
| unknown_kind | unknown_flag | wide_and_string | wide_outside_arena | string_outside_arena
| non_ascii_string | too_many_arguments | bad_result_kind | bad_register | lvo_not_negative
| bad_accessor_kind | bad_field_type | bad_element_size | not_sorted | duplicate_name.

(** An object given as a blob. *)
Inductive blob_obj : Set :=
| ByteVector (elt_shift : Z) (data : list Z)
| NotByteVector.

(** One test of validate_blob: the message, or on to the next test. *)
Abbreviation check b err rest := (if b then Some err else rest) (only parsing).

Definition validate_value (v : BtView) (e : BtEntry) : option bad_blob :=
  let f := flag (flags e) in
  check (f CL_BT_F_WIDE && f CL_BT_F_STRING) wide_and_string
  match (if f CL_BT_F_WIDE then
           check (ea e + 2 >? names_len v) wide_outside_arena
           (check ((byte_at (base v) (names v + ea e) =? 0) || (ea e + 2 + byte_at (base v) (names v + ea e) >? names_len v)) wide_outside_arena None)
         else None) with
  | Some err => Some err
  | None =>
      if f CL_BT_F_STRING then
        check ((ea e + 1 >? names_len v) || (ea e + 1 + byte_at (base v) (names v + ea e) >? names_len v)) string_outside_arena
        (check (existsb (fun b => b >=? 128) (slice (base v) (names v + ea e + 1) (byte_at (base v) (names v + ea e)))) non_ascii_string None)
      else None
  end.

Definition register_of (a k : Z) : Z := Z.land (Z.shiftr a (4 * k)) 15.

Definition validate_libcall (e : BtEntry) : option bad_blob :=
  check (ec e >? 7) too_many_arguments
  (check (CL_AMIGA_RES_KIND (ea e) >? CL_AMIGA_RES_KIND_MAX) bad_result_kind
  (check (existsb (fun k => register_of (ea e) (Z.of_nat k) >? 12) (seq 0 (Z.to_nat (ec e)))) bad_register
  (check (eb e >=? 0) lvo_not_negative None))).

Definition validate_field (e : BtEntry) : option bad_blob :=
  check (negb (ed e =? CL_STUB_PEEK) && negb (ed e =? CL_STUB_PEEK_IDX) && negb (ed e =? CL_STUB_FIELD_PTR)) bad_accessor_kind
  (check (negb (ed e =? CL_STUB_FIELD_PTR) && (ec e >? CL_STUB_CT_MAX)) bad_field_type
  (check ((ed e =? CL_STUB_PEEK_IDX) && negb (eb e =? 1) && negb (eb e =? 2) && negb (eb e =? 4) && negb (eb e =? 8))
     bad_element_size None)).

(** One entry, by itself. *)
Definition validate_entry (v : BtView) (e : BtEntry) : option bad_blob :=
  check (name_len e =? 0) empty_name
  (check (name_off e + name_len e >? names_len v) name_outside_arena
  (check (existsb (fun b => b >=? 128) (entry_name v e)) non_ascii_name
  (check (kind e >? CL_BT_KIND_MAX) unknown_kind
  (check (negb (Z.land (flags e) (Z.lnot CL_BT_F_KNOWN) =? 0)) unknown_flag
  (if (kind e =? CL_BT_CONST) || (kind e =? CL_BT_VAR) then validate_value v e
   else if kind e =? CL_BT_LIBCALL then validate_libcall e
   else if kind e =? CL_BT_FIELD then validate_field e
   else None))))).

Definition both_libcalls (prev e : BtEntry) : bool := (kind prev =? CL_BT_LIBCALL) && (kind e =? CL_BT_LIBCALL).

(** The order of an entry and the one before it. *)
Definition validate_order (v : BtView) (prev e : BtEntry) : option bad_blob :=
  let c := name_cmp (entry_name v prev) (entry_name v e) in
  check (c >? 0) not_sorted (check ((c =? 0) && negb (both_libcalls prev e)) duplicate_name None).

Fixpoint validate_entries (v : BtView) (count : nat) (i : Z) (prev : option BtEntry) : option bad_blob :=
  match count with
  | O => None
  | S count =>
      let e := decode_entry v i in
      match validate_entry v e with
      | Some err => Some err
      | None =>
          match (match prev with Some p => validate_order v p e | None => None end) with
          | Some err => Some err
          | None => validate_entries v count (i + 1) (Some e)
          end
      end
  end.

(** None is the C function's NULL. *)
Definition validate_blob (blob : blob_obj) : option bad_blob :=
  match blob with
  | NotByteVector => Some not_a_byte_vector
  | ByteVector elt_shift data =>
      let v := view_blob data in
      check (negb (elt_shift =? 0)) not_unsigned_byte_8
      (check (vlen v <? CL_BT_HEADER_SIZE) shorter_than_header
      (check (negb (rd32 data 0 =? CL_BT_MAGIC)) bad_magic
      (check (negb (byte_at data 4 =? CL_BT_VERSION)) unsupported_version
      (check (vn v >? 16777215) entry_count_out_of_range
      (check (negb (CL_BT_HEADER_SIZE + vn v * CL_BT_ENTRY_SIZE + names_len v =? vlen v)) length_mismatch
      (validate_entries v (Z.to_nat (vn v)) 0 None))))))
  end.

(** ** The probe *)

(** The first entry whose name is not below [name]. *)
Fixpoint lower_bound_loop (fuel : nat) (v : BtView) (name : list Z) (lo hi : Z) : Z :=
  match fuel with
  | O => lo
  | S fuel =>
      if lo <? hi then
        let mid := lo + (hi - lo) / 2 in
        if name_cmp (entry_name v (decode_entry v mid)) name <? 0 then lower_bound_loop fuel v name (mid + 1) hi
        else lower_bound_loop fuel v name lo mid
      else lo
  end.

Definition lower_bound (v : BtView) (name : list Z) : Z := lower_bound_loop (Z.to_nat (vn v)) v name 0 (vn v).

Definition entry_name_is (v : BtView) (i : Z) (name : list Z) : bool :=
  if i >=? vn v then false else bool_decide (entry_name v (decode_entry v i) = name).

(** What the guards look at: :MORPHOS on *FEATURES*, and the fixnum value of
    the module's version variable. *)
Record Guards : Set := { morphos_feature_p : bool; version_value : option Z }.

Definition guard_ok (g : Guards) (e : BtEntry) : bool :=
  if flag (flags e) (Z.lor CL_BT_F_NOT_MORPHOS CL_BT_F_MORPHOS) &&
     ((flag (flags e) CL_BT_F_NOT_MORPHOS && morphos_feature_p g) ||
      (flag (flags e) CL_BT_F_MORPHOS && negb (morphos_feature_p g)))
  then false
  else if (kind e =? CL_BT_LIBCALL) && negb (ed e =? 0) then
    match version_value g with Some val => negb (val <? ed e) | None => false end
  else true.

(** The first variant of [name], from [j] on, whose guard passes. *)
Fixpoint first_variant (fuel : nat) (g : Guards) (v : BtView) (name : list Z) (j : Z) : option Z :=
  match fuel with
  | O => None
  | S fuel =>
      if entry_name_is v j name then
        if guard_ok g (decode_entry v j) then Some j else first_variant fuel g v name (j + 1)
      else None
  end.

(** name_idx, def_idx and want_setter. *)
Record Hit : Set := { name_idx : Z; def_idx : option Z; want_setter : bool }.

(** "%SET-" *)
Definition set_prefix : list Z := [37; 83; 69; 84; 45].

Definition writable_field (e : BtEntry) : bool := (kind e =? CL_BT_FIELD) && negb (ed e =? CL_STUB_FIELD_PTR).

Definition probe_blob (g : Guards) (data name : list Z) (allow_setter : bool) : option Hit :=
  let v := view_blob data in
  let i := lower_bound v name in
  if entry_name_is v i name then
    Some {| name_idx := i; def_idx := first_variant (Z.to_nat (vn v)) g v name i; want_setter := false |}
  else if allow_setter && (5 <? length name)%nat && bool_decide (take 5 name = set_prefix) then
    let field := drop 5 name in
    let i := lower_bound v field in
    if entry_name_is v i field && writable_field (decode_entry v i)
    then Some {| name_idx := i; def_idx := Some i; want_setter := true |}
    else None
  else None.

(** ** The order of names *)

Lemma name_cmp_nil_nil : name_cmp [] [] = 0. Proof. done. Qed.
Lemma name_cmp_nil_cons y b : name_cmp [] (y :: b) = -1. Proof. done. Qed.
Lemma name_cmp_cons_nil x a : name_cmp (x :: a) [] = 1. Proof. done. Qed.
Lemma name_cmp_cons x a y b : name_cmp (x :: a) (y :: b) = if x =? y then name_cmp a b else x - y.
Proof.
  unfold name_cmp. cbn [memcmp length]. destruct (x =? y) eqn:E; [done|].
  by replace (negb (x - y =? 0)) with true by lia.
Qed.

Lemma name_cmp_refl a : name_cmp a a = 0.
Proof. induction a as [|x a IH]; [done|]. by rewrite name_cmp_cons, Z.eqb_refl. Qed.

Lemma name_cmp_eq a b : name_cmp a b = 0 -> a = b.
Proof.
  revert b. induction a as [|x a IH]; intros [|y b]; try done. rewrite name_cmp_cons.
  destruct (x =? y) eqn:E; [|lia]. intros H%IH. f_equal; [lia|done].
Qed.

Lemma name_cmp_flip a b : name_cmp a b < 0 <-> 0 < name_cmp b a.
Proof.
  revert b. induction a as [|x a IH]; intros [|y b].
  - by rewrite name_cmp_nil_nil.
  - by rewrite name_cmp_nil_cons, name_cmp_cons_nil.
  - by rewrite name_cmp_nil_cons, name_cmp_cons_nil.
  - rewrite !name_cmp_cons, (Z.eqb_sym y x). destruct (x =? y) eqn:E; [apply IH|]. lia.
Qed.

Lemma name_cmp_le_trans a b c : name_cmp a b <= 0 -> name_cmp b c <= 0 -> name_cmp a c <= 0.
Proof.
  revert b c. induction a as [|x a IH]; intros [|y b] [|z c]; rewrite ?name_cmp_nil_cons, ?name_cmp_cons_nil, ?name_cmp_nil_nil; try lia.
  rewrite !name_cmp_cons. destruct (x =? y) eqn:E1, (y =? z) eqn:E2, (x =? z) eqn:E3; try lia. apply IH.
Qed.

Lemma name_cmp_lt_le_trans a b c : name_cmp a b < 0 -> name_cmp b c <= 0 -> name_cmp a c < 0.
Proof.
  intros H1 H2. destruct (Z.lt_ge_cases (name_cmp a c) 0) as [?|H3]; [done|].
  assert (H4 : name_cmp c a <= 0).
  { destruct (Z.lt_ge_cases 0 (name_cmp c a)) as [H4%name_cmp_flip|?]; [lia|done]. }
  pose proof (name_cmp_le_trans _ _ _ H2 H4) as H5. apply name_cmp_flip in H1. lia.
Qed.

(** ** Sorted tables *)

(** [n] names in order. *)
Section Sorted.
Context (v : BtView).
Abbreviation nm i := (entry_name v (decode_entry v i)).
Context (Hsorted : forall i j, 0 <= i <= j -> j < vn v -> name_cmp (nm i) (nm j) <= 0).

Lemma lower_bound_loop_spec name fuel : forall lo hi, (Z.to_nat (hi - lo) <= fuel)%nat -> 0 <= lo <= hi -> hi <= vn v ->
  (forall i, 0 <= i < lo -> name_cmp (nm i) name < 0) -> (forall i, hi <= i < vn v -> 0 <= name_cmp (nm i) name) ->
  let lb := lower_bound_loop fuel v name lo hi in
  0 <= lb <= vn v /\ (forall i, 0 <= i < lb -> name_cmp (nm i) name < 0) /\ (forall i, lb <= i < vn v -> 0 <= name_cmp (nm i) name).
Proof.
  induction fuel as [|fuel IH]; intros lo hi Hf Hlo Hhi H1 H2; cbn [lower_bound_loop].
  - assert (lo = hi) by lia. split; [lia|]. split; [done|]. intros i Hi. apply H2. lia.
  - destruct (lo <? hi) eqn:E; [|split; [lia|]; split; [done|]; intros i Hi; apply H2; lia].
    set (mid := lo + (hi - lo) / 2).
    assert (Hm : lo <= mid < hi) by (unfold mid; Z.to_euclidean_division_equations; lia).
    destruct (name_cmp (nm mid) name <? 0) eqn:Ec; apply IH; try lia; try done.
    + intros i Hi. destruct (Z.lt_ge_cases i lo) as [?|Hi']; [apply H1; lia|].
      assert (Hle : name_cmp (nm i) (nm mid) <= 0) by (apply Hsorted; lia).
      destruct (Z.lt_ge_cases (name_cmp (nm i) name) 0) as [?|Hge]; [done|].
      assert (Hb : name_cmp name (nm i) <= 0).
      { destruct (Z.lt_ge_cases 0 (name_cmp name (nm i))) as [Hx%name_cmp_flip|?]; [lia|done]. }
      pose proof (name_cmp_le_trans _ _ _ Hb Hle) as Hx. destruct (Z.eq_dec (name_cmp name (nm mid)) 0) as [Ez|Nz].
      * apply name_cmp_eq in Ez. rewrite Ez, name_cmp_refl in Ec. lia.
      * assert (Hy : name_cmp name (nm mid) < 0) by lia. apply name_cmp_flip in Hy. lia.
    + intros i Hi. assert (Hle : name_cmp (nm mid) (nm i) <= 0) by (apply Hsorted; lia).
      destruct (Z.lt_ge_cases (name_cmp (nm i) name) 0) as [Hlt|?]; [|done].
      destruct (Z.eq_dec (name_cmp (nm mid) (nm i)) 0) as [Ez|Nz]; [apply name_cmp_eq in Ez; rewrite Ez in Ec; lia|].
      pose proof (name_cmp_lt_le_trans (nm mid) (nm i) name ltac:(lia) ltac:(lia)). lia.
Qed.

Lemma lower_bound_spec name : 0 <= vn v -> let lb := lower_bound v name in
  0 <= lb <= vn v /\ (forall i, 0 <= i < lb -> nm i <> name) /\ (forall i, lb <= i < vn v -> 0 <= name_cmp (nm i) name).
Proof.
  intros Hn lb. destruct (lower_bound_loop_spec name (Z.to_nat (vn v)) 0 (vn v)) as (H1 & H2 & H3); try lia.
  split; [done|]. split; [|done]. intros i Hi E. specialize (H2 i Hi). rewrite E, name_cmp_refl in H2. lia.
Qed.

(** The variants of a name are adjacent, from the lower bound on. *)
Lemma variants_adjacent name i j : 0 <= vn v -> lower_bound v name <= i <= j -> j < vn v -> nm j = name -> nm i = name.
Proof.
  intros Hn Hi Hj E. destruct (lower_bound_spec name Hn) as (Hb & _ & H3). specialize (H3 i ltac:(lia)).
  assert (Hle : name_cmp (nm i) (nm j) <= 0) by (apply Hsorted; lia). rewrite E in Hle. apply name_cmp_eq. lia.
Qed.

Lemma entry_name_is_iff i name : entry_name_is v i name = true <-> i < vn v /\ nm i = name.
Proof.
  unfold entry_name_is. destruct (i >=? vn v) eqn:E; [split; [done|lia]|]. rewrite bool_decide_eq_true. intuition lia.
Qed.

Lemma first_variant_spec g name fuel : forall j, (Z.to_nat (vn v - j) <= fuel)%nat -> 0 <= j ->
  match first_variant fuel g v name j with
  | Some k => j <= k < vn v /\ nm k = name /\ guard_ok g (decode_entry v k) = true /\
      forall i, j <= i < k -> nm i = name /\ guard_ok g (decode_entry v i) = false
  | None => forall i, j <= i < vn v -> (forall i', j <= i' <= i -> nm i' = name) -> guard_ok g (decode_entry v i) = false
  end.
Proof.
  induction fuel as [|fuel IH]; intros j Hf Hj; cbn [first_variant]; [intros i Hi; lia|].
  destruct (entry_name_is v j name) eqn:E.
  - apply entry_name_is_iff in E as [Hlt E]. destruct (guard_ok g (decode_entry v j)) eqn:Eg.
    + split; [lia|]. split; [done|]. split; [done|]. intros i Hi. lia.
    + specialize (IH (j + 1) ltac:(lia) ltac:(lia)). destruct (first_variant fuel g v name (j + 1)) as [k|].
      * destruct IH as (H1 & H2 & H3 & H4). split; [lia|]. split; [done|]. split; [done|].
        intros i Hi. destruct (Z.eq_dec i j) as [->|Hne]; [done|]. apply H4. lia.
      * intros i Hi Hall. destruct (Z.eq_dec i j) as [->|Hne]; [done|]. apply IH; [lia|]. intros i' Hi'. apply Hall. lia.
  - intros i Hi Hall. assert (Ej : nm j = name) by (apply Hall; lia).
    assert (entry_name_is v j name = true) by (apply entry_name_is_iff; split; [lia|done]). congruence.
Qed.

End Sorted.

(** ** Valid blobs *)

Lemma byte_at_range d p : Forall is_byte d -> is_byte (byte_at d p).
Proof.
  intros H. unfold byte_at, is_byte. destruct (nth_in_or_default (Z.to_nat p) d 0) as [Hin| ->]; [|lia].
  rewrite Forall_forall in H. by apply H, list_elem_of_In.
Qed.

Lemma lor_mul_add x y k : 0 <= k -> 0 <= y < 2 ^ k -> Z.lor (x * 2 ^ k) y = x * 2 ^ k + y.
Proof. intros Hk Hy. by rewrite <- Z.shiftl_mul_pow2, lor_shiftl_add, Z.shiftl_mul_pow2 by lia. Qed.

Lemma rd32_sum d p : Forall is_byte d ->
  rd32 d p = byte_at d p * 2 ^ 24 + byte_at d (p + 1) * 2 ^ 16 + byte_at d (p + 2) * 2 ^ 8 + byte_at d (p + 3).
Proof.
  intros H. unfold rd32. pose proof (byte_at_range d p H). pose proof (byte_at_range d (p + 1) H).
  pose proof (byte_at_range d (p + 2) H). pose proof (byte_at_range d (p + 3) H). unfold is_byte in *.
  set (b0 := byte_at d p) in *. set (b1 := byte_at d (p + 1)) in *. set (b2 := byte_at d (p + 2)) in *. set (b3 := byte_at d (p + 3)) in *.
  rewrite !Z.shiftl_mul_pow2 by lia. rewrite (lor_mul_add b0 (b1 * 2 ^ 16) 24) by lia.
  replace (b0 * 2 ^ 24 + b1 * 2 ^ 16) with ((b0 * 2 ^ 8 + b1) * 2 ^ 16) by lia. rewrite (lor_mul_add _ (b2 * 2 ^ 8) 16) by lia.
  replace ((b0 * 2 ^ 8 + b1) * 2 ^ 16 + b2 * 2 ^ 8) with ((b0 * 2 ^ 16 + b1 * 2 ^ 8 + b2) * 2 ^ 8) by lia.
  by rewrite lor_mul_add by lia.
Qed.

Lemma rd32_range d p : Forall is_byte d -> 0 <= rd32 d p < 2 ^ 32.
Proof.
  intros H. rewrite rd32_sum by done. pose proof (byte_at_range d p H). pose proof (byte_at_range d (p + 1) H).
  pose proof (byte_at_range d (p + 2) H). pose proof (byte_at_range d (p + 3) H). unfold is_byte in *. lia.
Qed.

Lemma rd16_sum d p : Forall is_byte d -> rd16 d p = byte_at d p * 2 ^ 8 + byte_at d (p + 1).
Proof.
  intros H. unfold rd16. pose proof (byte_at_range d p H). pose proof (byte_at_range d (p + 1) H). unfold is_byte in *.
  rewrite lor_shiftl_add by lia. apply u16_small. lia.
Qed.

Lemma rd16_range d p : Forall is_byte d -> 0 <= rd16 d p < 2 ^ 16.
Proof.
  intros H. rewrite rd16_sum by done. pose proof (byte_at_range d p H). pose proof (byte_at_range d (p + 1) H). unfold is_byte in *. lia.
Qed.

(** What validate_blob establishes. *)
Record valid_table (data : list Z) : Prop := {
  vt_bytes : Forall is_byte data;
  vt_magic : rd32 data 0 = CL_BT_MAGIC /\ byte_at data 4 = CL_BT_VERSION;
  vt_n : 0 <= vn (view_blob data) <= 16777215;
  vt_len : CL_BT_HEADER_SIZE + vn (view_blob data) * CL_BT_ENTRY_SIZE + names_len (view_blob data) = Z.of_nat (length data);
  vt_entry : forall i, 0 <= i < vn (view_blob data) -> validate_entry (view_blob data) (decode_entry (view_blob data) i) = None;
  vt_order : forall i, 0 <= i -> i + 1 < vn (view_blob data) ->
    validate_order (view_blob data) (decode_entry (view_blob data) i) (decode_entry (view_blob data) (i + 1)) = None }.

Lemma check_none (b : bool) (err : bad_blob) rest : check b err rest = None <-> b = false /\ rest = None.
Proof. destruct b; cbn; split; [done|by intros []|done|by intros []]. Qed.

Lemma validate_entries_none v count : forall i prev,
  validate_entries v count i prev = None <->
  (forall k, 0 <= k < Z.of_nat count -> validate_entry v (decode_entry v (i + k)) = None) /\
  (match prev with Some p => count <> O -> validate_order v p (decode_entry v i) = None | None => True end) /\
  (forall k, 0 <= k -> k + 1 < Z.of_nat count -> validate_order v (decode_entry v (i + k)) (decode_entry v (i + k + 1)) = None).
Proof.
  induction count as [|count IH]; intros i prev; cbn [validate_entries].
  - split; [|done]. intros _. split; [intros; lia|]. split; [by destruct prev|intros; lia].
  - split.
    + intros H. destruct (validate_entry v (decode_entry v i)) eqn:E; [done|].
      destruct (match prev with Some p => _ | None => None end) eqn:Ep; [done|]. apply IH in H as (H1 & H2 & H3).
      split; [|split].
      * intros k Hk. destruct (Z.eq_dec k 0) as [->|Hne]; [by rewrite Z.add_0_r|].
        replace (i + k) with (i + 1 + (k - 1)) by lia. apply H1. lia.
      * by destruct prev.
      * intros k Hk0 Hk. destruct (Z.eq_dec k 0) as [->|Hne]; [rewrite Z.add_0_r; apply H2; lia|].
        replace (i + k) with (i + 1 + (k - 1)) by lia. apply H3; lia.
    + intros (H1 & H2 & H3). pose proof (H1 0 ltac:(lia)) as E. rewrite Z.add_0_r in E. rewrite E.
      assert (Ep : (match prev with Some p => validate_order v p (decode_entry v i) | None => None end) = None) by (destruct prev; auto).
      rewrite Ep. apply IH. split; [|split].
      * intros k Hk. replace (i + 1 + k) with (i + (k + 1)) by lia. apply H1. lia.
      * intros Hc. pose proof (H3 0 ltac:(lia) ltac:(lia)) as Hx. by rewrite Z.add_0_r in Hx.
      * intros k Hk0 Hk. replace (i + 1 + k) with (i + (k + 1)) by lia. apply H3; lia.
Qed.

Lemma validate_blob_iff data : Forall is_byte data -> validate_blob (ByteVector 0 data) = None <-> valid_table data.
Proof.
  intros Hb. unfold validate_blob. rewrite !check_none, !negb_false_iff, validate_entries_none. cbn [vlen view_blob].
  pose proof (rd32_range data 8 Hb) as Hn. pose proof (rd32_range data 12 Hb) as Hl.
  change (vn (view_blob data)) with (rd32 data 8). change (names_len (view_blob data)) with (rd32 data 12).
  unfold CL_BT_HEADER_SIZE, CL_BT_ENTRY_SIZE. split.
  - intros (_ & _ & H1 & H2 & H3 & H4 & H5 & _ & H6). rewrite Z2Nat.id in H5, H6 by lia. split; try done.
    + lia.
    + change (vn (view_blob data)) with (rd32 data 8). lia.
    + change (vn (view_blob data)) with (rd32 data 8). change (names_len (view_blob data)) with (rd32 data 12).
      unfold CL_BT_HEADER_SIZE, CL_BT_ENTRY_SIZE. lia.
  - intros [_ [H1 H2] H3 H4 H5 H6]. change (vn (view_blob data)) with (rd32 data 8) in *.
    change (names_len (view_blob data)) with (rd32 data 12) in *. unfold CL_BT_HEADER_SIZE, CL_BT_ENTRY_SIZE in H4.
    rewrite Z2Nat.id by lia. split_and!; try done; lia.
Qed.

Section Valid.
Context (data : list Z) (Hv : valid_table data).
Abbreviation v := (view_blob data).
Abbreviation nm i := (entry_name v (decode_entry v i)).

Lemma valid_sorted i j : 0 <= i <= j -> j < vn v -> name_cmp (nm i) (nm j) <= 0.
Proof.
  intros Hi Hj. assert (H : forall k : nat, i + Z.of_nat k < vn v -> name_cmp (nm i) (nm (i + Z.of_nat k)) <= 0).
  { induction k as [|k IH]; intros Hk; [rewrite Z.add_0_r, name_cmp_refl; lia|].
    eapply name_cmp_le_trans; [apply IH; lia|]. pose proof (vt_order _ Hv (i + Z.of_nat k) ltac:(lia) ltac:(lia)) as Ho.
    unfold validate_order in Ho. apply check_none in Ho as [Ho _].
    replace (i + Z.of_nat (S k)) with (i + Z.of_nat k + 1) by lia. lia. }
  specialize (H (Z.to_nat (j - i))). replace (i + Z.of_nat (Z.to_nat (j - i))) with j in H by lia. by apply H.
Qed.

(** Only variants of a library call share a name. *)
Lemma valid_unique i j : 0 <= i < j -> j < vn v -> nm i = nm j ->
  kind (decode_entry v i) = CL_BT_LIBCALL /\ kind (decode_entry v j) = CL_BT_LIBCALL.
Proof.
  intros Hi Hj E. assert (Hadj : forall k, i <= k <= j -> nm k = nm i).
  { intros k Hk. pose proof (valid_sorted i k ltac:(lia) ltac:(lia)) as H1. pose proof (valid_sorted k j ltac:(lia) ltac:(lia)) as H2.
    rewrite <- E in H2. destruct (Z.eq_dec (name_cmp (nm i) (nm k)) 0) as [Hz|Hz]; [by apply name_cmp_eq in Hz|].
    assert (Hl : name_cmp (nm i) (nm k) < 0) by lia. apply name_cmp_flip in Hl. lia. }
  assert (Hstep : forall k, i <= k < j -> kind (decode_entry v k) = CL_BT_LIBCALL /\ kind (decode_entry v (k + 1)) = CL_BT_LIBCALL).
  { intros k Hk. pose proof (vt_order _ Hv k ltac:(lia) ltac:(lia)) as Ho. unfold validate_order in Ho.
    apply check_none in Ho as [_ Ho]. apply check_none in Ho as [Ho _].
    rewrite (Hadj k), (Hadj (k + 1)), name_cmp_refl in Ho by lia. unfold both_libcalls in Ho. lia. }
  assert (Hij : i <= i < j) by lia. split; [exact (proj1 (Hstep i Hij))|]. destruct (Hstep (j - 1) ltac:(lia)) as [_ H]. by replace (j - 1 + 1) with j in H by lia.
Qed.

Lemma valid_names : 0 <= vn v /\ names v = CL_BT_HEADER_SIZE + vn v * CL_BT_ENTRY_SIZE /\ 0 <= names_len v < 2 ^ 32.
Proof.
  pose proof (vt_n _ Hv) as Hn. split; [lia|]. split; [|apply rd32_range, Hv]. cbn [names view_blob].
  rewrite u32_small; [done|]. cbn in Hn. unfold CL_BT_ENTRY_SIZE. lia.
Qed.

(** ** The probe finds exactly the names of the table *)

(** The table defines [name] at [i]: the first of the entries with that name. *)
Definition first_named (name : list Z) (i : Z) : Prop :=
  0 <= i < vn v /\ nm i = name /\ forall j, 0 <= j < i -> nm j <> name.

(** The variant of [name] in force: the first whose guard passes. *)
Definition in_force (g : Guards) (name : list Z) (d : option Z) : Prop :=
  match d with
  | Some k => 0 <= k < vn v /\ nm k = name /\ guard_ok g (decode_entry v k) = true /\
      forall j, 0 <= j < k -> nm j = name -> guard_ok g (decode_entry v j) = false
  | None => forall j, 0 <= j < vn v -> nm j = name -> guard_ok g (decode_entry v j) = false
  end.

Lemma lower_bound_first name : entry_name_is v (lower_bound v name) name = true <-> exists i, first_named name i.
Proof.
  destruct valid_names as (Hn & _ & _). destruct (lower_bound_spec v valid_sorted name Hn) as (Hb & H1 & H2). split.
  - intros [Hlt E]%entry_name_is_iff. exists (lower_bound v name). split; [lia|]. by split.
  - intros (i & Hi & E & Hfirst). apply entry_name_is_iff.
    assert (Hge : lower_bound v name <= i) by (destruct (Z.lt_ge_cases i (lower_bound v name)); [by destruct (H1 i); [lia|]|lia]).
    split; [lia|]. apply (variants_adjacent v valid_sorted name _ i); [done|lia|lia|done].
Qed.

Lemma lower_bound_is_first name : entry_name_is v (lower_bound v name) name = true -> first_named name (lower_bound v name).
Proof.
  destruct valid_names as (Hn & _ & _). destruct (lower_bound_spec v valid_sorted name Hn) as (Hb & H1 & _).
  intros [Hlt E]%entry_name_is_iff. split; [lia|]. by split.
Qed.

Lemma first_variant_in_force g name : entry_name_is v (lower_bound v name) name = true ->
  in_force g name (first_variant (Z.to_nat (vn v)) g v name (lower_bound v name)).
Proof.
  intros He. destruct (lower_bound_is_first name He) as (Hr & E & Hbefore). destruct valid_names as (Hn & _ & _).
  pose proof (first_variant_spec v g name (Z.to_nat (vn v)) (lower_bound v name) ltac:(lia) ltac:(lia)) as Hs.
  destruct (first_variant _ _ _ _ _) as [k|]; cbn [in_force].
  - destruct Hs as (H1 & H2 & H3 & H4). split; [lia|]. split; [done|]. split; [done|]. intros j Hj Ej.
    destruct (Z.lt_ge_cases j (lower_bound v name)); [by destruct (Hbefore j); [lia|]|]. apply H4. lia.
  - intros j Hj Ej. destruct (Z.lt_ge_cases j (lower_bound v name)); [by destruct (Hbefore j); [lia|]|].
    apply Hs; [lia|]. intros i' Hi'. apply (variants_adjacent v valid_sorted name i' j); [done|lia|lia|done].
Qed.

Lemma slice_length d p n : 0 <= p -> 0 <= n -> p + n <= Z.of_nat (length d) -> Z.of_nat (length (slice d p n)) = n.
Proof. intros. unfold slice. rewrite length_take, length_drop. lia. Qed.

(** The name of a valid entry lies in the arena and is not empty. *)
Lemma valid_name i : 0 <= i < vn v ->
  0 < name_len (decode_entry v i) /\ Z.of_nat (length (nm i)) = name_len (decode_entry v i).
Proof.
  intros Hi. pose proof (vt_entry _ Hv i Hi) as He. unfold validate_entry in He. apply check_none in He as [H1 He].
  apply check_none in He as [H2 _]. destruct valid_names as (Hn & En & _). pose proof (vt_len _ Hv) as Hl.
  set (e := decode_entry v i) in *.
  assert (H3 : 0 <= name_len e) by (apply rd16_range, Hv). assert (H4 : 0 <= name_off e) by (apply rd32_range, Hv).
  split; [lia|]. apply slice_length; try lia; rewrite En; unfold CL_BT_HEADER_SIZE, CL_BT_ENTRY_SIZE in *; [lia|].
  change (base v) with data. lia.
Qed.

End Valid.

(** What a probe means: the entry of the name and the variant in force, or, if
    asked for, the writer of a writable field. *)
Definition probe_means (g : Guards) (data name : list Z) (allow_setter : bool) (hit : option Hit) : Prop :=
  match hit with
  | Some h =>
      if want_setter h then
        allow_setter = true /\ (forall i, ~ first_named data name i) /\
        exists field, name = set_prefix ++ field /\ first_named data field (name_idx h) /\ def_idx h = Some (name_idx h) /\
          writable_field (decode_entry (view_blob data) (name_idx h)) = true
      else first_named data name (name_idx h) /\ in_force data g name (def_idx h)
  | None =>
      (forall i, ~ first_named data name i) /\
      (allow_setter = true -> forall field i, name = set_prefix ++ field -> first_named data field i ->
         writable_field (decode_entry (view_blob data) i) = false)
  end.

(** C21: On a valid table the binary search finds a name exactly when some entry has
    it, at its first entry, with the first variant whose guard passes; and a
    writer exactly when it is asked for and no entry has its name. *)
Theorem probe_blob_correct g data name allow_setter :
  valid_table data -> probe_means g data name allow_setter (probe_blob g data name allow_setter).
Proof.
  intros Hv. unfold probe_blob. set (v := view_blob data). set (i := lower_bound v name).
  destruct (entry_name_is v i name) eqn:E1.
  { split; [by apply lower_bound_is_first|by apply first_variant_in_force]. }
  assert (Hno : forall k, ~ first_named data name k).
  { intros k Hk. apply Bool.not_true_iff_false in E1. apply E1, lower_bound_first; [done|]. by exists k. }
  destruct (allow_setter && _ && _) eqn:E2.
  - apply andb_true_iff in E2 as [E2 E4]. apply andb_true_iff in E2 as [E2 E3]. apply bool_decide_eq_true in E4.
    assert (Ename : name = set_prefix ++ drop 5 name) by by rewrite <- E4, take_drop.
    set (field := drop 5 name) in *. destruct (entry_name_is v (lower_bound v field) field) eqn:E5; cbn [andb].
    + destruct (writable_field _) eqn:E6.
      * split; [done|]. split; [done|]. exists field. split; [done|]. split; [by apply lower_bound_is_first|by split].
      * split; [done|]. intros _ f k Ef Hk. assert (f = field) as -> by (rewrite Ename in Ef; by apply app_inv_head in Ef).
        pose proof (lower_bound_is_first data Hv field E5) as (H1 & H2 & H3). destruct Hk as (K1 & K2 & K3).
        destruct (Z.lt_trichotomy k (lower_bound (view_blob data) field)) as [Hlt|[->|Hlt]]; [|done|].
        -- destruct (H3 k); [lia|done].
        -- destruct (K3 (lower_bound (view_blob data) field)); [lia|done].
    + split; [done|]. intros _ f k Ef Hk. assert (f = field) as -> by (rewrite Ename in Ef; by apply app_inv_head in Ef).
      apply Bool.not_true_iff_false in E5. exfalso. apply E5, lower_bound_first; [done|]. by exists k.
  - split; [done|]. intros -> f k -> (K1 & K2 & _). exfalso. destruct (valid_name data Hv k K1) as [H1 H2].
    rewrite K2 in H2. rewrite length_app in E2. cbn [length set_prefix andb] in E2.
    rewrite (proj2 (Nat.ltb_lt _ _)) in E2 by lia. cbn [andb] in E2.
    by rewrite bool_decide_eq_true_2 in E2.
Qed.

(** Validation decides: a byte vector with a nil answer is a valid table. *)
Lemma valid_by_check data : forallb (fun b => (0 <=? b) && (b <? 256)) data = true -> validate_blob (ByteVector 0 data) = None ->
  valid_table data.
Proof.
  intros Hb Hd. apply validate_blob_iff; [|done]. apply Forall_forall. intros b Hin.
  apply list_elem_of_In in Hin. rewrite forallb_forall in Hb. apply Hb in Hin. unfold is_byte. lia.
Qed.

(** A field FIELD, readable as a ULONG, and a call RUN with a variant for
    MorphOS and one for the rest: three entries, in the order of their names. *)
Definition example_table : list Z :=
  wr32 CL_BT_MAGIC ++ [CL_BT_VERSION; CL_BT_HF_LIBCALLS; 0; 0] ++ wr32 3 ++ wr32 8 ++
  wr32 0 ++ wr16 5 ++ [CL_BT_FIELD; 0] ++ wr32 0 ++ wr16 4 ++ [0; CL_STUB_PEEK] ++
  wr32 5 ++ wr16 3 ++ [CL_BT_LIBCALL; CL_BT_F_MORPHOS] ++ wr32 0 ++ wr16 (-6) ++ [1; 0] ++
  wr32 5 ++ wr16 3 ++ [CL_BT_LIBCALL; CL_BT_F_NOT_MORPHOS] ++ wr32 8 ++ wr16 (-6) ++ [1; 0] ++
  [70; 73; 69; 76; 68] ++ [82; 85; 78].

Definition amiga : Guards := {| morphos_feature_p := false; version_value := None |}.

(** RUN is found with its second variant, %SET-FIELD as the writer of FIELD. *)
Lemma probe_blob_witness :
  valid_table example_table /\
  probe_blob amiga example_table [82; 85; 78] true = Some {| name_idx := 1; def_idx := Some 2; want_setter := false |} /\
  probe_means amiga example_table (set_prefix ++ [70; 73; 69; 76; 68]) true
    (Some {| name_idx := 0; def_idx := Some 0; want_setter := true |}).
Proof.
  assert (Hv : valid_table example_table) by (apply valid_by_check; vm_compute; reflexivity).
  split; [exact Hv|]. split; [vm_compute; reflexivity|].
  exact (probe_blob_correct amiga example_table (set_prefix ++ [70; 73; 69; 76; 68]) true Hv).
Defined.

(** A name may be longer than the 255 bytes the packer allows: validation does
    not bound it, although cl_bindtab_materialize copies it into 256 bytes. *)
Definition long_name_table : list Z :=
  wr32 CL_BT_MAGIC ++ [CL_BT_VERSION; 0; 0; 0] ++ wr32 1 ++ wr32 300 ++
  wr32 0 ++ wr16 300 ++ [CL_BT_NAME; 0] ++ wr32 0 ++ wr16 0 ++ [0; 0] ++ repeat 65 300.

Lemma long_name_validates : validate_blob (ByteVector 0 long_name_table) = None /\
  name_len (decode_entry (view_blob long_name_table) 0) = 300.
Proof. by vm_compute. Qed.
