(* ===== verification/BindPack.v ===== *)
(** * Binding tables: packing

    bindtab.c, the writing side: the rows of DEFINE-BINDING-TABLE become a
    blob.  The packer parses the rows into records, sorts them by name, refuses
    duplicate names, and lays out header, entries, names and wide values; the
    reading side boxes the values again.

    The theorems: a packed blob is a valid table, whose entries are, sorted by
    name, what the rows say ([row_specs]); so probing it finds exactly the names
    of the rows.  C memory is not exhausted; symbol names are base strings. *)

From Stdlib Require Import ZArith Lia ZifyBool Ascii String.
From stdpp Require Import base option list sorting.
From S2P Require Import Prelude Limbs Bignum BindBlob.
Local Open Scope Z_scope.
Local Open Scope amilisp_scope.

(** ** Lisp objects, as far as the packer looks at them *)

(** A symbol: whether its package is KEYWORD, and the characters of its name. *)
Inductive obj : Set :=
| NIL
| Cons (car cdr : obj)
| Int (n : integer)
| Sym (keyword : bool) (name : list Z)
| Str (chars : list Z)
| Other.

Definition cl_car (o : obj) : obj := match o with Cons a _ => a | _ => NIL end.
Definition cl_cdr (o : obj) : obj := match o with Cons _ d => d | _ => NIL end.

(** The value of a fixnum. *)
Definition fixnum_val (o : obj) : option Z := match o with Int (Fix v) => Some v | _ => None end.

(** A C string literal. *)
Definition lit (s : String.string) : list Z := (fun c => Z.of_N (N_of_ascii c)) <$> list_ascii_of_string s.

(** The characters strcmp sees. *)
Fixpoint c_string (l : list Z) : list Z :=
  match l with
  | x :: l => if x =? 0 then [] else x :: c_string l
  | [] => []
  end.

Definition kw_is (o : obj) (name : list Z) : bool :=
  match o with Sym true nm => bool_decide (c_string nm = name) | _ => false end.

Fixpoint list_length_checked (l : obj) : Z :=
  match l with
  | NIL => 0
  | Cons _ l => let n := list_length_checked l in if n <? 0 then n else n + 1
  | _ => -1
  end.

(** The index of a keyword in a table of names. *)
Fixpoint keyword_index (kw : obj) (names : list (list Z)) (i : Z) : option Z :=
  match names with
  | [] => None
  | nm :: names => if kw_is kw nm then Some i else keyword_index kw names (i + 1)
  end.

Definition reg_names : list (list Z) :=
  lit <$> ["D0"; "D1"; "D2"; "D3"; "D4"; "D5"; "D6"; "D7"; "A0"; "A1"; "A2"; "A3"; "A4"]%string.
Definition stub_ct_names : list (list Z) :=
  lit <$> ["U8"; "I8"; "U16"; "I16"; "U32"; "I32"; "POINTER"; "FPTR"; "SINGLE"; "DOUBLE"]%string.
Definition stub_res_names : list (list Z) :=
  lit <$> ["UNSIGNED"; "VOID"; "POINTER"; "SIGNED"; "BOOL"; "U16"; "I16"; "U8"; "I8"]%string.

Definition reg_index_of (kw : obj) : option Z := keyword_index kw reg_names 0.
Definition cl_ffi_ctype_from_keyword (kw : obj) : option Z := keyword_index kw stub_ct_names 0.
Definition cl_ffi_res_kind_from_keyword (kw : obj) : option Z := keyword_index kw stub_res_names 0.

Definition stub_ct_size (ctype : Z) : Z :=
  if (ctype =? 0) || (ctype =? 1) then 1 else if (ctype =? 2) || (ctype =? 3) then 2 else if ctype =? 9 then 8 else 4.

(** ** Records *)

(** The name's bytes, not the pointer to them. *)
Record BtRec : Set := {
  r_name : list Z; r_order : Z; r_kind : Z; r_flags : Z; r_c : Z; r_d : Z; r_a : Z; r_b : Z;
  has_wide : bool; wide_off : Z }.

(** names is the concatenation of the names of the records. *)
Record BtBuild : Set := { recs : list BtRec; bnames_len : Z; bwide : list Z; has_libcall : bool }.

Definition empty_build : BtBuild := {| recs := []; bnames_len := 0; bwide := []; has_libcall := false |}.

(** build_add: a record of zeros with the name; [put_rec] stores what the
    caller makes of it. *)
Definition build_add (b : BtBuild) (name : list Z) : BtRec :=
  {| r_name := name; r_order := Z.of_nat (length (recs b)); r_kind := 0; r_flags := 0; r_c := 0; r_d := 0; r_a := 0;
     r_b := 0; has_wide := false; wide_off := 0 |}.
Definition put_rec (b : BtBuild) (r : BtRec) : BtBuild :=
  {| recs := recs b ++ [r]; bnames_len := bnames_len b + Z.of_nat (length (r_name r)); bwide := bwide b;
     has_libcall := has_libcall b |}.

Definition set_def (r : BtRec) (kind flags a b c d : Z) : BtRec :=
  {| r_name := r_name r; r_order := r_order r; r_kind := kind; r_flags := flags; r_c := c; r_d := d; r_a := a; r_b := b;
     has_wide := has_wide r; wide_off := wide_off r |}.

Definition parse_name (o : obj) : result (list Z) :=
  match (match o with Sym _ nm => Str nm | _ => o end) with
  | Str chars =>
      let len := Z.of_nat (length chars) in
      if (len =? 0) || (len >? 255) then Err CL_ERR_ARGS
      else if existsb (fun ch => (ch <=? 0) || (ch >=? 128)) chars then Err CL_ERR_ARGS
      else Ok chars
  | _ => Err CL_ERR_ARGS
  end.

(** Append a payload to the wide arena; the record points to it. *)
Definition put_wide (b : BtBuild) (r : BtRec) (f : Z) (payload : list Z) : BtBuild * BtRec :=
  ({| recs := recs b; bnames_len := bnames_len b; bwide := bwide b ++ payload; has_libcall := has_libcall b |},
   {| r_name := r_name r; r_order := r_order r; r_kind := r_kind r; r_flags := Z.lor (r_flags r) f; r_c := r_c r; r_d := r_d r;
      r_a := r_a r; r_b := r_b r; has_wide := true; wide_off := Z.of_nat (length (bwide b)) |}).

(** The four bytes of |v|, leading zeros left out. *)
Definition fixnum_bytes (v : Z) : list Z :=
  let m := if v <? 0 then u32 (- v) else u32 v in
  fold_left (fun mag k => let byte := u8 (Z.shiftr m (8 * k)) in
                          if bool_decide (mag = []) && (byte =? 0) then mag else mag ++ [byte]) [3; 2; 1; 0] [].

(** The limbs from the top, as bytes. *)
Definition push_limb (mag : list Z) (limb : Z) : list Z :=
  let hi := u8 (Z.shiftr limb 8) in
  let lo := u8 limb in
  if bool_decide (mag = []) && (hi =? 0) then (if negb (lo =? 0) then mag ++ [lo] else mag) else mag ++ [hi; lo].
Definition limb_bytes (limbs : list Z) : list Z := fold_left push_limb (rev limbs) [].

Definition encode_integer (b : BtBuild) (r : BtRec) (neg : bool) (mag : list Z) : BtBuild * BtRec :=
  let m := fold_left (fun m x => Z.lor (u32 (Z.shiftl m 8)) x) mag 0 in
  let narrow := (length mag <=? 4)%nat in
  if narrow && negb neg then (b, set_def r (r_kind r) (r_flags r) m (r_b r) (r_c r) (r_d r))
  else if narrow && (m <=? 2147483648) then
    (b, set_def r (r_kind r) (Z.lor (r_flags r) CL_BT_F_SIGNED) (u32 (i32 (- m))) (r_b r) (r_c r) (r_d r))
  else put_wide b r CL_BT_F_WIDE ([u8 (Z.of_nat (length mag)); Zb neg] ++ mag).

Definition encode_value (b : BtBuild) (r : BtRec) (value : obj) : result (BtBuild * BtRec) :=
  match value with
  | Str chars =>
      if Z.of_nat (length chars) >? 255 then Err CL_ERR_ARGS
      else if existsb (fun ch => (ch <? 0) || (ch >=? 128)) chars then Err CL_ERR_ARGS
      else Ok (put_wide b r CL_BT_F_STRING ([u8 (Z.of_nat (length chars))] ++ chars))
  | Int (Fix v) => Ok (encode_integer b r (v <? 0) (fixnum_bytes v))
  | Int (Big sign limbs) =>
      if Z.of_nat (length limbs) * 2 >? 255 then Err CL_ERR_ARGS else Ok (encode_integer b r sign (limb_bytes limbs))
  | _ => Err CL_ERR_ARGS
  end.

(** ** Rows *)

(** A field's type: reader kind, C type, element size, element count. *)
Definition parse_field_type (type : obj) : result (Z * Z * Z * Z) :=
  let n := cl_car (cl_cdr type) in
  if kw_is (cl_car type) (lit "STRUCT") then
    match fixnum_val n with
    | Some v => if v <? 0 then Err CL_ERR_ARGS else Ok (CL_STUB_FIELD_PTR, 0, 0, 0)
    | None => Err CL_ERR_ARGS
    end
  else if kw_is (cl_car type) (lit "ARRAY") then
    match cl_ffi_ctype_from_keyword n with
    | None => Err CL_ERR_ARGS
    | Some ctype =>
        match fixnum_val (cl_car (cl_cdr (cl_cdr type))) with
        | Some cnt =>
            if (cnt <=? 0) || (cnt >? 65535) then Err CL_ERR_ARGS else Ok (CL_STUB_PEEK_IDX, ctype, stub_ct_size ctype, cnt)
        | None => Err CL_ERR_ARGS
        end
    end
  else
    match cl_ffi_ctype_from_keyword type with
    | Some ctype => Ok (CL_STUB_PEEK, ctype, 0, 0)
    | None => Err CL_ERR_ARGS
    end.

Definition add_field (b : BtBuild) (name : list Z) (type offset_obj : obj) : result BtBuild :=
  match fixnum_val offset_obj with
  | None => Err CL_ERR_ARGS
  | Some offset =>
      if offset <? 0 then Err CL_ERR_ARGS
      else
        ty <- parse_field_type type ;;
        let '(kind, ctype, elt_size, count) := ty in
        if (kind =? CL_STUB_PEEK_IDX) && (offset >? 65535) then Err CL_ERR_ARGS
        else
          let a := if kind =? CL_STUB_PEEK_IDX then Z.lor (u32 offset) (u32 (Z.shiftl (u32 count) 16)) else u32 offset in
          Ok (put_rec b (set_def (build_add b name) CL_BT_FIELD 0 a (i16 elt_size) (u8 ctype) (u8 kind)))
  end.

Definition add_value (b : BtBuild) (kind : Z) (name : list Z) (value : obj) : result BtBuild :=
  br <- encode_value b (set_def (build_add b name) kind 0 0 0 0 0) value ;; Ok (put_rec (fst br) (snd br)).

(** The register list, four bits a register. *)
Fixpoint parse_regs (regs : obj) (i nibbles : Z) : result Z :=
  match regs with
  | Cons kw regs =>
      match reg_index_of kw with
      | Some ri => parse_regs regs (i + 1) (Z.lor nibbles (u32 (Z.shiftl ri (4 * i))))
      | None => Err CL_ERR_ARGS
      end
  | _ => Ok nibbles
  end.

(** The options of a :fn row: flags and minimal version. *)
Fixpoint parse_options (opt : obj) (flags minver : Z) : result (Z * Z) :=
  match opt with
  | Cons o opt =>
      if kw_is o (lit "NOT-MORPHOS") then parse_options opt (Z.lor flags CL_BT_F_NOT_MORPHOS) minver
      else if kw_is o (lit "MORPHOS") then parse_options opt (Z.lor flags CL_BT_F_MORPHOS) minver
      else match fixnum_val o with
           | Some v => if (v >? 0) && (v <=? 255) then parse_options opt flags v else Err CL_ERR_ARGS
           | None => Err CL_ERR_ARGS
           end
  | _ => Ok (flags, minver)
  end.

Definition parse_fn (b : BtBuild) (name : list Z) (rest : obj) : result BtBuild :=
  if list_length_checked rest <? 3 then Err CL_ERR_ARGS
  else
    let regs := cl_car (cl_cdr rest) in
    match fixnum_val (cl_car rest) with
    | None => Err CL_ERR_ARGS
    | Some lvo =>
        if (lvo >=? 0) || (lvo <? -32768) then Err CL_ERR_ARGS
        else
          let nregs := list_length_checked regs in
          if (nregs <? 0) || (nregs >? 7) then Err CL_ERR_ARGS
          else
            nibbles <- parse_regs regs 0 0 ;;
            match cl_ffi_res_kind_from_keyword (cl_car (cl_cdr (cl_cdr rest))) with
            | None => Err CL_ERR_ARGS
            | Some res =>
                fv <- parse_options (cl_cdr (cl_cdr (cl_cdr rest))) 0 0 ;;
                let '(flags, minver) := fv in
                if flag flags CL_BT_F_NOT_MORPHOS && flag flags CL_BT_F_MORPHOS then Err CL_ERR_ARGS
                else
                  let b := put_rec b (set_def (build_add b name) CL_BT_LIBCALL flags (CL_AMIGA_MAKE_REGSPEC nibbles res)
                                        (i16 lvo) (u8 nregs) (u8 minver)) in
                  Ok {| recs := recs b; bnames_len := bnames_len b; bwide := bwide b; has_libcall := true |}
            end
    end.

(** The fields of a :struct row named [name]. *)
Fixpoint add_fields (b : BtBuild) (name : list Z) (fields : obj) : result BtBuild :=
  match fields with
  | Cons f fields =>
      if negb (list_length_checked f =? 3) then Err CL_ERR_ARGS
      else
        fname <- parse_name (cl_car f) ;;
        if Z.of_nat (length name) + 1 + Z.of_nat (length fname) >? 255 then Err CL_ERR_ARGS
        else
          b <- add_field b (name ++ [45] ++ fname) (cl_car (cl_cdr f)) (cl_car (cl_cdr (cl_cdr f))) ;;
          add_fields b name fields
  | NIL => Ok b
  | _ => Err CL_ERR_ARGS
  end.

Definition size_name (name : list Z) : list Z := [42] ++ name ++ lit "-SIZE*".

Definition parse_struct (b : BtBuild) (name : list Z) (rest : obj) : result BtBuild :=
  if list_length_checked rest <? 1 then Err CL_ERR_ARGS
  else
    match fixnum_val (cl_car rest) with
    | None => Err CL_ERR_ARGS
    | Some size =>
        if size <? 0 then Err CL_ERR_ARGS
        else if Z.of_nat (length name) + 7 >? 255 then Err CL_ERR_ARGS
        else
          b <- add_value b CL_BT_VAR (size_name name) (cl_car rest) ;;
          add_fields b name (cl_cdr rest)
    end.

Definition parse_row (b : BtBuild) (row : obj) : result BtBuild :=
  if list_length_checked row <? 2 then Err CL_ERR_ARGS
  else
    let kind := cl_car row in
    name <- parse_name (cl_car (cl_cdr row)) ;;
    let rest := cl_cdr (cl_cdr row) in
    if kw_is kind (lit "CONST") || kw_is kind (lit "VAR") then
      if negb (list_length_checked rest =? 1) then Err CL_ERR_ARGS
      else add_value b (if kw_is kind (lit "CONST") then CL_BT_CONST else CL_BT_VAR) name (cl_car rest)
    else if kw_is kind (lit "FN") then parse_fn b name rest
    else if kw_is kind (lit "FIELD") then
      if negb (list_length_checked rest =? 2) then Err CL_ERR_ARGS
      else add_field b name (cl_car rest) (cl_car (cl_cdr rest))
    else if kw_is kind (lit "STRUCT") then parse_struct b name rest
    else if kw_is kind (lit "NAME") then
      match rest with
      | NIL => Ok (put_rec b (set_def (build_add b name) CL_BT_NAME 0 0 0 0 0))
      | _ => Err CL_ERR_ARGS
      end
    else Err CL_ERR_ARGS.

Fixpoint parse_rows (b : BtBuild) (rows : obj) : result BtBuild :=
  match rows with
  | Cons row rows => b <- parse_row b row ;; parse_rows b rows
  | _ => Ok b
  end.

(** ** Layout *)

Definition rec_cmp (a b : BtRec) : Z :=
  let c := name_cmp (r_name a) (r_name b) in
  if negb (c =? 0) then c else if r_order a <? r_order b then -1 else if r_order a >? r_order b then 1 else 0.
Definition rec_le (a b : BtRec) : Prop := rec_cmp a b <= 0.
#[export] Instance rec_le_dec : RelDecision rec_le := fun a b => decide (rec_cmp a b <= 0).

(** qsort with rec_cmp: the order is total, so the result is the only sorted
    permutation. *)
Definition qsort (l : list BtRec) : list BtRec := merge_sort rec_le l.

(** Only variants of a library call may share a name. *)
Fixpoint has_duplicate (l : list BtRec) : bool :=
  match l with
  | p :: l =>
      match l with
      | q :: _ =>
          ((name_cmp (r_name p) (r_name q) =? 0) && negb ((r_kind p =? CL_BT_LIBCALL) && (r_kind q =? CL_BT_LIBCALL)))
          || has_duplicate l
      | [] => false
      end
  | [] => false
  end.

(** The 16 bytes of a record; names_len is where the wide arena begins. *)
Definition entry_bytes (names_len off : Z) (r : BtRec) : list Z :=
  wr32 off ++ wr16 (Z.of_nat (length (r_name r))) ++ [r_kind r; r_flags r] ++
  wr32 (if has_wide r then names_len + wide_off r else r_a r) ++ wr16 (r_b r) ++ [r_c r; r_d r].

Fixpoint entries_bytes (names_len off : Z) (l : list BtRec) : list Z :=
  match l with
  | r :: l => entry_bytes names_len off r ++ entries_bytes names_len (off + Z.of_nat (length (r_name r))) l
  | [] => []
  end.

Definition blob_bytes (b : BtBuild) (l : list BtRec) : list Z :=
  let n := Z.of_nat (length l) in
  wr32 CL_BT_MAGIC ++ [CL_BT_VERSION; if has_libcall b then CL_BT_HF_LIBCALLS else 0] ++ wr16 0 ++ wr32 n ++
  wr32 (bnames_len b + Z.of_nat (length (bwide b))) ++
  entries_bytes (bnames_len b) 0 l ++ concat (r_name <$> l) ++ bwide b.

Definition cl_bindtab_pack (rows : obj) : result (list Z) :=
  if list_length_checked rows <? 0 then Err CL_ERR_ARGS
  else
    b <- parse_rows empty_build rows ;;
    let l := qsort (recs b) in
    if has_duplicate l then Err CL_ERR_ARGS else Ok (blob_bytes b l).

(** ** Boxing the values *)

Definition cl_ffi_u64_to_obj (v : Z) : integer :=
  if v <=? CL_FIXNUM_MAX then make_fixnum (i32 v)
  else cl_bignum_normalize (Big false [u16 (Z.land v 65535); u16 (Z.land (Z.shiftr v 16) 65535);
                                       u16 (Z.land (Z.shiftr v 32) 65535); u16 (Z.land (Z.shiftr v 48) 65535)]).

Definition cl_ffi_i64_to_obj (v : Z) : integer :=
  if (v >=? CL_FIXNUM_MIN) && (v <=? CL_FIXNUM_MAX) then make_fixnum (i32 v)
  else
    let mag := if v <? 0 then u64 (u64 (- (v + 1)) + 1) else u64 v in
    cl_bignum_normalize (Big (v <? 0) [u16 (Z.land mag 65535); u16 (Z.land (Z.shiftr mag 16) 65535);
                                       u16 (Z.land (Z.shiftr mag 32) 65535); u16 (Z.land (Z.shiftr mag 48) 65535)]).

(** Limb [i] of a big-endian magnitude. *)
Definition limb_at (mag : list Z) (i : nat) : Z :=
  let nbytes := Z.of_nat (length mag) in
  let hi := nbytes - 2 * Z.of_nat i - 2 in
  let lo := nbytes - 2 * Z.of_nat i - 1 in
  if hi >=? 0 then Z.lor (byte_at mag lo) (u16 (Z.shiftl (byte_at mag hi) 8)) else byte_at mag lo.

Definition value_to_obj (val : BtValue) : obj :=
  if string val then Str (mag val)
  else if negb (wide val) then
    Int (if is_signed val then cl_ffi_i64_to_obj (i32 (va val)) else cl_ffi_u64_to_obj (va val))
  else
    Int (cl_bignum_normalize (Big (negb (neg val =? 0)) (limb_at (mag val) <$> seq 0 ((length (mag val) + 1) / 2)))).

(** ** What the rows say *)

Inductive contents : Set :=
| Const (v : obj)
| Special (v : obj)
| LibCall (lvo : Z) (regs : list Z) (res : Z) (flags minver : Z)
| Scalar (ctype offset : Z)
| Array (ctype offset count elt_size : Z)
| Embedded (offset : Z)
| NameOnly.

(** An entry of a table, as the functions that install definitions use it. *)
Definition entry_contents (v : BtView) (e : BtEntry) : contents :=
  if kind e =? CL_BT_CONST then Const (value_to_obj (decode_value v e))
  else if kind e =? CL_BT_VAR then Special (value_to_obj (decode_value v e))
  else if kind e =? CL_BT_LIBCALL then
    LibCall (eb e) ((fun k => register_of (ea e) (Z.of_nat k)) <$> seq 0 (Z.to_nat (ec e))) (CL_AMIGA_RES_KIND (ea e)) (flags e) (ed e)
  else if kind e =? CL_BT_FIELD then
    if ed e =? CL_STUB_PEEK_IDX then Array (ec e) (Z.land (ea e) 65535) (Z.shiftr (ea e) 16) (eb e)
    else if ed e =? CL_STUB_FIELD_PTR then Embedded (ea e) else Scalar (ec e) (ea e)
  else NameOnly.

Definition named_entry (v : BtView) (i : nat) : list Z * contents :=
  let e := decode_entry v (Z.of_nat i) in (entry_name v e, entry_contents v e).

(** The table of a blob. *)
Definition table_of (data : list Z) : list (list Z * contents) :=
  named_entry (view_blob data) <$> seq 0 (Z.to_nat (vn (view_blob data))).

Fixpoint list_of (l : obj) : list obj := match l with Cons x l => x :: list_of l | _ => [] end.

(** A proper list. *)
Fixpoint list_obj (l : list obj) : obj := match l with [] => NIL | x :: l => Cons x (list_obj l) end.

Definition designator (o : obj) : list Z := match o with Sym _ nm => nm | Str chars => chars | _ => [] end.
Definition number (o : obj) : Z := default 0 (fixnum_val o).
Definition ctype_code (kw : obj) : Z := default 0 (cl_ffi_ctype_from_keyword kw).

Definition field_contents (type : obj) (offset : Z) : contents :=
  if kw_is (cl_car type) (lit "STRUCT") then Embedded offset
  else if kw_is (cl_car type) (lit "ARRAY") then
    let ctype := ctype_code (cl_car (cl_cdr type)) in
    Array ctype offset (number (cl_car (cl_cdr (cl_cdr type)))) (stub_ct_size ctype)
  else Scalar (ctype_code type) offset.

(** The flags and the last version number among the options. *)
Definition option_flags (opts : list obj) : Z :=
  Z.lor (if existsb (fun o => kw_is o (lit "NOT-MORPHOS")) opts then CL_BT_F_NOT_MORPHOS else 0)
    (if existsb (fun o => kw_is o (lit "MORPHOS")) opts then CL_BT_F_MORPHOS else 0).
Definition option_version (opts : list obj) : Z := default 0 (last (omap fixnum_val opts)).

(** The names a row defines, in its order. *)
Definition row_specs (row : obj) : list (list Z * contents) :=
  match list_of row with
  | kind :: nm :: rest =>
      let name := designator nm in
      if kw_is kind (lit "CONST") then [(name, Const (cl_car (cl_cdr (cl_cdr row))))]
      else if kw_is kind (lit "VAR") then [(name, Special (cl_car (cl_cdr (cl_cdr row))))]
      else if kw_is kind (lit "FN") then
        match rest with
        | lvo :: regs :: res :: opts =>
            [(name, LibCall (number lvo) ((fun kw => default 0 (reg_index_of kw)) <$> list_of regs)
                      (default 0 (cl_ffi_res_kind_from_keyword res)) (option_flags opts) (option_version opts))]
        | _ => []
        end
      else if kw_is kind (lit "FIELD") then
        match rest with [type; offset] => [(name, field_contents type (number offset))] | _ => [] end
      else if kw_is kind (lit "STRUCT") then
        match rest with
        | size :: fields =>
            (size_name name, Special size) ::
            ((fun f => (name ++ [45] ++ designator (cl_car f),
                        field_contents (cl_car (cl_cdr f)) (number (cl_car (cl_cdr (cl_cdr f)))))) <$> fields)
        | _ => []
        end
      else [(name, NameOnly)]
  | _ => []
  end.

Definition specs (rows : obj) : list (list Z * contents) := concat (row_specs <$> list_of rows).

(** Integers in the rows are canonical, as all integer objects are. *)
Fixpoint wf_obj (o : obj) : Prop :=
  match o with
  | Cons a d => wf_obj a /\ wf_obj d
  | Int n => wf_int n
  | _ => True
  end.

(** ** Reading what was written *)

(** The bytes [l] are at position [p]. *)
Definition at_pos (d : list Z) (p : Z) (l : list Z) : Prop := 0 <= p /\ exists t, drop (Z.to_nat p) d = l ++ t.

Lemma at_app d p l1 l2 : at_pos d p (l1 ++ l2) -> at_pos d p l1 /\ at_pos d (p + Z.of_nat (length l1)) l2.
Proof.
  intros [Hp [t H]]. rewrite <- app_assoc in H. split; (split; [lia|]); [by exists (l2 ++ t)|]. exists t.
  rewrite Z2Nat.inj_add, Nat2Z.id, <- drop_drop, H by lia. apply drop_app_length.
Qed.

Lemma at_byte d p x l : at_pos d p (x :: l) -> byte_at d p = x /\ at_pos d (p + 1) l.
Proof.
  intros H. change (x :: l) with ([x] ++ l) in H. apply at_app in H as [[Hp [t H]] Hl]. split; [|exact Hl].
  apply nth_lookup_Some. by rewrite <- (Nat.add_0_r (Z.to_nat p)), <- lookup_drop, H.
Qed.

Lemma at_slice d p l n : n = Z.of_nat (length l) -> at_pos d p l -> slice d p n = l.
Proof. intros -> [_ [t H]]. unfold slice. rewrite H, Nat2Z.id. apply take_app_length. Qed.

Lemma u8_range x : is_byte (u8 x).
Proof. unfold u8, is_byte. pose proof (Z.mod_pos_bound x (2 ^ 8)). lia. Qed.

(** The bytes of a word give it back. *)
Lemma word_bytes x k n : 0 <= k -> 0 <= n -> Z.shiftr x n mod 2 ^ (8 + k) = u8 (Z.shiftr x n) + 2 ^ 8 * (Z.shiftr x (n + 8) mod 2 ^ k).
Proof.
  intros Hk Hn. rewrite Z.pow_add_r, Z.rem_mul_r by lia. unfold u8. do 2 f_equal.
  rewrite !Z.shiftr_div_pow2, Z.pow_add_r by lia. f_equal. apply Z.div_div; lia.
Qed.

Lemma word32 x : u32 x = u8 (Z.shiftr x 24) * 2 ^ 24 + u8 (Z.shiftr x 16) * 2 ^ 16 + u8 (Z.shiftr x 8) * 2 ^ 8 + u8 x.
Proof.
  assert (H0 : u32 x = u8 x + 2 ^ 8 * (Z.shiftr x 8 mod 2 ^ 24)) by (apply (word_bytes x 24 0); lia).
  assert (H1 : Z.shiftr x 8 mod 2 ^ 24 = u8 (Z.shiftr x 8) + 2 ^ 8 * (Z.shiftr x 16 mod 2 ^ 16)) by (apply (word_bytes x 16 8); lia).
  assert (H2 : Z.shiftr x 16 mod 2 ^ 16 = u8 (Z.shiftr x 16) + 2 ^ 8 * u8 (Z.shiftr x 24)) by (apply (word_bytes x 8 16); lia).
  lia.
Qed.

Lemma word16 x : u16 x = u8 (Z.shiftr x 8) * 2 ^ 8 + u8 x.
Proof. assert (H0 : u16 x = u8 x + 2 ^ 8 * u8 (Z.shiftr x 8)) by (apply (word_bytes x 8 0); lia). lia. Qed.

Lemma at_wr32 d p x l : Forall is_byte d -> at_pos d p (wr32 x ++ l) -> rd32 d p = u32 x /\ at_pos d (p + 4) l.
Proof.
  intros Hd H. apply at_app in H as [H Hl]. split; [|exact Hl]. unfold wr32 in H.
  do 3 (apply at_byte in H as [? H]; rewrite <- ?Z.add_assoc in H). apply at_byte in H as [? _].
  change (1 + (1 + 1)) with 3 in *. change (1 + 1) with 2 in *. rewrite rd32_sum, word32 by done. congruence.
Qed.

Lemma at_wr16 d p x l : Forall is_byte d -> at_pos d p (wr16 x ++ l) -> rd16 d p = u16 x /\ at_pos d (p + 2) l.
Proof.
  intros Hd H. apply at_app in H as [H Hl]. split; [|exact Hl]. unfold wr16 in H.
  apply at_byte in H as [? H]. apply at_byte in H as [? _]. rewrite rd16_sum, word16 by done. congruence.
Qed.

(** ** The layout *)

(** A record whose fields fit their types; [w] is the wide arena. *)
Record rec_bytes (w : list Z) (r : BtRec) : Prop := {
  rb_name : 0 < Z.of_nat (length (r_name r)) <= 255 /\ Forall (fun b => 0 <= b < 128) (r_name r);
  rb_defs : is_byte (r_kind r) /\ is_byte (r_flags r) /\ is_byte (r_c r) /\ is_byte (r_d r);
  rb_words : 0 <= r_a r < 2 ^ 32 /\ - 2 ^ 15 <= r_b r < 2 ^ 15;
  rb_wide : 0 <= wide_off r <= Z.of_nat (length w) }.

Lemma i16_u16 x : - 2 ^ 15 <= x < 2 ^ 15 -> i16 (u16 x) = x.
Proof.
  intros H. unfold i16, u16. rewrite Z.add_mod_idemp_l by lia. rewrite Z.mod_small by lia. lia.
Qed.

Lemma wr_bytes x : Forall is_byte (wr32 x) /\ Forall is_byte (wr16 x).
Proof. unfold wr32, wr16. split; repeat constructor; apply u8_range. Qed.

Lemma entry_bytes_length nl off r : length (entry_bytes nl off r) = 16%nat.
Proof. done. Qed.

Lemma entries_bytes_length nl l : forall off, length (entries_bytes nl off l) = (16 * length l)%nat.
Proof.
  induction l as [|r l IH]; intros off; [done|]. cbn [entries_bytes]. rewrite length_app, IH, entry_bytes_length. cbn [length]. lia.
Qed.

Lemma entries_bytes_app nl l2 l1 : forall off,
  entries_bytes nl off (l1 ++ l2) = entries_bytes nl off l1 ++ entries_bytes nl (off + Z.of_nat (length (concat (r_name <$> l1)))) l2.
Proof.
  induction l1 as [|r l1 IH]; intros off; [by rewrite Z.add_0_r|].
  cbn [entries_bytes app fmap list_fmap concat]. rewrite IH, <- app_assoc, length_app. do 3 f_equal. lia.
Qed.

(** Closed sums in positions. *)
Ltac simplify_sums :=
  repeat match goal with
  | H : context [Z.add (Zpos ?a) (Zpos ?b)] |- _ => let c := eval compute in (Z.add (Zpos a) (Zpos b)) in change (Z.add (Zpos a) (Zpos b)) with c in H
  end.

Section Layout.
Context (b : BtBuild) (l : list BtRec).
Abbreviation blob := (blob_bytes b l).
Abbreviation arena l := (concat (r_name <$> l)).
Context (Hnames : bnames_len b = Z.of_nat (length (arena l))).
Context (Hrecs : Forall (rec_bytes (bwide b)) l) (Hwide : Forall is_byte (bwide b)).
Context (Hcount : Z.of_nat (length l) <= 16777215) (Hsize : Z.of_nat (length blob) < 2 ^ 32).

Lemma entries_are_bytes l' nl : Forall (rec_bytes (bwide b)) l' -> forall off, Forall is_byte (entries_bytes nl off l').
Proof.
  induction 1 as [|r l' Hr Hl IH]; intros off; [constructor|]. cbn [entries_bytes]. apply Forall_app. split; [|apply IH].
  destruct (rb_defs _ _ Hr) as (? & ? & ? & ?). unfold entry_bytes.
  repeat (apply Forall_app; split); try apply wr_bytes; repeat (apply Forall_cons; split; [done|]); by apply Forall_nil.
Qed.

Lemma arena_is_bytes l' : Forall (rec_bytes (bwide b)) l' -> Forall is_byte (arena l').
Proof.
  induction 1 as [|r l' Hr Hl IH]; cbn; [constructor|]. apply Forall_app. split; [|done].
  eapply Forall_impl; [apply (rb_name _ _ Hr)|]. unfold is_byte. lia.
Qed.

Lemma blob_is_bytes : Forall is_byte blob.
Proof.
  unfold blob_bytes. repeat (apply Forall_app; split); try apply wr_bytes; try done.
  - repeat constructor; unfold CL_BT_VERSION, CL_BT_HF_LIBCALLS; destruct (has_libcall b); lia.
  - by apply entries_are_bytes.
  - by apply arena_is_bytes.
Qed.

Lemma blob_length : Z.of_nat (length blob) = 16 + 16 * Z.of_nat (length l) + bnames_len b + Z.of_nat (length (bwide b)).
Proof.
  unfold blob_bytes. rewrite !length_app, entries_bytes_length, Hnames. change (length (wr16 0)) with 2%nat.
  change (length [_; _]) with 2%nat. unfold wr32. cbn [length]. lia.
Qed.

Lemma blob_header :
  rd32 blob 0 = CL_BT_MAGIC /\ byte_at blob 4 = CL_BT_VERSION /\ rd32 blob 8 = Z.of_nat (length l) /\
  rd32 blob 12 = bnames_len b + Z.of_nat (length (bwide b)) /\
  at_pos blob 16 (entries_bytes (bnames_len b) 0 l ++ arena l ++ bwide b).
Proof.
  pose proof blob_length as Hlen. pose proof blob_is_bytes as Hb.
  assert (H : at_pos blob 0 blob) by (split; [lia|by exists []; rewrite app_nil_r]).
  unfold blob_bytes in H at 2. apply (at_wr32 _ _ _ _ Hb) in H as [-> H].
  apply at_byte in H as [H1 H]. apply at_byte in H as [_ H].
  apply (at_wr16 _ _ _ _ Hb) in H as [_ H]. apply (at_wr32 _ _ _ _ Hb) in H as [H2 H]. apply (at_wr32 _ _ _ _ Hb) in H as [H3 H].
  change (0 + 4 + 1 + 1 + 2 + 4 + 4) with 16 in H. change (0 + 4 + 1 + 1 + 2 + 4) with 12 in H3.
  change (0 + 4 + 1 + 1 + 2) with 8 in H2. change (0 + 4) with 4 in H1.
  rewrite H1, H2, H3. change (u32 CL_BT_MAGIC) with CL_BT_MAGIC.
  rewrite !u32_small by lia. done.
Qed.

Lemma blob_view : view_blob blob =
  {| base := blob; vlen := Z.of_nat (length blob); vn := Z.of_nat (length l);
     names_len := bnames_len b + Z.of_nat (length (bwide b)); entries := 16; names := 16 + 16 * Z.of_nat (length l) |}.
Proof.
  destruct blob_header as (_ & _ & H2 & H3 & _). unfold view_blob, CL_BT_HEADER_SIZE, CL_BT_ENTRY_SIZE.
  rewrite H2, H3, u32_small by lia. f_equal. lia.
Qed.

(** The entry a record became. *)
Definition entry_of (off : Z) (r : BtRec) : BtEntry :=
  {| name_off := off; name_len := Z.of_nat (length (r_name r)); kind := r_kind r; flags := r_flags r;
     ea := if has_wide r then bnames_len b + wide_off r else r_a r; eb := r_b r; ec := r_c r; ed := r_d r |}.

Lemma blob_entry l1 r l2 : l = l1 ++ r :: l2 ->
  decode_entry (view_blob blob) (Z.of_nat (length l1)) = entry_of (Z.of_nat (length (arena l1))) r.
Proof.
  intros El. pose proof blob_length as Hlen. pose proof blob_is_bytes as Hb.
  assert (Hr : rec_bytes (bwide b) r) by (by rewrite El, Forall_app, Forall_cons in Hrecs; destruct Hrecs as (_ & ? & _)).
  destruct blob_header as (_ & _ & _ & _ & H). rewrite blob_view. unfold decode_entry. cbn [entries base].
  assert (Hn : length l = (length l1 + S (length l2))%nat) by (rewrite El, length_app; done).
  assert (Hnm : Z.of_nat (length (arena l1)) <= bnames_len b) by (rewrite Hnames, El, fmap_app, concat_app, length_app; lia).
  rewrite u32_small by (unfold CL_BT_ENTRY_SIZE; lia). unfold CL_BT_ENTRY_SIZE.
  apply at_app in H as [H _]. rewrite El in H at 2. rewrite entries_bytes_app in H. apply at_app in H as [_ H].
  rewrite entries_bytes_length, Z.add_0_l in H. replace (16 + Z.of_nat (16 * length l1)) with (16 + Z.of_nat (length l1) * 16) in H by lia.
  set (p := 16 + Z.of_nat (length l1) * 16) in *. cbn [entries_bytes] in H. set (d := blob) in *. clearbody d p. unfold entry_bytes in H.
  rewrite <- !app_assoc in H. destruct (rb_words _ _ Hr) as [Ha Hb2]. pose proof (rb_wide _ _ Hr) as Hw. pose proof (rb_name _ _ Hr) as [Hl _].
  apply (at_wr32 _ _ _ _ Hb) in H as [-> H]. apply (at_wr16 _ _ _ _ Hb) in H as [H1 H].
  apply at_byte in H as [H2 H]. apply at_byte in H as [H3 H]. apply (at_wr32 _ _ _ _ Hb) in H as [H4 H].
  apply (at_wr16 _ _ _ _ Hb) in H as [H5 H]. apply at_byte in H as [H6 H]. apply at_byte in H as [H7 H].
  rewrite <- !Z.add_assoc in *. simplify_sums.
  unfold entry_of. rewrite H1, H2, H3, H4, H5, H6, H7, (u16_small (Z.of_nat _)), i16_u16 by lia. f_equal; apply u32_small; [lia|].
  destruct (has_wide r); lia.
Qed.

End Layout.
