(* ===== verification/BindValue.v ===== *)
(** * Binding tables: values

    encode_value and value_to_obj of bindtab.c against each other: a value that
    was packed into a record is the value that comes out of the entry, whatever
    of the four encodings it took. *)

From Stdlib Require Import ZArith Lia ZifyBool.
From stdpp Require Import base option list.
From S2P Require Import Prelude Limbs Bignum BindBlob BindPack.
Local Open Scope Z_scope.
Local Open Scope amilisp_scope.

(** ** Big-endian magnitudes *)

Definition be (mag : list Z) : Z := valB 256 (rev mag).

Lemma be_snoc mag x : be (mag ++ [x]) = be mag * 256 + x.
Proof. unfold be. rewrite rev_app_distr. cbn [rev app valB]. lia. Qed.

Lemma be_app mag l : be (mag ++ l) = be mag * 256 ^ Z.of_nat (length l) + be l.
Proof.
  unfold be. rewrite rev_app_distr, valB_app, length_rev. lia.
Qed.

Lemma be_bound mag : Forall is_byte mag -> 0 <= be mag < 256 ^ Z.of_nat (length mag).
Proof.
  intros H. unfold be. rewrite <- length_rev. apply valB_bound; [lia|]. unfold wfB. apply Forall_rev_iff.
  eapply Forall_impl; [exact H|]. done.
Qed.

Lemma be_fold mag : Forall is_byte mag -> (length mag <= 4)%nat ->
  fold_left (fun m x => Z.lor (u32 (Z.shiftl m 8)) x) mag 0 = be mag.
Proof.
  induction mag as [|x mag IH] using rev_ind; [done|]. rewrite Forall_app, length_app. intros [Hm Hx] Hl. cbn in Hl.
  apply Forall_cons in Hx as [Hx _]. unfold is_byte in Hx. pose proof (be_bound mag Hm) as Hb.
  assert (H3 : 256 ^ Z.of_nat (length mag) <= 256 ^ 3) by (apply Z.pow_le_mono_r; lia). change (256 ^ 3) with 16777216 in H3.
  rewrite fold_left_app. cbn [fold_left]. rewrite IH, be_snoc by (done || lia).
  rewrite u32_small by (rewrite Z.shiftl_mul_pow2 by lia; lia). rewrite lor_shiftl_add by lia. lia.
Qed.

(** ** Into bytes *)

Lemma push_limb_spec mag limb : 0 <= limb < 65536 -> Forall is_byte mag ->
  Forall is_byte (push_limb mag limb) /\ be (push_limb mag limb) = be mag * 65536 + limb /\
  (length (push_limb mag limb) <= length mag + 2)%nat.
Proof.
  intros Hl Hm. unfold push_limb. pose proof (u8_range limb) as H0. pose proof (u8_range (Z.shiftr limb 8)) as H1.
  assert (E : limb = u8 (Z.shiftr limb 8) * 256 + u8 limb) by (rewrite <- (u16_small limb) at 1 by lia; rewrite word16; lia).
  set (hi := u8 (Z.shiftr limb 8)) in *. set (lo := u8 limb) in *. clearbody hi lo.
  destruct (bool_decide (mag = []) && (hi =? 0)) eqn:E1.
  - apply andb_true_iff in E1 as [->%bool_decide_eq_true E1]. assert (hi = 0) as -> by lia.
    destruct (lo =? 0) eqn:E2; cbn [negb]; [split; [done|]; change (be []) with 0; cbn [length]; lia|].
    rewrite be_snoc, length_app. split; [by apply Forall_singleton|cbn; lia].
  - rewrite be_app, length_app. change (256 ^ Z.of_nat (length [hi; lo])) with 65536. unfold be at 2. cbn [rev app valB length].
    split; [|lia]. apply Forall_app; split; [done|]. apply Forall_cons; split; [done|]. by apply Forall_singleton.
Qed.

Lemma limb_bytes_spec limbs : wf limbs ->
  Forall is_byte (limb_bytes limbs) /\ be (limb_bytes limbs) = val limbs /\ (length (limb_bytes limbs) <= length limbs * 2)%nat.
Proof.
  intros H. unfold limb_bytes. induction limbs as [|d limbs IH]; [done|]. apply wfB_cons in H as [Hd H].
  destruct (IH H) as (I1 & I2 & I3). cbn [rev]. rewrite fold_left_app. cbn [fold_left].
  destruct (push_limb_spec (fold_left push_limb (rev limbs) []) d Hd I1) as (P1 & P2 & P3).
  split; [done|]. rewrite P2, I2, val_cons. cbn [length]. split; lia.
Qed.

Lemma fixnum_bytes_spec v : fixnum_range v ->
  Forall is_byte (fixnum_bytes v) /\ be (fixnum_bytes v) = Z.abs v /\ (length (fixnum_bytes v) <= 4)%nat.
Proof.
  unfold fixnum_range, CL_FIXNUM_MIN, CL_FIXNUM_MAX. intros Hv. unfold fixnum_bytes.
  replace (if v <? 0 then u32 (- v) else u32 v) with (Z.abs v) by (destruct (v <? 0) eqn:?; rewrite u32_small; lia).
  set (m := Z.abs v). cbn [fold_left].
  assert (Hstep : forall mag k, Forall is_byte mag ->
    let byte := u8 (Z.shiftr m (8 * k)) in
    let mag' := if bool_decide (mag = []) && (byte =? 0) then mag else mag ++ [byte] in
    Forall is_byte mag' /\ be mag' = be mag * 256 + byte /\ (length mag' <= length mag + 1)%nat).
  { intros mag k Hm byte mag'. subst mag'. destruct (bool_decide (mag = []) && _) eqn:E.
    - apply andb_true_iff in E as [->%bool_decide_eq_true E]. split; [done|]. change (be []) with 0. cbn [length]. lia.
    - rewrite be_snoc, length_app. split; [|split; [lia|cbn; lia]]. apply Forall_app. split; [done|].
      apply Forall_singleton, u8_range. }
  destruct (Hstep [] 3 (Forall_nil_2 _)) as (A1 & A2 & A3). destruct (Hstep _ 2 A1) as (B1 & B2 & B3).
  destruct (Hstep _ 1 B1) as (C1 & C2 & C3). destruct (Hstep _ 0 C1) as (D1 & D2 & D3).
  split; [exact D1|]. split; [|cbn [length] in *; lia]. rewrite D2, C2, B2, A2. change (be []) with 0.
  rewrite <- (u32_small m) at 5 by lia. rewrite word32, Z.shiftr_0_r. change (8 * 3) with 24. change (8 * 2) with 16. change (8 * 1) with 8. lia.
Qed.

(** ** Out of bytes *)

Lemma four_limbs_val v : 0 <= v < 2 ^ 64 ->
  let l := [u16 (Z.land v 65535); u16 (Z.land (Z.shiftr v 16) 65535); u16 (Z.land (Z.shiftr v 32) 65535);
            u16 (Z.land (Z.shiftr v 48) 65535)] in wf l /\ val l = v.
Proof.
  intros Hv. cbv zeta. rewrite !land_ffff.
  assert (Hw : forall x, u16 (x mod 65536) = x mod 65536) by (intros x; apply u16_small, Z.mod_pos_bound; lia). rewrite !Hw. split.
  { repeat constructor; apply Z.mod_pos_bound; lia. }
  rewrite !val_cons, val_nil, !Z.shiftr_div_pow2 by lia.
  assert (H32 : v / 2 ^ 32 = v / 2 ^ 16 / 65536) by (rewrite Z.div_div by lia; done).
  assert (H48 : v / 2 ^ 48 = v / 2 ^ 32 / 65536) by (rewrite Z.div_div by lia; done).
  assert (H64 : v / 2 ^ 48 / 65536 = 0) by (rewrite Z.div_div by lia; apply Z.div_small; lia).
  pose proof (Z.div_mod v 65536). pose proof (Z.div_mod (v / 2 ^ 16) 65536). pose proof (Z.div_mod (v / 2 ^ 32) 65536).
  pose proof (Z.div_mod (v / 2 ^ 48) 65536). change (2 ^ 16) with 65536 in *. lia.
Qed.

Lemma cl_ffi_u64_to_obj_rep v : 0 <= v < 2 ^ 64 -> rep (cl_ffi_u64_to_obj v) v.
Proof.
  intros Hv. unfold cl_ffi_u64_to_obj. destruct (v <=? CL_FIXNUM_MAX) eqn:E.
  - unfold CL_FIXNUM_MAX in E. rewrite i32_small by lia. apply rep_make_fixnum. unfold fixnum_range, CL_FIXNUM_MIN, CL_FIXNUM_MAX. lia.
  - destruct (four_limbs_val v Hv) as [W V]. rewrite <- V at 5. apply (rep_normalize false); [done|cbn; lia].
Qed.

Lemma cl_ffi_i64_to_obj_rep v : - 2 ^ 63 <= v < 2 ^ 63 -> rep (cl_ffi_i64_to_obj v) v.
Proof.
  intros Hv. unfold cl_ffi_i64_to_obj, CL_FIXNUM_MIN, CL_FIXNUM_MAX. destruct ((v >=? _) && _) eqn:E.
  - rewrite i32_small by lia. apply rep_make_fixnum. unfold fixnum_range, CL_FIXNUM_MIN, CL_FIXNUM_MAX. lia.
  - replace (if v <? 0 then _ else u64 v) with (Z.abs v).
    + destruct (four_limbs_val (Z.abs v) ltac:(lia)) as [W V].
      replace v with (sv (v <? 0) (Z.abs v)) at 6 by (destruct (v <? 0) eqn:?; cbn; lia).
      rewrite <- V at 5. apply rep_normalize; [done|cbn; lia].
    + destruct (v <? 0) eqn:?; rewrite !u64_small; rewrite ?u64_small; lia.
Qed.

(** Limb [i] is made of the bytes [2 i] and [2 i + 1], counted from the end. *)
Lemma limb_at_rev mag i : (2 * i < length mag)%nat -> Forall is_byte mag ->
  limb_at mag i = nth (2 * i) (rev mag) 0 + 256 * nth (2 * i + 1) (rev mag) 0.
Proof.
  intros Hi Hm. unfold limb_at.
  assert (Hnth : forall k, (k < length mag)%nat -> byte_at mag (Z.of_nat (length mag) - Z.of_nat k - 1) = nth k (rev mag) 0).
  { intros k Hk. unfold byte_at. rewrite rev_nth by done. f_equal. lia. }
  rewrite <- (Hnth (2 * i)%nat) by lia.
  replace (Z.of_nat (length mag) - 2 * Z.of_nat i - 1) with (Z.of_nat (length mag) - Z.of_nat (2 * i) - 1) by lia.
  destruct (_ >=? 0) eqn:E.
  - rewrite <- (Hnth (2 * i + 1)%nat) by lia.
    replace (Z.of_nat (length mag) - 2 * Z.of_nat i - 2) with (Z.of_nat (length mag) - Z.of_nat (2 * i + 1) - 1) by lia.
    set (lo := byte_at mag (_ - Z.of_nat (2 * i) - 1)). set (hi := byte_at mag _).
    assert (H1 : is_byte lo) by by apply byte_at_range. assert (H2 : is_byte hi) by by apply byte_at_range. unfold is_byte in *.
    rewrite u16_small by (rewrite Z.shiftl_mul_pow2; lia). rewrite lor_add_shiftl by lia. lia.
  - rewrite nth_overflow by (rewrite length_rev; lia). lia.
Qed.

Lemma pairs_val r : Forall is_byte r ->
  let limbs := (fun i => nth (2 * i) r 0 + 256 * nth (2 * i + 1) r 0) <$> seq 0 ((length r + 1) / 2) in
  wf limbs /\ val limbs = valB 256 r.
Proof.
  cbv zeta. induction r as [|x|x y r IH] using pair_ind; intros H.
  - split; [by constructor|done].
  - apply Forall_cons in H as [H _]. unfold is_byte in H. change ((length [x] + 1) / 2)%nat with 1%nat.
    cbn [seq fmap list_fmap Nat.mul Nat.add nth valB]. rewrite wfB_cons. split; [split; [lia|constructor]|lia].
  - apply Forall_cons in H as [Hx H]. apply Forall_cons in H as [Hy H]. destruct (IH H) as [W V].
    assert (En : ((length (x :: y :: r) + 1) / 2 = S ((length r + 1) / 2))%nat).
    { replace (length (x :: y :: r) + 1)%nat with (length r + 1 + 1 * 2)%nat by (cbn [length]; lia). rewrite Nat.div_add by lia. lia. }
    rewrite En.
    cbn [seq fmap list_fmap]. rewrite <- (fmap_S_seq 0), <- list_fmap_compose. unfold is_byte in *.
    assert (E : (fun i => nth (2 * i) (x :: y :: r) 0 + 256 * nth (2 * i + 1) (x :: y :: r) 0) ∘ S <$> seq 0 ((length r + 1) / 2)
                = (fun i => nth (2 * i) r 0 + 256 * nth (2 * i + 1) r 0) <$> seq 0 ((length r + 1) / 2)).
    { apply list_fmap_ext. intros j i _. cbn [compose]. replace (2 * S i)%nat with (S (S (2 * i))) by lia. done. }
    rewrite E. change (nth (2 * 0) (x :: y :: r) 0) with x. change (nth (2 * 0 + 1) (x :: y :: r) 0) with y. split.
    + apply wfB_cons. split; [lia|done].
    + rewrite val_cons, V. cbn [valB]. lia.
Qed.

Lemma limbs_of_bytes mag : Forall is_byte mag ->
  let limbs := limb_at mag <$> seq 0 ((length mag + 1) / 2) in wf limbs /\ val limbs = be mag.
Proof.
  intros H. cbv zeta. replace (limb_at mag <$> _) with ((fun i => nth (2 * i) (rev mag) 0 + 256 * nth (2 * i + 1) (rev mag) 0) <$> seq 0 ((length mag + 1) / 2)).
  - pose proof (pairs_val (rev mag)) as Hp. rewrite length_rev in Hp. apply Hp. by apply Forall_rev_iff.
  - apply list_fmap_ext. intros j i [-> Hi]%lookup_seq. rewrite Nat.add_0_l. symmetry. apply limb_at_rev; [|done].
    pose proof (Nat.div_mod (length mag + 1) 2). pose proof (Nat.mod_upper_bound (length mag + 1) 2). lia.
Qed.

(** ** Records that hold values *)

(** Record [r], with arena [w], holds the value: the four encodings. *)
Inductive says_value (w : list Z) (r : BtRec) : obj -> Prop :=
| says_unsigned n : r_flags r = 0 -> has_wide r = false -> 0 <= r_a r < 2 ^ 32 -> rep n (r_a r) -> says_value w r (Int n)
| says_signed n m : r_flags r = CL_BT_F_SIGNED -> has_wide r = false -> 0 <= m <= 2 ^ 31 -> r_a r = u32 (- m) -> rep n (- m) ->
    says_value w r (Int n)
| says_wide n (s : bool) mag : r_flags r = CL_BT_F_WIDE -> has_wide r = true ->
    at_pos w (wide_off r) ([Z.of_nat (length mag); Zb s] ++ mag) -> Forall is_byte mag -> 0 < Z.of_nat (length mag) <= 255 ->
    rep n (sv s (be mag)) -> says_value w r (Int n)
| says_string chars : r_flags r = CL_BT_F_STRING -> has_wide r = true ->
    at_pos w (wide_off r) ([Z.of_nat (length chars)] ++ chars) -> Forall (fun c => 0 <= c < 128) chars ->
    Z.of_nat (length chars) <= 255 -> says_value w r (Str chars).

Lemma at_pos_end (w payload : list Z) : at_pos (w ++ payload) (Z.of_nat (length w)) payload.
Proof. split; [lia|]. exists []. by rewrite Nat2Z.id, drop_app_length, app_nil_r. Qed.

Lemma at_pos_mono w w' p l : l <> [] -> at_pos w p l -> at_pos (w ++ w') p l.
Proof.
  intros Hl [Hp [t H]]. split; [done|]. exists (t ++ w'). rewrite drop_app_le, H, app_assoc; [done|].
  assert (H1 : length (drop (Z.to_nat p) w) = length (l ++ t)) by by rewrite H.
  rewrite length_drop, length_app in H1. destruct l; [done|]. cbn in H1. lia.
Qed.

Lemma says_value_mono w w' r v : says_value w r v -> says_value (w ++ w') r v.
Proof.
  destruct 1; [by eapply says_unsigned|by eapply says_signed| |]; [eapply says_wide|eapply says_string]; eauto; by apply at_pos_mono.
Qed.

(** A record before its value is stored. *)
Definition fresh_rec (r : BtRec) : Prop := r_flags r = 0 /\ has_wide r = false /\ r_a r = 0 /\ wide_off r = 0.

(** What encode_value leaves alone, and what it appends. *)
Record encoded (b b' : BtBuild) (r r' : BtRec) (ws : list Z) : Prop := {
  en_build : recs b' = recs b /\ bnames_len b' = bnames_len b /\ has_libcall b' = has_libcall b;
  en_wide : bwide b' = bwide b ++ ws /\ Forall is_byte ws;
  en_rec : r_name r' = r_name r /\ r_order r' = r_order r /\ r_kind r' = r_kind r /\ r_b r' = r_b r /\ r_c r' = r_c r /\ r_d r' = r_d r;
  en_off : 0 <= wide_off r' <= Z.of_nat (length (bwide b)) }.

Lemma u32_i32 x : u32 (i32 x) = u32 x.
Proof. unfold u32, i32. rewrite Zminus_mod_idemp_l. f_equal. lia. Qed.

(** A payload of bytes appended for the record. *)
Lemma put_wide_encoded b r f payload : Forall is_byte payload ->
  encoded b (fst (put_wide b r f payload)) r (snd (put_wide b r f payload)) payload /\
  at_pos (bwide (fst (put_wide b r f payload))) (wide_off (snd (put_wide b r f payload))) payload.
Proof. intros Hp. split; [|apply at_pos_end]. split; try done. cbn. lia. Qed.

Lemma same_build_encoded b r kind f a rb c d : kind = r_kind r -> rb = r_b r -> c = r_c r -> d = r_d r -> wide_off r = 0 ->
  encoded b b r (set_def r kind f a rb c d) [].
Proof. intros -> -> -> -> Hw. split; cbn; rewrite ?app_nil_r; try done. lia. Qed.

(** What an encoding promises. *)
Definition encoding (b : BtBuild) (r : BtRec) (v : obj) (br : BtBuild * BtRec) : Prop :=
  exists ws, encoded b (fst br) r (snd br) ws /\ 0 <= r_a (snd br) < 2 ^ 32 /\ says_value (bwide (fst br)) (snd br) v.

Lemma u8_length {A} (l : list A) : Z.of_nat (length l) <= 255 -> u8 (Z.of_nat (length l)) = Z.of_nat (length l).
Proof. intros H. unfold u8. apply Z.mod_small. lia. Qed.

Lemma encode_wide b r n (neg : bool) mag : fresh_rec r -> Forall is_byte mag -> 0 < Z.of_nat (length mag) <= 255 ->
  rep n (sv neg (be mag)) -> encoding b r (Int n) (put_wide b r CL_BT_F_WIDE ([u8 (Z.of_nat (length mag)); Zb neg] ++ mag)).
Proof.
  intros (Hf & Hw & Ha & Ho) Hm Hl Hn. rewrite u8_length by lia. set (payload := [_; _] ++ mag). exists payload.
  destruct (put_wide_encoded b r CL_BT_F_WIDE payload) as [He Hp].
  - apply Forall_app. split; [|done]. unfold is_byte. apply Forall_cons. split; [lia|]. apply Forall_cons. by destruct neg.
  - split; [done|]. split; [cbn; lia|]. apply (says_wide _ _ n neg mag); try done. cbn. by rewrite Hf.
Qed.

Lemma encode_integer_spec b r n (neg : bool) mag : fresh_rec r -> Forall is_byte mag -> Z.of_nat (length mag) <= 255 ->
  (neg = true -> 0 < be mag) -> rep n (sv neg (be mag)) -> encoding b r (Int n) (encode_integer b r neg mag).
Proof.
  intros Hr Hm Hl Hpos Hn. unfold encode_integer. pose proof (be_bound mag Hm) as Hb. pose proof Hr as (Hf & Hw & Ha & Ho).
  assert (Hne : 0 < be mag -> 0 < Z.of_nat (length mag)) by (destruct mag; [done|cbn; lia]).
  destruct (length mag <=? 4)%nat eqn:E1; [rewrite be_fold by (done || lia)|].
  - assert (H4 : 256 ^ Z.of_nat (length mag) <= 2 ^ 32) by (change (2 ^ 32) with (256 ^ 4); apply Z.pow_le_mono_r; lia).
    destruct neg; cbn [negb andb]; [destruct (be mag <=? 2147483648) eqn:E2|].
    + exists []. split; [by apply same_build_encoded|]. cbn [fst snd r_a set_def]. rewrite u32_i32. split; [apply u32_range|].
      apply (says_signed _ _ _ (be mag)); cbn; try done; [by rewrite Hf|lia].
    + apply encode_wide; auto.
    + exists []. split; [by apply same_build_encoded|]. cbn [fst snd r_a set_def]. split; [lia|].
      apply says_unsigned; cbn; try done. lia.
  - cbn [andb]. apply encode_wide; auto. lia.
Qed.

Lemma encode_value_spec b r v br : fresh_rec r -> wf_obj v -> encode_value b r v = Ok br -> encoding b r v br.
Proof.
  intros Hr Hv. destruct v as [| |n| |chars|]; try done; cbn [encode_value wf_obj] in *.
  - destruct n as [z|s limbs].
    + intros [= <-]. destruct (fixnum_bytes_spec z Hv) as (F1 & F2 & F3).
      apply encode_integer_spec; try done; [lia|intros; lia|]. rewrite F2, <- sv_abs. by apply rep_fix.
    + destruct (_ >? 255) eqn:E; [done|]. intros [= <-]. destruct Hv as (W & C & H). destruct (limb_bytes_spec limbs W) as (L1 & L2 & L3).
      apply encode_integer_spec; try done; [lia| |by rewrite L2].
      intros ->. rewrite L2. cbn in H. lia.
  - destruct (_ >? 255) eqn:E1; [done|]. destruct (existsb _ chars) eqn:E2; [done|]. intros [= <-].
    assert (Hc : Forall (fun c => 0 <= c < 128) chars).
    { apply Forall_forall. intros c Hc%list_elem_of_In. apply not_true_iff_false in E2. rewrite existsb_exists in E2.
      destruct (decide (0 <= c < 128)); [done|]. destruct E2. exists c. split; [done|lia]. }
    rewrite u8_length by lia. destruct Hr as (Hf & Hw & Ha & Ho).
    exists ([Z.of_nat (length chars)] ++ chars). destruct (put_wide_encoded b r CL_BT_F_STRING ([Z.of_nat (length chars)] ++ chars)) as [He Hp].
    + apply Forall_cons. split; [unfold is_byte; lia|]. eapply Forall_impl; [exact Hc|]. unfold is_byte. cbn. lia.
    + split; [done|]. split; [cbn; lia|]. apply says_string; try done; [cbn; by rewrite Hf|lia].
Qed.

(** ** And back *)

Lemma at_pos_sub d p w o l : at_pos d p w -> at_pos w o l -> l <> [] -> at_pos d (p + o) l.
Proof.
  intros [Hp [t Ht]] H Hl. destruct (at_pos_mono w t o l Hl H) as [Ho [t' Ht']]. split; [lia|]. exists t'.
  by rewrite Z2Nat.inj_add, <- drop_drop, Ht by lia.
Qed.

Lemma value_to_obj_wide mag s n : Forall is_byte mag -> 0 < Z.of_nat (length mag) -> rep n (sv s (be mag)) ->
  cl_bignum_normalize (Big s (limb_at mag <$> seq 0 ((length mag + 1) / 2))) = n.
Proof.
  intros Hm Hl Hn. apply (rep_unique _ _ (sv s (be mag))); [|done]. destruct (limbs_of_bytes mag Hm) as [W V].
  rewrite <- V. apply rep_normalize; [done|]. rewrite length_fmap, length_seq.
  assert ((1 <= (length mag + 1) / 2)%nat) by (apply Nat.div_le_lower_bound; lia). lia.
Qed.

(** Tests of known flags. *)
Ltac eval_flags :=
  unfold CL_BT_F_WIDE, CL_BT_F_STRING, CL_BT_F_SIGNED;
  repeat match goal with |- context [negb (Z.land ?f ?k =? 0)] => let c := eval vm_compute in (negb (Z.land f k =? 0)) in change (negb (Z.land f k =? 0)) with c end;
  cbv iota.

(** What decode_value makes of a record's entry: the payload of the arena is
    where the entry says it is. *)
Lemma decode_says_value w r v bl e p : says_value w r v -> at_pos (base bl) (names bl + p) w ->
  flags e = r_flags r -> ea e = (if has_wide r then p + wide_off r else r_a r) -> value_to_obj (decode_value bl e) = v.
Proof.
  intros Hv Hp Hf Ha. unfold decode_value, flag. rewrite Hf, Ha.
  destruct Hv as [n H1 H2 H3 H4|n m H1 H2 H3 H4 H5|n s mag H1 H2 H3 H4 H5 H6|chars H1 H2 H3 H4 H5]; rewrite H1, H2;
    eval_flags.
  - cbn. f_equal. apply (rep_unique _ _ (r_a r)); [|done]. apply cl_ffi_u64_to_obj_rep. lia.
  - cbn. f_equal. apply (rep_unique _ _ (- m)); [|done].
    assert (E : i32 (r_a r) = - m).
    { rewrite H4. unfold i32, u32. rewrite Z.add_mod_idemp_l by lia. destruct (Z.eq_dec m 0) as [->|]; [done|].
      rewrite Z.mod_small; lia. }
    rewrite E. apply cl_ffi_i64_to_obj_rep. lia.
  - apply (at_pos_sub _ _ _ _ _ Hp) in H3; [|done]. rewrite Z.add_assoc. set (q := names bl + p + wide_off r) in *.
    apply at_byte in H3 as [E1 H3]. apply at_byte in H3 as [E2 H3]. rewrite <- Z.add_assoc in H3. change (1 + 1) with 2 in H3.
    rewrite E1, E2, (at_slice _ _ mag) by done. unfold value_to_obj; cbn [string wide negb neg BindBlob.mag].
    replace (negb (Zb s =? 0)) with s by (by destruct s). f_equal. apply value_to_obj_wide; [done|lia|done].
  - apply (at_pos_sub _ _ _ _ _ Hp) in H3; [|done]. rewrite Z.add_assoc. set (q := names bl + p + wide_off r) in *.
    apply at_byte in H3 as [E1 H3]. by rewrite E1, (at_slice _ _ chars) by done.
Qed.
