(* ===== verification/BindRows.v ===== *)
(** * Binding tables: rows

    The parser of bindtab.c's packer: every row it accepts adds records that say
    what the row says ([row_specs]), and an entry made of such a record is valid
    and is read back as just that. *)

From Stdlib Require Import ZArith Lia ZifyBool String.
From stdpp Require Import base option list.
From S2P Require Import Prelude Limbs Bignum BindBlob BindPack BindValue.
Local Open Scope Z_scope.
Local Open Scope amilisp_scope.

(** ** Records that say something *)

Inductive says (w : list Z) (r : BtRec) : contents -> Prop :=
| says_const v : r_kind r = CL_BT_CONST -> says_value w r v -> says w r (Const v)
| says_special v : r_kind r = CL_BT_VAR -> says_value w r v -> says w r (Special v)
| says_call regs : r_kind r = CL_BT_LIBCALL -> has_wide r = false -> 0 <= r_flags r <= 2 -> r_b r < 0 ->
    r_c r = Z.of_nat (length regs) -> (length regs <= 7)%nat -> Forall (fun k => 0 <= k <= 12) regs ->
    (forall k x, regs !! k = Some x -> register_of (r_a r) (Z.of_nat k) = x) ->
    CL_AMIGA_RES_KIND (r_a r) <= CL_AMIGA_RES_KIND_MAX ->
    says w r (LibCall (r_b r) regs (CL_AMIGA_RES_KIND (r_a r)) (r_flags r) (r_d r))
| says_scalar : r_kind r = CL_BT_FIELD -> has_wide r = false -> r_flags r = 0 -> r_d r = CL_STUB_PEEK -> r_c r <= CL_STUB_CT_MAX ->
    r_a r <= CL_FIXNUM_MAX -> says w r (Scalar (r_c r) (r_a r))
| says_array : r_kind r = CL_BT_FIELD -> has_wide r = false -> r_flags r = 0 -> r_d r = CL_STUB_PEEK_IDX -> r_c r <= CL_STUB_CT_MAX ->
    r_b r = stub_ct_size (r_c r) ->
    says w r (Array (r_c r) (Z.land (r_a r) 65535) (Z.shiftr (r_a r) 16) (r_b r))
| says_embedded : r_kind r = CL_BT_FIELD -> has_wide r = false -> r_flags r = 0 -> r_d r = CL_STUB_FIELD_PTR ->
    says w r (Embedded (r_a r))
| says_name : r_kind r = CL_BT_NAME -> has_wide r = false -> r_flags r = 0 -> says w r NameOnly.

Lemma says_mono w w' r ct : says w r ct -> says (w ++ w') r ct.
Proof. destruct 1; econstructor; eauto using says_value_mono. Qed.

Lemma rec_bytes_mono w w' r : rec_bytes w r -> rec_bytes (w ++ w') r.
Proof. intros []. split; try done. rewrite length_app. lia. Qed.

(** An entry that was made of a record, in a view with the arena after the
    names. *)
Record made_of (nl : Z) (w : list Z) (bl : BtView) (e : BtEntry) (r : BtRec) : Prop := {
  mo_kind : kind e = r_kind r /\ flags e = r_flags r /\ eb e = r_b r /\ ec e = r_c r /\ ed e = r_d r;
  mo_a : ea e = if has_wide r then nl + wide_off r else r_a r;
  mo_wide : at_pos (base bl) (names bl + nl) w /\ 0 <= nl /\ names_len bl = nl + Z.of_nat (length w);
  mo_name : entry_name bl e = r_name r /\ name_len e = Z.of_nat (length (r_name r)) /\ name_off e + name_len e <= nl }.

Lemma register_list a regs : (forall k x, regs !! k = Some x -> register_of a (Z.of_nat k) = x) ->
  (fun k => register_of a (Z.of_nat k)) <$> seq 0 (length regs) = regs.
Proof.
  intros H. apply list_eq. intros k. rewrite list_lookup_fmap. destruct (regs !! k) as [x|] eqn:E.
  - rewrite lookup_seq_lt by (by eapply lookup_lt_Some). cbn. f_equal. by apply H.
  - rewrite lookup_seq_ge by (by apply lookup_ge_None). done.
Qed.

Lemma says_contents nl w bl e r ct : made_of nl w bl e r -> says w r ct -> entry_contents bl e = ct.
Proof.
  intros [(K1 & K2 & K3 & K4 & K5) Ka (Kw & _) _] H. unfold entry_contents. rewrite K1.
  destruct H as [v H1 H2|v H1 H2|regs H1 H2 H3 H4 H5 H6 H7 H8 H9|H1 H2|H1 H2 H3 H4 H5|H1 H2 H3 H4|H1 H2]; rewrite H1; cbn.
  - f_equal. by eapply decode_says_value.
  - f_equal. by eapply decode_says_value.
  - rewrite K2, K3, K4, K5, Ka, H2, H5, Nat2Z.id. f_equal. by apply register_list.
  - rewrite K5, H0. cbn. by rewrite K4, Ka, H2.
  - rewrite K5, H4. cbn. by rewrite K4, Ka, H2, K3.
  - rewrite K5, H4. cbn. by rewrite Ka, H2.
  - done.
Qed.

(** ** Valid entries *)

Lemma existsb_false {A} (f : A -> bool) l : Forall (fun x => f x = false) l -> existsb f l = false.
Proof. induction 1 as [|x l Hx Hl IH]; [done|]. cbn. by rewrite Hx, IH. Qed.

Lemma payload_fits w o l : at_pos w o l -> l <> [] -> o + Z.of_nat (length l) <= Z.of_nat (length w).
Proof.
  intros [Ho [t Ht]] Hl. assert (H : length (drop (Z.to_nat o) w) = length (l ++ t)) by by rewrite Ht.
  rewrite length_drop, length_app in H. destruct l; [done|]. cbn [length] in *. lia.
Qed.

Lemma valid_value nl w bl e r v : made_of nl w bl e r -> says_value w r v -> validate_value bl e = None.
Proof.
  intros [(_ & K2 & _) Ka (Kw & Hn & Kl) _] H. unfold validate_value, flag. rewrite K2, Ka.
  destruct H as [n H1 H2 H3 H4|n m H1 H2 H3 H4 H5|n s mag H1 H2 H3 H4 H5 H6|chars H1 H2 H3 H4 H5]; rewrite H1, ?H2; eval_flags; cbn [andb]; try done.
  - pose proof (payload_fits _ _ _ H3 ltac:(done)) as Hf. pose proof (at_pos_sub _ _ _ _ _ Kw H3 ltac:(done)) as H.
    apply at_byte in H as [E _]. rewrite Z.add_assoc, E, Kl. rewrite length_app in Hf. cbn [length] in Hf.
    destruct H3 as [H3 _].
    replace (_ >? _) with false by lia. replace (Z.of_nat (length mag) =? 0) with false by lia.
    by replace (_ >? _) with false by lia.
  - pose proof (payload_fits _ _ _ H3 ltac:(done)) as Hf. pose proof (at_pos_sub _ _ _ _ _ Kw H3 ltac:(done)) as H.
    apply at_byte in H as [E H]. rewrite Z.add_assoc, E, Kl. rewrite length_app in Hf. cbn [length] in Hf. destruct H3 as [H3 _].
    replace (_ >? _) with false by lia. replace (_ >? _) with false by lia. cbn [orb].
    rewrite (at_slice _ _ chars) by done. rewrite existsb_false; [done|]. eapply Forall_impl; [exact H4|]. cbn. lia.
Qed.

Lemma valid_libcall e regs : eb e < 0 -> ec e = Z.of_nat (length regs) -> (length regs <= 7)%nat ->
  Forall (fun k => 0 <= k <= 12) regs -> (forall k x, regs !! k = Some x -> register_of (ea e) (Z.of_nat k) = x) ->
  CL_AMIGA_RES_KIND (ea e) <= CL_AMIGA_RES_KIND_MAX -> validate_libcall e = None.
Proof.
  intros Hb Hc Hl Hr Hreg Hk. unfold validate_libcall. rewrite Hc, Nat2Z.id.
  replace (_ >? 7) with false by lia. replace (_ >? _) with false by lia. rewrite existsb_false; [by replace (_ >=? 0) with false by lia|].
  apply Forall_forall. intros k Hin. apply elem_of_seq in Hin. cbn. destruct (lookup_lt_is_Some_2 regs k ltac:(lia)) as [x Hx].
  rewrite (Hreg k x Hx). rewrite Forall_lookup in Hr. specialize (Hr k x Hx). cbn in Hr. lia.
Qed.

Lemma stub_ct_size_in ctype : stub_ct_size ctype = 1 \/ stub_ct_size ctype = 2 \/ stub_ct_size ctype = 4 \/ stub_ct_size ctype = 8.
Proof. unfold stub_ct_size. repeat destruct (_ || _); [tauto|tauto|]. destruct (_ =? 9); tauto. Qed.

Lemma says_valid nl w bl e r ct : made_of nl w bl e r -> rec_bytes w r -> says w r ct -> validate_entry bl e = None.
Proof.
  intros Hm Hb H. pose proof Hm as [(K1 & K2 & K3 & K4 & K5) Ka (Kw & Hn & Kl) (Kn & Kn2 & Kn3)]. pose proof Hb as [[Hnm Ha] _ _ _].
  unfold validate_entry. rewrite Kn. rewrite (existsb_false _ (r_name r)) by (eapply Forall_impl; [exact Ha|]; cbn; lia).
  replace (name_len e =? 0) with false by lia. replace (_ >? names_len bl) with false by lia. rewrite K1.
  assert (Hk : r_kind r <= CL_BT_KIND_MAX) by (destruct H; rewrite H; done). replace (_ >? CL_BT_KIND_MAX) with false by lia.
  assert (Hf : negb (Z.land (flags e) (Z.lnot CL_BT_F_KNOWN) =? 0) = false).
  { rewrite K2. destruct H as [v _ H|v _ H|? ? ? Hfl|? ? Hfl|? ? Hfl|? ? Hfl|? ? Hfl]; try (rewrite Hfl; done).
    1, 2: destruct H as [? Hfl|? ? Hfl|? ? ? Hfl|? Hfl]; rewrite Hfl; done.
    assert (Hc : r_flags r = 0 \/ r_flags r = 1 \/ r_flags r = 2) by lia. by destruct Hc as [->|[->| ->]]. }
  rewrite Hf.
  destruct H as [v H1 H2|v H1 H2|regs H1 H2 H3 H4 H5 H6 H7 H8 H9|H1 H2 H3 H4 H5 H5'|H1 H2 H3 H4 H5 H6|H1 H2 H3 H4|H1 H2]; rewrite H1; cbn.
  - by eapply valid_value.
  - by eapply valid_value.
  - apply (valid_libcall e regs); try done; [lia|lia| |]; rewrite Ka, H2; done.
  - unfold validate_field. rewrite K5, K4, H4. cbn. by replace (_ >? _) with false by lia.
  - unfold validate_field. rewrite K5, K4, K3, H4. cbn. replace (_ >? _) with false by lia. rewrite H6.
    by destruct (stub_ct_size_in (r_c r)) as [->|[->|[->| ->]]].
  - unfold validate_field. rewrite K5, H4. done.
  - done.
Qed.

(** ** What a row adds *)

(** A new record and what the row says: name, contents. *)
Definition fulfils (w : list Z) (r : BtRec) (s : list Z * contents) : Prop :=
  r_name r = fst s /\ rec_bytes w r /\ says w r (snd s).

Lemma fulfils_mono w w' r s : fulfils w r s -> fulfils (w ++ w') r s.
Proof. intros (H1 & H2 & H3). split; [done|]. split; [by apply rec_bytes_mono|by apply says_mono]. Qed.

(** [b'] is [b] with records for [sp] at its end. *)
Record grows (b b' : BtBuild) (sp : list (list Z * contents)) : Prop := {
  gr_recs : exists new, recs b' = recs b ++ new /\ Forall2 (fulfils (bwide b')) new sp /\
    (forall i r, new !! i = Some r -> r_order r = Z.of_nat (length (recs b) + i)) /\
    bnames_len b' = bnames_len b + Z.of_nat (length (concat (r_name <$> new)));
  gr_wide : exists ws, bwide b' = bwide b ++ ws /\ Forall is_byte ws }.

Lemma grows_nil b : grows b b [].
Proof. split; [exists []|exists []]; rewrite ?app_nil_r; repeat split; try done. cbn. lia. Qed.

Lemma grows_trans b b' b'' s s' : grows b b' s -> grows b' b'' s' -> grows b b'' (s ++ s').
Proof.
  intros [(n1 & R1 & F1 & O1 & L1) (w1 & W1 & B1)] [(n2 & R2 & F2 & O2 & L2) (w2 & W2 & B2)]. split.
  - exists (n1 ++ n2). split; [by rewrite R2, R1, app_assoc|]. split; [|split].
    + apply Forall2_app; [|done]. rewrite W2. eapply Forall2_impl; [exact F1|]. intros. by apply fulfils_mono.
    + intros i r [Hi|[Hl Hi]]%lookup_app_Some; [by apply O1|]. rewrite (O2 _ _ Hi), R1, length_app. lia.
    + rewrite L2, L1, fmap_app, concat_app, length_app. lia.
  - exists (w1 ++ w2). split; [by rewrite W2, W1, app_assoc|]. by apply Forall_app.
Qed.

(** One record, put at the end of a build whose arena may have grown. *)
Lemma grows_put b b1 r ws s : recs b1 = recs b /\ bnames_len b1 = bnames_len b -> bwide b1 = bwide b ++ ws -> Forall is_byte ws ->
  r_order r = Z.of_nat (length (recs b)) -> fulfils (bwide b1) r s -> grows b (put_rec b1 r) [s].
Proof.
  intros [E1 E2] Hw Hb Ho Hf. split; [|by exists ws]. exists [r]. cbn. rewrite E1, E2. split; [done|]. split; [by constructor|].
  split; [|by rewrite app_nil_r]. intros i x Hx. destruct i; [|done]. injection Hx as <-. by rewrite Nat.add_0_r.
Qed.

Definition good_name (n : list Z) : Prop := 0 < Z.of_nat (length n) <= 255 /\ Forall (fun b => 0 <= b < 128) n.

Lemma parse_name_ok o name : parse_name o = Ok name -> good_name name /\ designator o = name.
Proof.
  unfold parse_name, designator. intros H.
  assert (Hs : forall chars, (let len := Z.of_nat (length chars) in
      if (len =? 0) || (len >? 255) then Err CL_ERR_ARGS
      else if existsb (fun ch => (ch <=? 0) || (ch >=? 128)) chars then Err CL_ERR_ARGS else Ok chars) = Ok name ->
      good_name name /\ chars = name).
  { clear H. intros chars. cbv zeta. destruct (_ || _) eqn:E1; [done|]. destruct (existsb _ chars) eqn:E2; [done|]. intros [= <-].
    split; [|done]. split; [lia|]. apply Forall_forall. intros c Hc%list_elem_of_In. apply not_true_iff_false in E2.
    rewrite existsb_exists in E2. destruct (decide (0 <= c < 128)); [done|]. destruct E2. exists c. split; [done|lia]. }
  destruct o; try done; by apply Hs.
Qed.

Lemma fixnum_val_Some o v : fixnum_val o = Some v -> o = Int (Fix v) /\ number o = v.
Proof. destruct o as [| |[]| | |]; cbn; try done. by intros [= ->]. Qed.

Lemma keyword_index_bound kw names : forall i j, keyword_index kw names i = Some j -> i <= j < i + Z.of_nat (length names).
Proof.
  induction names as [|nm names IH]; intros i j; [done|]. cbn [keyword_index length]. destruct (kw_is kw nm).
  - intros [= <-]. lia.
  - intros H%IH. lia.
Qed.

Lemma bind_Ok {A B} (m : result A) (k : A -> result B) y : bind m k = Ok y -> exists x, m = Ok x /\ k x = Ok y.
Proof. destruct m; [|done]. by exists a. Qed.

Lemma Ok_inj {A} (x y : A) : Ok x = Ok y -> x = y.
Proof. by intros [=]. Qed.

Lemma grows_value b kind name v b' : kind = CL_BT_CONST \/ kind = CL_BT_VAR -> good_name name -> wf_obj v ->
  add_value b kind name v = Ok b' ->
  grows b b' [(name, if kind =? CL_BT_CONST then Const v else Special v)].
Proof.
  intros Hk [Hn1 Hn2] Hv. unfold add_value. intros ([b1 r] & He & [= <-])%bind_Ok.
  apply encode_value_spec in He as (ws & [(E1 & E2 & _) (W1 & W2) (R1 & R2 & R3 & R4 & R5 & R6) Ro] & Ha & Hs); [|done|done].
  cbn [fst snd] in *. cbn in R1, R2, R3, R4, R5, R6.
  apply (grows_put _ _ _ ws); try done. split; [done|]. split.
  - split; rewrite ?R1, ?R3, ?R4, ?R5, ?R6; try done.
    2: { rewrite W1, length_app. lia. }
    assert (Hf : is_byte (r_flags r)) by (destruct Hs as [? Hf|? ? Hf|? ? ? Hf|? Hf]; rewrite Hf; done).
    by destruct Hk as [->| ->].
  - destruct Hk as [->| ->]; [by apply says_const|by apply says_special].
Qed.

(** A record without a value, put after [b]'s. *)
Lemma grows_def b name kind flags a rb c d ct : good_name name -> is_byte kind -> is_byte flags -> is_byte c -> is_byte d ->
  0 <= a < 2 ^ 32 -> - 2 ^ 15 <= rb < 2 ^ 15 -> says (bwide b) (set_def (build_add b name) kind flags a rb c d) ct ->
  grows b (put_rec b (set_def (build_add b name) kind flags a rb c d)) [(name, ct)].
Proof.
  intros [Hn1 Hn2] Hk Hf Hc Hd Ha Hb Hs. apply (grows_put _ _ _ []); rewrite ?app_nil_r; try done.
  split; [done|]. split; [|done]. split; try done. cbn. lia.
Qed.

Lemma i16_small x : - 2 ^ 15 <= x < 2 ^ 15 -> i16 x = x.
Proof. intros H. unfold i16. rewrite Z.mod_small by lia. lia. Qed.
Lemma u8_small x : 0 <= x < 256 -> u8 x = x.
Proof. intros H. unfold u8. by rewrite Z.mod_small. Qed.

(** The packed offset and count of an array field. *)
Lemma offset_count offset count : 0 <= offset <= 65535 -> 0 <= count <= 65535 ->
  let a := Z.lor (u32 offset) (u32 (Z.shiftl (u32 count) 16)) in
  0 <= a < 2 ^ 32 /\ Z.land a 65535 = offset /\ Z.shiftr a 16 = count.
Proof.
  intros Ho Hc. cbv zeta. rewrite (u32_small offset), (u32_small count) by lia. rewrite u32_small by (rewrite shl16; lia).
  rewrite lor_add_shiftl by lia. change (2 ^ 16) with 65536. rewrite land_ffff, shr16.
  split; [lia|]. split; [rewrite Z.mod_add by lia; apply Z.mod_small; lia|]. rewrite Z.div_add by lia. rewrite Z.div_small by lia. lia.
Qed.

(** The type of a field that was accepted. *)
Lemma parse_field_type_ok type kind ctype elt count offset : 0 <= offset -> parse_field_type type = Ok (kind, ctype, elt, count) ->
  0 <= ctype <= CL_STUB_CT_MAX /\
  ((kind = CL_STUB_FIELD_PTR /\ elt = 0 /\ field_contents type offset = Embedded offset) \/
   (kind = CL_STUB_PEEK /\ elt = 0 /\ field_contents type offset = Scalar ctype offset) \/
   (kind = CL_STUB_PEEK_IDX /\ elt = stub_ct_size ctype /\ 0 <= count <= 65535 /\
    field_contents type offset = Array ctype offset count elt)).
Proof.
  intros Ho. unfold parse_field_type, field_contents, ctype_code.
  assert (Hct : forall kw j, cl_ffi_ctype_from_keyword kw = Some j -> 0 <= j <= CL_STUB_CT_MAX).
  { intros kw j Hj. apply keyword_index_bound in Hj. change (length stub_ct_names) with 10%nat in Hj. unfold CL_STUB_CT_MAX. lia. }
  destruct (kw_is (cl_car type) (lit "STRUCT")).
  - destruct (fixnum_val _); [|done]. destruct (_ <? 0); [done|]. intros [= <- <- <- <-]. split; [done|]. by left.
  - destruct (kw_is (cl_car type) (lit "ARRAY")).
    + destruct (cl_ffi_ctype_from_keyword _) as [ct|] eqn:E; [|done]. destruct (fixnum_val _) as [cnt|] eqn:En; [|done].
      destruct (_ || _) eqn:Eb; [done|]. intros [= <- <- <- <-]. split; [by eapply Hct|]. right; right.
      apply fixnum_val_Some in En as [_ ->]. cbn. repeat split; lia.
    + destruct (cl_ffi_ctype_from_keyword _) as [ct|] eqn:E; [|done]. intros [= <- <- <- <-]. split; [by eapply Hct|]. right; by left.
Qed.

Lemma grows_field b name type off b' : good_name name -> wf_obj off -> add_field b name type off = Ok b' ->
  grows b b' [(name, field_contents type (number off))].
Proof.
  intros Hn Hwf. unfold add_field. destruct (fixnum_val off) as [offset|] eqn:Eo; [|done].
  apply fixnum_val_Some in Eo as [-> ->]. cbn in Hwf. unfold fixnum_range, CL_FIXNUM_MIN, CL_FIXNUM_MAX in Hwf.
  destruct (offset <? 0) eqn:E0; [done|]. intros ([[[kind ctype] elt] count] & Hty & H)%bind_Ok.
  destruct (parse_field_type_ok _ _ _ _ _ offset ltac:(lia) Hty) as (Hct & Hcase). unfold CL_STUB_CT_MAX in Hct.
  destruct (_ && _) eqn:Ei in H; [done|]. injection H as <-. rewrite (u8_small ctype) by lia.
  destruct Hcase as [(-> & -> & ->)|[(-> & -> & ->)|(-> & -> & Hc & ->)]]; cbn [Z.eqb CL_STUB_FIELD_PTR CL_STUB_PEEK CL_STUB_PEEK_IDX Pos.eqb andb] in *.
  - rewrite u32_small by lia. apply grows_def; try done; unfold is_byte; try lia. by apply says_embedded.
  - rewrite u32_small by lia. apply grows_def; try done; unfold is_byte; try lia. apply says_scalar; try done; cbn; unfold CL_STUB_CT_MAX, CL_FIXNUM_MAX; lia.
  - destruct (offset_count offset count) as (A1 & A2 & A3); [lia|lia|]. set (a := Z.lor _ _) in *. clearbody a.
    replace (Array ctype offset count _) with (Array ctype (Z.land a 65535) (Z.shiftr a 16) (stub_ct_size ctype)) by by rewrite A2, A3.
    pose proof (stub_ct_size_in ctype) as Hs. rewrite i16_small by lia.
    apply grows_def; try done; unfold is_byte; try lia.
    apply (says_array _ (set_def (build_add b name) CL_BT_FIELD 0 a (stub_ct_size ctype) ctype (u8 3))); try done. cbn. unfold CL_STUB_CT_MAX. lia.
Qed.

(** ** Library calls *)

Definition reg_code (kw : obj) : Z := default 0 (reg_index_of kw).

Lemma list_length_checked_ok l n : list_length_checked l = n -> 0 <= n -> n = Z.of_nat (length (list_of l)).
Proof.
  revert n. induction l as [|a _ d IH|x|kw nm|cs|]; intros n H Hn; cbn in *; try (subst; done). 
  destruct (list_length_checked d <? 0) eqn:E; [lia|]. specialize (IH _ eq_refl). cbn [length]. lia.
Qed.

Lemma parse_regs_ok regs : forall i nibbles n, 0 <= i -> 0 <= nibbles < 16 ^ i -> i + Z.of_nat (length (list_of regs)) <= 7 ->
  parse_regs regs i nibbles = Ok n ->
  Forall (fun k => 0 <= k <= 12) (reg_code <$> list_of regs) /\ n = nibbles + 16 ^ i * valB 16 (reg_code <$> list_of regs).
Proof.
  induction regs as [|kw _ regs IH|x|kw nm|cs|]; intros i nibbles n Hi Hnib Hl H; cbn [parse_regs] in H;
    try (injection H as <-; cbn; split; [constructor|lia]).
  cbn [list_of length] in Hl. destruct (reg_index_of kw) as [ri|] eqn:E; [|done].
  assert (Hr : 0 <= ri <= 12) by (apply keyword_index_bound in E; change (length reg_names) with 13%nat in E; lia).
  assert (Hp : 2 ^ (4 * i) = 16 ^ i) by (rewrite Z.pow_mul_r by lia; done).
  assert (H6 : 16 ^ i <= 16 ^ 6) by (apply Z.pow_le_mono_r; lia). change (16 ^ 6) with 16777216 in H6.
  rewrite u32_small in H by (rewrite Z.shiftl_mul_pow2 by lia; nia). rewrite lor_add_shiftl, Hp in H by lia.
  apply IH in H as [HF Hn]; [|lia|rewrite Z.pow_add_r by lia; nia|lia].
  cbn [list_of fmap list_fmap valB]. unfold reg_code at 1 3. rewrite E. cbn [default]. split; [by constructor|].
  rewrite Hn, Z.pow_add_r by lia. change (16 ^ 1) with 16. cbn [from_option]. unfold id. lia.
Qed.

Lemma valB16_register l : forall x k r, Forall (fun k => 0 <= k <= 12) l -> l !! k = Some r ->
  register_of (valB 16 l + 16 ^ Z.of_nat (length l) * x) (Z.of_nat k) = r.
Proof.
  induction l as [|d l IH]; intros x k r HF Hk; [done|]. apply Forall_cons in HF as [Hd HF].
  cbn [valB length]. rewrite Nat2Z.inj_succ, Z.pow_succ_r by lia.
  replace (d + 16 * valB 16 l + 16 * 16 ^ Z.of_nat (length l) * x) with (d + (valB 16 l + 16 ^ Z.of_nat (length l) * x) * 16) by lia.
  set (y := valB 16 l + 16 ^ Z.of_nat (length l) * x). destruct k as [|k].
  - injection Hk as <-. unfold register_of. rewrite Z.mul_0_r, Z.shiftr_0_r. rewrite (land_mask _ 4) by lia.
    change (2 ^ 4) with 16. rewrite Z.mod_add by lia. apply Z.mod_small. lia.
  - rewrite <- (IH x k r HF Hk). unfold register_of. fold y. f_equal.
    rewrite !Z.shiftr_div_pow2 by lia. replace (4 * Z.of_nat (S k)) with (4 + 4 * Z.of_nat k) by lia.
    rewrite Z.pow_add_r, <- Z.div_div by lia. f_equal. change (2 ^ 4) with 16. rewrite Z.div_add by lia. rewrite Z.div_small by lia. lia.
Qed.

Lemma regspec regs res : (length regs <= 7)%nat -> Forall (fun k => 0 <= k <= 12) regs -> 0 <= res <= 8 ->
  let a := CL_AMIGA_MAKE_REGSPEC (valB 16 regs) res in
  0 <= a < 2 ^ 32 /\ CL_AMIGA_RES_KIND a = res /\ (forall k r, regs !! k = Some r -> register_of a (Z.of_nat k) = r).
Proof.
  intros Hl HF Hres. cbv zeta. unfold CL_AMIGA_MAKE_REGSPEC, CL_AMIGA_RES_KIND.
  assert (Hv : 0 <= valB 16 regs < 2 ^ 28).
  { assert (Hw : wfB 16 regs) by (eapply Forall_impl; [exact HF|]; cbn; lia).
    pose proof (valB_bound 16 ltac:(lia) regs Hw). assert (16 ^ Z.of_nat (length regs) <= 16 ^ 7) by (apply Z.pow_le_mono_r; lia). lia. }
  rewrite (land_mask _ 28) by lia. rewrite Z.mod_small by lia. rewrite (u32_small res), u32_small by (rewrite ?Z.shiftl_mul_pow2; lia).
  rewrite lor_add_shiftl by lia. split; [lia|]. split.
  - rewrite Z.shiftr_div_pow2, Z.div_add, Z.div_small by lia. rewrite (land_mask _ 4) by lia. apply Z.mod_small. lia.
  - intros k r Hk. replace (res * 2 ^ 28) with (16 ^ Z.of_nat (length regs) * (16 ^ (7 - Z.of_nat (length regs)) * res)).
    + by apply valB16_register.
    + rewrite Z.mul_assoc, <- Z.pow_add_r by lia. replace (_ + _) with 7 by lia. lia.
Qed.

(** Options. *)
Lemma parse_options_ok opt : forall flags minver f m, 0 <= minver <= 255 -> parse_options opt flags minver = Ok (f, m) ->
  f = Z.lor flags (option_flags (list_of opt)) /\ m = default minver (last (omap fixnum_val (list_of opt))) /\ 0 <= m <= 255.
Proof.
  unfold option_flags. induction opt as [|o _ opt IH|x|kw nm|cs|]; intros flags minver f m Hm H; cbn [parse_options] in H;
    try (injection H as <- <-; cbn; rewrite !Z.lor_0_r; done).
  cbn [list_of existsb omap list_omap]. destruct (kw_is o (lit "NOT-MORPHOS")) eqn:E1; [|destruct (kw_is o (lit "MORPHOS")) eqn:E2].
  - assert (kw_is o (lit "MORPHOS") = false) as ->.
    { destruct o as [| | |[] nm| |]; try done. cbn in *. apply bool_decide_eq_true in E1. apply bool_decide_eq_false. by rewrite E1. }
    assert (fixnum_val o = None) as -> by by destruct o.
    apply IH in H as (-> & -> & Hb); [|done]. split; [|by split]. rewrite <- Z.lor_assoc. f_equal. cbn [orb].
    by destruct (existsb _ (list_of opt)), (existsb _ (list_of opt)).
  - assert (fixnum_val o = None) as -> by by destruct o.
    apply IH in H as (-> & -> & Hb); [|done]. split; [|by split]. rewrite <- Z.lor_assoc. f_equal. cbn [orb].
    by destruct (existsb _ (list_of opt)), (existsb _ (list_of opt)).
  - destruct (fixnum_val o) as [v|]; [|done]. destruct ((v >? 0) && (v <=? 255)) eqn:Ev; [|done].
    apply IH in H as (-> & -> & Hb); [|lia]. split; [done|]. split; [|done]. rewrite last_cons. by destruct (last _).
Qed.

Lemma option_flags_range l : 0 <= option_flags l <= 3.
Proof. unfold option_flags. by destruct (existsb _ l), (existsb _ l). Qed.

Lemma checked_cons l k : 0 < k -> k <= list_length_checked l -> exists a d, l = Cons a d /\ k - 1 <= list_length_checked d.
Proof.
  intros Hk H. destruct l as [|a d| | | |]; cbn in H; try lia. exists a, d. split; [done|].
  destruct (list_length_checked d <? 0) eqn:E; lia.
Qed.

Lemma checked_zero l : list_length_checked l = 0 -> l = NIL.
Proof. destruct l as [|a d| | | |]; cbn; try done. destruct (_ <? 0) eqn:E; lia. Qed.

Lemma grows_flag b b' f s : grows b b' s ->
  grows b {| recs := recs b'; bnames_len := bnames_len b'; bwide := bwide b'; has_libcall := f |} s.
Proof. by intros [H1 H2]; split. Qed.

Lemma grows_fn b name rest b' : good_name name -> parse_fn b name rest = Ok b' ->
  exists lvo regs res opts, rest = Cons lvo (Cons regs (Cons res opts)) /\
    grows b b' [(name, LibCall (number lvo) (reg_code <$> list_of regs) (default 0 (cl_ffi_res_kind_from_keyword res))
                         (option_flags (list_of opts)) (option_version (list_of opts)))].
Proof.
  intros Hn. unfold parse_fn. destruct (list_length_checked rest <? 3) eqn:E3; [done|].
  destruct (checked_cons rest 3) as (lvo & r1 & -> & H1); [lia..|]. destruct (checked_cons r1 (3 - 1)) as (regs & r2 & -> & H2); [lia..|].
  destruct (checked_cons r2 (3 - 1 - 1)) as (res & opts & -> & _); [lia..|]. cbn [cl_car cl_cdr].
  destruct (fixnum_val lvo) as [l|] eqn:El; [|done]. apply fixnum_val_Some in El as [_ El].
  destruct (_ || _) eqn:Eb; [done|]. destruct ((_ <? 0) || _) eqn:Er; [done|].
  intros (nibbles & Hregs & H)%bind_Ok. destruct (cl_ffi_res_kind_from_keyword res) as [k|] eqn:Ek; [|done].
  apply bind_Ok in H as ([flags minver] & Hopt & H). destruct (_ && _) eqn:Ef in H; [done|]. apply Ok_inj in H as <-.
  exists lvo, regs, res, opts. split; [done|]. rewrite Ek, El. cbn [default].
  pose proof (list_length_checked_ok regs _ eq_refl ltac:(lia)) as Hlen. rewrite Hlen in *.
  apply parse_regs_ok in Hregs as [HF ->]; [|lia|lia|lia]. rewrite Z.add_0_l, Z.pow_0_r, Z.mul_1_l.
  apply parse_options_ok in Hopt as (Hflags & Hver & Hm); [|done]. rewrite Z.lor_0_l in Hflags. subst flags.
  fold (option_version (list_of opts)) in Hver. rewrite <- Hver.
  assert (Hk : 0 <= k <= 8) by (apply keyword_index_bound in Ek; change (length stub_res_names) with 9%nat in Ek; lia).
  destruct (regspec (reg_code <$> list_of regs) k) as (A1 & A2 & A3); [rewrite length_fmap; lia|done|lia|].
  set (a := CL_AMIGA_MAKE_REGSPEC _ k) in *. cbn [from_option]. unfold id. rewrite <- A2.
  rewrite i16_small, !u8_small by lia. apply grows_flag.
  assert (Hfl : 0 <= option_flags (list_of opts) <= 2).
  { pose proof (option_flags_range (list_of opts)). destruct (Z.eq_dec (option_flags (list_of opts)) 3) as [E|]; [|lia]. by rewrite E in Ef. }
  apply grows_def; try done; unfold is_byte; try lia.
  apply (says_call _ (set_def (build_add b name) CL_BT_LIBCALL (option_flags (list_of opts)) a l _ minver)); try done; cbn; try lia.
  - by rewrite length_fmap.
  - rewrite length_fmap. lia.
  - rewrite A2. unfold CL_AMIGA_RES_KIND_MAX. lia.
Qed.

Definition struct_field (name : list Z) (f : obj) : list Z * contents :=
  (name ++ [45] ++ designator (cl_car f), field_contents (cl_car (cl_cdr f)) (number (cl_car (cl_cdr (cl_cdr f))))).

Lemma wf_obj_car o : wf_obj o -> wf_obj (cl_car o) /\ wf_obj (cl_cdr o).
Proof. by destruct o. Qed.

Lemma good_name_app a x c : good_name a -> good_name c -> 0 <= x < 128 -> Z.of_nat (length a) + 1 + Z.of_nat (length c) <= 255 ->
  good_name (a ++ [x] ++ c).
Proof.
  intros [Ha1 Ha2] [Hc1 Hc2] Hx Hl. split; [rewrite !length_app; cbn; lia|]. apply Forall_app. split; [done|].
  by apply Forall_cons.
Qed.

Lemma grows_fields name fields : forall b b', good_name name -> wf_obj fields -> add_fields b name fields = Ok b' ->
  grows b b' (struct_field name <$> list_of fields).
Proof.
  induction fields as [|f _ fields IH|x|kw nm|cs|]; intros b b' Hn Hwf H; cbn [add_fields] in H; try done.
  { injection H as <-. apply grows_nil. }
  destruct (negb _); [done|]. apply bind_Ok in H as (fname & Hf & H). apply parse_name_ok in Hf as [Hf Hd].
  destruct (_ >? 255) eqn:El; [done|]. apply bind_Ok in H as (b1 & H1 & H2). destruct Hwf as [Hw1 Hw2].
  cbn [list_of fmap list_fmap]. change (struct_field name f :: ?l) with ([struct_field name f] ++ l).
  eapply grows_trans; [|by apply IH]. unfold struct_field. rewrite Hd.
  apply grows_field; [by apply good_name_app; lia || done| |done].
  do 2 (apply wf_obj_car in Hw1 as [_ Hw1]). by apply wf_obj_car in Hw1 as [? _].
Qed.

Lemma grows_struct b name rest b' : good_name name -> wf_obj rest -> parse_struct b name rest = Ok b' ->
  exists size fields, rest = Cons size fields /\
    grows b b' ((size_name name, Special size) :: (struct_field name <$> list_of fields)).
Proof.
  intros Hn Hwf. unfold parse_struct. destruct (list_length_checked rest <? 1) eqn:E1; [done|].
  destruct (checked_cons rest 1) as (size & fields & -> & _); [lia..|]. cbn [cl_car cl_cdr].
  destruct (fixnum_val size) as [v|]; [|done]. destruct (v <? 0); [done|]. destruct (_ >? 255) eqn:El; [done|].
  intros (b1 & H1 & H2)%bind_Ok. exists size, fields. split; [done|]. destruct Hwf as [Hw1 Hw2].
  change (?x :: ?l) with ([x] ++ l). eapply grows_trans; [|by apply grows_fields].
  apply (grows_value b CL_BT_VAR); [by right| |done|done]. destruct Hn as [Hn1 Hn2]. unfold size_name.
  split; [rewrite !length_app; cbn; lia|]. apply Forall_cons. split; [lia|]. apply Forall_app. split; [done|].
  repeat constructor; lia.
Qed.

Lemma grows_row b row b' : wf_obj row -> parse_row b row = Ok b' -> grows b b' (row_specs row).
Proof.
  intros Hwf. unfold parse_row. destruct (list_length_checked row <? 2) eqn:E; [done|].
  destruct (checked_cons row 2) as (kind & r1 & -> & H1); [lia..|]. destruct (checked_cons r1 (2 - 1)) as (nm & rest & -> & H2); [lia..|].
  cbn [cl_car cl_cdr]. intros (name & Hname & H)%bind_Ok. apply parse_name_ok in Hname as [Hn Hd]. destruct Hwf as (_ & _ & Hwf).
  unfold row_specs. cbn [list_of cl_cdr]. rewrite Hd.
  destruct (kw_is kind (lit "CONST")) eqn:Ec; cbn [orb] in H; [|destruct (kw_is kind (lit "VAR")) eqn:Ev; cbn [orb] in H].
  - destruct (negb _) in H; [done|]. apply (grows_value b CL_BT_CONST); [by left|done|by apply wf_obj_car|done].
  - destruct (negb _) in H; [done|]. apply (grows_value b CL_BT_VAR); [by right|done|by apply wf_obj_car|done].
  - destruct (kw_is kind (lit "FN")); [|destruct (kw_is kind (lit "FIELD"))].
    + apply grows_fn in H as (lvo & regs & res & opts & -> & H); [|done]. exact H.
    + destruct (negb _) eqn:En in H; [done|]. apply negb_false_iff, Z.eqb_eq in En.
      destruct (checked_cons rest 2) as (ty & r2 & -> & H3); [lia..|]. destruct (checked_cons r2 (2 - 1)) as (off & r3 & -> & H4); [lia..|].
      assert (r3 = NIL) as ->.
      { apply checked_zero. cbn in En. destruct (list_length_checked r3 <? 0) eqn:E3; [lia|]. destruct (_ <? 0) eqn:E4 in En; lia. }
      apply grows_field; [done|by destruct Hwf as (_ & ? & _)|done].
    + destruct (kw_is kind (lit "STRUCT")).
      * apply grows_struct in H as (size & fields & -> & H); [|done..]. exact H.
      * destruct (kw_is kind (lit "NAME")); [|done]. destruct rest; try done. injection H as <-.
        apply grows_def; try done; try lia. by apply says_name.
Qed.

Lemma grows_rows rows : forall b b', wf_obj rows -> parse_rows b rows = Ok b' -> grows b b' (specs rows).
Proof.
  unfold specs. induction rows as [|row _ rows IH|x|kw nm|cs|]; intros b b' Hwf H; cbn in H; try (injection H as <-; apply grows_nil).
  apply bind_Ok in H as (b1 & H1 & H2). destruct Hwf as [Hw1 Hw2]. cbn [list_of fmap list_fmap concat].
  eapply grows_trans; [by apply grows_row|by apply IH].
Qed.
