(* ===== verification/BindTable.v ===== *)
(** * Binding tables: the packed table

    Rows, records and blob together: what cl_bindtab_pack returns is a valid
    table whose entries are the definitions of the rows, stably sorted by name,
    and probing it is a search through the rows in their order. *)

From Stdlib Require Import ZArith Lia ZifyBool String.
From stdpp Require Import base option list sorting.
From S2P Require Import Prelude Limbs Bignum BindBlob BindPack BindValue BindRows.
Local Open Scope Z_scope.
Local Open Scope amilisp_scope.

(** ** The order of the records *)

Lemma rec_le_iff a b : rec_le a b <->
  name_cmp (r_name a) (r_name b) < 0 \/ (name_cmp (r_name a) (r_name b) = 0 /\ r_order a <= r_order b).
Proof.
  unfold rec_le, rec_cmp. destruct (name_cmp _ _ =? 0) eqn:E; cbn [negb]; [|lia].
  destruct (r_order a <? r_order b) eqn:E1; [lia|]. destruct (r_order a >? r_order b) eqn:E2; lia.
Qed.

#[export] Instance rec_le_total : Total rec_le.
Proof.
  intros a b. rewrite !rec_le_iff. destruct (Z.lt_trichotomy (name_cmp (r_name a) (r_name b)) 0) as [H|[H|H]]; [by do 2 left| |].
  - apply name_cmp_eq in H. rewrite H, name_cmp_refl. lia.
  - right; left. by apply name_cmp_flip.
Qed.

#[export] Instance rec_le_trans : Transitive rec_le.
Proof.
  intros a b c. rewrite !rec_le_iff. intros [H1|[H1 O1]] [H2|[H2 O2]].
  - left. eapply name_cmp_lt_le_trans; [done|lia].
  - left. eapply name_cmp_lt_le_trans; [done|lia].
  - left. apply name_cmp_eq in H1. by rewrite H1.
  - right. apply name_cmp_eq in H1. rewrite H1. lia.
Qed.

Lemma has_duplicate_false l i p q : has_duplicate l = false -> l !! i = Some p -> l !! S i = Some q ->
  name_cmp (r_name p) (r_name q) = 0 -> r_kind p = CL_BT_LIBCALL /\ r_kind q = CL_BT_LIBCALL.
Proof.
  revert i. induction l as [|x [|y l] IH]; intros i H Hp Hq Hc; [done| |].
  { done. }
  cbn [has_duplicate] in H. apply orb_false_iff in H as [H1 H2]. destruct i as [|i]; [|by apply (IH i)].
  injection Hp as ->. injection Hq as ->. lia.
Qed.

Lemma sorted_lookup {A} (R : A -> A -> Prop) l i j x y :
  StronglySorted R l -> l !! i = Some x -> l !! j = Some y -> (i < j)%nat -> R x y.
Proof.
  intros Hs Hi Hj Hij. rewrite <- (take_drop_middle l i x Hi) in Hs. apply StronglySorted_app_1_r, StronglySorted_inv in Hs as [_ Hs].
  rewrite Forall_forall in Hs. apply Hs. apply (list_elem_of_lookup_2 _ (j - S i)). rewrite lookup_drop. by replace (S i + (j - S i))%nat with j by lia.
Qed.

Lemma arena_length l l' : l ≡ₚ l' -> length (concat (r_name <$> l)) = length (concat (r_name <$> l')).
Proof. induction 1; cbn; rewrite ?length_app; lia. Qed.

(** ** A packed blob *)

(** The blob's size and count fit their fields. *)
Definition fits (rows : obj) (blob : list Z) : Prop :=
  Z.of_nat (length blob) < 2 ^ 32 /\ Z.of_nat (length (specs rows)) <= 16777215.

(** What the packer went through. *)
Record packed (rows : obj) (blob : list Z) (b : BtBuild) (l : list BtRec) : Prop := {
  pk_blob : blob = blob_bytes b l;
  pk_perm : l ≡ₚ recs b;
  pk_sorted : StronglySorted rec_le l;
  pk_unique : has_duplicate l = false;
  pk_recs : Forall2 (fulfils (bwide b)) (recs b) (specs rows);
  pk_order : forall i r, recs b !! i = Some r -> r_order r = Z.of_nat i;
  pk_names : bnames_len b = Z.of_nat (length (concat (r_name <$> l)));
  pk_wide : Forall is_byte (bwide b) }.

Lemma pack_packed rows blob : wf_obj rows -> cl_bindtab_pack rows = Ok blob -> exists b l, packed rows blob b l.
Proof.
  intros Hwf. unfold cl_bindtab_pack. destruct (_ <? 0); [done|]. intros (b & Hb & H)%bind_Ok.
  destruct (has_duplicate _) eqn:Ed in H; [done|]. apply Ok_inj in H as <-.
  apply grows_rows in Hb as [(new & R & F & O & L) (ws & W & B)]; [|done]. cbn in R, O, L, W. subst.
  exists b, (qsort (recs b)). assert (Hp : qsort (recs b) ≡ₚ recs b) by apply merge_sort_Permutation. split; try done.
  - apply StronglySorted_merge_sort; apply _.
  - by rewrite L, (arena_length _ _ Hp).
Qed.

Section Packed.
Context {rows : obj} {blob : list Z} {b : BtBuild} {l : list BtRec}.
Context (Hpk : packed rows blob b l) (Hfits : fits rows blob).
Abbreviation v := (view_blob blob).

Lemma packed_length : length l = length (specs rows).
Proof. rewrite (pk_perm _ _ _ _ Hpk). eapply Forall2_length, Hpk. Qed.

Lemma packed_bytes : Forall (rec_bytes (bwide b)) l.
Proof.
  rewrite (pk_perm _ _ _ _ Hpk). apply Forall_lookup. intros i r Hi.
  destruct (Forall2_lookup_l _ _ _ _ _ (pk_recs _ _ _ _ Hpk) Hi) as (s & _ & _ & Hr & _). done.
Qed.

Lemma packed_view : v =
  {| base := blob; vlen := Z.of_nat (length blob); vn := Z.of_nat (length l);
     names_len := bnames_len b + Z.of_nat (length (bwide b)); entries := 16; names := 16 + 16 * Z.of_nat (length l) |}.
Proof.
  destruct Hfits as [H1 H2]. rewrite <- packed_length in H2. pose proof packed_bytes. destruct Hpk. subst blob. by apply blob_view.
Qed.

(** Entry [i] is made of record [i]. *)
Lemma packed_made i r : l !! i = Some r -> made_of (bnames_len b) (bwide b) v (decode_entry v (Z.of_nat i)) r.
Proof.
  intros Hi. pose proof packed_view as Hv. pose proof packed_bytes as Hb. destruct Hfits as [H1 H2]. rewrite <- packed_length in H2.
  pose proof (list_elem_of_split_length _ _ _ Hi) as (l1 & l2 & El & Ei).
  assert (He : decode_entry v (Z.of_nat i) = entry_of b (Z.of_nat (length (concat (r_name <$> l1)))) r).
  { destruct Hpk. subst blob i. by apply (blob_entry b l) with (l2 := l2). }
  assert (Hat : at_pos blob (16 + 16 * Z.of_nat (length l)) (concat (r_name <$> l) ++ bwide b)).
  { destruct Hpk. subst blob. destruct (blob_header b l) as (_ & _ & _ & _ & H); try done. apply at_app in H as [_ H].
    rewrite entries_bytes_length in H. by replace (16 + 16 * Z.of_nat (length l)) with (16 + Z.of_nat (16 * length l)) by lia. }
  rewrite He. pose proof Hat as Hat'. apply at_app in Hat' as [_ Hw]. rewrite <- (pk_names _ _ _ _ Hpk) in Hw.
  assert (Hlen : Z.of_nat (length (concat (r_name <$> l1))) + Z.of_nat (length (r_name r)) <= bnames_len b).
  { rewrite (pk_names _ _ _ _ Hpk), El, fmap_app, concat_app. cbn. rewrite !length_app. lia. }
  split; try done.
  - rewrite Hv. cbn [base names names_len]. split; [done|]. lia.
  - rewrite Hv. unfold entry_name. cbn [base names name_off name_len entry_of]. split; [|split; [done|lia]].
    rewrite El, fmap_app, concat_app, <- app_assoc in Hat. apply at_app in Hat as [_ Hat]. cbn in Hat. rewrite <- !app_assoc in Hat.
    apply at_app in Hat as [Hat _]. rewrite <- El in Hat. by apply at_slice.
Qed.

(** The definition at position [j] of the rows that record [r] holds. *)
Lemma packed_spec r : r ∈ l -> exists j s, r_order r = Z.of_nat j /\ specs rows !! j = Some s /\ fulfils (bwide b) r s.
Proof.
  rewrite (pk_perm _ _ _ _ Hpk). intros [j Hj]%list_elem_of_lookup_1.
  destruct (Forall2_lookup_l _ _ _ _ _ (pk_recs _ _ _ _ Hpk) Hj) as (s & Hs & Hf). exists j, s.
  split; [by apply (pk_order _ _ _ _ Hpk)|done].
Qed.

Lemma packed_valid : valid_table blob.
Proof.
  pose proof packed_view as Hv. destruct Hfits as [H1 H2]. rewrite <- packed_length in H2. pose proof packed_bytes as Hb.
  assert (Hrec : forall i, 0 <= i < Z.of_nat (length l) -> exists r, l !! Z.to_nat i = Some r /\
    made_of (bnames_len b) (bwide b) v (decode_entry v i) r).
  { intros i Hi. destruct (lookup_lt_is_Some_2 l (Z.to_nat i)) as [r Hr]; [lia|]. exists r. split; [done|].
    rewrite <- (Z2Nat.id i) by lia. by apply packed_made. }
  split.
  - destruct Hpk. subst blob. by apply blob_is_bytes.
  - destruct Hpk. subst blob. by destruct (blob_header b l) as (? & ? & _).
  - rewrite Hv. cbn [vn]. lia.
  - rewrite Hv. cbn [vn names_len]. destruct Hpk. subst blob. rewrite (blob_length b l) by done.
    unfold CL_BT_HEADER_SIZE, CL_BT_ENTRY_SIZE. lia.
  - intros i Hi. rewrite Hv in Hi. cbn [vn] in Hi. destruct (Hrec i Hi) as (r & Hr & Hm).
    destruct (packed_spec r) as (j & s & _ & _ & _ & Hrb & Hs); [by eapply list_elem_of_lookup_2|]. by eapply says_valid.
  - intros i Hi0 Hi. rewrite Hv in Hi. cbn [vn] in Hi. destruct (Hrec i) as (p & Hp & Mp); [lia|]. destruct (Hrec (i + 1)) as (q & Hq & Mq); [lia|].
    unfold validate_order, both_libcalls. destruct (mo_name _ _ _ _ _ Mp) as [-> _]. destruct (mo_name _ _ _ _ _ Mq) as [-> _].
    destruct (mo_kind _ _ _ _ _ Mp) as [-> _]. destruct (mo_kind _ _ _ _ _ Mq) as [-> _].
    rewrite Z2Nat.inj_add, Nat.add_1_r in Hq by lia.
    assert (Hle : rec_le p q) by (eapply sorted_lookup; [apply (pk_sorted _ _ _ _ Hpk)|exact Hp|exact Hq|lia]).
    apply rec_le_iff in Hle. replace (_ >? 0) with false by lia. destruct (_ =? 0) eqn:E; [|done].
    destruct (has_duplicate_false l (Z.to_nat i) p q (pk_unique _ _ _ _ Hpk) Hp Hq) as [-> ->]; [lia|done].
Qed.

(** Where each entry comes from. *)
Definition sources : list nat := (fun r => Z.to_nat (r_order r)) <$> l.

Lemma packed_table : Forall2 (fun j x => specs rows !! j = Some x) sources (table_of blob).
Proof.
  pose proof packed_view as Hv. unfold table_of, sources. rewrite Hv at 2. cbn [vn]. rewrite Nat2Z.id.
  apply Forall2_lookup. intros i. rewrite !list_lookup_fmap. destruct (l !! i) as [r|] eqn:E.
  - rewrite lookup_seq_lt by by eapply lookup_lt_Some. cbn. constructor. pose proof (packed_made i r E) as Hm.
    destruct (packed_spec r) as (j & [nm ct] & Ho & Hs & Hn & _ & Hc); [by eapply list_elem_of_lookup_2|].
    rewrite Ho, Nat2Z.id, Hs. unfold named_entry. destruct (mo_name _ _ _ _ _ Hm) as [-> _].
    rewrite (says_contents _ _ _ _ _ _ Hm Hc). cbn in Hn. by rewrite Hn.
  - rewrite lookup_seq_ge by by apply lookup_ge_None. constructor.
Qed.

Lemma sources_perm : sources ≡ₚ seq 0 (length (specs rows)).
Proof.
  unfold sources. rewrite (pk_perm _ _ _ _ Hpk). rewrite <- (Forall2_length _ _ _ (pk_recs _ _ _ _ Hpk)).
  assert (E : (fun r => Z.to_nat (r_order r)) <$> recs b = seq 0 (length (recs b))); [|by rewrite E].
  apply list_eq. intros i. rewrite list_lookup_fmap. destruct (recs b !! i) as [r|] eqn:E.
  - rewrite lookup_seq_lt by by eapply lookup_lt_Some. cbn. by rewrite (pk_order _ _ _ _ Hpk i r E), Nat2Z.id.
  - by rewrite lookup_seq_ge by by apply lookup_ge_None.
Qed.

End Packed.

(** ** The table of a packed blob *)

(** Position [j] of the definitions goes before position [k]: by name, and in
    the order of the rows under one name. *)
Definition source_le (sp : list (list Z * contents)) (j k : nat) : Prop :=
  exists x y, sp !! j = Some x /\ sp !! k = Some y /\
    (name_cmp (fst x) (fst y) < 0 \/ (name_cmp (fst x) (fst y) = 0 /\ (j <= k)%nat)).

(** [t] is [sp], stably sorted by name. *)
Definition stably_sorted (sp t : list (list Z * contents)) : Prop :=
  exists p, p ≡ₚ seq 0 (length sp) /\ StronglySorted (source_le sp) p /\ Forall2 (fun j x => sp !! j = Some x) p t.

Lemma StronglySorted_fmap_in {A B} (f : A -> B) (R : A -> A -> Prop) (S : B -> B -> Prop) l :
  (forall x y, x ∈ l -> y ∈ l -> R x y -> S (f x) (f y)) -> StronglySorted R l -> StronglySorted S (f <$> l).
Proof.
  induction l as [|a l IH]; intros Hf H; [constructor|]. apply StronglySorted_inv in H as [H1 H2]. cbn. constructor.
  - apply IH; [|done]. intros x y Hx Hy. apply Hf; by right.
  - apply Forall_fmap. apply Forall_forall. intros y Hy. rewrite Forall_forall in H2. cbn. apply Hf; [by left|by right|by apply H2].
Qed.

Lemma packed_sorted rows blob b l : packed rows blob b l -> fits rows blob -> stably_sorted (specs rows) (table_of blob).
Proof.
  intros Hpk Hfits. exists (@sources l). split; [by eapply sources_perm|]. split; [|by eapply packed_table].
  apply (StronglySorted_fmap_in _ rec_le); [|apply Hpk]. intros x y Hx Hy Hle%rec_le_iff.
  destruct (packed_spec Hpk x Hx) as (j & s & Ho & Hs & Hn & _). destruct (packed_spec Hpk y Hy) as (k & s' & Ho' & Hs' & Hn' & _).
  exists s, s'. rewrite Ho, Ho', !Nat2Z.id, <- Hn, <- Hn'. split; [done|]. split; [done|]. lia.
Qed.

(** ** A search through the rows *)

(** Whether a definition is in force: the platform and the library's version. *)
Definition available (g : Guards) (c : contents) : bool :=
  match c with
  | LibCall _ _ _ flags minver =>
      negb (flag flags CL_BT_F_NOT_MORPHOS && morphos_feature_p g) && negb (flag flags CL_BT_F_MORPHOS && negb (morphos_feature_p g)) &&
      ((minver =? 0) || match version_value g with Some val => minver <=? val | None => false end)
  | _ => true
  end.

(** The first definition of [name] that is in force: None when nothing has the
    name, Some None when nothing that has it is in force. *)
Definition lookup_rows (g : Guards) (sp : list (list Z * contents)) (name : list Z) : option (option contents) :=
  if decide (name ∈ sp.*1) then
    Some (snd <$> (snd <$> list_find (fun s => fst s = name /\ available g (snd s) = true) sp))
  else None.

(** What a probe of the blob comes to. *)
Definition probe_contents (g : Guards) (blob name : list Z) : option (option contents) :=
  let v := view_blob blob in
  (fun h => (fun i => entry_contents v (decode_entry v i)) <$> def_idx h) <$> probe_blob g blob name false.

Section Stable.
Context {sp t : list (list Z * contents)} (Hst : stably_sorted sp t).

Lemma stable_mem x : x ∈ t <-> x ∈ sp.
Proof.
  destruct Hst as (p & Hp & _ & Hf). split.
  - intros [i Hi]%list_elem_of_lookup_1. destruct (Forall2_lookup_r _ _ _ _ _ Hf Hi) as (j & _ & Hj). by eapply list_elem_of_lookup_2.
  - intros [j Hj]%list_elem_of_lookup_1. assert (Hin : j ∈ p) by (rewrite Hp; apply elem_of_seq; apply lookup_lt_Some in Hj; lia).
    apply list_elem_of_lookup_1 in Hin as [i Hi]. destruct (Forall2_lookup_l _ _ _ _ _ Hf Hi) as (y & Hy & E). rewrite Hj in E.
    injection E as ->. by eapply list_elem_of_lookup_2.
Qed.

(** Under one name the first match is the same in both orders. *)
Lemma stable_find (P : list Z * contents -> Prop) `{forall x, Decision (P x)} name : (forall x, P x -> fst x = name) ->
  snd <$> list_find P t = snd <$> list_find P sp.
Proof.
  intros HP. destruct (list_find P sp) as [[j x]|] eqn:E; cbn.
  - apply list_find_Some in E as (Hj & Hx & Hfirst). destruct Hst as (p & Hp & Hs & Hf).
    assert (Hin : j ∈ p) by (rewrite Hp; apply elem_of_seq; apply lookup_lt_Some in Hj; lia).
    apply list_elem_of_lookup_1 in Hin as [i Hi]. destruct (Forall2_lookup_l _ _ _ _ _ Hf Hi) as (y & Hy & Ey). rewrite Hj in Ey.
    injection Ey as <-. assert (E : list_find P t = Some (i, x)); [|by rewrite E].
    apply list_find_Some. split; [done|]. split; [done|]. intros k z Hk Hki Hz.
    destruct (Forall2_lookup_r _ _ _ _ _ Hf Hk) as (j' & Hj' & Ez).
    destruct (sorted_lookup _ _ _ _ _ _ Hs Hj' Hi Hki) as (z' & x' & Ez' & Ex' & Hle).
    rewrite Ez in Ez'. injection Ez' as <-. rewrite Hj in Ex'. injection Ex' as <-. rewrite (HP _ Hx), (HP _ Hz), name_cmp_refl in Hle.
    destruct (decide (j' = j)) as [->|].
    + assert (i = k); [|lia]. assert (Hnd : NoDup p) by (rewrite Hp; apply NoDup_seq). by apply (NoDup_lookup p i k j).
    + by apply (Hfirst j' z Ez); [lia|].
  - assert (E1 : list_find P t = None); [|by rewrite E1]. apply list_find_None in E. apply list_find_None.
    rewrite Forall_forall in E |- *. intros x Hx. apply E. by apply stable_mem.
Qed.

Lemma stable_lookup g name : lookup_rows g t name = lookup_rows g sp name.
Proof.
  unfold lookup_rows. assert (Hm : name ∈ t.*1 <-> name ∈ sp.*1).
  { rewrite !list_elem_of_fmap. split; intros (x & Hx & Hin); exists x; (split; [done|]); by apply stable_mem. }
  destruct (decide (name ∈ t.*1)) as [H1|H1], (decide (name ∈ sp.*1)) as [H2|H2]; try tauto.
  pose proof (stable_find (fun s => fst s = name /\ available g (snd s) = true) name) as Hf.
  do 2 f_equal. apply Hf. by intros x [].
Qed.

End Stable.

Lemma table_lookup data k x : table_of data !! k = Some x <->
  Z.of_nat k < vn (view_blob data) /\ x = named_entry (view_blob data) k.
Proof.
  unfold table_of. rewrite list_lookup_fmap. destruct (decide (Z.of_nat k < vn (view_blob data))) as [H|H].
  - rewrite lookup_seq_lt by lia. cbn. split; [by intros [= <-]|by intros [_ ->]].
  - rewrite lookup_seq_ge by lia. split; [done|]. by intros [].
Qed.

Lemma table_names data name : valid_table data ->
  name ∈ (table_of data).*1 <-> entry_name_is (view_blob data) (lower_bound (view_blob data) name) name = true.
Proof.
  intros Hv. rewrite list_elem_of_fmap. split.
  - intros ([nm ct] & Hn & [k [Hk Hx]%table_lookup]%list_elem_of_lookup_1). cbn in Hn. subst nm. injection Hx as Hx _.
    destruct (valid_names _ Hv) as (Hn & _). destruct (lower_bound_spec _ (valid_sorted _ Hv) name Hn) as (Hr & Hlow & Hup).
    apply entry_name_is_iff. set (lb := lower_bound (view_blob data) name) in *.
    destruct (Z.lt_ge_cases (Z.of_nat k) lb) as [Hlt|Hge].
    { by destruct (Hlow (Z.of_nat k)); [lia|]. }
    split; [lia|]. apply (variants_adjacent _ (valid_sorted _ Hv) name lb (Z.of_nat k)); done || lia.
  - intros H%(lower_bound_is_first _ Hv). destruct H as (Hk & En & _). set (lb := lower_bound (view_blob data) name) in *.
    exists (named_entry (view_blob data) (Z.to_nat lb)). split; [cbn; by rewrite Z2Nat.id by lia|].
    apply (list_elem_of_lookup_2 _ (Z.to_nat lb)), table_lookup. split; [lia|done].
Qed.

(** On a valid table whose guards are those of its definitions, a probe is a
    search through the table. *)
Lemma probe_table g data name : valid_table data ->
  (forall i, 0 <= i < vn (view_blob data) -> let e := decode_entry (view_blob data) i in
     guard_ok g e = available g (entry_contents (view_blob data) e)) ->
  probe_contents g data name = lookup_rows g (table_of data) name.
Proof.
  intros Hv Hg. pose proof (table_names data name Hv) as Hin. unfold probe_contents, probe_blob, lookup_rows.
  set (v := view_blob data) in *. set (i := lower_bound v name) in *. cbn [andb]. cbv zeta in Hg.
  destruct (entry_name_is v i name) eqn:E; [|rewrite decide_False; [done|]; by intros H%Hin].
  rewrite decide_True by by apply Hin. cbn. f_equal.
  pose proof (first_variant_in_force _ Hv g name E) as Hf. fold v i in Hf. set (d := first_variant _ _ _ _ _) in *. clearbody d.
  destruct d as [k|]; cbn [in_force] in Hf; cbn [fmap option_fmap option_map def_idx].
  - destruct Hf as (Hk & En & Hgk & Hfirst). fold v in Hk, En, Hgk, Hfirst.
    assert (Ef : list_find (fun s => fst s = name /\ available g (snd s) = true) (table_of data) = Some (Z.to_nat k, named_entry v (Z.to_nat k))).
    { apply list_find_Some. split; [apply table_lookup; fold v; split; [lia|done]|]. cbn. rewrite Z2Nat.id by lia. split.
      - split; [done|]. rewrite <- Hg by lia. done.
      - intros j y [Hj ->]%table_lookup Hjk [H1 H2]. fold v in Hj. cbn in H1, H2. rewrite <- Hg in H2 by lia.
        rewrite (Hfirst (Z.of_nat j)) in H2; [done|lia|done]. }
    rewrite Ef. cbn. by rewrite Z2Nat.id by lia.
  - assert (Ef : list_find (fun s => fst s = name /\ available g (snd s) = true) (table_of data) = None); [|by rewrite Ef].
    fold v in Hf. apply list_find_None, Forall_lookup. intros j y [Hj ->]%table_lookup [H1 H2]. fold v in Hj. cbn in H1, H2.
    rewrite <- Hg in H2 by lia. rewrite (Hf (Z.of_nat j)) in H2; [done|lia|done].
Qed.

(** The guards of a packed table. *)
Lemma guard_available g nl w bl e r ct : made_of nl w bl e r -> says w r ct -> 0 <= r_d r -> guard_ok g e = available g ct.
Proof.
  intros Hm Hs Hd. pose proof (mo_kind _ _ _ _ _ Hm) as (K1 & K2 & _ & _ & K5). unfold guard_ok. rewrite K1, K2, K5.
  assert (Hplain : r_kind r <> CL_BT_LIBCALL -> In (r_flags r) [0; CL_BT_F_SIGNED; CL_BT_F_WIDE; CL_BT_F_STRING] ->
    (if flag (r_flags r) (Z.lor CL_BT_F_NOT_MORPHOS CL_BT_F_MORPHOS) &&
        ((flag (r_flags r) CL_BT_F_NOT_MORPHOS && morphos_feature_p g) || (flag (r_flags r) CL_BT_F_MORPHOS && negb (morphos_feature_p g)))
     then false
     else if (r_kind r =? CL_BT_LIBCALL) && negb (r_d r =? 0) then
            match version_value g with Some val => negb (val <? r_d r) | None => false end else true) = true).
  { intros Hk Hf. replace (r_kind r =? CL_BT_LIBCALL) with false by lia. by destruct Hf as [<-|[<-|[<-|[<-|[]]]]]. }
  destruct Hs as [v H1 H|v H1 H|regs H1 H2 H3|H1 ? H2|H1 ? H2|H1 ? H2|H1 ? H2]; cbn [available];
    try (apply Hplain; [by rewrite H1|rewrite H2; by left]).
  - apply Hplain; [by rewrite H1|]. destruct H as [? ->|? ? ->|? ? ? ->|? ->]; cbn; tauto.
  - apply Hplain; [by rewrite H1|]. destruct H as [? ->|? ? ->|? ? ? ->|? ->]; cbn; tauto.
  - rewrite H1. cbn [Z.eqb CL_BT_LIBCALL Pos.eqb andb].
    assert (Hv : (if negb (r_d r =? 0) then match version_value g with Some val => negb (val <? r_d r) | None => false end else true)
                 = ((r_d r =? 0) || match version_value g with Some val => r_d r <=? val | None => false end)).
    { destruct (r_d r =? 0); cbn; [done|]. destruct (version_value g) as [val|]; lia. }
    rewrite Hv. assert (Hc : r_flags r = 0 \/ r_flags r = 1 \/ r_flags r = 2) by lia.
    by destruct Hc as [->|[->| ->]]; destruct (morphos_feature_p g).
Qed.

Lemma packed_guard g rows blob b l i : packed rows blob b l -> fits rows blob -> 0 <= i < vn (view_blob blob) ->
  let e := decode_entry (view_blob blob) i in guard_ok g e = available g (entry_contents (view_blob blob) e).
Proof.
  intros Hpk Hfits Hi e. assert (Hi' : 0 <= i < Z.of_nat (length l)) by (by rewrite (packed_view Hpk Hfits) in Hi).
  destruct (lookup_lt_is_Some_2 l (Z.to_nat i)) as [r Hr]; [lia|].
  pose proof (packed_made Hpk Hfits _ _ Hr) as Hm. rewrite Z2Nat.id in Hm by lia. fold e in Hm.
  destruct (packed_spec Hpk r) as (j & s & _ & _ & _ & Hb & Hs); [by eapply list_elem_of_lookup_2|].
  destruct (rb_defs _ _ Hb) as (_ & _ & _ & Hd). unfold is_byte in Hd.
  rewrite (says_contents _ _ _ _ _ _ Hm Hs). eapply guard_available; [exact Hm|exact Hs|lia].
Qed.

(** C20: Packing rows gives a valid table whose entries are the definitions of the
    rows with their values, stably sorted by name. *)
Theorem cl_bindtab_pack_correct rows blob :
  wf_obj rows -> cl_bindtab_pack rows = Ok blob -> fits rows blob ->
  validate_blob (ByteVector 0 blob) = None /\ stably_sorted (specs rows) (table_of blob).
Proof.
  intros Hwf Hp Hfits. destruct (pack_packed rows blob Hwf Hp) as (b & l & Hpk).
  pose proof (packed_valid Hpk Hfits) as Hv. split; [|by eapply packed_sorted]. apply validate_blob_iff; [apply Hv|done].
Qed.

(** C19: Probing a packed table is searching the rows in their order: nothing for a
    name no row defines, and otherwise the first definition in force. *)
Theorem packed_probe_correct g rows blob name :
  wf_obj rows -> cl_bindtab_pack rows = Ok blob -> fits rows blob ->
  probe_contents g blob name = lookup_rows g (specs rows) name.
Proof.
  intros Hwf Hp Hfits. destruct (pack_packed rows blob Hwf Hp) as (b & l & Hpk).
  rewrite probe_table; [|by eapply packed_valid|intros i Hi; by eapply packed_guard].
  apply stable_lookup. by eapply packed_sorted.
Qed.

(** ** An example *)

Definition kw (s : String.string) : obj := Sym true (lit s).
Definition str (s : String.string) : obj := Str (lit s).

(** A call with a variant for each platform, a structure, and constants of all
    encodings. *)
Definition example_rows : obj := list_obj
  [list_obj [kw "FN"; str "RUN"; Int (Fix (-30)); list_obj [kw "D0"; kw "A1"]; kw "POINTER"; kw "MORPHOS"];
   list_obj [kw "STRUCT"; str "BOX"; Int (Fix 8); list_obj [str "LEFT"; kw "U16"; Int (Fix 4)];
             list_obj [str "ARR"; list_obj [kw "ARRAY"; kw "U8"; Int (Fix 3)]; Int (Fix 4)]];
   list_obj [kw "CONST"; str "BIG"; Int (Big true [1; 2; 3])];
   list_obj [kw "CONST"; str "NEG"; Int (Fix (-77))];
   list_obj [kw "CONST"; str "TXT"; str "hello"];
   list_obj [kw "FN"; str "RUN"; Int (Fix (-36)); NIL; kw "VOID"; kw "NOT-MORPHOS"; Int (Fix 40)];
   list_obj [kw "NAME"; Sym true (lit "FOO")]].

Definition example_blob : list Z := match cl_bindtab_pack example_rows with Ok blob => blob | Err _ => [] end.

Lemma example_rows_wf : wf_obj example_rows.
Proof.
  cbn. unfold fixnum_range, CL_FIXNUM_MIN, CL_FIXNUM_MAX, canonical, fixnum_mag. repeat split; try lia; try (cbn; lia). by repeat constructor.
Qed.

Lemma cl_bindtab_pack_correct_witness :
  validate_blob (ByteVector 0 example_blob) = None /\ stably_sorted (specs example_rows) (table_of example_blob) /\
  length (table_of example_blob) = 9%nat.
Proof.
  destruct (cl_bindtab_pack_correct example_rows example_blob example_rows_wf) as [H1 H2].
  - vm_compute. reflexivity.
  - split; vm_compute; [reflexivity|discriminate].
  - split; [exact H1|]. split; [exact H2|]. vm_compute. reflexivity.
Defined.

Lemma packed_probe_correct_witness :
  let g := {| morphos_feature_p := false; version_value := Some 45 |} in
  probe_contents g example_blob (lit "RUN") = lookup_rows g (specs example_rows) (lit "RUN") /\
  probe_contents g example_blob (lit "RUN") = Some (Some (LibCall (-36) [] 1 1 40)).
Proof.
  split; [|vm_compute; reflexivity]. apply packed_probe_correct.
  - exact example_rows_wf.
  - vm_compute. reflexivity.
  - split; vm_compute; [reflexivity|discriminate].
Defined.
