(* ===== verification/BindUnpack.v ===== *)
(** * Binding tables: back to rows

    entry_row and %BINDING-TABLE-ENTRIES of bindtab.c, which list a table as rows
    again.  The rows of a packed table define what the rows it was packed from
    define; the one exception is a field that is an embedded structure, whose
    row the packer does not take back. *)

From Stdlib Require Import ZArith Lia ZifyBool String.
From stdpp Require Import base option list sorting.
From S2P Require Import Prelude Limbs Bignum BindBlob BindPack BindValue BindRows BindTable.
Local Open Scope Z_scope.
Local Open Scope amilisp_scope.

Definition keyword (name : list Z) : obj := Sym true name.

Definition name_at (names : list (list Z)) (i : Z) : list Z := nth (Z.to_nat i) names [].
Definition cl_ffi_ctype_name (ctype : Z) : list Z :=
  if (ctype >=? 0) && (ctype <=? CL_STUB_CT_MAX) then name_at stub_ct_names ctype else lit "?".
Definition cl_ffi_res_kind_name (kind : Z) : list Z :=
  if (kind >=? 0) && (kind <=? CL_AMIGA_RES_KIND_MAX) then name_at stub_res_names kind else lit "?".

Definition fixnum (n : Z) : obj := Int (make_fixnum n).

(** The type of a field. *)
Definition field_type (e : BtEntry) : obj :=
  if ed e =? CL_STUB_FIELD_PTR then keyword (lit "STRUCT")
  else if ed e =? CL_STUB_PEEK_IDX then
    list_obj [keyword (lit "ARRAY"); keyword (cl_ffi_ctype_name (ec e)); fixnum (i32 (Z.shiftr (ea e) 16))]
  else keyword (cl_ffi_ctype_name (ec e)).

Definition libcall_options (e : BtEntry) : list obj :=
  (if flag (flags e) CL_BT_F_NOT_MORPHOS then [keyword (lit "NOT-MORPHOS")] else []) ++
  (if flag (flags e) CL_BT_F_MORPHOS then [keyword (lit "MORPHOS")] else []) ++
  (if negb (ed e =? 0) then [fixnum (ed e)] else []).

Definition entry_row (e : BtEntry) (name : list Z) (val : BtValue) : obj :=
  if (kind e =? CL_BT_CONST) || (kind e =? CL_BT_VAR) then
    list_obj [keyword (if kind e =? CL_BT_CONST then lit "CONST" else lit "VAR"); Str name; value_to_obj val]
  else if kind e =? CL_BT_LIBCALL then
    list_obj ([keyword (lit "FN"); Str name; fixnum (eb e);
               list_obj ((fun k => keyword (name_at reg_names (register_of (ea e) (Z.of_nat k)))) <$> seq 0 (Z.to_nat (ec e)));
               keyword (cl_ffi_res_kind_name (CL_AMIGA_RES_KIND (ea e)))] ++ libcall_options e)
  else if kind e =? CL_BT_FIELD then
    let offset := if ed e =? CL_STUB_PEEK_IDX then Z.land (ea e) 65535 else ea e in
    list_obj [keyword (lit "FIELD"); Str name; field_type e; fixnum (i32 offset)]
  else list_obj [keyword (lit "NAME"); Str name].

(** The rows of a blob, in the order of the table. *)
Definition bi_binding_table_entries (src : blob_obj) : result obj :=
  match validate_blob src with
  | Some _ => Err CL_ERR_ARGS
  | None =>
      match src with
      | NotByteVector => Err CL_ERR_ARGS
      | ByteVector _ data =>
          let v := view_blob data in
          Ok (list_obj ((fun i => let e := decode_entry v (Z.of_nat i) in entry_row e (entry_name v e) (decode_value v e))
                          <$> seq 0 (Z.to_nat (vn v))))
      end
  end.

(** ** Names of codes *)

Lemma list_of_list_obj l : list_of (list_obj l) = l.
Proof. induction l as [|x l IH]; cbn; by rewrite ?IH. Qed.

Lemma number_fixnum n : fixnum_range n -> number (fixnum n) = n.
Proof. intros H. unfold fixnum. by rewrite make_fixnum_small. Qed.

(** A code is found under its name. *)
Lemma names_found (names : list (list Z)) :
  forallb (fun i => bool_decide (keyword_index (keyword (nth i names [])) names 0 = Some (Z.of_nat i))) (seq 0 (length names)) = true ->
  forall k, 0 <= k < Z.of_nat (length names) -> keyword_index (keyword (name_at names k)) names 0 = Some k.
Proof.
  intros H k Hk. rewrite forallb_forall in H. specialize (H (Z.to_nat k)). rewrite bool_decide_eq_true in H.
  unfold name_at. rewrite H; [f_equal; lia|]. apply in_seq. lia.
Qed.

Lemma reg_name_found k : 0 <= k <= 12 -> reg_code (keyword (name_at reg_names k)) = k.
Proof.
  intros Hk. unfold reg_code, reg_index_of. rewrite (names_found reg_names); [done|by vm_compute|]. change (length reg_names) with 13%nat. lia.
Qed.

Lemma ctype_name_found k : 0 <= k <= CL_STUB_CT_MAX -> ctype_code (keyword (cl_ffi_ctype_name k)) = k.
Proof.
  unfold CL_STUB_CT_MAX. intros Hk. unfold ctype_code, cl_ffi_ctype_from_keyword, cl_ffi_ctype_name, CL_STUB_CT_MAX.
  replace (_ && _) with true by lia. rewrite (names_found stub_ct_names); [done|by vm_compute|]. change (length stub_ct_names) with 10%nat. lia.
Qed.

Lemma res_kind_name_found k : 0 <= k <= CL_AMIGA_RES_KIND_MAX -> default 0 (cl_ffi_res_kind_from_keyword (keyword (cl_ffi_res_kind_name k))) = k.
Proof.
  unfold CL_AMIGA_RES_KIND_MAX. intros Hk. unfold cl_ffi_res_kind_from_keyword, cl_ffi_res_kind_name, CL_AMIGA_RES_KIND_MAX.
  replace (_ && _) with true by lia. rewrite (names_found stub_res_names); [done|by vm_compute|]. change (length stub_res_names) with 9%nat. lia.
Qed.

(** ** One row *)

Definition is_embedded (c : contents) : bool := match c with Embedded _ => true | _ => false end.

(** Keywords in rows are literals, so what they match is computed. *)
Ltac eval_kw :=
  repeat match goal with
  | |- context [kw_is (keyword (lit ?a)) (lit ?b)] =>
      let c := eval vm_compute in (kw_is (keyword (lit a)) (lit b)) in
      change (kw_is (keyword (lit a)) (lit b)) with c
  end; cbv iota.

Lemma ctype_keyword_not (k : Z) : kw_is (cl_car (keyword (cl_ffi_ctype_name k))) (lit "STRUCT") = false /\
  kw_is (cl_car (keyword (cl_ffi_ctype_name k))) (lit "ARRAY") = false.
Proof. done. Qed.

Lemma value_row name v (c : bool) : row_specs (list_obj [keyword (if c then lit "CONST" else lit "VAR"); Str name; v]) =
  [(name, if c then Const v else Special v)].
Proof. unfold row_specs. cbn [list_of list_obj cl_car cl_cdr designator]. by destruct c; eval_kw. Qed.

Lemma field_row name type off : row_specs (list_obj [keyword (lit "FIELD"); Str name; type; off]) =
  [(name, field_contents type (number off))].
Proof. unfold row_specs. cbn [list_of list_obj cl_car cl_cdr designator]. by eval_kw. Qed.

Lemma call_row name lvo regs res opts : row_specs (list_obj ([keyword (lit "FN"); Str name; lvo; list_obj regs; res] ++ opts)) =
  [(name, LibCall (number lvo) (reg_code <$> regs) (default 0 (cl_ffi_res_kind_from_keyword res)) (option_flags opts) (option_version opts))].
Proof. unfold row_specs. rewrite list_of_list_obj. cbn [app designator]. eval_kw. by rewrite list_of_list_obj. Qed.

Lemma name_row name : row_specs (list_obj [keyword (lit "NAME"); Str name]) = [(name, NameOnly)].
Proof. unfold row_specs. cbn [list_of list_obj cl_car cl_cdr designator]. by eval_kw. Qed.

Lemma libcall_options_read e : 0 <= flags e <= 2 -> 0 <= ed e <= 255 ->
  option_flags (libcall_options e) = flags e /\ option_version (libcall_options e) = ed e.
Proof.
  intros Hf Hd. unfold libcall_options, option_version. assert (Hn : fixnum (ed e) = Int (Fix (ed e))).
  { unfold fixnum. rewrite make_fixnum_small; [done|]. unfold fixnum_range, CL_FIXNUM_MIN, CL_FIXNUM_MAX. lia. }
  rewrite Hn. assert (Hc : flags e = 0 \/ flags e = 1 \/ flags e = 2) by lia.
  destruct Hc as [->|[->| ->]]; destruct (ed e =? 0) eqn:E; (split; [reflexivity|]);
    (reflexivity || (change (0 = ed e); lia)).
Qed.

(** The row of an entry says what the entry says. *)
Lemma entry_row_specs nl w bl e r ct : made_of nl w bl e r -> rec_bytes w r -> says w r ct -> is_embedded ct = false ->
  row_specs (entry_row e (r_name r) (decode_value bl e)) = [(r_name r, ct)].
Proof.
  intros Hm Hb Hs He. pose proof Hm as [(K1 & K2 & K3 & K4 & K5) Ka (Kw & _) _]. pose proof Hb as [_ (B1 & B2 & B3 & B4) (B5 & B6) _].
  unfold is_byte in *. unfold entry_row. rewrite K1.
  destruct Hs as [v H1 H|v H1 H|regs H1 H2 H3 H4 H5 H6 H7 H8 H9|H1 H2 H3 H4 H5 H5'|H1 H2 H3 H4 H5 H6|H1 H2 H3 H4|H1 H2]; try done; rewrite H1;
    cbn [Z.eqb Pos.eqb orb CL_BT_CONST CL_BT_VAR CL_BT_LIBCALL CL_BT_FIELD CL_BT_NAME].
  - rewrite (decode_says_value _ _ _ _ _ _ H Kw K2 Ka). apply (value_row _ v true).
  - rewrite (decode_says_value _ _ _ _ _ _ H Kw K2 Ka). apply (value_row _ v false).
  - rewrite call_row, Ka, H2. destruct (libcall_options_read e) as [-> ->]; [lia|lia|]. rewrite K2, K3, K4, K5, H5, Nat2Z.id.
    assert (Hr : 0 <= CL_AMIGA_RES_KIND (r_a r)) by (unfold CL_AMIGA_RES_KIND; apply Z.land_nonneg; lia).
    rewrite res_kind_name_found, number_fixnum by (unfold fixnum_range, CL_FIXNUM_MIN, CL_FIXNUM_MAX; lia).
    do 3 f_equal. rewrite <- list_fmap_compose. rewrite <- (register_list _ _ H8) at 2. apply list_fmap_ext. intros i k [-> Hi]%lookup_seq.
    cbn [compose]. destruct (lookup_lt_is_Some_2 regs i Hi) as [x Hx]. rewrite Forall_lookup in H7. specialize (H7 _ _ Hx). cbn in H7.
    rewrite Nat.add_0_l, (H8 i x Hx). by apply reg_name_found.
  - rewrite field_row. unfold field_type. rewrite K5, H4, K4, Ka, H2. cbn [Z.eqb CL_STUB_FIELD_PTR CL_STUB_PEEK_IDX CL_STUB_PEEK Pos.eqb].
    unfold field_contents. destruct (ctype_keyword_not (r_c r)) as [-> ->]. unfold CL_FIXNUM_MAX in H5'.
    rewrite ctype_name_found, i32_small, number_fixnum by (unfold fixnum_range, CL_FIXNUM_MIN, CL_FIXNUM_MAX; lia). done.
  - rewrite field_row. unfold field_type. rewrite K5, H4, K4, Ka, H2. cbn [Z.eqb CL_STUB_FIELD_PTR CL_STUB_PEEK_IDX Pos.eqb].
    assert (Ho : 0 <= Z.land (r_a r) 65535 < 65536) by (rewrite land_ffff; apply Z.mod_pos_bound; lia).
    assert (Hn : 0 <= Z.shiftr (r_a r) 16 < 65536).
    { rewrite shr16. split; [apply Z.div_pos; lia|apply Z.div_lt_upper_bound; lia]. }
    unfold field_contents. cbn [list_obj cl_car cl_cdr]. eval_kw.
    rewrite ctype_name_found, !i32_small, !number_fixnum by (unfold fixnum_range, CL_FIXNUM_MIN, CL_FIXNUM_MAX; lia). by rewrite H6.
  - apply name_row.
Qed.

(** ** The rows of a table *)

Lemma concat_singletons {A B} (f : A -> list B) (g : A -> B) l : (forall x, x ∈ l -> f x = [g x]) -> concat (f <$> l) = g <$> l.
Proof.
  induction l as [|x l IH]; intros H; [done|]. cbn. rewrite (H x) by by left. rewrite IH; [done|]. intros y Hy. apply H. by right.
Qed.

Lemma packed_row_specs rows blob b l i : packed rows blob b l -> fits rows blob ->
  Forall (fun s => is_embedded (snd s) = false) (specs rows) -> Z.of_nat i < vn (view_blob blob) ->
  let e := decode_entry (view_blob blob) (Z.of_nat i) in
  row_specs (entry_row e (entry_name (view_blob blob) e) (decode_value (view_blob blob) e)) = [named_entry (view_blob blob) i].
Proof.
  intros Hpk Hfits Hemb Hi e. assert (Hi' : (i < length l)%nat) by (rewrite (packed_view Hpk Hfits) in Hi; cbn in Hi; lia).
  destruct (lookup_lt_is_Some_2 l i Hi') as [r Hr]. pose proof (packed_made Hpk Hfits _ _ Hr) as Hm. fold e in Hm.
  destruct (packed_spec Hpk r) as (j & s & _ & Hj & _ & Hb & Hs); [by eapply list_elem_of_lookup_2|].
  unfold named_entry. fold e. rewrite (says_contents _ _ _ _ _ _ Hm Hs). destruct (mo_name _ _ _ _ _ Hm) as [-> _].
  eapply entry_row_specs; [exact Hm|exact Hb|exact Hs|]. rewrite Forall_lookup in Hemb. exact (Hemb _ _ Hj).
Qed.

(** C22: The rows of a packed table define what the rows it was packed from define,
    stably sorted by name, unless one of them is an embedded structure. *)
Theorem binding_table_entries_correct rows blob :
  wf_obj rows -> cl_bindtab_pack rows = Ok blob -> fits rows blob -> Forall (fun s => is_embedded (snd s) = false) (specs rows) ->
  exists rows', bi_binding_table_entries (ByteVector 0 blob) = Ok rows' /\ stably_sorted (specs rows) (specs rows').
Proof.
  intros Hwf Hp Hfits Hemb. destruct (pack_packed rows blob Hwf Hp) as (b & l & Hpk).
  pose proof (packed_valid Hpk Hfits) as Hv. unfold bi_binding_table_entries.
  rewrite (proj2 (validate_blob_iff blob (vt_bytes _ Hv)) Hv). eexists. split; [done|].
  unfold specs at 2. rewrite list_of_list_obj, <- list_fmap_compose, (concat_singletons _ (named_entry (view_blob blob))).
  - by eapply packed_sorted.
  - intros i Hi%elem_of_seq. cbn [compose]. eapply packed_row_specs; [done..|lia].
Qed.

(** The row of an embedded structure is not a row of the packer's. *)
Lemma embedded_row_refused b e name val : kind e = CL_BT_FIELD -> ed e = CL_STUB_FIELD_PTR -> parse_row b (entry_row e name val) = Err CL_ERR_ARGS.
Proof.
  intros Hk Hd. unfold entry_row, field_type. rewrite Hk, Hd. cbn [Z.eqb orb CL_BT_CONST CL_BT_VAR CL_BT_LIBCALL CL_BT_FIELD CL_STUB_FIELD_PTR Pos.eqb].
  unfold parse_row. cbn [list_length_checked list_obj cl_car cl_cdr Z.ltb Z.compare Z.add Pos.add Pos.succ]. destruct (parse_name (Str name)) as [nm|er] eqn:En.
  - cbn [bind]. eval_kw. cbn [orb]. change (negb (_ =? 2)) with false. cbv iota. unfold add_field. destruct (fixnum_val _) as [z|]; [|done].
    change (0 + 1 + 1 + 1 + 1 <? 2) with false. cbv iota. destruct (z <? 0); [done|].
    by replace (parse_field_type _) with (@Err (Z * Z * Z * Z) CL_ERR_ARGS) by (by vm_compute).
  - cbn [bind]. unfold parse_name in En. destruct (_ || _) in En; [by injection En as <-|]. by destruct (existsb _ _) in En; [injection En as <-|].
Qed.

Lemma binding_table_entries_correct_witness :
  let rows := list_obj [list_obj [kw "CONST"; str "BIG"; Int (Big true [1; 2; 3])];
                        list_obj [kw "FN"; str "ADD"; Int (Fix (-36)); list_obj [kw "D0"; kw "A4"]; kw "I16"; kw "NOT-MORPHOS"; Int (Fix 40)]] in
  exists rows', bi_binding_table_entries (ByteVector 0 (match cl_bindtab_pack rows with Ok b => b | Err _ => [] end)) = Ok rows' /\
    stably_sorted (specs rows) (specs rows').
Proof.
  cbv zeta. apply binding_table_entries_correct.
  - cbn. unfold fixnum_range, CL_FIXNUM_MIN, CL_FIXNUM_MAX, canonical, fixnum_mag. repeat split; try lia; try (cbn; lia). by repeat constructor.
  - vm_compute. reflexivity.
  - split; vm_compute; [reflexivity|discriminate].
  - vm_compute. by repeat constructor.
Defined.
