(* ===== verification/Package.v ===== *)
(** * Packages

    package.c, cl_intern_in of symbol.c, the mutators of builtins_package.c and
    the part of bindtab.c that changes packages: registration, materialisation
    and shedding of binding tables.

    Symbols and packages are numbers, the state [World] maps them to what the
    structures hold.  A critical section of cl_package_rwlock is one definition;
    the operations run them one after another, and PackThreads interleaves
    those of several threads.  The two representations of the symbol NIL are one,
    pre-allocated list cells appear with the store that links them, the variable
    of a table's version has its global value, and there is always memory.  The
    flags of a symbol that no operation here reads are left out, and so are
    names and nicknames of packages. *)

From Stdlib Require Import ZArith Lia ZifyBool.
From stdpp Require Import base option list gmap.
From S2P Require Import Prelude Bignum HashKey BindBlob BindPack.
Local Open Scope Z_scope.

(** ** State *)

(** A function: a foreign stub, or any other. *)
Inductive func : Set :=
| Stub (name : nat) (kind : Z) (base : option nat) (a b c : Z)
| OtherFunction (id : nat).

(** A value: an object, or the symbol itself. *)
Inductive value : Set :=
| ObjectValue (o : obj)
| SelfValue.

(** None is CL_NIL as a package and CL_UNBOUND as a value or function. *)
Record Symbol : Type := {
  s_name : list Z; s_package : option nat; s_hash : Z; s_value : option value; s_function : option func;
  sym_special : bool; sym_exported : bool; sym_constant : bool; sym_exported_home : bool }.

(** The slots of CL_Package.bindings; a shed table has no blob. *)
Record Bindings : Type := { bt_blob : option (list Z); bt_base : option nat; bt_version : option nat }.

(** The table of symbols is a vector of chains. *)
Record Package : Type := {
  symbols : list (list nat); sym_count : Z; use_list : list nat; shadowing_symbols : list nat;
  exported_symbols : list nat; bindings : option Bindings }.

Record World : Type := { syms : gmap nat Symbol; pkgs : gmap nat Package; setf_updaters : gmap nat nat; next : nat }.

Definition no_symbol : Symbol :=
  {| s_name := []; s_package := None; s_hash := 0; s_value := None; s_function := None; sym_special := false;
     sym_exported := false; sym_constant := false; sym_exported_home := false |}.
Definition no_package : Package :=
  {| symbols := []; sym_count := 0; use_list := []; shadowing_symbols := []; exported_symbols := []; bindings := None |}.

Definition sym_at (w : World) (s : nat) : Symbol := default no_symbol (syms w !! s).
Definition pkg_at (w : World) (p : nat) : Package := default no_package (pkgs w !! p).

Definition set_sym (w : World) (s : nat) (f : Symbol -> Symbol) : World :=
  {| syms := alter f s (syms w); pkgs := pkgs w; setf_updaters := setf_updaters w; next := next w |}.
Definition set_pkg (w : World) (p : nat) (f : Package -> Package) : World :=
  {| syms := syms w; pkgs := alter f p (pkgs w); setf_updaters := setf_updaters w; next := next w |}.

Definition with_package (h : option nat) (x : Symbol) : Symbol :=
  {| s_name := s_name x; s_package := h; s_hash := s_hash x; s_value := s_value x; s_function := s_function x;
     sym_special := sym_special x; sym_exported := sym_exported x; sym_constant := sym_constant x; sym_exported_home := false |}.
Definition with_hash (h : Z) (x : Symbol) : Symbol :=
  {| s_name := s_name x; s_package := s_package x; s_hash := h; s_value := s_value x; s_function := s_function x;
     sym_special := sym_special x; sym_exported := sym_exported x; sym_constant := sym_constant x;
     sym_exported_home := sym_exported_home x |}.
Definition with_flags (exported exported_home : bool) (x : Symbol) : Symbol :=
  {| s_name := s_name x; s_package := s_package x; s_hash := s_hash x; s_value := s_value x; s_function := s_function x;
     sym_special := sym_special x; sym_exported := exported; sym_constant := sym_constant x; sym_exported_home := exported_home |}.
Definition with_value (v : value) (special constant : bool) (x : Symbol) : Symbol :=
  {| s_name := s_name x; s_package := s_package x; s_hash := s_hash x; s_value := Some v; s_function := s_function x;
     sym_special := sym_special x || special; sym_exported := sym_exported x; sym_constant := sym_constant x || constant;
     sym_exported_home := sym_exported_home x |}.
Definition with_function (f : func) (x : Symbol) : Symbol :=
  {| s_name := s_name x; s_package := s_package x; s_hash := s_hash x; s_value := s_value x; s_function := Some f;
     sym_special := sym_special x; sym_exported := sym_exported x; sym_constant := sym_constant x;
     sym_exported_home := sym_exported_home x |}.

Definition with_symbols (tbl : list (list nat)) (count : Z) (x : Package) : Package :=
  {| symbols := tbl; sym_count := count; use_list := use_list x; shadowing_symbols := shadowing_symbols x;
     exported_symbols := exported_symbols x; bindings := bindings x |}.
Definition with_uses (l : list nat) (x : Package) : Package :=
  {| symbols := symbols x; sym_count := sym_count x; use_list := l; shadowing_symbols := shadowing_symbols x;
     exported_symbols := exported_symbols x; bindings := bindings x |}.
Definition with_exports (l : list nat) (x : Package) : Package :=
  {| symbols := symbols x; sym_count := sym_count x; use_list := use_list x; shadowing_symbols := shadowing_symbols x;
     exported_symbols := l; bindings := bindings x |}.
Definition with_shadowing (l : list nat) (x : Package) : Package :=
  {| symbols := symbols x; sym_count := sym_count x; use_list := use_list x; shadowing_symbols := l;
     exported_symbols := exported_symbols x; bindings := bindings x |}.
Definition with_bindings (b : option Bindings) (x : Package) : Package :=
  {| symbols := symbols x; sym_count := sym_count x; use_list := use_list x; shadowing_symbols := shadowing_symbols x;
     exported_symbols := exported_symbols x; bindings := b |}.

(** cl_make_symbol: the hash is 0. *)
Definition make_symbol (w : World) (name : list Z) : World * nat :=
  let s := next w in
  ({| syms := <[s := {| s_name := name; s_package := None; s_hash := 0; s_value := None; s_function := None;
                        sym_special := false; sym_exported := false; sym_constant := false; sym_exported_home := false |}]> (syms w);
      pkgs := pkgs w; setf_updaters := setf_updaters w; next := S s |}, s).

(** cl_make_symbol and [s->hash = cl_hash_string(name)]: MAKE-SYMBOL, COPY-SYMBOL
    and #:, and the same two stores in place in cl_intern_in, cl_shadow_symbol
    and cl_bindtab_materialize.  GENSYM, the compiler's temporaries and the FASL
    reader call cl_make_symbol alone. *)
Definition cl_make_uninterned_symbol (w : World) (name : list Z) : World * nat :=
  let (w, s) := make_symbol w name in (set_sym w s (with_hash (cl_hash_string name)), s).

(** ** Looking up *)

(** The chain a name or a hash belongs to. *)
Definition bucket_of (tbl : list (list nat)) (hash : Z) : nat := Z.to_nat (hash mod Z.of_nat (length tbl)).

Definition find_own_symbol (w : World) (name : list Z) (p : nat) : option nat :=
  let tbl := symbols (pkg_at w p) in
  snd <$> list_find (fun s => s_name (sym_at w s) = name) (default [] (tbl !! bucket_of tbl (cl_hash_string name))).

Definition exported_p_nolock (w : World) (s p : nat) : bool :=
  if bool_decide (s_package (sym_at w s) = Some p) then sym_exported_home (sym_at w s)
  else if negb (sym_exported (sym_at w s)) then false
  else bool_decide (s ∈ exported_symbols (pkg_at w p)).

Definition find_external_nolock (w : World) (name : list Z) (p : nat) : option nat :=
  match find_own_symbol w name p with
  | Some s => if exported_p_nolock w s p then Some s else None
  | None => None
  end.

Fixpoint first_some {A B} (f : A -> option B) (l : list A) : option B :=
  match l with
  | [] => None
  | x :: l => match f x with Some y => Some y | None => first_some f l end
  end.

Definition cl_package_find_symbol_nolock (w : World) (name : list Z) (p : nat) : option nat :=
  match find_own_symbol w name p with
  | Some s => Some s
  | None => first_some (find_external_nolock w name) (use_list (pkg_at w p))
  end.

Inductive status : Set := INTERNAL | EXTERNAL | INHERITED.

(** A lookup: nothing, a symbol, or an entry of the binding table of a package,
    which is the symbol to be. *)
Inductive lookup_result : Type :=
| Absent
| Found (s : nat) (st : status)
| Lazy (owner : nat) (h : Hit) (st : status).

Section Packages.
(** Whether :MORPHOS is on *FEATURES*; the KEYWORD package. *)
Context (morphos : bool) (cl_package_keyword : nat).

Definition table_guards (w : World) (b : Bindings) : Guards :=
  {| morphos_feature_p := morphos;
     version_value := match bt_version b with
                      | Some vs => match s_value (sym_at w vs) with Some (ObjectValue o) => fixnum_val o | _ => None end
                      | None => None
                      end |}.

Definition pkg_blob (w : World) (p : nat) : option (list Z) := b ← bindings (pkg_at w p); bt_blob b.

Definition cl_bindtab_probe_nolock (w : World) (p : nat) (name : list Z) (allow_setter : bool) : option Hit :=
  match bindings (pkg_at w p) with
  | Some b =>
      match bt_blob b with
      | Some blob => probe_blob (table_guards w b) blob name allow_setter
      | None => None
      end
  | None => None
  end.

(** One used package: its external symbols, then its table. *)
Definition lookup_used (w : World) (name : list Z) (q : nat) : option lookup_result :=
  match find_external_nolock w name q with
  | Some s => Some (Found s INHERITED)
  | None => (fun h => Lazy q h INHERITED) <$> cl_bindtab_probe_nolock w q name false
  end.

Definition lookup_nolock (w : World) (name : list Z) (p : nat) : lookup_result :=
  match find_own_symbol w name p with
  | Some s => Found s (if exported_p_nolock w s p then EXTERNAL else INTERNAL)
  | None =>
      match cl_bindtab_probe_nolock w p name true with
      | Some h => Lazy p h (if want_setter h then INTERNAL else EXTERNAL)
      | None => default Absent (first_some (lookup_used w name) (use_list (pkg_at w p)))
      end
  end.

(** cl_package_find_external's search. *)
Definition lookup_external (w : World) (name : list Z) (p : nat) : lookup_result :=
  match find_external_nolock w name p with
  | Some s => Found s EXTERNAL
  | None =>
      match cl_bindtab_probe_nolock w p name false with
      | Some h => Lazy p h EXTERNAL
      | None => Absent
      end
  end.

(** ** The critical sections that link *)

Definition package_link_symbol_cell (w : World) (p s : nat) : World :=
  set_pkg w p (fun x => with_symbols (alter (cons s) (bucket_of (symbols x) (s_hash (sym_at w s))) (symbols x)) (sym_count x + 1) x).

(** None is a conflict. *)
Definition import_symbol_nolock (w : World) (s p : nat) : option World :=
  match find_own_symbol w (s_name (sym_at w s)) p with
  | Some t => if bool_decide (t = s) then Some w else None
  | None => Some (package_link_symbol_cell w p s)
  end.

Definition cl_package_add_symbol_cell (w : World) (p s : nat) : World :=
  set_sym (package_link_symbol_cell w p s) s (with_package (Some p)).

Definition mark_exported (w : World) (p s : nat) : World :=
  set_sym w s (fun x => with_flags true (sym_exported_home x || bool_decide (s_package x = Some p)) x).

Definition cl_package_push_export_cell_nolock (w : World) (p s : nat) : World :=
  mark_exported (set_pkg w p (fun x => with_exports (s :: exported_symbols x) x)) p s.

(** ** Building a symbol from an entry *)

(** What an entry defines: a value, a stub, or nothing. *)
Inductive definition : Type :=
| DefValue (constant : bool) (v : value)
| DefStub (kind : Z) (base : option nat) (a b c : Z)
| DefNone.

Definition entry_definition (v : BtView) (base : option nat) (e : BtEntry) : definition :=
  if kind e =? CL_BT_CONST then DefValue true (ObjectValue (value_to_obj (decode_value v e)))
  else if kind e =? CL_BT_VAR then DefValue false (ObjectValue (value_to_obj (decode_value v e)))
  else if kind e =? CL_BT_LIBCALL then DefStub CL_STUB_LIBCALL base (ea e) (eb e) (ec e)
  else if kind e =? CL_BT_FIELD then DefStub (ed e) None (ea e) (eb e) (ec e)
  else DefNone.

Definition install_definition (w : World) (target : nat) (d : definition) : World :=
  match d with
  | DefValue constant v => set_sym w target (with_value v (negb constant) constant)
  | DefStub kind base a b c => set_sym w target (with_function (Stub target kind base a b c))
  | DefNone => w
  end.

Definition definition_missing (w : World) (s : nat) (d : definition) : bool :=
  match d with
  | DefValue _ _ => bool_decide (s_value (sym_at w s) = None)
  | DefStub _ _ _ _ _ => bool_decide (s_function (sym_at w s) = None)
  | DefNone => false
  end.

(** The stub of the writer of a field. *)
Definition setter_stub (s : nat) (e : BtEntry) : func :=
  Stub s (if ed e =? CL_STUB_PEEK_IDX then CL_STUB_POKE_IDX else CL_STUB_POKE) None (ea e) (eb e) (ec e).

(** The symbol of the entry, under the write lock: the fresh one [s], or the
    one that is there. *)
Definition link_entry (w : World) (p s : nat) (name : list Z) (d : definition) (force : bool) : World * nat :=
  match find_own_symbol w name p with
  | None => (cl_package_push_export_cell_nolock (cl_package_add_symbol_cell w p s) p s, s)
  | Some t =>
      let w := if force || definition_missing w t d then install_definition w t d else w in
      (if exported_p_nolock w t p then w else cl_package_push_export_cell_nolock w p t, t)
  end.

(** The writer, in the same critical section. *)
Definition link_setter (w : World) (p s : nat) (name : list Z) (e : BtEntry) (force : bool) : World * nat :=
  match find_own_symbol w name p with
  | None => (cl_package_add_symbol_cell w p s, s)
  | Some t =>
      (if force || bool_decide (s_function (sym_at w t) = None) then set_sym w t (with_function (setter_stub t e)) else w, t)
  end.

Definition cl_register_setf_updater (w : World) (s updater : nat) : World :=
  if bool_decide (setf_updaters w !! s = Some updater) then w
  else {| syms := syms w; pkgs := pkgs w; setf_updaters := <[s := updater]> (setf_updaters w); next := next w |}.

(** What is prepared outside the lock: the fresh symbol and its definition, and
    the fresh writer of a field. *)
Record Draft : Type := {
  dr_name : list Z; dr_sym : nat; dr_definition : definition; dr_setter : option (nat * BtEntry) }.

(** Copying the entry out of the blob and allocating.  None when there is no
    blob any more. *)
Definition materialize_build (w : World) (p : nat) (h : Hit) : World * option Draft :=
  match b ← bindings (pkg_at w p); (fun blob => (b, blob)) <$> bt_blob b with
  | None => (w, None)
  | Some (b, blob) =>
      let v := view_blob blob in
      let name := entry_name v (decode_entry v (name_idx h)) in
      let e := decode_entry v <$> def_idx h in
      let d := default DefNone (entry_definition v (bt_base b) <$> e) in
      let (w, s) := cl_make_uninterned_symbol w name in
      let w := install_definition w s d in
      match e with
      | Some e =>
          if writable_field e then
            let (w, ss) := cl_make_uninterned_symbol w (set_prefix ++ name) in
            (set_sym w ss (with_function (setter_stub ss e)),
             Some {| dr_name := name; dr_sym := s; dr_definition := d; dr_setter := Some (ss, e) |})
          else (w, Some {| dr_name := name; dr_sym := s; dr_definition := d; dr_setter := None |})
      | None => (w, Some {| dr_name := name; dr_sym := s; dr_definition := d; dr_setter := None |})
      end
  end.

(** The critical section: the symbol, and its writer. *)
Definition materialize_link (w : World) (p : nat) (dr : Draft) (force : bool) : World * nat * option nat :=
  let (w, r) := link_entry w p (dr_sym dr) (dr_name dr) (dr_definition dr) force in
  match dr_setter dr with
  | Some (ss, e) => let (w, sr) := link_setter w p ss (set_prefix ++ dr_name dr) e force in (w, r, Some sr)
  | None => (w, r, None)
  end.

(** The DEFSETF pair. *)
Definition materialize_pair (w : World) (r : nat) (sr : option nat) : World :=
  match sr with Some sr => cl_register_setf_updater w r sr | None => w end.

(** Without a table: the symbol of a concurrent flip.  [query] is [] for no query. *)
Definition materialize_fallback (w : World) (p : nat) (query : list Z) : option nat :=
  if (0 <? length query)%nat && (length query <? 256)%nat then find_own_symbol w query p else None.

Definition cl_bindtab_materialize (w : World) (p : nat) (query : list Z) (h : Hit) (force : bool) : World * option nat :=
  match materialize_build w p h with
  | (w, None) => (w, materialize_fallback w p query)
  | (w, Some dr) =>
      let '(w, r, sr) := materialize_link w p dr force in
      (materialize_pair w r sr, if want_setter h then sr else Some r)
  end.

(** One round of cl_bindtab_materialize_all: entry [i], unless it is a further
    variant of the name before it, or present. *)
Definition materialize_entry (p : nat) (w : World) (i : nat) : World :=
  match pkg_blob w p with
  | None => w
  | Some blob =>
      let v := view_blob blob in
      let nm k := entry_name v (decode_entry v (Z.of_nat k)) in
      if (0 <? i)%nat && bool_decide (nm (i - 1)%nat = nm i) then w
      else
        match find_own_symbol w (nm i) p with
        | Some _ => w
        | None =>
            match cl_bindtab_probe_nolock w p (nm i) false with
            | Some h => fst (cl_bindtab_materialize w p (nm i) h false)
            | None => w
            end
        end
  end.

Definition cl_bindtab_materialize_all (w : World) (p : nat) : World :=
  match pkg_blob w p with
  | None => w
  | Some blob =>
      set_pkg (fold_left (materialize_entry p) (seq 0 (Z.to_nat (vn (view_blob blob)))) w) p (with_bindings None)
  end.

(** ** Finding and interning *)

(** None is CL_UNBOUND; the symbol of a found name is None for CL_NIL, which
    materialisation gives when the table is gone. *)
Definition materialize_result (w : World) (name : list Z) (r : lookup_result) : World * option (option nat * status) :=
  match r with
  | Absent => (w, None)
  | Found s st => (w, Some (Some s, st))
  | Lazy q h st => let (w, s) := cl_bindtab_materialize w q name h false in (w, Some (s, st))
  end.

Definition lookup_and_materialize (w : World) (name : list Z) (p : nat) (external_only : bool) : World * option (option nat * status) :=
  materialize_result w name (if external_only then lookup_external w name p else lookup_nolock w name p).

Definition cl_find_symbol_with_status (w : World) (name : list Z) (p : nat) : World * option (option nat * status) :=
  lookup_and_materialize w name p false.
Definition cl_package_find_symbol (w : World) (name : list Z) (p : nat) : World * option nat :=
  let (w, r) := lookup_and_materialize w name p false in (w, r ≫= fst).
Definition cl_package_find_external (w : World) (name : list Z) (p : nat) : World * option nat :=
  let (w, r) := lookup_and_materialize w name p true in (w, r ≫= fst).

(** The write-locked part of an intern: the fresh symbol is linked if the name
    is still absent.  The flag says that it was. *)
Definition intern_link (w : World) (name : list Z) (p s : nat) : World * option nat * bool :=
  match lookup_nolock w name p with
  | Found t _ => (w, Some t, false)
  | Lazy q h _ => let (w, t) := cl_bindtab_materialize w q name h false in (w, t, false)
  | Absent => (cl_package_add_symbol_cell w p s, Some s, true)
  end.

(** ** Exports *)

(** The world and the error, if any; what was done before an error stays. *)
Definition cl_export_symbol (w : World) (s p : nat) : World * option cl_err :=
  let name := s_name (sym_at w s) in
  let w :=
    match bindings (pkg_at w p), find_own_symbol w name p with
    | Some _, None => cl_bindtab_materialize_all w p
    | _, _ => w
    end in
  match (match find_own_symbol w name p with None => import_symbol_nolock w s p | Some _ => Some w end) with
  | None => (w, Some CL_ERR_GENERAL)
  | Some w =>
      let w := if exported_p_nolock w s p then w else set_pkg w p (fun x => with_exports (s :: exported_symbols x) x) in
      (mark_exported w p s, None)
  end.

Fixpoint pkg_list_remove_eq (l : list nat) (item : nat) : list nat :=
  match l with
  | [] => []
  | x :: l => if bool_decide (x = item) then l else x :: pkg_list_remove_eq l item
  end.

Definition cl_unexport_symbol (w : World) (s p : nat) : World :=
  let w := set_pkg w p (fun x => with_exports (pkg_list_remove_eq (exported_symbols x) s) x) in
  if bool_decide (s_package (sym_at w s) = Some p) then set_sym w s (with_flags false false) else w.

Definition bi_unexport (w : World) (s p : nat) : World := cl_unexport_symbol (cl_bindtab_materialize_all w p) s p.

(** cl_intern_in, with the bookkeeping of fresh keywords. *)
Definition cl_intern_in (w : World) (name : list Z) (p : nat) : World * option nat :=
  let (w, r) := cl_find_symbol_with_status w name p in
  match r with
  | Some (s, _) => (w, s)
  | None =>
      let (w, s) := cl_make_uninterned_symbol w name in
      let '(w, r, fresh) := intern_link w name p s in
      if fresh && bool_decide (p = cl_package_keyword)
      then (fst (cl_export_symbol (set_sym w s (with_value SelfValue false true)) s p), r)
      else (w, r)
  end.

(** ** Importing, shadowing, using *)

Definition cl_import_symbol (w : World) (s p : nat) : World * option cl_err :=
  let w := match bindings (pkg_at w p) with Some _ => cl_bindtab_materialize_all w p | None => w end in
  match import_symbol_nolock w s p with
  | Some w => (w, None)
  | None => (w, Some CL_ERR_GENERAL)
  end.

Definition cl_shadow_symbol (w : World) (name : list Z) (p : nat) : World :=
  match find_own_symbol w name p with
  | Some _ => w
  | None =>
      match cl_bindtab_probe_nolock w p name true with
      | Some h => fst (cl_bindtab_materialize w p name h false)
      | None =>
          let (w, s) := cl_make_uninterned_symbol w name in
          match find_own_symbol w name p with
          | None => cl_package_add_symbol_cell w p s
          | Some _ => w
          end
      end
  end.

Definition cl_use_package (w : World) (pkg_to_use using_pkg : nat) : World :=
  if bool_decide (pkg_to_use = using_pkg) then w
  else if bool_decide (pkg_to_use ∈ use_list (pkg_at w using_pkg)) then w
  else set_pkg w using_pkg (fun x => with_uses (pkg_to_use :: use_list x) x).

Definition cl_unuse_package (w : World) (pkg_to_unuse using_pkg : nat) : World :=
  set_pkg w using_pkg (fun x => with_uses (pkg_list_remove_eq (use_list x) pkg_to_unuse) x).

(** A symbol out of its chain; its home is gone if this was it. *)
Definition unintern_own_nolock (w : World) (s p : nat) : World :=
  let tbl := symbols (pkg_at w p) in
  let idx := bucket_of tbl (s_hash (sym_at w s)) in
  if bool_decide (s ∈ default [] (tbl !! idx)) then
    let w := set_pkg w p (fun x => with_symbols (alter (fun l => pkg_list_remove_eq l s) idx (symbols x)) (sym_count x - 1) x) in
    if bool_decide (s_package (sym_at w s) = Some p) then set_sym w s (with_package None) else w
  else w.

Definition bi_unintern (w : World) (s p : nat) : World := unintern_own_nolock (cl_bindtab_materialize_all w p) s p.

Definition shadowing_import_one (w : World) (s p : nat) : World :=
  let w :=
    match cl_package_find_symbol_nolock w (s_name (sym_at w s)) p with
    | Some t => if bool_decide (t = s) then w else package_link_symbol_cell (unintern_own_nolock w t p) p s
    | None => package_link_symbol_cell w p s
    end in
  if bool_decide (s ∈ shadowing_symbols (pkg_at w p)) then w
  else set_pkg w p (fun x => with_shadowing (s :: shadowing_symbols x) x).

Definition bi_shadowing_import (w : World) (l : list nat) (p : nat) : World :=
  fold_left (fun w s => shadowing_import_one w s p) l (cl_bindtab_materialize_all w p).

(** ** Packages and their tables *)

Definition CL_SYMTAB_SIZE : nat := 256.

Definition cl_make_package (w : World) (p : nat) : World :=
  {| syms := syms w;
     pkgs := <[p := {| symbols := replicate CL_SYMTAB_SIZE []; sym_count := 0; use_list := []; shadowing_symbols := [];
                       exported_symbols := []; bindings := None |}]> (pkgs w);
     setf_updaters := setf_updaters w; next := next w |}.

(** cl_bindtab_register: the table is attached, then what is present gets its
    definition. *)
Definition cl_bindtab_register (w : World) (p : nat) (blob : blob_obj) (base version : option nat) : World * option cl_err :=
  match blob, validate_blob blob with
  | ByteVector _ data, None =>
      if negb (Z.land (byte_at data 5) CL_BT_HF_LIBCALLS =? 0) && bool_decide (base = None) then (w, Some CL_ERR_ARGS)
      else
        let w := set_pkg w p (with_bindings (Some {| bt_blob := Some data; bt_base := base; bt_version := version |})) in
        let hits := omap (fun s => cl_bindtab_probe_nolock w p (s_name (sym_at w s)) true) (concat (symbols (pkg_at w p))) in
        (fold_left (fun w h => fst (cl_bindtab_materialize w p [] h true)) hits w, None)
  | _, _ => (w, Some CL_ERR_ARGS)
  end.

Definition cl_bindtab_shed (w : World) (p : nat) : World :=
  match bindings (pkg_at w p) with
  | Some b => set_pkg w p (with_bindings (Some {| bt_blob := None; bt_base := bt_base b; bt_version := bt_version b |}))
  | None => w
  end.

End Packages.
