(* ===== verification/PackWf.v ===== *)
(** * Packages: the invariant

    What holds of symbols and packages between operations, and that every
    operation keeps it: symbols sit in the chain of their hash, a name is there
    once, the count is exact, and the flag of a symbol's home says whether the
    home exports it. *)

From Stdlib Require Import ZArith Lia ZifyBool.
From stdpp Require Import base option list gmap.
From S2P Require Import Prelude Bignum HashKey BindBlob BindPack Package.
Local Open Scope Z_scope.

Definition present (w : World) (p s : nat) : Prop := s ∈ concat (symbols (pkg_at w p)).
Definition exports (w : World) (p s : nat) : Prop := s ∈ exported_symbols (pkg_at w p).

#[export] Instance exports_dec w p s : Decision (exports w p s) := decide (s ∈ exported_symbols (pkg_at w p)).

(** [s] is at most once in [l]. *)
Definition once (s : nat) (l : list nat) : Prop := forall i j, l !! i = Some s -> l !! j = Some s -> i = j.

(** The hash of a symbol is its name's; cl_make_symbol leaves 0. *)
Definition hashed (w : World) (s : nat) : Prop := s_hash (sym_at w s) = cl_hash_string (s_name (sym_at w s)).

Record wf (w : World) : Prop := {
  wf_next : forall s, is_Some (syms w !! s) -> (s < next w)%nat;
  wf_hash : forall p s, present w p s -> hashed w s;
  wf_chain : forall p i l s, symbols (pkg_at w p) !! i = Some l -> s ∈ l ->
    is_Some (syms w !! s) /\ bucket_of (symbols (pkg_at w p)) (s_hash (sym_at w s)) = i;
  wf_unique : forall p s t, present w p s -> present w p t -> s_name (sym_at w s) = s_name (sym_at w t) -> s = t;
  wf_nodup : forall p, NoDup (concat (symbols (pkg_at w p)));
  wf_count : forall p, sym_count (pkg_at w p) = Z.of_nat (length (concat (symbols (pkg_at w p))));
  wf_size : forall p, is_Some (pkgs w !! p) -> symbols (pkg_at w p) <> [];
  wf_exports : forall p s, exports w p s -> is_Some (syms w !! s);
  wf_home : forall s p, s_package (sym_at w s) = Some p ->
    (sym_exported_home (sym_at w s) = true <-> exports w p s) /\ once s (exported_symbols (pkg_at w p));
  wf_version : forall p b vs, bindings (pkg_at w p) = Some b -> bt_version b = Some vs -> is_Some (syms w !! vs);
  wf_table : forall p blob, pkg_blob w p = Some blob -> valid_table blob }.

(** ** Reading an updated world *)

Lemma pkg_at_set w p f q : is_Some (pkgs w !! p) -> pkg_at (set_pkg w p f) q = if decide (q = p) then f (pkg_at w p) else pkg_at w q.
Proof.
  intros [x Hx]. unfold pkg_at, set_pkg. cbn. destruct (decide (q = p)) as [->|Hn].
  - by rewrite lookup_alter_eq, Hx.
  - by rewrite lookup_alter_ne by done.
Qed.

Lemma sym_at_set w s f t : is_Some (syms w !! s) -> sym_at (set_sym w s f) t = if decide (t = s) then f (sym_at w s) else sym_at w t.
Proof.
  intros [x Hx]. unfold sym_at, set_sym. cbn. destruct (decide (t = s)) as [->|Hn].
  - by rewrite lookup_alter_eq, Hx.
  - by rewrite lookup_alter_ne by done.
Qed.

Lemma is_sym_set w s f t : is_Some (syms (set_sym w s f) !! t) <-> is_Some (syms w !! t).
Proof.
  cbn. destruct (decide (t = s)) as [->|Hn]; [|by rewrite lookup_alter_ne by done].
  rewrite lookup_alter_eq. by destruct (syms w !! s).
Qed.

Lemma is_pkg_set w p f q : is_Some (pkgs (set_pkg w p f) !! q) <-> is_Some (pkgs w !! q).
Proof.
  cbn. destruct (decide (q = p)) as [->|Hn]; [|by rewrite lookup_alter_ne by done].
  rewrite lookup_alter_eq. by destruct (pkgs w !! p).
Qed.

Lemma pkg_at_set_none w p f q : pkgs w !! p = None -> pkg_at (set_pkg w p f) q = pkg_at w q.
Proof.
  intros Hp. unfold pkg_at, set_pkg. cbn. destruct (decide (q = p)) as [->|Hn]; [|by rewrite lookup_alter_ne by done].
  by rewrite lookup_alter_eq, Hp.
Qed.

(** ** Chains *)

Lemma present_iff w p s : present w p s <-> exists i l, symbols (pkg_at w p) !! i = Some l /\ s ∈ l.
Proof.
  unfold present. rewrite list_elem_of_In, in_concat. split.
  - intros (l & Hl%list_elem_of_In & Hs%list_elem_of_In). apply list_elem_of_lookup_1 in Hl as [i Hi]. eauto.
  - intros (i & l & Hi & Hs). exists l. rewrite <- !list_elem_of_In. split; [by eapply list_elem_of_lookup_2|done].
Qed.

Lemma present_sym w p s : wf w -> present w p s -> is_Some (syms w !! s).
Proof. intros Hw (i & l & Hi & Hs)%present_iff. by destruct (wf_chain _ Hw _ _ _ _ Hi Hs). Qed.

(** A name is found exactly at the present symbol that has it. *)
Lemma find_own_iff w name p s : wf w -> find_own_symbol w name p = Some s <-> present w p s /\ s_name (sym_at w s) = name.
Proof.
  intros Hw. unfold find_own_symbol. set (tbl := symbols (pkg_at w p)). split.
  - intros H. destruct (list_find _ _) as [[i t]|] eqn:E; [|done]. injection H as <-. apply list_find_Some in E as (Hi & Hn & _).
    split; [|done]. apply present_iff. destruct (tbl !! _) as [l|] eqn:El; [|done]. exists (bucket_of tbl (cl_hash_string name)), l.
    split; [done|]. by eapply list_elem_of_lookup_2.
  - intros [Hp Hn]. pose proof Hp as (i & l & Hi & Hs)%present_iff. destruct (wf_chain _ Hw _ _ _ _ Hi Hs) as [[y Hy] Hb].
    assert (Eh : s_hash (sym_at w s) = cl_hash_string name) by by rewrite (wf_hash _ Hw _ _ Hp), Hn.
    rewrite Eh in Hb. fold tbl in Hb, Hi. rewrite Hb, Hi. cbn [default]. cbv [from_option id].
    destruct (list_find (fun s0 => s_name (sym_at w s0) = name) l) as [[j t]|] eqn:E; cbn.
    + apply list_find_Some in E as (Hj & Ht & _). f_equal. apply (wf_unique _ Hw p); [|done|by rewrite Ht, Hn].
      apply present_iff. exists i, l. split; [done|]. by eapply list_elem_of_lookup_2.
    + apply list_find_None in E. rewrite Forall_forall in E. by destruct (E s).
Qed.

Lemma find_own_none w name p : wf w -> find_own_symbol w name p = None <-> forall s, present w p s -> s_name (sym_at w s) <> name.
Proof.
  intros Hw. split.
  - intros H s Hs Hn. assert (E : find_own_symbol w name p = Some s) by by apply find_own_iff. by rewrite H in E.
  - intros H. destruct (find_own_symbol w name p) as [s|] eqn:E; [|done]. apply find_own_iff in E as [Hp Hn]; [|done]. by destruct (H s Hp).
Qed.

Lemma concat_alter (tbl : list (list nat)) i l s : tbl !! i = Some l ->
  concat (alter (cons s) i tbl) ≡ₚ s :: concat tbl.
Proof.
  revert i. induction tbl as [|a tbl IH]; intros [|i] H; [done|done| |].
  - injection H as ->. done.
  - cbn. change (list_alter (cons s) i tbl) with (alter (cons s) i tbl). rewrite (IH i H). by rewrite Permutation_middle.
Qed.

Lemma bucket_of_lt tbl h : tbl <> [] -> (bucket_of tbl h < length tbl)%nat.
Proof.
  intros H. unfold bucket_of. assert (0 < Z.of_nat (length tbl)) by (destruct tbl; [done|cbn; lia]).
  pose proof (Z.mod_pos_bound h (Z.of_nat (length tbl))). lia.
Qed.

Lemma bucket_of_alter f i tbl h : bucket_of (alter f i tbl) h = bucket_of tbl h.
Proof. unfold bucket_of. by rewrite length_alter. Qed.

(** ** Updates that keep the invariant *)

Lemma sym_lookup w s y : syms w !! s = Some y -> sym_at w s = y.
Proof. intros H. unfold sym_at. by rewrite H. Qed.

(** Worlds with the same names, chains and tables. *)
Record same_tables (w w' : World) : Prop := {
  st_sym : forall s, is_Some (syms w' !! s) <-> is_Some (syms w !! s);
  st_pkg : forall p, is_Some (pkgs w' !! p) <-> is_Some (pkgs w !! p);
  st_next : next w' = next w;
  st_at : forall s, s_name (sym_at w' s) = s_name (sym_at w s) /\ s_hash (sym_at w' s) = s_hash (sym_at w s);
  st_table : forall p, symbols (pkg_at w' p) = symbols (pkg_at w p) /\ sym_count (pkg_at w' p) = sym_count (pkg_at w p) /\
    bindings (pkg_at w' p) = bindings (pkg_at w p) }.

(** They are as well formed, if their export lists and home flags are. *)
Lemma wf_same_tables w w' : wf w -> same_tables w w' ->
  (forall p s, exports w' p s -> is_Some (syms w !! s)) ->
  (forall s p, s_package (sym_at w' s) = Some p ->
     (sym_exported_home (sym_at w' s) = true <-> exports w' p s) /\ once s (exported_symbols (pkg_at w' p))) ->
  wf w'.
Proof.
  intros [W1 W2 W3 W4 W5 W6 W7 _ _ W10 W11] [As Ap An Aa At] He Hh. split; [| | | | | | | |done| |].
  - intros s Hs%As. rewrite An. by apply W1.
  - intros p s. unfold present, hashed. destruct (At p) as (-> & _), (Aa s) as (-> & ->). apply W2.
  - intros p i l s. destruct (At p) as (-> & _). intros Hi Hs. destruct (W3 p i l s Hi Hs) as [H1 H2]. destruct (Aa s) as (_ & ->). by rewrite As.
  - intros p s t. unfold present. destruct (At p) as (-> & _), (Aa s) as (-> & _), (Aa t) as (-> & _). apply W4.
  - intros p. destruct (At p) as (-> & _). apply W5.
  - intros p. destruct (At p) as (-> & -> & _). apply W6.
  - intros p Hp%Ap. destruct (At p) as (-> & _). by apply W7.
  - intros p s Hs. rewrite As. by apply (He p).
  - intros p b vs. destruct (At p) as (_ & _ & ->). rewrite As. apply W10.
  - intros p blob. unfold pkg_blob. destruct (At p) as (_ & _ & ->). apply W11.
Qed.

(** Worlds that differ in nothing the invariant speaks of. *)
Record alike (w w' : World) : Prop := {
  al_tables : same_tables w w';
  al_home : forall s, s_package (sym_at w' s) = s_package (sym_at w s) /\ sym_exported_home (sym_at w' s) = sym_exported_home (sym_at w s);
  al_exports : forall p, exported_symbols (pkg_at w' p) = exported_symbols (pkg_at w p) }.

Lemma alike_refl w : alike w w.
Proof. by split; [split|..]. Qed.

Lemma wf_alike w w' : alike w w' -> wf w -> wf w'.
Proof.
  intros [At Ah Ae] Hw. apply (wf_same_tables w); [done|done| |].
  - intros p s. unfold exports. rewrite Ae. apply (wf_exports _ Hw).
  - intros s p. destruct (Ah s) as [-> ->]. unfold exports. rewrite Ae. apply (wf_home _ Hw).
Qed.

(** A change of a symbol that leaves its name, hash, home and home flag. *)
Definition keeps (f : Symbol -> Symbol) : Prop :=
  forall x, s_name (f x) = s_name x /\ s_hash (f x) = s_hash x /\ s_package (f x) = s_package x /\ sym_exported_home (f x) = sym_exported_home x.

Lemma keeps_value v a b : keeps (with_value v a b).
Proof. done. Qed.
Lemma keeps_function f : keeps (with_function f).
Proof. done. Qed.

Lemma set_sym_none w s f t : syms w !! s = None -> sym_at (set_sym w s f) t = sym_at w t.
Proof.
  intros Hs. unfold sym_at, set_sym. cbn. destruct (decide (t = s)) as [->|]; [|by rewrite lookup_alter_ne by done].
  by rewrite lookup_alter_eq, Hs.
Qed.

Lemma is_sym_dec w s : {is_Some (syms w !! s)} + {syms w !! s = None}.
Proof. destruct (syms w !! s); [left; by eexists|by right]. Defined.

(** A field of a symbol that [f] keeps is kept. *)
Lemma set_sym_keeps {A} (g : Symbol -> A) w s f t : (forall x, g (f x) = g x) -> g (sym_at (set_sym w s f) t) = g (sym_at w t).
Proof.
  intros Hg. destruct (is_sym_dec w s) as [Hs|Hs]; [|by rewrite set_sym_none].
  rewrite sym_at_set by done. destruct (decide (t = s)) as [->|]; [apply Hg|done].
Qed.

Lemma set_pkg_keeps {A} (g : Package -> A) w p f q : (forall x, g (f x) = g x) -> g (pkg_at (set_pkg w p f) q) = g (pkg_at w q).
Proof.
  intros Hg. destruct (pkgs w !! p) as [x|] eqn:E; [|by rewrite pkg_at_set_none].
  rewrite pkg_at_set by by rewrite E. destruct (decide (q = p)) as [->|]; [apply Hg|done].
Qed.

Lemma alike_set_sym w s f : keeps f -> alike w (set_sym w s f).
Proof.
  intros Hf. split; [split; [intros; apply is_sym_set|done|done| |done]|..|done]; intros t;
    split; apply set_sym_keeps; intros x; by destruct (Hf x) as (? & ? & ? & ?).
Qed.

(** A change of a package that leaves its table, exports and bindings. *)
Lemma alike_set_pkg w p f :
  (forall x, symbols (f x) = symbols x /\ sym_count (f x) = sym_count x /\ exported_symbols (f x) = exported_symbols x /\ bindings (f x) = bindings x) ->
  alike w (set_pkg w p f).
Proof.
  intros Hf. split; [split; [done|intros; apply is_pkg_set|done|done|]|done|]; intros q; repeat split;
    apply set_pkg_keeps; intros x; by destruct (Hf x) as (? & ? & ? & ?).
Qed.

(** A new symbol, with any hash. *)
Definition new_symbol (w : World) (name : list Z) (h : Z) : World :=
  {| syms := <[next w := {| s_name := name; s_package := None; s_hash := h; s_value := None; s_function := None;
                            sym_special := false; sym_exported := false; sym_constant := false; sym_exported_home := false |}]> (syms w);
     pkgs := pkgs w; setf_updaters := setf_updaters w; next := S (next w) |}.

Lemma wf_new_symbol w name h : wf w -> wf (new_symbol w name h).
Proof.
  intros Hw. pose proof Hw as [W1 W2 W3 W4 W5 W6 W7 W8 W9 W10 W11]. set (w' := new_symbol w name h).
  assert (Hfresh : forall s, is_Some (syms w !! s) -> s <> next w) by (intros s Hs ->; apply W1 in Hs; lia).
  assert (Hs : forall s, is_Some (syms w !! s) -> is_Some (syms w' !! s) /\ sym_at w' s = sym_at w s).
  { intros s H. unfold sym_at. cbn. rewrite lookup_insert_ne by (intros E; by apply (Hfresh s)). done. }
  assert (Hp : forall p s, present w p s -> is_Some (syms w !! s)) by (intros; by eapply present_sym).
  split; try done.
  - intros s H. cbn in *. destruct (decide (s = next w)) as [->|]; [lia|]. rewrite lookup_insert_ne in H by done. apply W1 in H. lia.
  - intros p s Ps. unfold hashed. destruct (Hs s (Hp _ _ Ps)) as [_ ->]. by apply (W2 p).
  - intros p i l s Hi Hl. destruct (W3 p i l s Hi Hl) as [H1 H2]. destruct (Hs s H1) as [H3 H4]. by rewrite H4.
  - intros p s t Ps Pt. destruct (Hs s (Hp _ _ Ps)) as [_ ->]. destruct (Hs t (Hp _ _ Pt)) as [_ ->]. by apply (W4 p).
  - intros p s H. by apply Hs, (W8 p).
  - intros s p. unfold sym_at, w', new_symbol. cbn [syms].
    destruct (decide (s = next w)) as [->|Hn]; [by rewrite lookup_insert_eq|]. rewrite lookup_insert_ne by done. apply W9.
  - intros p b vs Hb Hv. by apply Hs, (W10 p b).
Qed.

Lemma uninterned_new w name : fst (cl_make_uninterned_symbol w name) = new_symbol w name (cl_hash_string name).
Proof.
  unfold cl_make_uninterned_symbol, make_symbol, set_sym, new_symbol. cbn. f_equal. apply map_eq. intros s.
  destruct (decide (s = next w)) as [->|Hs]; [by rewrite lookup_alter_eq, !lookup_insert_eq|by rewrite lookup_alter_ne, !lookup_insert_ne].
Qed.

Lemma wf_gensym w name : wf w -> wf (fst (make_symbol w name)).
Proof. apply wf_new_symbol. Qed.

Lemma wf_make_symbol w name : wf w -> wf (fst (cl_make_uninterned_symbol w name)).
Proof. intros Hw. rewrite uninterned_new. by apply wf_new_symbol. Qed.

(** Linking a symbol under a name that is not there. *)
Lemma link_pkg w p s q : is_Some (pkgs w !! p) -> pkg_at (package_link_symbol_cell w p s) q =
  if decide (q = p) then with_symbols (alter (cons s) (bucket_of (symbols (pkg_at w p)) (s_hash (sym_at w s))) (symbols (pkg_at w p)))
                           (sym_count (pkg_at w p) + 1) (pkg_at w p)
  else pkg_at w q.
Proof. intros Hp. unfold package_link_symbol_cell. rewrite pkg_at_set by done. by destruct (decide (q = p)) as [->|]. Qed.

Lemma link_concat w p s : wf w -> is_Some (pkgs w !! p) ->
  concat (symbols (pkg_at (package_link_symbol_cell w p s) p)) ≡ₚ s :: concat (symbols (pkg_at w p)).
Proof.
  intros Hw Hp. rewrite link_pkg, decide_True by done. cbn [symbols with_symbols].
  destruct (lookup_lt_is_Some_2 (symbols (pkg_at w p)) (bucket_of (symbols (pkg_at w p)) (s_hash (sym_at w s)))) as [l Hl].
  { apply bucket_of_lt. by apply (wf_size _ Hw). }
  by eapply concat_alter.
Qed.

Lemma link_present w p s q t : wf w -> is_Some (pkgs w !! p) ->
  present (package_link_symbol_cell w p s) q t <-> present w q t \/ (q = p /\ t = s).
Proof.
  intros Hw Hp. unfold present. destruct (decide (q = p)) as [->|Hn].
  - rewrite link_concat by done. rewrite elem_of_cons. tauto.
  - rewrite link_pkg, decide_False by done. tauto.
Qed.

Lemma wf_link w p s : wf w -> is_Some (pkgs w !! p) -> is_Some (syms w !! s) -> hashed w s ->
  find_own_symbol w (s_name (sym_at w s)) p = None -> wf (package_link_symbol_cell w p s).
Proof.
  intros Hw Hp Hs Hhash Hnone. pose proof (proj1 (find_own_none _ _ _ Hw) Hnone) as Habs. pose proof Hw as [W1 W2 W3 W4 W5 W6 W7 W8 W9 W10 W11].
  set (w' := package_link_symbol_cell w p s).
  assert (Hsame : forall q, exported_symbols (pkg_at w' q) = exported_symbols (pkg_at w q) /\ bindings (pkg_at w' q) = bindings (pkg_at w q)).
  { intros q. unfold w'. rewrite link_pkg by done. by destruct (decide (q = p)) as [->|]. }
  split; try done.
  - intros q t. unfold w'. rewrite link_present by done. intros [Ht|[-> ->]]; [by apply (W2 q)|done].
  - intros q i l t. unfold w'. rewrite link_pkg by done. change (sym_at (package_link_symbol_cell w p s)) with (sym_at w).
    destruct (decide (q = p)) as [->|]; [|apply W3]. cbn [symbols with_symbols]. set (k := bucket_of _ _). rewrite bucket_of_alter.
    destruct (decide (i = k)) as [->|Hik].
    + rewrite list_lookup_alter_eq. destruct (symbols (pkg_at w p) !! k) as [l0|] eqn:El; [|done]. intros [= <-] [->|Ht]%elem_of_cons.
      * done.
      * by apply (W3 p k l0).
    + rewrite list_lookup_alter_ne by done. apply W3.
  - intros q t u. unfold w'. rewrite !link_present by done. change (sym_at (package_link_symbol_cell w p s)) with (sym_at w).
    intros [Ht|[-> ->]] [Hu|[Hq ->]] E; try done; [by apply (W4 q)| |].
    + subst q. by destruct (Habs t).
    + by destruct (Habs u).
  - intros q. destruct (decide (q = p)) as [->|Hn].
    + unfold w'. rewrite link_concat by done. apply NoDup_cons. split; [|apply W5]. intros Hin. by apply (Habs s Hin).
    + unfold w'. rewrite link_pkg, decide_False by done. apply W5.
  - intros q. destruct (decide (q = p)) as [->|Hn].
    + unfold w'. rewrite link_concat by done. rewrite link_pkg, decide_True by done. cbn [sym_count with_symbols length]. rewrite W6. lia.
    + unfold w'. rewrite link_pkg, decide_False by done. apply W6.
  - intros q Hq%is_pkg_set. unfold w'. rewrite link_pkg by done. destruct (decide (q = p)) as [->|]; [|by apply W7]. cbn.
    intros E. apply (W7 p Hp). apply (f_equal length) in E. rewrite length_alter in E. by apply nil_length_inv.
  - intros q t. unfold exports. destruct (Hsame q) as [-> _]. apply W8.
  - intros t q Hh. destruct (Hsame q) as [E _]. unfold exports. rewrite E. by apply W9.
  - intros q b vs. destruct (Hsame q) as [_ ->]. apply W10.
  - intros q blob. unfold pkg_blob. destruct (Hsame q) as [_ ->]. apply W11.
Qed.

(** A change of a symbol that keeps its name and hash. *)
Lemma wf_set_sym w s f : wf w -> (forall x, s_name (f x) = s_name x /\ s_hash (f x) = s_hash x) ->
  (forall q, s_package (f (sym_at w s)) = Some q ->
     (sym_exported_home (f (sym_at w s)) = true <-> exports w q s) /\ once s (exported_symbols (pkg_at w q))) ->
  wf (set_sym w s f).
Proof.
  intros Hw Hf Hh. apply (wf_same_tables w); [done| |apply (wf_exports _ Hw)|].
  - split; [intros; apply is_sym_set|done|done| |done]. intros t. split; apply set_sym_keeps; intros x; apply Hf.
  - intros t p. destruct (is_sym_dec w s) as [Hs|Hs]; [|rewrite set_sym_none by done; apply (wf_home _ Hw)].
    rewrite sym_at_set by done. destruct (decide (t = s)) as [->|]; [apply Hh|apply (wf_home _ Hw)].
Qed.

(** A new export list of [p], and the flags of the one symbol it concerns. *)
Lemma wf_set_exports w p s l f : wf w -> is_Some (pkgs w !! p) ->
  (forall x, s_name (f x) = s_name x /\ s_hash (f x) = s_hash x /\ s_package (f x) = s_package x) ->
  (forall t, t ∈ l -> is_Some (syms w !! t)) ->
  (forall t, t <> s -> (t ∈ l <-> exports w p t) /\ (once t (exported_symbols (pkg_at w p)) -> once t l)) ->
  (s_package (sym_at w s) = Some p -> (sym_exported_home (f (sym_at w s)) = true <-> s ∈ l) /\ once s l) ->
  (s_package (sym_at w s) <> Some p -> sym_exported_home (f (sym_at w s)) = sym_exported_home (sym_at w s)) ->
  wf (set_sym (set_pkg w p (with_exports l)) s f).
Proof.
  intros Hw Hp Hf Hl Ho Hh Hh'. set (w' := set_sym (set_pkg w p (with_exports l)) s f).
  assert (Hpk : forall q, exported_symbols (pkg_at w' q) = if decide (q = p) then l else exported_symbols (pkg_at w q)).
  { intros q. change (pkg_at w' q) with (pkg_at (set_pkg w p (with_exports l)) q). rewrite pkg_at_set by done. by destruct (decide (q = p)). }
  apply (wf_same_tables w); [done| | |].
  - split; [intros; apply (is_sym_set (set_pkg w p (with_exports l)))|intros; apply (is_pkg_set w p (with_exports l))|done| |].
    + intros t. split; apply (set_sym_keeps _ (set_pkg w p (with_exports l))); intros x; apply Hf.
    + intros q. repeat split; by apply (set_pkg_keeps _ w p (with_exports l)).
  - intros q t. unfold exports. rewrite Hpk. destruct (decide (q = p)); [apply Hl|apply (wf_exports _ Hw)].
  - intros t q. unfold exports. rewrite Hpk. destruct (is_sym_dec w s) as [Hs|Hs].
    + unfold w'. rewrite sym_at_set by done. change (sym_at (set_pkg w p (with_exports l))) with (sym_at w).
      destruct (decide (t = s)) as [->|Hts]; [destruct (Hf (sym_at w s)) as (_ & _ & ->)|]; intros Hq;
        destruct (decide (q = p)) as [->|Hqp]; [by apply Hh| | |by apply (wf_home _ Hw)].
      * rewrite Hh' by (rewrite Hq; congruence). by apply (wf_home _ Hw).
      * destruct (Ho t Hts) as [H1 H2], (wf_home _ Hw t p Hq) as [H3 H4]. rewrite H1. split; [done|by apply H2].
    + unfold w'. rewrite (set_sym_none (set_pkg w p (with_exports l))) by done. change (sym_at (set_pkg w p (with_exports l))) with (sym_at w).
      intros Hq. destruct (decide (q = p)) as [->|Hqp]; [|by apply (wf_home _ Hw)].
      assert (Hts : t <> s) by (intros ->; unfold sym_at in Hq; by rewrite Hs in Hq).
      destruct (Ho t Hts) as [H1 H2], (wf_home _ Hw t p Hq) as [H3 H4]. rewrite H1. split; [done|by apply H2].
Qed.
