(* ===== verification/PackOps.v ===== *)
(** * Packages: operations keep the invariant

    Every operation of package.c, of symbol.c's intern, of the package
    builtins and of the binding tables takes a well-formed world to a
    well-formed one, whatever came before. *)

From Stdlib Require Import ZArith Lia ZifyBool.
From stdpp Require Import base option list gmap.
From S2P Require Import Prelude Bignum HashKey BindBlob BindPack Package PackWf.
Local Open Scope Z_scope.

(** A symbol no package knows yet, ready to be linked. *)
Record hidden (w : World) (s : nat) : Prop := {
  hd_sym : is_Some (syms w !! s);
  hd_hash : hashed w s;
  hd_present : forall p, ~ present w p s;
  hd_exports : forall p, ~ exports w p s;
  hd_package : s_package (sym_at w s) = None }.

Lemma make_symbol_next w name : snd (cl_make_uninterned_symbol w name) = next w.
Proof. done. Qed.

Lemma make_symbol_sym w name s : s <> next w -> sym_at (fst (cl_make_uninterned_symbol w name)) s = sym_at w s.
Proof. intros Hn. rewrite uninterned_new. unfold sym_at. cbn. by rewrite lookup_insert_ne by done. Qed.

Lemma make_symbol_new w name : s_name (sym_at (fst (cl_make_uninterned_symbol w name)) (next w)) = name /\
  s_package (sym_at (fst (cl_make_uninterned_symbol w name)) (next w)) = None /\
  is_Some (syms (fst (cl_make_uninterned_symbol w name)) !! next w).
Proof. rewrite uninterned_new. unfold sym_at. cbn. rewrite lookup_insert_eq. eauto. Qed.

Lemma make_symbol_hashed w name : hashed (fst (cl_make_uninterned_symbol w name)) (next w).
Proof. rewrite uninterned_new. unfold hashed, sym_at. cbn. by rewrite lookup_insert_eq. Qed.

Lemma make_symbol_is w name s : is_Some (syms w !! s) -> is_Some (syms (fst (cl_make_uninterned_symbol w name)) !! s).
Proof.
  intros Hs. rewrite uninterned_new. cbn.
  destruct (decide (s = next w)) as [->|Hn]; [rewrite lookup_insert_eq; eauto|by rewrite lookup_insert_ne by done].
Qed.

Lemma sym_not_next w s : wf w -> is_Some (syms w !! s) -> s <> next w.
Proof. intros Hw Hs ->. apply (wf_next _ Hw) in Hs. lia. Qed.

Lemma hidden_new w name : wf w -> hidden (fst (cl_make_uninterned_symbol w name)) (next w).
Proof.
  intros Hw. destruct (make_symbol_new w name) as (_ & H2 & H3). split; [done|apply make_symbol_hashed| | |done].
  - intros p Hp. change (present w p (next w)) in Hp. by apply (sym_not_next w (next w) Hw); [apply (present_sym _ p)|].
  - intros p Hp. change (exports w p (next w)) in Hp. by apply (sym_not_next w (next w) Hw); [apply (wf_exports _ Hw p)|].
Qed.

Lemma hidden_make_symbol w name s : wf w -> hidden w s -> hidden (fst (cl_make_uninterned_symbol w name)) s.
Proof.
  intros Hw [H1 Hh H2 H3 H4]. pose proof (make_symbol_sym w name s (sym_not_next w s Hw H1)) as E.
  split; [by apply make_symbol_is|by unfold hashed; rewrite E|done|done|by rewrite E].
Qed.

(** ** The parts of an operation *)

Section Worlds.
Context (w : World) (Hw : wf w).

Lemma wf_value s v a b : wf (set_sym w s (with_value v a b)).
Proof. by apply (wf_alike w); [apply alike_set_sym, keeps_value|]. Qed.

Lemma wf_function s f : wf (set_sym w s (with_function f)).
Proof. by apply (wf_alike w); [apply alike_set_sym, keeps_function|]. Qed.

Lemma wf_install s d : wf (install_definition w s d).
Proof. destruct d; [apply wf_value|apply wf_function|done]. Qed.

Lemma wf_updater s u : wf (cl_register_setf_updater w s u).
Proof. unfold cl_register_setf_updater. destruct (bool_decide _); [done|]. by apply (wf_alike w). Qed.

Lemma wf_add_symbol_cell p s : is_Some (pkgs w !! p) -> hidden w s -> find_own_symbol w (s_name (sym_at w s)) p = None ->
  wf (cl_package_add_symbol_cell w p s).
Proof.
  intros Hp Hs Hn. unfold cl_package_add_symbol_cell. apply wf_set_sym; [by apply wf_link; [done..|apply hd_sym|apply hd_hash|]|done|].
  intros q [= <-]. cbn [sym_exported_home with_package]. change (exports (package_link_symbol_cell w p s) p s) with (s ∈ exported_symbols (pkg_at (package_link_symbol_cell w p s) p)).
  rewrite link_pkg, decide_True by done. cbn [exported_symbols with_symbols]. pose proof (hd_exports _ _ Hs p) as He. unfold exports in He.
  split; [done|]. intros i j Hi. destruct He. by eapply list_elem_of_lookup_2.
Qed.

(** Putting a symbol on an export list and setting its flags. *)
Lemma wf_mark p s l : is_Some (pkgs w !! p) -> is_Some (syms w !! s) ->
  l = s :: exported_symbols (pkg_at w p) /\ exported_p_nolock w s p = false \/
  l = exported_symbols (pkg_at w p) /\ exported_p_nolock w s p = true ->
  wf (mark_exported (set_pkg w p (with_exports l)) p s).
Proof.
  intros Hp Hs Hl. unfold mark_exported. apply wf_set_exports; try done.
  - intros t Ht. destruct Hl as [[-> _]|[-> _]]; [apply elem_of_cons in Ht as [->|Ht]; [done|]|]; by apply (wf_exports _ Hw p).
  - intros t Hts. unfold exports. destruct Hl as [[-> _]|[-> _]]; [|done]. rewrite elem_of_cons. split; [tauto|].
    intros Ho [|i] [|j]; cbn; intros Hi Hj; [done|congruence|congruence|]. f_equal. by apply Ho.
  - intros Hq. destruct (wf_home _ Hw s p Hq) as [H1 H2]. cbn [sym_exported_home with_flags]. rewrite (bool_decide_eq_true_2 _ Hq), orb_true_r.
    unfold exported_p_nolock in Hl. rewrite (bool_decide_eq_true_2 _ Hq) in Hl. destruct Hl as [[-> Hl]|[-> Hl]].
    + split; [rewrite elem_of_cons; tauto|]. assert (Hno : ~ exports w p s) by (rewrite <- H1; by rewrite Hl).
      intros [|i] [|j] Hi Hj; [done|..]; destruct Hno; by eapply list_elem_of_lookup_2.
    + split; [|done]. split; [|done]. intros _. by apply H1.
  - intros Hq. cbn [sym_exported_home with_flags]. by rewrite (bool_decide_eq_false_2 _ Hq), orb_false_r.
Qed.

Lemma set_pkg_exports p g :
  set_pkg w p (fun x => with_exports (g (exported_symbols x)) x) = set_pkg w p (with_exports (g (exported_symbols (pkg_at w p)))).
Proof. unfold set_pkg. f_equal. apply alter_ext. intros x Hx. unfold pkg_at. by rewrite Hx. Qed.

Lemma set_pkg_same_exports p : set_pkg w p (with_exports (exported_symbols (pkg_at w p))) = w.
Proof.
  rewrite <- (set_pkg_exports p (fun l => l)). unfold set_pkg. destruct w as [a b c d]. cbn. f_equal. apply map_eq. intros q.
  destruct (decide (q = p)) as [->|]; [rewrite lookup_alter_eq|by rewrite lookup_alter_ne]. by destruct (b !! p) as [[]|].
Qed.

Lemma wf_push_export p s : is_Some (pkgs w !! p) -> is_Some (syms w !! s) -> exported_p_nolock w s p = false ->
  wf (cl_package_push_export_cell_nolock w p s).
Proof.
  intros Hp Hs He. unfold cl_package_push_export_cell_nolock. rewrite (set_pkg_exports p (cons s)). apply wf_mark; [done|done|].
  left. done.
Qed.

Lemma wf_mark_exported p s : is_Some (pkgs w !! p) -> is_Some (syms w !! s) -> exported_p_nolock w s p = true -> wf (mark_exported w p s).
Proof. intros Hp Hs He. rewrite <- (set_pkg_same_exports p) at 1. apply wf_mark; [done|done|]. by right. Qed.

Lemma wf_bindings p b : (forall b' vs, b = Some b' -> bt_version b' = Some vs -> is_Some (syms w !! vs)) ->
  (forall b' blob, b = Some b' -> bt_blob b' = Some blob -> valid_table blob) -> wf (set_pkg w p (with_bindings b)).
Proof.
  intros Hv Ht. destruct (decide (is_Some (pkgs w !! p))) as [Hp|Hp].
  2:{ apply (wf_alike w); [|done]. split; [split|..]; try done; intros; try apply is_pkg_set;
      rewrite pkg_at_set_none by (by apply eq_None_not_Some); done. }
  assert (Hpk : forall q, pkg_at (set_pkg w p (with_bindings b)) q = if decide (q = p) then with_bindings b (pkg_at w p) else pkg_at w q).
  { intros q. by apply pkg_at_set. }
  assert (Hk : forall q, symbols (pkg_at (set_pkg w p (with_bindings b)) q) = symbols (pkg_at w q) /\
      sym_count (pkg_at (set_pkg w p (with_bindings b)) q) = sym_count (pkg_at w q) /\
      exported_symbols (pkg_at (set_pkg w p (with_bindings b)) q) = exported_symbols (pkg_at w q)).
  { intros q. repeat split; by apply set_pkg_keeps. }
  pose proof Hw as [W1 W2 W3 W4 W5 W6 W7 W8 W9 W10 W11]. split; try done.
  - intros q s. unfold present. destruct (Hk q) as (-> & _). apply W2.
  - intros q i l s. destruct (Hk q) as (-> & _). apply W3.
  - intros q s t. unfold present. destruct (Hk q) as (-> & _). apply W4.
  - intros q. destruct (Hk q) as (-> & _). apply W5.
  - intros q. destruct (Hk q) as (-> & -> & _). apply W6.
  - intros q Hq%is_pkg_set. destruct (Hk q) as (-> & _). by apply W7.
  - intros q s. unfold exports. destruct (Hk q) as (_ & _ & ->). apply W8.
  - intros s q. unfold exports. destruct (Hk q) as (_ & _ & ->). apply W9.
  - intros q b' vs. rewrite Hpk. destruct (decide (q = p)); [apply Hv|apply W10].
  - intros q blob. unfold pkg_blob. rewrite Hpk. destruct (decide (q = p)); [|apply W11]. cbn [bindings with_bindings].
    destruct b as [b'|]; cbn; [by apply Ht|done].
Qed.

End Worlds.

(** ** Removing from a list *)

Lemma remove_none l s : s ∉ l -> pkg_list_remove_eq l s = l.
Proof.
  induction l as [|x l IH]; [done|]. rewrite not_elem_of_cons. intros [Hx Hl]. cbn.
  rewrite bool_decide_eq_false_2 by congruence. by rewrite IH.
Qed.

Lemma remove_perm l s : s ∈ l -> l ≡ₚ s :: pkg_list_remove_eq l s.
Proof.
  induction l as [|x l IH]; [by intros ?%elem_of_nil|]. cbn. destruct (bool_decide_reflect (x = s)) as [->|Hx]; [done|].
  intros [->|Hs]%elem_of_cons; [done|]. rewrite (IH Hs) at 1. by rewrite Permutation_swap.
Qed.

Lemma remove_other l s t : t <> s -> t ∈ pkg_list_remove_eq l s <-> t ∈ l.
Proof.
  intros Hts. induction l as [|x l IH]; [done|]. cbn. destruct (bool_decide_reflect (x = s)) as [->|Hx]; rewrite !elem_of_cons; [tauto|].
  by rewrite IH.
Qed.

Lemma once_remove l s t : t <> s -> once t l -> once t (pkg_list_remove_eq l s).
Proof.
  intros Hts. unfold once. induction l as [|x l IH]; intros Ho; [done|]. cbn. destruct (bool_decide_reflect (x = s)) as [->|Hx].
  - intros i j Hi Hj. specialize (Ho (S i) (S j) Hi Hj). lia.
  - assert (IH' : forall i j, pkg_list_remove_eq l s !! i = Some t -> pkg_list_remove_eq l s !! j = Some t -> i = j).
    { apply IH. intros i j Hi Hj. specialize (Ho (S i) (S j) Hi Hj). lia. }
    assert (Hno : x = t -> forall j, pkg_list_remove_eq l s !! j <> Some t).
    { intros -> j Hj. apply list_elem_of_lookup_2, remove_other in Hj; [|done]. apply list_elem_of_lookup_1 in Hj as [k Hk].
      by specialize (Ho 0%nat (S k) eq_refl Hk). }
    intros [|i] [|j]; cbn; intros Hi Hj; [done| | |f_equal; by apply IH'].
    + injection Hi as ->. by destruct (Hno eq_refl j).
    + injection Hj as ->. by destruct (Hno eq_refl i).
Qed.

Lemma once_gone l s : once s l -> s ∉ pkg_list_remove_eq l s.
Proof.
  induction l as [|x l IH]; intros Ho; [by intros ?%elem_of_nil|]. cbn. destruct (bool_decide_reflect (x = s)) as [->|Hx].
  - intros Hs. apply list_elem_of_lookup_1 in Hs as [j Hj]. by specialize (Ho 0%nat (S j) eq_refl Hj).
  - rewrite not_elem_of_cons. split; [congruence|]. apply IH. intros i j Hi Hj. specialize (Ho (S i) (S j) Hi Hj). lia.
Qed.

(** ** Unexporting and uninterning *)

Lemma set_sym_id w s : set_sym w s (fun x => x) = w.
Proof. destruct w as [a b c d]. unfold set_sym. cbn. f_equal. apply map_eq. intros t. destruct (decide (t = s)) as [->|];
  [rewrite lookup_alter_eq|by rewrite lookup_alter_ne]. by destruct (a !! s). Qed.

Lemma wf_unexport w s p : wf w -> is_Some (pkgs w !! p) -> wf (cl_unexport_symbol w s p).
Proof.
  intros Hw Hp. unfold cl_unexport_symbol. change (sym_at (set_pkg w p _) s) with (sym_at w s).
  rewrite (set_pkg_exports w p (fun l => pkg_list_remove_eq l s)). set (l := exported_symbols (pkg_at w p)).
  assert (Hin : forall t, t ∈ pkg_list_remove_eq l s -> is_Some (syms w !! t)).
  { intros t Ht. apply (wf_exports _ Hw p). unfold exports. fold l. destruct (decide (t = s)) as [->|Hts].
    - destruct (decide (s ∈ l)) as [|Hs]; [done|]. by rewrite remove_none in Ht.
    - by apply remove_other in Ht. }
  assert (Ho : forall t, t <> s -> (t ∈ pkg_list_remove_eq l s <-> exports w p t) /\ (once t l -> once t (pkg_list_remove_eq l s))).
  { intros t Hts. split; [by apply remove_other|by apply once_remove]. }
  destruct (bool_decide_reflect (s_package (sym_at w s) = Some p)) as [Hh|Hh].
  - apply wf_set_exports; try done. intros _. destruct (wf_home _ Hw s p Hh) as [_ H2]. pose proof (once_gone _ _ H2) as Hg.
    cbn [sym_exported_home with_flags]. split; [done|]. intros i j Hi. destruct Hg. by eapply list_elem_of_lookup_2.
  - rewrite <- (set_sym_id (set_pkg w p (with_exports (pkg_list_remove_eq l s))) s). by apply wf_set_exports.
Qed.

Lemma concat_alter_remove (tbl : list (list nat)) i l s : tbl !! i = Some l -> s ∈ l ->
  concat tbl ≡ₚ s :: concat (alter (fun l => pkg_list_remove_eq l s) i tbl).
Proof.
  revert i. induction tbl as [|a tbl IH]; intros [|i] H Hs; [done|done| |].
  - injection H as ->. cbn. by rewrite (remove_perm l s Hs) at 1.
  - cbn. change (list_alter (fun l => pkg_list_remove_eq l s) i tbl) with (alter (fun l => pkg_list_remove_eq l s) i tbl).
    rewrite (IH i H Hs). by rewrite Permutation_middle.
Qed.

Section Unlink.
Context (w : World) (p s i : nat) (l : list nat).
Let tbl := symbols (pkg_at w p).
Definition unlinked : World :=
  set_pkg w p (fun x => with_symbols (alter (fun l => pkg_list_remove_eq l s) i (symbols x)) (sym_count x - 1) x).
Context (Hw : wf w) (Hp : is_Some (pkgs w !! p)) (Hi : tbl !! i = Some l) (Hs : s ∈ l).

Lemma unlinked_pkg q : pkg_at unlinked q =
  if decide (q = p) then with_symbols (alter (fun l => pkg_list_remove_eq l s) i tbl) (sym_count (pkg_at w p) - 1) (pkg_at w p) else pkg_at w q.
Proof using Hp. unfold unlinked. rewrite pkg_at_set by done. by destruct (decide (q = p)) as [->|]. Qed.

Lemma unlinked_concat : concat (symbols (pkg_at w p)) ≡ₚ s :: concat (symbols (pkg_at unlinked p)).
Proof using Hp Hi Hs. rewrite unlinked_pkg, decide_True by done. by eapply concat_alter_remove. Qed.

Lemma unlinked_present q t : present unlinked q t <-> present w q t /\ ~ (q = p /\ t = s).
Proof using Hp Hi Hs Hw.
  unfold present. destruct (decide (q = p)) as [->|Hq].
  - pose proof (wf_nodup _ Hw p) as Hnd. rewrite unlinked_concat in Hnd |- *. apply NoDup_cons in Hnd as [Hn _].
    rewrite elem_of_cons. split; [|tauto]. intros Ht. split; [tauto|]. intros [_ ->]. done.
  - rewrite unlinked_pkg, decide_False by done. tauto.
Qed.

Lemma wf_unlinked : wf unlinked.
Proof using All.
  assert (Hsame : forall q, exported_symbols (pkg_at unlinked q) = exported_symbols (pkg_at w q) /\ bindings (pkg_at unlinked q) = bindings (pkg_at w q)).
  { intros q. rewrite unlinked_pkg. by destruct (decide (q = p)) as [->|]. }
  pose proof Hw as [W1 W2 W3 W4 W5 W6 W7 W8 W9 W10 W11]. split; try done.
  - intros q t [Ht _]%unlinked_present. by apply (W2 q).
  - intros q k c t. rewrite unlinked_pkg. change (sym_at unlinked) with (sym_at w). destruct (decide (q = p)) as [->|]; [|apply W3].
    cbn [symbols with_symbols]. rewrite bucket_of_alter. destruct (decide (k = i)) as [->|Hki].
    + rewrite list_lookup_alter_eq, Hi. intros [= <-] Ht. apply (W3 p i l); [done|]. destruct (decide (t = s)) as [->|Hts]; [done|].
      by apply remove_other in Ht.
    + rewrite list_lookup_alter_ne by done. apply W3.
  - intros q t u [Ht _]%unlinked_present [Hu _]%unlinked_present. by apply (W4 q).
  - intros q. destruct (decide (q = p)) as [->|Hq]; [|rewrite unlinked_pkg, decide_False by done; apply W5].
    pose proof (W5 p) as Hnd. rewrite unlinked_concat in Hnd. by apply NoDup_cons in Hnd as [_ ?].
  - intros q. destruct (decide (q = p)) as [->|Hq]; [|rewrite unlinked_pkg, decide_False by done; apply W6].
    pose proof (W6 p) as Hc. rewrite unlinked_concat in Hc. rewrite unlinked_pkg, decide_True in Hc |- * by done.
    cbn [length sym_count with_symbols symbols] in *. rewrite Hc. cbn [length] in *. lia.
  - intros q Hq%is_pkg_set. rewrite unlinked_pkg. destruct (decide (q = p)) as [->|]; [|by apply W7]. cbn. intros E.
    apply (W7 p Hp). apply (f_equal length) in E. rewrite length_alter in E. by apply nil_length_inv.
  - intros q t. unfold exports. destruct (Hsame q) as [-> _]. apply W8.
  - intros t q. unfold exports. destruct (Hsame q) as [-> _]. apply W9.
  - intros q b vs. destruct (Hsame q) as [_ ->]. apply W10.
  - intros q blob. unfold pkg_blob. destruct (Hsame q) as [_ ->]. apply W11.
Qed.

End Unlink.

Lemma wf_unintern_own w s p : wf w -> is_Some (pkgs w !! p) -> wf (unintern_own_nolock w s p).
Proof.
  intros Hw Hp. unfold unintern_own_nolock. set (i := bucket_of _ _). destruct (bool_decide_reflect (s ∈ default [] (symbols (pkg_at w p) !! i))) as [Hs|]; [|done].
  destruct (symbols (pkg_at w p) !! i) as [l|] eqn:Hi; [|by apply elem_of_nil in Hs]. cbn in Hs.
  fold (unlinked w p s i). pose proof (wf_unlinked w p s i l Hw Hp Hi Hs) as Hu. destruct (bool_decide _); [|done].
  by apply wf_set_sym.
Qed.

(** After it, the name is not there. *)
Lemma unintern_own_gone w s p : wf w -> is_Some (pkgs w !! p) -> present w p s ->
  find_own_symbol (unintern_own_nolock w s p) (s_name (sym_at w s)) p = None.
Proof.
  intros Hw Hp Hs. pose proof Hs as (i & l & Hi & Hl)%present_iff. destruct (wf_chain _ Hw p i l s Hi Hl) as [_ Hb].
  apply find_own_none; [by apply wf_unintern_own|]. unfold unintern_own_nolock. rewrite Hb, Hi. cbn [default]. cbv [from_option id].
  rewrite (bool_decide_eq_true_2 (s ∈ l) Hl). fold (unlinked w p s i).
  assert (Hgone : forall t, present (unlinked w p s i) p t -> s_name (sym_at w t) <> s_name (sym_at w s)).
  { intros t Ht E. apply (unlinked_present w p s i l) in Ht as [Ht Hn]; [|done..]. apply Hn. split; [done|]. by apply (wf_unique _ Hw p). }
  intros t. destruct (bool_decide (s_package (sym_at (unlinked w p s i) s) = Some p)); [|apply Hgone].
  rewrite (set_sym_keeps s_name) by done. apply Hgone.
Qed.

(** ** What stays *)

(** Symbols and packages stay, and a symbol keeps its name and hash. *)
Record grows (w w' : World) : Prop := {
  gr_sym : forall s, is_Some (syms w !! s) -> is_Some (syms w' !! s);
  gr_pkg : forall p, is_Some (pkgs w !! p) -> is_Some (pkgs w' !! p);
  gr_at : forall s, is_Some (syms w !! s) -> s_name (sym_at w' s) = s_name (sym_at w s) /\ s_hash (sym_at w' s) = s_hash (sym_at w s) }.

#[export] Instance grows_preorder : PreOrder grows.
Proof.
  split; [done|]. intros w1 w2 w3 [H1 H2 N1] [H3 H4 N2]. split; [auto..|]. intros s Hs.
  destruct (N1 s Hs) as [<- <-]. by apply N2, H1.
Qed.

Lemma alike_grows w w' : alike w w' -> grows w w'.
Proof. intros [[H1 H2 _ H4 _] _ _]. split; intros; [by apply H1|by apply H2|apply H4]. Qed.

Lemma grows_set_sym w s f : (forall x, s_name (f x) = s_name x /\ s_hash (f x) = s_hash x) -> grows w (set_sym w s f).
Proof. intros Hf. split; [intros; by apply is_sym_set|done|]. intros t _. split; apply set_sym_keeps; apply Hf. Qed.

Lemma grows_set_pkg w p f : grows w (set_pkg w p f).
Proof. split; [done|intros; by apply is_pkg_set|done]. Qed.

Lemma grows_make_symbol w name : wf w -> grows w (fst (cl_make_uninterned_symbol w name)).
Proof. intros Hw. split; [apply make_symbol_is|by rewrite uninterned_new|]. intros s Hs. by rewrite make_symbol_sym by by apply sym_not_next. Qed.

Lemma grows_hashed w w' s : grows w w' -> is_Some (syms w !! s) -> hashed w s -> hashed w' s.
Proof. intros [_ _ H] Hs Hh. unfold hashed. destruct (H s Hs) as [-> ->]. exact Hh. Qed.

Lemma hidden_alike w w' s : alike w w' -> hidden w s -> hidden w' s.
Proof.
  intros [[Hs _ _ Ha Ht] Hh He] [H1 Hx H2 H3 H4]. split.
  - by apply Hs.
  - unfold hashed. destruct (Ha s) as [-> ->]. exact Hx.
  - intros p. unfold present. destruct (Ht p) as (-> & _). apply H2.
  - intros p. unfold exports. rewrite He. apply H3.
  - by destruct (Hh s) as [-> _].
Qed.

Lemma alike_install w s d : alike w (install_definition w s d).
Proof. destruct d; [by apply alike_set_sym, keeps_value|by apply alike_set_sym, keeps_function|]. apply alike_refl. Qed.

(** ** Materialisation *)

Record draft_ok (w : World) (dr : Draft) : Prop := {
  dk_hidden : hidden w (dr_sym dr);
  dk_name : s_name (sym_at w (dr_sym dr)) = dr_name dr;
  dk_setter : forall ss e, dr_setter dr = Some (ss, e) ->
    hidden w ss /\ s_name (sym_at w ss) = set_prefix ++ dr_name dr /\ ss <> dr_sym dr }.

Lemma install_name w s d t : s_name (sym_at (install_definition w s d) t) = s_name (sym_at w t).
Proof. by destruct (al_tables _ _ (alike_install w s d)) as [_ _ _ H _], (H t). Qed.

Section Materialise.
Context (morphos : bool) (cl_package_keyword : nat).

Lemma build_ok w p h w' r : wf w -> materialize_build w p h = (w', r) ->
  wf w' /\ grows w w' /\ (forall dr, r = Some dr -> draft_ok w' dr).
Proof.
  intros Hw. unfold materialize_build. destruct (_ ≫= _) as [[b blob]|] eqn:Eb; [|by intros [= <- <-]].
  set (v := view_blob blob). set (name := entry_name v (decode_entry v (name_idx h))). set (d := default DefNone _).
  set (w1 := fst (cl_make_uninterned_symbol w name)). set (w2 := install_definition w1 (next w) d).
  change (cl_make_uninterned_symbol w name) with (w1, next w). cbv beta iota zeta. fold w2.
  assert (Hw1 : wf w1) by by apply wf_make_symbol. assert (Hw2 : wf w2) by by apply wf_install.
  assert (Hg : grows w w2) by (transitivity w1; [by apply grows_make_symbol|apply alike_grows, alike_install]).
  assert (Hh : hidden w2 (next w)) by by apply (hidden_alike w1); [apply alike_install|apply hidden_new].
  assert (Hn : s_name (sym_at w2 (next w)) = name) by (unfold w2; rewrite install_name; apply make_symbol_new).
  assert (Hlone : draft_ok w2 {| dr_name := name; dr_sym := next w; dr_definition := d; dr_setter := None |}) by done.
  destruct (decode_entry v <$> def_idx h) as [e|]; [|intros [= <- <-]; split_and!; [done..|]; by intros ? [= <-]].
  destruct (writable_field e); [|intros [= <- <-]; split_and!; [done..|]; by intros ? [= <-]].
  set (w3 := fst (cl_make_uninterned_symbol w2 (set_prefix ++ name))). change (cl_make_uninterned_symbol w2 (set_prefix ++ name)) with (w3, next w2).
  assert (Hw3 : wf w3) by by apply wf_make_symbol.
  assert (Ha : alike w3 (set_sym w3 (next w2) (with_function (setter_stub (next w2) e)))) by by apply alike_set_sym, keeps_function.
  intros [= <- <-]. split_and!; [by apply (wf_alike w3)| |].
  - transitivity w2; [done|]. transitivity w3; [by apply grows_make_symbol|by apply alike_grows].
  - intros dr [= <-]. pose proof (sym_not_next w2 (next w) Hw2 (hd_sym _ _ Hh)) as Hne. split; cbn [dr_sym dr_name dr_setter].
    + apply (hidden_alike w3); [done|]. by apply hidden_make_symbol.
    + rewrite (set_sym_keeps s_name) by done. unfold w3. by rewrite make_symbol_sym.
    + intros ss e' [= <- <-]. split_and!; [|rewrite (set_sym_keeps s_name) by done; apply make_symbol_new|congruence].
      apply (hidden_alike w3); [done|by apply hidden_new].
Qed.

Lemma add_name w p s t : s_name (sym_at (cl_package_add_symbol_cell w p s) t) = s_name (sym_at w t).
Proof. unfold cl_package_add_symbol_cell. by rewrite (set_sym_keeps s_name) by done. Qed.

Lemma push_name w p s t : s_name (sym_at (cl_package_push_export_cell_nolock w p s) t) = s_name (sym_at w t).
Proof. unfold cl_package_push_export_cell_nolock, mark_exported. by rewrite (set_sym_keeps s_name) by done. Qed.

Lemma add_present w p s q t : wf w -> is_Some (pkgs w !! p) ->
  present (cl_package_add_symbol_cell w p s) q t <-> present w q t \/ (q = p /\ t = s).
Proof. apply link_present. Qed.

Lemma push_present w p s q t : present (cl_package_push_export_cell_nolock w p s) q t <-> present w q t.
Proof.
  unfold present, cl_package_push_export_cell_nolock, mark_exported.
  change (pkg_at (set_sym (set_pkg w p _) s _) q) with (pkg_at (set_pkg w p (fun x => with_exports (s :: exported_symbols x) x)) q).
  by rewrite (set_pkg_keeps symbols) by done.
Qed.

Lemma add_exports w p s q : exported_symbols (pkg_at (cl_package_add_symbol_cell w p s) q) = exported_symbols (pkg_at w q).
Proof. unfold cl_package_add_symbol_cell, package_link_symbol_cell.
  change (pkg_at (set_sym (set_pkg w p ?f) s ?g) q) with (pkg_at (set_pkg w p f) q). by rewrite (set_pkg_keeps exported_symbols). Qed.

Lemma push_exports w p s q : is_Some (pkgs w !! p) -> exported_symbols (pkg_at (cl_package_push_export_cell_nolock w p s) q) =
  if decide (q = p) then s :: exported_symbols (pkg_at w p) else exported_symbols (pkg_at w q).
Proof.
  intros Hp. unfold cl_package_push_export_cell_nolock, mark_exported.
  change (pkg_at (set_sym (set_pkg w p ?f) s ?g) q) with (pkg_at (set_pkg w p f) q). rewrite pkg_at_set by done.
  by destruct (decide (q = p)).
Qed.

Lemma add_sym w p s t : is_Some (syms w !! s) ->
  sym_at (cl_package_add_symbol_cell w p s) t = if decide (t = s) then with_package (Some p) (sym_at w s) else sym_at w t.
Proof. intros Hs. unfold cl_package_add_symbol_cell. by rewrite sym_at_set. Qed.

Lemma push_sym w p s t : is_Some (syms w !! s) -> sym_at (cl_package_push_export_cell_nolock w p s) t =
  if decide (t = s) then with_flags true (sym_exported_home (sym_at w s) || bool_decide (s_package (sym_at w s) = Some p)) (sym_at w s)
  else sym_at w t.
Proof. intros Hs. unfold cl_package_push_export_cell_nolock, mark_exported. by rewrite sym_at_set. Qed.

Lemma grows_add w p s : grows w (cl_package_add_symbol_cell w p s).
Proof. transitivity (package_link_symbol_cell w p s); [apply grows_set_pkg|by apply grows_set_sym]. Qed.

Lemma grows_push w p s : grows w (cl_package_push_export_cell_nolock w p s).
Proof. etransitivity; [apply grows_set_pkg|by apply grows_set_sym]. Qed.

Lemma hidden_add w p s t : wf w -> is_Some (pkgs w !! p) -> is_Some (syms w !! s) -> t <> s -> hidden w t ->
  hidden (cl_package_add_symbol_cell w p s) t.
Proof.
  intros Hw Hp Hs Hts [H1 Hx H2 H3 H4].
  split; [by apply (grows_add w p s)|by unfold hashed; rewrite add_sym, decide_False| | |by rewrite add_sym, decide_False].
  - intros q [Hq|[_ ->]]%add_present; [by apply (H2 q)|done|done|done].
  - intros q. unfold exports. rewrite add_exports. apply H3.
Qed.

Lemma hidden_push w p s t : is_Some (pkgs w !! p) -> is_Some (syms w !! s) -> t <> s -> hidden w t ->
  hidden (cl_package_push_export_cell_nolock w p s) t.
Proof.
  intros Hp Hs Hts [H1 Hx H2 H3 H4].
  split; [by apply (grows_push w p s)|by unfold hashed; rewrite push_sym, decide_False| | |by rewrite push_sym, decide_False].
  - intros q. rewrite push_present. apply H2.
  - intros q. unfold exports. rewrite push_exports by done. destruct (decide (q = p)) as [->|]; [|apply H3].
    rewrite elem_of_cons. intros [?|?]; [done|]. by apply (H3 p).
Qed.

Lemma not_exported_hidden w s p : hidden w s -> exported_p_nolock w s p = false.
Proof.
  intros [_ _ _ H3 H4]. unfold exported_p_nolock. rewrite bool_decide_eq_false_2 by by rewrite H4.
  destruct (negb _); [done|]. apply bool_decide_eq_false_2, H3.
Qed.

Lemma not_exported_added w p s q : hidden w s -> exported_p_nolock (cl_package_add_symbol_cell w p s) s q = false.
Proof.
  intros [H1 _ _ H3 H4]. unfold exported_p_nolock. rewrite add_sym, decide_True by done. cbn [s_package with_package sym_exported_home sym_exported].
  destruct (bool_decide _); [done|]. destruct (negb _); [done|]. apply bool_decide_eq_false_2. rewrite add_exports. apply H3.
Qed.

Lemma push_exported w p s : is_Some (pkgs w !! p) -> is_Some (syms w !! s) ->
  exported_p_nolock (cl_package_push_export_cell_nolock w p s) s p = true.
Proof.
  intros Hp Hs. unfold exported_p_nolock. rewrite push_sym, decide_True by done. cbn [s_package with_flags sym_exported_home sym_exported].
  destruct (bool_decide _) eqn:E; [by rewrite orb_true_r|]. cbn [negb]. apply bool_decide_eq_true_2. rewrite push_exports, decide_True by done.
  by apply elem_of_cons; left.
Qed.

(** What a critical section leaves of the symbols that wait outside. *)
Definition waits (s : nat) (w w' : World) : Prop :=
  grows w w' /\ (forall t, s_name (sym_at w' t) = s_name (sym_at w t)) /\ forall t, t <> s -> hidden w t -> hidden w' t.

Lemma waits_refl s w : waits s w w.
Proof. done. Qed.

Lemma waits_trans s w1 w2 w3 : waits s w1 w2 -> waits s w2 w3 -> waits s w1 w3.
Proof. intros (H1 & H2 & H3) (H4 & H5 & H6). split; [by transitivity w2|]. split; [intros t; by rewrite H5|]. auto. Qed.

Lemma waits_alike s w w' : alike w w' -> waits s w w'.
Proof.
  intros Ha. split; [by apply alike_grows|]. split; [|intros t _; by apply hidden_alike]. intros t. by destruct (st_at _ _ (al_tables _ _ Ha) t).
Qed.

Lemma waits_add w p s : wf w -> is_Some (pkgs w !! p) -> is_Some (syms w !! s) -> waits s w (cl_package_add_symbol_cell w p s).
Proof. intros Hw Hp Hs. split; [apply grows_add|]. split; [intros; apply add_name|]. intros t Ht Hh. by apply hidden_add. Qed.

Lemma waits_push w p s u : is_Some (pkgs w !! p) -> is_Some (syms w !! u) -> ~ hidden w u \/ u = s ->
  waits s w (cl_package_push_export_cell_nolock w p u).
Proof.
  intros Hp Hu Hs. split; [apply grows_push|]. split; [intros; apply push_name|]. intros t Ht Hh. apply hidden_push; try done.
  destruct Hs as [Hs| ->]; [|done]. by intros ->.
Qed.

Lemma present_not_hidden w p s : present w p s -> ~ hidden w s.
Proof. intros Hs [_ _ H _ _]. by apply (H p). Qed.

Lemma link_entry_ok w p s name d force w' r : wf w -> is_Some (pkgs w !! p) -> hidden w s -> s_name (sym_at w s) = name ->
  link_entry w p s name d force = (w', r) ->
  wf w' /\ waits s w w' /\ present w' p r /\ s_name (sym_at w' r) = name /\ exported_p_nolock w' r p = true.
Proof.
  intros Hw Hp Hs Hn. unfold link_entry. destruct (find_own_symbol w name p) as [t|] eqn:Ef; intros [= <- <-].
  - apply find_own_iff in Ef as [Ht Htn]; [|done]. set (w1 := if force || definition_missing w t d then _ else _).
    assert (Ha : alike w w1) by (unfold w1; destruct (_ || _); [apply alike_install|apply alike_refl]).
    assert (Hw1 : wf w1) by by apply (wf_alike w). pose proof (waits_alike s _ _ Ha) as Hwa.
    assert (Ht1 : present w1 p t) by (unfold present; destruct (st_table _ _ (al_tables _ _ Ha) p) as (-> & _); exact Ht).
    assert (Htn1 : s_name (sym_at w1 t) = name) by (destruct Hwa as (_ & -> & _); done).
    pose proof (present_sym _ _ _ Hw1 Ht1) as His. assert (Hp1 : is_Some (pkgs w1 !! p)) by by apply Hwa.
    destruct (exported_p_nolock w1 t p) eqn:Ee; [done|]. split_and!.
    + by apply wf_push_export.
    + apply (waits_trans _ _ w1); [done|]. apply waits_push; [done|done|]. left. by apply (present_not_hidden w1 p).
    + by apply push_present.
    + by rewrite push_name.
    + by apply push_exported.
  - set (w1 := cl_package_add_symbol_cell w p s). pose proof (hd_sym _ _ Hs) as His.
    assert (Hw1 : wf w1) by by apply wf_add_symbol_cell; [..|by rewrite Hn].
    assert (Hp1 : is_Some (pkgs w1 !! p)) by by apply (grows_add w p s).
    assert (Hs1 : is_Some (syms w1 !! s)) by by apply (grows_add w p s). split_and!.
    + apply wf_push_export; [done..|]. by apply not_exported_added.
    + apply (waits_trans _ _ w1); [by apply waits_add|]. apply waits_push; [done|done|by right].
    + apply push_present, add_present; [done..|]. by right.
    + rewrite push_name. unfold w1. by rewrite add_name.
    + by apply push_exported.
Qed.

Lemma link_setter_ok w p s name e force w' r : wf w -> is_Some (pkgs w !! p) -> hidden w s -> s_name (sym_at w s) = name ->
  link_setter w p s name e force = (w', r) -> wf w' /\ waits s w w' /\ present w' p r /\ s_name (sym_at w' r) = name.
Proof.
  intros Hw Hp Hs Hn. unfold link_setter. destruct (find_own_symbol w name p) as [t|] eqn:Ef; intros [= <- <-].
  - apply find_own_iff in Ef as [Ht Htn]; [|done]. destruct (force || _); [|done].
    assert (Ha : alike w (set_sym w t (with_function (setter_stub t e)))) by by apply alike_set_sym, keeps_function.
    split_and!; [by apply (wf_alike w)|by apply waits_alike| |by rewrite (set_sym_keeps s_name)].
    unfold present. by destruct (st_table _ _ (al_tables _ _ Ha) p) as (-> & _).
  - split_and!; [by apply wf_add_symbol_cell; [..|by rewrite Hn]|apply waits_add; [done|done|apply hd_sym, Hs]| |by rewrite add_name].
    apply add_present; [done..|]. by right.
Qed.

Lemma materialize_link_wf w p dr force w' r sr : wf w -> is_Some (pkgs w !! p) -> draft_ok w dr ->
  materialize_link w p dr force = (w', r, sr) -> wf w' /\ grows w w'.
Proof.
  intros Hw Hp [D1 D2 D3]. unfold materialize_link. destruct (link_entry _ _ _ _ _ _) as [w1 r1] eqn:E1.
  apply link_entry_ok in E1 as (H1 & (Hg & Hn & Hh) & _); [|done..]. destruct (dr_setter dr) as [[ss e]|]; [|by intros [= <- _ _]].
  destruct (link_setter _ _ _ _ _ _) as [w2 r2] eqn:E2. destruct (D3 ss e eq_refl) as (D4 & D5 & D6).
  apply link_setter_ok in E2 as (H2 & (Hg2 & _) & _); [|done|by apply Hg|by apply Hh|by rewrite Hn].
  intros [= <- _ _]. split; [done|by transitivity w1].
Qed.

Lemma materialize_wf w p query h force : wf w -> is_Some (pkgs w !! p) ->
  let w' := fst (cl_bindtab_materialize w p query h force) in wf w' /\ grows w w'.
Proof.
  intros Hw Hp. unfold cl_bindtab_materialize. destruct (materialize_build w p h) as [w1 [dr|]] eqn:E1; cbn zeta.
  2:{ by destruct (build_ok _ _ _ _ _ Hw E1) as (? & ? & _). }
  destruct (build_ok _ _ _ _ _ Hw E1) as (H1 & Hg & Hd). specialize (Hd dr eq_refl).
  destruct (materialize_link w1 p dr force) as [[w2 r] sr] eqn:E2. apply materialize_link_wf in E2 as [H2 Hg2]; [|done|by apply Hg|done].
  cbn [fst]. unfold materialize_pair. destruct sr as [sr|]; [|split; [done|by transitivity w1]].
  split; [by apply wf_updater|]. transitivity w2; [by transitivity w1|]. unfold cl_register_setf_updater. by destruct (bool_decide _).
Qed.

(** ** The operations *)

Definition kept (w w' : World) : Prop := wf w' /\ grows w w'.

Lemma kept_trans w1 w2 w3 : kept w1 w2 -> kept w2 w3 -> kept w1 w3.
Proof. intros [_ H1] [H2 H3]. split; [done|]. by transitivity w2. Qed.

Lemma kept_refl w : wf w -> kept w w.
Proof. done. Qed.

(** A loop of operations. *)
Lemma kept_fold {A} (f : World -> A -> World) l w : wf w -> (forall w' a, kept w w' -> kept w' (f w' a)) -> kept w (fold_left f l w).
Proof.
  intros Hw Hf. assert (H : forall w', kept w w' -> kept w (fold_left f l w')); [|by apply H].
  induction l as [|a l IH]; intros w' Hk; [done|]. cbn. apply IH. apply (kept_trans _ w'); [done|by apply Hf].
Qed.

Lemma kept_pkg w w' p : kept w w' -> is_Some (pkgs w !! p) -> is_Some (pkgs w' !! p).
Proof. intros [_ [_ H _]]. apply H. Qed.

Lemma kept_sym w w' s : kept w w' -> is_Some (syms w !! s) -> is_Some (syms w' !! s).
Proof. intros [_ [H _ _]]. apply H. Qed.

Lemma kept_hashed w w' s : kept w w' -> is_Some (syms w !! s) -> hashed w s -> hashed w' s.
Proof. intros [_ H]. by apply grows_hashed. Qed.

Lemma bindings_pkg w p b : bindings (pkg_at w p) = Some b -> is_Some (pkgs w !! p).
Proof. unfold pkg_at. destruct (pkgs w !! p); [eauto|done]. Qed.

Lemma drop_bindings w p : wf w -> kept w (set_pkg w p (with_bindings None)).
Proof. intros Hw. split; [by apply wf_bindings|apply grows_set_pkg]. Qed.

Lemma materialize_all_kept w p : wf w -> kept w (cl_bindtab_materialize_all morphos w p).
Proof.
  intros Hw. unfold cl_bindtab_materialize_all. destruct (pkg_blob w p) as [blob|] eqn:Eb; [|done].
  assert (Hp : is_Some (pkgs w !! p)) by (unfold pkg_blob in Eb; destruct (bindings (pkg_at w p)) eqn:E; [by eapply bindings_pkg|done]).
  set (w1 := fold_left _ _ w). assert (H1 : kept w w1).
  { apply kept_fold; [done|]. intros w' i Hk. pose proof (proj1 Hk) as Hw'. unfold materialize_entry. destruct (pkg_blob w' p) as [blob'|]; [|done].
    destruct (_ && _); [done|]. destruct (find_own_symbol _ _ _); [done|]. destruct (cl_bindtab_probe_nolock _ _ _ _ _) as [h|]; [|done].
    apply materialize_wf; [done|by apply (kept_pkg w)]. }
  apply (kept_trans _ w1); [done|]. apply drop_bindings, H1.
Qed.

Lemma probe_pkg w p name a h : cl_bindtab_probe_nolock morphos w p name a = Some h -> is_Some (pkgs w !! p).
Proof. unfold cl_bindtab_probe_nolock. destruct (bindings (pkg_at w p)) as [b|] eqn:E; [|done]. intros _. by eapply bindings_pkg. Qed.

Lemma first_some_Some {A B} (f : A -> option B) l y : first_some f l = Some y -> exists x, x ∈ l /\ f x = Some y.
Proof.
  induction l as [|x l IH]; [done|]. cbn. destruct (f x) as [z|] eqn:E.
  - intros [= ->]. exists x. split; [by left|done].
  - intros (x' & Hx & Hf)%IH. exists x'. split; [by right|done].
Qed.

Lemma lazy_pkg w name p q h st : lookup_nolock morphos w name p = Lazy q h st -> is_Some (pkgs w !! q).
Proof.
  unfold lookup_nolock. destruct (find_own_symbol w name p); [done|]. destruct (cl_bindtab_probe_nolock morphos w p name true) as [h'|] eqn:E.
  - intros [= <- _ _]. by eapply probe_pkg.
  - destruct (first_some _ _) as [r|] eqn:Ef; [|done]. cbn. intros ->. apply first_some_Some in Ef as (u & _ & Hu). unfold lookup_used in Hu.
    destruct (find_external_nolock w name u); [done|]. destruct (cl_bindtab_probe_nolock morphos w u name false) as [h'|] eqn:E'; [|done].
    injection Hu as <- _ _. by eapply probe_pkg.
Qed.

Lemma lazy_external_pkg w name p q h st : lookup_external morphos w name p = Lazy q h st -> is_Some (pkgs w !! q).
Proof.
  unfold lookup_external. destruct (find_external_nolock w name p); [done|].
  destruct (cl_bindtab_probe_nolock morphos w p name false) as [h'|] eqn:E; [|done]. intros [= <- _ _]. by eapply probe_pkg.
Qed.

Lemma find_kept w name p b : wf w -> kept w (fst (lookup_and_materialize morphos w name p b)).
Proof.
  intros Hw. unfold lookup_and_materialize, materialize_result.
  destruct (if b then _ else _) as [|s st|q h st] eqn:E; [done|done|].
  pose proof (materialize_wf w q name h false Hw) as H. destruct (cl_bindtab_materialize _ _ _ _ _) as [w' s]. apply H.
  destruct b; [by eapply lazy_external_pkg|by eapply lazy_pkg].
Qed.

Lemma intern_link_kept w name p s : wf w -> is_Some (pkgs w !! p) -> hidden w s -> s_name (sym_at w s) = name ->
  kept w (fst (fst (intern_link morphos w name p s))).
Proof.
  intros Hw Hp Hs Hn. unfold intern_link. destruct (lookup_nolock morphos w name p) as [|t st|q h st] eqn:E; cbn [fst].
  - split; [|apply grows_add]. apply wf_add_symbol_cell; [done..|]. rewrite Hn. unfold lookup_nolock in E.
    destruct (find_own_symbol w name p); done.
  - done.
  - pose proof (materialize_wf w q name h false Hw (lazy_pkg _ _ _ _ _ _ E)) as H. by destruct (cl_bindtab_materialize w q name h false).
Qed.

Lemma export_kept w s p : wf w -> is_Some (pkgs w !! p) -> is_Some (syms w !! s) -> hashed w s -> kept w (fst (cl_export_symbol morphos w s p)).
Proof.
  intros Hw Hp Hs Hh. unfold cl_export_symbol. set (w1 := match bindings (pkg_at w p) with Some _ => _ | None => _ end).
  assert (H1 : kept w w1).
  { unfold w1. destruct (bindings _); [|done]. destruct (find_own_symbol _ _ _); [done|by apply materialize_all_kept]. }
  clearbody w1. set (name := s_name (sym_at w s)). set (r := match find_own_symbol w1 name p with None => _ | Some _ => _ end).
  assert (H2 : match r with Some w2 => kept w1 w2 | None => True end).
  { unfold r. destruct (find_own_symbol w1 name p); [apply kept_refl, H1|]. unfold import_symbol_nolock.
    destruct (find_own_symbol w1 (s_name (sym_at w1 s)) p) as [t|] eqn:Ef; [destruct (bool_decide _); [apply kept_refl, H1|done]|].
    split; [apply wf_link; [apply H1|by apply (kept_pkg w)|by apply (kept_sym w)|by apply (kept_hashed w)|done]|apply grows_set_pkg]. }
  destruct r as [w2|]; [|done]. pose proof (kept_trans _ _ _ H1 H2) as H3. cbn [fst]. apply (kept_trans _ w2); [done|].
  pose proof (kept_pkg _ _ p H3 Hp) as Hp2. pose proof (kept_sym _ _ s H3 Hs) as Hs2. destruct (exported_p_nolock w2 s p) eqn:Ee.
  - split; [apply wf_mark_exported; [apply H3|done..]|by apply grows_set_sym].
  - split; [apply wf_push_export; [apply H3|done..]|apply grows_push].
Qed.

Lemma find_status_kept w name p : wf w -> kept w (fst (cl_find_symbol_with_status morphos w name p)).
Proof. apply find_kept. Qed.

Lemma gensym_kept w name : wf w -> kept w (fst (make_symbol w name)).
Proof.
  intros Hw. split; [by apply wf_gensym|]. split.
  - intros s Hs. cbn. destruct (decide (s = next w)) as [->|]; [rewrite lookup_insert_eq; eauto|by rewrite lookup_insert_ne].
  - done.
  - intros s Hs. unfold sym_at. cbn. rewrite lookup_insert_ne; [done|]. intros E. by apply (sym_not_next w s Hw Hs).
Qed.

Lemma make_symbol_kept w name : wf w -> kept w (fst (cl_make_uninterned_symbol w name)).
Proof. intros Hw. split; [by apply wf_make_symbol|by apply grows_make_symbol]. Qed.

(** The fresh symbol is the one that is linked, if any. *)
Lemma intern_link_fresh w name p s w' r : intern_link morphos w name p s = (w', r, true) -> w' = cl_package_add_symbol_cell w p s /\ r = Some s.
Proof. unfold intern_link. destruct (lookup_nolock _ _ _ _); [by intros [= <- <-]|done|]. by destruct (cl_bindtab_materialize _ _ _ _ _). Qed.

Lemma intern_kept w name p : wf w -> is_Some (pkgs w !! p) -> kept w (fst (cl_intern_in morphos cl_package_keyword w name p)).
Proof.
  intros Hw Hp. unfold cl_intern_in. pose proof (find_status_kept w name p Hw) as H1.
  destruct (cl_find_symbol_with_status morphos w name p) as [w1 r]. cbn [fst] in H1. destruct r as [[t st]|]; [done|].
  pose proof (make_symbol_kept w1 name (proj1 H1)) as H2. pose proof (hidden_new w1 name (proj1 H1)) as Hh.
  destruct (make_symbol_new w1 name) as (Hn & _ & Hs). change (cl_make_uninterned_symbol w1 name) with (fst (cl_make_uninterned_symbol w1 name), next w1).
  cbv beta iota zeta. set (w2 := fst (cl_make_uninterned_symbol w1 name)) in *. pose proof (kept_trans _ _ _ H1 H2) as H3.
  pose proof (intern_link_kept w2 name p (next w1) (proj1 H3) (kept_pkg _ _ p H3 Hp) Hh Hn) as H4.
  destruct (intern_link morphos w2 name p (next w1)) as [[w3 r] fresh]. cbn [fst] in H4. pose proof (kept_trans _ _ _ H3 H4) as H5.
  destruct (fresh && _); [|done]. cbn [fst]. set (w4 := set_sym w3 (next w1) _).
  assert (H6 : kept w3 w4) by (split; [by apply wf_value; apply H5|by apply grows_set_sym]).
  pose proof (kept_trans _ _ _ H5 H6) as H7. apply (kept_trans _ w4); [done|].
  apply export_kept; [apply H7|by apply (kept_pkg w)|by apply (kept_sym w2); [apply (kept_trans _ w3)|]|].
  by apply (kept_hashed w2); [apply (kept_trans _ w3)|apply Hh|apply Hh].
Qed.

Lemma import_kept w s p : wf w -> is_Some (pkgs w !! p) -> is_Some (syms w !! s) -> hashed w s -> kept w (fst (cl_import_symbol morphos w s p)).
Proof.
  intros Hw Hp Hs Hh. unfold cl_import_symbol. set (w1 := match bindings (pkg_at w p) with Some _ => _ | None => w end).
  assert (H1 : kept w w1) by (unfold w1; destruct (bindings _); [by apply materialize_all_kept|done]). clearbody w1.
  unfold import_symbol_nolock. destruct (find_own_symbol w1 _ p) as [t|] eqn:Ef; [by destruct (bool_decide _)|]. cbn [fst].
  apply (kept_trans _ w1); [done|]. split; [|apply grows_set_pkg].
  apply wf_link; [apply H1|by apply (kept_pkg w)|by apply (kept_sym w)|by apply (kept_hashed w)|done].
Qed.

Lemma shadow_kept w name p : wf w -> is_Some (pkgs w !! p) -> kept w (cl_shadow_symbol morphos w name p).
Proof.
  intros Hw Hp. unfold cl_shadow_symbol. destruct (find_own_symbol w name p); [done|].
  destruct (cl_bindtab_probe_nolock _ _ _ _ _); [by apply materialize_wf|].
  pose proof (make_symbol_kept w name Hw) as H2. pose proof (hidden_new w name Hw) as Hh.
  destruct (make_symbol_new w name) as (Hn & _ & Hs). change (cl_make_uninterned_symbol w name) with (fst (cl_make_uninterned_symbol w name), next w).
  cbv beta iota zeta. set (w2 := fst (cl_make_uninterned_symbol w name)) in *. destruct (find_own_symbol w2 name p) eqn:Ef; [done|].
  apply (kept_trans _ w2); [done|]. split; [|apply grows_add].
  apply wf_add_symbol_cell; [apply H2|by apply (kept_pkg w)|done|by rewrite Hn].
Qed.

Lemma set_pkg_kept w p f : wf w ->
  (forall x, symbols (f x) = symbols x /\ sym_count (f x) = sym_count x /\ exported_symbols (f x) = exported_symbols x /\ bindings (f x) = bindings x) ->
  kept w (set_pkg w p f).
Proof. intros Hw Hf. split; [|apply grows_set_pkg]. by apply (wf_alike w); [apply alike_set_pkg|]. Qed.

Lemma use_kept w q p : wf w -> kept w (cl_use_package w q p).
Proof. intros Hw. unfold cl_use_package. repeat destruct (bool_decide _); try done. by apply set_pkg_kept. Qed.

Lemma unuse_kept w q p : wf w -> kept w (cl_unuse_package w q p).
Proof. intros Hw. by apply set_pkg_kept. Qed.

Lemma unintern_own_grows w s p : grows w (unintern_own_nolock w s p).
Proof.
  unfold unintern_own_nolock. destruct (bool_decide (s ∈ _)); [|done].
  destruct (bool_decide _); [etransitivity; [apply grows_set_pkg|by apply grows_set_sym]|apply grows_set_pkg].
Qed.

Lemma unintern_kept w s p : wf w -> is_Some (pkgs w !! p) -> kept w (bi_unintern morphos w s p).
Proof.
  intros Hw Hp. unfold bi_unintern. pose proof (materialize_all_kept w p Hw) as H1. apply (kept_trans _ _ _ H1).
  split; [apply wf_unintern_own; [apply H1|by apply (kept_pkg w)]|apply unintern_own_grows].
Qed.

Lemma unexport_kept w s p : wf w -> is_Some (pkgs w !! p) -> kept w (bi_unexport morphos w s p).
Proof.
  intros Hw Hp. unfold bi_unexport. pose proof (materialize_all_kept w p Hw) as H1. apply (kept_trans _ _ _ H1).
  split; [apply wf_unexport; [apply H1|by apply (kept_pkg w)]|]. unfold cl_unexport_symbol.
  destruct (bool_decide _); [etransitivity; [apply grows_set_pkg|by apply grows_set_sym]|apply grows_set_pkg].
Qed.

(** A symbol that is not there is not taken out. *)
Lemma unintern_own_absent w s p : ~ present w p s -> unintern_own_nolock w s p = w.
Proof.
  intros Hs. unfold unintern_own_nolock. destruct (bool_decide_reflect (s ∈ default [] (symbols (pkg_at w p) !! bucket_of (symbols (pkg_at w p)) (s_hash (sym_at w s))))) as [H|]; [|done].
  destruct Hs. apply present_iff. destruct (symbols (pkg_at w p) !! _) as [l|] eqn:E; [|by apply elem_of_nil in H]. eauto.
Qed.

Lemma unintern_name w s p t : s_name (sym_at (unintern_own_nolock w s p) t) = s_name (sym_at w t).
Proof.
  unfold unintern_own_nolock. destruct (bool_decide (s ∈ _)); [|done]. destruct (bool_decide _); [|done].
  by rewrite (set_sym_keeps s_name).
Qed.

Lemma find_nolock_own w name p : cl_package_find_symbol_nolock w name p = None -> find_own_symbol w name p = None.
Proof. unfold cl_package_find_symbol_nolock. by destruct (find_own_symbol w name p). Qed.

Lemma shadowing_import_one_kept w s p : wf w -> is_Some (pkgs w !! p) -> is_Some (syms w !! s) -> hashed w s -> kept w (shadowing_import_one w s p).
Proof.
  intros Hw Hp Hs Hh. unfold shadowing_import_one. set (w1 := match cl_package_find_symbol_nolock w _ p with Some t => _ | None => _ end).
  assert (H1 : kept w w1).
  { unfold w1. set (name := s_name (sym_at w s)). destruct (cl_package_find_symbol_nolock w name p) as [t|] eqn:Ef.
    - destruct (bool_decide _); [done|]. pose proof (unintern_own_grows w t p) as Hg. pose proof (wf_unintern_own w t p Hw Hp) as Hu.
      split; [|transitivity (unintern_own_nolock w t p); [done|apply grows_set_pkg]].
      apply wf_link; [done|by apply Hg|by apply Hg|by apply (grows_hashed w)|]. rewrite unintern_name. fold name.
      unfold cl_package_find_symbol_nolock in Ef. destruct (find_own_symbol w name p) as [u|] eqn:Eo.
      + injection Ef as ->. apply find_own_iff in Eo as [Hpr <-]; [|done]. by apply unintern_own_gone.
      + rewrite unintern_own_absent; [done|]. intros Hpr. apply first_some_Some in Ef as (q & _ & Hq). unfold find_external_nolock in Hq.
        destruct (find_own_symbol w name q) as [u|] eqn:Eu; [|done]. destruct (exported_p_nolock w u q); [|done]. injection Hq as ->.
        apply find_own_iff in Eu as [_ Hn]; [|done]. by apply (proj1 (find_own_none w name p Hw) Eo t).
    - split; [|apply grows_set_pkg]. apply wf_link; [done..|]. by apply find_nolock_own. }
  destruct (bool_decide _); [done|]. apply (kept_trans _ w1); [done|]. apply set_pkg_kept; [apply H1|done].
Qed.

Lemma shadowing_import_kept w l p : wf w -> is_Some (pkgs w !! p) -> (forall s, s ∈ l -> is_Some (syms w !! s) /\ hashed w s) ->
  kept w (bi_shadowing_import morphos w l p).
Proof.
  intros Hw Hp Hl. unfold bi_shadowing_import. pose proof (materialize_all_kept w p Hw) as H1. set (w1 := cl_bindtab_materialize_all morphos w p) in *.
  assert (Hall : forall s, s ∈ l -> is_Some (syms w1 !! s) /\ hashed w1 s).
  { intros s Hs. destruct (Hl s Hs). split; [by apply (kept_sym w)|by apply (kept_hashed w)]. }
  assert (Hp1 : is_Some (pkgs w1 !! p)) by by apply (kept_pkg w). clearbody w1. clear Hl.
  revert w1 H1 Hall Hp1. induction l as [|s l IH]; intros w1 H1 Hall Hp1; [done|]. cbn.
  assert (H2 : kept w1 (shadowing_import_one w1 s p)) by (apply shadowing_import_one_kept; [apply H1|done|apply Hall; by left|apply Hall; by left]).
  apply IH; [by apply (kept_trans _ w1)| |by apply (kept_pkg w1)]. intros t Ht.
  destruct (Hall t ltac:(by right)). split; [by apply (kept_sym w1)|by apply (kept_hashed w1)].
Qed.

Lemma concat_empty n : concat (replicate n ([] : list nat)) = [].
Proof. by induction n. Qed.

Lemma make_package_kept w p : wf w -> pkgs w !! p = None -> kept w (cl_make_package w p).
Proof.
  intros Hw Hp. assert (Hat : forall q, pkg_at (cl_make_package w p) q = if decide (q = p) then
      {| symbols := replicate CL_SYMTAB_SIZE []; sym_count := 0; use_list := []; shadowing_symbols := [];
         exported_symbols := []; bindings := None |} else pkg_at w q).
  { intros q. unfold pkg_at, cl_make_package. cbn [pkgs]. destruct (decide (q = p)) as [->|Hq]; [by rewrite lookup_insert_eq|by rewrite lookup_insert_ne]. }
  assert (Hold : pkg_at w p = no_package) by (unfold pkg_at; by rewrite Hp).
  split; [|split; [done| |done]; intros q Hq; unfold cl_make_package; cbn [pkgs]; destruct (decide (q = p)) as [->|];
    [rewrite lookup_insert_eq; eauto|by rewrite lookup_insert_ne]].
  pose proof Hw as [W1 W2 W3 W4 W5 W6 W7 W8 W9 W10 W11]. split; try done.
  - intros q s. unfold present. rewrite Hat. destruct (decide (q = p)) as [->|]; [|apply W2]. cbn [symbols]. rewrite concat_empty.
    by intros ?%elem_of_nil.
  - intros q i l s. rewrite Hat. destruct (decide (q = p)) as [->|]; [|apply W3]. cbn [symbols].
    intros [-> _]%lookup_replicate Hs. by apply elem_of_nil in Hs.
  - intros q s t. unfold present. rewrite Hat. destruct (decide (q = p)) as [->|]; [|apply W4]. cbn [symbols]. rewrite concat_empty.
    by intros ?%elem_of_nil.
  - intros q. rewrite Hat. destruct (decide (q = p)) as [->|]; [|apply W5]. cbn [symbols]. rewrite concat_empty. constructor.
  - intros q. rewrite Hat. destruct (decide (q = p)) as [->|]; [|apply W6]. cbn [symbols sym_count]. by rewrite concat_empty.
  - intros q. rewrite Hat. destruct (decide (q = p)) as [->|Hq]; [done|]. unfold cl_make_package. cbn [pkgs]. rewrite lookup_insert_ne by done. apply W7.
  - intros q s. unfold exports. rewrite Hat. destruct (decide (q = p)); [by intros ?%elem_of_nil|apply W8].
  - intros s q Hq. unfold exports. rewrite Hat. destruct (decide (q = p)) as [->|]; [|by apply W9].
    pose proof (W9 s p Hq) as H. unfold exports in H. by rewrite Hold in H.
  - intros q b vs. rewrite Hat. destruct (decide (q = p)); [done|apply W10].
  - intros q blob. unfold pkg_blob. rewrite Hat. destruct (decide (q = p)); [done|apply W11].
Qed.

Lemma register_kept w p blob base version : wf w -> is_Some (pkgs w !! p) ->
  (forall vs, version = Some vs -> is_Some (syms w !! vs)) -> (forall shift data, blob = ByteVector shift data -> Forall is_byte data) ->
  kept w (fst (cl_bindtab_register morphos w p blob base version)).
Proof.
  intros Hw Hp Hv Hb. unfold cl_bindtab_register. destruct blob as [shift data|]; [|done].
  destruct (validate_blob (ByteVector shift data)) eqn:Ev; [done|]. destruct (_ && _); [done|].
  assert (Hval : valid_table data).
  { apply validate_blob_iff; [by eapply Hb|]. revert Ev. unfold validate_blob. by destruct (shift =? 0). }
  set (w1 := set_pkg w p _). assert (H1 : kept w w1).
  { split; [|apply grows_set_pkg]. apply wf_bindings; [done| |]; intros b' ? [= <-]; cbn; [apply Hv|by intros [= <-]]. }
  cbn [fst]. apply (kept_trans _ w1); [done|]. apply kept_fold; [apply H1|]. intros w' h Hk.
  apply materialize_wf; [apply Hk|]. apply (kept_pkg w1); [done|]. by apply (kept_pkg w).
Qed.

Lemma shed_kept w p : wf w -> kept w (cl_bindtab_shed w p).
Proof.
  intros Hw. unfold cl_bindtab_shed. destruct (bindings (pkg_at w p)) as [b|] eqn:Eb; [|done]. split; [|apply grows_set_pkg].
  apply wf_bindings; [done| |]; intros b' ? [= <-]; cbn; [|done]. intros Hv. by apply (wf_version _ Hw p b).
Qed.

(** ** Every state of the package system *)

Definition initial : World := {| syms := ∅; pkgs := ∅; setf_updaters := ∅; next := 0 |}.

(** One operation.  Its arguments are packages and symbols that exist; the rest
    of the system makes uninterned symbols and assigns values and functions.
    A symbol made by GENSYM or read from a FASL has no hash, and the three
    operations that may put a symbol of another making into a table, EXPORT,
    IMPORT and SHADOWING-IMPORT, are steps only for symbols that have theirs:
    the code does not ask, and PackDemo.gensym_import shows what comes of it. *)
Inductive op_step (w : World) : World -> Prop :=
| op_make_package p : pkgs w !! p = None -> op_step w (cl_make_package w p)
| op_make_symbol name : op_step w (fst (cl_make_uninterned_symbol w name))
| op_gensym name : op_step w (fst (make_symbol w name))
| op_set_value s v special constant : is_Some (syms w !! s) -> op_step w (set_sym w s (with_value v special constant))
| op_set_function s f : is_Some (syms w !! s) -> op_step w (set_sym w s (with_function f))
| op_intern name p : is_Some (pkgs w !! p) -> op_step w (fst (cl_intern_in morphos cl_package_keyword w name p))
| op_find_symbol name p : is_Some (pkgs w !! p) -> op_step w (fst (cl_find_symbol_with_status morphos w name p))
| op_find_external name p : is_Some (pkgs w !! p) -> op_step w (fst (cl_package_find_external morphos w name p))
| op_export s p : is_Some (pkgs w !! p) -> is_Some (syms w !! s) -> hashed w s -> op_step w (fst (cl_export_symbol morphos w s p))
| op_unexport s p : is_Some (pkgs w !! p) -> is_Some (syms w !! s) -> op_step w (bi_unexport morphos w s p)
| op_import s p : is_Some (pkgs w !! p) -> is_Some (syms w !! s) -> hashed w s -> op_step w (fst (cl_import_symbol morphos w s p))
| op_shadow name p : is_Some (pkgs w !! p) -> op_step w (cl_shadow_symbol morphos w name p)
| op_shadowing_import l p : is_Some (pkgs w !! p) -> (forall s, s ∈ l -> is_Some (syms w !! s) /\ hashed w s) ->
    op_step w (bi_shadowing_import morphos w l p)
| op_unintern s p : is_Some (pkgs w !! p) -> is_Some (syms w !! s) -> op_step w (bi_unintern morphos w s p)
| op_use q p : is_Some (pkgs w !! q) -> is_Some (pkgs w !! p) -> op_step w (cl_use_package w q p)
| op_unuse q p : is_Some (pkgs w !! q) -> is_Some (pkgs w !! p) -> op_step w (cl_unuse_package w q p)
| op_register p blob base version : is_Some (pkgs w !! p) -> (forall vs, version = Some vs -> is_Some (syms w !! vs)) ->
    (forall shift data, blob = ByteVector shift data -> Forall is_byte data) ->
    op_step w (fst (cl_bindtab_register morphos w p blob base version))
| op_materialize_all p : is_Some (pkgs w !! p) -> op_step w (cl_bindtab_materialize_all morphos w p)
| op_shed p : is_Some (pkgs w !! p) -> op_step w (cl_bindtab_shed w p).

Lemma find_external_kept w name p : wf w -> kept w (fst (cl_package_find_external morphos w name p)).
Proof. intros Hw. pose proof (find_kept w name p true Hw) as H. unfold cl_package_find_external. by destruct (lookup_and_materialize _ _ _ _ _). Qed.

Lemma op_step_kept w w' : wf w -> op_step w w' -> kept w w'.
Proof.
  intros Hw [].
  - by apply make_package_kept.
  - by apply make_symbol_kept.
  - by apply gensym_kept.
  - split; [by apply wf_value|by apply grows_set_sym].
  - split; [by apply wf_function|by apply grows_set_sym].
  - by apply intern_kept.
  - by apply find_status_kept.
  - by apply find_external_kept.
  - by apply export_kept.
  - by apply unexport_kept.
  - by apply import_kept.
  - by apply shadow_kept.
  - by apply shadowing_import_kept.
  - by apply unintern_kept.
  - by apply use_kept.
  - by apply unuse_kept.
  - by apply register_kept.
  - by apply materialize_all_kept.
  - by apply shed_kept.
Qed.

Lemma no_symbols p : symbols (pkg_at initial p) = [].
Proof. unfold pkg_at. cbn. by rewrite lookup_empty. Qed.

Lemma wf_initial : wf initial.
Proof.
  assert (Hs : forall s, ~ is_Some (syms initial !! s)) by (intros s; cbn; rewrite lookup_empty; by intros []).
  assert (He : forall p, exported_symbols (pkg_at initial p) = []) by (intros p; unfold pkg_at; cbn; by rewrite lookup_empty).
  split.
  - intros s H. by destruct (Hs s).
  - intros p s H. unfold present in H. rewrite no_symbols in H. by apply elem_of_nil in H.
  - intros p i l s H. by rewrite no_symbols in H.
  - intros p s t H. unfold present in H. rewrite no_symbols in H. by apply elem_of_nil in H.
  - intros p. rewrite no_symbols. constructor.
  - intros p. rewrite no_symbols. unfold pkg_at. cbn. by rewrite lookup_empty.
  - intros p H. cbn in H. rewrite lookup_empty in H. by destruct H.
  - intros p s H. unfold exports in H. rewrite He in H. by apply elem_of_nil in H.
  - intros s p H. unfold sym_at in H. cbn in H. by rewrite lookup_empty in H.
  - intros p b vs H. unfold pkg_at in H. cbn in H. by rewrite lookup_empty in H.
  - intros p blob H. unfold pkg_blob, pkg_at in H. cbn in H. by rewrite lookup_empty in H.
Qed.

Lemma reachable_wf w : rtc op_step initial w -> wf w.
Proof.
  assert (H : forall w1, rtc op_step w1 w -> wf w1 -> wf w); [|intros Hr; apply (H initial Hr), wf_initial].
  intros w1 Hr. induction Hr as [w1|w1 w2 w3 Hs _ IH]; [done|]. intros Hw. apply IH. by apply (op_step_kept w1).
Qed.

(** C25: The invariant, read off: a present name is found at its one symbol, the
    count is exact, and EXTERNAL is what the export list says wherever the
    symbol is at home.  It holds in every state the operations reach, where
    EXPORT, IMPORT and SHADOWING-IMPORT are given symbols whose name hash has
    been filled; for the others, GENSYM's among them, it fails
    (PackDemo.gensym_import). *)
Theorem package_invariant w p : rtc op_step initial w ->
  (forall name s, find_own_symbol w name p = Some s <-> present w p s /\ s_name (sym_at w s) = name) /\
  (forall s t, present w p s -> present w p t -> s_name (sym_at w s) = s_name (sym_at w t) -> s = t) /\
  sym_count (pkg_at w p) = Z.of_nat (length (concat (symbols (pkg_at w p)))) /\ NoDup (concat (symbols (pkg_at w p))) /\
  (forall s, s_package (sym_at w s) = Some p -> exported_p_nolock w s p = true <-> exports w p s).
Proof.
  intros H%reachable_wf. split_and!.
  - intros name s. by apply find_own_iff.
  - apply (wf_unique _ H).
  - apply (wf_count _ H).
  - apply (wf_nodup _ H).
  - intros s Hs. unfold exported_p_nolock. rewrite bool_decide_eq_true_2 by done. by apply (wf_home _ H).
Qed.

End Materialise.
