(* ===== verification/PackLookup.v ===== *)
(** * Packages: what an update does to lookups

    A lookup before and after: making a symbol from a table entry changes no
    answer but the lazy one it resolves; linking a fresh internal symbol changes
    only the lookup that did not find it. *)

From Stdlib Require Import ZArith Lia ZifyBool.
From stdpp Require Import base option list gmap.
From S2P Require Import Prelude Bignum HashKey BindBlob BindPack Package PackWf PackOps.
Local Open Scope Z_scope.

(** ** Hits that differ in the variant only *)

Definition like (h h' : Hit) : Prop := name_idx h' = name_idx h /\ want_setter h' = want_setter h.

Inductive resembles : lookup_result -> lookup_result -> Prop :=
| res_absent : resembles Absent Absent
| res_found s st : resembles (Found s st) (Found s st)
| res_lazy q h h' st : like h h' -> resembles (Lazy q h st) (Lazy q h' st).

#[export] Instance like_equiv : Equivalence like.
Proof.
  split.
  - by intros h.
  - intros h h' [H1 H2]. by split.
  - intros h1 h2 h3 [H1 H2] [H3 H4]. split; congruence.
Qed.

#[export] Instance resembles_equiv : Equivalence resembles.
Proof.
  split.
  - by intros [|s st|q h st]; constructor.
  - intros l l' []; constructor. by symmetry.
  - intros l1 l2 l3 H1 H2; inversion H1; subst; inversion H2; subst; constructor. by etransitivity.
Qed.

Lemma probe_blob_like g g' data name a : option_Forall2 like (probe_blob g data name a) (probe_blob g' data name a).
Proof. unfold probe_blob. destruct (entry_name_is _ _ _); [by constructor|]. destruct (_ && _); [|constructor]. destruct (_ && _); by constructor. Qed.

(** ** Names of a table *)

Section Table.
Context (data : list Z).
Abbreviation v := (view_blob data).
Abbreviation nm i := (entry_name v (decode_entry v i)).

Lemma probe_entry g name a h : probe_blob g data name a = Some h -> want_setter h = false ->
  nm (name_idx h) = name /\ (forall g' b, exists h', probe_blob g' data name b = Some h' /\ want_setter h' = false) /\
  def_idx h = first_variant (Z.to_nat (vn v)) g v name (lower_bound v name) /\ name_idx h = lower_bound v name.
Proof.
  unfold probe_blob. destruct (entry_name_is v (lower_bound v name) name) eqn:E.
  - intros [= <-] _. cbn. apply entry_name_is_iff in E as [_ E]. split; [done|]. split; [eauto|done].
  - destruct (_ && _); [|done]. destruct (_ && _); [|done]. by intros [= <-].
Qed.

Lemma probe_setter g name a h : probe_blob g data name a = Some h -> want_setter h = true ->
  name = set_prefix ++ nm (name_idx h) /\ def_idx h = Some (name_idx h) /\ writable_field (decode_entry v (name_idx h)) = true /\
  (forall g' b, exists h', probe_blob g' data (nm (name_idx h)) b = Some h' /\ want_setter h' = false) /\
  (forall g', probe_blob g' data name false = None) /\
  (forall g', exists h', probe_blob g' data name true = Some h' /\ want_setter h' = true).
Proof.
  unfold probe_blob at 1. destruct (entry_name_is v (lower_bound v name) name) eqn:E; [by intros [= <-]|].
  destruct (a && _ && _) eqn:Ea; [|done]. destruct (entry_name_is v _ (drop 5 name) && _) eqn:Ef; [|done]. intros [= <-] _. cbn [name_idx def_idx].
  apply andb_true_iff in Ef as [Ef Hwr]. apply andb_true_iff in Ea as [Ea Hpre]. apply andb_true_iff in Ea as [_ Hlen].
  pose proof Ef as [_ Hn]%entry_name_is_iff. rewrite Hn. split_and!.
  - apply bool_decide_eq_true in Hpre. by rewrite <- Hpre, take_drop.
  - done.
  - done.
  - intros g' b. unfold probe_blob. rewrite Ef. eauto.
  - intros g'. unfold probe_blob. by rewrite E.
  - intros g'. unfold probe_blob. rewrite E, Hlen, Hpre, Ef, Hwr. cbn. eauto.
Qed.

Lemma probe_any_setter g name h : probe_blob g data name false = Some h -> want_setter h = false.
Proof. unfold probe_blob. destruct (entry_name_is _ _ _); [by intros [= <-]|]. done. Qed.

(** No entry is named as the writer of a field of the table. *)
Definition no_clash : Prop := forall i j, 0 <= i < vn v -> 0 <= j < vn v -> writable_field (decode_entry v i) = true -> nm j <> set_prefix ++ nm i.

(** The writer of a name whose variant in force is a writable field. *)
Lemma probe_writer g name a h d : valid_table data -> no_clash -> probe_blob g data name a = Some h -> want_setter h = false ->
  def_idx h = Some d -> writable_field (decode_entry v d) = true ->
  (forall g', probe_blob g' data (set_prefix ++ name) false = None) /\
  (forall g', exists h', probe_blob g' data (set_prefix ++ name) true = Some h' /\ want_setter h' = true).
Proof.
  intros Hv Hc Hp Hs Hd Hw. destruct (probe_entry g name a h Hp Hs) as (Hn & Hall & Hdef & Hidx). rewrite Hd in Hdef.
  destruct (Hall g false) as (h0 & Hp0 & _). assert (He : entry_name_is v (lower_bound v name) name = true).
  { unfold probe_blob in Hp0. by destruct (entry_name_is v (lower_bound v name) name). }
  pose proof (first_variant_in_force data Hv g name He) as Hf. rewrite <- Hdef in Hf. destruct Hf as (Hdr & Hdn & _ & _).
  destruct (lower_bound_is_first data Hv name He) as (Hlr & Hln & Hbefore).
  assert (Ed : d = lower_bound v name).
  { destruct (Z.lt_trichotomy d (lower_bound v name)) as [Hlt|[->|Hgt]]; [by destruct (Hbefore d ltac:(lia))|done|].
    destruct (valid_unique data Hv (lower_bound v name) d) as [_ Hk]; [lia|lia|by rewrite Hln, Hdn|].
    unfold writable_field in Hw. rewrite Hk in Hw. done. }
  subst d. assert (Hne : entry_name_is v (lower_bound v (set_prefix ++ name)) (set_prefix ++ name) = false).
  { destruct (entry_name_is v (lower_bound v (set_prefix ++ name)) (set_prefix ++ name)) eqn:E; [|done].
    destruct (lower_bound_is_first data Hv _ E) as (Hr & Hrn & _). destruct (Hc _ _ Hlr Hr Hw). by rewrite Hrn, Hln. }
  destruct (valid_name data Hv _ Hlr) as [Hpos Hlen]. rewrite Hln in Hlen. unfold probe_blob. rewrite Hne.
  split; [done|]. intros g'. assert (Hl : (5 <? length (set_prefix ++ name))%nat = true) by (rewrite length_app; cbn [length set_prefix]; lia).
  rewrite Hl. change (take 5 (set_prefix ++ name)) with set_prefix. change (drop 5 (set_prefix ++ name)) with name.
  rewrite bool_decide_eq_true_2, He, Hw by done. cbn. eauto.
Qed.

End Table.

(** ** A lookup, part by part *)

Section Lookups.
Context (morphos : bool).
Abbreviation probe := (cl_bindtab_probe_nolock morphos).
Abbreviation lookup := (lookup_nolock morphos).

(** What the package itself answers. *)
Definition lookup_own (w : World) (name : list Z) (p : nat) : option lookup_result :=
  match find_own_symbol w name p with
  | Some s => Some (Found s (if exported_p_nolock w s p then EXTERNAL else INTERNAL))
  | None => (fun h => Lazy p h (if want_setter h then INTERNAL else EXTERNAL)) <$> probe w p name true
  end.

Lemma lookup_split w name p : lookup w name p = default Absent
  (match lookup_own w name p with Some r => Some r | None => first_some (lookup_used morphos w name) (use_list (pkg_at w p)) end).
Proof. unfold lookup_nolock, lookup_own. destruct (find_own_symbol w name p); [done|]. by destruct (probe w p name true). Qed.

Lemma first_some_rel {A B} (R : B -> B -> Prop) (f g : A -> option B) l : (forall x, x ∈ l -> option_Forall2 R (f x) (g x)) ->
  option_Forall2 R (first_some f l) (first_some g l).
Proof.
  induction l as [|x l IH]; intros H; [constructor|]. cbn. destruct (H x ltac:(by left)); [by constructor|]. apply IH. intros y Hy. apply H. by right.
Qed.

Lemma lookup_rel (R : lookup_result -> lookup_result -> Prop) w w' name p : R Absent Absent -> use_list (pkg_at w' p) = use_list (pkg_at w p) ->
  option_Forall2 R (lookup_own w name p) (lookup_own w' name p) ->
  (forall u, u ∈ use_list (pkg_at w p) -> option_Forall2 R (lookup_used morphos w name u) (lookup_used morphos w' name u)) ->
  R (lookup w name p) (lookup w' name p).
Proof.
  intros Ha Hu Ho Hs. rewrite !lookup_split, Hu. destruct Ho as [r r' Hr|]; [done|].
  by destruct (first_some_rel R _ _ _ Hs).
Qed.

Lemma probe_like w w' p name a : bindings (pkg_at w' p) = bindings (pkg_at w p) -> option_Forall2 like (probe w p name a) (probe w' p name a).
Proof.
  intros Hb. unfold cl_bindtab_probe_nolock. rewrite Hb. destruct (bindings (pkg_at w p)) as [b|]; [|constructor].
  destruct (bt_blob b); [apply probe_blob_like|constructor].
Qed.

(** Nothing changes about a name in one package. *)
Record same_at (w w' : World) (name : list Z) (p : nat) : Prop := {
  sa_own : find_own_symbol w' name p = find_own_symbol w name p;
  sa_exp : forall t, find_own_symbol w name p = Some t -> exported_p_nolock w' t p = exported_p_nolock w t p;
  sa_bindings : bindings (pkg_at w' p) = bindings (pkg_at w p) }.

Lemma same_own w w' name p : same_at w w' name p -> option_Forall2 resembles (lookup_own w name p) (lookup_own w' name p).
Proof.
  intros [H1 H2 H3]. unfold lookup_own. rewrite H1. destruct (find_own_symbol w name p) as [t|]; [rewrite H2 by done; by constructor|].
  destruct (probe_like w w' p name true H3) as [h h' Hl|]; cbn; constructor. pose proof Hl as [_ ->]. by constructor.
Qed.

Lemma same_used w w' name p : same_at w w' name p ->
  option_Forall2 resembles (lookup_used morphos w name p) (lookup_used morphos w' name p).
Proof.
  intros [H1 H2 H3]. unfold lookup_used, find_external_nolock. rewrite H1. destruct (find_own_symbol w name p) as [t|].
  - rewrite H2 by done. destruct (exported_p_nolock w t p); [by constructor; constructor|].
    destruct (probe_like w w' p name false H3); cbn; constructor; by constructor.
  - destruct (probe_like w w' p name false H3); cbn; constructor; by constructor.
Qed.

Lemma same_lookup w w' name p : use_list (pkg_at w' p) = use_list (pkg_at w p) -> same_at w w' name p ->
  (forall u, u ∈ use_list (pkg_at w p) -> same_at w w' name u) -> resembles (lookup w name p) (lookup w' name p).
Proof. intros Hu Hp Hs. apply lookup_rel; [constructor|done|by apply same_own|]. intros u Hin. by apply same_used, Hs. Qed.

(** ** Linking *)

(** [r] is now what [p] has under [name], exported or not; nothing else changed. *)
Record linked (w w' : World) (p : nat) (name : list Z) (r : nat) (ex : bool) : Prop := {
  lk_own : forall q n, find_own_symbol w' n q = if decide (q = p /\ n = name) then Some r else find_own_symbol w n q;
  lk_exp : forall t q, exported_p_nolock w' t q = if decide (t = r /\ q = p) then ex else exported_p_nolock w t q;
  lk_same : forall q, use_list (pkg_at w' q) = use_list (pkg_at w q) /\ bindings (pkg_at w' q) = bindings (pkg_at w q);
  lk_name : s_name (sym_at w r) = name }.

Lemma linked_same w w' p name r ex n q : wf w -> linked w w' p name r ex -> ~ (q = p /\ n = name) -> same_at w w' n q.
Proof.
  intros Hw [H1 H2 H3 H4] Hn. split; [by rewrite H1, decide_False| |apply H3]. intros t Ht. rewrite H2. rewrite decide_False; [done|].
  intros [-> ->]. apply find_own_iff in Ht as [_ Ht]; [|done]. apply Hn. split; [done|congruence].
Qed.

(** A lazy answer of [q] becomes [r], if [P]. *)
Definition resolved (P : Prop) (q r : nat) (l l' : lookup_result) : Prop :=
  resembles l l' \/ (P /\ exists h st, l = Lazy q h st /\ l' = Found r st).

Lemma option_resolved P q r o o' : option_Forall2 resembles o o' -> option_Forall2 (resolved P q r) o o'.
Proof. intros []; constructor. by left. Qed.

(** Where nothing but [name] in [q] changes, only its answers matter. *)
Lemma linked_resolved w w' q name r ex n p : wf w -> linked w w' q name r ex ->
  (same_at w w' name q \/ (option_Forall2 (resolved True q r) (lookup_own w name q) (lookup_own w' name q) /\
   option_Forall2 (resolved True q r) (lookup_used morphos w name q) (lookup_used morphos w' name q))) ->
  resolved (n = name) q r (lookup w n p) (lookup w' n p).
Proof.
  intros Hw Hl Hq. apply lookup_rel; [left; constructor|apply (lk_same _ _ _ _ _ _ Hl)| |intros u _].
  - destruct (decide (p = q /\ n = name)) as [[-> ->]|Hn]; [|by eapply option_resolved, same_own, linked_same].
    destruct Hq as [Hq|[Hq _]]; [by apply option_resolved, same_own|]. by destruct Hq as [? ? [?|[_ ?]]|]; constructor; [left|right].
  - destruct (decide (u = q /\ n = name)) as [[-> ->]|Hn]; [|by eapply option_resolved, same_used, linked_same].
    destruct Hq as [Hq|[_ Hq]]; [by apply option_resolved, same_used|]. by destruct Hq as [? ? [?|[_ ?]]|]; constructor; [left|right].
Qed.

(** The entry itself: it is exported. *)
Lemma entry_resolved w w' q name r n p : wf w -> linked w w' q name r true ->
  (forall b, exists h, probe w q name b = Some h /\ want_setter h = false) ->
  find_own_symbol w name q = None \/ (find_own_symbol w name q = Some r /\ exported_p_nolock w r q = true) ->
  resolved (n = name) q r (lookup w n p) (lookup w' n p).
Proof.
  intros Hw Hl Hp Ho. apply (linked_resolved w w' q name r true); [done|done|].
  assert (E1 : find_own_symbol w' name q = Some r) by by rewrite (lk_own _ _ _ _ _ _ Hl), decide_True.
  assert (E2 : exported_p_nolock w' r q = true) by by rewrite (lk_exp _ _ _ _ _ _ Hl), decide_True.
  destruct Ho as [Ho|[Ho He]].
  - right. unfold lookup_own, lookup_used, find_external_nolock. rewrite E1, E2, Ho.
    destruct (Hp true) as (h1 & -> & Hs1), (Hp false) as (h2 & -> & _). cbn. rewrite Hs1. split; constructor; right; (split; [done|by eauto]).
  - left. split; [congruence| |apply (lk_same _ _ _ _ _ _ Hl)]. intros t. rewrite Ho. intros [= <-]. congruence.
Qed.

(** The writer of a field: it is internal. *)
Lemma writer_resolved w w' q name r n p : wf w -> linked w w' q name r (exported_p_nolock w r q) ->
  probe w q name false = None -> (exists h, probe w q name true = Some h /\ want_setter h = true) ->
  (find_own_symbol w name q = None /\ exported_p_nolock w r q = false) \/ find_own_symbol w name q = Some r ->
  resolved (n = name) q r (lookup w n p) (lookup w' n p).
Proof.
  intros Hw Hl Hp1 (h & Hp2 & Hs) Ho. apply (linked_resolved w w' q name r (exported_p_nolock w r q)); [done|done|].
  assert (E1 : find_own_symbol w' name q = Some r) by by rewrite (lk_own _ _ _ _ _ _ Hl), decide_True.
  assert (E2 : exported_p_nolock w' r q = exported_p_nolock w r q) by by rewrite (lk_exp _ _ _ _ _ _ Hl), decide_True.
  pose proof (lk_same _ _ _ _ _ _ Hl q) as [_ Hb].
  destruct Ho as [[Ho He]|Ho].
  - right. pose proof (probe_like w w' q name false Hb) as Hlike. rewrite Hp1 in Hlike. inversion Hlike as [|E3 E4].
    unfold lookup_own, lookup_used, find_external_nolock. rewrite E1, E2, Ho, He, Hp1, Hp2. cbn. rewrite Hs. rewrite <- E4. split; [constructor; right; split; [done|by eauto]|constructor].
  - left. split; [congruence| |done]. intros t. rewrite Ho. by intros [= <-].
Qed.

(** A lookup that finds nothing. *)
Lemma lookup_absent w n p : lookup w n p = Absent -> find_own_symbol w n p = None /\ probe w p n false = None.
Proof.
  unfold lookup_nolock. destruct (find_own_symbol w n p); [done|]. destruct (probe w p n true) eqn:Et; [done|]. intros _. split; [done|].
  unfold cl_bindtab_probe_nolock in *. destruct (bindings (pkg_at w p)) as [b|]; [|done]. destruct (bt_blob b); [|done].
  unfold probe_blob in *. by destruct (entry_name_is _ _ _).
Qed.

(** A fresh internal symbol under a name the lookup did not find. *)
Lemma intern_resolved w w' q name r n p : wf w -> linked w w' q name r false -> lookup w name q = Absent -> ~ (p = q /\ n = name) ->
  resembles (lookup w n p) (lookup w' n p).
Proof.
  intros Hw Hl [Ho Hp]%lookup_absent Hn.
  assert (E1 : find_own_symbol w' name q = Some r) by by rewrite (lk_own _ _ _ _ _ _ Hl), decide_True.
  assert (E2 : exported_p_nolock w' r q = false) by by rewrite (lk_exp _ _ _ _ _ _ Hl), decide_True.
  pose proof (lk_same _ _ _ _ _ _ Hl q) as [_ Hb].
  apply lookup_rel; [constructor|apply (lk_same _ _ _ _ _ _ Hl)|by eapply same_own, linked_same|intros u _].
  destruct (decide (u = q /\ n = name)) as [[-> ->]|Hu]; [|by eapply same_used, linked_same].
  pose proof (probe_like w w' q name false Hb) as Hlike. rewrite Hp in Hlike. inversion Hlike as [|E3 E4].
  unfold lookup_used, find_external_nolock. rewrite E1, E2, Ho, Hp, <- E4. constructor.
Qed.

(** ** The critical sections link *)

Lemma exported_ext w w' t q : s_package (sym_at w' t) = s_package (sym_at w t) -> sym_exported (sym_at w' t) = sym_exported (sym_at w t) ->
  sym_exported_home (sym_at w' t) = sym_exported_home (sym_at w t) -> (exports w' q t <-> exports w q t) ->
  exported_p_nolock w' t q = exported_p_nolock w t q.
Proof.
  intros H1 H2 H3 H4. unfold exported_p_nolock. rewrite H1, H2, H3. by rewrite (bool_decide_ext _ _ H4).
Qed.

(** A present name is the only one of its package. *)
Lemma own_linked w w' p name r : wf w -> wf w' -> (forall q t, present w' q t <-> present w q t \/ (q = p /\ t = r)) ->
  (forall t, s_name (sym_at w' t) = s_name (sym_at w t)) -> s_name (sym_at w r) = name ->
  forall q n, find_own_symbol w' n q = if decide (q = p /\ n = name) then Some r else find_own_symbol w n q.
Proof.
  intros Hw Hw' Hp Hn Hr q n. destruct (decide (q = p /\ n = name)) as [[-> ->]|Hne].
  - apply find_own_iff; [done|]. rewrite Hp, Hn. auto.
  - destruct (find_own_symbol w n q) as [t|] eqn:E.
    + apply find_own_iff in E as [H1 H2]; [|done]. apply find_own_iff; [done|]. rewrite Hp, Hn. auto.
    + apply find_own_none; [done|]. intros t [Ht|[-> ->]]%Hp; rewrite Hn; [by apply (proj1 (find_own_none w n q Hw) E)|].
      intros <-. apply Hne. by rewrite Hr.
Qed.

Lemma linked_add w p s name : wf w -> is_Some (pkgs w !! p) -> hidden w s -> s_name (sym_at w s) = name -> find_own_symbol w name p = None ->
  linked w (cl_package_add_symbol_cell w p s) p name s false.
Proof.
  intros Hw Hp Hs Hn Ho. split; [|intros t q|intros q|done].
  - apply own_linked; [done|by apply wf_add_symbol_cell; [..|by rewrite Hn]|by intros; apply add_present|by intros; apply add_name|done].
  - destruct (decide (t = s)) as [->|Hts].
    + rewrite not_exported_added by done. destruct (decide _); [done|]. by rewrite not_exported_hidden.
    + rewrite decide_False by tauto. apply exported_ext; [by rewrite add_sym, decide_False by (done || apply Hs)..|].
      unfold exports. by rewrite add_exports.
  - unfold cl_package_add_symbol_cell, package_link_symbol_cell.
    change (pkg_at (set_sym (set_pkg w p ?f) s ?g) q) with (pkg_at (set_pkg w p f) q). split; by apply set_pkg_keeps.
Qed.

Lemma never_exported w s q : wf w -> ~ exports w q s -> exported_p_nolock w s q = false.
Proof.
  intros Hw He. unfold exported_p_nolock. destruct (bool_decide_reflect (s_package (sym_at w s) = Some q)) as [Hh|Hh].
  - destruct (wf_home _ Hw s q Hh) as [H1 _]. destruct (sym_exported_home (sym_at w s)); [|done]. by destruct He; apply H1.
  - destruct (negb _); [done|]. by apply bool_decide_eq_false_2.
Qed.

(** Exporting a symbol that nobody else lists. *)
Lemma push_linked w p s t q : wf w -> is_Some (pkgs w !! p) -> is_Some (syms w !! s) -> (forall u, u <> p -> ~ exports w u s) ->
  exported_p_nolock (cl_package_push_export_cell_nolock w p s) t q = if decide (t = s /\ q = p) then true else exported_p_nolock w t q.
Proof.
  intros Hw Hp Hs Hu. destruct (decide (t = s /\ q = p)) as [[-> ->]|Hn]; [by apply push_exported|]. destruct (decide (t = s)) as [->|Hts].
  - assert (Hq : q <> p) by tauto. rewrite (never_exported w s q Hw (Hu q Hq)). unfold exported_p_nolock. rewrite push_sym, decide_True by done.
    cbn [s_package with_flags sym_exported sym_exported_home negb]. destruct (bool_decide_reflect (s_package (sym_at w s) = Some q)) as [Hh|Hh].
    + rewrite Hh, bool_decide_eq_false_2 by congruence. destruct (wf_home _ Hw s q Hh) as [H1 _].
      destruct (sym_exported_home (sym_at w s)); [|done]. by destruct (Hu q Hq); apply H1.
    + apply bool_decide_eq_false_2. rewrite push_exports, decide_False by done. by apply Hu.
  - apply exported_ext; [by rewrite push_sym, decide_False..|]. unfold exports. rewrite push_exports by done.
    destruct (decide (q = p)) as [->|]; [|done]. rewrite elem_of_cons. tauto.
Qed.

Lemma linked_alike w w' p name r : alike w w' -> (forall t, sym_exported (sym_at w' t) = sym_exported (sym_at w t)) ->
  (forall q, use_list (pkg_at w' q) = use_list (pkg_at w q)) -> wf w -> find_own_symbol w name p = Some r ->
  linked w w' p name r (exported_p_nolock w r p).
Proof.
  intros Ha Hf Hu Hw Ho. pose proof Ho as [Hpr Hn]%find_own_iff; [|done]. split; [|intros t q|intros q|done].
  - assert (Hsame : forall q t, present w' q t <-> present w q t).
    { intros q t. unfold present. by destruct (st_table _ _ (al_tables _ _ Ha) q) as (-> & _). }
    apply own_linked; [done|by apply (wf_alike w)| |intros t; by destruct (st_at _ _ (al_tables _ _ Ha) t)|done].
    intros q t. rewrite Hsame. split; [tauto|]. intros [?|[-> ->]]; done.
  - assert (E : exported_p_nolock w' t q = exported_p_nolock w t q).
    { destruct (al_home _ _ Ha t) as [H1 H2]. apply exported_ext; [done|done|done|]. unfold exports. by rewrite (al_exports _ _ Ha). }
    rewrite E. by destruct (decide (t = r /\ q = p)) as [[-> ->]|].
  - split; [done|]. by destruct (st_table _ _ (al_tables _ _ Ha) q) as (_ & _ & ->).
Qed.

Lemma linked_trans w w1 w2 p name r ex : (forall q n, find_own_symbol w2 n q = find_own_symbol w1 n q) -> linked w w1 p name r ex ->
  (forall t q, exported_p_nolock w2 t q = if decide (t = r /\ q = p) then true else exported_p_nolock w1 t q) ->
  (forall q, use_list (pkg_at w2 q) = use_list (pkg_at w1 q) /\ bindings (pkg_at w2 q) = bindings (pkg_at w1 q)) ->
  linked w w2 p name r true.
Proof.
  intros H0 [L1 L2 L3 L4] H2 H3. split; [intros q n; by rewrite H0|intros t q|intros q|done].
  - rewrite H2, L2. by destruct (decide _).
  - destruct (H3 q) as [-> ->]. apply L3.
Qed.

Lemma install_flags w s d t : sym_exported (sym_at (install_definition w s d) t) = sym_exported (sym_at w t).
Proof. destruct d; cbn [install_definition]; [by apply (set_sym_keeps sym_exported)..|done]. Qed.

Lemma install_pkgs w s d : pkgs (install_definition w s d) = pkgs w.
Proof. by destruct d. Qed.

Lemma link_entry_linked w p s name d force w' r : wf w -> is_Some (pkgs w !! p) -> hidden w s -> s_name (sym_at w s) = name ->
  (forall t, find_own_symbol w name p = Some t -> exported_p_nolock w t p = true) -> link_entry w p s name d force = (w', r) ->
  linked w w' p name r true /\ (forall t, find_own_symbol w name p = Some t -> r = t).
Proof.
  intros Hw Hp Hs Hn Hex. unfold link_entry. destruct (find_own_symbol w name p) as [t|] eqn:Ef; intros [= <- <-].
  - set (w1 := if force || definition_missing w t d then _ else _). specialize (Hex t eq_refl).
    assert (Hl : linked w w1 p name t (exported_p_nolock w t p)).
    { apply linked_alike; [|..|done|done].
      - unfold w1. destruct (_ || _); [apply alike_install|apply alike_refl].
      - intros u. unfold w1. destruct (_ || _); [apply install_flags|done].
      - intros q. unfold w1, pkg_at. destruct (_ || _); [by rewrite install_pkgs|done]. }
    rewrite Hex in Hl. assert (E : exported_p_nolock w1 t p = true) by by rewrite (lk_exp _ _ _ _ _ _ Hl), decide_True.
    rewrite E. split; [done|by intros ? [= <-]].
  - split; [|done]. set (w1 := cl_package_add_symbol_cell w p s). assert (Hw1 : wf w1) by by apply wf_add_symbol_cell; [..|by rewrite Hn].
    assert (Hp1 : is_Some (pkgs w1 !! p)) by by apply (grows_add w p s). assert (Hs1 : is_Some (syms w1 !! s)) by by apply (grows_add w p s), Hs.
    apply (linked_trans w w1 _ p name s false); [|by apply linked_add| |].
    + intros q n. assert (Hw2 : wf (cl_package_push_export_cell_nolock w1 p s)) by (apply wf_push_export; [done..|by apply not_exported_added]).
      destruct (find_own_symbol w1 n q) as [t|] eqn:E.
      * apply find_own_iff in E as [? ?]; [|done]. apply find_own_iff; [done|]. by rewrite push_present, push_name.
      * apply find_own_none; [done|]. intros t. rewrite push_present, push_name. by apply find_own_none.
    + intros t q. apply push_linked; [done..|]. intros u Hu. unfold exports, w1. rewrite add_exports. apply Hs.
    + intros q. unfold cl_package_push_export_cell_nolock, mark_exported.
      change (pkg_at (set_sym (set_pkg w1 p ?f) s ?g) q) with (pkg_at (set_pkg w1 p f) q). split; by apply set_pkg_keeps.
Qed.

Lemma link_setter_linked w p s name e force w' r : wf w -> is_Some (pkgs w !! p) -> hidden w s -> s_name (sym_at w s) = name ->
  link_setter w p s name e force = (w', r) ->
  linked w w' p name r (exported_p_nolock w r p) /\
  ((find_own_symbol w name p = None /\ exported_p_nolock w r p = false) \/ find_own_symbol w name p = Some r).
Proof.
  intros Hw Hp Hs Hn. unfold link_setter. destruct (find_own_symbol w name p) as [t|] eqn:Ef; intros [= <- <-].
  - split; [|by right]. destruct (force || _); apply linked_alike; try done.
    + by apply alike_set_sym, keeps_function.
    + intros u. by apply (set_sym_keeps sym_exported).
  - assert (E : exported_p_nolock w s p = false) by by apply not_exported_hidden. split; [|by left]. rewrite E. by apply linked_add.
Qed.

(** ** Evolution *)

(** Answers stay, except that a lazy one may have become its symbol. *)
Record evolves (w w' : World) : Prop := {
  ev_lookup : forall n p, resembles (lookup w n p) (lookup w' n p) \/
    exists q h st s, lookup w n p = Lazy q h st /\ lookup w' n p = Found s st /\ find_own_symbol w' n q = Some s;
  ev_own : forall n q s, find_own_symbol w n q = Some s -> find_own_symbol w' n q = Some s;
  ev_same : forall q, use_list (pkg_at w' q) = use_list (pkg_at w q) /\ bindings (pkg_at w' q) = bindings (pkg_at w q) }.

#[export] Instance evolves_preorder : PreOrder evolves.
Proof.
  split; [by split; [left| |]|]. intros w1 w2 w3 [H1 H2 H3] [H4 H5 H6]. split; [|auto|intros q; destruct (H6 q) as [-> ->]; apply H3].
  intros n p. destruct (H1 n p) as [Hr|(q & h & st & s & E1 & E2 & E3)].
  - destruct (H4 n p) as [Hr'|(q & h & st & s & E1 & E2 & E3)]; [left; by etransitivity|]. right. rewrite E1 in Hr.
    inversion Hr as [| |q' h0 h' st' Hl]; subst. eauto 10.
  - right. exists q, h, st, s. split; [done|]. split; [|auto]. destruct (H4 n p) as [Hr|(q' & h' & st' & s' & E4 & _)]; [|congruence].
    rewrite E2 in Hr. by inversion Hr.
Qed.

Lemma quiet_evolves w w' : (forall n q, same_at w w' n q) -> (forall q, use_list (pkg_at w' q) = use_list (pkg_at w q)) -> evolves w w'.
Proof.
  intros Hs Hu. split.
  - intros n p. left. by apply same_lookup.
  - intros n q s Ho. by rewrite (sa_own _ _ _ _ (Hs n q)).
  - intros q. split; [done|]. apply (sa_bindings _ _ _ _ (Hs [] q)).
Qed.

Lemma linked_evolves w w' q name r ex : linked w w' q name r ex -> (forall n p, resolved (n = name) q r (lookup w n p) (lookup w' n p)) ->
  (forall t, find_own_symbol w name q = Some t -> r = t) -> evolves w w'.
Proof.
  intros Hl Hr Ho. split; [|intros n u s Hs|apply (lk_same _ _ _ _ _ _ Hl)].
  - intros n p. destruct (Hr n p) as [H|(-> & h & st & E1 & E2)]; [by left|]. right. exists q, h, st, r. split_and!; [done|done|].
    by rewrite (lk_own _ _ _ _ _ _ Hl), decide_True.
  - rewrite (lk_own _ _ _ _ _ _ Hl). destruct (decide (u = q /\ n = name)) as [[-> ->]|]; [|done]. f_equal. by apply Ho.
Qed.

(** A new symbol, and definitions of symbols, are not seen by lookups. *)
Lemma make_symbol_same w name n q : wf w -> same_at w (fst (cl_make_uninterned_symbol w name)) n q.
Proof.
  intros Hw. set (w' := fst (cl_make_uninterned_symbol w name)). assert (Hw' : wf w') by by apply wf_make_symbol.
  assert (Hold : forall t, present w q t -> sym_at w' t = sym_at w t).
  { intros t Ht. apply make_symbol_sym, (sym_not_next w t Hw). by apply (present_sym w q). }
  split; [| |done].
  - destruct (find_own_symbol w n q) as [t|] eqn:E.
    + apply find_own_iff in E as [H1 H2]; [|done]. apply find_own_iff; [done|]. split; [done|]. by rewrite Hold.
    + apply find_own_none; [done|]. intros t Ht. change (present w q t) in Ht. rewrite Hold by done. by apply (proj1 (find_own_none w n q Hw) E).
  - intros t Ht. apply find_own_iff in Ht as [H1 _]; [|done]. apply exported_ext; [by rewrite Hold..|done].
Qed.

Lemma alike_same w w' n q : wf w -> alike w w' -> (forall t, sym_exported (sym_at w' t) = sym_exported (sym_at w t)) -> same_at w w' n q.
Proof.
  intros Hw Ha Hf. assert (Hw' : wf w') by by apply (wf_alike w). assert (Hn : forall t, s_name (sym_at w' t) = s_name (sym_at w t)).
  { intros t. by destruct (st_at _ _ (al_tables _ _ Ha) t). }
  assert (Hp : forall t, present w' q t <-> present w q t).
  { intros t. unfold present. by destruct (st_table _ _ (al_tables _ _ Ha) q) as (-> & _). }
  split; [| |apply (st_table _ _ (al_tables _ _ Ha) q)].
  - destruct (find_own_symbol w n q) as [t|] eqn:E.
    + apply find_own_iff in E as [H1 H2]; [|done]. apply find_own_iff; [done|]. by rewrite Hp, Hn.
    + apply find_own_none; [done|]. intros t. rewrite Hp, Hn. by apply find_own_none.
  - intros t _. destruct (al_home _ _ Ha t) as [H1 H2]. apply exported_ext; [done|done|done|]. unfold exports. by rewrite (al_exports _ _ Ha).
Qed.

Lemma same_at_trans w1 w2 w3 n q : same_at w1 w2 n q -> same_at w2 w3 n q -> same_at w1 w3 n q.
Proof.
  intros [H1 H2 H3] [H4 H5 H6]. split; [congruence| |congruence]. intros t Ht. rewrite H5 by by rewrite H1. by apply H2.
Qed.

Lemma set_function_same w s f n q : wf w -> same_at w (set_sym w s (with_function f)) n q.
Proof.
  intros Hw. apply alike_same; [done|by apply alike_set_sym, keeps_function|]. intros t. by apply (set_sym_keeps sym_exported).
Qed.

Lemma install_same w s d n q : wf w -> same_at w (install_definition w s d) n q.
Proof. intros Hw. apply alike_same; [done|apply alike_install|apply install_flags]. Qed.

Lemma build_same w q h : wf w -> (forall n u, same_at w (fst (materialize_build w q h)) n u) /\ pkgs (fst (materialize_build w q h)) = pkgs w.
Proof.
  intros Hw. unfold materialize_build. destruct (_ ≫= _) as [[b blob]|]; [|done].
  set (name := entry_name _ _). set (d := default DefNone _). set (w1 := fst (cl_make_uninterned_symbol w name)). set (w2 := install_definition w1 (next w) d).
  change (cl_make_uninterned_symbol w name) with (w1, next w). cbv beta iota zeta. fold w2.
  assert (Hw1 : wf w1) by by apply wf_make_symbol. assert (Hw2 : wf w2) by by apply wf_install.
  assert (H2 : forall n u, same_at w w2 n u) by (intros n u; apply (same_at_trans _ w1); [by apply make_symbol_same|by apply install_same]).
  assert (P2 : pkgs w2 = pkgs w) by (unfold w2; by rewrite install_pkgs).
  destruct (decode_entry _ <$> def_idx h) as [e|]; [|done]. destruct (writable_field e); [|done].
  set (w3 := fst (cl_make_uninterned_symbol w2 (set_prefix ++ name))). change (cl_make_uninterned_symbol w2 (set_prefix ++ name)) with (w3, next w2). cbn [fst].
  split; [|done]. intros n u. apply (same_at_trans _ w2); [done|]. apply (same_at_trans _ w3); [by apply make_symbol_same|].
  by apply set_function_same, wf_make_symbol.
Qed.

Lemma build_evolves w q h : wf w -> evolves w (fst (materialize_build w q h)).
Proof.
  intros Hw. destruct (build_same w q h Hw) as [H1 H2]. apply quiet_evolves; [done|]. intros u. unfold pkg_at. by rewrite H2.
Qed.

(** ** Materialising *)

(** What a draft takes from the table [blob]: its name is an entry; its writer,
    if there is one, is not. *)
Record draft_from (blob : list Z) (dr : Draft) : Prop := {
  df_entry : forall g b, exists h, probe_blob g blob (dr_name dr) b = Some h /\ want_setter h = false;
  df_writer : forall ss e, dr_setter dr = Some (ss, e) ->
    (forall g, probe_blob g blob (set_prefix ++ dr_name dr) false = None) /\
    (forall g, exists h, probe_blob g blob (set_prefix ++ dr_name dr) true = Some h /\ want_setter h = true) }.

(** A present name of a table is exported. *)
Definition listed (w : World) : Prop :=
  forall q n h t, probe w q n false = Some h -> find_own_symbol w n q = Some t -> exported_p_nolock w t q = true.

Definition clash_free (w : World) : Prop := forall q blob, pkg_blob w q = Some blob -> no_clash blob.

Lemma probe_at w q blob : pkg_blob w q = Some blob -> exists g, forall n a, probe w q n a = probe_blob g blob n a.
Proof.
  unfold pkg_blob, cl_bindtab_probe_nolock. destruct (bindings (pkg_at w q)) as [b|]; [|done]. cbn. intros ->. eauto.
Qed.

Lemma probe_has_blob w q n a h : probe w q n a = Some h -> exists blob, pkg_blob w q = Some blob.
Proof.
  unfold pkg_blob, cl_bindtab_probe_nolock. destruct (bindings (pkg_at w q)) as [b|]; [|done]. cbn. destruct (bt_blob b); [eauto|done].
Qed.

(** The draft of a hit. *)
Lemma build_draft w q blob g n a h w' r : wf w -> pkg_blob w q = Some blob -> no_clash blob -> probe_blob g blob n a = Some h ->
  materialize_build w q h = (w', r) ->
  exists dr, r = Some dr /\ draft_from blob dr /\
    if want_setter h then n = set_prefix ++ dr_name dr /\ is_Some (dr_setter dr) else n = dr_name dr.
Proof.
  intros Hw Hb Hc Hp. pose proof (wf_table _ Hw q blob Hb) as Hv. unfold materialize_build. unfold pkg_blob in Hb.
  destruct (bindings (pkg_at w q)) as [b|]; [|done]. cbn in Hb. cbn [mbind option_bind]. rewrite Hb. cbn [fmap option_fmap option_map].
  set (v := view_blob blob). set (name := entry_name v (decode_entry v (name_idx h))). set (d := default DefNone _).
  destruct (cl_make_uninterned_symbol w name) as [w1 s]. destruct (want_setter h) eqn:Es.
  - destruct (probe_setter blob g n a h Hp Es) as (Hn & Hd & Hwr & H1 & H2 & H3). fold v in Hn, Hd, Hwr, H1. fold name in Hn, H1.
    rewrite Hd. cbn [option_fmap option_map fmap]. fold v. rewrite Hwr. destruct (cl_make_uninterned_symbol _ (set_prefix ++ name)) as [w2 ss].
    intros [= <- <-]. eexists. split; [done|]. split; [|split; [done|eauto]]. split; [done|]. cbn [dr_name dr_setter]. intros ss' e' _.
    rewrite <- Hn. done.
  - destruct (probe_entry blob g n a h Hp Es) as (Hn & H1 & _). fold v in Hn. fold name in Hn. subst n.
    destruct (def_idx h) as [k|] eqn:Ed; cbn [option_fmap option_map fmap]; fold v.
    2:{ intros [= <- <-]. eexists. split; [done|]. split; [by split|done]. }
    destruct (writable_field (decode_entry v k)) eqn:Ewr.
    2:{ intros [= <- <-]. eexists. split; [done|]. split; [by split|done]. }
    destruct (cl_make_uninterned_symbol _ (set_prefix ++ name)) as [w2 ss]. intros [= <- <-]. eexists. split; [done|]. split; [|done]. split; [done|].
    cbn [dr_name dr_setter]. intros ss' e' _. by apply (probe_writer blob g name a h k).
Qed.

Lemma writer_other name : name <> set_prefix ++ name.
Proof. intros E. apply (f_equal length) in E. rewrite length_app in E. cbn in E. lia. Qed.

(** A section linked the draft: what it found, and what stays true. *)
Record drafted (w w' : World) (q : nat) (dr : Draft) (r : nat) (sr : option nat) : Prop := {
  dd_wf : wf w';
  dd_grows : grows w w';
  dd_names : forall t, s_name (sym_at w' t) = s_name (sym_at w t);
  dd_hidden : forall t, t <> dr_sym dr -> (forall ss e, dr_setter dr = Some (ss, e) -> t <> ss) -> hidden w t -> hidden w' t;
  dd_evolves : evolves w w';
  dd_listed : listed w';
  dd_own : find_own_symbol w' (dr_name dr) q = Some r;
  dd_writer : is_Some (dr_setter dr) -> exists s, sr = Some s /\ find_own_symbol w' (set_prefix ++ dr_name dr) q = Some s }.

(** The first half: the entry. *)
Lemma link_entry_drafted w q blob dr force w' r : wf w -> is_Some (pkgs w !! q) -> pkg_blob w q = Some blob -> draft_ok w dr ->
  draft_from blob dr -> listed w -> link_entry w q (dr_sym dr) (dr_name dr) (dr_definition dr) force = (w', r) ->
  wf w' /\ waits (dr_sym dr) w w' /\ evolves w w' /\ listed w' /\ find_own_symbol w' (dr_name dr) q = Some r.
Proof.
  intros Hw Hp Hb [D1 D2 _] [F1 _] Hl E. destruct (probe_at w q blob Hb) as [g Hg].
  assert (Hex : forall t, find_own_symbol w (dr_name dr) q = Some t -> exported_p_nolock w t q = true).
  { intros t Ht. destruct (F1 g false) as (h & Hh & _). apply (Hl q (dr_name dr) h t); [by rewrite Hg|done]. }
  destruct (link_entry_linked _ _ _ _ _ _ _ _ Hw Hp D1 D2 Hex E) as [Hk Hold].
  destruct (link_entry_ok _ _ _ _ _ _ _ _ Hw Hp D1 D2 E) as (Hw' & Hwait & _).
  split_and!; [done|done| |..].
  - apply (linked_evolves w w' q (dr_name dr) r true); [done| |intros t Ht; by apply Hold].
    intros n p. apply entry_resolved; [done|done| |].
    + intros b. destruct (F1 g b) as (h & Hh & Hs). exists h. by rewrite Hg.
    + destruct (find_own_symbol w (dr_name dr) q) as [t|] eqn:Eo; [|by left]. right. rewrite (Hold t eq_refl). split; [done|]. by apply Hex.
  - intros u n h t Hpr Ho. destruct (lk_same _ _ _ _ _ _ Hk u) as [_ Hbind].
    pose proof (probe_like w w' u n false Hbind) as Hlike. rewrite Hpr in Hlike. inversion Hlike as [h0 h' _ E1 E2|]; subst.
    rewrite (lk_own _ _ _ _ _ _ Hk) in Ho. rewrite (lk_exp _ _ _ _ _ _ Hk). destruct (decide (u = q /\ n = dr_name dr)) as [[-> ->]|Hn].
    + injection Ho as <-. by rewrite decide_True.
    + destruct (decide (t = r /\ u = q)); [done|]. by apply (Hl u n h0).
  - by rewrite (lk_own _ _ _ _ _ _ Hk), decide_True.
Qed.

Lemma materialize_link_drafted w q blob dr force w' r sr : wf w -> is_Some (pkgs w !! q) -> pkg_blob w q = Some blob -> draft_ok w dr ->
  draft_from blob dr -> listed w -> materialize_link w q dr force = (w', r, sr) -> drafted w w' q dr r sr.
Proof.
  intros Hw Hp Hb Hd Hf Hl. unfold materialize_link. destruct (link_entry _ _ _ _ _ _) as [w1 r1] eqn:E1.
  destruct (link_entry_drafted w q blob dr force w1 r1) as (Hw1 & (Hg1 & Hn1 & Hh1) & He1 & Hl1 & Ho1); [done..|].
  destruct (dr_setter dr) as [[ss e]|] eqn:Es.
  2:{ intros [= <- <- <-]. split; try done; [intros t Ht _; by apply Hh1|]. rewrite Es. by intros []. }
  destruct (link_setter _ _ _ _ _ _) as [w2 r2] eqn:E2. intros [= <- <- <-]. destruct (dk_setter _ _ Hd ss e Es) as (D1 & D2 & D3).
  destruct (df_writer _ _ Hf ss e Es) as [F1 F2].
  assert (Hp1 : is_Some (pkgs w1 !! q)) by by apply Hg1. assert (D1' : hidden w1 ss) by by apply Hh1.
  assert (D2' : s_name (sym_at w1 ss) = set_prefix ++ dr_name dr) by by rewrite Hn1.
  assert (Hb1 : pkg_blob w1 q = Some blob) by (unfold pkg_blob; by destruct (ev_same _ _ He1 q) as [_ ->]).
  destruct (probe_at w1 q blob Hb1) as [g Hg].
  destruct (link_setter_linked _ _ _ _ _ _ _ _ Hw1 Hp1 D1' D2' E2) as [Hk Hold].
  destruct (link_setter_ok _ _ _ _ _ _ _ _ Hw1 Hp1 D1' D2' E2) as (Hw2 & (Hg2 & Hn2 & Hh2) & _).
  assert (Hexp : forall t u, exported_p_nolock w2 t u = exported_p_nolock w1 t u).
  { intros t u. rewrite (lk_exp _ _ _ _ _ _ Hk). by destruct (decide (t = r2 /\ u = q)) as [[-> ->]|]. }
  split; [done|by transitivity w1|intros t; by rewrite Hn2| | |..].
  - intros t H1 H2 H3. apply Hh2; [by apply (H2 ss e)|by apply Hh1].
  - transitivity w1; [done|]. apply (linked_evolves w1 w2 q (set_prefix ++ dr_name dr) r2 (exported_p_nolock w1 r2 q)); [done| |].
    + intros n p. apply writer_resolved; [done|done|by rewrite Hg| |done]. destruct (F2 g) as (h & Hh & Hs). exists h. by rewrite Hg.
    + intros t Ht. destruct Hold as [[Hold _]|Hold]; congruence.
  - intros u n h t Hpr Ho. destruct (lk_same _ _ _ _ _ _ Hk u) as [_ Hbind].
    pose proof (probe_like w1 w2 u n false Hbind) as Hlike. rewrite Hpr in Hlike. inversion Hlike as [h0 h' _ X1 X2|]; subst.
    rewrite (lk_own _ _ _ _ _ _ Hk) in Ho. rewrite Hexp. destruct (decide (u = q /\ n = set_prefix ++ dr_name dr)) as [[-> ->]|Hne].
    + rewrite Hg, F1 in X1. done.
    + by apply (Hl1 u n h0).
  - rewrite (lk_own _ _ _ _ _ _ Hk), decide_False; [done|]. intros [_ E]. by apply (writer_other (dr_name dr)).
  - intros _. exists r2. split; [done|]. by rewrite (lk_own _ _ _ _ _ _ Hk), decide_True.
Qed.

(** A lazy answer is a hit of a package that does not have the name. *)
Lemma lazy_hit w n p q h st : listed w -> lookup w n p = Lazy q h st ->
  (exists a, probe w q n a = Some h) /\ find_own_symbol w n q = None /\ is_Some (pkgs w !! q).
Proof.
  intros Hl E. assert (H : (exists a, probe w q n a = Some h) /\ find_own_symbol w n q = None).
  2:{ destruct H as [(a & H) Ho]. split_and!; [by exists a|done|by eapply probe_pkg]. }
  rewrite lookup_split in E. unfold lookup_own in E. destruct (find_own_symbol w n p) eqn:Eo; [done|].
  destruct (probe w p n true) as [h'|] eqn:Ep; cbn in E.
  - injection E as <- <- _. by split; [exists true|].
  - destruct (first_some _ _) as [l|] eqn:Ef; [|done]. cbn in E. subst l. apply first_some_Some in Ef as (u & _ & Hu).
    unfold lookup_used, find_external_nolock in Hu. destruct (probe w u n false) as [h'|] eqn:Epu.
    + destruct (find_own_symbol w n u) as [t|] eqn:Eu; [rewrite (Hl u n h' t Epu Eu) in Hu; done|]. injection Hu as <- <- _. by split; [exists false|].
    + destruct (find_own_symbol w n u) as [t|]; [by destruct (exported_p_nolock w t u)|done].
Qed.

Lemma resembles_lazy q h st l : resembles (Lazy q h st) l -> exists h', l = Lazy q h' st /\ like h h'.
Proof. intros H. inversion H; subst. eauto. Qed.

Lemma resembles_found s st l : resembles (Found s st) l -> l = Found s st.
Proof. intros H. by inversion H. Qed.

Lemma lookup_same_own w n p q h st s w' : evolves w w' -> listed w' -> lookup w n p = Lazy q h st -> find_own_symbol w' n q = Some s ->
  lookup w' n p = Found s st.
Proof.
  intros He Hl E Ho. destruct (ev_lookup _ _ He n p) as [Hr|(q' & h' & st' & s' & E1 & E2 & E3)].
  - rewrite E in Hr. apply resembles_lazy in Hr as (h' & E' & _). apply lazy_hit in E' as (_ & Hn & _); [|done]. congruence.
  - rewrite E in E1. injection E1 as <- <- <-. congruence.
Qed.

Lemma updater_evolves w s u : wf w -> evolves w (cl_register_setf_updater w s u).
Proof. intros Hw. unfold cl_register_setf_updater. destruct (bool_decide _); [done|]. apply quiet_evolves; [|done]. intros n q. by apply alike_same. Qed.

Lemma pair_evolves w r sr : wf w -> evolves w (materialize_pair w r sr).
Proof. intros Hw. destruct sr; [by apply updater_evolves|done]. Qed.

Lemma pair_own w r sr n q : find_own_symbol (materialize_pair w r sr) n q = find_own_symbol w n q.
Proof. destruct sr; [|done]. cbn. unfold cl_register_setf_updater. by destruct (bool_decide _). Qed.

Lemma listed_alike w w' : wf w -> listed w -> (forall n q, same_at w w' n q) -> listed w'.
Proof.
  intros Hw Hl Hs q n h t Hp Ho. pose proof (Hs n q) as [H1 H2 H3]. rewrite H1 in Ho. rewrite H2 by done.
  pose proof (probe_like w w' q n false H3) as Hlike. rewrite Hp in Hlike. inversion Hlike as [h0 h' _ X1 X2|]; subst. by apply (Hl q n h0).
Qed.


(** A materialisation of a hit: the answers stay, and the name is there now. *)
Lemma materialize_evolves w q n a h query force w' r : wf w -> listed w -> clash_free w -> probe w q n a = Some h ->
  cl_bindtab_materialize w q query h force = (w', r) ->
  wf w' /\ evolves w w' /\ listed w' /\ exists s, r = Some s /\ find_own_symbol w' n q = Some s.
Proof.
  intros Hw Hl Hc Hp. destruct (probe_has_blob _ _ _ _ _ Hp) as [blob Hb]. destruct (probe_at w q blob Hb) as [g Hg]. rewrite Hg in Hp.
  unfold cl_bindtab_materialize. destruct (materialize_build w q h) as [w1 o] eqn:E1.
  destruct (build_draft w q blob g n a h w1 o Hw Hb (Hc q blob Hb) Hp E1) as (dr & -> & Hdr & Hname).
  destruct (build_ok w q h w1 _ Hw E1) as (Hw1 & Hg1 & Hd). specialize (Hd dr eq_refl).
  destruct (build_same w q h Hw) as [Hs Hk]. rewrite E1 in Hs, Hk. cbn [fst] in Hs, Hk.
  assert (He1 : evolves w w1) by (pose proof (build_evolves w q h Hw) as He; by rewrite E1 in He).
  destruct (materialize_link w1 q dr force) as [[w2 r2] sr] eqn:E2.
  assert (Hb1 : pkg_blob w1 q = Some blob) by (unfold pkg_blob, pkg_at in *; by rewrite Hk).
  assert (Hq1 : is_Some (pkgs w1 !! q)) by (rewrite Hk; apply (probe_pkg morphos w q n a h); by rewrite Hg).
  pose proof (materialize_link_drafted w1 q blob dr force w2 r2 sr Hw1 Hq1 Hb1 Hd Hdr (listed_alike w w1 Hw Hl Hs) E2) as Hdd.
  intros [= <- <-]. pose proof (dd_wf _ _ _ _ _ _ Hdd) as Hw2. split_and!.
  - unfold materialize_pair. destruct sr; [by apply wf_updater|done].
  - transitivity w1; [done|]. transitivity w2; [apply Hdd|by apply pair_evolves].
  - apply (listed_alike w2); [done|apply Hdd|]. intros m u. destruct sr as [sr|]; [|done]. cbn. unfold cl_register_setf_updater.
    destruct (bool_decide _); [done|]. by apply alike_same.
  - destruct (want_setter h).
    + destruct Hname as [-> Hset]. destruct (dd_writer _ _ _ _ _ _ Hdd Hset) as (s & -> & Ho). exists s. by rewrite pair_own.
    + subst n. exists r2. rewrite pair_own. split; [done|]. apply (dd_own _ _ _ _ _ _ Hdd).
Qed.

(** C24: FIND-SYMBOL does not show that a table is filled on demand: it answers what
    the lookup says, building the symbol of a lazy answer, and every other
    lookup in every package answers as before. *)
Theorem find_symbol_transparent w name p : wf w -> listed w -> clash_free w ->
  let (w', r) := cl_find_symbol_with_status morphos w name p in
  wf w' /\ evolves w w' /\ listed w' /\
  match lookup w name p with
  | Absent => r = None /\ lookup w' name p = Absent
  | Found s st => r = Some (Some s, st) /\ lookup w' name p = Found s st
  | Lazy q h st => exists s, r = Some (Some s, st) /\ lookup w' name p = Found s st /\ find_own_symbol w' name q = Some s
  end.
Proof.
  intros Hw Hl Hc. unfold cl_find_symbol_with_status, lookup_and_materialize, materialize_result.
  destruct (lookup w name p) as [|s st|q h st] eqn:E; [by rewrite E|by rewrite E|].
  destruct (lazy_hit w name p q h st Hl E) as ((a & Hp) & _ & _).
  destruct (cl_bindtab_materialize w q name h false) as [w' r] eqn:E'.
  destruct (materialize_evolves w q name a h name false w' r Hw Hl Hc Hp E') as (Hw' & He & Hl' & s & -> & Ho).
  split_and!; [done..|]. exists s. split; [done|]. split; [by apply (lookup_same_own w name p q h)|done].
Qed.

End Lookups.
