(* ===== verification/PackThreads.v ===== *)
(** * Packages: interning from several threads

    The critical sections of cl_package_rwlock, and what a thread does between
    them, as turns that a schedule interleaves.  A thread interns one name: it
    looks up under the read lock, builds outside, and re-checks under the write
    lock before it links. *)

From Stdlib Require Import ZArith Lia ZifyBool.
From stdpp Require Import base option list gmap.
From S2P Require Import Prelude Bignum HashKey BindBlob BindPack Package PackWf PackOps PackLookup.
Local Open Scope Z_scope.

(** Where a thread stands in cl_intern_in. *)
Inductive pc : Type :=
| Start
| Building (q : nat) (h : Hit)                         (* a lazy hit; the lock is dropped *)
| Linking (q : nat) (dr : Draft) (setter : bool)         (* before cl_bindtab_materialize's write lock *)
| Pairing (r : nat) (sr : option nat) (result : option nat)
| Allocating                                            (* not found *)
| Entering (s : nat)                                     (* before cl_intern_in's write lock *)
| Marking (s : nat)                                      (* a fresh keyword, linked *)
| Exporting (s : nat)
| Done (r : option nat).

Record Thread : Type := { t_name : list Z; t_pkg : nat; t_pc : pc }.

Section Threads.
Context (morphos : bool) (cl_package_keyword : nat).
Abbreviation probe := (cl_bindtab_probe_nolock morphos).
Abbreviation lookup := (lookup_nolock morphos).

(** One turn of cl_intern_in. *)
Definition advance (w : World) (t : Thread) : World * pc :=
  let name := t_name t in
  let p := t_pkg t in
  match t_pc t with
  | Start =>
      (w, match lookup w name p with
          | Found s _ => Done (Some s)
          | Lazy q h _ => Building q h
          | Absent => Allocating
          end)
  | Building q h =>
      match materialize_build w q h with
      | (w, None) => (w, Done (materialize_fallback w q name))
      | (w, Some dr) => (w, Linking q dr (want_setter h))
      end
  | Linking q dr setter =>
      let '(w, r, sr) := materialize_link w q dr false in (w, Pairing r sr (if setter then sr else Some r))
  | Pairing r sr result => (materialize_pair w r sr, Done result)
  | Allocating => let (w, s) := cl_make_uninterned_symbol w name in (w, Entering s)
  | Entering s =>
      match lookup w name p with
      | Found t _ => (w, Done (Some t))
      | Lazy q h _ => (w, Building q h)
      | Absent => (cl_package_add_symbol_cell w p s, if bool_decide (p = cl_package_keyword) then Marking s else Done (Some s))
      end
  | Marking s => (set_sym w s (with_value SelfValue false true), Exporting s)
  | Exporting s => (fst (cl_export_symbol morphos w s p), Done (Some s))
  | Done r => (w, Done r)
  end.

Definition State : Type := World * list Thread.

(** The turn of thread [i]. *)
Definition turn (x : State) (i : nat) : State :=
  match x.2 !! i with
  | Some t => let (w, c) := advance x.1 t in (w, <[i := {| t_name := t_name t; t_pkg := t_pkg t; t_pc := c |}]> x.2)
  | None => x
  end.

Definition run (x : State) (schedule : list nat) : State := fold_left turn schedule x.

(** ** One thread alone is cl_intern_in *)

Definition rank (c : pc) : nat :=
  match c with
  | Start => 8 | Allocating => 7 | Entering _ => 6 | Building _ _ => 5 | Linking _ _ _ => 4 | Marking _ => 4
  | Exporting _ => 3 | Pairing _ _ _ => 3 | Done _ => 0
  end.

Lemma advance_rank w t : (rank (snd (advance w t)) <= rank (t_pc t) - 1)%nat.
Proof.
  unfold advance. destruct (t_pc t) as [|q h|q dr b|r sr res| |s|s|s|r]; cbn [snd rank]; try lia.
  - destruct (lookup _ _ _); cbn; lia.
  - destruct (materialize_build w q h) as [w' [dr|]]; cbn; lia.
  - destruct (materialize_link w q dr false) as [[w' r] sr]. cbn. lia.
  - cbn. lia.
  - destruct (lookup _ _ _); cbn; [destruct (bool_decide _); cbn| |]; lia.
Qed.

(** The turns of one thread, until it is done. *)
Fixpoint alone (fuel : nat) (w : World) (t : Thread) : World * pc :=
  match fuel with
  | O => (w, t_pc t)
  | S fuel => let (w, c) := advance w t in alone fuel w {| t_name := t_name t; t_pkg := t_pkg t; t_pc := c |}
  end.

Lemma alone_done fuel w n p r : alone fuel w {| t_name := n; t_pkg := p; t_pc := Done r |} = (w, Done r).
Proof. by induction fuel. Qed.

Lemma alone_building w n p q h : alone 5 w {| t_name := n; t_pkg := p; t_pc := Building q h |} =
  let (w, r) := cl_bindtab_materialize w q n h false in (w, Done r).
Proof.
  unfold cl_bindtab_materialize. cbn [alone advance t_pc t_name t_pkg]. destruct (materialize_build w q h) as [w1 [dr|]]; [|done].
  cbn [alone advance t_pc t_name t_pkg]. by destruct (materialize_link w1 q dr false) as [[w2 r] sr].
Qed.

Lemma alone_S fuel w t : alone (S fuel) w t =
  alone fuel (fst (advance w t)) {| t_name := t_name t; t_pkg := t_pkg t; t_pc := snd (advance w t) |}.
Proof. cbn [alone]. by destruct (advance w t). Qed.

Lemma alone_more fuel w t : (rank (t_pc t) <= fuel)%nat -> alone (S fuel) w t = alone fuel w t.
Proof.
  revert w t. induction fuel as [|fuel IH]; intros w [n p c] Hr.
  - cbn in Hr. destruct c; cbn in Hr; try lia. done.
  - rewrite (alone_S (S fuel)), (alone_S fuel w). apply IH. cbn [t_pc].
    pose proof (advance_rank w {| t_name := n; t_pkg := p; t_pc := c |}) as Ha. cbn [t_pc] in *. lia.
Qed.

Lemma alone_start w n p : alone 8 w {| t_name := n; t_pkg := p; t_pc := Start |} =
  let (w, r) := cl_intern_in morphos cl_package_keyword w n p in (w, Done r).
Proof.
  unfold cl_intern_in, cl_find_symbol_with_status, lookup_and_materialize, materialize_result.
  rewrite alone_S. unfold advance. cbn [t_pc t_name t_pkg fst snd]. destruct (lookup w n p) as [|s st|q h st].
  - rewrite alone_S. unfold advance. cbn [t_pc t_name t_pkg]. destruct (cl_make_uninterned_symbol w n) as [w1 s]. cbn [fst snd].
    rewrite alone_S. unfold advance. cbn [t_pc t_name t_pkg]. unfold intern_link. destruct (lookup w1 n p) as [|t st|q h st]; cbn [fst snd].
    + destruct (bool_decide (p = cl_package_keyword)); [|by rewrite alone_done]. done.
    + by rewrite alone_done.
    + rewrite alone_building. by destruct (cl_bindtab_materialize w1 q n h false).
  - by rewrite alone_done.
  - rewrite !alone_more by (cbn; lia). rewrite alone_building. by destruct (cl_bindtab_materialize w q n h false).
Qed.

(** ** What turns keep of answers *)

Definition finds (w : World) (n : list Z) (p s : nat) : Prop := exists st, lookup w n p = Found s st.

(** Found symbols stay found; a lazy answer stays lazy or is the symbol its
    package has now. *)
Record stable (w w' : World) : Prop := {
  sb_finds : forall n p s, finds w n p s -> finds w' n p s;
  sb_lazy : forall n p q h st, lookup w n p = Lazy q h st ->
    (exists h', lookup w' n p = Lazy q h' st) \/ exists s, finds w' n p s /\ find_own_symbol w' n q = Some s;
  sb_own : forall n q s, find_own_symbol w n q = Some s -> find_own_symbol w' n q = Some s;
  sb_bindings : forall q, bindings (pkg_at w' q) = bindings (pkg_at w q) }.

Lemma evolves_stable w w' : evolves morphos w w' -> stable w w'.
Proof.
  intros He. split; [| |apply He|intros q; apply (ev_same _ _ _ He q)].
  - intros n p s [st E]. exists st. destruct (ev_lookup _ _ _ He n p) as [Hr|(q & h & st' & s' & E' & _)]; [|congruence].
    rewrite E in Hr. by apply resembles_found.
  - intros n p q h st E. destruct (ev_lookup _ _ _ He n p) as [Hr|(q' & h' & st' & s' & E1 & E2 & E3)].
    + rewrite E in Hr. apply resembles_lazy in Hr as (h' & -> & _). eauto.
    + rewrite E in E1. injection E1 as <- <- <-. right. exists s'. split; [by exists st|done].
Qed.

(** A name that is about to be built in [q], or that a peer has built there. *)
Definition coming (w : World) (n : list Z) (p q : nat) : Prop :=
  (exists h st, lookup w n p = Lazy q h st) \/ exists s, finds w n p s /\ find_own_symbol w n q = Some s.

Lemma coming_stable w w' n p q : stable w w' -> coming w n p q -> coming w' n p q.
Proof.
  intros Hs [(h & st & E)|(s & H1 & H2)].
  - destruct (sb_lazy _ _ Hs n p q h st E) as [(h' & E')|H]; [left; eauto|by right].
  - right. exists s. split; [by apply Hs|by apply (sb_own _ _ Hs)].
Qed.

Lemma coming_found w w' n p q s : evolves morphos w w' -> listed morphos w' -> coming w n p q -> find_own_symbol w' n q = Some s -> finds w' n p s.
Proof.
  intros He Hl [(h & st & E)|(s' & H1 & H2)] Ho.
  - exists st. by apply (lookup_same_own morphos w n p q h).
  - assert (s' = s) as <- by (apply (ev_own _ _ _ He) in H2; congruence). by apply (sb_finds _ _ (evolves_stable _ _ He)).
Qed.

(** ** The invariant of a thread *)

(** The symbols a thread has made and not yet shown, or shows on its own. *)
Definition mine (c : pc) : list nat :=
  match c with
  | Linking _ dr _ => dr_sym dr :: match dr_setter dr with Some (ss, _) => [ss] | None => [] end
  | Entering s | Marking s | Exporting s => [s]
  | _ => []
  end.

Definition from_table (w : World) (n : list Z) (q : nat) (h : Hit) : Prop :=
  exists blob g a, pkg_blob w q = Some blob /\ probe_blob g blob n a = Some h.

Definition drafts (w : World) (n : list Z) (q : nat) (dr : Draft) (setter : bool) : Prop :=
  exists blob, pkg_blob w q = Some blob /\ draft_from blob dr /\ draft_ok w dr /\
    if setter then n = set_prefix ++ dr_name dr /\ is_Some (dr_setter dr) else n = dr_name dr.

(** A linked keyword whose thread has not exported it yet. *)
Definition own_keyword (w : World) (n : list Z) (p s : nat) : Prop :=
  p = cl_package_keyword /\ finds w n p s /\ find_own_symbol w n p = Some s /\ forall u, ~ exports w u s.

Definition pc_ok (w : World) (n : list Z) (p : nat) (c : pc) : Prop :=
  match c with
  | Start | Allocating => True
  | Building q h => from_table w n q h /\ coming w n p q
  | Linking q dr setter => drafts w n q dr setter /\ coming w n p q
  | Pairing _ _ r | Done r => exists s, r = Some s /\ finds w n p s
  | Entering s => hidden w s /\ s_name (sym_at w s) = n
  | Marking s | Exporting s => own_keyword w n p s
  end.

(** What every turn assumes of the packages. *)
Record calm (w : World) : Prop := {
  cm_wf : wf w;
  cm_listed : listed morphos w;
  cm_clash : clash_free w;
  cm_keyword : forall p, cl_package_keyword ∉ use_list (pkg_at w p) }.

(** A turn of a thread with [c] before and [c'] after, as the others see it. *)
Record goes (w w' : World) (c c' : pc) : Prop := {
  go_calm : calm w';
  go_grows : grows w w';
  go_stable : stable w w';
  go_hidden : forall s, s ∉ mine c -> hidden w s -> hidden w' s /\ s_name (sym_at w' s) = s_name (sym_at w s);
  go_exports : forall s, s ∉ mine c -> is_Some (syms w !! s) -> (forall u, ~ exports w u s) -> forall u, ~ exports w' u s;
  go_mine : forall s, s ∈ mine c' -> is_Some (syms w' !! s) /\ (s ∈ mine c \/ ~ is_Some (syms w !! s)) }.

Lemma blob_stable w w' q : stable w w' -> pkg_blob w' q = pkg_blob w q.
Proof. intros Hs. unfold pkg_blob. by rewrite (sb_bindings _ _ Hs). Qed.

(** Another thread's turn keeps what a thread knows. *)
Lemma pc_ok_goes w w' c c' n p d : goes w w' c c' -> (forall s, s ∈ mine d -> s ∉ mine c) -> (forall s, s ∈ mine d -> is_Some (syms w !! s)) ->
  pc_ok w n p d -> pc_ok w' n p d.
Proof.
  intros [_ _ G3 G4 G5 _] Hd His. destruct d as [|q h|q dr b|r sr res| |s|s|s|r]; cbn [pc_ok mine] in *; try done.
  - intros [(blob & g & a & Hb & Hp) Hc]. split; [|by apply (coming_stable w)]. exists blob, g, a. by rewrite (blob_stable w).
  - intros [(blob & Hb & Hf & [D1 D2 D3] & Hn) Hc]. split; [|by apply (coming_stable w)]. exists blob. rewrite (blob_stable w) by done.
    split_and!; [done|done| |done]. destruct (G4 (dr_sym dr)) as [H1 H2]; [apply Hd; by left|done|]. split; [done|by rewrite H2|].
    intros ss e Es. destruct (D3 ss e Es) as (D4 & D5 & D6). rewrite Es in Hd. destruct (G4 ss) as [H3 H4]; [apply Hd; right; by left|done|].
    split_and!; [done|by rewrite H4|done].
  - intros (s & -> & Hf). exists s. split; [done|]. by apply G3.
  - intros [H1 H2]. destruct (G4 s) as [H3 H4]; [apply Hd; by left|done|]. by rewrite H4.
  - intros (H1 & H2 & H3 & H4). split_and!; [done|by apply G3|by apply (sb_own _ _ G3)|].
    apply G5; [apply Hd; by left|apply His; by left|done].
  - intros (H1 & H2 & H3 & H4). split_and!; [done|by apply G3|by apply (sb_own _ _ G3)|].
    apply G5; [apply Hd; by left|apply His; by left|done].
  - intros (s & -> & Hf). exists s. split; [done|]. by apply G3.
Qed.

(** ** The turns *)

Lemma calm_same w w' : calm w -> wf w' -> listed morphos w' ->
  (forall q, use_list (pkg_at w' q) = use_list (pkg_at w q) /\ bindings (pkg_at w' q) = bindings (pkg_at w q)) -> calm w'.
Proof.
  intros [_ _ H3 H4] Hw Hl Hs. split; [done|done| |].
  - intros q blob. unfold pkg_blob. destruct (Hs q) as [_ ->]. apply H3.
  - intros p. destruct (Hs p) as [-> _]. apply H4.
Qed.

Lemma goes_refl w c c' : calm w -> mine c' = [] -> goes w w c c'.
Proof. intros Hc Hm. split; [done|done|by apply evolves_stable|done|done|]. rewrite Hm. by intros s ?%elem_of_nil. Qed.

(** A turn that no lookup sees. *)
Lemma goes_quiet w w' c c' : calm w -> wf w' -> grows w w' -> (forall n q, same_at w w' n q) ->
  (forall q, use_list (pkg_at w' q) = use_list (pkg_at w q) /\ exported_symbols (pkg_at w' q) = exported_symbols (pkg_at w q)) ->
  (forall s, hidden w s -> hidden w' s /\ s_name (sym_at w' s) = s_name (sym_at w s)) ->
  (forall s, s ∈ mine c' -> is_Some (syms w' !! s) /\ (s ∈ mine c \/ ~ is_Some (syms w !! s))) -> goes w w' c c'.
Proof.
  intros Hc Hw Hg Hs Hu Hh Hm. split; [|done| |intros s _; apply Hh| |done].
  - apply (calm_same w); [done|done|by apply (listed_alike morphos w); [apply Hc|apply Hc|]|].
    intros q. split; [apply Hu|apply (sa_bindings _ _ _ _ (Hs [] q))].
  - apply evolves_stable, quiet_evolves; [done|apply Hu].
  - intros s _ _ He u. unfold exports. destruct (Hu u) as [_ ->]. apply He.
Qed.

Lemma build_syms w q h w' dr : materialize_build w q h = (w', Some dr) -> forall s, s ∈ mine (Linking q dr false) -> (next w <= s)%nat.
Proof.
  unfold materialize_build. destruct (_ ≫= _) as [[b blob]|]; [|done]. set (name := entry_name _ _). set (d := default DefNone _).
  set (w1 := fst (cl_make_uninterned_symbol w name)). change (cl_make_uninterned_symbol w name) with (w1, next w). cbv beta iota zeta.
  set (w2 := install_definition w1 (next w) d). assert (Hn : next w2 = S (next w)) by (unfold w2; by destruct d).
  destruct (decode_entry _ <$> def_idx h) as [e|].
  2:{ intros [= _ <-]. cbn. intros s [->|?%elem_of_nil]%elem_of_cons; [lia|done]. }
  destruct (writable_field e).
  2:{ intros [= _ <-]. cbn. intros s [->|?%elem_of_nil]%elem_of_cons; [lia|done]. }
  change (cl_make_uninterned_symbol w2 (set_prefix ++ name)) with (fst (cl_make_uninterned_symbol w2 (set_prefix ++ name)), next w2). cbv beta iota.
  intros [= _ <-]. cbn [mine dr_sym dr_setter]. rewrite Hn. intros s [->|[->|?%elem_of_nil]%elem_of_cons]%elem_of_cons; [lia|lia|done].
Qed.

Lemma hidden_install w s d t : hidden w t -> hidden (install_definition w s d) t.
Proof. apply hidden_alike, alike_install. Qed.

Lemma make_symbol_hidden w name s : wf w -> hidden w s ->
  hidden (fst (cl_make_uninterned_symbol w name)) s /\ s_name (sym_at (fst (cl_make_uninterned_symbol w name)) s) = s_name (sym_at w s).
Proof. intros Hw Hs. split; [by apply hidden_make_symbol|]. rewrite make_symbol_sym; [done|]. apply (sym_not_next w s Hw), Hs. Qed.

Lemma build_hidden w q h s : wf w -> hidden w s ->
  hidden (fst (materialize_build w q h)) s /\ s_name (sym_at (fst (materialize_build w q h)) s) = s_name (sym_at w s).
Proof.
  intros Hw Hs. unfold materialize_build. destruct (_ ≫= _) as [[b blob]|]; [|done].
  set (name := entry_name _ _). set (d := default DefNone _). set (w1 := fst (cl_make_uninterned_symbol w name)). set (w2 := install_definition w1 (next w) d).
  change (cl_make_uninterned_symbol w name) with (w1, next w). cbv beta iota zeta. fold w2.
  destruct (make_symbol_hidden w name s Hw Hs) as [H1 N1]. fold w1 in H1, N1.
  assert (H2 : hidden w2 s) by by apply hidden_install. assert (N2 : s_name (sym_at w2 s) = s_name (sym_at w s)) by (unfold w2; by rewrite install_name).
  assert (Hw2 : wf w2) by by apply wf_install, wf_make_symbol.
  destruct (decode_entry _ <$> def_idx h) as [e|]; [|done]. destruct (writable_field e); [|done].
  destruct (make_symbol_hidden w2 (set_prefix ++ name) s Hw2 H2) as [H3 N3]. set (w3 := fst (cl_make_uninterned_symbol w2 (set_prefix ++ name))) in *.
  change (cl_make_uninterned_symbol w2 (set_prefix ++ name)) with (w3, next w2). cbn [fst]. split.
  - apply (hidden_alike w3); [by apply alike_set_sym, keeps_function|done].
  - rewrite (set_sym_keeps s_name) by done. congruence.
Qed.

Lemma turn_building w n p q h : calm w -> from_table w n q h -> coming w n p q -> let (w', c') := advance w {| t_name := n; t_pkg := p; t_pc := Building q h |} in
  goes w w' (Building q h) c' /\ pc_ok w' n p c'.
Proof.
  intros Hc (blob & g & a & Hb & Hp) Hcm. pose proof (cm_wf _ Hc) as Hw. unfold advance. cbn [t_pc t_name t_pkg].
  destruct (materialize_build w q h) as [w' o] eqn:E.
  destruct (build_draft w q blob g n a h w' o Hw Hb (cm_clash _ Hc q blob Hb) Hp E) as (dr & -> & Hdr & Hname).
  destruct (build_ok w q h w' _ Hw E) as (Hw' & Hg & Hd). specialize (Hd dr eq_refl).
  destruct (build_same w q h Hw) as [Hs Hk]. rewrite E in Hs, Hk. cbn [fst] in Hs, Hk.
  assert (Hgo : goes w w' (Building q h) (Linking q dr (want_setter h))).
  { apply goes_quiet; [done|done|done|done|intros u; unfold pkg_at; by rewrite Hk| |].
    - intros s Hh. pose proof (build_hidden w q h s Hw Hh) as H. by rewrite E in H.
    - intros s Hm. split.
      + cbn [mine] in Hm. apply elem_of_cons in Hm as [->|Hm]; [apply Hd|].
        destruct (dr_setter dr) as [[ss e]|] eqn:Es; [|by apply elem_of_nil in Hm]. apply list_elem_of_singleton in Hm as ->.
        by destruct (dk_setter _ _ Hd ss e Es) as ([? _ _ _] & _).
      + right. intros Hs'. pose proof (wf_next _ Hw s Hs'). pose proof (build_syms w q h w' dr E s Hm). lia. }
  split; [done|]. split; [|by apply (coming_stable w); [apply Hgo|]].
  exists blob. split_and!; [by rewrite (blob_stable w) by apply Hgo|done|done|done].
Qed.

(** A critical section lists no symbol but the fresh one. *)
Lemma link_entry_exports w p s name d force w' r u t : is_Some (pkgs w !! p) -> (forall t, find_own_symbol w name p = Some t -> exported_p_nolock w t p = true) ->
  link_entry w p s name d force = (w', r) -> exports w' u t -> exports w u t \/ t = s.
Proof.
  intros Hp Hex. unfold link_entry. destruct (find_own_symbol w name p) as [t0|] eqn:Ef; intros [= <- <-].
  - set (w1 := if force || definition_missing w t0 d then _ else _).
    assert (Ha : alike w w1 /\ forall t, sym_exported (sym_at w1 t) = sym_exported (sym_at w t)).
    { unfold w1. destruct (_ || _); [split; [apply alike_install|apply install_flags]|split; [apply alike_refl|done]]. }
    destruct Ha as [Ha Hf]. assert (E : exported_p_nolock w1 t0 p = true).
    { rewrite <- (Hex t0 eq_refl). destruct (al_home _ _ Ha t0) as [H1 H2]. apply exported_ext; [done|done|done|]. unfold exports. by rewrite (al_exports _ _ Ha). }
    rewrite E. unfold exports. rewrite (al_exports _ _ Ha). by left.
  - unfold exports. rewrite push_exports by by apply (grows_add w p s). rewrite !add_exports.
    destruct (decide (u = p)) as [->|]; [|by left]. rewrite elem_of_cons. tauto.
Qed.

Lemma link_setter_exports w p s name e force w' r u : link_setter w p s name e force = (w', r) ->
  exported_symbols (pkg_at w' u) = exported_symbols (pkg_at w u).
Proof. unfold link_setter. destruct (find_own_symbol w name p) as [t|]; intros [= <- _]; [by destruct (force || _)|by rewrite add_exports]. Qed.

Lemma turn_linking w n p q dr setter : calm w -> drafts w n q dr setter -> coming w n p q ->
  let (w', c') := advance w {| t_name := n; t_pkg := p; t_pc := Linking q dr setter |} in
  goes w w' (Linking q dr setter) c' /\ pc_ok w' n p c'.
Proof.
  intros Hc (blob & Hb & Hf & Hd & Hn) Hcm. pose proof (cm_wf _ Hc) as Hw. unfold advance. cbn [t_pc t_name t_pkg].
  destruct (materialize_link w q dr false) as [[w' r] sr] eqn:E.
  assert (Hq : is_Some (pkgs w !! q)) by (unfold pkg_blob in Hb; destruct (bindings (pkg_at w q)) eqn:Eb; [by eapply bindings_pkg|done]).
  pose proof (materialize_link_drafted morphos w q blob dr false w' r sr Hw Hq Hb Hd Hf (cm_listed _ Hc) E) as Hdd.
  destruct Hdd as [D1 D2 D3 D4 D5 D6 D7 D8]. split.
  - split; [by apply (calm_same w); [..|apply (ev_same _ _ _ D5)]|done|by apply evolves_stable| | |by intros s ?%elem_of_nil].
    + cbn [mine]. intros s Hs Hh. split; [|apply D3]. apply not_elem_of_cons in Hs as [H1 H2]. apply D4; [done| |done].
      intros ss e Es. rewrite Es in H2. by apply not_elem_of_cons in H2 as [? _].
    + cbn [mine]. intros s Hs _ He u Hu. unfold materialize_link in E. destruct (link_entry _ _ _ _ _ _) as [w1 r1] eqn:E1.
      assert (Hu1 : exports w1 u s).
      { destruct (dr_setter dr) as [[ss e]|]; [|by injection E as <- _ _]. destruct (link_setter _ _ _ _ _ _) as [w2 r2] eqn:E2.
        injection E as <- _ _. unfold exports in *. by rewrite (link_setter_exports _ _ _ _ _ _ _ _ u E2) in Hu. }
      apply (link_entry_exports w q (dr_sym dr) (dr_name dr) (dr_definition dr) false w1 r1 u s Hq) in Hu1; [|intros t Ht|done].
      * apply not_elem_of_cons in Hs as [Hs _]. destruct Hu1; [by apply (He u)|done].
      * destruct (probe_at morphos w q blob Hb) as [g Hg]. destruct (df_entry _ _ Hf g false) as (h & Hh & _).
        apply (cm_listed _ Hc q (dr_name dr) h t); [by rewrite Hg|done].
  - cbn [pc_ok]. destruct setter.
    + destruct Hn as [-> Hset]. destruct (D8 Hset) as (s & -> & Ho). exists s. split; [done|]. by apply (coming_found w w' _ p q).
    + subst n. exists r. split; [done|]. by apply (coming_found w w' _ p q).
Qed.

Lemma turn_start w n p : calm w -> let (w', c') := advance w {| t_name := n; t_pkg := p; t_pc := Start |} in
  goes w w' Start c' /\ pc_ok w' n p c'.
Proof.
  intros Hc. unfold advance. cbn [t_pc t_name t_pkg]. destruct (lookup w n p) as [|s st|q h st] eqn:E; (split; [by apply goes_refl|]); cbn [pc_ok].
  - done.
  - exists s. split; [done|by exists st].
  - destruct (lazy_hit morphos w n p q h st (cm_listed _ Hc) E) as ((a & Hp) & _ & _).
    destruct (probe_has_blob _ _ _ _ _ _ Hp) as [blob Hb]. destruct (probe_at morphos w q blob Hb) as [g Hg].
    split; [exists blob, g, a; by rewrite <- Hg|left; eauto].
Qed.

Lemma turn_allocating w n p : calm w -> let (w', c') := advance w {| t_name := n; t_pkg := p; t_pc := Allocating |} in
  goes w w' Allocating c' /\ pc_ok w' n p c'.
Proof.
  intros Hc. pose proof (cm_wf _ Hc) as Hw. unfold advance. cbn [t_pc t_name t_pkg].
  change (cl_make_uninterned_symbol w n) with (fst (cl_make_uninterned_symbol w n), next w). cbv beta iota zeta. split.
  - apply goes_quiet; [done|by apply wf_make_symbol|by apply grows_make_symbol|by intros; apply make_symbol_same|done|by intros; apply make_symbol_hidden|].
    cbn [mine]. intros s Hs%list_elem_of_singleton. subst s. split; [apply make_symbol_new|right; by intros ?%(sym_not_next w _ Hw)].
  - cbn [pc_ok]. split; [by apply hidden_new|apply make_symbol_new].
Qed.

Lemma turn_pairing w n p r sr res : calm w -> (exists s, res = Some s /\ finds w n p s) ->
  let (w', c') := advance w {| t_name := n; t_pkg := p; t_pc := Pairing r sr res |} in
  goes w w' (Pairing r sr res) c' /\ pc_ok w' n p c'.
Proof.
  intros Hc (s & -> & Hf). pose proof (cm_wf _ Hc) as Hw. unfold advance. cbn [t_pc t_name t_pkg].
  assert (Ha : alike w (materialize_pair w r sr) /\ forall t, sym_exported (sym_at (materialize_pair w r sr) t) = sym_exported (sym_at w t)).
  { destruct sr as [sr|]; [|split; [apply alike_refl|done]]. cbn. unfold cl_register_setf_updater.
    destruct (bool_decide _); [split; [apply alike_refl|done]|]. split; [by split; [split|..]|done]. }
  destruct Ha as [Ha Hfl]. assert (Hp : pkgs (materialize_pair w r sr) = pkgs w).
  { destruct sr as [sr|]; [|done]. cbn. unfold cl_register_setf_updater. by destruct (bool_decide _). }
  assert (Hgo : goes w (materialize_pair w r sr) (Pairing r sr (Some s)) (Done (Some s))).
  { apply goes_quiet; [done|by apply (wf_alike w)|by apply alike_grows|by intros; apply alike_same|intros q; unfold pkg_at; by rewrite Hp| |by intros t ?%elem_of_nil].
    intros t Ht. split; [by apply (hidden_alike w)|]. by destruct (st_at _ _ (al_tables _ _ Ha) t). }
  split; [done|]. cbn [pc_ok]. exists s. split; [done|]. by apply (sb_finds _ _ (go_stable _ _ _ _ Hgo)).
Qed.

Lemma own_finds w n p s : find_own_symbol w n p = Some s -> finds w n p s.
Proof. intros Ho. unfold finds, lookup_nolock. rewrite Ho. eauto. Qed.

(** The fresh symbol of an intern: only its own lookup changes. *)
Lemma intern_stable w w' n p s : calm w -> linked w w' p n s false -> lookup w n p = Absent -> stable w w' /\ listed morphos w'.
Proof.
  intros Hc Hl E. pose proof (cm_wf _ Hc) as Hw. destruct (lookup_absent _ _ _ _ E) as [Ho Hpr].
  assert (Hother : forall m u, ~ (u = p /\ m = n) -> resembles (lookup w m u) (lookup w' m u)) by by intros; apply (intern_resolved morphos w w' p n s).
  split; [split; [| | |apply (lk_same _ _ _ _ _ _ Hl)]|].
  - intros m u t [st Et]. destruct (decide (u = p /\ m = n)) as [[-> ->]|Hne]; [congruence|]. exists st.
    pose proof (Hother m u Hne) as Hr. rewrite Et in Hr. by apply resembles_found.
  - intros m u q h st Et. destruct (decide (u = p /\ m = n)) as [[-> ->]|Hne]; [congruence|]. left.
    pose proof (Hother m u Hne) as Hr. rewrite Et in Hr. apply resembles_lazy in Hr as (h' & -> & _). eauto.
  - intros m q t Ht. rewrite (lk_own _ _ _ _ _ _ Hl). by destruct (decide (q = p /\ m = n)) as [[-> ->]|]; [congruence|].
  - intros q m h t Hq Hm. pose proof (probe_like morphos w w' q m false (proj2 (lk_same _ _ _ _ _ _ Hl q))) as Hlike. rewrite Hq in Hlike.
    inversion Hlike as [h0 h' _ X1 X2|]; subst h'. destruct (decide (q = p /\ m = n)) as [[-> ->]|Hne]; [congruence|].
    pose proof (linked_same w w' p n s false m q Hw Hl Hne) as [S1 S2 _]. rewrite S1 in Hm. rewrite S2 by done. by apply (cm_listed _ Hc q m h0).
Qed.

Lemma turn_entering w n p s : calm w -> is_Some (pkgs w !! p) -> hidden w s -> s_name (sym_at w s) = n ->
  let (w', c') := advance w {| t_name := n; t_pkg := p; t_pc := Entering s |} in
  goes w w' (Entering s) c' /\ pc_ok w' n p c'.
Proof.
  intros Hc Hp Hs Hn. pose proof (cm_wf _ Hc) as Hw. unfold advance. cbn [t_pc t_name t_pkg].
  destruct (lookup w n p) as [|t st|q h st] eqn:E.
  - destruct (lookup_absent _ _ _ _ E) as [Ho Hpr].
    set (w' := cl_package_add_symbol_cell w p s). pose proof (linked_add w p s n Hw Hp Hs Hn Ho) as Hl. fold w' in Hl.
    destruct (intern_stable w w' n p s Hc Hl E) as [Hst Hl']. assert (Hw' : wf w') by by apply wf_add_symbol_cell; [..|by rewrite Hn].
    assert (Ho' : find_own_symbol w' n p = Some s) by by rewrite (lk_own _ _ _ _ _ _ Hl), decide_True.
    set (c' := if bool_decide (p = cl_package_keyword) then Marking s else Done (Some s)).
    assert (Hno : forall u, ~ exports w' u s) by (intros u; unfold exports, w'; rewrite add_exports; apply Hs). split.
    + split; [by apply (calm_same w); [..|apply (lk_same _ _ _ _ _ _ Hl)]|apply grows_add|done| | |].
      * cbn [mine]. intros t Ht Hh. rewrite list_elem_of_singleton in Ht. split; [apply hidden_add; [done|done|apply Hs|done|done]|apply add_name].
      * intros t _ _ He u. unfold exports, w'. rewrite add_exports. apply He.
      * unfold c'. destruct (bool_decide _); [|by intros t ?%elem_of_nil]. cbn [mine]. intros t Ht%list_elem_of_singleton. subst t.
        split; [apply (grows_add w p s), Hs|left; by apply list_elem_of_singleton].
    + unfold c'. destruct (bool_decide_reflect (p = cl_package_keyword)) as [->|]; cbn [pc_ok]; [split_and!; [done|by apply own_finds|done|done]|].
      exists s. split; [done|by apply own_finds].
  - split; [by apply goes_refl|]. cbn [pc_ok]. exists t. split; [done|by exists st].
  - pose proof (turn_start w n p Hc) as Ht. unfold advance in Ht. cbn [t_pc t_name t_pkg] in Ht. rewrite E in Ht. destruct Ht as [_ Ht].
    split; [by apply goes_refl|done].
Qed.

Lemma keyword_goes w n p s c c' : calm w -> own_keyword w n p s -> mine c = [s] -> mine c' = [s] ->
  goes w (set_sym w s (with_value SelfValue false true)) c c' /\ own_keyword (set_sym w s (with_value SelfValue false true)) n p s.
Proof.
  intros Hc (H1 & H2 & H3 & H4) M1 M2. set (w' := set_sym w s _). pose proof (cm_wf _ Hc) as Hw.
  assert (Ha : alike w w') by by apply alike_set_sym, keeps_value.
  assert (Hs : forall m q, same_at w w' m q) by (intros m q; apply alike_same; [done|done|]; intros t; by apply (set_sym_keeps sym_exported)).
  pose proof H3 as [Hpr _]%find_own_iff; [|done]. assert (Hgo : goes w w' c c').
  { apply goes_quiet; [done|by apply (wf_alike w)|by apply alike_grows|done|done| |].
    - intros t Ht. split; [by apply (hidden_alike w)|by apply (set_sym_keeps s_name)].
    - rewrite M1, M2. intros t Ht. split; [|by left]. apply list_elem_of_singleton in Ht. subst t. apply is_sym_set. by apply (present_sym w p). }
  split; [done|]. split_and!; [done|by apply Hgo|by apply (sb_own _ _ (go_stable _ _ _ _ Hgo))|exact H4].
Qed.

(** Exporting the keyword: an export of a present symbol nobody lists. *)
Lemma export_keyword w n p s : calm w -> own_keyword w n p s -> fst (cl_export_symbol morphos w s p) = cl_package_push_export_cell_nolock w p s.
Proof.
  intros Hc (H1 & H2 & H3 & H4). pose proof (cm_wf _ Hc) as Hw. pose proof H3 as [_ Hn]%find_own_iff; [|done].
  unfold cl_export_symbol. rewrite Hn, H3. assert (E : exported_p_nolock w s p = false) by (by apply never_exported).
  destruct (bindings (pkg_at w p)); cbn [fst]; rewrite H3; cbn [fst]; by rewrite E.
Qed.

Lemma keyword_linked w n p s : calm w -> own_keyword w n p s -> linked w (cl_package_push_export_cell_nolock w p s) p n s true.
Proof.
  intros Hc (H1 & H2 & H3 & H4). pose proof (cm_wf _ Hc) as Hw. pose proof H3 as [Hpr Hn]%find_own_iff; [|done].
  pose proof (present_sym _ _ _ Hw Hpr) as His.
  assert (Hp : is_Some (pkgs w !! p)).
  { destruct (pkgs w !! p) eqn:E; [done|]. unfold present, pkg_at in Hpr. rewrite E in Hpr. by apply elem_of_nil in Hpr. }
  split; [|intros t q; by apply push_linked|intros q|done].
  - apply own_linked; [done|apply wf_push_export; [done..|by apply never_exported]| |intros t; apply push_name|done].
    intros q t. rewrite push_present. split; [tauto|]. intros [?|[-> ->]]; done.
  - unfold cl_package_push_export_cell_nolock, mark_exported.
    change (pkg_at (set_sym (set_pkg w p ?f) s ?g) q) with (pkg_at (set_pkg w p f) q). split; by apply set_pkg_keeps.
Qed.

(** No package uses KEYWORD: nobody else sees the export. *)
Lemma keyword_other w n s w' m u : calm w -> linked w w' cl_package_keyword n s true -> ~ (u = cl_package_keyword /\ m = n) ->
  resembles (lookup w m u) (lookup w' m u).
Proof.
  intros Hc Hl Hne. pose proof (cm_wf _ Hc) as Hw. apply same_lookup; [apply (lk_same _ _ _ _ _ _ Hl)|by eapply linked_same|].
  intros x Hx. eapply linked_same; [done|done|]. intros [-> _]. by apply (cm_keyword _ Hc u).
Qed.

Lemma keyword_stable w n p s w' : calm w -> own_keyword w n p s -> linked w w' p n s true -> stable w w' /\ listed morphos w'.
Proof.
  intros Hc (-> & H2 & H3 & H4) Hl. pose proof (cm_wf _ Hc) as Hw.
  assert (Hother : forall m u, ~ (u = cl_package_keyword /\ m = n) -> resembles (lookup w m u) (lookup w' m u)) by by intros; eapply keyword_other.
  assert (Hown : forall m q t, find_own_symbol w m q = Some t -> find_own_symbol w' m q = Some t).
  { intros m q t Ht. rewrite (lk_own _ _ _ _ _ _ Hl). destruct (decide (q = cl_package_keyword /\ m = n)) as [[-> ->]|]; [congruence|done]. }
  assert (Hself : forall t st, lookup w n cl_package_keyword = Found t st -> t = s) by (unfold lookup_nolock; rewrite H3; by intros t st [= <- _]).
  split; [split; [| |done|apply (lk_same _ _ _ _ _ _ Hl)]|].
  - intros m u t [st Et]. destruct (decide (u = cl_package_keyword /\ m = n)) as [[-> ->]|Hne].
    + rewrite (Hself _ _ Et). by apply own_finds, Hown.
    + exists st. pose proof (Hother m u Hne) as Hr. rewrite Et in Hr. by apply resembles_found.
  - intros m u q h st Et. destruct (decide (u = cl_package_keyword /\ m = n)) as [[-> ->]|Hne].
    + unfold lookup_nolock in Et. by rewrite H3 in Et.
    + left. pose proof (Hother m u Hne) as Hr. rewrite Et in Hr. apply resembles_lazy in Hr as (h' & -> & _). eauto.
  - intros q m h t Hq Hm. pose proof (probe_like morphos w w' q m false (proj2 (lk_same _ _ _ _ _ _ Hl q))) as Hlike. rewrite Hq in Hlike.
    inversion Hlike as [h0 h' _ X1 X2|]; subst h'. rewrite (lk_exp _ _ _ _ _ _ Hl). destruct (decide (t = s /\ q = cl_package_keyword)); [done|].
    rewrite (lk_own _ _ _ _ _ _ Hl) in Hm. destruct (decide (q = cl_package_keyword /\ m = n)) as [[-> ->]|Hne]; [by injection Hm as <-; tauto|].
    by apply (cm_listed _ Hc q m h0).
Qed.

Lemma turn_exporting w n p s : calm w -> own_keyword w n p s ->
  let (w', c') := advance w {| t_name := n; t_pkg := p; t_pc := Exporting s |} in
  goes w w' (Exporting s) c' /\ pc_ok w' n p c'.
Proof.
  intros Hc Hk. pose proof Hk as (H1 & H2 & H3 & H4). pose proof (cm_wf _ Hc) as Hw. unfold advance. cbn [t_pc t_name t_pkg].
  rewrite (export_keyword w n p s Hc Hk). set (w' := cl_package_push_export_cell_nolock w p s).
  pose proof (keyword_linked w n p s Hc Hk) as Hl. fold w' in Hl. destruct (keyword_stable w n p s w' Hc Hk Hl) as [Hst Hl'].
  pose proof H3 as [Hpr _]%find_own_iff; [|done]. pose proof (present_sym _ _ _ Hw Hpr) as His.
  assert (Hp : is_Some (pkgs w !! p)).
  { destruct (pkgs w !! p) eqn:E; [done|]. unfold present, pkg_at in Hpr. rewrite E in Hpr. by apply elem_of_nil in Hpr. }
  split; [|cbn [pc_ok]; exists s; split; [done|by apply (sb_finds _ _ Hst)]]. split.
  - apply (calm_same w); [done| |done|apply (lk_same _ _ _ _ _ _ Hl)]. apply wf_push_export; [done..|by apply never_exported].
  - apply grows_push.
  - done.
  - cbn [mine]. intros t Ht Hh. rewrite list_elem_of_singleton in Ht. split; [by apply hidden_push|apply push_name].
  - cbn [mine]. intros t Ht _ He u. rewrite list_elem_of_singleton in Ht. unfold exports, w'. rewrite push_exports by done.
    destruct (decide (u = p)) as [->|]; [|apply He]. rewrite elem_of_cons. intros [?|?]; [done|]. by apply (He p).
  - by intros t ?%elem_of_nil.
Qed.

(** Any turn. *)
Lemma turn_ok w t : calm w -> is_Some (pkgs w !! t_pkg t) -> pc_ok w (t_name t) (t_pkg t) (t_pc t) ->
  let (w', c') := advance w t in goes w w' (t_pc t) c' /\ pc_ok w' (t_name t) (t_pkg t) c'.
Proof.
  destruct t as [n p c]. cbn [t_name t_pkg t_pc]. intros Hc Hp Hk. destruct c as [|q h|q dr b|r sr res| |s|s|s|r]; cbn [pc_ok] in Hk.
  - by apply turn_start.
  - by apply turn_building; [|apply Hk..].
  - by apply turn_linking; [|apply Hk..].
  - by apply turn_pairing.
  - by apply turn_allocating.
  - by apply turn_entering; [| |apply Hk..].
  - by apply keyword_goes.
  - by apply turn_exporting.
  - split; [by apply goes_refl|done].
Qed.

(** ** The invariant of all threads *)

Record ok (x : State) : Prop := {
  ok_calm : calm x.1;
  ok_pkg : forall i t, x.2 !! i = Some t -> is_Some (pkgs x.1 !! t_pkg t);
  ok_pc : forall i t, x.2 !! i = Some t -> pc_ok x.1 (t_name t) (t_pkg t) (t_pc t);
  ok_mine : forall i t s, x.2 !! i = Some t -> s ∈ mine (t_pc t) -> is_Some (syms x.1 !! s);
  ok_apart : forall i j t u s, x.2 !! i = Some t -> x.2 !! j = Some u -> i <> j -> s ∈ mine (t_pc t) -> s ∉ mine (t_pc u) }.

Lemma ok_turn x i : ok x -> ok (turn x i).
Proof.
  intros [K1 K2 K3 K4 K5]. destruct x as [w ts]. cbn [fst snd] in *. unfold turn. cbn [fst snd].
  destruct (ts !! i) as [t|] eqn:Ei; [|by split]. pose proof (turn_ok w t K1 (K2 i t Ei) (K3 i t Ei)) as Ht.
  destruct (advance w t) as [w' c']. destruct Ht as [Hg Hc']. set (t' := {| t_name := t_name t; t_pkg := t_pkg t; t_pc := c' |}).
  assert (Hcase : forall j u, <[i:=t']> ts !! j = Some u -> (j = i /\ u = t') \/ (j <> i /\ ts !! j = Some u)).
  { intros j u Hj. destruct (decide (j = i)) as [->|Hn]; [|rewrite list_lookup_insert_ne in Hj by done; by right].
    rewrite list_lookup_insert_eq in Hj by (by eapply lookup_lt_Some). injection Hj as <-. by left. }
  assert (Hfresh : forall j u s, j <> i -> ts !! j = Some u -> s ∈ mine c' -> s ∉ mine (t_pc u)).
  { intros j u s Hn Hj Hs Hu. destruct (go_mine _ _ _ _ Hg s Hs) as [_ [Hm|Hm]]; [by apply (K5 i j t u s)|]. by apply Hm, (K4 j u s). }
  split; cbn [fst snd].
  - apply Hg.
  - intros j u [[-> ->]|[Hn Hj]]%Hcase; apply Hg; cbn [t_pkg t']; [by apply (K2 i)|by apply (K2 j)].
  - intros j u [[-> ->]|[Hn Hj]]%Hcase; [done|]. apply (pc_ok_goes w w' (t_pc t) c'); [done| |intros s Hs; by apply (K4 j u)|by apply (K3 j)].
    intros s Hs. by apply (K5 j i u t).
  - intros j u s [[-> ->]|[Hn Hj]]%Hcase Hs; [by apply (go_mine _ _ _ _ Hg)|]. apply Hg. by apply (K4 j u).
  - intros j k u v s [[-> ->]|[Hn Hj]]%Hcase [[-> ->]|[Hn' Hk]]%Hcase Hne Hs; [done|by apply (Hfresh k)| |by apply (K5 j k u)].
    cbn [t_pc t']. intros Hs'. by apply (Hfresh j u s).
Qed.

Lemma ok_run schedule : forall x, ok x -> ok (run x schedule).
Proof. induction schedule as [|i l IH]; intros x Hx; [done|]. cbn. apply IH. by apply ok_turn. Qed.

(** The same threads, before their first turn. *)
Definition starts (w : World) (requests : list (list Z * nat)) : State :=
  (w, (fun nq => {| t_name := nq.1; t_pkg := nq.2; t_pc := Start |}) <$> requests).

Lemma ok_starts w requests : calm w -> (forall n p, (n, p) ∈ requests -> is_Some (pkgs w !! p)) -> ok (starts w requests).
Proof.
  intros Hc Hp. assert (H : forall i t, (starts w requests).2 !! i = Some t -> t_pc t = Start /\ is_Some (pkgs w !! t_pkg t)).
  { intros i t Hi. cbn in Hi. apply list_lookup_fmap_Some_1 in Hi as ([n p] & -> & Hi). split; [done|]. apply (Hp n p).
    by eapply list_elem_of_lookup_2. }
  split; cbn [fst]; [done|by intros i t [_ ?]%H|by intros i t [-> _]%H| |]; [intros i t s [-> _]%H|intros i j t u s [-> _]%H]; cbn [mine].
  - by intros ?%elem_of_nil.
  - by intros _ _ ?%elem_of_nil.
Qed.

(** Turns keep the requests, and bring the threads on. *)
Lemma turn_progress x i j t : x.2 !! j = Some t -> exists t', (turn x i).2 !! j = Some t' /\ t_name t' = t_name t /\ t_pkg t' = t_pkg t /\
  (rank (t_pc t') <= rank (t_pc t) - (if decide (i = j) then 1 else 0))%nat.
Proof.
  intros Hj. unfold turn. destruct (x.2 !! i) as [u|] eqn:Ei.
  - pose proof (advance_rank x.1 u) as Hr. destruct (advance x.1 u) as [w c]. cbn [snd] in *. destruct (decide (i = j)) as [->|Hn].
    + rewrite list_lookup_insert_eq by (by eapply lookup_lt_Some). assert (u = t) as -> by congruence. eexists. split; [done|]. cbn. split_and!; [done|done|lia].
    + rewrite list_lookup_insert_ne by done. exists t. split_and!; [done|done|done|lia].
  - exists t. destruct (decide (i = j)) as [->|]; [congruence|]. split_and!; [done|done|done|lia].
Qed.

Definition turns_of (j : nat) (schedule : list nat) : nat := length (filter (fun i => i = j) schedule).

Lemma run_progress schedule j : forall x t, x.2 !! j = Some t -> exists t', (run x schedule).2 !! j = Some t' /\ t_name t' = t_name t /\ t_pkg t' = t_pkg t /\
  (rank (t_pc t') <= rank (t_pc t) - turns_of j schedule)%nat.
Proof.
  induction schedule as [|i l IH]; intros x t Hj; [exists t; cbn; split_and!; [done|done|done|lia]|].
  destruct (turn_progress x i j t Hj) as (t1 & H1 & N1 & P1 & R1). destruct (IH (turn x i) t1 H1) as (t2 & H2 & N2 & P2 & R2).
  exists t2. split_and!; [done|congruence|congruence|]. unfold turns_of in *. rewrite filter_cons. destruct (decide (i = j)); cbn [length]; lia.
Qed.

Lemma rank_done c : rank c = 0%nat -> exists r, c = Done r.
Proof. destruct c; cbn; try lia. eauto. Qed.

(** C23: However their turns are interleaved, threads that intern keep every answer
    they gave: who is done has a symbol that a lookup of its name in its package
    finds, so two who asked for the same name have the same symbol; and eight
    turns of its own bring a thread to its end, whatever the others do. *)
Theorem concurrent_interns w requests schedule : calm w -> (forall n p, (n, p) ∈ requests -> is_Some (pkgs w !! p)) ->
  let (w', ts) := run (starts w requests) schedule in
  wf w' /\
  (forall i t r, ts !! i = Some t -> t_pc t = Done r -> exists s st, r = Some s /\ lookup w' (t_name t) (t_pkg t) = Found s st) /\
  (forall i j t u r r', ts !! i = Some t -> ts !! j = Some u -> t_pc t = Done r -> t_pc u = Done r' ->
     t_name t = t_name u -> t_pkg t = t_pkg u -> r = r') /\
  (forall i n p, requests !! i = Some (n, p) -> exists t, ts !! i = Some t /\ t_name t = n /\ t_pkg t = p /\
     ((8 <= turns_of i schedule)%nat -> exists r, t_pc t = Done r)).
Proof.
  intros Hc Hp. pose proof (ok_run schedule _ (ok_starts w requests Hc Hp)) as Hok.
  pose proof (fun i t => run_progress schedule i (starts w requests) t) as Hpr. destruct (run (starts w requests) schedule) as [w' ts].
  cbn [fst snd] in *. assert (Hdone : forall i t r, ts !! i = Some t -> t_pc t = Done r -> exists s st, r = Some s /\ lookup w' (t_name t) (t_pkg t) = Found s st).
  { intros i t r Hi Hd. pose proof (ok_pc _ Hok i t Hi) as Hk. rewrite Hd in Hk. destruct Hk as (s & -> & st & E). eauto. }
  split_and!; [apply Hok|done| |].
  - intros i j t u r r' Hi Hj Ht Hu Hn Hpk. destruct (Hdone i t r Hi Ht) as (s & st & -> & E), (Hdone j u r' Hj Hu) as (s' & st' & -> & E').
    rewrite Hn, Hpk in E. congruence.
  - intros i n p Hi. destruct (Hpr i {| t_name := n; t_pkg := p; t_pc := Start |}) as (t & Ht & Hn & Hpk & Hr).
    { unfold starts. cbn [snd]. by rewrite list_lookup_fmap, Hi. }
    exists t. split_and!; [done|done|done|]. intros H8. apply rank_done. cbn in Hr. lia.
Qed.

(** ** Interning *)

Lemma resembles_absent l : resembles Absent l -> l = Absent.
Proof. intros H. by inversion H. Qed.

Lemma resembles_same w w' m u : (forall q, use_list (pkg_at w' q) = use_list (pkg_at w q)) -> (forall n q, same_at w w' n q) ->
  resembles (lookup w m u) (lookup w' m u).
Proof. intros Hu Hs. by apply same_lookup. Qed.

(** The world an intern leaves when it links its fresh symbol. *)
Record interned (w w' : World) (n : list Z) (p s : nat) : Prop := {
  in_name : s_name (sym_at w' s) = n;
  in_home : s_package (sym_at w' s) = Some p;
  in_own : find_own_symbol w' n p = Some s;
  in_exported : exported_p_nolock w' s p = bool_decide (p = cl_package_keyword);
  in_keyword : p = cl_package_keyword -> s_value (sym_at w' s) = Some SelfValue /\ sym_constant (sym_at w' s) = true;
  in_others : forall m u, ~ (m = n /\ u = p) -> resembles (lookup w m u) (lookup w' m u) }.

Lemma interned_plain w n p s : calm w -> is_Some (pkgs w !! p) -> hidden w s -> s_name (sym_at w s) = n -> lookup w n p = Absent ->
  p <> cl_package_keyword -> interned w (cl_package_add_symbol_cell w p s) n p s.
Proof.
  intros Hc Hp Hs Hn E Hk. destruct (lookup_absent _ _ _ _ E) as [Ho _]. pose proof (linked_add w p s n (cm_wf _ Hc) Hp Hs Hn Ho) as Hl. split.
  - by rewrite add_name.
  - by rewrite add_sym, decide_True by (done || apply Hs).
  - by rewrite (lk_own _ _ _ _ _ _ Hl), decide_True.
  - rewrite bool_decide_eq_false_2 by done. by apply not_exported_added.
  - done.
  - intros m u Hne. apply (intern_resolved morphos w _ p n s); [apply Hc|done|done|tauto].
Qed.

Lemma interned_keyword w n s : let p := cl_package_keyword in
  calm w -> is_Some (pkgs w !! p) -> hidden w s -> s_name (sym_at w s) = n -> lookup w n p = Absent ->
  interned w (fst (cl_export_symbol morphos (set_sym (cl_package_add_symbol_cell w p s) s (with_value SelfValue false true)) s p)) n p s.
Proof.
  intros p Hc Hp Hs Hn E. destruct (lookup_absent _ _ _ _ E) as [Ho _]. pose proof (linked_add w p s n (cm_wf _ Hc) Hp Hs Hn Ho) as Hl.
  pose proof (turn_entering w n p s Hc Hp Hs Hn) as Ht. unfold advance in Ht. cbn [t_pc t_name t_pkg] in Ht. rewrite E, bool_decide_eq_true_2 in Ht by done.
  destruct Ht as [Hg1 Hk1]. set (w1 := cl_package_add_symbol_cell w p s) in *. cbn [pc_ok] in Hk1.
  destruct (keyword_goes w1 n p s (Marking s) (Exporting s) (go_calm _ _ _ _ Hg1) Hk1 eq_refl eq_refl) as [Hg2 Hk2].
  set (w2 := set_sym w1 s (with_value SelfValue false true)) in *. pose proof (go_calm _ _ _ _ Hg2) as Hc2.
  rewrite (export_keyword w2 n p s Hc2 Hk2). pose proof (keyword_linked w2 n p s Hc2 Hk2) as Hl2. set (w3 := cl_package_push_export_cell_nolock w2 p s) in *.
  assert (His : is_Some (syms w1 !! s)) by (apply (grows_add w p s), Hs). assert (His2 : is_Some (syms w2 !! s)) by by apply is_sym_set.
  assert (Hat : sym_at w2 s = with_value SelfValue false true (with_package (Some p) (sym_at w s))).
  { unfold w2. rewrite sym_at_set, decide_True by done. unfold w1. by rewrite add_sym, decide_True by (done || apply Hs). }
  split.
  - unfold w3. rewrite push_name, Hat. done.
  - unfold w3. rewrite push_sym, decide_True, Hat by done. done.
  - by rewrite (lk_own _ _ _ _ _ _ Hl2), decide_True.
  - by rewrite (lk_exp _ _ _ _ _ _ Hl2), decide_True, bool_decide_eq_true_2.
  - intros _. unfold w3. rewrite push_sym, decide_True, Hat by done. cbn. split; [done|apply orb_true_r].
  - intros m u Hne. transitivity (lookup w1 m u); [apply (intern_resolved morphos w _ p n s); [apply Hc|done|done|tauto]|].
    transitivity (lookup w2 m u); [|apply (keyword_other w2 n s); [done|done|unfold p in *; tauto]].
    apply resembles_same; [done|]. intros n' q. apply alike_same; [apply Hg1|by apply alike_set_sym, keeps_value|]. intros t. by apply (set_sym_keeps sym_exported).
Qed.

Lemma intern_absent w n p : calm w -> is_Some (pkgs w !! p) -> lookup w n p = Absent ->
  exists w', cl_intern_in morphos cl_package_keyword w n p = (w', Some (next w)) /\ interned w w' n p (next w).
Proof.
  intros Hc Hp E. pose proof (cm_wf _ Hc) as Hw. unfold cl_intern_in, cl_find_symbol_with_status, lookup_and_materialize, materialize_result. rewrite E.
  pose proof (turn_allocating w n p Hc) as Ht. unfold advance in Ht. cbn [t_pc t_name t_pkg] in Ht.
  change (cl_make_uninterned_symbol w n) with (fst (cl_make_uninterned_symbol w n), next w) in *. cbv beta iota zeta in *. set (w1 := fst (cl_make_uninterned_symbol w n)) in *. set (s := next w) in *.
  destruct Ht as [Hg [Hs Hn]]. pose proof (go_calm _ _ _ _ Hg) as Hc1. assert (Hp1 : is_Some (pkgs w1 !! p)) by by apply Hg.
  assert (Hres : forall m u, resembles (lookup w m u) (lookup w1 m u)) by (intros m u; apply resembles_same; [done|by intros; apply make_symbol_same]).
  assert (E1 : lookup w1 n p = Absent) by (apply resembles_absent; rewrite <- E; apply Hres).
  assert (Hback : forall w', interned w1 w' n p s -> interned w w' n p s).
  { intros w' [I1 I2 I3 I4 I5 I6]. split; try done. intros m u Hne. transitivity (lookup w1 m u); [done|by apply I6]. }
  unfold intern_link. rewrite E1. cbn [andb]. destruct (bool_decide_reflect (p = cl_package_keyword)) as [->|Hk]; eexists; (split; [done|]); apply Hback.
  - by apply interned_keyword.
  - by apply interned_plain.
Qed.

(** C26: cl_intern_in answers what the lookup answers; a name that is not found gets
    a fresh symbol, internal, or in KEYWORD an external constant that is its own
    value, and no other lookup changes. *)
Theorem cl_intern_in_correct w n p : calm w -> is_Some (pkgs w !! p) ->
  let (w', r) := cl_intern_in morphos cl_package_keyword w n p in
  wf w' /\ exists s, r = Some s /\
  match lookup w n p with
  | Found t _ => s = t /\ w' = w
  | Lazy q h st => evolves morphos w w' /\ lookup w' n p = Found s st
  | Absent =>
      ~ is_Some (syms w !! s) /\ s_name (sym_at w' s) = n /\ s_package (sym_at w' s) = Some p /\
      lookup w' n p = Found s (if decide (p = cl_package_keyword) then EXTERNAL else INTERNAL) /\
      (p = cl_package_keyword -> s_value (sym_at w' s) = Some SelfValue /\ sym_constant (sym_at w' s) = true) /\
      forall m u, ~ (m = n /\ u = p) -> resembles (lookup w m u) (lookup w' m u)
  end.
Proof.
  intros Hc Hp. pose proof (cm_wf _ Hc) as Hw. pose proof (intern_kept morphos cl_package_keyword w n p Hw Hp) as [Hk _].
  destruct (lookup w n p) as [|t st|q h st] eqn:E.
  - destruct (intern_absent w n p Hc Hp E) as (w' & Ei & [I1 I2 I3 I4 I5 I6]). rewrite Ei in *. split; [done|]. exists (next w).
    split_and!; [done|by intros ?%(sym_not_next w _ Hw)|done|done| |done|done].
    unfold lookup_nolock. rewrite I3, I4. by destruct (decide _), (bool_decide_reflect (p = cl_package_keyword)).
  - unfold cl_intern_in, cl_find_symbol_with_status, lookup_and_materialize, materialize_result. rewrite E. split; [done|]. by exists t.
  - unfold cl_intern_in, cl_find_symbol_with_status, lookup_and_materialize, materialize_result in *. rewrite E in *.
    destruct (lazy_hit morphos w n p q h st (cm_listed _ Hc) E) as ((a & Hpr) & _ & _).
    destruct (cl_bindtab_materialize w q n h false) as [w' r] eqn:Em.
    destruct (materialize_evolves morphos w q n a h n false w' r Hw (cm_listed _ Hc) (cm_clash _ Hc) Hpr Em) as (Hw' & He & Hl & s & -> & Ho).
    split; [done|]. exists s. split_and!; [done|done|]. by apply (lookup_same_own morphos w n p q h).
Qed.

End Threads.
