(* ===== verification/PackDemo.v ===== *)
(** * Packages: a small system

    Three packages, one with a binding table, one using it: the hypotheses of
    the theorems on packages hold there, and what the operations do can be
    computed. *)

From Stdlib Require Import ZArith Lia ZifyBool.
From stdpp Require Import base option list gmap.
From S2P Require Import Prelude Bignum HashKey BindBlob BindPack Package PackWf PackOps PackLookup PackThreads.
Local Open Scope Z_scope.

(** ** Checking the hypotheses *)

Definition clash_free_check (data : list Z) : bool :=
  let v := view_blob data in
  let n := seqZ 0 (vn v) in
  forallb (fun i => negb (writable_field (decode_entry v i)) ||
    forallb (fun j => negb (bool_decide (entry_name v (decode_entry v j) = set_prefix ++ entry_name v (decode_entry v i)))) n) n.

Lemma no_clash_by_check data : clash_free_check data = true -> no_clash data.
Proof.
  unfold clash_free_check. rewrite forallb_forall. intros H i j Hi Hj Hw E.
  assert (Hin : forall k, 0 <= k < vn (view_blob data) -> In k (seqZ 0 (vn (view_blob data)))) by (intros k Hk; apply list_elem_of_In, elem_of_seqZ; lia).
  specialize (H i (Hin i Hi)). rewrite Hw in H. cbn [negb orb] in H. rewrite forallb_forall in H. specialize (H j (Hin j Hj)).
  by rewrite bool_decide_eq_true_2 in H.
Qed.

(** What one package has to satisfy. *)
Definition calm_package (keyword : nat) (x : Package) : Prop :=
  concat (symbols x) = [] /\ (keyword ∉ use_list x) /\
  match bindings x ≫= bt_blob with Some blob => clash_free_check blob = true | None => True end.

#[export] Instance calm_package_dec keyword x : Decision (calm_package keyword x).
Proof. unfold calm_package. destruct (_ ≫= _); apply _. Defined.

Lemma calm_by_check morphos keyword w : wf w -> map_Forall (fun _ x => calm_package keyword x) (pkgs w) -> calm morphos keyword w.
Proof.
  intros Hw H. assert (Hat : forall q, calm_package keyword (pkg_at w q)).
  { intros q. unfold pkg_at. destruct (pkgs w !! q) as [x|] eqn:E; [by apply (H q)|]. split_and!; [done|by apply not_elem_of_nil|done]. }
  split; [done| | |intros q; apply Hat].
  - intros q n h t _ Ho. apply find_own_iff in Ho as [Hp _]; [|done]. unfold present in Hp. destruct (Hat q) as [E _]. rewrite E in Hp.
    by apply elem_of_nil in Hp.
  - intros q blob Hb. destruct (Hat q) as (_ & _ & Hc). change (pkg_blob w q) with (bindings (pkg_at w q) ≫= bt_blob) in Hb. rewrite Hb in Hc. by apply no_clash_by_check.
Qed.

(** ** The system *)

Definition KEYWORD : nat := 0.
Definition RAW : nat := 1.
Definition USER : nat := 2.

Definition packages : World := cl_make_package (cl_make_package (cl_make_package initial KEYWORD) RAW) USER.

(** RAW has the table of RUN and FIELD, USER uses it. *)
Definition system : World :=
  fst (cl_bindtab_register false (cl_use_package (fst (cl_make_uninterned_symbol packages [66])) RAW USER) RAW (ByteVector 0 example_table) (Some 0%nat) None).

Abbreviation step := (op_step false KEYWORD).

Lemma system_reachable : rtc step initial system.
Proof.
  eapply rtc_l; [apply (op_make_package _ _ _ KEYWORD); vm_compute; reflexivity|].
  eapply rtc_l; [apply (op_make_package _ _ _ RAW); vm_compute; reflexivity|].
  eapply rtc_l; [apply (op_make_package _ _ _ USER); vm_compute; reflexivity|].
  eapply rtc_l; [apply (op_make_symbol _ _ _ [66])|].
  eapply rtc_l; [apply (op_use _ _ _ RAW USER); vm_compute; eexists; reflexivity|].
  apply rtc_once. unfold system, packages. apply op_register; [vm_compute; eexists; reflexivity|done|].
  intros shift data [= <- <-]. apply Forall_forall. intros b Hb. apply list_elem_of_In in Hb.
  assert (Hc : forallb (fun b => (0 <=? b) && (b <? 256)) example_table = true) by (vm_compute; reflexivity).
  rewrite forallb_forall in Hc. apply Hc in Hb. unfold is_byte. lia.
Qed.

Lemma system_calm : calm false KEYWORD system.
Proof.
  apply calm_by_check; [apply (reachable_wf false KEYWORD), system_reachable|].
  apply (bool_decide_unpack _). vm_compute. exact I.
Qed.

Definition RUN : list Z := [82; 85; 78].
Definition FIELD : list Z := [70; 73; 69; 76; 68].
Definition FOO : list Z := [70; 79; 79].

(** USER sees RUN through RAW, as a name to be built; FOO is nowhere. *)
Lemma package_invariant_witness : rtc step initial system /\ sym_count (pkg_at system RAW) = Z.of_nat (length (concat (symbols (pkg_at system RAW)))).
Proof.
  split; [exact system_reachable|].
  destruct (package_invariant false KEYWORD system RAW system_reachable) as (_ & _ & H & _). exact H.
Defined.

Lemma find_symbol_transparent_witness :
  lookup_nolock false system RUN USER = Lazy RAW {| name_idx := 1; def_idx := Some 2; want_setter := false |} INHERITED /\
  exists s, snd (cl_find_symbol_with_status false system RUN USER) = Some (Some s, INHERITED) /\
    lookup_nolock false (fst (cl_find_symbol_with_status false system RUN USER)) RUN USER = Found s INHERITED.
Proof.
  assert (E : lookup_nolock false system RUN USER = Lazy RAW {| name_idx := 1; def_idx := Some 2; want_setter := false |} INHERITED) by (vm_compute; reflexivity).
  split; [exact E|]. pose proof system_calm as Hc.
  pose proof (find_symbol_transparent false system RUN USER (cm_wf _ _ _ Hc) (cm_listed _ _ _ Hc) (cm_clash _ _ _ Hc)) as H.
  destruct (cl_find_symbol_with_status false system RUN USER) as [w' r]. rewrite E in H. destruct H as (_ & _ & _ & s & H1 & H2 & _). exists s. split; [exact H1|exact H2].
Defined.

Lemma cl_intern_in_correct_witness :
  lookup_nolock false system FOO USER = Absent /\
  exists s, snd (cl_intern_in false KEYWORD system FOO USER) = Some s /\
    lookup_nolock false (fst (cl_intern_in false KEYWORD system FOO USER)) FOO USER = Found s INTERNAL.
Proof.
  assert (E : lookup_nolock false system FOO USER = Absent) by (vm_compute; reflexivity).
  split; [exact E|]. assert (Hp : is_Some (pkgs system !! USER)) by (vm_compute; eexists; reflexivity).
  pose proof (cl_intern_in_correct false KEYWORD system FOO USER system_calm Hp) as H.
  destruct (cl_intern_in false KEYWORD system FOO USER) as [w' r]. rewrite E in H. destruct H as (_ & s & H1 & _ & _ & _ & H2 & _). exists s. split; [exact H1|exact H2].
Defined.

(** Three threads, two of which ask for the same name of the table, turn by turn. *)
Definition requests : list (list Z * nat) := [(RUN, USER); (RUN, USER); (FOO, USER)].
Definition schedule : list nat := concat (replicate 8 [0; 1; 2]%nat).

Lemma requests_packages n p : (n, p) ∈ requests -> is_Some (pkgs system !! p).
Proof.
  unfold requests. rewrite !elem_of_cons. intros [[= _ ->]|[[= _ ->]|[[= _ ->]|H%elem_of_nil]]]; [..|done]; vm_compute; by eexists.
Qed.

Lemma concurrent_interns_witness :
  t_pc <$> snd (run false KEYWORD (starts system requests) schedule) = [Done (Some 1%nat); Done (Some 1%nat); Done (Some 3%nat)] /\
  wf (fst (run false KEYWORD (starts system requests) schedule)).
Proof.
  split; [vm_compute; reflexivity|].
  pose proof (concurrent_interns false KEYWORD system requests schedule system_calm requests_packages) as H.
  destruct (run false KEYWORD (starts system requests) schedule) as [w' ts]. exact (proj1 H).
Defined.

(** A keyword is linked before it is finished: a thread that interns it at that
    moment gets a symbol that is internal, unbound and no constant. *)
Lemma keyword_half_made :
  let x := run false KEYWORD (starts system [(FOO, KEYWORD); (FOO, KEYWORD)]) [0; 0; 0; 1]%nat in
  exists t, snd x !! 1%nat = Some t /\ t_pc t = Done (Some 1%nat) /\
    lookup_nolock false (fst x) FOO KEYWORD = Found 1 INTERNAL /\
    s_value (sym_at (fst x) 1) = None /\ sym_constant (sym_at (fst x) 1) = false.
Proof. eexists. vm_compute. repeat split. Qed.

(** ** What the operations get wrong *)

Definition interned_foo : World := fst (cl_intern_in false KEYWORD packages FOO USER).
Definition exported_foo : World := fst (cl_export_symbol false interned_foo 0 USER).

(** FOO is exported by its home USER and by RAW, which imported it.  Unexported
    from USER, it is not external in RAW either, although RAW lists it. *)
Definition shared_foo : World := fst (cl_export_symbol false (fst (cl_import_symbol false exported_foo 0 RAW)) 0 RAW).

Lemma unexport_hides_elsewhere :
  exported_p_nolock shared_foo 0 RAW = true /\
  bool_decide (exports (bi_unexport false shared_foo 0 USER) RAW 0) = true /\
  exported_p_nolock (bi_unexport false shared_foo 0 USER) 0 RAW = false.
Proof. vm_compute. repeat split. Qed.

(** An exported symbol that is uninterned stays on the export list: imported
    again, it is external at once. *)
Lemma unintern_leaves_export :
  lookup_nolock false (bi_unintern false exported_foo 0 USER) FOO USER = Absent /\
  lookup_nolock false (fst (cl_import_symbol false (bi_unintern false exported_foo 0 USER) 0 USER)) FOO USER = Found 0 EXTERNAL.
Proof. vm_compute. repeat split. Qed.

(** SHADOWING-IMPORT of a symbol that is inherited lists it as shadowing but
    does not make it present. *)
Lemma shadowing_import_not_present :
  let w := bi_shadowing_import false (cl_use_package exported_foo USER RAW) [0%nat] RAW in
  lookup_nolock false w FOO RAW = Found 0 INHERITED /\ shadowing_symbols (pkg_at w RAW) = [0%nat].
Proof. vm_compute. repeat split. Qed.

(** A symbol that GENSYM makes has no name hash.  Imported, it is linked in
    bucket 0 and is present, but its name is looked up elsewhere: it is not
    found, and a second IMPORT links it again. *)
Definition named_foo : World := fst (make_symbol packages FOO).
Definition imported_once : World := fst (cl_import_symbol false named_foo 0 USER).
Definition imported_twice : World := fst (cl_import_symbol false imported_once 0 USER).

Lemma gensym_import :
  concat (symbols (pkg_at imported_once USER)) = [0%nat] /\ lookup_nolock false imported_once FOO USER = Absent /\
  sym_count (pkg_at imported_once USER) = 1 /\ sym_count (pkg_at imported_twice USER) = 2 /\
  concat (symbols (pkg_at imported_twice USER)) = [0; 0]%nat.
Proof. vm_compute. repeat split. Qed.
